(* ===== verification/_CoqProject ===== *)
-Q . S2P
Prelude.v
Compress.v
Bitmap.v
FdTable.v
CyclicHeap.v
Cyclic.v
CyclicSoftint.v
KString.v
ModHash.v
Callout.v
CalloutSched.v
CalloutTables.v
MemList.v
DiskSort.v
SleepQ.v
RwLock.v
RwInv.v
RwProps.v
Semaphore.v
Condvar.v
CvWait.v
Pid.v
Vmem.v
VmemRep.v
VmemArena.v
VmemInv.v
VmemFree.v
VmemSpan.v
VmemSearch.v
VmemAlloc.v
VmemSys.v
VmemView.v
VmemProps.v
