(* ===== verification/Prelude.v ===== *)
(** * Core services of the Solaris 8 kernel, verified

    ** The program

    The sources are those of the Solaris 8 operating environment.  This
    development is about the machine-independent kernel, uts/common, and in it
    about the services the rest of the kernel is built on:

    - time: the cyclic subsystem (os/cyclic.c) drives the clock interrupt and
      high-resolution timers from one hardware timer per CPU; the clock
      interrupt advances [lbolt] and calls [callout_schedule], through which
      the callout tables (os/callout.c) run what [timeout] has asked for;
    - resources: the arenas of virtual memory (os/vmem.c), file descriptors
      (os/fio.c), bitmaps (os/bitmap.c), lists of physical memory
      (os/memlist_new.c), the hash tables of the device framework
      (os/modhash.c), the queue of requests of a disk (os/bdev_dsort.c),
      process IDs (os/pid.c);
    - synchronisation: readers/writer locks (os/rwlock.c), semaphores
      (os/semaphore.c) and condition variables (os/condvar.c), on which
      threads sleep in the order of their priority (os/sleepq.c, and the
      turnstiles of os/turnstile.c that hold the queues of locks);
    - data: strings and formatted output (os/string.c, krtld/kobj_subr.c) and
      the compression of crash dumps and suspended systems (os/compress.c).

    They interact through calls: the descriptor table, memory lists and hash
    tables are used by the system calls and drivers, the cyclic subsystem
    calls the clock, the clock the callouts, the callouts the functions of
    their clients.

    ** How the code is modelled

    A C function is a Rocq function with the source's name.  A function that
    can fault returns an [option]: [None] is a bad memory access, the
    dereference of [NULL] or a division by zero, so every theorem of the form
    "there is a result" is memory safety.  Results that the C code returns as
    error codes or panics are values.  A buffer is a list with checked
    accesses ([rd], [wr]); structures that are linked by pointers are cells
    of a [gmap] from cell numbers, and pointers are cell numbers, so that
    aliasing and the order of writes are those of the code.  (Only the chains
    of a hash table of modhash.c, to whose entries nothing else points, are
    lists of entries, and the older arrays that [flist_grow] and
    [cyclic_expand] keep are values.)  Integers are
    mathematical integers with the wrap-around of their width written out
    ([wrapu], [wraps]); where a type has the width of a pointer the model has
    a parameter [lp64].

    A loop is a step function on the loop's variables, iterated by [run] with
    fuel.  Running out of fuel is no result, and every theorem about a
    function with a loop states that there is one, so it includes
    termination.  The fuel is computed by the function itself: the length of
    the buffer or bitmap for loops over one, the number of memory cells for
    chains ([chain_fuel], [list_fuel]), ticks left times the number of cells
    for callouts ([execute_fuel]), expirations left for the timer interrupt
    ([fire_fuel]), the number of segments for the lists of an arena
    ([seg_fuel]); the theorems show that it is enough.

    An operation that runs under a lock, or at an interrupt level that keeps
    everything else out, is one transition.  Where the code drops a lock or
    takes none, the transitions interleave: [callout_execute] between the
    calls it makes, [timeout] while it allocates, [cyclic_softint] at its
    accesses to what others write meanwhile, the calls of a readers/writer
    lock at each access to the lock word.  ([ufalloc], which drops its lock
    around [flist_grow], is the run of one thread alone.)  Code that is not
    part of the sources under study (the interrupt backend of a platform, the handlers and functions
    that are called, memory allocation) is seen as the events the operations
    produce and as arguments: the result of an allocation, the cell it gives,
    the value of the clock.

    ** The files

    - Prelude: machine integers, faults, checked buffers, loops, and lemmas
      on bits, lists and simulations shared by the rest.
    - Compress: [compress], [decompress], [checksum32] of os/compress.c.
      Decompression restores what was compressed, within the bounds of the
      buffers, whatever the uninitialised history table holds; decompression
      of arbitrary input terminates inside its destination.
    - Bitmap: os/bitmap.c and the macros of sys/bitmap.h: each search finds
      the bit it should, with the limits set by the width of an index.
    - FdTable: descriptor allocation of os/fio.c ([fd_find], [fd_reserve],
      [ufalloc], [flist_grow], [setf], [getf], [releasef], [flist_fork]).  The
      counts that form a tree over the table agree with the descriptors in
      use, and the search through the tree is the search for the lowest free
      descriptor.
    - CyclicHeap, Cyclic, CyclicSoftint: os/cyclic.c on one CPU.  CyclicHeap
      has the heap of expiration times, Cyclic the timer interrupt
      [cyclic_fire] and the cross calls that add, remove, expand, suspend and
      resume, CyclicSoftint the lock-free soft interrupts as a step relation
      ([step]) that interleaves with them.  The timer interrupt leaves every
      cyclic due in the future.  In the interleavings that keep to two
      conditions ([mild], [reachable]) handler calls and expirations agree
      and no freed array is used: [timely] (the timer interrupt comes before
      2^31 expirations are pending) and [no_late_entry] (a resize does not
      switch the buffers in the few instructions in which a soft interrupt
      has looked at the old one for the last time, if an entry is made there
      meanwhile).  The code enforces neither; what happens without them is
      shown too.
    - KString: os/string.c and the C string routines of krtld/kobj_subr.c.
      [vsnprintf] writes a prefix of one text that does not depend on the
      buffer; numbers can be read back.
    - ModHash: os/modhash.c.  The class [HashKey] has the functions a table is
      created with, [HashKeyLaws] what the table relies on; instances for
      strings and pointers discharge it.  Every operation is the operation on
      a finite map.
    - Callout, CalloutSched, CalloutTables: os/callout.c and sys/callo.h.
      Callout has the data, the operations on one table and the proof that
      the pointers represent lists; CalloutSched the system of one table, the
      clock and any number of executing threads, and its refinement to a map
      from IDs to callouts on a clock that does not wrap ([astep],
      [refines]), with what follows for traces: nothing is called early,
      twice or never; CalloutTables the array of tables.  The operations are
      allowed under [op_ok]: the clock stays within half its range of the
      callouts that are due, and a counter of IDs does not come around to an
      ID that is still in use, as sys/callo.h assumes.
    - MemList: os/memlist_new.c.  Adding and deleting spans are union and
      difference of sets of addresses; elements are conserved.
    - DiskSort: os/bdev_dsort.c.  The chain of requests stays a one way scan.
    - SleepQ: os/sleepq.c and [turnstile_change_pri].  The three ways in which
      the threads of a queue are linked represent a list in order of
      priority, and every sequence of operations is one on lists
      ([sq_spec]).
    - RwLock, RwInv, RwProps: os/rwlock.c.  RwLock has the calls as program
      counters ([pc]) and one definition for each step between two accesses to
      the lock word, which is changed by compare-and-swap, or for each section
      under the turnstile lock, with the queues as the lists of SleepQ;
      [rstep] interleaves the steps of any set of threads, their calls and
      changes of priority.  RwInv has the invariant ([rinv]: what the word
      says about holders and waiters, in every intermediate state) and its
      preservation, RwProps what follows: exclusion and no panic, the policy
      of a handoff, calls that end, no lost wakeup, what the observers
      report.  [threads_ok] has what is assumed of addresses of threads, and
      [rw_call] that callers only exit what they hold and do not enter
      twice.
    - Semaphore: os/semaphore.c on the memory of SleepQ, with the queue the
      semaphore itself links.  Any set of threads calls it, is signalled and
      changes priority: the count is what was put in less what was taken,
      and once the threads that were woken have gone on, nobody sleeps while
      something is left.
    - Condvar, CvWait: os/condvar.c.  Condvar has the operations on the sleep
      queue that condition variables share by hashing, which are those on one
      list per condition variable ([cv_spec]); CvWait the calls that wait,
      with a timeout or for signals, as steps that interleave with wakeups,
      and what they return.
    - Pid: os/pid.c: the hash table of process IDs, the directory of processes
      with its free list, and references to IDs.  From boot on they are a
      finite map with a search for the next unused ID ([pid_spec]); [pid_ok]
      has what callers keep to.
    - Vmem: the data and operations of os/vmem.c with the macros of
      sys/vmem_impl.h and sys/sysmacros.h: boundary tags on the arena list,
      free lists by power of two with their bitmap, the hash table of
      allocated segments, and [vmem_xalloc] as the steps a thread makes
      between the places where it drops the lock.  VmemRep says what the
      pointers represent ([rep]) and VmemArena which segments are on which
      list ([arep]); VmemInv has the invariant of an arena ([arena]: spans
      tiled by segments, no two free neighbours, statistics that are sums)
      and the allocation from a segment, VmemFree the free, VmemSpan new
      spans and new arenas, VmemSearch and VmemAlloc the search, VmemView
      rescaling, [vmem_walk], [vmem_contains] and [vmem_size].  VmemSys puts
      any number of threads together and simulates a specification that only
      has spans and allocated ranges ([astate], [astep], [sim]); [legal] is
      what the callers and the source arena keep to: requests whose size,
      alignment and boundary add up to no more than the address space, spans
      that are not there yet, and sizes below half of the address space where
      the shift [1UL << VMEM_FREELISTS] is not 0 ([fits_top], [search_ends];
      the value of that shift, which C leaves undefined, is the parameter
      [top]).  A step of it has a result or is one of two panics: an
      allocation with VM_PANIC that fails, and an import that is too short
      for the alignment of its request ([short_import]).  VmemProps has the
      properties, when the second panic happens, and the search that does not
      end for larger sizes.

    Theorems whose comment begins with C and a number are the main properties;
    each one with hypotheses is followed, at the end of its file, by a lemma
    that applies it to a concrete state.  Some of them show a defect or a
    limit of the code: a resize that loses a soft interrupt, a signed count,
    a format that is read past its end, a replacement that destroys its
    entry, an element that is lost, an import that panics, a search that does
    not end.

    ** Not modelled

    Of cyclic.c the choice of a CPU and the moving of cyclics between CPUs; of
    fio.c the lists of active descriptors, poll state and the blocking part
    of closing a descriptor; of string.c the routines that only call assembly
    code; of vmem.c the bookkeeping of [vmem_populate] in the heap arena (the
    segment it brings is an input), the destruction of an arena, quantum
    caches, and auditing; of turnstile.c the hash chains, the free list and
    priority inheritance, whose effect on a queue is that priorities change;
    of rwlock.c the assembly fast paths and what calls do while the system
    panics; of condvar.c [cv_wait_stop] and the choice of threads to swap in;
    of pid.c process groups, the list of active processes and the locks of
    /proc.  The rest of the kernel is not modelled: virtual memory, file
    systems, STREAMS and networking, the dispatcher and the system calls are
    programs of their own; drivers and platform code depend on hardware and
    on assembly code; commands, libraries and third-party programs are
    outside the kernel.

    ** What could follow

    Priority inheritance through chains of turnstiles, process groups, task
    queues (taskq.c), to which callouts are dispatched, and the remaining
    parts of vmem.c, cyclic.c and fio.c. *)

From stdpp Require Import base numbers list option.
From Stdlib Require Import ZArith Lia.

#[global] Open Scope Z_scope.

(** ** Machine integers

    Unsigned C integers of width [w] are integers in [0, 2^w), kept in range
    by the reduction the hardware performs. *)

Definition wrapu (w : Z) (x : Z) : Z := x `mod` 2 ^ w.

(** Two's-complement reinterpretation of the low [w] bits. *)
Definition wraps (w : Z) (x : Z) : Z :=
  let y := x `mod` 2 ^ w in
  if y <? 2 ^ (w - 1) then y else y - 2 ^ w.

Abbreviation u8 := (wrapu 8).
Abbreviation u16 := (wrapu 16).
Abbreviation u32 := (wrapu 32).
Abbreviation u64 := (wrapu 64).
Abbreviation s32 := (wraps 32).
Abbreviation s64 := (wraps 64).

(** ** Fallible code

    [let! x := e in k] runs [e] and stops with its fault, if it has one. *)

Declare Scope kernel_scope.
Delimit Scope kernel_scope with kernel.

Notation "'let!' x := e 'in' k" :=
  (match e with Some x => k | None => None end)
  (at level 10, x pattern, e at level 100, k at level 200,
   format "'[v' 'let!'  x  :=  e  'in' '//' k ']'") : kernel_scope.

#[global] Open Scope kernel_scope.

(** ** Checked accesses to a C buffer

    A buffer is the list of its cells; a read or a write outside it is a
    fault ([None]), so that the absence of faults is memory safety. *)

Definition rd {A} (buf : list A) (i : nat) : option A := buf !! i.

Definition wr {A} (buf : list A) (i : nat) (x : A) : option (list A) :=
  if decide (i < length buf)%nat then Some (<[i := x]> buf) else None.

(** ** Hint database and tactics of the development *)

Create HintDb kernel.

(** Case analysis on the boolean comparisons the source branches on. *)
Ltac zbool :=
  repeat match goal with
  | H : (_ =? _) = true |- _ => apply Z.eqb_eq in H
  | H : (_ =? _) = false |- _ => apply Z.eqb_neq in H
  | H : (_ <? _) = true |- _ => apply Z.ltb_lt in H
  | H : (_ <? _) = false |- _ => apply Z.ltb_ge in H
  | H : (_ <=? _) = true |- _ => apply Z.leb_le in H
  | H : (_ <=? _) = false |- _ => apply Z.leb_gt in H
  | H : (_ >? _) = true |- _ => apply Z.gtb_gt in H
  | H : (_ >=? _) = true |- _ => apply Z.geb_ge in H
  | H : (_ <? _)%nat = true |- _ => apply Nat.ltb_lt in H
  | H : (_ <=? _)%nat = true |- _ => apply Nat.leb_le in H
  | H : (_ =? _)%nat = true |- _ => apply Nat.eqb_eq in H
  | H : bool_decide _ = true |- _ => apply bool_decide_eq_true in H
  | H : (_ && _)%bool = true |- _ => apply andb_prop in H as [? ?]
  | H : (_ || _)%bool = false |- _ => apply orb_false_elim in H as [? ?]
  | H : negb _ = true |- _ => apply negb_true_iff in H
  | H : negb _ = false |- _ => apply negb_false_iff in H
  end.

(** ** Machine-integer lemmas *)

Lemma wrapu_range w x : 0 <= w → 0 <= wrapu w x < 2 ^ w.
Proof. intros Hw. apply Z.mod_pos_bound. lia. Qed.

Lemma wrapu_id w x : 0 <= x < 2 ^ w → wrapu w x = x.
Proof. apply Z.mod_small. Qed.

Lemma wraps_id w x : 0 < w → - 2 ^ (w - 1) <= x < 2 ^ (w - 1) → wraps w x = x.
Proof.
  intros Hw Hx. unfold wraps.
  assert (2 ^ w = 2 * 2 ^ (w - 1)) as Hp.
  { rewrite <- Z.pow_succ_r by lia. f_equal. lia. }
  destruct (decide (0 <= x)).
  - rewrite Z.mod_small by lia. destruct (Z.ltb_spec x (2 ^ (w - 1))); lia.
  - assert (x `mod` 2 ^ w = x + 2 ^ w) as ->.
    { symmetry. apply Z.mod_unique with (-1); lia. }
    destruct (Z.ltb_spec (x + 2 ^ w) (2 ^ (w - 1))); lia.
Qed.

Lemma wraps_mod w k x : 0 <= k <= w → 0 < w → wraps w x `mod` 2 ^ k = x `mod` 2 ^ k.
Proof.
  intros Hk Hw. unfold wraps. assert (2 ^ w = 2 ^ (w - k) * 2 ^ k) as Hp.
  { rewrite <- Z.pow_add_r by lia. f_equal. lia. }
  assert ((x `mod` 2 ^ w) `mod` 2 ^ k = x `mod` 2 ^ k) as Hm.
  { apply Z.mod_mod_divide. exists (2 ^ (w - k)). lia. }
  destruct (_ <? _); [done|]. rewrite Hp at 2.
  replace (x `mod` 2 ^ w - 2 ^ (w - k) * 2 ^ k) with (x `mod` 2 ^ w + (- 2 ^ (w - k)) * 2 ^ k) by lia.
  by rewrite Z_mod_plus_full.
Qed.

Lemma wraps_wraps_add w x y : 0 < w → wraps w (wraps w x + y) = wraps w (x + y).
Proof.
  intros Hw. unfold wraps at 1 3.
  assert ((wraps w x + y) `mod` 2 ^ w = (x + y) `mod` 2 ^ w) as ->; [|done].
  rewrite Z.add_mod, wraps_mod, <- Z.add_mod by lia. done.
Qed.

Lemma wraps_idemp w x : 0 < w → wraps w (wraps w x) = wraps w x.
Proof. intros Hw. pose proof (wraps_wraps_add w x 0 Hw) as H. by rewrite !Z.add_0_r in H. Qed.

Lemma wraps_range w x : 0 < w → - 2 ^ (w - 1) <= wraps w x < 2 ^ (w - 1).
Proof.
  intros Hw. unfold wraps. assert (2 ^ w = 2 * 2 ^ (w - 1)) as Hp.
  { rewrite <- Z.pow_succ_r by lia. f_equal. lia. }
  pose proof (Z.mod_pos_bound x (2 ^ w)). destruct (Z.ltb_spec (x `mod` 2 ^ w) (2 ^ (w - 1))); lia.
Qed.

(** Wrapping respects congruence. *)
Lemma wraps_cong w x y : x `mod` 2 ^ w = y `mod` 2 ^ w → wraps w x = wraps w y.
Proof. intros H. unfold wraps. by rewrite H. Qed.

Lemma wraps_wraps_sub_l w x y : 0 < w → wraps w (wraps w x - y) = wraps w (x - y).
Proof. intros Hw. rewrite <- !Z.add_opp_r. by apply wraps_wraps_add. Qed.

Lemma wraps_wraps_sub_r w x y : 0 < w → wraps w (x - wraps w y) = wraps w (x - y).
Proof.
  intros Hw. apply wraps_cong. rewrite Zminus_mod, (Zminus_mod x y). by rewrite wraps_mod by lia.
Qed.

(** Congruent integers that are close are equal. *)
Lemma mod_eq_close n x y : 0 < n → x `mod` n = y `mod` n → Z.abs (x - y) < n → x = y.
Proof.
  intros Hn Hm Hd. pose proof (Z.div_mod x n ltac:(lia)). pose proof (Z.div_mod y n ltac:(lia)).
  assert (x `div` n = y `div` n); nia.
Qed.

Lemma wraps_inj_small w x y :
  0 < w → wraps w x = wraps w y → Z.abs (x - y) < 2 ^ w → x = y.
Proof.
  intros Hw Heq Hd. apply (mod_eq_close (2 ^ w)); [lia| |done].
  rewrite <- (wraps_mod w w x), <- (wraps_mod w w y) by lia. by rewrite Heq.
Qed.

(** ** Buffer lemmas *)

Section buffer.
Context {A : Type}.
Implicit Types (buf : list A) (i : nat) (x : A).

Lemma rd_lt buf i : (i < length buf)%nat → ∃ x, rd buf i = Some x.
Proof. intros H. unfold rd. by apply lookup_lt_is_Some in H as [x ->]; eauto. Qed.

Lemma rd_Some_lt buf i x : rd buf i = Some x → (i < length buf)%nat.
Proof. apply lookup_lt_Some. Qed.

Lemma wr_lt buf i x : (i < length buf)%nat → wr buf i x = Some (<[i := x]> buf).
Proof. intros H. unfold wr. by rewrite decide_True. Qed.

Lemma wr_Some buf i x buf' :
  wr buf i x = Some buf' →
  (i < length buf)%nat ∧ buf' = <[i := x]> buf ∧ length buf' = length buf.
Proof.
  unfold wr. case_decide; intros [= <-]. by rewrite length_insert.
Qed.

Lemma take_insert_snoc buf i x :
  (i < length buf)%nat → take (S i) (<[i := x]> buf) = take i buf ++ [x].
Proof.
  intros H. rewrite (take_S_r _ i x).
  - rewrite take_insert_ge by lia. done.
  - by apply list_lookup_insert_eq.
Qed.
End buffer.

(** ** Loops

    A C loop is a step function on the loop's variables: an iteration faults,
    goes round again or leaves the loop with a value.  [run] iterates it with
    fuel; running out of fuel is not a result, so every theorem that states
    what a loop returns also states that the loop terminates. *)

Inductive loop (S R : Type) :=
  | Next (s : S)
  | Return (r : R).
Arguments Next {S R} s.
Arguments Return {S R} r.

Fixpoint run {S R} (step : S → option (loop S R)) (fuel : nat) (s : S) : option R :=
  match fuel with
  | O => None
  | Datatypes.S fuel =>
      let! l := step s in
      match l with
      | Next s' => run step fuel s'
      | Return r => Some r
      end
  end.

Section loops.
Context {S R : Type} (step : S → option (loop S R)).

(** Total correctness of a loop: an invariant that every iteration keeps
    while a measure decreases. *)
Lemma run_total (I : S → Prop) (Q : R → Prop) (m : S → nat) :
  (∀ s, I s → ∃ l, step s = Some l ∧
     match l with Next s' => I s' ∧ (m s' < m s)%nat | Return r => Q r end) →
  ∀ fuel s, I s → (m s < fuel)%nat → ∃ r, run step fuel s = Some r ∧ Q r.
Proof.
  intros Hstep. induction fuel as [|fuel IH]; intros s HI Hm; [lia|].
  destruct (Hstep s HI) as (l & Hl & Hpost). cbn. rewrite Hl. cbn.
  destruct l as [s'|r]; [|eauto].
  destruct Hpost as [HI' Hlt]. apply IH; [done|lia].
Qed.

(** The same with a measure that is part of the invariant. *)
Lemma run_total_idx (I : nat → S → Prop) (Q : R → Prop) :
  (∀ n s, I n s → ∃ l, step s = Some l ∧
     match l with Next s' => ∃ n', (n' < n)%nat ∧ I n' s' | Return r => Q r end) →
  ∀ fuel n s, I n s → (n < fuel)%nat → ∃ r, run step fuel s = Some r ∧ Q r.
Proof.
  intros Hstep. induction fuel as [|fuel IH]; intros n s HI Hn; [lia|].
  destruct (Hstep n s HI) as (l & Hl & Hpost). cbn. rewrite Hl. cbn.
  destruct l as [s'|r]; [|eauto]. destruct Hpost as (n' & Hlt & HI'). apply (IH n'); [done|lia].
Qed.

(** More fuel does not change the result. *)
Lemma run_mono fuel fuel' s r :
  run step fuel s = Some r → (fuel <= fuel')%nat → run step fuel' s = Some r.
Proof.
  revert fuel' s. induction fuel as [|fuel IH]; intros fuel' s; [done|].
  destruct fuel' as [|fuel']; [lia|]. cbn. intros Hrun Hle.
  destruct (step s) as [[s'|r']|]; cbn in *; [|done|done].
  apply IH; [done|lia].
Qed.
End loops.

(** Two loops whose iterations correspond give corresponding results. *)
Section simulation.
Context {S1 R1 S2 R2 : Type} (step1 : S1 → option (loop S1 R1)) (step2 : S2 → option (loop S2 R2)).
Context (R : S1 → S2 → Prop) (Q : R1 → R2 → Prop).

Definition loop_rel (l1 : loop S1 R1) (l2 : loop S2 R2) : Prop :=
  match l1, l2 with
  | Next s1, Next s2 => R s1 s2
  | Return r1, Return r2 => Q r1 r2
  | _, _ => False
  end.

Lemma run_sim :
  (∀ s1 s2, R s1 s2 → option_Forall2 loop_rel (step1 s1) (step2 s2)) →
  ∀ fuel s1 s2, R s1 s2 → option_Forall2 Q (run step1 fuel s1) (run step2 fuel s2).
Proof.
  intros Hstep. induction fuel as [|fuel IH]; intros s1 s2 HR; cbn [run]; [constructor|].
  destruct (Hstep s1 s2 HR) as [l1 l2 Hl|]; [|constructor].
  destruct l1, l2; cbn in Hl; try done; [by apply IH|by constructor].
Qed.
End simulation.

(** ** Bit-level lemmas *)

Lemma lor_shiftl_add a b n :
  0 <= n → 0 <= b < 2 ^ n → Z.lor (Z.shiftl a n) b = a * 2 ^ n + b.
Proof.
  intros Hn Hb. rewrite <- (Z.shiftl_mul_pow2 a n) by done.
  assert (Z.land (Z.shiftl a n) b = 0) as Hland.
  { apply Z.bits_inj'. intros i Hi. rewrite Z.land_spec, Z.bits_0.
    destruct (decide (i < n)).
    - by rewrite Z.shiftl_spec_low.
    - destruct (decide (b = 0)) as [->|]; [by rewrite Z.bits_0, andb_false_r|].
      rewrite (Z.bits_above_log2 b i), andb_false_r; [done|lia|].
      apply Z.lt_le_trans with n; [|lia]. apply Z.log2_lt_pow2; lia. }
  rewrite Z.add_nocarry_lxor by done. by rewrite Z.lxor_lor.
Qed.

Lemma land_ones_mod x n : 0 <= n → Z.land x (Z.ones n) = x `mod` 2 ^ n.
Proof. apply Z.land_ones. Qed.

Lemma land_le_r a b : 0 <= b → Z.land a b <= b.
Proof.
  intros Hb. assert (b - Z.land a b = Z.ldiff b (Z.land a b)) as E.
  { apply Z.sub_nocarry_ldiff. apply Z.bits_inj'. intros i Hi. rewrite Z.ldiff_spec, Z.land_spec, Z.bits_0.
    by destruct (Z.testbit a i), (Z.testbit b i). }
  assert (0 <= Z.ldiff b (Z.land a b)) by (apply Z.ldiff_nonneg; by left). lia.
Qed.

(** ** Counting over an integer range *)

(** The number of [i] in [a, a + n) with [P i]. *)
Fixpoint count (P : Z → bool) (a : Z) (n : nat) : Z :=
  match n with
  | O => 0
  | S n => (if P a then 1 else 0) + count P (a + 1) n
  end.

Lemma count_range P a n : 0 <= count P a n <= Z.of_nat n.
Proof.
  revert a. induction n as [|n IH]; intros a; cbn [count]; [lia|].
  specialize (IH (a + 1)). destruct (P a); lia.
Qed.

Lemma count_app P a n m :
  count P a (n + m) = count P a n + count P (a + Z.of_nat n) m.
Proof.
  revert a. induction n as [|n IH]; intros a; cbn [count Nat.add].
  { rewrite Nat2Z.inj_0, Z.add_0_r. lia. }
  rewrite IH. replace (a + 1 + Z.of_nat n) with (a + Z.of_nat (S n)) by lia.
  destruct (P a); lia.
Qed.

Lemma count_ext P Q a n :
  (∀ i, a <= i < a + Z.of_nat n → P i = Q i) → count P a n = count Q a n.
Proof.
  revert a. induction n as [|n IH]; intros a H; cbn [count]; [done|].
  rewrite H by lia. f_equal. apply IH. intros i Hi. apply H. lia.
Qed.

Lemma count_full P a n :
  count P a n = Z.of_nat n ↔ ∀ i, a <= i < a + Z.of_nat n → P i = true.
Proof.
  revert a. induction n as [|n IH]; intros a; cbn [count]; [split; [lia|done]|].
  pose proof (count_range P (a + 1) n). specialize (IH (a + 1)). split.
  - intros Hc i Hi. destruct (P a) eqn:E; [|lia].
    destruct (decide (i = a)) as [->|]; [done|].
    apply (proj1 IH); lia.
  - intros Hall. rewrite Hall by lia.
    assert (count P (a + 1) n = Z.of_nat n); [|lia]. apply (proj2 IH). intros i Hi. apply Hall. lia.
Qed.

Lemma count_zero P a n :
  (∀ i, a <= i < a + Z.of_nat n → P i = false) → count P a n = 0.
Proof.
  revert a. induction n as [|n IH]; intros a H; cbn [count]; [done|].
  rewrite H by lia. rewrite IH; [done|]. intros i Hi. apply H. lia.
Qed.

(** Changing the predicate at one point of the range. *)
Lemma count_update P Q a n x :
  a <= x < a + Z.of_nat n → (∀ i, i ≠ x → P i = Q i) →
  count P a n + (if Q x then 1 else 0) = count Q a n + (if P x then 1 else 0).
Proof.
  revert a. induction n as [|n IH]; intros a Hx Hne; cbn [count]; [lia|].
  destruct (decide (x = a)) as [->|].
  - rewrite (count_ext P Q (a + 1) n); [destruct (P a), (Q a); lia|].
    intros i Hi. apply Hne. lia.
  - rewrite (Hne a) by done. specialize (IH (a + 1) ltac:(lia) Hne).
    destruct (Q a), (P x), (Q x); lia.
Qed.

(** The same with an integer length. *)
Definition countz (P : Z → bool) (a len : Z) : Z := count P a (Z.to_nat len).

Lemma countz_range P a len : 0 <= len → 0 <= countz P a len <= len.
Proof. intros H. unfold countz. pose proof (count_range P a (Z.to_nat len)). lia. Qed.

Lemma countz_app P a n m :
  0 <= n → 0 <= m → countz P a (n + m) = countz P a n + countz P (a + n) m.
Proof.
  intros Hn Hm. unfold countz. rewrite Z2Nat.inj_add, count_app by done.
  by rewrite Z2Nat.id.
Qed.

Lemma countz_full P a len :
  0 <= len → (countz P a len = len ↔ ∀ i, a <= i < a + len → P i = true).
Proof.
  intros Hl. unfold countz. pose proof (count_full P a (Z.to_nat len)) as H.
  by rewrite Z2Nat.id in H.
Qed.

Lemma countz_ext P Q a len :
  0 <= len → (∀ i, a <= i < a + len → P i = Q i) → countz P a len = countz Q a len.
Proof. intros Hl H. apply count_ext. intros i Hi. apply H. lia. Qed.

Lemma countz_zero P a len :
  0 <= len → (∀ i, a <= i < a + len → P i = false) → countz P a len = 0.
Proof. intros Hl H. apply count_zero. intros i Hi. apply H. lia. Qed.

Lemma countz_update P Q a len x :
  a <= x < a + len → (∀ i, i ≠ x → P i = Q i) →
  countz P a len + (if Q x then 1 else 0) = countz Q a len + (if P x then 1 else 0).
Proof. intros Hx H. apply count_update; [lia|done]. Qed.

Lemma countz_0 P a : countz P a 0 = 0.
Proof. done. Qed.

(** The existence of a point outside [P] in a range that is not full. *)
Lemma countz_not_full P a len :
  0 <= len → countz P a len ≠ len → ∃ i, a <= i < a + len ∧ P i = false.
Proof.
  intros Hl Hne. unfold countz in Hne.
  assert (∀ n a, count P a n ≠ Z.of_nat n → ∃ i, a <= i < a + Z.of_nat n ∧ P i = false) as H.
  { clear. induction n as [|n IH]; intros a Hne; [done|]. cbn [count] in Hne.
    destruct (P a) eqn:E; [|exists a; split; [lia|done]].
    destruct (IH (a + 1)) as (i & Hi & HP); [lia|]. exists i. split; [lia|done]. }
  destruct (H (Z.to_nat len) a) as (i & Hi & HP); [lia|]. exists i. split; [lia|done].
Qed.

(** ** Sums *)

Lemma sum_list_with_lt {A} (f g : A → nat) l x :
  x ∈ l → (g x < f x)%nat → (∀ y, g y <= f y)%nat → (sum_list_with g l < sum_list_with f l)%nat.
Proof.
  intros Hx Hlt Hle. induction Hx as [x l|x y l Hx IH]; cbn; [|specialize (Hle y); specialize (IH Hlt); lia].
  enough (sum_list_with g l <= sum_list_with f l)%nat by lia.
  clear -Hle. induction l as [|y l IH]; cbn; [lia|]. specialize (Hle y). lia.
Qed.

(** ** Chains of pointers *)

(** The cells [l] are linked by [L], and the last one points to [n]. *)
Fixpoint lseg (L : Z → option Z) (l : list Z) (n : Z) : Prop :=
  match l with
  | [] => True
  | x :: l' => L x = Some (hd n l') ∧ lseg L l' n
  end.

Section chains.
Implicit Types (L : Z → option Z) (l : list Z).

Lemma hd_app n l1 l2 : hd n (l1 ++ l2) = hd (hd n l2) l1.
Proof. by destruct l1. Qed.

Lemma lseg_app L l1 l2 n : lseg L (l1 ++ l2) n ↔ lseg L l1 (hd n l2) ∧ lseg L l2 n.
Proof. induction l1 as [|x l1 IH]; cbn; [tauto|]. rewrite IH, hd_app. tauto. Qed.

Lemma lseg_ext L L' l n : (∀ x, x ∈ l → L' x = L x) → lseg L l n → lseg L' l n.
Proof.
  induction l as [|x l IH]; cbn; [done|]. intros He [Hx Hl]. split; [rewrite He by constructor; done|].
  apply IH; [|done]. intros y Hy. apply He. by constructor.
Qed.
End chains.
