(* ===== verification/Compress.v ===== *)
(** * Compress: the LZJB compressor of crash dumps and CPR images

    Models [uts/common/os/compress.c]: [compress], [decompress] and
    [checksum32].  Buffers are lists of bytes; pointers into them are offsets
    from the buffer's start, except where the source uses a pointer's numeric
    value (the Lempel history holds the low 16 bits of source addresses), for
    which the address [s_addr] of the source buffer is a parameter.  The
    history is not initialised by the source, so its initial contents are an
    argument of [compress] and the theorems hold for all of them. *)

From stdpp Require Import base numbers list option.
From Stdlib Require Import ZArith Lia.
From S2P Require Import Prelude.

Definition NBBY : Z := 8.
Definition MATCH_BITS : Z := 6.
Definition MATCH_MIN : nat := 3.
Definition MATCH_MAX : Z := Z.shiftl 1 MATCH_BITS + (Z.of_nat MATCH_MIN - 1).
Definition OFFSET_MASK : Z := Z.shiftl 1 (16 - MATCH_BITS) - 1.
Definition LEMPEL_SIZE : Z := 256.

(** ** compress() *)

(** The local variables of [compress]; [c_buf] is the destination buffer. *)
Record cstate := CState {
  c_src : nat;
  c_dst : nat;
  c_buf : list Z;
  c_copymap : nat;
  c_copymask : Z;
  c_lempel : list Z;
}.

(** [n] rounds of [*dst++ = *src++]. *)
Fixpoint copy_bytes (n : nat) (s : list Z) (src dst : nat) (buf : list Z) : option (list Z) :=
  match n with
  | O => Some buf
  | S n =>
      let! x := rd s src in
      let! buf := wr buf dst x in
      copy_bytes n s (S src) (S dst) buf
  end.

Section compress.
Context (s_addr : Z) (s : list Z) (s_len : nat).

(** The [for (mlen = MATCH_MIN; mlen < MATCH_MAX; mlen++)] loop, with [n]
    iterations left. *)
Fixpoint match_len (n mlen src cpy : nat) : option nat :=
  match n with
  | O => Some mlen
  | S n =>
      let! a := rd s (src + mlen) in
      let! b := rd s (cpy + mlen) in
      if a =? b then match_len n (S mlen) src cpy else Some mlen
  end.

(** [*dst++ = *src++]. *)
Definition literal (st : cstate) : option (loop cstate (nat * list Z)) :=
  let! x := rd s (c_src st) in
  let! buf := wr (c_buf st) (c_dst st) x in
  Some (Next (CState (S (c_src st)) (S (c_dst st)) buf
                (c_copymap st) (c_copymask st) (c_lempel st))).

(** The tests on [cpy]: inside the source, not [src] itself, and a match of
    the first three bytes. *)
Definition cpy_matches (src : nat) (cpy : Z) (b0 b1 b2 : Z) : option bool :=
  if (cpy >=? 0) && negb (cpy =? Z.of_nat src) then
    let! c0 := rd s (Z.to_nat cpy) in
    if b0 =? c0 then
      let! c1 := rd s (Z.to_nat cpy + 1) in
      if b1 =? c1 then
        let! c2 := rd s (Z.to_nat cpy + 2) in
        Some (b2 =? c2)
      else Some false
    else Some false
  else Some false.

(** The loop body after the copymap has been set up: emit one item. *)
Definition compress_item (st : cstate) : option (loop cstate (nat * list Z)) :=
  let src := c_src st in
  if Z.of_nat src >? Z.of_nat s_len - MATCH_MAX then literal st
  else
    let! b0 := rd s src in
    let! b1 := rd s (src + 1) in
    let! b2 := rd s (src + 2) in
    let hp := Z.to_nat (Z.land (Z.lxor (Z.lxor (b0 + 13) (b1 - 13)) b2)
                          (LEMPEL_SIZE - 1)) in
    let! h := rd (c_lempel st) hp in
    let offset := Z.land (s_addr + Z.of_nat src - h) OFFSET_MASK in
    let! lempel := wr (c_lempel st) hp (u16 (s_addr + Z.of_nat src)) in
    let cpy := Z.of_nat src - offset in
    let! ok := cpy_matches src cpy b0 b1 b2 in
    if ok then
      let! map := rd (c_buf st) (c_copymap st) in
      let! buf := wr (c_buf st) (c_copymap st) (Z.lor map (c_copymask st)) in
      let! mlen := match_len (Z.to_nat MATCH_MAX - MATCH_MIN) MATCH_MIN src (Z.to_nat cpy) in
      let! buf := wr buf (c_dst st)
              (u8 (Z.lor (Z.shiftl (Z.of_nat (mlen - MATCH_MIN)) (NBBY - MATCH_BITS))
                         (Z.shiftr offset NBBY))) in
      let! buf := wr buf (S (c_dst st)) (u8 offset) in
      Some (Next (CState (src + mlen) (S (S (c_dst st))) buf
                    (c_copymap st) (c_copymask st) lempel))
    else
      literal (CState src (c_dst st) (c_buf st) (c_copymap st) (c_copymask st) lempel).

(** The bail-out: [mlen = s_len; for (...; mlen; mlen--) *dst++ = *src++].
    [mlen] is an [int]: a length it cannot hold makes the copy run away. *)
Definition raw_copy (buf : list Z) : option (list Z) :=
  let mlen := s32 (Z.of_nat s_len) in
  if mlen <? 0 then None else copy_bytes (Z.to_nat mlen) s 0 0 buf.

(** One iteration of [while (src < s_start + s_len)]. *)
Definition compress_step (st : cstate) : option (loop cstate (nat * list Z)) :=
  if Z.of_nat (c_src st) <? Z.of_nat s_len then
    let copymask := Z.shiftl (c_copymask st) 1 in
    if copymask =? Z.shiftl 1 NBBY then
      if Z.of_nat (c_dst st) >=? Z.of_nat s_len - 1 - 2 * NBBY then
        let! buf := raw_copy (c_buf st) in
        Some (Return (s_len, buf))
      else
        let! buf := wr (c_buf st) (c_dst st) 0 in
        compress_item (CState (c_src st) (S (c_dst st)) buf (c_dst st) 1 (c_lempel st))
    else
      compress_item (CState (c_src st) (c_dst st) (c_buf st)
                       (c_copymap st) copymask (c_lempel st))
  else Some (Return (c_dst st, c_buf st)).

(** [compress(s_start, d_start, s_len)]: the size returned and the final
    contents of the destination buffer [d].  [copymap] is unset until the
    first iteration sets it. *)
Definition compress (d lempel : list Z) : option (nat * list Z) :=
  run compress_step (S s_len)
    (CState 0 0 d 0 (Z.shiftl 1 (NBBY - 1)) lempel).
End compress.

(** ** decompress() *)

Record dstate := DState {
  d_src : nat;
  d_dst : nat;
  d_buf : list Z;
  d_copymap : Z;
  d_copymask : Z;
}.

(** [while (--mlen >= 0 && dst < d_end) *dst++ = *cpy++]; the copy reads the
    destination buffer, so a copy item may overlap what it writes. *)
Fixpoint copy_back (mlen : nat) (d_len cpy dst : nat) (buf : list Z) : option (nat * list Z) :=
  match mlen with
  | O => Some (dst, buf)
  | S mlen =>
      if (dst <? d_len)%nat then
        let! x := rd buf cpy in
        let! buf := wr buf dst x in
        copy_back mlen d_len (S cpy) (S dst) buf
      else Some (dst, buf)
  end.

Section decompress.
Context (s : list Z) (s_len d_len : nat).

(** The item at [d_src], under the current copymap and copymask. *)
Definition decompress_item (st : dstate) : option (loop dstate (nat * list Z)) :=
  let src := d_src st in
  if Z.land (d_copymap st) (d_copymask st) =? 0 then
    let! x := rd s src in
    let! buf := wr (d_buf st) (d_dst st) x in
    Some (Next (DState (S src) (S (d_dst st)) buf (d_copymap st) (d_copymask st)))
  else
    let! b0 := rd s src in
    let! b1 := rd s (src + 1) in
    let mlen := Z.shiftr b0 (NBBY - MATCH_BITS) + Z.of_nat MATCH_MIN in
    let offset := Z.land (Z.lor (Z.shiftl b0 NBBY) b1) OFFSET_MASK in
    let cpy := Z.of_nat (d_dst st) - offset in
    if cpy >=? 0 then
      let! (dst, buf) := copy_back (Z.to_nat mlen) d_len (Z.to_nat cpy) (d_dst st) (d_buf st) in
      Some (Next (DState (src + 2) dst buf (d_copymap st) (d_copymask st)))
    else Some (Return (d_dst st, d_buf st)).

(** One iteration of [while (src < s_end && dst < d_end)]. *)
Definition decompress_step (st : dstate) : option (loop dstate (nat * list Z)) :=
  if (d_src st <? s_len)%nat && (d_dst st <? d_len)%nat then
    let copymask := Z.shiftl (d_copymask st) 1 in
    if copymask =? Z.shiftl 1 NBBY then
      let! copymap := rd s (d_src st) in
      decompress_item (DState (S (d_src st)) (d_dst st) (d_buf st) copymap 1)
    else
      decompress_item (DState (d_src st) (d_dst st) (d_buf st) (d_copymap st) copymask)
  else Some (Return (d_dst st, d_buf st)).

(** [decompress(s_start, d_start, s_len, d_len)] into the buffer [d]. *)
Definition decompress (d : list Z) : option (nat * list Z) :=
  if (d_len <=? s_len)%nat then
    let! buf := copy_bytes d_len s 0 0 d in
    Some (d_len, buf)
  else
    run decompress_step (S d_len) (DState 0 0 d 0 (Z.shiftl 1 (NBBY - 1))).
End decompress.

(** ** checksum32() *)

(** One round: rotate the sum right by one bit, then add the byte, modulo
    2^32. *)
Definition checksum_round (sum byte : Z) : Z :=
  let sum := if Z.land sum 1 =? 0 then Z.shiftr sum 1
             else u32 (Z.shiftr sum 1 + 2147483648) in
  u32 (sum + byte).

Definition checksum32 (bytes : list Z) : Z := fold_left checksum_round bytes 0.

(** The worked example of the source's header comment. *)
Definition yadda : list Z :=
  [121; 97; 100; 100; 97; 95; 121; 97; 100; 100; 97; 95; 121; 97; 100; 100; 97; 44].

Definition pad (n : nat) : list Z := replicate n 7.

Definition yadda_padded : list Z := yadda ++ pad 100.

(** ** Proofs *)

(** *** Copy loops *)

Lemma copy_bytes_spec n s src dst buf :
  (src + n <= length s)%nat → (dst + n <= length buf)%nat →
  ∃ buf', copy_bytes n s src dst buf = Some buf' ∧ length buf' = length buf ∧
    take (dst + n) buf' = take dst buf ++ take n (drop src s).
Proof.
  revert src dst buf. induction n as [|n IH]; intros src dst buf Hs Hb; cbn.
  - eexists. split; [done|]. rewrite Nat.add_0_r, app_nil_r. done.
  - destruct (rd_lt s src) as [x Hx]; [lia|]. rewrite Hx, wr_lt by lia.
    destruct (IH (S src) (S dst) (<[dst:=x]> buf)) as (buf' & -> & Hlen & Htk);
      [lia|rewrite length_insert; lia|].
    eexists. split; [done|]. rewrite length_insert in Hlen. split; [done|].
    replace (dst + S n)%nat with (S dst + n)%nat by lia.
    rewrite Htk, take_insert_snoc by lia. rewrite <- app_assoc. f_equal.
    by rewrite (drop_S s x src Hx).
Qed.

Lemma copy_back_spec n d_len s cpy dst buf :
  (cpy < dst)%nat → (dst + n <= d_len)%nat → (d_len <= length buf)%nat →
  take dst buf = take dst s →
  (∀ i, (i < n)%nat → ∃ x, s !! (dst + i)%nat = Some x ∧ s !! (cpy + i)%nat = Some x) →
  ∃ buf', copy_back n d_len cpy dst buf = Some ((dst + n)%nat, buf') ∧
    length buf' = length buf ∧ take (dst + n) buf' = take (dst + n) s.
Proof.
  revert cpy dst buf. induction n as [|n IH]; intros cpy dst buf Hlt Hd Hl Htk Hi; cbn [copy_back].
  - rewrite Nat.add_0_r. eauto.
  - destruct (Nat.ltb_spec dst d_len); [|lia].
    destruct (Hi 0%nat) as (x & Hx & Hc); [lia|]. rewrite Nat.add_0_r in Hx, Hc.
    assert (rd buf cpy = Some x) as ->.
    { unfold rd. rewrite <- (lookup_take_lt buf dst cpy) by lia.
      rewrite Htk, lookup_take_lt by lia. done. }
    rewrite wr_lt by lia.
    destruct (IH (S cpy) (S dst) (<[dst:=x]> buf)) as (buf' & -> & Hlen & Htk').
    + lia.
    + lia.
    + rewrite length_insert. lia.
    + rewrite take_insert_snoc by lia. rewrite Htk. by rewrite (take_S_r s dst x).
    + intros i Hin. destruct (Hi (S i)) as (y & Hy1 & Hy2); [lia|].
      exists y. split; [rewrite <- Hy1|rewrite <- Hy2]; f_equal; lia.
    + replace (dst + S n)%nat with (S dst + n)%nat by lia.
      exists buf'. rewrite length_insert in Hlen. done.
Qed.

(** *** The match loop *)

Lemma match_len_spec s n mlen src cpy :
  (cpy <= src)%nat → (src + mlen + n <= length s)%nat →
  (∀ i, (i < mlen)%nat → ∃ x, s !! (src + i)%nat = Some x ∧ s !! (cpy + i)%nat = Some x) →
  ∃ mlen', match_len s n mlen src cpy = Some mlen' ∧
    (mlen <= mlen' <= mlen + n)%nat ∧
    ∀ i, (i < mlen')%nat → ∃ x, s !! (src + i)%nat = Some x ∧ s !! (cpy + i)%nat = Some x.
Proof.
  revert mlen. induction n as [|n IH]; intros mlen Hc Hl Hi; cbn.
  - exists mlen. split; [done|]. split; [lia|done].
  - destruct (rd_lt s (src + mlen)) as [a Ha]; [lia|].
    destruct (rd_lt s (cpy + mlen)) as [b Hb]; [lia|].
    rewrite Ha, Hb. destruct (Z.eqb_spec a b) as [->|Hne].
    + destruct (IH (S mlen)) as (m & Hm & Hr & Hall); [done|lia| |].
      * intros i Hlt. destruct (decide (i = mlen)) as [->|]; [eauto|apply Hi; lia].
      * exists m. split; [done|]. split; [lia|done].
    + exists mlen. split; [done|]. split; [lia|done].
Qed.

(** *** The two bytes of a copy item *)

Lemma copy_item_bytes (l offset : Z) :
  0 <= l < 64 → 0 <= offset < 1024 →
  let b0 := u8 (Z.lor (Z.shiftl l (NBBY - MATCH_BITS)) (Z.shiftr offset NBBY)) in
  let b1 := u8 offset in
  Z.shiftr b0 (NBBY - MATCH_BITS) = l ∧
  Z.land (Z.lor (Z.shiftl b0 NBBY) b1) OFFSET_MASK = offset.
Proof.
  intros Hl Ho. cbv zeta.
  change (NBBY - MATCH_BITS) with 2. change NBBY with 8.
  change OFFSET_MASK with (Z.ones 10).
  rewrite (Z.shiftr_div_pow2 offset) by done. change (2 ^ 8) with 256.
  assert (0 <= offset / 256 < 4) by (split; [apply Z.div_pos|apply Z.div_lt_upper_bound]; lia).
  rewrite (lor_shiftl_add l) by (change (2 ^ 2) with 4; lia).
  change (2 ^ 2) with 4. unfold wrapu. change (2 ^ 8) with 256.
  rewrite (Z.mod_small (_ * 4 + _)) by lia.
  assert (0 <= offset `mod` 256 < 256) by (apply Z.mod_pos_bound; lia).
  rewrite Z.shiftr_div_pow2 by done. change (2 ^ 2) with 4. split.
  - rewrite Z.div_add_l, (Z.div_small (_ / _)) by lia. lia.
  - rewrite lor_shiftl_add by (change (2 ^ 8) with 256; lia).
    rewrite Z.land_ones by done. change (2 ^ 8) with 256. change (2 ^ 10) with 1024.
    symmetry. apply Z.mod_unique_pos with l; [lia|].
    pose proof (Z.div_mod offset 256). lia.
Qed.

(** *** What one item does

    [emits s st st'] relates the state before and after an item: a literal
    byte, or a reference to [mlen] earlier bytes, flagged in the copymap. *)

Definition same_phrase (s : list Z) (src cpy mlen : nat) : Prop :=
  ∀ i, (i < mlen)%nat → ∃ x, s !! (src + i)%nat = Some x ∧ s !! (cpy + i)%nat = Some x.

Definition copy_byte0 (mlen : nat) (offset : Z) : Z :=
  u8 (Z.lor (Z.shiftl (Z.of_nat (mlen - MATCH_MIN)) (NBBY - MATCH_BITS))
            (Z.shiftr offset NBBY)).

Inductive emits (s : list Z) (st : cstate) : cstate → Prop :=
  | emits_literal x lempel :
      s !! c_src st = Some x →
      length lempel = length (c_lempel st) →
      emits s st (CState (S (c_src st)) (S (c_dst st)) (<[c_dst st := x]> (c_buf st))
                    (c_copymap st) (c_copymask st) lempel)
  | emits_copy mlen offset m lempel :
      (MATCH_MIN <= mlen <= Z.to_nat MATCH_MAX)%nat →
      (c_src st + mlen <= length s)%nat →
      0 < offset < 1024 → offset <= Z.of_nat (c_src st) →
      same_phrase s (c_src st) (Z.to_nat (Z.of_nat (c_src st) - offset)) mlen →
      c_buf st !! c_copymap st = Some m →
      length lempel = length (c_lempel st) →
      emits s st (CState (c_src st + mlen) (S (S (c_dst st)))
        (<[S (c_dst st) := u8 offset]> (<[c_dst st := copy_byte0 mlen offset]>
           (<[c_copymap st := Z.lor m (c_copymask st)]> (c_buf st))))
        (c_copymap st) (c_copymask st) lempel).

Lemma literal_emits s st lempel :
  (c_src st < length s)%nat → (c_dst st < length (c_buf st))%nat →
  length lempel = length (c_lempel st) →
  ∃ st', literal s (CState (c_src st) (c_dst st) (c_buf st) (c_copymap st)
                      (c_copymask st) lempel) = Some (Next st') ∧ emits s st st'.
Proof.
  intros Hs Hd Hl. unfold literal. cbn [c_src c_dst c_buf c_copymap c_copymask c_lempel].
  destruct (rd_lt s (c_src st)) as [x Hx]; [done|]. rewrite Hx, wr_lt by done.
  eexists. split; [done|]. by apply emits_literal.
Qed.

Lemma cpy_matches_spec s src cpy b0 b1 b2 :
  (src + 2 < length s)%nat → cpy <= Z.of_nat src →
  rd s src = Some b0 → rd s (src + 1) = Some b1 → rd s (src + 2) = Some b2 →
  ∃ b, cpy_matches s src cpy b0 b1 b2 = Some b ∧
    (b = true → 0 <= cpy < Z.of_nat src ∧ same_phrase s src (Z.to_nat cpy) 3).
Proof.
  intros Hs Hc H0 H1 H2. unfold cpy_matches.
  destruct (_ && _) eqn:Hg; [|by exists false]. zbool. rename select (_ >= 0) into Hge.
  destruct (rd_lt s (Z.to_nat cpy)) as [c0 E0]; [lia|].
  destruct (rd_lt s (Z.to_nat cpy + 1)) as [c1 E1]; [lia|].
  destruct (rd_lt s (Z.to_nat cpy + 2)) as [c2 E2]; [lia|].
  rewrite E0, E1, E2.
  destruct (Z.eqb_spec b0 c0) as [->|]; [|by exists false].
  destruct (Z.eqb_spec b1 c1) as [->|]; [|by exists false].
  eexists. split; [done|]. intros ->%Z.eqb_eq. split; [lia|].
  intros i Hi. destruct i as [|[|[|]]]; [| | |lia].
  - rewrite !Nat.add_0_r. eauto.
  - eauto.
  - eauto.
Qed.

Lemma compress_item_emits s_addr s st :
  (c_src st < length s)%nat → (S (c_dst st) < length (c_buf st))%nat →
  (c_copymap st < c_dst st)%nat → length (c_lempel st) = 256%nat →
  ∃ st', compress_item s_addr s (length s) st = Some (Next st') ∧ emits s st st'.
Proof.
  intros Hs Hd Hm Hl. unfold compress_item.
  destruct (_ >? _) eqn:Htail.
  { pose proof (literal_emits s st (c_lempel st)) as Hlit.
    destruct st. cbn in *. apply Hlit; [done|lia|done]. }
  assert (Z.of_nat (c_src st) <= Z.of_nat (length s) - 66) as Hfar.
  { rewrite Z.gtb_ltb in Htail. by apply Z.ltb_ge in Htail. }
  destruct (rd_lt s (c_src st)) as [b0 E0]; [lia|].
  destruct (rd_lt s (c_src st + 1)) as [b1 E1]; [lia|].
  destruct (rd_lt s (c_src st + 2)) as [b2 E2]; [lia|].
  rewrite E0, E1, E2.
  set (hp := Z.to_nat _).
  assert (hp < 256)%nat as Hhp.
  { unfold hp. change (LEMPEL_SIZE - 1) with (Z.ones 8). rewrite Z.land_ones by done.
    pose proof (Z.mod_pos_bound (Z.lxor (Z.lxor (b0 + 13) (b1 - 13)) b2) (2 ^ 8)). lia. }
  destruct (rd_lt (c_lempel st) hp) as [h Hh]; [lia|]. rewrite Hh, wr_lt by lia.
  set (offset := Z.land _ OFFSET_MASK).
  assert (0 <= offset < 1024) as Hoff.
  { unfold offset. change OFFSET_MASK with (Z.ones 10). rewrite Z.land_ones by done.
    apply Z.mod_pos_bound. lia. }
  destruct (cpy_matches_spec s (c_src st) (Z.of_nat (c_src st) - offset) b0 b1 b2)
    as (b & -> & Hb); [lia|lia|done|done|done|].
  destruct b; [|apply literal_emits; [lia|lia|by rewrite length_insert]].
  destruct Hb as [Hcpy Hph]; [done|].
  destruct (rd_lt (c_buf st) (c_copymap st)) as [m Em]; [lia|].
  rewrite Em, wr_lt by lia.
  destruct (match_len_spec s (Z.to_nat MATCH_MAX - MATCH_MIN) MATCH_MIN (c_src st)
              (Z.to_nat (Z.of_nat (c_src st) - offset))) as (mlen & -> & Hr & Hall);
    [lia|change (Z.to_nat MATCH_MAX) with 66%nat; unfold MATCH_MIN; lia|done|].
  rewrite wr_lt by (rewrite length_insert; lia).
  rewrite wr_lt by (rewrite !length_insert; lia).
  change (Z.to_nat MATCH_MAX) with 66%nat in *. unfold MATCH_MIN in Hr.
  eexists. split; [done|].
  apply emits_copy; [|lia|lia|lia|done|done|by rewrite length_insert].
  change (Z.to_nat MATCH_MAX) with 66%nat. unfold MATCH_MIN. lia.
Qed.

(** *** Loop invariants of compress()

    [k] is the index, within the current group of eight items, of the last
    item emitted; [m] the copymap byte, whose bits above [k] are still clear.
    The bound on [c_dst] is what makes the bail-out test sufficient: a group
    starts at most 18 bytes before the end and takes at most 17. *)

Record cinv (s : list Z) (st : cstate) : Prop := {
  ci_buf : length (c_buf st) = length s;
  ci_lempel : length (c_lempel st) = 256%nat;
  ci_src : (c_src st <= length s)%nat;
  ci_group :
    (c_dst st = 0%nat ∧ c_src st = 0%nat ∧ c_copymask st = 2 ^ 7) ∨
    ∃ k m, 0 <= k <= 7 ∧ c_copymask st = 2 ^ k ∧ (c_copymap st < c_dst st)%nat ∧
      Z.of_nat (c_dst st) <= Z.of_nat (length s) - 15 + 2 * k ∧
      c_buf st !! c_copymap st = Some m ∧ 0 <= m < 2 ^ (k + 1);
}.

(** The same between the copymap's set-up and the item. *)
Record cmid (s : list Z) (st : cstate) (k m : Z) : Prop := {
  cm_buf : length (c_buf st) = length s;
  cm_lempel : length (c_lempel st) = 256%nat;
  cm_src : (c_src st < length s)%nat;
  cm_k : 0 <= k <= 7;
  cm_mask : c_copymask st = 2 ^ k;
  cm_map : (c_copymap st < c_dst st)%nat;
  cm_dst : Z.of_nat (c_dst st) <= Z.of_nat (length s) - 17 + 2 * k;
  cm_byte : c_buf st !! c_copymap st = Some m;
  cm_bits : 0 <= m < 2 ^ k;
}.

Lemma lor_pow2 m k : 0 <= k → 0 <= m < 2 ^ k → Z.lor m (2 ^ k) = m + 2 ^ k.
Proof.
  intros Hk Hm. rewrite Z.lor_comm. rewrite <- (Z.mul_1_l (2 ^ k)) at 1.
  rewrite <- Z.shiftl_mul_pow2 by done. rewrite lor_shiftl_add by done. lia.
Qed.

Lemma cmid_emits s st st' k m :
  cmid s st k m → emits s st st' →
  cinv s st' ∧ (c_src st < c_src st')%nat ∧ (c_dst st < c_dst st')%nat.
Proof.
  intros [Hb Hl Hs Hk Hmask Hmap Hd Hm Hbits] He.
  assert (2 ^ (k + 1) = 2 * 2 ^ k) as Hpow by (rewrite <- Z.pow_succ_r by lia; f_equal; lia).
  destruct He as [x lempel Hx Hl'|mlen offset m' lempel Hml Hle Ho Hos Hph Hm' Hl'];
    cbn; unfold MATCH_MIN in *; (split; [split; cbn|lia]).
  - by rewrite length_insert.
  - lia.
  - lia.
  - right. exists k, m. rewrite list_lookup_insert_ne by lia.
    split_and!; first [done|lia].
  - by rewrite !length_insert.
  - lia.
  - lia.
  - assert (m' = m) as -> by congruence.
    right. exists k, (Z.lor m (2 ^ k)). rewrite lor_pow2 by lia.
    rewrite !list_lookup_insert_ne by lia. rewrite Hmask.
    rewrite list_lookup_insert_eq by lia. rewrite lor_pow2 by lia.
    split_and!; first [done|lia].
Qed.

(** The set-up of the copymap: the raw bail-out, a new group, or the next
    item of the current one. *)
Lemma compress_step_cases s_addr s st :
  cinv s st → (c_src st < length s)%nat → Z.of_nat (length s) < 2 ^ 31 →
  (∃ buf, compress_step s_addr s (length s) st = Some (Return (length s, buf)) ∧
     length buf = length s ∧ take (length s) buf = s) ∨
  ∃ st1 k m, compress_step s_addr s (length s) st = compress_item s_addr s (length s) st1 ∧
    cmid s st1 k m ∧ c_src st1 = c_src st ∧
    ((k = 0 ∧ m = 0 ∧ c_copymask st = 2 ^ 7 ∧ c_copymap st1 = c_dst st ∧
      c_dst st1 = S (c_dst st) ∧ c_buf st1 = <[c_dst st := 0]> (c_buf st)) ∨
     (0 < k ∧ c_copymask st = 2 ^ (k - 1) ∧ c_copymap st1 = c_copymap st ∧
      c_dst st1 = c_dst st ∧ c_buf st1 = c_buf st)).
Proof.
  intros [Hb Hl Hs Hg] Hlt Hlen. unfold compress_step.
  destruct (Z.ltb_spec (Z.of_nat (c_src st)) (Z.of_nat (length s))); [|lia].
  rewrite Z.shiftl_mul_pow2 by done. change (Z.shiftl 1 NBBY) with (2 ^ 8).
  destruct (Z.eqb_spec (c_copymask st * 2 ^ 1) (2 ^ 8)) as [Heq|Hne].
  - destruct (_ >=? _) eqn:Hroom.
    + left. unfold raw_copy. rewrite wraps_id by lia.
      destruct (Z.ltb_spec (Z.of_nat (length s)) 0); [lia|]. rewrite Nat2Z.id.
      destruct (copy_bytes_spec (length s) s 0 0 (c_buf st)) as (buf & -> & Hbl & Htk);
        [lia|lia|].
      eexists. split; [done|]. split; [lia|].
      cbn in Htk. by rewrite Htk, drop_0, firstn_all.
    + rewrite Z.geb_leb in Hroom. zbool. change NBBY with 8 in Hroom.
      right. rewrite wr_lt by lia.
      eexists _, 0, 0. split; [done|]. cbn. split; [|split; [done|left; split_and!; first [done|lia]]].
      split; cbn; rewrite ?length_insert; [lia..| |lia].
      by rewrite list_lookup_insert_eq by lia.
  - right. destruct Hg as [(_ & _ & ?)|(k & m & Hk & Hmask & Hmap & Hd & Hm & Hbits)]; [lia|].
    assert (k ≠ 7) by (intros ->; lia).
    eexists _, (k + 1), m. split; [done|]. cbn. split; [|split; [done|right]].
    + split; cbn; try (done || lia). rewrite Hmask, Z.pow_add_r; lia.
    + replace (k + 1 - 1) with k by lia. split_and!; first [done|lia].
Qed.

(** compress() always returns: no fault, no endless loop, and never a size
    above the input's. *)
Lemma compress_total_run s_addr s st :
  cinv s st → Z.of_nat (length s) < 2 ^ 31 →
  ∃ r, run (compress_step s_addr s (length s)) (S (length s - c_src st)) st = Some r ∧
    (r.1 <= length s)%nat ∧ length r.2 = length s.
Proof.
  intros Hi Hlen.
  apply (run_total _ (cinv s) _ (λ st, length s - c_src st)%nat); [|done|lia].
  clear st Hi. intros st Hi. destruct (decide (c_src st < length s)%nat) as [Hlt|Hge].
  - destruct (compress_step_cases s_addr s st Hi Hlt Hlen)
      as [(buf & -> & Hbl & _)|(st1 & k & m & -> & Hmid & Hsrc & _)].
    + eexists. split; [done|]. cbn. lia.
    + destruct (compress_item_emits s_addr s st1) as (st' & -> & He);
        [destruct Hmid; lia..|].
      destruct (cmid_emits _ _ _ _ _ Hmid He) as (Hi' & Hlt' & _).
      eexists. split; [done|]. split; [done|]. destruct Hi'. lia.
  - unfold compress_step.
    destruct (Z.ltb_spec (Z.of_nat (c_src st)) (Z.of_nat (length s))); [lia|].
    eexists. split; [done|]. destruct Hi as [Hb Hl Hs [[]|(k & m & Hg)]]; cbn; lia.
Qed.

(** *** Lockstep of decompress() with compress()

    [agrees out st b]: the final output [out] is what [st] has written so far,
    except that only the low [b] bits of the current copymap byte are settled. *)

Definition agrees (out : list Z) (st : cstate) (b : Z) : Prop :=
  (∀ p, (p < c_dst st)%nat → p ≠ c_copymap st → out !! p = c_buf st !! p) ∧
  ∃ m M, c_buf st !! c_copymap st = Some m ∧ out !! c_copymap st = Some M ∧ M `mod` 2 ^ b = m.

(** [d_related s d st]: the decompressor has read what the compressor had
    written and has written what the compressor had read. *)
Record d_related (s : list Z) (d : dstate) (st : cstate) : Prop := {
  dr_src : d_src d = c_dst st;
  dr_dst : d_dst d = c_src st;
  dr_mask : d_copymask d = c_copymask st;
  dr_len : length (d_buf d) = length s;
  dr_data : take (c_src st) (d_buf d) = take (c_src st) s;
}.

Lemma mod_pow2_step M m k :
  0 <= k → 0 <= m < 2 ^ k →
  M `mod` 2 ^ (k + 1) = m ∨ M `mod` 2 ^ (k + 1) = m + 2 ^ k →
  M `mod` 2 ^ k = m.
Proof.
  intros Hk Hm HM.
  assert (2 ^ (k + 1) = 2 ^ k * 2) as Hp by (rewrite Z.pow_add_r by lia; lia).
  pose proof (Z.div_mod M (2 ^ (k + 1))) as Hdm. symmetry.
  destruct HM as [HM|HM]; rewrite HM, Hp in Hdm.
  - apply Z.mod_unique_pos with (2 * (M / (2 ^ k * 2))); lia.
  - apply Z.mod_unique_pos with (2 * (M / (2 ^ k * 2)) + 1); lia.
Qed.

Lemma land_pow2_mod M m k :
  0 <= k → M `mod` 2 ^ (k + 1) = m → 0 <= m < 2 ^ (k + 1) →
  (Z.land M (2 ^ k) =? 0) = (m <? 2 ^ k).
Proof.
  intros Hk HM Hm.
  assert (2 ^ (k + 1) = 2 ^ k * 2) as Hp by (rewrite Z.pow_add_r by lia; lia).
  assert (Z.testbit M k = Z.testbit m k) as Hbit.
  { rewrite <- HM, Z.mod_pow2_bits_low; [done|lia]. }
  assert (Z.testbit m k = negb (m <? 2 ^ k)) as Hm'.
  { rewrite Z.testbit_eqb by done. destruct (Z.ltb_spec m (2 ^ k)).
    - by rewrite Z.div_small by lia.
    -
      assert (m / 2 ^ k = 1) as -> by (symmetry; apply Z.div_unique_pos with (m - 2 ^ k); lia).
      done. }
  rewrite Hm' in Hbit. destruct (m <? 2 ^ k) eqn:E; cbn in Hbit.
  - apply Z.eqb_eq. apply Z.bits_inj'. intros i Hi.
    rewrite Z.land_spec, Z.pow2_bits_eqb, Z.bits_0 by done.
    destruct (Z.eqb_spec k i) as [->|]; [by rewrite Hbit|by rewrite andb_false_r].
  - apply Z.eqb_neq. intros H0.
    assert (Z.testbit (Z.land M (2 ^ k)) k = true) as Ht.
    { by rewrite Z.land_spec, Hbit, Z.pow2_bits_true. }
    by rewrite H0, Z.bits_0 in Ht.
Qed.

Lemma emits_agrees out s st st' k m :
  cmid s st k m → emits s st st' → agrees out st' (k + 1) → agrees out st k.
Proof.
  intros [Hb Hl Hs Hk Hmask Hmap Hd Hm Hbits] He [Hp (m' & M & Hm' & HM & Hmod)].
  destruct He as [x lempel Hx Hl'|mlen offset m2 lempel Hml Hle Ho Hos Hph Hm2 Hl'];
    cbn in *; split.
  - intros p Hlt Hne. rewrite Hp by lia. by rewrite list_lookup_insert_ne by lia.
  - rewrite list_lookup_insert_ne in Hm' by lia. assert (m' = m) as -> by congruence.
    exists m, M. split_and!; [done|done|]. by apply mod_pow2_step; [lia..|left].
  - intros p Hlt Hne. rewrite Hp by lia. by rewrite !list_lookup_insert_ne by lia.
  - rewrite !list_lookup_insert_ne in Hm' by lia.
    rewrite list_lookup_insert_eq in Hm' by lia.
    assert (m2 = m) as -> by congruence.
    rewrite Hmask, lor_pow2 in Hm' by lia. injection Hm' as Hm'.
    exists m, M. split_and!; [done|done|]. apply mod_pow2_step; [lia..|right; lia].
Qed.

(** Decoding the item at the compressor's output position gives back what the
    compressor consumed. *)
Lemma decompress_item_emits out s st st' k m d M :
  cmid s st k m → emits s st st' → agrees out st' (k + 1) →
  d_related s d st → out !! c_copymap st = Some M → d_copymap d = M →
  ∃ d', decompress_item out (length s) d = Some (Next d') ∧
    d_related s d' st' ∧ d_copymap d' = M.
Proof.
  intros [Hb Hl Hs Hk Hmask Hmap Hd Hm Hbits] He [Hp (m' & M' & Hm' & HM' & Hmod)]
    [Dsrc Ddst Dmask Dlen Ddata] HM HdM. unfold decompress_item.
  rewrite Dsrc, Ddst, Dmask, Hmask, HdM.
  assert (2 ^ (k + 1) = 2 ^ k * 2) as Hpw by (rewrite Z.pow_add_r by lia; lia).
  destruct He as [x lempel Hx Hl'|mlen offset m2 lempel Hml Hle Ho Hos Hph Hm2 Hl']; cbn in *.
  - rewrite list_lookup_insert_ne in Hm' by lia.
    assert (m' = m) as -> by congruence. assert (M' = M) as -> by congruence.
    rewrite (land_pow2_mod M m k) by lia. destruct (Z.ltb_spec m (2 ^ k)); [|lia].
    unfold rd. rewrite Hp, list_lookup_insert_eq by lia. rewrite wr_lt by lia.
    eexists. split; [done|]. split; [|done]. split; cbn; [done..|by rewrite length_insert|].
    rewrite take_insert_snoc by lia. rewrite Ddata. by rewrite (take_S_r s _ x).
  - rewrite !list_lookup_insert_ne in Hm' by lia.
    rewrite list_lookup_insert_eq in Hm' by lia.
    assert (m2 = m) as -> by congruence. assert (M' = M) as -> by congruence.
    rewrite Hmask, lor_pow2 in Hm' by lia. injection Hm' as Hm'.
    rewrite (land_pow2_mod M m' k) by lia. destruct (Z.ltb_spec m' (2 ^ k)); [lia|].
    unfold rd. replace (c_dst st + 1)%nat with (S (c_dst st)) by lia.
    rewrite !Hp by lia. rewrite list_lookup_insert_ne by lia.
    rewrite !list_lookup_insert_eq by (rewrite ?length_insert; lia).
    destruct (copy_item_bytes (Z.of_nat (mlen - MATCH_MIN)) offset) as [E1 E2].
    { change (Z.to_nat MATCH_MAX) with 66%nat in *. unfold MATCH_MIN in *. lia. }
    { lia. }
    unfold copy_byte0. rewrite E1, E2.
    destruct (Z.geb_spec (Z.of_nat (c_src st) - offset) 0); [|lia].
    replace (Z.to_nat (Z.of_nat (mlen - MATCH_MIN) + Z.of_nat MATCH_MIN)) with mlen
      by (unfold MATCH_MIN in *; lia).
    destruct (copy_back_spec mlen (length s) s
                (Z.to_nat (Z.of_nat (c_src st) - offset)) (c_src st) (d_buf d))
      as (buf' & -> & Hbl & Htk); [lia|lia|lia|done|done|].
    eexists. split; [done|]. split; [|done].
    split; cbn; [lia|done|done|congruence|done].
Qed.

Definition settled (out : list Z) (st : cstate) : Prop :=
  c_dst st = 0%nat ∨ ∃ k, 0 <= k ∧ c_copymask st = 2 ^ k ∧ agrees out st (k + 1).

(** The decompressor holds the copymap byte of the group it is in. *)
Definition holds_map (out : list Z) (d : dstate) (st : cstate) : Prop :=
  c_dst st = 0%nat ∨ out !! c_copymap st = Some (d_copymap d).

(** If the output has the bytes of [st1], the group set-up of compress() is
    undone by that of decompress(). *)
Lemma decompress_step_setup out s size st st1 st' k m d :
  cmid s st1 k m → emits s st1 st' → agrees out st' (k + 1) →
  c_src st1 = c_src st → (c_dst st < size)%nat → d_related s d st →
  holds_map out d st →
  ((k = 0 ∧ m = 0 ∧ c_copymask st = 2 ^ 7 ∧ c_copymap st1 = c_dst st ∧
    c_dst st1 = S (c_dst st) ∧ c_buf st1 = <[c_dst st := 0]> (c_buf st)) ∨
   (0 < k ∧ c_copymask st = 2 ^ (k - 1) ∧ c_copymap st1 = c_copymap st ∧
    c_dst st1 = c_dst st ∧ c_buf st1 = c_buf st)) →
  ∃ d', decompress_step out size (length s) d = Some (Next d') ∧
    d_related s d' st' ∧ holds_map out d' st'.
Proof.
  intros Hmid He Hag Hsrc Hlt Hd Hmap Hcase.
  pose proof (emits_agrees _ _ _ _ _ _ Hmid He Hag) as (_ & m1 & M & Hm1 & HM & _).
  assert (c_copymap st' = c_copymap st1) as Hcm by (destruct He; done).
  unfold decompress_step. destruct Hd as [Dsrc Ddst Dmask Dlen Ddata].
  rewrite Dsrc, Ddst, <- Hsrc.
  destruct (Nat.ltb_spec (c_dst st) size); [|lia].
  destruct (Nat.ltb_spec (c_src st1) (length s)); [|destruct Hmid; lia]. cbn [andb].
  rewrite Dmask, Z.shiftl_mul_pow2 by done. change (Z.shiftl 1 NBBY) with (2 ^ 8).
  destruct Hcase as [(-> & -> & Hmask & Hc1 & Hd1 & Hb1)|(Hk & Hmask & Hc1 & Hd1 & Hb1)].
  - rewrite Hmask, (proj2 (Z.eqb_eq _ _)) by done.
    unfold rd. rewrite <- Hc1, HM.
    edestruct decompress_item_emits as (d' & -> & Hrel & Hdm);
      [exact Hmid|exact He|exact Hag| |exact HM| |].
    3: { eexists. split; [done|]. split; [exact Hrel|]. right. by rewrite Hcm, Hdm. }
    + destruct Hmid. split; cbn; [lia|done|lia|done|congruence].
    + done.
  - assert (2 ^ (k - 1) * 2 ^ 1 = 2 ^ k) as Hpw.
    { rewrite <- Z.pow_add_r by lia. f_equal. lia. }
    rewrite Hmask, Hpw.
    assert (2 ^ k ≠ 2 ^ 8) as Hne.
    { intros Heq%Z.pow_inj_r; destruct Hmid; lia. }
    rewrite (proj2 (Z.eqb_neq _ _) Hne).
    destruct Hmap as [Hz|HdM]; [destruct Hmid; lia|]. rewrite <- Hc1 in HdM.
    edestruct decompress_item_emits as (d' & -> & Hrel & Hdm);
      [exact Hmid|exact He|exact Hag| |exact HM| |].
    3: { eexists. split; [done|]. split; [exact Hrel|]. right. by rewrite Hcm, Hdm. }
    + destruct Hmid. split; cbn; [lia|done|done|done|congruence].
    + cbn. congruence.
Qed.

Lemma emits_settled out s st st' k m :
  cmid s st k m → emits s st st' → settled out st' → agrees out st' (k + 1).
Proof.
  intros Hmid He Hset. pose proof (cmid_emits _ _ _ _ _ Hmid He) as (_ & _ & Hd).
  destruct Hset as [H0|(k' & Hk' & Hmask & Hag)]; [lia|].
  assert (c_copymask st' = c_copymask st) as Hcm by (destruct He; done).
  destruct Hmid as [? ? ? Hk Hmk]. rewrite Hmask, Hmk in Hcm.
  apply Z.pow_inj_r in Hcm; [by subst|lia..].
Qed.

(** The settled prefix of the state before an iteration. *)
Lemma setup_settled out s st st1 k m :
  cinv s st → cmid s st1 k m → agrees out st1 k →
  ((k = 0 ∧ m = 0 ∧ c_copymask st = 2 ^ 7 ∧ c_copymap st1 = c_dst st ∧
    c_dst st1 = S (c_dst st) ∧ c_buf st1 = <[c_dst st := 0]> (c_buf st)) ∨
   (0 < k ∧ c_copymask st = 2 ^ (k - 1) ∧ c_copymap st1 = c_copymap st ∧
    c_dst st1 = c_dst st ∧ c_buf st1 = c_buf st)) →
  settled out st.
Proof.
  intros [Hb Hl Hs Hg] Hmid [Hp (m1 & M & Hm1 & HM & Hmod)] Hcase.
  destruct Hg as [(H0 & _)|(k0 & m0 & Hk0 & Hmask0 & Hmap & Hd & Hm & Hbits)]; [by left|].
  right. exists k0. split; [lia|]. split; [done|].
  destruct Hcase as [(-> & -> & Hmask & Hc1 & Hd1 & Hb1)|(Hk & Hmask & Hc1 & Hd1 & Hb1)].
  - rewrite Hb1 in *. split.
    + intros p Hlt Hne. rewrite Hp by lia. by rewrite list_lookup_insert_ne by lia.
    + exists m0, m0. split_and!; [done| |by apply Z.mod_small].
      rewrite Hp by lia. by rewrite list_lookup_insert_ne by lia.
  - rewrite Hb1, Hc1, Hd1 in *.
    assert (k0 + 1 = k) as ->.
    { rewrite Hmask in Hmask0. apply Z.pow_inj_r in Hmask0; lia. }
    split; [done|]. eauto.
Qed.

Lemma lockstep s_addr s n st size buf :
  cinv s st → Z.of_nat (length s) < 2 ^ 31 →
  run (compress_step s_addr s (length s)) n st = Some (size, buf) →
  (size = length s ∧ take (length s) buf = s) ∨
  ((size < length s)%nat ∧ (c_dst st <= size)%nat ∧
   let out := take size buf in
   settled out st ∧
   ∀ n' d, (n <= n')%nat → d_related s d st → holds_map out d st →
     run (decompress_step out size (length s)) n' d = Some (length s, s)).
Proof.
  revert st. induction n as [|n IH]; intros st Hi Hlen; [done|]. cbn [run].
  destruct (decide (c_src st < length s)%nat) as [Hlt|Hge].
  - destruct (compress_step_cases s_addr s st Hi Hlt Hlen)
      as [(rbuf & -> & Hbl & Htk)|(st1 & k & m & -> & Hmid & Hsrc & Hcase)].
    { intros [= <- <-]. by left. }
    destruct (compress_item_emits s_addr s st1) as (st' & -> & He); [destruct Hmid; lia..|].
    destruct (cmid_emits _ _ _ _ _ Hmid He) as (Hi' & Hlt' & Hdlt).
    intros Hrun. destruct (IH st' Hi' Hlen Hrun) as [Hraw|(Hsz & Hd' & Hset & Hdec)];
      [by left|right].
    pose proof (emits_settled _ _ _ _ _ _ Hmid He Hset) as Hag.
    pose proof (emits_agrees _ _ _ _ _ _ Hmid He Hag) as Hag1.
    assert (c_dst st < size)%nat as Hds by (destruct Hcase as [(?&?&?&?&?&?)|(?&?&?&?&?)]; lia).
    split; [done|]. split; [lia|]. split; [by eapply setup_settled|].
    intros n' d Hn' Hrel Hmap. destruct n' as [|n']; [lia|]. cbn [run].
    destruct (decompress_step_setup _ _ _ _ _ _ _ _ _ Hmid He Hag Hsrc Hds Hrel Hmap Hcase)
      as (d' & -> & Hrel' & Hmap').
    apply Hdec; [lia|done|done].
  - unfold compress_step.
    destruct (Z.ltb_spec (Z.of_nat (c_src st)) (Z.of_nat (length s))); [lia|].
    intros [= <- <-]. destruct Hi as [Hb Hl Hs Hg].
    destruct Hg as [(H0 & H1 & _)|(k & m & Hk & Hmask & Hmap & Hd & Hm & Hbits)].
    { left. assert (length s = 0)%nat as Hz by lia. split; [lia|].
      by destruct s. }
    right. split; [lia|]. split; [lia|]. split.
    + right. exists k. split; [lia|]. split; [done|]. split.
      * intros p Hp Hne. by rewrite lookup_take_lt.
      * exists m, m. rewrite lookup_take_lt by done. split_and!; [done|done|].
        apply Z.mod_small. lia.
    + intros n' d Hn' [Dsrc Ddst Dmask Dlen Ddata] _. destruct n' as [|n']; [lia|].
      cbn [run]. unfold decompress_step. rewrite Dsrc, Ddst, Nat.ltb_irrefl. cbn.
      assert (c_src st = length s) as Hfull by lia. rewrite Hfull in Ddata |- *.
      rewrite firstn_all in Ddata. rewrite <- Dlen, firstn_all in Ddata. by rewrite Ddata.
Qed.

Lemma cinv_init s d lempel :
  length d = length s → length lempel = 256%nat →
  cinv s (CState 0 0 d 0 (Z.shiftl 1 (NBBY - 1)) lempel).
Proof. intros Hd Hl. split; cbn; [done|done|lia|by left]. Qed.

(** C1: whatever the uninitialised Lempel history holds and wherever the
    source buffer lies, decompress() restores exactly the bytes that
    compress() was given, from the bytes compress() says it wrote and nothing
    after them. *)
Theorem compress_decompress s_addr s d lempel d' size buf :
  Z.of_nat (length s) < 2 ^ 31 →
  length d = length s → length lempel = 256%nat → length d' = length s →
  compress s_addr s (length s) d lempel = Some (size, buf) →
  decompress (take size buf) size (length s) d' = Some (length s, s).
Proof.
  intros Hlen Hd Hl Hd' Hc. pose proof (cinv_init s d lempel Hd Hl) as Hi.
  unfold decompress.
  destruct (lockstep s_addr s _ _ size buf Hi Hlen Hc) as [[-> Htk]|(Hsz & _ & _ & Hdec)].
  - rewrite Nat.leb_refl, Htk.
    destruct (copy_bytes_spec (length s) s 0 0 d') as (b & -> & Hb & Hbt); [lia|lia|].
    cbn [Nat.add] in Hbt. rewrite drop_0, firstn_all in Hbt.
    rewrite <- Hd', <- Hb, firstn_all in Hbt. by rewrite Hbt.
  - destruct (Nat.leb_spec (length s) size); [lia|].
    apply Hdec; [lia| |by left]. by split.
Qed.

(** C31: Compress() never reads outside its input, never writes outside a
    destination as large as the input, terminates, and returns a size that is
    at most the input's. *)
Theorem compress_safe s_addr s d lempel :
  Z.of_nat (length s) < 2 ^ 31 →
  length d = length s → length lempel = 256%nat →
  ∃ size buf, compress s_addr s (length s) d lempel = Some (size, buf) ∧
    (size <= length s)%nat ∧ length buf = length s.
Proof.
  intros Hlen Hd Hl. pose proof (cinv_init s d lempel Hd Hl) as Hi.
  destruct (compress_total_run s_addr s _ Hi Hlen) as ([size buf] & Hr & Hsz & Hb).
  cbn [c_src] in Hr. rewrite Nat.sub_0_r in Hr. exists size, buf. done.
Qed.

(** *** decompress() on arbitrary input *)

Lemma copy_back_safe n d_len cpy dst buf :
  (cpy <= dst)%nat → length buf = d_len → (dst <= d_len)%nat →
  ∃ dst' buf', copy_back n d_len cpy dst buf = Some (dst', buf') ∧
    length buf' = d_len ∧ (dst <= dst' <= d_len)%nat.
Proof.
  revert cpy dst buf. induction n as [|n IH]; intros cpy dst buf Hc Hl Hd; cbn [copy_back].
  - eexists _, _. split; [done|]. lia.
  - destruct (Nat.ltb_spec dst d_len); [|eexists _, _; split; [done|lia]].
    destruct (rd_lt buf cpy) as [x ->]; [lia|]. rewrite wr_lt by lia.
    destruct (IH (S cpy) (S dst) (<[dst:=x]> buf)) as (dst' & buf' & -> & ? & ?);
      [lia|by rewrite length_insert|lia|].
    eexists _, _. split; [done|]. lia.
Qed.

Lemma decompress_item_safe s d_len st :
  (d_src st + 2 <= length s)%nat → length (d_buf st) = d_len → (d_dst st < d_len)%nat →
  ∃ l, decompress_item s d_len st = Some l ∧
    match l with
    | Next st' => length (d_buf st') = d_len ∧ (d_dst st' <= d_len)%nat ∧
                  (d_src st < d_src st')%nat
    | Return (n, buf) => (n <= d_len)%nat ∧ length buf = d_len
    end.
Proof.
  intros Hs Hb Hd. unfold decompress_item.
  destruct (rd_lt s (d_src st)) as [b0 E0]; [lia|].
  destruct (rd_lt s (d_src st + 1)) as [b1 E1]; [lia|]. rewrite E0.
  destruct (_ =? 0).
  - rewrite wr_lt by lia. eexists. split; [done|]. cbn. rewrite length_insert. lia.
  - rewrite E1. set (offset := Z.land _ OFFSET_MASK).
    assert (0 <= offset) as Ho by (apply Z.land_nonneg; right; done).
    destruct (Z.geb_spec (Z.of_nat (d_dst st) - offset) 0).
    + destruct (copy_back_safe (Z.to_nat (Z.shiftr b0 (NBBY - MATCH_BITS) + Z.of_nat MATCH_MIN))
                  d_len (Z.to_nat (Z.of_nat (d_dst st) - offset)) (d_dst st) (d_buf st))
        as (dst' & buf' & -> & ? & ?); [lia|done|lia|].
      eexists. split; [done|]. cbn. lia.
    + eexists. split; [done|]. cbn. lia.
Qed.

(** On any input whatsoever, corrupt or not, decompress() terminates and
    never writes outside its destination, provided the two bytes after the
    input are readable. *)
Theorem decompress_safe s s_len d_len d :
  (s_len + 2 <= length s)%nat → length d = d_len →
  ∃ n buf, decompress s s_len d_len d = Some (n, buf) ∧
    (n <= d_len)%nat ∧ length buf = d_len.
Proof.
  intros Hs Hd. unfold decompress. destruct (Nat.leb_spec d_len s_len).
  { destruct (copy_bytes_spec d_len s 0 0 d) as (buf & -> & Hb & _); [lia..|].
    eexists _, _. split; [done|]. lia. }
  destruct (run_total (decompress_step s s_len d_len)
              (λ st, length (d_buf st) = d_len ∧ (d_dst st <= d_len)%nat)
              (λ r, (r.1 <= d_len)%nat ∧ length r.2 = d_len)
              (λ st, s_len - d_src st)%nat) with (fuel := S d_len)
    (s := DState 0 0 d 0 (Z.shiftl 1 (NBBY - 1))) as ([n buf] & Hr & Hq); [|cbn; lia..|eauto].
  intros st [Hb Hds]. unfold decompress_step.
  destruct (Nat.ltb_spec (d_src st) s_len); cbn [andb];
    [|eexists; split; [done|]; cbn; lia].
  destruct (Nat.ltb_spec (d_dst st) d_len); [|eexists; split; [done|]; cbn; lia].
  destruct (rd_lt s (d_src st)) as [cm Ecm]; [lia|]. rewrite Ecm.
  destruct (_ =? _);
    (match goal with |- context [decompress_item s d_len ?st1] =>
       destruct (decompress_item_safe s d_len st1) as (l & -> & Hl); [cbn; lia..|] end);
    (exists l; split; [done|]; destruct l as [st'|[n buf]]; cbn in *; [lia|done]).
Qed.

(** The proviso of C3 is needed: an input that ends with the first byte
    of a group is read past its end. *)
Theorem decompress_reads_past_end b d_len d :
  (1 < d_len)%nat → decompress [b] 1 d_len d = None.
Proof.
  intros Hd. unfold decompress. destruct (Nat.leb_spec d_len 1); [lia|].
  cbn [run]. unfold decompress_step. cbn [d_src d_dst d_copymask].
  destruct (Nat.ltb_spec 0 d_len); [|lia]. cbn [andb Nat.ltb Nat.leb].
  rewrite (proj2 (Z.eqb_eq _ _)) by done. cbn.
  unfold decompress_item. cbn. by destruct (_ =? 0).
Qed.

(** *** checksum32() *)

Lemma checksum_rotate sum :
  (if Z.land sum 1 =? 0 then Z.shiftr sum 1 else u32 (Z.shiftr sum 1 + 2147483648)) =
  (if sum `mod` 2 =? 0 then sum / 2 else u32 (sum / 2 + 2147483648)).
Proof.
  change 1 with (Z.ones 1) at 1. rewrite Z.land_ones, Z.shiftr_div_pow2 by done. done.
Qed.

Lemma checksum_round_range sum x : 0 <= checksum_round sum x < 2 ^ 32.
Proof. by apply wrapu_range. Qed.

Lemma checksum_round_inj_sum a b x :
  0 <= a < 2 ^ 32 → 0 <= b < 2 ^ 32 →
  checksum_round a x = checksum_round b x → a = b.
Proof.
  unfold checksum_round. rewrite !checksum_rotate. unfold wrapu.
  intros Ha Hb. destruct (Z.eqb_spec (a `mod` 2) 0), (Z.eqb_spec (b `mod` 2) 0);
    change (2 ^ 32) with 4294967296 in *; Z.to_euclidean_division_equations; lia.
Qed.

Lemma checksum_round_inj_byte a x y :
  0 <= x < 256 → 0 <= y < 256 → checksum_round a x = checksum_round a y → x = y.
Proof.
  unfold checksum_round. set (r := if Z.land a 1 =? 0 then _ else _). unfold wrapu.
  change (2 ^ 32) with 4294967296. intros. Z.to_euclidean_division_equations. lia.
Qed.

Lemma checksum_fold_inj bytes a b :
  0 <= a < 2 ^ 32 → 0 <= b < 2 ^ 32 →
  fold_left checksum_round bytes a = fold_left checksum_round bytes b → a = b.
Proof.
  revert a b. induction bytes as [|x bytes IH]; cbn; intros a b Ha Hb Heq; [done|].
  apply (checksum_round_inj_sum a b x Ha Hb).
  apply IH; [apply checksum_round_range..|done].
Qed.

Lemma checksum_fold_range bytes a :
  0 <= a < 2 ^ 32 → 0 <= fold_left checksum_round bytes a < 2 ^ 32.
Proof.
  revert a. induction bytes as [|x bytes IH]; cbn; intros a Ha; [done|].
  apply IH, checksum_round_range.
Qed.

(** Checksum32() detects every corruption of a single byte. *)
Theorem checksum32_detects pre post x y :
  0 <= x < 256 → 0 <= y < 256 → x ≠ y →
  checksum32 (pre ++ x :: post) ≠ checksum32 (pre ++ y :: post).
Proof.
  intros Hx Hy Hne Heq. unfold checksum32 in Heq. rewrite !fold_left_app in Heq.
  cbn in Heq. apply checksum_fold_inj in Heq; [|apply checksum_round_range..].
  by apply checksum_round_inj_byte in Heq.
Qed.

(** *** Witnesses *)

Lemma compress_decompress_witness :
  ∃ size buf, compress 5000 yadda_padded 118 (pad 118) (replicate 256 0) = Some (size, buf) ∧
    decompress (take size buf) size 118 (pad 118) = Some (118%nat, yadda_padded).
Proof.
  eexists _, _. split; [vm_compute; reflexivity|].
  apply (compress_decompress 5000 yadda_padded (pad 118) (replicate 256 0) (pad 118)).
  - reflexivity.
  - reflexivity.
  - reflexivity.
  - reflexivity.
  - vm_compute. reflexivity.
Defined.

Lemma compress_safe_witness :
  ∃ size buf, compress 5000 yadda_padded 118 (pad 118) (replicate 256 0) = Some (size, buf) ∧
    (size <= 118)%nat ∧ length buf = 118%nat.
Proof.
  apply (compress_safe 5000 yadda_padded (pad 118) (replicate 256 0)); reflexivity.
Defined.

Lemma decompress_safe_witness :
  ∃ n buf, decompress [255; 200; 1; 9; 9] 3 10 (pad 10) = Some (n, buf) ∧
    (n <= 10)%nat ∧ length buf = 10%nat.
Proof. apply (decompress_safe [255; 200; 1; 9; 9] 3 10 (pad 10)); vm_compute; [lia|reflexivity]. Defined.

Lemma decompress_reads_past_end_witness : decompress [0] 1 2 [9; 9] = None.
Proof. apply (decompress_reads_past_end 0 2 [9; 9]). lia. Defined.

Lemma checksum32_detects_witness : checksum32 [1; 2; 3] ≠ checksum32 [1; 7; 3].
Proof. apply (checksum32_detects [1] [3] 2 7); lia. Defined.
