(* ===== verification/Bitmap.v ===== *)
(** * Bitmap: operations on bitmaps of arbitrary size

    Models [uts/common/os/bitmap.c] and the macros of [uts/common/sys/bitmap.h].
    A bitmap is the list of its words; a word is an integer in [0, 2^w) where
    [w] is 64 in the LP64 kernel and 32 otherwise ([lp64] selects one). *)

From stdpp Require Import base numbers list option.
From Stdlib Require Import ZArith Lia.
From S2P Require Import Prelude.

Section bitmap.
Context (lp64 : bool).

Definition BT_ULSHIFT : Z := if lp64 then 6 else 5.
Definition BT_NBIPUL : Z := Z.shiftl 1 BT_ULSHIFT.
Definition BT_ULMASK : Z := BT_NBIPUL - 1.
Definition BT_ULMAXMASK : Z := if lp64 then 0xffffffffffffffff else 0xffffffff.

(** Reading a word of the map. *)
Definition word (map : list Z) (wx : Z) : option Z :=
  if wx <? 0 then None else rd map (Z.to_nat wx).

(** [BT_TEST(bitmap, bitindex)]. *)
Definition BT_TEST (map : list Z) (bitindex : Z) : option bool :=
  let! w := word map (Z.shiftr bitindex BT_ULSHIFT) in
  Some (negb (Z.land w (Z.shiftl 1 (Z.land bitindex BT_ULMASK)) =? 0)).

(** [BT_SET] and [BT_CLEAR]. *)
Definition BT_SET (map : list Z) (bitindex : Z) : option (list Z) :=
  let wx := Z.shiftr bitindex BT_ULSHIFT in
  let! w := word map wx in
  wr map (Z.to_nat wx) (Z.lor w (Z.shiftl 1 (Z.land bitindex BT_ULMASK))).

Definition BT_CLEAR (map : list Z) (bitindex : Z) : option (list Z) :=
  let wx := Z.shiftr bitindex BT_ULSHIFT in
  let! w := word map wx in
  wr map (Z.to_nat wx) (Z.ldiff w (Z.shiftl 1 (Z.land bitindex BT_ULMASK))).

(** ** highbit() and lowbit() *)

(** [if (i & mask) { h += n; i >>= n; }] *)
Definition high_step (mask n : Z) (hi : Z * Z) : Z * Z :=
  let '(h, i) := hi in
  if Z.land i mask =? 0 then (h, i) else (h + n, Z.shiftr i n).

Definition highbit (i : Z) : Z :=
  if i =? 0 then 0
  else
    let hi := (1, i) in
    let hi := if lp64 then high_step 0xffffffff00000000 32 hi else hi in
    let hi := high_step 0xffff0000 16 hi in
    let hi := high_step 0xff00 8 hi in
    let hi := high_step 0xf0 4 hi in
    let hi := high_step 0xc 2 hi in
    let '(h, i) := hi in
    if Z.land i 2 =? 0 then h else h + 1.

(** [if (!(i & mask)) { h += n; i >>= n; }] *)
Definition low_step (mask n : Z) (hi : Z * Z) : Z * Z :=
  let '(h, i) := hi in
  if Z.land i mask =? 0 then (h + n, Z.shiftr i n) else (h, i).

Definition lowbit (i : Z) : Z :=
  if i =? 0 then 0
  else
    let hi := (1, i) in
    let hi := if lp64 then low_step 0xffffffff 32 hi else hi in
    let hi := low_step 0xffff 16 hi in
    let hi := low_step 0xff 8 hi in
    let hi := low_step 0xf 4 hi in
    let hi := low_step 0x3 2 hi in
    let '(h, i) := hi in
    if Z.land i 1 =? 0 then h + 1 else h.

(** ** bt_availbit()

    [index_t] is [short], so every index, the returned one included, is kept
    modulo 2^16. *)

Definition index_t (x : Z) : Z := wraps 16 x.

(** [for (wx = 0; wx <= maxword; wx++) if (bitmap[wx] != ~0) break;] *)
Definition avail_word_step (map : list Z) (maxword : Z) (wx : Z) : option (loop Z Z) :=
  if wx <=? maxword then
    let! w := word map wx in
    if w =? BT_ULMAXMASK then Some (Next (index_t (wx + 1))) else Some (Return wx)
  else Some (Return wx).

(** [for (bx = 0; bx <= maxbit; bx++, bit <<= 1) if (!(word & bit)) return ...] *)
Definition avail_bit_step (w wx maxbit : Z) (s : Z * Z) : option (loop (Z * Z) (option Z)) :=
  let '(bx, bit) := s in
  if bx <=? maxbit then
    if Z.land w bit =? 0 then
      Some (Return (Some (index_t (Z.lor (Z.shiftl wx BT_ULSHIFT) bx))))
    else Some (Next (index_t (bx + 1), Z.land (Z.shiftl bit 1) BT_ULMAXMASK))
  else Some (Return None).

Definition bt_availbit (map : list Z) (nbits : Z) : option Z :=
  let nbits := wrapu BT_NBIPUL (nbits - 1) in
  let maxword := index_t (Z.shiftr nbits BT_ULSHIFT) in
  let! wx := run (avail_word_step map maxword) (S (S (length map))) 0 in
  if wx <=? maxword then
    let maxbit := if wx =? maxword then index_t (Z.land nbits BT_ULMASK)
                  else index_t (BT_NBIPUL - 1) in
    let! w := word map wx in
    let! r := run (avail_bit_step w wx maxbit) (S (S (Z.to_nat BT_NBIPUL))) (0, 1) in
    match r with Some i => Some i | None => Some (-1) end
  else Some (-1).

(** ** bt_gethighbit() *)

Definition gethighbit_step (map : list Z) (wx : Z) : option (loop Z Z) :=
  let! w := word map wx in
  if w =? 0 then
    if wx - 1 <? 0 then Some (Return (-1)) else Some (Next (wx - 1))
  else Some (Return (Z.lor (Z.shiftl wx BT_ULSHIFT) (highbit w - 1))).

Definition bt_gethighbit (map : list Z) (wx : Z) : option Z :=
  run (gethighbit_step map) (S (Z.to_nat wx)) wx.

(** ** bt_range() *)

(** [for (; inx < nbits; inx++) if (BT_TEST(bitmap, inx) == want) break;] *)
Definition range_step (map : list Z) (nbits : Z) (want : bool) (inx : Z) : option (loop Z Z) :=
  if inx <? nbits then
    let! b := BT_TEST map inx in
    if Bool.eqb b want then Some (Return inx) else Some (Next (inx + 1))
  else Some (Return inx).

(** [None] inside is the return value 0; [Some (pos1, pos2)] is 1 with the
    two positions stored. *)
Definition bt_range (map : list Z) (pos1 nbits : Z) : option (option (Z * Z)) :=
  let! inx := run (range_step map nbits true) (S (Z.to_nat (nbits - pos1))) pos1 in
  if inx =? nbits then Some None
  else
    let! end_ := run (range_step map nbits false) (S (Z.to_nat (nbits - pos1))) inx in
    Some (Some (inx, end_ - 1)).

(** ** bt_getlowbit() *)

(** [while ((word == 0) && (wx <= limit)) word = map[++wx];] *)
Definition getlow_step (map : list Z) (limit : Z) (s : Z * Z) : option (loop (Z * Z) (Z * Z)) :=
  let '(w, wx) := s in
  if (w =? 0) && (wx <=? limit) then
    let! w := word map (wx + 1) in
    Some (Next (w, wx + 1))
  else Some (Return (w, wx)).

Definition bt_getlowbit (map : list Z) (start stop : Z) : option Z :=
  let wx := Z.shiftr start BT_ULSHIFT in
  let startbits := Z.land start BT_ULMASK in
  if start >? stop then Some (-1)
  else
    let! w := word map wx in
    let w := if startbits =? 0 then w
             else Z.land w (Z.land (Z.shiftl BT_ULMAXMASK startbits) BT_ULMAXMASK) in
    let limitbits := Z.land stop BT_ULMASK in
    let limit := if limitbits =? BT_ULMASK then Z.shiftr stop BT_ULSHIFT
                 else Z.shiftr stop BT_ULSHIFT - 1 in
    let! (w, wx) := run (getlow_step map limit) (S (length map)) (w, wx) in
    if wx >? limit then
      if limitbits =? BT_ULMASK then Some (-1)
      else
        let w := Z.land w (Z.land (Z.lnot (Z.shiftl BT_ULMAXMASK (limitbits + 1)))
                             BT_ULMAXMASK) in
        if w =? 0 then Some (-1)
        else Some (Z.lor (Z.shiftl wx BT_ULSHIFT) (lowbit w - 1))
    else Some (Z.lor (Z.shiftl wx BT_ULSHIFT) (lowbit w - 1)).
End bitmap.

(** ** The bit at an index, and well-formed maps *)

Definition nbipul (lp64 : bool) : Z := if lp64 then 64 else 32.

Definition bit (lp64 : bool) (map : list Z) (i : Z) : bool :=
  match map !! Z.to_nat (i / nbipul lp64) with
  | Some w => Z.testbit w (i `mod` nbipul lp64)
  | None => false
  end.

Definition wf_map (lp64 : bool) (map : list Z) : Prop :=
  Forall (λ w, 0 <= w < 2 ^ nbipul lp64) map.

(** The number of bits of a map. *)
Definition map_bits (lp64 : bool) (map : list Z) : Z := nbipul lp64 * Z.of_nat (length map).

Lemma BT_NBIPUL_eq lp64 : BT_NBIPUL lp64 = nbipul lp64.
Proof. by destruct lp64. Qed.

Lemma BT_ULMAXMASK_eq lp64 : BT_ULMAXMASK lp64 = 2 ^ nbipul lp64 - 1.
Proof. by destruct lp64. Qed.

Lemma BT_ULMAXMASK_ones lp64 : BT_ULMAXMASK lp64 = Z.ones (nbipul lp64).
Proof. by destruct lp64. Qed.

Lemma nbipul_range lp64 : 32 <= nbipul lp64 <= 64.
Proof. destruct lp64; cbn; lia. Qed.

Lemma shiftr_ULSHIFT lp64 i : Z.shiftr i (BT_ULSHIFT lp64) = i / nbipul lp64.
Proof. destruct lp64; cbn; by rewrite Z.shiftr_div_pow2. Qed.

Lemma land_ULMASK lp64 i : Z.land i (BT_ULMASK lp64) = i `mod` nbipul lp64.
Proof.
  destruct lp64.
  - change (BT_ULMASK true) with (Z.ones 6). by rewrite Z.land_ones.
  - change (BT_ULMASK false) with (Z.ones 5). by rewrite Z.land_ones.
Qed.

Lemma lor_ULSHIFT lp64 wx b :
  0 <= b < nbipul lp64 →
  Z.lor (Z.shiftl wx (BT_ULSHIFT lp64)) b = wx * nbipul lp64 + b.
Proof.
  intros Hb. rewrite lor_shiftl_add; [by destruct lp64|by destruct lp64|].
  destruct lp64; cbn in *; lia.
Qed.

Lemma word_lookup map wx w :
  0 <= wx → map !! Z.to_nat wx = Some w → word map wx = Some w.
Proof. intros H Hw. unfold word. destruct (Z.ltb_spec wx 0); [lia|done]. Qed.

Lemma word_in map wx :
  0 <= wx < Z.of_nat (length map) →
  ∃ w, word map wx = Some w ∧ map !! Z.to_nat wx = Some w.
Proof.
  intros H. destruct (lookup_lt_is_Some_2 map (Z.to_nat wx)) as [w Hw]; [lia|].
  exists w. split; [|done]. apply word_lookup; [lia|done].
Qed.

Lemma wf_map_word lp64 map wx w :
  wf_map lp64 map → map !! wx = Some w → 0 <= w < 2 ^ nbipul lp64.
Proof. intros H Hw. unfold wf_map in H. rewrite Forall_lookup in H. by eapply H. Qed.

Lemma bit_of_word lp64 map wx w b :
  map !! Z.to_nat wx = Some w → 0 <= b < nbipul lp64 →
  bit lp64 map (wx * nbipul lp64 + b) = Z.testbit w b.
Proof.
  intros Hw Hb. unfold bit. pose proof (nbipul_range lp64).
  rewrite Z.div_add_l, (Z.div_small b), Z.add_0_r by lia.
  rewrite Z.add_comm, Z.mod_add, Z.mod_small by lia. by rewrite Hw.
Qed.

(** An index is its word's base plus the bit's position. *)
Lemma index_split lp64 i :
  i = i / nbipul lp64 * nbipul lp64 + i `mod` nbipul lp64 ∧
  0 <= i `mod` nbipul lp64 < nbipul lp64.
Proof.
  pose proof (nbipul_range lp64). split.
  - pose proof (Z.div_mod i (nbipul lp64)). lia.
  - apply Z.mod_pos_bound. lia.
Qed.

Lemma index_word lp64 map i :
  0 <= i < map_bits lp64 map → 0 <= i / nbipul lp64 < Z.of_nat (length map).
Proof.
  intros Hi. pose proof (nbipul_range lp64). unfold map_bits in Hi. split.
  - apply Z.div_pos; lia.
  - apply Z.div_lt_upper_bound; lia.
Qed.

Lemma land_pow2_testbit w b : 0 <= b → (Z.land w (2 ^ b) =? 0) = negb (Z.testbit w b).
Proof.
  intros Hb. destruct (Z.testbit w b) eqn:E; cbn.
  - apply Z.eqb_neq. intros H0.
    assert (Z.testbit (Z.land w (2 ^ b)) b = true) as Ht
      by by rewrite Z.land_spec, E, Z.pow2_bits_true.
    by rewrite H0, Z.bits_0 in Ht.
  - apply Z.eqb_eq, Z.bits_inj'. intros i Hi.
    rewrite Z.land_spec, Z.pow2_bits_eqb, Z.bits_0 by done.
    destruct (Z.eqb_spec b i) as [->|]; [by rewrite E|apply andb_false_r].
Qed.

Lemma BT_TEST_spec lp64 map i :
  0 <= i < map_bits lp64 map → BT_TEST lp64 map i = Some (bit lp64 map i).
Proof.
  intros Hi. unfold BT_TEST. rewrite shiftr_ULSHIFT, land_ULMASK.
  destruct (word_in map (i / nbipul lp64)) as (w & -> & Hw); [by apply index_word|].
  pose proof (index_split lp64 i) as [_ Hm]. rewrite Z.shiftl_1_l, land_pow2_testbit by lia.
  rewrite negb_involutive. unfold bit. by rewrite Hw.
Qed.

(** ** highbit() and lowbit() *)

Lemma land_high i n :
  0 <= n → 0 <= i < 2 ^ (n + n) → Z.land i (Z.shiftl (Z.ones n) n) = i / 2 ^ n * 2 ^ n.
Proof.
  intros Hn Hi. rewrite <- Z.shiftl_mul_pow2, <- Z.shiftr_div_pow2 by done.
  replace (Z.shiftr i n) with (Z.land (Z.shiftr i n) (Z.ones n)).
  - apply Z.bits_inj'. intros j Hj. rewrite Z.land_spec.
    destruct (decide (j < n)).
    + rewrite !Z.shiftl_spec_low by lia. by rewrite andb_false_r.
    + rewrite !Z.shiftl_spec, Z.land_spec, Z.shiftr_spec by lia. do 2 f_equal. lia.
  - rewrite Z.land_ones by done. apply Z.mod_small. rewrite Z.shiftr_div_pow2 by done.
    split; [apply Z.div_pos; lia|]. apply Z.div_lt_upper_bound; [lia|].
    rewrite <- Z.pow_add_r by lia. lia.
Qed.

Lemma high_step_spec h i n mask :
  0 < n → mask = Z.shiftl (Z.ones n) n → 0 < i < 2 ^ (n + n) →
  0 < (high_step mask n (h, i)).2 < 2 ^ n ∧
  (high_step mask n (h, i)).1 + Z.log2 (high_step mask n (h, i)).2 = h + Z.log2 i.
Proof.
  intros Hn -> Hi. unfold high_step. rewrite land_high by lia.
  destruct (Z.eqb_spec (i / 2 ^ n * 2 ^ n) 0) as [Hz|Hz]; cbn.
  - split; [|done]. assert (i / 2 ^ n = 0) as Hd by nia.
    apply Z.div_small_iff in Hd; lia.
  - assert (i / 2 ^ n ≠ 0) as Hd by nia.
    assert (2 ^ n <= i).
    { destruct (decide (i < 2 ^ n)); [|lia]. by rewrite Z.div_small in Hd by lia. }
    assert (n <= Z.log2 i) by (by apply Z.log2_le_pow2; lia).
    rewrite Z.log2_shiftr, Z.shiftr_div_pow2 by lia. split; [split|].
    + apply Z.div_str_pos. lia.
    + apply Z.div_lt_upper_bound; [lia|]. rewrite <- Z.pow_add_r by lia. lia.
    + lia.
Qed.

Lemma highbit_log2 lp64 i :
  0 < i < 2 ^ nbipul lp64 → highbit lp64 i = Z.log2 i + 1.
Proof.
  intros Hi. unfold highbit. destruct (Z.eqb_spec i 0); [lia|]. cbv zeta.
  set (hi0 := if lp64 then _ else _).
  assert (0 < hi0.2 < 2 ^ (16 + 16) ∧ hi0.1 + Z.log2 hi0.2 = 1 + Z.log2 i) as [H0 E0].
  { unfold hi0. destruct lp64; [by apply high_step_spec|done]. }
  clearbody hi0. destruct hi0 as [h0 i0]. cbn [fst snd] in *.
  destruct (high_step_spec h0 i0 16 0xffff0000) as [H1 E1]; [done..|].
  destruct (high_step 0xffff0000 16 (h0, i0)) as [h1 i1]. cbn [fst snd] in *.
  destruct (high_step_spec h1 i1 8 0xff00) as [H2 E2]; [done..|].
  destruct (high_step 0xff00 8 (h1, i1)) as [h2 i2]. cbn [fst snd] in *.
  destruct (high_step_spec h2 i2 4 0xf0) as [H3 E3]; [done..|].
  destruct (high_step 0xf0 4 (h2, i2)) as [h3 i3]. cbn [fst snd] in *.
  destruct (high_step_spec h3 i3 2 0xc) as [H4 E4]; [done..|].
  destruct (high_step 0xc 2 (h3, i3)) as [h4 i4]. cbn [fst snd] in *.
  assert (i4 = 1 ∨ i4 = 2 ∨ i4 = 3) as [-> | [-> | ->]] by lia.
  - change (if Z.land 1 2 =? 0 then h4 else h4 + 1) with h4. change (Z.log2 1) with 0 in E4. lia.
  - change (if Z.land 2 2 =? 0 then h4 else h4 + 1) with (h4 + 1). change (Z.log2 2) with 1 in E4. lia.
  - change (if Z.land 3 2 =? 0 then h4 else h4 + 1) with (h4 + 1). change (Z.log2 3) with 1 in E4. lia.
Qed.

Lemma low_step_spec h i n i0 mask :
  0 < n → mask = Z.ones n → i ≠ 0 → i `mod` 2 ^ (n + n) ≠ 0 → i0 = i * 2 ^ (h - 1) → 1 <= h →
  let '(h', i') := low_step mask n (h, i) in
  i' `mod` 2 ^ n ≠ 0 ∧ i0 = i' * 2 ^ (h' - 1) ∧ h <= h' <= h + n.
Proof.
  intros Hn -> Hi Hm E Hh. unfold low_step. rewrite Z.land_ones by lia.
  destruct (Z.eqb_spec (i `mod` 2 ^ n) 0) as [Hz|Hz]; [|split_and!; [done|done|lia..]].
  rewrite Z.shiftr_div_pow2 by lia.
  assert (i = 2 ^ n * (i / 2 ^ n)) as Hd by (apply Z.div_exact; [lia|done]).
  split_and!; [| |lia..].
  - intros Hz'. apply Hm. rewrite Hd, Z.pow_add_r by lia.
    rewrite Z.mul_mod_distr_l by lia. lia.
  - rewrite E. rewrite Hd at 1. replace (h + n - 1) with (n + (h - 1)) by lia.
    rewrite Z.pow_add_r by lia. lia.
Qed.

(** [r - 1] is the position of the lowest set bit of [i]. *)
Definition lowest_bit (i r : Z) : Prop :=
  Z.testbit i (r - 1) = true ∧ ∀ j, j < r - 1 → Z.testbit i j = false.

Lemma odd_shift_lowest i i' r :
  1 <= r → i' `mod` 2 ^ 1 ≠ 0 → i = i' * 2 ^ (r - 1) → lowest_bit i r.
Proof.
  intros Hr Hodd ->. rewrite <- Z.shiftl_mul_pow2 by lia. split.
  - rewrite Z.shiftl_spec, Z.sub_diag, Z.bit0_odd by lia.
    change (2 ^ 1) with 2 in Hodd. rewrite Zmod_odd in Hodd. by destruct (Z.odd i').
  - intros j Hj. by apply Z.shiftl_spec_low.
Qed.

Lemma lowbit_spec lp64 i :
  0 < i < 2 ^ nbipul lp64 →
  1 <= lowbit lp64 i <= nbipul lp64 ∧ lowest_bit i (lowbit lp64 i).
Proof.
  intros Hi. unfold lowbit. destruct (Z.eqb_spec i 0); [lia|]. cbv zeta.
  set (hi0 := if lp64 then _ else _).
  assert (∃ h0 i0, hi0 = (h0, i0) ∧ i0 `mod` 2 ^ 32 ≠ 0 ∧ i = i0 * 2 ^ (h0 - 1) ∧
            1 <= h0 <= nbipul lp64 - 31) as (h0 & i0 & -> & M0 & E0 & R0).
  { unfold hi0. destruct lp64.
    - pose proof (low_step_spec 1 i 32 i 0xffffffff) as H.
      destruct (low_step 0xffffffff 32 (1, i)) as [h0 i0]. cbn [nbipul] in *.
      destruct H as (? & ? & ?); [done|done|lia|rewrite Z.mod_small; lia|cbn; lia|lia|].
      eexists _, _. split_and!; [done..|lia|lia].
    - eexists 1, i. cbn in *. rewrite Z.mod_small by lia. split_and!; [done|lia..]. }
  pose proof (low_step_spec h0 i0 16 i 0xffff) as H1.
  destruct (low_step 0xffff 16 (h0, i0)) as [h1 i1].
  destruct H1 as (M1 & E1 & R1); [done|done|by intros ->|done|done|lia|].
  pose proof (low_step_spec h1 i1 8 i 0xff) as H2.
  destruct (low_step 0xff 8 (h1, i1)) as [h2 i2].
  destruct H2 as (M2 & E2 & R2); [done|done|by intros ->|done|done|lia|].
  pose proof (low_step_spec h2 i2 4 i 0xf) as H3.
  destruct (low_step 0xf 4 (h2, i2)) as [h3 i3].
  destruct H3 as (M3 & E3 & R3); [done|done|by intros ->|done|done|lia|].
  pose proof (low_step_spec h3 i3 2 i 0x3) as H4.
  destruct (low_step 0x3 2 (h3, i3)) as [h4 i4].
  destruct H4 as (M4 & E4 & R4); [done|done|by intros ->|done|done|lia|].
  pose proof (low_step_spec h4 i4 1 i 0x1) as H5. unfold low_step in H5.
  destruct (Z.land i4 1 =? 0).
  - destruct H5 as (M5 & E5 & R5); [done|done|by intros ->|done|done|lia|].
    split; [lia|]. eapply odd_shift_lowest; [lia|done|done].
  - destruct H5 as (M5 & E5 & R5); [done|done|by intros ->|done|done|lia|].
    split; [lia|]. eapply odd_shift_lowest; [lia|done|done].
Qed.

(** ** bt_availbit() *)

Lemma index_t_id x : 0 <= x < 32768 → index_t x = x.
Proof. intros Hx. apply wraps_id; [done|]. cbn. lia. Qed.

Lemma all_ones_bits lp64 map i :
  map !! Z.to_nat (i / nbipul lp64) = Some (BT_ULMAXMASK lp64) → bit lp64 map i = true.
Proof.
  intros Hw. unfold bit. rewrite Hw, BT_ULMAXMASK_ones.
  pose proof (index_split lp64 i) as [_ Hm]. apply Z.ones_spec_low. lia.
Qed.

(** The bits of a word above its width are clear. *)
Lemma word_bits_above lp64 w j :
  0 <= w < 2 ^ nbipul lp64 → nbipul lp64 <= j → Z.testbit w j = false.
Proof.
  intros Hw Hj. pose proof (nbipul_range lp64).
  destruct (decide (w = 0)) as [->|]; [apply Z.bits_0|].
  apply Z.bits_above_log2; [lia|]. apply Z.log2_lt_pow2; [lia|].
  apply Z.lt_le_trans with (2 ^ nbipul lp64); [lia|]. apply Z.pow_le_mono_r; lia.
Qed.

Lemma all_bits_set lp64 w :
  0 <= w < 2 ^ nbipul lp64 → (∀ j, 0 <= j < nbipul lp64 → Z.testbit w j = true) →
  w = BT_ULMAXMASK lp64.
Proof.
  intros Hw Hall. rewrite BT_ULMAXMASK_ones. pose proof (nbipul_range lp64).
  apply Z.bits_inj'. intros j Hj. destruct (decide (j < nbipul lp64)).
  - rewrite Z.ones_spec_low by lia. apply Hall. lia.
  - rewrite Z.ones_spec_high by lia. apply (word_bits_above lp64); lia.
Qed.

Lemma avail_word_loop lp64 map maxword :
  0 <= maxword < 1024 → maxword < Z.of_nat (length map) →
  ∃ wx, run (avail_word_step lp64 map maxword) (S (S (length map))) 0 = Some wx ∧
    0 <= wx <= maxword + 1 ∧
    (∀ v, 0 <= v < wx → map !! Z.to_nat v = Some (BT_ULMAXMASK lp64)) ∧
    (wx <= maxword → map !! Z.to_nat wx ≠ Some (BT_ULMAXMASK lp64)).
Proof.
  intros Hmax Hlen.
  apply (run_total _
    (λ wx, 0 <= wx <= maxword + 1 ∧
       ∀ v, 0 <= v < wx → map !! Z.to_nat v = Some (BT_ULMAXMASK lp64)) _
    (λ wx, Z.to_nat (maxword + 1 - wx))); [|split; [lia|intros; lia]|lia].
  intros wx [Hr Hfull]. unfold avail_word_step.
  destruct (Z.leb_spec wx maxword).
  - destruct (word_in map wx) as (w & -> & Hw); [lia|].
    destruct (Z.eqb_spec w (BT_ULMAXMASK lp64)) as [->|Hne].
    + eexists. split; [done|]. cbn. rewrite index_t_id by lia. split; [split; [lia|]|lia].
      intros v Hv. destruct (decide (v = wx)) as [->|]; [done|apply Hfull; lia].
    + eexists. split; [done|]. cbn. split_and!; [lia|lia|done|]. rewrite Hw. congruence.
  - eexists. split; [done|]. cbn. split_and!; [lia|lia|done|lia].
Qed.

Lemma avail_bit_loop lp64 w wx maxbit :
  0 <= maxbit < nbipul lp64 → 0 <= wx → wx * nbipul lp64 + maxbit < 32768 →
  ∃ r, run (avail_bit_step lp64 w wx maxbit) (S (S (Z.to_nat (BT_NBIPUL lp64)))) (0, 1) = Some r ∧
    match r with
    | Some i => ∃ bx, i = wx * nbipul lp64 + bx ∧ 0 <= bx <= maxbit ∧
                Z.testbit w bx = false ∧ ∀ j, 0 <= j < bx → Z.testbit w j = true
    | None => ∀ j, 0 <= j <= maxbit → Z.testbit w j = true
    end.
Proof.
  intros Hmax Hwx Hidx. pose proof (nbipul_range lp64).
  apply (run_total _
    (λ s, 0 <= s.1 <= maxbit + 1 ∧ s.2 = 2 ^ s.1 `mod` 2 ^ nbipul lp64 ∧
       ∀ j, 0 <= j < s.1 → Z.testbit w j = true) _
    (λ s, Z.to_nat (maxbit + 1 - s.1))).
  - intros [bx b] (Hr & Hb & Hall). cbn [fst snd] in *. unfold avail_bit_step.
    destruct (Z.leb_spec bx maxbit).
    + rewrite Z.mod_small in Hb; [|split; [lia|apply Z.pow_lt_mono_r; lia]].
      rewrite Hb, land_pow2_testbit by lia. destruct (Z.testbit w bx) eqn:E; cbn [negb].
      * eexists. split; [done|]. cbn. rewrite index_t_id by nia. split; [split; [lia|split]|lia].
        -- rewrite BT_ULMAXMASK_ones, Z.land_ones by lia. f_equal.
           rewrite Z.shiftl_mul_pow2, <- Z.pow_add_r by lia. done.
        -- intros j Hj. destruct (decide (j = bx)) as [->|]; [done|apply Hall; lia].
      * eexists. split; [done|]. cbn. exists bx. rewrite lor_ULSHIFT by lia.
        rewrite index_t_id by nia. split_and!; [done|lia|lia|done|done].
    + eexists. split; [done|]. cbn. intros j Hj. apply Hall. lia.
  - cbn. split; [lia|]. split; [|intros; lia]. rewrite Z.mod_small; [done|].
    split; [lia|]. apply Z.pow_gt_1; lia.
  - cbn. rewrite BT_NBIPUL_eq. lia.
Qed.

(** Bt_availbit() returns the index of the first zero bit among the first
    [nbits] bits, and -1 when there is none, for every bitmap whose indexes
    fit in an [index_t]. *)
Theorem bt_availbit_first lp64 map nbits :
  wf_map lp64 map → 0 < nbits <= map_bits lp64 map → nbits <= 32768 →
  ∃ r, bt_availbit lp64 map nbits = Some r ∧
    ((r = -1 ∧ ∀ i, 0 <= i < nbits → bit lp64 map i = true) ∨
     (0 <= r < nbits ∧ bit lp64 map r = false ∧ ∀ i, 0 <= i < r → bit lp64 map i = true)).
Proof.
  intros Hwf Hn Hsmall. pose proof (nbipul_range lp64) as HW.
  assert (2 ^ 32 <= 2 ^ nbipul lp64) as Hpow by (apply Z.pow_le_mono_r; lia).
  unfold bt_availbit. rewrite BT_NBIPUL_eq, wrapu_id by lia.
  rewrite shiftr_ULSHIFT, land_ULMASK.
  pose proof (index_word lp64 map (nbits - 1)) as Hmw.
  pose proof (index_split lp64 (nbits - 1)) as [Hsplit Hmod].
  assert ((nbits - 1) / nbipul lp64 < 1024) by (apply Z.div_lt_upper_bound; lia).
  assert (0 <= (nbits - 1) / nbipul lp64) by (apply Z.div_pos; lia).
  rewrite (index_t_id (_ / _)), (index_t_id (_ `mod` _)), (index_t_id (nbipul lp64 - 1)) by lia.
  set (maxword := (nbits - 1) / nbipul lp64) in *.
  set (lastbit := (nbits - 1) `mod` nbipul lp64) in *.
  destruct (avail_word_loop lp64 map maxword) as (wx & -> & Hwx & Hfull & Hfree); [lia..|].
  assert (∀ i, 0 <= i < wx * nbipul lp64 → bit lp64 map i = true) as Hbefore.
  { intros i Hi. apply all_ones_bits, Hfull. split; [apply Z.div_pos; lia|].
    apply Z.div_lt_upper_bound; lia. }
  destruct (Z.leb_spec wx maxword).
  2: { eexists. split; [done|]. left. split; [done|]. intros i Hi. apply Hbefore. nia. }
  destruct (word_in map wx) as (w & -> & Hw); [lia|].
  set (maxbit := if wx =? maxword then lastbit else nbipul lp64 - 1).
  assert (0 <= maxbit < nbipul lp64 ∧ wx * nbipul lp64 + maxbit <= nbits - 1 ∧
          (wx < maxword → maxbit = nbipul lp64 - 1) ∧ (wx = maxword → maxbit = lastbit))
    as (Hmb & Hle & Hmid & Hlast).
  { unfold maxbit. destruct (Z.eqb_spec wx maxword) as [->|]; split_and!; try lia; nia. }
  rewrite <- BT_NBIPUL_eq.
  destruct (avail_bit_loop lp64 w wx maxbit) as (r & -> & Hr); [lia..|].
  destruct r as [i|].
  - destruct Hr as (bx & -> & Hbx & Hclear & Hset). eexists. split; [done|]. right.
    split; [nia|]. rewrite (bit_of_word lp64 map wx w) by (done || lia). split; [done|].
    intros i Hi. destruct (decide (i < wx * nbipul lp64)); [apply Hbefore; lia|].
    replace i with (wx * nbipul lp64 + (i - wx * nbipul lp64)) by lia.
    rewrite (bit_of_word lp64 map wx w) by (done || lia). apply Hset. lia.
  - eexists. split; [done|]. left. split; [done|].
    assert (wx = maxword) as ->.
    { destruct (decide (wx < maxword)) as [Hlt|]; [|lia]. exfalso.
      apply Hfree; [lia|]. rewrite Hw. f_equal.
      apply (all_bits_set lp64); [by eapply wf_map_word|]. intros j Hj. apply Hr. lia. }
    intros i Hi. destruct (decide (i < maxword * nbipul lp64)); [apply Hbefore; lia|].
    replace i with (maxword * nbipul lp64 + (i - maxword * nbipul lp64)) by lia.
    rewrite (bit_of_word lp64 map maxword w) by (done || lia). apply Hr. lia.
Qed.

(** Bt_availbit() does not work for bitmaps of arbitrary size: [index_t]
    is [short], so a bitmap whose first free bit is at 32768 yields -32768. *)
Theorem bt_availbit_wraps :
  bt_availbit true (replicate 512 (2 ^ 64 - 1) ++ [0]) 32832 = Some (-32768).
Proof. vm_compute. reflexivity. Qed.

(** ** bt_gethighbit() *)

(** Bt_gethighbit() returns the highest set bit within or below the word
    [wx], and -1 when those words are all zero. *)
Theorem bt_gethighbit_highest lp64 map wx :
  wf_map lp64 map → 0 <= wx < Z.of_nat (length map) →
  ∃ r, bt_gethighbit lp64 map wx = Some r ∧
    ((r = -1 ∧ ∀ i, 0 <= i < (wx + 1) * nbipul lp64 → bit lp64 map i = false) ∨
     (0 <= r < (wx + 1) * nbipul lp64 ∧ bit lp64 map r = true ∧
      ∀ i, r < i < (wx + 1) * nbipul lp64 → bit lp64 map i = false)).
Proof.
  intros Hwf Hwx. pose proof (nbipul_range lp64).
  apply (run_total _
    (λ v, 0 <= v <= wx ∧
       ∀ i, (v + 1) * nbipul lp64 <= i < (wx + 1) * nbipul lp64 → bit lp64 map i = false) _
    Z.to_nat); [|split; [lia|intros; lia]|lia].
  intros v [Hv Hzero]. unfold gethighbit_step.
  destruct (word_in map v) as (w & -> & Hw); [lia|].
  pose proof (wf_map_word _ _ _ _ Hwf Hw) as Hwr.
  assert (∀ i, v * nbipul lp64 <= i < (v + 1) * nbipul lp64 →
            bit lp64 map i = Z.testbit w (i - v * nbipul lp64)) as Hbits.
  { intros i Hi. rewrite <- (bit_of_word lp64 map v w) by (done || lia). f_equal. lia. }
  destruct (Z.eqb_spec w 0) as [->|Hne].
  - assert (∀ i, v * nbipul lp64 <= i < (wx + 1) * nbipul lp64 → bit lp64 map i = false) as Hz.
    { intros i Hi. destruct (decide (i < (v + 1) * nbipul lp64)); [|apply Hzero; lia].
      rewrite Hbits by lia. apply Z.bits_0. }
    destruct (Z.ltb_spec (v - 1) 0).
    + eexists. split; [done|]. cbn. left. split; [done|]. intros i Hi. apply Hz. nia.
    + eexists. split; [done|]. cbn. split; [split; [lia|]|lia].
      intros i Hi. apply Hz. lia.
  - assert (Z.log2 w < nbipul lp64) by (apply Z.log2_lt_pow2; lia).
    pose proof (Z.log2_nonneg w). rewrite highbit_log2 by lia.
    replace (Z.log2 w + 1 - 1) with (Z.log2 w) by lia. rewrite lor_ULSHIFT by lia.
    eexists. split; [done|]. cbn. right. split; [nia|]. split.
    + rewrite (bit_of_word lp64 map v w) by (done || lia). apply Z.bit_log2. lia.
    + intros i Hi. destruct (decide (i < (v + 1) * nbipul lp64)); [|apply Hzero; lia].
      rewrite Hbits by lia. apply Z.bits_above_log2; lia.
Qed.

(** ** bt_range() *)

Lemma range_loop lp64 map nbits want pos fuel :
  0 <= pos <= nbits → nbits <= map_bits lp64 map → (Z.to_nat (nbits - pos) < fuel)%nat →
  ∃ e, run (range_step lp64 map nbits want) fuel pos = Some e ∧ pos <= e <= nbits ∧
    (∀ i, pos <= i < e → bit lp64 map i = negb want) ∧
    (e < nbits → bit lp64 map e = want).
Proof.
  intros Hp Hn Hf.
  apply (run_total _
    (λ inx, pos <= inx <= nbits ∧ ∀ i, pos <= i < inx → bit lp64 map i = negb want) _
    (λ inx, Z.to_nat (nbits - inx))); [|split; [lia|intros; lia]|done].
  intros inx [Hr Hall]. unfold range_step. destruct (Z.ltb_spec inx nbits).
  - rewrite BT_TEST_spec by lia. destruct (Bool.eqb _ want) eqn:E.
    + apply eqb_prop in E. eexists. split; [done|]. cbn. split_and!; [lia|lia|done|done].
    + apply eqb_false_iff in E. eexists. split; [done|]. cbn. split; [split; [lia|]|lia].
      intros i Hi. destruct (decide (i = inx)) as [->|]; [|apply Hall; lia].
      by destruct (bit lp64 map inx), want.
  - eexists. split; [done|]. cbn. split_and!; [lia|lia|done|lia].
Qed.

(** Bt_range() finds the first maximal run of ones at or after [pos1]:
    0 when there is no set bit, and otherwise the run's first and last bit. *)
Theorem bt_range_run lp64 map pos1 nbits :
  0 <= pos1 <= nbits → nbits <= map_bits lp64 map →
  ∃ r, bt_range lp64 map pos1 nbits = Some r ∧
    match r with
    | None => ∀ i, pos1 <= i < nbits → bit lp64 map i = false
    | Some (first, last) =>
        pos1 <= first <= last ∧ last < nbits ∧
        (∀ i, pos1 <= i < first → bit lp64 map i = false) ∧
        (∀ i, first <= i <= last → bit lp64 map i = true) ∧
        (last + 1 < nbits → bit lp64 map (last + 1) = false)
    end.
Proof.
  intros Hp Hn. unfold bt_range.
  destruct (range_loop lp64 map nbits true pos1 (S (Z.to_nat (nbits - pos1))))
    as (inx & -> & Hinx & Hbefore & Hat); [lia..|].
  destruct (Z.eqb_spec inx nbits) as [->|Hne]; [eexists; split; [done|]; done|].
  destruct (range_loop lp64 map nbits false inx (S (Z.to_nat (nbits - pos1))))
    as (e & -> & He & Hrun & Hend); [lia..|].
  assert (inx < e) as Hlt.
  { destruct (decide (inx = e)) as [->|]; [|lia]. rewrite Hend in Hat by lia. discriminate Hat; lia. }
  eexists. split; [done|]. cbn. split_and!; [lia|lia|lia|done| |].
  - intros i Hi. apply Hrun. lia.
  - replace (e - 1 + 1) with e by lia. done.
Qed.

(** ** BT_SET() and BT_CLEAR() *)

Lemma bit_insert lp64 map i w j :
  0 <= i < map_bits lp64 map → 0 <= j →
  bit lp64 (<[Z.to_nat (i / nbipul lp64) := w]> map) j =
    if i / nbipul lp64 =? j / nbipul lp64 then Z.testbit w (j `mod` nbipul lp64)
    else bit lp64 map j.
Proof.
  intros Hi Hj. pose proof (nbipul_range lp64). pose proof (index_word _ _ _ Hi).
  assert (0 <= j / nbipul lp64) by (apply Z.div_pos; lia). unfold bit.
  destruct (Z.eqb_spec (i / nbipul lp64) (j / nbipul lp64)) as [<-|].
  - by rewrite list_lookup_insert_eq by lia.
  - by rewrite list_lookup_insert_ne by lia.
Qed.

Lemma same_index lp64 i j :
  i / nbipul lp64 = j / nbipul lp64 → i `mod` nbipul lp64 = j `mod` nbipul lp64 → i = j.
Proof.
  intros Hd Hm. pose proof (index_split lp64 i) as [Hi _].
  pose proof (index_split lp64 j) as [Hj _]. congruence.
Qed.

(** BT_SET() and BT_CLEAR() store exactly one bit: the one at the index,
    and no other bit of the map. *)
Theorem bt_set_clear_bit lp64 map i :
  0 <= i < map_bits lp64 map →
  (∃ map', BT_SET lp64 map i = Some map' ∧ length map' = length map ∧
     ∀ j, 0 <= j → bit lp64 map' j = (i =? j) || bit lp64 map j) ∧
  (∃ map', BT_CLEAR lp64 map i = Some map' ∧ length map' = length map ∧
     ∀ j, 0 <= j → bit lp64 map' j = negb (i =? j) && bit lp64 map j).
Proof.
  intros Hi. unfold BT_SET, BT_CLEAR. rewrite shiftr_ULSHIFT, land_ULMASK, Z.shiftl_1_l.
  pose proof (index_word _ _ _ Hi) as Hw.
  destruct (word_in map (i / nbipul lp64)) as (w & -> & Hlk); [done|].
  pose proof (index_split lp64 i) as [_ Hm]. rewrite !wr_lt by lia.
  split; (eexists; split; [done|]; split; [by rewrite length_insert|]; intros j Hj;
    rewrite bit_insert by done; pose proof (index_split lp64 j) as [_ Hmj];
    destruct (Z.eqb_spec (i / nbipul lp64) (j / nbipul lp64)) as [Hd|Hd];
    [|destruct (Z.eqb_spec i j) as [->|]; [done|done]];
    rewrite ?Z.lor_spec, ?Z.ldiff_spec, Z.pow2_bits_eqb by lia;
    unfold bit; rewrite <- Hd, Hlk;
    destruct (Z.eqb_spec (i `mod` nbipul lp64) (j `mod` nbipul lp64)) as [He|He];
    [rewrite (same_index lp64 i j Hd He), Z.eqb_refl|
     destruct (Z.eqb_spec i j) as [->|]; [done|]];
    by destruct (Z.testbit w _)).
Qed.

(** ** bt_getlowbit() *)

Lemma low_mask lp64 w sb b :
  0 <= sb < nbipul lp64 → 0 <= b < nbipul lp64 →
  Z.testbit (Z.land w (Z.land (Z.shiftl (BT_ULMAXMASK lp64) sb) (BT_ULMAXMASK lp64))) b =
  (sb <=? b) && Z.testbit w b.
Proof.
  intros Hs Hb. rewrite !Z.land_spec, BT_ULMAXMASK_ones, Z.shiftl_spec by lia.
  rewrite (Z.ones_spec_low _ b), andb_true_r by lia.
  destruct (Z.leb_spec sb b).
  - by rewrite (Z.ones_spec_low _ (b - sb)), andb_true_r by lia.
  - by rewrite (Z.testbit_neg_r _ (b - sb)), andb_false_r by lia.
Qed.

Lemma high_mask lp64 w lb b :
  0 <= lb < nbipul lp64 - 1 → 0 <= b < nbipul lp64 →
  Z.testbit (Z.land w (Z.land (Z.lnot (Z.shiftl (BT_ULMAXMASK lp64) (lb + 1)))
                         (BT_ULMAXMASK lp64))) b =
  (b <=? lb) && Z.testbit w b.
Proof.
  intros Hs Hb. rewrite !Z.land_spec, Z.lnot_spec, BT_ULMAXMASK_ones, Z.shiftl_spec by lia.
  rewrite (Z.ones_spec_low _ b), andb_true_r by lia.
  destruct (Z.leb_spec b lb).
  - by rewrite (Z.testbit_neg_r _ (b - (lb + 1))), andb_true_r by lia.
  - by rewrite (Z.ones_spec_low _ (b - (lb + 1))), andb_false_r by lia.
Qed.

Lemma land_word_range lp64 w m : 0 <= w < 2 ^ nbipul lp64 → 0 <= m → 0 <= Z.land w m < 2 ^ nbipul lp64.
Proof.
  intros Hw Hm. pose proof (nbipul_range lp64). split; [apply Z.land_nonneg; lia|].
  destruct (decide (w = 0)) as [->|]; [rewrite Z.land_0_l; lia|].
  assert (Z.log2 w < nbipul lp64) by (apply Z.log2_lt_pow2; lia).
  pose proof (Z.log2_land w m). pose proof (Z.log2_spec (Z.land w m)).
  pose proof (Z.land_nonneg w m).
  destruct (decide (Z.land w m = 0)) as [->|]; [lia|]. apply Z.log2_lt_pow2; lia.
Qed.

(** [w] holds the bits of word [wx] that lie at or after [start]. *)
Record getlow_inv (lp64 : bool) (map : list Z) (start : Z) (s : Z * Z) : Prop := {
  gl_word : 0 <= s.1 < 2 ^ nbipul lp64;
  gl_start : start / nbipul lp64 <= s.2;
  gl_bits : ∀ b, 0 <= b < nbipul lp64 →
    Z.testbit s.1 b = (start <=? s.2 * nbipul lp64 + b) && bit lp64 map (s.2 * nbipul lp64 + b);
  gl_before : ∀ i, start <= i < s.2 * nbipul lp64 → bit lp64 map i = false;
}.

Lemma zero_word_clear lp64 map start w wx i :
  getlow_inv lp64 map start (w, wx) → w = 0 →
  start <= i < (wx + 1) * nbipul lp64 → bit lp64 map i = false.
Proof.
  intros [_ _ Hbits Hbefore] -> Hi. cbn in *.
  destruct (decide (i < wx * nbipul lp64)); [apply Hbefore; lia|].
  specialize (Hbits (i - wx * nbipul lp64)). rewrite Z.bits_0 in Hbits.
  replace (wx * nbipul lp64 + (i - wx * nbipul lp64)) with i in Hbits by lia.
  destruct (Z.leb_spec start i); [|lia]. symmetry. apply Hbits. lia.
Qed.

Lemma getlow_init lp64 map start w :
  wf_map lp64 map → 0 <= start → map !! Z.to_nat (start / nbipul lp64) = Some w →
  getlow_inv lp64 map start
    (if start `mod` nbipul lp64 =? 0 then w
     else Z.land w (Z.land (Z.shiftl (BT_ULMAXMASK lp64) (start `mod` nbipul lp64))
                      (BT_ULMAXMASK lp64)), start / nbipul lp64).
Proof.
  intros Hwf Hs Hw. pose proof (nbipul_range lp64).
  pose proof (index_split lp64 start) as [Hsp Hmod].
  pose proof (wf_map_word _ _ _ _ Hwf Hw) as Hwr. split; cbn [fst snd].
  - destruct (_ =? 0); [done|]. apply land_word_range; [done|].
    rewrite BT_ULMAXMASK_ones. apply Z.land_nonneg. right. rewrite Z.ones_equiv. lia.
  - lia.
  - intros b Hb. rewrite (bit_of_word lp64 map _ w) by done.
    destruct (Z.eqb_spec (start `mod` nbipul lp64) 0).
    + destruct (Z.leb_spec start (start / nbipul lp64 * nbipul lp64 + b)); [done|lia].
    + rewrite low_mask by lia. f_equal.
      destruct (Z.leb_spec (start `mod` nbipul lp64) b),
        (Z.leb_spec start (start / nbipul lp64 * nbipul lp64 + b)); (done || lia).
  - intros i Hi. lia.
Qed.

Lemma getlow_loop lp64 map start limit w wx :
  wf_map lp64 map → 0 <= start → limit + 1 < Z.of_nat (length map) → wx <= limit + 1 →
  getlow_inv lp64 map start (w, wx) →
  ∃ s, run (getlow_step map limit) (S (length map)) (w, wx) = Some s ∧
    getlow_inv lp64 map start s ∧ wx <= s.2 <= limit + 1 ∧ (s.2 <= limit → s.1 ≠ 0).
Proof.
  intros Hwf Hs Hlim Hwx Hinv. pose proof (nbipul_range lp64).
  assert (0 <= wx) as Hwx0.
  { destruct Hinv as [_ Hst _ _]. cbn in Hst.
    assert (0 <= start / nbipul lp64) by (apply Z.div_pos; lia). lia. }
  apply (run_total _ (λ s, getlow_inv lp64 map start s ∧ wx <= s.2 <= limit + 1) _
    (λ s, Z.to_nat (limit + 1 - s.2))); [|split; [done|cbn; lia]|cbn; lia].
  intros [w' wx'] [Hi Hr]. cbn [fst snd] in *. unfold getlow_step.
  destruct (Z.eqb_spec w' 0) as [->|Hne]; cbn [andb];
    [|eexists; split; [done|]; cbn; split_and!; [done|lia|lia|done]].
  destruct (Z.leb_spec wx' limit);
    [|eexists; split; [done|]; cbn; split_and!; [done|lia|lia|lia]].
  destruct (word_in map (wx' + 1)) as (v & -> & Hv); [lia|].
  pose proof (wf_map_word _ _ _ _ Hwf Hv) as Hvr.
  eexists. split; [done|]. cbn. split; [split; [|lia]|lia].
  pose proof (λ i, zero_word_clear lp64 map start 0 wx' i Hi eq_refl) as Hz.
  destruct Hi as [_ Hst _ _]. cbn in Hst.
  pose proof (index_split lp64 start) as [Hsp Hmod].
  split; cbn; [done|lia| |intros i Hii; apply Hz; lia].
  intros b Hb. rewrite (bit_of_word lp64 map _ v) by done.
  destruct (Z.leb_spec start ((wx' + 1) * nbipul lp64 + b)); [done|nia].
Qed.

(** The result bt_getlowbit() is to give. *)
Definition first_set (lp64 : bool) (map : list Z) (start stop r : Z) : Prop :=
  (r = -1 ∧ ∀ i, start <= i <= stop → bit lp64 map i = false) ∨
  (start <= r <= stop ∧ bit lp64 map r = true ∧ ∀ i, start <= i < r → bit lp64 map i = false).

Lemma getlow_result lp64 map start stop w wx w' :
  getlow_inv lp64 map start (w, wx) → 0 < w' < 2 ^ nbipul lp64 →
  (∀ b, 0 <= b < nbipul lp64 →
     Z.testbit w' b = (wx * nbipul lp64 + b <=? stop) && Z.testbit w b) →
  first_set lp64 map start stop (Z.lor (Z.shiftl wx (BT_ULSHIFT lp64)) (lowbit lp64 w' - 1)).
Proof.
  intros [Hwr Hst Hbits Hbefore] Hw' Hmask. cbn [fst snd] in *.
  destruct (lowbit_spec lp64 w' Hw') as [Hr [Hone Hlow]].
  set (b := lowbit lp64 w' - 1) in *. rewrite lor_ULSHIFT by lia.
  rewrite Hmask, Hbits in Hone by lia. zbool. right. split; [lia|]. split; [done|].
  intros i Hi. destruct (decide (i < wx * nbipul lp64)); [apply Hbefore; lia|].
  specialize (Hlow (i - wx * nbipul lp64)). rewrite Hmask, Hbits in Hlow by lia.
  replace (wx * nbipul lp64 + (i - wx * nbipul lp64)) with i in Hlow by lia.
  destruct (Z.leb_spec i stop), (Z.leb_spec start i); [apply Hlow|..]; lia.
Qed.

(** Bt_getlowbit() returns the lowest set bit between [start] and [stop]
    inclusive, and -1 if there is none.  When [stop] is the last bit of a
    word, the word after it must be readable. *)
Theorem bt_getlowbit_lowest lp64 map start stop :
  wf_map lp64 map → 0 <= start <= stop → stop < map_bits lp64 map →
  (stop `mod` nbipul lp64 = nbipul lp64 - 1 → stop + 1 < map_bits lp64 map) →
  ∃ r, bt_getlowbit lp64 map start stop = Some r ∧ first_set lp64 map start stop r.
Proof.
  intros Hwf Hs Hstop Hnext. pose proof (nbipul_range lp64). unfold bt_getlowbit.
  rewrite !shiftr_ULSHIFT, !land_ULMASK. unfold BT_ULMASK. rewrite BT_NBIPUL_eq.
  destruct (start >? stop) eqn:Hgt; [zbool; lia|].
  pose proof (index_split lp64 stop) as [Hsp Hmod].
  pose proof (index_word lp64 map stop). pose proof (index_word lp64 map start).
  assert (start / nbipul lp64 <= stop / nbipul lp64) by (apply Z.div_le_mono; lia).
  destruct (word_in map (start / nbipul lp64)) as (w0 & -> & Hw0); [lia|].
  pose proof (getlow_init lp64 map start w0 Hwf) as Hinit.
  set (w := if start `mod` nbipul lp64 =? 0 then _ else _) in *.
  set (limit := if _ =? _ then stop / nbipul lp64 else stop / nbipul lp64 - 1).
  assert (limit + 1 < Z.of_nat (length map) ∧ start / nbipul lp64 <= limit + 1) as [Hl1 Hl2].
  { unfold limit, map_bits in *. destruct (Z.eqb_spec (stop `mod` nbipul lp64) (nbipul lp64 - 1));
      [nia|lia]. }
  destruct (getlow_loop lp64 map start limit w (start / nbipul lp64))
    as ([w' wx] & -> & Hinv & Hwx & Hnz); [done|lia|done|done|by apply Hinit; [lia|]|].
  cbn [fst snd] in *. pose proof Hinv as [Hwr _ _ _]. cbn in Hwr. unfold limit in *. clear limit.
  destruct (Z.eqb_spec (stop `mod` nbipul lp64) (nbipul lp64 - 1)) as [Hal|Hal];
    destruct (wx >? _) eqn:Hover; rewrite Z.gtb_ltb in Hover; zbool.
  - eexists. split; [done|]. left. split; [done|]. intros i Hi.
    destruct Hinv as [_ _ _ Hbefore]. apply Hbefore. cbn. nia.
  - eexists. split; [done|]. apply (getlow_result _ _ _ _ w' wx w'); [done|lia|].
    intros b Hb. destruct (Z.leb_spec (wx * nbipul lp64 + b) stop); [done|nia].
  - assert (wx = stop / nbipul lp64) as -> by lia.
    set (m := Z.land w' _).
    assert (∀ b, 0 <= b < nbipul lp64 → Z.testbit m b =
              (stop / nbipul lp64 * nbipul lp64 + b <=? stop) && Z.testbit w' b) as Hm.
    { intros b Hb. unfold m. rewrite high_mask by lia. f_equal.
      destruct (Z.leb_spec b (stop `mod` nbipul lp64)),
        (Z.leb_spec (stop / nbipul lp64 * nbipul lp64 + b) stop); (done || lia). }
    assert (0 <= m < 2 ^ nbipul lp64) as Hmr.
    { apply land_word_range; [done|]. apply Z.land_nonneg. right.
      rewrite BT_ULMAXMASK_ones, Z.ones_equiv. lia. }
    destruct (Z.eqb_spec m 0) as [Hz|Hz].
    + eexists. split; [done|]. left. split; [done|]. intros i Hi.
      destruct Hinv as [_ _ Hbits Hbefore]. cbn in *.
      destruct (decide (i < stop / nbipul lp64 * nbipul lp64)); [apply Hbefore; lia|].
      specialize (Hm (i - stop / nbipul lp64 * nbipul lp64)).
      rewrite Hz, Z.bits_0, Hbits in Hm by lia.
      replace (_ + (i - _)) with i in Hm by lia.
      destruct (Z.leb_spec i stop), (Z.leb_spec start i); [|lia..]. symmetry. apply Hm. lia.
    + eexists. split; [done|]. by apply (getlow_result _ _ _ _ w' _ m); [|lia|].
  - eexists. split; [done|]. apply (getlow_result _ _ _ _ w' wx w'); [done|lia|].
    intros b Hb. destruct (Z.leb_spec (wx * nbipul lp64 + b) stop); [done|nia].
Qed.

(** The proviso of C11 is needed: with [stop] on the last bit of the map
    and no bit set, bt_getlowbit() reads the word after the map. *)
Theorem bt_getlowbit_overread lp64 n :
  (0 < n)%nat →
  bt_getlowbit lp64 (replicate n 0) 0 (map_bits lp64 (replicate n 0) - 1) = None.
Proof.
  intros Hn. pose proof (nbipul_range lp64). unfold bt_getlowbit, map_bits.
  rewrite !shiftr_ULSHIFT, !land_ULMASK. unfold BT_ULMASK.
  rewrite BT_NBIPUL_eq, length_replicate.
  assert ((nbipul lp64 * Z.of_nat n - 1) / nbipul lp64 = Z.of_nat n - 1) as ->.
  { symmetry. apply Z.div_unique_pos with (nbipul lp64 - 1); lia. }
  assert ((nbipul lp64 * Z.of_nat n - 1) `mod` nbipul lp64 = nbipul lp64 - 1) as ->.
  { symmetry. apply Z.mod_unique_pos with (Z.of_nat n - 1); lia. }
  rewrite Z.div_0_l, Z.mod_0_l, !Z.eqb_refl by lia.
  destruct (0 >? _) eqn:Hgt; [zbool; nia|].
  assert (word (replicate n 0) 0 = Some 0) as ->.
  { unfold word, rd. cbn. by destruct n; [lia|]. }
  assert (∀ fuel wx, 0 <= wx < Z.of_nat n →
    run (getlow_step (replicate n 0) (Z.of_nat n - 1)) fuel (0, wx) = None) as Hrun;
    [|by rewrite Hrun by lia].
  induction fuel as [|fuel IH]; intros wx Hwx; [done|]. cbn [run]. unfold getlow_step.
  destruct (Z.leb_spec wx (Z.of_nat n - 1)); [|lia]. cbn [andb Z.eqb].
  destruct (decide (wx + 1 < Z.of_nat n)).
  - assert (word (replicate n 0) (wx + 1) = Some 0) as ->; [|by apply IH; lia].
    apply word_lookup; [lia|]. apply lookup_replicate_2. lia.
  - unfold word. destruct (Z.ltb_spec (wx + 1) 0); [lia|].
    unfold rd. by rewrite lookup_ge_None_2 by (rewrite length_replicate; lia).
Qed.

(** ** Witnesses *)

Lemma bt_availbit_first_witness :
  ∃ r, bt_availbit true [2 ^ 64 - 1; 11] 100 = Some r ∧
    ((r = -1 ∧ ∀ i, 0 <= i < 100 → bit true [2 ^ 64 - 1; 11] i = true) ∨
     (0 <= r < 100 ∧ bit true [2 ^ 64 - 1; 11] r = false ∧
      ∀ i, 0 <= i < r → bit true [2 ^ 64 - 1; 11] i = true)).
Proof.
  apply (bt_availbit_first true [2 ^ 64 - 1; 11] 100);
    [repeat constructor; vm_compute; congruence|split; [reflexivity|vm_compute; congruence]|done].
Defined.

Lemma bt_gethighbit_highest_witness :
  ∃ r, bt_gethighbit false [5; 0; 0] 2 = Some r ∧
    ((r = -1 ∧ ∀ i, 0 <= i < (2 + 1) * nbipul false → bit false [5; 0; 0] i = false) ∨
     (0 <= r < (2 + 1) * nbipul false ∧ bit false [5; 0; 0] r = true ∧
      ∀ i, r < i < (2 + 1) * nbipul false → bit false [5; 0; 0] i = false)).
Proof. apply (bt_gethighbit_highest false [5; 0; 0] 2); [repeat constructor; vm_compute; congruence|cbn; lia]. Defined.

Lemma bt_range_run_witness :
  ∃ r, bt_range true [24; 0] 1 128 = Some r ∧
    match r with
    | None => ∀ i, 1 <= i < 128 → bit true [24; 0] i = false
    | Some (first, last) =>
        1 <= first <= last ∧ last < 128 ∧
        (∀ i, 1 <= i < first → bit true [24; 0] i = false) ∧
        (∀ i, first <= i <= last → bit true [24; 0] i = true) ∧
        (last + 1 < 128 → bit true [24; 0] (last + 1) = false)
    end.
Proof. apply (bt_range_run true [24; 0] 1 128); [lia|unfold map_bits; cbn; lia]. Defined.

Lemma bt_set_clear_bit_witness :
  (∃ map', BT_SET true [1; 0] 70 = Some map' ∧ length map' = 2%nat ∧
     ∀ j, 0 <= j → bit true map' j = (70 =? j) || bit true [1; 0] j) ∧
  (∃ map', BT_CLEAR true [1; 0] 70 = Some map' ∧ length map' = 2%nat ∧
     ∀ j, 0 <= j → bit true map' j = negb (70 =? j) && bit true [1; 0] j).
Proof. apply (bt_set_clear_bit true [1; 0] 70). unfold map_bits. cbn. lia. Defined.

Lemma bt_getlowbit_lowest_witness :
  ∃ r, bt_getlowbit true [0; 0; 8] 3 131 = Some r ∧ first_set true [0; 0; 8] 3 131 r.
Proof.
  apply (bt_getlowbit_lowest true [0; 0; 8] 3 131); [repeat constructor; vm_compute; congruence|lia|unfold map_bits; cbn; lia|unfold map_bits; cbn; lia].
Defined.

Lemma bt_getlowbit_overread_witness :
  bt_getlowbit true (replicate 2 0) 0 (map_bits true (replicate 2 0) - 1) = None.
Proof. apply (bt_getlowbit_overread true 2). lia. Defined.
