(* ===== verification/FdTable.v ===== *)
(** * FdTable: file descriptor allocation

    Models the file descriptor table of [uts/common/os/fio.c]: the binary
    search tree that the allocation counts [uf_alloc] superimpose on the
    table ([fd_find], [fd_reserve]), the growth of the table ([flist_grow]),
    and the operations on descriptors built on them ([ufalloc], [setf],
    [getf], [releasef], [f_setfd], [flist_fork]).  Every operation runs with
    the locks the source takes ([fi_lock], and [uf_lock] of the entry), so it
    is one transition of the table. *)

From stdpp Require Import base numbers list option.
From Stdlib Require Import ZArith Lia.
From S2P Require Import Prelude.

(** A file pointer; NULL is 0. *)
Definition file_ptr : Type := Z.
Definition NULL : Z := 0.

Record uf_entry := UfEntry {
  uf_file : file_ptr;
  uf_fpollinfo : Z;
  uf_refcnt : Z;
  uf_alloc : Z;
  uf_flag : Z;
  uf_busy : Z;
}.

(** The entry kmem_zalloc() gives. *)
Definition uf_zero : uf_entry := UfEntry 0 0 0 0 0 0.

Record uf_info := UfInfo {
  fi_list : list uf_entry;
  fi_nfiles : Z;
  fi_rlist : list (list uf_entry * Z);
}.

(** [&fi_list[fd]] *)
Definition entry (fip : uf_info) (fd : Z) : option uf_entry :=
  if fd <? 0 then None else rd (fi_list fip) (Z.to_nat fd).

(** Store of an entry of the table. *)
Definition set_entry (fip : uf_info) (fd : Z) (e : uf_entry) : option uf_info :=
  if fd <? 0 then None
  else let! l := wr (fi_list fip) (Z.to_nat fd) e in
       Some (UfInfo l (fi_nfiles fip) (fi_rlist fip)).

(** ** fd_find() *)

(** [for (ralloc = 0, size >>= 1; size != 0; size >>= 1)]: the descent into
    the subtree rooted at [fd]. *)
Definition fd_descend_step (fip : uf_info) (s : Z * Z * Z) : option (loop (Z * Z * Z) Z) :=
  let '(fd, size, ralloc) := s in
  if size =? 0 then Some (Return fd)
  else
    let! child := entry fip (fd + size) in
    let ralloc := ralloc + uf_alloc child in
    let! root := entry fip fd in
    if uf_alloc root =? ralloc + size
    then Some (Next (fd + size, Z.shiftr size 1, 0))
    else Some (Next (fd, Z.shiftr size 1, ralloc)).

(** [for (fd = minfd; (uint_t)fd < fi_nfiles; fd |= fd + 1)] *)
Definition fd_find_step (fip : uf_info) (fd : Z) : option (loop Z Z) :=
  if u32 fd <? fi_nfiles fip then
    let size := Z.lxor fd (Z.lor fd (fd + 1)) in
    let! e := entry fip fd in
    if uf_alloc e =? size then Some (Next (Z.lor fd (fd + 1)))
    else
      let! r := run (fd_descend_step fip) 33 (fd, Z.shiftr size 1, 0) in
      Some (Return r)
  else Some (Return (-1)).

Definition fd_find (fip : uf_info) (minfd : Z) : option Z :=
  run (fd_find_step fip) (S (S (length (fi_list fip)))) minfd.

(** ** fd_reserve() *)

(** [for (pfd = fd; pfd >= 0; pfd = (pfd & (pfd + 1)) - 1)
       fip->fi_list[pfd].uf_alloc += incr;] *)
Definition fd_reserve_step (incr : Z) (s : Z * uf_info) : option (loop (Z * uf_info) uf_info) :=
  let '(pfd, fip) := s in
  if pfd >=? 0 then
    let! e := entry fip pfd in
    let! fip := set_entry fip pfd
      (UfEntry (uf_file e) (uf_fpollinfo e) (uf_refcnt e) (uf_alloc e + incr)
         (uf_flag e) (uf_busy e)) in
    Some (Next (Z.land pfd (pfd + 1) - 1, fip))
  else Some (Return fip).

Definition fd_reserve (fip : uf_info) (fd incr : Z) : option uf_info :=
  let! fip := run (fd_reserve_step incr) (S (S (Z.to_nat fd))) (fd, fip) in
  let! e := entry fip fd in
  set_entry fip fd
    (UfEntry (uf_file e) (uf_fpollinfo e) (uf_refcnt e) (uf_alloc e)
       (uf_flag e) (uf_busy e + incr)).

(** ** flist_grow() *)

(** [for (newcnt = 1; newcnt <= maxfd; newcnt = (newcnt << 1) | 1) continue;];
    [newcnt] is an [int]. *)
Definition newcnt_step (maxfd newcnt : Z) : option (loop Z Z) :=
  if newcnt <=? maxfd then Some (Next (s32 (Z.lor (Z.shiftl newcnt 1) 1))) else Some (Return newcnt).

(** The new list is the old entries followed by zeroed ones; the old list is
    retired, not freed. *)
Definition flist_grow (fip : uf_info) (maxfd : Z) : option uf_info :=
  let! newcnt := run (newcnt_step maxfd) 64 1 in
  let oldcnt := fi_nfiles fip in
  if newcnt <=? oldcnt then Some fip
  else
    Some (UfInfo (fi_list fip ++ replicate (Z.to_nat (newcnt - oldcnt)) uf_zero) newcnt
            ((fi_list fip, oldcnt) :: fi_rlist fip)).

(** ** Operations on descriptors *)

(** One iteration of the [for (;;)] loop of [ufalloc]. *)
Definition ufalloc_step (filelimit start : Z) (fip : uf_info) : option (loop uf_info (Z * uf_info)) :=
  let! fd := fd_find fip start in
  if u32 fd <? filelimit then
    let! fip := fd_reserve fip fd 1 in
    Some (Return (fd, fip))
  else if fd >=? filelimit then Some (Return (-1, fip))
  else
    let! fip := flist_grow fip (Z.max start (fi_nfiles fip)) in
    Some (Next fip).

(** [ufalloc(start)], with [filelimit] the process's RLIMIT_NOFILE.  The code
    drops [fi_lock] around [flist_grow] and searches again afterwards; this is
    the run in which no other thread of the process changes the table
    meanwhile. *)
Definition ufalloc (filelimit : Z) (fip : uf_info) (start : Z) : option (Z * uf_info) :=
  run (ufalloc_step filelimit start) 3 fip.

(** [setf(fd, fp)] *)
Definition setf (fip : uf_info) (fd : Z) (fp : file_ptr) : option uf_info :=
  let! fip := if fp =? NULL then fd_reserve fip fd (-1) else Some fip in
  let! e := entry fip fd in
  set_entry fip fd (UfEntry fp (uf_fpollinfo e) (uf_refcnt e) (uf_alloc e) (uf_flag e) (uf_busy e)).

(** [getf(fd)]: the file pointer, with the entry's reference count raised. *)
Definition getf (fip : uf_info) (fd : Z) : option (file_ptr * uf_info) :=
  if u32 fd >=? fi_nfiles fip then Some (NULL, fip)
  else
    let! e := entry fip fd in
    if uf_file e =? NULL then Some (NULL, fip)
    else
      let! fip := set_entry fip fd
        (UfEntry (uf_file e) (uf_fpollinfo e) (uf_refcnt e + 1) (uf_alloc e) (uf_flag e) (uf_busy e)) in
      Some (uf_file e, fip).

(** [releasef(fd)]: the boolean is whether closers are woken. *)
Definition releasef (fip : uf_info) (fd : Z) : option (bool * uf_info) :=
  let! e := entry fip fd in
  let! fip := set_entry fip fd
    (UfEntry (uf_file e) (uf_fpollinfo e) (uf_refcnt e - 1) (uf_alloc e) (uf_flag e) (uf_busy e)) in
  Some (uf_refcnt e - 1 =? 0, fip).

Definition FD_CLOEXEC : Z := 1.

(** [f_setfd(fd, flags)] *)
Definition f_setfd (fip : uf_info) (fd flags : Z) : option uf_info :=
  let! e := entry fip fd in
  if uf_file e =? NULL then Some fip
  else set_entry fip fd
    (UfEntry (uf_file e) (uf_fpollinfo e) (uf_refcnt e) (uf_alloc e)
       (Z.land flags FD_CLOEXEC) (uf_busy e)).

(** One iteration of the loop of [flist_fork] over the parent's table: copy
    the entry, and give back a descriptor reserved but not yet open. *)
Definition flist_fork_step (pfip : uf_info) (fd : Z) (cfip : uf_info) : option uf_info :=
  let! p := entry pfip fd in
  let! c := entry cfip fd in
  let! cfip := set_entry cfip fd
    (UfEntry (uf_file p) (uf_fpollinfo c) (uf_refcnt c) (uf_alloc p) (uf_flag p) (uf_busy p)) in
  if (uf_file p =? NULL) && negb (uf_busy p =? 0) then fd_reserve cfip fd (-1)
  else Some cfip.

Fixpoint flist_fork_loop (pfip : uf_info) (fd : Z) (n : nat) (cfip : uf_info) : option uf_info :=
  match n with
  | O => Some cfip
  | S n =>
      let! cfip := flist_fork_step pfip fd cfip in
      flist_fork_loop pfip (fd + 1) n cfip
  end.

(** [flist_fork(pfip, cfip)].  The source does not store [cfip->fi_nfiles]:
    fork() has copied the parent's [uf_info] into the child's beforehand. *)
Definition flist_fork (pfip : uf_info) : option uf_info :=
  flist_fork_loop pfip 0 (Z.to_nat (fi_nfiles pfip))
    (UfInfo (replicate (Z.to_nat (fi_nfiles pfip)) uf_zero) (fi_nfiles pfip) []).

(** ** The arithmetic of the tree

    [fd + 1 = 2^k * (2q + 1)]: [k] is the level of [fd] in the tree.  Node
    [fd] counts the descriptors in [fd, fd + 2^k): itself and its right
    subtree. *)

Record node (fd k q : Z) : Prop := {
  nd_k : 0 <= k;
  nd_q : 0 <= q;
  nd_eq : fd + 1 = 2 ^ k * (2 * q + 1);
}.

Lemma node_exists fd : 0 <= fd → ∃ k q, node fd k q.
Proof.
  intros Hfd. assert (∀ n, 0 <= n → 0 < n → ∃ k q, 0 <= k ∧ 0 <= q ∧ n = 2 ^ k * (2 * q + 1)) as H.
  { apply (Z_lt_induction (λ n, 0 < n → ∃ k q, 0 <= k ∧ 0 <= q ∧ n = 2 ^ k * (2 * q + 1))).
    intros n IH Hn. destruct (decide (n `mod` 2 = 0)) as [He|Ho].
    - destruct (IH (n / 2)) as (k & q & Hk & Hq & E);
        [Z.to_euclidean_division_equations; lia..|].
      exists (k + 1), q. split_and!; [lia|lia|]. rewrite Z.pow_add_r by lia.
      pose proof (Z.div_mod n 2). lia.
    - exists 0, (n / 2). pose proof (Z.div_mod n 2). pose proof (Z.mod_pos_bound n 2).
      split_and!; [lia|apply Z.div_pos; lia|lia]. }
  destruct (H (fd + 1)) as (k & q & Hk & Hq & E); [lia|lia|]. by exists k, q.
Qed.

Lemma node_bits fd k q :
  node fd k q →
  Z.lor fd (fd + 1) = fd + 2 ^ k ∧ Z.lxor fd (Z.lor fd (fd + 1)) = 2 ^ k ∧
  Z.land fd (fd + 1) - 1 = fd - 2 ^ k.
Proof.
  intros [Hk Hq E]. assert (2 ^ (k + 1) = 2 * 2 ^ k) as Hp
    by (rewrite Z.pow_add_r by lia; lia).
  assert (0 < 2 ^ k) by lia.
  assert (fd = Z.lor (Z.shiftl q (k + 1)) (Z.ones k)) as E1.
  { rewrite Z.ones_equiv, lor_shiftl_add; nia. }
  assert (fd + 1 = Z.lor (Z.shiftl q (k + 1)) (2 ^ k)) as E2.
  { rewrite lor_shiftl_add; nia. }
  assert (fd + 2 ^ k = Z.lor (Z.shiftl q (k + 1)) (Z.ones (k + 1))) as E3.
  { rewrite Z.ones_equiv, lor_shiftl_add; nia. }
  assert (Z.lor fd (fd + 1) = fd + 2 ^ k) as HL.
  { rewrite E3, E2, E1. apply Z.bits_inj'. intros i Hi.
    rewrite !Z.lor_spec, Z.pow2_bits_eqb by lia.
    rewrite !Z.testbit_ones_nonneg by lia.
    destruct (Z.testbit (Z.shiftl q (k + 1)) i); [done|]. cbn.
    destruct (Z.ltb_spec i k), (Z.eqb_spec k i), (Z.ltb_spec i (k + 1)); (done || lia). }
  split; [done|]. rewrite HL. split.
  - rewrite E3, E1. apply Z.bits_inj'. intros i Hi.
    rewrite Z.lxor_spec, !Z.lor_spec, Z.pow2_bits_eqb, !Z.testbit_ones_nonneg by lia.
    destruct (decide (i < k + 1)).
    + rewrite Z.shiftl_spec_low by lia. cbn.
      destruct (Z.ltb_spec i k), (Z.eqb_spec k i), (Z.ltb_spec i (k + 1)); (done || lia).
    + destruct (Z.ltb_spec i k), (Z.ltb_spec i (k + 1)), (Z.eqb_spec k i); try lia.
      by rewrite !orb_false_r, xorb_nilpotent.
  - assert (Z.land fd (fd + 1) = Z.shiftl q (k + 1)) as ->.
    { rewrite E2, E1. apply Z.bits_inj'. intros i Hi.
      rewrite Z.land_spec, !Z.lor_spec, Z.pow2_bits_eqb, Z.testbit_ones_nonneg by lia.
      destruct (Z.testbit (Z.shiftl q (k + 1)) i); [done|]. cbn.
      destruct (Z.ltb_spec i k), (Z.eqb_spec k i); (done || lia). }
    rewrite Z.shiftl_mul_pow2 by lia. nia.
Qed.

(** The subtree of a node does not cross a multiple of a higher power. *)
Lemma pow2_dvd_gap a k q m :
  0 <= k → 0 <= m → a = 2 ^ k * (2 * q + 1) → a < m * 2 ^ (k + 1) → a + 2 ^ k <= m * 2 ^ (k + 1).
Proof.
  intros Hk Hm -> Hlt. rewrite Z.pow_add_r in * by lia. change (2 ^ 1) with 2 in *.
  assert (0 < 2 ^ k) by lia. assert (2 * q + 1 < m * 2) by nia. nia.
Qed.

Lemma node_below fd k q n :
  node fd k q → 0 <= n → fd < 2 ^ n - 1 → k < n ∧ fd + 2 ^ k <= 2 ^ n - 1.
Proof.
  intros [Hk Hq E] Hn Hlt.
  assert (k < n) as Hkn.
  { apply Z.nle_gt. intros Hnk. assert (2 ^ n <= 2 ^ k) by (apply Z.pow_le_mono_r; lia). nia. }
  split; [done|].
  assert (2 ^ n = 2 ^ (n - k - 1) * 2 ^ (k + 1)) as Hn'
    by (rewrite <- Z.pow_add_r by lia; f_equal; lia).
  pose proof (pow2_dvd_gap (fd + 1) k q (2 ^ (n - k - 1))). lia.
Qed.

(** The right child at distance [2^j] has level [j]. *)
Lemma node_child fd k q j :
  node fd k q → 0 <= j < k → node (fd + 2 ^ j) j ((2 * q + 1) * 2 ^ (k - j - 1)).
Proof.
  intros [Hk Hq E] Hj. split; [lia|apply Z.mul_nonneg_nonneg; lia|].
  assert (2 ^ k = 2 ^ j * (2 * 2 ^ (k - j - 1))) as Hp.
  { rewrite <- Z.pow_succ_r, <- Z.pow_add_r by lia. f_equal. lia. }
  rewrite Hp in E. lia.
Qed.

(** A node strictly between [fd] and its left ancestor ends at or before [fd]. *)
Lemma node_between fd k q p k' q' :
  node fd k q → node p k' q' → fd - 2 ^ k < p < fd → p + 2 ^ k' <= fd.
Proof.
  intros [Hk Hq E] [Hk' Hq' E'] Hp.
  destruct (decide (k' < k)) as [Hlt|Hge].
  - assert (2 ^ k = 2 ^ (k - k' - 1) * 2 ^ (k' + 1)) as Hpw
      by (rewrite <- Z.pow_add_r by lia; f_equal; lia).
    pose proof (pow2_dvd_gap (p + 1) k' q' (2 ^ (k - k' - 1) * (2 * q + 1))). nia.
  - assert (2 ^ k' = 2 ^ k * 2 ^ (k' - k)) as Hpw
      by (rewrite <- Z.pow_add_r by lia; f_equal; lia).
    exfalso. rewrite Hpw in E'.
    assert (2 ^ k * (2 * q) < 2 ^ k * (2 ^ (k' - k) * (2 * q' + 1)) < 2 ^ k * (2 * q + 1)) as Hb by lia.
    destruct Hb as [Hb1 Hb2]. apply Z.mul_lt_mono_pos_l in Hb1, Hb2; lia.
Qed.

(** The left ancestor's subtree contains the node's. *)
Lemma node_lparent fd k q k' q' :
  node fd k q → node (fd - 2 ^ k) k' q' → fd + 2 ^ k <= fd - 2 ^ k + 2 ^ k'.
Proof.
  intros [Hk Hq E] [Hk' Hq' E'].
  assert (2 ^ (k + 1) = 2 * 2 ^ k) by (rewrite Z.pow_add_r by lia; lia).
  destruct (decide (k < k')) as [Hlt|Hge].
  - assert (2 ^ (k + 1) <= 2 ^ k') by (apply Z.pow_le_mono_r; lia). lia.
  - exfalso. assert (2 ^ k = 2 ^ k' * 2 ^ (k - k')) as Hp
      by (rewrite <- Z.pow_add_r by lia; f_equal; lia).
    assert (2 ^ k' * (2 * q' + 1) = 2 ^ k' * (2 ^ (k - k') * (2 * q))) as Heq by nia.
    apply Z.mul_reg_l in Heq; [|lia]. nia.
Qed.

(** ** The table's invariant *)

Definition busy (fip : uf_info) (fd : Z) : bool :=
  match entry fip fd with Some e => negb (uf_busy e =? 0) | None => false end.

(** The child size of a node, as the source computes it. *)
Definition csize (fd : Z) : Z := Z.lxor fd (Z.lor fd (fd + 1)).

Record fd_wf (fip : uf_info) : Prop := {
  fw_len : Z.of_nat (length (fi_list fip)) = fi_nfiles fip;
  fw_pow : ∃ n, 0 <= n <= 31 ∧ fi_nfiles fip = 2 ^ n - 1;
  fw_busy : ∀ fd e, entry fip fd = Some e → uf_busy e = 0 ∨ uf_busy e = 1;
  fw_alloc : ∀ fd e, entry fip fd = Some e → uf_alloc e = countz (busy fip) fd (csize fd);
}.

Lemma csize_node fd k q : node fd k q → csize fd = 2 ^ k.
Proof. intros Hn. by destruct (node_bits _ _ _ Hn) as (_ & H & _). Qed.

Lemma entry_Some fip fd e :
  entry fip fd = Some e ↔ 0 <= fd ∧ fi_list fip !! Z.to_nat fd = Some e.
Proof.
  unfold entry, rd. destruct (Z.ltb_spec fd 0); split; [done|lia|intros; split; [lia|done]|tauto].
Qed.

Lemma entry_in fip fd :
  fd_wf fip → 0 <= fd < fi_nfiles fip → ∃ e, entry fip fd = Some e.
Proof.
  intros [Hlen _ _ _] Hfd. destruct (lookup_lt_is_Some_2 (fi_list fip) (Z.to_nat fd)) as [e He]; [lia|].
  exists e. apply entry_Some. split; [lia|done].
Qed.

Lemma entry_bound fip fd e :
  fd_wf fip → entry fip fd = Some e → 0 <= fd < fi_nfiles fip.
Proof.
  intros [Hlen _ _ _] [Hfd He]%entry_Some. apply lookup_lt_Some in He. lia.
Qed.

(** ** fd_find() finds the lowest free descriptor *)

Definition descend_inv (fip : uf_info) (fd0 : Z) (s : Z * Z * Z) : Prop :=
  let '(fd, size, ralloc) := s in
  ∃ j k q, 0 <= j <= 31 ∧ size = 2 ^ j / 2 ∧ node fd k q ∧ j <= k ∧
    fd0 <= fd ∧ fd + 2 ^ k <= fi_nfiles fip ∧
    (∀ i, fd0 <= i < fd → busy fip i = true) ∧
    countz (busy fip) fd (2 ^ j) ≠ 2 ^ j ∧
    ralloc = countz (busy fip) (fd + 2 ^ j) (2 ^ k - 2 ^ j).

Lemma descend_step fip fd0 fd size ralloc :
  fd_wf fip → 0 <= fd0 → size ≠ 0 → descend_inv fip fd0 (fd, size, ralloc) →
  ∃ s', fd_descend_step fip (fd, size, ralloc) = Some (Next s') ∧ descend_inv fip fd0 s' ∧
    s'.1.2 = Z.shiftr size 1.
Proof.
  intros Hwf Hfd0 Hsz (j & k & q & Hj & -> & Hn & Hjk & Hle & Hin & Hbusy & Hfree & ->).
  assert (1 <= j) as Hj1 by (destruct (decide (j = 0)) as [->|]; [done|lia]).
  assert (2 ^ j = 2 * 2 ^ (j - 1)) as Hpj by (rewrite <- Z.pow_succ_r by lia; f_equal; lia).
  assert (2 ^ j / 2 = 2 ^ (j - 1)) as -> by (rewrite Hpj, Z.mul_comm; apply Z.div_mul; lia).
  assert (2 ^ j <= 2 ^ k) by (apply Z.pow_le_mono_r; lia).
  pose proof (node_child fd k q (j - 1) Hn ltac:(lia)) as Hc.
  destruct (entry_in fip (fd + 2 ^ (j - 1)) Hwf) as [ce Hce]; [lia|].
  destruct (entry_in fip fd Hwf) as [re Hre]; [lia|].
  pose proof (fw_alloc _ Hwf _ _ Hce) as Ac. pose proof (fw_alloc _ Hwf _ _ Hre) as Ar.
  rewrite (csize_node _ _ _ Hc) in Ac. rewrite (csize_node _ _ _ Hn) in Ar.
  unfold fd_descend_step. destruct (Z.eqb_spec (2 ^ (j - 1)) 0); [lia|].
  rewrite Hce, Hre, Ac, Ar. clear Ac Ar Hce Hre.
  set (h := 2 ^ (j - 1)) in *.
  assert (countz (busy fip) fd (2 ^ k) =
    countz (busy fip) fd h + (countz (busy fip) (fd + 2 ^ j) (2 ^ k - 2 ^ j) +
                              countz (busy fip) (fd + h) h)) as Hsum.
  { replace (2 ^ k) with (h + (h + (2 ^ k - 2 ^ j))) at 1 by lia.
    rewrite !countz_app by lia. replace (fd + h + h) with (fd + 2 ^ j) by lia. lia. }
  assert (countz (busy fip) fd (2 ^ j) =
    countz (busy fip) fd h + countz (busy fip) (fd + h) h) as Hhalf.
  { replace (2 ^ j) with (h + h) by lia. by rewrite countz_app by lia. }
  rewrite Z.shiftr_div_pow2 by done. change (2 ^ 1) with 2.
  destruct (Z.eqb_spec (countz (busy fip) fd (2 ^ k))
    (countz (busy fip) (fd + 2 ^ j) (2 ^ k - 2 ^ j) + countz (busy fip) (fd + h) h + h)) as [Hf|Hf].
  - eexists. split; [done|]. split; [|done]. cbn [fst snd].
    assert (countz (busy fip) fd h = h) as Hfull by lia.
    rewrite countz_full in Hfull by lia.
    exists (j - 1), (j - 1), ((2 * q + 1) * 2 ^ (k - (j - 1) - 1)).
    split_and!; [lia|lia|done|done|lia|lia|lia| | |].
    + intros i Hi. destruct (decide (i < fd)); [apply Hbusy; lia|apply Hfull; lia].
    + fold h. lia.
    + fold h. rewrite Z.sub_diag. by rewrite countz_0.
  - eexists. split; [done|]. split; [|done]. cbn [fst snd].
    exists (j - 1), k, q. split_and!; [lia|lia|done|done|lia|lia|lia|done|fold h; lia|].
    fold h. replace (2 ^ k - h) with (h + (2 ^ k - 2 ^ j)) by lia.
    rewrite countz_app by lia. replace (fd + h + h) with (fd + 2 ^ j) by lia. lia.
Qed.

Lemma descend_loop fip fd0 s :
  fd_wf fip → 0 <= fd0 → descend_inv fip fd0 s →
  ∃ r, run (fd_descend_step fip) 33 s = Some r ∧
    fd0 <= r < fi_nfiles fip ∧ busy fip r = false ∧ ∀ i, fd0 <= i < r → busy fip i = true.
Proof.
  intros Hwf Hfd0 Hinv.
  apply (run_total _ (descend_inv fip fd0) _
    (λ s, if s.1.2 =? 0 then O else S (Z.to_nat (Z.log2 s.1.2)))).
  - clear s Hinv. intros [[fd size] ralloc] Hinv.
    destruct (decide (size = 0)) as [->|Hne].
    + eexists. split; [done|]. cbn beta iota.
      destruct Hinv as (j & k & q & Hj & Hsz & Hn & Hjk & Hle & Hin & Hbusy & Hfree & _).
      assert (j = 0) as ->.
      { destruct (decide (j = 0)); [done|]. exfalso.
        assert (2 ^ 1 <= 2 ^ j) by (apply Z.pow_le_mono_r; lia).
        assert (0 < 2 ^ j / 2) by (apply Z.div_str_pos; lia). lia. }
      split; [split; [done|]|split; [|done]]. { assert (0 < 2 ^ k) by lia. destruct Hn. lia. }
      destruct (countz_not_full (busy fip) fd (2 ^ 0)) as (i & Hi & Hb); [lia|done|].
      by replace i with fd in Hb by lia.
    + destruct (descend_step fip fd0 fd size ralloc Hwf Hfd0 Hne Hinv) as (s' & -> & Hinv' & Hs').
      eexists. split; [done|]. cbn beta iota. split; [done|]. cbn [fst snd]. rewrite Hs'.
      destruct (Z.eqb_spec size 0); [done|].
      destruct Hinv as (j & k & q & Hj & Hsz & _).
      assert (0 <= size) by (rewrite Hsz; apply Z.div_pos; lia).
      rewrite Z.log2_shiftr by lia. destruct (Z.eqb_spec (Z.shiftr size 1) 0) as [|Hnz]; [lia|].
      rewrite Z.shiftr_div_pow2 in Hnz by done.
      assert (1 <= Z.log2 size); [|lia]. apply Z.log2_le_pow2; [lia|].
      apply Z.nlt_ge. intros Hlt. apply Hnz. apply Z.div_small. lia.
  - done.
  - destruct s as [[fd size] ralloc]. cbn [fst snd].
    destruct Hinv as (j & k & q & Hj & -> & _).
    destruct (Z.eqb_spec (2 ^ j / 2) 0); [lia|].
    assert (0 <= 2 ^ j / 2) by (apply Z.div_pos; lia).
    assert (Z.log2 (2 ^ j / 2) < 31); [|lia]. apply Z.log2_lt_pow2; [lia|].
    apply Z.div_lt_upper_bound; [lia|]. change (2 * 2 ^ 31) with (2 ^ 32).
    apply Z.pow_lt_mono_r; lia.
Qed.

(** What fd_find() promises: the lowest free descriptor at or above [minfd],
    or -1 if the table has none. *)
Definition lowest_free (fip : uf_info) (minfd r : Z) : Prop :=
  (r = -1 ∧ ∀ i, minfd <= i < fi_nfiles fip → busy fip i = true) ∨
  (minfd <= r < fi_nfiles fip ∧ busy fip r = false ∧
   ∀ i, minfd <= i < r → busy fip i = true).

Lemma nfiles_bound fip : fd_wf fip → 0 <= fi_nfiles fip < 2 ^ 31.
Proof.
  intros [_ (n & Hn & ->) _ _]. assert (2 ^ n <= 2 ^ 31) by (apply Z.pow_le_mono_r; lia).
  assert (2 ^ 0 <= 2 ^ n) by (apply Z.pow_le_mono_r; lia). lia.
Qed.

Lemma fd_find_lowest fip minfd :
  fd_wf fip → 0 <= minfd < 2 ^ 31 →
  ∃ r, fd_find fip minfd = Some r ∧ lowest_free fip minfd r.
Proof.
  intros Hwf Hmin. pose proof (nfiles_bound fip Hwf) as Hnf.
  apply (run_total _ (λ fd, minfd <= fd < 2 ^ 32 ∧ ∀ i, minfd <= i < fd → busy fip i = true) _
    (λ fd, Z.to_nat (fi_nfiles fip - fd)));
    [|split; [lia|intros; lia]|destruct Hwf; lia].
  intros fd [Hfd Hbusy]. unfold fd_find_step. rewrite wrapu_id by lia.
  destruct (Z.ltb_spec fd (fi_nfiles fip)) as [Hlt|Hge];
    [|eexists; split; [done|]; left; split; [done|]; intros i Hi; apply Hbusy; lia].
  destruct (node_exists fd) as (k & q & Hn); [lia|].
  destruct (entry_in fip fd Hwf) as [e He]; [lia|].
  pose proof (fw_alloc _ Hwf _ _ He) as Ha. rewrite (csize_node _ _ _ Hn) in Ha.
  destruct (node_bits _ _ _ Hn) as (Hlor & Hxor & _).
  destruct (fw_pow _ Hwf) as (n & Hnn & Hpow).
  destruct (node_below fd k q n Hn) as [Hkn Hend]; [lia..|].
  assert (0 <= k) as Hk by (by destruct Hn). assert (0 < 2 ^ k) as Hpos by lia.
  rewrite He, Hxor, Hlor, Ha.
  destruct (Z.eqb_spec (countz (busy fip) fd (2 ^ k)) (2 ^ k)) as [Hfull|Hfree].
  - rewrite countz_full in Hfull by lia. eexists. split; [done|]. cbn beta iota.
    split; [split; [lia|]|lia].
    intros i Hi. destruct (decide (i < fd)); [apply Hbusy; lia|apply Hfull; lia].
  - rewrite Z.shiftr_div_pow2 by done.
    destruct (descend_loop fip minfd (fd, 2 ^ k / 2 ^ 1, 0)) as (r & -> & Hr & Hrf & Hrb);
      [done|lia| |].
    { exists k, k, q. split_and!; [lia|lia|done|done|lia|lia|lia|done|done|].
      by rewrite Z.sub_diag. }
    eexists. split; [done|]. cbn beta iota. right. done.
Qed.

(** ** fd_reserve() updates exactly the nodes that count the descriptor *)

(** Node [p] counts descriptor [fd]. *)
Definition covers (p fd : Z) : bool := (p <=? fd) && (fd <? p + csize p).

Definition add_alloc (e : uf_entry) (d : Z) : uf_entry :=
  UfEntry (uf_file e) (uf_fpollinfo e) (uf_refcnt e) (uf_alloc e + d) (uf_flag e) (uf_busy e).

Definition add_busy (e : uf_entry) (d : Z) : uf_entry :=
  UfEntry (uf_file e) (uf_fpollinfo e) (uf_refcnt e) (uf_alloc e) (uf_flag e) (uf_busy e + d).

Lemma set_entry_spec fip fd e e0 :
  entry fip fd = Some e0 →
  ∃ fip', set_entry fip fd e = Some fip' ∧
    length (fi_list fip') = length (fi_list fip) ∧
    fi_nfiles fip' = fi_nfiles fip ∧ fi_rlist fip' = fi_rlist fip ∧
    ∀ i, entry fip' i = if i =? fd then Some e else entry fip i.
Proof.
  intros [Hfd He0]%entry_Some. pose proof (lookup_lt_Some _ _ _ He0) as Hlt.
  unfold set_entry. destruct (Z.ltb_spec fd 0); [lia|]. rewrite wr_lt by done.
  eexists. split; [done|]. cbn. rewrite length_insert. split_and!; [done..|].
  intros i. unfold entry, rd. cbn. destruct (Z.eqb_spec i fd) as [->|Hne].
  - destruct (Z.ltb_spec fd 0); [lia|]. by rewrite list_lookup_insert_eq.
  - destruct (Z.ltb_spec i 0); [done|]. by rewrite list_lookup_insert_ne by lia.
Qed.

(** The table [fip] with [incr] added at the nodes above [lo] that count [fd]. *)
Record raised (fip : uf_info) (fd incr lo : Z) (fip' : uf_info) : Prop := {
  ra_len : length (fi_list fip') = length (fi_list fip);
  ra_nfiles : fi_nfiles fip' = fi_nfiles fip;
  ra_rlist : fi_rlist fip' = fi_rlist fip;
  ra_entry : ∀ p, entry fip' p =
    (λ e, add_alloc e (if (lo <? p) && covers p fd then incr else 0)) <$> entry fip p;
}.

Lemma add_alloc_0 e : add_alloc e 0 = e.
Proof. destruct e. unfold add_alloc. cbn. by rewrite Z.add_0_r. Qed.

Lemma raised_step fip fd incr pfd k q cur :
  0 <= pfd → (∃ e, entry fip pfd = Some e) → node pfd k q → covers pfd fd = true →
  raised fip fd incr pfd cur →
  ∃ cur', fd_reserve_step incr (pfd, cur) = Some (Next (pfd - 2 ^ k, cur')) ∧
    raised fip fd incr (pfd - 2 ^ k) cur'.
Proof.
  intros Hpfd [e He] Hn Hcov [Hlen Hnf Hrl Hent].
  assert (entry cur pfd = Some e) as Hce.
  { rewrite Hent, He. cbn. by rewrite Z.ltb_irrefl, add_alloc_0. }
  assert (0 < 2 ^ k) by (destruct Hn; lia).
  unfold fd_reserve_step. destruct (Z.geb_spec pfd 0); [|lia]. rewrite Hce.
  destruct (set_entry_spec cur pfd (add_alloc e incr) e Hce)
    as (cur' & Hset & Hlen' & Hnf' & Hrl' & Hent').
  unfold add_alloc in Hset at 1. rewrite Hset.
  destruct (node_bits _ _ _ Hn) as (_ & _ & ->). eexists. split; [done|].
  split; [congruence..|]. intros p. rewrite Hent'.
  destruct (Z.eqb_spec p pfd) as [->|Hne].
  - rewrite He, Hcov. cbn. destruct (Z.ltb_spec (pfd - 2 ^ k) pfd); [done|lia].
  - rewrite Hent. destruct (entry fip p) as [ep|] eqn:Hep; [|done]. cbn. do 2 f_equal.
    destruct (Z.ltb_spec pfd p), (Z.ltb_spec (pfd - 2 ^ k) p); try done; [lia|]. cbn.
    apply entry_Some in Hep as [Hp0 _].
    destruct (node_exists p Hp0) as (k' & q' & Hn').
    pose proof (node_between _ _ _ _ _ _ Hn Hn' ltac:(lia)) as Hbt.
    unfold covers in *. rewrite (csize_node _ _ _ Hn'). zbool.
    destruct (Z.leb_spec p fd), (Z.ltb_spec fd (p + 2 ^ k')); cbn; (done || lia).
Qed.

Lemma covers_lparent pfd k q fd :
  node pfd k q → covers pfd fd = true → 0 <= pfd - 2 ^ k → covers (pfd - 2 ^ k) fd = true.
Proof.
  intros Hn Hcov Hp. destruct (node_exists _ Hp) as (k' & q' & Hn').
  pose proof (node_lparent _ _ _ _ _ Hn Hn') as Hle. assert (0 < 2 ^ k) by (destruct Hn; lia).
  unfold covers in *. rewrite (csize_node _ _ _ Hn) in Hcov. rewrite (csize_node _ _ _ Hn').
  zbool. destruct (Z.leb_spec (pfd - 2 ^ k) fd), (Z.ltb_spec fd (pfd - 2 ^ k + 2 ^ k')); (done || lia).
Qed.

Lemma covers_self fd : 0 <= fd → covers fd fd = true.
Proof.
  intros Hfd. destruct (node_exists fd Hfd) as (k & q & Hn). unfold covers.
  rewrite (csize_node _ _ _ Hn). assert (0 < 2 ^ k) by (destruct Hn; lia).
  destruct (Z.leb_spec fd fd), (Z.ltb_spec fd (fd + 2 ^ k)); (done || lia).
Qed.

Lemma raised_init fip fd incr : raised fip fd incr fd fip.
Proof.
  split; [done..|]. intros p. destruct (entry fip p) as [e|]; [|done]. cbn. f_equal.
  unfold covers. destruct (Z.ltb_spec fd p), (Z.leb_spec p fd); cbn; try lia;
    by rewrite add_alloc_0.
Qed.

(** The effect of fd_reserve() on any table, entry by entry. *)
Definition reserve_entry (fd incr i : Z) (e : uf_entry) : uf_entry :=
  let e := add_alloc e (if covers i fd then incr else 0) in
  if i =? fd then add_busy e incr else e.

Lemma fd_reserve_effect fip fd incr :
  0 <= fd → (∀ p, 0 <= p <= fd → ∃ e, entry fip p = Some e) →
  ∃ fip', fd_reserve fip fd incr = Some fip' ∧
    length (fi_list fip') = length (fi_list fip) ∧
    fi_nfiles fip' = fi_nfiles fip ∧ fi_rlist fip' = fi_rlist fip ∧
    ∀ i, entry fip' i = reserve_entry fd incr i <$> entry fip i.
Proof.
  intros Hfd Hall. unfold fd_reserve.
  destruct (run_total (fd_reserve_step incr)
    (λ s, -1 <= s.1 <= fd ∧ (0 <= s.1 → covers s.1 fd = true) ∧ raised fip fd incr s.1 s.2)
    (λ r, raised fip fd incr (-1) r)
    (λ s, Z.to_nat (s.1 + 1))) with (fuel := S (S (Z.to_nat fd))) (s := (fd, fip))
    as (mid & -> & Hmid).
  - intros [pfd cur] (Hr & Hcov & Hra). cbn [fst snd] in *.
    destruct (decide (0 <= pfd)) as [Hp|Hp].
    + destruct (node_exists pfd Hp) as (k & q & Hn).
      destruct (raised_step fip fd incr pfd k q cur) as (cur' & -> & Hra');
        [done|apply Hall; lia|done|auto|done|].
      assert (0 < 2 ^ k) by (destruct Hn; lia).
      eexists. split; [done|]. cbn [fst snd]. split; [|lia].
      split; [destruct Hn; nia|]. split; [|done]. by apply (covers_lparent _ _ q); auto.
    + eexists. split; [unfold fd_reserve_step; destruct (Z.geb_spec pfd 0); [lia|done]|].
      cbn. by replace pfd with (-1) in Hra by lia.
  - cbn. split; [lia|]. split; [intros; by apply covers_self|apply raised_init].
  - cbn. lia.
  - destruct (Hall fd) as [e He]; [lia|]. destruct Hmid as [Hlen Hnf Hrl Hent].
    assert (entry mid fd = Some (add_alloc e incr)) as Hme.
    { rewrite Hent, He. cbn. rewrite covers_self by done.
      by destruct (Z.ltb_spec (-1) fd); [|lia]. }
    rewrite Hme.
    destruct (set_entry_spec mid fd (add_busy (add_alloc e incr) incr) _ Hme)
      as (fip' & Hset & Hlen' & Hnf' & Hrl' & Hent').
    unfold add_busy in Hset. rewrite Hset. exists fip'. split_and!; [done|congruence..|].
    intros i. rewrite Hent'. unfold reserve_entry.
    destruct (Z.eqb_spec i fd) as [->|Hne].
    + rewrite He. cbn. by rewrite covers_self.
    + rewrite Hent. destruct (entry fip i) as [ei|] eqn:Hei; [|done]. cbn.
      apply entry_Some in Hei as [Hi _]. by destruct (Z.ltb_spec (-1) i); [|lia].
Qed.

(** Raising the counts keeps the tree's invariant. *)
Lemma fd_reserve_wf fip fd incr :
  fd_wf fip → 0 <= fd < fi_nfiles fip →
  (incr = 1 ∧ busy fip fd = false) ∨ (incr = -1 ∧ busy fip fd = true) →
  ∃ fip', fd_reserve fip fd incr = Some fip' ∧ fd_wf fip' ∧
    fi_nfiles fip' = fi_nfiles fip ∧ fi_rlist fip' = fi_rlist fip ∧
    (∀ i, entry fip' i = reserve_entry fd incr i <$> entry fip i) ∧
    ∀ i, busy fip' i = if i =? fd then incr =? 1 else busy fip i.
Proof.
  intros Hwf Hfd Hincr.
  destruct (fd_reserve_effect fip fd incr) as (fip' & Hres & Hlen & Hnf & Hrl & Hent);
    [lia|intros p Hp; apply entry_in; [done|lia]|].
  destruct (entry_in fip fd Hwf Hfd) as [e He].
  pose proof (fw_busy _ Hwf _ _ He) as Hb01.
  assert (∀ i, busy fip' i = if i =? fd then incr =? 1 else busy fip i) as Hbusy.
  { intros i. unfold busy in *. rewrite Hent. unfold reserve_entry.
    destruct (Z.eqb_spec i fd) as [->|]; [|by destruct (entry fip i)].
    rewrite He in *. cbn in *. destruct Hincr as [[-> Hb]|[-> Hb]]; zbool.
    - rewrite Hb. done.
    - destruct Hb01 as [?|Hb1]; [lia|]. rewrite Hb1. done. }
  exists fip'. split_and!; [done| |done|done|done|done].
  split.
  - rewrite Hlen, Hnf. apply Hwf.
  - rewrite Hnf. apply Hwf.
  - intros i e'. rewrite Hent. destruct (entry fip i) as [ei|] eqn:Hei; [|done].
    intros [= <-]. pose proof (fw_busy _ Hwf _ _ Hei) as Hbi. unfold reserve_entry.
    destruct (Z.eqb_spec i fd) as [->|]; cbn; [|done].
    assert (ei = e) as -> by congruence. unfold busy in Hincr. rewrite He in Hincr.
    destruct Hincr as [[-> Hb]|[-> Hb]]; zbool; lia.
  - intros i e'. rewrite Hent. destruct (entry fip i) as [ei|] eqn:Hei; [|done].
    intros [= <-]. pose proof (fw_alloc _ Hwf _ _ Hei) as Hai.
    assert (uf_alloc (reserve_entry fd incr i ei) =
            uf_alloc ei + (if covers i fd then incr else 0)) as ->.
    { unfold reserve_entry. by destruct (i =? fd). }
    rewrite Hai. apply entry_Some in Hei as [Hi _].
    destruct (node_exists i Hi) as (k & q & Hn).
    unfold covers. rewrite (csize_node _ _ _ Hn). assert (0 < 2 ^ k) by (destruct Hn; lia).
    destruct (Z.leb_spec i fd), (Z.ltb_spec fd (i + 2 ^ k)); cbn.
    1: { pose proof (countz_update (busy fip') (busy fip) i (2 ^ k) fd ltac:(lia)) as Hu.
         rewrite Hbusy, Z.eqb_refl in Hu.
         assert (∀ j, j ≠ fd → busy fip' j = busy fip j) as Hother.
         { intros j Hj. rewrite Hbusy. by destruct (Z.eqb_spec j fd). }
         specialize (Hu Hother). destruct Hincr as [[-> Hb]|[-> Hb]]; rewrite Hb in Hu; cbn in Hu; lia. }
    all: rewrite Z.add_0_r; apply countz_ext; [lia|]; intros j Hj; rewrite Hbusy;
      destruct (Z.eqb_spec j fd); [lia|done].
Qed.

(** ** flist_grow() *)

Lemma newcnt_loop maxfd :
  0 <= maxfd < 2 ^ 31 - 1 →
  ∃ r, run (newcnt_step maxfd) 64 1 = Some r ∧ maxfd < r ∧ ∃ n, 0 <= n <= 31 ∧ r = 2 ^ n - 1.
Proof.
  intros Hm.
  apply (run_total _ (λ c, ∃ n, 1 <= n <= 31 ∧ c = 2 ^ n - 1) _ (λ c, Z.to_nat (32 - Z.log2 (c + 1)))).
  - intros c (n & Hn & ->). unfold newcnt_step.
    assert (2 ^ (n + 1) = 2 * 2 ^ n) as Hp by (rewrite Z.pow_add_r by lia; lia).
    destruct (Z.leb_spec (2 ^ n - 1) maxfd).
    + assert (n < 31) as Hlt.
      { apply (Z.pow_lt_mono_r_iff 2); lia. }
      assert (2 ^ (n + 1) <= 2 ^ 31) by (apply Z.pow_le_mono_r; lia).
      rewrite lor_shiftl_add by lia. change (2 ^ 1) with 2.
      rewrite wraps_id by lia. eexists. split; [done|]. cbn beta iota.
      replace ((2 ^ n - 1) * 2 + 1) with (2 ^ (n + 1) - 1) by lia. split.
      * exists (n + 1). split; [lia|done].
      * replace (2 ^ (n + 1) - 1 + 1) with (2 ^ (n + 1)) by lia.
        replace (2 ^ n - 1 + 1) with (2 ^ n) by lia. rewrite !Z.log2_pow2 by lia. lia.
    + eexists. split; [done|]. cbn beta iota. split; [lia|]. exists n. split; [lia|done].
  - by exists 1.
  - change (Z.log2 (1 + 1)) with 1. lia.
Qed.

Lemma entry_app_zero fip n i nf rl :
  entry (UfInfo (fi_list fip ++ replicate n uf_zero) nf rl) i =
  if i <? Z.of_nat (length (fi_list fip)) then entry fip i
  else if i <? Z.of_nat (length (fi_list fip)) + Z.of_nat n then Some uf_zero else None.
Proof.
  unfold entry, rd. cbn. destruct (Z.ltb_spec i 0).
  { destruct (Z.ltb_spec i (Z.of_nat (length (fi_list fip)))); [done|lia]. }
  destruct (Z.ltb_spec i (Z.of_nat (length (fi_list fip)))).
  - by rewrite lookup_app_l by lia.
  - rewrite lookup_app_r by lia.
    destruct (Z.ltb_spec i (Z.of_nat (length (fi_list fip)) + Z.of_nat n)).
    + apply lookup_replicate_2. lia.
    + apply lookup_ge_None_2. rewrite length_replicate. lia.
Qed.

(** flist_grow() makes room for [maxfd], keeps every old entry, adds only free
    descriptors, keeps the invariant, and retires the old list. *)
Lemma flist_grow_wf fip maxfd :
  fd_wf fip → 0 <= maxfd < 2 ^ 31 - 1 →
  ∃ fip', flist_grow fip maxfd = Some fip' ∧ fd_wf fip' ∧ maxfd < fi_nfiles fip' ∧
    fi_nfiles fip <= fi_nfiles fip' ∧
    (∀ i, i < fi_nfiles fip → entry fip' i = entry fip i) ∧
    (∀ i, busy fip' i = busy fip i).
Proof.
  intros Hwf Hm. unfold flist_grow.
  destruct (newcnt_loop maxfd Hm) as (c & -> & Hc & n & Hn & Ec).
  pose proof (fw_len _ Hwf) as Hlen. destruct (fw_pow _ Hwf) as (o & Ho & Eo).
  destruct (Z.leb_spec c (fi_nfiles fip)); [exists fip; split_and!; [done|done|lia|done..]|].
  eexists. split; [done|]. set (fip' := UfInfo _ _ _).
  assert (∀ i, entry fip' i = if i <? fi_nfiles fip then entry fip i
            else if i <? c then Some uf_zero else None) as Hent.
  { intros i. unfold fip'. rewrite entry_app_zero, Hlen.
    replace (fi_nfiles fip + Z.of_nat (Z.to_nat (c - fi_nfiles fip))) with c by lia. done. }
  assert (∀ i, busy fip' i = busy fip i) as Hbusy.
  { intros i. unfold busy. rewrite Hent. destruct (Z.ltb_spec i (fi_nfiles fip)); [done|].
    assert (entry fip i = None) as ->.
    { destruct (entry fip i) eqn:E; [|done]. apply (entry_bound _ _ _ Hwf) in E. lia. }
    by destruct (i <? c). }
  split_and!; [|done|unfold fip'; cbn; lia| |done].
  2: { intros i Hi. rewrite Hent. by destruct (Z.ltb_spec i (fi_nfiles fip)); [|lia]. }
  split.
  - unfold fip'. cbn. rewrite length_app, length_replicate. lia.
  - exists n. split; [lia|done].
  - intros i e. rewrite Hent. destruct (Z.ltb_spec i (fi_nfiles fip)); [apply Hwf|].
    destruct (i <? c); [|done]. intros [= <-]. by left.
  - intros i e. rewrite Hent. destruct (Z.ltb_spec i (fi_nfiles fip)).
    + intros He. rewrite (fw_alloc _ Hwf _ _ He).
      pose proof (entry_bound _ _ _ Hwf He). destruct (node_exists i) as (k & q & Hnd); [lia|].
      rewrite (csize_node _ _ _ Hnd). apply countz_ext; [destruct Hnd; lia|done].
    + destruct (Z.ltb_spec i c); [|done]. intros [= <-]. cbn. symmetry.
      assert (0 <= fi_nfiles fip) by lia.
      destruct (node_exists i) as (k & q & Hnd); [lia|]. rewrite (csize_node _ _ _ Hnd).
      apply countz_zero; [destruct Hnd; lia|]. intros j Hj. rewrite Hbusy. unfold busy.
      destruct (entry fip j) eqn:E; [|done]. apply (entry_bound _ _ _ Hwf) in E. lia.
Qed.

(** ** ufalloc() *)

(** The specification of descriptor allocation, on the set of busy
    descriptors alone: the lowest free one from [start] on, below the limit. *)
Definition alloc_spec (filelimit start : Z) (old new : Z → bool) (r : Z) : Prop :=
  (r = -1 ∧ (∀ i, start <= i < filelimit → old i = true) ∧ ∀ i, new i = old i) ∨
  (start <= r < filelimit ∧ old r = false ∧ (∀ i, start <= i < r → old i = true) ∧
   ∀ i, new i = if i =? r then true else old i).

Lemma ufalloc_found filelimit fip start r fuel :
  fd_wf fip → 0 <= start < 2 ^ 31 → 0 <= filelimit < 2 ^ 31 →
  fd_find fip start = Some r → lowest_free fip start r → r ≠ -1 → (0 < fuel)%nat →
  ∃ fd fip', run (ufalloc_step filelimit start) fuel fip = Some (fd, fip') ∧ fd_wf fip' ∧
    alloc_spec filelimit start (busy fip) (busy fip') fd.
Proof.
  intros Hwf Hst Hlim Hfind Hlow Hne Hfuel. destruct fuel as [|fuel]; [lia|]. cbn [run].
  unfold ufalloc_step at 1. rewrite Hfind.
  destruct Hlow as [[-> _]|(Hr & Hfree & Hbusy)]; [done|].
  pose proof (nfiles_bound _ Hwf). rewrite wrapu_id by lia.
  destruct (Z.ltb_spec r filelimit).
  - destruct (fd_reserve_wf fip r 1 Hwf) as (fip' & -> & Hwf' & _ & _ & _ & Hb); [lia|by left|].
    eexists _, _. split; [done|]. split; [done|]. right. split_and!; [lia|lia|done|done|done].
  - destruct (Z.geb_spec r filelimit); [|lia]. eexists _, _. split; [done|]. split; [done|].
    left. split_and!; [done| |done]. intros i Hi. apply Hbusy. lia.
Qed.

(** C11: ufalloc() returns the lowest free descriptor at or above [start] if
    one exists below the limit, growing the table when it has none, and marks
    exactly that descriptor busy; otherwise it returns -1 and changes no
    descriptor.  The allocation tree stays consistent. *)
Theorem ufalloc_lowest filelimit fip start :
  fd_wf fip → 0 <= start < 2 ^ 31 - 1 → 0 <= filelimit < 2 ^ 31 → fi_nfiles fip < 2 ^ 31 - 1 →
  ∃ fd fip', ufalloc filelimit fip start = Some (fd, fip') ∧ fd_wf fip' ∧
    alloc_spec filelimit start (busy fip) (busy fip') fd.
Proof.
  intros Hwf Hst Hlim Hnf. unfold ufalloc. pose proof (nfiles_bound _ Hwf) as Hnb.
  destruct (fd_find_lowest fip start Hwf) as (r & Hfind & Hlow); [lia|].
  destruct (decide (r = -1)) as [->|Hne].
  2: { apply (ufalloc_found _ _ _ r); (done || lia). }
  cbn [run]. unfold ufalloc_step at 1. rewrite Hfind.
  change (u32 (-1)) with (2 ^ 32 - 1).
  destruct (Z.ltb_spec (2 ^ 32 - 1) filelimit); [lia|].
  destruct (Z.geb_spec (-1) filelimit); [lia|].
  destruct (flist_grow_wf fip (Z.max start (fi_nfiles fip)) Hwf)
    as (fip1 & -> & Hwf1 & Hmax & Hle & _ & Hb1); [lia|].
  destruct (fd_find_lowest fip1 start Hwf1) as (r1 & Hfind1 & Hlow1); [lia|].
  destruct (ufalloc_found filelimit fip1 start r1 2) as (fd & fip' & Hrun & Hwf' & Hspec);
    try (done || lia).
  { intros ->. destruct Hlow1 as [[_ Hall]|[? _]]; [|lia].
    assert (busy fip (Z.max start (fi_nfiles fip)) = true) as Hbz by (rewrite <- Hb1; apply Hall; lia).
    unfold busy in Hbz. destruct (entry fip _) eqn:E; [|done].
    apply (entry_bound _ _ _ Hwf) in E. lia. }
  exists fd, fip'. split; [done|]. split; [done|].
  destruct Hspec as [(-> & Hall & Hsame)|(Hr & Hf & Hall & Hset)]; [left|right].
  - split_and!; [done| |]; intros i; [intros Hi|]; rewrite <- ?Hb1; auto.
  - split_and!; [lia|lia|by rewrite <- Hb1| |]; intros i; [intros Hi|]; rewrite <- ?Hb1; auto.
Qed.

(** C30: fd_find() returns the lowest free descriptor at or above [minfd], and
    -1 exactly when there is none: the tree search agrees with a linear scan. *)
Theorem fd_find_correct fip minfd :
  fd_wf fip → 0 <= minfd < 2 ^ 31 →
  ∃ r, fd_find fip minfd = Some r ∧ lowest_free fip minfd r.
Proof. apply fd_find_lowest. Qed.

(** Fd_reserve() allocates (or frees) exactly the descriptor it is given,
    leaves every other field of the table alone and keeps the allocation
    counts of the whole tree consistent. *)
Theorem fd_reserve_correct fip fd incr :
  fd_wf fip → 0 <= fd < fi_nfiles fip →
  (incr = 1 ∧ busy fip fd = false) ∨ (incr = -1 ∧ busy fip fd = true) →
  ∃ fip', fd_reserve fip fd incr = Some fip' ∧ fd_wf fip' ∧
    fi_nfiles fip' = fi_nfiles fip ∧ fi_rlist fip' = fi_rlist fip ∧
    (∀ i, entry fip' i = reserve_entry fd incr i <$> entry fip i) ∧
    ∀ i, busy fip' i = if i =? fd then incr =? 1 else busy fip i.
Proof. apply fd_reserve_wf. Qed.

(** ** setf(), getf(), releasef(), f_setfd() *)

(** An entry store that keeps [uf_alloc] and [uf_busy] keeps the invariant. *)
Lemma set_entry_wf fip fd e e' :
  fd_wf fip → entry fip fd = Some e → uf_alloc e' = uf_alloc e → uf_busy e' = uf_busy e →
  ∃ fip', set_entry fip fd e' = Some fip' ∧ fd_wf fip' ∧
    (∀ i, entry fip' i = if i =? fd then Some e' else entry fip i) ∧
    ∀ i, busy fip' i = busy fip i.
Proof.
  intros Hwf He Ha Hb.
  destruct (set_entry_spec fip fd e' e He) as (fip' & Hset & Hlen & Hnf & Hrl & Hent).
  assert (∀ i, busy fip' i = busy fip i) as Hbusy.
  { intros i. unfold busy. rewrite Hent. destruct (Z.eqb_spec i fd) as [->|]; [|done].
    by rewrite He, Hb. }
  exists fip'. split_and!; [done| |done|done]. split.
  - rewrite Hlen, Hnf. apply Hwf.
  - rewrite Hnf. apply Hwf.
  - intros i ei. rewrite Hent. destruct (Z.eqb_spec i fd) as [->|]; [|apply Hwf].
    intros [= <-]. rewrite Hb. by apply (fw_busy _ Hwf fd).
  - intros i ei. rewrite Hent. intros Hei.
    assert (uf_alloc ei = countz (busy fip) i (csize i)) as ->.
    { destruct (Z.eqb_spec i fd) as [->|]; [|by apply Hwf].
      injection Hei as <-. rewrite Ha. by apply Hwf. }
    assert (0 <= i) as Hi.
    { destruct (Z.eqb_spec i fd) as [->|];
        [by apply entry_Some in He as [? _]|by apply entry_Some in Hei as [? _]]. }
    destruct (node_exists i Hi) as (k & q & Hn). rewrite (csize_node _ _ _ Hn).
    apply countz_ext; [destruct Hn; lia|]. done.
Qed.

(** Setf() installs the file pointer in a reserved descriptor; with a
    null pointer it gives the descriptor back, and only that one.  The
    allocation tree stays consistent. *)
Theorem setf_correct fip fd fp :
  fd_wf fip → 0 <= fd < fi_nfiles fip → busy fip fd = true →
  ∃ fip', setf fip fd fp = Some fip' ∧ fd_wf fip' ∧
    (∃ e, entry fip' fd = Some e ∧ uf_file e = fp) ∧
    ∀ i, busy fip' i = if i =? fd then negb (fp =? NULL) else busy fip i.
Proof.
  intros Hwf Hfd Hb. unfold setf. destruct (Z.eqb_spec fp NULL) as [->|Hne].
  - destruct (fd_reserve_wf fip fd (-1) Hwf Hfd) as (fip1 & -> & Hwf1 & Hnf1 & _ & _ & Hb1);
      [by right|].
    destruct (entry_in fip1 fd Hwf1) as [e He]; [lia|]. rewrite He.
    destruct (set_entry_wf fip1 fd e
      (UfEntry NULL (uf_fpollinfo e) (uf_refcnt e) (uf_alloc e) (uf_flag e) (uf_busy e)))
      as (fip' & -> & Hwf' & Hent & Hb'); [done..|].
    exists fip'. split_and!; [done|done| |].
    + rewrite Hent, Z.eqb_refl. eauto.
    + intros i. rewrite Hb', Hb1. done.
  - destruct (entry_in fip fd Hwf Hfd) as [e He]. rewrite He.
    destruct (set_entry_wf fip fd e
      (UfEntry fp (uf_fpollinfo e) (uf_refcnt e) (uf_alloc e) (uf_flag e) (uf_busy e)))
      as (fip' & -> & Hwf' & Hent & Hb'); [done..|].
    exists fip'. split_and!; [done|done| |].
    + rewrite Hent, Z.eqb_refl. eauto.
    + intros i. rewrite Hb'. destruct (Z.eqb_spec i fd) as [->|]; [by rewrite Hb|done].
Qed.

Lemma uf_info_ext a b :
  fi_nfiles a = fi_nfiles b → fi_rlist a = fi_rlist b →
  (∀ i, entry a i = entry b i) → a = b.
Proof.
  intros Hn Hr He. destruct a as [la na ra], b as [lb nb rb]. cbn in *. subst. f_equal.
  apply list_eq. intros i. specialize (He (Z.of_nat i)). unfold entry, rd in He. cbn in He.
  destruct (Z.ltb_spec (Z.of_nat i) 0); [lia|]. by rewrite Nat2Z.id in He.
Qed.

(** Getf() hands out the descriptor's file exactly when there is one, and
    releasef() undoes it: the table is as before, and a waiting close is woken
    when the last user is gone. *)
Theorem getf_releasef fip fd fp fip' :
  fd_wf fip → -2 ^ 31 <= fd < 2 ^ 31 → getf fip fd = Some (fp, fip') →
  (fp = NULL ∧ fip' = fip ∧ ∀ e, entry fip fd = Some e → uf_file e = NULL) ∨
  (fp ≠ NULL ∧ ∃ e, entry fip fd = Some e ∧ uf_file e = fp ∧
   releasef fip' fd = Some (uf_refcnt e =? 0, fip)).
Proof.
  intros Hwf Hfd. unfold getf. pose proof (nfiles_bound _ Hwf).
  destruct (u32 fd >=? fi_nfiles fip) eqn:Hr.
  - intros [= <- <-]. left. split_and!; [done..|]. intros e He.
    apply (entry_bound _ _ _ Hwf) in He. rewrite wrapu_id in Hr by lia. zbool. lia.
  - destruct (entry fip fd) as [e|] eqn:He; [|done].
    destruct (Z.eqb_spec (uf_file e) NULL) as [Hz|Hnz].
    + intros [= <- <-]. left. split_and!; [done..|]. congruence.
    + destruct (set_entry_spec fip fd (UfEntry (uf_file e) (uf_fpollinfo e) (uf_refcnt e + 1)
        (uf_alloc e) (uf_flag e) (uf_busy e)) e He) as (fip1 & -> & Hl1 & Hn1 & Hr1 & He1).
      intros [= <- <-]. right. split; [done|]. exists e. split_and!; [done|done|].
      unfold releasef. rewrite He1, Z.eqb_refl. cbn.
      replace (uf_refcnt e + 1 - 1) with (uf_refcnt e) by lia.
      edestruct (set_entry_spec fip1 fd e) as (fip2 & Hs2 & Hl2 & Hn2 & Hr2 & He2);
        [by rewrite He1, Z.eqb_refl|].
      destruct e. cbn in *. rewrite Hs2. repeat f_equal.
      apply uf_info_ext; [congruence..|]. intros i. rewrite He2, He1.
      destruct (Z.eqb_spec i fd) as [->|]; [by rewrite He|done].
Qed.

(** ** flist_fork() *)

(** Descriptors reserved by ufalloc() whose setf() has not happened yet. *)
Definition in_transit (fip : uf_info) (i : Z) : bool :=
  match entry fip i with
  | Some e => (uf_file e =? NULL) && negb (uf_busy e =? 0)
  | None => false
  end.

(** The child's entry [p] once the descriptors below [n] have been copied. *)
Definition forked (pfip : uf_info) (n p : Z) (e : uf_entry) : uf_entry :=
  if p <? n then
    UfEntry (uf_file e) 0 0
      (uf_alloc e - countz (in_transit pfip) p (Z.min (csize p) (n - p)))
      (uf_flag e) (if in_transit pfip p then 0 else uf_busy e)
  else uf_zero.

Lemma countz_succ P p c fd :
  0 < c → p <= fd →
  countz P p (Z.min c (fd + 1 - p)) =
  countz P p (Z.min c (fd - p)) + (if (fd <? p + c) && P fd then 1 else 0).
Proof.
  intros Hc Hp. destruct (Z.ltb_spec fd (p + c)); cbn [andb].
  - rewrite !Z.min_r by lia. replace (fd + 1 - p) with (fd - p + 1) by lia.
    rewrite countz_app by lia. replace (p + (fd - p)) with fd by lia.
    change (countz P fd 1) with ((if P fd then 1 else 0) + 0). destruct (P fd); lia.
  - rewrite !Z.min_l by lia. lia.
Qed.

Lemma csize_pos p : 0 <= p → 0 < csize p.
Proof.
  intros Hp. destruct (node_exists p Hp) as (k & q & Hn). rewrite (csize_node _ _ _ Hn).
  destruct Hn. lia.
Qed.

Lemma flist_fork_step_spec pfip fd cfip :
  fd_wf pfip → 0 <= fd < fi_nfiles pfip → fi_nfiles cfip = fi_nfiles pfip → fi_rlist cfip = [] →
  (∀ p, entry cfip p = forked pfip fd p <$> entry pfip p) →
  ∃ cfip', flist_fork_step pfip fd cfip = Some cfip' ∧
    fi_nfiles cfip' = fi_nfiles pfip ∧ fi_rlist cfip' = [] ∧
    ∀ p, entry cfip' p = forked pfip (fd + 1) p <$> entry pfip p.
Proof.
  intros Hwf Hfd Hnf Hrl Hent. unfold flist_fork_step.
  destruct (entry_in pfip fd Hwf Hfd) as [e He]. rewrite He.
  assert (entry cfip fd = Some uf_zero) as Hce.
  { rewrite Hent, He. unfold forked. cbn. by rewrite Z.ltb_irrefl. }
  rewrite Hce. cbn [uf_fpollinfo uf_refcnt uf_zero].
  destruct (set_entry_spec cfip fd
    (UfEntry (uf_file e) 0 0 (uf_alloc e) (uf_flag e) (uf_busy e)) _ Hce)
    as (c1 & -> & Hl1 & Hn1 & Hr1 & He1).
  assert (in_transit pfip fd = (uf_file e =? NULL) && negb (uf_busy e =? 0)) as Ht
    by (unfold in_transit; by rewrite He).
  pose proof (csize_pos fd ltac:(lia)) as Hcs.
  destruct (_ && _) eqn:Hg.
  - destruct (fd_reserve_effect c1 fd (-1)) as (c2 & -> & _ & Hn2 & Hr2 & He2); [lia| |].
    { intros p Hp. rewrite He1. destruct (Z.eqb_spec p fd); [eauto|].
      rewrite Hent. destruct (entry_in pfip p Hwf) as [ep ->]; [lia|]. cbn. eauto. }
    exists c2. split_and!; [done|congruence|congruence|]. intros p. rewrite He2, He1.
    unfold reserve_entry. destruct (Z.eqb_spec p fd) as [->|Hne].
    + rewrite He. cbn. f_equal. unfold forked. destruct (Z.ltb_spec fd (fd + 1)); [|lia].
      rewrite covers_self by lia. unfold add_busy, add_alloc. cbn. rewrite countz_succ by lia.
      rewrite Z.sub_diag, Z.min_r, countz_0, Ht by lia.
      destruct (Z.ltb_spec fd (fd + csize fd)); [cbn|lia].
      destruct (fw_busy _ Hwf _ _ He) as [Hb|Hb]; rewrite Hb in *; [by rewrite andb_false_r in Hg|].
      done.
    + rewrite Hent. destruct (entry pfip p) as [ep|] eqn:Hep; [|done]. cbn. f_equal.
      apply (entry_bound _ _ _ Hwf) in Hep. unfold forked, covers.
      pose proof (csize_pos p ltac:(lia)).
      destruct (Z.ltb_spec p fd), (Z.ltb_spec p (fd + 1)), (Z.leb_spec p fd); try lia; [|done].
      rewrite (countz_succ _ _ _ fd), Ht by lia. unfold add_alloc. cbn.
      destruct (fd <? p + csize p); cbn; f_equal; lia.
  - exists c1. split_and!; [done|congruence|congruence|]. intros p. rewrite He1.
    destruct (Z.eqb_spec p fd) as [->|Hne].
    + rewrite He. cbn. f_equal. unfold forked. destruct (Z.ltb_spec fd (fd + 1)); [|lia].
      rewrite countz_succ, Ht by lia. rewrite Z.sub_diag, Z.min_r, countz_0, andb_false_r by lia.
      f_equal. lia.
    + rewrite Hent. destruct (entry pfip p) as [ep|] eqn:Hep; [|done]. cbn. f_equal.
      apply (entry_bound _ _ _ Hwf) in Hep. unfold forked.
      pose proof (csize_pos p ltac:(lia)).
      destruct (Z.ltb_spec p fd), (Z.ltb_spec p (fd + 1)); try lia; [|done].
      rewrite (countz_succ _ _ _ fd), Ht, andb_false_r by lia. f_equal. lia.
Qed.

Lemma flist_fork_loop_spec pfip n fd cfip :
  fd_wf pfip → 0 <= fd → fd + Z.of_nat n = fi_nfiles pfip →
  fi_nfiles cfip = fi_nfiles pfip → fi_rlist cfip = [] →
  (∀ p, entry cfip p = forked pfip fd p <$> entry pfip p) →
  ∃ cfip', flist_fork_loop pfip fd n cfip = Some cfip' ∧
    fi_nfiles cfip' = fi_nfiles pfip ∧ fi_rlist cfip' = [] ∧
    ∀ p, entry cfip' p = forked pfip (fi_nfiles pfip) p <$> entry pfip p.
Proof.
  revert fd cfip. induction n as [|n IH]; intros fd cfip Hwf Hfd Hn Hnf Hrl Hent.
  - exists cfip. replace (fi_nfiles pfip) with fd by lia. split_and!; [done|lia|done|done].
  - cbn [flist_fork_loop].
    destruct (flist_fork_step_spec pfip fd cfip) as (c & -> & Hnf' & Hrl' & Hent'); try (done || lia).
    destruct (IH (fd + 1) c) as (c' & Hc); try (done || lia). eauto.
Qed.

Lemma countz_andb_negb P Q a len :
  (∀ i, Q i = true → P i = true) →
  countz P a len - countz Q a len = countz (λ i, P i && negb (Q i)) a len.
Proof.
  intros HQ. unfold countz. generalize (Z.to_nat len) as n. intros n. revert a.
  induction n as [|n IH]; intros a; cbn [count]; [done|]. rewrite <- IH.
  specialize (HQ a). destruct (P a), (Q a); cbn; (lia || by discriminate HQ).
Qed.

(** The zeroed table the child starts from. *)
Lemma fork_init pfip p :
  fd_wf pfip →
  entry (UfInfo (replicate (Z.to_nat (fi_nfiles pfip)) uf_zero) (fi_nfiles pfip) []) p =
  forked pfip 0 p <$> entry pfip p.
Proof.
  intros Hwf. pose proof (nfiles_bound _ Hwf).
  pose proof (entry_app_zero (UfInfo [] 0 []) (Z.to_nat (fi_nfiles pfip)) p
    (fi_nfiles pfip) []) as Hz. cbn [app fi_list length] in Hz.
  rewrite Nat2Z.inj_0, Z.add_0_l, Z2Nat.id in Hz by lia. rewrite Hz. clear Hz.
  destruct (entry pfip p) as [e|] eqn:E.
  - apply (entry_bound _ _ _ Hwf) in E. unfold forked. cbn.
    destruct (Z.ltb_spec p 0); [lia|]. by destruct (Z.ltb_spec p (fi_nfiles pfip)); [|lia].
  - cbn. destruct (Z.ltb_spec p 0); [by unfold entry; destruct (Z.ltb_spec p 0); [|lia]|].
    destruct (Z.ltb_spec p (fi_nfiles pfip)); [|done].
    destruct (entry_in pfip p Hwf) as [e He]; [lia|]. congruence.
Qed.

Section forked_table.
Context (pfip cfip : uf_info) (Hwf : fd_wf pfip).
Context (Hent : ∀ p, entry cfip p = forked pfip (fi_nfiles pfip) p <$> entry pfip p).

Lemma forked_busy i : busy cfip i = busy pfip i && negb (in_transit pfip i).
Proof using Hwf Hent.
  unfold busy, in_transit at 1. rewrite Hent.
  destruct (entry pfip i) as [e|] eqn:E; [|done]. cbn.
  apply (entry_bound _ _ _ Hwf) in E as Hi. unfold forked.
  destruct (Z.ltb_spec i (fi_nfiles pfip)); [|lia]. cbn. unfold in_transit. rewrite E.
  destruct (uf_file e =? NULL), (uf_busy e =? 0) eqn:Hb; cbn; rewrite ?Hb; done.
Qed.

Lemma forked_length : length (fi_list cfip) = length (fi_list pfip).
Proof using Hent.
  assert (∀ i, (i < length (fi_list cfip))%nat ↔ (i < length (fi_list pfip))%nat) as Hiff.
  { intros i. rewrite <- !lookup_lt_is_Some. specialize (Hent (Z.of_nat i)).
    unfold entry, rd in Hent. destruct (Z.ltb_spec (Z.of_nat i) 0); [lia|].
    rewrite Nat2Z.id in Hent. rewrite Hent. by rewrite fmap_is_Some. }
  pose proof (Hiff (length (fi_list cfip))). pose proof (Hiff (length (fi_list pfip))). lia.
Qed.

Lemma forked_alloc i c :
  entry cfip i = Some c → uf_alloc c = countz (busy cfip) i (csize i).
Proof using Hwf Hent.
  rewrite Hent. destruct (entry pfip i) as [e|] eqn:E; [|done]. intros [= <-].
  apply (entry_bound _ _ _ Hwf) in E as Hi. unfold forked.
  destruct (Z.ltb_spec i (fi_nfiles pfip)); [|lia]. cbn. rewrite (fw_alloc _ Hwf _ _ E).
  destruct (node_exists i) as (k & q & Hn); [lia|]. destruct (fw_pow _ Hwf) as (n & Hnn & Hpow).
  destruct (node_below i k q n Hn) as [_ Hend]; [lia..|]. rewrite (csize_node _ _ _ Hn).
  rewrite Z.min_l by lia. rewrite countz_andb_negb.
  - apply countz_ext; [destruct Hn; lia|]. intros j _. by rewrite forked_busy.
  - intros j. unfold in_transit, busy. destruct (entry pfip j); [|done].
    by destruct (uf_file u =? NULL).
Qed.
End forked_table.

(** Flist_fork() gives the child every open descriptor of the parent with
    its flags, none of the descriptors that are reserved but not open yet, no
    references, and a consistent allocation tree. *)
Theorem flist_fork_correct pfip :
  fd_wf pfip →
  ∃ cfip, flist_fork pfip = Some cfip ∧ fd_wf cfip ∧ fi_nfiles cfip = fi_nfiles pfip ∧
    (∀ i, busy cfip i = busy pfip i && negb (in_transit pfip i)) ∧
    ∀ i p, entry pfip i = Some p → ∃ c, entry cfip i = Some c ∧
      uf_file c = uf_file p ∧ uf_flag c = uf_flag p ∧ uf_refcnt c = 0.
Proof.
  intros Hwf. pose proof (nfiles_bound _ Hwf). unfold flist_fork.
  destruct (flist_fork_loop_spec pfip (Z.to_nat (fi_nfiles pfip)) 0
    (UfInfo (replicate (Z.to_nat (fi_nfiles pfip)) uf_zero) (fi_nfiles pfip) []))
    as (cfip & -> & Hnf & Hrl & Hent); try (done || lia).
  { intros p. by apply fork_init. }
  exists cfip. split; [done|]. split_and!; [|done|by apply (forked_busy pfip)|].
  - split.
    + rewrite (forked_length pfip cfip Hent), Hnf. apply Hwf.
    + rewrite Hnf. apply Hwf.
    + intros i c. rewrite Hent. destruct (entry pfip i) as [e|] eqn:E; [|done]. intros [= <-].
      unfold forked. destruct (i <? fi_nfiles pfip); [|by left]. cbn.
      destruct (in_transit pfip i); [by left|by apply (fw_busy _ Hwf i)].
    + by apply (forked_alloc pfip).
  - intros i p Hp. rewrite Hent, Hp. apply (entry_bound _ _ _ Hwf) in Hp.
    eexists. split; [done|]. unfold forked. by destruct (Z.ltb_spec i (fi_nfiles pfip)); [|lia].
Qed.

(** ** Witnesses *)

(** Descriptors 0 and 1 open, 2 reserved, in a table of 7. *)
Definition table7 : uf_info :=
  UfInfo [UfEntry 11 0 0 1 0 1; UfEntry 12 0 0 2 1 1; UfEntry 0 0 0 1 0 1;
          uf_zero; uf_zero; uf_zero; uf_zero] 7 [].

(** [fd_wf] as a computation, for tables given explicitly. *)
Definition fd_wf_check (fip : uf_info) (n : Z) : bool :=
  (Z.of_nat (length (fi_list fip)) =? fi_nfiles fip) && (0 <=? n) && (n <=? 31) &&
  (fi_nfiles fip =? 2 ^ n - 1) &&
  forallb (λ fd, match entry fip (Z.of_nat fd) with
                 | Some e => ((uf_busy e =? 0) || (uf_busy e =? 1)) &&
                     (uf_alloc e =? countz (busy fip) (Z.of_nat fd) (csize (Z.of_nat fd)))
                 | None => true
                 end) (seq 0 (length (fi_list fip))).

Lemma fd_wf_check_sound fip n : fd_wf_check fip n = true → fd_wf fip.
Proof.
  unfold fd_wf_check. intros H. apply andb_prop in H as [H Hall]. zbool.
  assert (∀ fd e, entry fip fd = Some e → (uf_busy e = 0 ∨ uf_busy e = 1) ∧
            uf_alloc e = countz (busy fip) fd (csize fd)) as Hentry.
  { intros fd e He. rewrite forallb_forall in Hall.
    pose proof He as [Hfd Hlk]%entry_Some. apply lookup_lt_Some in Hlk.
    specialize (Hall (Z.to_nat fd)). rewrite in_seq, Z2Nat.id in Hall by lia.
    rewrite He in Hall. specialize (Hall ltac:(lia)). apply andb_prop in Hall as [Hb Ha].
    apply orb_prop in Hb. rewrite !Z.eqb_eq in Hb. by apply Z.eqb_eq in Ha. }
  split; [done|exists n; done|intros fd e He|intros fd e He]; by destruct (Hentry fd e He).
Qed.

Lemma table7_wf : fd_wf table7.
Proof. apply (fd_wf_check_sound _ 3). vm_compute. reflexivity. Qed.

Lemma ufalloc_lowest_witness :
  ∃ fd fip', ufalloc 256 table7 1 = Some (fd, fip') ∧ fd_wf fip' ∧
    alloc_spec 256 1 (busy table7) (busy fip') fd.
Proof. apply (ufalloc_lowest 256 table7 1); [exact table7_wf|lia..|cbn; lia]. Defined.

Lemma fd_find_correct_witness : ∃ r, fd_find table7 0 = Some r ∧ lowest_free table7 0 r.
Proof. apply (fd_find_correct table7 0); [exact table7_wf|lia]. Defined.

Lemma fd_reserve_correct_witness :
  ∃ fip', fd_reserve table7 5 1 = Some fip' ∧ fd_wf fip' ∧
    fi_nfiles fip' = fi_nfiles table7 ∧ fi_rlist fip' = fi_rlist table7 ∧
    (∀ i, entry fip' i = reserve_entry 5 1 i <$> entry table7 i) ∧
    ∀ i, busy fip' i = if i =? 5 then 1 =? 1 else busy table7 i.
Proof. apply (fd_reserve_correct table7 5 1); [exact table7_wf|cbn; lia|by left]. Defined.

Lemma setf_correct_witness :
  ∃ fip', setf table7 2 99 = Some fip' ∧ fd_wf fip' ∧
    (∃ e, entry fip' 2 = Some e ∧ uf_file e = 99) ∧
    ∀ i, busy fip' i = if i =? 2 then negb (99 =? NULL) else busy table7 i.
Proof. apply (setf_correct table7 2 99); [exact table7_wf|cbn; lia|reflexivity]. Defined.

Lemma getf_releasef_witness :
  ∃ fip', getf table7 1 = Some (12, fip') ∧
    ((12 = NULL ∧ fip' = table7 ∧ ∀ e, entry table7 1 = Some e → uf_file e = NULL) ∨
     (12 ≠ NULL ∧ ∃ e, entry table7 1 = Some e ∧ uf_file e = 12 ∧
      releasef fip' 1 = Some (uf_refcnt e =? 0, table7))).
Proof.
  eexists. split; [vm_compute; reflexivity|].
  apply (getf_releasef table7 1 12); [exact table7_wf|lia|reflexivity].
Defined.

Lemma flist_fork_correct_witness :
  ∃ cfip, flist_fork table7 = Some cfip ∧ fd_wf cfip ∧ fi_nfiles cfip = fi_nfiles table7 ∧
    (∀ i, busy cfip i = busy table7 i && negb (in_transit table7 i)) ∧
    ∀ i p, entry table7 i = Some p → ∃ c, entry cfip i = Some c ∧
      uf_file c = uf_file p ∧ uf_flag c = uf_flag p ∧ uf_refcnt c = 0.
Proof. apply (flist_fork_correct table7). exact table7_wf. Defined.
