(* ===== verification/CyclicHeap.v ===== *)
(** * The cyclic subsystem's per-CPU heap (uts/common/os/cyclic.c)

    Each CPU keeps its cyclics (periodic timers) in the array [cyp_cyclics]
    and, in [cyp_heap], a permutation of that array's indices: the first
    [cyp_nelems] entries are a binary min-heap on the expiration time, the
    rest is the free list.  This file has the data of cyclic_impl.h, the two
    sift routines [cyclic_upheap] and [cyclic_downheap], and the proof that
    each turns a heap that is broken at one place into a heap, only permuting
    its live part. *)

From stdpp Require Import base numbers list option.
From Stdlib Require Import ZArith Lia.
From S2P Require Import Prelude.

#[local] Open Scope Z_scope.

(** ** Data *)

Definition CY_LOW_LEVEL : nat := 0.
Definition CY_LOCK_LEVEL : nat := 1.
Definition CY_HIGH_LEVEL : nat := 2.
Definition CY_SOFT_LEVELS : nat := 2.

Definition CYF_FREE : Z := 0x0001.
Definition CYF_CPU_BOUND : Z := 0x0002.
Definition CYF_PART_BOUND : Z := 0x0004.

Inductive cyc_state :=
  | CYS_ONLINE
  | CYS_OFFLINE
  | CYS_EXPANDING
  | CYS_REMOVING
  | CYS_SUSPENDED.

#[export] Instance cyc_state_eq_dec : EqDecision cyc_state.
Proof. solve_decision. Defined.

(** A cyclic.  Handlers and their arguments are pointers the subsystem only
    passes on. *)
Record cyclic_t := Cyclic {
  cy_expire : Z;
  cy_interval : Z;
  cy_handler : Z;
  cy_arg : Z;
  cy_pend : Z;
  cy_flags : Z;
  cy_level : nat
}.

(** [cypc_buf] is [None] when the pointer is NULL. *)
Record cyc_pcbuffer := PcBuffer {
  cypc_buf : option (list nat);
  cypc_prodndx : Z;
  cypc_consndx : Z;
  cypc_sizemask : Z
}.

(** The two buffer indices "can only be zero or one". *)
Record cyc_softbuf := SoftBuf {
  cys_hard : bool;
  cys_soft : bool;
  cys_buf0 : cyc_pcbuffer;
  cys_buf1 : cyc_pcbuffer
}.

Record cyc_cpu := CycCpu {
  cyp_heap : list nat;
  cyp_cyclics : list cyclic_t;
  cyp_nelems : nat;
  cyp_size : nat;
  cyp_state : cyc_state;
  cyp_softbuf : list cyc_softbuf;
  cyp_modify_wait : Z;
  cyp_modify_levels : Z;
  cyp_rpend : Z
}.

(** Field updates. *)
Definition with_expire (c : cyclic_t) (e : Z) : cyclic_t :=
  Cyclic e (cy_interval c) (cy_handler c) (cy_arg c) (cy_pend c) (cy_flags c) (cy_level c).
Definition with_pend (c : cyclic_t) (p : Z) : cyclic_t :=
  Cyclic (cy_expire c) (cy_interval c) (cy_handler c) (cy_arg c) p (cy_flags c) (cy_level c).
Definition with_flags (c : cyclic_t) (f : Z) : cyclic_t :=
  Cyclic (cy_expire c) (cy_interval c) (cy_handler c) (cy_arg c) (cy_pend c) f (cy_level c).

Definition with_heap (cpu : cyc_cpu) (h : list nat) : cyc_cpu :=
  CycCpu h (cyp_cyclics cpu) (cyp_nelems cpu) (cyp_size cpu) (cyp_state cpu)
    (cyp_softbuf cpu) (cyp_modify_wait cpu) (cyp_modify_levels cpu) (cyp_rpend cpu).
Definition with_cyclics (cpu : cyc_cpu) (cs : list cyclic_t) : cyc_cpu :=
  CycCpu (cyp_heap cpu) cs (cyp_nelems cpu) (cyp_size cpu) (cyp_state cpu)
    (cyp_softbuf cpu) (cyp_modify_wait cpu) (cyp_modify_levels cpu) (cyp_rpend cpu).
Definition with_nelems (cpu : cyc_cpu) (n : nat) : cyc_cpu :=
  CycCpu (cyp_heap cpu) (cyp_cyclics cpu) n (cyp_size cpu) (cyp_state cpu)
    (cyp_softbuf cpu) (cyp_modify_wait cpu) (cyp_modify_levels cpu) (cyp_rpend cpu).
Definition with_size (cpu : cyc_cpu) (n : nat) : cyc_cpu :=
  CycCpu (cyp_heap cpu) (cyp_cyclics cpu) (cyp_nelems cpu) n (cyp_state cpu)
    (cyp_softbuf cpu) (cyp_modify_wait cpu) (cyp_modify_levels cpu) (cyp_rpend cpu).
Definition with_state (cpu : cyc_cpu) (s : cyc_state) : cyc_cpu :=
  CycCpu (cyp_heap cpu) (cyp_cyclics cpu) (cyp_nelems cpu) (cyp_size cpu) s
    (cyp_softbuf cpu) (cyp_modify_wait cpu) (cyp_modify_levels cpu) (cyp_rpend cpu).
Definition with_softbuf (cpu : cyc_cpu) (sb : list cyc_softbuf) : cyc_cpu :=
  CycCpu (cyp_heap cpu) (cyp_cyclics cpu) (cyp_nelems cpu) (cyp_size cpu) (cyp_state cpu)
    sb (cyp_modify_wait cpu) (cyp_modify_levels cpu) (cyp_rpend cpu).
Definition with_wait (cpu : cyc_cpu) (w : Z) : cyc_cpu :=
  CycCpu (cyp_heap cpu) (cyp_cyclics cpu) (cyp_nelems cpu) (cyp_size cpu) (cyp_state cpu)
    (cyp_softbuf cpu) w (cyp_modify_levels cpu) (cyp_rpend cpu).
Definition with_levels (cpu : cyc_cpu) (l : Z) : cyc_cpu :=
  CycCpu (cyp_heap cpu) (cyp_cyclics cpu) (cyp_nelems cpu) (cyp_size cpu) (cyp_state cpu)
    (cyp_softbuf cpu) (cyp_modify_wait cpu) l (cyp_rpend cpu).
Definition with_rpend (cpu : cyc_cpu) (r : Z) : cyc_cpu :=
  CycCpu (cyp_heap cpu) (cyp_cyclics cpu) (cyp_nelems cpu) (cyp_size cpu) (cyp_state cpu)
    (cyp_softbuf cpu) (cyp_modify_wait cpu) (cyp_modify_levels cpu) r.

(** ** The sift routines *)

Definition CYC_HEAP_PARENT (ndx : nat) : nat := Nat.shiftr (ndx - 1) 1.
Definition CYC_HEAP_RIGHT (ndx : nat) : nat := Nat.shiftl (ndx + 1) 1.
Definition CYC_HEAP_LEFT (ndx : nat) : nat := (Nat.shiftl (ndx + 1) 1 - 1)%nat.

(** One turn of the loop of [cyclic_upheap], on the heap and
    ([heap_current], [heap_parent]). *)
Definition upheap_step (cyclics : list cyclic_t) (s : list nat * nat * nat) :
    option (loop (list nat * nat * nat) (list nat * bool)) :=
  let '(heap, heap_current, heap_parent) := s in
  let! current := rd heap heap_current in
  let! parent := rd heap heap_parent in
  let! cc := rd cyclics current in
  let! cp := rd cyclics parent in
  if cy_expire cc >=? cy_expire cp then Some (Return (heap, false)) else
  let! heap := wr heap heap_parent current in
  let! heap := wr heap heap_current parent in
  if (heap_parent =? 0)%nat then Some (Return (heap, true)) else
  Some (Next (heap, heap_parent, CYC_HEAP_PARENT heap_parent)).

(** [true] when the element reached the root. *)
Definition cyclic_upheap (cpu : cyc_cpu) (ndx : nat) : option (cyc_cpu * bool) :=
  if (ndx =? 0)%nat then Some (cpu, true) else
  let! (heap, root) := run (upheap_step (cyp_cyclics cpu)) (S ndx)
                         (cyp_heap cpu, ndx, CYC_HEAP_PARENT ndx) in
  Some (with_heap cpu heap, root).

(** One turn of the loop of [cyclic_downheap], on the heap and [heap_me]. *)
Definition downheap_step (cyclics : list cyclic_t) (nelems : nat) (s : list nat * nat) :
    option (loop (list nat * nat) (list nat)) :=
  let '(heap, heap_me) := s in
  let heap_left := CYC_HEAP_LEFT heap_me in
  if (nelems <=? heap_left)%nat then Some (Return heap) else
  let! lft := rd heap heap_left in
  let! me := rd heap heap_me in
  let heap_right := CYC_HEAP_RIGHT heap_me in
  let! cl := rd cyclics lft in
  let! cm := rd cyclics me in
  let comp_left :=
    if cy_expire cm <=? cy_expire cl then Some (Return heap) else
    let! heap := wr heap heap_left me in
    let! heap := wr heap heap_me lft in
    Some (Next (heap, heap_left)) in
  if (nelems <=? heap_right)%nat then comp_left else
  let! rght := rd heap heap_right in
  let! cr := rd cyclics rght in
  if cy_expire cr <? cy_expire cl then
    if cy_expire cm <=? cy_expire cr then Some (Return heap) else
    let! heap := wr heap heap_right me in
    let! heap := wr heap heap_me rght in
    Some (Next (heap, heap_right))
  else comp_left.

Definition cyclic_downheap (cpu : cyc_cpu) (ndx : nat) : option cyc_cpu :=
  let! heap := run (downheap_step (cyp_cyclics cpu) (cyp_nelems cpu))
                 (S (cyp_nelems cpu - ndx)) (cyp_heap cpu, ndx) in
  Some (with_heap cpu heap).

(** ** Heap order *)

(** The expiration time at position [i] of the heap. *)
Definition expire_at (cs : list cyclic_t) (h : list nat) (i : nat) : Z :=
  default 0 (cy_expire <$> (h !! i ≫= λ k, cs !! k)).

(** Every position below [n] expires no earlier than its parent. *)
Definition heap_ok (cs : list cyclic_t) (h : list nat) (n : nat) : Prop :=
  ∀ i, (0 < i < n)%nat → expire_at cs h (CYC_HEAP_PARENT i) <= expire_at cs h i.

(** The same but for the element at [p], which may be out of place with
    respect to its parent and to its children. *)
Definition heap_but (cs : list cyclic_t) (h : list nat) (n p : nat) : Prop :=
  (∀ i, (0 < i < n)%nat → i ≠ p → CYC_HEAP_PARENT i ≠ p →
     expire_at cs h (CYC_HEAP_PARENT i) <= expire_at cs h i) ∧
  (∀ i, (0 < i < n)%nat → (0 < p)%nat → CYC_HEAP_PARENT i = p →
     expire_at cs h (CYC_HEAP_PARENT p) <= expire_at cs h i).

(** No child of [p] expires before [p]. *)
Definition below_ok (cs : list cyclic_t) (h : list nat) (n p : nat) : Prop :=
  ∀ i, (0 < i < n)%nat → CYC_HEAP_PARENT i = p → expire_at cs h p <= expire_at cs h i.

(** [p] does not expire before its parent. *)
Definition above_ok (cs : list cyclic_t) (h : list nat) (p : nat) : Prop :=
  (0 < p)%nat → expire_at cs h (CYC_HEAP_PARENT p) <= expire_at cs h p.

(** Every entry of the heap is an index of the cyclics array. *)
Definition heap_in (cs : list cyclic_t) (h : list nat) : Prop :=
  Forall (λ k, (k < length cs)%nat) h.

(** [h'] permutes the first [n] entries of [h]. *)
Definition permutes (n : nat) (h h' : list nat) : Prop :=
  take n h' ≡ₚ take n h ∧ drop n h' = drop n h.

Lemma parent_spec i :
  (0 < i)%nat → i = (2 * CYC_HEAP_PARENT i + 1)%nat ∨ i = (2 * CYC_HEAP_PARENT i + 2)%nat.
Proof.
  intros Hi. unfold CYC_HEAP_PARENT. rewrite Nat.shiftr_div_pow2. change (2 ^ 1)%nat with 2%nat.
  pose proof (Nat.div_mod_eq (i - 1) 2). pose proof (Nat.mod_upper_bound (i - 1) 2). lia.
Qed.

Lemma parent_lt i : (0 < i)%nat → (CYC_HEAP_PARENT i < i)%nat.
Proof. intros Hi. destruct (parent_spec i Hi); lia. Qed.

Lemma left_eq p : CYC_HEAP_LEFT p = (2 * p + 1)%nat.
Proof. unfold CYC_HEAP_LEFT. rewrite Nat.shiftl_mul_pow2. cbn. lia. Qed.

Lemma right_eq p : CYC_HEAP_RIGHT p = (2 * p + 2)%nat.
Proof. unfold CYC_HEAP_RIGHT. rewrite Nat.shiftl_mul_pow2. cbn. lia. Qed.

Lemma parent_child i p :
  (0 < i)%nat → CYC_HEAP_PARENT i = p ↔ i = (2 * p + 1)%nat ∨ i = (2 * p + 2)%nat.
Proof. intros Hi. destruct (parent_spec i Hi); lia. Qed.

Lemma expire_at_lookup cs h i k c :
  h !! i = Some k → cs !! k = Some c → expire_at cs h i = cy_expire c.
Proof. intros H1 H2. unfold expire_at. by rewrite H1; cbn; rewrite H2. Qed.

Lemma heap_in_lookup cs h i :
  heap_in cs h → (i < length h)%nat → ∃ k c, h !! i = Some k ∧ cs !! k = Some c.
Proof.
  intros Hin Hi. apply lookup_lt_is_Some in Hi as [k Hk].
  assert (k < length cs)%nat as Hlt by (eapply Forall_lookup_1 in Hin; eauto).
  apply lookup_lt_is_Some in Hlt as [c Hc]. eauto.
Qed.

Lemma heap_ok_but cs h n p :
  heap_but cs h n p → below_ok cs h n p → above_ok cs h p → heap_ok cs h n.
Proof.
  intros [H1 _] Hb Ha i Hi. destruct (decide (i = p)) as [->|Hne]; [apply Ha; lia|].
  destruct (decide (CYC_HEAP_PARENT i = p)) as [Hp|]; [rewrite Hp; by apply Hb|by apply H1].
Qed.

Lemma heap_ok_heap_but cs h n p : (p < n)%nat → heap_ok cs h n → heap_but cs h n p.
Proof.
  intros Hpn H. split; [auto|]. intros i Hi Hp Hpar.
  pose proof (H i Hi) as H1. rewrite Hpar in H1. pose proof (H p ltac:(lia)). lia.
Qed.

(** The root expires first. *)
Lemma heap_ok_root cs h n i :
  heap_ok cs h n → (i < n)%nat → expire_at cs h 0 <= expire_at cs h i.
Proof.
  intros H. induction (lt_wf i) as [i _ IH]. intros Hi.
  destruct (decide (i = 0%nat)) as [->|]; [lia|].
  pose proof (parent_lt i ltac:(lia)). pose proof (H i ltac:(lia)).
  specialize (IH (CYC_HEAP_PARENT i) ltac:(lia) ltac:(lia)). lia.
Qed.

(** ** Exchanging two entries *)

Section swap.
Context (cs : list cyclic_t) (h : list nat) (a b x y : nat).
Context (Ha : h !! a = Some x) (Hb : h !! b = Some y) (Hab : a ≠ b).

Lemma swap_lookup i :
  <[b := x]> (<[a := y]> h) !! i =
    if decide (i = b) then Some x else if decide (i = a) then Some y else h !! i.
Proof.
  pose proof (lookup_lt_Some _ _ _ Ha). pose proof (lookup_lt_Some _ _ _ Hb).
  destruct (decide (i = b)) as [->|].
  { apply list_lookup_insert_eq. by rewrite length_insert. }
  rewrite list_lookup_insert_ne by done. destruct (decide (i = a)) as [->|].
  - by apply list_lookup_insert_eq.
  - by rewrite list_lookup_insert_ne.
Qed.

Lemma swap_expire i :
  expire_at cs (<[b := x]> (<[a := y]> h)) i =
    if decide (i = b) then expire_at cs h a
    else if decide (i = a) then expire_at cs h b else expire_at cs h i.
Proof.
  unfold expire_at. rewrite swap_lookup. destruct (decide (i = b)); [by rewrite Ha|].
  destruct (decide (i = a)); [by rewrite Hb|done].
Qed.

Lemma swap_Permutation : <[b := x]> (<[a := y]> h) ≡ₚ h.
Proof.
  apply Permutation_inj. split; [by rewrite !length_insert|].
  exists (λ i, if decide (i = b) then a else if decide (i = a) then b else i). split.
  - intros i j. repeat case_decide; lia.
  - intros i. rewrite swap_lookup. repeat case_decide; by subst.
Qed.
End swap.

Lemma swap_permutes n h a b x y :
  h !! a = Some x → h !! b = Some y → a ≠ b → (a < n)%nat → (b < n)%nat →
  permutes n h (<[b := x]> (<[a := y]> h)).
Proof.
  intros Ha Hb Hab Han Hbn. split.
  - rewrite !take_insert_lt by lia. apply swap_Permutation; [| |done].
    + by rewrite lookup_take_lt.
    + by rewrite lookup_take_lt.
  - by rewrite !drop_insert_lt by lia.
Qed.

Lemma permutes_refl n h : permutes n h h.
Proof. done. Qed.

Lemma permutes_trans n h1 h2 h3 : permutes n h1 h2 → permutes n h2 h3 → permutes n h1 h3.
Proof. intros [H1 H2] [H3 H4]. split; [by rewrite H3|by rewrite H4]. Qed.

Lemma permutes_Permutation n h h' : permutes n h h' → h' ≡ₚ h.
Proof.
  intros [H1 H2]. rewrite <- (take_drop n h), <- (take_drop n h'). by rewrite H1, H2.
Qed.

Lemma permutes_heap_in cs n h h' : permutes n h h' → heap_in cs h → heap_in cs h'.
Proof. intros Hp Hin. unfold heap_in. by rewrite (permutes_Permutation n h h'). Qed.

Lemma permutes_length n h h' : permutes n h h' → length h' = length h.
Proof. intros Hp. by rewrite (permutes_Permutation n h h'). Qed.

#[export] Hint Resolve permutes_refl permutes_trans permutes_heap_in : kernel.

(** ** [cyclic_upheap] *)

(** Exchanging an element with its later parent moves the break up. *)
Lemma swap_up cs h n c x y :
  (0 < c < n)%nat → h !! c = Some x → h !! CYC_HEAP_PARENT c = Some y →
  heap_but cs h n c → expire_at cs h c < expire_at cs h (CYC_HEAP_PARENT c) →
  let h' := <[c := y]> (<[CYC_HEAP_PARENT c := x]> h) in
  heap_but cs h' n (CYC_HEAP_PARENT c) ∧ below_ok cs h' n (CYC_HEAP_PARENT c).
Proof.
  intros Hc Hx Hy [H1 H2] Hlt h'. pose proof (parent_lt c ltac:(lia)) as Hpc.
  assert (∀ i, expire_at cs h' i = if decide (i = c) then expire_at cs h (CYC_HEAP_PARENT c)
     else if decide (i = CYC_HEAP_PARENT c) then expire_at cs h c else expire_at cs h i) as He
    by (intros i; apply swap_expire; first [done|lia]).
  assert (∀ i, (0 < i < n)%nat → CYC_HEAP_PARENT i = CYC_HEAP_PARENT c → i ≠ c →
     expire_at cs h (CYC_HEAP_PARENT c) <= expire_at cs h i) as Hsib
    by (intros i Hi Hp Hne; rewrite <- Hp; apply H1; lia).
  split; [split|].
  - intros i Hi Hne Hnp. rewrite !He. pose proof (parent_lt i ltac:(lia)).
    destruct (decide (i = c)) as [->|]; [done|].
    destruct (decide (CYC_HEAP_PARENT i = c)) as [Hpi|]; rewrite ?decide_False by lia.
    + apply H2; lia.
    + apply H1; lia.
  - intros i Hi Hp0 Hpi. pose proof (parent_lt _ Hp0).
    pose proof (H1 (CYC_HEAP_PARENT c) ltac:(lia) ltac:(lia) ltac:(lia)). rewrite !He.
    rewrite (decide_False (P := CYC_HEAP_PARENT (CYC_HEAP_PARENT c) = c)) by lia.
    rewrite (decide_False (P := CYC_HEAP_PARENT (CYC_HEAP_PARENT c) = _)) by lia.
    destruct (decide (i = c)) as [->|]; [lia|]. pose proof (parent_lt i ltac:(lia)).
    rewrite decide_False by lia. pose proof (Hsib i Hi Hpi ltac:(done)). lia.
  - intros i Hi Hpi. pose proof (parent_lt i ltac:(lia)). rewrite !He.
    rewrite (decide_False (P := CYC_HEAP_PARENT c = c)) by lia. rewrite (decide_True (P := CYC_HEAP_PARENT c = _)) by done.
    destruct (decide (i = c)) as [->|]; [lia|]. rewrite decide_False by lia.
    pose proof (Hsib i Hi Hpi ltac:(done)). lia.
Qed.

(** What [cyclic_upheap] makes of the heap [h0] whose entry [x] at [c0] may
    be out of place: either it finds the entry late enough and leaves the
    heap alone, or the result is a heap. *)
Definition upheap_post (cs : list cyclic_t) (h0 : list nat) (n c0 x : nat)
    (r : list nat * bool) : Prop :=
  permutes n h0 r.1 ∧
  ((r = (h0, false) ∧ above_ok cs h0 c0) ∨
   (heap_ok cs r.1 n ∧ r.1 !! c0 = h0 !! CYC_HEAP_PARENT c0 ∧
    r.1 !! 0%nat = if r.2 then Some x else h0 !! 0%nat)).

Definition upheap_inv (cs : list cyclic_t) (h0 : list nat) (n c0 x : nat)
    (s : list nat * nat * nat) : Prop :=
  let '(h, c, p) := s in
  p = CYC_HEAP_PARENT c ∧ (0 < c < n)%nat ∧ permutes n h0 h ∧ heap_but cs h n c ∧
  h !! c = Some x ∧ h !! 0%nat = h0 !! 0%nat ∧
  ((c = c0 ∧ h = h0) ∨
   (below_ok cs h n c ∧ (c < c0)%nat ∧ h !! c0 = h0 !! CYC_HEAP_PARENT c0)).

Lemma upheap_inv_swap cs h0 n c0 x h c y :
  upheap_inv cs h0 n c0 x (h, c, CYC_HEAP_PARENT c) →
  h !! CYC_HEAP_PARENT c = Some y →
  expire_at cs h c < expire_at cs h (CYC_HEAP_PARENT c) →
  let h' := <[c := y]> (<[CYC_HEAP_PARENT c := x]> h) in
  permutes n h0 h' ∧ heap_but cs h' n (CYC_HEAP_PARENT c) ∧
  below_ok cs h' n (CYC_HEAP_PARENT c) ∧ h' !! CYC_HEAP_PARENT c = Some x ∧
  h' !! c0 = h0 !! CYC_HEAP_PARENT c0 ∧
  ((0 < CYC_HEAP_PARENT c)%nat → h' !! 0%nat = h0 !! 0%nat).
Proof.
  intros (_ & Hc & Hperm & Hbut & Hx & H0 & Hor) Hy Hlt h'.
  pose proof (parent_lt c ltac:(lia)). destruct (swap_up cs h n c x y) as [? ?]; [done..|].
  assert (∀ i, h' !! i = if decide (i = c) then Some y else
            if decide (i = CYC_HEAP_PARENT c) then Some x else h !! i) as Hl
    by (intros i; apply swap_lookup; first [done|lia]).
  split_and!; try done.
  - eapply permutes_trans; [done|]. apply swap_permutes; first [done|lia].
  - rewrite Hl, decide_False, decide_True; [done|done|lia].
  - rewrite Hl. destruct Hor as [[-> ->]|(_ & Hc0 & Hl0)].
    + by rewrite decide_True.
    + rewrite !decide_False by lia. done.
  - intros Hp. rewrite Hl, !decide_False by lia. done.
Qed.

Lemma upheap_step_ok cs h0 n c0 x s :
  (n <= length h0)%nat → heap_in cs h0 → upheap_inv cs h0 n c0 x s →
  ∃ l, upheap_step cs s = Some l ∧
    match l with
    | Next s' => upheap_inv cs h0 n c0 x s' ∧ (s'.1.2 < s.1.2)%nat
    | Return r => upheap_post cs h0 n c0 x r
    end.
Proof.
  destruct s as [[h c] p]. intros Hn Hin Hinv. pose proof Hinv as (-> & Hc & Hperm & Hbut & Hx & H0 & Hor).
  pose proof (parent_lt c ltac:(lia)) as Hpc.
  pose proof (permutes_heap_in cs _ _ _ Hperm Hin) as Hin'.
  pose proof (permutes_length _ _ _ Hperm) as Hlen.
  destruct (heap_in_lookup cs h c Hin' ltac:(lia)) as (k & cc & Hk & Hcc).
  destruct (heap_in_lookup cs h (CYC_HEAP_PARENT c) Hin' ltac:(lia)) as (y & cp & Hy & Hcp).
  assert (k = x) as -> by congruence.
  unfold upheap_step, rd. rewrite Hk, Hy, Hcc, Hcp.
  pose proof (expire_at_lookup _ _ _ _ _ Hk Hcc) as Ec. pose proof (expire_at_lookup _ _ _ _ _ Hy Hcp) as Ep.
  destruct (Z.geb_spec (cy_expire cc) (cy_expire cp)) as [Hge|Hlt].
  - eexists. split; [done|]. split; [done|]. destruct Hor as [[-> ->]|(Hb & Hlt & Hl)].
    + left. split; [done|]. intros _. lia.
    + right. split_and!; [|done|done]. apply (heap_ok_but cs h n c); [done|done|]. intros _. lia.
  - rewrite wr_lt, wr_lt by (rewrite ?length_insert; lia).
    destruct (upheap_inv_swap cs h0 n c0 x h c y Hinv Hy ltac:(lia)) as (? & ? & ? & ? & Hc0 & Hz).
    destruct (Nat.eqb_spec (CYC_HEAP_PARENT c) 0) as [E|E]; eexists; (split; [done|]).
    + split; [done|]. right. split_and!; cbn [fst snd]; [|done|by rewrite <- E].
      eapply heap_ok_but; [done|done|]. rewrite E. intros ?; lia.
    + split; [|cbn [fst snd]; lia]. unfold upheap_inv. split_and!; try done; try lia; [apply Hz; lia|].
      right. split_and!; [done| |done]. destruct Hor as [[-> ->]|(? & ? & ?)]; lia.
Qed.

(** [cyclic_upheap] returns, touches only the heap, and its result has
    [upheap_post]. *)
Lemma upheap_spec cpu ndx x :
  (cyp_nelems cpu <= length (cyp_heap cpu))%nat → heap_in (cyp_cyclics cpu) (cyp_heap cpu) →
  (0 < ndx < cyp_nelems cpu)%nat → cyp_heap cpu !! ndx = Some x →
  heap_but (cyp_cyclics cpu) (cyp_heap cpu) (cyp_nelems cpu) ndx →
  ∃ h b, cyclic_upheap cpu ndx = Some (with_heap cpu h, b) ∧
    upheap_post (cyp_cyclics cpu) (cyp_heap cpu) (cyp_nelems cpu) ndx x (h, b).
Proof.
  intros Hn Hin Hndx Hx Hbut. unfold cyclic_upheap. rewrite (proj2 (Nat.eqb_neq ndx 0)) by lia.
  destruct (run_total (upheap_step (cyp_cyclics cpu))
    (upheap_inv (cyp_cyclics cpu) (cyp_heap cpu) (cyp_nelems cpu) ndx x)
    (upheap_post (cyp_cyclics cpu) (cyp_heap cpu) (cyp_nelems cpu) ndx x) (λ s, s.1.2)) with
    (fuel := S ndx) (s := (cyp_heap cpu, ndx, CYC_HEAP_PARENT ndx)) as ([h b] & -> & Hpost).
  - intros s Hs. by apply upheap_step_ok.
  - split_and!; first [done|lia|by left].
  - cbn. lia.
  - by exists h, b.
Qed.

(** ** [cyclic_downheap] *)

(** Exchanging an element with the earlier of its children, when that child
    expires before it, moves the break down. *)
Lemma swap_down cs h n m d x y :
  (0 < d < n)%nat → CYC_HEAP_PARENT d = m → h !! m = Some x → h !! d = Some y →
  heap_but cs h n m → above_ok cs h m →
  expire_at cs h d < expire_at cs h m →
  (∀ i, (0 < i < n)%nat → CYC_HEAP_PARENT i = m → expire_at cs h d <= expire_at cs h i) →
  let h' := <[m := y]> (<[d := x]> h) in
  heap_but cs h' n d ∧ above_ok cs h' d.
Proof.
  intros Hd Hm Hx Hy [H1 H2] Hab Hlt Hmin h'. pose proof (parent_lt d ltac:(lia)) as Hpd.
  assert (∀ i, expire_at cs h' i = if decide (i = m) then expire_at cs h d
     else if decide (i = d) then expire_at cs h m else expire_at cs h i) as He
    by (intros i; apply swap_expire; first [done|lia]).
  split; [split|].
  - intros i Hi Hne Hnp. rewrite !He. pose proof (parent_lt i ltac:(lia)).
    rewrite (decide_False (P := i = d)), (decide_False (P := CYC_HEAP_PARENT i = d)) by done.
    destruct (decide (i = m)) as [->|].
    + rewrite decide_False by lia. apply H2; lia.
    + destruct (decide (CYC_HEAP_PARENT i = m)) as [Hpm|]; [by apply Hmin|by apply H1].
  - intros i Hi _ Hpi. pose proof (parent_lt i ltac:(lia)). rewrite Hm, !He, decide_True by done.
    rewrite !decide_False by lia. rewrite <- Hpi. apply H1; lia.
  - intros _. rewrite Hm, !He, decide_True by done. rewrite decide_False, decide_True by lia. lia.
Qed.

Definition downheap_inv (cs : list cyclic_t) (h0 : list nat) (n i0 : nat) (s : list nat * nat) : Prop :=
  (i0 <= s.2 < n)%nat ∧ permutes n h0 s.1 ∧ heap_but cs s.1 n s.2 ∧ above_ok cs s.1 s.2 ∧
  ∀ j, (j < i0)%nat → s.1 !! j = h0 !! j.

(** The result: a heap, with nothing above the start [i0] touched. *)
Definition downheap_post (cs : list cyclic_t) (h0 : list nat) (n i0 : nat) (h : list nat) : Prop :=
  permutes n h0 h ∧ heap_ok cs h n ∧ ∀ j, (j < i0)%nat → h !! j = h0 !! j.

(** Descending into the child [d]. *)
Lemma downheap_inv_swap cs h0 n i0 h m d x y :
  downheap_inv cs h0 n i0 (h, m) → (0 < d < n)%nat → CYC_HEAP_PARENT d = m →
  h !! m = Some x → h !! d = Some y → expire_at cs h d < expire_at cs h m →
  (∀ i, (0 < i < n)%nat → CYC_HEAP_PARENT i = m → expire_at cs h d <= expire_at cs h i) →
  downheap_inv cs h0 n i0 (<[m := y]> (<[d := x]> h), d) ∧ (n - d < n - m)%nat.
Proof.
  intros (Hm & Hperm & Hbut & Hab & Hj0) Hd Hpd Hx Hy Hlt Hmin. cbn [fst snd] in *.
  pose proof (parent_lt d ltac:(lia)). destruct (swap_down cs h n m d x y) as [? ?]; [done..|].
  split; [|lia]. split_and!; cbn [fst snd]; try done; try lia.
  - eapply permutes_trans; [done|]. apply swap_permutes; first [done|lia].
  - intros j Hj. rewrite !list_lookup_insert_ne by lia. by apply Hj0.
Qed.

(** Stopping at [m]. *)
Lemma downheap_stop cs h0 n i0 h m :
  downheap_inv cs h0 n i0 (h, m) →
  (∀ i, (0 < i < n)%nat → CYC_HEAP_PARENT i = m → expire_at cs h m <= expire_at cs h i) →
  downheap_post cs h0 n i0 h.
Proof. intros (Hm & Hperm & Hbut & Hab & Hj0) Hb. split_and!; [done| |done]. by apply (heap_ok_but cs h n m). Qed.

Lemma downheap_step_ok cs h0 n i0 s :
  (n <= length h0)%nat → heap_in cs h0 → downheap_inv cs h0 n i0 s →
  ∃ l, downheap_step cs n s = Some l ∧
    match l with
    | Next s' => downheap_inv cs h0 n i0 s' ∧ (n - s'.2 < n - s.2)%nat
    | Return h => downheap_post cs h0 n i0 h
    end.
Proof.
  destruct s as [h m]. intros Hn Hin Hinv. pose proof Hinv as (Hm & Hperm & Hbut & Hab & _). cbn [fst snd] in *.
  pose proof (permutes_heap_in cs _ _ _ Hperm Hin) as Hin'.
  pose proof (permutes_length _ _ _ Hperm) as Hlen.
  unfold downheap_step. pose proof (left_eq m) as HL. pose proof (right_eq m) as HR.
  assert (∀ i, (0 < i < n)%nat → CYC_HEAP_PARENT i = m → i = CYC_HEAP_LEFT m ∨ i = CYC_HEAP_RIGHT m) as Hch
    by (intros i Hi Hp; apply parent_child in Hp; lia).
  assert (CYC_HEAP_PARENT (CYC_HEAP_LEFT m) = m) as HpL by (apply parent_child; lia).
  assert (CYC_HEAP_PARENT (CYC_HEAP_RIGHT m) = m) as HpR by (apply parent_child; lia).
  generalize dependent (CYC_HEAP_LEFT m). generalize dependent (CYC_HEAP_RIGHT m). intros R HR HpR L HL Hch HpL.
  destruct (Nat.leb_spec n L).
  { eexists. split; [done|]. apply (downheap_stop _ _ _ _ _ m); [done|]. intros i Hi Hp.
    destruct (Hch i Hi Hp); lia. }
  unfold rd.
  destruct (heap_in_lookup cs h L Hin' ltac:(lia)) as (l & cl & Hl & Hcl).
  destruct (heap_in_lookup cs h m Hin' ltac:(lia)) as (me & cm & Hme & Hcm).
  pose proof (expire_at_lookup _ _ _ _ _ Hl Hcl) as El. pose proof (expire_at_lookup _ _ _ _ _ Hme Hcm) as Em.
  rewrite Hl, Hme, Hcl, Hcm.
  set (comp_left := if cy_expire cm <=? cy_expire cl then _ else _).
  assert ((∀ i, (0 < i < n)%nat → CYC_HEAP_PARENT i = m → expire_at cs h L <= expire_at cs h i) →
    ∃ r, comp_left = Some r ∧ match r with
      | Next s' => downheap_inv cs h0 n i0 s' ∧ (n - s'.2 < n - m)%nat
      | Return h => downheap_post cs h0 n i0 h end) as Hleft.
  { intros Hmin. unfold comp_left. destruct (Z.leb_spec (cy_expire cm) (cy_expire cl)).
    - eexists. split; [done|]. apply (downheap_stop _ _ _ _ _ m); [done|]. intros i Hi Hp.
      specialize (Hmin i Hi Hp). lia.
    - rewrite wr_lt, wr_lt by (rewrite ?length_insert; lia). eexists. split; [done|].
      apply (downheap_inv_swap cs h0 n i0 h m L me l); try done; lia. }
  clearbody comp_left. destruct (Nat.leb_spec n R).
  { apply Hleft. intros i Hi Hp. destruct (Hch i Hi Hp) as [-> | ->]; lia. }
  destruct (heap_in_lookup cs h R Hin' ltac:(lia)) as (r & cr & Hr & Hcr).
  pose proof (expire_at_lookup _ _ _ _ _ Hr Hcr) as Er. rewrite Hr, Hcr.
  destruct (Z.ltb_spec (cy_expire cr) (cy_expire cl)).
  - destruct (Z.leb_spec (cy_expire cm) (cy_expire cr)).
    + eexists. split; [done|]. apply (downheap_stop _ _ _ _ _ m); [done|]. intros i Hi Hp.
      destruct (Hch i Hi Hp) as [-> | ->]; lia.
    + rewrite wr_lt, wr_lt by (rewrite ?length_insert; lia). eexists. split; [done|].
      apply (downheap_inv_swap cs h0 n i0 h m R me r); try done; try lia. intros i Hi Hp. destruct (Hch i Hi Hp) as [-> | ->]; lia.
  - apply Hleft. intros i Hi Hp. destruct (Hch i Hi Hp) as [-> | ->]; lia.
Qed.

(** [cyclic_downheap] returns, touches only the heap, and makes it one. *)
Lemma downheap_spec cpu ndx :
  (cyp_nelems cpu <= length (cyp_heap cpu))%nat → heap_in (cyp_cyclics cpu) (cyp_heap cpu) →
  (ndx < cyp_nelems cpu)%nat →
  heap_but (cyp_cyclics cpu) (cyp_heap cpu) (cyp_nelems cpu) ndx →
  above_ok (cyp_cyclics cpu) (cyp_heap cpu) ndx →
  ∃ h, cyclic_downheap cpu ndx = Some (with_heap cpu h) ∧
    downheap_post (cyp_cyclics cpu) (cyp_heap cpu) (cyp_nelems cpu) ndx h.
Proof.
  intros Hn Hin Hndx Hbut Hab. unfold cyclic_downheap.
  destruct (run_total (downheap_step (cyp_cyclics cpu) (cyp_nelems cpu))
    (downheap_inv (cyp_cyclics cpu) (cyp_heap cpu) (cyp_nelems cpu) ndx)
    (downheap_post (cyp_cyclics cpu) (cyp_heap cpu) (cyp_nelems cpu) ndx)
    (λ s, cyp_nelems cpu - s.2)%nat) with
    (fuel := S (cyp_nelems cpu - ndx)) (s := (cyp_heap cpu, ndx)) as (h & -> & Hpost).
  - intros s Hs. by apply downheap_step_ok.
  - split_and!; first [done|lia].
  - cbn. lia.
  - by exists h.
Qed.
