(* ===== verification/Cyclic.v ===== *)
(** * The cyclic subsystem on one CPU (uts/common/os/cyclic.c)

    The operations that run at [CY_HIGH_LEVEL] on a CPU: [cyclic_expire] and
    [cyclic_fire] (the timer interrupt), and the cross calls that add a
    cyclic, remove one, grow the arrays, suspend and resume the CPU.  All of
    them are atomic with respect to the soft interrupts of the CPU.  The
    calls to the backend and to the handlers are the events an operation
    produces, in order. *)

From Stdlib Require Import ZArith Lia.
From stdpp Require Import base numbers option list.
From S2P Require Import Prelude CyclicHeap.

#[local] Open Scope Z_scope.

(** ** Events *)

Inductive event :=
  | EvHandler (level : nat) (func arg : Z)
  | EvSoftint (level : nat)
  | EvReprogram (time : Z)
  | EvEnable
  | EvDisable
  | EvSuspend
  | EvResume.

#[export] Instance event_eq_dec : EqDecision event.
Proof. solve_decision. Defined.

Definition NANOSEC : Z := 1000000000.
Definition UINT32_MAX : Z := 0xffffffff.

(** [softbuf->cys_buf[b]]. *)
Definition cys_buf (sb : cyc_softbuf) (b : bool) : cyc_pcbuffer :=
  if b then cys_buf1 sb else cys_buf0 sb.

Definition set_cys_buf (sb : cyc_softbuf) (b : bool) (pc : cyc_pcbuffer) : cyc_softbuf :=
  if b then SoftBuf (cys_hard sb) (cys_soft sb) (cys_buf0 sb) pc
  else SoftBuf (cys_hard sb) (cys_soft sb) pc (cys_buf1 sb).

(** ** Expiration *)

(** [pc->cypc_buf[pc->cypc_prodndx++ & pc->cypc_sizemask] = ndx] *)
Definition pc_produce (pc : cyc_pcbuffer) (ndx : nat) : option cyc_pcbuffer :=
  let! buf := cypc_buf pc in
  let! buf := wr buf (Z.to_nat (Z.land (cypc_prodndx pc) (cypc_sizemask pc))) ndx in
  Some (PcBuffer (Some buf) (s32 (cypc_prodndx pc + 1)) (cypc_consndx pc) (cypc_sizemask pc)).

Definition cyclic_expire (cpu : cyc_cpu) (ndx : nat) : option (cyc_cpu * list event) :=
  let! cyclic := rd (cyp_cyclics cpu) ndx in
  let level := cy_level cyclic in
  if (level =? CY_HIGH_LEVEL)%nat then
    Some (cpu, [EvHandler CY_HIGH_LEVEL (cy_handler cyclic) (cy_arg cyclic)])
  else
    let pend := u32 (cy_pend cyclic + 1) in
    let! cpu :=
      if cy_pend cyclic =? 0 then
        let! softbuf := rd (cyp_softbuf cpu) level in
        let! pc := pc_produce (cys_buf softbuf (cys_hard softbuf)) ndx in
        let! sbs := wr (cyp_softbuf cpu) level (set_cys_buf softbuf (cys_hard softbuf) pc) in
        let! cs := wr (cyp_cyclics cpu) ndx (with_pend cyclic pend) in
        Some (with_softbuf (with_cyclics cpu cs) sbs)
      else
        let pend := if pend =? 0 then UINT32_MAX else pend in
        let! cs := wr (cyp_cyclics cpu) ndx (with_pend cyclic pend) in
        Some (with_cyclics cpu cs) in
    Some (cpu, [EvSoftint level]).

(** ** The timer interrupt *)

(** The expiration time that follows [exp]: one interval later, or the next
    interval boundary when that is in the distant past. *)
Definition next_exp (now exp interval : Z) : Z :=
  let exp := s64 (exp + interval) in
  if s64 (now - exp) >? NANOSEC then
    s64 (exp + s64 (s64 (Z.quot (s64 (now - exp)) interval + 1) * interval))
  else exp.

Definition fire_step (now : Z) (s : cyc_cpu * list event) :
    option (loop (cyc_cpu * list event) (cyc_cpu * list event)) :=
  let '(cpu, evs) := s in
  let! ndx := rd (cyp_heap cpu) 0 in
  let! cyclic := rd (cyp_cyclics cpu) ndx in
  let exp := cy_expire cyclic in
  if exp >? now then Some (Return (cpu, evs ++ [EvReprogram exp])) else
  let! (cpu, ev) := cyclic_expire cpu ndx in
  let! cyclic := rd (cyp_cyclics cpu) ndx in
  let exp := next_exp now exp (cy_interval cyclic) in
  let! cs := wr (cyp_cyclics cpu) ndx (with_expire cyclic exp) in
  let! cpu := cyclic_downheap (with_cyclics cpu cs) 0 in
  Some (Next (cpu, evs ++ ev)).

(** How often a cyclic expires in one [cyclic_fire]: once when its next
    expiration is more than a second in the past, and otherwise once for
    each of its expiration times that is not in the future. *)
Definition fires (now : Z) (c : cyclic_t) : nat :=
  if cy_expire c >? now then 0%nat
  else if now - (cy_expire c + cy_interval c) >? NANOSEC then 1%nat
  else Z.to_nat ((now - cy_expire c) `div` cy_interval c + 1).

(** The live cyclics: those the first [cyp_nelems] heap entries name. *)
Definition live (cpu : cyc_cpu) : list nat := take (cyp_nelems cpu) (cyp_heap cpu).

Definition fires_of (now : Z) (cs : list cyclic_t) (k : nat) : nat :=
  match cs !! k with Some c => fires now c | None => 0%nat end.

Definition fire_fuel (now : Z) (cpu : cyc_cpu) : nat :=
  S (sum_list_with (fires_of now (cyp_cyclics cpu)) (live cpu)).

(** [now] is what [gethrtime] returned. *)
Definition cyclic_fire (now : Z) (cpu : cyc_cpu) : option (cyc_cpu * list event) :=
  if (cyp_nelems cpu =? 0)%nat then Some (cpu, []) else
  run (fire_step now) (fire_fuel now cpu) (cpu, []).

(** ** Adding a cyclic *)

Record cyc_handler := CycHandler { cyh_func : Z; cyh_arg : Z; cyh_level : nat }.
Record cyc_time := CycTime { cyt_when : Z; cyt_interval : Z }.

(** The result has the new cyclic's index. *)
Definition cyclic_add_xcall (now : Z) (cpu : cyc_cpu) (hdlr : cyc_handler) (when : cyc_time)
    (flags : Z) : option (cyc_cpu * list event * nat) :=
  let nelems := cyp_nelems cpu in
  let cpu := with_nelems cpu (nelems + 1) in
  let ev := if (nelems =? 0)%nat then [EvEnable] else [] in
  let! ndx := rd (cyp_heap cpu) nelems in
  let! cyclic := rd (cyp_cyclics cpu) ndx in
  let interval := cyt_interval when in
  let expire := if cyt_when when =? 0
                then s64 (s64 (Z.quot now interval + 1) * interval)
                else cyt_when when in
  let! cs := wr (cyp_cyclics cpu) ndx
    (Cyclic expire interval (cyh_func hdlr) (cyh_arg hdlr) (cy_pend cyclic) flags (cyh_level hdlr)) in
  let! (cpu, root) := cyclic_upheap (with_cyclics cpu cs) nelems in
  Some (cpu, ev ++ (if root : bool then [EvReprogram expire] else []), ndx).

(** ** Removing a cyclic *)

(** [for (i = 0; i < nelems; i++) if (heap[i] == ndx) break;] *)
Definition find_step (heap : list nat) (nelems ndx i : nat) : option (loop nat nat) :=
  if (i <? nelems)%nat then
    let! k := rd heap i in
    if (k =? ndx)%nat then Some (Return i) else Some (Next (i + 1)%nat)
  else Some (Return i).

(** The part of [cyclic_remove_xcall] that takes position [i] out of the
    heap.  [nelems] is the new number of elements; the event is the
    reprogramming of the timer when the root changed. *)
Definition remove_heap (cpu : cyc_cpu) (nelems ndx i : nat) : option (cyc_cpu * list event) :=
  let! last := rd (cyp_heap cpu) nelems in
  let! heap := wr (cyp_heap cpu) i last in
  let! heap := wr heap nelems ndx in
  let cpu := with_heap cpu heap in
  let reprog (cpu : cyc_cpu) :=
    let! root := rd (cyp_heap cpu) 0 in
    let! cyclic := rd (cyp_cyclics cpu) root in
    Some (cpu, [EvReprogram (cy_expire cyclic)]) in
  if (i =? 0)%nat then
    let! cpu := cyclic_downheap cpu 0 in
    reprog cpu
  else
    let! (cpu, root) := cyclic_upheap cpu i in
    if root : bool then reprog cpu else
    let! k := rd (cyp_heap cpu) i in
    if (k =? last)%nat then
      let! cpu := cyclic_downheap cpu i in
      Some (cpu, [])
    else Some (cpu, []).

(** [cyx_when] of the cross call gets the cyclic's time.  [None] also stands
    for the panic "attempt to remove non-existent cyclic". *)
Definition cyclic_remove_xcall (cpu : cyc_cpu) (ndx : nat) :
    option (cyc_cpu * list event * cyc_time) :=
  let nelems := cyp_nelems cpu in
  let! cyclic := rd (cyp_cyclics cpu) ndx in
  let when := CycTime (cy_expire cyclic) (cy_interval cyclic) in
  let '(cpu, cyclic) :=
    if cy_pend cyclic =? 0 then (cpu, cyclic)
    else (with_rpend cpu (cy_pend cyclic), with_pend cyclic 0) in
  let! cs := wr (cyp_cyclics cpu) ndx (with_flags cyclic CYF_FREE) in
  let cpu := with_cyclics cpu cs in
  let! i := run (find_step (cyp_heap cpu) nelems ndx) (S nelems) 0%nat in
  if (i =? nelems)%nat then None else
  let nelems := (nelems - 1)%nat in
  let cpu := with_nelems cpu nelems in
  let ev := if (nelems =? 0)%nat then [EvDisable] else [] in
  if (i =? nelems)%nat then Some (cpu, ev, when) else
  let! (cpu, ev') := remove_heap cpu nelems ndx i in
  Some (cpu, ev ++ ev', when).

(** ** Growing the arrays *)

Definition zero_cyclic : cyclic_t := Cyclic 0 0 0 0 0 0 CY_LOW_LEVEL.

Definition flip_hard (sb : cyc_softbuf) : cyc_softbuf :=
  SoftBuf (negb (cys_hard sb)) (cys_soft sb) (cys_buf0 sb) (cys_buf1 sb).

(** [bcopy (src, dst, n)]. *)
Definition bcopy {A} (src dst : list A) (n : nat) : option (list A) :=
  if decide (n <= length src ∧ n <= length dst)%nat then Some (take n src ++ drop n dst) else None.

(** The loop that puts the indices [i, i + n) on the free list. *)
Fixpoint expand_free (i n : nat) (heap : list nat) (cs : list cyclic_t) :
    option (list nat * list cyclic_t) :=
  match n with
  | O => Some (heap, cs)
  | S n =>
      let! heap := wr heap i i in
      let! c := rd cs i in
      let! cs := wr cs i (with_flags c CYF_FREE) in
      expand_free (S i) n heap cs
  end.

(** The cross call of [cyclic_expand]: [new_heap] is the uninitialised array
    [cyclic_expand] allocated and [new_cyclics] the zeroed array, both of
    [new_size] elements.  The result has the old array of cyclics as the call
    leaves it, for the soft interrupts that still hold a pointer to it. *)
Definition cyclic_expand_xcall (cpu : cyc_cpu) (new_size : nat) (new_heap : list nat)
    (new_cyclics : list cyclic_t) : option (cyc_cpu * list cyclic_t * list event) :=
  let size := cyp_size cpu in
  let! new_heap := bcopy (cyp_heap cpu) new_heap size in
  let! new_cyclics := bcopy (cyp_cyclics cpu) new_cyclics size in
  let old := (λ c, with_pend c 0) <$> cyp_cyclics cpu in
  let! (new_heap, new_cyclics) := expand_free size (new_size - size) new_heap new_cyclics in
  let cpu := with_size (with_cyclics (with_heap cpu new_heap) new_cyclics) new_size in
  let cpu := with_softbuf cpu (flip_hard <$> cyp_softbuf cpu) in
  Some (cpu, old, [EvSoftint (CY_HIGH_LEVEL - 1)]).

(** ** Suspend and resume *)

Definition cyclic_suspend_xcall (cpu : cyc_cpu) : cyc_cpu * list event :=
  let ev := if (0 <? cyp_nelems cpu)%nat then [EvDisable] else [] in
  let cpu := if decide (cyp_state cpu = CYS_ONLINE) then with_state cpu CYS_SUSPENDED else cpu in
  (cpu, ev ++ [EvSuspend]).

Definition cyclic_resume_xcall (cpu : cyc_cpu) : option (cyc_cpu * list event) :=
  let state := cyp_state cpu in
  let! ev :=
    if (0 <? cyp_nelems cpu)%nat then
      let! root := rd (cyp_heap cpu) 0 in
      let! cyclic := rd (cyp_cyclics cpu) root in
      Some [EvEnable; EvReprogram (cy_expire cyclic)]
    else Some [] in
  let cpu := if decide (state = CYS_SUSPENDED) then with_state cpu CYS_ONLINE else cpu in
  Some (cpu, EvResume :: ev).

(** ** A newly configured CPU *)

(** [junk] is the uninitialised content of the soft buffers' single entry. *)
Definition cyclic_configure (junk : nat) : cyc_cpu :=
  let sb := SoftBuf false false (PcBuffer (Some [junk]) 0 0 0) (PcBuffer None 0 0 0) in
  CycCpu [0%nat] [with_flags zero_cyclic CYF_FREE] 0 1 CYS_OFFLINE
    (replicate CY_SOFT_LEVELS sb) 0 0 0.

(** ** The producer-consumer buffers

    [queue_at l mask st sp q]: between the indices [st] and [sp], the buffer
    [l] holds the queue [q].  The indices are C ints that wrap around. *)

Record queue_at (l : list nat) (mask st sp : Z) (q : list nat) : Prop := {
  qa_pow : ∃ k, 0 <= k <= 30 ∧ Z.of_nat (length l) = 2 ^ k;
  qa_mask : mask = Z.of_nat (length l) - 1;
  qa_st : st = s32 st;
  qa_sp : sp = s32 (st + Z.of_nat (length q));
  qa_len : (length q <= length l)%nat;
  qa_get : ∀ j x, q !! j = Some x → l !! Z.to_nat ((st + Z.of_nat j) `mod` Z.of_nat (length l)) = Some x
}.

Section queues.
Context (l : list nat) (mask st sp : Z) (q : list nat) (Hq : queue_at l mask st sp q).

Lemma queue_pos : 0 < Z.of_nat (length l) <= 2 ^ 30.
Proof.
  destruct (qa_pow _ _ _ _ _ Hq) as (k & Hk & ->). split; [lia|].
  apply Z.pow_le_mono_r; lia.
Qed.

(** The slot of an index. *)
Lemma queue_slot x : Z.land (s32 x) mask = x `mod` Z.of_nat (length l).
Proof.
  destruct (qa_pow _ _ _ _ _ Hq) as (k & Hk & Hl). rewrite (qa_mask _ _ _ _ _ Hq), Hl.
  replace (2 ^ k - 1) with (Z.ones k) by (rewrite Z.ones_equiv; lia).
  rewrite Z.land_ones by lia. apply wraps_mod; lia.
Qed.

Lemma queue_slot_lt x : (Z.to_nat (x `mod` Z.of_nat (length l)) < length l)%nat.
Proof. pose proof queue_pos. pose proof (Z.mod_pos_bound x (Z.of_nat (length l))). lia. Qed.

(** Empty exactly when the indices agree. *)
Lemma queue_empty : st = sp ↔ q = [].
Proof.
  pose proof queue_pos as Hpos. rewrite (qa_sp _ _ _ _ _ Hq). split.
  - intros Heq. rewrite (qa_st _ _ _ _ _ Hq) in Heq at 1. pose proof (qa_len _ _ _ _ _ Hq).
    apply wraps_inj_small in Heq; [|lia|lia]. destruct q; [done|cbn in *; lia].
  - intros ->. cbn. rewrite Z.add_0_r. apply (qa_st _ _ _ _ _ Hq).
Qed.

(** The producer's write. *)
Lemma queue_produce x :
  (length q < length l)%nat →
  queue_at (<[Z.to_nat (Z.land sp mask) := x]> l) mask st (s32 (sp + 1)) (q ++ [x]).
Proof.
  intros Hlt. pose proof queue_pos as Hpos. rewrite (qa_sp _ _ _ _ _ Hq), queue_slot.
  pose proof (qa_len _ _ _ _ _ Hq). constructor; rewrite ?length_insert.
  - apply (qa_pow _ _ _ _ _ Hq).
  - apply (qa_mask _ _ _ _ _ Hq).
  - apply (qa_st _ _ _ _ _ Hq).
  - rewrite wraps_wraps_add, length_app by lia. cbn. f_equal. lia.
  - rewrite length_app. cbn. lia.
  - intros j y Hj. destruct (decide (j = length q)) as [->|Hne].
    + rewrite list_lookup_middle in Hj by done. injection Hj as <-.
      apply list_lookup_insert_eq, queue_slot_lt.
    + assert (j < length q)%nat as Hjl by (apply lookup_lt_Some in Hj; rewrite length_app in Hj; cbn in Hj; lia).
      rewrite lookup_app_l in Hj by lia. rewrite list_lookup_insert_ne; [by apply (qa_get _ _ _ _ _ Hq)|].
      pose proof (Z.mod_pos_bound (st + Z.of_nat j) (Z.of_nat (length l)) ltac:(lia)).
      pose proof (Z.mod_pos_bound (st + Z.of_nat (length q)) (Z.of_nat (length l)) ltac:(lia)).
      intros Heq. apply Z2Nat.inj in Heq; [|lia|lia].
      apply mod_eq_close in Heq; lia.
Qed.
End queues.

(** The consumer's read and step. *)
Lemma queue_consume l mask st sp x q :
  queue_at l mask st sp (x :: q) →
  l !! Z.to_nat (Z.land st mask) = Some x ∧ queue_at l mask (s32 (st + 1)) sp q.
Proof.
  intros Hq. split.
  - pose proof (qa_get _ _ _ _ _ Hq 0 x eq_refl) as H0. rewrite Z.add_0_r in H0.
    by rewrite (qa_st _ _ _ _ _ Hq), (queue_slot _ _ _ _ _ Hq).
  - constructor.
    + apply (qa_pow _ _ _ _ _ Hq).
    + apply (qa_mask _ _ _ _ _ Hq).
    + by rewrite wraps_idemp.
    + rewrite (qa_sp _ _ _ _ _ Hq), wraps_wraps_add by lia. cbn [length]. f_equal. lia.
    + pose proof (qa_len _ _ _ _ _ Hq). cbn [length] in *. lia.
    + intros j y Hj. pose proof (qa_get _ _ _ _ _ Hq (S j) y Hj) as HS. rewrite <- HS. f_equal. f_equal.
      destruct (qa_pow _ _ _ _ _ Hq) as (k & Hk & ->).
      rewrite Z.add_mod, wraps_mod, <- Z.add_mod by lia. f_equal. lia.
Qed.

(** ** Invariants *)

(** A cyclic that is in the heap. *)
Record cyc_ok (c : cyclic_t) : Prop := {
  co_flags : Z.land (cy_flags c) CYF_FREE = 0;
  co_interval : 0 < cy_interval c;
  co_level : (cy_level c <= CY_HIGH_LEVEL)%nat;
  co_pend : 0 <= cy_pend c <= UINT32_MAX;
  co_high : cy_level c = CY_HIGH_LEVEL → cy_pend c = 0
}.

(** The heap is a permutation of the indices of the cyclics array; its first
    [cyp_nelems] entries are the live cyclics in heap order, the others the
    free list. *)
Record heap_wf (cpu : cyc_cpu) : Prop := {
  hw_cyc : length (cyp_cyclics cpu) = cyp_size cpu;
  hw_perm : cyp_heap cpu ≡ₚ seq 0 (cyp_size cpu);
  hw_nelems : (cyp_nelems cpu <= cyp_size cpu)%nat;
  hw_heap : heap_ok (cyp_cyclics cpu) (cyp_heap cpu) (cyp_nelems cpu);
  hw_live : ∀ k, k ∈ live cpu → ∃ c, cyp_cyclics cpu !! k = Some c ∧ cyc_ok c;
  hw_free : ∀ k, k ∈ drop (cyp_nelems cpu) (cyp_heap cpu) →
    ∃ c, cyp_cyclics cpu !! k = Some c ∧ cy_flags c = CYF_FREE ∧ cy_pend c = 0
}.

(** A producer-consumer buffer holds [q] from index [st] on. *)
Definition pc_queue (pc : cyc_pcbuffer) (st : Z) (q : list nat) : Prop :=
  ∃ l, cypc_buf pc = Some l ∧ queue_at l (cypc_sizemask pc) st (cypc_prodndx pc) q.

(** The soft buffer of a level holds the queue [q1 ++ q2]: [q2] is in the
    buffer the timer interrupt writes; [q1] is in the buffer the soft
    interrupt still reads, when a resize has switched the former. *)
Definition softbuf_ok (sb : cyc_softbuf) (size : nat) (st : Z) (q1 q2 : list nat) : Prop :=
  (∃ l, cypc_buf (cys_buf sb (cys_hard sb)) = Some l ∧ length l = size) ∧
  if bool_decide (cys_hard sb = cys_soft sb)
  then q1 = [] ∧ pc_queue (cys_buf sb (cys_hard sb)) st q2
  else pc_queue (cys_buf sb (cys_soft sb)) st q1 ∧
       pc_queue (cys_buf sb (cys_hard sb)) (cypc_consndx (cys_buf sb (cys_hard sb))) q2.

(** The cyclic at [k] waits for the soft interrupt of [lev]. *)
Definition pending (cs : list cyclic_t) (lev k : nat) : Prop :=
  ∃ c, cs !! k = Some c ∧ cy_level c = lev ∧ 0 < cy_pend c.

(** The queues of the soft levels hold each pending cyclic of their level
    once, and besides only the cyclic [rm] that was removed while pending. *)
Record soft_inv (cpu : cyc_cpu) (rm : option (nat * nat)) (st : nat → Z)
    (q1 q2 : nat → list nat) : Prop := {
  si_buf : ∀ lev, (lev < CY_SOFT_LEVELS)%nat → ∃ sb, cyp_softbuf cpu !! lev = Some sb ∧
    softbuf_ok sb (cyp_size cpu) (st lev) (q1 lev) (q2 lev);
  si_nodup : ∀ lev, (lev < CY_SOFT_LEVELS)%nat → NoDup (q1 lev ++ q2 lev);
  si_elem : ∀ lev k, (lev < CY_SOFT_LEVELS)%nat →
    k ∈ q1 lev ++ q2 lev ↔ pending (cyp_cyclics cpu) lev k ∨ rm = Some (lev, k);
  si_rm : ∀ lev k, rm = Some (lev, k) → (k < cyp_size cpu)%nat ∧ k ∉ live cpu
}.

Section heap_wf.
Context (cpu : cyc_cpu) (Hwf : heap_wf cpu).

Lemma hw_len : length (cyp_heap cpu) = cyp_size cpu.
Proof. by rewrite (hw_perm cpu Hwf), length_seq. Qed.

Lemma hw_nodup : NoDup (cyp_heap cpu).
Proof. rewrite (hw_perm cpu Hwf). apply NoDup_ListNoDup, seq_NoDup. Qed.

Lemma hw_in : heap_in (cyp_cyclics cpu) (cyp_heap cpu).
Proof.
  unfold heap_in. rewrite (hw_perm cpu Hwf), Forall_forall. intros k Hk.
  rewrite elem_of_seq in Hk. rewrite (hw_cyc cpu Hwf). lia.
Qed.

Lemma live_lookup i k : (i < cyp_nelems cpu)%nat → cyp_heap cpu !! i = Some k → k ∈ live cpu.
Proof. intros Hi Hk. apply list_elem_of_lookup. exists i. unfold live. by rewrite lookup_take_lt. Qed.

Lemma live_index k : k ∈ live cpu → ∃ i, (i < cyp_nelems cpu)%nat ∧ cyp_heap cpu !! i = Some k.
Proof.
  intros Hk. apply list_elem_of_lookup in Hk as [i Hi]. apply lookup_take_Some in Hi as [? ?]. eauto.
Qed.

Lemma live_nodup : NoDup (live cpu).
Proof. eapply sublist_NoDup; [apply hw_nodup|]. apply sublist_take. Qed.

Lemma live_not_free k : k ∈ live cpu → k ∉ drop (cyp_nelems cpu) (cyp_heap cpu).
Proof.
  intros Hl Hd. pose proof hw_nodup as Hnd. rewrite <- (take_drop (cyp_nelems cpu) (cyp_heap cpu)) in Hnd.
  apply NoDup_app in Hnd as (_ & Hnd & _). by apply (Hnd k).
Qed.

Lemma live_or_free k :
  (k < cyp_size cpu)%nat → k ∈ live cpu ∨ k ∈ drop (cyp_nelems cpu) (cyp_heap cpu).
Proof.
  intros Hk. apply elem_of_app. unfold live. rewrite take_drop, (hw_perm cpu Hwf).
  apply elem_of_seq. lia.
Qed.
End heap_wf.

Lemma live_permutes cpu cpu' :
  cyp_nelems cpu' = cyp_nelems cpu → permutes (cyp_nelems cpu) (cyp_heap cpu) (cyp_heap cpu') →
  live cpu' ≡ₚ live cpu.
Proof. intros Hn [Hp _]. unfold live. by rewrite Hn. Qed.

(** ** One expiration *)

(** The pend count after an expiration: high level cyclics have none, and the
    others' sticks at its maximum. *)
Definition bump_pend (c : cyclic_t) : Z :=
  if (cy_level c =? CY_HIGH_LEVEL)%nat then cy_pend c else Z.min (cy_pend c + 1) UINT32_MAX.

(** What an expiration asks for: the handler, or the soft interrupt that
    will call it. *)
Definition expire_event (c : cyclic_t) : event :=
  if (cy_level c =? CY_HIGH_LEVEL)%nat then EvHandler CY_HIGH_LEVEL (cy_handler c) (cy_arg c)
  else EvSoftint (cy_level c).

Lemma nodup_bound (l : list nat) n : NoDup l → (∀ x, x ∈ l → (x < n)%nat) → (length l <= n)%nat.
Proof.
  intros Hnd Hb. rewrite <- (length_seq n 0). apply submseteq_length, NoDup_submseteq; [done|].
  intros x Hx. apply elem_of_seq. specialize (Hb x Hx). lia.
Qed.

(** [soft_inv] depends only on the soft buffers, the pending cyclics and the
    live indices. *)
Lemma soft_inv_ext cpu cpu' rm st q1 q2 :
  cyp_softbuf cpu' = cyp_softbuf cpu → cyp_size cpu' = cyp_size cpu →
  (∀ lev k, pending (cyp_cyclics cpu') lev k ↔ pending (cyp_cyclics cpu) lev k) →
  (∀ k, k ∈ live cpu' → k ∈ live cpu) →
  soft_inv cpu rm st q1 q2 → soft_inv cpu' rm st q1 q2.
Proof.
  intros Hsb Hsz Hp Hl [H1 H2 H3 H4]. constructor.
  - by rewrite Hsb, Hsz.
  - done.
  - intros lev k Hlev. by rewrite Hp, H3.
  - intros lev k Hrm. rewrite Hsz. destruct (H4 lev k Hrm). naive_solver.
Qed.

(** Updating a cyclic changes only its own pending state. *)
Lemma pending_insert cs k c' lev k' :
  (k < length cs)%nat →
  pending (<[k := c']> cs) lev k' ↔
    if decide (k' = k) then cy_level c' = lev ∧ 0 < cy_pend c' else pending cs lev k'.
Proof.
  intros Hk. unfold pending. destruct (decide (k' = k)) as [->|Hne].
  - rewrite list_lookup_insert_eq by done. naive_solver.
  - by rewrite list_lookup_insert_ne.
Qed.

Lemma pending_insert_same cs k c c' :
  cs !! k = Some c → cy_level c' = cy_level c → (0 < cy_pend c' ↔ 0 < cy_pend c) →
  ∀ lev k', pending (<[k := c']> cs) lev k' ↔ pending cs lev k'.
Proof.
  intros Hk Hl Hp lev k'. rewrite pending_insert by by eapply lookup_lt_Some.
  destruct (decide (k' = k)) as [->|]; [|done]. unfold pending. rewrite Hl, Hp, Hk. naive_solver.
Qed.

(** All the producer changes of a soft buffer: the content and the producer
    index of the buffer it writes. *)
Definition sb_produced (sb sb' : cyc_softbuf) : Prop :=
  cys_hard sb' = cys_hard sb ∧ cys_soft sb' = cys_soft sb ∧
  cys_buf sb' (negb (cys_hard sb)) = cys_buf sb (negb (cys_hard sb)) ∧
  cypc_consndx (cys_buf sb' (cys_hard sb)) = cypc_consndx (cys_buf sb (cys_hard sb)) ∧
  cypc_sizemask (cys_buf sb' (cys_hard sb)) = cypc_sizemask (cys_buf sb (cys_hard sb)).

Definition sbs_produced (sbs sbs' : list cyc_softbuf) : Prop :=
  length sbs' = length sbs ∧
  ∀ lev sb', sbs' !! lev = Some sb' → ∃ sb, sbs !! lev = Some sb ∧ sb_produced sb sb'.

Lemma sbs_produced_refl sbs : sbs_produced sbs sbs.
Proof. split; [done|]. intros lev sb Hsb. by exists sb. Qed.

Lemma sbs_produced_trans sbs1 sbs2 sbs3 :
  sbs_produced sbs1 sbs2 → sbs_produced sbs2 sbs3 → sbs_produced sbs1 sbs3.
Proof.
  intros [L1 H1] [L2 H2]. split; [congruence|]. intros lev sb3 Hsb3. destruct (H2 lev sb3 Hsb3) as (sb2 & Hsb2 & E1 & E2 & E3 & E4 & E5).
  destruct (H1 lev sb2 Hsb2) as (sb1 & Hsb1 & F1 & F2 & F3 & F4 & F5). exists sb1.
  rewrite F1 in E1, E3, E4, E5. split_and!; [done|split_and!; congruence].
Qed.

(** The producer's side of a soft buffer. *)
Lemma softbuf_ok_produce sb size st q1 q2 k :
  softbuf_ok sb size st q1 q2 → (length q2 < size)%nat →
  ∃ pc, pc_produce (cys_buf sb (cys_hard sb)) k = Some pc ∧
    softbuf_ok (set_cys_buf sb (cys_hard sb) pc) size st q1 (q2 ++ [k]) ∧
    sb_produced sb (set_cys_buf sb (cys_hard sb) pc).
Proof.
  intros [(l & Hl & Hlen) Hor] Hlt.
  assert (∃ s, pc_queue (cys_buf sb (cys_hard sb)) s q2 ∧
     (cys_hard sb = cys_soft sb → s = st) ∧
     (cys_hard sb ≠ cys_soft sb → s = cypc_consndx (cys_buf sb (cys_hard sb)))) as (s & (l' & Hl' & Hq) & Hs1 & Hs2).
  { destruct (bool_decide_reflect (cys_hard sb = cys_soft sb)).
    - exists st. split; [apply Hor|done].
    - eexists. split; [apply Hor|done]. }
  assert (l' = l) as -> by congruence. unfold pc_produce. rewrite Hl.
  pose proof (qa_sp _ _ _ _ _ Hq) as Hsp.
  rewrite wr_lt by (rewrite Hsp, (queue_slot _ _ _ _ _ Hq); by eapply queue_slot_lt).
  eexists. split; [done|]. pose proof (queue_produce _ _ _ _ _ Hq k ltac:(lia)) as Hq'.
  split; [|by destruct sb as [[] ? ? ?]]. split.
  - eexists. split; [by destruct sb as [[] ? ? ?]|]. by rewrite length_insert.
  - destruct sb as [hard soft b0 b1]. cbn [cys_hard cys_soft] in *.
    destruct hard, soft; cbn in *; (split; [by destruct Hor|]);
      eexists; (split; [done|]); cbn; first [rewrite <- Hs1 by done|rewrite <- Hs2 by done]; done.
Qed.

Lemma si_elem_lt cpu rm st q1 q2 lev k :
  heap_wf cpu → soft_inv cpu rm st q1 q2 → (lev < CY_SOFT_LEVELS)%nat →
  k ∈ q1 lev ++ q2 lev → (k < cyp_size cpu)%nat.
Proof.
  intros Hwf Hsi Hlev Hk. apply (si_elem _ _ _ _ _ Hsi _ _ Hlev) in Hk as [(c & Hc & _)|Hrm].
  - rewrite <- (hw_cyc cpu Hwf). by eapply lookup_lt_Some.
  - by eapply si_rm.
Qed.

(** Enqueueing a live cyclic that was not pending. *)
Lemma expire_enqueue cpu rm st q1 q2 k c sb pc :
  heap_wf cpu → soft_inv cpu rm st q1 q2 → k ∈ live cpu → cyp_cyclics cpu !! k = Some c →
  (cy_level c < CY_SOFT_LEVELS)%nat → cy_pend c = 0 →
  cyp_softbuf cpu !! cy_level c = Some sb →
  softbuf_ok (set_cys_buf sb (cys_hard sb) pc) (cyp_size cpu) (st (cy_level c))
    (q1 (cy_level c)) (q2 (cy_level c) ++ [k]) →
  soft_inv (with_softbuf (with_cyclics cpu (<[k := with_pend c 1]> (cyp_cyclics cpu)))
     (<[cy_level c := set_cys_buf sb (cys_hard sb) pc]> (cyp_softbuf cpu))) rm st q1
     (λ lev, if decide (lev = cy_level c) then q2 lev ++ [k] else q2 lev).
Proof.
  intros Hwf Hsi Hk Hc Hlev Hp Hsb Hok.
  pose proof (lookup_lt_Some _ _ _ Hc) as Hkl. pose proof (lookup_lt_Some _ _ _ Hsb) as Hsl.
  assert (k ∉ q1 (cy_level c) ++ q2 (cy_level c)) as Hnk.
  { intros Hin. apply (si_elem _ _ _ _ _ Hsi _ _ Hlev) in Hin as [(c' & Hc' & _ & Hp')|Hrm]; [|by apply (si_rm _ _ _ _ _ Hsi) in Hrm as [? ?]].
    assert (c' = c) by congruence. subst. lia. }
  constructor.
  - intros lev Hl. cbn [cyp_softbuf with_softbuf cyp_size with_cyclics]. case_decide as Hd.
    + subst lev. rewrite list_lookup_insert_eq by done. eauto.
    + rewrite list_lookup_insert_ne by done. by apply (si_buf _ _ _ _ _ Hsi).
  - intros lev Hl. pose proof (si_nodup _ _ _ _ _ Hsi lev Hl) as Hnd. case_decide; [subst lev|done].
    rewrite (assoc app). apply NoDup_app. split_and!; [done| |apply NoDup_singleton].
    intros x Hx Hx'. apply list_elem_of_singleton in Hx' as ->. done.
  - intros lev k' Hl. cbn [cyp_cyclics with_softbuf with_cyclics]. rewrite pending_insert by done.
    pose proof (si_elem _ _ _ _ _ Hsi lev k' Hl) as He. cbn [cy_level cy_pend with_pend].
    assert (rm = Some (lev, k) → False) as Hrmk by (intros Hrm; by apply (si_rm _ _ _ _ _ Hsi) in Hrm as [? ?]).
    case_decide as Hd.
    + subst lev. rewrite (assoc app), elem_of_app, list_elem_of_singleton, He.
      case_decide; [subst k'|]; naive_solver lia.
    + rewrite He. case_decide; [subst k'|done]. split; [|naive_solver].
      intros [(c' & Hc' & Hl' & _)|?]; [congruence|naive_solver].
  - intros lev k' Hrm. by apply (si_rm _ _ _ _ _ Hsi lev).
Qed.

Lemma with_cyclics_id cpu k c :
  cyp_cyclics cpu !! k = Some c →
  cpu = with_softbuf (with_cyclics cpu (<[k := with_pend c (cy_pend c)]> (cyp_cyclics cpu))) (cyp_softbuf cpu).
Proof.
  intros Hk. assert (with_pend c (cy_pend c) = c) as -> by by destruct c.
  rewrite list_insert_id by done. by destruct cpu.
Qed.

(** An expiration bumps the pend count; a cyclic that was not pending joins
    the queue of its level. *)
Lemma cyclic_expire_spec cpu rm st q1 q2 k c :
  heap_wf cpu → soft_inv cpu rm st q1 q2 → k ∈ live cpu → cyp_cyclics cpu !! k = Some c → cyc_ok c →
  ∃ sb q2',
    let cpu' := with_softbuf (with_cyclics cpu (<[k := with_pend c (bump_pend c)]> (cyp_cyclics cpu))) sb in
    cyclic_expire cpu k = Some (cpu', [expire_event c]) ∧
    soft_inv cpu' rm st q1 q2' ∧ (∀ lev, q2 lev `prefix_of` q2' lev) ∧
    sbs_produced (cyp_softbuf cpu) sb.
Proof.
  intros Hwf Hsi Hk Hc Hok. unfold cyclic_expire, rd, bump_pend, expire_event. rewrite Hc.
  pose proof (lookup_lt_Some _ _ _ Hc) as Hkl. pose proof (co_level c Hok). pose proof (co_pend c Hok) as Hpend.
  destruct (Nat.eqb_spec (cy_level c) CY_HIGH_LEVEL).
  { exists (cyp_softbuf cpu), q2. cbv zeta. rewrite <- with_cyclics_id by done. split_and!; try done. apply sbs_produced_refl. }
  assert (cy_level c < CY_SOFT_LEVELS)%nat as Hlev by (unfold CY_SOFT_LEVELS, CY_HIGH_LEVEL in *; lia).
  destruct (si_buf _ _ _ _ _ Hsi (cy_level c) Hlev) as (sb & Hsb & Hsbok).
  destruct (Z.eqb_spec (cy_pend c) 0) as [Hp|Hp].
  - rewrite Hsb, Hp. change (Z.min (0 + 1) UINT32_MAX) with 1. change (u32 (0 + 1)) with 1.
    destruct (softbuf_ok_produce sb (cyp_size cpu) (st (cy_level c)) (q1 (cy_level c)) (q2 (cy_level c)) k)
      as (pc & -> & Hpc & Hprod); [done| |].
    { apply (nodup_bound (k :: q2 (cy_level c))).
      - apply NoDup_cons. split.
        + intros Hin. assert (k ∈ q1 (cy_level c) ++ q2 (cy_level c)) as He by (apply elem_of_app; auto).
          apply (si_elem _ _ _ _ _ Hsi _ _ Hlev) in He as [(c' & Hc' & _ & Hp')|Hrm]; [|by apply (si_rm _ _ _ _ _ Hsi) in Hrm as [? ?]].
          assert (c' = c) by congruence. subst. lia.
        + pose proof (si_nodup _ _ _ _ _ Hsi _ Hlev) as Hnd. by apply NoDup_app in Hnd as (_ & _ & ?).
      - intros x [->|Hx]%elem_of_cons; [by rewrite <- (hw_cyc cpu Hwf)|].
        eapply (si_elem_lt cpu rm st q1 q2); [done..|]. apply elem_of_app. eauto. }
    rewrite !wr_lt by (done || by eapply lookup_lt_Some).
    eexists _, _. split; [done|]. split; [by apply expire_enqueue|].
    split; [intros lev; cbv beta; case_decide; [|done]; by apply prefix_app_r|].
    split; [by rewrite length_insert|]. intros lev sb'. destruct (decide (lev = cy_level c)) as [->|].
    + rewrite list_lookup_insert_eq by by eapply lookup_lt_Some. intros [= <-]. by exists sb.
    + rewrite list_lookup_insert_ne by done. intros Hsb'. by exists sb'.
  - rewrite wr_lt by done. exists (cyp_softbuf cpu), q2.
    assert ((if u32 (cy_pend c + 1) =? 0 then UINT32_MAX else u32 (cy_pend c + 1)) = Z.min (cy_pend c + 1) UINT32_MAX) as ->.
    { unfold UINT32_MAX in *. destruct (decide (cy_pend c = 4294967295)) as [->|]; [done|].
      rewrite wrapu_id by lia. rewrite (proj2 (Z.eqb_neq _ _)) by lia. lia. }
    split; [by destruct cpu|]. split; [|split; [done|apply sbs_produced_refl]]. eapply soft_inv_ext; [..|done]; try done.
    apply (pending_insert_same _ _ c); [done|done|]. cbn. unfold UINT32_MAX in *. lia.
Qed.

(** ** The arithmetic of [cyclic_fire] *)

(** Times the documentation of [cyclic_add] allows, as long as the machine
    has been up for less than 2^62 nanoseconds (146 years). *)
Record time_ok (now : Z) (c : cyclic_t) : Prop := {
  to_now : 0 <= now < 2 ^ 62;
  to_expire : 0 <= cy_expire c < 2 ^ 63;
  to_interval : 0 < cy_interval c < 2 ^ 62
}.

(** A cyclic after one turn of the loop of [cyclic_fire]. *)
Definition expired (now : Z) (c : cyclic_t) : cyclic_t :=
  with_expire (with_pend c (bump_pend c)) (next_exp now (cy_expire c) (cy_interval c)).

(** The first of a cyclic's expiration times that is in the future. *)
Definition next_boundary (now : Z) (c : cyclic_t) : Z :=
  if cy_expire c >? now then cy_expire c
  else cy_expire c + ((now - cy_expire c) `div` cy_interval c + 1) * cy_interval c.

Lemma div_succ_bounds d i : 0 < i → 0 <= d → d < (d `div` i + 1) * i <= d + i.
Proof.
  intros Hi Hd. pose proof (Z.div_mod d i ltac:(lia)). pose proof (Z.mod_pos_bound d i Hi). nia.
Qed.

Lemma next_exp_eq now c :
  time_ok now c → cy_expire c <= now →
  next_exp now (cy_expire c) (cy_interval c) =
    if now - (cy_expire c + cy_interval c) >? NANOSEC then next_boundary now c
    else cy_expire c + cy_interval c.
Proof.
  intros [Hn He Hi] Hle. unfold next_exp, next_boundary.
  set (e := cy_expire c) in *. set (i := cy_interval c) in *.
  rewrite (wraps_id 64 (e + i)) by lia. rewrite (wraps_id 64 (now - (e + i))) by lia.
  destruct (Z.gtb_spec (now - (e + i)) NANOSEC) as [Hd|]; [|done]. unfold NANOSEC in Hd.
  destruct (Z.gtb_spec e now); [lia|].
  rewrite Z.quot_div_nonneg by lia.
  replace (now - e) with (now - (e + i) + 1 * i) by lia. rewrite Z.div_add by lia.
  pose proof (div_succ_bounds (now - (e + i)) i). pose proof (Z.div_pos (now - (e + i)) i ltac:(lia) ltac:(lia)).
  pose proof (Z.div_le_upper_bound (now - (e + i)) i (now - (e + i)) ltac:(lia) ltac:(nia)).
  rewrite (wraps_id 64 (_ `div` _ + 1)) by lia. rewrite (wraps_id 64 (_ * i)) by lia.
  rewrite wraps_id by lia. lia.
Qed.

Lemma next_boundary_bounds now c :
  time_ok now c → cy_expire c <= now →
  now < next_boundary now c <= now + cy_interval c.
Proof.
  intros [Hn He Hi] Hle. unfold next_boundary. destruct (Z.gtb_spec (cy_expire c) now); [lia|].
  pose proof (div_succ_bounds (now - cy_expire c) (cy_interval c)). lia.
Qed.

Lemma expired_time_ok now c : time_ok now c → cy_expire c <= now → time_ok now (expired now c).
Proof.
  intros Ht Hle. pose proof (next_boundary_bounds now c Ht Hle). pose proof (next_exp_eq now c Ht Hle) as He.
  pose proof (to_now _ _ Ht). pose proof (to_interval _ _ Ht). pose proof (to_expire _ _ Ht). split; [done| |done].
  cbn [expired cy_expire with_expire]. rewrite He. destruct (_ >? _); lia.
Qed.

(** Each turn leaves one expiration less to do, and the same goal. *)
Lemma fires_expired now c :
  time_ok now c → cy_expire c <= now →
  fires now c = S (fires now (expired now c)) ∧ next_boundary now (expired now c) = next_boundary now c.
Proof.
  intros Ht Hle. pose proof (next_boundary_bounds now c Ht Hle) as Hb. pose proof (next_exp_eq now c Ht Hle) as He.
  pose proof (to_interval _ _ Ht) as Hi. unfold fires.
  assert (cy_expire (expired now c) = next_exp now (cy_expire c) (cy_interval c)) as E by done.
  assert (cy_interval (expired now c) = cy_interval c) as Ei by done.
  assert (next_boundary now (expired now c) = let e := next_exp now (cy_expire c) (cy_interval c) in
    if e >? now then e else e + ((now - e) `div` cy_interval c + 1) * cy_interval c) as -> by done.
  cbv zeta. rewrite E, Ei, He.
  destruct (Z.gtb_spec (cy_expire c) now); [lia|].
  destruct (Z.gtb_spec (now - (cy_expire c + cy_interval c)) NANOSEC) as [Hd|Hd].
  { destruct (Z.gtb_spec (next_boundary now c) now); [done|lia]. }
  unfold next_boundary. destruct (Z.gtb_spec (cy_expire c) now); [lia|].
  set (e := cy_expire c) in *. set (i := cy_interval c) in *.
  destruct (Z.gtb_spec (e + i) now) as [Hl|Hl].
  { rewrite (Z.div_small (now - e) i) by lia. split; [done|lia]. }
  destruct (Z.gtb_spec (now - (e + i + i)) NANOSEC); [lia|].
  assert ((now - e) `div` i = (now - (e + i)) `div` i + 1) as ->.
  { replace (now - e) with (now - (e + i) + 1 * i) by lia. by rewrite Z.div_add by lia. }
  pose proof (Z.div_pos (now - (e + i)) i ltac:(lia) ltac:(lia)). split; [lia|nia].
Qed.

Lemma fires_pos now c : time_ok now c → (fires now c = 0)%nat ↔ now < cy_expire c.
Proof.
  intros Ht. unfold fires. pose proof (to_interval _ _ Ht). destruct (Z.gtb_spec (cy_expire c) now); [lia|].
  destruct (_ >? _); [lia|].
  pose proof (Z.div_pos (now - cy_expire c) (cy_interval c) ltac:(lia) ltac:(lia)). lia.
Qed.

(** The cyclic after all its turns. *)
Definition fired (now : Z) (c : cyclic_t) : cyclic_t := Nat.iter (fires now c) (expired now) c.

Lemma iter_expired_fields now n c :
  let c' := Nat.iter n (expired now) c in
  cy_interval c' = cy_interval c ∧ cy_handler c' = cy_handler c ∧ cy_arg c' = cy_arg c ∧
  cy_flags c' = cy_flags c ∧ cy_level c' = cy_level c ∧
  (cyc_ok c → cyc_ok c' ∧ cy_pend c' =
     if (cy_level c =? CY_HIGH_LEVEL)%nat then cy_pend c else Z.min (cy_pend c + Z.of_nat n) UINT32_MAX).
Proof.
  induction n as [|n IH].
  { split_and!; try done. intros [? ? ? Hp ?]. split; [done|]. cbn. destruct (_ =? _)%nat; [done|lia]. }
  change (Nat.iter (S n) (expired now) c) with (expired now (Nat.iter n (expired now) c)).
  generalize dependent (Nat.iter n (expired now) c). cbv zeta. intros d (? & ? & ? & ? & Hl & Hok).
  split_and!; try done. intros Hc. destruct (Hok Hc) as [[] Hp].
  assert (cy_pend (expired now d) =
    if (cy_level c =? CY_HIGH_LEVEL)%nat then cy_pend c else Z.min (cy_pend c + Z.of_nat (S n)) UINT32_MAX) as Hp'.
  { unfold expired, bump_pend. cbn [cy_pend with_expire with_pend]. rewrite Hl, Hp. destruct (_ =? _)%nat; lia. }
  split; [|done]. constructor; try done.
  - rewrite Hp'. destruct Hc. unfold UINT32_MAX in *. destruct (_ =? _)%nat; lia.
  - rewrite Hp'. change (cy_level (expired now d)) with (cy_level d).
    rewrite Hl. intros Hh. rewrite Hh, Nat.eqb_refl. by apply co_high.
Qed.

Lemma iter_expired_time now n c :
  time_ok now c → (n <= fires now c)%nat →
  let c' := Nat.iter n (expired now) c in
  time_ok now c' ∧ fires now c' = (fires now c - n)%nat ∧ next_boundary now c' = next_boundary now c.
Proof.
  intros Ht. induction n as [|n IH]; intros Hn; [by rewrite Nat.sub_0_r|].
  change (Nat.iter (S n) (expired now) c) with (expired now (Nat.iter n (expired now) c)).
  destruct IH as (Ht' & Hf & Hb); [lia|]. cbv zeta. set (c' := Nat.iter n (expired now) c) in *.
  assert (cy_expire c' <= now) as Hle.
  { destruct (decide (cy_expire c' <= now)); [done|]. pose proof (proj2 (fires_pos now c' Ht')). lia. }
  destruct (fires_expired now c' Ht' Hle) as [Hf' Hb']. split_and!; [by apply expired_time_ok|lia|by rewrite Hb'].
Qed.

Lemma fired_expire now c : time_ok now c → cy_expire (fired now c) = next_boundary now c ∧ now < next_boundary now c.
Proof.
  intros Ht. destruct (iter_expired_time now (fires now c) c Ht ltac:(lia)) as (Ht' & Hf & Hb).
  fold (fired now c) in *. rewrite Nat.sub_diag in Hf. apply (fires_pos now _ Ht') in Hf.
  rewrite <- Hb. unfold next_boundary. destruct (Z.gtb_spec (cy_expire (fired now c)) now); [done|lia].
Qed.

(** ** The loop of [cyclic_fire] *)

Lemma heap_wf_ext cpu cpu' :
  cyp_heap cpu' = cyp_heap cpu → cyp_cyclics cpu' = cyp_cyclics cpu →
  cyp_nelems cpu' = cyp_nelems cpu → cyp_size cpu' = cyp_size cpu → heap_wf cpu → heap_wf cpu'.
Proof.
  intros Hh Hc Hn Hs [H1 H2 H3 H4 H5 H6].
  constructor; unfold live in *; rewrite ?Hh, ?Hc, ?Hn, ?Hs; done.
Qed.

Lemma expire_at_insert cs h i k c :
  h !! i ≠ Some k → expire_at (<[k := c]> cs) h i = expire_at cs h i.
Proof.
  intros Hne. unfold expire_at. destruct (h !! i) as [j|]; [|done]. cbn.
  by rewrite list_lookup_insert_ne by congruence.
Qed.

(** Changing the cyclic at position [p] of the heap breaks the order there
    only. *)
Lemma heap_but_insert cpu p k c' :
  heap_wf cpu → (p < cyp_nelems cpu)%nat → cyp_heap cpu !! p = Some k →
  heap_but (<[k := c']> (cyp_cyclics cpu)) (cyp_heap cpu) (cyp_nelems cpu) p.
Proof.
  intros Hwf Hp Hk. assert (∀ i, i ≠ p → cyp_heap cpu !! i ≠ Some k) as Hne.
  { intros i Hip Hi. apply Hip. by eapply NoDup_lookup; [apply (hw_nodup cpu Hwf)|..]. }
  destruct (heap_ok_heap_but _ _ _ p Hp (hw_heap cpu Hwf)) as [H1 H2]. split.
  - intros i Hi Hip Hpp. rewrite !expire_at_insert by auto. by apply H1.
  - intros i Hi Hp0 Hpp. pose proof (parent_lt p Hp0). pose proof (parent_lt i ltac:(lia)).
    rewrite !expire_at_insert by (apply Hne; lia). by apply H2.
Qed.

(** Replacing a live cyclic and permuting the live part into a heap again. *)
Lemma heap_wf_update cpu k c' h :
  heap_wf cpu → k ∈ live cpu → cyc_ok c' →
  permutes (cyp_nelems cpu) (cyp_heap cpu) h →
  heap_ok (<[k := c']> (cyp_cyclics cpu)) h (cyp_nelems cpu) →
  heap_wf (with_heap (with_cyclics cpu (<[k := c']> (cyp_cyclics cpu))) h).
Proof.
  intros Hwf Hk Hc' Hp Hh. pose proof Hp as [Hp1 Hp2].
  assert (k < length (cyp_cyclics cpu))%nat as Hlt.
  { destruct (hw_live cpu Hwf k Hk) as (c & Hc & _). by eapply lookup_lt_Some. }
  constructor; unfold live; cbn [cyp_cyclics cyp_heap cyp_nelems cyp_size with_heap with_cyclics].
  - rewrite length_insert. apply (hw_cyc cpu Hwf).
  - rewrite (permutes_Permutation _ _ _ Hp). apply (hw_perm cpu Hwf).
  - apply (hw_nelems cpu Hwf).
  - done.
  - intros j. rewrite Hp1. intros Hj. destruct (decide (j = k)) as [->|].
    + rewrite list_lookup_insert_eq by done. eauto.
    + rewrite list_lookup_insert_ne by done. by apply (hw_live cpu Hwf).
  - intros j. rewrite Hp2. intros Hj. rewrite list_lookup_insert_ne; [by apply (hw_free cpu Hwf)|].
    intros ->. by eapply live_not_free.
Qed.

(** The state of the loop: the cyclics [ks] have expired, in this order. *)
Record fire_inv (now : Z) (cpu0 : cyc_cpu) (rm : option (nat * nat)) (st : nat → Z)
    (q1 q2 : nat → list nat) (s : cyc_cpu * list event) (ks : list nat) : Prop := {
  fi_frame : ∃ h cs sb, s.1 = with_softbuf (with_cyclics (with_heap cpu0 h) cs) sb;
  fi_wf : heap_wf s.1;
  fi_perm : permutes (cyp_nelems cpu0) (cyp_heap cpu0) (cyp_heap s.1);
  fi_soft : ∃ q2', soft_inv s.1 rm st q1 q2' ∧ ∀ lev, q2 lev `prefix_of` q2' lev;
  fi_sbs : sbs_produced (cyp_softbuf cpu0) (cyp_softbuf s.1);
  fi_evs : s.2 = omap (λ k, expire_event <$> cyp_cyclics cpu0 !! k) ks;
  fi_live : ∀ k, k ∈ ks → k ∈ live cpu0;
  fi_cyc : ∀ k, cyp_cyclics s.1 !! k = Nat.iter (count_occ Nat.eq_dec ks k) (expired now) <$> cyp_cyclics cpu0 !! k;
  fi_count : ∀ k, (count_occ Nat.eq_dec ks k <= fires_of now (cyp_cyclics cpu0) k)%nat
}.

Definition fire_measure (now : Z) (s : cyc_cpu * list event) : nat :=
  sum_list_with (fires_of now (cyp_cyclics s.1)) (live s.1).

Lemma expired_ok now c : cyc_ok c → cyc_ok (expired now c).
Proof. intros Hc. apply (iter_expired_fields now 1 c). done. Qed.

(** One turn of the loop, on the CPU alone. *)
Lemma fire_turn now cpu rm st q1 q2 evs k c :
  heap_wf cpu → soft_inv cpu rm st q1 q2 → (0 < cyp_nelems cpu)%nat →
  cyp_heap cpu !! 0%nat = Some k → cyp_cyclics cpu !! k = Some c → cy_expire c <= now →
  ∃ h sb q2',
    let cpu' := with_softbuf (with_heap (with_cyclics cpu (<[k := expired now c]> (cyp_cyclics cpu))) h) sb in
    fire_step now (cpu, evs) = Some (Next (cpu', evs ++ [expire_event c])) ∧
    heap_wf cpu' ∧ permutes (cyp_nelems cpu) (cyp_heap cpu) h ∧
    soft_inv cpu' rm st q1 q2' ∧ (∀ lev, q2 lev `prefix_of` q2' lev) ∧ sbs_produced (cyp_softbuf cpu) sb.
Proof.
  intros Hwf Hsi Hn Hk Hc Hle. assert (k ∈ live cpu) as Hlive by by apply (live_lookup cpu 0).
  destruct (hw_live cpu Hwf k Hlive) as (c0 & Hc0 & Hok). assert (c0 = c) as -> by congruence.
  destruct (cyclic_expire_spec cpu rm st q1 q2 k c) as (sb & q2' & Hexp & Hsi' & Hpre & Hprod); [done..|].
  pose proof (lookup_lt_Some _ _ _ Hc) as Hlt. pose proof (heap_but_insert cpu 0 k (expired now c) Hwf Hn Hk) as Hbut.
  set (cpu2 := with_cyclics (with_softbuf (with_cyclics cpu (<[k:=with_pend c (bump_pend c)]> (cyp_cyclics cpu))) sb)
    (<[k := expired now c]> (cyp_cyclics cpu))).
  destruct (downheap_spec cpu2 0) as (h & Hdown & Hperm & Hheap & _).
  { cbn. rewrite (hw_len cpu Hwf). apply (hw_nelems cpu Hwf). }
  { unfold heap_in. cbn. rewrite length_insert. apply (hw_in cpu Hwf). }
  { done. }
  { done. }
  { intros ?. lia. }
  exists h, sb, q2'. cbv zeta. split; [|split_and!].
  - unfold fire_step, rd. rewrite Hk, Hc. destruct (Z.gtb_spec (cy_expire c) now); [lia|]. rewrite Hexp.
    cbn [cyp_cyclics with_softbuf with_cyclics]. rewrite list_lookup_insert_eq by done.
    rewrite wr_lt by (rewrite length_insert; done). rewrite list_insert_insert_eq.
    match goal with |- context [cyclic_downheap ?d 0] => change d with cpu2 end.
    rewrite Hdown. done.
  - eapply heap_wf_ext; [..|by apply (heap_wf_update cpu k (expired now c) h Hwf Hlive (expired_ok now c Hok))]; done.
  - done.
  - eapply soft_inv_ext; [..|exact Hsi']; try done.
    + intros lev j. cbn [cyp_cyclics with_softbuf with_heap with_cyclics].
      rewrite !pending_insert by done. done.
    + intros j. unfold live. destruct Hperm as [Hp _]. cbn in Hp |- *. by rewrite Hp.
  - done.
  - done.
Qed.

Section fire_loop.
Context (now : Z) (cpu0 : cyc_cpu) (rm : option (nat * nat)) (st : nat → Z) (q1 q2 : nat → list nat).
Context (Hwf0 : heap_wf cpu0) (Hn0 : (0 < cyp_nelems cpu0)%nat).
Context (Htime : ∀ k c, k ∈ live cpu0 → cyp_cyclics cpu0 !! k = Some c → time_ok now c).

Lemma fire_inv_live s ks : fire_inv now cpu0 rm st q1 q2 s ks →
  cyp_nelems s.1 = cyp_nelems cpu0 ∧ live s.1 ≡ₚ live cpu0.
Proof.
  intros [(h & cs & sb & Hf) _ Hp _ _ _ _ _ _]. rewrite Hf in *. split; [done|].
  apply live_permutes; [done|]. done.
Qed.

(** The current state of a live cyclic. *)
Lemma fire_inv_cyc s ks k c : fire_inv now cpu0 rm st q1 q2 s ks →
  k ∈ live cpu0 → cyp_cyclics s.1 !! k = Some c →
  ∃ c0, cyp_cyclics cpu0 !! k = Some c0 ∧ c = Nat.iter (count_occ Nat.eq_dec ks k) (expired now) c0 ∧
    expire_event c = expire_event c0 ∧ time_ok now c ∧
    fires now c = (fires now c0 - count_occ Nat.eq_dec ks k)%nat.
Proof.
  intros Hinv Hk Hc. destruct (hw_live cpu0 Hwf0 k Hk) as (c0 & Hc0 & _).
  pose proof (fi_cyc _ _ _ _ _ _ _ _ Hinv k) as Hcyc. pose proof (fi_count _ _ _ _ _ _ _ _ Hinv k) as Hcount.
  unfold fires_of in Hcount. rewrite Hc0 in Hcount, Hcyc. rewrite Hc in Hcyc. injection Hcyc as ->.
  exists c0. pose proof (iter_expired_fields now (count_occ Nat.eq_dec ks k) c0) as (_ & Hh & Ha & _ & Hl & _).
  destruct (iter_expired_time now _ c0 (Htime k c0 Hk Hc0) Hcount) as (? & ? & _).
  split_and!; try done. unfold expire_event. by rewrite Hl, Hh, Ha.
Qed.

Lemma fire_inv_next s ks k c h sb q2' :
  fire_inv now cpu0 rm st q1 q2 s ks → k ∈ live cpu0 → cyp_cyclics s.1 !! k = Some c → cy_expire c <= now →
  let cpu' := with_softbuf (with_heap (with_cyclics s.1 (<[k := expired now c]> (cyp_cyclics s.1))) h) sb in
  heap_wf cpu' → permutes (cyp_nelems s.1) (cyp_heap s.1) h →
  soft_inv cpu' rm st q1 q2' → (∀ lev, q2 lev `prefix_of` q2' lev) → sbs_produced (cyp_softbuf s.1) sb →
  fire_inv now cpu0 rm st q1 q2 (cpu', s.2 ++ [expire_event c]) (ks ++ [k]) ∧
  (fire_measure now (cpu', s.2 ++ [expire_event c]) < fire_measure now s)%nat.
Proof.
  intros Hinv Hk Hc Hle cpu' Hwf' Hperm Hsi Hpre Hprod.
  destruct (fire_inv_live s ks Hinv) as [Hn Hl]. pose proof (lookup_lt_Some _ _ _ Hc) as Hlt.
  destruct (fire_inv_cyc s ks k c Hinv Hk Hc) as (c0 & Hc0 & -> & Hev & Ht & Hf).
  destruct (fires_expired now _ Ht Hle) as [Hf1 _]. split; [constructor|].
  - destruct (fi_frame _ _ _ _ _ _ _ _ Hinv) as (h1 & cs1 & sb1 & E). unfold cpu'. rewrite E.
    by exists h, (<[k := expired now (Nat.iter (count_occ Nat.eq_dec ks k) (expired now) c0)]> cs1), sb.
  - done.
  - cbn. eapply permutes_trans; [apply (fi_perm _ _ _ _ _ _ _ _ Hinv)|]. by rewrite <- Hn.
  - by exists q2'.
  - eapply sbs_produced_trans; [apply (fi_sbs _ _ _ _ _ _ _ _ Hinv)|done].
  - cbn [snd]. rewrite (fi_evs _ _ _ _ _ _ _ _ Hinv), omap_app, Hev. cbn [omap list_omap]. by rewrite Hc0.
  - intros j. rewrite elem_of_app, list_elem_of_singleton. intros [Hj| ->]; [|done].
    by apply (fi_live _ _ _ _ _ _ _ _ Hinv).
  - intros j. rewrite count_occ_app. cbn [fst cyp_cyclics cpu' with_softbuf with_heap with_cyclics count_occ].
    destruct (Nat.eq_dec k j) as [->|].
    + rewrite list_lookup_insert_eq by done. by rewrite Hc0, Nat.add_1_r.
    + rewrite list_lookup_insert_ne, Nat.add_0_r by done. apply (fi_cyc _ _ _ _ _ _ _ _ Hinv).
  - intros j. rewrite count_occ_app. cbn [count_occ]. pose proof (fi_count _ _ _ _ _ _ _ _ Hinv j).
    destruct (Nat.eq_dec k j) as [->|]; [|lia]. unfold fires_of. rewrite Hc0. lia.
  - unfold fire_measure. cbn [fst]. assert (live cpu' ≡ₚ live s.1) as ->.
    { apply live_permutes; [done|]. done. }
    unfold fires_of. cbn. apply (sum_list_with_lt _ _ _ k); [by rewrite Hl| |intros j; destruct (decide (j = k)) as [->|]].
    1,2: rewrite list_lookup_insert_eq, Hc by done; cbn in Hf1; lia.
    by rewrite list_lookup_insert_ne.
Qed.

(** Enough turns: the loop ends with every cyclic in the future. *)
Definition fire_post (r : cyc_cpu * list event) : Prop :=
  ∃ ks, fire_inv now cpu0 rm st q1 q2 (r.1, omap (λ k, expire_event <$> cyp_cyclics cpu0 !! k) ks) ks ∧
    r.2 = omap (λ k, expire_event <$> cyp_cyclics cpu0 !! k) ks
          ++ [EvReprogram (expire_at (cyp_cyclics r.1) (cyp_heap r.1) 0)] ∧
    ∀ k c, k ∈ live cpu0 → cyp_cyclics r.1 !! k = Some c → now < cy_expire c.

Lemma fire_step_ok s ks :
  fire_inv now cpu0 rm st q1 q2 s ks →
  ∃ l, fire_step now s = Some l ∧
    match l with
    | Next s' => (∃ ks', fire_inv now cpu0 rm st q1 q2 s' ks') ∧ (fire_measure now s' < fire_measure now s)%nat
    | Return r => fire_post r
    end.
Proof.
  intros Hinv. destruct (fire_inv_live s ks Hinv) as [Hn Hl]. pose proof (fi_wf _ _ _ _ _ _ _ _ Hinv) as Hwf.
  destruct (heap_in_lookup _ _ 0 (hw_in s.1 Hwf)) as (k & c & Hk & Hc).
  { rewrite (hw_len s.1 Hwf). pose proof (hw_nelems s.1 Hwf). lia. }
  pose proof (expire_at_lookup _ _ _ _ _ Hk Hc) as He.
  assert (k ∈ live cpu0) as Hlive by (rewrite <- Hl; apply (live_lookup s.1 0); [lia|done]).
  destruct (decide (cy_expire c <= now)) as [Hle|Hgt].
  - destruct (fi_soft _ _ _ _ _ _ _ _ Hinv) as (q2a & Hsa & Hpa).
    destruct (fire_turn now s.1 rm st q1 q2a s.2 k c) as (h & sb & q2b & Hstep & Hwf' & Hp & Hsb & Hpb & Hprod); [done|done|lia|done..|].
    eexists. split; [by destruct s|].
    assert (∀ lev, q2 lev `prefix_of` q2b lev) by (intros lev; etrans; [apply Hpa|apply Hpb]).
    destruct (fire_inv_next s ks k c h sb q2b) as [? ?]; eauto.
  - exists (Return (s.1, s.2 ++ [EvReprogram (cy_expire c)])). split.
    { unfold fire_step, rd. destruct s as [cpu evs]. cbn [fst snd] in *. rewrite Hk, Hc.
      destruct (Z.gtb_spec (cy_expire c) now); [done|lia]. }
    exists ks. rewrite <- (fi_evs _ _ _ _ _ _ _ _ Hinv). cbn [fst snd]. rewrite He. split_and!; [by destruct s|done|].
    intros j d Hj Hd. rewrite <- Hl in Hj. apply live_index in Hj as (i & Hi & Hji).
    pose proof (heap_ok_root _ _ _ i (hw_heap s.1 Hwf) Hi) as Hroot.
    rewrite He, (expire_at_lookup _ _ _ _ _ Hji Hd) in Hroot. lia.
Qed.
End fire_loop.

Lemma fire_inv_start now cpu rm st q1 q2 :
  heap_wf cpu → soft_inv cpu rm st q1 q2 → fire_inv now cpu rm st q1 q2 (cpu, []) [].
Proof.
  intros Hwf Hsi. constructor; try done.
  - exists (cyp_heap cpu), (cyp_cyclics cpu), (cyp_softbuf cpu). by destruct cpu.
  - by exists q2.
  - apply sbs_produced_refl.
  - intros k Hk. by apply elem_of_nil in Hk.
  - intros k. cbn. by destruct (cyp_cyclics cpu !! k).
  - intros k. cbn. lia.
Qed.

(** The loop ends. *)
Lemma fire_loop_spec now cpu rm st q1 q2 :
  heap_wf cpu → soft_inv cpu rm st q1 q2 → (0 < cyp_nelems cpu)%nat →
  (∀ k c, k ∈ live cpu → cyp_cyclics cpu !! k = Some c → time_ok now c) →
  ∃ r, cyclic_fire now cpu = Some r ∧ fire_post now cpu rm st q1 q2 r.
Proof.
  intros Hwf Hsi Hn Ht. unfold cyclic_fire. rewrite (proj2 (Nat.eqb_neq _ _)) by lia.
  eapply (run_total (fire_step now) (λ s, ∃ ks, fire_inv now cpu rm st q1 q2 s ks)
    (fire_post now cpu rm st q1 q2) (fire_measure now)).
  - intros s (ks & Hs). destruct (fire_step_ok now cpu rm st q1 q2 Hwf Hn Ht s ks Hs) as (l & Hl & Hpost). eauto.
  - exists []. by apply fire_inv_start.
  - unfold fire_measure, fire_fuel. cbn [fst]. lia.
Qed.

(** What one [cyclic_fire] does to a cyclic. *)
Definition fired_spec (now : Z) (c c' : cyclic_t) : Prop :=
  cy_expire c' = next_boundary now c ∧
  cy_pend c' = (if (cy_level c =? CY_HIGH_LEVEL)%nat then cy_pend c
                else Z.min (cy_pend c + Z.of_nat (fires now c)) UINT32_MAX) ∧
  cy_interval c' = cy_interval c ∧ cy_handler c' = cy_handler c ∧ cy_arg c' = cy_arg c ∧
  cy_flags c' = cy_flags c ∧ cy_level c' = cy_level c.

Lemma fire_post_spec now cpu rm st q1 q2 r :
  heap_wf cpu → (0 < cyp_nelems cpu)%nat →
  (∀ k c, k ∈ live cpu → cyp_cyclics cpu !! k = Some c → time_ok now c) →
  fire_post now cpu rm st q1 q2 r →
  ∃ ks t, r.2 = omap (λ k, expire_event <$> cyp_cyclics cpu !! k) ks ++ [EvReprogram t] ∧
    (∀ k, count_occ Nat.eq_dec ks k =
       if bool_decide (k ∈ live cpu) then fires_of now (cyp_cyclics cpu) k else 0%nat) ∧
    (∀ k c, k ∈ live cpu → cyp_cyclics cpu !! k = Some c →
       ∃ c', cyp_cyclics r.1 !! k = Some c' ∧ fired_spec now c c' ∧ t <= cy_expire c') ∧
    (∀ k, k ∉ live cpu → cyp_cyclics r.1 !! k = cyp_cyclics cpu !! k) ∧
    (∃ k c', k ∈ live cpu ∧ cyp_cyclics r.1 !! k = Some c' ∧ cy_expire c' = t).
Proof.
  intros Hwf Hn Ht (ks & Hinv & Hevs & Hfut).
  destruct (fire_inv_live _ _ _ _ _ _ _ _ Hinv) as [Hn' Hl]. pose proof (fi_wf _ _ _ _ _ _ _ _ Hinv) as Hwf'.
  cbn [fst snd] in *. exists ks, (expire_at (cyp_cyclics r.1) (cyp_heap r.1) 0). split; [done|].
  assert (∀ k c, k ∈ live cpu → cyp_cyclics cpu !! k = Some c →
    count_occ Nat.eq_dec ks k = fires now c ∧ cyp_cyclics r.1 !! k = Some (fired now c)) as Hall.
  { intros k c Hk Hc. pose proof (fi_cyc _ _ _ _ _ _ _ _ Hinv k) as Hcyc. cbn [fst] in Hcyc. rewrite Hc in Hcyc.
    destruct (fire_inv_cyc now cpu rm st q1 q2 Hwf Ht _ ks k _ Hinv Hk Hcyc) as (c0 & Hc0 & E & _ & Ht' & Hf).
    assert (c0 = c) as -> by congruence. pose proof (Hfut k _ Hk Hcyc) as Hz. apply (fires_pos now _ Ht') in Hz.
    pose proof (fi_count _ _ _ _ _ _ _ _ Hinv k) as Hle. unfold fires_of in Hle. rewrite Hc in Hle.
    assert (count_occ Nat.eq_dec ks k = fires now c) as Heq by lia. split; [done|]. rewrite Hcyc, Heq. done. }
  split_and!.
  - intros k. destruct (bool_decide_reflect (k ∈ live cpu)) as [Hk|Hk].
    + destruct (hw_live cpu Hwf k Hk) as (c & Hc & _). unfold fires_of. rewrite Hc. by apply Hall.
    + apply count_occ_not_In. intros Hin. apply Hk, (fi_live _ _ _ _ _ _ _ _ Hinv). by apply list_elem_of_In.
  - intros k c Hk Hc. destruct (Hall k c Hk Hc) as [_ Hc']. eexists. split; [done|]. split.
    + pose proof (iter_expired_fields now (fires now c) c) as (? & ? & ? & ? & ? & Hp).
      destruct (hw_live cpu Hwf k Hk) as (c0 & Hc0 & Hok). assert (c0 = c) as -> by congruence.
      destruct (fired_expire now c (Ht k c Hk Hc)). destruct (Hp Hok). by split_and!.
    + rewrite <- Hl in Hk. apply live_index in Hk as (i & Hi & Hki).
      rewrite <- (expire_at_lookup _ _ _ _ _ Hki Hc'). by eapply heap_ok_root; [apply (hw_heap r.1)|].
  - intros k Hk. etrans; [apply (fi_cyc _ _ _ _ _ _ _ _ Hinv k)|].
    assert (count_occ Nat.eq_dec ks k = 0%nat) as ->.
    { apply count_occ_not_In. intros Hin. apply Hk, (fi_live _ _ _ _ _ _ _ _ Hinv). by apply list_elem_of_In. }
    by destruct (cyp_cyclics cpu !! k).
  - destruct (heap_in_lookup _ _ 0 (hw_in r.1 Hwf')) as (k & c & Hk & Hc).
    { rewrite (hw_len r.1 Hwf'). pose proof (hw_nelems r.1 Hwf'). lia. }
    exists k, c. split_and!; [|done|by rewrite (expire_at_lookup _ _ _ _ _ Hk Hc)].
    rewrite <- Hl. apply (live_lookup r.1 0); [lia|done].
Qed.

(** ** Adding a cyclic *)

Definition new_expire (now : Z) (when : cyc_time) : Z :=
  if cyt_when when =? 0
  then s64 (s64 (Z.quot now (cyt_interval when) + 1) * cyt_interval when)
  else cyt_when when.

Definition new_cyclic (now : Z) (hdlr : cyc_handler) (when : cyc_time) (flags : Z) : cyclic_t :=
  Cyclic (new_expire now when) (cyt_interval when) (cyh_func hdlr) (cyh_arg hdlr) 0 flags (cyh_level hdlr).

(** The heap with one more element at its end. *)
Lemma heap_but_end cpu ndx c :
  heap_wf cpu → cyp_heap cpu !! cyp_nelems cpu = Some ndx →
  heap_but (<[ndx := c]> (cyp_cyclics cpu)) (cyp_heap cpu) (cyp_nelems cpu + 1) (cyp_nelems cpu) ∧
  below_ok (<[ndx := c]> (cyp_cyclics cpu)) (cyp_heap cpu) (cyp_nelems cpu + 1) (cyp_nelems cpu).
Proof.
  intros Hwf Hndx. assert (∀ i, (i < cyp_nelems cpu)%nat → cyp_heap cpu !! i ≠ Some ndx) as Hne.
  { intros i Hi Hl. pose proof (NoDup_lookup _ _ _ _ (hw_nodup cpu Hwf) Hl Hndx). lia. }
  split; [split|].
  - intros i Hi Hin Hp. pose proof (parent_lt i ltac:(lia)).
    rewrite !expire_at_insert by (apply Hne; lia). apply (hw_heap cpu Hwf). lia.
  - intros i Hi _ Hp. pose proof (parent_lt i ltac:(lia)). lia.
  - intros i Hi Hp. pose proof (parent_lt i ltac:(lia)). lia.
Qed.

(** What the sift up of a new last element gives. *)
Lemma upheap_end cpu :
  (cyp_nelems cpu <= length (cyp_heap cpu))%nat → heap_in (cyp_cyclics cpu) (cyp_heap cpu) →
  ∀ n x, cyp_nelems cpu = (n + 1)%nat → NoDup (cyp_heap cpu) → cyp_heap cpu !! n = Some x →
  heap_but (cyp_cyclics cpu) (cyp_heap cpu) (cyp_nelems cpu) n →
  below_ok (cyp_cyclics cpu) (cyp_heap cpu) (cyp_nelems cpu) n →
  ∃ h, cyclic_upheap cpu n = Some (with_heap cpu h, bool_decide (h !! 0%nat = Some x)) ∧
    permutes (cyp_nelems cpu) (cyp_heap cpu) h ∧ heap_ok (cyp_cyclics cpu) h (cyp_nelems cpu).
Proof.
  intros Hlen Hin n x Hn Hnd Hx Hbut Hbel. destruct (decide (n = 0%nat)) as [->|Hn0].
  { exists (cyp_heap cpu). unfold cyclic_upheap. cbn [Nat.eqb]. rewrite bool_decide_eq_true_2 by done.
    split_and!; [by destruct cpu|done|]. intros i Hi. lia. }
  destruct (upheap_spec cpu n x) as (h & b & Heq & Hperm & Hor); [done|done|lia|done|done|].
  assert (cyp_heap cpu !! 0%nat ≠ Some x) as H0.
  { intros H0. pose proof (NoDup_lookup _ _ _ _ Hnd H0 Hx). lia. }
  exists h. rewrite Heq. cbn [fst snd] in *. destruct Hor as [[[= -> ->] Hab]|(Hok & _ & Hroot)].
  - rewrite bool_decide_eq_false_2 by done. split_and!; [done|done|]. by eapply heap_ok_but.
  - split_and!; [|done|done]. rewrite Hroot. destruct b.
    + by rewrite bool_decide_eq_true_2.
    + by rewrite bool_decide_eq_false_2.
Qed.

(** The state after the free entry at the end of the heap became live. *)
Lemma heap_wf_add cpu ndx c h :
  heap_wf cpu → cyp_heap cpu !! cyp_nelems cpu = Some ndx → cyc_ok c →
  permutes (cyp_nelems cpu + 1) (cyp_heap cpu) h →
  heap_ok (<[ndx := c]> (cyp_cyclics cpu)) h (cyp_nelems cpu + 1) →
  let cpu' := with_heap (with_cyclics (with_nelems cpu (cyp_nelems cpu + 1)) (<[ndx := c]> (cyp_cyclics cpu))) h in
  heap_wf cpu' ∧ live cpu' ≡ₚ ndx :: live cpu ∧ ndx ∉ live cpu.
Proof.
  intros Hwf Hndx Hc [Hp1 Hp2] Hok cpu'. pose proof (hw_nodup cpu Hwf) as Hnd.
  pose proof (lookup_lt_Some _ _ _ Hndx) as Hlt. rewrite (hw_len cpu Hwf) in Hlt.
  assert (take (cyp_nelems cpu + 1) (cyp_heap cpu) = live cpu ++ [ndx]) as Htake.
  { unfold live. rewrite Nat.add_1_r. by apply take_S_r. }
  assert (live cpu' ≡ₚ ndx :: live cpu) as Hlive.
  { unfold live at 1. cbn [cpu' cyp_nelems cyp_heap with_heap with_cyclics with_nelems].
    rewrite Hp1, Htake. by rewrite (comm app). }
  assert (ndx ∉ live cpu) as Hnin.
  { intros Hin. apply (live_not_free cpu Hwf _ Hin), list_elem_of_lookup. exists 0%nat.
    by rewrite lookup_drop, Nat.add_0_r. }
  assert (ndx ∉ drop (cyp_nelems cpu + 1) (cyp_heap cpu)) as Hnin'.
  { intros Hin. rewrite <- (take_drop (cyp_nelems cpu + 1) (cyp_heap cpu)) in Hnd.
    apply NoDup_app in Hnd as (_ & Hd & _). apply (Hd ndx); [|done]. rewrite Htake, elem_of_app, list_elem_of_singleton. by right. }
  split_and!; [|done|done]. constructor.
  - cbn. rewrite length_insert. apply (hw_cyc cpu Hwf).
  - cbn. rewrite <- (take_drop (cyp_nelems cpu + 1) h), Hp1, Hp2, take_drop. apply (hw_perm cpu Hwf).
  - cbn. lia.
  - done.
  - intros k. rewrite Hlive, elem_of_cons. cbn [cpu' cyp_cyclics with_heap with_cyclics]. intros [->|Hk].
    + rewrite list_lookup_insert_eq by exact (Forall_lookup_1 _ _ _ _ (hw_in cpu Hwf) Hndx). eauto.
    + rewrite list_lookup_insert_ne by (intros ->; done). by apply (hw_live cpu Hwf).
  - intros k. cbn [cpu' cyp_nelems cyp_heap cyp_cyclics with_heap with_cyclics with_nelems]. rewrite Hp2. intros Hk.
    rewrite list_lookup_insert_ne by (intros ->; done). apply (hw_free cpu Hwf).
    rewrite (drop_S _ ndx) by done. rewrite Nat.add_1_r in Hk. by apply elem_of_cons; right.
Qed.

Lemma add_xcall_spec now cpu hdlr when flags st q1 q2 :
  heap_wf cpu → soft_inv cpu None st q1 q2 → (cyp_nelems cpu < cyp_size cpu)%nat →
  cyc_ok (new_cyclic now hdlr when flags) →
  ∃ ndx h,
    let cpu' := with_heap (with_cyclics (with_nelems cpu (cyp_nelems cpu + 1))
                  (<[ndx := new_cyclic now hdlr when flags]> (cyp_cyclics cpu))) h in
    cyclic_add_xcall now cpu hdlr when flags =
      Some (cpu', (if (cyp_nelems cpu =? 0)%nat then [EvEnable] else []) ++
                  (if bool_decide (h !! 0%nat = Some ndx) then [EvReprogram (new_expire now when)] else []), ndx) ∧
    heap_wf cpu' ∧ soft_inv cpu' None st q1 q2 ∧ live cpu' ≡ₚ ndx :: live cpu ∧ ndx ∉ live cpu.
Proof.
  intros Hwf Hsi Hlt Hok. destruct (lookup_lt_is_Some_2 (cyp_heap cpu) (cyp_nelems cpu)) as [ndx Hndx].
  { by rewrite (hw_len cpu Hwf). }
  destruct (hw_free cpu Hwf ndx) as (c & Hc & Hfree & Hpend).
  { apply list_elem_of_lookup. exists 0%nat. by rewrite lookup_drop, Nat.add_0_r. }
  destruct (heap_but_end cpu ndx (new_cyclic now hdlr when flags) Hwf Hndx) as [Hbut Hbel].
  set (cpu1 := with_cyclics (with_nelems cpu (cyp_nelems cpu + 1)) (<[ndx := new_cyclic now hdlr when flags]> (cyp_cyclics cpu))).
  destruct (upheap_end cpu1) with (n := cyp_nelems cpu) (x := ndx) as (h & Hup & Hperm & Hheap); try done.
  { cbn. rewrite (hw_len cpu Hwf). lia. }
  { unfold heap_in. cbn. rewrite length_insert. apply (hw_in cpu Hwf). }
  { apply (hw_nodup cpu Hwf). }
  destruct (heap_wf_add cpu ndx (new_cyclic now hdlr when flags) h) as (Hwf' & Hl & Hnin); [done..|].
  exists ndx, h. cbv zeta. split_and!; try done.
  - unfold cyclic_add_xcall, rd. cbn [cyp_heap cyp_cyclics with_nelems]. rewrite Hndx, Hc.
    rewrite wr_lt by by eapply lookup_lt_Some. rewrite Hpend.
    change (Cyclic _ _ _ _ 0 _ _) with (new_cyclic now hdlr when flags). fold cpu1. rewrite Hup. done.
  - destruct Hsi as [H1 H2 H3 H4]. constructor; [done|done| |done].
    intros lev k Hlev. rewrite (H3 lev k Hlev). cbn [cyp_cyclics with_heap with_cyclics].
    rewrite pending_insert by by eapply lookup_lt_Some. destruct (decide (k = ndx)) as [->|]; [|done].
    cbn. split; [|intros [[? ?]|?]; [lia|done]].
    intros [(c' & Hc' & _ & Hp)|?]; [|done]. assert (c' = c) as -> by congruence. lia.
Qed.

(** ** Removing a cyclic *)

Lemma find_spec h n i k :
  (n <= length h)%nat → NoDup h → (i < n)%nat → h !! i = Some k →
  run (find_step h n k) (S n) 0%nat = Some i.
Proof.
  intros Hn Hnd Hi Hk.
  destruct (run_total (find_step h n k) (λ j, (j <= i)%nat) (λ j, j = i) (λ j, i - j)%nat) with
    (fuel := S n) (s := 0%nat) as (r & -> & ->); [|lia|lia|done].
  intros j Hj. unfold find_step, rd. rewrite (proj2 (Nat.ltb_lt j n)) by lia.
  destruct (lookup_lt_is_Some_2 h j) as [x Hx]; [lia|]. rewrite Hx.
  destruct (Nat.eqb_spec x k) as [->|Hne]; eexists; (split; [done|]).
  - by eapply NoDup_lookup.
  - assert (j ≠ i) by (intros ->; congruence). cbv beta iota. lia.
Qed.

Lemma find_absent h n k :
  (n <= length h)%nat → k ∉ take n h → run (find_step h n k) (S n) 0%nat = Some n.
Proof.
  intros Hn Hnot.
  destruct (run_total (find_step h n k) (λ j, (j <= n)%nat) (λ j, j = n) (λ j, n - j)%nat) with
    (fuel := S n) (s := 0%nat) as (r & -> & ->); [|lia|lia|done].
  intros j Hj. unfold find_step, rd. destruct (Nat.ltb_spec j n) as [Hlt|].
  - destruct (lookup_lt_is_Some_2 h j) as [x Hx]; [lia|]. rewrite Hx.
    destruct (Nat.eqb_spec x k) as [->|Hne]; eexists; (split; [done|]); [|cbv beta iota; lia].
    destruct Hnot. apply list_elem_of_lookup. exists j. by rewrite lookup_take_lt.
  - eexists. split; [done|]. cbv beta iota. lia.
Qed.

(** Moving the last element into the gap at [i] breaks the order there
    only. *)
Lemma heap_but_gap cs h n i ndx last :
  heap_ok cs h (n + 1) → (i < n)%nat → h !! i = Some ndx → h !! n = Some last →
  heap_but cs (<[n := ndx]> (<[i := last]> h)) n i.
Proof.
  intros Hok Hi Hndx Hlast.
  assert (∀ j, expire_at cs (<[n := ndx]> (<[i := last]> h)) j = if decide (j = n) then expire_at cs h i
     else if decide (j = i) then expire_at cs h n else expire_at cs h j) as He
    by (intros j; apply swap_expire; first [done|lia]).
  split.
  - intros j Hj Hji Hp. pose proof (parent_lt j ltac:(lia)). rewrite !He, !decide_False by lia. apply Hok. lia.
  - intros j Hj Hi0 Hp. pose proof (parent_lt j ltac:(lia)). pose proof (parent_lt i Hi0).
    rewrite !He, !decide_False by lia. pose proof (Hok j ltac:(lia)) as H1. rewrite Hp in H1.
    pose proof (Hok i ltac:(lia)). lia.
Qed.

Lemma reprog_spec cpu h :
  heap_in (cyp_cyclics cpu) h → (0 < length h)%nat →
  (let! root := h !! 0%nat in
   let! cyclic := cyp_cyclics cpu !! root in
   Some (with_heap cpu h, [EvReprogram (cy_expire cyclic)])) =
  Some (with_heap cpu h, [EvReprogram (expire_at (cyp_cyclics cpu) h 0)]).
Proof.
  intros Hin Hlen. destruct (heap_in_lookup _ _ 0 Hin Hlen) as (k & c & Hk & Hc).
  by rewrite Hk, Hc, (expire_at_lookup _ _ _ _ _ Hk Hc).
Qed.

(** The heap without the element at [i]: the timer is reprogrammed exactly
    when the root changed. *)
Lemma remove_heap_spec cpu n ndx i :
  (n < length (cyp_heap cpu))%nat → heap_in (cyp_cyclics cpu) (cyp_heap cpu) → NoDup (cyp_heap cpu) →
  cyp_nelems cpu = n → heap_ok (cyp_cyclics cpu) (cyp_heap cpu) (n + 1) →
  (i < n)%nat → cyp_heap cpu !! i = Some ndx →
  ∃ last h, cyp_heap cpu !! n = Some last ∧
    remove_heap cpu n ndx i = Some (with_heap cpu h,
      if bool_decide (h !! 0%nat = cyp_heap cpu !! 0%nat) then []
      else [EvReprogram (expire_at (cyp_cyclics cpu) h 0)]) ∧
    permutes n (<[n := ndx]> (<[i := last]> (cyp_heap cpu))) h ∧ heap_ok (cyp_cyclics cpu) h n.
Proof.
  intros Hlen Hin Hnd Hn Hok Hi Hndx. destruct (lookup_lt_is_Some_2 (cyp_heap cpu) n) as [last Hlast]; [lia|].
  pose proof (heap_but_gap _ _ _ _ _ _ Hok Hi Hndx Hlast) as Hbut.
  set (h1 := <[n := ndx]> (<[i := last]> (cyp_heap cpu))) in *.
  assert (h1 ≡ₚ cyp_heap cpu) as Hp1 by (apply swap_Permutation; first [done|lia]).
  assert (∀ j, h1 !! j = if decide (j = n) then Some ndx else if decide (j = i) then Some last else cyp_heap cpu !! j) as Hl1
    by (intros j; apply swap_lookup; first [done|lia]).
  assert (heap_in (cyp_cyclics cpu) h1) as Hin1 by (unfold heap_in; by rewrite Hp1).
  assert (length h1 = length (cyp_heap cpu)) as Hlen1 by by rewrite Hp1.
  assert (last ≠ ndx) as Hne.
  { intros ->. pose proof (NoDup_lookup _ _ _ _ Hnd Hndx Hlast). lia. }
  assert (NoDup h1) as Hnd1 by by rewrite Hp1.
  exists last. unfold remove_heap, rd. rewrite Hlast, !wr_lt by (rewrite ?length_insert; lia). fold h1.
  destruct (Nat.eqb_spec i 0) as [->|Hi0].
  - destruct (downheap_spec (with_heap cpu h1) 0) as (h & -> & Hperm & Hheap & _); cbn; try done; try lia.
    { by rewrite Hn. } { intros ?; lia. }
    cbn in Hperm, Hheap. rewrite Hn in Hperm, Hheap. exists h. split; [done|].
    change (with_heap (with_heap cpu h1) h) with (with_heap cpu h).
    rewrite (reprog_spec cpu h); [|by eapply permutes_heap_in|rewrite (permutes_length _ _ _ Hperm); lia].
    rewrite bool_decide_eq_false_2; [done|]. rewrite Hndx. intros H0.
    assert (ndx ∈ take n h1) as Hmem.
    { rewrite <- (proj1 Hperm). apply list_elem_of_lookup. exists 0%nat. by rewrite lookup_take_lt. }
    apply list_elem_of_lookup in Hmem as [j Hj]. apply lookup_take_Some in Hj as [Hj Hjn].
    rewrite Hl1, decide_False in Hj by lia. case_decide; [congruence|].
    pose proof (NoDup_lookup _ _ _ _ Hnd Hj Hndx). lia.
  - destruct (upheap_spec (with_heap cpu h1) i last) as (h & b & -> & Hperm & Hor); cbn; try done; try lia.
    { rewrite Hl1, decide_False, decide_True by lia. done. } { by rewrite Hn. }
    cbn [cyp_heap cyp_cyclics cyp_nelems with_heap fst snd] in Hperm, Hor. rewrite Hn in Hperm, Hor.
    assert (h1 !! 0%nat = cyp_heap cpu !! 0%nat) as H0 by (rewrite Hl1, !decide_False by lia; done).
    pose proof (parent_lt i ltac:(lia)) as Hpi.
    destruct Hor as [[[= -> ->] Hab]|(Hheap & Hhi & Hroot)].
    + rewrite Hl1, decide_False, decide_True, Nat.eqb_refl by lia.
      destruct (downheap_spec (with_heap cpu h1) i) as (h & Hdown & Hperm' & Hheap & Htop); cbn; try done; try lia.
      { by rewrite Hn. }
      cbn in Hperm', Hheap, Htop. rewrite Hn in Hperm', Hheap. exists h.
      change (with_heap (with_heap cpu h1) h1) with (with_heap cpu h1). rewrite Hdown.
      rewrite bool_decide_eq_true_2 by (rewrite Htop by lia; done). done.
    + exists h. split; [done|]. change (with_heap (with_heap cpu h1) h) with (with_heap cpu h).
      destruct b.
      * rewrite (reprog_spec cpu h); [|by eapply permutes_heap_in|rewrite (permutes_length _ _ _ Hperm); lia].
        rewrite bool_decide_eq_false_2; [done|]. rewrite Hroot. intros Heq. symmetry in Heq.
        pose proof (NoDup_lookup _ _ _ _ Hnd Heq Hlast). lia.
      * rewrite bool_decide_eq_true_2 by (rewrite Hroot; done). rewrite Hhi, Hl1, !decide_False by lia.
        destruct (lookup_lt_is_Some_2 (cyp_heap cpu) (CYC_HEAP_PARENT i)) as [y Hy]; [lia|]. rewrite Hy.
        destruct (Nat.eqb_spec y last) as [->|]; [|done].
        pose proof (NoDup_lookup _ _ _ _ Hnd Hy Hlast). lia.
Qed.

(** A removed cyclic. *)
Definition freed (c : cyclic_t) : cyclic_t := with_flags (with_pend c 0) CYF_FREE.

Lemma expire_at_same cs h i k c c' :
  cs !! k = Some c → cy_expire c' = cy_expire c → expire_at (<[k := c']> cs) h i = expire_at cs h i.
Proof.
  intros Hk He. unfold expire_at. destruct (h !! i) as [j|]; [|done]. cbn.
  destruct (decide (j = k)) as [->|].
  - rewrite list_lookup_insert_eq by by eapply lookup_lt_Some. by rewrite Hk; cbn; rewrite He.
  - by rewrite list_lookup_insert_ne.
Qed.

Lemma heap_ok_same cs h n k c c' :
  cs !! k = Some c → cy_expire c' = cy_expire c → heap_ok cs h n → heap_ok (<[k := c']> cs) h n.
Proof. intros Hk He Hok i Hi. rewrite !(expire_at_same _ _ _ k c c') by done. by apply Hok. Qed.

(** The state after the cyclic [k] has left the heap for the free list. *)
Lemma heap_wf_remove cpu k c n h :
  heap_wf cpu → cyp_cyclics cpu !! k = Some c → cyp_nelems cpu = (n + 1)%nat →
  heap_ok (<[k := freed c]> (cyp_cyclics cpu)) h n →
  take (n + 1) (cyp_heap cpu) ≡ₚ k :: take n h → drop n h = k :: drop (n + 1) (cyp_heap cpu) →
  let cpu' := with_heap (with_nelems (with_cyclics cpu (<[k := freed c]> (cyp_cyclics cpu))) n) h in
  heap_wf cpu' ∧ live cpu ≡ₚ k :: live cpu'.
Proof.
  intros Hwf Hc Hn Hok Htake Hdrop cpu'.
  assert (live cpu ≡ₚ k :: live cpu') as Hlive by (unfold live; by rewrite Hn).
  pose proof (lookup_lt_Some _ _ _ Hc) as Hlt. pose proof (live_nodup cpu Hwf) as Hnd.
  rewrite Hlive in Hnd. apply NoDup_cons in Hnd as [Hnin _].
  split; [|done]. constructor.
  - cbn. rewrite length_insert. apply (hw_cyc cpu Hwf).
  - cbn. rewrite <- (take_drop n h), Hdrop. rewrite <- Permutation_middle.
    rewrite app_comm_cons, <- Htake, take_drop. apply (hw_perm cpu Hwf).
  - cbn. pose proof (hw_nelems cpu Hwf). lia.
  - done.
  - intros j Hj. cbn. rewrite list_lookup_insert_ne by (intros ->; done). apply (hw_live cpu Hwf).
    rewrite Hlive. by apply elem_of_cons; right.
  - intros j. cbn. rewrite Hdrop, elem_of_cons. intros [->|Hj].
    + rewrite list_lookup_insert_eq by done. by eexists.
    + rewrite list_lookup_insert_ne; [apply (hw_free cpu Hwf); by rewrite Hn|].
      intros ->. apply (live_not_free cpu Hwf j); [rewrite Hlive; by apply elem_of_cons; left|by rewrite Hn].
Qed.

Lemma soft_inv_remove cpu cpu' k c st q1 q2 :
  heap_wf cpu → soft_inv cpu None st q1 q2 → cyp_cyclics cpu !! k = Some c → cyc_ok c →
  cyp_softbuf cpu' = cyp_softbuf cpu → cyp_size cpu' = cyp_size cpu →
  cyp_cyclics cpu' = <[k := freed c]> (cyp_cyclics cpu) → live cpu ≡ₚ k :: live cpu' →
  soft_inv cpu' (if cy_pend c =? 0 then None else Some (cy_level c, k)) st q1 q2.
Proof.
  intros Hwf [H1 H2 H3 H4] Hc Hok Hsb Hsz Hcs Hlive. pose proof (lookup_lt_Some _ _ _ Hc) as Hlt.
  pose proof (live_nodup cpu Hwf) as Hnd. rewrite Hlive in Hnd. apply NoDup_cons in Hnd as [Hnin _].
  pose proof (co_pend c Hok). constructor; [by rewrite Hsb, Hsz|done| |].
  - intros lev j Hlev. rewrite (H3 lev j Hlev), Hcs, pending_insert by done.
    destruct (decide (j = k)) as [->|].
    + unfold pending. rewrite Hc. cbn. destruct (Z.eqb_spec (cy_pend c) 0); naive_solver lia.
    + destruct (cy_pend c =? 0); naive_solver.
  - intros lev j. destruct (cy_pend c =? 0); [done|]. intros [= <- <-].
    rewrite Hsz, <- (hw_cyc cpu Hwf). done.
Qed.

(** The CPU as [cyclic_remove_xcall] has it when it starts on the heap. *)
Definition removing (cpu : cyc_cpu) (k : nat) (c : cyclic_t) : cyc_cpu :=
  with_nelems (with_cyclics (with_rpend cpu (if cy_pend c =? 0 then cyp_rpend cpu else cy_pend c))
    (<[k := freed c]> (cyp_cyclics cpu))) (cyp_nelems cpu - 1).

Lemma remove_xcall_eq cpu k c i :
  heap_wf cpu → cyp_cyclics cpu !! k = Some c → (i < cyp_nelems cpu)%nat → cyp_heap cpu !! i = Some k →
  let n := (cyp_nelems cpu - 1)%nat in
  let ev := if (n =? 0)%nat then [EvDisable] else [] in
  cyclic_remove_xcall cpu k =
    if (i =? n)%nat then Some (removing cpu k c, ev, CycTime (cy_expire c) (cy_interval c)) else
    let! (cpu', ev') := remove_heap (removing cpu k c) n k i in
    Some (cpu', ev ++ ev', CycTime (cy_expire c) (cy_interval c)).
Proof.
  intros Hwf Hc Hi Hik n ev. unfold cyclic_remove_xcall, rd. rewrite Hc.
  assert ((if cy_pend c =? 0 then (cpu, c) else (with_rpend cpu (cy_pend c), with_pend c 0)) =
    (with_rpend cpu (if cy_pend c =? 0 then cyp_rpend cpu else cy_pend c), with_pend c 0)) as ->.
  { destruct (Z.eqb_spec (cy_pend c) 0) as [E|]; [|done]. f_equal; [by destruct cpu|].
    destruct c; cbn in *; by rewrite E. }
  rewrite wr_lt by by eapply lookup_lt_Some. cbn [cyp_heap with_cyclics with_rpend cyp_nelems].
  rewrite (find_spec _ _ i k); [|rewrite (hw_len cpu Hwf); apply (hw_nelems cpu Hwf)|apply (hw_nodup cpu Hwf)|done|done].
  by rewrite (proj2 (Nat.eqb_neq i (cyp_nelems cpu))) by lia.
Qed.

Lemma remove_xcall_heap cpu k c :
  heap_wf cpu → k ∈ live cpu → cyp_cyclics cpu !! k = Some c →
  let n := (cyp_nelems cpu - 1)%nat in
  ∃ h, cyclic_remove_xcall cpu k =
      Some (with_heap (removing cpu k c) h, (if (n =? 0)%nat then [EvDisable] else []) ++
        (if bool_decide (h !! 0%nat = cyp_heap cpu !! 0%nat) then []
         else [EvReprogram (expire_at (cyp_cyclics (removing cpu k c)) h 0)]),
        CycTime (cy_expire c) (cy_interval c)) ∧
    heap_ok (<[k := freed c]> (cyp_cyclics cpu)) h n ∧
    take (n + 1) (cyp_heap cpu) ≡ₚ k :: take n h ∧ drop n h = k :: drop (n + 1) (cyp_heap cpu).
Proof.
  intros Hwf Hk Hc n. destruct (live_index cpu k Hk) as (i & Hi & Hik).
  pose proof (hw_len cpu Hwf) as Hlen. pose proof (hw_nelems cpu Hwf).
  assert (heap_ok (<[k := freed c]> (cyp_cyclics cpu)) (cyp_heap cpu) (cyp_nelems cpu)) as Hok1
    by (apply (heap_ok_same _ _ _ k c); [done|done|apply (hw_heap cpu Hwf)]).
  rewrite (remove_xcall_eq cpu k c i Hwf Hc Hi Hik). cbv zeta. fold n.
  destruct (Nat.eqb_spec i n) as [->|Hne].
  - exists (cyp_heap cpu). rewrite bool_decide_eq_true_2, app_nil_r by done. split_and!.
    + by destruct cpu.
    + intros j Hj. apply Hok1. lia.
    + rewrite Nat.add_1_r, (take_S_r _ _ k) by done. by rewrite (comm app).
    + rewrite Nat.add_1_r. by apply drop_S.
  - destruct (remove_heap_spec (removing cpu k c) n k i) as (last & h & Hlast & -> & Hperm & Hheap);
      cbn [removing cyp_heap cyp_cyclics cyp_nelems with_nelems with_cyclics with_rpend]; try done; try lia.
    { unfold heap_in. rewrite length_insert. apply (hw_in cpu Hwf). }
    { apply (hw_nodup cpu Hwf). }
    { by replace (n + 1)%nat with (cyp_nelems cpu) by lia. }
    exists h. cbn in Hlast, Hperm, Hheap. split_and!; [done|done| |].
    + destruct (swap_permutes (n + 1) (cyp_heap cpu) i n k last) as [Hs _]; [done|done|lia..|].
      rewrite <- Hs, (proj1 Hperm), Nat.add_1_r, (take_S_r _ _ k); [by rewrite (comm app)|].
      apply list_lookup_insert_eq. rewrite length_insert. lia.
    + rewrite (proj2 Hperm), (drop_S _ k); [|apply list_lookup_insert_eq; rewrite length_insert; lia].
      by rewrite !drop_insert_lt, Nat.add_1_r by lia.
Qed.

Lemma remove_xcall_spec cpu k c st q1 q2 :
  heap_wf cpu → soft_inv cpu None st q1 q2 → k ∈ live cpu → cyp_cyclics cpu !! k = Some c →
  ∃ h, let n := (cyp_nelems cpu - 1)%nat in
    let cpu' := with_heap (removing cpu k c) h in
    cyclic_remove_xcall cpu k =
      Some (cpu', (if (n =? 0)%nat then [EvDisable] else []) ++
              (if bool_decide (h !! 0%nat = cyp_heap cpu !! 0%nat) then []
               else [EvReprogram (expire_at (cyp_cyclics cpu') h 0)]),
            CycTime (cy_expire c) (cy_interval c)) ∧
    heap_wf cpu' ∧ live cpu ≡ₚ k :: live cpu' ∧
    soft_inv cpu' (if cy_pend c =? 0 then None else Some (cy_level c, k)) st q1 q2.
Proof.
  intros Hwf Hsi Hk Hc. destruct (live_index cpu k Hk) as (i & Hi & Hik).
  destruct (hw_live cpu Hwf k Hk) as (c0 & Hc0 & Hok). assert (c0 = c) as -> by congruence. clear Hc0.
  destruct (remove_xcall_heap cpu k c) as (h & Hcall & Hheap & Htake & Hdrop); [done..|].
  exists h. cbv zeta.
  destruct (heap_wf_remove cpu k c (cyp_nelems cpu - 1) h) as [Hwf' Hlive]; [done|done|lia|done..|].
  split_and!; [done| |done|].
  - eapply heap_wf_ext; [..|exact Hwf']; done.
  - apply (soft_inv_remove cpu); done.
Qed.

Lemma remove_xcall_absent cpu k :
  heap_wf cpu → k ∉ live cpu → cyclic_remove_xcall cpu k = None.
Proof.
  intros Hwf Hk. unfold cyclic_remove_xcall, rd. destruct (cyp_cyclics cpu !! k) as [c|] eqn:Hc; [|done].
  destruct (if cy_pend c =? 0 then _ else _) as [cpu1 c1] eqn:E.
  assert (cyp_heap cpu1 = cyp_heap cpu) as Hh by (destruct (cy_pend c =? 0); by injection E as <- _).
  destruct (wr _ _ _) as [cs|]; [|done]. cbn [cyp_heap with_cyclics]. rewrite Hh.
  rewrite find_absent, Nat.eqb_refl; [done| |done].
  rewrite (hw_len cpu Hwf). apply (hw_nelems cpu Hwf).
Qed.

(** ** Growing the arrays *)

Lemma expand_free_spec n i heap cs :
  (i + n <= length heap)%nat → (i + n <= length cs)%nat →
  ∃ heap' cs', expand_free i n heap cs = Some (heap', cs') ∧
    length heap' = length heap ∧ length cs' = length cs ∧
    (∀ j, heap' !! j = if decide (i <= j < i + n)%nat then Some j else heap !! j) ∧
    (∀ j, cs' !! j = if decide (i <= j < i + n)%nat then (λ c, with_flags c CYF_FREE) <$> cs !! j else cs !! j).
Proof.
  revert i heap cs. induction n as [|n IH]; intros i heap cs Hh Hc; cbn [expand_free].
  { exists heap, cs. split_and!; try done; intros j; rewrite decide_False by lia; done. }
  rewrite wr_lt by lia. destruct (rd_lt cs i) as [c Hci]; [lia|]. rewrite Hci, wr_lt by lia.
  destruct (IH (S i) (<[i := i]> heap) (<[i := with_flags c CYF_FREE]> cs)) as (heap' & cs' & -> & Hl1 & Hl2 & H1 & H2);
    [rewrite length_insert; lia..|].
  exists heap', cs'. rewrite length_insert in Hl1; rewrite length_insert in Hl2. split_and!; try done; intros j.
  - rewrite H1. destruct (decide (j = i)) as [->|].
    + rewrite decide_False, decide_True by lia. apply list_lookup_insert_eq. lia.
    + rewrite list_lookup_insert_ne by done. destruct (decide (S i <= j < S i + n)%nat).
      * by rewrite decide_True by lia.
      * by rewrite decide_False by lia.
  - rewrite H2. destruct (decide (j = i)) as [->|].
    + rewrite decide_False, decide_True by lia. rewrite list_lookup_insert_eq by lia. unfold rd in Hci. by rewrite Hci.
    + rewrite list_lookup_insert_ne by done. destruct (decide (S i <= j < S i + n)%nat).
      * by rewrite decide_True by lia.
      * by rewrite decide_False by lia.
Qed.

Definition free_cyclic : cyclic_t := with_flags zero_cyclic CYF_FREE.

(** The arrays of the grown CPU: the old ones with a longer free list. *)
Lemma expand_xcall_eq cpu new_size new_heap :
  heap_wf cpu → (cyp_size cpu <= new_size)%nat → length new_heap = new_size →
  let m := (new_size - cyp_size cpu)%nat in
  cyclic_expand_xcall cpu new_size new_heap (replicate new_size zero_cyclic) =
    Some (with_softbuf (with_size (with_cyclics (with_heap cpu (cyp_heap cpu ++ seq (cyp_size cpu) m))
            (cyp_cyclics cpu ++ replicate m free_cyclic)) new_size) (flip_hard <$> cyp_softbuf cpu),
          (λ c, with_pend c 0) <$> cyp_cyclics cpu, [EvSoftint CY_LOCK_LEVEL]).
Proof.
  intros Hwf Hle Hlen m. pose proof (hw_len cpu Hwf) as Hh. pose proof (hw_cyc cpu Hwf) as Hc.
  unfold cyclic_expand_xcall, bcopy. rewrite length_replicate, Hh, Hc, Hlen, !decide_True by lia.
  rewrite !take_ge by lia. fold m.
  set (h0 := cyp_heap cpu ++ drop (cyp_size cpu) new_heap).
  set (c0 := cyp_cyclics cpu ++ drop (cyp_size cpu) (replicate new_size zero_cyclic)).
  assert (length h0 = new_size) as Hl1 by (unfold h0; rewrite length_app, length_drop; lia).
  assert (length c0 = new_size) as Hl2 by (unfold c0; rewrite length_app, length_drop, length_replicate; lia).
  destruct (expand_free_spec m (cyp_size cpu) h0 c0) as (h' & c' & -> & Hl1' & Hl2' & H1 & H2); [lia|lia|].
  assert (h' = cyp_heap cpu ++ seq (cyp_size cpu) m) as ->.
  { apply list_eq. intros j. rewrite H1. unfold h0. destruct (decide (j < cyp_size cpu)%nat).
    - rewrite decide_False by lia. by rewrite !lookup_app_l by lia.
    - rewrite (lookup_app_r _ (seq _ _)), Hh by lia. destruct (decide (j < new_size)%nat).
      + rewrite decide_True by lia. symmetry. apply lookup_seq. lia.
      + rewrite decide_False by lia. rewrite !lookup_ge_None_2; [done| |].
        * rewrite length_seq. lia.
        * fold h0. lia. }
  assert (c' = cyp_cyclics cpu ++ replicate m free_cyclic) as ->; [|done].
  apply list_eq. intros j. rewrite H2. unfold c0. destruct (decide (j < cyp_size cpu)%nat).
  - rewrite decide_False by lia. by rewrite !lookup_app_l by lia.
  - rewrite (lookup_app_r _ (replicate _ _)), Hc by lia. destruct (decide (j < new_size)%nat).
    + rewrite decide_True, lookup_app_r, Hc, lookup_drop by lia.
      rewrite !lookup_replicate_2 by lia. done.
    + rewrite decide_False by lia. rewrite !lookup_ge_None_2; [done| |].
      * rewrite length_replicate. lia.
      * fold c0. lia.
Qed.

Lemma expand_heap_wf cpu m :
  heap_wf cpu →
  let cpu' := with_size (with_cyclics (with_heap cpu (cyp_heap cpu ++ seq (cyp_size cpu) m))
    (cyp_cyclics cpu ++ replicate m free_cyclic)) (cyp_size cpu + m) in
  heap_wf cpu' ∧ live cpu' = live cpu.
Proof.
  intros Hwf cpu'. pose proof (hw_len cpu Hwf) as Hh. pose proof (hw_cyc cpu Hwf) as Hc. pose proof (hw_nelems cpu Hwf) as Hn.
  assert (live cpu' = live cpu) as Hl by (unfold live; cbn; by rewrite take_app_le by lia).
  assert (∀ k c, cyp_cyclics cpu !! k = Some c → cyp_cyclics cpu' !! k = Some c) as Hlook.
  { intros k c Hk. cbn. rewrite lookup_app_l; [done|]. by eapply lookup_lt_Some. }
  split; [|done]. constructor.
  - cbn. rewrite length_app, length_replicate. lia.
  - cbn. rewrite (hw_perm cpu Hwf). by rewrite seq_app.
  - cbn. lia.
  - intros i Hi. cbn in Hi. pose proof (hw_heap cpu Hwf i Hi) as Hok. pose proof (parent_lt i ltac:(lia)).
    assert (∀ j, (j < cyp_nelems cpu)%nat → expire_at (cyp_cyclics cpu') (cyp_heap cpu') j = expire_at (cyp_cyclics cpu) (cyp_heap cpu) j) as He.
    { intros j Hj. destruct (heap_in_lookup _ _ j (hw_in cpu Hwf)) as (k & c & Hk & Hkc); [lia|].
      rewrite (expire_at_lookup _ _ _ _ _ Hk Hkc). apply (expire_at_lookup _ _ _ k); [|by apply Hlook].
      cbn. by rewrite lookup_app_l by lia. }
    rewrite !He by lia. done.
  - intros k. rewrite Hl. intros Hk. destruct (hw_live cpu Hwf k Hk) as (c & Hkc & ?). eauto.
  - intros k. cbn [cpu' cyp_nelems cyp_heap with_size with_cyclics with_heap]. rewrite drop_app_le, elem_of_app by lia.
    intros [Hk|Hk].
    + destruct (hw_free cpu Hwf k Hk) as (c & Hkc & ?). eauto.
    + apply elem_of_seq in Hk. exists free_cyclic. split; [|done]. cbn.
      rewrite lookup_app_r, lookup_replicate_2 by lia. done.
Qed.

(** The buffers [cyclic_expand] sets up before the cross call: the idle one
    of each level is new, empty and of the new size. *)
Definition softbuf_prepared (new_size : nat) (sb : cyc_softbuf) : Prop :=
  cys_hard sb = cys_soft sb ∧ (∃ k, 0 <= k <= 30 ∧ Z.of_nat new_size = 2 ^ k) ∧
  ∃ l, cys_buf sb (negb (cys_hard sb)) = PcBuffer (Some l) 0 0 (Z.of_nat new_size - 1) ∧
    length l = new_size.

Lemma queue_at_empty l :
  (∃ k, 0 <= k <= 30 ∧ Z.of_nat (length l) = 2 ^ k) →
  queue_at l (Z.of_nat (length l) - 1) 0 0 [].
Proof. intros Hl. constructor; try done. cbn. lia. Qed.

Lemma softbuf_ok_flip sb size new_size st q1 q2 :
  softbuf_ok sb size st q1 q2 → softbuf_prepared new_size sb →
  q1 = [] ∧ softbuf_ok (flip_hard sb) new_size st q2 [].
Proof.
  intros [_ Hor] (Heq & Hpow & l & Hbuf & Hl). rewrite bool_decide_eq_true_2 in Hor by done.
  destruct Hor as [-> Hq]. split; [done|]. subst new_size. pose proof (queue_at_empty l Hpow) as Hem.
  destruct sb as [hard soft b0 b1]. cbn in Heq. subst soft.
  destruct hard; cbn in *; rewrite Hbuf; (split; [by eexists|]); (split; [done|]); by eexists.
Qed.

Lemma expand_soft_inv cpu rm st q1 q2 m :
  heap_wf cpu → soft_inv cpu rm st q1 q2 →
  (∀ lev sb, (lev < CY_SOFT_LEVELS)%nat → cyp_softbuf cpu !! lev = Some sb → softbuf_prepared (cyp_size cpu + m) sb) →
  let cpu' := with_softbuf (with_size (with_cyclics (with_heap cpu (cyp_heap cpu ++ seq (cyp_size cpu) m))
    (cyp_cyclics cpu ++ replicate m free_cyclic)) (cyp_size cpu + m)) (flip_hard <$> cyp_softbuf cpu) in
  soft_inv cpu' rm st q2 (λ _, []).
Proof.
  intros Hwf Hsi Hprep cpu'.
  assert (∀ lev, (lev < CY_SOFT_LEVELS)%nat → q1 lev = []) as Hq1.
  { intros lev Hlev. destruct (si_buf _ _ _ _ _ Hsi lev Hlev) as (sb & Hsb & Hok).
    by apply (softbuf_ok_flip _ _ (cyp_size cpu + m) _ _ _ Hok (Hprep lev sb Hlev Hsb)). }
  assert (∀ lev k, pending (cyp_cyclics cpu') lev k ↔ pending (cyp_cyclics cpu) lev k) as Hpend.
  { intros lev k. unfold pending. cbn. split.
    - intros (c & Hc & Hl & Hp). destruct (decide (k < length (cyp_cyclics cpu))%nat).
      + rewrite lookup_app_l in Hc by done. eauto.
      + rewrite lookup_app_r in Hc by lia. apply lookup_replicate in Hc as [-> _]. done.
    - intros (c & Hc & Hl & Hp). exists c. rewrite lookup_app_l by by eapply lookup_lt_Some. done. }
  destruct (expand_heap_wf cpu m Hwf) as [_ Hl]. constructor.
  - intros lev Hlev. destruct (si_buf _ _ _ _ _ Hsi lev Hlev) as (sb & Hsb & Hok).
    exists (flip_hard sb). cbn. rewrite list_lookup_fmap, Hsb. split; [done|].
    by apply (softbuf_ok_flip _ (cyp_size cpu) _ _ (q1 lev) (q2 lev) Hok (Hprep lev sb Hlev Hsb)).
  - intros lev Hlev. rewrite app_nil_r. pose proof (si_nodup _ _ _ _ _ Hsi lev Hlev) as Hnd. by rewrite Hq1 in Hnd.
  - intros lev k Hlev. rewrite app_nil_r, Hpend, <- (si_elem _ _ _ _ _ Hsi lev k Hlev). by rewrite Hq1.
  - intros lev k Hrm. destruct (si_rm _ _ _ _ _ Hsi lev k Hrm) as [? ?]. split; [cbn; lia|].
    intros Hin. assert (k ∈ live cpu); [|done]. rewrite <- Hl. exact Hin.
Qed.

(** ** The initial state *)

Lemma configure_wf junk : heap_wf (cyclic_configure junk).
Proof.
  constructor; cbn; try done; try lia.
  - intros i Hi. cbn in Hi. lia.
  - intros k Hk. by apply elem_of_nil in Hk.
  - intros k ->%list_elem_of_singleton. by eexists.
Qed.

Lemma configure_soft_inv junk :
  soft_inv (cyclic_configure junk) None (λ _, 0) (λ _, []) (λ _, []).
Proof.
  assert (queue_at [junk] 0 0 0 []) as Hq by (apply (queue_at_empty [junk]); by exists 0).
  constructor.
  - intros lev Hlev. exists (SoftBuf false false (PcBuffer (Some [junk]) 0 0 0) (PcBuffer None 0 0 0)). split.
    + cbn [cyclic_configure cyp_softbuf]. by apply lookup_replicate_2.
    + split; [by eexists|]. split; [done|]. by eexists.
  - intros _ _. apply NoDup_nil. done.
  - intros lev k _. split; [intros []%elem_of_nil|]. intros [(c & Hc & _ & Hp)|?]; [|done].
    destruct k as [|[|]]; cbn in Hc; [|done..]. injection Hc as <-. done.
  - done.
Qed.

(** ** Properties *)

(** C5: The timer interrupt ends; every live cyclic then expires at the
    first of its expiration times that is in the future, has expired once
    for each of them that was not (once only when it was more than a second
    late), its pend count counts those expirations up to its maximum, and a
    low or lock level cyclic that was not pending has joined its level's
    queue, behind what was there; the timer is set to the earliest
    expiration time, and nothing else changes. *)
Theorem cyclic_fire_correct now cpu rm st q1 q2 :
  heap_wf cpu → soft_inv cpu rm st q1 q2 → (0 < cyp_nelems cpu)%nat →
  (∀ k c, k ∈ live cpu → cyp_cyclics cpu !! k = Some c → time_ok now c) →
  ∃ cpu' ks t,
    cyclic_fire now cpu =
      Some (cpu', omap (λ k, expire_event <$> cyp_cyclics cpu !! k) ks ++ [EvReprogram t]) ∧
    heap_wf cpu' ∧ live cpu' ≡ₚ live cpu ∧
    (∃ q2', soft_inv cpu' rm st q1 q2' ∧ ∀ lev, q2 lev `prefix_of` q2' lev) ∧
    (∀ k, count_occ Nat.eq_dec ks k =
       if bool_decide (k ∈ live cpu) then fires_of now (cyp_cyclics cpu) k else 0%nat) ∧
    (∀ k c, k ∈ live cpu → cyp_cyclics cpu !! k = Some c →
       ∃ c', cyp_cyclics cpu' !! k = Some c' ∧ fired_spec now c c' ∧ now < cy_expire c' ∧ t <= cy_expire c') ∧
    (∀ k, k ∉ live cpu → cyp_cyclics cpu' !! k = cyp_cyclics cpu !! k) ∧
    (∃ k c', k ∈ live cpu ∧ cyp_cyclics cpu' !! k = Some c' ∧ cy_expire c' = t) ∧
    cyp_state cpu' = cyp_state cpu ∧ cyp_size cpu' = cyp_size cpu ∧ cyp_rpend cpu' = cyp_rpend cpu.
Proof.
  intros Hwf Hsi Hn Ht. destruct (fire_loop_spec now cpu rm st q1 q2 Hwf Hsi Hn Ht) as (r & Hr & Hpost).
  destruct (fire_post_spec now cpu rm st q1 q2 r Hwf Hn Ht Hpost) as (ks & t & Hev & Hcount & Hcyc & Hoth & Hroot).
  destruct Hpost as (ks' & Hinv & _ & Hfut). exists r.1, ks, t.
  destruct (fire_inv_live _ _ _ _ _ _ _ _ Hinv) as [_ Hl].
  destruct (fi_frame _ _ _ _ _ _ _ _ Hinv) as (h & cs & sb & Hf). cbn [fst] in *. split_and!; try done.
  - rewrite Hr, <- Hev. by destruct r.
  - apply (fi_wf _ _ _ _ _ _ _ _ Hinv).
  - apply (fi_soft _ _ _ _ _ _ _ _ Hinv).
  - intros k c Hk Hc. destruct (Hcyc k c Hk Hc) as (c' & Hc' & ? & ?). eauto 10.
  - by rewrite Hf.
  - by rewrite Hf.
  - by rewrite Hf.
Qed.

(** Adding a cyclic takes the first free index, keeps the heap, and
    starts the cyclic at the time asked for or else at the next multiple of
    its interval; the timer is enabled when this is the first cyclic and
    reprogrammed exactly when the new cyclic expires first. *)
Theorem cyclic_add_correct now cpu hdlr when flags st q1 q2 :
  heap_wf cpu → soft_inv cpu None st q1 q2 → (cyp_nelems cpu < cyp_size cpu)%nat →
  0 <= now < 2 ^ 62 → 0 <= cyt_when when < 2 ^ 63 → 0 < cyt_interval when < 2 ^ 62 →
  (cyh_level hdlr <= CY_HIGH_LEVEL)%nat → Z.land flags CYF_FREE = 0 →
  ∃ cpu' evs ndx c,
    cyclic_add_xcall now cpu hdlr when flags = Some (cpu', evs, ndx) ∧
    heap_wf cpu' ∧ soft_inv cpu' None st q1 q2 ∧
    live cpu' ≡ₚ ndx :: live cpu ∧ (ndx ∉ live cpu) ∧
    cyp_cyclics cpu' = <[ndx := c]> (cyp_cyclics cpu) ∧
    c = Cyclic (if cyt_when when =? 0 then (now `div` cyt_interval when + 1) * cyt_interval when else cyt_when when)
          (cyt_interval when) (cyh_func hdlr) (cyh_arg hdlr) 0 flags (cyh_level hdlr) ∧
    evs = (if (cyp_nelems cpu =? 0)%nat then [EvEnable] else []) ++
          (if bool_decide (cyp_heap cpu' !! 0%nat = Some ndx) then [EvReprogram (cy_expire c)] else []).
Proof.
  intros Hwf Hsi Hlt Hnow Hwhen Hint Hlev Hfl.
  assert (new_expire now when = if cyt_when when =? 0 then (now `div` cyt_interval when + 1) * cyt_interval when
    else cyt_when when) as He.
  { unfold new_expire. destruct (cyt_when when =? 0); [|done]. rewrite Z.quot_div_nonneg by lia.
    pose proof (div_succ_bounds now (cyt_interval when)). pose proof (Z.div_pos now (cyt_interval when)).
    pose proof (Z.div_le_upper_bound now (cyt_interval when) now ltac:(lia) ltac:(nia)).
    rewrite (wraps_id 64 (_ + 1)) by lia. rewrite wraps_id by lia. done. }
  destruct (add_xcall_spec now cpu hdlr when flags st q1 q2) as (ndx & h & Hcall & Hwf' & Hsi' & Hl & Hnin); [done..| |].
  { constructor; cbn; try done; lia. }
  eexists _, _, ndx, (new_cyclic now hdlr when flags). rewrite <- He. split; [exact Hcall|]. by split_and!.
Qed.

(** Removing a live cyclic takes it out of the heap, puts its index on
    the free list, hands its pending expirations over to [cyp_rpend] while
    its entry stays in the queue, and returns its time; the timer is disabled
    when it was the last cyclic, and reprogrammed exactly when the root
    changed. Removing anything else panics. *)
Theorem cyclic_remove_correct cpu k st q1 q2 :
  heap_wf cpu → soft_inv cpu None st q1 q2 →
  ((k ∉ live cpu) ∧ cyclic_remove_xcall cpu k = None) ∨
  (k ∈ live cpu ∧ ∃ c cpu' evs,
    cyp_cyclics cpu !! k = Some c ∧
    cyclic_remove_xcall cpu k = Some (cpu', evs, CycTime (cy_expire c) (cy_interval c)) ∧
    heap_wf cpu' ∧ live cpu ≡ₚ k :: live cpu' ∧
    soft_inv cpu' (if cy_pend c =? 0 then None else Some (cy_level c, k)) st q1 q2 ∧
    cyp_cyclics cpu' = <[k := with_flags (with_pend c 0) CYF_FREE]> (cyp_cyclics cpu) ∧
    cyp_rpend cpu' = (if cy_pend c =? 0 then cyp_rpend cpu else cy_pend c) ∧
    evs = (if (cyp_nelems cpu' =? 0)%nat then [EvDisable] else []) ++
          (if bool_decide (cyp_heap cpu' !! 0%nat = cyp_heap cpu !! 0%nat) then []
           else [EvReprogram (expire_at (cyp_cyclics cpu') (cyp_heap cpu') 0)])).
Proof.
  intros Hwf Hsi. destruct (decide (k ∈ live cpu)) as [Hk|Hk].
  - right. split; [done|]. destruct (hw_live cpu Hwf k Hk) as (c & Hc & _).
    destruct (remove_xcall_spec cpu k c st q1 q2) as (h & Hcall & Hwf' & Hl & Hsi'); [done..|].
    eexists c, _, _. split; [done|]. split; [exact Hcall|]. by split_and!.
  - left. split; [done|]. by apply remove_xcall_absent.
Qed.

(** Suspending an on-line CPU and resuming it gives back its state; the
    timer comes back enabled and set to the earliest expiration time if the
    CPU has a cyclic, and untouched otherwise. *)
Theorem cyclic_suspend_resume cpu :
  heap_wf cpu → cyp_state cpu = CYS_ONLINE →
  ∃ cpu1, cyclic_suspend_xcall cpu =
      (cpu1, (if (0 <? cyp_nelems cpu)%nat then [EvDisable] else []) ++ [EvSuspend]) ∧
    cyp_state cpu1 = CYS_SUSPENDED ∧
    cyclic_resume_xcall cpu1 = Some (cpu, EvResume :: (if (0 <? cyp_nelems cpu)%nat
      then [EvEnable; EvReprogram (expire_at (cyp_cyclics cpu) (cyp_heap cpu) 0)] else [])) ∧
    ∀ i, (i < cyp_nelems cpu)%nat →
      expire_at (cyp_cyclics cpu) (cyp_heap cpu) 0 <= expire_at (cyp_cyclics cpu) (cyp_heap cpu) i.
Proof.
  intros Hwf Hst. exists (with_state cpu CYS_SUSPENDED). unfold cyclic_suspend_xcall, cyclic_resume_xcall.
  rewrite decide_True by done. cbn [cyp_state with_state cyp_nelems cyp_heap cyp_cyclics]. split_and!; [done|done| |].
  - assert (with_state (with_state cpu CYS_SUSPENDED) CYS_ONLINE = cpu) as Hback by (destruct cpu; cbn in *; by subst).
    rewrite decide_True by done. rewrite Hback. destruct (Nat.ltb_spec 0 (cyp_nelems cpu)); [|done].
    destruct (heap_in_lookup _ _ 0 (hw_in cpu Hwf)) as (k & c & Hk & Hc).
    { rewrite (hw_len cpu Hwf). pose proof (hw_nelems cpu Hwf). lia. }
    unfold rd. by rewrite Hk, Hc, (expire_at_lookup _ _ _ _ _ Hk Hc).
  - intros i Hi. by eapply heap_ok_root; [apply (hw_heap cpu Hwf)|].
Qed.

(** ** Concrete instances *)

(** Three cyclics at the three levels; the lock level one is pending twice. *)
Definition demo_cpu : cyc_cpu :=
  CycCpu [0; 1; 2; 3]%nat
    [Cyclic 100 10 1000 1 0 0 CY_HIGH_LEVEL; Cyclic 105 30 2000 2 0 0 CY_LOW_LEVEL;
     Cyclic 200 50 3000 3 2 0 CY_LOCK_LEVEL; with_flags zero_cyclic CYF_FREE]
    3 4 CYS_ONLINE
    [SoftBuf false false (PcBuffer (Some [0; 0; 0; 0]%nat) 0 0 3) (PcBuffer None 0 0 0);
     SoftBuf false false (PcBuffer (Some [2; 0; 0; 0]%nat) 1 0 3) (PcBuffer None 0 0 0)] 0 0 0.

Definition demo_queue (lev : nat) : list nat := if (lev =? 1)%nat then [2%nat] else [].

Lemma demo_wf : heap_wf demo_cpu.
Proof.
  constructor; try done.
  - cbn. lia.
  - intros [|[|[|i]]] Hi; cbn in Hi; [lia| | |lia]; by vm_compute.
  - intros k Hk. cbn in Hk. repeat (apply elem_of_cons in Hk as [->|Hk];
      [eexists; split; [reflexivity|by constructor; vm_compute; (done || lia || split; done)]|]).
    by apply elem_of_nil in Hk.
  - intros k ->%list_elem_of_singleton. by eexists.
Qed.

Lemma demo_soft_inv : soft_inv demo_cpu None (λ _, 0) (λ _, []) demo_queue.
Proof.
  assert (∃ k, 0 <= k <= 30 ∧ Z.of_nat 4 = 2 ^ k) as Hpow by (by exists 2).
  constructor.
  - intros [|[|lev]] Hlev; [| |unfold CY_SOFT_LEVELS in Hlev; lia];
      (eexists; split; [reflexivity|]); (split; [by eexists|]); (split; [done|]); (eexists; split; [done|]).
    + by apply (queue_at_empty [0; 0; 0; 0]%nat).
    + constructor; try done; [cbn; lia|]. intros [|j] x; [by intros [= <-]|done].
  - intros [|[|lev]] Hlev; cbn; [by apply NoDup_nil|apply NoDup_singleton|unfold CY_SOFT_LEVELS in Hlev; lia].
  - intros lev k Hlev. cbn [app]. split.
    + destruct lev as [|[|lev]]; [by intros []%elem_of_nil| |unfold CY_SOFT_LEVELS in Hlev; lia].
      intros ->%list_elem_of_singleton. left. by eexists.
    + intros [(c & Hc & Hl & Hp)|?]; [|done].
      destruct k as [|[|[|[|]]]]; cbn in Hc; try done; injection Hc as <-; cbn in *; try lia.
      subst lev. by apply list_elem_of_singleton.
  - done.
Qed.

Lemma demo_time k c : k ∈ live demo_cpu → cyp_cyclics demo_cpu !! k = Some c → time_ok 130 c.
Proof.
  intros Hk. cbn in Hk. repeat (apply elem_of_cons in Hk as [->|Hk]; [intros [= <-]; constructor; cbn; lia|]).
  by apply elem_of_nil in Hk.
Qed.

Lemma cyclic_fire_correct_witness :
  ∃ cpu' ks t,
    cyclic_fire 130 demo_cpu =
      Some (cpu', omap (λ k, expire_event <$> cyp_cyclics demo_cpu !! k) ks ++ [EvReprogram t]) ∧
    heap_wf cpu' ∧ live cpu' ≡ₚ live demo_cpu.
Proof.
  destruct (cyclic_fire_correct 130 demo_cpu None (λ _, 0) (λ _, []) demo_queue demo_wf demo_soft_inv
    ltac:(cbn; lia) demo_time) as (cpu' & ks & t & H1 & H2 & H3 & _).
  exists cpu', ks, t. auto.
Defined.

Lemma cyclic_add_correct_witness :
  ∃ cpu' evs ndx,
    cyclic_add_xcall 130 demo_cpu (CycHandler 4000 4 CY_LOW_LEVEL) (CycTime 0 40) 0 = Some (cpu', evs, ndx) ∧
    heap_wf cpu' ∧ live cpu' ≡ₚ ndx :: live demo_cpu.
Proof.
  destruct (cyclic_add_correct 130 demo_cpu (CycHandler 4000 4 CY_LOW_LEVEL) (CycTime 0 40) 0
    (λ _, 0) (λ _, []) demo_queue demo_wf demo_soft_inv ltac:(cbn; lia) ltac:(cbn; lia) ltac:(cbn; lia)
    ltac:(cbn; lia) ltac:(vm_compute; lia) eq_refl) as (cpu' & evs & ndx & c & H1 & H2 & _ & H3 & _).
  exists cpu', evs, ndx. auto.
Defined.

Lemma cyclic_remove_correct_witness :
  (((1 : nat) ∉ live demo_cpu) ∧ cyclic_remove_xcall demo_cpu 1 = None) ∨
  (1%nat ∈ live demo_cpu ∧ ∃ cpu' evs when,
     cyclic_remove_xcall demo_cpu 1 = Some (cpu', evs, when) ∧ heap_wf cpu').
Proof.
  destruct (cyclic_remove_correct demo_cpu 1 (λ _, 0) (λ _, []) demo_queue demo_wf demo_soft_inv)
    as [H|(H & c & cpu' & evs & _ & Hc & Hwf & _)]; [by left|].
  right. split; [done|]. eexists _, _, _. split; [exact Hc|exact Hwf].
Defined.

Lemma cyclic_suspend_resume_witness :
  ∃ cpu1, cyclic_suspend_xcall demo_cpu = (cpu1, [EvDisable; EvSuspend]) ∧
    cyclic_resume_xcall cpu1 = Some (demo_cpu, [EvResume; EvEnable; EvReprogram 100]).
Proof.
  destruct (cyclic_suspend_resume demo_cpu demo_wf eq_refl) as (cpu1 & H1 & _ & H2 & _).
  exists cpu1. split; [exact H1|exact H2].
Defined.

(** A cyclic due every second from second 1 on, first served at second 11:
    its handler is called once, although ten of its expiration times have
    passed since the first. *)
Theorem cyclic_fire_late_once :
  let cpu := CycCpu [0%nat] [Cyclic NANOSEC NANOSEC 1000 1 0 0 CY_HIGH_LEVEL] 1 1 CYS_ONLINE
    (cyp_softbuf (cyclic_configure 0)) 0 0 0 in
  (∃ cpu', cyclic_fire (11 * NANOSEC) cpu =
     Some (cpu', [EvHandler CY_HIGH_LEVEL 1000 1; EvReprogram (12 * NANOSEC)])) ∧
  (11 * NANOSEC - NANOSEC) `div` NANOSEC = 10.
Proof. split; [eexists; vm_compute; reflexivity|reflexivity]. Qed.
