(* ===== verification/CyclicSoftint.v ===== *)
(** * The soft interrupts of the cyclic subsystem (uts/common/os/cyclic.c)

    [cyclic_softint] calls the handlers of the pending cyclics of a level.
    It takes no lock: the timer interrupt and the cross calls interrupt it
    between any two of its memory accesses, [cyclic_expand] replaces the
    arrays under its feet and [cyclic_remove_here] removes cyclics it has
    taken from the queue.  This file models it as a step machine that
    interleaves with the timer interrupt and with the holder of [cpu_lock]:
    each access to a word that these write while a soft interrupt is in
    progress is a step of its own.  Only the loads at the head of the loop,
    of the entry of the buffer and of the handler and argument of its cyclic,
    are one step: nothing changes them while the entry is in the queue.  The
    file shows that, on the two conditions of [mild], a soft interrupt never
    follows a dangling pointer and that every expiration is answered by
    exactly one handler call, and what happens without the condition on
    resizes. *)

From Stdlib Require Import ZArith Lia.
From stdpp Require Import base numbers option list.
From S2P Require Import Prelude CyclicHeap Cyclic.

#[local] Open Scope Z_scope.

(** ** A soft interrupt in progress *)

(** Where it is. *)
Inductive softpc :=
  | PcTop                    (* top: *)
  | PcWhile                  (* while (consndx != pc->cypc_prodndx) *)
  | PcLoad                   (* cyclic = &cyclics[buf[consmasked]] ... *)
  | PcCall                   (* ( *handler)(arg) *)
  | PcReread                 (* reread: pend = cyclic->cy_pend *)
  | PcZero                   (* pend == 0 *)
  | PcCas (pend : Z)         (* cas32(&cyclic->cy_pend, pend, npend) *)
  | PcRpend (n : Z)          (* in cyclic_remove_pend, n calls to go *)
  | PcAdvance                (* pc->cypc_consndx = ++consndx *)
  | PcHard                   (* if (soft != softbuf->cys_hard) *)
  | PcLevels                 (* lev = cpu->cyp_modify_levels *)
  | PcLevelsCas (lev : Z)    (* cas32(&cpu->cyp_modify_levels, lev, nlev) *)
  | PcKick                   (* sema_v(&cpu->cyp_modify_wait) *)
  | PcPost.                  (* be->cyb_softint(be->cyb_arg, level - 1) *)

(** Its local variables.  A pointer to an array of cyclics is the number of
    the array: they are numbered in the order of their allocation.  The
    pointer [cyclic] is an array and an index. *)
Record thread := Thread {
  t_pc : softpc;
  t_soft : bool;
  t_consndx : Z;
  t_sizemask : Z;
  t_cyclics : nat;
  t_cyclic : nat * nat;
  t_handler : Z;
  t_arg : Z;
  t_resized : bool
}.

(** What the holder of [cpu_lock] is doing. *)
Inductive admin :=
  | ANone
  | AExpand                    (* cyclic_expand: state set *)
  | AExpandReady               (* buffers allocated *)
  | AExpandWait                (* cross call done, in sema_p *)
  | AExpandFree                (* woken *)
  | AExpandDone                (* old arrays freed *)
  | ARemove (ndx : nat)        (* cyclic_remove_here: state set *)
  | ARemoveWait                (* cross call done *)
  | ARemoveDone.               (* nothing pending, or woken *)

(** A CPU with its soft interrupts.  [s_gen] is the array [cyp_cyclics]
    points to and [s_old] the one before it, while it is allocated.  The last
    three fields are bookkeeping for the proofs: the removed cyclic whose
    entry is still queued, and for each index the expirations of soft level
    cyclics and the handler calls made for it. *)
Record sys := Sys {
  s_cpu : cyc_cpu;
  s_gen : nat;
  s_old : option (list cyclic_t);
  s_thread : nat → option thread;
  s_admin : admin;
  s_removed : option (nat * nat);
  s_exps : nat → Z;
  s_calls : nat → Z
}.

Definition upd {A} (f : nat → A) (i : nat) (x : A) : nat → A :=
  λ j, if decide (j = i) then x else f j.

Definition set_cpu (s : sys) (cpu : cyc_cpu) : sys :=
  Sys cpu (s_gen s) (s_old s) (s_thread s) (s_admin s) (s_removed s) (s_exps s) (s_calls s).
Definition set_thread (s : sys) (lev : nat) (t : option thread) : sys :=
  Sys (s_cpu s) (s_gen s) (s_old s) (upd (s_thread s) lev t) (s_admin s) (s_removed s) (s_exps s) (s_calls s).
Definition set_admin (s : sys) (a : admin) : sys :=
  Sys (s_cpu s) (s_gen s) (s_old s) (s_thread s) a (s_removed s) (s_exps s) (s_calls s).
Definition set_removed (s : sys) (r : option (nat * nat)) : sys :=
  Sys (s_cpu s) (s_gen s) (s_old s) (s_thread s) (s_admin s) r (s_exps s) (s_calls s).
Definition set_arrays (s : sys) (gen : nat) (old : option (list cyclic_t)) : sys :=
  Sys (s_cpu s) gen old (s_thread s) (s_admin s) (s_removed s) (s_exps s) (s_calls s).
Definition set_exps (s : sys) (e : nat → Z) : sys :=
  Sys (s_cpu s) (s_gen s) (s_old s) (s_thread s) (s_admin s) (s_removed s) e (s_calls s).
Definition count_call (s : sys) (k : nat) : sys :=
  Sys (s_cpu s) (s_gen s) (s_old s) (s_thread s) (s_admin s) (s_removed s) (s_exps s)
    (upd (s_calls s) k (s_calls s k + 1)).

Definition goto (t : thread) (pc : softpc) : thread :=
  Thread pc (t_soft t) (t_consndx t) (t_sizemask t) (t_cyclics t) (t_cyclic t)
    (t_handler t) (t_arg t) (t_resized t).

(** The array a pointer denotes; following a pointer to a freed array is a
    fault. *)
Definition array (s : sys) (gen : nat) : option (list cyclic_t) :=
  if (gen =? s_gen s)%nat then Some (cyp_cyclics (s_cpu s))
  else if (S gen =? s_gen s)%nat then s_old s else None.

Definition deref (s : sys) (p : nat * nat) : option cyclic_t :=
  let! arr := array s p.1 in
  rd arr p.2.

Definition store (s : sys) (p : nat * nat) (c : cyclic_t) : option sys :=
  let! arr := array s p.1 in
  let! arr := wr arr p.2 c in
  if (p.1 =? s_gen s)%nat then Some (set_cpu s (with_cyclics (s_cpu s) arr))
  else Some (set_arrays s (s_gen s) (Some arr)).

Definition set_softbuf (s : sys) (lev : nat) (sb : cyc_softbuf) : option sys :=
  let! sbs := wr (cyp_softbuf (s_cpu s)) lev sb in
  Some (set_cpu s (with_softbuf (s_cpu s) sbs)).

Definition sema_v (s : sys) : sys :=
  set_cpu s (with_wait (s_cpu s) (cyp_modify_wait (s_cpu s) + 1)).

(** ** The steps of [cyclic_softint] *)

(** The entry of the queue the soft interrupt is at. *)
Definition consumed (sb : cyc_softbuf) (t : thread) : option nat :=
  let! buf := cypc_buf (cys_buf sb (t_soft t)) in
  rd buf (Z.to_nat (Z.land (t_consndx t) (t_sizemask t))).

(** The loop over the queue and the loop over the pend count.  The code reads
    the pointer [buf] once, at the top; it is read here at each use, from the
    buffer [soft] that was chosen at the top, which keeps it until the level
    has turned to the other buffer. *)
Definition softint_loop_step (lev : nat) (s : sys) (t : thread) (sb : cyc_softbuf) : option sys :=
  let pcb := cys_buf sb (t_soft t) in
  match t_pc t with
  | PcWhile =>
      Some (set_thread s lev (Some (goto t
        (if t_consndx t =? cypc_prodndx pcb then PcHard else PcLoad))))
  | PcLoad =>
      let! k := consumed sb t in
      let! c := deref s (t_cyclics t, k) in
      Some (set_thread s lev (Some (Thread PcCall (t_soft t) (t_consndx t) (t_sizemask t)
        (t_cyclics t) (t_cyclics t, k) (cy_handler c) (cy_arg c) (t_resized t))))
  | PcCall =>
      Some (set_thread (count_call s (t_cyclic t).2) lev (Some (goto t PcReread)))
  | PcReread =>
      let! c := deref s (t_cyclic t) in
      let pend := s32 (cy_pend c) in
      Some (set_thread s lev (Some (goto t (if pend =? 0 then PcZero else PcCas pend))))
  | PcZero =>
      if decide (cyp_state (s_cpu s) = CYS_REMOVING) then
        Some (set_removed (set_thread s lev
          (Some (goto t (PcRpend (u32 (cyp_rpend (s_cpu s) - 1)))))) None)
      else
        let! k := consumed sb t in
        Some (set_thread s lev (Some (Thread PcReread (t_soft t) (t_consndx t) (t_sizemask t)
          (s_gen s) (s_gen s, k) (t_handler t) (t_arg t) (t_resized t))))
  | PcCas pend =>
      let npend := s32 (pend - 1) in
      let! c := deref s (t_cyclic t) in
      if cy_pend c =? u32 pend then
        let! s := store s (t_cyclic t) (with_pend c (u32 npend)) in
        Some (set_thread s lev (Some (goto t (if npend >? 0 then PcCall else PcAdvance))))
      else Some (set_thread s lev (Some (goto t PcReread)))
  | PcRpend n =>
      if n =? 0 then Some (set_thread (sema_v s) lev (Some (goto t PcAdvance)))
      else Some (set_thread (count_call s (t_cyclic t).2) lev (Some (goto t (PcRpend (n - 1)))))
  | PcAdvance =>
      let consndx := s32 (t_consndx t + 1) in
      let! s := set_softbuf s lev (set_cys_buf sb (t_soft t)
        (PcBuffer (cypc_buf pcb) (cypc_prodndx pcb) consndx (cypc_sizemask pcb))) in
      Some (set_thread s lev (Some (Thread PcWhile (t_soft t) consndx (t_sizemask t)
        (t_cyclics t) (t_cyclic t) (t_handler t) (t_arg t) (t_resized t))))
  | _ => None
  end.

(** The rest: the entry, and the acknowledgement of a resize. *)
Definition softint_resize_step (lev : nat) (s : sys) (t : thread) (sb : cyc_softbuf) : option sys :=
  match t_pc t with
  | PcTop =>
      let pcb := cys_buf sb (cys_soft sb) in
      Some (set_thread s lev (Some (Thread PcWhile (cys_soft sb) (cypc_consndx pcb)
        (cypc_sizemask pcb) (t_cyclics t) (t_cyclic t) (t_handler t) (t_arg t) (t_resized t))))
  | PcHard =>
      if decide (t_soft t ≠ cys_hard sb) then
        let! s := set_softbuf s lev (SoftBuf (cys_hard sb) (cys_hard sb) (cys_buf0 sb) (cys_buf1 sb)) in
        Some (set_thread s lev (Some (Thread PcTop (t_soft t) (t_consndx t) (t_sizemask t)
          (s_gen s) (t_cyclic t) (t_handler t) (t_arg t) true)))
      else Some (set_thread s lev (if t_resized t then Some (goto t PcLevels) else None))
  | PcLevels =>
      Some (set_thread s lev (Some (goto t (PcLevelsCas (cyp_modify_levels (s_cpu s))))))
  | PcLevelsCas l =>
      let nlev := u32 (l + 1) in
      if cyp_modify_levels (s_cpu s) =? l then
        let s := set_cpu s (with_levels (s_cpu s) nlev) in
        Some (set_thread s lev
          (if nlev =? Z.of_nat CY_SOFT_LEVELS then Some (goto t PcKick)
           else if (lev =? CY_LOW_LEVEL)%nat then None else Some (goto t PcPost)))
      else Some (set_thread s lev (Some (goto t PcLevels)))
  | PcKick => Some (set_thread (sema_v s) lev None)
  | PcPost => Some (set_thread s lev None)
  | _ => None
  end.

(** One step of the soft interrupt of level [lev]; [None] is a fault. *)
Definition softint_step (lev : nat) (s : sys) : option sys :=
  let! t := s_thread s lev in
  let! sb := rd (cyp_softbuf (s_cpu s)) lev in
  match t_pc t with
  | PcTop | PcHard | PcLevels | PcLevelsCas _ | PcKick | PcPost => softint_resize_step lev s t sb
  | _ => softint_loop_step lev s t sb
  end.

(** The entry to [cyclic_softint]. *)
Definition softint_start (lev : nat) (s : sys) : sys :=
  set_thread s lev (Some (Thread PcTop false 0 0 (s_gen s) (s_gen s, 0%nat) 0 0 false)).

(** ** The operations under [cpu_lock] *)

Definition other_buf (f : cyc_pcbuffer → cyc_pcbuffer) (sb : cyc_softbuf) : cyc_softbuf :=
  set_cys_buf sb (negb (cys_hard sb)) (f (cys_buf sb (negb (cys_hard sb)))).

Definition expand_begin (s : sys) : sys :=
  set_admin (set_cpu s (with_state (s_cpu s) CYS_EXPANDING)) AExpand.

(** The new size of the arrays. *)
Definition CY_DEFAULT_PERCPU : nat := 1.
Definition expand_size (cpu : cyc_cpu) : nat :=
  let new_size := Nat.shiftl (cyp_size cpu) 1 in
  if (new_size =? 0)%nat then CY_DEFAULT_PERCPU else new_size.

(** [junk] is the uninitialised content of the new buffers, of the new size. *)
Definition expand_prepare (junk : list nat) (s : sys) : sys :=
  let new_size := expand_size (s_cpu s) in
  let sbs := other_buf (λ _, PcBuffer (Some junk) 0 0 (Z.of_nat new_size - 1)) <$> cyp_softbuf (s_cpu s) in
  set_admin (set_cpu s (with_levels (with_softbuf (s_cpu s) sbs) 0)) AExpandReady.

Definition expand_switch (junk : list nat) (s : sys) : option sys :=
  let new_size := expand_size (s_cpu s) in
  let! (cpu, old, _) := cyclic_expand_xcall (s_cpu s) new_size junk (replicate new_size zero_cyclic) in
  Some (set_admin (set_arrays (set_cpu s cpu) (S (s_gen s)) (Some old)) AExpandWait).

(** [sema_p]: only enabled when the count is positive. *)
Definition expand_wake (s : sys) : option sys :=
  if cyp_modify_wait (s_cpu s) >? 0 then
    Some (set_admin (set_cpu s (with_wait (s_cpu s) (cyp_modify_wait (s_cpu s) - 1))) AExpandFree)
  else None.

Definition expand_free_old (s : sys) : sys :=
  let sbs := other_buf (λ pcb, PcBuffer None (cypc_prodndx pcb) (cypc_consndx pcb) (cypc_sizemask pcb))
               <$> cyp_softbuf (s_cpu s) in
  set_admin (set_arrays (set_cpu s (with_softbuf (s_cpu s) sbs)) (s_gen s) None) AExpandDone.

Definition expand_end (s : sys) : sys :=
  set_admin (set_cpu s (with_state (s_cpu s) CYS_ONLINE)) ANone.

Definition remove_begin (ndx : nat) (s : sys) : sys :=
  set_admin (set_cpu s (with_state (s_cpu s) CYS_REMOVING)) (ARemove ndx).

Definition remove_switch (ndx : nat) (s : sys) : option sys :=
  let! c := rd (cyp_cyclics (s_cpu s)) ndx in
  let! (cpu, _, _) := cyclic_remove_xcall (s_cpu s) ndx in
  let s := set_removed s (if cy_pend c =? 0 then None else Some (cy_level c, ndx)) in
  Some (set_admin (set_cpu s cpu) ARemoveWait).

Definition remove_wake (s : sys) : option sys :=
  if cyp_rpend (s_cpu s) =? 0 then Some (set_admin s ARemoveDone)
  else if cyp_modify_wait (s_cpu s) >? 0 then
    Some (set_admin (set_cpu s (with_wait (s_cpu s) (cyp_modify_wait (s_cpu s) - 1))) ARemoveDone)
  else None.

Definition remove_end (s : sys) : sys :=
  set_admin (set_cpu s (with_state (with_rpend (s_cpu s) 0) CYS_ONLINE)) ANone.

Definition add_switch (now : Z) (hdlr : cyc_handler) (when : cyc_time) (flags : Z) (s : sys) : option sys :=
  let! (cpu, _, _) := cyclic_add_xcall now (s_cpu s) hdlr when flags in
  Some (set_cpu s cpu).

(** The timer interrupt, with the bookkeeping of the expirations it hands to
    the soft levels. *)
Definition soft_exps (now : Z) (cpu : cyc_cpu) (k : nat) : Z :=
  match cyp_cyclics cpu !! k with
  | Some c => if bool_decide (k ∈ live cpu) && (cy_level c <? CY_SOFT_LEVELS)%nat
              then Z.of_nat (fires now c) else 0
  | None => 0
  end.

Definition fire_switch (now : Z) (s : sys) : option sys :=
  let! (cpu, _) := cyclic_fire now (s_cpu s) in
  Some (set_exps (set_cpu s cpu) (λ k, s_exps s k + soft_exps now (s_cpu s) k)).

(** ** Runs *)

(** The timer interrupt comes while no soft level cyclic is 2^31 expirations
    behind, with times in range. *)
Definition timely (now : Z) (s : sys) : Prop :=
  ∀ k c, k ∈ live (s_cpu s) → cyp_cyclics (s_cpu s) !! k = Some c →
    time_ok now c ∧ cy_pend c + Z.of_nat (fires now c) < 2 ^ 31.

(** The arguments of [cyclic_add_here]. *)
Definition add_args (now : Z) (hdlr : cyc_handler) (when : cyc_time) (flags : Z) : Prop :=
  0 <= now < 2 ^ 62 ∧ 0 <= cyt_when when < 2 ^ 63 ∧ 0 < cyt_interval when < 2 ^ 62 ∧
  (cyh_level hdlr <= CY_HIGH_LEVEL)%nat ∧ Z.land flags CYF_FREE = 0.

(** No soft interrupt has left its loop over a buffer that has been written
    since. *)
Definition no_late_entry (s : sys) : Prop :=
  ∀ lev t sb, s_thread s lev = Some t → t_pc t = PcHard → cyp_softbuf (s_cpu s) !! lev = Some sb →
    t_consndx t = cypc_prodndx (cys_buf sb (t_soft t)).

(** The steps that the conditions are about: the timer interrupt and the
    switch of the buffers of a resize. *)
Inductive happening := HFire (now : Z) | HSwitch | HOther.

Inductive step : sys → happening → sys → Prop :=
  | step_softint lev s s' :
      (lev < CY_SOFT_LEVELS)%nat → softint_step lev s = Some s' → step s HOther s'
  | step_start lev s :
      (lev < CY_SOFT_LEVELS)%nat → s_thread s lev = None → step s HOther (softint_start lev s)
  | step_fire now s s' :
      fire_switch now s = Some s' → step s (HFire now) s'
  | step_add now hdlr when flags s s' :
      s_admin s = ANone → (cyp_nelems (s_cpu s) < cyp_size (s_cpu s))%nat →
      add_args now hdlr when flags →
      add_switch now hdlr when flags s = Some s' → step s HOther s'
  | step_expand_begin s :
      s_admin s = ANone → step s HOther (expand_begin s)
  | step_expand_prepare junk s :
      s_admin s = AExpand → length junk = expand_size (s_cpu s) →
      Z.of_nat (cyp_size (s_cpu s)) < 2 ^ 30 → step s HOther (expand_prepare junk s)
  | step_expand_switch junk s s' :
      s_admin s = AExpandReady → length junk = expand_size (s_cpu s) →
      expand_switch junk s = Some s' → step s HSwitch s'
  | step_expand_wake s s' :
      s_admin s = AExpandWait → expand_wake s = Some s' → step s HOther s'
  | step_expand_free s :
      s_admin s = AExpandFree → step s HOther (expand_free_old s)
  | step_expand_end s :
      s_admin s = AExpandDone → step s HOther (expand_end s)
  | step_remove_begin ndx s :
      s_admin s = ANone → ndx ∈ live (s_cpu s) → step s HOther (remove_begin ndx s)
  | step_remove_switch ndx s s' :
      s_admin s = ARemove ndx → remove_switch ndx s = Some s' → step s HOther s'
  | step_remove_wake s s' :
      s_admin s = ARemoveWait → remove_wake s = Some s' → step s HOther s'
  | step_remove_end s :
      s_admin s = ARemoveDone → step s HOther (remove_end s).

(** A CPU that has just been configured and brought on line. *)
Definition initial (s : sys) : Prop :=
  ∃ junk, s = Sys (with_state (cyclic_configure junk) CYS_ONLINE) 0 None (λ _, None) ANone None (λ _, 0) (λ _, 0).

(** The two conditions: the timer interrupt is [timely], and a resize does
    not switch the buffers in the few instructions between the last look of a
    soft interrupt at the old one and its look at [cys_hard], if an entry was
    made there.  The code enforces neither. *)
Definition mild (s : sys) (e : happening) : Prop :=
  match e with HFire now => timely now s | HSwitch => no_late_entry s | HOther => True end.

(** The states that are reached while the conditions hold. *)
Inductive reachable : sys → Prop :=
  | reachable_initial s : initial s → reachable s
  | reachable_step s e s' : reachable s → step s e s' → mild s e → reachable s'.

(** ** The invariant *)

Definition is_rpend (pc : softpc) : bool := match pc with PcRpend _ => true | _ => false end.
Definition is_kick (pc : softpc) : bool := match pc with PcKick => true | _ => false end.

(** The entry at [consndx] has been dealt with. *)
Definition past_entry (pc : softpc) : bool :=
  match pc with PcRpend _ | PcAdvance => true | _ => false end.

(** The soft interrupt holds an entry of the queue. *)
Definition holding (pc : softpc) : bool :=
  match pc with PcCall | PcReread | PcZero | PcCas _ => true | _ => false end.

(** It has called the handler for it. *)
Definition called (pc : softpc) : bool :=
  match pc with PcReread | PcZero | PcCas _ => true | _ => false end.

(** Its copies of the consumer's variables are valid. *)
Definition in_loop (pc : softpc) : bool :=
  match pc with PcTop | PcLevels | PcLevelsCas _ | PcKick | PcPost => false | _ => true end.

(** It has not acknowledged a resize it has seen. *)
Definition early (pc : softpc) : bool :=
  match pc with PcKick | PcPost => false | _ => true end.

Definition soft_cons (sb : cyc_softbuf) : Z := cypc_consndx (cys_buf sb (cys_soft sb)).

(** The index of the first entry of a level's queue that is to be dealt
    with. *)
Definition start (s : sys) (lev : nat) : Z :=
  match cyp_softbuf (s_cpu s) !! lev with
  | Some sb =>
      match s_thread s lev with
      | Some t => if past_entry (t_pc t) then s32 (soft_cons sb + 1) else soft_cons sb
      | None => soft_cons sb
      end
  | None => 0
  end.

(** The queue in the buffer the consumer reads. *)
Definition soft_queue (sb : cyc_softbuf) (q1 q2 : list nat) : list nat :=
  if bool_decide (cys_hard sb = cys_soft sb) then q2 else q1.

(** A pointer to an array is current, or a resize that this level has not
    seen has just made it stale. *)
Definition gen_ok (s : sys) (sb : cyc_softbuf) (gen : nat) : Prop :=
  gen = s_gen s ∨
  (S gen = s_gen s ∧ s_admin s = AExpandWait ∧ cys_hard sb ≠ cys_soft sb).

Record thread_ok (s : sys) (lev : nat) (t : thread) (sb : cyc_softbuf) (q1 q2 : list nat) : Prop := {
  tk_loop : in_loop (t_pc t) = true →
    t_soft t = cys_soft sb ∧ t_consndx t = soft_cons sb ∧
    t_sizemask t = cypc_sizemask (cys_buf sb (cys_soft sb));
  tk_gen : (in_loop (t_pc t) = true ∨ t_pc t = PcTop) → gen_ok s sb (t_cyclics t);
  tk_load : t_pc t = PcLoad → soft_queue sb q1 q2 ≠ [];
  tk_hold : holding (t_pc t) = true → gen_ok s sb (t_cyclic t).1 ∧
    (∃ rest, soft_queue sb q1 q2 = (t_cyclic t).2 :: rest) ∧
    ∃ c, cyp_cyclics (s_cpu s) !! (t_cyclic t).2 = Some c ∧
      cy_handler c = t_handler t ∧ cy_arg c = t_arg t;
  tk_zero : t_pc t = PcZero → (t_cyclic t).1 ≠ s_gen s ∨ s_removed s = Some (lev, (t_cyclic t).2);
  tk_cas : ∀ p, t_pc t = PcCas p → 0 < p < 2 ^ 31;
  tk_rpend : ∀ n, t_pc t = PcRpend n → 0 <= n ∧ s_admin s = ARemoveWait ∧ s_removed s = None;
  tk_hard : t_pc t = PcHard → cys_hard sb ≠ cys_soft sb → q1 = [];
  tk_resized : t_resized t = true → early (t_pc t) = true →
    s_admin s = AExpandWait ∧ cys_hard sb = cys_soft sb;
  tk_levels : (t_pc t = PcLevels ∨ ∃ l, t_pc t = PcLevelsCas l) → t_resized t = true;
  tk_kick : t_pc t = PcKick → s_admin s = AExpandWait
}.

(** Sums over the two soft levels. *)
Definition tsum (f : nat → thread → Z) (s : sys) : Z :=
  from_option (f 0%nat) 0 (s_thread s 0%nat) + from_option (f 1%nat) 0 (s_thread s 1%nat).

Definition b2z (b : bool) : Z := if b then 1 else 0.

(** The level's soft interrupt has acknowledged the resize. *)
Definition acked (s : sys) (lev : nat) : bool :=
  match cyp_softbuf (s_cpu s) !! lev with
  | Some sb =>
      bool_decide (cys_hard sb = cys_soft sb) &&
      match s_thread s lev with
      | Some t => negb (t_resized t && early (t_pc t))
      | None => true
      end
  | None => false
  end.

(** Nothing is in progress. *)
Definition calm (s : sys) : Prop :=
  (∀ lev sb, (lev < CY_SOFT_LEVELS)%nat → cyp_softbuf (s_cpu s) !! lev = Some sb → cys_hard sb = cys_soft sb) ∧
  cyp_modify_wait (s_cpu s) = 0 ∧ s_removed s = None ∧ s_old s = None.

(** The old array of a resize in progress: no pends, and the same cyclics. *)
Definition old_ok (s : sys) (q1 : nat → list nat) : Prop :=
  ∃ arr, s_old s = Some arr ∧
    (∀ k c, arr !! k = Some c → cy_pend c = 0 ∧
       ∃ c', cyp_cyclics (s_cpu s) !! k = Some c' ∧
         cy_level c' = cy_level c ∧ cy_handler c' = cy_handler c ∧ cy_arg c' = cy_arg c) ∧
    (∀ lev k, (lev < CY_SOFT_LEVELS)%nat → k ∈ q1 lev → (k < length arr)%nat).

Definition admin_ok (s : sys) (q1 : nat → list nat) : Prop :=
  match s_admin s with
  | ANone => cyp_state (s_cpu s) = CYS_ONLINE ∧ cyp_rpend (s_cpu s) = 0 ∧ calm s
  | AExpand => cyp_state (s_cpu s) = CYS_EXPANDING ∧ cyp_rpend (s_cpu s) = 0 ∧ calm s
  | AExpandReady =>
      cyp_state (s_cpu s) = CYS_EXPANDING ∧ cyp_rpend (s_cpu s) = 0 ∧ calm s ∧
      cyp_modify_levels (s_cpu s) = 0 ∧
      ∀ lev sb, (lev < CY_SOFT_LEVELS)%nat → cyp_softbuf (s_cpu s) !! lev = Some sb → softbuf_prepared (2 * cyp_size (s_cpu s)) sb
  | AExpandWait =>
      cyp_state (s_cpu s) = CYS_EXPANDING ∧ cyp_rpend (s_cpu s) = 0 ∧ s_removed s = None ∧ old_ok s q1 ∧
      cyp_modify_levels (s_cpu s) = b2z (acked s 0) + b2z (acked s 1) ∧
      cyp_modify_wait (s_cpu s) + tsum (λ _ t, b2z (is_kick (t_pc t))) s = b2z (acked s 0 && acked s 1)
  | AExpandFree =>
      cyp_state (s_cpu s) = CYS_EXPANDING ∧ cyp_rpend (s_cpu s) = 0 ∧
      (∀ lev sb, (lev < CY_SOFT_LEVELS)%nat → cyp_softbuf (s_cpu s) !! lev = Some sb → cys_hard sb = cys_soft sb) ∧
      cyp_modify_wait (s_cpu s) = 0 ∧ s_removed s = None
  | AExpandDone => cyp_state (s_cpu s) = CYS_EXPANDING ∧ cyp_rpend (s_cpu s) = 0 ∧ calm s
  | ARemove k => cyp_state (s_cpu s) = CYS_REMOVING ∧ cyp_rpend (s_cpu s) = 0 ∧ calm s ∧ k ∈ live (s_cpu s)
  | ARemoveWait =>
      cyp_state (s_cpu s) = CYS_REMOVING ∧ s_old s = None ∧
      (∀ lev sb, (lev < CY_SOFT_LEVELS)%nat → cyp_softbuf (s_cpu s) !! lev = Some sb → cys_hard sb = cys_soft sb) ∧
      0 <= cyp_rpend (s_cpu s) < 2 ^ 31 ∧ 0 <= cyp_modify_wait (s_cpu s) ∧
      cyp_modify_wait (s_cpu s) + tsum (λ _ t, b2z (is_rpend (t_pc t))) s +
        (if s_removed s is Some _ then 1 else 0) = (if cyp_rpend (s_cpu s) =? 0 then 0 else 1)
  | ARemoveDone => cyp_state (s_cpu s) = CYS_REMOVING ∧ calm s
  end.

Definition pend_of (s : sys) (k : nat) : Z := from_option cy_pend 0 (cyp_cyclics (s_cpu s) !! k).

Definition called_for (k lev : nat) (t : thread) : Z :=
  if called (t_pc t) && (Nat.eqb (t_cyclic t).2 k) then 1 else 0.

Definition rpend_for (k lev : nat) (t : thread) : Z :=
  match t_pc t with PcRpend n => if Nat.eqb (t_cyclic t).2 k then n else 0 | _ => 0 end.

Definition removed_for (s : sys) (k : nat) : Z :=
  match s_removed s with Some (_, k') => if Nat.eqb k' k then cyp_rpend (s_cpu s) else 0 | None => 0 end.

(** The handler calls that are still owed to the cyclic at [k]. *)
Definition owed (s : sys) (k : nat) : Z :=
  pend_of s k + removed_for s k + tsum (rpend_for k) s - tsum (called_for k) s.

Record inv (s : sys) (q1 q2 : nat → list nat) : Prop := {
  iv_wf : heap_wf (s_cpu s);
  iv_soft : soft_inv (s_cpu s) (s_removed s) (start s) q1 q2;
  iv_pend : ∀ k c, cyp_cyclics (s_cpu s) !! k = Some c → 0 <= cy_pend c < 2 ^ 31;
  iv_thread : ∀ lev t sb, (lev < CY_SOFT_LEVELS)%nat → s_thread s lev = Some t →
    cyp_softbuf (s_cpu s) !! lev = Some sb → thread_ok s lev t sb (q1 lev) (q2 lev);
  iv_admin : admin_ok s q1;
  iv_count : ∀ k, s_exps s k = s_calls s k + owed s k
}.

(** ** Frame lemmas *)

Lemma upd_eq {A} (f : nat → A) i x : upd f i x i = x.
Proof. unfold upd. by rewrite decide_True. Qed.

Lemma upd_ne {A} (f : nat → A) i j x : j ≠ i → upd f i x j = f j.
Proof. intros. unfold upd. by rewrite decide_False. Qed.

Lemma tsum_upd f s s' lev t' :
  (lev < CY_SOFT_LEVELS)%nat → s_thread s' = upd (s_thread s) lev t' →
  tsum f s' = tsum f s - from_option (f lev) 0 (s_thread s lev) + from_option (f lev) 0 t'.
Proof.
  intros Hlev Ht. unfold tsum. rewrite Ht. unfold CY_SOFT_LEVELS in Hlev.
  destruct lev as [|[|]]; [| |lia]; rewrite upd_eq, upd_ne by done; lia.
Qed.

Lemma tsum_ext f s s' : s_thread s' = s_thread s → tsum f s' = tsum f s.
Proof. intros Ht. unfold tsum. by rewrite Ht. Qed.

Lemma tsum_lookup (f : nat → thread → Z) s lev t :
  (∀ lev t, 0 <= f lev t) → (lev < CY_SOFT_LEVELS)%nat → s_thread s lev = Some t → f lev t <= tsum f s.
Proof.
  intros Hf Hlev Ht. unfold tsum. unfold CY_SOFT_LEVELS in Hlev.
  assert (∀ l o, 0 <= from_option (f l) 0 o) as Hge by (intros l [t'|]; cbn; [apply Hf|lia]).
  pose proof (Hge 0%nat (s_thread s 0%nat)). pose proof (Hge 1%nat (s_thread s 1%nat)).
  destruct lev as [|[|]]; [| |lia]; rewrite Ht in *; cbn [from_option] in *; lia.
Qed.

(** The same cyclics, up to their times, pend counts and flags. *)
Definition same_cyclics (cs cs' : list cyclic_t) : Prop :=
  ∀ k c, cs !! k = Some c → ∃ c', cs' !! k = Some c' ∧
    cy_level c' = cy_level c ∧ cy_handler c' = cy_handler c ∧ cy_arg c' = cy_arg c.

Lemma same_cyclics_refl cs : same_cyclics cs cs.
Proof. intros k c Hc. eauto. Qed.

Lemma thread_ok_ext s s' lev t sb q1 q2 q2' :
  s_gen s' = s_gen s → s_admin s' = s_admin s →
  (∀ k, s_removed s = Some (lev, k) → s_removed s' = Some (lev, k)) →
  (s_removed s = None → s_removed s' = None) →
  same_cyclics (cyp_cyclics (s_cpu s)) (cyp_cyclics (s_cpu s')) → q2 `prefix_of` q2' →
  thread_ok s lev t sb q1 q2 → thread_ok s' lev t sb q1 q2'.
Proof.
  intros Hg Ha Hr Hr' Hcs [q Hq] [T1 T2 T3 T4 T5 T6 T7 T8 T9 T10 T11].
  assert (∀ g, gen_ok s sb g → gen_ok s' sb g) as Hgen by (intros g; unfold gen_ok; by rewrite Hg, Ha).
  constructor; rewrite ?Hg, ?Ha; try done.
  - intros H. by apply Hgen, T2.
  - intros H. specialize (T3 H). unfold soft_queue in *. destruct (bool_decide _); [|done].
    rewrite Hq. by destruct q2.
  - intros H. destruct (T4 H) as (H1 & (rest & H2) & c & H3 & H4 & H5). split_and!; [by apply Hgen| |].
    + unfold soft_queue in *. destruct (bool_decide _); [|by eexists]. rewrite Hq, H2. by eexists.
    + destruct (Hcs _ _ H3) as (c' & Hc' & E1 & E2 & E3). exists c'. by rewrite E2, E3.
  - intros H. destruct (T5 H); auto.
  - intros n H. destruct (T7 n H) as (? & ? & ?). auto.
Qed.

Lemma acked_ext s s' lev :
  cyp_softbuf (s_cpu s') !! lev = cyp_softbuf (s_cpu s) !! lev → s_thread s' lev = s_thread s lev →
  acked s' lev = acked s lev.
Proof. intros H1 H2. unfold acked. by rewrite H1, H2. Qed.

Lemma start_ext s s' lev :
  cyp_softbuf (s_cpu s') !! lev = cyp_softbuf (s_cpu s) !! lev → s_thread s' lev = s_thread s lev →
  start s' lev = start s lev.
Proof. intros H1 H2. unfold start. by rewrite H1, H2. Qed.

Lemma soft_inv_start cpu rm st st' q1 q2 :
  (∀ lev, (lev < CY_SOFT_LEVELS)%nat → st' lev = st lev) →
  soft_inv cpu rm st q1 q2 → soft_inv cpu rm st' q1 q2.
Proof.
  intros Hst [H1 H2 H3 H4]. constructor; try done. intros lev Hlev. rewrite Hst by done. by apply H1.
Qed.

(** A step that moves a soft interrupt on and changes nothing else but the
    counts. *)
Definition move (s : sys) (lev : nat) (t' : option thread) (calls : nat → Z) : sys :=
  Sys (s_cpu s) (s_gen s) (s_old s) (upd (s_thread s) lev t') (s_admin s) (s_removed s) (s_exps s) calls.

Definition thread_flags (o : option thread) : bool * bool * bool :=
  match o with
  | Some t => (is_kick (t_pc t), is_rpend (t_pc t), t_resized t && early (t_pc t))
  | None => (false, false, false)
  end.

Definition thread_past (o : option thread) : bool :=
  match o with Some t => past_entry (t_pc t) | None => false end.

Lemma start_eq s lev sb :
  cyp_softbuf (s_cpu s) !! lev = Some sb →
  start s lev = if thread_past (s_thread s lev) then s32 (soft_cons sb + 1) else soft_cons sb.
Proof. intros H. unfold start, thread_past. rewrite H. by destruct (s_thread s lev). Qed.

Lemma acked_eq s lev sb :
  cyp_softbuf (s_cpu s) !! lev = Some sb →
  acked s lev = bool_decide (cys_hard sb = cys_soft sb) && negb (thread_flags (s_thread s lev)).2.
Proof. intros H. unfold acked, thread_flags. rewrite H. by destruct (s_thread s lev). Qed.

Lemma tsum_flags (f : bool * bool * bool → Z) s s' :
  f (false, false, false) = 0 →
  (∀ lev, thread_flags (s_thread s' lev) = thread_flags (s_thread s lev)) →
  tsum (λ _ t, f (thread_flags (Some t))) s' = tsum (λ _ t, f (thread_flags (Some t))) s.
Proof.
  intros Hf Hfl. unfold tsum.
  assert (∀ o, from_option (λ t, f (thread_flags (Some t))) 0 o = f (thread_flags o)) as Ho by (by intros [|]).
  by rewrite !Ho, !Hfl.
Qed.

(** The state of the operation under [cpu_lock] does not depend on the pend
    counts, the times and the queues' growth. *)
Lemma admin_ok_ext s s' q1 q1' :
  s_admin s' = s_admin s → s_removed s' = s_removed s → s_old s' = s_old s →
  cyp_state (s_cpu s') = cyp_state (s_cpu s) → cyp_rpend (s_cpu s') = cyp_rpend (s_cpu s) →
  cyp_modify_wait (s_cpu s') = cyp_modify_wait (s_cpu s) →
  cyp_modify_levels (s_cpu s') = cyp_modify_levels (s_cpu s) →
  cyp_size (s_cpu s') = cyp_size (s_cpu s) →
  length (cyp_softbuf (s_cpu s')) = length (cyp_softbuf (s_cpu s)) →
  (∀ lev sb', cyp_softbuf (s_cpu s') !! lev = Some sb' → ∃ sb, cyp_softbuf (s_cpu s) !! lev = Some sb ∧
     cys_hard sb' = cys_hard sb ∧ cys_soft sb' = cys_soft sb ∧
     (cys_hard sb = cys_soft sb → cys_buf sb' (negb (cys_hard sb)) = cys_buf sb (negb (cys_hard sb)))) →
  (∀ k, k ∈ live (s_cpu s) → k ∈ live (s_cpu s')) →
  same_cyclics (cyp_cyclics (s_cpu s)) (cyp_cyclics (s_cpu s')) →
  (∀ lev, thread_flags (s_thread s' lev) = thread_flags (s_thread s lev)) →
  (∀ lev k, (lev < CY_SOFT_LEVELS)%nat → k ∈ q1' lev → k ∈ q1 lev) →
  admin_ok s q1 → admin_ok s' q1'.
Proof.
  intros E1 E2 E3 E4 E5 E6 E7 E8 Hlen Hsb Hlive Hcs Hfl Hq H.
  assert (∀ lev, acked s' lev = acked s lev) as Hack.
  { intros lev. unfold acked. specialize (Hsb lev). destruct (cyp_softbuf (s_cpu s') !! lev) as [sb'|] eqn:E.
    - destruct (Hsb sb' eq_refl) as (sb & -> & -> & -> & _). f_equal.
      assert (∀ o, match o with Some t => negb (t_resized t && early (t_pc t)) | None => true end =
        negb (thread_flags o).2) as Ho by (by intros [|]). by rewrite !Ho, Hfl.
    - apply lookup_ge_None in E. rewrite lookup_ge_None_2; [done|lia]. }
  pose proof (tsum_flags (λ x, b2z x.1.1) s s' eq_refl Hfl) as Hk.
  pose proof (tsum_flags (λ x, b2z x.1.2) s s' eq_refl Hfl) as Hr. cbn in Hk, Hr.
  assert ((∀ lev sb, (lev < CY_SOFT_LEVELS)%nat → cyp_softbuf (s_cpu s) !! lev = Some sb → cys_hard sb = cys_soft sb) →
          ∀ lev sb, (lev < CY_SOFT_LEVELS)%nat → cyp_softbuf (s_cpu s') !! lev = Some sb → cys_hard sb = cys_soft sb) as Hhs.
  { intros Hs lev sb' Hlev E. destruct (Hsb lev sb' E) as (sb & Hs1 & Hh & Hs2 & _). rewrite Hh, Hs2. by eapply Hs. }
  assert (calm s → calm s') as Hcalm.
  { intros (C1 & C2 & C3 & C4). split_and!; [by apply Hhs|congruence..]. }
  unfold admin_ok in *. rewrite E1. destruct (s_admin s); rewrite ?E2, ?E3, ?E4, ?E5, ?E6, ?E7, ?Hack, ?Hk, ?Hr;
    try (destruct_and! H; split_and!; auto; fail).
  - destruct H as (? & ? & ? & ? & Hprep). split_and!; auto. intros lev sb' Hlev E. rewrite E8.
    destruct (Hsb lev sb' E) as (sb & Hs1 & Hh & Hs & Hb). destruct (Hprep lev sb Hlev Hs1) as (P1 & P2 & l & P3 & P4).
    split_and!; [congruence|done|]. exists l. by rewrite Hh, Hb.
  - destruct H as (? & ? & ? & (arr & Ha & Harr & Hin) & ? & ?). split_and!; auto. exists arr. split_and!; [by rewrite E3| |].
    + intros k c Hc. destruct (Harr k c Hc) as (Hp & c' & Hc' & F1 & F2 & F3). split; [done|].
      destruct (Hcs k c' Hc') as (c'' & Hc'' & G1 & G2 & G3). exists c''. by rewrite G1, G2, G3.
    + intros lev k Hlev Hk'. eapply Hin, Hq; done.
  - destruct H as (? & ? & ? & ? & ?). split_and!; try done; by apply Hhs.
  - destruct H as (? & ? & ? & ? & ? & ?). split_and!; try done; try lia; by apply Hhs.
Qed.

Lemma inv_move s q1 q2 lev t' calls :
  inv s q1 q2 → (lev < CY_SOFT_LEVELS)%nat →
  thread_flags t' = thread_flags (s_thread s lev) → thread_past t' = thread_past (s_thread s lev) →
  (∀ t sb, t' = Some t → cyp_softbuf (s_cpu s) !! lev = Some sb → thread_ok s lev t sb (q1 lev) (q2 lev)) →
  (∀ k, s_exps s k = calls k + owed (move s lev t' calls) k) →
  inv (move s lev t' calls) q1 q2.
Proof.
  intros [I1 I2 I3 I4 I5 I6] Hlev Hfl Hpast Hok Hcount.
  destruct (si_buf _ _ _ _ _ I2 lev Hlev) as (sb & Hsb & _). constructor; try done.
  - eapply soft_inv_start; [|exact I2]. intros l Hl. destruct (decide (l = lev)) as [->|].
    + rewrite !(start_eq _ _ sb) by done. cbn. by rewrite upd_eq, Hpast.
    + apply start_ext; [done|]. cbn. by rewrite upd_ne.
  - intros l t sb' Hl. cbn [move s_thread s_cpu]. intros Ht Hsb'.
    apply (thread_ok_ext s _ _ _ _ _ (q2 l)); [done|done|done|done|apply same_cyclics_refl|done|].
    destruct (decide (l = lev)) as [->|].
    + rewrite upd_eq in Ht. by apply Hok.
    + rewrite upd_ne in Ht by done. by apply I4.
  - apply (admin_ok_ext s _ q1); try done.
    + intros l sb' E. by exists sb'.
    + apply same_cyclics_refl.
    + intros l. cbn. destruct (decide (l = lev)) as [->|]; [by rewrite upd_eq|by rewrite upd_ne].
Qed.

(** The same when no call is made and none becomes due. *)
Lemma inv_goto s q1 q2 lev t t' :
  inv s q1 q2 → (lev < CY_SOFT_LEVELS)%nat → s_thread s lev = Some t →
  thread_flags (Some t') = thread_flags (Some t) → thread_past (Some t') = thread_past (Some t) →
  (∀ sb, cyp_softbuf (s_cpu s) !! lev = Some sb → thread_ok s lev t' sb (q1 lev) (q2 lev)) →
  (∀ k, called_for k lev t' = called_for k lev t ∧ rpend_for k lev t' = rpend_for k lev t) →
  inv (set_thread s lev (Some t')) q1 q2.
Proof.
  intros Hinv Hlev Ht Hfl Hpast Hok Hcount.
  apply (inv_move s q1 q2 lev (Some t') (s_calls s)); rewrite ?Ht; try done.
  - intros t1 sb [= <-]. apply Hok.
  - intros k. rewrite (iv_count _ _ _ Hinv k). unfold owed. destruct (Hcount k) as [H1 H2].
    rewrite !(tsum_upd _ s (move _ _ _ _) lev (Some t')) by done. rewrite Ht. cbn [from_option].
    rewrite H1, H2. change (pend_of (move _ _ _ _) k) with (pend_of s k).
    change (removed_for (move _ _ _ _) k) with (removed_for s k). lia.
Qed.

(** ** The loop of the soft interrupt *)

Section softint.
Context (s : sys) (q1 q2 : nat → list nat) (lev : nat) (t : thread) (sb : cyc_softbuf).
Context (Hinv : inv s q1 q2) (Hlev : (lev < CY_SOFT_LEVELS)%nat).
Context (Ht : s_thread s lev = Some t) (Hsb : cyp_softbuf (s_cpu s) !! lev = Some sb).

Let Hok : thread_ok s lev t sb (q1 lev) (q2 lev) := iv_thread _ _ _ Hinv lev t sb Hlev Ht Hsb.

(** The invariant holds after the step. *)
Definition steps_to (o : option sys) : Prop := ∃ s' q1' q2', o = Some s' ∧ inv s' q1' q2'.

Lemma softbuf_lev : softbuf_ok sb (cyp_size (s_cpu s)) (start s lev) (q1 lev) (q2 lev).
Proof.
  destruct (si_buf _ _ _ _ _ (iv_soft _ _ _ Hinv) lev Hlev) as (sb' & Hsb' & H). congruence.
Qed.

(** The consumer's buffer holds the queue. *)
Lemma consumer_queue :
  pc_queue (cys_buf sb (cys_soft sb)) (start s lev) (soft_queue sb (q1 lev) (q2 lev)).
Proof.
  destruct softbuf_lev as [_ Hor]. unfold soft_queue.
  destruct (bool_decide_reflect (cys_hard sb = cys_soft sb)) as [E|]; [|apply Hor].
  rewrite <- E. apply Hor.
Qed.

Lemma start_cons : past_entry (t_pc t) = false → start s lev = soft_cons sb.
Proof. intros Hp. rewrite (start_eq s lev sb Hsb), Ht. cbn. by rewrite Hp. Qed.

Lemma consumed_head k rest :
  in_loop (t_pc t) = true → past_entry (t_pc t) = false →
  soft_queue sb (q1 lev) (q2 lev) = k :: rest → consumed sb t = Some k.
Proof.
  intros Hl Hp Hq. destruct (tk_loop _ _ _ _ _ _ Hok Hl) as (E1 & E2 & E3).
  destruct consumer_queue as (l & Hb & Hqa). rewrite Hq in Hqa. apply queue_consume in Hqa as [Hk _].
  unfold consumed, rd. rewrite E1, E2, E3, Hb. by rewrite <- (start_cons Hp).
Qed.

(** A valid pointer to a queued cyclic can be followed. *)
Lemma deref_queued gen k :
  gen_ok s sb gen → k ∈ soft_queue sb (q1 lev) (q2 lev) →
  ∃ c c', deref s (gen, k) = Some c ∧ cyp_cyclics (s_cpu s) !! k = Some c' ∧
    cy_level c' = cy_level c ∧ cy_handler c' = cy_handler c ∧ cy_arg c' = cy_arg c ∧
    (gen = s_gen s → c = c') ∧ (gen ≠ s_gen s → cy_pend c = 0).
Proof.
  intros Hg Hk. unfold deref, array. cbn [fst snd].
  assert (k ∈ q1 lev ++ q2 lev) as Hk'.
  { apply elem_of_app. unfold soft_queue in Hk. destruct (bool_decide _); auto. }
  pose proof (si_elem_lt _ _ _ _ _ _ _ (iv_wf _ _ _ Hinv) (iv_soft _ _ _ Hinv) Hlev Hk') as Hlt.
  destruct Hg as [->|(Hg & Ha & Hne)].
  - rewrite Nat.eqb_refl. rewrite <- (hw_cyc _ (iv_wf _ _ _ Hinv)) in Hlt.
    apply lookup_lt_is_Some in Hlt as [c Hc]. exists c, c. unfold rd. by rewrite Hc.
  - pose proof (iv_admin _ _ _ Hinv) as Hadm. unfold admin_ok in Hadm. rewrite Ha in Hadm.
    destruct Hadm as (_ & _ & _ & (arr & Hold & Harr & Hin) & _).
    unfold soft_queue in Hk. rewrite bool_decide_eq_false_2 in Hk by done.
    specialize (Hin lev k Hlev Hk). apply lookup_lt_is_Some in Hin as [c Hc].
    destruct (Harr k c Hc) as (Hp & c' & Hc' & ?).
    rewrite (proj2 (Nat.eqb_neq gen (s_gen s))), Hg, Nat.eqb_refl, Hold by lia.
    exists c, c'. unfold rd. rewrite Hc. split_and!; try done; try naive_solver. lia.
Qed.

Lemma gen_calm : s_admin s ≠ AExpandWait → ∀ gen, gen_ok s sb gen → gen = s_gen s.
Proof. intros Ha gen [?|(_ & ? & _)]; done. Qed.

Lemma softint_while : t_pc t = PcWhile → steps_to (softint_loop_step lev s t sb).
Proof.
  intros Hpc. unfold softint_loop_step. rewrite Hpc. eexists _, q1, q2. split; [done|].
  pose proof Hok as [T1 T2 T3 T4 T5 T6 T7 T8 T9 T10 T11]. rewrite Hpc in T1, T2, T9.
  destruct T1 as (E1 & E2 & E3); [done|].
  assert (pc_queue (cys_buf sb (t_soft t)) (t_consndx t) (soft_queue sb (q1 lev) (q2 lev))) as (l & Hl & Hq).
  { pose proof consumer_queue as Hq. rewrite (start_cons ltac:(by rewrite Hpc)) in Hq. by rewrite E1, E2. }
  pose proof (queue_empty _ _ _ _ _ Hq) as Hem.
  destruct (Z.eqb_spec (t_consndx t) (cypc_prodndx (cys_buf sb (t_soft t)))) as [He|He];
    (apply (inv_goto s q1 q2 lev t); [done|done|done|cbn; by rewrite Hpc|cbn; by rewrite Hpc| |
      intros k; unfold called_for, rpend_for; cbn; by rewrite Hpc]).
  - intros sb' Hsb'. assert (sb' = sb) as -> by congruence. constructor; cbn; try done; auto.
    + intros _ Hne. apply Hem in He. unfold soft_queue in He. by rewrite bool_decide_eq_false_2 in He.
    + by intros [?|[? ?]].
  - intros sb' Hsb'. assert (sb' = sb) as -> by congruence. constructor; cbn; try done; auto.
    + intros _ Hn. by apply He, Hem.
    + by intros [?|[? ?]].
Qed.

Lemma softint_load : t_pc t = PcLoad → steps_to (softint_loop_step lev s t sb).
Proof.
  intros Hpc. unfold softint_loop_step. rewrite Hpc.
  pose proof Hok as [T1 T2 T3 T4 T5 T6 T7 T8 T9 T10 T11]. rewrite Hpc in T1, T2, T9.
  destruct (soft_queue sb (q1 lev) (q2 lev)) as [|k rest] eqn:Hq; [by destruct T3|].
  rewrite (consumed_head k rest) by (done || by rewrite Hpc).
  destruct (deref_queued (t_cyclics t) k) as (c & c' & -> & Hc' & E1 & E2 & E3 & _ & _).
  { apply T2. by left. } { rewrite Hq. by left. }
  eexists _, q1, q2. split; [done|].
  apply (inv_goto s q1 q2 lev t); [done|done|done|cbn; by rewrite Hpc|cbn; by rewrite Hpc| |
    intros j; unfold called_for, rpend_for; cbn; by rewrite Hpc].
  intros sb' Hsb'. assert (sb' = sb) as -> by congruence. constructor; cbn; try done; auto.
  - intros _. split_and!; [by apply T2; left|rewrite Hq; by eexists|].
    by exists c'.
  - by intros [?|[? ?]].
Qed.

Lemma softint_call : t_pc t = PcCall → steps_to (softint_loop_step lev s t sb).
Proof.
  intros Hpc. unfold softint_loop_step. rewrite Hpc. eexists _, q1, q2. split; [done|].
  pose proof Hok as [T1 T2 T3 T4 T5 T6 T7 T8 T9 T10 T11]. rewrite Hpc in T1, T2, T4, T9.
  apply (inv_move s q1 q2 lev (Some (goto t PcReread))); try done; rewrite ?Ht; cbn; try by rewrite Hpc.
  - intros t1 sb' [= <-] Hsb'. assert (sb' = sb) as -> by congruence. constructor; cbn; try done; auto.
    by intros [?|[? ?]].
  - intros k. rewrite (iv_count _ _ _ Hinv k). unfold owed.
    rewrite !(tsum_upd _ s (move _ _ _ _) lev (Some (goto t PcReread))) by done. rewrite Ht. cbn [from_option].
    change (pend_of (move _ _ _ _) k) with (pend_of s k). change (removed_for (move _ _ _ _) k) with (removed_for s k).
    unfold called_for, rpend_for. cbn [goto t_pc t_cyclic called]. rewrite Hpc. cbn [called andb].
    unfold upd. destruct (decide (k = (t_cyclic t).2)) as [->|Hne].
    + rewrite Nat.eqb_refl. lia.
    + rewrite (proj2 (Nat.eqb_neq (t_cyclic t).2 k)) by done. lia.
Qed.

(** A queued cyclic is pending, or is the one that was removed. *)
Lemma queued_cases k c :
  k ∈ soft_queue sb (q1 lev) (q2 lev) → cyp_cyclics (s_cpu s) !! k = Some c →
  (cy_level c = lev ∧ 0 < cy_pend c ∧ s_removed s ≠ Some (lev, k)) ∨
  (s_removed s = Some (lev, k) ∧ cy_pend c = 0).
Proof.
  intros Hk Hc. assert (k ∈ q1 lev ++ q2 lev) as Hk'.
  { apply elem_of_app. unfold soft_queue in Hk. destruct (bool_decide _); auto. }
  pose proof (iv_wf _ _ _ Hinv) as Hwf. pose proof (iv_soft _ _ _ Hinv) as Hsi.
  destruct (decide (s_removed s = Some (lev, k))) as [Hrm|Hrm].
  - right. split; [done|]. destruct (si_rm _ _ _ _ _ Hsi lev k Hrm) as [Hlt Hnl].
    destruct (live_or_free _ Hwf k Hlt) as [?|Hf]; [done|].
    destruct (hw_free _ Hwf k Hf) as (c' & Hc' & _ & Hp). congruence.
  - left. apply (si_elem _ _ _ _ _ Hsi lev k Hlev) in Hk' as [(c' & Hc' & ? & ?)|?]; [|done].
    assert (c' = c) as -> by congruence. done.
Qed.

Lemma softint_reread : t_pc t = PcReread → steps_to (softint_loop_step lev s t sb).
Proof.
  intros Hpc. unfold softint_loop_step. rewrite Hpc.
  pose proof Hok as [T1 T2 T3 T4 T5 T6 T7 T8 T9 T10 T11]. rewrite Hpc in T1, T2, T4, T9.
  destruct T4 as (Hg & (rest & Hq) & Hold); [done|].
  destruct (deref_queued (t_cyclic t).1 (t_cyclic t).2) as (c & c' & Hd & Hc' & _ & _ & _ & Hfresh & Hstale); [done|rewrite Hq; by left|].
  rewrite <- surjective_pairing in Hd. rewrite Hd. eexists _, q1, q2. split; [done|].
  assert (0 <= cy_pend c < 2 ^ 31) as Hp.
  { destruct (decide ((t_cyclic t).1 = s_gen s)) as [E|E]; [|rewrite (Hstale E); lia].
    rewrite (Hfresh E). by apply (iv_pend _ _ _ Hinv (t_cyclic t).2). }
  rewrite (wraps_id 32) by lia.
  destruct (Z.eqb_spec (cy_pend c) 0) as [Hz|Hz];
    (apply (inv_goto s q1 q2 lev t); [done|done|done|cbn; by rewrite Hpc|cbn; by rewrite Hpc| |
      intros k; unfold called_for, rpend_for; cbn; by rewrite Hpc]);
    intros sb' Hsb'; assert (sb' = sb) as -> by congruence; constructor; cbn; try done; eauto;
    try by intros [?|[? ?]].
  - intros _. destruct (decide ((t_cyclic t).1 = s_gen s)) as [E|E]; [|by left]. right.
    rewrite (Hfresh E) in Hz. destruct (queued_cases (t_cyclic t).2 c') as [(_ & ? & _)|[? _]]; [rewrite Hq; by left|done|lia|done].
  - intros p [= <-]. lia.
Qed.

Lemma softint_reload :
  t_pc t = PcZero → cyp_state (s_cpu s) ≠ CYS_REMOVING → steps_to (softint_loop_step lev s t sb).
Proof.
  intros Hpc Hst. unfold softint_loop_step. rewrite Hpc, decide_False by done.
  pose proof Hok as [T1 T2 T3 T4 T5 T6 T7 T8 T9 T10 T11]. rewrite Hpc in T1, T2, T4, T9.
  destruct T4 as (Hg & (rest & Hq) & Hold); [done|].
  rewrite (consumed_head (t_cyclic t).2 rest) by (done || by rewrite Hpc).
  eexists _, q1, q2. split; [done|].
  apply (inv_goto s q1 q2 lev t); [done|done|done|cbn; by rewrite Hpc|cbn; by rewrite Hpc| |
    intros k; unfold called_for, rpend_for; cbn; by rewrite Hpc].
  intros sb' Hsb'. assert (sb' = sb) as -> by congruence. constructor; cbn; try done; auto.
  - intros _. by left.
  - intros _. split_and!; [by left|by eexists|done].
  - by intros [?|[? ?]].
Qed.

(** ** Taking an entry off the queue *)

Definition pop1 (rest : list nat) : nat → list nat :=
  if bool_decide (cys_hard sb = cys_soft sb) then q1 else upd q1 lev rest.
Definition pop2 (rest : list nat) : nat → list nat :=
  if bool_decide (cys_hard sb = cys_soft sb) then upd q2 lev rest else q2.

Lemma pop_other rest l : l ≠ lev → pop1 rest l = q1 l ∧ pop2 rest l = q2 l.
Proof. intros Hl. unfold pop1, pop2. destruct (bool_decide _); by rewrite ?upd_ne. Qed.

Lemma pop_cons k rest :
  soft_queue sb (q1 lev) (q2 lev) = k :: rest →
  q1 lev ++ q2 lev = k :: pop1 rest lev ++ pop2 rest lev ∧
  softbuf_ok sb (cyp_size (s_cpu s)) (s32 (start s lev + 1)) (pop1 rest lev) (pop2 rest lev).
Proof.
  intros Hq. destruct softbuf_lev as [Hsz Hor]. unfold soft_queue, pop1, pop2, softbuf_ok in *.
  destruct (bool_decide (cys_hard sb = cys_soft sb)); rewrite upd_eq.
  - destruct Hor as [Hq1 (l & Hl & Hqa)]. rewrite Hq1, Hq in *. apply queue_consume in Hqa as [_ Hqa].
    split; [done|]. split; [done|]. split; [done|]. by exists l.
  - destruct Hor as [(l & Hl & Hqa) Hh]. rewrite Hq in *. apply queue_consume in Hqa as [_ Hqa].
    split; [done|]. split; [done|]. split; [|done]. by exists l.
Qed.

Lemma soft_inv_pop cpu' rm' st' k rest :
  soft_queue sb (q1 lev) (q2 lev) = k :: rest →
  cyp_softbuf cpu' = cyp_softbuf (s_cpu s) → cyp_size cpu' = cyp_size (s_cpu s) →
  live cpu' = live (s_cpu s) →
  (∀ l, (l < CY_SOFT_LEVELS)%nat → st' l = if decide (l = lev) then s32 (start s lev + 1) else start s l) →
  (∀ l j, (l < CY_SOFT_LEVELS)%nat → (pending (cyp_cyclics cpu') l j ∨ rm' = Some (l, j)) ↔
     (pending (cyp_cyclics (s_cpu s)) l j ∨ s_removed s = Some (l, j)) ∧ ¬ (l = lev ∧ j = k)) →
  (rm' = s_removed s ∨ rm' = None) →
  soft_inv cpu' rm' st' (pop1 rest) (pop2 rest).
Proof.
  intros Hq Hs Hz Hl Hst Hp Hrm. pose proof (iv_soft _ _ _ Hinv) as Hsi. destruct (pop_cons k rest Hq) as [Hcons Hpop].
  constructor.
  - intros l Hll. rewrite Hs, Hz, Hst by done. destruct (decide (l = lev)) as [->|Hne]; [by exists sb|].
    destruct (pop_other rest l Hne) as [-> ->]. by apply (si_buf _ _ _ _ _ Hsi).
  - intros l Hll. pose proof (si_nodup _ _ _ _ _ Hsi l Hll) as Hnd. destruct (decide (l = lev)) as [->|Hne].
    + rewrite Hcons in Hnd. by apply NoDup_cons in Hnd as [_ ?].
    + by destruct (pop_other rest l Hne) as [-> ->].
  - intros l j Hll. rewrite Hp, <- (si_elem _ _ _ _ _ Hsi l j Hll) by done. destruct (decide (l = lev)) as [->|Hne].
    + pose proof (si_nodup _ _ _ _ _ Hsi lev Hlev) as Hnd. rewrite Hcons in Hnd |- *.
      apply NoDup_cons in Hnd as [Hnk _]. rewrite elem_of_cons. split; [|naive_solver].
      intros Hj. split; [by right|]. intros [_ ->]. done.
    + destruct (pop_other rest l Hne) as [-> ->]. naive_solver.
  - intros l j Hr. rewrite Hz, Hl. destruct Hrm as [E|E]; rewrite E in Hr; [|done]. by apply (si_rm _ _ _ _ _ Hsi l).
Qed.

Lemma pop1_sub k rest l j :
  soft_queue sb (q1 lev) (q2 lev) = k :: rest → j ∈ pop1 rest l → j ∈ q1 l.
Proof.
  intros Hq. unfold pop1, soft_queue in *. destruct (bool_decide _); [done|].
  unfold upd. destruct (decide (l = lev)) as [->|]; [|done]. rewrite Hq. by right.
Qed.

(** The other level's soft interrupt does not notice. *)
Lemma thread_ok_pop s' rest l t' sb' :
  s_gen s' = s_gen s → s_admin s' = s_admin s → s_old s' = s_old s →
  (∀ j, s_removed s = Some (l, j) → s_removed s' = Some (l, j)) →
  (s_removed s = None → s_removed s' = None) →
  same_cyclics (cyp_cyclics (s_cpu s)) (cyp_cyclics (s_cpu s')) →
  (l < CY_SOFT_LEVELS)%nat → l ≠ lev → s_thread s l = Some t' → cyp_softbuf (s_cpu s) !! l = Some sb' →
  thread_ok s' l t' sb' (pop1 rest l) (pop2 rest l).
Proof.
  intros Hg Ha Ho Hr Hr' Hcs Hl Hne Ht' Hsb'. destruct (pop_other rest l Hne) as [-> ->].
  eapply thread_ok_ext; [..|by apply (iv_thread _ _ _ Hinv)]; done.
Qed.

(** The loop invariant of a soft interrupt that has dealt with its entry. *)
Lemma thread_ok_past s' pc rest :
  past_entry pc = true → s_gen s' = s_gen s → s_admin s' = s_admin s →
  holding (t_pc t) = true →
  (∀ n, pc = PcRpend n → 0 <= n ∧ s_admin s' = ARemoveWait ∧ s_removed s' = None) →
  thread_ok s' lev (goto t pc) sb (pop1 rest lev) (pop2 rest lev).
Proof.
  intros Hp Hg Ha Hh Hn. pose proof Hok as [T1 T2 T3 T4 T5 T6 T7 T8 T9 T10 T11].
  assert (in_loop (t_pc t) = true ∧ early (t_pc t) = true) as [Hl He] by (by destruct (t_pc t)).
  assert (∀ g, gen_ok s sb g → gen_ok s' sb g) as Hgen by (intros g; unfold gen_ok; by rewrite Hg, Ha).
  constructor; cbn [goto t_pc t_soft t_consndx t_sizemask t_cyclics t_resized]; try (by destruct pc); auto.
  - intros Hr _. rewrite Ha. by apply T9.
  - intros [->|[l ->]]; done.
Qed.

(** A removed cyclic: its remaining calls are made here. *)
Lemma softint_removed :
  t_pc t = PcZero → cyp_state (s_cpu s) = CYS_REMOVING → steps_to (softint_loop_step lev s t sb).
Proof.
  intros Hpc Hst. unfold softint_loop_step. rewrite Hpc, decide_True by done.
  pose proof Hok as [T1 T2 T3 T4 T5 T6 T7 T8 T9 T10 T11]. rewrite Hpc in T1, T2, T4, T5, T9.
  destruct T4 as (Hg & (rest & Hq) & c & Hc & _); [done|]. set (k := (t_cyclic t).2) in *.
  pose proof (iv_admin _ _ _ Hinv) as Hadm. unfold admin_ok in Hadm.
  assert (s_admin s ≠ AExpandWait) as Hnw by (intros E; rewrite E in Hadm; destruct Hadm; congruence).
  assert (s_removed s = Some (lev, k)) as Hrm.
  { destruct T5 as [Hne|?]; [done| |done]. by apply (gen_calm Hnw) in Hg. }
  assert (s_admin s = ARemoveWait) as Haw.
  { destruct (s_admin s); unfold calm in Hadm; destruct_and? Hadm; congruence. }
  rewrite Haw, Hrm in Hadm. destruct Hadm as (_ & Hold & Hhs & Hrp & Hw & Hsum).
  pose proof (tsum_lookup (λ _ t, b2z (is_rpend (t_pc t))) s lev t ltac:(intros ? ?; unfold b2z; destruct (is_rpend _); lia) Hlev Ht) as Hge.
  cbn in Hge. rewrite Hpc in Hge. cbn in Hge.
  destruct (Z.eqb_spec (cyp_rpend (s_cpu s)) 0) as [?|Hrp0]; [lia|].
  assert (u32 (cyp_rpend (s_cpu s) - 1) = cyp_rpend (s_cpu s) - 1) as -> by (apply wrapu_id; lia).
  set (t' := goto t (PcRpend (cyp_rpend (s_cpu s) - 1))).
  set (s' := set_removed (set_thread s lev (Some t')) None). exists s', (pop1 rest), (pop2 rest). split; [done|].
  assert (s_thread s' = upd (s_thread s) lev (Some t')) as Hth by done.
  destruct (queued_cases k c ltac:(rewrite Hq; by left) Hc) as [(_ & _ & ?)|[_ Hpend]]; [done|].
  constructor.
  - apply (iv_wf _ _ _ Hinv).
  - apply (soft_inv_pop _ _ _ k); try done; [| |by right].
    + intros l Hl. destruct (decide (l = lev)) as [->|].
      * rewrite (start_eq s' lev sb Hsb), Hth, upd_eq. cbn. by rewrite (start_cons ltac:(by rewrite Hpc)).
      * apply start_ext; [done|]. by rewrite Hth, upd_ne.
    + intros l j Hl. rewrite Hrm. split.
      * intros [Hp|?]; [|done]. split; [by left|]. intros [-> ->]. destruct Hp as (c' & Hc' & _ & ?).
        assert (c' = c) as -> by (cbn in Hc'; congruence). lia.
      * intros [[?|[= <- <-]] Hn]; [by left|]. by destruct Hn.
  - apply (iv_pend _ _ _ Hinv).
  - intros l t1 sb' Hl. rewrite Hth. intros Ht1 Hsb'. destruct (decide (l = lev)) as [->|Hne].
    + rewrite upd_eq in Ht1. injection Ht1 as <-. assert (sb' = sb) as -> by (cbn in Hsb'; congruence).
      apply thread_ok_past; try done; [by rewrite Hpc|]. intros n [= <-]. split_and!; [lia|done|done].
    + rewrite upd_ne in Ht1 by done. apply (thread_ok_pop s'); try done; [|apply same_cyclics_refl].
      intros j Hj. rewrite Hrm in Hj. injection Hj as <- _. done.
  - unfold admin_ok. cbn [s' set_removed set_thread s_admin s_cpu s_old s_removed]. rewrite Haw.
    split_and!; try done; try lia. rewrite (tsum_upd _ s s' lev (Some t') Hlev Hth), Ht. cbn [from_option].
    rewrite Hpc. cbn. rewrite (proj2 (Z.eqb_neq _ _)) by done. cbn in Hsum. lia.
  - intros j. change (s_exps s' j) with (s_exps s j). rewrite (iv_count _ _ _ Hinv j).
    unfold owed. rewrite !(tsum_upd _ s s' lev (Some t') Hlev Hth), Ht.
    unfold removed_for. rewrite Hrm. change (s_removed s') with (@None (nat * nat)).
    change (pend_of s' j) with (pend_of s j). change (s_calls s' j) with (s_calls s j).
    cbn [from_option]. unfold called_for, rpend_for. rewrite Hpc. cbn [t' goto t_pc t_cyclic called andb]. fold k.
    destruct (Nat.eqb k j); lia.
Qed.

(** ** Counting an entry down *)

Lemma heap_wf_pend cpu k c p :
  heap_wf cpu → k ∈ live cpu → cyp_cyclics cpu !! k = Some c → cyc_ok c →
  0 <= p <= UINT32_MAX → (cy_level c = CY_HIGH_LEVEL → p = 0) →
  heap_wf (with_cyclics cpu (<[k := with_pend c p]> (cyp_cyclics cpu))).
Proof.
  intros Hwf Hk Hc [? ? ? ? ?] Hp Hh.
  eapply heap_wf_ext; [..|apply (heap_wf_update cpu k (with_pend c p) (cyp_heap cpu) Hwf Hk)]; try done.
  apply (heap_ok_same _ _ _ k c); [done|done|apply (hw_heap cpu Hwf)].
Qed.

Lemma same_cyclics_pend cs k c p :
  cs !! k = Some c → same_cyclics cs (<[k := with_pend c p]> cs).
Proof.
  intros Hc j d Hd. destruct (decide (j = k)) as [->|].
  - rewrite list_lookup_insert_eq by by eapply lookup_lt_Some. assert (d = c) as -> by congruence. by eexists.
  - rewrite list_lookup_insert_ne by done. by exists d.
Qed.

(** A successful [cas32]: [p] is the pend count, the handler has been called
    for one of the [p] expirations. *)
Section cas.
Context (p : Z) (c : cyclic_t) (pc : softpc).
Context (Hpc1 : (pc = PcCall ∧ 1 < p) ∨ (pc = PcAdvance ∧ p = 1)) (Hpc : t_pc t = PcCas p).
Context (Hgen : (t_cyclic t).1 = s_gen s) (Hc : cyp_cyclics (s_cpu s) !! (t_cyclic t).2 = Some c).
Context (Hcp : cy_pend c = p) (Hp : 0 < p < 2 ^ 31).

Let k := (t_cyclic t).2.
Let cs' := <[k := with_pend c (p - 1)]> (cyp_cyclics (s_cpu s)).
Let s' := set_thread (set_cpu s (with_cyclics (s_cpu s) cs')) lev (Some (goto t pc)).

Lemma cas_lookup j : cs' !! j = if decide (j = k) then Some (with_pend c (p - 1)) else cyp_cyclics (s_cpu s) !! j.
Proof.
  unfold cs'. destruct (decide (j = k)) as [->|]; [|by rewrite list_lookup_insert_ne].
  rewrite list_lookup_insert_eq; [done|]. by eapply lookup_lt_Some.
Qed.

Lemma cas_same : same_cyclics (cyp_cyclics (s_cpu s)) (cyp_cyclics (s_cpu s')).
Proof. by apply same_cyclics_pend. Qed.

Lemma cas_hold : ∃ rest, soft_queue sb (q1 lev) (q2 lev) = k :: rest.
Proof. by destruct (tk_hold _ _ _ _ _ _ Hok) as (_ & Hq & _); [rewrite Hpc|]. Qed.

Lemma cas_level : cy_level c = lev ∧ s_removed s ≠ Some (lev, k).
Proof.
  destruct cas_hold as [rest Hq].
  destruct (queued_cases k c ltac:(rewrite Hq; by left) Hc) as [(Hclev & _ & Hnrm)|[_ Hpend]]; [done|lia].
Qed.

Lemma cas_wf : heap_wf (s_cpu s').
Proof.
  pose proof (iv_wf _ _ _ Hinv) as Hwf.
  assert (k ∈ live (s_cpu s)) as Hlive.
  { destruct (live_or_free _ Hwf k) as [?|Hf]; [rewrite <- (hw_cyc _ Hwf); by eapply lookup_lt_Some|done|].
    destruct (hw_free _ Hwf k Hf) as (c' & Hc' & _ & Hp'). assert (c' = c) as -> by (unfold k in *; congruence). lia. }
  destruct (hw_live _ Hwf k Hlive) as (c' & Hc' & Hcok). assert (c' = c) as -> by (unfold k in *; congruence).
  apply heap_wf_pend; try done; [unfold UINT32_MAX; lia|]. intros Hhigh. pose proof (co_high c Hcok Hhigh). lia.
Qed.

Lemma cas_pend j d : cyp_cyclics (s_cpu s') !! j = Some d → 0 <= cy_pend d < 2 ^ 31.
Proof.
  cbn. rewrite cas_lookup. destruct (decide (j = k)); [|apply (iv_pend _ _ _ Hinv)].
  intros [= <-]. cbn. lia.
Qed.

Lemma cas_admin q1' : (∀ l j, (l < CY_SOFT_LEVELS)%nat → j ∈ q1' l → j ∈ q1 l) → admin_ok s' q1'.
Proof.
  assert (thread_flags (Some (goto t pc)) = thread_flags (Some t)) as Hfl
    by (cbn; rewrite Hpc; by destruct Hpc1 as [[-> _]|[-> _]]).
  pose proof cas_same as Hsame. intros Hsub. apply (admin_ok_ext s _ q1); try done.
  - intros l sb' E. by exists sb'.
  - intros l. change (s_thread s') with (upd (s_thread s) lev (Some (goto t pc))).
    destruct (decide (l = lev)) as [->|]; [by rewrite upd_eq, Ht|by rewrite upd_ne].
  - apply (iv_admin _ _ _ Hinv).
Qed.

Lemma cas_count j : s_exps s' j = s_calls s' j + owed s' j.
Proof.
  change (s_exps s' j) with (s_exps s j). rewrite (iv_count _ _ _ Hinv j). unfold owed.
  rewrite !(tsum_upd _ s s' lev (Some (goto t pc)) Hlev eq_refl), Ht. change (s_calls s' j) with (s_calls s j).
  change (removed_for s' j) with (removed_for s j). cbn [from_option]. unfold called_for, rpend_for.
  rewrite Hpc. cbn [goto t_pc t_cyclic]. fold k. unfold pend_of.
  cbn [s' set_thread set_cpu s_cpu with_cyclics cyp_cyclics]. rewrite cas_lookup.
  destruct (Nat.eqb_spec k j) as [<-|Hne].
  - rewrite decide_True by done. fold k in Hc. rewrite Hc. cbn. destruct Hpc1 as [[-> _]|[-> _]]; cbn; lia.
  - rewrite decide_False by done. destruct Hpc1 as [[-> _]|[-> _]]; cbn; lia.
Qed.

(** Expirations remain: the handler is called again for the same cyclic. *)
Lemma cas_more : pc = PcCall → 1 < p → inv s' q1 q2.
Proof.
  intros Ep Hgt. pose proof cas_same as Hsame.
  pose proof Hok as [T1 T2 T3 T4 T5 T6 T7 T8 T9 T10 T11]. rewrite Hpc in T1, T2, T4, T9.
  constructor; [apply cas_wf| |apply cas_pend| |by apply cas_admin|apply cas_count].
  - eapply soft_inv_start; [|eapply soft_inv_ext; [..|apply (iv_soft _ _ _ Hinv)]]; try done.
    + intros l Hl. destruct (decide (l = lev)) as [->|].
      * rewrite !(start_eq _ _ sb) by done. change (s_thread s') with (upd (s_thread s) lev (Some (goto t pc))).
        rewrite upd_eq, Ht. cbn. by rewrite Hpc, Ep.
      * apply start_ext; [done|]. change (s_thread s') with (upd (s_thread s) lev (Some (goto t pc))). by rewrite upd_ne.
    + apply (pending_insert_same _ _ c); [done|done|]. cbn. lia.
  - intros l t1 sb' Hl Ht1 Hsb'. apply (thread_ok_ext s _ _ _ _ _ (q2 l)); try done.
    change (s_thread s' l) with (upd (s_thread s) lev (Some (goto t pc)) l) in Ht1.
    destruct (decide (l = lev)) as [->|]; [|rewrite upd_ne in Ht1 by done; by apply (iv_thread _ _ _ Hinv)].
    rewrite upd_eq in Ht1. injection Ht1 as <-. assert (sb' = sb) as -> by (cbn in Hsb'; congruence). rewrite Ep.
    constructor; cbn [goto t_pc t_soft t_consndx t_sizemask t_cyclics t_cyclic t_resized t_handler t_arg]; try done; auto.
    by intros [?|[? ?]].
Qed.

(** It was the last one: the entry is consumed. *)
Lemma cas_last rest : soft_queue sb (q1 lev) (q2 lev) = k :: rest → pc = PcAdvance → p = 1 → inv s' (pop1 rest) (pop2 rest).
Proof.
  intros Hq Ep Hp1. pose proof cas_same as Hsame. destruct cas_level as [Hclev Hnrm].
  constructor; [apply cas_wf| |apply cas_pend| | |apply cas_count].
  - apply (soft_inv_pop _ _ _ k); try done; [| |by left].
    + intros l Hl. destruct (decide (l = lev)) as [->|].
      * rewrite (start_eq s' lev sb Hsb). change (s_thread s') with (upd (s_thread s) lev (Some (goto t pc))).
        rewrite upd_eq. cbn. by rewrite Ep, (start_cons ltac:(by rewrite Hpc)).
      * apply start_ext; [done|]. change (s_thread s') with (upd (s_thread s) lev (Some (goto t pc))). by rewrite upd_ne.
    + intros l j Hl. cbn. unfold cs'. rewrite pending_insert by by eapply lookup_lt_Some. destruct (decide (j = k)) as [->|].
      * rewrite Hp1. cbn. split; [intros [[_ ?]|Hrm]; [lia|]|].
        -- split; [by right|]. intros [-> _]. done.
        -- intros [[(d & Hd & Hl' & _)|?] Hn]; [|by right]. assert (d = c) as -> by (unfold k in *; congruence).
           destruct Hn. by split; [congruence|].
      * naive_solver.
  - intros l t1 sb' Hl Ht1 Hsb'. change (s_thread s' l) with (upd (s_thread s) lev (Some (goto t pc)) l) in Ht1.
    destruct (decide (l = lev)) as [->|Hne].
    + rewrite upd_eq in Ht1. injection Ht1 as <-. assert (sb' = sb) as -> by (cbn in Hsb'; congruence).
      rewrite Ep. apply thread_ok_past; try done. by rewrite Hpc.
    + rewrite upd_ne in Ht1 by done. by apply (thread_ok_pop s').
  - apply cas_admin. intros l j Hl Hj. by eapply pop1_sub.
Qed.

Lemma softint_cas_ok : steps_to (Some s').
Proof.
  destruct cas_hold as [rest Hq]. destruct Hpc1 as [[Ep Hgt]|[Ep Hp1]].
  - exists s', q1, q2. split; [done|]. by apply cas_more.
  - exists s', (pop1 rest), (pop2 rest). split; [done|]. by apply cas_last.
Qed.
End cas.

Lemma softint_cas p : t_pc t = PcCas p → steps_to (softint_loop_step lev s t sb).
Proof.
  intros Hpc. unfold softint_loop_step. rewrite Hpc.
  pose proof Hok as [T1 T2 T3 T4 T5 T6 T7 T8 T9 T10 T11]. pose proof (T6 p Hpc) as Hp. rewrite Hpc in T1, T2, T4, T9.
  destruct T4 as (Hg & (rest & Hq) & Hold); [done|].
  destruct (deref_queued (t_cyclic t).1 (t_cyclic t).2) as (c & c' & Hd & Hc' & _ & _ & _ & Hfresh & Hstale); [done|rewrite Hq; by left|].
  rewrite <- surjective_pairing in Hd. rewrite Hd, (wrapu_id 32 p) by lia.
  destruct (Z.eqb_spec (cy_pend c) p) as [Hcp|Hcp].
  - assert ((t_cyclic t).1 = s_gen s) as Hgen.
    { destruct (decide ((t_cyclic t).1 = s_gen s)) as [|E]; [done|]. rewrite (Hstale E) in Hcp. lia. }
    rewrite <- (Hfresh Hgen) in Hc'. rewrite (wraps_id 32) by lia. rewrite (wrapu_id 32) by lia.
    unfold store, array. rewrite Hgen, Nat.eqb_refl, wr_lt by by eapply lookup_lt_Some.
    apply (softint_cas_ok p c); try done. destruct (Z.gtb_spec (p - 1) 0); [left|right]; split; (done || lia).
  - eexists _, q1, q2. split; [done|].
    apply (inv_goto s q1 q2 lev t); [done|done|done|cbn; by rewrite Hpc|cbn; by rewrite Hpc| |
      intros k; unfold called_for, rpend_for; cbn; by rewrite Hpc].
    intros sb' Hsb'. assert (sb' = sb) as -> by congruence. constructor; cbn; try done; eauto.
    by intros [?|[? ?]].
Qed.

(** ** The remaining calls of a removed cyclic *)

Lemma thread_ok_goto_past pc :
  past_entry (t_pc t) = true → past_entry pc = true →
  (∀ n, pc = PcRpend n → 0 <= n ∧ s_admin s = ARemoveWait ∧ s_removed s = None) →
  thread_ok s lev (goto t pc) sb (q1 lev) (q2 lev).
Proof.
  intros Hp Hp' Hn. pose proof Hok as [T1 T2 T3 T4 T5 T6 T7 T8 T9 T10 T11].
  assert (in_loop (t_pc t) = true ∧ early (t_pc t) = true) as [Hl He] by (by destruct (t_pc t)).
  constructor; cbn [goto t_pc t_soft t_consndx t_sizemask t_cyclics t_cyclic t_resized];
    try (by destruct pc); auto.
  intros [->|[l ->]]; done.
Qed.

Lemma softint_rpend n : t_pc t = PcRpend n → steps_to (softint_loop_step lev s t sb).
Proof.
  intros Hpc. unfold softint_loop_step. rewrite Hpc.
  destruct (tk_rpend _ _ _ _ _ _ Hok n Hpc) as (Hn & Haw & Hrm).
  destruct (Z.eqb_spec n 0) as [->|Hn0].
  - set (t' := goto t PcAdvance). set (s' := set_thread (sema_v s) lev (Some t')).
    assert (s_thread s' = upd (s_thread s) lev (Some t')) as Hth by done.
    exists s', q1, q2. split; [done|]. pose proof Hinv as [I1 I2 I3 I4 I5 I6]. constructor; try done.
    + eapply heap_wf_ext; [..|exact I1]; done.
    + eapply soft_inv_start; [|eapply soft_inv_ext; [..|exact I2]]; try done.
      intros l Hl. destruct (decide (l = lev)) as [->|].
      * rewrite !(start_eq _ _ sb) by done. rewrite Hth, upd_eq, Ht. cbn. by rewrite Hpc.
      * apply start_ext; [done|]. by rewrite Hth, upd_ne.
    + intros l t1 sb' Hl. rewrite Hth. intros Ht1 Hsb'.
      apply (thread_ok_ext s _ _ _ _ _ (q2 l)); try done; [apply same_cyclics_refl|].
      destruct (decide (l = lev)) as [->|]; [|rewrite upd_ne in Ht1 by done; by apply I4].
      rewrite upd_eq in Ht1. injection Ht1 as <-. assert (sb' = sb) as -> by (cbn in Hsb'; congruence).
      apply thread_ok_goto_past; [by rewrite Hpc|done|done].
    + unfold admin_ok in I5 |- *. change (s_admin s') with (s_admin s). rewrite Haw in I5 |- *.
      destruct I5 as (? & ? & ? & ? & ? & Hsum). repeat (split; [first [done|cbn; lia]|]).
      rewrite (tsum_upd _ s s' lev (Some t') Hlev Hth), Ht. cbn [from_option]. rewrite Hpc. cbn. cbn in Hsum. lia.
    + intros j. change (s_exps s' j) with (s_exps s j). rewrite (I6 j). unfold owed.
      rewrite !(tsum_upd _ s s' lev (Some t') Hlev Hth), Ht. cbn [from_option]. unfold called_for, rpend_for.
      rewrite Hpc. cbn [t' goto t_pc t_cyclic called andb].
      change (removed_for s' j) with (removed_for s j). change (pend_of s' j) with (pend_of s j).
      change (s_calls s' j) with (s_calls s j). destruct (Nat.eqb _ _); lia.
  - eexists _, q1, q2. split; [done|].
    apply (inv_move s q1 q2 lev (Some (goto t (PcRpend (n - 1))))); try done; rewrite ?Ht; cbn; try by rewrite Hpc.
    + intros t1 sb' [= <-] Hsb'. assert (sb' = sb) as -> by congruence.
      apply thread_ok_goto_past; [by rewrite Hpc|done|]. intros m [= <-]. split_and!; [lia|done|done].
    + intros k. rewrite (iv_count _ _ _ Hinv k). unfold owed.
      rewrite !(tsum_upd _ s (move _ _ _ _) lev (Some (goto t (PcRpend (n - 1))))) by done. rewrite Ht. cbn [from_option].
      change (pend_of (move _ _ _ _) k) with (pend_of s k). change (removed_for (move _ _ _ _) k) with (removed_for s k).
      unfold called_for, rpend_for. cbn [goto t_pc t_cyclic called]. rewrite Hpc. cbn [called andb].
      unfold upd. destruct (decide (k = (t_cyclic t).2)) as [->|Hne].
      * rewrite Nat.eqb_refl. lia.
      * rewrite (proj2 (Nat.eqb_neq (t_cyclic t).2 k)) by done. lia.
Qed.

(** ** Moving to the next entry *)

(** The consumer's index is not part of the queue's representation. *)
Lemma softbuf_ok_cons size st b cons q1' q2' :
  b = cys_soft sb → softbuf_ok sb size st q1' q2' →
  let pcb := cys_buf sb b in
  softbuf_ok (set_cys_buf sb b (PcBuffer (cypc_buf pcb) (cypc_prodndx pcb) cons (cypc_sizemask pcb))) size st q1' q2'.
Proof.
  intros ->. unfold softbuf_ok, pc_queue. destruct sb as [[] [] b0 b1]; cbn; done.
Qed.

Lemma set_cys_buf_fields sb0 b pc :
  cys_hard (set_cys_buf sb0 b pc) = cys_hard sb0 ∧ cys_soft (set_cys_buf sb0 b pc) = cys_soft sb0 ∧
  cys_buf (set_cys_buf sb0 b pc) b = pc ∧ cys_buf (set_cys_buf sb0 b pc) (negb b) = cys_buf sb0 (negb b).
Proof. by destruct b. Qed.

Lemma softint_advance : t_pc t = PcAdvance → steps_to (softint_loop_step lev s t sb).
Proof.
  intros Hpc. unfold softint_loop_step. rewrite Hpc.
  pose proof Hok as [T1 T2 T3 T4 T5 T6 T7 T8 T9 T10 T11]. rewrite Hpc in T1, T2, T9.
  destruct T1 as (E1 & E2 & E3); [done|]. unfold set_softbuf. rewrite wr_lt by by eapply lookup_lt_Some.
  pose proof (lookup_lt_Some _ _ _ Hsb) as Hsl. rewrite E1.
  set (pcb := cys_buf sb (cys_soft sb)). set (cons := s32 (t_consndx t + 1)).
  set (sb' := set_cys_buf sb (cys_soft sb) (PcBuffer (cypc_buf pcb) (cypc_prodndx pcb) cons (cypc_sizemask pcb))).
  destruct (set_cys_buf_fields sb (cys_soft sb) (PcBuffer (cypc_buf pcb) (cypc_prodndx pcb) cons (cypc_sizemask pcb)))
    as (F1 & F2 & F3 & F4). fold sb' in F1, F2, F3, F4.
  set (t' := Thread PcWhile (cys_soft sb) cons _ _ _ _ _ _).
  eexists _, q1, q2. split; [done|].
  set (s' := set_thread _ lev (Some t')).
  assert (s_thread s' = upd (s_thread s) lev (Some t')) as Hth by done.
  assert (∀ l, cyp_softbuf (s_cpu s') !! l = if decide (l = lev) then Some sb' else cyp_softbuf (s_cpu s) !! l) as Hsbs.
  { intros l. cbn. destruct (decide (l = lev)) as [->|].
    - by rewrite list_lookup_insert_eq.
    - by rewrite list_lookup_insert_ne. }
  assert (start s' lev = start s lev) as Hst.
  { rewrite (start_eq s' lev sb'), (start_eq s lev sb Hsb), Hth, upd_eq, Ht by (by rewrite Hsbs, decide_True). cbn.
    rewrite Hpc. cbn. unfold soft_cons. rewrite F2, F3. cbn. unfold cons. by rewrite E2. }
  pose proof Hinv as [I1 I2 I3 I4 I5 I6]. constructor; try done.
  - eapply heap_wf_ext; [..|exact I1]; done.
  - constructor; [|apply (si_nodup _ _ _ _ _ I2)|apply (si_elem _ _ _ _ _ I2)|apply (si_rm _ _ _ _ _ I2)].
    intros l Hl. rewrite Hsbs. destruct (decide (l = lev)) as [->|].
    + exists sb'. split; [done|]. rewrite Hst. apply softbuf_ok_cons; [done|apply softbuf_lev].
    + rewrite (start_ext s s'); [by apply (si_buf _ _ _ _ _ I2)|by rewrite Hsbs, decide_False|by rewrite Hth, upd_ne].
  - intros l t1 sb1 Hl. rewrite Hth, Hsbs. intros Ht1 Hsb1. destruct (decide (l = lev)) as [->|].
    + rewrite upd_eq in Ht1. injection Ht1 as <-. injection Hsb1 as <-.
      assert (∀ g, gen_ok s sb g → gen_ok s' sb' g) as Hgen by (intros g; unfold gen_ok; by rewrite F1, F2).
      constructor; cbn [t' t_pc t_soft t_consndx t_sizemask t_cyclics t_resized]; try done; auto.
      * intros _. unfold soft_cons. rewrite F2, F3. cbn. by rewrite E3.
      * rewrite F1, F2. auto.
      * by intros [?|[? ?]].
    + rewrite upd_ne in Ht1 by done. apply (thread_ok_ext s _ _ _ _ _ (q2 l)); try done; [apply same_cyclics_refl|by apply I4].
  - apply (admin_ok_ext s _ q1); try done.
    + cbn. by rewrite length_insert.
    + intros l sb1. rewrite Hsbs. destruct (decide (l = lev)) as [->|].
      * intros [= <-]. exists sb. split_and!; try done. intros ->. exact F4.
      * intros Hsb1. by exists sb1.
    + apply same_cyclics_refl.
    + intros l. rewrite Hth. destruct (decide (l = lev)) as [->|]; [rewrite upd_eq, Ht|by rewrite upd_ne].
      cbn. by rewrite Hpc.
  - intros j. change (s_exps s' j) with (s_exps s j). rewrite (I6 j). unfold owed.
    rewrite !(tsum_upd _ s s' lev (Some t') Hlev Hth), Ht. cbn [from_option]. unfold called_for, rpend_for.
    rewrite Hpc. cbn [t' t_pc t_cyclic called andb].
    change (removed_for s' j) with (removed_for s j). change (pend_of s' j) with (pend_of s j).
    change (s_calls s' j) with (s_calls s j). lia.
Qed.

(** ** Entry, and the acknowledgement of a resize *)

Lemma softint_top : t_pc t = PcTop → steps_to (softint_resize_step lev s t sb).
Proof.
  intros Hpc. unfold softint_resize_step. rewrite Hpc. eexists _, q1, q2. split; [done|].
  pose proof Hok as [T1 T2 T3 T4 T5 T6 T7 T8 T9 T10 T11]. rewrite Hpc in T1, T2, T9.
  apply (inv_goto s q1 q2 lev t); [done|done|done|cbn; by rewrite Hpc|cbn; by rewrite Hpc| |
    intros k; unfold called_for, rpend_for; cbn; by rewrite Hpc].
  intros sb' Hsb'. assert (sb' = sb) as -> by congruence. constructor; cbn; try done; auto.
  by intros [?|[? ?]].
Qed.

(** A hard index that differs shows a resize in progress. *)
Lemma resize_seen : cys_hard sb ≠ cys_soft sb → s_admin s = AExpandWait.
Proof.
  intros Hne. pose proof (iv_admin _ _ _ Hinv) as Hadm. unfold admin_ok, calm in Hadm.
  destruct (s_admin s); try done; destruct_and? Hadm; match goal with
    H : ∀ lev sb, _ → _ → cys_hard sb = cys_soft sb |- _ => by destruct (Hne (H lev sb Hlev Hsb)) end.
Qed.

Lemma softbuf_ok_follow size st q1' q2' :
  cys_hard sb ≠ cys_soft sb → q1' = [] → softbuf_ok sb size st q1' q2' →
  softbuf_ok (SoftBuf (cys_hard sb) (cys_hard sb) (cys_buf0 sb) (cys_buf1 sb)) size
    (cypc_consndx (cys_buf sb (cys_hard sb))) [] q2'.
Proof.
  intros Hne -> [H1 H2]. rewrite bool_decide_eq_false_2 in H2 by done. destruct H2 as [_ H2].
  destruct sb as [[] [] b0 b1]; done.
Qed.

Lemma softint_flip :
  t_pc t = PcHard → t_soft t ≠ cys_hard sb → steps_to (softint_resize_step lev s t sb).
Proof.
  intros Hpc Hne. unfold softint_resize_step. rewrite Hpc, decide_True by done.
  pose proof Hok as [T1 T2 T3 T4 T5 T6 T7 T8 T9 T10 T11]. rewrite Hpc in T1, T2, T8, T9.
  destruct T1 as (E1 & E2 & E3); [done|]. unfold set_softbuf. rewrite wr_lt by by eapply lookup_lt_Some.
  pose proof (lookup_lt_Some _ _ _ Hsb) as Hsl.
  assert (cys_hard sb ≠ cys_soft sb) as Hhs by congruence. pose proof (resize_seen Hhs) as Haw. pose proof (T8 eq_refl Hhs) as Hq1.
  set (sb' := SoftBuf (cys_hard sb) (cys_hard sb) (cys_buf0 sb) (cys_buf1 sb)).
  set (t' := Thread PcTop (t_soft t) _ _ _ _ _ _ true). eexists _, q1, q2. split; [done|].
  set (s' := set_thread _ lev (Some t')).
  assert (s_thread s' = upd (s_thread s) lev (Some t')) as Hth by done.
  assert (∀ l, cyp_softbuf (s_cpu s') !! l = if decide (l = lev) then Some sb' else cyp_softbuf (s_cpu s) !! l) as Hsbs.
  { intros l. cbn. destruct (decide (l = lev)) as [->|].
    - by rewrite list_lookup_insert_eq.
    - by rewrite list_lookup_insert_ne. }
  assert (∀ l, acked s' l = acked s l) as Hack.
  { intros l. destruct (decide (l = lev)) as [->|].
    - rewrite (acked_eq s' lev sb'), (acked_eq s lev sb Hsb), Hth, upd_eq by (by rewrite Hsbs, decide_True).
      rewrite (bool_decide_eq_false_2 (cys_hard sb = cys_soft sb)) by done. cbn. by rewrite andb_false_r.
    - apply acked_ext; [by rewrite Hsbs, decide_False|by rewrite Hth, upd_ne]. }
  pose proof Hinv as [I1 I2 I3 I4 I5 I6]. constructor; try done.
  - eapply heap_wf_ext; [..|exact I1]; done.
  - constructor; [|apply (si_nodup _ _ _ _ _ I2)|apply (si_elem _ _ _ _ _ I2)|apply (si_rm _ _ _ _ _ I2)].
    intros l Hl. rewrite Hsbs. destruct (decide (l = lev)) as [->|].
    + exists sb'. split; [done|]. rewrite (start_eq s' lev sb'), Hth, upd_eq by (by rewrite Hsbs, decide_True). cbn [thread_past t' t_pc past_entry].
      rewrite Hq1. change (soft_cons sb') with (cypc_consndx (cys_buf sb (cys_hard sb))).
      apply (softbuf_ok_follow _ (start s lev) (q1 lev)); [done|done|apply softbuf_lev].
    + rewrite (start_ext s s'); [by apply (si_buf _ _ _ _ _ I2)|by rewrite Hsbs, decide_False|by rewrite Hth, upd_ne].
  - intros l t1 sb1 Hl. rewrite Hth, Hsbs. intros Ht1 Hsb1. destruct (decide (l = lev)) as [->|].
    + rewrite upd_eq in Ht1. injection Ht1 as <-. injection Hsb1 as <-.
      constructor; cbn; try done; first [by left|by intros [?|[? ?]]].
    + rewrite upd_ne in Ht1 by done. apply (thread_ok_ext s _ _ _ _ _ (q2 l)); try done; [apply same_cyclics_refl|by apply I4].
  - unfold admin_ok in I5 |- *. change (s_admin s') with (s_admin s). rewrite Haw in I5 |- *. rewrite !Hack.
    destruct I5 as (? & ? & ? & Hold & ? & Hsum). do 3 (split; [done|]). split; [exact Hold|]. split; [done|].
    rewrite (tsum_upd _ s s' lev (Some t') Hlev Hth), Ht. cbn [from_option]. rewrite Hpc. cbn. cbn in Hsum. lia.
  - intros j. change (s_exps s' j) with (s_exps s j). rewrite (I6 j). unfold owed.
    rewrite !(tsum_upd _ s s' lev (Some t') Hlev Hth), Ht. cbn [from_option]. unfold called_for, rpend_for.
    rewrite Hpc. cbn [t' t_pc t_cyclic called andb].
    change (removed_for s' j) with (removed_for s j). change (pend_of s' j) with (pend_of s j).
    change (s_calls s' j) with (s_calls s j). lia.
Qed.

(** Leaving without a pending acknowledgement. *)
Lemma inv_leave :
  thread_flags (Some t) = (false, false, false) → past_entry (t_pc t) = false → called (t_pc t) = false →
  inv (set_thread s lev None) q1 q2.
Proof.
  intros Hfl Hp Hc. apply (inv_move s q1 q2 lev None (s_calls s)); rewrite ?Ht; try done.
  intros k. rewrite (iv_count _ _ _ Hinv k). unfold owed.
  rewrite !(tsum_upd _ s (move _ _ _ _) lev None) by done. rewrite Ht. cbn [from_option].
  change (pend_of (move _ _ _ _) k) with (pend_of s k). change (removed_for (move _ _ _ _) k) with (removed_for s k).
  unfold called_for, rpend_for. rewrite Hc. destruct (t_pc t); try done; cbn; lia.
Qed.

Lemma softint_hard : t_pc t = PcHard → steps_to (softint_resize_step lev s t sb).
Proof.
  intros Hpc. destruct (decide (t_soft t = cys_hard sb)) as [Heq|]; [|by apply softint_flip].
  unfold softint_resize_step. rewrite Hpc, decide_False by tauto. eexists _, q1, q2. split; [done|].
  pose proof Hok as [T1 T2 T3 T4 T5 T6 T7 T8 T9 T10 T11]. rewrite Hpc in T1, T2, T9.
  destruct (t_resized t) eqn:Hr.
  - apply (inv_goto s q1 q2 lev t); [done|done|done|cbn; by rewrite Hpc|cbn; by rewrite Hpc| |
      intros k; unfold called_for, rpend_for; cbn; by rewrite Hpc].
    intros sb' Hsb'. assert (sb' = sb) as -> by congruence. constructor; cbn; try done; auto; by intros [?|?].
  - apply inv_leave; [cbn; by rewrite Hpc, Hr|by rewrite Hpc..].
Qed.

Lemma softint_levels : t_pc t = PcLevels → steps_to (softint_resize_step lev s t sb).
Proof.
  intros Hpc. unfold softint_resize_step. rewrite Hpc. eexists _, q1, q2. split; [done|].
  pose proof Hok as [T1 T2 T3 T4 T5 T6 T7 T8 T9 T10 T11]. rewrite Hpc in T9.
  apply (inv_goto s q1 q2 lev t); [done|done|done|cbn; by rewrite Hpc|cbn; by rewrite Hpc| |
    intros k; unfold called_for, rpend_for; cbn; by rewrite Hpc].
  intros sb' Hsb'. assert (sb' = sb) as -> by congruence. constructor; cbn; try done; auto; by intros [?|?].
Qed.

(** The increment of [cyp_modify_levels]: the level has acknowledged. *)
Lemma softint_ack l t' :
  t_pc t = PcLevelsCas l → cyp_modify_levels (s_cpu s) = l →
  (l + 1 = 2 ∧ t' = Some (goto t PcKick)) ∨ (l + 1 ≠ 2 ∧ (t' = None ∨ t' = Some (goto t PcPost))) →
  inv (set_thread (set_cpu s (with_levels (s_cpu s) (u32 (l + 1)))) lev t') q1 q2.
Proof.
  intros Hpc Hl Hor. pose proof Hok as [T1 T2 T3 T4 T5 T6 T7 T8 T9 T10 T11]. rewrite Hpc in T9.
  assert (t_resized t = true) as Hr by (apply T10; eauto). destruct (T9 Hr eq_refl) as [Haw Hhs].
  pose proof Hinv as [I1 I2 I3 I4 I5 I6]. unfold admin_ok in I5. rewrite Haw in I5.
  destruct I5 as (A1 & A2 & A3 & A4 & A5 & A6).
  set (s' := set_thread _ lev t'). assert (s_thread s' = upd (s_thread s) lev t') as Hth by done.
  assert (acked s lev = false) as Hack0.
  { rewrite (acked_eq s lev sb Hsb), Ht. cbn. by rewrite Hr, Hpc, andb_false_r. }
  assert ((thread_flags t').2 = false ∧ (thread_flags t').1.2 = false ∧ thread_past t' = false) as (Hf1 & Hf2 & Hpast).
  { destruct Hor as [[_ ->]|[_ [->| ->]]]; cbn; by rewrite ?andb_false_r. }
  assert (acked s' lev = true) as Hack1.
  { rewrite (acked_eq s' lev sb Hsb), Hth, upd_eq, Hf1, bool_decide_eq_true_2 by done. done. }
  assert (∀ l', l' ≠ lev → acked s' l' = acked s l') as Hack2.
  { intros l' Hl'. apply acked_ext; [done|]. by rewrite Hth, upd_ne. }
  assert (b2z (acked s' 0) + b2z (acked s' 1) = l + 1 ∧ 0 <= l <= 1 ∧
    b2z (acked s' 0 && acked s' 1) = b2z (l + 1 =? 2) ∧ b2z (acked s 0 && acked s 1) = 0) as (B1 & B2 & B3 & B4).
  { rewrite Hl in A5. unfold CY_SOFT_LEVELS in Hlev. destruct lev as [|[|]]; [| |lia].
    - pose proof (Hack2 1%nat ltac:(done)) as E. rewrite A5, E, Hack0, Hack1.
      destruct (acked s 1); cbn; split_and!; (lia || done).
    - pose proof (Hack2 0%nat ltac:(done)) as E. rewrite A5, E, Hack0, Hack1.
      destruct (acked s 0); cbn; split_and!; (lia || done). }
  assert (u32 (l + 1) = l + 1) as Hu by (apply wrapu_id; lia).
  assert (from_option (λ t0, b2z (is_kick (t_pc t0))) 0 t' = b2z (l + 1 =? 2)) as Hkick.
  { destruct Hor as [[-> ->]|[? [->| ->]]]; [done| |]; by rewrite (proj2 (Z.eqb_neq _ _)). }
  constructor; try done.
  - eapply heap_wf_ext; [..|exact I1]; done.
  - eapply soft_inv_start; [|eapply soft_inv_ext; [..|exact I2]]; try done.
    intros l' Hl'. destruct (decide (l' = lev)) as [->|].
    + rewrite !(start_eq _ _ sb) by done. rewrite Hth, upd_eq, Ht, Hpast. cbn. by rewrite Hpc.
    + apply start_ext; [done|]. by rewrite Hth, upd_ne.
  - intros l' t1 sb' Hl'. rewrite Hth. intros Ht1 Hsb'.
    apply (thread_ok_ext s _ _ _ _ _ (q2 l')); try done; [apply same_cyclics_refl|].
    destruct (decide (l' = lev)) as [->|]; [|rewrite upd_ne in Ht1 by done; by apply I4].
    rewrite upd_eq in Ht1. assert (sb' = sb) as -> by (cbn in Hsb'; congruence).
    destruct Hor as [[_ ->]|[_ [->| ->]]]; [| |]; injection Ht1 as <- || done; constructor; cbn; try done; auto;
      try (by intros [?|?]); by intros [?|[? ?]].
  - unfold admin_ok. change (s_admin s') with (s_admin s). rewrite Haw. do 3 (split; [done|]). split; [exact A4|]. split.
    + cbn. lia.
    + rewrite (tsum_upd _ s s' lev t' Hlev Hth), Ht, Hkick, B3. cbn [from_option]. rewrite Hpc. cbn. cbn in A6. lia.
  - intros j. change (s_exps s' j) with (s_exps s j). rewrite (I6 j). unfold owed.
    rewrite !(tsum_upd _ s s' lev t' Hlev Hth), Ht. change (removed_for s' j) with (removed_for s j).
    change (pend_of s' j) with (pend_of s j). change (s_calls s' j) with (s_calls s j).
    destruct Hor as [[_ ->]|[_ [->| ->]]]; cbn [from_option]; unfold called_for, rpend_for; rewrite Hpc; cbn; lia.
Qed.

Lemma softint_levels_cas l : t_pc t = PcLevelsCas l → steps_to (softint_resize_step lev s t sb).
Proof.
  intros Hpc. unfold softint_resize_step. rewrite Hpc.
  pose proof Hok as [T1 T2 T3 T4 T5 T6 T7 T8 T9 T10 T11]. rewrite Hpc in T9.
  assert (t_resized t = true) as Hr by (apply T10; eauto).
  destruct (Z.eqb_spec (cyp_modify_levels (s_cpu s)) l) as [Hl|Hl].
  - eexists _, q1, q2. split; [done|]. apply softint_ack; [done|done|].
    destruct (T9 Hr eq_refl) as [Haw _]. pose proof (iv_admin _ _ _ Hinv) as I5. unfold admin_ok in I5. rewrite Haw in I5.
    destruct I5 as (_ & _ & _ & _ & A5 & _). rewrite Hl in A5.
    assert (u32 (l + 1) = l + 1) as ->.
    { apply wrapu_id. rewrite A5. unfold b2z. destruct (acked s 0), (acked s 1); lia. }
    change (Z.of_nat CY_SOFT_LEVELS) with 2. destruct (Z.eqb_spec (l + 1) 2); [by left|right].
    split; [done|]. destruct (lev =? CY_LOW_LEVEL)%nat; auto.
  - eexists _, q1, q2. split; [done|].
    apply (inv_goto s q1 q2 lev t); [done|done|done|cbn; by rewrite Hpc|cbn; by rewrite Hpc| |
      intros k; unfold called_for, rpend_for; cbn; by rewrite Hpc].
    intros sb' Hsb'. assert (sb' = sb) as -> by congruence. constructor; cbn; try done; auto; by intros [?|?].
Qed.

Lemma softint_kick : t_pc t = PcKick → steps_to (softint_resize_step lev s t sb).
Proof.
  intros Hpc. unfold softint_resize_step. rewrite Hpc. pose proof (tk_kick _ _ _ _ _ _ Hok Hpc) as Haw.
  eexists _, q1, q2. split; [done|]. set (s' := set_thread (sema_v s) lev None).
  assert (s_thread s' = upd (s_thread s) lev None) as Hth by done.
  assert (∀ l, acked s' l = acked s l) as Hack.
  { intros l. destruct (decide (l = lev)) as [->|].
    - rewrite (acked_eq s' lev sb Hsb), (acked_eq s lev sb Hsb), Hth, upd_eq, Ht. cbn. by rewrite Hpc, andb_false_r.
    - apply acked_ext; [done|]. by rewrite Hth, upd_ne. }
  pose proof Hinv as [I1 I2 I3 I4 I5 I6]. constructor; try done.
  - eapply heap_wf_ext; [..|exact I1]; done.
  - eapply soft_inv_start; [|eapply soft_inv_ext; [..|exact I2]]; try done.
    intros l Hl. destruct (decide (l = lev)) as [->|].
    + rewrite !(start_eq _ _ sb) by done. rewrite Hth, upd_eq, Ht. cbn. by rewrite Hpc.
    + apply start_ext; [done|]. by rewrite Hth, upd_ne.
  - intros l t1 sb' Hl. rewrite Hth. intros Ht1 Hsb'.
    apply (thread_ok_ext s _ _ _ _ _ (q2 l)); try done; [apply same_cyclics_refl|].
    destruct (decide (l = lev)) as [->|]; [by rewrite upd_eq in Ht1|]. rewrite upd_ne in Ht1 by done. by apply I4.
  - unfold admin_ok in I5 |- *. change (s_admin s') with (s_admin s). rewrite Haw in I5 |- *. rewrite !Hack.
    destruct I5 as (? & ? & ? & Hold & ? & Hsum). do 3 (split; [done|]). split; [exact Hold|]. split; [done|].
    rewrite (tsum_upd _ s s' lev None Hlev Hth), Ht. cbn [from_option]. rewrite Hpc. cbn. cbn in Hsum. lia.
  - intros j. change (s_exps s' j) with (s_exps s j). rewrite (I6 j). unfold owed.
    rewrite !(tsum_upd _ s s' lev None Hlev Hth), Ht. cbn [from_option]. unfold called_for, rpend_for.
    rewrite Hpc. cbn [called andb]. change (removed_for s' j) with (removed_for s j).
    change (pend_of s' j) with (pend_of s j). change (s_calls s' j) with (s_calls s j). lia.
Qed.

Lemma softint_post : t_pc t = PcPost → steps_to (softint_resize_step lev s t sb).
Proof.
  intros Hpc. unfold softint_resize_step. rewrite Hpc. eexists _, q1, q2. split; [done|].
  apply inv_leave; [cbn; by rewrite Hpc, andb_false_r|by rewrite Hpc..].
Qed.

Lemma softint_zero : t_pc t = PcZero → steps_to (softint_loop_step lev s t sb).
Proof.
  intros Hpc. destruct (decide (cyp_state (s_cpu s) = CYS_REMOVING)).
  - by apply softint_removed.
  - by apply softint_reload.
Qed.
End softint.

#[local] Hint Resolve softint_while softint_load softint_call softint_reread softint_zero softint_cas
  softint_rpend softint_advance softint_top softint_hard softint_levels softint_levels_cas softint_kick
  softint_post : kernel.

(** Every step of a soft interrupt succeeds and keeps the invariant. *)
Lemma softint_step_inv s q1 q2 lev t :
  inv s q1 q2 → (lev < CY_SOFT_LEVELS)%nat → s_thread s lev = Some t → steps_to (softint_step lev s).
Proof.
  intros Hinv Hlev Ht. destruct (si_buf _ _ _ _ _ (iv_soft _ _ _ Hinv) lev Hlev) as (sb & Hsb & _).
  unfold softint_step. rewrite Ht. unfold rd. rewrite Hsb. destruct (t_pc t) eqn:Hpc; eauto with kernel.
Qed.

Lemma softint_start_inv s q1 q2 lev :
  inv s q1 q2 → (lev < CY_SOFT_LEVELS)%nat → s_thread s lev = None → inv (softint_start lev s) q1 q2.
Proof.
  intros Hinv Hlev Ht. apply (inv_move s q1 q2 lev _ (s_calls s)); rewrite ?Ht; try done.
  - intros t sb [= <-] Hsb. constructor; cbn; try done; [by left|by intros [?|[? ?]]].
  - intros k. rewrite (iv_count _ _ _ Hinv k). unfold owed.
    rewrite !(tsum_upd _ s (move s lev _ _) lev _ Hlev eq_refl). rewrite Ht. cbn [from_option].
    unfold called_for, rpend_for. cbn [t_pc called andb].
    change (pend_of (move _ _ _ _) k) with (pend_of s k). change (removed_for (move _ _ _ _) k) with (removed_for s k). lia.
Qed.

(** ** The timer interrupt *)

Lemma soft_exps_free now cpu k : k ∉ live cpu → soft_exps now cpu k = 0.
Proof.
  intros Hk. unfold soft_exps. destruct (cyp_cyclics cpu !! k); [|done].
  by rewrite bool_decide_eq_false_2.
Qed.

(** What the timer interrupt does, as the soft interrupts see it. *)
Lemma fire_facts now cpu rm st q1 q2 :
  heap_wf cpu → soft_inv cpu rm st q1 q2 →
  (∀ k c, k ∈ live cpu → cyp_cyclics cpu !! k = Some c →
     time_ok now c ∧ cy_pend c + Z.of_nat (fires now c) < 2 ^ 31) →
  ∃ h cs sbs ev q2', let cpu' := with_softbuf (with_cyclics (with_heap cpu h) cs) sbs in
    cyclic_fire now cpu = Some (cpu', ev) ∧ heap_wf cpu' ∧ soft_inv cpu' rm st q1 q2' ∧
    (∀ lev, q2 lev `prefix_of` q2' lev) ∧ sbs_produced (cyp_softbuf cpu) sbs ∧ live cpu' ≡ₚ live cpu ∧
    ∀ k c, cyp_cyclics cpu !! k = Some c → ∃ c', cs !! k = Some c' ∧
      cy_level c' = cy_level c ∧ cy_handler c' = cy_handler c ∧ cy_arg c' = cy_arg c ∧
      cy_pend c' = cy_pend c + soft_exps now cpu k.
Proof.
  intros Hwf Hsi Htm. destruct (decide (cyp_nelems cpu = 0%nat)) as [Hn|Hn].
  - exists (cyp_heap cpu), (cyp_cyclics cpu), (cyp_softbuf cpu), [], q2. cbv zeta.
    assert (with_softbuf (with_cyclics (with_heap cpu (cyp_heap cpu)) (cyp_cyclics cpu)) (cyp_softbuf cpu) = cpu) as ->
      by (by destruct cpu).
    split; [unfold cyclic_fire; by rewrite Hn|]. do 3 (split; [done|]). split; [apply sbs_produced_refl|]. split; [done|].
    intros k c Hc. exists c. rewrite soft_exps_free; [split_and!; try done; lia|].
    unfold live. rewrite Hn. apply not_elem_of_nil.
  - destruct (fire_loop_spec now cpu rm st q1 q2 Hwf Hsi ltac:(lia)) as (r & Hr & Hpost).
    { intros k c Hk Hc. by apply (Htm k c Hk Hc). }
    destruct (fire_post_spec now cpu rm st q1 q2 r Hwf ltac:(lia)) as (ks & t & _ & _ & Hcyc & Hoth & _); [|done|].
    { intros k c Hk Hc. by apply (Htm k c Hk Hc). }
    destruct Hpost as (ks' & Hinv & _ & _). destruct (fire_inv_live _ _ _ _ _ _ _ _ Hinv) as [_ Hl].
    destruct (fi_frame _ _ _ _ _ _ _ _ Hinv) as (h & cs & sbs & Hf).
    destruct (fi_soft _ _ _ _ _ _ _ _ Hinv) as (q2' & Hsi' & Hpre).
    pose proof (fi_wf _ _ _ _ _ _ _ _ Hinv) as Hwf'. pose proof (fi_sbs _ _ _ _ _ _ _ _ Hinv) as Hsbs.
    destruct r as [cpu' ev]. cbn [fst] in *. subst cpu'.
    exists h, cs, sbs, ev, q2'. cbv zeta. do 6 (split; [done|]).
    intros k c Hc. destruct (decide (k ∈ live cpu)) as [Hk|Hk].
    + destruct (Hcyc k c Hk Hc) as (c' & Hc' & (_ & Hp & _ & Hh & Ha & _ & Hlv) & _). exists c'. split_and!; try done.
      rewrite Hp. unfold soft_exps. rewrite Hc, bool_decide_eq_true_2 by done. cbn [andb].
      destruct (hw_live cpu Hwf k Hk) as (c0 & Hc0 & Hok). assert (c0 = c) as -> by congruence.
      pose proof (co_level c Hok). pose proof (co_pend c Hok). destruct (Htm k c Hk Hc) as [_ Hb].
      unfold CY_SOFT_LEVELS, CY_HIGH_LEVEL, UINT32_MAX in *.
      destruct (Nat.eqb_spec (cy_level c) 2), (Nat.ltb_spec (cy_level c) 2); lia.
    + exists c. rewrite soft_exps_free by done. split_and!; try done; [by rewrite <- (Hoth k Hk) in Hc|lia].
Qed.

(** A soft buffer whose consumer's side is unchanged. *)
Definition consumer_eq (sb sb' : cyc_softbuf) : Prop :=
  cys_hard sb' = cys_hard sb ∧ cys_soft sb' = cys_soft sb ∧ soft_cons sb' = soft_cons sb ∧
  cypc_sizemask (cys_buf sb' (cys_soft sb)) = cypc_sizemask (cys_buf sb (cys_soft sb)).

Lemma produced_consumer sb sb' : sb_produced sb sb' → consumer_eq sb sb'.
Proof.
  intros (H1 & H2 & H3 & H4 & H5). unfold consumer_eq, soft_cons. rewrite H2.
  destruct (decide (cys_hard sb = cys_soft sb)) as [E|E].
  - rewrite <- E. done.
  - assert (cys_soft sb = negb (cys_hard sb)) as -> by (by destruct (cys_hard sb), (cys_soft sb)).
    by rewrite H3.
Qed.

Lemma thread_ok_sb s lev t sb sb' q1 q2 :
  consumer_eq sb sb' → thread_ok s lev t sb q1 q2 → thread_ok s lev t sb' q1 q2.
Proof.
  intros (H1 & H2 & H3 & H4) [T1 T2 T3 T4 T5 T6 T7 T8 T9 T10 T11].
  assert (∀ g, gen_ok s sb g → gen_ok s sb' g) as Hgen by (intros g; unfold gen_ok; by rewrite H1, H2).
  assert (soft_queue sb' q1 q2 = soft_queue sb q1 q2) as Hq by (unfold soft_queue; by rewrite H1, H2).
  constructor; rewrite ?H1, ?H2, ?H3, ?H4, ?Hq; try done; auto.
  intros H. destruct (T4 H) as (? & ?). auto.
Qed.

Lemma start_consumer s s' lev sb sb' :
  cyp_softbuf (s_cpu s) !! lev = Some sb → cyp_softbuf (s_cpu s') !! lev = Some sb' →
  consumer_eq sb sb' → s_thread s' lev = s_thread s lev → start s' lev = start s lev.
Proof.
  intros H1 H2 (_ & _ & H3 & _) H4. rewrite (start_eq _ _ _ H1), (start_eq _ _ _ H2). by rewrite H3, H4.
Qed.

Lemma fire_switch_inv now s q1 q2 :
  inv s q1 q2 → timely now s → steps_to (fire_switch now s).
Proof.
  intros Hinv Htm. pose proof Hinv as [I1 I2 I3 I4 I5 I6].
  destruct (fire_facts now (s_cpu s) (s_removed s) (start s) q1 q2 I1 I2 Htm)
    as (h & cs & sbs & ev & q2' & Hf & Hwf' & Hsi' & Hpre & Hsbs & Hl & Hcyc).
  unfold fire_switch. rewrite Hf. eexists _, q1, q2'. split; [done|].
  set (cpu' := with_softbuf (with_cyclics (with_heap (s_cpu s) h) cs) sbs) in *. set (s' := set_exps _ _).
  destruct Hsbs as [Hlen Hsbs].
  assert (same_cyclics (cyp_cyclics (s_cpu s)) cs) as Hsame.
  { intros k c Hc. destruct (Hcyc k c Hc) as (c' & ? & ? & ? & ? & _). eauto. }
  assert (∀ k c', cs !! k = Some c' → ∃ c, cyp_cyclics (s_cpu s) !! k = Some c ∧ cy_pend c' = cy_pend c + soft_exps now (s_cpu s) k) as Hback.
  { intros k c' Hc'. assert (k < length (cyp_cyclics (s_cpu s)))%nat as Hlt.
    { rewrite (hw_cyc _ I1). apply lookup_lt_Some in Hc'. by rewrite (hw_cyc _ Hwf' : length cs = _) in Hc'. }
    apply lookup_lt_is_Some in Hlt as [c Hc]. destruct (Hcyc k c Hc) as (c2 & Hc2 & _ & _ & _ & Hp).
    assert (c2 = c') as -> by congruence. eauto. }
  constructor; try done.
  - eapply soft_inv_start; [|exact Hsi']. intros lev Hlev.
    destruct (si_buf _ _ _ _ _ Hsi' lev Hlev) as (sb' & Hsb' & _). destruct (Hsbs lev sb' Hsb') as (sb & Hsb & Hprod).
    by apply (start_consumer s s' lev sb sb'); [|..|apply produced_consumer|].
  - intros k c' Hc'. destruct (Hback k c' Hc') as (c & Hc & Hp). pose proof (I3 k c Hc). rewrite Hp.
    unfold soft_exps. rewrite Hc. destruct (bool_decide_reflect (k ∈ live (s_cpu s))) as [Hk|]; cbn [andb]; [|lia].
    destruct (Htm k c Hk Hc) as [_ Hb]. destruct (_ <? _)%nat; lia.
  - intros lev t sb' Hlev Ht Hsb'. destruct (Hsbs lev sb' Hsb') as (sb & Hsb & Hprod).
    apply (thread_ok_sb _ _ _ sb); [by apply produced_consumer|].
    apply (thread_ok_ext s _ _ _ _ _ (q2 lev)); try done. by apply I4.
  - apply (admin_ok_ext s _ q1); try done.
    + intros lev sb' Hsb'. destruct (Hsbs lev sb' Hsb') as (sb & Hsb & H1 & H2 & H3 & _). by exists sb.
    + intros k Hk. change (k ∈ live cpu'). by rewrite Hl.
  - intros k. cbn [s' set_exps set_cpu s_exps s_calls]. rewrite (I6 k). unfold owed.
    change (tsum ?f s') with (tsum f s). change (removed_for s' k) with (removed_for s k).
    assert (pend_of s' k = pend_of s k + soft_exps now (s_cpu s) k); [|lia]. unfold pend_of.
    cbn [s' set_exps set_cpu s_cpu cpu' with_softbuf with_cyclics cyp_cyclics].
    destruct (cyp_cyclics (s_cpu s) !! k) as [c|] eqn:Hc.
    + destruct (Hcyc k c Hc) as (c' & Hc' & _ & _ & _ & Hp). rewrite Hc'. exact Hp.
    + unfold soft_exps. rewrite Hc. destruct (cs !! k) as [c'|] eqn:Hc'; [|done].
      destruct (Hback k c' Hc') as (c & ? & _). congruence.
Qed.

(** ** The operations under [cpu_lock] *)

(** A soft interrupt that has nothing to do with the operation. *)
Lemma thread_ok_idle s s' lev t sb q1 q2 :
  (∀ g, gen_ok s sb g → g = s_gen s) → s_removed s = None → s_gen s' = s_gen s →
  thread_flags (Some t) = (false, false, false) →
  same_cyclics (cyp_cyclics (s_cpu s)) (cyp_cyclics (s_cpu s')) →
  thread_ok s lev t sb q1 q2 → thread_ok s' lev t sb q1 q2.
Proof.
  intros Hgen Hrm Hg Hfl Hcs [T1 T2 T3 T4 T5 T6 T7 T8 T9 T10 T11]. injection Hfl as Hk Hr He.
  assert (∀ g, gen_ok s sb g → gen_ok s' sb g) as Hgen' by (intros g Hg'; left; rewrite Hg; by apply Hgen).
  constructor; try done; auto.
  - intros H. destruct (T4 H) as (H1 & H2 & c & Hc & ? & ?). split_and!; auto.
    destruct (Hcs _ _ Hc) as (c' & Hc' & _ & E2 & E3). exists c'. by rewrite E2, E3.
  - intros H. destruct (T5 H) as [Hne|?]; [|congruence]. destruct Hne. apply Hgen.
    apply T4. by rewrite H.
  - intros n H. by rewrite H in Hr.
  - intros H1 H2. by rewrite H1, H2 in He.
  - intros H. by rewrite H in Hk.
Qed.

(** Outside the two waits no soft interrupt is involved in an operation. *)
Lemma flags_calm s q1 q2 lev t :
  inv s q1 q2 → s_admin s ≠ AExpandWait → s_admin s ≠ ARemoveWait →
  (lev < CY_SOFT_LEVELS)%nat → s_thread s lev = Some t → thread_flags (Some t) = (false, false, false).
Proof.
  intros Hinv H1 H2 Hlev Ht. destruct (si_buf _ _ _ _ _ (iv_soft _ _ _ Hinv) lev Hlev) as (sb & Hsb & _).
  pose proof (iv_thread _ _ _ Hinv lev t sb Hlev Ht Hsb) as [T1 T2 T3 T4 T5 T6 T7 T8 T9 T10 T11]. cbn.
  destruct (is_kick (t_pc t)) eqn:Ek; [destruct (t_pc t); try done; exfalso; by apply H1, T11|].
  destruct (is_rpend (t_pc t)) eqn:Er; [destruct (t_pc t); try done; exfalso; by destruct (T7 n eq_refl) as (_ & ? & _)|].
  destruct (t_resized t) eqn:Es; [|done]. destruct (early (t_pc t)) eqn:Ee; [|done]. exfalso. by destruct T9.
Qed.

(** An operation that leaves the heap, the cyclics and the buffers in use
    alone, while no soft interrupt is involved. *)
Lemma inv_admin s s' q1 q2 (g : cyc_softbuf → cyc_softbuf) :
  inv s q1 q2 →
  s_thread s' = s_thread s → s_gen s' = s_gen s → s_exps s' = s_exps s → s_calls s' = s_calls s →
  s_removed s = None → s_removed s' = None →
  cyp_heap (s_cpu s') = cyp_heap (s_cpu s) → cyp_cyclics (s_cpu s') = cyp_cyclics (s_cpu s) →
  cyp_nelems (s_cpu s') = cyp_nelems (s_cpu s) → cyp_size (s_cpu s') = cyp_size (s_cpu s) →
  cyp_softbuf (s_cpu s') = g <$> cyp_softbuf (s_cpu s) →
  (∀ sb, cys_hard (g sb) = cys_hard sb ∧ cys_soft (g sb) = cys_soft sb ∧
     cys_buf (g sb) (cys_hard sb) = cys_buf sb (cys_hard sb)) →
  (∀ lev sb, (lev < CY_SOFT_LEVELS)%nat → cyp_softbuf (s_cpu s) !! lev = Some sb → cys_hard sb = cys_soft sb) →
  (∀ lev t, (lev < CY_SOFT_LEVELS)%nat → s_thread s lev = Some t → thread_flags (Some t) = (false, false, false)) →
  admin_ok s' q1 → inv s' q1 q2.
Proof.
  intros Hinv Hth Hg He Hc Hrm Hrm' E1 E2 E3 E4 Hsbs Hg' Hhs Hfl Hadm. pose proof Hinv as [I1 I2 I3 I4 I5 I6].
  assert (∀ lev sb, (lev < CY_SOFT_LEVELS)%nat → cyp_softbuf (s_cpu s) !! lev = Some sb → consumer_eq sb (g sb)) as Hce.
  { intros lev sb Hlev Hsb. destruct (Hg' sb) as (G1 & G2 & G3). pose proof (Hhs lev sb Hlev Hsb) as E.
    unfold consumer_eq, soft_cons. rewrite G2, <- E, G3. done. }
  assert (∀ lev, (lev < CY_SOFT_LEVELS)%nat → start s' lev = start s lev) as Hst.
  { intros lev Hlev. destruct (si_buf _ _ _ _ _ I2 lev Hlev) as (sb & Hsb & _).
    apply (start_consumer s s' lev sb (g sb)); [done| |by eapply Hce|by rewrite Hth].
    by rewrite Hsbs, list_lookup_fmap, Hsb. }
  constructor; try done.
  - by eapply heap_wf_ext.
  - destruct I2 as [S1 S2 S3 S4]. rewrite Hrm'. rewrite Hrm in S3. constructor; try done.
    + intros lev Hlev. rewrite Hst, E4 by done. destruct (S1 lev Hlev) as (sb & Hsb & Hok). exists (g sb).
      rewrite Hsbs, list_lookup_fmap, Hsb. split; [done|]. destruct (Hg' sb) as (G1 & G2 & G3).
      unfold softbuf_ok in *. pose proof (Hhs lev sb Hlev Hsb) as E. rewrite G1, G2, G3.
      rewrite bool_decide_eq_true_2 in Hok |- * by done. done.
    + by rewrite E2.
  - by rewrite E2.
  - intros lev t sb' Hlev. rewrite Hth, Hsbs, list_lookup_fmap. intros Ht Hsb'.
    destruct (cyp_softbuf (s_cpu s) !! lev) as [sb|] eqn:Hsb; [|done]. injection Hsb' as <-.
    apply (thread_ok_sb _ _ _ sb); [by eapply Hce|].
    apply (thread_ok_idle s); try done; [|by eapply Hfl|rewrite E2; apply same_cyclics_refl|by apply I4].
    intros gn [?|(_ & _ & Hne)]; [done|]. by destruct (Hne (Hhs lev sb Hlev Hsb)).
  - intros k. rewrite He, Hc, (I6 k). unfold owed, pend_of, removed_for, tsum. by rewrite Hrm, Hrm', Hth, E2.
Qed.

Lemma fmap_id_list {A} (l : list A) : l = id <$> l.
Proof. by rewrite list_fmap_id. Qed.

Lemma expand_begin_inv s q1 q2 : inv s q1 q2 → s_admin s = ANone → inv (expand_begin s) q1 q2.
Proof.
  intros Hinv Ha. pose proof (iv_admin _ _ _ Hinv) as Hadm. unfold admin_ok in Hadm. rewrite Ha in Hadm.
  destruct Hadm as (H1 & H2 & H3 & H4 & H5 & H6).
  apply (inv_admin s _ _ _ id); try done; [apply fmap_id_list|].
  intros lev t. apply (flags_calm s q1 q2); rewrite ?Ha; done.
Qed.

Lemma expand_end_inv s q1 q2 : inv s q1 q2 → s_admin s = AExpandDone → inv (expand_end s) q1 q2.
Proof.
  intros Hinv Ha. pose proof (iv_admin _ _ _ Hinv) as Hadm. unfold admin_ok in Hadm. rewrite Ha in Hadm.
  destruct Hadm as (H1 & H2 & H3 & H4 & H5 & H6).
  apply (inv_admin s _ _ _ id); try done; [apply fmap_id_list|].
  intros lev t. apply (flags_calm s q1 q2); rewrite ?Ha; done.
Qed.

Lemma remove_begin_inv s q1 q2 k :
  inv s q1 q2 → s_admin s = ANone → k ∈ live (s_cpu s) → inv (remove_begin k s) q1 q2.
Proof.
  intros Hinv Ha Hk. pose proof (iv_admin _ _ _ Hinv) as Hadm. unfold admin_ok in Hadm. rewrite Ha in Hadm.
  destruct Hadm as (H1 & H2 & H3 & H4 & H5 & H6).
  apply (inv_admin s _ _ _ id); try done; [apply fmap_id_list|].
  intros lev t. apply (flags_calm s q1 q2); rewrite ?Ha; done.
Qed.

Lemma remove_end_inv s q1 q2 : inv s q1 q2 → s_admin s = ARemoveDone → inv (remove_end s) q1 q2.
Proof.
  intros Hinv Ha. pose proof (iv_admin _ _ _ Hinv) as Hadm. unfold admin_ok in Hadm. rewrite Ha in Hadm.
  destruct Hadm as (H1 & H2 & H3 & H4 & H5).
  apply (inv_admin s _ _ _ id); try done; [apply fmap_id_list|].
  intros lev t. apply (flags_calm s q1 q2); rewrite ?Ha; done.
Qed.

(** Reallocating the idle buffers. *)
Lemma other_buf_ok f sb :
  cys_hard (other_buf f sb) = cys_hard sb ∧ cys_soft (other_buf f sb) = cys_soft sb ∧
  cys_buf (other_buf f sb) (cys_hard sb) = cys_buf sb (cys_hard sb) ∧
  cys_buf (other_buf f sb) (negb (cys_hard sb)) = f (cys_buf sb (negb (cys_hard sb))).
Proof. by destruct sb as [[] ? ? ?]. Qed.

(** The size is never 0, so that the arrays double. *)
Lemma expand_size_eq s q1 q2 : inv s q1 q2 → expand_size (s_cpu s) = (2 * cyp_size (s_cpu s))%nat.
Proof.
  intros Hinv. destruct (si_buf _ _ _ _ _ (iv_soft _ _ _ Hinv) 0%nat ltac:(unfold CY_SOFT_LEVELS; lia))
    as (sb & _ & (l & Hl & Hlen) & Hq).
  assert (∃ st q, pc_queue (cys_buf sb (cys_hard sb)) st q) as (st & q & l' & Hl' & Hqa)
    by (case_bool_decide; destruct Hq; eauto).
  assert (l' = l) as -> by congruence. pose proof (queue_pos _ _ _ _ _ Hqa).
  unfold expand_size. rewrite Nat.shiftl_mul_pow2. change (2 ^ 1)%nat with 2%nat. cbv zeta.
  rewrite (proj2 (Nat.eqb_neq _ _)) by lia. lia.
Qed.

Lemma expand_prepare_inv junk s q1 q2 :
  inv s q1 q2 → s_admin s = AExpand → length junk = expand_size (s_cpu s) →
  Z.of_nat (cyp_size (s_cpu s)) < 2 ^ 30 → inv (expand_prepare junk s) q1 q2.
Proof.
  intros Hinv Ha Hj Hsz. pose proof (expand_size_eq _ _ _ Hinv) as Hes. rewrite Hes in Hj.
  unfold expand_prepare. rewrite Hes. pose proof (iv_admin _ _ _ Hinv) as Hadm. unfold admin_ok in Hadm. rewrite Ha in Hadm.
  destruct Hadm as (H1 & H2 & H3 & H4 & H5 & H6).
  set (g := other_buf (λ _, PcBuffer (Some junk) 0 0 (Z.of_nat (2 * cyp_size (s_cpu s)) - 1))).
  apply (inv_admin s _ _ _ g); try done.
  - intros sb. destruct (other_buf_ok (λ _, PcBuffer (Some junk) 0 0 (Z.of_nat (2 * cyp_size (s_cpu s)) - 1)) sb) as (? & ? & ? & _). done.
  - intros lev t. apply (flags_calm s q1 q2); rewrite ?Ha; done.
  - assert (∀ lev sb, g <$> cyp_softbuf (s_cpu s) !! lev = Some sb → ∃ sb0, cyp_softbuf (s_cpu s) !! lev = Some sb0 ∧ sb = g sb0) as Hget.
    { intros lev sb E. destruct (cyp_softbuf (s_cpu s) !! lev) as [sb0|]; [|done]. injection E as <-. eauto. }
    unfold admin_ok, calm. cbn [set_admin s_admin set_cpu s_cpu cyp_state with_levels with_softbuf cyp_rpend
      cyp_softbuf cyp_modify_wait s_removed s_old cyp_modify_levels cyp_size]. split_and!; try done.
    + intros lev sb Hlev. rewrite list_lookup_fmap. intros E. destruct (Hget lev sb E) as (sb0 & Hsb0 & ->).
      destruct (other_buf_ok (λ _, PcBuffer (Some junk) 0 0 (Z.of_nat (2 * cyp_size (s_cpu s)) - 1)) sb0) as (F1 & F2 & _).
      unfold g. rewrite F1, F2. by eapply H3.
    + intros lev sb Hlev. rewrite list_lookup_fmap. intros E. destruct (Hget lev sb E) as (sb0 & Hsb0 & ->).
      destruct (other_buf_ok (λ _, PcBuffer (Some junk) 0 0 (Z.of_nat (2 * cyp_size (s_cpu s)) - 1)) sb0) as (F1 & F2 & F3 & F4).
      split_and!; [unfold g; rewrite F1, F2; by eapply H3| |].
      * destruct (si_buf _ _ _ _ _ (iv_soft _ _ _ Hinv) 0%nat ltac:(unfold CY_SOFT_LEVELS; lia)) as (sb1 & Hsb1 & (l & Hl0 & Hl) & Hq).
        rewrite bool_decide_eq_true_2 in Hq by (eapply H3; [|done]; unfold CY_SOFT_LEVELS; lia). destruct Hq as (_ & l' & Hl' & Hq).
        destruct (qa_pow _ _ _ _ _ Hq) as (k & Hk & Hlk).
        assert (l' = l) as -> by congruence. rewrite Hl in Hlk.
        exists (k + 1). rewrite Z.pow_add_r, <- Hlk by lia. split; [|lia].
        assert (k < 30); [|lia]. apply (Z.pow_lt_mono_r_iff 2); lia.
      * exists junk. unfold g. by rewrite F1, F4.
Qed.

Lemma expand_free_inv s q1 q2 : inv s q1 q2 → s_admin s = AExpandFree → inv (expand_free_old s) q1 q2.
Proof.
  intros Hinv Ha. pose proof (iv_admin _ _ _ Hinv) as Hadm. unfold admin_ok in Hadm. rewrite Ha in Hadm.
  destruct Hadm as (H1 & H2 & H3 & H4 & H5).
  set (f := λ pcb, PcBuffer None (cypc_prodndx pcb) (cypc_consndx pcb) (cypc_sizemask pcb)).
  apply (inv_admin s _ _ _ (other_buf f)); try done.
  - intros sb. destruct (other_buf_ok f sb) as (? & ? & ? & _). done.
  - intros lev t. apply (flags_calm s q1 q2); rewrite ?Ha; done.
  - unfold admin_ok, calm. cbn. split_and!; try done. intros lev sb Hlev. rewrite list_lookup_fmap.
    destruct (cyp_softbuf (s_cpu s) !! lev) as [sb0|] eqn:E; [|done]. intros [= <-].
    destruct (other_buf_ok f sb0) as (F1 & F2 & _). change (cys_hard (other_buf f sb0) = cys_soft (other_buf f sb0)).
    rewrite F1, F2. by eapply H3.
Qed.

Lemma b2z_nonneg b : 0 <= b2z b.
Proof. destruct b; cbn; lia. Qed.

(** When [sema_p] returns in [cyclic_expand], both levels have followed. *)
Lemma expand_wake_inv s s' q1 q2 :
  inv s q1 q2 → s_admin s = AExpandWait → expand_wake s = Some s' → inv s' q1 q2.
Proof.
  intros Hinv Ha. unfold expand_wake. pose proof (iv_admin _ _ _ Hinv) as Hadm. unfold admin_ok in Hadm. rewrite Ha in Hadm.
  destruct Hadm as (H1 & H2 & H3 & H4 & H5 & H6).
  destruct (Z.gtb_spec (cyp_modify_wait (s_cpu s)) 0) as [Hw|]; [|done]. intros [= <-].
  assert (0 <= tsum (λ _ t, b2z (is_kick (t_pc t))) s) as Hk0.
  { unfold tsum. destruct (s_thread s 0%nat), (s_thread s 1%nat); cbn; rewrite ?Z.add_0_r;
      repeat apply Z.add_nonneg_nonneg; (lia || apply b2z_nonneg). }
  assert (acked s 0 = true ∧ acked s 1 = true ∧ cyp_modify_wait (s_cpu s) = 1 ∧
    tsum (λ _ t, b2z (is_kick (t_pc t))) s = 0) as (A0 & A1 & Hw1 & Hk).
  { destruct (acked s 0), (acked s 1); cbn in H6; split_and!; try done; lia. }
  assert (∀ lev, (lev < CY_SOFT_LEVELS)%nat → acked s lev = true) as Hack.
  { intros lev Hlev. unfold CY_SOFT_LEVELS in Hlev. destruct lev as [|[|]]; [done|done|lia]. }
  assert (∀ lev sb, (lev < CY_SOFT_LEVELS)%nat → cyp_softbuf (s_cpu s) !! lev = Some sb →
    cys_hard sb = cys_soft sb ∧ (thread_flags (s_thread s lev)).2 = false) as Hlev2.
  { intros lev sb Hlev Hsb. pose proof (Hack lev Hlev) as Hk'. rewrite (acked_eq s lev sb Hsb) in Hk'.
    apply andb_prop in Hk' as [E1 E2]. apply bool_decide_eq_true in E1. by apply negb_true_iff in E2. }
  apply (inv_admin s _ _ _ id); try done.
  - apply fmap_id_list.
  - intros lev sb Hlev Hsb. by apply (Hlev2 lev).
  - intros lev t Hlev Ht. destruct (si_buf _ _ _ _ _ (iv_soft _ _ _ Hinv) lev Hlev) as (sb & Hsb & _).
    destruct (Hlev2 lev sb Hlev Hsb) as [_ Hf]. rewrite Ht in Hf.
    pose proof (iv_thread _ _ _ Hinv lev t sb Hlev Ht Hsb) as [T1 T2 T3 T4 T5 T6 T7 T8 T9 T10 T11].
    pose proof (tsum_lookup (λ _ t, b2z (is_kick (t_pc t))) s lev t ltac:(intros ? ?; apply b2z_nonneg) Hlev Ht) as Hge.
    cbn in Hf, Hge |- *. rewrite Hf. destruct (is_kick (t_pc t)); [cbn in Hge; lia|].
    destruct (is_rpend (t_pc t)) eqn:Er; [|done]. destruct (t_pc t); try done.
    destruct (T7 n eq_refl) as (_ & ? & _). congruence.
  - unfold admin_ok. cbn. split_and!; try done; [|lia]. intros lev sb Hlev Hsb. by apply (Hlev2 lev).
Qed.

(** When [cyclic_remove_here] goes on, no soft interrupt works for it. *)
Lemma remove_wake_inv s s' q1 q2 :
  inv s q1 q2 → s_admin s = ARemoveWait → remove_wake s = Some s' → inv s' q1 q2.
Proof.
  intros Hinv Ha. unfold remove_wake. pose proof (iv_admin _ _ _ Hinv) as Hadm. unfold admin_ok in Hadm. rewrite Ha in Hadm.
  destruct Hadm as (H1 & H2 & H3 & H4 & H5 & H6).
  assert (0 <= tsum (λ _ t, b2z (is_rpend (t_pc t))) s) as Hk0.
  { unfold tsum. destruct (s_thread s 0%nat), (s_thread s 1%nat); cbn; rewrite ?Z.add_0_r;
      repeat apply Z.add_nonneg_nonneg; (lia || apply b2z_nonneg). }
  assert (∀ w, (w = cyp_modify_wait (s_cpu s) ∧ cyp_rpend (s_cpu s) = 0) ∨
               (w = cyp_modify_wait (s_cpu s) - 1 ∧ cyp_rpend (s_cpu s) ≠ 0 ∧ 0 < cyp_modify_wait (s_cpu s)) →
    inv (set_admin (set_cpu s (with_wait (s_cpu s) w)) ARemoveDone) q1 q2) as Hgo.
  { intros w Hw. assert (w = 0 ∧ s_removed s = None ∧ tsum (λ _ t, b2z (is_rpend (t_pc t))) s = 0) as (Hw0 & Hrm & Hr).
    { destruct Hw as [[-> E]|(-> & E & ?)]; [rewrite E in H6|rewrite (proj2 (Z.eqb_neq _ _) E) in H6];
        cbn in H6; destruct (s_removed s); split_and!; try done; lia. }
    apply (inv_admin s _ _ _ id); try done; [apply fmap_id_list|].
    intros lev t Hlev Ht. destruct (si_buf _ _ _ _ _ (iv_soft _ _ _ Hinv) lev Hlev) as (sb & Hsb & _).
    pose proof (iv_thread _ _ _ Hinv lev t sb Hlev Ht Hsb) as [T1 T2 T3 T4 T5 T6 T7 T8 T9 T10 T11].
    pose proof (tsum_lookup (λ _ t, b2z (is_rpend (t_pc t))) s lev t ltac:(intros ? ?; apply b2z_nonneg) Hlev Ht) as Hge.
    cbn in Hge |- *. destruct (is_rpend (t_pc t)); [cbn in Hge; lia|].
    destruct (is_kick (t_pc t)) eqn:Ek; [destruct (t_pc t); try done; specialize (T11 eq_refl); congruence|].
    destruct (t_resized t) eqn:Er; [|done]. destruct (early (t_pc t)) eqn:Ee; [|done].
    destruct (T9 eq_refl eq_refl). congruence. }
  destruct (Z.eqb_spec (cyp_rpend (s_cpu s)) 0) as [E|E].
  - intros [= <-]. specialize (Hgo (cyp_modify_wait (s_cpu s)) ltac:(by left)).
    assert (set_cpu s (with_wait (s_cpu s) (cyp_modify_wait (s_cpu s))) = s) as Hid by (by destruct s as [[] ? ? ? ? ? ? ?]).
    by rewrite Hid in Hgo.
  - destruct (Z.gtb_spec (cyp_modify_wait (s_cpu s)) 0); [|done]. intros [= <-]. apply Hgo. by right.
Qed.

Lemma thread_ok_queue s s' lev t sb q1 q2 :
  s_gen s' = s_gen s → s_admin s' = s_admin s → s_removed s' = s_removed s →
  (∀ k c, k ∈ soft_queue sb q1 q2 → cyp_cyclics (s_cpu s) !! k = Some c →
     ∃ c', cyp_cyclics (s_cpu s') !! k = Some c' ∧ cy_handler c' = cy_handler c ∧ cy_arg c' = cy_arg c) →
  thread_ok s lev t sb q1 q2 → thread_ok s' lev t sb q1 q2.
Proof.
  intros Hg Ha Hr Hcs [T1 T2 T3 T4 T5 T6 T7 T8 T9 T10 T11].
  assert (∀ g, gen_ok s sb g → gen_ok s' sb g) as Hgen by (intros g; unfold gen_ok; by rewrite Hg, Ha).
  constructor; rewrite ?Hg, ?Ha, ?Hr; try done; auto.
  intros H. destruct (T4 H) as (H1 & (rest & Hq) & c & Hc & E1 & E2). split_and!; [auto|eauto|].
  destruct (Hcs (t_cyclic t).2 c) as (c' & Hc' & F1 & F2); [rewrite Hq; by left|done|]. exists c'. by rewrite F1, F2.
Qed.

Lemma soft_queue_elem sb q1 q2 (k : nat) : k ∈ soft_queue sb q1 q2 → k ∈ q1 ++ q2.
Proof. intros Hk. apply elem_of_app. unfold soft_queue in Hk. destruct (bool_decide _); auto. Qed.

Lemma add_switch_inv now hdlr when flags s q1 q2 :
  inv s q1 q2 → s_admin s = ANone → (cyp_nelems (s_cpu s) < cyp_size (s_cpu s))%nat →
  add_args now hdlr when flags → steps_to (add_switch now hdlr when flags s).
Proof.
  intros Hinv Ha Hlt (A1 & A2 & A3 & A4 & A5). pose proof Hinv as [I1 I2 I3 I4 I5 I6].
  unfold admin_ok in I5. rewrite Ha in I5. destruct I5 as (H1 & H2 & H3 & H4 & H5 & H6). rewrite H5 in I2.
  destruct (add_xcall_spec now (s_cpu s) hdlr when flags (start s) q1 q2) as (ndx & h & Hcall & Hwf' & Hsi' & Hl & Hnin);
    [done..|by constructor; cbn; (done || lia)|].
  unfold add_switch. rewrite Hcall. eexists _, q1, q2. split; [done|].
  set (c1 := new_cyclic now hdlr when flags) in *.
  set (cpu' := with_heap _ h) in *.
  assert (cyp_heap (s_cpu s) !! cyp_nelems (s_cpu s) = Some ndx) as Hndx.
  { unfold cyclic_add_xcall, rd in Hcall. cbn [cyp_heap with_nelems] in Hcall.
    destruct (cyp_heap (s_cpu s) !! cyp_nelems (s_cpu s)) as [n|]; [|done].
    destruct (cyp_cyclics _ !! n); [|done]. destruct (wr _ n _); [|done].
    destruct (cyclic_upheap _ _) as [[? ?]|]; [|done]. congruence. }
  destruct (hw_free _ I1 ndx) as (c0 & Hc0 & _ & Hp0).
  { apply list_elem_of_lookup. exists 0%nat. by rewrite lookup_drop, Nat.add_0_r. }
  pose proof (lookup_lt_Some _ _ _ Hc0) as Hlt0. constructor.
  - done.
  - cbn [set_cpu s_removed]. rewrite H5. eapply soft_inv_start; [|exact Hsi']. done.
  - intros k c. cbn. destruct (decide (k = ndx)) as [->|].
    + rewrite list_lookup_insert_eq by done. intros [= <-]. cbn. lia.
    + rewrite list_lookup_insert_ne by done. apply I3.
  - intros lev t sb Hlev Ht Hsb. apply (thread_ok_queue s); try done; [|by apply I4].
    intros k c Hk Hc. exists c. split; [|done]. cbn. rewrite list_lookup_insert_ne; [done|]. intros ->.
    apply soft_queue_elem in Hk. apply (si_elem _ _ _ _ _ I2 lev k Hlev) in Hk as [(c' & Hc' & _ & ?)|?]; [|done].
    assert (c' = c0) as -> by congruence. lia.
  - unfold admin_ok. cbn [set_cpu s_admin]. rewrite Ha. done.
  - intros k. cbn [set_cpu s_exps s_calls]. rewrite (I6 k). unfold owed.
    change (tsum ?f (set_cpu s cpu')) with (tsum f s). change (removed_for (set_cpu s cpu') k) with (removed_for s k).
    assert (pend_of (set_cpu s cpu') k = pend_of s k); [|lia]. unfold pend_of. cbn.
    destruct (decide (k = ndx)) as [->|]; [by rewrite list_lookup_insert_eq, Hc0 by done|by rewrite list_lookup_insert_ne].
Qed.

Lemma tsum_zero f s :
  (∀ lev t, (lev < CY_SOFT_LEVELS)%nat → s_thread s lev = Some t → f lev t = 0) → tsum f s = 0.
Proof.
  intros H. unfold tsum. unfold CY_SOFT_LEVELS in H.
  destruct (s_thread s 0%nat) as [t0|] eqn:E0, (s_thread s 1%nat) as [t1|] eqn:E1; cbn;
    rewrite ?(H 0%nat t0), ?(H 1%nat t1) by (done || lia); done.
Qed.

Lemma same_cyclics_freed cs k c : cs !! k = Some c → same_cyclics cs (<[k := freed c]> cs).
Proof.
  intros Hc j d Hd. destruct (decide (j = k)) as [->|].
  - rewrite list_lookup_insert_eq by by eapply lookup_lt_Some. assert (d = c) as -> by congruence. by eexists.
  - rewrite list_lookup_insert_ne by done. by exists d.
Qed.

Lemma remove_switch_inv k s q1 q2 :
  inv s q1 q2 → s_admin s = ARemove k → steps_to (remove_switch k s).
Proof.
  intros Hinv Ha. pose proof Hinv as [I1 I2 I3 I4 I5 I6].
  unfold admin_ok in I5. rewrite Ha in I5. destruct I5 as (H1 & H2 & (H3 & H4 & H5 & H6) & Hk). rewrite H5 in I2.
  destruct (hw_live _ I1 k Hk) as (c & Hc & Hok). pose proof (I3 k c Hc) as Hp. pose proof (lookup_lt_Some _ _ _ Hc) as Hlt.
  destruct (remove_xcall_spec (s_cpu s) k c (start s) q1 q2) as (h & Hcall & Hwf' & Hl & Hsi'); [done..|].
  unfold remove_switch, rd. rewrite Hc, Hcall. eexists _, q1, q2. split; [done|].
  set (cpu' := with_heap (removing (s_cpu s) k c) h) in *.
  set (rm := if cy_pend c =? 0 then None else Some (cy_level c, k)) in *.
  assert (∀ lev t, (lev < CY_SOFT_LEVELS)%nat → s_thread s lev = Some t → thread_flags (Some t) = (false, false, false)) as Hfl.
  { intros lev t. apply (flags_calm s q1 q2); rewrite ?Ha; done. }
  constructor.
  - done.
  - eapply soft_inv_start; [|exact Hsi']. done.
  - intros j d. cbn. destruct (decide (j = k)) as [->|].
    + rewrite list_lookup_insert_eq by done. intros [= <-]. cbn. lia.
    + rewrite list_lookup_insert_ne by done. apply I3.
  - intros lev t sb Hlev Ht Hsb. apply (thread_ok_idle s); try done; [|by eapply Hfl| |by apply I4].
    + intros g [?|(_ & E & _)]; [done|]. by rewrite Ha in E.
    + by apply same_cyclics_freed.
  - unfold admin_ok. cbn [set_admin s_admin set_cpu s_cpu s_old s_removed set_removed cpu' with_heap removing with_nelems
      with_cyclics with_rpend cyp_state cyp_softbuf cyp_rpend cyp_modify_wait]. rewrite H4.
    assert (tsum (λ _ t, b2z (is_rpend (t_pc t))) s = 0) as Hz.
    { apply tsum_zero. intros lev t Hlev Ht. pose proof (Hfl lev t Hlev Ht) as E. cbn in E. injection E as _ -> _. done. }
    do 3 (split; [done|]). change (tsum ?f (set_admin _ _)) with (tsum f s). rewrite Hz. unfold rm.
    destruct (Z.eqb_spec (cy_pend c) 0) as [E|E].
    + rewrite H2. done.
    + rewrite (proj2 (Z.eqb_neq _ _) E). lia.
  - intros j. cbn [set_admin set_cpu set_removed s_exps s_calls]. rewrite (I6 j). unfold owed.
    change (tsum ?f (set_admin _ _)) with (tsum f s). unfold removed_for at 1. rewrite H5.
    unfold removed_for, pend_of. cbn [set_admin set_cpu set_removed s_removed s_cpu cpu' with_heap removing with_nelems
      with_cyclics with_rpend cyp_cyclics cyp_rpend]. unfold rm. destruct (decide (j = k)) as [->|Hne].
    + rewrite list_lookup_insert_eq, Hc by done. cbn. destruct (Z.eqb_spec (cy_pend c) 0) as [->|]; [lia|].
      rewrite Nat.eqb_refl. lia.
    + rewrite list_lookup_insert_ne by done. destruct (cy_pend c =? 0); [lia|].
      rewrite (proj2 (Nat.eqb_neq k j)) by done. lia.
Qed.

Lemma flip_fields sb :
  cys_hard (flip_hard sb) = negb (cys_hard sb) ∧ cys_soft (flip_hard sb) = cys_soft sb ∧
  (∀ b, cys_buf (flip_hard sb) b = cys_buf sb b) ∧ soft_cons (flip_hard sb) = soft_cons sb.
Proof. by destruct sb. Qed.

(** A soft interrupt that a resize overtakes. *)
Lemma thread_ok_flip s s' lev t sb q :
  (∀ g, gen_ok s sb g → g = s_gen s) → cys_hard sb = cys_soft sb → s_removed s = None →
  s_gen s' = S (s_gen s) → s_admin s' = AExpandWait →
  same_cyclics (cyp_cyclics (s_cpu s)) (cyp_cyclics (s_cpu s')) →
  thread_flags (Some t) = (false, false, false) → (t_pc t = PcHard → q = []) →
  thread_ok s lev t sb [] q → thread_ok s' lev t (flip_hard sb) q [].
Proof.
  intros Hgen Hhs Hrm Hg Ha Hcs Hfl Hhard [T1 T2 T3 T4 T5 T6 T7 T8 T9 T10 T11]. injection Hfl as Hk Hr He.
  destruct (flip_fields sb) as (F1 & F2 & F3 & F4).
  assert (cys_hard (flip_hard sb) ≠ cys_soft (flip_hard sb)) as Hne by (rewrite F1, F2, <- Hhs; by destruct (cys_hard sb)).
  assert (∀ g, gen_ok s sb g → gen_ok s' (flip_hard sb) g) as Hgen'.
  { intros g Hgo. right. apply Hgen in Hgo as ->. by rewrite Hg. }
  assert (soft_queue (flip_hard sb) q [] = soft_queue sb [] q) as Hq.
  { unfold soft_queue. rewrite bool_decide_eq_false_2, bool_decide_eq_true_2 by done. done. }
  constructor; rewrite ?Hq; try done; auto.
  - intros H. destruct (T4 H) as (H1 & H2 & c & Hc & E1 & E2). split_and!; auto.
    destruct (Hcs _ _ Hc) as (c' & Hc' & _ & G2 & G3). exists c'. by rewrite G2, G3.
  - intros H. destruct (T5 H) as [Hn|?]; [|congruence]. destruct Hn. apply Hgen, T4. by rewrite H.
  - intros n H. by rewrite H in Hr.
  - intros H1 H2. by rewrite H1, H2 in He.
Qed.

(** The switch to the doubled arrays, from the state in which the new
    buffers are ready. *)
Section expand.
Context (s : sys) (q1 q2 : nat → list nat) (Hinv : inv s q1 q2) (Ha : s_admin s = AExpandReady).

Let m := cyp_size (s_cpu s).
Let cpu' := with_softbuf (with_size (with_cyclics (with_heap (s_cpu s) (cyp_heap (s_cpu s) ++ seq m m))
  (cyp_cyclics (s_cpu s) ++ replicate m free_cyclic)) (m + m)) (flip_hard <$> cyp_softbuf (s_cpu s)).
Let old := (λ c, with_pend c 0) <$> cyp_cyclics (s_cpu s).
Let s' := set_admin (set_arrays (set_cpu s cpu') (S (s_gen s)) (Some old)) AExpandWait.

Lemma expand_ready :
  cyp_state (s_cpu s) = CYS_EXPANDING ∧ cyp_rpend (s_cpu s) = 0 ∧ calm s ∧ cyp_modify_levels (s_cpu s) = 0 ∧
  ∀ lev sb, (lev < CY_SOFT_LEVELS)%nat → cyp_softbuf (s_cpu s) !! lev = Some sb → softbuf_prepared (m + m) sb.
Proof.
  pose proof (iv_admin _ _ _ Hinv) as H. unfold admin_ok in H. rewrite Ha in H.
  replace (m + m)%nat with (2 * cyp_size (s_cpu s))%nat by (unfold m; lia). done.
Qed.

Lemma expand_hard_soft lev sb :
  (lev < CY_SOFT_LEVELS)%nat → cyp_softbuf (s_cpu s) !! lev = Some sb → cys_hard sb = cys_soft sb.
Proof. destruct expand_ready as (_ & _ & (H & _) & _). apply H. Qed.

Lemma expand_softbuf lev : cyp_softbuf (s_cpu s') !! lev = flip_hard <$> cyp_softbuf (s_cpu s) !! lev.
Proof. apply list_lookup_fmap. Qed.

Lemma expand_cyclics k c : cyp_cyclics (s_cpu s) !! k = Some c → cyp_cyclics (s_cpu s') !! k = Some c.
Proof. intros Hc. cbn. rewrite lookup_app_l; [done|]. by eapply lookup_lt_Some. Qed.

Lemma expand_cyclics_inv k c :
  cyp_cyclics (s_cpu s') !! k = Some c → cyp_cyclics (s_cpu s) !! k = Some c ∨
    cyp_cyclics (s_cpu s) !! k = None ∧ c = free_cyclic.
Proof.
  cbn. rewrite lookup_app_Some. intros [?|[Hk [-> _]%lookup_replicate]]; [by left|].
  right. by rewrite lookup_ge_None_2.
Qed.

Lemma expand_pend_of k : pend_of s' k = pend_of s k.
Proof.
  unfold pend_of. destruct (cyp_cyclics (s_cpu s) !! k) as [c|] eqn:Hc; [by rewrite (expand_cyclics k c)|].
  destruct (cyp_cyclics (s_cpu s') !! k) as [c|] eqn:Hc'; [|done].
  destruct (expand_cyclics_inv k c Hc') as [?|[_ ->]]; [congruence|done].
Qed.

Lemma expand_flags lev t :
  (lev < CY_SOFT_LEVELS)%nat → s_thread s lev = Some t → thread_flags (Some t) = (false, false, false).
Proof. apply (flags_calm s q1 q2); rewrite ?Ha; done. Qed.

Lemma expand_q1 lev sb : (lev < CY_SOFT_LEVELS)%nat → cyp_softbuf (s_cpu s) !! lev = Some sb → q1 lev = [].
Proof.
  intros Hlev Hsb. destruct (si_buf _ _ _ _ _ (iv_soft _ _ _ Hinv) lev Hlev) as (sb' & Hsb' & _ & Hor).
  assert (sb' = sb) as -> by congruence. rewrite bool_decide_eq_true_2 in Hor by (by eapply expand_hard_soft). by destruct Hor.
Qed.

(** A soft interrupt about to leave its loop has an empty queue. *)
Lemma expand_at_hard lev t sb :
  no_late_entry s → (lev < CY_SOFT_LEVELS)%nat → s_thread s lev = Some t → cyp_softbuf (s_cpu s) !! lev = Some sb →
  t_pc t = PcHard → q2 lev = [].
Proof.
  intros Hlate Hlev Ht Hsb Hpc. pose proof (Hlate lev t sb Ht Hpc Hsb) as E.
  destruct (tk_loop _ _ _ _ _ _ (iv_thread _ _ _ Hinv lev t sb Hlev Ht Hsb)) as (E1 & E2 & E3); [by rewrite Hpc|].
  destruct (consumer_queue s q1 q2 lev sb Hinv Hlev Hsb) as (l & _ & Hqa).
  rewrite (start_cons s lev t sb Ht Hsb ltac:(by rewrite Hpc)) in Hqa.
  unfold soft_queue in Hqa. rewrite bool_decide_eq_true_2 in Hqa by (by eapply expand_hard_soft).
  apply (queue_empty _ _ _ _ _ Hqa). rewrite <- E2, E, E1. done.
Qed.

Lemma expand_threads lev t sb :
  no_late_entry s → (lev < CY_SOFT_LEVELS)%nat → s_thread s lev = Some t → cyp_softbuf (s_cpu s') !! lev = Some sb →
  thread_ok s' lev t sb (q2 lev) [].
Proof.
  intros Hlate Hlev Ht. rewrite expand_softbuf. destruct (cyp_softbuf (s_cpu s) !! lev) as [sb0|] eqn:Hsb; [|done].
  intros [= <-]. pose proof (iv_thread _ _ _ Hinv lev t sb0 Hlev Ht Hsb) as Hok. rewrite (expand_q1 lev sb0 Hlev Hsb) in Hok.
  destruct expand_ready as (_ & _ & (_ & _ & Hrm & _) & _).
  apply (thread_ok_flip s); try done; [|by eapply expand_hard_soft| |by eapply expand_flags|by eapply expand_at_hard].
  - intros g [?|(_ & E & _)]; [done|]. by rewrite Ha in E.
  - intros k c Hc. exists c. split; [by apply expand_cyclics|done].
Qed.

Lemma expand_not_acked lev : (lev < CY_SOFT_LEVELS)%nat → acked s' lev = false.
Proof.
  intros Hlev. destruct (si_buf _ _ _ _ _ (iv_soft _ _ _ Hinv) lev Hlev) as (sb & Hsb & _).
  rewrite (acked_eq s' lev (flip_hard sb)) by (by rewrite expand_softbuf, Hsb). destruct (flip_fields sb) as (F1 & F2 & _).
  rewrite F1, F2, <- (expand_hard_soft lev sb Hlev Hsb), bool_decide_eq_false_2; [done|]. by destruct (cys_hard sb).
Qed.

(** The old array stays reachable for the soft interrupts that hold it. *)
Lemma expand_old_ok : old_ok s' q2.
Proof.
  exists old. split; [done|]. split.
  - intros k c. unfold old. rewrite list_lookup_fmap. destruct (cyp_cyclics (s_cpu s) !! k) as [c0|] eqn:Hc0; [|done].
    intros [= <-]. split; [done|]. exists c0. split; [by apply expand_cyclics|done].
  - intros lev k Hlev Hk. unfold old. rewrite length_fmap, (hw_cyc _ (iv_wf _ _ _ Hinv)).
    apply (si_elem_lt (s_cpu s) (s_removed s) (start s) q1 q2 lev); [apply (iv_wf _ _ _ Hinv)|apply (iv_soft _ _ _ Hinv)|done|]. apply elem_of_app. by right.
Qed.

Lemma expand_admin : admin_ok s' q2.
Proof.
  destruct expand_ready as (H1 & H2 & (_ & H4 & H5 & _) & H7 & _).
  unfold admin_ok. cbn [s' set_admin s_admin].
  rewrite (expand_not_acked 0%nat), (expand_not_acked 1%nat) by (unfold CY_SOFT_LEVELS; lia).
  do 3 (split; [done|]). split; [apply expand_old_ok|]. split; [exact H7|].
  cbn [s_cpu]. change (cyp_modify_wait _) with (cyp_modify_wait (s_cpu s)). rewrite H4. apply tsum_zero. intros lev t Hlev Ht.
  pose proof (expand_flags lev t Hlev Ht) as E. cbn in E. injection E as -> _ _. done.
Qed.

Lemma expand_inv : no_late_entry s → inv s' q2 (λ _, []).
Proof.
  intros Hlate. destruct expand_ready as (_ & _ & (_ & _ & Hrm & _) & _ & Hprep).
  pose proof (iv_wf _ _ _ Hinv) as Hwf. constructor.
  - eapply heap_wf_ext; [..|apply (expand_heap_wf (s_cpu s) m Hwf)]; done.
  - eapply soft_inv_start; [|apply (expand_soft_inv (s_cpu s) (s_removed s) (start s) q1 q2 m Hwf (iv_soft _ _ _ Hinv) Hprep)].
    intros lev Hlev. destruct (si_buf _ _ _ _ _ (iv_soft _ _ _ Hinv) lev Hlev) as (sb & Hsb & _).
    rewrite (start_eq s lev sb Hsb), (start_eq s' lev (flip_hard sb)) by (by rewrite expand_softbuf, Hsb).
    by destruct (flip_fields sb) as (_ & _ & _ & ->).
  - intros k c [?|[_ ->]]%expand_cyclics_inv; [by eapply (iv_pend _ _ _ Hinv)|cbn; lia].
  - intros lev t sb. by apply expand_threads.
  - apply expand_admin.
  - intros k. cbn [s' set_admin set_cpu set_arrays s_exps s_calls]. rewrite (iv_count _ _ _ Hinv k). unfold owed.
    rewrite expand_pend_of. change (tsum ?f s') with (tsum f s). unfold removed_for.
    cbn [s' set_admin set_cpu set_arrays s_removed]. rewrite Hrm. lia.
Qed.

Lemma expand_switch_inv junk :
  length junk = expand_size (s_cpu s) → no_late_entry s → steps_to (expand_switch junk s).
Proof.
  intros Hj Hlate. unfold expand_switch. rewrite (expand_size_eq _ _ _ Hinv) in *.
  rewrite expand_xcall_eq by (done || lia || apply (iv_wf _ _ _ Hinv)). cbv zeta.
  replace (2 * cyp_size (s_cpu s) - cyp_size (s_cpu s))%nat with m by (unfold m; lia).
  replace (2 * cyp_size (s_cpu s))%nat with (m + m)%nat by (unfold m; lia).
  exists s', q2, (λ _, []). split; [done|]. by apply expand_inv.
Qed.

(** The switch when a soft interrupt is about to leave its loop over a buffer
    that has been written since it looked. *)
Lemma late_switch junk lev t sb :
  length junk = expand_size (s_cpu s) → (lev < CY_SOFT_LEVELS)%nat → s_thread s lev = Some t → t_pc t = PcHard →
  cyp_softbuf (s_cpu s) !! lev = Some sb → t_consndx t ≠ cypc_prodndx (cys_buf sb (t_soft t)) →
  expand_switch junk s = Some s' ∧ s_thread s' lev = Some t ∧ t_soft t = negb (cys_hard (flip_hard sb)) ∧
  cyp_softbuf (s_cpu s') !! lev = Some (flip_hard sb) ∧
  (∃ l, cys_buf (flip_hard sb) (cys_hard (flip_hard sb)) = PcBuffer (Some l) 0 0 (Z.of_nat (m + m) - 1)) ∧
  ∃ k, pending (cyp_cyclics (s_cpu s')) lev k.
Proof.
  intros Hj Hlev Ht Hpc Hsb Hne. destruct expand_ready as (_ & _ & (_ & _ & Hrm & _) & _ & Hprep).
  destruct (Hprep lev sb Hlev Hsb) as (Hhs & _ & l & Hbuf & _). destruct (flip_fields sb) as (F1 & F2 & F3 & _).
  destruct (tk_loop _ _ _ _ _ _ (iv_thread _ _ _ Hinv lev t sb Hlev Ht Hsb)) as (E1 & E2 & _); [by rewrite Hpc|].
  split_and!; [|done|by rewrite F1, negb_involutive, E1|by rewrite expand_softbuf, Hsb|exists l; by rewrite F1, F3|].
  - unfold expand_switch. rewrite (expand_size_eq _ _ _ Hinv) in *.
    rewrite expand_xcall_eq by (done || lia || apply (iv_wf _ _ _ Hinv)). cbv zeta.
    replace (2 * cyp_size (s_cpu s) - cyp_size (s_cpu s))%nat with m by (unfold m; lia).
    by replace (2 * cyp_size (s_cpu s))%nat with (m + m)%nat by (unfold m; lia).
  - destruct (consumer_queue s q1 q2 lev sb Hinv Hlev Hsb) as (l' & _ & Hqa).
    rewrite (start_cons s lev t sb Ht Hsb ltac:(by rewrite Hpc)) in Hqa. unfold soft_queue in Hqa.
    rewrite bool_decide_eq_true_2 in Hqa by done. destruct (q2 lev) as [|k rest] eqn:Hq.
    + destruct Hne. rewrite E1, E2. by apply (queue_empty _ _ _ _ _ Hqa).
    + exists k. destruct (proj1 (si_elem _ _ _ _ _ (iv_soft _ _ _ Hinv) lev k Hlev)) as [(c & Hc & Hp)|E]; [rewrite Hq; apply elem_of_app; right; by left| |congruence].
      exists c. split; [by apply expand_cyclics|done].
Qed.
End expand.

(** A pending cyclic that expires is not enqueued. *)
Lemma expire_pending cpu lev k :
  (lev < CY_SOFT_LEVELS)%nat → pending (cyp_cyclics cpu) lev k →
  ∃ cpu' evs, cyclic_expire cpu k = Some (cpu', evs) ∧ cyp_softbuf cpu' = cyp_softbuf cpu.
Proof.
  intros Hlev (c & Hc & Hl & Hp). unfold cyclic_expire, rd. rewrite Hc. cbn [mbind option_bind].
  rewrite (proj2 (Nat.eqb_neq (cy_level c) CY_HIGH_LEVEL)) by (rewrite Hl; unfold CY_HIGH_LEVEL, CY_SOFT_LEVELS in *; lia).
  rewrite (proj2 (Z.eqb_neq (cy_pend c) 0)) by lia. unfold wr. rewrite decide_True by (by eapply lookup_lt_Some). by eexists _, _.
Qed.

(** ** Reachable states *)

Lemma initial_inv s : initial s → inv s (λ _, []) (λ _, []).
Proof.
  intros [junk ->]. constructor; try done.
  - eapply heap_wf_ext; [..|apply (configure_wf junk)]; done.
  - eapply soft_inv_start; [|eapply soft_inv_ext; [..|apply (configure_soft_inv junk)]]; try done.
    intros lev Hlev. unfold CY_SOFT_LEVELS in Hlev. destruct lev as [|[|]]; [done|done|lia].
  - intros [|[|]] c; cbn; intros [= <-]; cbn. lia.
  - unfold admin_ok, calm. cbn. split_and!; try done. intros [|[|]] sb _; by intros [= <-].
  - intros k. unfold owed, removed_for, tsum, pend_of. cbn. by destruct k as [|[|]].
Qed.

Lemma step_inv s e s' q1 q2 : inv s q1 q2 → step s e s' → mild s e → ∃ q1' q2', inv s' q1' q2'.
Proof.
  intros Hinv Hstep Hmild.
  assert (∀ o, steps_to o → o = Some s' → ∃ q1' q2', inv s' q1' q2') as Hto.
  { intros o (s2 & q1' & q2' & E & H) Ho. assert (s2 = s') as -> by congruence. eauto. }
  destruct Hstep.
  - destruct (s_thread s lev) as [t|] eqn:Ht; [|unfold softint_step in *; by rewrite Ht in *].
    by eapply Hto; [eapply softint_step_inv|].
  - eexists _, _. by eapply softint_start_inv.
  - by eapply Hto; [eapply fire_switch_inv|].
  - by eapply Hto; [eapply add_switch_inv|].
  - eexists _, _. by eapply expand_begin_inv.
  - eexists _, _. by eapply expand_prepare_inv.
  - by eapply Hto; [eapply expand_switch_inv|].
  - eexists _, _. by eapply expand_wake_inv.
  - eexists _, _. by eapply expand_free_inv.
  - eexists _, _. by eapply expand_end_inv.
  - eexists _, _. by eapply remove_begin_inv.
  - by eapply Hto; [eapply remove_switch_inv|].
  - eexists _, _. by eapply remove_wake_inv.
  - eexists _, _. by eapply remove_end_inv.
Qed.

Lemma reachable_inv s : reachable s → ∃ q1 q2, inv s q1 q2.
Proof.
  induction 1 as [s Hs|s e s' _ (q1 & q2 & Hinv) Hstep Hmild].
  - eexists _, _. by apply initial_inv.
  - by eapply step_inv.
Qed.

(** ** Properties *)

(** C29: As long as the timer interrupt is timely and no resize comes in the
    window ([mild]), every memory access of a soft interrupt is valid (it
    never follows a pointer into a freed array, leaves the buffer or reads a
    buffer that is not there), and a timely timer interrupt, the cross calls
    of an addition and a removal, and that of a resize outside the window
    succeed, whatever the soft interrupts are doing. *)
Theorem cyclic_softint_safe s :
  reachable s →
  (∀ lev t, (lev < CY_SOFT_LEVELS)%nat → s_thread s lev = Some t → softint_step lev s ≠ None) ∧
  (∀ now, timely now s → fire_switch now s ≠ None) ∧
  (∀ now hdlr when flags, s_admin s = ANone → (cyp_nelems (s_cpu s) < cyp_size (s_cpu s))%nat →
     add_args now hdlr when flags → add_switch now hdlr when flags s ≠ None) ∧
  (∀ junk, s_admin s = AExpandReady → length junk = expand_size (s_cpu s) → no_late_entry s →
     expand_switch junk s ≠ None) ∧
  (∀ k, s_admin s = ARemove k → remove_switch k s ≠ None).
Proof.
  intros Hr. destruct (reachable_inv s Hr) as (q1 & q2 & Hinv).
  assert (∀ o, steps_to o → o ≠ None) as Hto by (intros o (s' & _ & _ & -> & _); done).
  split_and!; intros; apply Hto.
  - by eapply softint_step_inv.
  - by eapply fire_switch_inv.
  - by eapply add_switch_inv.
  - by eapply expand_switch_inv.
  - by eapply remove_switch_inv.
Qed.

(** C17: As long as the timer interrupt is timely and no resize comes in the
    window ([mild]), the handler calls made for an index and the calls still
    owed to it are exactly the expirations of its soft level cyclics; when no soft interrupt and no operation is in progress, the
    calls owed are the pend count, and each pending cyclic is in the queue of
    its level exactly once: no expiration is lost or served twice, across
    resizes and removals. *)
Theorem cyclic_softint_exact s :
  reachable s →
  (∀ k, s_exps s k = s_calls s k + owed s k) ∧
  ((∀ lev, (lev < CY_SOFT_LEVELS)%nat → s_thread s lev = None) → s_admin s = ANone →
   (∀ k, s_exps s k = s_calls s k + pend_of s k) ∧
   ∃ q, ∀ lev, (lev < CY_SOFT_LEVELS)%nat →
     (∃ sb, cyp_softbuf (s_cpu s) !! lev = Some sb ∧ cys_hard sb = cys_soft sb ∧
        pc_queue (cys_buf sb (cys_soft sb)) (soft_cons sb) (q lev)) ∧
     NoDup (q lev) ∧ ∀ k, k ∈ q lev ↔ pending (cyp_cyclics (s_cpu s)) lev k).
Proof.
  intros Hr. destruct (reachable_inv s Hr) as (q1 & q2 & Hinv). split; [apply (iv_count _ _ _ Hinv)|].
  intros Hth Ha. pose proof Hinv as [I1 I2 I3 I4 I5 I6]. unfold admin_ok in I5. rewrite Ha in I5.
  destruct I5 as (_ & _ & Hhs & _ & Hrm & _). split.
  - intros k. rewrite (I6 k). unfold owed, removed_for. rewrite Hrm.
    rewrite !tsum_zero; [lia|..]; intros lev t Hlev Ht; by rewrite Hth in Ht.
  - exists q2. intros lev Hlev. destruct (si_buf _ _ _ _ _ I2 lev Hlev) as (sb & Hsb & _ & Hor).
    rewrite bool_decide_eq_true_2 in Hor by (by eapply Hhs). destruct Hor as [Hq1 Hq].
    pose proof (si_nodup _ _ _ _ _ I2 lev Hlev) as Hnd. rewrite Hq1 in Hnd. split_and!; [|done|].
    + exists sb. split; [done|]. pose proof (Hhs lev sb Hlev Hsb) as E. split; [done|]. rewrite <- E.
      by rewrite (start_eq s lev sb Hsb), Hth in Hq.
    + intros k. pose proof (si_elem _ _ _ _ _ I2 lev k Hlev) as He. rewrite Hq1, Hrm in He. cbn in He. rewrite He. naive_solver.
Qed.

(** Whenever a soft interrupt calls a handler, it is the handler of the
    cyclic at the head of its queue, with that cyclic's argument, whichever
    array it read them from. *)
Theorem cyclic_softint_handler s lev t :
  reachable s → (lev < CY_SOFT_LEVELS)%nat → s_thread s lev = Some t → t_pc t = PcCall →
  ∃ c, cyp_cyclics (s_cpu s) !! (t_cyclic t).2 = Some c ∧ cy_handler c = t_handler t ∧ cy_arg c = t_arg t.
Proof.
  intros Hr Hlev Ht Hpc. destruct (reachable_inv s Hr) as (q1 & q2 & Hinv).
  destruct (si_buf _ _ _ _ _ (iv_soft _ _ _ Hinv) lev Hlev) as (sb & Hsb & _).
  apply (tk_hold _ _ _ _ _ _ (iv_thread _ _ _ Hinv lev t sb Hlev Ht Hsb)). by rewrite Hpc.
Qed.

(** When [cyclic_expand] is about to free the old arrays, no soft
    interrupt has a pointer to them, and each level writes and reads the new
    buffer. *)
Theorem cyclic_expand_quiescent s lev :
  reachable s → s_admin s = AExpandFree → (lev < CY_SOFT_LEVELS)%nat →
  (∀ sb, cyp_softbuf (s_cpu s) !! lev = Some sb → cys_hard sb = cys_soft sb) ∧
  ∀ t, s_thread s lev = Some t →
    (in_loop (t_pc t) = true ∨ t_pc t = PcTop → t_cyclics t = s_gen s) ∧
    (holding (t_pc t) = true → (t_cyclic t).1 = s_gen s).
Proof.
  intros Hr Ha Hlev. destruct (reachable_inv s Hr) as (q1 & q2 & Hinv). pose proof Hinv as [I1 I2 I3 I4 I5 I6].
  unfold admin_ok in I5. rewrite Ha in I5. destruct I5 as (_ & _ & Hhs & _ & _).
  split; [intros sb; by apply Hhs|]. intros t Ht. destruct (si_buf _ _ _ _ _ I2 lev Hlev) as (sb & Hsb & _).
  pose proof (I4 lev t sb Hlev Ht Hsb) as Hok.
  assert (∀ g, gen_ok s sb g → g = s_gen s) as Hgen by (intros g [?|(_ & E & _)]; [done|congruence]).
  split; intros H; apply Hgen.
  - by apply (tk_gen _ _ _ _ _ _ Hok).
  - by apply (tk_hold _ _ _ _ _ _ Hok).
Qed.


(** ** Executing a schedule *)

#[export] Instance admin_eq_dec : EqDecision admin.
Proof. solve_decision. Defined.

Inductive op :=
  | OpSoftint (lev : nat)
  | OpStart (lev : nat)
  | OpFire (now : Z)
  | OpAdd (now : Z) (hdlr : cyc_handler) (when : cyc_time) (flags : Z)
  | OpExpandBegin
  | OpExpandPrepare (junk : list nat)
  | OpExpandSwitch (junk : list nat)
  | OpExpandWake
  | OpExpandFree
  | OpExpandEnd
  | OpRemoveBegin (k : nat)
  | OpRemoveSwitch
  | OpRemoveWake
  | OpRemoveEnd.

Definition guard (b : bool) (o : option sys) : option sys := if b then o else None.

Definition timely_check (now : Z) (s : sys) : bool :=
  forallb (λ k, match cyp_cyclics (s_cpu s) !! k with
    | Some c =>
        (0 <=? now) && (now <? 2 ^ 62) && (0 <=? cy_expire c) && (cy_expire c <? 2 ^ 63) &&
        (0 <? cy_interval c) && (cy_interval c <? 2 ^ 62) && (cy_pend c + Z.of_nat (fires now c) <? 2 ^ 31)
    | None => true
    end) (live (s_cpu s)).

Definition add_check (now : Z) (hdlr : cyc_handler) (when : cyc_time) (flags : Z) : bool :=
  (0 <=? now) && (now <? 2 ^ 62) && (0 <=? cyt_when when) && (cyt_when when <? 2 ^ 63) &&
  (0 <? cyt_interval when) && (cyt_interval when <? 2 ^ 62) && (cyh_level hdlr <=? CY_HIGH_LEVEL)%nat &&
  (Z.land flags CYF_FREE =? 0).

(** The cross call of a resize, also when a soft interrupt has left its loop
    too early. *)
Definition exec_late (junk : list nat) (s : sys) : option sys :=
  guard (bool_decide (s_admin s = AExpandReady) && (length junk =? expand_size (s_cpu s))%nat) (expand_switch junk s).

Definition idle_threads (s : sys) : bool :=
  match s_thread s 0%nat, s_thread s 1%nat with None, None => true | _, _ => false end.

Definition exec_op (o : op) (s : sys) : option sys :=
  match o with
  | OpSoftint lev => guard (lev <? CY_SOFT_LEVELS)%nat (softint_step lev s)
  | OpStart lev =>
      guard ((lev <? CY_SOFT_LEVELS)%nat && match s_thread s lev with None => true | _ => false end)
        (Some (softint_start lev s))
  | OpFire now => guard (timely_check now s) (fire_switch now s)
  | OpAdd now hdlr when flags =>
      guard (bool_decide (s_admin s = ANone) && (cyp_nelems (s_cpu s) <? cyp_size (s_cpu s))%nat &&
             add_check now hdlr when flags) (add_switch now hdlr when flags s)
  | OpExpandBegin => guard (bool_decide (s_admin s = ANone)) (Some (expand_begin s))
  | OpExpandPrepare junk =>
      guard (bool_decide (s_admin s = AExpand) && (length junk =? expand_size (s_cpu s))%nat &&
             (Z.of_nat (cyp_size (s_cpu s)) <? 2 ^ 30)) (Some (expand_prepare junk s))
  | OpExpandSwitch junk =>
      guard (bool_decide (s_admin s = AExpandReady) && (length junk =? expand_size (s_cpu s))%nat &&
             (length (cyp_softbuf (s_cpu s)) <=? CY_SOFT_LEVELS)%nat && idle_threads s) (expand_switch junk s)
  | OpExpandWake => guard (bool_decide (s_admin s = AExpandWait)) (expand_wake s)
  | OpExpandFree => guard (bool_decide (s_admin s = AExpandFree)) (Some (expand_free_old s))
  | OpExpandEnd => guard (bool_decide (s_admin s = AExpandDone)) (Some (expand_end s))
  | OpRemoveBegin k =>
      guard (bool_decide (s_admin s = ANone) && bool_decide (k ∈ live (s_cpu s))) (Some (remove_begin k s))
  | OpRemoveSwitch => match s_admin s with ARemove k => remove_switch k s | _ => None end
  | OpRemoveWake => guard (bool_decide (s_admin s = ARemoveWait)) (remove_wake s)
  | OpRemoveEnd => guard (bool_decide (s_admin s = ARemoveDone)) (Some (remove_end s))
  end.

Fixpoint exec (ops : list op) (s : sys) : option sys :=
  match ops with
  | [] => Some s
  | o :: ops => let! s := exec_op o s in exec ops s
  end.

Lemma guard_Some b o s : guard b o = Some s → b = true ∧ o = Some s.
Proof. by destruct b. Qed.

Lemma timely_check_sound now s : timely_check now s = true → timely now s.
Proof.
  intros H k c Hk Hc. unfold timely_check in H. rewrite forallb_forall in H.
  specialize (H k (proj1 (list_elem_of_In _ _) Hk)). rewrite Hc in H. zbool.
  split; [split; lia|lia].
Qed.

Lemma exec_op_step o s s' : exec_op o s = Some s' → ∃ e, step s e s' ∧ mild s e.
Proof.
  destruct o; cbn [exec_op]; try (intros [Hg Ho]%guard_Some; zbool).
  - exists HOther. split; [|done]. by eapply step_softint.
  - exists HOther. split; [|done]. injection Ho as <-. apply step_start; [done|]. by destruct (s_thread s lev).
  - exists (HFire now). split; [by apply step_fire|by apply timely_check_sound].
  - exists HOther. split; [|done]. eapply step_add; [done|done| |done]. unfold add_check in *. zbool. split_and!; lia.
  - exists HOther. split; [|done]. injection Ho as <-. by apply step_expand_begin.
  - exists HOther. split; [|done]. injection Ho as <-. by apply step_expand_prepare.
  - exists HSwitch. split; [by eapply step_expand_switch|].
    intros lev t sb Ht _ Hsb. apply lookup_lt_Some in Hsb. unfold idle_threads, CY_SOFT_LEVELS in *.
    destruct lev as [|[|lev]]; [by rewrite Ht in *|by rewrite Ht in *; destruct (s_thread s 0%nat)|lia].
  - exists HOther. split; [|done]. by eapply step_expand_wake.
  - exists HOther. split; [|done]. injection Ho as <-. by apply step_expand_free.
  - exists HOther. split; [|done]. injection Ho as <-. by apply step_expand_end.
  - exists HOther. split; [|done]. injection Ho as <-. by apply step_remove_begin.
  - exists HOther. split; [|done]. destruct (s_admin s) eqn:E; try done. by eapply step_remove_switch.
  - exists HOther. split; [|done]. by eapply step_remove_wake.
  - exists HOther. split; [|done]. injection Ho as <-. by apply step_remove_end.
Qed.

Lemma exec_reachable ops s s' : reachable s → exec ops s = Some s' → reachable s'.
Proof.
  revert s. induction ops as [|o ops IH]; intros s Hr; cbn [exec]; [by intros [= <-]|].
  destruct (exec_op o s) as [s1|] eqn:E; [|done]. apply IH.
  destruct (exec_op_step o s s1 E) as (e & Hst & Hm). by eapply reachable_step.
Qed.

(** ** Schedules *)

Definition sys0 : sys :=
  Sys (with_state (cyclic_configure 0) CYS_ONLINE) 0 None (λ _, None) ANone None (λ _, 0) (λ _, 0).

Lemma sys0_reachable : reachable sys0.
Proof. apply reachable_initial. by exists 0%nat. Qed.

Lemma exec_sys0 ops : reachable (default sys0 (exec ops sys0)).
Proof.
  destruct (exec ops sys0) as [s|] eqn:E; [|apply sys0_reachable].
  by eapply exec_reachable; [apply sys0_reachable|].
Qed.

(** A low level cyclic with interval 10 is added. *)
Definition sched_add : op := OpAdd 0 (CycHandler 1000 1 CY_LOW_LEVEL) (CycTime 10 10) 0.

(** Its soft interrupt is in its handler for the first time, with three
    expirations to serve. *)
Definition sys_call : sys :=
  default sys0 (exec (sched_add :: OpFire 30 :: OpStart CY_LOW_LEVEL :: replicate 3 (OpSoftint CY_LOW_LEVEL)) sys0).

(** The arrays are being grown while it is there, and both soft interrupts
    have followed. *)
Definition sys_expanded : sys :=
  default sys0 (exec ([sched_add; OpFire 30; OpExpandBegin; OpExpandPrepare [0; 0]%nat; OpExpandSwitch [0; 0]%nat;
    OpStart CY_LOW_LEVEL] ++ replicate 20 (OpSoftint CY_LOW_LEVEL) ++
    [OpStart CY_LOCK_LEVEL] ++ replicate 9 (OpSoftint CY_LOCK_LEVEL) ++ [OpExpandWake; OpStart CY_LOW_LEVEL; OpSoftint CY_LOW_LEVEL]) sys0).


Lemma cyclic_softint_safe_witness :
  reachable sys_call ∧ softint_step CY_LOW_LEVEL sys_call ≠ None.
Proof.
  split; [apply exec_sys0|].
  destruct (cyclic_softint_safe sys_call (exec_sys0 _)) as [H _].
  eapply (H CY_LOW_LEVEL); [vm_compute; lia|vm_compute; reflexivity].
Defined.

Lemma cyclic_softint_exact_witness :
  s_exps sys_call 0%nat = s_calls sys_call 0%nat + owed sys_call 0 ∧ s_exps sys_call 0%nat = 3.
Proof. split; [exact (proj1 (cyclic_softint_exact sys_call (exec_sys0 _)) 0%nat)|vm_compute; reflexivity]. Defined.

Lemma cyclic_softint_handler_witness :
  ∃ t c, s_thread sys_call CY_LOW_LEVEL = Some t ∧
    cyp_cyclics (s_cpu sys_call) !! (t_cyclic t).2 = Some c ∧ cy_handler c = t_handler t.
Proof.
  destruct (s_thread sys_call CY_LOW_LEVEL) as [t|] eqn:E; [|vm_compute in E; discriminate E].
  destruct (cyclic_softint_handler sys_call CY_LOW_LEVEL t) as (c & Hc & Hh & _).
  - apply exec_sys0.
  - vm_compute. lia.
  - exact E.
  - vm_compute in E. injection E as <-. reflexivity.
  - exists t, c. split; [reflexivity|]. split; [exact Hc|exact Hh].
Defined.

Lemma cyclic_expand_quiescent_witness :
  s_admin sys_expanded = AExpandFree ∧
  ∀ t, s_thread sys_expanded CY_LOW_LEVEL = Some t →
    in_loop (t_pc t) = true ∨ t_pc t = PcTop → t_cyclics t = s_gen sys_expanded.
Proof.
  split; [vm_compute; reflexivity|]. intros t Ht.
  apply (cyclic_expand_quiescent sys_expanded CY_LOW_LEVEL (exec_sys0 _));
    [vm_compute; reflexivity|vm_compute; lia|exact Ht].
Defined.


(** ** Where the code falls short *)

Lemma runs_default (o : option sys) : match o with Some _ => true | None => false end = true → o = Some (default sys0 o).
Proof. by destruct o. Qed.

(** The soft interrupt turns to the buffer of the timer interrupt. *)
Lemma late_follow lev s t sb :
  s_thread s lev = Some t → t_pc t = PcHard → t_soft t = negb (cys_hard sb) → cyp_softbuf (s_cpu s) !! lev = Some sb →
  softint_step lev s =
    Some (set_thread (set_cpu s (with_softbuf (s_cpu s) (<[lev := SoftBuf (cys_hard sb) (cys_hard sb) (cys_buf0 sb) (cys_buf1 sb)]> (cyp_softbuf (s_cpu s))))) lev
      (Some (Thread PcTop (t_soft t) (t_consndx t) (t_sizemask t) (s_gen s) (t_cyclic t) (t_handler t) (t_arg t) true))).
Proof.
  intros Ht Hpc Hs Hsb. unfold softint_step, rd. rewrite Ht. cbn [mbind option_bind]. rewrite Hsb. cbn [mbind option_bind].
  rewrite Hpc. unfold softint_resize_step. rewrite Hpc, decide_True by (rewrite Hs; by destruct (cys_hard sb)).
  unfold set_softbuf, wr. rewrite decide_True by (by eapply lookup_lt_Some). done.
Qed.

(** C38: The condition [no_late_entry] on the resize is needed.  Whenever the
    cross call of a resize comes while a soft interrupt has left its loop and
    not yet read [cys_hard], and the timer interrupt has written to the old
    buffer since the soft interrupt last looked ([t_consndx] is not the
    producer index), the soft interrupt turns to the new buffer, finds it
    empty and leaves its loop again without a handler call, while a cyclic of
    its level is pending; both sides use the new buffer from then on, it is
    empty, and no cyclic of the level that is pending is put there when it
    expires again. *)
Theorem cyclic_resize_race s (junk : list nat) lev t sb :
  reachable s → s_admin s = AExpandReady → length junk = expand_size (s_cpu s) → (lev < CY_SOFT_LEVELS)%nat →
  s_thread s lev = Some t → t_pc t = PcHard → cyp_softbuf (s_cpu s) !! lev = Some sb →
  t_consndx t ≠ cypc_prodndx (cys_buf sb (t_soft t)) →
  ∃ s1 s2 s3 s4 t4 sb4,
    step s HSwitch s1 ∧ softint_step lev s1 = Some s2 ∧ softint_step lev s2 = Some s3 ∧ softint_step lev s3 = Some s4 ∧
    s_thread s4 lev = Some t4 ∧ t_pc t4 = PcHard ∧ s_calls s4 = s_calls s ∧
    (∃ k, pending (cyp_cyclics (s_cpu s4)) lev k) ∧
    cyp_softbuf (s_cpu s4) !! lev = Some sb4 ∧ cys_hard sb4 = cys_soft sb4 ∧ soft_cons sb4 = cypc_prodndx (cys_buf sb4 (cys_soft sb4)) ∧
    ∀ k, pending (cyp_cyclics (s_cpu s4)) lev k →
      ∃ cpu evs, cyclic_expire (s_cpu s4) k = Some (cpu, evs) ∧ cyp_softbuf cpu = cyp_softbuf (s_cpu s4).
Proof.
  intros Hr Ha Hj Hlev Ht Hpc Hsb Hne. destruct (reachable_inv s Hr) as (q1 & q2 & Hinv).
  destruct (late_switch s q1 q2 Hinv Ha junk lev t sb Hj Hlev Ht Hpc Hsb Hne) as (H1 & Ht1 & Hts & Hsb1 & (l & Hbuf) & (k & Hk)).
  set (s1 := set_admin _ _) in *. assert (s_calls s1 = s_calls s) as Hc1 by done. clearbody s1. set (sb1 := flip_hard sb) in *. clearbody sb1.
  assert (step s HSwitch s1) as Hst by (by eapply step_expand_switch).
  set (sb2 := SoftBuf (cys_hard sb1) (cys_hard sb1) (cys_buf0 sb1) (cys_buf1 sb1)).
  set (cpu2 := with_softbuf (s_cpu s1) (<[lev := sb2]> (cyp_softbuf (s_cpu s1)))).
  assert (cyp_softbuf cpu2 !! lev = Some sb2) as Hsb2 by (apply list_lookup_insert_eq; by eapply lookup_lt_Some).
  assert (pending (cyp_cyclics cpu2) lev k) as Hk2 by done.
  assert (rd (cyp_softbuf cpu2) lev = Some sb2) as Hrd by done. assert (cys_buf sb2 (cys_hard sb1) = cys_buf sb1 (cys_hard sb1)) as Eb by done.
  exists s1. eexists _, _, _, _, sb2. split; [done|]. split; [apply (late_follow lev s1 t sb1 Ht1 Hpc Hts Hsb1)|]. fold sb2 cpu2.
  clearbody cpu2. split; [unfold softint_step; cbn; rewrite upd_eq; cbn; rewrite Hrd; cbn; reflexivity|].
  split; [unfold softint_step; cbn; rewrite upd_eq; cbn; rewrite Hrd; cbn; rewrite Eb, Hbuf; cbn; reflexivity|].
  split; [cbn; apply upd_eq|]. split; [done|]. split; [exact Hc1|]. split; [by exists k|]. split; [exact Hsb2|]. split; [done|].
  split; [unfold soft_cons; cbn [sb2 cys_soft]; by rewrite Eb, Hbuf|]. intros k'. by apply expire_pending.
Qed.

(** The timer interrupt comes after the soft interrupt of the low level has
    found its buffer empty; the cross call of a resize is next. *)
Definition sys_late : sys :=
  default sys0 (exec [sched_add; OpStart CY_LOW_LEVEL; OpSoftint CY_LOW_LEVEL; OpSoftint CY_LOW_LEVEL;
    OpFire 10; OpExpandBegin; OpExpandPrepare [0; 0]%nat] sys0).

Lemma cyclic_resize_race_witness :
  ∃ s1 s2 k, step sys_late HSwitch s1 ∧ softint_step CY_LOW_LEVEL s1 = Some s2 ∧
    ∃ s4, s_calls s4 = s_calls sys_late ∧ pending (cyp_cyclics (s_cpu s4)) CY_LOW_LEVEL k.
Proof.
  destruct (s_thread sys_late CY_LOW_LEVEL) as [t|] eqn:Et; [|vm_compute in Et; discriminate Et].
  destruct (cyp_softbuf (s_cpu sys_late) !! CY_LOW_LEVEL) as [sb|] eqn:Esb; [|vm_compute in Esb; discriminate Esb].
  destruct (cyclic_resize_race sys_late [0; 0]%nat CY_LOW_LEVEL t sb (exec_sys0 _)) as (s1 & s2 & _ & s4 & _ & _ & H1 & H2 & _ & _ & _ & _ & H3 & (k & H4) & _).
  - vm_compute. reflexivity.
  - vm_compute. reflexivity.
  - vm_compute. lia.
  - exact Et.
  - vm_compute in Et. injection Et as <-. reflexivity.
  - exact Esb.
  - vm_compute in Et, Esb. injection Et as <-. injection Esb as <-. vm_compute. discriminate.
  - exists s1, s2, k. split; [exact H1|]. split; [exact H2|]. exists s4. split; [exact H3|exact H4].
Defined.

(** The same run to its end: the cyclic expires again, the next soft
    interrupt finds nothing, and its handler has not been called. *)
Lemma cyclic_resize_schedule :
  ∃ s2 s3,
    exec_late [0; 0]%nat sys_late = Some s2 ∧
    exec (replicate 6 (OpSoftint CY_LOW_LEVEL) ++ OpStart CY_LOCK_LEVEL :: replicate 9 (OpSoftint CY_LOCK_LEVEL) ++
          [OpExpandWake; OpExpandFree; OpExpandEnd; OpFire 20; OpStart CY_LOW_LEVEL] ++
          replicate 3 (OpSoftint CY_LOW_LEVEL)) s2 = Some s3 ∧
    s_admin s3 = ANone ∧ idle_threads s3 = true ∧ s_exps s3 0%nat = 2 ∧ s_calls s3 0%nat = 0 ∧ pend_of s3 0 = 2.
Proof.
  eexists (default sys0 _), (default sys0 _).
  split; [apply runs_default; vm_compute; reflexivity|]. split; [apply runs_default; vm_compute; reflexivity|].
  split; [vm_compute; reflexivity|]. split; [vm_compute; reflexivity|]. split; [vm_compute; reflexivity|]. split; vm_compute; reflexivity.
Qed.

(** A low level cyclic that is 2^31 + 1 expirations behind, in its queue. *)
Definition sys_behind : sys :=
  Sys (CycCpu [0%nat] [Cyclic 100 10 1000 1 (2 ^ 31 + 1) 0 CY_LOW_LEVEL] 1 1 CYS_ONLINE
    [SoftBuf false false (PcBuffer (Some [0%nat]) 1 0 0) (PcBuffer None 0 0 0);
     SoftBuf false false (PcBuffer (Some [0%nat]) 0 0 0) (PcBuffer None 0 0 0)] 0 0 0)
    0 None (λ _, None) ANone None (λ _, 2 ^ 31 + 1) (λ _, 0).

(** The pend count is an unsigned 32 bit number that sticks at
    [UINT32_MAX], but the soft interrupt compares it as a signed one: a
    cyclic that is more than 2^31 expirations behind gets one handler call
    and is taken off the queue with 2^31 expirations still pending, after
    which it is never queued again. *)
Theorem cyclic_softint_signed_pend :
  ∃ s, exec (OpStart CY_LOW_LEVEL :: replicate 9 (OpSoftint CY_LOW_LEVEL)) sys_behind = Some s ∧
    idle_threads s = true ∧ s_calls s 0%nat = 1 ∧ pend_of s 0 = 2 ^ 31 ∧
    (∃ sb, cyp_softbuf (s_cpu s) !! CY_LOW_LEVEL = Some sb ∧
       cypc_consndx (cys_buf sb (cys_soft sb)) = cypc_prodndx (cys_buf sb (cys_soft sb))).
Proof.
  eexists (default sys0 _). split; [apply runs_default; vm_compute; reflexivity|].
  split; [vm_compute; reflexivity|]. split; [vm_compute; reflexivity|]. split; [vm_compute; reflexivity|].
  eexists. split; [vm_compute; reflexivity|]. vm_compute. reflexivity.
Qed.
