(* ===== verification/KString.v ===== *)
(** * Strings and formatted output (uts/common/os/string.c, uts/common/krtld/kobj_subr.c)

    The string routines of the kernel and of its linker, and [vsnprintf].  A
    C string is the list of the [char]s from the pointer to the end of the
    object it points into ([char] is signed on the machines of this kernel);
    stepping the pointer drops the head, and reading past the end of the list
    is a fault.  [vsnprintf] is shown to write, in a buffer of any size, the
    longest prefix that fits of a text that does not depend on the buffer. *)

From Stdlib Require Import ZArith Lia.
From stdpp Require Import base numbers option list.
From S2P Require Import Prelude.

#[local] Open Scope Z_scope.

Abbreviation s8 := (wraps 8).

(** ** Comparison and search *)

Fixpoint strlen (s : list Z) : option Z :=
  match s with
  | [] => None
  | c :: s => if c =? 0 then Some 0 else let! n := strlen s in Some (n + 1)
  end.

Fixpoint strcmp (s1 s2 : list Z) : option Z :=
  match s1, s2 with
  | c1 :: s1, c2 :: s2 =>
      if c1 =? c2 then if c1 =? 0 then Some 0 else strcmp s1 s2
      else Some (c1 - c2)
  | _, _ => None
  end.

(** [same]: the two pointers are equal. *)
Fixpoint strncmp_loop (s1 s2 : list Z) (n : nat) {struct n} : option Z :=
  match n with
  | O => Some 0
  | S n =>
      match s1, s2 with
      | c1 :: s1, c2 :: s2 =>
          if c1 =? c2 then if c1 =? 0 then Some 0 else strncmp_loop s1 s2 n
          else Some (c1 - c2)
      | _, _ => None
      end
  end.

Definition strncmp (same : bool) (s1 s2 : list Z) (n : nat) : option Z :=
  if same then Some 0 else strncmp_loop s1 s2 n.

(** The routines that return a pointer into their argument return its offset,
    or [None] for [NULL]. *)
Fixpoint strchr (sp : list Z) (c : Z) : option (option nat) :=
  match sp with
  | [] => None
  | x :: sp =>
      if x =? s8 c then Some (Some O)
      else if x =? 0 then Some None
      else let! r := strchr sp c in Some (S <$> r)
  end.

Fixpoint strrchr_loop (sp : list Z) (c : Z) (i : nat) (r : option nat) : option (option nat) :=
  match sp with
  | [] => None
  | x :: sp =>
      let r := if x =? s8 c then Some i else r in
      if x =? 0 then Some r else strrchr_loop sp c (S i) r
  end.

Definition strrchr (sp : list Z) (c : Z) : option (option nat) := strrchr_loop sp c 0 None.

Fixpoint strnrchr_loop (sp : list Z) (c : Z) (n i : nat) (r : option nat) {struct n} : option (option nat) :=
  match n with
  | O => Some r
  | S n =>
      match sp with
      | [] => None
      | x :: sp =>
          if x =? 0 then Some r
          else strnrchr_loop sp c n (S i) (if x =? c then Some i else r)
      end
  end.

Definition strnrchr (sp : list Z) (c : Z) (n : nat) : option (option nat) := strnrchr_loop sp c n 0 None.

(** [while ((c = *++s2) == *s1++ && c) ;] from the second characters on, and
    whether it ends with [c == 0]. *)
Fixpoint strstr_match (s1 s2 : list Z) : option bool :=
  match s1, s2 with
  | x :: s1, c :: s2 =>
      if c =? x then if c =? 0 then Some true else strstr_match s1 s2
      else Some (c =? 0)
  | _, _ => None
  end.

Fixpoint strstr_loop (s1 : list Z) (c : Z) (s2 : list Z) (i : nat) : option (option nat) :=
  match s1 with
  | [] => None
  | x :: s1 =>
      if x =? 0 then Some None
      else if x =? c then
        let! b := strstr_match s1 s2 in
        if b : bool then Some (Some i) else strstr_loop s1 c s2 (S i)
      else strstr_loop s1 c s2 (S i)
  end.

(** [as2] is [None] for [NULL]. *)
Definition strstr (as1 : list Z) (as2 : option (list Z)) : option (option nat) :=
  match as2 with
  | None => Some (Some O)
  | Some as2 =>
      let! c := rd as2 0 in
      if c =? 0 then Some (Some O) else strstr_loop as1 c (drop 1 as2) 0
  end.

(** ** Case-insensitive comparison *)

(** [charmap]: the upper case letters of ASCII and of the upper half of the
    table are mapped to the lower case ones; the entries are [char]s. *)
Definition charmap_at (i : Z) : Z :=
  s8 (if ((0x41 <=? i) && (i <=? 0x5a) || (0xc1 <=? i) && (i <=? 0xda))%bool then i + 0x20 else i).
Definition charmap : list Z := charmap_at ∘ Z.of_nat <$> seq 0 256.

(** [cm[x]] for a [char] [x]: a negative index is outside the array. *)
Definition cm (x : Z) : option Z := if x <? 0 then None else rd charmap (Z.to_nat x).

Fixpoint strcasecmp (s1 s2 : list Z) : option Z :=
  match s1, s2 with
  | c1 :: s1, c2 :: s2 =>
      let! m1 := cm c1 in
      let! m2 := cm c2 in
      if m1 =? m2 then if c1 =? 0 then Some 0 else strcasecmp s1 s2
      else
        let! m1 := cm (u8 c1) in
        let! m2 := cm (u8 c2) in
        Some (u8 m1 - u8 m2)
  | _, _ => None
  end.

Fixpoint strncasecmp (s1 s2 : list Z) (n : nat) {struct n} : option Z :=
  match n with
  | O => Some 0
  | S n =>
      match s1, s2 with
      | c1 :: s1, c2 :: s2 =>
          let! m1 := cm c1 in
          let! m2 := cm c2 in
          if m1 =? m2 then if c1 =? 0 then Some 0 else strncasecmp s1 s2 n
          else
            let! m1 := cm (u8 c1) in
            let! m2 := cm (u8 c2) in
            Some (u8 m1 - u8 m2)
      | _, _ => None
      end
  end.

(** ** Copies

    The destination is the list of the cells from [s1] on; the result is its
    new content. *)

Fixpoint strcpy (s1 s2 : list Z) : option (list Z) :=
  match s1, s2 with
  | _ :: s1, c :: s2 =>
      if c =? 0 then Some (0 :: s1)
      else let! s1 := strcpy s1 s2 in Some (c :: s1)
  | _, _ => None
  end.

Fixpoint strcat (s1 s2 : list Z) : option (list Z) :=
  match s1 with
  | [] => None
  | x :: s1' =>
      if x =? 0 then strcpy s1 s2
      else let! s1' := strcat s1' s2 in Some (x :: s1')
  end.

(** [while (--n != 0) *s1++ = '\0';] *)
Fixpoint bzero (p : list Z) (count : nat) {struct count} : option (list Z) :=
  match count with
  | O => Some p
  | S count =>
      match p with
      | [] => None
      | _ :: p => let! p := bzero p count in Some (0 :: p)
      end
  end.

Fixpoint strncpy (s1 s2 : list Z) (n : nat) {struct n} : option (list Z) :=
  match n with
  | O => Some s1
  | S n =>
      match s1, s2 with
      | _ :: s1, c :: s2 =>
          if c =? 0 then let! s1 := bzero s1 n in Some (0 :: s1)
          else let! s1 := strncpy s1 s2 n in Some (c :: s1)
      | _, _ => None
      end
  end.

(** [bcopy] between two ranges of one memory, which may overlap. *)
Fixpoint bcopy_down (mem : list Z) (src dest count : nat) : option (list Z) :=
  match count with
  | O => Some mem
  | S count =>
      let! c := rd mem (src + count) in
      let! mem := wr mem (dest + count) c in
      bcopy_down mem src dest count
  end.

Fixpoint bcopy_up (mem : list Z) (src dest count : nat) : option (list Z) :=
  match count with
  | O => Some mem
  | S count =>
      let! c := rd mem src in
      let! mem := wr mem dest c in
      bcopy_up mem (S src) (S dest) count
  end.

Definition bcopy (mem : list Z) (src dest count : nat) : option (list Z) :=
  if ((src <? dest)%nat && (dest <? src + count)%nat)%bool
  then bcopy_down mem src dest count
  else bcopy_up mem src dest count.

(** ** Numbers *)

(** [numtos]: the digits go backwards into [prbuf] and from there into [s].
    [fuel] bounds the number of digits; [prbuf] is kept as the list of the
    characters written, the last one first. *)
Fixpoint numtos_digits (num : Z) (prbuf : list Z) (fuel : nat) : option (list Z) :=
  match fuel with
  | O => None
  | S fuel =>
      let prbuf := 48 + num `mod` 10 :: prbuf in
      if num `div` 10 =? 0 then Some prbuf else numtos_digits (num `div` 10) prbuf fuel
  end.

Definition PRBUF_SIZE : nat := 40.

Definition numtos (num : Z) (s : list Z) : option (list Z) :=
  let! cs := numtos_digits num [] PRBUF_SIZE in
  strcpy s (cs ++ [0]).

(** [stoi] returns the number and the new pointer. *)
Fixpoint stoi_loop (p : list Z) (n : Z) : option (Z * list Z) :=
  match p with
  | [] => None
  | c :: p' =>
      if ((c >=? 48) && (c <=? 57))%bool then stoi_loop p' (s32 (n * 10 + c - 48))
      else Some (n, p)
  end.

Definition stoi (str : list Z) : option (Z * list Z) := stoi_loop str 0.

(** ** Formatted output *)

(** What [va_arg] finds: an [int], a [long], an [int64_t], a pointer to a
    string ([None] for [NULL]).  Reading an argument at another type, or one
    that was not passed, is a fault. *)
Inductive va :=
  | VInt (n : Z)
  | VLong (n : Z)
  | VInt64 (n : Z)
  | VStr (s : option (list Z)).

(** The output: the content of [buf] and the offset [bufp - buf]. *)
Record out := Out { o_buf : list Z; o_bufp : Z }.

Definition ADDCHAR (buflen : Z) (c : Z) (o : out) : option out :=
  if o_bufp o <? buflen then
    let! buf := wr (o_buf o) (Z.to_nat (o_bufp o)) c in
    Some (Out buf (o_bufp o + 1))
  else Some (Out (o_buf o) (o_bufp o + 1)).

(** The prefixes of a conversion, each with the character that follows it. *)
Fixpoint scan_pad (pad c : Z) (fmt : list Z) {struct fmt} : option (Z * Z * list Z) :=
  if c =? 48 then
    match fmt with [] => None | c :: fmt => scan_pad 48 c fmt end
  else Some (pad, c, fmt).

Fixpoint scan_width (width c : Z) (fmt : list Z) {struct fmt} : option (Z * Z * list Z) :=
  if ((c >=? 48) && (c <=? 57))%bool then
    match fmt with [] => None | c' :: fmt => scan_width (s32 (width * 10 + c - 48)) c' fmt end
  else Some (width, c, fmt).

Fixpoint scan_ells (ells c : Z) (fmt : list Z) {struct fmt} : option (Z * Z * list Z) :=
  if c =? 108 then
    match fmt with [] => None | c :: fmt => scan_ells (ells + 1) c fmt end
  else Some (ells, c, fmt).

Definition digits_lower : list Z := [48; 49; 50; 51; 52; 53; 54; 55; 56; 57; 97; 98; 99; 100; 101; 102; 0].
Definition digits_upper : list Z := [48; 49; 50; 51; 52; 53; 54; 55; 56; 57; 65; 66; 67; 68; 69; 70; 0].
Definition null_string : list Z := [60; 110; 117; 108; 108; 32; 115; 116; 114; 105; 110; 103; 62; 0].

(** A conversion after the [switch]: a number to print, or nothing more. *)
Record conv := Conv { cv_base : Z; cv_sign : bool; cv_ells : Z }.

Section vsnprintf.
Context (lp64 : bool) (buflen : Z).

(** [while ((c = *sp++) != 0) ADDCHAR(c);] *)
Fixpoint put_string (sp : list Z) (o : out) : option out :=
  match sp with
  | [] => None
  | c :: sp => if c =? 0 then Some o else let! o := ADDCHAR buflen c o in put_string sp o
  end.

(** [while (width-- > sign) ADDCHAR(pad);] with [n] characters to go.  The
    decrements of [width], here and in [count_width], are those of integers:
    they leave the range of an [int] only from the 65 least values of it on,
    where C leaves the result undefined. *)
Fixpoint put_pad (pad : Z) (n : nat) (o : out) : option out :=
  match n with
  | O => Some o
  | S n => let! o := ADDCHAR buflen pad o in put_pad pad n o
  end.

(** [while (sp > numbuf) { sp--; ADDCHAR( *sp); }], [numbuf] being the list
    of the characters written there, the last one first. *)
Fixpoint put_num (numbuf : list Z) (o : out) : option out :=
  match numbuf with
  | [] => Some o
  | c :: numbuf => let! o := ADDCHAR buflen c o in put_num numbuf o
  end.

(** The unsigned division by an [int]; a zero divisor traps. *)
Definition udiv (tmp base : Z) : option Z :=
  if base =? 0 then None else Some (tmp `div` u64 base).

(** [do { width--; } while ((tmp /= base) != 0);] *)
Fixpoint count_width (tmp base width : Z) (fuel : nat) : option Z :=
  match fuel with
  | O => None
  | S fuel =>
      let! tmp := udiv tmp base in
      if tmp =? 0 then Some (width - 1) else count_width tmp base (width - 1) fuel
  end.

Definition NUMBUF_SIZE : nat := 65.

(** [do { *sp++ = digits[tmp % base]; } while ((tmp /= base) != 0);] *)
Fixpoint put_digits (digits : list Z) (tmp base : Z) (numbuf : list Z) (room : nat) : option (list Z) :=
  match room with
  | O => None
  | S room =>
      let! d := rd digits (Z.to_nat (tmp `mod` u64 base)) in
      let! tmp := udiv tmp base in
      if tmp =? 0 then Some (d :: numbuf) else put_digits digits tmp base (d :: numbuf) room
  end.

(** [while ((c = *bs++) >= 32) ADDCHAR(c);] or, with [show = false],
    [continue;]: the character that ends the name, and what follows it. *)
Fixpoint put_name (show : bool) (bs : list Z) (o : out) : option (Z * list Z * out) :=
  match bs with
  | [] => None
  | c :: bs =>
      if c >=? 32 then
        let! o := (if show then ADDCHAR buflen c o else Some o) in
        put_name show bs o
      else Some (c, bs, o)
  end.

(** One iteration of [while (c != 0)] of the ['b'] conversion; [1 << (c - 1)]
    is only defined for [c] from 1 to 32. *)
Definition bits_step (ul : Z) (s : Z * list Z * bool * out) :
    option (loop (Z * list Z * bool * out) (bool * out)) :=
  let '(c, bs, any, o) := s in
  if c =? 0 then Some (Return (any, o))
  else if ((c <? 1) || (c >? 32))%bool then None
  else if Z.testbit ul (c - 1) then
    let! o := (if any then Some o else ADDCHAR buflen 60 o) in
    let! (c, bs, o) := put_name true bs o in
    let! o := ADDCHAR buflen 44 o in
    Some (Next (c, bs, true, o))
  else
    let! (c, bs, o) := put_name false bs o in
    Some (Next (c, bs, any, o)).

Definition put_bits (ul : Z) (bs : list Z) (o : out) : option out :=
  match bs with
  | [] => None
  | c :: bs =>
      let! (any, o) := run (bits_step ul) (S (S (length bs))) (c, bs, false, o) in
      if any : bool then ADDCHAR buflen 62 (Out (o_buf o) (o_bufp o - 1)) else Some o
  end.

(** [ul = (int64_t)va_arg(args, ...)]: a [uint64_t]. *)
Definition num_arg (ells : Z) (args : list va) : option (Z * list va) :=
  match args with
  | VInt n :: args => if ells =? 0 then Some (u64 n, args) else None
  | VLong n :: args => if ells =? 1 then Some (u64 n, args) else None
  | VInt64 n :: args => if 2 <=? ells then Some (u64 n, args) else None
  | _ => None
  end.

(** The number, from [if (ells == 0)] to the end of the loop body. *)
Definition put_number (pad width : Z) (digits : list Z) (c : Z) (cv : conv)
    (args : list va) (o : out) : option (list va * out) :=
  let! (ul, args) := num_arg (cv_ells cv) args in
  let sign := (cv_sign cv && (s64 ul <? 0))%bool in
  let ul := if sign then u64 (- ul) else ul in
  let ul := if cv_ells cv <? (if lp64 then 1 else 2) then Z.land ul 0xffffffff else ul in
  let! (base, bs, args) :=
    (if c =? 98 then
       match args with
       | VStr (Some (b :: bs)) :: args => Some (b, bs, args)
       | _ => None
       end
     else Some (cv_base cv, [], args)) in
  let! width := count_width ul base width NUMBUF_SIZE in
  let! o := (if (sign && (pad =? 48))%bool then ADDCHAR buflen 45 o else Some o) in
  let! o := put_pad pad (Z.to_nat (width - (if sign then 1 else 0))) o in
  let! o := (if (sign && (pad =? 32))%bool then ADDCHAR buflen 45 o else Some o) in
  let! numbuf := put_digits digits ul base [] NUMBUF_SIZE in
  let! o := put_num numbuf o in
  let! o := (if ((c =? 98) && negb (ul =? 0))%bool then put_bits ul bs o else Some o) in
  Some (args, o).

(** The [switch]: the conversions of numbers set [base], the others print. *)
Definition conversion (c ells : Z) : option conv :=
  if c =? 100 then Some (Conv 10 true ells)
  else if c =? 117 then Some (Conv 10 false ells)
  else if c =? 112 then Some (Conv 16 false 1)
  else if c =? 120 then Some (Conv 16 false ells)
  else if c =? 111 then Some (Conv 8 false ells)
  else if c =? 98 then Some (Conv 1 false 0)
  else None.

Definition put_other (c : Z) (args : list va) (o : out) : option (list va * out) :=
  if c =? 99 then
    match args with
    | VInt n :: args => let! o := ADDCHAR buflen (Z.land n 0x7f) o in Some (args, o)
    | _ => None
    end
  else if c =? 115 then
    match args with
    | VStr sp :: args => let! o := put_string (default null_string sp) o in Some (args, o)
    | _ => None
    end
  else if c =? 37 then let! o := ADDCHAR buflen 37 o in Some (args, o)
  else Some (args, o).

Definition directive (c : Z) (fmt : list Z) (args : list va) (o : out) :
    option (list Z * list va * out) :=
  let! (pad, c, fmt) := scan_pad 32 c fmt in
  let! (width, c, fmt) := scan_width 0 c fmt in
  let! (ells, c, fmt) := scan_ells 0 c fmt in
  let upper := ((c >=? 65) && (c <=? 90))%bool in
  let digits := if upper then digits_upper else digits_lower in
  let c := if upper then c + 32 else c in
  let! (args, o) :=
    match conversion c ells with
    | Some cv => put_number pad width digits c cv args o
    | None => put_other c args o
    end in
  Some (fmt, args, o).

(** One iteration of [while ((c = *fmt++) != '\0')]. *)
Definition format_step (s : list Z * list va * out) : option (loop (list Z * list va * out) out) :=
  let '(fmt, args, o) := s in
  match fmt with
  | [] => None
  | c :: fmt =>
      if c =? 0 then Some (Return o)
      else if negb (c =? 37) then let! o := ADDCHAR buflen c o in Some (Next (fmt, args, o))
      else
        match fmt with
        | [] => None
        | c :: fmt =>
            if c =? 0 then Some (Return o)
            else let! s := directive c fmt args o in Some (Next s)
        end
  end.
End vsnprintf.

(** The whole function; [buflen] is a [size_t].  The result is the content of
    the buffer and the returned length. *)
Definition vsnprintf (lp64 : bool) (buf : list Z) (buflen : Z) (fmt : list Z) (args : list va) :
    option (list Z * Z) :=
  let buflen := if wraps (if lp64 then 64 else 32) buflen <? 0 then 0 else buflen in
  let! o := run (format_step lp64 buflen) (S (length fmt)) (fmt, args, Out buf 0) in
  let! buf :=
    (if o_bufp o <? buflen then wr (o_buf o) (Z.to_nat (o_bufp o)) 0
     else if negb (buflen =? 0) then wr (o_buf o) (Z.to_nat (buflen - 1)) 0
     else Some (o_buf o)) in
  Some (buf, o_bufp o).

Definition INT_MAX : Z := 2147483647.

Definition vsprintf (lp64 : bool) (buf fmt : list Z) (args : list va) : option (list Z) :=
  let! (buf, _) := vsnprintf lp64 buf INT_MAX fmt args in
  Some buf.

(** ** What [vsnprintf] prints

    The text a format and its arguments stand for, with no buffer. *)

(** The characters of a C string. *)
Fixpoint cstring (sp : list Z) : option (list Z) :=
  match sp with
  | [] => None
  | c :: sp => if c =? 0 then Some [] else let! t := cstring sp in Some (c :: t)
  end.

(** A name, the character that ends it and what follows. *)
Fixpoint split_name (bs : list Z) : option (list Z * Z * list Z) :=
  match bs with
  | [] => None
  | c :: bs =>
      if c >=? 32 then let! (name, c', bs) := split_name bs in Some (c :: name, c', bs)
      else Some ([], c, bs)
  end.

(** The names of the bits of [ul] that are set, from the description after
    its base. *)
Fixpoint bit_names (ul c : Z) (bs : list Z) (fuel : nat) : option (list (list Z)) :=
  match fuel with
  | O => None
  | S fuel =>
      if c =? 0 then Some []
      else if ((c <? 1) || (c >? 32))%bool then None
      else
        let! (name, c', bs) := split_name bs in
        let! names := bit_names ul c' bs fuel in
        Some (if Z.testbit ul (c - 1) then name :: names else names)
  end.

(** The names separated by commas and closed with ['>']. *)
Fixpoint join_names (names : list (list Z)) : list Z :=
  match names with
  | [] => []
  | [name] => name ++ [62]
  | name :: names => name ++ 44 :: join_names names
  end.

Definition bits_text (ul : Z) (bs : list Z) : option (list Z) :=
  match bs with
  | [] => None
  | c :: bs =>
      let! names := bit_names ul c bs (S (S (length bs))) in
      Some (match names with [] => [] | _ => 60 :: join_names names end)
  end.

Definition when (b : bool) (t : list Z) : list Z := if b then t else [].

(** A number: the sign before the zeros or after the blanks, as many of them
    as the digits leave of the width, and the digits. *)
Definition number_text (lp64 : bool) (pad width : Z) (digits : list Z) (c : Z) (cv : conv)
    (args : list va) : option (list va * list Z) :=
  let! (ul, args) := num_arg (cv_ells cv) args in
  let sign := (cv_sign cv && (s64 ul <? 0))%bool in
  let ul := if sign then u64 (- ul) else ul in
  let ul := if cv_ells cv <? (if lp64 then 1 else 2) then Z.land ul 0xffffffff else ul in
  let! (base, bs, args) :=
    (if c =? 98 then
       match args with
       | VStr (Some (b :: bs)) :: args => Some (b, bs, args)
       | _ => None
       end
     else Some (cv_base cv, [], args)) in
  let! num := put_digits digits ul base [] NUMBUF_SIZE in
  let! bits := (if ((c =? 98) && negb (ul =? 0))%bool then bits_text ul bs else Some []) in
  let n := Z.to_nat (width - Z.of_nat (length num) - (if sign then 1 else 0)) in
  Some (args, when (sign && (pad =? 48))%bool [45] ++ replicate n pad ++
              when (sign && (pad =? 32))%bool [45] ++ num ++ bits).

Definition other_text (c : Z) (args : list va) : option (list va * list Z) :=
  if c =? 99 then
    match args with
    | VInt n :: args => Some (args, [Z.land n 0x7f])
    | _ => None
    end
  else if c =? 115 then
    match args with
    | VStr sp :: args => let! t := cstring (default null_string sp) in Some (args, t)
    | _ => None
    end
  else Some (args, when (c =? 37) [37]).

Definition directive_text (lp64 : bool) (c : Z) (fmt : list Z) (args : list va) :
    option (list Z * list va * list Z) :=
  let! (pad, c, fmt) := scan_pad 32 c fmt in
  let! (width, c, fmt) := scan_width 0 c fmt in
  let! (ells, c, fmt) := scan_ells 0 c fmt in
  let upper := ((c >=? 65) && (c <=? 90))%bool in
  let digits := if upper then digits_upper else digits_lower in
  let c := if upper then c + 32 else c in
  let! (args, t) :=
    match conversion c ells with
    | Some cv => number_text lp64 pad width digits c cv args
    | None => other_text c args
    end in
  Some (fmt, args, t).

Definition render_step (lp64 : bool) (s : list Z * list va * list Z) :
    option (loop (list Z * list va * list Z) (list Z)) :=
  let '(fmt, args, t) := s in
  match fmt with
  | [] => None
  | c :: fmt =>
      if c =? 0 then Some (Return t)
      else if negb (c =? 37) then Some (Next (fmt, args, t ++ [c]))
      else
        match fmt with
        | [] => None
        | c :: fmt =>
            if c =? 0 then Some (Return t)
            else let! (fmt, args, u) := directive_text lp64 c fmt args in Some (Next (fmt, args, t ++ u))
        end
  end.

Definition render (lp64 : bool) (fmt : list Z) (args : list va) : option (list Z) :=
  run (render_step lp64) (S (length fmt)) (fmt, args, []).

(** ** The output in a buffer *)

Section output.
Context (lp64 : bool) (buflen : Z) (buf : list Z) (Hbuf : 0 <= buflen <= Z.of_nat (length buf)).

(** The buffer after the text [t] has been printed, and the state then. *)
Definition shown (t : list Z) : list Z :=
  let n := (length t `min` Z.to_nat buflen)%nat in take n t ++ drop n buf.
Definition printed (t : list Z) : out := Out (shown t) (Z.of_nat (length t)).

Lemma addchar_at t c x :
  ADDCHAR buflen c (Out (shown (t ++ when x [44])) (Z.of_nat (length t))) = Some (printed (t ++ [c])).
Proof.
  assert (∀ u, (length u <= 1)%nat →
    (Z.of_nat (length t) < buflen → shown (t ++ u) = t ++ u ++ drop (length t + length u) buf) ∧
    (buflen <= Z.of_nat (length t) → shown (t ++ u) = shown t)) as Hs.
  { intros u Hu. unfold shown. split; intros H; rewrite length_app.
    - rewrite Nat.min_l by lia. by rewrite take_ge, <- app_assoc by (rewrite length_app; lia).
    - rewrite !Nat.min_r by lia. by rewrite take_app_le by lia. }
  assert ((length (when x [44%Z]) <= 1)%nat) as Hx by (destruct x; cbn; lia).
  destruct (Hs _ Hx) as [H1 H2]. destruct (Hs [c]) as [H3 H4]; [done|].
  unfold ADDCHAR, printed. cbn [o_bufp o_buf]. rewrite length_app. cbn [length].
  destruct (Z.ltb_spec (Z.of_nat (length t)) buflen) as [Hlt|Hge].
  - rewrite H1, H3, Nat2Z.id by done. rewrite wr_lt by (rewrite !length_app, length_drop; lia).
    do 2 f_equal; [|lia].
    rewrite insert_app_r_alt by lia. rewrite Nat.sub_diag. f_equal.
    destruct x; cbn; [done|]. rewrite Nat.add_0_r.
    destruct (drop (length t) buf) as [|y l] eqn:E.
    { apply (f_equal length) in E. rewrite length_drop in E. cbn in E. lia. }
    cbn. rewrite <- drop_drop, E. done.
  - rewrite H2, H4 by done. do 2 f_equal. lia.
Qed.

Lemma addchar_ok t c : ADDCHAR buflen c (printed t) = Some (printed (t ++ [c])).
Proof. pose proof (addchar_at t c false) as H. cbn [when] in H. by rewrite app_nil_r in H. Qed.

(** The closing bracket takes the place of the last comma. *)
Lemma addchar_back t c :
  ADDCHAR buflen c (Out (o_buf (printed (t ++ [44]))) (o_bufp (printed (t ++ [44])) - 1)) = Some (printed (t ++ [c])).
Proof.
  rewrite <- (addchar_at t c true). unfold printed. cbn [o_buf o_bufp when]. f_equal. f_equal.
  rewrite length_app. cbn. lia.
Qed.

Lemma put_string_ok sp t : put_string buflen sp (printed t) = (λ u, printed (t ++ u)) <$> cstring sp.
Proof.
  revert t. induction sp as [|c sp IH]; intros t; cbn [put_string cstring]; [done|].
  destruct (c =? 0); cbn; [by rewrite app_nil_r|].
  rewrite addchar_ok. cbn. rewrite IH. destruct (cstring sp); cbn; [|done]. by rewrite <- app_assoc.
Qed.

Lemma put_pad_ok pad n t : put_pad buflen pad n (printed t) = Some (printed (t ++ replicate n pad)).
Proof.
  revert t. induction n as [|n IH]; intros t; cbn [put_pad replicate]; [by rewrite app_nil_r|].
  rewrite addchar_ok. cbn. by rewrite IH, <- app_assoc.
Qed.

Lemma put_num_ok num t : put_num buflen num (printed t) = Some (printed (t ++ num)).
Proof.
  revert t. induction num as [|c num IH]; intros t; cbn [put_num]; [by rewrite app_nil_r|].
  rewrite addchar_ok. cbn. by rewrite IH, <- app_assoc.
Qed.

Lemma put_name_ok show bs t :
  put_name buflen show bs (printed t) =
  (λ '(name, c, bs'), (c, bs', printed (t ++ when show name))) <$> split_name bs.
Proof.
  revert t. induction bs as [|c bs IH]; intros t; cbn [put_name split_name]; [done|].
  destruct (c >=? 32); cbn; [|destruct show; cbn; by rewrite app_nil_r].
  destruct show; [rewrite addchar_ok|]; cbn; rewrite IH;
    (destruct (split_name bs) as [[[name c'] bs']|]; cbn; [|done]); [by rewrite <- app_assoc|done].
Qed.

Definition commas (names : list (list Z)) : list Z := concat ((λ n, n ++ [44]) <$> names).

Lemma commas_join names :
  names ≠ [] → ∃ u, commas names = u ++ [44] ∧ join_names names = u ++ [62].
Proof.
  induction names as [|n names IH]; [done|]. intros _. unfold commas. cbn.
  destruct names as [|n' names]; [exists n; by rewrite app_nil_r|].
  destruct IH as (u & H1 & H2); [done|]. exists (n ++ 44 :: u).
  fold (commas (n' :: names)). change (join_names (n :: n' :: names)) with (n ++ 44 :: join_names (n' :: names)).
  unfold commas in *. cbn in *. rewrite H1, H2, <- !app_assoc. done.
Qed.

Definition opened (any : bool) (names : list (list Z)) : list Z :=
  match names with [] => [] | _ => when (negb any) [60] ++ commas names end.

Lemma bits_run ul fuel c bs any t :
  run (bits_step buflen ul) fuel (c, bs, any, printed t) =
  (λ names, ((any || bool_decide (names ≠ []))%bool, printed (t ++ opened any names))) <$> bit_names ul c bs fuel.
Proof.
  revert c bs any t. induction fuel as [|fuel IH]; intros c bs any t; cbn [run bit_names]; [done|].
  unfold bits_step at 1. destruct (c =? 0); [cbn; by rewrite orb_false_r, app_nil_r|].
  destruct ((c <? 1) || (c >? 32))%bool; [done|].
  destruct (Z.testbit ul (c - 1)).
  - assert ((if any then Some (printed t) else ADDCHAR buflen 60 (printed t)) =
            Some (printed (t ++ when (negb any) [60]))) as ->.
    { destruct any; cbn; [by rewrite app_nil_r|apply addchar_ok]. }
    rewrite put_name_ok. destruct (split_name bs) as [[[name c'] bs']|]; cbn [fmap option_fmap option_map when]; [|done].
    rewrite addchar_ok, IH. destruct (bit_names ul c' bs' fuel) as [names|]; cbn; [|done].
    rewrite orb_true_r. unfold opened, commas. cbn. rewrite <- !app_assoc. cbn. do 3 f_equal.
    destruct names; cbn; rewrite ?app_nil_r; [done|]. by rewrite <- !app_assoc.
  - rewrite put_name_ok. destruct (split_name bs) as [[[name c'] bs']|]; cbn [fmap option_fmap option_map when]; [|done].
    rewrite app_nil_r, IH. by destruct (bit_names ul c' bs' fuel).
Qed.

Lemma put_bits_ok ul bs t :
  put_bits buflen ul bs (printed t) = (λ u, printed (t ++ u)) <$> bits_text ul bs.
Proof.
  unfold put_bits, bits_text. destruct bs as [|c bs]; [done|]. rewrite bits_run.
  destruct (bit_names ul c bs _) as [names|]; cbn [fmap option_fmap option_map]; [|done].
  cbn [orb]. destruct names as [|n names].
  { by rewrite bool_decide_eq_false_2 by (intros H; by apply H). }
  rewrite bool_decide_eq_true_2 by done.
  destruct (commas_join (n :: names)) as (u & H1 & H2); [done|].
  unfold opened. rewrite H1, H2. cbn [when negb].
  replace (t ++ [60] ++ u ++ [44]) with ((t ++ 60 :: u) ++ [44]) by (by rewrite <- !app_assoc).
  replace (t ++ 60 :: u ++ [62]) with ((t ++ 60 :: u) ++ [62]) by (by rewrite <- !app_assoc). apply addchar_back.
Qed.

(** The digits are as many as the pass over the width counted. *)
Lemma count_width_ok digits base tmp width num fuel num' :
  put_digits digits tmp base num fuel = Some num' →
  count_width tmp base width fuel = Some (width - (Z.of_nat (length num') - Z.of_nat (length num))).
Proof.
  revert tmp num width. induction fuel as [|fuel IH]; intros tmp num width; cbn [put_digits count_width]; [done|].
  destruct (rd digits _) as [d|]; [|done]. destruct (udiv tmp base) as [tmp'|]; [|done].
  destruct (tmp' =? 0).
  - intros [= <-]. f_equal. cbn [length]. lia.
  - intros H. rewrite (IH _ _ _ H). f_equal. cbn [length]. lia.
Qed.

Lemma put_sign_ok b t :
  (if b : bool then ADDCHAR buflen 45 (printed t) else Some (printed t)) = Some (printed (t ++ when b [45])).
Proof. destruct b; cbn; [apply addchar_ok|by rewrite app_nil_r]. Qed.

Lemma put_number_ok pad width digits c cv args t :
  put_number lp64 buflen pad width digits c cv args (printed t) =
  (λ '(args, u), (args, printed (t ++ u))) <$> number_text lp64 pad width digits c cv args.
Proof.
  unfold put_number, number_text. destruct (num_arg (cv_ells cv) args) as [[ul args']|]; [|done]. cbv zeta.
  set (sign := (cv_sign cv && _)%bool). set (ul2 := if cv_ells cv <? _ then _ else _).
  destruct (if c =? 98 then _ else _) as [[[base bs] args2]|]; [|done].
  destruct (put_digits digits ul2 base [] NUMBUF_SIZE) as [num|] eqn:Hnum.
  2: { destruct (count_width _ _ _ _); [|done]. rewrite put_sign_ok. cbv iota. rewrite put_pad_ok. cbv iota.
       by rewrite put_sign_ok. }
  rewrite (count_width_ok _ _ _ width _ _ _ Hnum). cbv iota. rewrite put_sign_ok. cbv iota.
  rewrite put_pad_ok. cbv iota. rewrite put_sign_ok. cbv iota. rewrite put_num_ok. cbv iota.
  replace (width - (Z.of_nat (length num) - Z.of_nat (length (@nil Z))) - (if sign then 1 else 0))
    with (width - Z.of_nat (length num) - (if sign then 1 else 0)) by (cbn [length]; lia).
  destruct (_ && negb _)%bool; [rewrite put_bits_ok; destruct (bits_text ul2 bs); cbn; [|done]|cbn; rewrite app_nil_r];
    by rewrite <- !app_assoc.
Qed.

Lemma put_other_ok c args t :
  put_other buflen c args (printed t) = (λ '(args, u), (args, printed (t ++ u))) <$> other_text c args.
Proof.
  unfold put_other, other_text. destruct (c =? 99).
  { destruct args as [|[] args]; cbn [fmap option_fmap option_map]; try done. by rewrite addchar_ok. }
  destruct (c =? 115).
  { destruct args as [|[] args]; cbn [fmap option_fmap option_map]; try done.
    rewrite put_string_ok. by destruct (cstring _). }
  destruct (c =? 37); cbn; [by rewrite addchar_ok|by rewrite app_nil_r].
Qed.

Lemma directive_ok c fmt args t :
  directive lp64 buflen c fmt args (printed t) =
  (λ '(fmt, args, u), (fmt, args, printed (t ++ u))) <$> directive_text lp64 c fmt args.
Proof.
  unfold directive, directive_text.
  destruct (scan_pad 32 c fmt) as [[[pad c1] fmt1]|]; [|done].
  destruct (scan_width 0 c1 fmt1) as [[[width c2] fmt2]|]; [|done].
  destruct (scan_ells 0 c2 fmt2) as [[[ells c3] fmt3]|]; [|done]. cbv zeta.
  destruct (conversion _ ells).
  - rewrite put_number_ok. by destruct (number_text _ _ _ _ _ _ _) as [[]|].
  - rewrite put_other_ok. by destruct (other_text _ _) as [[]|].
Qed.

Lemma format_ok fuel fmt args :
  run (format_step lp64 buflen) fuel (fmt, args, Out buf 0) =
  printed <$> run (render_step lp64) fuel (fmt, args, []).
Proof.
  assert (option_Forall2 (λ o t, o = printed t)
    (run (format_step lp64 buflen) fuel (fmt, args, Out buf 0))
    (run (render_step lp64) fuel (fmt, args, []))) as [? ? ->|]; [|done|done].
  apply (run_sim _ _ (λ s1 s2, s1 = (s2.1, printed s2.2))); [|done].
  intros s1 [[fmt1 args1] t] ->. cbn [fst snd format_step render_step].
  destruct fmt1 as [|c1 fmt1]; [constructor|]. destruct (c1 =? 0); [by constructor|].
  destruct (negb (c1 =? 37)); [rewrite addchar_ok; by constructor|].
  destruct fmt1 as [|c2 fmt2]; [constructor|]. destruct (c2 =? 0); [by constructor|].
  rewrite directive_ok. destruct (directive_text _ _ _ _) as [[[fmt3 args3] u]|]; cbn; by constructor.
Qed.

Lemma length_shown t : length (shown t) = length buf.
Proof. unfold shown. rewrite length_app, length_take, length_drop. lia. Qed.

(** The terminator. *)
Lemma terminated t :
  0 < buflen → let n := (length t `min` (Z.to_nat buflen - 1))%nat in
  <[n := 0]> (shown t) = take n t ++ 0 :: drop (S n) buf.
Proof.
  intros Hb n. unfold shown. destruct (decide (length t <= Z.to_nat buflen - 1)%nat) as [Hle|Hgt].
  - rewrite Nat.min_l by lia. assert (n = length t) as -> by lia. rewrite !take_ge by lia.
    rewrite insert_app_r_alt, Nat.sub_diag by lia. f_equal.
    destruct (drop (length t) buf) as [|y l] eqn:E.
    { apply (f_equal length) in E. rewrite length_drop in E. cbn in E. lia. }
    cbn. rewrite <- Nat.add_1_r, <- drop_drop, E. done.
  - rewrite Nat.min_r by lia. assert (Z.to_nat buflen = S n) as -> by lia.
    destruct (lookup_lt_is_Some_2 t n) as [x Hx]; [lia|].
    rewrite (take_S_r _ _ _ Hx), <- app_assoc. rewrite insert_app_r_alt by (rewrite length_take; lia).
    rewrite length_take. replace (n - n `min` length t)%nat with 0%nat by lia. done.
Qed.
End output.

(** ** Decimal numbers *)

Definition value (ds : list Z) : Z := foldl (λ n c, n * 10 + (c - 48)) 0 ds.

Lemma value_app n ds : foldl (λ n c, n * 10 + (c - 48)) n ds = n * 10 ^ Z.of_nat (length ds) + value ds.
Proof.
  revert n. induction ds as [|c ds IH]; intros n; unfold value; cbn [foldl length]; [lia|].
  rewrite IH, (IH (0 * 10 + _)). rewrite Nat2Z.inj_succ, Z.pow_succ_r by lia. lia.
Qed.

Definition is_digit (c : Z) : Prop := 48 <= c <= 57.

(** The digits of a number, enough room given: they denote it, and there is
    no leading zero. *)
Lemma numtos_digits_spec n acc fuel :
  0 <= n < 10 ^ Z.of_nat fuel → (0 < fuel)%nat →
  ∃ ds, numtos_digits n acc fuel = Some (ds ++ acc) ∧ Forall is_digit ds ∧ value ds = n ∧
    (length ds <= fuel)%nat ∧ (ds = [48] ∨ ∃ d ds', ds = d :: ds' ∧ d ≠ 48).
Proof.
  revert n acc. induction fuel as [|fuel IH]; intros n acc Hn Hf; [lia|]. cbn [numtos_digits].
  pose proof (Z.div_mod n 10 ltac:(lia)) as Hdm. pose proof (Z.mod_pos_bound n 10 ltac:(lia)) as Hm.
  destruct (Z.eqb_spec (n `div` 10) 0) as [Hz|Hz].
  - exists [48 + n `mod` 10]. split_and!; [done|repeat constructor; lia|unfold value; cbn; lia|cbn; lia|].
    destruct (decide (n = 0)) as [->|]; [by left|]. right. eexists _, []. split; [done|lia].
  - rewrite Nat2Z.inj_succ, Z.pow_succ_r in Hn by lia.
    destruct (decide (fuel = 0)%nat) as [->|]; [cbn in Hn; lia|].
    destruct (IH (n `div` 10) (48 + n `mod` 10 :: acc)) as (ds & -> & Hds & Hv & Hl & Hlead); [lia|lia|].
    exists (ds ++ [48 + n `mod` 10]). rewrite <- app_assoc. split_and!; [done| | | |].
    + apply Forall_app. split; [done|]. repeat constructor; lia.
    + unfold value in *. rewrite foldl_app, Hv. cbn. lia.
    + rewrite length_app. cbn. lia.
    + right. destruct Hlead as [->|(d & ds' & -> & Hd)]; [|by eexists _, _].
      unfold value in Hv. cbn in Hv. lia.
Qed.

Lemma stoi_loop_digits ds c rest m :
  Forall is_digit ds → ¬ is_digit c →
  stoi_loop (ds ++ c :: rest) (s32 m) = Some (s32 (foldl (λ n c, n * 10 + (c - 48)) m ds), c :: rest).
Proof.
  intros Hds Hc. revert m. induction Hds as [|d ds Hd Hds IH]; intros m; cbn [app stoi_loop foldl]; unfold is_digit in *.
  - destruct (Z.geb_spec c 48), (Z.leb_spec c 57); cbn [andb]; try done; lia.
  - destruct (Z.geb_spec d 48); [|lia]. destruct (Z.leb_spec d 57); [|lia]. cbn [andb].
    rewrite <- IH. f_equal.
    replace (s32 m * 10 + d - 48) with (s32 m * 10 + (d - 48)) by lia.
    unfold wraps at 1 3. assert ((s32 m * 10 + (d - 48)) `mod` 2 ^ 32 = (m * 10 + (d - 48)) `mod` 2 ^ 32) as ->; [|done].
    rewrite Z.add_mod, Z.mul_mod, (wraps_mod 32 32), <- Z.mul_mod, <- Z.add_mod by lia. done.
Qed.

Lemma stoi_digits ds c rest :
  Forall is_digit ds → ¬ is_digit c → stoi (ds ++ c :: rest) = Some (s32 (value ds), c :: rest).
Proof. apply (stoi_loop_digits ds c rest 0). Qed.

Lemma digits_lower_at d : 0 <= d < 10 → rd digits_lower (Z.to_nat d) = Some (48 + d).
Proof.
  intros Hd. assert (Z.to_nat d < 10)%nat by lia. rewrite <- (Z2Nat.id d) at 2 by lia.
  generalize dependent (Z.to_nat d). intros n Hn. do 10 (destruct n as [|n]; [done|]). lia.
Qed.

(** The decimal conversion prints the same digits as [numtos]. *)
Lemma put_digits_10 n acc fuel :
  0 <= n → put_digits digits_lower n 10 acc fuel = numtos_digits n acc fuel.
Proof.
  revert n acc. induction fuel as [|fuel IH]; intros n acc Hn; [done|]. cbn [put_digits numtos_digits].
  change (u64 10) with 10. rewrite digits_lower_at by (pose proof (Z.mod_pos_bound n 10); lia).
  unfold udiv. change (10 =? 0) with false. change (u64 10) with 10. cbv iota.
  destruct (n `div` 10 =? 0); [done|]. apply IH. apply Z.div_pos; lia.
Qed.

Lemma strcpy_ok s1 ds s2 rest :
  Forall (λ c, c ≠ 0) ds → (length ds < length s1)%nat → s2 = ds ++ 0 :: rest →
  strcpy s1 s2 = Some (ds ++ 0 :: drop (S (length ds)) s1).
Proof.
  intros Hds Hl ->. revert s1 Hl. induction Hds as [|c ds Hc Hds IH]; intros [|x s1] Hl; cbn [length] in Hl; try lia;
    cbn [app strcpy].
  - done.
  - destruct (Z.eqb_spec c 0); [done|]. rewrite IH by lia. done.
Qed.

Lemma digits_nonzero ds : Forall is_digit ds → Forall (λ c, c ≠ 0) ds.
Proof. intros H. eapply Forall_impl; [done|]. unfold is_digit. intros; lia. Qed.

(** ** Strings *)

Lemma cstring_Some s l : cstring s = Some l → Forall (λ c, c ≠ 0) l ∧ ∃ rest, s = l ++ 0 :: rest.
Proof.
  revert l. induction s as [|c s IH]; intros l; cbn [cstring]; [done|].
  destruct (Z.eqb_spec c 0) as [->|Hc].
  - intros [= <-]. split; [constructor|]. by exists s.
  - destruct (cstring s) as [l'|]; [|done]. intros [= <-]. destruct (IH l' eq_refl) as (H & rest & ->).
    split; [by constructor|]. by exists rest.
Qed.

(** The order of strings: the first characters that differ decide, the
    terminator being 0. *)
Fixpoint before (l1 l2 : list Z) : Prop :=
  match l1, l2 with
  | c1 :: l1, c2 :: l2 => c1 < c2 ∨ c1 = c2 ∧ before l1 l2
  | [], c2 :: _ => 0 < c2
  | c1 :: _, [] => c1 < 0
  | [], [] => False
  end.

Lemma strncmp_spec l1 l2 r1 r2 n :
  Forall (λ c, c ≠ 0) l1 → Forall (λ c, c ≠ 0) l2 →
  ∃ r, strncmp_loop (l1 ++ 0 :: r1) (l2 ++ 0 :: r2) n = Some r ∧
    (r = 0 ↔ take n l1 = take n l2) ∧ (r < 0 ↔ before (take n l1) (take n l2)).
Proof.
  revert l1 l2. induction n as [|n IH]; intros l1 l2 H1 H2.
  { exists 0. split; [done|]. rewrite !take_0. cbn [before]. split; [done|lia]. }
  destruct H1 as [|c1 l1 Hc1 H1], H2 as [|c2 l2 Hc2 H2]; cbn [app strncmp_loop take before].
  - exists 0. split; [done|]. split; [done|lia].
  - destruct (Z.eqb_spec 0 c2); [done|]. eexists. split; [done|]. split; [split; [lia|done]|lia].
  - destruct (Z.eqb_spec c1 0); [done|]. eexists. split; [done|]. split; [split; [lia|done]|lia].
  - destruct (Z.eqb_spec c1 c2) as [->|Hne].
    + destruct (Z.eqb_spec c2 0); [done|]. destruct (IH l1 l2 H1 H2) as (r & Hr & He & Hb).
      exists r. split; [done|]. split; [rewrite He; split; [by intros ->|by intros [= ->]]|].
      rewrite Hb. split; [by right|intros [?|[_ ?]]; [lia|done]].
    + eexists. split; [done|]. split; [split; [lia|congruence]|]. split; [by left; lia|intros [?|[? _]]; lia].
Qed.

Lemma strcmp_strncmp l1 l2 r1 r2 n :
  Forall (λ c, c ≠ 0) l1 → Forall (λ c, c ≠ 0) l2 → (length l1 < n)%nat →
  strcmp (l1 ++ 0 :: r1) (l2 ++ 0 :: r2) = strncmp_loop (l1 ++ 0 :: r1) (l2 ++ 0 :: r2) n.
Proof.
  revert l2 n. induction l1 as [|c1 l1 IH]; intros l2 n H1 H2 Hn; (destruct n as [|n]; [lia|]);
    destruct H2 as [|c2 l2 Hc2 H2]; cbn [app strcmp strncmp_loop].
  - done.
  - by destruct (Z.eqb_spec 0 c2).
  - inversion H1; subst. by destruct (Z.eqb_spec c1 0).
  - inversion H1; subst. destruct (c1 =? c2); [|done]. destruct (c1 =? 0); [done|].
    apply IH; [done|done|cbn in Hn; lia].
Qed.

Lemma strcmp_spec l1 l2 r1 r2 :
  Forall (λ c, c ≠ 0) l1 → Forall (λ c, c ≠ 0) l2 →
  ∃ r, strcmp (l1 ++ 0 :: r1) (l2 ++ 0 :: r2) = Some r ∧ (r = 0 ↔ l1 = l2) ∧ (r < 0 ↔ before l1 l2).
Proof.
  intros H1 H2. destruct (strncmp_spec l1 l2 r1 r2 (S (length l1 + length l2)) H1 H2) as (r & Hr & He & Hb).
  rewrite !take_ge in He, Hb by lia. exists r. split; [|done].
  rewrite (strcmp_strncmp _ _ _ _ (S (length l1 + length l2))) by (done || lia). done.
Qed.

(** [strstr]. *)
Lemma strstr_match_spec l1 l2 r1 r2 :
  Forall (λ c, c ≠ 0) l1 → Forall (λ c, c ≠ 0) l2 →
  strstr_match (l1 ++ 0 :: r1) (l2 ++ 0 :: r2) = Some (bool_decide (l2 `prefix_of` l1)).
Proof.
  intros H1. revert l2. induction H1 as [|x l1 Hx H1 IH]; intros l2 H2; destruct H2 as [|c l2 Hc H2]; cbn [app strstr_match].
  - done.
  - destruct (Z.eqb_spec c 0); [done|]. by rewrite bool_decide_eq_false_2 by (by intros [? ?]).
  - destruct (Z.eqb_spec 0 x); [done|]. by rewrite bool_decide_eq_true_2 by apply prefix_nil.
  - destruct (Z.eqb_spec c x) as [->|Hne].
    + destruct (Z.eqb_spec x 0); [done|]. rewrite IH by done. f_equal. apply bool_decide_ext.
      split; [apply prefix_cons|apply prefix_cons_inv_2].
    + destruct (Z.eqb_spec c 0); [done|]. by rewrite bool_decide_eq_false_2 by (by intros ?%prefix_cons_inv_1).
Qed.

(** The first place where [l2] occurs in [l1]. *)
Fixpoint first_occurrence (l2 l1 : list Z) : option nat :=
  if decide (l2 `prefix_of` l1) then Some 0%nat
  else match l1 with [] => None | _ :: l1 => S <$> first_occurrence l2 l1 end.

Lemma strstr_loop_spec l1 c l2 r1 r2 i :
  Forall (λ c, c ≠ 0) l1 → Forall (λ c, c ≠ 0) (c :: l2) →
  strstr_loop (l1 ++ 0 :: r1) c (l2 ++ 0 :: r2) i = Some (Nat.add i <$> first_occurrence (c :: l2) l1).
Proof.
  intros H1 H2. revert i. induction H1 as [|x l1 Hx H1 IH]; intros i; cbn [app strstr_loop first_occurrence].
  - rewrite decide_False; [done|]. by intros [? ?].
  - inversion H2; subst. destruct (Z.eqb_spec x 0); [done|].
    assert (strstr_loop (l1 ++ 0 :: r1) c (l2 ++ 0 :: r2) (S i) =
            Some (Nat.add i <$> (S <$> first_occurrence (c :: l2) l1))) as Hnext.
    { rewrite IH. destruct (first_occurrence _ l1); cbn; [|done]. do 2 f_equal. lia. }
    destruct (Z.eqb_spec x c) as [->|Hne].
    + rewrite strstr_match_spec by done. case_bool_decide as Hp.
      * rewrite decide_True by (by apply prefix_cons). cbn. do 2 f_equal. lia.
      * rewrite decide_False by (by intros ?%prefix_cons_inv_2). apply Hnext.
    + rewrite decide_False by (intros ?%prefix_cons_inv_1; congruence). apply Hnext.
Qed.

Lemma first_occurrence_spec l2 l1 :
  match first_occurrence l2 l1 with
  | Some i => l2 `prefix_of` drop i l1 ∧ ∀ j, (j < i)%nat → ¬ l2 `prefix_of` drop j l1
  | None => ∀ j, ¬ l2 `prefix_of` drop j l1
  end.
Proof.
  induction l1 as [|x l1 IH]; cbn [first_occurrence]; case_decide as Hp.
  - split; [done|lia].
  - intros j. by rewrite drop_nil.
  - split; [done|lia].
  - destruct (first_occurrence l2 l1) as [i|]; cbn.
    + destruct IH as [IH1 IH2]. split; [done|]. intros [|j] Hj; [done|]. apply IH2. lia.
    + intros [|j]; [done|]. apply IH.
Qed.

(** The copies. *)
Lemma bzero_ok p n : (n <= length p)%nat → bzero p n = Some (replicate n 0 ++ drop n p).
Proof.
  revert p. induction n as [|n IH]; intros p Hp; [done|]. destruct p as [|x p]; cbn in Hp; [lia|].
  cbn [bzero replicate app drop]. rewrite IH by lia. done.
Qed.

Lemma strncpy_ok s1 l rest n :
  Forall (λ c, c ≠ 0) l → (n <= length s1)%nat →
  strncpy s1 (l ++ 0 :: rest) n = Some (take n (l ++ replicate n 0) ++ drop n s1).
Proof.
  intros Hl. revert s1 n. induction Hl as [|c l Hc Hl IH]; intros s1 n Hn;
    (destruct n as [|n]; [done|]); (destruct s1 as [|x s1]; cbn in Hn; [lia|]); cbn [app strncpy].
  - change (0 =? 0) with true. cbv iota. rewrite bzero_ok by lia. cbn. rewrite take_ge by (rewrite length_replicate; lia). done.
  - destruct (Z.eqb_spec c 0); [done|]. rewrite IH by lia. cbn [take drop app]. do 3 f_equal.
    rewrite replicate_S_end, app_assoc, (take_app_le (l ++ _)); [done|]. rewrite length_app, length_replicate. lia.
Qed.

Lemma strcat_ok s1 l1 r1 l2 r2 :
  Forall (λ c, c ≠ 0) l1 → Forall (λ c, c ≠ 0) l2 → s1 = l1 ++ 0 :: r1 → (length l1 + length l2 < length s1)%nat →
  strcat s1 (l2 ++ 0 :: r2) = Some (l1 ++ l2 ++ 0 :: drop (S (length l1 + length l2)) s1).
Proof.
  intros H1 H2 ->. induction H1 as [|c l1 Hc H1 IH]; intros Hl.
  - cbn [app strcat]. change (0 =? 0) with true. cbv iota. by apply (strcpy_ok _ _ _ r2).
  - cbn [app strcat]. destruct (Z.eqb_spec c 0); [done|]. cbn in Hl. rewrite IH by (cbn; lia). done.
Qed.

(** [bcopy] moves the old content of the source, overlapping or not. *)
Definition moved (mem : list Z) (src dest count : nat) (mem' : list Z) : Prop :=
  ∀ i, mem' !! i = if decide (dest <= i < dest + count)%nat then mem !! (src + (i - dest))%nat else mem !! i.

Lemma bcopy_up_ok mem src dest count :
  (dest <= src ∨ src + count <= dest)%nat →
  (src + count <= length mem)%nat → (dest + count <= length mem)%nat →
  ∃ mem', bcopy_up mem src dest count = Some mem' ∧ moved mem src dest count mem'.
Proof.
  revert mem src dest. induction count as [|count IH]; intros mem src dest Hov Hs Hd; cbn [bcopy_up].
  { exists mem. split; [done|]. intros i. by rewrite decide_False by lia. }
  destruct (rd_lt mem src) as [c Hc]; [lia|]. rewrite Hc, wr_lt by lia.
  destruct (IH (<[dest := c]> mem) (S src) (S dest)) as (mem' & -> & Hm); [lia|rewrite length_insert; lia..|].
  exists mem'. split; [done|]. intros i. rewrite Hm. repeat case_decide; try lia.
  - rewrite list_lookup_insert_ne by lia. f_equal. lia.
  - assert (i = dest) as -> by lia. rewrite list_lookup_insert_eq by lia. rewrite Nat.sub_diag, Nat.add_0_r. done.
  - rewrite list_lookup_insert_ne by lia. done.
Qed.

Lemma bcopy_down_ok mem src dest count :
  (src < dest)%nat → (dest + count <= length mem)%nat →
  ∃ mem', bcopy_down mem src dest count = Some mem' ∧ moved mem src dest count mem'.
Proof.
  revert mem. induction count as [|count IH]; intros mem Hov Hd; cbn [bcopy_down].
  { exists mem. split; [done|]. intros i. by rewrite decide_False by lia. }
  destruct (rd_lt mem (src + count)) as [c Hc]; [lia|]. rewrite Hc, wr_lt by lia.
  destruct (IH (<[dest + count := c]> mem)%nat) as (mem' & -> & Hm); [lia|rewrite length_insert; lia|].
  exists mem'. split; [done|]. intros i. rewrite Hm. repeat case_decide; try lia.
  - by rewrite list_lookup_insert_ne by lia.
  - assert (i = dest + count)%nat as -> by lia. rewrite list_lookup_insert_eq by lia.
    rewrite <- Hc. unfold rd. f_equal. lia.
  - by rewrite list_lookup_insert_ne by lia.
Qed.

(** The searches for a character. *)
Definition first_at (l : list Z) (c : Z) (r : option nat) : Prop :=
  match r with
  | Some i => l !! i = Some c ∧ ∀ j, (j < i)%nat → l !! j ≠ Some c
  | None => c ∉ l
  end.
Definition last_at (l : list Z) (c : Z) (r : option nat) : Prop :=
  match r with
  | Some i => l !! i = Some c ∧ ∀ j, (i < j)%nat → l !! j ≠ Some c
  | None => c ∉ l
  end.

Lemma strchr_spec l rest c :
  Forall (λ c, c ≠ 0) l → ∃ r, strchr (l ++ 0 :: rest) c = Some r ∧ first_at (l ++ [0]) (s8 c) r.
Proof.
  intros Hl. induction Hl as [|x l Hx Hl IH]; cbn [app strchr].
  - destruct (Z.eqb_spec 0 (s8 c)) as [<-|Hne]; eexists; (split; [done|]); [split; [done|lia]|].
    cbn. rewrite list_elem_of_singleton. congruence.
  - destruct (Z.eqb_spec x (s8 c)) as [->|Hne]; [eexists; split; [done|]; split; [done|lia]|].
    destruct (Z.eqb_spec x 0); [done|]. destruct IH as (r & -> & Hr). eexists. split; [done|].
    destruct r as [i|]; cbn in *.
    + destruct Hr as [Hi Hlt]. split; [done|]. intros [|j] Hj; cbn; [congruence|]. apply Hlt. lia.
    + rewrite elem_of_cons. naive_solver.
Qed.

Lemma last_at_snoc l c x r :
  last_at l c r → last_at (l ++ [x]) c (if x =? c then Some (length l) else r).
Proof.
  intros H. destruct (Z.eqb_spec x c) as [->|Hne].
  - split; [by rewrite lookup_app_r, Nat.sub_diag by lia|]. intros j Hj.
    rewrite lookup_ge_None_2; [done|]. rewrite length_app. cbn. lia.
  - destruct r as [i|]; cbn in *.
    + destruct H as [Hi Hgt]. split; [by apply lookup_app_l_Some|]. intros j Hj.
      destruct (decide (j < length l)%nat); [rewrite lookup_app_l by done; by apply Hgt|].
      rewrite lookup_app_r by lia. destruct (j - length l)%nat; cbn; [congruence|done].
    + rewrite elem_of_app, list_elem_of_singleton. naive_solver.
Qed.

Lemma strrchr_spec l0 l rest c r :
  Forall (λ c, c ≠ 0) l → last_at l0 (s8 c) r →
  ∃ r', strrchr_loop (l ++ 0 :: rest) c (length l0) r = Some r' ∧ last_at (l0 ++ l ++ [0]) (s8 c) r'.
Proof.
  intros Hl. revert l0 r. induction Hl as [|x l Hx Hl IH]; intros l0 r Hr; cbn [app strrchr_loop].
  - change (0 =? 0) with true. cbv iota. eexists. split; [done|]. by apply last_at_snoc.
  - destruct (Z.eqb_spec x 0); [done|].
    destruct (IH (l0 ++ [x]) (if x =? s8 c then Some (length l0) else r)) as (r' & Hr' & H).
    { by apply last_at_snoc. }
    exists r'. rewrite length_app, Nat.add_1_r in Hr'. split; [done|]. by rewrite <- app_assoc in H.
Qed.

Lemma strnrchr_spec l0 l rest c n r :
  Forall (λ c, c ≠ 0) l → last_at l0 c r →
  ∃ r', strnrchr_loop (l ++ 0 :: rest) c n (length l0) r = Some r' ∧ last_at (l0 ++ take n l) c r'.
Proof.
  intros Hl. revert l0 r n. induction Hl as [|x l Hx Hl IH]; intros l0 r [|n] Hr; cbn [app strnrchr_loop take].
  - eexists. split; [done|]. by rewrite app_nil_r.
  - change (0 =? 0) with true. cbv iota. eexists. split; [done|]. by rewrite app_nil_r.
  - eexists. split; [done|]. by rewrite app_nil_r.
  - destruct (Z.eqb_spec x 0); [done|].
    destruct (IH (l0 ++ [x]) (if x =? c then Some (length l0) else r) n) as (r' & Hr' & H).
    { by apply last_at_snoc. }
    exists r'. rewrite length_app, Nat.add_1_r in Hr'. split; [done|]. by rewrite <- app_assoc in H.
Qed.

Lemma wraps_neg w x : 0 < w → 0 <= x < 2 ^ w → (wraps w x <? 0) = negb (x <? 2 ^ (w - 1)).
Proof.
  intros Hw Hx. unfold wraps. rewrite Z.mod_small by lia.
  destruct (Z.ltb_spec x (2 ^ (w - 1))); cbn [negb]; [apply Z.ltb_ge|apply Z.ltb_lt]; lia.
Qed.

Lemma numtos_digits_mono n acc f f' r :
  numtos_digits n acc f = Some r → (f <= f')%nat → numtos_digits n acc f' = Some r.
Proof.
  revert n acc f'. induction f as [|f IH]; intros n acc f'; [done|]. destruct f' as [|f']; [lia|].
  cbn [numtos_digits]. destruct (_ =? 0); [done|]. intros H Hle. apply (IH _ _ f' H). lia.
Qed.

(** The conversion [%d] of an [int]. *)
Lemma render_d lp64 args :
  render lp64 [37; 100; 0] args = snd <$> number_text lp64 32 0 digits_lower 100 (Conv 10 true 0) args.
Proof.
  assert (directive_text lp64 100 [0] args =
    (let! (args, t) := number_text lp64 32 0 digits_lower 100 (Conv 10 true 0) args in Some ([0], args, t))) as H by done.
  unfold render. cbn [length run]. unfold render_step at 1.
  change (37 =? 0) with false. change (37 =? 37) with true. change (100 =? 0) with false. cbn [negb]. rewrite H.
  by destruct (number_text _ _ _ _ _ _ args) as [[]|].
Qed.

Lemma number_d (lp64 : bool) n ds :
  - 2 ^ 31 <= n < 2 ^ 31 → numtos_digits (Z.abs n) [] NUMBUF_SIZE = Some ds →
  number_text lp64 32 0 digits_lower 100 (Conv 10 true 0) [VInt n] = Some ([], when (n <? 0) [45] ++ ds).
Proof.
  intros Hn Hds. unfold number_text. cbn [num_arg cv_ells cv_sign cv_base].
  change (0 =? 0) with true. change (100 =? 98) with false. change (32 =? 48) with false. change (32 =? 32) with true.
  cbv iota zeta. cbn [andb]. rewrite andb_true_r, andb_false_r.
  assert (s64 (u64 n) = n) as -> by (unfold wraps, wrapu; rewrite Z.mod_mod by lia; apply (wraps_id 64); lia).
  replace (0 <? (if lp64 then 1 else 2)) with true by (by destruct lp64). cbv iota.
  assert (Z.land (if n <? 0 then u64 (- u64 n) else u64 n) 0xffffffff = Z.abs n) as ->.
  { change 0xffffffff with (Z.ones 32). rewrite land_ones_mod by lia. unfold wrapu. destruct (Z.ltb_spec n 0).
    - assert (n `mod` 2 ^ 64 = n + 2 ^ 64) as -> by (symmetry; apply Z.mod_unique with (-1); lia).
      assert ((- (n + 2 ^ 64)) `mod` 2 ^ 64 = - n) as -> by (symmetry; apply Z.mod_unique with (-1); lia).
      rewrite Z.mod_small by lia. lia.
    - rewrite (Z.mod_small n) by lia. rewrite Z.mod_small by lia. lia. }
  rewrite put_digits_10, Hds by lia. cbv iota.
  replace (Z.to_nat _) with 0%nat by (destruct (n <? 0); lia). cbn. by rewrite app_nil_r.
Qed.

(** ** Properties *)

(** C12: [vsnprintf] prints, whatever the size of the buffer, the longest
    prefix of one text that leaves room for the terminator, writes nothing
    else in the buffer, and returns the length of the whole text; a size that
    is negative as a signed number counts as 0.  It faults exactly when the
    format and the arguments have no text. *)
Theorem vsnprintf_correct (lp64 : bool) buf buflen fmt args :
  let n := if buflen <? (if lp64 then 2 ^ 63 else 2 ^ 31) then buflen else 0 in
  0 <= buflen < (if lp64 then 2 ^ 64 else 2 ^ 32) → n <= Z.of_nat (length buf) →
  vsnprintf lp64 buf buflen fmt args =
  (λ t, let k := (length t `min` (Z.to_nat n - 1))%nat in
        (if n =? 0 then buf else take k t ++ 0 :: drop (S k) buf, Z.of_nat (length t)))
    <$> render lp64 fmt args.
Proof.
  intros n Hb Hn. unfold vsnprintf.
  assert ((if wraps (if lp64 then 64 else 32) buflen <? 0 then 0 else buflen) = n) as ->.
  { unfold n. destruct lp64; rewrite wraps_neg by lia;
      [change (2 ^ (64 - 1)) with (2 ^ 63)|change (2 ^ (32 - 1)) with (2 ^ 31)]; by destruct (_ <? _). }
  assert (0 <= n <= Z.of_nat (length buf)) as Hn' by (unfold n in *; destruct (_ <? _); lia). clearbody n.
  cbv zeta. rewrite (format_ok _ _ _ Hn'). fold (render lp64 fmt args).
  destruct (render lp64 fmt args) as [t|]; cbn [fmap option_fmap option_map]; [|done].
  cbn [printed o_bufp o_buf]. destruct (Z.eqb_spec n 0) as [->|Hne].
  - destruct (Z.ltb_spec (Z.of_nat (length t)) 0); [lia|]. cbn [negb]. do 2 f_equal.
    unfold shown. by rewrite Nat.min_0_r.
  - assert ((length t `min` (Z.to_nat n - 1))%nat =
            if Z.of_nat (length t) <? n then Z.to_nat (Z.of_nat (length t)) else Z.to_nat (n - 1)) as Hk
      by (destruct (Z.ltb_spec (Z.of_nat (length t)) n); lia).
    rewrite <- terminated by lia. cbv zeta. rewrite Hk. cbn [negb].
    destruct (Z.ltb_spec (Z.of_nat (length t)) n); rewrite wr_lt by (rewrite length_shown; lia); done.
Qed.

(** The decimal text of an [int] that [vsnprintf] prints is the sign and
    the digits of its absolute value, without leading zeros; [numtos] writes
    the same digits, and [stoi] reads the number back from them. *)
Theorem decimal_roundtrip (lp64 : bool) n s :
  - 2 ^ 31 <= n < 2 ^ 31 → (11 <= length s)%nat →
  ∃ ds, render lp64 [37; 100; 0] [VInt n] = Some (when (n <? 0) [45] ++ ds) ∧
    numtos (Z.abs n) s = Some (ds ++ 0 :: drop (S (length ds)) s) ∧
    (ds = [48] ∨ ∃ d ds', ds = d :: ds' ∧ d ≠ 48) ∧
    ∀ c rest, ¬ is_digit c → stoi (ds ++ c :: rest) = Some (s32 (Z.abs n), c :: rest).
Proof.
  intros Hn Hs.
  assert (0 <= Z.abs n < 10 ^ Z.of_nat 10) as Hr by (change (10 ^ Z.of_nat 10) with 10000000000; lia).
  destruct (numtos_digits_spec (Z.abs n) [] 10) as (ds & Hnum & Hds & Hv & Hlen & Hlead); [lia|lia|].
  rewrite app_nil_r in Hnum.
  assert (∀ fuel, (10 <= fuel)%nat → numtos_digits (Z.abs n) [] fuel = Some ds) as Hfuel.
  { intros fuel Hf. by apply (numtos_digits_mono _ _ 10%nat). }
  exists ds. split_and!; [| |done|].
  - rewrite render_d, (number_d _ _ ds) by (done || apply Hfuel; unfold NUMBUF_SIZE; lia). done.
  - unfold numtos. rewrite Hfuel by (unfold PRBUF_SIZE; lia). cbv iota.
    apply (strcpy_ok _ _ _ []); [by apply digits_nonzero|lia|done].
  - intros c rest Hc. rewrite stoi_digits by done. by rewrite Hv.
Qed.

(** [strcmp] and [strncmp] read no further than the terminators; the
    result is 0 exactly for equal strings (equal up to [n] characters) and
    its sign is the order of the first characters that differ. *)
Theorem strcmp_order s1 s2 l1 l2 n :
  cstring s1 = Some l1 → cstring s2 = Some l2 →
  (∃ r, strcmp s1 s2 = Some r ∧ (r = 0 ↔ l1 = l2) ∧ (r < 0 ↔ before l1 l2)) ∧
  (∃ r, strncmp false s1 s2 n = Some r ∧ (r = 0 ↔ take n l1 = take n l2) ∧
        (r < 0 ↔ before (take n l1) (take n l2))).
Proof.
  intros (H1 & r1 & ->)%cstring_Some (H2 & r2 & ->)%cstring_Some.
  split; [by apply strcmp_spec|by apply strncmp_spec].
Qed.

(** [strstr] returns the first place where the second string occurs in
    the first one, or [NULL] when there is none; [strchr] and [strrchr]
    return the first and the last place of a character, terminator included,
    and [strnrchr] the last one of the first [n] characters, terminator
    excluded. *)
Theorem strstr_first s1 s2 l1 l2 c n :
  cstring s1 = Some l1 → cstring s2 = Some l2 →
  (∃ r, strstr s1 (Some s2) = Some r ∧
    match r with
    | Some i => l2 `prefix_of` drop i l1 ∧ ∀ j, (j < i)%nat → ¬ l2 `prefix_of` drop j l1
    | None => ∀ j, ¬ l2 `prefix_of` drop j l1
    end) ∧
  (∃ r, strchr s1 c = Some r ∧ first_at (l1 ++ [0]) (s8 c) r) ∧
  (∃ r, strrchr s1 c = Some r ∧ last_at (l1 ++ [0]) (s8 c) r) ∧
  (∃ r, strnrchr s1 c n = Some r ∧ last_at (take n l1) c r).
Proof.
  intros (H1 & r1 & ->)%cstring_Some (H2 & r2 & ->)%cstring_Some. split; [|split; [|split]].
  - exists (first_occurrence l2 l1). split; [|apply first_occurrence_spec]. unfold strstr.
    destruct l2 as [|c2 l2].
    + cbn. destruct l1; cbn; by rewrite decide_True by apply prefix_nil.
    + inversion H2; subst. change (rd ((c2 :: l2) ++ 0 :: r2) 0) with (Some c2). cbv iota.
      destruct (Z.eqb_spec c2 0); [done|]. change (drop 1 ((c2 :: l2) ++ 0 :: r2)) with (l2 ++ 0 :: r2).
      rewrite strstr_loop_spec by done. by destruct (first_occurrence _ l1).
  - by apply strchr_spec.
  - apply (strrchr_spec []); [done|]. apply not_elem_of_nil.
  - apply (strnrchr_spec []); [done|]. apply not_elem_of_nil.
Qed.

(** [strcpy] and [strcat] copy the string and its terminator and touch
    nothing after it, [strncpy] fills exactly [n] cells, the unused ones with
    zeros, and [bcopy] moves the old content of the source range whether or
    not the ranges overlap; none of them leaves a destination that is large
    enough. *)
Theorem string_copies s1 s2 l2 n mem src dest count :
  cstring s2 = Some l2 →
  ((length l2 < length s1)%nat → strcpy s1 s2 = Some (l2 ++ 0 :: drop (S (length l2)) s1)) ∧
  (∀ l1, cstring s1 = Some l1 → (length l1 + length l2 < length s1)%nat →
     strcat s1 s2 = Some (l1 ++ l2 ++ 0 :: drop (S (length l1 + length l2)) s1)) ∧
  ((n <= length s1)%nat → strncpy s1 s2 n = Some (take n (l2 ++ replicate n 0) ++ drop n s1)) ∧
  ((src + count <= length mem)%nat → (dest + count <= length mem)%nat →
     ∃ mem', bcopy mem src dest count = Some mem' ∧ moved mem src dest count mem').
Proof.
  intros (H2 & r2 & ->)%cstring_Some. split; [|split; [|split]].
  - intros Hl. by apply (strcpy_ok _ _ _ r2).
  - intros l1 (H1 & r1 & Hs1)%cstring_Some Hl. by apply (strcat_ok _ _ r1).
  - intros Hn. by apply strncpy_ok.
  - intros Hs Hd. unfold bcopy. destruct (Nat.ltb_spec src dest), (Nat.ltb_spec dest (src + count)); cbn [andb].
    + by apply bcopy_down_ok.
    + apply bcopy_up_ok; [by right|done|done].
    + apply bcopy_up_ok; [by left|done|done].
    + apply bcopy_up_ok; [by left|done|done].
Qed.

(** [strcasecmp] indexes its table with a [char], which is signed: on
    every character of the upper half it reads before the table, the strings
    being equal or not. *)
Theorem strcasecmp_underread c s1 s2 :
  -128 <= c < 0 → strcasecmp (c :: s1) (c :: s2) = None ∧ cm (u8 c) ≠ None.
Proof.
  intros Hc. split.
  - cbn [strcasecmp]. unfold cm at 1. by rewrite (proj2 (Z.ltb_lt c 0)) by lia.
  - assert (u8 c = c + 256) as -> by (symmetry; apply Z.mod_unique with (-1); lia).
    unfold cm. rewrite (proj2 (Z.ltb_ge (c + 256) 0)) by lia.
    destruct (rd_lt charmap (Z.to_nat (c + 256))) as [x ->]; [|done].
    change (length charmap) with 256%nat. lia.
Qed.

(** A format that ends inside a conversion, such as ["%5"] or ["%l"],
    makes [vsnprintf] read past the end of the format. *)
Theorem vsnprintf_format_overread lp64 buf buflen c args :
  48 < c <= 57 ∨ c = 108 → vsnprintf lp64 buf buflen [37; c; 0] args = None.
Proof.
  intros Hc. unfold vsnprintf. cbn [length run]. set (b := if wraps _ _ <? 0 then 0 else buflen). clearbody b. unfold format_step at 1.
  change (37 =? 0) with false. change (37 =? 37) with true. cbn [negb]. rewrite (proj2 (Z.eqb_neq c 0)) by lia.
  assert (directive lp64 b c [0] args (Out buf 0) = Some ([], args, Out buf 0)) as ->; [|done].
  unfold directive. cbn [scan_pad]. rewrite (proj2 (Z.eqb_neq c 48)) by lia. cbn [scan_width].
  destruct Hc as [Hc| ->].
  - rewrite (proj2 (Z.geb_le c 48)), (proj2 (Z.leb_le c 57)) by lia. done.
  - done.
Qed.

(** Witnesses. *)

(** ["x=%3d"] with -7 in a buffer of 5. *)
Lemma vsnprintf_correct_witness :
  vsnprintf true [9; 9; 9; 9; 9; 9] 5 [120; 61; 37; 51; 100; 0] [VInt (-7)] = Some ([120; 61; 32; 45; 0; 9], 5).
Proof.
  rewrite vsnprintf_correct; [vm_compute; reflexivity|lia|vm_compute; discriminate].
Defined.

Lemma decimal_roundtrip_witness :
  ∃ ds, render true [37; 100; 0] [VInt (-42)] = Some ([45] ++ ds) ∧ stoi (ds ++ [0]) = Some (42, [0]).
Proof.
  destruct (decimal_roundtrip true (-42) (replicate 11 0)) as (ds & H1 & _ & _ & H2); [lia|vm_compute; lia|].
  exists ds. split; [exact H1|]. rewrite H2; [vm_compute; reflexivity|]. unfold is_digit. lia.
Defined.

(** ["ab"] and ["ac"]. *)
Lemma strcmp_order_witness : ∃ r, strcmp [97; 98; 0] [97; 99; 0] = Some r ∧ r < 0.
Proof.
  destruct (strcmp_order [97; 98; 0] [97; 99; 0] [97; 98] [97; 99] 1) as [(r & H & _ & Hb) _];
    [reflexivity|reflexivity|].
  exists r. split; [exact H|]. apply Hb. cbn. lia.
Defined.

(** ["b"] in ["abab"]. *)
Lemma strstr_first_witness : ∃ i, strstr [97; 98; 97; 98; 0] (Some [98; 0]) = Some (Some i) ∧ (i <= 1)%nat.
Proof.
  destruct (strstr_first [97; 98; 97; 98; 0] [98; 0] [97; 98; 97; 98] [98] 97 2) as [(r & H & Hr) _];
    [reflexivity|reflexivity|].
  destruct r as [i|]; [|exfalso; apply (Hr 1%nat); exists [97; 98]; reflexivity].
  exists i. split; [exact H|]. destruct Hr as [_ Hr]. destruct (decide (i <= 1)%nat); [done|].
  exfalso. apply (Hr 1%nat); [lia|]. exists [97; 98]. reflexivity.
Defined.

Lemma string_copies_witness :
  strcpy [9; 9; 9; 9] [97; 0] = Some [97; 0; 9; 9] ∧ strncpy [9; 9; 9; 9] [97; 0] 3 = Some [97; 0; 0; 9].
Proof.
  destruct (string_copies [9; 9; 9; 9] [97; 0] [97] 3 [1] 0 0 1) as (H1 & _ & H2 & _); [reflexivity|].
  split; [apply H1; cbn; lia|apply H2; cbn; lia].
Defined.

Lemma strcasecmp_underread_witness : strcasecmp [-23; 0] [-23; 0] = None.
Proof. apply (strcasecmp_underread (-23)); lia. Defined.

Lemma vsnprintf_format_overread_witness : vsnprintf true [] 0 [37; 53; 0] [] = None.
Proof. apply vsnprintf_format_overread; lia. Defined.
