(* ===== verification/ModHash.v ===== *)
(** * The generic hash table of the device framework (uts/common/os/modhash.c)

    A table of chains with pluggable hash, comparison and destructor
    functions.  A chain is a list of entries: nothing points to an entry but
    its chain, and the lock of the table is held around each change.  What a key type must provide is the class [HashKey], what the
    table relies on is the class [HashKeyLaws]; the string keys and the
    pointer keys of modhash.c are instances of both.  The operations are shown
    to implement a finite map from the identities of the keys, and to account
    for every key and value handed to the table. *)

From Stdlib Require Import ZArith Lia.
From stdpp Require Import base numbers option list gmap.
From S2P Require Import Prelude Bitmap KString.

#[local] Open Scope Z_scope.

(** ** Keys *)

(** The hash algorithm, which returns a [uint_t], and the comparator. *)
Class HashKey (K : Type) := {
  mh_hashalg : K → option Z;
  mh_keycmp : K → K → option Z
}.

(** What the table relies on: on valid keys neither function faults, the
    comparator tells whether two keys have the same identity, and the hash
    depends on the identity only. *)
Class HashKeyLaws (K I : Type) `{HashKey K} := {
  key_ok : K → Prop;
  key_id : K → I;
  hash_ok k : key_ok k → ∃ h, mh_hashalg k = Some h ∧ 0 <= h < 2 ^ 32;
  hash_id k1 k2 : key_ok k1 → key_ok k2 → key_id k1 = key_id k2 → mh_hashalg k1 = mh_hashalg k2;
  cmp_id k1 k2 : key_ok k1 → key_ok k2 → ∃ r, mh_keycmp k1 k2 = Some r ∧ (r = 0 ↔ key_id k1 = key_id k2)
}.

(** *** String keys *)

(** One character: [hash = (hash << 4) + *p], with the top four bits folded
    back in. *)
Definition bystr_char (hash c : Z) : Z :=
  let hash := u32 (Z.shiftl hash 4 + c) in
  let g := Z.land hash 0xf0000000 in
  if g =? 0 then hash else Z.lxor (Z.lxor hash (Z.shiftr g 24)) g.

Fixpoint bystr_loop (hash : Z) (p : list Z) : option Z :=
  match p with
  | [] => None
  | c :: p => if c =? 0 then Some hash else bystr_loop (bystr_char hash c) p
  end.

Definition mod_hash_bystr (key : list Z) : option Z := bystr_loop 0 key.
Definition mod_hash_strkey_cmp (key1 key2 : list Z) : option Z := strcmp key1 key2.

#[global] Instance string_key : HashKey (list Z) :=
  {| mh_hashalg := mod_hash_bystr; mh_keycmp := mod_hash_strkey_cmp |}.

(** *** Pointer keys *)

Definition mod_hash_byptr (hash_data k : Z) : Z := u32 (Z.shiftr k hash_data).

Definition mod_hash_ptrkey_cmp (k1 k2 : Z) : Z :=
  if k1 >? k2 then -1 else if k1 <? k2 then 1 else 0.

(** The keys of a table created with the shift [hash_data]. *)
Definition pointer_key (hash_data : Z) : HashKey Z :=
  {| mh_hashalg k := Some (mod_hash_byptr hash_data k);
     mh_keycmp k1 k2 := Some (mod_hash_ptrkey_cmp k1 k2) |}.

(** The shift [mod_hash_create_ptrhash] passes to the algorithm. *)
Definition ptrhash_shift (lp64 : bool) (key_elem_size : Z) : Z := highbit lp64 key_elem_size.

(** ** The table *)

Definition MH_ERR_NOMEM : Z := -1.
Definition MH_ERR_DUPLICATE : Z := -2.
Definition MH_ERR_NOTFOUND : Z := -3.

Section mod_hash.
Context {K V : Type} `{!HashKey K}.
Context (lp64 : bool).

(** A [ulong_t] or a [size_t]. *)
Definition ulong : Z → Z := wrapu (if lp64 then 64 else 32).

(** An entry; [mhe_next] is the rest of the chain. *)
Record mod_hash_entry := Entry { mhe_key : K; mhe_val : V }.

Record mod_hash_stat := Stat {
  mhs_hit : Z;
  mhs_miss : Z;
  mhs_coll : Z;
  mhs_nelems : Z;
  mhs_nomem : Z
}.

(** [mh_sleep] is true for [KM_SLEEP]. *)
Record mod_hash := Hash {
  mh_sleep : bool;
  mh_nchains : Z;
  mh_entries : list (list mod_hash_entry);
  mh_stat : mod_hash_stat
}.

(** Calls of the destructors of the table. *)
Inductive dtor :=
  | MH_KEY_DESTROY (k : K)
  | MH_VAL_DESTROY (v : V).

Definition set_stat (h : mod_hash) (s : mod_hash_stat) : mod_hash :=
  Hash (mh_sleep h) (mh_nchains h) (mh_entries h) s.
Definition set_chains (h : mod_hash) (es : list (list mod_hash_entry)) : mod_hash :=
  Hash (mh_sleep h) (mh_nchains h) es (mh_stat h).

Definition count_hit (s : mod_hash_stat) := Stat (ulong (mhs_hit s + 1)) (mhs_miss s) (mhs_coll s) (mhs_nelems s) (mhs_nomem s).
Definition count_miss (s : mod_hash_stat) := Stat (mhs_hit s) (ulong (mhs_miss s + 1)) (mhs_coll s) (mhs_nelems s) (mhs_nomem s).
Definition count_coll (s : mod_hash_stat) := Stat (mhs_hit s) (mhs_miss s) (ulong (mhs_coll s + 1)) (mhs_nelems s) (mhs_nomem s).
Definition set_nelems (s : mod_hash_stat) (n : Z) := Stat (mhs_hit s) (mhs_miss s) (mhs_coll s) n (mhs_nomem s).
Definition count_nomem (s : mod_hash_stat) := Stat (mhs_hit s) (mhs_miss s) (mhs_coll s) (mhs_nelems s) (ulong (mhs_nomem s + 1)).

(** [mod_hash_create_extended]: [mem1] and [mem2] tell whether the two
    allocations find memory, which they always do with [KM_SLEEP]; the result
    is the new table and the list of all tables, with [self] linked in. *)
Definition mod_hash_create_extended (nchains : Z) (sleep mem1 mem2 : bool) (self : nat) (mh_head : list nat) :
    option mod_hash * list nat :=
  if negb (sleep || mem1) then (None, mh_head)
  else if negb (sleep || mem2) then (None, mh_head)
  else (Some (Hash sleep nchains (replicate (Z.to_nat nchains) []) (Stat 0 0 0 0 0)), self :: mh_head).

(** [i_mod_hash]. *)
Definition i_mod_hash (h : mod_hash) (key : K) : option Z :=
  if mh_nchains h =? 1 then Some 0
  else
    let! x := mh_hashalg key in
    Some (x `mod` ulong (mh_nchains h - 1)).

(** The chain at an index, and its replacement. *)
Definition get_chain (h : mod_hash) (idx : Z) : option (list mod_hash_entry) :=
  if idx <? 0 then None else rd (mh_entries h) (Z.to_nat idx).
Definition set_chain (h : mod_hash) (idx : Z) (c : list mod_hash_entry) : option mod_hash :=
  let! es := wr (mh_entries h) (Z.to_nat idx) c in
  Some (set_chains h es).

(** The loop of [i_mod_hash_find_nosync]. *)
Fixpoint find_chain (key : K) (e : list mod_hash_entry) : option (option mod_hash_entry) :=
  match e with
  | [] => Some None
  | x :: e =>
      let! r := mh_keycmp (mhe_key x) key in
      if r =? 0 then Some (Some x) else find_chain key e
  end.

Definition i_mod_hash_find_nosync (h : mod_hash) (key : K) : option (mod_hash * Z * option V) :=
  let! hashidx := i_mod_hash h key in
  let! chain := get_chain h hashidx in
  let! e := find_chain key chain in
  match e with
  | Some e => Some (set_stat h (count_hit (mh_stat h)), 0, Some (mhe_val e))
  | None => Some (set_stat h (count_miss (mh_stat h)), MH_ERR_NOTFOUND, None)
  end.

(** [mem]: the allocation of the entry finds memory. *)
Definition i_mod_hash_insert_nosync (h : mod_hash) (key : K) (val : V) (mem : bool) : option (mod_hash * Z) :=
  let! (h, r, _) := i_mod_hash_find_nosync h key in
  if r =? 0 then Some (set_stat h (count_coll (mh_stat h)), MH_ERR_DUPLICATE)
  else if negb (mh_sleep h || mem) then Some (set_stat h (count_nomem (mh_stat h)), MH_ERR_NOMEM)
  else
    let! hashidx := i_mod_hash h key in
    let! chain := get_chain h hashidx in
    let! h := set_chain h hashidx (Entry key val :: chain) in
    Some (set_stat h (set_nelems (mh_stat h) (ulong (mhs_nelems (mh_stat h) + 1))), 0).

(** The loop of [i_mod_hash_remove_nosync]: the entry found and the chain
    with its predecessor, or the chain's head, linked to its successor.  A
    chain is the list of its entries in the order of [mhe_next]. *)
Fixpoint remove_chain (key : K) (e : list mod_hash_entry) :
    option (option (mod_hash_entry * list mod_hash_entry)) :=
  match e with
  | [] => Some None
  | x :: e =>
      let! r := mh_keycmp (mhe_key x) key in
      if r =? 0 then Some (Some (x, e))
      else
        let! o := remove_chain key e in
        Some ((λ '(y, rest), (y, x :: rest)) <$> o)
  end.

(** [hashidx] is an [int] here. *)
Definition i_mod_hash_remove_nosync (h : mod_hash) (key : K) : option (mod_hash * Z * option V * list dtor) :=
  let! hashidx := i_mod_hash h key in
  let hashidx := s32 hashidx in
  let! chain := get_chain h hashidx in
  let! o := remove_chain key chain in
  match o with
  | None => Some (h, MH_ERR_NOTFOUND, None, [])
  | Some (e, chain) =>
      let! h := set_chain h hashidx chain in
      Some (set_stat h (set_nelems (mh_stat h) (ulong (mhs_nelems (mh_stat h) - 1))), 0,
            Some (mhe_val e), [MH_KEY_DESTROY (mhe_key e)])
  end.

(** The operations that take the lock. *)
Definition mod_hash_insert (h : mod_hash) (key : K) (val : V) (mem : bool) : option (mod_hash * Z) :=
  i_mod_hash_insert_nosync h key val mem.

Definition mod_hash_remove (h : mod_hash) (key : K) : option (mod_hash * Z * option V * list dtor) :=
  i_mod_hash_remove_nosync h key.

Definition mod_hash_find (h : mod_hash) (key : K) : option (mod_hash * Z * option V) :=
  i_mod_hash_find_nosync h key.

Definition mod_hash_replace (h : mod_hash) (key : K) (val : V) (mem : bool) : option (mod_hash * Z * list dtor) :=
  let! (h, r, v, d) := i_mod_hash_remove_nosync h key in
  let d := d ++ (if r =? 0 then MH_VAL_DESTROY <$> option_list v else []) in
  let! (h, res) := i_mod_hash_insert_nosync h key val mem in
  Some (h, res, d).

Definition mod_hash_destroy (h : mod_hash) (key : K) : option (mod_hash * Z * list dtor) :=
  let! (h, rv, v, d) := i_mod_hash_remove_nosync h key in
  Some (h, rv, d ++ (if rv =? 0 then MH_VAL_DESTROY <$> option_list v else [])).

(** [i_mod_hash_clear_nosync]: the chains in order, each entry's key and
    value destroyed. *)
Fixpoint clear_chain (e : list mod_hash_entry) : list dtor :=
  match e with
  | [] => []
  | x :: e => MH_KEY_DESTROY (mhe_key x) :: MH_VAL_DESTROY (mhe_val x) :: clear_chain e
  end.

Fixpoint clear_loop (h : mod_hash) (i n : nat) (d : list dtor) : option (mod_hash * list dtor) :=
  match n with
  | O => Some (h, d)
  | S n =>
      let! e := get_chain h (Z.of_nat i) in
      let! h := set_chain h (Z.of_nat i) [] in
      clear_loop h (S i) n (d ++ clear_chain e)
  end.

Definition mod_hash_clear (h : mod_hash) : option (mod_hash * list dtor) :=
  let! (h, d) := clear_loop h 0 (Z.to_nat (mh_nchains h)) [] in
  Some (set_stat h (set_nelems (mh_stat h) 0), d).

(** [mod_hash_destroy_hash] takes the table off the list of all tables and
    clears it. *)
Fixpoint unlink (self : nat) (mhp : list nat) : list nat :=
  match mhp with
  | [] => []
  | x :: mhp => if (x =? self)%nat then mhp else x :: unlink self mhp
  end.

Definition mod_hash_destroy_hash (h : mod_hash) (self : nat) (mh_head : list nat) : option (list nat * list dtor) :=
  let! (_, d) := mod_hash_clear h in
  Some (unlink self mh_head, d).
End mod_hash.

Arguments mod_hash_entry : clear implicits.
Arguments mod_hash : clear implicits.
Arguments dtor : clear implicits.

(** ** The abstract table

    A finite map from the identities of the keys to the entries. *)

Section spec.
Context {K V I : Type} `{!HashKey K, !EqDecision I, !Countable I, !HashKeyLaws K I}.
Context (lp64 : bool).
Implicit Types (h : mod_hash K V) (m : gmap I (mod_hash_entry K V)) (e : mod_hash_entry K V).

Inductive op :=
  | OpInsert (key : K) (val : V) (mem : bool)
  | OpRemove (key : K)
  | OpFind (key : K)
  | OpReplace (key : K) (val : V) (mem : bool)
  | OpDestroy (key : K)
  | OpClear.

(** The code run for an operation: the new table, the returned code and
    value, and the destructor calls. *)
Definition exec_op (o : op) h : option (mod_hash K V * Z * option V * list (dtor K V)) :=
  match o with
  | OpInsert key val mem => let! (h, r) := mod_hash_insert lp64 h key val mem in Some (h, r, None, [])
  | OpRemove key => mod_hash_remove lp64 h key
  | OpFind key => let! (h, r, v) := mod_hash_find lp64 h key in Some (h, r, v, [])
  | OpReplace key val mem => let! (h, r, d) := mod_hash_replace lp64 h key val mem in Some (h, r, None, d)
  | OpDestroy key => let! (h, r, d) := mod_hash_destroy lp64 h key in Some (h, r, None, d)
  | OpClear => let! (h, d) := mod_hash_clear h in Some (h, 0, None, d)
  end.

Definition destroyed e : list (dtor K V) := [MH_KEY_DESTROY (mhe_key e); MH_VAL_DESTROY (mhe_val e)].

Definition spec_insert (avail : bool) (key : K) (val : V) m : gmap I (mod_hash_entry K V) * Z :=
  match m !! key_id key with
  | Some _ => (m, MH_ERR_DUPLICATE)
  | None => if avail then (<[key_id key := Entry key val]> m, 0) else (m, MH_ERR_NOMEM)
  end.

(** What the operation does to the map; [sleep]: allocations never fail. *)
Definition spec_op (sleep : bool) (o : op) m : gmap I (mod_hash_entry K V) * Z * option V * list (dtor K V) :=
  match o with
  | OpInsert key val mem => (spec_insert (sleep || mem) key val m, None, [])
  | OpRemove key =>
      match m !! key_id key with
      | Some e => (delete (key_id key) m, 0, Some (mhe_val e), [MH_KEY_DESTROY (mhe_key e)])
      | None => (m, MH_ERR_NOTFOUND, None, [])
      end
  | OpFind key =>
      match m !! key_id key with
      | Some e => (m, 0, Some (mhe_val e), [])
      | None => (m, MH_ERR_NOTFOUND, None, [])
      end
  | OpReplace key val mem =>
      (spec_insert (sleep || mem) key val (delete (key_id key) m), None,
       from_option destroyed [] (m !! key_id key))
  | OpDestroy key =>
      match m !! key_id key with
      | Some e => (delete (key_id key) m, 0, None, destroyed e)
      | None => (m, MH_ERR_NOTFOUND, None, [])
      end
  | OpClear => (∅, 0, None, map_to_list m ≫= destroyed ∘ snd)
  end.

Definition op_ok (o : op) : Prop :=
  match o with
  | OpInsert key _ _ | OpRemove key | OpFind key | OpReplace key _ _ | OpDestroy key => key_ok key
  | OpClear => True
  end.

(** ** Representation *)

Definition ids (es : list (mod_hash_entry K V)) : list (I * mod_hash_entry K V) :=
  (λ e, (key_id (mhe_key e), e)) <$> es.

(** The chains hold the entries of [m], each one in the chain of its key. *)
Record represents h m : Prop := {
  rp_nchains : 1 <= mh_nchains h < 2 ^ 31;
  rp_length : Z.of_nat (length (mh_entries h)) = mh_nchains h;
  rp_keys : Forall (λ e, key_ok (mhe_key e)) (mjoin (mh_entries h));
  rp_place : ∀ i c e, mh_entries h !! i = Some c → e ∈ c → i_mod_hash lp64 h (mhe_key e) = Some (Z.of_nat i);
  rp_content : map_to_list m ≡ₚ ids (mjoin (mh_entries h));
  rp_nelems : mhs_nelems (mh_stat h) = ulong lp64 (Z.of_nat (size m))
}.

Lemma elem_of_chains (es : list (list (mod_hash_entry K V))) e : e ∈ mjoin es ↔ ∃ i c, es !! i = Some c ∧ e ∈ c.
Proof.
  rewrite list_elem_of_join. split.
  - intros (c & He & [i Hi]%list_elem_of_lookup). by exists i, c.
  - intros (i & c & Hi & He). exists c. split; [done|]. by eapply list_elem_of_lookup_2.
Qed.

(** Replacing a chain. *)
Lemma mjoin_insert (es : list (list (mod_hash_entry K V))) i c c' :
  es !! i = Some c → c ++ mjoin (<[i := c']> es) ≡ₚ c' ++ mjoin es.
Proof.
  revert i. induction es as [|c0 es IH]; intros i; [done|]. destruct i as [|i]; cbn.
  - intros [= ->]. by rewrite !app_assoc, (Permutation_app_comm c).
  - intros Hi. rewrite !app_assoc, (Permutation_app_comm c), (Permutation_app_comm c'), <- !app_assoc.
    by rewrite (IH i Hi).
Qed.

(** ** Lookups *)

Section represented.
Context h m (Hr : represents h m).

Lemma content_lookup x e : m !! x = Some e ↔ e ∈ mjoin (mh_entries h) ∧ key_id (mhe_key e) = x.
Proof.
  rewrite <- elem_of_map_to_list, (rp_content h m Hr). unfold ids. rewrite list_elem_of_fmap. split.
  - by intros (e' & [= -> ->] & He).
  - intros [He <-]. by exists e.
Qed.

Lemma key_index key :
  key_ok key → ∃ i c, i_mod_hash lp64 h key = Some (Z.of_nat i) ∧ mh_entries h !! i = Some c ∧
    get_chain h (Z.of_nat i) = Some c ∧ s32 (Z.of_nat i) = Z.of_nat i.
Proof.
  intros Hk. pose proof (rp_nchains h m Hr) as Hn. pose proof (rp_length h m Hr) as Hl.
  assert (∃ i, i_mod_hash lp64 h key = Some (Z.of_nat i) ∧ Z.of_nat i < mh_nchains h) as (i & Hi & Hlt).
  { unfold i_mod_hash. destruct (Z.eqb_spec (mh_nchains h) 1) as [->|]; [by exists 0%nat|].
    destruct (hash_ok key Hk) as (x & -> & Hx). unfold ulong.
    rewrite wrapu_id by (destruct lp64; lia). pose proof (Z.mod_pos_bound x (mh_nchains h - 1) ltac:(lia)).
    exists (Z.to_nat (x `mod` (mh_nchains h - 1))). rewrite Z2Nat.id by lia. split; [done|lia]. }
  destruct (lookup_lt_is_Some_2 (mh_entries h) i) as [c Hc]; [lia|]. exists i, c. split_and!; [done|done| |].
  - unfold get_chain. destruct (Z.ltb_spec (Z.of_nat i) 0); [lia|]. by rewrite Nat2Z.id.
  - apply wraps_id; lia.
Qed.

Lemma index_id k1 k2 : key_ok k1 → key_ok k2 → key_id k1 = key_id k2 → i_mod_hash lp64 h k1 = i_mod_hash lp64 h k2.
Proof. intros H1 H2 He. unfold i_mod_hash. by rewrite (hash_id k1 k2 H1 H2 He). Qed.

Lemma chain_keys i c : mh_entries h !! i = Some c → Forall (λ e, key_ok (mhe_key e)) c.
Proof.
  intros Hc. pose proof (rp_keys h m Hr) as Hk. rewrite Forall_forall in *. intros e He. apply Hk.
  apply elem_of_chains. by exists i, c.
Qed.

Lemma absent_chain key i c :
  key_ok key → i_mod_hash lp64 h key = Some (Z.of_nat i) → mh_entries h !! i = Some c →
  (∀ e, e ∈ c → key_id (mhe_key e) ≠ key_id key) → m !! key_id key = None.
Proof.
  intros Hk Hi Hc Hno. destruct (m !! key_id key) as [e|] eqn:E; [|done]. exfalso.
  apply content_lookup in E as [He Hid]. pose proof (rp_keys h m Hr) as Hks.
  rewrite Forall_forall in Hks. pose proof (Hks e He) as Hke.
  apply elem_of_chains in He as (j & c' & Hc' & He).
  pose proof (rp_place h m Hr j c' e Hc' He) as Hp. rewrite (index_id _ key Hke Hk Hid), Hi in Hp.
  injection Hp as Hij. apply Nat2Z.inj in Hij as ->. assert (c' = c) as -> by congruence. by apply (Hno e He).
Qed.

Lemma present_chain e i c :
  mh_entries h !! i = Some c → e ∈ c → m !! key_id (mhe_key e) = Some e.
Proof. intros Hc He. apply content_lookup. split; [|done]. apply elem_of_chains. by exists i, c. Qed.
End represented.

Lemma find_chain_spec key (c : list (mod_hash_entry K V)) :
  key_ok key → Forall (λ e, key_ok (mhe_key e)) c →
  ∃ o, find_chain key c = Some o ∧
    match o with
    | Some e => e ∈ c ∧ key_id (mhe_key e) = key_id key
    | None => ∀ e, e ∈ c → key_id (mhe_key e) ≠ key_id key
    end.
Proof.
  intros Hk Hc. induction Hc as [|x c Hx Hc IH]; cbn [find_chain].
  { exists None. split; [done|]. by intros e ?%elem_of_nil. }
  destruct (cmp_id (mhe_key x) key Hx Hk) as (r & -> & Hr). destruct (Z.eqb_spec r 0) as [Hz|Hz].
  - exists (Some x). split; [done|]. split; [by left|]. tauto.
  - destruct IH as (o & -> & Ho). exists o. split; [done|]. destruct o as [e|].
    + destruct Ho. split; [by right|done].
    + intros e [->|He]%elem_of_cons; [tauto|by apply Ho].
Qed.

Lemma remove_chain_spec key (c : list (mod_hash_entry K V)) :
  key_ok key → Forall (λ e, key_ok (mhe_key e)) c →
  ∃ o, remove_chain key c = Some o ∧
    match o with
    | Some (e, rest) => c ≡ₚ e :: rest ∧ key_id (mhe_key e) = key_id key
    | None => ∀ e, e ∈ c → key_id (mhe_key e) ≠ key_id key
    end.
Proof.
  intros Hk Hc. induction Hc as [|x c Hx Hc IH]; cbn [remove_chain].
  { exists None. split; [done|]. by intros e ?%elem_of_nil. }
  destruct (cmp_id (mhe_key x) key Hx Hk) as (r & -> & Hr). destruct (Z.eqb_spec r 0) as [Hz|Hz].
  - exists (Some (x, c)). split; [done|]. split; [done|]. tauto.
  - destruct IH as (o & -> & Ho). eexists. split; [done|]. destruct o as [[e rest]|]; cbn.
    + destruct Ho as [Hp ?]. split; [|done]. rewrite Hp. apply Permutation_swap.
    + intros e [->|He]%elem_of_cons; [tauto|by apply Ho].
Qed.

(** ** The operations keep the representation *)

Lemma represents_stat h m s :
  represents h m → mhs_nelems s = mhs_nelems (mh_stat h) → represents (set_stat h s) m.
Proof. intros [] Hs. split; try done. cbn [set_stat mh_stat]. by rewrite Hs. Qed.

(** Changing one chain. *)
Lemma represents_chain h m m' i c c' n :
  represents h m → mh_entries h !! i = Some c →
  Forall (λ e, key_ok (mhe_key e)) c' →
  (∀ e, e ∈ c' → i_mod_hash lp64 h (mhe_key e) = Some (Z.of_nat i)) →
  map_to_list m' ≡ₚ ids (mjoin (<[i := c']> (mh_entries h))) → n = ulong lp64 (Z.of_nat (size m')) →
  represents (set_stat (set_chains h (<[i := c']> (mh_entries h))) (set_nelems (mh_stat h) n)) m'.
Proof.
  intros Hr Hc Hk Hp Hm Hn. pose proof Hr as [R1 R2 R3 R4 R5 R6]. split; cbn; [done|by rewrite length_insert| | |done|done].
  - rewrite Forall_forall in *. intros e (j & c1 & Hc1 & He)%elem_of_chains.
    apply list_lookup_insert_Some in Hc1 as [(<- & <- & _)|[_ Hc1]]; [by apply Hk|].
    apply R3. apply elem_of_chains. by exists j, c1.
  - intros j c1 e Hc1 He. apply list_lookup_insert_Some in Hc1 as [(<- & <- & _)|[_ Hc1]]; [by apply Hp|by eapply R4].
Qed.

Lemma ulong_succ n : ulong lp64 (ulong lp64 n + 1) = ulong lp64 (n + 1).
Proof. unfold ulong, wrapu. by rewrite Zplus_mod_idemp_l. Qed.

Lemma ulong_pred n : ulong lp64 (ulong lp64 n - 1) = ulong lp64 (n - 1).
Proof. unfold ulong, wrapu. by rewrite Zminus_mod_idemp_l. Qed.

Lemma represents_insert h m key val i c :
  represents h m → key_ok key → i_mod_hash lp64 h key = Some (Z.of_nat i) → mh_entries h !! i = Some c →
  m !! key_id key = None →
  represents (set_stat (set_chains h (<[i := Entry key val :: c]> (mh_entries h)))
    (set_nelems (mh_stat h) (ulong lp64 (mhs_nelems (mh_stat h) + 1)))) (<[key_id key := Entry key val]> m).
Proof.
  intros Hr Hk Hi Hc Hm. eapply represents_chain; [done|done| | | |].
  - constructor; [done|]. by eapply chain_keys.
  - intros e [->|He]%elem_of_cons; [done|]. by eapply rp_place.
  - rewrite map_to_list_insert by done. rewrite (rp_content h m Hr).
    change ((key_id key, Entry key val) :: ids (mjoin (mh_entries h))) with
      (ids (Entry key val :: mjoin (mh_entries h))).
    apply fmap_Permutation. apply (Permutation_app_inv_l c). rewrite mjoin_insert by done. cbn.
    by rewrite Permutation_middle.
  - rewrite (rp_nelems h m Hr), ulong_succ, map_size_insert, Hm. f_equal. lia.
Qed.

Lemma represents_remove h m e i c rest :
  represents h m → mh_entries h !! i = Some c → c ≡ₚ e :: rest →
  represents (set_stat (set_chains h (<[i := rest]> (mh_entries h)))
    (set_nelems (mh_stat h) (ulong lp64 (mhs_nelems (mh_stat h) - 1)))) (delete (key_id (mhe_key e)) m).
Proof.
  intros Hr Hc Hp. assert (e ∈ c) as He by (rewrite Hp; by left).
  pose proof (present_chain h m Hr e i c Hc He) as Hm.
  assert (∀ e', e' ∈ rest → e' ∈ c) as Hsub by (intros e' ?; rewrite Hp; by right).
  eapply represents_chain; [done|done| | | |].
  - pose proof (chain_keys h m Hr i c Hc) as Hk. rewrite Hp in Hk. by inversion Hk.
  - intros e' He'. eapply rp_place; [done|done|by apply Hsub].
  - apply (Permutation_cons_inv (a := (key_id (mhe_key e), e))).
    rewrite map_to_list_delete by done. rewrite (rp_content h m Hr).
    change ((key_id (mhe_key e), e) :: ids (mjoin (<[i:=rest]> (mh_entries h)))) with
      (ids (e :: mjoin (<[i:=rest]> (mh_entries h)))).
    apply fmap_Permutation. apply (Permutation_app_inv_l rest).
    rewrite <- (mjoin_insert (mh_entries h) i c rest Hc), Hp. cbn. by rewrite Permutation_middle.
  - rewrite (rp_nelems h m Hr), ulong_pred, map_size_delete, Hm. f_equal.
    assert (size m ≠ 0%nat); [|lia]. intros Hz%map_size_empty_inv. subst m. by rewrite lookup_empty in Hm.
Qed.

Lemma find_ok h m key :
  represents h m → key_ok key → ∃ s, i_mod_hash_find_nosync lp64 h key =
    Some (set_stat h s, if m !! key_id key is Some _ then 0 else MH_ERR_NOTFOUND, mhe_val <$> m !! key_id key) ∧
    mhs_nelems s = mhs_nelems (mh_stat h).
Proof.
  intros Hr Hk. destruct (key_index h m Hr key Hk) as (i & c & Hi & Hc & Hg & _).
  unfold i_mod_hash_find_nosync. rewrite Hi, Hg.
  destruct (find_chain_spec key c Hk (chain_keys h m Hr i c Hc)) as ([e|] & -> & Ho).
  - destruct Ho as [He Hid]. rewrite <- Hid, (present_chain h m Hr e i c Hc He). by eexists.
  - rewrite (absent_chain h m Hr key i c Hk Hi Hc Ho). by eexists.
Qed.

Lemma remove_ok h m key :
  represents h m → key_ok key → ∃ h', i_mod_hash_remove_nosync lp64 h key =
    Some (h', if m !! key_id key is Some _ then 0 else MH_ERR_NOTFOUND, mhe_val <$> m !! key_id key,
          MH_KEY_DESTROY ∘ mhe_key <$> option_list (m !! key_id key)) ∧
    represents h' (delete (key_id key) m) ∧ mh_sleep h' = mh_sleep h.
Proof.
  intros Hr Hk. destruct (key_index h m Hr key Hk) as (i & c & Hi & Hc & Hg & Hs).
  unfold i_mod_hash_remove_nosync. rewrite Hi. cbv zeta. rewrite Hs, Hg.
  destruct (remove_chain_spec key c Hk (chain_keys h m Hr i c Hc)) as ([[e rest]|] & -> & Ho).
  - destruct Ho as [Hp Hid]. assert (e ∈ c) as He by (rewrite Hp; by left).
    rewrite <- Hid, (present_chain h m Hr e i c Hc He). unfold set_chain.
    rewrite Nat2Z.id, wr_lt by (by eapply lookup_lt_Some).
    eexists. split; [done|]. split; [|done]. by apply (represents_remove h m e i c rest).
  - pose proof (absent_chain h m Hr key i c Hk Hi Hc Ho) as Hn. rewrite Hn, delete_id by done. by exists h.
Qed.

Lemma insert_ok h m key val mem :
  represents h m → key_ok key → ∃ h', i_mod_hash_insert_nosync lp64 h key val mem =
    Some (h', (spec_insert (mh_sleep h || mem) key val m).2) ∧
    represents h' (spec_insert (mh_sleep h || mem) key val m).1 ∧ mh_sleep h' = mh_sleep h.
Proof.
  intros Hr Hk. destruct (find_ok h m key Hr Hk) as (s & Hf & Hs).
  destruct (key_index h m Hr key Hk) as (i & c & Hi & Hc & Hg & _).
  unfold i_mod_hash_insert_nosync, spec_insert. rewrite Hf.
  pose proof (represents_stat h m s Hr Hs) as Hr'.
  destruct (m !! key_id key) as [e|] eqn:Hm.
  - eexists. split; [done|]. split; [|done]. by apply represents_stat.
  - change (MH_ERR_NOTFOUND =? 0) with false. cbv iota. cbn [set_stat mh_sleep].
    destruct (mh_sleep h || mem)%bool; cbn [negb fst snd].
    + change (i_mod_hash lp64 _ key) with (i_mod_hash lp64 h key). rewrite Hi.
      change (get_chain _ (Z.of_nat i)) with (get_chain h (Z.of_nat i)). rewrite Hg. unfold set_chain.
      rewrite Nat2Z.id, wr_lt by (by eapply lookup_lt_Some).
      eexists. split; [done|]. split; [|done]. by apply (represents_insert (set_stat h s) m key val i c).
    + eexists. split; [done|]. split; [|done]. by apply represents_stat.
Qed.

Lemma clear_chain_destroyed (c : list (mod_hash_entry K V)) : clear_chain c = c ≫= destroyed.
Proof. induction c as [|e c IH]; [done|]. cbn. by rewrite IH. Qed.

Lemma clear_loop_ok h i n d :
  (i + n = length (mh_entries h))%nat →
  clear_loop h i n d =
  Some (set_chains h (take i (mh_entries h) ++ replicate n []), d ++ (mjoin (drop i (mh_entries h)) ≫= destroyed)).
Proof.
  revert h i d. induction n as [|n IH]; intros h i d Hl; cbn [clear_loop].
  { rewrite take_ge, drop_ge by lia. cbn. rewrite !app_nil_r. by destruct h. }
  destruct (lookup_lt_is_Some_2 (mh_entries h) i) as [c Hc]; [lia|].
  unfold get_chain, set_chain. rewrite (proj2 (Z.ltb_ge (Z.of_nat i) 0)) by lia. rewrite Nat2Z.id.
  change (rd (mh_entries h) i) with (mh_entries h !! i). rewrite Hc, wr_lt by lia.
  rewrite IH by (cbn; rewrite length_insert; lia). cbn [set_chains mh_entries mh_sleep mh_nchains mh_stat].
  f_equal. f_equal.
  - unfold set_chains. f_equal. rewrite take_insert_snoc by lia. by rewrite <- app_assoc.
  - rewrite <- app_assoc. f_equal. rewrite clear_chain_destroyed, drop_insert_lt by lia.
    rewrite (drop_S _ c i) by done. cbn. by rewrite bind_app.
Qed.

Lemma mjoin_empty (n : nat) : mjoin (replicate n (@nil (mod_hash_entry K V))) = [].
Proof. induction n; [done|]. cbn. done. Qed.

Lemma clear_ok h m :
  represents h m → ∃ h' d, mod_hash_clear h = Some (h', d) ∧ represents h' ∅ ∧
    d ≡ₚ map_to_list m ≫= destroyed ∘ snd ∧ mh_sleep h' = mh_sleep h.
Proof.
  intros Hr. pose proof Hr as [R1 R2 R3 R4 R5 R6]. unfold mod_hash_clear.
  assert (Z.to_nat (mh_nchains h) = length (mh_entries h)) as -> by lia.
  rewrite clear_loop_ok by lia. cbn [app take]. rewrite take_0. cbn [app].
  eexists _, _. split; [done|]. split; [split; cbn|split; [|done]].
  - done.
  - by rewrite length_replicate.
  - rewrite mjoin_empty. constructor.
  - intros i c e [-> _]%lookup_replicate ?%elem_of_nil. done.
  - by rewrite mjoin_empty, map_to_list_empty.
  - rewrite map_size_empty. unfold ulong. destruct lp64; done.
  - rewrite drop_0, R5. unfold ids. rewrite list_fmap_bind. done.
Qed.
End spec.

(** ** Properties *)

Section properties.
Context {K V I : Type} `{!HashKey K, !EqDecision I, !Countable I, !HashKeyLaws K I}.
Implicit Types (h : mod_hash K V) (m : gmap I (mod_hash_entry K V)) (o : op (K := K) (V := V)).

Lemma exec_ok lp64 h m o :
  represents lp64 h m → op_ok o → ∃ h' d,
    exec_op lp64 o h = Some (h', (spec_op (mh_sleep h) o m).1.1.2, (spec_op (mh_sleep h) o m).1.2, d) ∧
    d ≡ₚ (spec_op (mh_sleep h) o m).2 ∧ represents lp64 h' (spec_op (mh_sleep h) o m).1.1.1 ∧ mh_sleep h' = mh_sleep h.
Proof.
  intros Hr Ho. destruct o as [key val mem|key|key|key val mem|key|]; cbn [exec_op spec_op op_ok] in *.
  - destruct (insert_ok lp64 h m key val mem Hr Ho) as (h' & Hx & Hr' & Hs).
    unfold mod_hash_insert. rewrite Hx. by eexists _, _.
  - destruct (remove_ok lp64 h m key Hr Ho) as (h' & Hx & Hr' & Hs). unfold mod_hash_remove. rewrite Hx.
    destruct (m !! key_id key) eqn:Hm; [by eexists _, _|]. rewrite delete_id in Hr' by done. by eexists _, _.
  - destruct (find_ok lp64 h m key Hr Ho) as (s & Hx & Hs). unfold mod_hash_find. rewrite Hx.
    destruct (m !! key_id key); eexists _, _; (split; [done|]); (split; [done|]); (split; [|done]); by apply represents_stat.
  - destruct (remove_ok lp64 h m key Hr Ho) as (h1 & Hx & Hr1 & Hs1).
    destruct (insert_ok lp64 h1 _ key val mem Hr1 Ho) as (h2 & Hy & Hr2 & Hs2).
    unfold mod_hash_replace. rewrite Hx, Hy. rewrite Hs1 in *.
    eexists _, _. split; [done|]. split; [|split; [done|congruence]].
    by destruct (m !! key_id key).
  - destruct (remove_ok lp64 h m key Hr Ho) as (h' & Hx & Hr' & Hs). unfold mod_hash_destroy. rewrite Hx.
    destruct (m !! key_id key) eqn:Hm; [by eexists _, _|]. rewrite delete_id in Hr' by done. by eexists _, _.
  - destruct (clear_ok lp64 h m Hr) as (h' & d & Hx & Hr' & Hd & Hs). rewrite Hx. by eexists _, _.
Qed.

(** A new table represents the empty map. *)
Lemma create_ok (lp64 sleep mem1 mem2 : bool) nchains self head h head' :
  1 <= nchains < 2 ^ 31 → mod_hash_create_extended nchains sleep mem1 mem2 self head = (Some h, head') →
  represents (K := K) (V := V) (I := I) lp64 h ∅ ∧ mh_sleep h = sleep.
Proof.
  intros Hn. unfold mod_hash_create_extended. destruct (negb _); [done|]. destruct (negb _); [done|].
  intros [= <- <-]. split; [|done]. split; cbn.
  - done.
  - rewrite length_replicate. lia.
  - rewrite mjoin_empty. constructor.
  - intros i c e [-> _]%lookup_replicate ?%elem_of_nil. done.
  - by rewrite mjoin_empty, map_to_list_empty.
  - rewrite map_size_empty. by destruct lp64.
Qed.

(** Sequences of operations, with the destructor calls in order. *)
Fixpoint exec_ops (lp64 : bool) (os : list (op (K := K) (V := V))) h : option (mod_hash K V * list (dtor K V)) :=
  match os with
  | [] => Some (h, [])
  | o :: os =>
      let! (h, _, _, d) := exec_op lp64 o h in
      let! (h, d') := exec_ops lp64 os h in
      Some (h, d ++ d')
  end.

(** The keys and values the table takes over in a sequence of operations:
    those of the successful inserts and replaces. *)
Fixpoint taken (sleep : bool) (os : list (op (K := K) (V := V))) m : list (mod_hash_entry K V) :=
  match os with
  | [] => []
  | o :: os =>
      let '(m', r, _, _) := spec_op sleep o m in
      match o with
      | OpInsert key val _ | OpReplace key val _ => if r =? 0 then [Entry key val] else []
      | _ => []
      end ++ taken sleep os m'
  end.

Fixpoint keys_of (d : list (dtor K V)) : list K :=
  match d with
  | [] => []
  | MH_KEY_DESTROY k :: d => k :: keys_of d
  | _ :: d => keys_of d
  end.

Lemma keys_of_app d1 d2 : keys_of (d1 ++ d2) = keys_of d1 ++ keys_of d2.
Proof. induction d1 as [|[] d1 IH]; cbn; [done|by rewrite IH|done]. Qed.

#[global] Instance keys_of_perm : Proper ((≡ₚ) ==> (≡ₚ)) keys_of.
Proof.
  induction 1 as [|[] ? ? ? IH|[] []|]; cbn; [done|by rewrite IH|done|by constructor|done|done|done|by etrans].
Qed.

Lemma keys_of_destroyed (es : list (mod_hash_entry K V)) : keys_of (es ≫= destroyed) = mhe_key <$> es.
Proof. induction es as [|e es IH]; [done|]. cbn. by rewrite IH. Qed.

(** The keys of a map. *)
Definition keys m : list K := mhe_key ∘ snd <$> map_to_list m.

Lemma keys_insert m key val : m !! key_id key = None → keys (<[key_id key := Entry key val]> m) ≡ₚ key :: keys m.
Proof. intros Hm. unfold keys. by rewrite map_to_list_insert by done. Qed.

Lemma keys_delete m i e : m !! i = Some e → keys m ≡ₚ mhe_key e :: keys (delete i m).
Proof. intros Hm. unfold keys. by rewrite <- (map_to_list_delete m i e Hm). Qed.

(** One operation balances. *)
Lemma spec_balance sleep o m :
  (mhe_key <$> taken sleep [o] m) ++ keys m ≡ₚ
  keys_of (spec_op sleep o m).2 ++ keys (spec_op sleep o m).1.1.1.
Proof.
  assert (∀ avail key val m, (mhe_key <$> (if (spec_insert avail key val m).2 =? 0 then [Entry key val] else [])) ++ keys m ≡ₚ
            keys (spec_insert avail key val m).1) as Hins.
  { intros avail key val m0. unfold spec_insert. destruct (m0 !! key_id key) eqn:Hm; [done|].
    destruct avail; [|done]. cbn [fst snd]. by rewrite keys_insert. }
  destruct o as [key val mem|key|key|key val mem|key|]; cbn [taken spec_op fst snd].
  - specialize (Hins (sleep || mem)%bool key val m). destruct (spec_insert _ key val m). by rewrite app_nil_r.
  - destruct (m !! key_id key) eqn:Hm; cbn; [by apply keys_delete|done].
  - by destruct (m !! key_id key).
  - specialize (Hins (sleep || mem)%bool key val (delete (key_id key) m)).
    destruct (spec_insert _ key val _) as [m' r]; cbn [fst snd] in *. rewrite app_nil_r, <- Hins.
    destruct (m !! key_id key) as [e|] eqn:Hm; cbn.
    + rewrite (keys_delete m (key_id key) e Hm). by rewrite <- Permutation_middle.
    + by rewrite delete_id.
  - destruct (m !! key_id key) eqn:Hm; cbn; [by apply keys_delete|done].
  - rewrite <- list_fmap_bind, keys_of_destroyed, <- list_fmap_compose. unfold keys.
    rewrite map_to_list_empty. cbn. by rewrite app_nil_r.
Qed.

Lemma taken_cons sleep o os m : taken sleep (o :: os) m = taken sleep [o] m ++ taken sleep os (spec_op sleep o m).1.1.1.
Proof. cbn [taken]. destruct (spec_op sleep o m) as [[[m' r] v] d]. cbn. by rewrite app_nil_r. Qed.
End properties.

(** ** The key types of modhash.c *)

Lemma lxor_range n a b : 0 <= n → 0 <= a < 2 ^ n → 0 <= b < 2 ^ n → 0 <= Z.lxor a b < 2 ^ n.
Proof.
  intros Hn Ha Hb. assert (0 <= Z.lxor a b) as H0 by (apply Z.lxor_nonneg; lia). split; [done|].
  destruct (decide (Z.lxor a b = 0)) as [->|]; [lia|]. apply Z.log2_lt_pow2; [lia|].
  pose proof (Z.log2_lxor a b ltac:(lia) ltac:(lia)).
  assert (∀ x, 0 <= x < 2 ^ n → Z.log2 x < n ∨ x = 0) as Hl.
  { intros x Hx. destruct (decide (x = 0)); [by right|]. left. apply Z.log2_lt_pow2; lia. }
  destruct (decide (n = 0)) as [->|]; [assert (a = 0) as -> by lia; assert (b = 0) as -> by lia; done|].
  destruct (Hl a Ha) as [?| ->], (Hl b Hb) as [?| ->]; rewrite ?(Z.log2_nonpos 0) in * by lia; lia.
Qed.

Lemma bystr_char_range hash c : 0 <= bystr_char hash c < 2 ^ 32.
Proof.
  unfold bystr_char. set (x := u32 _). assert (0 <= x < 2 ^ 32) as Hx by (apply (wrapu_range 32); lia).
  cbv zeta. destruct (_ =? 0); [done|].
  assert (0 <= Z.land x 0xf0000000 < 2 ^ 32) as Hg.
  { assert (0 <= Z.land x 0xf0000000) by (apply Z.land_nonneg; lia). split; [done|].
    destruct (decide (Z.land x 0xf0000000 = 0)) as [->|]; [lia|]. apply Z.log2_lt_pow2; [lia|].
    pose proof (Z.log2_land x 0xf0000000 ltac:(lia) ltac:(lia)) as Hlog. change (Z.log2 0xf0000000) with 31 in Hlog. lia. }
  apply lxor_range; [lia| |done]. apply lxor_range; [lia|done|].
  rewrite Z.shiftr_div_pow2 by lia. split; [apply Z.div_pos; lia|]. apply Z.div_lt_upper_bound; lia.
Qed.

Lemma bystr_loop_foldl l rest h :
  Forall (λ c, c ≠ 0) l → bystr_loop h (l ++ 0 :: rest) = Some (foldl bystr_char h l).
Proof.
  intros Hl. revert h. induction Hl as [|c l Hc Hl IH]; intros h; cbn [app bystr_loop foldl]; [done|].
  destruct (Z.eqb_spec c 0); [done|]. apply IH.
Qed.

Lemma bystr_range l h : 0 <= h < 2 ^ 32 → 0 <= foldl bystr_char h l < 2 ^ 32.
Proof.
  revert h. induction l as [|c l IH]; intros h Hh; [done|]. cbn [foldl]. apply IH, bystr_char_range.
Qed.

(** A string key is identified by its characters. *)
#[global] Program Instance string_key_laws : HashKeyLaws (list Z) (list Z) :=
  {| key_ok s := is_Some (cstring s); key_id s := default [] (cstring s) |}.
Next Obligation.
  intros k [l Hl]. apply cstring_Some in Hl as (Hl & rest & ->). eexists. split; [by apply bystr_loop_foldl|].
  apply bystr_range. lia.
Qed.
Next Obligation.
  intros k1 k2 [l1 H1] [l2 H2]. rewrite H1, H2. cbn. intros ->.
  apply cstring_Some in H1 as (H1 & r1 & ->), H2 as (H2 & r2 & ->).
  unfold mod_hash_bystr. by rewrite !bystr_loop_foldl.
Qed.
Next Obligation.
  intros k1 k2 [l1 H1] [l2 H2]. rewrite H1, H2. cbn.
  apply cstring_Some in H1 as (H1 & r1 & ->), H2 as (H2 & r2 & ->).
  destruct (strcmp_spec l1 l2 r1 r2 H1 H2) as (r & Hr & He & _). by exists r.
Qed.

(** A pointer key by its address. *)
Program Definition pointer_key_laws (hash_data : Z) : @HashKeyLaws Z Z (pointer_key hash_data) :=
  @Build_HashKeyLaws Z Z (pointer_key hash_data) (λ _, True) (λ k, k) _ _ _.
Next Obligation. intros hd k _. eexists. split; [done|]. apply (wrapu_range 32). lia. Qed.
Next Obligation. by intros hd k1 k2 _ _ ->. Qed.
Next Obligation.
  intros hd k1 k2 _ _. eexists. split; [done|]. unfold mod_hash_ptrkey_cmp.
  destruct (Z.gtb_spec k1 k2), (Z.ltb_spec k1 k2); lia.
Qed.

(** ** Theorems *)

Section theorems.
Context {K V I : Type} `{!HashKey K, !EqDecision I, !Countable I, !HashKeyLaws K I}.

(** C16: Every operation of the hash table on a valid key does not fault,
    does to the table what the specification does to the finite map it
    represents, returns the specified code and value, and calls the
    destructors on the specified keys and values, each as often. *)
Theorem mod_hash_refines lp64 (h : mod_hash K V) (m : gmap I (mod_hash_entry K V)) (o : op (K := K) (V := V)) :
  represents lp64 h m → op_ok o →
  let '(m', r, v, d) := spec_op (mh_sleep h) o m in
  ∃ h' d', exec_op lp64 o h = Some (h', r, v, d') ∧ d' ≡ₚ d ∧ represents lp64 h' m' ∧ mh_sleep h' = mh_sleep h.
Proof.
  intros Hr Ho. pose proof (exec_ok lp64 h m o Hr Ho) as H.
  by destruct (spec_op (mh_sleep h) o m) as [[[m' r] v] d].
Qed.

Lemma exec_ops_ok lp64 (os : list (op (K := K) (V := V))) (h : mod_hash K V) (m : gmap I (mod_hash_entry K V)) :
  represents lp64 h m → Forall op_ok os → ∃ h' m' d, exec_ops lp64 os h = Some (h', d) ∧ represents lp64 h' m' ∧
    (mhe_key <$> taken (mh_sleep h) os m) ++ keys m ≡ₚ keys_of d ++ keys m'.
Proof.
  intros Hr Hos. revert h m Hr. induction Hos as [|o os Ho Hos IH]; intros h m Hr; cbn [exec_ops].
  { by exists h, m, []. }
  destruct (exec_ok lp64 h m o Hr Ho) as (h1 & d1 & -> & Hd1 & Hr1 & Hs1).
  destruct (IH h1 _ Hr1) as (h2 & m2 & d2 & -> & Hr2 & Hb). rewrite Hs1 in Hb.
  exists h2, m2, (d1 ++ d2). split; [done|]. split; [done|].
  rewrite taken_cons, fmap_app, keys_of_app, Hd1, <- !app_assoc, <- Hb, !app_assoc.
  rewrite (Permutation_app_comm (keys_of _)), <- !app_assoc, <- spec_balance.
  rewrite !app_assoc. f_equiv. apply Permutation_app_comm.
Qed.

Lemma table_keys lp64 (h : mod_hash K V) (m : gmap I (mod_hash_entry K V)) :
  represents lp64 h m → keys m ≡ₚ mhe_key <$> mjoin (mh_entries h).
Proof. intros Hr. unfold keys, ids. rewrite (rp_content lp64 h m Hr). unfold ids. by rewrite <- list_fmap_compose. Qed.

(** In every sequence of operations on a new table, no operation faults,
    and the keys the table has taken over are exactly the keys it has
    destroyed and the keys still in its chains, each counted as often: no key
    is lost and none is destroyed twice. *)
Theorem mod_hash_accounting (lp64 sleep mem1 mem2 : bool) nchains self head h head' (os : list (op (K := K) (V := V))) :
  1 <= nchains < 2 ^ 31 → mod_hash_create_extended nchains sleep mem1 mem2 self head = (Some h, head') →
  Forall op_ok os →
  ∃ h' d, exec_ops lp64 os h = Some (h', d) ∧
    mhe_key <$> taken sleep os (∅ : gmap I _) ≡ₚ keys_of d ++ (mhe_key <$> mjoin (mh_entries h')).
Proof.
  intros Hn Hc Hos. destruct (create_ok lp64 _ _ _ _ _ _ _ _ Hn Hc) as [Hr Hs].
  destruct (exec_ops_ok lp64 os h ∅ Hr Hos) as (h' & m' & d & He & Hr' & Hb). exists h', d. split; [done|].
  rewrite <- (table_keys lp64 h' m' Hr'), <- Hb, Hs. unfold keys. rewrite map_to_list_empty. cbn. by rewrite app_nil_r.
Qed.

(** A replacement that finds no memory is not atomic: it returns an error,
    but the old key and value are gone from the table and destroyed. *)
Theorem mod_hash_replace_loses lp64 (h : mod_hash K V) (m : gmap I (mod_hash_entry K V)) key val e :
  represents lp64 h m → key_ok key → mh_sleep h = false → m !! key_id key = Some e →
  ∃ h', mod_hash_replace lp64 h key val false = Some (h', MH_ERR_NOMEM, destroyed e) ∧
    represents lp64 h' (delete (key_id key) m).
Proof.
  intros Hr Hk Hs Hm. destruct (remove_ok lp64 h m key Hr Hk) as (h1 & Hx & Hr1 & Hs1).
  destruct (insert_ok lp64 h1 _ key val false Hr1 Hk) as (h2 & Hy & Hr2 & _).
  unfold mod_hash_replace. rewrite Hx, Hm, Hy. unfold spec_insert in *. rewrite Hs1, Hs, lookup_delete_eq in *.
  by eexists.
Qed.

(** The index of a key is below [nchains - 1]: with two chains or more the
    last chain is never used. *)
Theorem mod_hash_last_chain lp64 (h : mod_hash K V) (m : gmap I (mod_hash_entry K V)) :
  represents lp64 h m → 2 <= mh_nchains h → last (mh_entries h) = Some [].
Proof.
  intros Hr Hn. pose proof (rp_length _ _ _ Hr) as Hl. pose proof (rp_nchains _ _ _ Hr) as Hn'.
  rewrite last_lookup. destruct (lookup_lt_is_Some_2 (mh_entries h) (pred (length (mh_entries h)))) as [c Hc]; [lia|].
  rewrite Hc. destruct c as [|e c]; [done|]. exfalso.
  pose proof (rp_place _ _ _ Hr _ _ e Hc ltac:(by left)) as Hp. unfold i_mod_hash in Hp.
  rewrite (proj2 (Z.eqb_neq (mh_nchains h) 1)) in Hp by lia. destruct (mh_hashalg (mhe_key e)) as [x|]; [|done].
  injection Hp as Hp. unfold ulong in Hp. rewrite wrapu_id in Hp by (destruct lp64; lia).
  pose proof (Z.mod_pos_bound x (mh_nchains h - 1)). lia.
Qed.
End theorems.

(** ** Witnesses: a table with string keys *)

Definition table0 : mod_hash (list Z) Z := Hash false 3 [[]; []; []] (Stat 0 0 0 0 0).
Definition key_ab : list Z := [97; 98; 0].
Definition key_c : list Z := [99; 0].

Lemma table0_empty : represents (I := list Z) true table0 ∅.
Proof.
  destruct (create_ok (K := list Z) (V := Z) true false true true 3 0%nat [] table0 [0%nat]) as [H _]; [lia|reflexivity|exact H].
Qed.

(** The table after ["ab" -> 1] has been inserted. *)
Definition table1 : mod_hash (list Z) Z :=
  default table0 (fst <$> mod_hash_insert true table0 key_ab 1 true).

Lemma table1_ok : represents true table1 {[ [97; 98] := Entry key_ab 1 ]}.
Proof.
  destruct (insert_ok true table0 ∅ key_ab 1 true table0_empty) as (h' & He & Hr & _); [by eexists|].
  unfold table1, mod_hash_insert. rewrite He. exact Hr.
Qed.

Lemma mod_hash_refines_witness :
  ∃ h', exec_op true (OpRemove key_ab) table1 = Some (h', 0, Some 1, [MH_KEY_DESTROY key_ab]).
Proof.
  destruct (mod_hash_refines true table1 {[ [97; 98] := Entry key_ab 1 ]} (OpRemove key_ab) table1_ok) as (h' & d & He & Hd & _);
    [by eexists|].
  apply Permutation_singleton_r in Hd. subst d. exists h'. exact He.
Defined.

Lemma mod_hash_accounting_witness :
  ∃ h' d, exec_ops true [OpInsert key_ab 1 true; OpReplace key_ab 2 true; OpInsert key_c 3 true; OpClear] table0 = Some (h', d) ∧
    [key_ab; key_ab; key_c] ≡ₚ keys_of d ++ (mhe_key <$> mjoin (mh_entries h')).
Proof.
  destruct (mod_hash_accounting (I := list Z) true false true true 3 0%nat [] table0 [0%nat]
    [OpInsert key_ab 1 true; OpReplace key_ab 2 true; OpInsert key_c 3 true; OpClear]) as (h' & d & He & Hp); [lia|reflexivity| |].
  { repeat constructor; by eexists. }
  exists h', d. split; [exact He|]. rewrite <- Hp. vm_compute. reflexivity.
Defined.

Lemma mod_hash_replace_loses_witness :
  ∃ h', mod_hash_replace true table1 key_ab 2 false = Some (h', MH_ERR_NOMEM, destroyed (Entry key_ab 1)).
Proof.
  destruct (mod_hash_replace_loses true table1 {[ [97; 98] := Entry key_ab 1 ]} key_ab 2 (Entry key_ab 1) table1_ok)
    as (h' & He & _); [by eexists|reflexivity|reflexivity|]. exists h'. exact He.
Defined.

Lemma mod_hash_last_chain_witness : last (mh_entries table1) = Some [].
Proof. apply (mod_hash_last_chain true table1 {[ [97; 98] := Entry key_ab 1 ]} table1_ok). vm_compute. discriminate. Defined.
