(* ===== verification/Callout.v ===== *)
(** * Callout tables (uts/common/os/callout.c, uts/common/sys/callo.h)

    [timeout] and [untimeout] on one callout table.  The callout structures
    live in a store of memory cells, each on two doubly linked hash chains
    (by ID and by run time) or on the free list, and the code is translated at
    the level of its pointers.  The operations are then shown to keep the
    chains well formed: what the pointers represent are lists, and the
    pointer manipulations insert and delete in them. *)

From Stdlib Require Import ZArith Lia.
From stdpp Require Import base numbers option list gmap.
From S2P Require Import Prelude.

#[local] Open Scope Z_scope.

(** ** Data *)

(** A pointer to a callout is a cell number, [None] is [NULL].  IDs, which the
    code declares as [long] and combines with [unsigned long] masks, are held
    as their bit patterns. *)
Record callout := Callout {
  c_idnext : option nat;
  c_idprev : option nat;
  c_lbnext : option nat;
  c_lbprev : option nat;
  c_xid : Z;
  c_runtime : Z;
  c_func : Z;
  c_arg : Z;
  c_executor : Z
}.

(** What [bzero] leaves. *)
Definition zero_callout : callout := Callout None None None None 0 0 0 0 0.

(** The two chains of a callout. *)
Inductive chain := ID | LB.

Definition cnext (w : chain) (c : callout) : option nat :=
  match w with ID => c_idnext c | LB => c_lbnext c end.
Definition cprev (w : chain) (c : callout) : option nat :=
  match w with ID => c_idprev c | LB => c_lbprev c end.
Definition set_cnext (w : chain) (c : callout) (p : option nat) : callout :=
  match w with
  | ID => Callout p (c_idprev c) (c_lbnext c) (c_lbprev c) (c_xid c) (c_runtime c) (c_func c) (c_arg c) (c_executor c)
  | LB => Callout (c_idnext c) (c_idprev c) p (c_lbprev c) (c_xid c) (c_runtime c) (c_func c) (c_arg c) (c_executor c)
  end.
Definition set_cprev (w : chain) (c : callout) (p : option nat) : callout :=
  match w with
  | ID => Callout (c_idnext c) p (c_lbnext c) (c_lbprev c) (c_xid c) (c_runtime c) (c_func c) (c_arg c) (c_executor c)
  | LB => Callout (c_idnext c) (c_idprev c) (c_lbnext c) p (c_xid c) (c_runtime c) (c_func c) (c_arg c) (c_executor c)
  end.
Definition set_xid (c : callout) (xid executor : Z) : callout :=
  Callout (c_idnext c) (c_idprev c) (c_lbnext c) (c_lbprev c) xid (c_runtime c) (c_func c) (c_arg c) executor.
Definition set_call (c : callout) (func arg runtime xid : Z) : callout :=
  Callout (c_idnext c) (c_idprev c) (c_lbnext c) (c_lbprev c) xid runtime func arg (c_executor c).

(** A table, with the memory its callouts live in. *)
Record callout_table := CalloutTable {
  ct_mem : gmap nat callout;
  ct_freelist : option nat;
  ct_curtime : Z;
  ct_runtime : Z;
  ct_short_id : Z;
  ct_long_id : Z;
  ct_idhash : list (option nat);
  ct_lbhash : list (option nat)
}.

Definition ct_hash (w : chain) (ct : callout_table) : list (option nat) :=
  match w with ID => ct_idhash ct | LB => ct_lbhash ct end.

Definition set_mem (ct : callout_table) (m : gmap nat callout) : callout_table :=
  CalloutTable m (ct_freelist ct) (ct_curtime ct) (ct_runtime ct) (ct_short_id ct) (ct_long_id ct) (ct_idhash ct) (ct_lbhash ct).
Definition set_freelist (ct : callout_table) (p : option nat) : callout_table :=
  CalloutTable (ct_mem ct) p (ct_curtime ct) (ct_runtime ct) (ct_short_id ct) (ct_long_id ct) (ct_idhash ct) (ct_lbhash ct).
Definition set_times (ct : callout_table) (cur run : Z) : callout_table :=
  CalloutTable (ct_mem ct) (ct_freelist ct) cur run (ct_short_id ct) (ct_long_id ct) (ct_idhash ct) (ct_lbhash ct).
Definition set_ids (ct : callout_table) (short long : Z) : callout_table :=
  CalloutTable (ct_mem ct) (ct_freelist ct) (ct_curtime ct) (ct_runtime ct) short long (ct_idhash ct) (ct_lbhash ct).
Definition set_hash (w : chain) (ct : callout_table) (h : list (option nat)) : callout_table :=
  match w with
  | ID => CalloutTable (ct_mem ct) (ct_freelist ct) (ct_curtime ct) (ct_runtime ct) (ct_short_id ct) (ct_long_id ct) h (ct_lbhash ct)
  | LB => CalloutTable (ct_mem ct) (ct_freelist ct) (ct_curtime ct) (ct_runtime ct) (ct_short_id ct) (ct_long_id ct) (ct_idhash ct) h
  end.

Section callout.
Context (lp64 : bool).

(** The width of a [long]. *)
Definition LONG_BIT : Z := if lp64 then 64 else 32.
Definition ulong_t (x : Z) : Z := wrapu LONG_BIT x.
Definition clock_t (x : Z) : Z := wraps LONG_BIT x.

Definition CALLOUT_EXECUTING : Z := Z.shiftl 1 (LONG_BIT - 1).
Definition CALLOUT_LONGTERM : Z := Z.shiftl 1 (LONG_BIT - 2).
Definition CALLOUT_COUNTER_HIGH : Z := Z.shiftl 1 (LONG_BIT - 3).
Definition CALLOUT_FANOUT_BITS : Z := 3.
Definition CALLOUT_TYPE_BITS : Z := 1.
Definition CALLOUT_NTYPES : Z := Z.shiftl 1 CALLOUT_TYPE_BITS.
Definition CALLOUT_FANOUT : Z := Z.shiftl 1 CALLOUT_FANOUT_BITS.
Definition CALLOUT_FANOUT_MASK : Z := CALLOUT_FANOUT - 1.
Definition CALLOUT_COUNTER_SHIFT : Z := CALLOUT_TYPE_BITS + CALLOUT_FANOUT_BITS.
Definition CALLOUT_COUNTER_LOW : Z := Z.shiftl 1 CALLOUT_COUNTER_SHIFT.
Definition CALLOUT_TABLES : Z := CALLOUT_COUNTER_LOW.
Definition CALLOUT_TABLE_MASK : Z := CALLOUT_TABLES - 1.
Definition CALLOUT_TABLE (t f : Z) : Z := Z.shiftl t CALLOUT_FANOUT_BITS + Z.land f CALLOUT_FANOUT_MASK.
Definition CALLOUT_LONGTERM_TICKS : Z := 0x4000.
Definition CALLOUT_BUCKETS : Z := 512.
Definition CALLOUT_BUCKET_MASK : Z := CALLOUT_BUCKETS - 1.
Definition CALLOUT_HASH (x : Z) : nat := Z.to_nat (Z.land x CALLOUT_BUCKET_MASK).
Definition CALLOUT_IDHASH (x : Z) : nat := CALLOUT_HASH (Z.shiftr x CALLOUT_COUNTER_SHIFT).
Definition CALLOUT_LBHASH (x : Z) : nat := CALLOUT_HASH x.

(** The bucket of a callout on a chain. *)
Definition bucket (w : chain) (id runtime : Z) : nat :=
  match w with ID => CALLOUT_IDHASH id | LB => CALLOUT_LBHASH runtime end.

(** ** The chains *)

Definition CALLOUT_HASH_INSERT (w : chain) (headp : option nat) (cp : nat) (mem : gmap nat callout) :
    option (option nat * gmap nat callout) :=
  let! c := mem !! cp in
  let mem := <[cp := set_cprev w (set_cnext w c headp) None]> mem in
  match headp with
  | None => Some (Some cp, mem)
  | Some h =>
      let! ch := mem !! h in
      Some (Some cp, <[h := set_cprev w ch (Some cp)]> mem)
  end.

Definition CALLOUT_HASH_DELETE (w : chain) (headp : option nat) (cp : nat) (mem : gmap nat callout) :
    option (option nat * gmap nat callout) :=
  let! c := mem !! cp in
  let nextp := cnext w c in
  let prevp := cprev w c in
  let! mem :=
    match nextp with
    | None => Some mem
    | Some n => let! cn := mem !! n in Some (<[n := set_cprev w cn prevp]> mem)
    end in
  match prevp with
  | None => Some (nextp, mem)
  | Some p => let! cprv := mem !! p in Some (headp, <[p := set_cnext w cprv nextp]> mem)
  end.

(** One half of [CALLOUT_HASH_UPDATE]: the chain [w] of the bucket of [id] or
    of [runtime]. *)
Definition hash_update (f : chain → option nat → nat → gmap nat callout → option (option nat * gmap nat callout))
    (w : chain) (ct : callout_table) (cp : nat) (id runtime : Z) : option callout_table :=
  let! headp := rd (ct_hash w ct) (bucket w id runtime) in
  let! (headp, mem) := f w headp cp (ct_mem ct) in
  let! h := wr (ct_hash w ct) (bucket w id runtime) headp in
  Some (set_hash w (set_mem ct mem) h).

Definition CALLOUT_HASH_UPDATE f (ct : callout_table) (cp : nat) (id runtime : Z) : option callout_table :=
  let! ct := hash_update f ID ct cp id runtime in
  hash_update f LB ct cp id runtime.

(** ** timeout() *)

(** [callout_alloc] gives a new zeroed cell, [fresh]: the one that
    [kmem_alloc] returned.  The runs in which it returns none, which end in
    the panic for a table overflow, are left out. *)
Definition callout_alloc (ct : callout_table) (fresh : nat) : callout_table * nat :=
  (set_mem ct (<[fresh := zero_callout]> (ct_mem ct)), fresh).

(** The first cell of the free list, or a new one. *)
Definition take_callout (ct : callout_table) (fresh : nat) : option (callout_table * nat) :=
  match ct_freelist ct with
  | None => Some (callout_alloc ct fresh)
  | Some cp =>
      let! c := ct_mem ct !! cp in
      Some (set_freelist ct (c_idnext c), cp)
  end.

(** The next ID after one of the two counters. *)
Definition next_id (id : Z) : Z :=
  Z.lor (ulong_t (id - CALLOUT_COUNTER_LOW)) CALLOUT_COUNTER_HIGH.

(** What [timeout_common] does with the cell it has got. *)
Definition timeout_rest (lbolt func arg delta : Z) (ct : callout_table) (cp : nat) : option (callout_table * Z) :=
  let delta := if delta <=? 0 then 1 else delta in
  let runtime := clock_t (lbolt + delta) in
  let long := delta >? CALLOUT_LONGTERM_TICKS in
  let id := next_id (if long then ct_long_id ct else ct_short_id ct) in
  let ct := if long then set_ids ct (ct_short_id ct) id else set_ids ct id (ct_long_id ct) in
  let! c := ct_mem ct !! cp in
  let ct := set_mem ct (<[cp := set_call c func arg runtime id]> (ct_mem ct)) in
  let! ct := CALLOUT_HASH_UPDATE CALLOUT_HASH_INSERT ct cp id runtime in
  Some (ct, id).

(** [callout_alloc] drops the lock of the table: when [dropped] is set, [ct] is
    the table as it is found afterwards, with whatever is on the free list by
    then. *)
Definition timeout_common (lbolt func arg delta : Z) (fresh : nat) (dropped : bool) (ct : callout_table) :
    option (callout_table * Z) :=
  let! (ct, cp) := if dropped then Some (callout_alloc ct fresh) else take_callout ct fresh in
  timeout_rest lbolt func arg delta ct cp.

(** ** untimeout() *)

(** A deleted callout goes to the head of the free list. *)
Definition put_callout (ct : callout_table) (cp : nat) : option callout_table :=
  let! c := ct_mem ct !! cp in
  Some (set_freelist (set_mem ct (<[cp := set_cnext ID c (ct_freelist ct)]> (ct_mem ct))) (Some cp)).

(** What [untimeout] ends with: a callout it removed and the ticks that were
    left, a callout that the caller itself is executing, one that another
    thread is executing, on which it waits until the ID changes, nothing, or
    a panic. *)
Inductive untimeout_result :=
  | Removed (time_left : Z)
  | Executing_self
  | Wait_for (cp : nat) (xid : Z)
  | Not_found
  | Panic.

(** One iteration of the search. *)
Definition untimeout_step (id self lbolt : Z) (ct : callout_table) (cp : option nat) :
    option (loop (option nat) (callout_table * untimeout_result)) :=
  match cp with
  | None =>
      Some (Return (ct,
        if (negb (id =? 0) &&
            negb (Z.land id (Z.lor CALLOUT_COUNTER_HIGH CALLOUT_EXECUTING) =? CALLOUT_COUNTER_HIGH))%bool
        then Panic else Not_found))
  | Some cp =>
      let! c := ct_mem ct !! cp in
      let xid := c_xid c in
      if xid =? id then
        let runtime := c_runtime c in
        let time_left := clock_t (runtime - lbolt) in
        let! ct := CALLOUT_HASH_UPDATE CALLOUT_HASH_DELETE ct cp id runtime in
        let! ct := put_callout ct cp in
        Some (Return (ct, Removed (if time_left <? 0 then 0 else time_left)))
      else if negb (xid =? Z.lor id CALLOUT_EXECUTING) then Some (Next (c_idnext c))
      else if c_executor c =? self then Some (Return (ct, Executing_self))
      else Some (Return (ct, Wait_for cp xid))
  end.

(** [fuel] bounds the length of a chain by the number of cells. *)
Definition chain_fuel (ct : callout_table) : nat := S (S (size (ct_mem ct))).

Definition untimeout (id self lbolt : Z) (ct : callout_table) : option (callout_table * untimeout_result) :=
  let! cp := rd (ct_idhash ct) (CALLOUT_IDHASH id) in
  run (untimeout_step id self lbolt ct) (chain_fuel ct) cp.

(** [while (cp->c_xid == xid) cv_wait(...)]: the wait is over. *)
Definition wait_over (ct : callout_table) (cp : nat) (xid : Z) : option bool :=
  let! c := ct_mem ct !! cp in
  Some (negb (c_xid c =? xid)).

(** ** Execution *)

(** [cp->c_runtime != runtime || (xid & CALLOUT_EXECUTING)] *)
Definition not_due (c : callout) (runtime : Z) : bool :=
  negb (c_runtime c =? runtime) || negb (Z.land (c_xid c) CALLOUT_EXECUTING =? 0).

(** [callout_execute] holds the lock from one call of a callout to the next.
    What it does in between, from the pointer [cp] of the inner loop and the
    local [runtime] on: it ends with the next callout to call, marked, or at
    the end of the outer loop. *)
Definition execute_step (self : Z) (s : callout_table * option nat * Z) :
    option (loop (callout_table * option nat * Z) (callout_table * option (nat * Z))) :=
  let '(ct, cp, runtime) := s in
  match cp with
  | Some cp =>
      let! c := ct_mem ct !! cp in
      if not_due c runtime then Some (Next (ct, c_lbnext c, runtime))
      else
        let xid := Z.lor (c_xid c) CALLOUT_EXECUTING in
        Some (Return (set_mem ct (<[cp := set_xid c xid self]> (ct_mem ct)), Some (cp, runtime)))
  | None =>
      let ct := if ct_runtime ct =? runtime then set_times ct (ct_curtime ct) (clock_t (runtime + 1)) else ct in
      let runtime := ct_runtime ct in
      if clock_t (runtime - ct_curtime ct) <=? 0 then
        let! cp := rd (ct_lbhash ct) (CALLOUT_LBHASH runtime) in
        Some (Next (ct, cp, runtime))
      else Some (Return (ct, None))
  end.

(** The ticks to go, each with a whole chain to scan. *)
Definition execute_fuel (ct : callout_table) : nat :=
  (S (S (S (Z.to_nat (clock_t (ct_curtime ct - ct_runtime ct))))) * chain_fuel ct)%nat.

(** The entry: the test of the outer loop, then its body. *)
Definition callout_execute (self : Z) (ct : callout_table) : option (callout_table * option (nat * Z)) :=
  let runtime := ct_runtime ct in
  if clock_t (runtime - ct_curtime ct) <=? 0 then
    let! cp := rd (ct_lbhash ct) (CALLOUT_LBHASH runtime) in
    run (execute_step self) (execute_fuel ct) (ct, cp, runtime)
  else Some (ct, None).

(** After the call of the callout [cp] has returned: it is deleted and freed,
    and the scan goes on behind it. *)
Definition callout_done (ct : callout_table) (cp : nat) (runtime : Z) : option callout_table :=
  let! c := ct_mem ct !! cp in
  let! ct := CALLOUT_HASH_UPDATE CALLOUT_HASH_DELETE ct cp (c_xid c) runtime in
  let! ct := put_callout ct cp in
  let! c := ct_mem ct !! cp in
  Some (set_mem ct (<[cp := set_xid c 0 (c_executor c)]> (ct_mem ct))).

Definition callout_return (self : Z) (ct : callout_table) (cp : nat) (runtime : Z) :
    option (callout_table * option (nat * Z)) :=
  let! ct := callout_done ct cp runtime in
  let! c := ct_mem ct !! cp in
  run (execute_step self) (execute_fuel ct) (ct, c_lbnext c, runtime).

(** ** Scheduling *)

(** [callout_schedule_1]: the result tells whether [callout_execute] has been
    dispatched. *)
Definition schedule_step (curtime : Z) (s : callout_table * option nat) :
    option (loop (callout_table * option nat) (callout_table * bool)) :=
  let '(ct, cp) := s in
  match cp with
  | Some cp =>
      let! c := ct_mem ct !! cp in
      if not_due c (ct_runtime ct) then Some (Next (ct, c_lbnext c))
      else Some (Return (ct, true))
  | None =>
      let ct := set_times ct (ct_curtime ct) (clock_t (ct_runtime ct + 1)) in
      if clock_t (ct_runtime ct - curtime) <=? 0 then
        let! cp := rd (ct_lbhash ct) (CALLOUT_LBHASH (ct_runtime ct)) in
        Some (Next (ct, cp))
      else Some (Return (ct, false))
  end.

Definition callout_schedule_1 (lbolt : Z) (ct : callout_table) : option (callout_table * bool) :=
  let ct := set_times ct lbolt (ct_runtime ct) in
  if clock_t (ct_runtime ct - lbolt) <=? 0 then
    let! cp := rd (ct_lbhash ct) (CALLOUT_LBHASH (ct_runtime ct)) in
    run (schedule_step lbolt) (execute_fuel ct) (ct, cp)
  else Some (ct, false).

(** A table as [callout_init] leaves it. *)
Definition init_table (table_id lbolt : Z) : callout_table :=
  let short := Z.lor table_id CALLOUT_COUNTER_HIGH in
  CalloutTable ∅ None lbolt lbolt short (Z.lor short CALLOUT_LONGTERM)
    (replicate (Z.to_nat CALLOUT_BUCKETS) None) (replicate (Z.to_nat CALLOUT_BUCKETS) None).
End callout.

(** ** Chains as lists *)

Definition other (w : chain) : chain := match w with ID => LB | LB => ID end.

(** The fields that are not links. *)
Definition same_data (c c' : callout) : Prop :=
  c_xid c' = c_xid c ∧ c_runtime c' = c_runtime c ∧ c_func c' = c_func c ∧ c_arg c' = c_arg c ∧ c_executor c' = c_executor c.

(** Only links of the chain [w] differ. *)
Definition same_but (w : chain) (c c' : callout) : Prop :=
  same_data c c' ∧ cnext (other w) c' = cnext (other w) c ∧ cprev (other w) c' = cprev (other w) c.

Lemma same_but_refl w c : same_but w c c.
Proof. unfold same_but, same_data. by split_and!. Qed.
Lemma same_but_next w c p : same_but w c (set_cnext w c p).
Proof. unfold same_but, same_data. by destruct w. Qed.
Lemma same_but_prev w c p : same_but w c (set_cprev w c p).
Proof. unfold same_but, same_data. by destruct w. Qed.
Lemma same_but_trans w c1 c2 c3 : same_but w c1 c2 → same_but w c2 c3 → same_but w c1 c3.
Proof. unfold same_but, same_data. intros (? & ? & ?) (? & ? & ?). naive_solver congruence. Qed.

Lemma cnext_set_cnext w c p : cnext w (set_cnext w c p) = p.
Proof. by destruct w. Qed.
Lemma cnext_set_cprev w c p : cnext w (set_cprev w c p) = cnext w c.
Proof. by destruct w. Qed.
Lemma cprev_set_cnext w c p : cprev w (set_cnext w c p) = cprev w c.
Proof. by destruct w. Qed.
Lemma cprev_set_cprev w c p : cprev w (set_cprev w c p) = p.
Proof. by destruct w. Qed.

Ltac links := repeat (rewrite cnext_set_cnext || rewrite cnext_set_cprev || rewrite cprev_set_cnext || rewrite cprev_set_cprev).

Create HintDb callout.
#[local] Hint Resolve same_but_refl same_but_next same_but_prev : callout.

(** The cells of [l], in order, are linked both ways. *)
Definition linked (w : chain) (mem : gmap nat callout) (l : list nat) : Prop :=
  ∀ l1 p l2, l = l1 ++ p :: l2 → ∃ c, mem !! p = Some c ∧ cnext w c = head l2 ∧ cprev w c = last l1.

(** The memory after a change of the links [w] of the cells [l]. *)
Definition relinked (w : chain) (l : list nat) (mem mem' : gmap nat callout) : Prop :=
  ∀ q, (q ∉ l → mem' !! q = mem !! q) ∧ option_Forall2 (same_but w) (mem !! q) (mem' !! q).

Lemma relinked_refl w l mem : relinked w l mem mem.
Proof. intros q. split; [done|]. destruct (mem !! q); constructor. apply same_but_refl. Qed.

Lemma relinked_insert w l mem mem' q c c' :
  relinked w l mem mem' → q ∈ l → mem' !! q = Some c → same_but w c c' → relinked w l mem (<[q := c']> mem').
Proof.
  intros Hr Hq Hc Hs p. destruct (Hr p) as [H1 H2]. destruct (decide (p = q)) as [->|Hne].
  - split; [done|]. rewrite lookup_insert_eq. rewrite Hc in H2. inversion H2; subst. constructor. by eapply same_but_trans.
  - by rewrite lookup_insert_ne.
Qed.

Lemma relinked_lookup w l mem mem' q c :
  relinked w l mem mem' → mem !! q = Some c → ∃ c', mem' !! q = Some c' ∧ same_but w c c'.
Proof. intros Hr Hc. destruct (Hr q) as [_ H]. rewrite Hc in H. inversion H; subst. eauto. Qed.

Lemma relinked_lookup_inv w l mem mem' q c' :
  relinked w l mem mem' → mem' !! q = Some c' → ∃ c, mem !! q = Some c ∧ same_but w c c'.
Proof. intros Hr Hc. destruct (Hr q) as [_ H]. rewrite Hc in H. inversion H; subst. eauto. Qed.

Lemma linked_frame w mem mem' l :
  linked w mem l →
  (∀ p c, p ∈ l → mem !! p = Some c → ∃ c', mem' !! p = Some c' ∧ cnext w c' = cnext w c ∧ cprev w c' = cprev w c) →
  linked w mem' l.
Proof.
  intros Hl Hf l1 p l2 ->. destruct (Hl l1 p l2 eq_refl) as (c & Hc & Hn & Hp).
  destruct (Hf p c) as (c' & Hc' & Hn' & Hp'); [set_solver|done|]. exists c'. by rewrite Hn', Hp'.
Qed.

(** Relinking other cells, or the other chains, keeps a chain. *)
Lemma linked_relinked w l' mem mem' l : linked w mem l → relinked w l' mem mem' → l ## l' → linked w mem' l.
Proof.
  intros Hl Hr Hd. apply (linked_frame w mem); [done|]. intros p c Hp Hc. exists c.
  rewrite (proj1 (Hr p)) by set_solver. done.
Qed.

Lemma linked_relinked_other w l' mem mem' l : linked (other w) mem l → relinked w l' mem mem' → linked (other w) mem' l.
Proof.
  intros Hl Hr. apply (linked_frame (other w) mem); [done|]. intros p c Hp Hc.
  destruct (relinked_lookup w l' mem mem' p c Hr Hc) as (c' & Hc' & _ & Hn & Hv). by exists c'.
Qed.

Lemma hash_insert_ok w mem l cp c :
  linked w mem l → cp ∉ l → mem !! cp = Some c →
  ∃ mem', CALLOUT_HASH_INSERT w (head l) cp mem = Some (Some cp, mem') ∧ linked w mem' (cp :: l) ∧
    relinked w (cp :: l) mem mem'.
Proof.
  intros Hl Hcp Hc. unfold CALLOUT_HASH_INSERT. rewrite Hc. cbv zeta.
  set (c1 := set_cprev w (set_cnext w c (head l)) None). set (mem1 := <[cp := c1]> mem).
  assert (same_but w c c1) as Hs1 by (unfold c1; eauto using same_but_trans with callout).
  assert (relinked w (cp :: l) mem mem1) as Hr1.
  { apply (relinked_insert _ _ _ _ _ c); [apply relinked_refl|set_solver|done|done]. }
  assert (cnext w c1 = head l ∧ cprev w c1 = None) as [Hn1 Hp1] by (unfold c1; by links).
  destruct l as [|h l]; cbn [head].
  { exists mem1. split; [done|]. split; [|done]. intros [|x l1] p l2 E; cbn in E.
    - injection E as -> <-. exists c1. split; [apply lookup_insert_eq|done].
    - injection E as _ E. by destruct l1. }
  destruct (Hl [] h l eq_refl) as (ch & Hch & Hnh & Hph).
  assert (cp ≠ h) as Hne by set_solver. assert (mem1 !! h = Some ch) as Hch1 by (unfold mem1; by rewrite lookup_insert_ne).
  rewrite Hch1. eexists. split; [done|]. split.
  - intros [|x l1] p l2 E; cbn in E.
    + injection E as -> <-. exists c1. rewrite lookup_insert_ne by done. split; [apply lookup_insert_eq|done].
    + injection E as -> E. destruct (Hl l1 p l2 E) as (cx & Hcx & Hnx & Hpx).
      assert (p ≠ x) as Hpx' by (intros ->; apply Hcp; rewrite E; set_solver).
      destruct (decide (p = h)) as [->|Hph'].
      * rewrite lookup_insert_eq. eexists. split; [done|]. links.
        assert (cx = ch) as -> by congruence. split; [done|].
        destruct l1 as [|y l1]; [done|]. rewrite Hph in Hpx. by symmetry in Hpx; apply last_None in Hpx.
      * rewrite lookup_insert_ne by done. unfold mem1. rewrite lookup_insert_ne by done. exists cx. split; [done|]. split; [done|]. rewrite Hpx.
        destruct l1 as [|y l1]; [cbn in E; congruence|by rewrite last_cons_cons].
  - eapply relinked_insert; [done|set_solver|done|apply same_but_prev].
Qed.

(** The cells around a cell of a chain. *)
Lemma linked_cell w mem l1 p l2 : linked w mem (l1 ++ p :: l2) → is_Some (mem !! p).
Proof. intros Hl. destruct (Hl l1 p l2 eq_refl) as (c & Hc & _). by exists c. Qed.

Lemma linked_in w mem l p : linked w mem l → p ∈ l → is_Some (mem !! p).
Proof. intros Hl (l1 & l2 & ->)%list_elem_of_split. by eapply linked_cell. Qed.

(** Splits of a list without a cell of it. *)
Lemma split_without (l1 l2 m1 m2 : list nat) p :
  l1 ++ l2 = m1 ++ p :: m2 →
  (∃ k, l1 = m1 ++ p :: k ∧ m2 = k ++ l2) ∨ (∃ k, l2 = k ++ p :: m2 ∧ m1 = l1 ++ k).
Proof.
  revert m1. induction l1 as [|x l1 IH]; intros m1 E; cbn in E.
  - right. by exists m1.
  - destruct m1 as [|y m1]; cbn in E; injection E as -> E.
    + left. exists l1. by subst.
    + destruct (IH m1 E) as [(k & -> & ->)|(k & -> & ->)]; [left; by exists k|right; by exists k].
Qed.

(** The store to the successor's [prev] link, at every cell. *)
Lemma unlink_next_ok w mem l1 cp l2 :
  linked w mem (l1 ++ cp :: l2) →
  ∃ mem1, match head l2 with None => Some mem
      | Some n => let! cn := mem !! n in Some (<[n := set_cprev w cn (last l1)]> mem) end = Some mem1 ∧
    relinked w (l1 ++ l2) mem mem1 ∧
    ∀ q cq, mem !! q = Some cq → ∃ cq', mem1 !! q = Some cq' ∧ cnext w cq' = cnext w cq ∧
      cprev w cq' = if decide (head l2 = Some q) then last l1 else cprev w cq.
Proof.
  intros Hl. destruct l2 as [|n l2]; cbn [head].
  - exists mem. split; [done|]. split; [apply relinked_refl|]. intros q cq Hq. exists cq. by rewrite decide_False.
  - destruct (linked_cell w mem (l1 ++ [cp]) n l2) as [cn Hcn]; [by rewrite <- app_assoc|]. rewrite Hcn.
    eexists. split; [done|]. split.
    + eapply relinked_insert; [apply relinked_refl|set_solver|done|apply same_but_prev].
    + intros q cq Hq. destruct (decide (q = n)) as [->|].
      * rewrite lookup_insert_eq, decide_True by done. eexists. split; [done|]. links. by replace cq with cn by congruence.
      * rewrite lookup_insert_ne, decide_False by congruence. by exists cq.
Qed.

(** The store to the predecessor's [next] link, or to the bucket's head. *)
Lemma unlink_prev_ok w mem mem1 l1 cp l2 :
  linked w mem (l1 ++ cp :: l2) → relinked w (l1 ++ l2) mem mem1 →
  (∀ q cq, mem !! q = Some cq → ∃ cq', mem1 !! q = Some cq' ∧ cnext w cq' = cnext w cq ∧
      cprev w cq' = if decide (head l2 = Some q) then last l1 else cprev w cq) →
  ∃ mem2, match last l1 with None => Some (head l2, mem1)
      | Some p => let! cprv := mem1 !! p in Some (head (l1 ++ cp :: l2), <[p := set_cnext w cprv (head l2)]> mem1) end =
      Some (head (l1 ++ l2), mem2) ∧ relinked w (l1 ++ l2) mem mem2 ∧
    ∀ q cq, mem !! q = Some cq → ∃ cq', mem2 !! q = Some cq' ∧
      cnext w cq' = (if decide (last l1 = Some q) then head l2 else cnext w cq) ∧
      cprev w cq' = if decide (head l2 = Some q) then last l1 else cprev w cq.
Proof.
  intros Hl Hr1 H1. destruct (last l1) as [p|] eqn:Elast.
  - apply last_Some in Elast as [l1' ->].
    destruct (linked_cell w mem l1' p (cp :: l2)) as [cp' Hcp']; [by rewrite <- app_assoc in Hl|].
    destruct (H1 p cp' Hcp') as (cp1 & Hcp1' & Hn1 & Hp1). rewrite Hcp1'. eexists. split; [|split].
    + rewrite <- !app_assoc. by destruct l1'.
    + eapply relinked_insert; [done|set_solver|done|apply same_but_next].
    + intros q cq Hq. destruct (H1 q cq Hq) as (cq' & Hq' & Hnq & Hpq). destruct (decide (q = p)) as [->|].
      * rewrite lookup_insert_eq, (decide_True (P := Some p = Some p)) by done. eexists. split; [done|]. links.
        replace cq' with cp1 in Hpq by congruence. done.
      * rewrite lookup_insert_ne, (decide_False (P := Some p = Some q)) by congruence. by exists cq'.
  - apply last_None in Elast as ->. exists mem1. split; [done|]. split; [done|]. intros q cq Hq.
    destruct (H1 q cq Hq) as (cq' & Hq' & Hnq & Hpq). exists cq'. by rewrite (decide_False (P := None = Some q)).
Qed.

(** With both stores done, the chain without the cell is linked. *)
Lemma linked_without w mem mem2 l1 cp l2 :
  linked w mem (l1 ++ cp :: l2) → NoDup (l1 ++ cp :: l2) →
  (∀ q cq, mem !! q = Some cq → ∃ cq', mem2 !! q = Some cq' ∧
      cnext w cq' = (if decide (last l1 = Some q) then head l2 else cnext w cq) ∧
      cprev w cq' = if decide (head l2 = Some q) then last l1 else cprev w cq) →
  linked w mem2 (l1 ++ l2).
Proof.
  intros Hl Hnd H2 m1 p m2 E.
  apply NoDup_app in Hnd as (Hnd1 & Hd & Hnd2). apply NoDup_cons in Hnd2 as (Hcp2 & Hnd2).
  destruct (split_without _ _ _ _ _ E) as [(k & -> & ->)|(k & -> & ->)].
  - destruct (Hl m1 p (k ++ cp :: l2)) as (cx & Hcx & Hnx & Hpx); [by rewrite <- app_assoc|].
    destruct (H2 p cx Hcx) as (cx' & Hcx' & Hnx' & Hpx'). exists cx'. split; [done|].
    rewrite decide_False in Hpx' by (intros Hh%head_Some_elem_of; set_solver). split; [|congruence].
    rewrite Hnx'. destruct k as [|y k]; [by rewrite decide_True by (by rewrite last_snoc)|].
    rewrite decide_False; [done|]. intros Hlast. rewrite last_app_cons, last_cons_cons in Hlast.
    apply last_Some_elem_of in Hlast. apply NoDup_app in Hnd1 as (_ & _ & [? _]%NoDup_cons). done.
  - destruct (Hl (l1 ++ cp :: k) p m2) as (cx & Hcx & Hnx & Hpx); [by rewrite <- app_assoc|].
    destruct (H2 p cx Hcx) as (cx' & Hcx' & Hnx' & Hpx'). exists cx'. split; [done|].
    rewrite decide_False in Hnx' by (intros Hh%last_Some_elem_of; set_solver). split; [congruence|].
    rewrite Hpx'. destruct k as [|y k].
    + rewrite decide_True by done. by rewrite app_nil_r.
    + rewrite decide_False; [rewrite Hpx, !last_app_cons; by rewrite last_cons_cons|].
      cbn. intros [= ->]. apply NoDup_cons in Hnd2 as [Hp2 _]. set_solver.
Qed.

Lemma hash_delete_ok w mem l1 cp l2 :
  linked w mem (l1 ++ cp :: l2) → NoDup (l1 ++ cp :: l2) →
  ∃ mem', CALLOUT_HASH_DELETE w (head (l1 ++ cp :: l2)) cp mem = Some (head (l1 ++ l2), mem') ∧
    linked w mem' (l1 ++ l2) ∧ relinked w (l1 ++ l2) mem mem'.
Proof.
  intros Hl Hnd. destruct (Hl l1 cp l2 eq_refl) as (c & Hc & Hn & Hp).
  unfold CALLOUT_HASH_DELETE. rewrite Hc, Hn, Hp. cbv zeta.
  destruct (unlink_next_ok w mem l1 cp l2 Hl) as (mem1 & -> & Hr1 & H1).
  destruct (unlink_prev_ok w mem mem1 l1 cp l2 Hl Hr1 H1) as (mem2 & -> & Hr2 & H2).
  exists mem2. split; [done|]. split; [|done]. by apply (linked_without w mem _ _ cp).
Qed.

(** ** Tables as lists *)

#[global] Instance chain_eq_dec : EqDecision chain.
Proof. solve_decision. Defined.

(** What the pointers of a table stand for: the chains of every bucket and
    the free list. *)
Record view := View {
  v_chain : chain → nat → list nat;
  v_free : list nat
}.

Definition set_chain_at (v : view) (w : chain) (i : nat) (l : list nat) : view :=
  View (λ w' i', if decide (w' = w ∧ i' = i) then l else v_chain v w' i') (v_free v).

Definition NBUCKET : nat := 512.

(** The table represents [v]; [out w] is a cell that is in use but not, or
    not yet, on its chain [w]. *)
Record rep (out : chain → option nat) (ct : callout_table) (v : view) : Prop := {
  r_len w : length (ct_hash w ct) = NBUCKET;
  r_head w i : (i < NBUCKET)%nat → ct_hash w ct !! i = Some (head (v_chain v w i));
  r_linked w i : linked w (ct_mem ct) (v_chain v w i);
  r_nodup w i : NoDup (v_chain v w i);
  r_in w i p : p ∈ v_chain v w i ↔
    ∃ c, ct_mem ct !! p = Some c ∧ (p ∉ v_free v) ∧ bucket w (c_xid c) (c_runtime c) = i ∧ out w ≠ Some p;
  r_fhead : ct_freelist ct = head (v_free v);
  r_flinked l1 p l2 : v_free v = l1 ++ p :: l2 → ∃ c, ct_mem ct !! p = Some c ∧ c_idnext c = head l2;
  r_fnodup : NoDup (v_free v)
}.

Definition set_out (out : chain → option nat) (w : chain) (x : option nat) : chain → option nat :=
  λ w', if decide (w' = w) then x else out w'.

Lemma callout_hash_lt x : (CALLOUT_HASH x < NBUCKET)%nat.
Proof.
  unfold CALLOUT_HASH, CALLOUT_BUCKET_MASK, CALLOUT_BUCKETS, NBUCKET. change (512 - 1) with (Z.ones 9).
  rewrite Z.land_ones by lia. pose proof (Z.mod_pos_bound x (2 ^ 9)). lia.
Qed.

Lemma bucket_lt w id runtime : (bucket w id runtime < NBUCKET)%nat.
Proof. destruct w; apply callout_hash_lt. Qed.

(** The rest of the table is as before. *)
Definition same_table (ct ct' : callout_table) : Prop :=
  ct_freelist ct' = ct_freelist ct ∧ ct_curtime ct' = ct_curtime ct ∧ ct_runtime ct' = ct_runtime ct ∧
  ct_short_id ct' = ct_short_id ct ∧ ct_long_id ct' = ct_long_id ct ∧
  ∀ q, option_Forall2 same_data (ct_mem ct !! q) (ct_mem ct' !! q).

Lemma same_data_trans c1 c2 c3 : same_data c1 c2 → same_data c2 c3 → same_data c1 c3.
Proof. unfold same_data. intros (? & ? & ? & ? & ?) (? & ? & ? & ? & ?). split_and!; congruence. Qed.

Lemma same_data_refl c : same_data c c.
Proof. by unfold same_data. Qed.

Lemma same_table_trans ct1 ct2 ct3 : same_table ct1 ct2 → same_table ct2 ct3 → same_table ct1 ct3.
Proof.
  intros (A1 & A2 & A3 & A4 & A5 & A6) (B1 & B2 & B3 & B4 & B5 & B6). unfold same_table.
  split; [congruence|]. split; [congruence|]. split; [congruence|]. split; [congruence|]. split; [congruence|].
  intros q. specialize (A6 q). specialize (B6 q).
  destruct A6 as [c1 c2 H|]; inversion B6; subst; constructor. by eapply same_data_trans.
Qed.

Lemma same_table_lookup ct ct' q c :
  same_table ct ct' → ct_mem ct !! q = Some c → ∃ c', ct_mem ct' !! q = Some c' ∧ same_data c c'.
Proof. intros (_ & _ & _ & _ & _ & H) Hc. specialize (H q). rewrite Hc in H. inversion H; subst. eauto. Qed.

Lemma same_table_lookup_inv ct ct' q c' :
  same_table ct ct' → ct_mem ct' !! q = Some c' → ∃ c, ct_mem ct !! q = Some c ∧ same_data c c'.
Proof. intros (_ & _ & _ & _ & _ & H) Hc. specialize (H q). rewrite Hc in H. inversion H; subst. eauto. Qed.

Lemma relinked_same_data w l mem mem' q : relinked w l mem mem' → option_Forall2 same_data (mem !! q) (mem' !! q).
Proof. intros Hr. destruct (Hr q) as [_ H]. destruct H as [c c' [Hs _]|]; by constructor. Qed.

Lemma ct_mem_set_hash w ct h : ct_mem (set_hash w ct h) = ct_mem ct.
Proof. by destruct w. Qed.

Lemma ct_hash_set_hash w w' ct h : ct_hash w' (set_hash w ct h) = if decide (w' = w) then h else ct_hash w' ct.
Proof. by destruct w, w'. Qed.

(** Relinking one bucket: the new list [l'] of bucket [b] of the chain [w],
    made of the old one [l] without or with the cell [cp]. *)
Lemma rep_relink out ct v w b l l' x mem' :
  rep out ct v → (b < NBUCKET)%nat → v_chain v w b = l →
  linked w mem' l' → NoDup l' → (∀ p, p ∈ l' → p ∈ l ∨ (out w = Some p ∧ (p ∉ v_free v))) →
  relinked w (l ++ l') (ct_mem ct) mem' →
  (∀ p, p ∈ l' ↔ ∃ c, ct_mem ct !! p = Some c ∧ (p ∉ v_free v) ∧ bucket w (c_xid c) (c_runtime c) = b ∧ x ≠ Some p) →
  (∀ p c, ct_mem ct !! p = Some c → bucket w (c_xid c) (c_runtime c) ≠ b → p ∉ v_free v → (out w ≠ Some p ↔ x ≠ Some p)) →
  rep (set_out out w x) (set_hash w (set_mem ct mem') (<[b := head l']> (ct_hash w ct))) (set_chain_at v w b l').
Proof.
  intros Hr Hb El Hl' Hnd Hsub Hrel Hin Hout. pose proof Hr as [R1 R2 R3 R4 R5 R6 R7 R8].
  assert (∀ p, p ∈ l → p ∉ v_free v) as Hfree by (intros p; rewrite <- El, R5; naive_solver).
  assert (∀ p, p ∈ v_free v → mem' !! p = ct_mem ct !! p) as Hfmem.
  { intros p Hp. apply Hrel. rewrite elem_of_app. intros [?|[?|[_ ?]]%Hsub]; [by apply (Hfree p)|by apply (Hfree p)|done]. }
  split; cbn [set_chain_at v_chain v_free].
  - intros w'. rewrite ct_hash_set_hash. destruct (decide (w' = w)) as [->|]; [by rewrite length_insert|rewrite <- (R1 w'); by destruct w, w'].
  - intros w' i Hi. rewrite ct_hash_set_hash. destruct (decide (w' = w)) as [->|Hw].
    + destruct (decide (i = b)) as [->|].
      * rewrite decide_True by done. apply list_lookup_insert_eq. by rewrite R1.
      * rewrite decide_False, list_lookup_insert_ne by naive_solver. by apply R2.
    + rewrite decide_False by naive_solver. rewrite <- R2 by done. by destruct w, w'.
  - intros w' i. rewrite ct_mem_set_hash. cbn [ct_mem set_mem]. destruct (decide (w' = w ∧ i = b)) as [[-> ->]|Hne]; [done|].
    destruct (decide (w' = w)) as [->|Hw].
    + apply (linked_relinked w (l ++ l') (ct_mem ct)); [apply R3|done|].
      intros p Hp. rewrite elem_of_app. apply R5 in Hp as (c & Hc & Hf & Hbk & Ho).
      intros [Hp|Hp]; [rewrite <- El in Hp; apply R5 in Hp as (c2 & ? & _ & ? & _); naive_solver congruence|].
      apply Hin in Hp as (c2 & ? & _ & ? & _). naive_solver congruence.
    + assert (w' = other w) as -> by (by destruct w, w'). eapply linked_relinked_other; [apply R3|done].
  - intros w' i. by destruct (decide (w' = w ∧ i = b)) as [[-> ->]|]; [|apply R4].
  - intros w' i p. rewrite ct_mem_set_hash. cbn [ct_mem set_mem].
    assert (∀ P : Z → Z → Prop, (∃ c, ct_mem ct !! p = Some c ∧ P (c_xid c) (c_runtime c)) ↔
                                (∃ c, mem' !! p = Some c ∧ P (c_xid c) (c_runtime c))) as Hex.
    { intros P. pose proof (relinked_same_data w _ _ _ p Hrel) as Hsd.
      destruct Hsd as [c c' (E1 & E2 & _)|]; [|naive_solver]. split; intros (c0 & [= <-] & HP); eexists; (split; [done|]); congruence. }
    rewrite <- (Hex (λ xi ru, (p ∉ v_free v) ∧ bucket w' xi ru = i ∧ set_out out w x w' ≠ Some p)). unfold set_out.
    destruct (decide (w' = w ∧ i = b)) as [[-> ->]|Hne]; [rewrite decide_True by done; apply Hin|].
    rewrite R5. destruct (decide (w' = w)) as [->|]; [|done].
    split; intros (c & Hc & Hf & Hbk & Ho); exists c; (split; [done|]); (split; [done|]); (split; [done|]);
      apply (Hout p c Hc); try done; intros ?; apply Hne; split; congruence.
  - by destruct w.
  - intros l1 p l2 E. rewrite ct_mem_set_hash. cbn [ct_mem set_mem].
    destruct (R7 l1 p l2 E) as (c & Hc & Hn). exists c. rewrite Hfmem; [done|]. rewrite E. set_solver.
  - done.
Qed.

Lemma insert_half out ct v w cp c :
  rep out ct v → out w = Some cp → ct_mem ct !! cp = Some c → cp ∉ v_free v →
  ∀ b, b = bucket w (c_xid c) (c_runtime c) →
  ∃ ct', hash_update CALLOUT_HASH_INSERT w ct cp (c_xid c) (c_runtime c) = Some ct' ∧
    rep (set_out out w None) ct' (set_chain_at v w b (cp :: v_chain v w b)) ∧ same_table ct ct'.
Proof.
  intros Hr Ho Hc Hf b Eb. pose proof Hr as [R1 R2 R3 R4 R5 R6 R7 R8]. pose proof (bucket_lt w (c_xid c) (c_runtime c)) as Hb.
  rewrite <- Eb in Hb. assert (cp ∉ v_chain v w b) as Hcp by (rewrite R5; naive_solver).
  destruct (hash_insert_ok w (ct_mem ct) (v_chain v w b) cp c) as (mem' & Hi & Hl & Hrel); [apply R3|done|done|].
  unfold hash_update. rewrite <- Eb. change (rd (ct_hash w ct) b) with (ct_hash w ct !! b).
  rewrite R2 by done. cbv iota beta. rewrite Hi, wr_lt by (by rewrite R1).
  eexists. split; [done|]. split.
  - apply (rep_relink out ct v w b (v_chain v w b) (cp :: v_chain v w b) None); try done.
    + by constructor.
    + intros p [->|?]%elem_of_cons; [by right|by left].
    + intros q. destruct (Hrel q) as [H1 H2]. split; [|done]. intros Hq. apply H1. set_solver.
    + intros p. rewrite elem_of_cons, R5. split.
      * intros [->|(c' & ? & ? & ? & _)]; [by exists c|by exists c'].
      * intros (c' & Hc' & ? & ? & _). destruct (decide (p = cp)) as [->|]; [by left|right].
        exists c'. split_and!; [done|done|done|congruence].
    + intros p c' Hc' Hb' _. split; [done|]. intros _ ?. assert (p = cp) as -> by congruence. congruence.
  - split_and!; try (by destruct w). intros q. rewrite ct_mem_set_hash. by eapply relinked_same_data.
Qed.

Lemma delete_half out ct v w cp c :
  rep out ct v → out w = None → ct_mem ct !! cp = Some c → cp ∉ v_free v →
  ∀ b, b = bucket w (c_xid c) (c_runtime c) →
  ∃ ct' l1 l2, v_chain v w b = l1 ++ cp :: l2 ∧
    hash_update CALLOUT_HASH_DELETE w ct cp (c_xid c) (c_runtime c) = Some ct' ∧
    rep (set_out out w (Some cp)) ct' (set_chain_at v w b (l1 ++ l2)) ∧ same_table ct ct' ∧
    ct_mem ct' !! cp = Some c.
Proof.
  intros Hr Ho Hc Hf b Eb. pose proof Hr as [R1 R2 R3 R4 R5 R6 R7 R8]. pose proof (bucket_lt w (c_xid c) (c_runtime c)) as Hb.
  rewrite <- Eb in Hb. assert (cp ∈ v_chain v w b) as Hcp by (rewrite R5; exists c; rewrite Ho; done).
  apply list_elem_of_split in Hcp as (l1 & l2 & El).
  pose proof (R4 w b) as Hnd. rewrite El in Hnd. pose proof (R3 w b) as Hl. rewrite El in Hl.
  destruct (hash_delete_ok w (ct_mem ct) l1 cp l2 Hl Hnd) as (mem' & Hi & Hl' & Hrel).
  assert (cp ∉ l1 ++ l2) as Hcp by (rewrite NoDup_app, NoDup_cons in Hnd; set_solver).
  unfold hash_update. rewrite <- Eb. change (rd (ct_hash w ct) b) with (ct_hash w ct !! b).
  rewrite R2 by done. cbv iota beta. rewrite El, Hi, wr_lt by (by rewrite R1).
  eexists _, l1, l2. split; [done|]. split; [done|]. split; [|split].
  - apply (rep_relink out ct v w b (l1 ++ cp :: l2) (l1 ++ l2) (Some cp)); try done.
    + rewrite NoDup_app, NoDup_cons in Hnd. rewrite NoDup_app. set_solver.
    + intros p Hp. left. set_solver.
    + intros q. destruct (Hrel q) as [H1 H2]. split; [|done]. intros Hq. apply H1. set_solver.
    + intros p. transitivity (p ∈ l1 ++ cp :: l2 ∧ p ≠ cp); [set_solver|]. rewrite <- El, R5, Ho. naive_solver congruence.
    + intros p c' Hc' Hb' _. rewrite Ho. split; [|done]. intros _ [= <-]. congruence.
  - split_and!; try (by destruct w). intros q. rewrite ct_mem_set_hash. by eapply relinked_same_data.
  - rewrite ct_mem_set_hash. cbn [set_mem ct_mem]. by rewrite (proj1 (Hrel cp)).
Qed.

(** ** The building blocks of the operations *)

Abbreviation out_none := (λ _ : chain, None : option nat).
Abbreviation out_cell p := (λ _ : chain, Some (p : nat)).

Lemma rep_ext out out' ct v : (∀ w, out w = out' w) → rep out ct v → rep out' ct v.
Proof. intros E []. split; try done. intros w i p. rewrite <- E. done. Qed.

(** Fields of the table the chains do not depend on. *)
Lemma rep_times out ct v cur run : rep out ct v → rep out (set_times ct cur run) v.
Proof. intros []. split; try done; intros []; done. Qed.
Lemma rep_ids out ct v short long : rep out ct v → rep out (set_ids ct short long) v.
Proof. intros []. split; try done; intros []; done. Qed.

(** Cells of a chain are in use. *)
Lemma rep_chain_free out ct v w i p : rep out ct v → p ∈ v_chain v w i → p ∉ v_free v.
Proof. intros Hr Hp. apply (r_in _ _ _ Hr) in Hp. naive_solver. Qed.

(** Changing a cell so that its links and its buckets stay the same, or a
    cell that is on no chain. *)
Lemma rep_set_cell out ct v cp c c' :
  rep out ct v → ct_mem ct !! cp = Some c →
  (∀ w, out w = Some cp ∨ cp ∈ v_free v ∨
        (cnext w c' = cnext w c ∧ cprev w c' = cprev w c ∧ bucket w (c_xid c') (c_runtime c') = bucket w (c_xid c) (c_runtime c))) →
  (cp ∈ v_free v → c_idnext c' = c_idnext c) →
  rep out (set_mem ct (<[cp := c']> (ct_mem ct))) v.
Proof.
  intros Hr Hc Hw Hf. pose proof Hr as [R1 R2 R3 R4 R5 R6 R7 R8]. split; cbn [set_mem ct_mem ct_freelist]; try done.
  - intros w i. apply (linked_frame w (ct_mem ct)); [apply R3|]. intros p cx Hp Hcx.
    destruct (decide (p = cp)) as [->|]; [|exists cx; by rewrite lookup_insert_ne].
    exists c'. rewrite lookup_insert_eq. split; [done|]. assert (cx = c) as -> by congruence.
    apply R5 in Hp as (c2 & ? & ? & ? & ?). destruct (Hw w) as [?|[?|(? & ? & _)]]; done.
  - intros w i p. rewrite R5. destruct (decide (p = cp)) as [->|]; [|by rewrite lookup_insert_ne].
    rewrite lookup_insert_eq. destruct (Hw w) as [?|[?|(_ & _ & Hb)]]; [naive_solver|naive_solver|].
    split; intros (c2 & Hc2 & ? & ? & ?); [exists c'|exists c]; (split; [done|]); (split; [done|]); (split; [|done]); congruence.
  - intros l1 p l2 E. destruct (R7 l1 p l2 E) as (cx & Hcx & Hn). destruct (decide (p = cp)) as [->|].
    + rewrite lookup_insert_eq. exists c'. split; [done|]. rewrite Hf; [congruence|]. rewrite E. set_solver.
    + rewrite lookup_insert_ne by done. by exists cx.
Qed.

Lemma update_insert ct v cp c :
  rep (out_cell cp) ct v → ct_mem ct !! cp = Some c → cp ∉ v_free v →
  ∃ ct' v', CALLOUT_HASH_UPDATE CALLOUT_HASH_INSERT ct cp (c_xid c) (c_runtime c) = Some ct' ∧
    rep out_none ct' v' ∧ v_free v' = v_free v ∧ same_table ct ct' ∧
    ∀ w i, v_chain v' w i = if decide (i = bucket w (c_xid c) (c_runtime c)) then cp :: v_chain v w i else v_chain v w i.
Proof.
  intros Hr Hc Hf. unfold CALLOUT_HASH_UPDATE.
  destruct (insert_half _ ct v ID cp c Hr eq_refl Hc Hf _ eq_refl) as (ct1 & -> & Hr1 & Hs1).
  destruct (same_table_lookup _ _ _ _ Hs1 Hc) as (c1 & Hc1 & (Ex & Er & _)).
  destruct (insert_half _ ct1 _ LB cp c1 Hr1 eq_refl Hc1 Hf _ eq_refl) as (ct2 & Hu & Hr2 & Hs2). rewrite Ex, Er in *.
  rewrite Hu. eexists _, _. split; [done|]. split; [by eapply rep_ext; [|exact Hr2]; intros []|].
  split; [done|]. split; [by eapply same_table_trans|].
  intros [] i; cbn [set_chain_at v_chain]; repeat case_decide; naive_solver.
Qed.

Lemma update_delete ct v cp c :
  rep out_none ct v → ct_mem ct !! cp = Some c → cp ∉ v_free v →
  ∃ ct' v', CALLOUT_HASH_UPDATE CALLOUT_HASH_DELETE ct cp (c_xid c) (c_runtime c) = Some ct' ∧
    rep (out_cell cp) ct' v' ∧ v_free v' = v_free v ∧ same_table ct ct' ∧ ct_mem ct' !! cp = Some c ∧
    ∀ w i, if decide (i = bucket w (c_xid c) (c_runtime c))
           then ∃ l1 l2, v_chain v w i = l1 ++ cp :: l2 ∧ v_chain v' w i = l1 ++ l2
           else v_chain v' w i = v_chain v w i.
Proof.
  intros Hr Hc Hf. unfold CALLOUT_HASH_UPDATE.
  destruct (delete_half _ ct v ID cp c Hr eq_refl Hc Hf _ eq_refl) as (ct1 & k1 & k2 & Ek & -> & Hr1 & Hs1 & Hc1).
  destruct (delete_half _ ct1 _ LB cp c Hr1 eq_refl Hc1 Hf _ eq_refl) as (ct2 & l1 & l2 & El & Hu & Hr2 & Hs2 & Hc2).
  rewrite Hu. eexists _, _. split; [done|]. split; [by eapply rep_ext; [|exact Hr2]; intros []|].
  split; [done|]. split; [by eapply same_table_trans|]. split; [done|].
  cbn [set_chain_at v_chain] in *. rewrite decide_False in El by naive_solver.
  intros [] i; cbn [set_chain_at v_chain].
  - case_decide as Hi; [|rewrite !decide_False by naive_solver; done]. subst i.
    exists k1, k2. split; [done|]. by rewrite decide_False, decide_True by naive_solver.
  - case_decide as Hi; [|rewrite !decide_False by naive_solver; done]. subst i.
    exists l1, l2. split; [done|]. by rewrite decide_True by naive_solver.
Qed.

Lemma put_callout_ok ct v cp c :
  rep (out_cell cp) ct v → ct_mem ct !! cp = Some c → cp ∉ v_free v →
  put_callout ct cp = Some (set_freelist (set_mem ct (<[cp := set_cnext ID c (ct_freelist ct)]> (ct_mem ct))) (Some cp)) ∧
  rep out_none (set_freelist (set_mem ct (<[cp := set_cnext ID c (ct_freelist ct)]> (ct_mem ct))) (Some cp))
    (View (v_chain v) (cp :: v_free v)).
Proof.
  intros Hr Hc Hf. unfold put_callout. rewrite Hc. split; [done|].
  pose proof (rep_set_cell (out_cell cp) ct v cp c (set_cnext ID c (ct_freelist ct)) Hr Hc
    ltac:(by left) ltac:(done)) as [R1 R2 R3 R4 R5 R6 R7 R8].
  split; cbn [v_chain v_free]; try done.
  - intros w i p. rewrite R5. setoid_rewrite not_elem_of_cons. cbn [set_freelist set_mem ct_mem]. naive_solver congruence.
  - intros [|x l1] p l2 E; cbn in E; injection E as -> E.
    + exists (set_cnext ID c (ct_freelist ct)). cbn [set_freelist set_mem ct_mem]. rewrite lookup_insert_eq. split; [done|].
      cbn. rewrite (r_fhead _ _ _ Hr). by rewrite E.
    + by apply (R7 l1).
  - by constructor.
Qed.

(** A cell that is ready to be put on the chains. *)
Definition taken (ct : callout_table) (v : view) (ct' : callout_table) (cp : nat) (v' : view) (c : callout) : Prop :=
  rep (out_cell cp) ct' v' ∧ ct_mem ct' !! cp = Some c ∧ (cp ∉ v_free v') ∧ v_chain v' = v_chain v ∧
  (∀ q, q ≠ cp → ct_mem ct' !! q = ct_mem ct !! q ∧ (q ∈ v_free v' ↔ q ∈ v_free v)) ∧
  (cp ∈ v_free v ∨ ct_mem ct !! cp = None) ∧
  ct_curtime ct' = ct_curtime ct ∧ ct_runtime ct' = ct_runtime ct ∧
  ct_short_id ct' = ct_short_id ct ∧ ct_long_id ct' = ct_long_id ct.

Lemma callout_alloc_ok ct v fresh :
  rep out_none ct v → ct_mem ct !! fresh = None → taken ct v (callout_alloc ct fresh).1 fresh v zero_callout.
Proof.
  intros Hr Hfresh. pose proof Hr as [R1 R2 R3 R4 R5 R6 R7 R8].
  assert (∀ w i, fresh ∉ v_chain v w i) as Hno by (intros w i (c & ? & _)%R5; congruence).
  assert (fresh ∉ v_free v) as Hnf.
  { intros (l1 & l2 & E)%list_elem_of_split. destruct (R7 l1 fresh l2 E) as (c & ? & _). congruence. }
  split; [|split_and!; try done].
  - split; cbn [callout_alloc fst set_mem ct_mem]; try done.
    + intros w i. apply (linked_frame w (ct_mem ct)); [apply R3|]. intros p c Hp Hc. exists c.
      rewrite lookup_insert_ne by congruence. done.
    + intros w i p. rewrite R5. destruct (decide (p = fresh)) as [->|Hne].
      * rewrite lookup_insert_eq. naive_solver congruence.
      * rewrite lookup_insert_ne by done. naive_solver congruence.
    + intros l1 p l2 E. destruct (R7 l1 p l2 E) as (c & Hc & Hn). exists c. rewrite lookup_insert_ne; [done|].
      intros <-. congruence.
  - cbn. apply lookup_insert_eq.
  - intros q Hq. split; [by cbn; rewrite lookup_insert_ne|done].
  - by right.
Qed.

Lemma take_callout_ok ct v fresh (dropped : bool) :
  rep out_none ct v → ct_mem ct !! fresh = None →
  ∃ ct' cp v' c, (if dropped then Some (callout_alloc ct fresh) else take_callout ct fresh) = Some (ct', cp) ∧ taken ct v ct' cp v' c.
Proof.
  intros Hr Hfresh. pose proof (callout_alloc_ok ct v fresh Hr Hfresh) as Halloc.
  destruct dropped; [by exists (callout_alloc ct fresh).1, fresh, v, zero_callout|].
  pose proof Hr as [R1 R2 R3 R4 R5 R6 R7 R8]. unfold take_callout. rewrite R6.
  destruct (v_free v) as [|cp free] eqn:Ef; cbn [head]; [by exists (callout_alloc ct fresh).1, fresh, v, zero_callout|].
  destruct (R7 [] cp free eq_refl) as (c & Hc & Hn). rewrite Hc. apply NoDup_cons in R8 as [Hcp R8].
  eexists _, cp, (View (v_chain v) free), c. split; [done|]. split; [|split_and!; try done].
  - split; cbn [set_freelist ct_mem v_chain v_free]; try done.
    + intros w i p. rewrite R5. setoid_rewrite not_elem_of_cons. naive_solver congruence.
    + intros l1 p l2 E. by apply (R7 (cp :: l1)); rewrite E.
  - intros q Hq. split; [done|]. cbn. rewrite Ef. set_solver.
  - left. rewrite Ef. set_solver.
Qed.
