(* ===== verification/CalloutSched.v ===== *)
(** * Running callouts (uts/common/os/callout.c)

    The life of the callouts of one table, with the clock, any number of
    threads that run [callout_execute], and callers of [timeout] and
    [untimeout].  Every operation runs under the lock of the table, which
    [callout_execute] drops while it calls a callout: the operations
    interleave there.  It is shown that no operation follows a bad pointer,
    that no callout is called before its time, missed, or called twice, and
    what [untimeout] guarantees.  The times are the machine's: they wrap
    around. *)

From Stdlib Require Import ZArith Lia.
From stdpp Require Import base numbers option list gmap.
From S2P Require Import Prelude Callout.

#[local] Open Scope Z_scope.

Section sched.
Context (lp64 : bool).

#[local] Abbreviation W := (LONG_BIT lp64).
#[local] Abbreviation M := (2 ^ (LONG_BIT lp64 - 1)).

Lemma W_range : 32 <= W <= 64.
Proof. unfold LONG_BIT. destruct lp64; lia. Qed.

Lemma M_pos : 2 ^ 31 <= M.
Proof. apply Z.pow_le_mono_r; pose proof W_range; lia. Qed.

Lemma M_double : 2 ^ W = 2 * M.
Proof. rewrite <- Z.pow_succ_r by (pose proof W_range; lia). f_equal. lia. Qed.

(** ** Times *)

Definition in_clock (x : Z) : Prop := - M <= x < M.

(** How much later [a] is than [b]. *)
Definition dist (a b : Z) : Z := clock_t lp64 (a - b).

Lemma clock_range x : in_clock (clock_t lp64 x).
Proof. apply wraps_range. pose proof W_range. lia. Qed.

Lemma clock_id x : in_clock x → clock_t lp64 x = x.
Proof. intros Hx. apply wraps_id; [pose proof W_range; lia|done]. Qed.

Lemma dist_range a b : in_clock (dist a b).
Proof. apply clock_range. Qed.

Lemma dist_later a b k : in_clock (dist a b + k) → dist (clock_t lp64 (a + k)) b = dist a b + k.
Proof.
  intros H. unfold dist, clock_t in *. pose proof W_range. rewrite wraps_wraps_sub_l by lia.
  replace (a + k - b) with (a - b + k) by lia. rewrite <- wraps_wraps_add by lia. exact (clock_id _ H).
Qed.

Lemma dist_earlier a b k : in_clock (dist a b - k) → dist a (clock_t lp64 (b + k)) = dist a b - k.
Proof.
  intros H. unfold dist, clock_t in *. pose proof W_range. rewrite wraps_wraps_sub_r by lia.
  replace (a - (b + k)) with (a - b + - k) by lia. rewrite <- wraps_wraps_add by lia. exact (clock_id _ H).
Qed.

Lemma dist_via a b c : in_clock (dist a b - dist a c) → dist c b = dist a b - dist a c.
Proof.
  intros H. unfold dist, clock_t in *. pose proof W_range. etransitivity; [|exact (clock_id _ H)]. unfold clock_t.
  rewrite wraps_wraps_sub_l, wraps_wraps_sub_r by lia. f_equal. lia.
Qed.

Lemma dist_split a b c : in_clock (dist a b - dist c b) → dist a c = dist a b - dist c b.
Proof.
  intros H. unfold dist, clock_t in *. pose proof W_range. etransitivity; [|exact (clock_id _ H)]. unfold clock_t.
  rewrite wraps_wraps_sub_l, wraps_wraps_sub_r by lia. f_equal. lia.
Qed.

Lemma dist_0 a b : in_clock a → in_clock b → dist a b = 0 → a = b.
Proof.
  intros Ha Hb H. unfold dist, clock_t in H. pose proof W_range as HW. pose proof M_double.
  apply (mod_eq_close (2 ^ W)); [pose proof M_pos; lia| |unfold in_clock in *; lia].
  assert ((a - b) `mod` 2 ^ W = 0) as Hm.
  { rewrite <- (wraps_mod W W) by lia. by rewrite H, Z.mod_0_l by (pose proof M_pos; lia). }
  apply Z.mod_divide in Hm as [k Hk]; [|pose proof M_pos; lia].
  replace a with (b + k * 2 ^ W) by lia. by rewrite Z_mod_plus_full.
Qed.

Lemma dist_same a : dist a a = 0.
Proof. unfold dist. rewrite Z.sub_diag. apply clock_id. pose proof M_pos. unfold in_clock. lia. Qed.

(** ** IDs *)

Lemma executing_M : CALLOUT_EXECUTING lp64 = M.
Proof. unfold CALLOUT_EXECUTING. rewrite Z.shiftl_mul_pow2 by (pose proof W_range; lia). lia. Qed.

Lemma high_pow : CALLOUT_COUNTER_HIGH lp64 = 2 ^ (W - 3).
Proof. unfold CALLOUT_COUNTER_HIGH. rewrite Z.shiftl_mul_pow2 by (pose proof W_range; lia). lia. Qed.

(** A callout that is being called. *)
Definition executing (c : callout) : bool := M <=? c_xid c.

(** Its ID as [timeout] returned it. *)
Definition base_id (c : callout) : Z := if executing c then c_xid c - M else c_xid c.

Lemma lor_executing x : 0 <= x < M → Z.lor x (CALLOUT_EXECUTING lp64) = x + M.
Proof.
  intros Hx. rewrite executing_M, Z.lor_comm.
  pose proof (lor_shiftl_add 1 x (W - 1) ltac:(pose proof W_range; lia) Hx) as H.
  rewrite Z.shiftl_1_l in H by (pose proof W_range; lia). lia.
Qed.

Lemma land_executing x : 0 <= x < 2 * M → (Z.land x (CALLOUT_EXECUTING lp64) =? 0) = negb (M <=? x).
Proof.
  intros Hx. pose proof M_pos. destruct (Z.leb_spec M x) as [Hle|Hlt]; cbn [negb].
  - apply Z.eqb_neq. replace x with (Z.lor (x - M) (CALLOUT_EXECUTING lp64)) by (rewrite lor_executing; lia).
    rewrite Z.land_lor_distr_l, Z.land_diag, executing_M. intros H0. apply Z.lor_eq_0_iff in H0. lia.
  - apply Z.eqb_eq. rewrite executing_M. apply Z.bits_inj'. intros i Hi. rewrite Z.land_spec, Z.bits_0.
    destruct (decide (i = W - 1)) as [->|Hne].
    + destruct (decide (x = 0)) as [->|]; [by rewrite Z.bits_0|].
      rewrite (Z.bits_above_log2 x), andb_false_l; [done|lia|]. apply Z.log2_lt_pow2; lia.
    + rewrite (Z.pow2_bits_false (W - 1) i) by lia. apply andb_false_r.
Qed.

(** The executing bit is not hashed. *)
Lemma idhash_executing x : 0 <= x < M → CALLOUT_IDHASH (x + M) = CALLOUT_IDHASH x.
Proof.
  intros Hx. unfold CALLOUT_IDHASH, CALLOUT_HASH. f_equal.
  unfold CALLOUT_BUCKET_MASK, CALLOUT_BUCKETS. change (512 - 1) with (Z.ones 9). rewrite !Z.land_ones by lia.
  change CALLOUT_COUNTER_SHIFT with 4. rewrite !Z.shiftr_div_pow2 by lia. pose proof W_range.
  assert (M = 2 ^ (W - 14) * 2 ^ 9 * 2 ^ 4) as ->.
  { rewrite <- !Z.pow_add_r by lia. f_equal. lia. }
  rewrite Z.div_add by lia. by rewrite Z.mod_add by lia.
Qed.

(** The IDs [timeout] returns: below the executing bit, with the highest
    counter bit set. *)
Definition id_ok (id : Z) : Prop := 0 <= id < M ∧ Z.testbit id (W - 3) = true.


Lemma lor_lt a b n : 0 <= a < 2 ^ n → 0 <= b < 2 ^ n → 0 <= Z.lor a b < 2 ^ n.
Proof.
  intros Ha Hb. assert (0 <= Z.lor a b) as H0 by (apply Z.lor_nonneg; lia). split; [done|].
  assert (0 <= n) by (destruct (decide (n < 0)); [rewrite Z.pow_neg_r in * by done; lia|lia]).
  destruct (decide (a = 0)) as [->|]; [rewrite Z.lor_0_l; lia|]. destruct (decide (b = 0)) as [->|]; [rewrite Z.lor_0_r; lia|].
  assert (Z.lor a b ≠ 0) by (intros [? ?]%Z.lor_eq_0_iff; lia).
  apply Z.log2_lt_pow2; [lia|]. rewrite Z.log2_lor by lia.
  pose proof (proj1 (Z.log2_lt_pow2 a n ltac:(lia)) ltac:(lia)).
  pose proof (proj1 (Z.log2_lt_pow2 b n ltac:(lia)) ltac:(lia)). lia.
Qed.

(** The IDs of a table: its number in the low bits, the long term bit as it
    was. *)
Definition id_of (table_id : Z) (long : bool) (id : Z) : Prop :=
  id_ok id ∧ Z.land id CALLOUT_TABLE_MASK = table_id ∧ Z.testbit id (W - 2) = long.

Lemma id_ok_ge id : id_ok id → 2 ^ (W - 3) <= id `mod` 2 ^ (W - 2).
Proof.
  intros [Hid Hb]. pose proof W_range. destruct (Z.le_gt_cases (2 ^ (W - 3)) (id `mod` 2 ^ (W - 2))) as [?|Hlt]; [done|].
  exfalso. pose proof (Z.mod_pos_bound id (2 ^ (W - 2)) ltac:(lia)) as Hm.
  assert (Z.testbit (id `mod` 2 ^ (W - 2)) (W - 3) = false) as Hf.
  { destruct (decide (id `mod` 2 ^ (W - 2) = 0)) as [->|]; [by rewrite Z.bits_0|].
    apply Z.bits_above_log2; [lia|]. apply Z.log2_lt_pow2; lia. }
  rewrite Z.mod_pow2_bits_low in Hf by lia. congruence.
Qed.

Lemma next_id_of table_id long id : id_of table_id long id → id_of table_id long (next_id lp64 id).
Proof.
  intros (Hok & Ht & Hl). pose proof (id_ok_ge id Hok) as Hge. pose proof W_range as HW. pose proof M_pos.
  destruct Hok as [Hid Hb]. unfold next_id. change CALLOUT_COUNTER_LOW with 16. rewrite high_pow.
  assert (2 ^ 29 <= 2 ^ (W - 3)) by (apply Z.pow_le_mono_r; lia).
  pose proof (Z.div_mod id (2 ^ (W - 2)) ltac:(lia)) as Hdm. pose proof (Z.mod_pos_bound id (2 ^ (W - 2)) ltac:(lia)).
  assert (0 <= id `div` 2 ^ (W - 2)) by (apply Z.div_pos; lia).
  assert (16 <= id) by nia. unfold ulong_t. rewrite wrapu_id by (rewrite M_double; lia).
  assert (2 ^ (W - 3) < M) by (apply Z.pow_lt_mono_r; lia).
  split; [split|split].
  - apply lor_lt; lia.
  - rewrite Z.lor_spec, (Z.pow2_bits_true (W - 3)) by lia. apply orb_true_r.
  - rewrite Z.land_lor_distr_l. change CALLOUT_TABLE_MASK with (Z.ones 4) in *. rewrite !Z.land_ones in * by lia.
    assert (2 ^ (W - 3) `mod` 2 ^ 4 = 0) as ->.
    { replace (W - 3) with (W - 7 + 4) by lia. rewrite Z.pow_add_r by lia. apply Z.mod_mul. lia. }
    rewrite Z.lor_0_r, <- Ht. change 16 with (1 * 2 ^ 4). by rewrite <- Z.add_opp_r, <- Z.mul_opp_l, Z.mod_add by lia.
  - rewrite Z.lor_spec, (Z.pow2_bits_false (W - 3)), orb_false_r by lia. rewrite <- Hl.
    assert ((id - 16) `div` 2 ^ (W - 2) = id `div` 2 ^ (W - 2)) as Hd.
    { symmetry. apply Z.div_unique with (id `mod` 2 ^ (W - 2) - 16); [left; lia|lia]. }
    rewrite <- (Z.add_0_l (W - 2)), <- !Z.div_pow2_bits by lia. by rewrite Hd.
Qed.

(** ** The system *)

(** A table, the clock, and for each thread in [callout_execute] the callout
    it is calling and its local [runtime]. *)
Record sys := Sys {
  s_ct : callout_table;
  s_lbolt : Z;
  s_run : gmap Z (nat * Z)
}.

(** A cell that holds a callout. *)
Definition in_use (ct : callout_table) (v : view) (p : nat) (c : callout) : Prop :=
  ct_mem ct !! p = Some c ∧ p ∉ v_free v.

Record inv (table_id : Z) (s : sys) (v : view) : Prop := {
  i_rep : rep out_none (s_ct s) v;
  i_clock : in_clock (s_lbolt s) ∧ in_clock (ct_curtime (s_ct s)) ∧ in_clock (ct_runtime (s_ct s));
  i_cur : 0 <= dist (s_lbolt s) (ct_curtime (s_ct s)) <= dist (s_lbolt s) (ct_runtime (s_ct s)) + 1;
  i_use p c : in_use (s_ct s) v p c →
    in_clock (c_runtime c) ∧ id_ok (base_id c) ∧
    if executing c then s_run s !! c_executor c = Some (p, c_runtime c)
    else 0 <= c_xid c ∧ 0 <= dist (c_runtime c) (ct_runtime (s_ct s));
  i_run t p r : s_run s !! t = Some (p, r) → ∃ c, in_use (s_ct s) v p c ∧ executing c = true ∧
    c_executor c = t ∧ c_runtime c = r ∧ dist (s_lbolt s) (ct_curtime (s_ct s)) <= dist (s_lbolt s) r ∧
    ∀ l1 l2, v_chain v LB (CALLOUT_LBHASH r) = l1 ++ p :: l2 →
      ∀ q cq, q ∈ l1 → ct_mem (s_ct s) !! q = Some cq → c_runtime cq = r → executing cq = true;
  i_uniq p q c c' : in_use (s_ct s) v p c → in_use (s_ct s) v q c' → base_id c = base_id c' → p = q;
  i_ids : id_of table_id false (ct_short_id (s_ct s)) ∧ id_of table_id true (ct_long_id (s_ct s))
}.

(** Chains are no longer than the memory. *)
Lemma chain_length out ct v w i : rep out ct v → (length (v_chain v w i) <= size (ct_mem ct))%nat.
Proof.
  intros Hr. pose proof (r_nodup _ _ _ Hr w i) as Hnd. rewrite <- size_dom.
  rewrite <- (size_list_to_set (C := gset nat) (v_chain v w i)) by done.
  apply subseteq_size. intros p Hp%elem_of_list_to_set. apply elem_of_dom.
  apply (r_in _ _ _ Hr) in Hp as (c & Hc & _). by exists c.
Qed.

(** The pointer to the rest of a chain, and the cell there. *)
Lemma ct_chain_cell out ct v w i l1 p l2 :
  rep out ct v → v_chain v w i = l1 ++ p :: l2 →
  ∃ c, in_use ct v p c ∧ cnext w c = head l2 ∧ bucket w (c_xid c) (c_runtime c) = i.
Proof.
  intros Hr E. pose proof (r_linked _ _ _ Hr w i) as Hl. rewrite E in Hl.
  destruct (Hl l1 p l2 eq_refl) as (c & Hc & Hn & _). exists c.
  assert (p ∈ v_chain v w i) as Hp by (rewrite E; set_solver).
  apply (r_in _ _ _ Hr) in Hp as (c' & Hc' & Hf & Hb & _). assert (c' = c) as -> by congruence. done.
Qed.

Lemma hash_head out ct v w id runtime :
  rep out ct v → rd (ct_hash w ct) (bucket w id runtime) = Some (head (v_chain v w (bucket w id runtime))).
Proof. intros Hr. apply (r_head _ _ _ Hr). apply bucket_lt. Qed.

(** ** Changes of the table *)

Lemma same_data_executing c c' : same_data c c' → executing c' = executing c ∧ base_id c' = base_id c.
Proof. intros (E & _). unfold base_id, executing. by rewrite E. Qed.

(** The whole removal of a callout from its chains to the free list. *)
Lemma free_ok ct v cp c :
  rep out_none ct v → in_use ct v cp c →
  ∃ ct1 ct' v', CALLOUT_HASH_UPDATE CALLOUT_HASH_DELETE ct cp (c_xid c) (c_runtime c) = Some ct1 ∧
    put_callout ct1 cp = Some ct' ∧ rep out_none ct' v' ∧ v_free v' = cp :: v_free v ∧
    (∀ q, option_Forall2 same_data (ct_mem ct !! q) (ct_mem ct' !! q)) ∧
    (∃ c', ct_mem ct' !! cp = Some c' ∧ c_lbnext c' = c_lbnext c) ∧
    (ct_curtime ct' = ct_curtime ct ∧ ct_runtime ct' = ct_runtime ct ∧
     ct_short_id ct' = ct_short_id ct ∧ ct_long_id ct' = ct_long_id ct) ∧
    ∀ w i, if decide (i = bucket w (c_xid c) (c_runtime c))
           then ∃ l1 l2, v_chain v w i = l1 ++ cp :: l2 ∧ v_chain v' w i = l1 ++ l2
           else v_chain v' w i = v_chain v w i.
Proof.
  intros Hr [Hc Hf]. destruct (update_delete ct v cp c Hr Hc Hf) as (ct1 & v1 & Hu & Hr1 & Hf1 & Hs1 & Hc1 & Hch).
  assert (cp ∉ v_free v1) as Hf1' by (by rewrite Hf1).
  destruct (put_callout_ok ct1 v1 cp c Hr1 Hc1 Hf1') as [Hp Hr2].
  pose proof Hs1 as (E1 & E2 & E3 & E4 & E5 & Hd).
  eexists ct1, _, _. split; [done|]. split; [done|]. split; [done|]. split; [cbn; by rewrite Hf1|].
  split; [|split; [|split; [done|done]]].
  - intros q. cbn [set_freelist set_mem ct_mem]. destruct (decide (q = cp)) as [->|]; [|by rewrite lookup_insert_ne].
    rewrite lookup_insert_eq, Hc. constructor. by unfold same_data.
  - cbn [set_freelist set_mem ct_mem]. rewrite lookup_insert_eq. eexists. split; [done|]. done.
Qed.

(** Cells of the new memory and of the old one. *)
Lemma data_lookup (m m' : gmap nat callout) q c' :
  option_Forall2 same_data (m !! q) (m' !! q) → m' !! q = Some c' → ∃ c, m !! q = Some c ∧ same_data c c'.
Proof. intros H E. rewrite E in H. inversion H; subst. eauto. Qed.

Lemma inv_free T ct lbolt run run' v ct' v' cp c :
  inv T (Sys ct lbolt run) v → in_use ct v cp c → rep out_none ct' v' → v_free v' = cp :: v_free v →
  (∀ q, option_Forall2 same_data (ct_mem ct !! q) (ct_mem ct' !! q)) →
  (ct_curtime ct' = ct_curtime ct ∧ ct_runtime ct' = ct_runtime ct ∧
   ct_short_id ct' = ct_short_id ct ∧ ct_long_id ct' = ct_long_id ct) →
  (∀ i, if decide (i = bucket LB (c_xid c) (c_runtime c))
        then ∃ l1 l2, v_chain v LB i = l1 ++ cp :: l2 ∧ v_chain v' LB i = l1 ++ l2
        else v_chain v' LB i = v_chain v LB i) →
  (∀ t p r, run' !! t = Some (p, r) ↔ run !! t = Some (p, r) ∧ p ≠ cp) →
  inv T (Sys ct' lbolt run') v'.
Proof.
  intros Hinv Hcp Hr Hf Hd (T1 & T2 & T3 & T4) Hch Hrun. pose proof Hinv as [I1 I2 I3 I4 I5 I6 I7]. cbn [s_ct s_lbolt s_run] in *.
  assert (∀ q c', in_use ct' v' q c' → ∃ c0, in_use ct v q c0 ∧ same_data c0 c' ∧ q ≠ cp) as Huse.
  { intros q c' [Hc' Hfq]. rewrite Hf, not_elem_of_cons in Hfq. destruct Hfq.
    destruct (data_lookup _ _ q c' (Hd q) Hc') as (c0 & Hc0 & Hs). by exists c0. }
  split; cbn [s_ct s_lbolt s_run]; [done|by rewrite T1, T2|by rewrite T1, T2| | | |by rewrite T3, T4].
  - intros p c' Hp. destruct (Huse p c' Hp) as (c0 & Hp0 & Hs & Hne). destruct (same_data_executing _ _ Hs) as [Ee Eb].
    pose proof Hs as (Ex & Er & _ & _ & Eex). rewrite Ee, Eb, Ex, Er, Eex, T2.
    destruct (I4 p c0 Hp0) as (? & ? & H). split; [done|]. split; [done|].
    destruct (executing c0); [|done]. apply Hrun. done.
  - intros t p r Ht. apply Hrun in Ht as [Ht Hne]. destruct (I5 t p r Ht) as (c0 & [Hc0 Hf0] & He & Hx & Hrt & Hdist & Hbef).
    pose proof (Hd p) as Hdp. rewrite Hc0 in Hdp. inversion Hdp as [? c1 Hs Hc0' Hc1|]; subst; clear Hdp.
    exists c1. destruct (same_data_executing _ _ Hs) as [Ee Eb]. pose proof Hs as (Ex & Er & _ & _ & Eex).
    split; [split; [done|rewrite Hf, not_elem_of_cons; done]|]. rewrite Ee, Er, Eex, T1.
    do 4 (split; [done|]). intros k1 k2 Ek q cq' Hq Hcq' Hrq.
    destruct (data_lookup _ _ q cq' (Hd q) Hcq') as (cq & Hcq & Hsq). destruct (same_data_executing _ _ Hsq) as [-> _].
    assert (c_runtime cq = c_runtime c0) as Hrq' by (destruct Hsq as (_ & E & _); congruence).
    specialize (Hch (CALLOUT_LBHASH (c_runtime c0))). case_decide as Hb.
    + destruct Hch as (l1 & l2 & Ev & Ev'). rewrite Ev' in Ek.
      destruct (split_without _ _ _ _ _ Ek) as [(k & -> & ->)|(k & -> & ->)].
      * rewrite <- app_assoc in Ev. cbn in Ev. by apply (Hbef _ _ Ev q).
      * rewrite app_comm_cons, app_assoc in Ev. apply (Hbef _ _ Ev q cq); [set_solver|done|done].
    + rewrite Hch in Ek. by apply (Hbef _ _ Ek q).
  - intros p q c1 c2 Hp Hq E. destruct (Huse p c1 Hp) as (c01 & Hp0 & Hs1 & _). destruct (Huse q c2 Hq) as (c02 & Hq0 & Hs2 & _).
    apply (I6 p q c01 c02 Hp0 Hq0). destruct (same_data_executing _ _ Hs1) as [_ <-]. by destruct (same_data_executing _ _ Hs2) as [_ <-].
Qed.

(** ** untimeout() *)

(** The callout with a given ID, as [untimeout] looks for it. *)
Definition has_id (id : Z) (c : callout) : Prop := base_id c = id.

Lemma xid_cases T s v p c id :
  inv T s v → in_use (s_ct s) v p c → 0 <= id < M →
  (c_xid c = id ↔ has_id id c ∧ executing c = false) ∧
  (c_xid c = Z.lor id (CALLOUT_EXECUTING lp64) ↔ has_id id c ∧ executing c = true).
Proof.
  intros Hinv Hp Hid. destruct (i_use _ _ _ Hinv p c Hp) as (_ & [Hb _] & Hx). rewrite lor_executing by done.
  unfold has_id, base_id, executing in *. destruct (Z.leb_spec M (c_xid c)); (split; split; [intros ?|intros [? ?]|intros ?|intros [? ?]]);
    try split; try done; lia.
Qed.

(** What the search of the chain ends with. *)
Definition untimeout_post (T : Z) (s : sys) (v : view) (id self : Z) (r : callout_table * untimeout_result) : Prop :=
  match r.2 with
  | Removed ticks => ∃ p c v', in_use (s_ct s) v p c ∧ has_id id c ∧ executing c = false ∧
      ticks = Z.max 0 (dist (c_runtime c) (s_lbolt s)) ∧
      inv T (Sys r.1 (s_lbolt s) (s_run s)) v' ∧ v_free v' = p :: v_free v ∧ ct_curtime r.1 = ct_curtime (s_ct s) ∧
      ∀ q, option_Forall2 same_data (ct_mem (s_ct s) !! q) (ct_mem r.1 !! q)
  | Executing_self => r.1 = s_ct s ∧ ∃ p c, in_use (s_ct s) v p c ∧ has_id id c ∧ executing c = true ∧ c_executor c = self
  | Wait_for p xid => r.1 = s_ct s ∧ ∃ c, in_use (s_ct s) v p c ∧ has_id id c ∧ executing c = true ∧
      c_executor c ≠ self ∧ xid = c_xid c
  | Not_found => r.1 = s_ct s ∧ ∀ p c, in_use (s_ct s) v p c → ¬ has_id id c
  | Panic => r.1 = s_ct s ∧ ¬ id_ok id ∧ id ≠ 0 ∧ ∀ p c, in_use (s_ct s) v p c → ¬ has_id id c
  end.

(** The two bits [untimeout] checks of an ID it does not find. *)
Lemma bogus_id id : 0 <= id < M →
  (Z.land id (Z.lor (CALLOUT_COUNTER_HIGH lp64) (CALLOUT_EXECUTING lp64)) =? CALLOUT_COUNTER_HIGH lp64) = Z.testbit id (W - 3).
Proof.
  intros Hid. pose proof W_range. rewrite Z.land_lor_distr_r.
  pose proof (land_executing id ltac:(lia)) as He. rewrite (proj2 (Z.leb_gt M id)) in He by lia. apply Z.eqb_eq in He.
  rewrite He, Z.lor_0_r, high_pow.
  assert (Z.land id (2 ^ (W - 3)) = if Z.testbit id (W - 3) then 2 ^ (W - 3) else 0) as ->.
  { apply Z.bits_inj'. intros i Hi. rewrite Z.land_spec. destruct (decide (i = W - 3)) as [->|Hne].
    - rewrite (Z.pow2_bits_true (W - 3)), andb_true_r by lia.
      destruct (Z.testbit id (W - 3)); [by rewrite Z.pow2_bits_true by lia|by rewrite Z.bits_0].
    - rewrite (Z.pow2_bits_false (W - 3) i), andb_false_r by lia.
      destruct (Z.testbit id (W - 3)); [by rewrite Z.pow2_bits_false by lia|by rewrite Z.bits_0]. }
  destruct (Z.testbit id (W - 3)); [apply Z.eqb_refl|]. apply Z.eqb_neq. pose proof (Z.pow_pos_nonneg 2 (W - 3)). lia.
Qed.

Lemma untimeout_ok T s v id self :
  inv T s v → 0 <= id < M →
  ∃ r, untimeout lp64 id self (s_lbolt s) (s_ct s) = Some r ∧ untimeout_post T s v id self r.
Proof.
  intros Hinv Hid. pose proof (i_rep _ _ _ Hinv) as Hr. unfold untimeout.
  change (rd (ct_idhash (s_ct s)) (CALLOUT_IDHASH id)) with (rd (ct_hash ID (s_ct s)) (bucket ID id 0)).
  rewrite (hash_head _ _ _ _ _ _ Hr). cbv iota.
  apply (run_total_idx _ (λ n cp, ∃ l1 l2, v_chain v ID (CALLOUT_IDHASH id) = l1 ++ l2 ∧ cp = head l2 ∧ n = length l2 ∧
      ∀ q c, q ∈ l1 → in_use (s_ct s) v q c → ¬ has_id id c) _) with (n := length (v_chain v ID (CALLOUT_IDHASH id))).
  2: { exists [], (v_chain v ID (CALLOUT_IDHASH id)). split_and!; [done|done|done|set_solver]. }
  2: { pose proof (chain_length _ _ _ ID (CALLOUT_IDHASH id) Hr). unfold chain_fuel. lia. }
  intros n cp (l1 & l2 & Ech & -> & -> & Hl1). destruct l2 as [|p l2]; cbn [head untimeout_step].
  - (* not found *)
    assert (∀ p c, in_use (s_ct s) v p c → ¬ has_id id c) as Hno.
    { intros p c Hp Hh. apply (Hl1 p c); [|done|done]. rewrite app_nil_r in Ech. rewrite <- Ech.
      apply (r_in _ _ _ Hr). destruct Hp as [Hc Hf]. exists c. split_and!; [done|done| |done].
      cbn [bucket]. destruct (i_use _ _ _ Hinv p c (conj Hc Hf)) as (_ & [Hb _] & _).
      unfold has_id, base_id in Hh. destruct (executing c); [|by rewrite Hh].
      replace (c_xid c) with (id + M) by lia. apply idhash_executing; done. }
    rewrite bogus_id by done. eexists. split; [done|]. cbn. destruct (Z.eqb_spec id 0); cbn; [by split|].
    destruct (Z.testbit id (W - 3)) eqn:Eb; cbn; [by split|]. split_and!; [done| |done|done].
    intros [_ ?]. congruence.
  - destruct (ct_chain_cell _ _ _ ID _ l1 p l2 Hr Ech) as (c & Hp & Hn & _). destruct (xid_cases T s v p c id Hinv Hp Hid) as [H1 H2].
    pose proof Hp as [Hc Hf]. rewrite Hc. cbv iota zeta.
    destruct (Z.eqb_spec (c_xid c) id) as [Hx|Hx].
    + (* found, pending *)
      apply H1 in Hx as Hx'. destruct Hx' as [Hh He].
      destruct (free_ok (s_ct s) v p c Hr Hp) as (ct1 & ct' & v' & Hu & Hput & Hr' & Hf' & Hd & _ & Ht & Hch).
      rewrite Hx in Hu. rewrite Hu, Hput. eexists. split; [done|]. cbn. exists p, c, v'.
      do 3 (split; [done|]). split; [|split; [|split; [done|split; [apply Ht|done]]]].
      * unfold dist. destruct (Z.ltb_spec (clock_t lp64 (c_runtime c - s_lbolt s)) 0); lia.
      * destruct s as [ct lbolt runs]. apply (inv_free T ct lbolt runs runs v ct' v' p c); try done.
        -- intros i. apply (Hch LB).
        -- intros t p' r. split; [|by intros [? _]]. intros Hrun. split; [done|]. intros ->.
           destruct (i_run _ _ _ Hinv t p r Hrun) as (c' & [Hc' _] & ? & _). cbn in *. congruence.
    + destruct (Z.eqb_spec (c_xid c) (Z.lor id (CALLOUT_EXECUTING lp64))) as [Hx2|Hx2]; cbn [negb].
      * apply H2 in Hx2 as [Hh He]. destruct (Z.eqb_spec (c_executor c) self) as [Hs|Hs]; eexists; (split; [done|]); cbn.
        -- split; [done|]. by exists p, c.
        -- split; [done|]. by exists c.
      * eexists. split; [done|]. cbn. eexists. split; [|exists (l1 ++ [p]), l2; split_and!; [by rewrite <- app_assoc|done|reflexivity|]]; [cbn; lia|].
        intros q cq [Hq| ->%list_elem_of_singleton]%elem_of_app Hcq; [by eapply Hl1|].
        destruct Hcq as [Hcq _]. assert (cq = c) as -> by congruence. intros Hh.
        destruct (executing c) eqn:He; [apply Hx2; tauto|apply Hx; tauto].
Qed.

(** ** timeout() *)

(** A time in the future is not a time in the past. *)
Lemma later_ne a b k : 0 <= dist a b → 0 < k < M → clock_t lp64 (a + k) ≠ b.
Proof.
  intros Hd Hk E. pose proof (dist_range a b) as Hr. unfold in_clock in Hr. pose proof W_range. pose proof M_double.
  pose proof (dist_same b) as Hz. rewrite <- E in Hz at 1. unfold dist, clock_t in *. rewrite wraps_wraps_sub_l in Hz by lia.
  replace (a + k - b) with (a - b + k) in Hz by lia. rewrite <- wraps_wraps_add in Hz by lia.
  set (x := wraps W (a - b) + k) in *. assert (x `mod` 2 ^ W = 0) as Hm.
  { rewrite <- (wraps_mod W W) by lia. rewrite Hz. apply Z.mod_0_l. lia. }
  rewrite Z.mod_small in Hm by lia. lia.
Qed.

Lemma inv_add T ct lbolt runs v ct' v' cp c' :
  inv T (Sys ct lbolt runs) v → (∀ c, ¬ in_use ct v cp c) → rep out_none ct' v' → in_use ct' v' cp c' →
  (∀ q, q ≠ cp → option_Forall2 same_data (ct_mem ct !! q) (ct_mem ct' !! q) ∧ (q ∈ v_free v' ↔ q ∈ v_free v)) →
  ct_curtime ct' = ct_curtime ct → ct_runtime ct' = ct_runtime ct →
  id_of T false (ct_short_id ct') → id_of T true (ct_long_id ct') →
  executing c' = false → id_ok (base_id c') → (∀ p c, in_use ct v p c → base_id c ≠ base_id c') →
  in_clock (c_runtime c') → 0 <= dist (c_runtime c') (ct_runtime ct) →
  (∀ t p r, runs !! t = Some (p, r) → c_runtime c' ≠ r) →
  (∀ i, v_chain v' LB i = v_chain v LB i ∨ v_chain v' LB i = cp :: v_chain v LB i) →
  inv T (Sys ct' lbolt runs) v'.
Proof.
  intros Hinv Hnew Hr Hcp Hq T1 T2 T3 T4 He Hid Huniq Hclk Hdist Hruns Hch.
  pose proof Hinv as [I1 I2 I3 I4 I5 I6 I7]. cbn [s_ct s_lbolt s_run] in *.
  assert (∀ q c1, in_use ct' v' q c1 → q = cp ∧ c1 = c' ∨ ∃ c0, in_use ct v q c0 ∧ same_data c0 c1) as Huse.
  { intros q c1 [Hc1 Hf]. destruct (decide (q = cp)) as [->|Hne]; [left; split; [done|]; destruct Hcp; congruence|right].
    destruct (Hq q Hne) as [Hd Hfr]. destruct (data_lookup _ _ q c1 Hd Hc1) as (c0 & Hc0 & Hs). exists c0.
    split; [|done]. split; [done|]. by rewrite <- Hfr. }
  split; cbn [s_ct s_lbolt s_run]; [done|by rewrite T1, T2|by rewrite T1, T2| | | |done].
  - intros p c1 [[-> ->]|(c0 & Hp0 & Hs)]%Huse.
    + rewrite He, T2. split_and!; try done. destruct Hid. unfold base_id in *. rewrite He in *. lia.
    + destruct (same_data_executing _ _ Hs) as [Ee Eb]. pose proof Hs as (Ex & Er & _ & _ & Eex).
      rewrite Ee, Eb, Ex, Er, Eex, T2. by apply (I4 p c0).
  - intros t p r Ht. destruct (I5 t p r Ht) as (c0 & Hp0 & Hex & Hx & Hrt & Hdi & Hbef).
    assert (p ≠ cp) as Hne by (intros ->; by apply (Hnew c0)). destruct (Hq p Hne) as [Hd Hfr]. destruct Hp0 as [Hc0 Hf0].
    rewrite Hc0 in Hd. inversion Hd as [? c1 Hs Hc0' Hc1|]; subst; clear Hd.
    destruct (same_data_executing _ _ Hs) as [Ee _]. pose proof Hs as (Ex & Er & _ & _ & Eex).
    exists c1. split; [split; [done|by rewrite Hfr]|]. rewrite Ee, Er, Eex, T1. do 4 (split; [done|]).
    intros k1 k2 Ek q cq Hq1 Hcq Hrq. destruct (decide (q = cp)) as [->|Hqne].
    { exfalso. eapply Hruns; [exact Ht|]. destruct Hcp. congruence. }
    destruct (Hq q Hqne) as [Hdq _]. destruct (data_lookup _ _ q cq Hdq Hcq) as (cq0 & Hcq0 & Hsq).
    destruct (same_data_executing _ _ Hsq) as [-> _].
    assert (c_runtime cq0 = c_runtime c0) by (destruct Hsq as (_ & E & _); congruence).
    destruct (Hch (CALLOUT_LBHASH (c_runtime c0))) as [E|E]; rewrite E in Ek; [by apply (Hbef k1 k2 Ek q)|].
    destruct k1 as [|x k1]; cbn in Ek; injection Ek as -> Ek; [by apply not_elem_of_nil in Hq1|].
    apply elem_of_cons in Hq1 as [->|Hq1]; [done|]. by apply (Hbef k1 k2 Ek q).
  - intros p q c1 c2 [[-> ->]|(c01 & Hp0 & Hs1)]%Huse [[-> ->]|(c02 & Hq0 & Hs2)]%Huse E; [done| | |].
    + exfalso. destruct (same_data_executing _ _ Hs2) as [_ Eb]. apply (Huniq q c02 Hq0). congruence.
    + exfalso. destruct (same_data_executing _ _ Hs1) as [_ Eb]. apply (Huniq p c01 Hp0). congruence.
    + apply (I6 p q c01 c02 Hp0 Hq0). destruct (same_data_executing _ _ Hs1) as [_ <-]. by destruct (same_data_executing _ _ Hs2) as [_ <-].
Qed.

Lemma timeout_ok T s v func arg delta fresh dropped :
  inv T s v → ct_mem (s_ct s) !! fresh = None → delta < M →
  dist (s_lbolt s) (ct_runtime (s_ct s)) + Z.max 1 delta < M →
  (∀ p c, in_use (s_ct s) v p c → ¬ has_id (next_id lp64 (if delta >? CALLOUT_LONGTERM_TICKS then ct_long_id (s_ct s) else ct_short_id (s_ct s))) c) →
  ∃ ct' id v' cp c', timeout_common lp64 (s_lbolt s) func arg delta fresh dropped (s_ct s) = Some (ct', id) ∧
    inv T (Sys ct' (s_lbolt s) (s_run s)) v' ∧ id_of T (delta >? CALLOUT_LONGTERM_TICKS) id ∧
    id = next_id lp64 (if delta >? CALLOUT_LONGTERM_TICKS then ct_long_id (s_ct s) else ct_short_id (s_ct s)) ∧
    ct_curtime ct' = ct_curtime (s_ct s) ∧
    (∀ c, ¬ in_use (s_ct s) v cp c) ∧ in_use ct' v' cp c' ∧ c_xid c' = id ∧ c_func c' = func ∧ c_arg c' = arg ∧
    c_runtime c' = clock_t lp64 (s_lbolt s + Z.max 1 delta) ∧
    (∀ q, q ≠ cp → option_Forall2 same_data (ct_mem (s_ct s) !! q) (ct_mem ct' !! q) ∧ (q ∈ v_free v' ↔ q ∈ v_free v)).
Proof.
  intros Hinv Hfresh Hdelta Hd Hnew. pose proof (i_rep _ _ _ Hinv) as Hr.
  destruct (take_callout_ok (s_ct s) v fresh dropped Hr Hfresh) as (ct1 & cp & v1 & c & Htake & Hr1 & Hc1 & Hf1 & Hch1 & Hq1 & Hold & E1 & E2 & E3 & E4).
  unfold timeout_common. rewrite Htake. unfold timeout_rest. cbv zeta. rewrite E3, E4.
  replace (if delta <=? 0 then 1 else delta) with (Z.max 1 delta) by (destruct (Z.leb_spec delta 0); lia).
  replace (Z.max 1 delta >? CALLOUT_LONGTERM_TICKS) with (delta >? CALLOUT_LONGTERM_TICKS) by
    (unfold CALLOUT_LONGTERM_TICKS; destruct (Z.gtb_spec delta 0x4000), (Z.gtb_spec (Z.max 1 delta) 0x4000); lia).
  set (id := next_id lp64 (if delta >? CALLOUT_LONGTERM_TICKS then ct_long_id (s_ct s) else ct_short_id (s_ct s))) in *.
  set (rt := clock_t lp64 (s_lbolt s + Z.max 1 delta)). set (ct2 := if delta >? CALLOUT_LONGTERM_TICKS then _ else _).
  assert (ct_mem ct2 = ct_mem ct1 ∧ ct_curtime ct2 = ct_curtime ct1 ∧ ct_runtime ct2 = ct_runtime ct1 ∧ rep (out_cell cp) ct2 v1)
    as (Em2 & Ec2 & Er2 & Hr2) by (unfold ct2; destruct (delta >? _); (split_and!; [done..|by apply rep_ids])).
  assert (id_of T false (ct_short_id ct2) ∧ id_of T true (ct_long_id ct2) ∧ id_of T (delta >? CALLOUT_LONGTERM_TICKS) id) as (Hid1 & Hid2 & Hid3).
  { destruct (i_ids _ _ _ Hinv) as [J1 J2]. unfold ct2, id. destruct (delta >? CALLOUT_LONGTERM_TICKS); cbn; rewrite ?E3, ?E4;
      split_and!; (done || by apply next_id_of). }
  rewrite Em2, Hc1. set (c2 := set_call c func arg rt id).
  assert (rep (out_cell cp) (set_mem ct2 (<[cp := c2]> (ct_mem ct1))) v1) as Hr3.
  { rewrite <- Em2. apply (rep_set_cell _ _ _ _ c); [done|by rewrite Em2|by left|done]. }
  destruct (update_insert _ v1 cp c2 Hr3) as (ct4 & v4 & Hu & Hr4 & Hf4 & Hs4 & Hch4); [apply lookup_insert_eq|done|].
  change (c_xid c2) with id in *. change (c_runtime c2) with rt in *. rewrite Hu.
  pose proof Hs4 as (_ & Et1 & Et2 & Et3 & Et4 & Hd4). cbn [set_mem ct_mem ct_curtime ct_runtime ct_short_id ct_long_id] in *.
  destruct (same_table_lookup _ _ cp c2 Hs4) as (c4 & Hc4 & Hsd); [apply lookup_insert_eq|]. pose proof Hsd as (X1 & X2 & X3 & X4 & _).
  assert (∀ q, q ≠ cp → option_Forall2 same_data (ct_mem (s_ct s) !! q) (ct_mem ct4 !! q) ∧ (q ∈ v_free v4 ↔ q ∈ v_free v)) as Hq4.
  { intros q Hne. destruct (Hq1 q Hne) as [<- <-]. specialize (Hd4 q). rewrite lookup_insert_ne in Hd4 by done. by rewrite Hf4. }
  assert (∀ c, ¬ in_use (s_ct s) v cp c) as Hnot by (intros c' [? ?]; destruct Hold; [done|congruence]).
  assert (executing c4 = false) as Hex4.
  { unfold executing. rewrite X1. apply Z.leb_gt. destruct Hid3 as ([Hid3 _] & _). cbn. lia. }
  assert (base_id c4 = id) as Hb4 by (unfold base_id; rewrite Hex4, X1; done).
  pose proof (i_cur _ _ _ Hinv) as Hcur. pose proof M_pos. pose proof (dist_range (s_lbolt s) (ct_runtime (s_ct s))) as Hdr. unfold in_clock in Hdr.
  exists ct4, id, v4, cp, c4. split; [done|]. split.
  - destruct s as [ct lbolt runs]. cbn [s_ct s_lbolt s_run] in *.
    apply (inv_add T ct lbolt runs v ct4 v4 cp c4); try done.
    + split; [done|]. by rewrite Hf4.
    + by rewrite Et1, Ec2, E1.
    + by rewrite Et2, Er2, E2.
    + by rewrite Et3.
    + by rewrite Et4.
    + rewrite Hb4. by destruct Hid3.
    + intros p c' Hp E. apply (Hnew p c' Hp). unfold has_id. congruence.
    + rewrite X2. apply clock_range.
    + rewrite X2. unfold c2, set_call, rt. cbn [c_runtime]. rewrite dist_later; unfold in_clock; lia.
    + intros t p r Hrun E. destruct (i_run _ _ _ Hinv t p r Hrun) as (c' & _ & _ & _ & _ & Hdl & _). cbn in Hdl.
      rewrite X2 in E. unfold c2, set_call, rt in E. cbn [c_runtime] in E.
      apply (later_ne lbolt r (Z.max 1 delta)); [pose proof (dist_range lbolt r); lia|lia|done].
    + intros i. rewrite Hch4, Hch1. case_decide; [by right|by left].
  - do 2 (split; [done|]). split; [by rewrite Et1, Ec2, E1|]. split; [done|]. split; [split; [done|by rewrite Hf4]|]. done.
Qed.

(** ** Running callouts *)

(** A callout of chain [l1] that is due at [r] is being called. *)
Definition all_called (ct : callout_table) (r : Z) (l1 : list nat) : Prop :=
  ∀ q c, q ∈ l1 → ct_mem ct !! q = Some c → c_runtime c = r → executing c = true.

Lemma NoDup_split_unique (l1 l2 k1 k2 : list nat) p : NoDup (l1 ++ p :: l2) → l1 ++ p :: l2 = k1 ++ p :: k2 → k1 = l1 ∧ k2 = l2.
Proof.
  revert k1. induction l1 as [|x l1 IH]; intros [|y k1] Hnd E; cbn in *; injection E; clear E.
  - done.
  - intros -> <-. apply NoDup_cons in Hnd. set_solver.
  - intros <- ->. apply NoDup_cons in Hnd. set_solver.
  - intros E ->. apply NoDup_cons in Hnd as [_ Hnd]. by destruct (IH k1 Hnd E) as [-> ->].
Qed.

Lemma inv_mark T ct lbolt runs v self cp c l1 l2 :
  inv T (Sys ct lbolt runs) v → runs !! self = None → in_use ct v cp c → executing c = false →
  v_chain v LB (CALLOUT_LBHASH (c_runtime c)) = l1 ++ cp :: l2 → all_called ct (c_runtime c) l1 →
  dist lbolt (ct_curtime ct) <= dist lbolt (c_runtime c) →
  inv T (Sys (set_mem ct (<[cp := set_xid c (Z.lor (c_xid c) (CALLOUT_EXECUTING lp64)) self]> (ct_mem ct))) lbolt
    (<[self := (cp, c_runtime c)]> runs)) v.
Proof.
  intros Hinv Hself Hcp He Ech Hcalled Hd. pose proof Hinv as [I1 I2 I3 I4 I5 I6 I7]. cbn [s_ct s_lbolt s_run] in *.
  destruct (I4 cp c Hcp) as (Hclk & Hid & Hx). rewrite He in Hx. unfold base_id in Hid. rewrite He in Hid. destruct Hid as [Hid Hbit].
  rewrite lor_executing by done. set (c' := set_xid c (c_xid c + M) self).
  assert (executing c' = true) as He' by (apply Z.leb_le; cbn; lia).
  assert (base_id c' = base_id c) as Hb' by (unfold base_id; rewrite He, He'; cbn; lia).
  destruct Hcp as [Hc Hf].
  assert (∀ q c1, in_use (set_mem ct (<[cp := c']> (ct_mem ct))) v q c1 → q = cp ∧ c1 = c' ∨ q ≠ cp ∧ in_use ct v q c1) as Huse.
  { intros q c1 [Hq Hfq]. cbn in Hq. destruct (decide (q = cp)) as [->|]; [rewrite lookup_insert_eq in Hq; left; split; congruence|].
    rewrite lookup_insert_ne in Hq by done. by right. }
  assert (∀ q c1, (<[cp := c']> (ct_mem ct)) !! q = Some c1 → executing c1 = true ∨ ct_mem ct !! q = Some c1) as Hmem.
  { intros q c1. destruct (decide (q = cp)) as [->|]; [rewrite lookup_insert_eq; intros [= <-]; by left|rewrite lookup_insert_ne by done; by right]. }
  split; cbn [s_ct s_lbolt s_run set_mem ct_curtime ct_runtime ct_short_id ct_long_id ct_mem]; try done.
  - apply (rep_set_cell _ _ _ _ c); [done|done| |done]. intros w. right; right. destruct w; cbn; [|done].
    split_and!; [done|done|]. by apply idhash_executing.
  - intros p c1 [[-> ->]|[Hne Hp]]%Huse.
    + rewrite He', Hb'. split; [done|]. split; [by unfold base_id; rewrite He|]. cbn. by rewrite lookup_insert_eq.
    + destruct (I4 p c1 Hp) as (? & ? & H). split; [done|]. split; [done|]. destruct (executing c1); [|done].
      rewrite lookup_insert_ne; [done|]. intros ->. congruence.
  - intros t p r. destruct (decide (t = self)) as [->|Hts].
    + rewrite lookup_insert_eq. intros [= <- <-]. exists c'. split; [split; [by cbn; rewrite lookup_insert_eq|done]|].
      do 4 (split; [done|]). intros k1 k2 Ek q cq Hq [?|Hcq]%Hmem Hrq; [done|]. rewrite Ech in Ek.
      assert (k1 = l1) as ->.
      { pose proof (r_nodup _ _ _ I1 LB (CALLOUT_LBHASH (c_runtime c))) as Hnd. rewrite Ech in Hnd.
        by destruct (NoDup_split_unique _ _ _ _ _ Hnd Ek) as [-> _]. }
      by apply (Hcalled q cq).
    + rewrite lookup_insert_ne by done. intros Ht. destruct (I5 t p r Ht) as (c0 & Hp & Hex & Hxt & Hr & Hdr & Hbef).
      exists c0. assert (p ≠ cp) as Hne by (intros ->; destruct Hp; congruence).
      split; [split; [cbn; rewrite lookup_insert_ne by done|]; apply Hp|]. do 4 (split; [done|]).
      intros k1 k2 Ek q cq Hq [?|Hcq]%Hmem Hrq; [done|]. by apply (Hbef k1 k2 Ek q).
  - intros p q c1 c2 [[-> ->]|[Hne1 Hp]]%Huse [[-> ->]|[Hne2 Hq]]%Huse E; [done| | |by eapply I6].
    + symmetry. apply (I6 q cp c2 c Hq (conj Hc Hf)). congruence.
    + apply (I6 p cp c1 c Hp (conj Hc Hf)). congruence.
Qed.

Lemma inv_bump T ct lbolt runs v :
  inv T (Sys ct lbolt runs) v → (∀ p c, in_use ct v p c → executing c = false → c_runtime c ≠ ct_runtime ct) →
  dist lbolt (ct_curtime ct) <= dist lbolt (ct_runtime ct) →
  let ct' := set_times ct (ct_curtime ct) (clock_t lp64 (ct_runtime ct + 1)) in
  inv T (Sys ct' lbolt runs) v ∧ dist lbolt (ct_runtime ct') = dist lbolt (ct_runtime ct) - 1.
Proof.
  intros Hinv Hno Hd ct'. pose proof Hinv as [I1 I2 I3 I4 I5 I6 I7]. cbn [s_ct s_lbolt s_run] in *. pose proof M_pos.
  pose proof (dist_range lbolt (ct_runtime ct)) as Hdr.
  assert (dist lbolt (ct_runtime ct') = dist lbolt (ct_runtime ct) - 1) as E.
  { apply dist_earlier. unfold in_clock in *. lia. }
  split; [|done]. split; cbn [s_ct s_lbolt s_run]; try done.
  - by apply rep_times.
  - split_and!; [apply I2|apply I2|apply clock_range].
  - rewrite E. cbn. lia.
  - intros p c Hp. destruct (I4 p c Hp) as (Hclk & ? & Hx). split; [done|]. split; [done|].
    destruct (executing c) eqn:He; [done|]. destruct Hx as [? Hx]. split; [done|].
    assert (dist (c_runtime c) (ct_runtime ct) ≠ 0) as Hne.
    { intros E0%dist_0; [by apply (Hno p c Hp He)|done|apply I2]. }
    cbn [ct' set_times ct_runtime]. rewrite dist_earlier; [lia|].
    pose proof (dist_range (c_runtime c) (ct_runtime ct)). unfold in_clock in *. lia.
Qed.

Lemma inv_curtime T ct lbolt runs v :
  inv T (Sys ct lbolt runs) v → inv T (Sys (set_times ct lbolt (ct_runtime ct)) lbolt runs) v.
Proof.
  intros [I1 I2 I3 I4 I5 I6 I7]. cbn [s_ct s_lbolt s_run] in *. split; cbn [s_ct s_lbolt s_run]; try done.
  - by apply rep_times.
  - cbn. naive_solver.
  - cbn. rewrite dist_same. lia.
  - intros t p r Ht. destruct (I5 t p r Ht) as (c & ? & ? & ? & ? & ? & ?). exists c. split_and!; try done.
    cbn. rewrite dist_same. lia.
Qed.

Lemma not_due_spec T s v p c r :
  inv T s v → in_use (s_ct s) v p c → not_due lp64 c r = false ↔ c_runtime c = r ∧ executing c = false.
Proof.
  intros Hinv Hp. destruct (i_use _ _ _ Hinv p c Hp) as (_ & [Hb _] & Hx). unfold not_due.
  assert (0 <= c_xid c < 2 * M) as Hr by (unfold base_id, executing in *; destruct (Z.leb_spec M (c_xid c)); lia).
  rewrite land_executing by done. fold (executing c). destruct (Z.eqb_spec (c_runtime c) r), (executing c); cbn; naive_solver.
Qed.

(** The ticks that are still to be scanned. *)
Lemma dist_cur_run T s v :
  inv T s v → let ct := s_ct s in
  dist (ct_runtime ct) (ct_curtime ct) = dist (s_lbolt s) (ct_curtime ct) - dist (s_lbolt s) (ct_runtime ct) ∧
  dist (ct_curtime ct) (ct_runtime ct) = dist (s_lbolt s) (ct_runtime ct) - dist (s_lbolt s) (ct_curtime ct).
Proof.
  intros Hinv ct. pose proof (i_cur _ _ _ Hinv) as Hc. fold ct in Hc. pose proof M_pos.
  pose proof (dist_range (s_lbolt s) (ct_curtime ct)). pose proof (dist_range (s_lbolt s) (ct_runtime ct)). unfold in_clock in *.
  split; apply dist_via; unfold in_clock; lia.
Qed.

(** The chain of a tick has been scanned: nothing of that tick is pending. *)
Lemma scanned T s v r :
  inv T s v → all_called (s_ct s) r (v_chain v LB (CALLOUT_LBHASH r)) →
  ∀ p c, in_use (s_ct s) v p c → executing c = false → c_runtime c ≠ r.
Proof.
  intros Hinv Hall p c [Hc Hf] He E. assert (executing c = true); [|congruence]. apply (Hall p c); [|done|done].
  apply (r_in _ _ _ (i_rep _ _ _ Hinv)). exists c. split_and!; [done|done| |done]. cbn. by rewrite E.
Qed.

(** What [callout_execute] ends with, between two calls: the next callout to
    call, which is due and pending and is now marked, or the end, with all
    ticks up to the current one done. *)
Definition execute_post (T : Z) (ct : callout_table) (lbolt : Z) (runs : gmap Z (nat * Z)) (v : view) (self : Z)
    (res : callout_table * option (nat * Z)) : Prop :=
  match res.2 with
  | Some (cp, r) => ∃ c, in_use ct v cp c ∧ executing c = false ∧ c_runtime c = r ∧ dist lbolt (ct_curtime ct) <= dist lbolt r ∧
      ct_mem res.1 = <[cp := set_xid c (Z.lor (c_xid c) (CALLOUT_EXECUTING lp64)) self]> (ct_mem ct) ∧
      inv T (Sys res.1 lbolt (<[self := (cp, r)]> runs)) v ∧ ct_curtime res.1 = ct_curtime ct
  | None => ct_mem res.1 = ct_mem ct ∧ inv T (Sys res.1 lbolt runs) v ∧
      ct_curtime res.1 = ct_curtime ct ∧ dist (ct_runtime res.1) (ct_curtime res.1) = 1
  end.

(** What is left to do: ticks, and the rest of a chain. *)
Definition to_scan (lbolt : Z) (ct : callout_table) (r : Z) (l : list nat) : nat :=
  ((Z.to_nat (dist lbolt (ct_runtime ct) - dist lbolt (ct_curtime ct) + 1) + if decide (r = ct_runtime ct) then 0 else 1) *
   chain_fuel ct + length l)%nat.

(** A scan of the chain of tick [r] that has come to the cell [cp]. *)
Definition scanning (T lbolt : Z) (runs : gmap Z (nat * Z)) (v : view) (ct : callout_table) (cp : option nat) (r : Z) (l1 l2 : list nat) : Prop :=
  inv T (Sys ct lbolt runs) v ∧ v_chain v LB (CALLOUT_LBHASH r) = l1 ++ l2 ∧ cp = head l2 ∧ in_clock r ∧
  dist lbolt (ct_curtime ct) <= dist lbolt r ∧ all_called ct r l1.

(** One step of a scan over a callout that is not to be called. *)
Lemma scan_next T lbolt runs v ct r l1 p l2 :
  scanning T lbolt runs v ct (Some p) r l1 (p :: l2) →
  ∃ c, in_use ct v p c ∧
    if not_due lp64 c r then scanning T lbolt runs v ct (c_lbnext c) r (l1 ++ [p]) l2 else c_runtime c = r ∧ executing c = false.
Proof.
  intros (Hinv & Ech & _ & Hr & Hd & Hall).
  destruct (ct_chain_cell _ _ _ LB _ l1 p l2 (i_rep _ _ _ Hinv) Ech) as (c & Hp & Hn & _). exists c. split; [done|].
  pose proof (not_due_spec T _ v p c r Hinv Hp) as Hnd. destruct (not_due lp64 c r); [|by apply Hnd].
  split_and!; [done|by rewrite <- app_assoc|done|done|done|].
  intros q cq [Hq| ->%list_elem_of_singleton]%elem_of_app Hcq Hrq; [by apply (Hall q)|].
  destruct Hp as [Hc _]. cbn in Hc. assert (cq = c) as -> by congruence. destruct (executing c); [done|]. naive_solver.
Qed.

(** The next tick: either there is none that is due, or its scan starts. *)
Lemma scan_start T lbolt runs v ct :
  inv T (Sys ct lbolt runs) v →
  if clock_t lp64 (ct_runtime ct - ct_curtime ct) <=? 0
  then rd (ct_lbhash ct) (CALLOUT_LBHASH (ct_runtime ct)) = Some (head (v_chain v LB (CALLOUT_LBHASH (ct_runtime ct)))) ∧
       scanning T lbolt runs v ct (head (v_chain v LB (CALLOUT_LBHASH (ct_runtime ct)))) (ct_runtime ct) []
         (v_chain v LB (CALLOUT_LBHASH (ct_runtime ct)))
  else dist (ct_runtime ct) (ct_curtime ct) = 1.
Proof.
  intros Hinv. destruct (dist_cur_run T _ v Hinv) as [Hd _]. cbn in Hd. pose proof (i_cur _ _ _ Hinv) as Hc. cbn in Hc.
  fold (dist (ct_runtime ct) (ct_curtime ct)). destruct (Z.leb_spec (dist (ct_runtime ct) (ct_curtime ct)) 0); [|lia].
  split; [exact (hash_head _ _ _ LB 0 (ct_runtime ct) (i_rep _ _ _ Hinv))|].
  split_and!; [done|done|done|apply (i_clock _ _ _ Hinv)|lia|]. intros q c []%not_elem_of_nil.
Qed.

Lemma execute_loop T lbolt runs v self ct cp r l1 l2 :
  runs !! self = None → scanning T lbolt runs v ct cp r l1 l2 →
  ∃ res, run (execute_step lp64 self) (execute_fuel lp64 ct) (ct, cp, r) = Some res ∧ execute_post T ct lbolt runs v self res.
Proof.
  intros Hself Hscan. set (mem0 := ct_mem ct). set (cur0 := ct_curtime ct).
  apply (run_total_idx _ (λ n '(ct', cp, r), ∃ l1 l2, scanning T lbolt runs v ct' cp r l1 l2 ∧ ct_mem ct' = mem0 ∧
    ct_curtime ct' = cur0 ∧ n = to_scan lbolt ct' r l2)) with (n := to_scan lbolt ct r l2).
  2: { by exists l1, l2. }
  2: { destruct Hscan as (Hinv & Ech & _). pose proof (chain_length _ _ _ LB (CALLOUT_LBHASH r) (i_rep _ _ _ Hinv)) as Hl.
       destruct (dist_cur_run T _ v Hinv) as [_ Hd]. cbn in Hd, Hl. rewrite Ech, length_app in Hl. unfold execute_fuel, to_scan.
       fold (dist (ct_curtime ct) (ct_runtime ct)). rewrite Hd. unfold chain_fuel. destruct (decide _); nia. }
  clear Hscan. intros n [[ct' cp'] r'] (k1 & k2 & Hscan & Em & Ec & ->). destruct k2 as [|p k2].
  - pose proof Hscan as (Hinv & Ech & -> & Hr & Hd & Hall). rewrite app_nil_r in Ech. cbn [head execute_step].
    set (ct2 := if ct_runtime ct' =? r' then _ else _).
    assert (inv T (Sys ct2 lbolt runs) v ∧ ct_mem ct2 = mem0 ∧ ct_curtime ct2 = cur0 ∧
      (Z.to_nat (dist lbolt (ct_runtime ct2) - dist lbolt (ct_curtime ct2) + 1) <
       Z.to_nat (dist lbolt (ct_runtime ct') - dist lbolt (ct_curtime ct') + 1) + if decide (r' = ct_runtime ct') then 0 else 1)%nat)
      as (Hinv2 & Em2 & Ec2 & Hlt).
    { unfold ct2. destruct (Z.eqb_spec (ct_runtime ct') r') as [<-|Hne].
      - rewrite decide_True by done. destruct (inv_bump T ct' lbolt runs v Hinv) as [Hi E].
        + apply (scanned T (Sys ct' lbolt runs) v); [done|]. cbn. by rewrite Ech.
        + done.
        + split_and!; [done|done|done|]. rewrite E. cbn [set_times ct_curtime]. lia.
      - rewrite decide_False by congruence. split_and!; [done|done|done|lia]. }
    pose proof (scan_start T lbolt runs v ct2 Hinv2) as Hst. destruct (_ <=? 0).
    + destruct Hst as [-> Hst]. eexists. split; [done|]. cbn.
      exists (to_scan lbolt ct2 (ct_runtime ct2) (v_chain v LB (CALLOUT_LBHASH (ct_runtime ct2)))).
      split; [|by eexists _, _]. unfold to_scan. rewrite (decide_True (P := ct_runtime ct2 = _)) by done. unfold chain_fuel. rewrite Em2, Em.
      pose proof (chain_length _ _ _ LB (CALLOUT_LBHASH (ct_runtime ct2)) (i_rep _ _ _ Hinv2)) as Hl. cbn in Hl. rewrite Em2 in Hl.
      cbn [length]. nia.
    + eexists. split; [done|]. unfold execute_post. by split_and!.
  - pose proof Hscan as (Hinv & Ech & -> & Hr & Hd & Hall). cbn [head execute_step]. cbn [head] in Hscan.
    destruct (scan_next _ _ _ _ _ _ _ _ _ Hscan) as (c & Hp & Hn). pose proof Hp as [Hc Hf]. rewrite Hc.
    destruct (not_due lp64 c r').
    + eexists. split; [done|]. cbn. exists (to_scan lbolt ct' r' k2). split; [unfold to_scan; cbn; lia|]. by exists (k1 ++ [p]), k2.
    + destruct Hn as [Er He]. eexists. split; [done|]. unfold execute_post. cbn. exists c.
      split; [by split; [fold mem0; rewrite <- Em|]|]. split; [done|]. split; [done|].
      split; [fold cur0; by rewrite <- Ec|]. rewrite Em. split; [done|]. split; [|done].
      rewrite <- Er, <- Em. apply (inv_mark T ct' lbolt runs v self p c k1 k2); try done; by rewrite Er.
Qed.

Lemma execute_ok T s v self :
  inv T s v → s_run s !! self = None →
  ∃ res, callout_execute lp64 self (s_ct s) = Some res ∧ execute_post T (s_ct s) (s_lbolt s) (s_run s) v self res.
Proof.
  destruct s as [ct lbolt runs]. cbn [s_ct s_lbolt s_run]. intros Hinv Hself. unfold callout_execute.
  pose proof (scan_start T lbolt runs v ct Hinv) as Hst. destruct (_ <=? 0).
  - destruct Hst as [-> Hst]. by eapply execute_loop.
  - eexists. split; [done|]. by unfold execute_post.
Qed.


(** A free cell may change as long as its link on the free list stays. *)
Lemma inv_free_cell T ct lbolt runs v cp c xid executor :
  inv T (Sys ct lbolt runs) v → ct_mem ct !! cp = Some c → cp ∈ v_free v →
  inv T (Sys (set_mem ct (<[cp := set_xid c xid executor]> (ct_mem ct))) lbolt runs) v.
Proof.
  intros [I1 I2 I3 I4 I5 I6 I7] Hc Hf. cbn [s_ct s_lbolt s_run] in *.
  assert (∀ q c1, in_use (set_mem ct (<[cp := set_xid c xid executor]> (ct_mem ct))) v q c1 ↔ in_use ct v q c1) as Huse.
  { intros q c1. unfold in_use. cbn. destruct (decide (q = cp)) as [->|]; [naive_solver|by rewrite lookup_insert_ne]. }
  split; cbn [s_ct s_lbolt s_run]; try done.
  - apply (rep_set_cell _ _ _ _ c); [done|done|by right; left|done].
  - intros p c1 Hp%Huse. by apply I4.
  - intros t p r Ht. destruct (I5 t p r Ht) as (c1 & Hp & ? & ? & ? & ? & Hbef). exists c1. rewrite Huse. do 5 (split; [done|]).
    intros l1 l2 E q cq Hq Hcq Hrq. assert (q ∈ v_chain v LB (CALLOUT_LBHASH r)) as Hin by (rewrite E; set_solver).
    assert (q ≠ cp) as Hne by (intros ->; by apply (rep_chain_free _ _ _ _ _ _ I1 Hin)).
    cbn in Hcq. rewrite lookup_insert_ne in Hcq by done. by apply (Hbef l1 l2 E q).
  - intros p q c1 c2 Hp%Huse Hq%Huse. by apply I6.
Qed.

(** The return of a call: the callout is free, with the ID 0, and the scan can
    go on behind it. *)
Lemma done_ok T s v self cp r :
  inv T s v → s_run s !! self = Some (cp, r) →
  ∃ ct1 v1 c1 l1 l2, callout_done (s_ct s) cp r = Some ct1 ∧ v_free v1 = cp :: v_free v ∧
    ct_mem ct1 !! cp = Some c1 ∧ c_xid c1 = 0 ∧
    (∀ q, q ≠ cp → option_Forall2 same_data (ct_mem (s_ct s) !! q) (ct_mem ct1 !! q)) ∧
    ct_curtime ct1 = ct_curtime (s_ct s) ∧ scanning T (s_lbolt s) (delete self (s_run s)) v1 ct1 (c_lbnext c1) r l1 l2.
Proof.
  destruct s as [ct lbolt runs]. cbn [s_ct s_lbolt s_run]. intros Hinv Hself. pose proof (i_rep _ _ _ Hinv) as Hr.
  destruct (i_run _ _ _ Hinv self cp r Hself) as (c & Hcp & He & Hx & <- & Hdr & Hbef). cbn [s_ct s_lbolt] in *.
  destruct (free_ok ct v cp c Hr Hcp) as (ct1 & ct2 & v2 & Hu & Hput & Hr2 & Hf2 & Hd & (c2 & Hc2 & Hn2) & Ht & Hch).
  pose proof (i_use _ _ _ Hinv cp c Hcp) as (Hclk & _). destruct Hcp as [Hc Hf].
  assert (inv T (Sys ct2 lbolt (delete self runs)) v2) as Hinv2.
  { apply (inv_free T ct lbolt runs (delete self runs) v ct2 v2 cp c); try done; [intros i; apply (Hch LB)|].
    intros t p r'. rewrite lookup_delete_Some. split.
    - intros [Hne Hrun]. split; [done|]. intros ->. apply Hne.
      destruct (i_run _ _ _ Hinv t cp r' Hrun) as (c' & [Hc' _] & _ & <- & _). cbn in Hc'. congruence.
    - intros [Hrun Hne]. split; [|done]. intros <-. congruence. }
  specialize (Hch LB (CALLOUT_LBHASH (c_runtime c))). rewrite decide_True in Hch by done. destruct Hch as (l1 & l2 & Ev & Ev2).
  destruct (ct_chain_cell _ _ _ LB _ l1 cp l2 Hr Ev) as (c' & [Hc' _] & Hn & _). assert (c' = c) as -> by congruence.
  unfold callout_done. rewrite Hc, Hu, Hput, Hc2.
  eexists _, v2, (set_xid c2 0 (c_executor c2)), l1, l2. split; [done|]. split; [done|].
  split; [apply lookup_insert_eq|]. split; [done|]. split.
  { intros q Hq. cbn. rewrite lookup_insert_ne by done. apply Hd. }
  assert (inv T (Sys (set_mem ct2 (<[cp := set_xid c2 0 (c_executor c2)]> (ct_mem ct2))) lbolt (delete self runs)) v2) as Hinv3.
  { apply inv_free_cell; [done|done|by rewrite Hf2; left]. }
  split; [apply Ht|]. split_and!; [done|done|by cbn; rewrite Hn2|done|destruct Ht as [Et _]; cbn; by rewrite Et|].
  intros q cq Hq Hcq Hrq. assert (q ≠ cp) as Hne.
  { intros ->. pose proof (r_nodup _ _ _ Hr LB (CALLOUT_LBHASH (c_runtime c))) as Hnd. rewrite Ev, NoDup_app in Hnd. set_solver. }
  cbn in Hcq. rewrite lookup_insert_ne in Hcq by done.
  destruct (data_lookup _ _ q cq (Hd q) Hcq) as (cq0 & Hcq0 & Hs). destruct (same_data_executing _ _ Hs) as [-> _].
  apply (Hbef l1 l2 Ev q); [done|done|]. destruct Hs as (_ & E & _). congruence.
Qed.

Lemma return_ok T s v self cp r :
  inv T s v → s_run s !! self = Some (cp, r) →
  ∃ ct1 v1 c1 res, callout_return lp64 self (s_ct s) cp r = Some res ∧ v_free v1 = cp :: v_free v ∧
    ct_mem ct1 !! cp = Some c1 ∧ c_xid c1 = 0 ∧
    (∀ q, q ≠ cp → option_Forall2 same_data (ct_mem (s_ct s) !! q) (ct_mem ct1 !! q)) ∧
    inv T (Sys ct1 (s_lbolt s) (delete self (s_run s))) v1 ∧ ct_curtime ct1 = ct_curtime (s_ct s) ∧
    execute_post T ct1 (s_lbolt s) (delete self (s_run s)) v1 self res.
Proof.
  intros Hinv Hself. destruct (done_ok T s v self cp r Hinv Hself) as (ct1 & v1 & c1 & l1 & l2 & Hd & Hf & Hc1 & Hx & Hq & Ec & Hscan).
  destruct (execute_loop T _ _ v1 self ct1 _ r l1 l2 (lookup_delete_eq _ _) Hscan) as (res & Hres & Hpost).
  exists ct1, v1, c1, res. split; [unfold callout_return; by rewrite Hd, Hc1|]. destruct Hscan as [Hinv1 _]. by split_and!.
Qed.

(** ** Scheduling *)

(** [callout_execute] is dispatched when a callout is due; without one, all
    ticks up to this one are done. *)
Definition schedule_post (T : Z) (ct : callout_table) (lbolt : Z) (runs : gmap Z (nat * Z)) (v : view) (res : callout_table * bool) : Prop :=
  ct_mem res.1 = ct_mem ct ∧ inv T (Sys res.1 lbolt runs) v ∧ ct_curtime res.1 = lbolt ∧
  if res.2
  then ∃ p c, in_use ct v p c ∧ executing c = false ∧ c_runtime c = ct_runtime res.1 ∧ 0 <= dist lbolt (c_runtime c)
  else dist (ct_runtime res.1) lbolt = 1.

Lemma schedule_loop T lbolt runs v ct l1 l2 :
  scanning T lbolt runs v ct (head l2) (ct_runtime ct) l1 l2 → ct_curtime ct = lbolt →
  ∃ res, run (schedule_step lp64 lbolt) (execute_fuel lp64 ct) (ct, head l2) = Some res ∧ schedule_post T ct lbolt runs v res.
Proof.
  intros Hscan Hcur. set (mem0 := ct_mem ct).
  apply (run_total_idx _ (λ n '(ct', cp), ∃ l1 l2, scanning T lbolt runs v ct' cp (ct_runtime ct') l1 l2 ∧ ct_mem ct' = mem0 ∧
    ct_curtime ct' = lbolt ∧ n = to_scan lbolt ct' (ct_runtime ct') l2)) with (n := to_scan lbolt ct (ct_runtime ct) l2).
  2: { by exists l1, l2. }
  2: { destruct Hscan as (Hinv & Ech & _). pose proof (chain_length _ _ _ LB (CALLOUT_LBHASH (ct_runtime ct)) (i_rep _ _ _ Hinv)) as Hl.
       destruct (dist_cur_run T _ v Hinv) as [_ Hd]. cbn in Hd, Hl. rewrite Ech, length_app in Hl. unfold execute_fuel, to_scan.
       fold (dist (ct_curtime ct) (ct_runtime ct)). rewrite Hd. unfold chain_fuel. destruct (decide _); nia. }
  clear Hscan Hcur. intros n [ct' cp'] (k1 & k2 & Hscan & Em & Ec & ->). destruct k2 as [|p k2].
  - pose proof Hscan as (Hinv & Ech & -> & Hr & Hd & Hall). rewrite app_nil_r in Ech. cbn [head schedule_step].
    destruct (inv_bump T ct' lbolt runs v Hinv) as [Hi E]; [|done|].
    { apply (scanned T (Sys ct' lbolt runs) v); [done|]. cbn. by rewrite Ech. }
    set (ct2 := set_times _ _ _) in *. pose proof (scan_start T lbolt runs v ct2 Hi) as Hst.
    change (ct_curtime ct2) with (ct_curtime ct') in Hst. rewrite Ec in Hst. destruct (_ <=? 0).
    + destruct Hst as [-> Hst]. eexists. split; [done|]. cbn.
      exists (to_scan lbolt ct2 (ct_runtime ct2) (v_chain v LB (CALLOUT_LBHASH (ct_runtime ct2)))).
      split; [|by eexists _, _]. unfold to_scan. rewrite !decide_True by done. rewrite E. unfold chain_fuel.
      pose proof (chain_length _ _ _ LB (CALLOUT_LBHASH (ct_runtime ct2)) (i_rep _ _ _ Hi)) as Hl. cbn in *. nia.
    + eexists. split; [done|]. unfold schedule_post. by split_and!.
  - pose proof Hscan as (Hinv & Ech & -> & Hr & Hd & Hall). cbn [head schedule_step]. cbn [head] in Hscan.
    destruct (scan_next _ _ _ _ _ _ _ _ _ Hscan) as (c & Hp & Hn). pose proof Hp as [Hc Hf]. rewrite Hc.
    destruct (not_due lp64 c (ct_runtime ct')).
    + eexists. split; [done|]. cbn. exists (to_scan lbolt ct' (ct_runtime ct') k2). split; [unfold to_scan; cbn; lia|]. by exists (k1 ++ [p]), k2.
    + destruct Hn as [Er He]. eexists. split; [done|]. unfold schedule_post. cbn. do 3 (split; [done|]). exists p, c.
      split; [by split; [fold mem0; rewrite <- Em|]|]. do 2 (split; [done|]).
      pose proof (i_cur _ _ _ Hinv). cbn in *. rewrite Er. lia.
Qed.

Lemma schedule_ok T s v :
  inv T s v →
  ∃ res, callout_schedule_1 lp64 (s_lbolt s) (s_ct s) = Some res ∧ schedule_post T (s_ct s) (s_lbolt s) (s_run s) v res.
Proof.
  destruct s as [ct lbolt runs]. cbn [s_ct s_lbolt s_run]. intros Hinv. unfold callout_schedule_1.
  pose proof (inv_curtime T ct lbolt runs v Hinv) as Hinv1. set (ct1 := set_times ct lbolt (ct_runtime ct)) in *.
  pose proof (scan_start T lbolt runs v ct1 Hinv1) as Hst. change (ct_curtime ct1) with lbolt in Hst. destruct (_ <=? 0).
  - destruct Hst as [-> Hst]. exact (schedule_loop T lbolt runs v ct1 [] _ Hst eq_refl).
  - eexists. split; [done|]. by unfold schedule_post.
Qed.

(** ** The clock, and the beginning *)

Lemma tick_ok T s v :
  inv T s v → dist (s_lbolt s) (ct_runtime (s_ct s)) + 2 < M →
  (∀ t p r, s_run s !! t = Some (p, r) → dist (s_lbolt s) r + 1 < M) →
  inv T (Sys (s_ct s) (clock_t lp64 (s_lbolt s + 1)) (s_run s)) v.
Proof.
  destruct s as [ct lbolt runs]. cbn [s_ct s_lbolt s_run]. intros [I1 I2 I3 I4 I5 I6 I7] Hd Hdr. cbn [s_ct s_lbolt s_run] in *.
  assert (∀ x, -2 <= dist lbolt x → dist lbolt x + 1 < M → dist (clock_t lp64 (lbolt + 1)) x = dist lbolt x + 1) as Hlater.
  { intros x ? ?. apply dist_later. pose proof M_pos. unfold in_clock. lia. }
  split; cbn [s_ct s_lbolt s_run]; try done.
  - split_and!; [apply clock_range|apply I2|apply I2].
  - rewrite !Hlater; lia.
  - intros t p r Ht. destruct (I5 t p r Ht) as (c & ? & ? & ? & ? & ? & ?). specialize (Hdr t p r Ht). exists c. split_and!; try done.
    rewrite !Hlater; lia.
Qed.

Lemma init_ok T lbolt : 0 <= T < CALLOUT_TABLES → in_clock lbolt → inv T (Sys (init_table lp64 T lbolt) lbolt ∅) (View (λ _ _, []) []).
Proof.
  intros HT Hl. pose proof W_range. pose proof M_pos. change CALLOUT_TABLES with 16 in HT. split; cbn [s_ct s_lbolt s_run].
  - split; cbn; try done.
    + intros []; apply length_replicate.
    + intros [] i Hi; by apply lookup_replicate_2.
    + intros w i [] p l2 E; done.
    + constructor.
    + intros w i p. rewrite lookup_empty. set_solver.
    + intros [] p l2 E; done.
    + constructor.
  - by cbn.
  - cbn. rewrite dist_same. lia.
  - intros p c [E _]. cbn in E. by rewrite lookup_empty in E.
  - intros t p r. by rewrite lookup_empty.
  - intros p q c c' [E _]. cbn in E. by rewrite lookup_empty in E.
  - cbn. assert (T ∈ seqZ 0 16) as Hin by (apply elem_of_seqZ; lia). clear -Hin. unfold id_of, id_ok. cbn in Hin.
    repeat (apply elem_of_cons in Hin as [->|Hin]; [destruct lp64; vm_compute; intuition congruence|]). by apply not_elem_of_nil in Hin.
Qed.

(** ** Operations of the system *)

(** [Execute] is a thread's entry into [callout_execute], [Return_from] the
    return of the call that it has made. *)
Inductive op :=
  | Tick
  | Timeout (func arg delta : Z) (fresh : nat) (dropped : bool)
  | Untimeout (id self : Z)
  | Schedule
  | Execute (self : Z)
  | Return_from (self : Z).

#[global] Instance op_eq_dec : EqDecision op.
Proof. solve_decision. Defined.

(** What is seen of an operation: the ID, the result of [untimeout], whether
    [callout_execute] is dispatched, the function that is called and its
    argument. *)
Inductive output :=
  | Nothing
  | New_id (id : Z)
  | Untimed (r : untimeout_result)
  | Dispatched (b : bool)
  | Calls (f : option (Z * Z)).

(** A thread calls the callout that [callout_execute] has marked, if any. *)
Definition call_next (self lbolt : Z) (runs : gmap Z (nat * Z)) (res : callout_table * option (nat * Z)) : option (sys * output) :=
  let '(ct, next) := res in
  match next with
  | None => Some (Sys ct lbolt runs, Calls None)
  | Some (cp, r) =>
      let! c := ct_mem ct !! cp in
      Some (Sys ct lbolt (<[self := (cp, r)]> runs), Calls (Some (c_func c, c_arg c)))
  end.

Definition do_op (o : op) (s : sys) : option (sys * output) :=
  let '(Sys ct lbolt runs) := s in
  match o with
  | Tick => Some (Sys ct (clock_t lp64 (lbolt + 1)) runs, Nothing)
  | Timeout func arg delta fresh dropped =>
      let! (ct, id) := timeout_common lp64 lbolt func arg delta fresh dropped ct in
      Some (Sys ct lbolt runs, New_id id)
  | Untimeout id self =>
      let! (ct, r) := untimeout lp64 id self lbolt ct in
      Some (Sys ct lbolt runs, Untimed r)
  | Schedule =>
      let! (ct, b) := callout_schedule_1 lp64 lbolt ct in
      Some (Sys ct lbolt runs, Dispatched b)
  | Execute self =>
      let! res := callout_execute lp64 self ct in
      call_next self lbolt runs res
  | Return_from self =>
      let! (cp, r) := runs !! self in
      let! res := callout_return lp64 self ct cp r in
      call_next self lbolt (delete self runs) res
  end.

(** The ID the next [timeout] returns. *)
Definition upcoming_id (ct : callout_table) (delta : Z) : Z :=
  next_id lp64 (if delta >? CALLOUT_LONGTERM_TICKS then ct_long_id ct else ct_short_id ct).

(** When an operation may happen.  The clock does not get half its range ahead
    of the callouts that are due, a callout is not set further ahead than
    that, and a counter of IDs does not come around to an ID that a cell still
    has.  A thread is in [callout_execute] once. *)
Definition op_ok (s : sys) (o : op) : Prop :=
  match o with
  | Tick =>
      dist (s_lbolt s) (ct_runtime (s_ct s)) + 2 < M ∧
      map_Forall (λ _ x, dist (s_lbolt s) x.2 + 1 < M) (s_run s)
  | Timeout func arg delta fresh dropped =>
      ct_mem (s_ct s) !! fresh = None ∧ delta < M ∧ dist (s_lbolt s) (ct_runtime (s_ct s)) + Z.max 1 delta < M ∧
      map_Forall (λ _ c, base_id c ≠ upcoming_id (s_ct s) delta) (ct_mem (s_ct s))
  | Untimeout id self => 0 <= id < M
  | Schedule => True
  | Execute self => s_run s !! self = None
  | Return_from self => is_Some (s_run s !! self)
  end.

#[global] Instance op_ok_dec s o : Decision (op_ok s o).
Proof. destruct o; apply _. Defined.

(** ** The abstract system *)

(** A callout: when it is due on a clock that does not wrap around, what it
    calls, and the thread that calls it. *)
Record acall := ACall {
  x_time : Z;
  x_func : Z;
  x_arg : Z;
  x_by : option Z
}.

(** The clock, the tick of the last [callout_schedule], and the callouts by
    ID. *)
Record asys := ASys {
  a_now : Z;
  a_cur : Z;
  a_calls : gmap Z acall
}.

(** Some callout that nobody has called yet is due at [t]. *)
Definition some_due (t : Z) (m : gmap Z acall) : Prop := ∃ id x, m !! id = Some x ∧ x_by x = None ∧ x_time x <= t.

(** A thread takes any callout that is due, and stops only if none is. *)
Inductive pick (cur self : Z) (m : gmap Z acall) : output → gmap Z acall → Prop :=
  | Pick_call id x :
      m !! id = Some x → x_by x = None → x_time x <= cur →
      pick cur self m (Calls (Some (x_func x, x_arg x))) (<[id := ACall (x_time x) (x_func x) (x_arg x) (Some self)]> m)
  | Pick_none : ¬ some_due cur m → pick cur self m (Calls None) m.

Inductive untimed (now id self : Z) (m : gmap Z acall) : untimeout_result → gmap Z acall → Prop :=
  | Untimed_removed x :
      m !! id = Some x → x_by x = None → untimed now id self m (Removed (Z.max 0 (x_time x - now))) (delete id m)
  | Untimed_self x : m !! id = Some x → x_by x = Some self → untimed now id self m Executing_self m
  | Untimed_wait x t cp xid : m !! id = Some x → x_by x = Some t → t ≠ self → untimed now id self m (Wait_for cp xid) m
  | Untimed_none : m !! id = None → untimed now id self m Not_found m
  | Untimed_panic : m !! id = None → ¬ id_ok id → id ≠ 0 → untimed now id self m Panic m.

Inductive astep (T : Z) : asys → op → output → asys → Prop :=
  | A_tick n k m : astep T (ASys n k m) Tick Nothing (ASys (n + 1) k m)
  | A_timeout n k m func arg delta fresh dropped id :
      m !! id = None → id_of T (delta >? CALLOUT_LONGTERM_TICKS) id →
      astep T (ASys n k m) (Timeout func arg delta fresh dropped) (New_id id)
        (ASys n k (<[id := ACall (n + Z.max 1 delta) func arg None]> m))
  | A_untimeout n k m id self r m' :
      untimed n id self m r m' → astep T (ASys n k m) (Untimeout id self) (Untimed r) (ASys n k m')
  | A_schedule n k m b :
      (b = true ↔ some_due n m) → astep T (ASys n k m) Schedule (Dispatched b) (ASys n n m)
  | A_execute n k m self out m' :
      pick k self m out m' → astep T (ASys n k m) (Execute self) out (ASys n k m')
  | A_return n k m self id x out m' :
      m !! id = Some x → x_by x = Some self → pick k self (delete id m) out m' →
      astep T (ASys n k m) (Return_from self) out (ASys n k m').

(** ** The relation *)

Definition call_of (now lbolt : Z) (c : callout) : acall :=
  ACall (now - dist lbolt (c_runtime c)) (c_func c) (c_arg c) (if executing c then Some (c_executor c) else None).

Definition shows (now lbolt : Z) (ct : callout_table) (v : view) (m : gmap Z acall) : Prop :=
  ∀ id x, m !! id = Some x ↔ ∃ p c, in_use ct v p c ∧ base_id c = id ∧ x = call_of now lbolt c.

Definition refines (T : Z) (s : sys) (a : asys) : Prop :=
  ∃ v, inv T s v ∧ s_lbolt s = clock_t lp64 (a_now a) ∧
    a_cur a = a_now a - dist (s_lbolt s) (ct_curtime (s_ct s)) ∧ shows (a_now a) (s_lbolt s) (s_ct s) v (a_calls a) ∧
    map_Forall (λ _ x, x_time x < a_now a + M) (a_calls a).

Lemma same_data_call_of now lbolt c c' : same_data c c' → base_id c' = base_id c ∧ call_of now lbolt c' = call_of now lbolt c.
Proof.
  intros Hs. destruct (same_data_executing _ _ Hs) as [Ee Eb]. destruct Hs as (_ & Er & Ef & Ea & Ex).
  split; [done|]. unfold call_of. by rewrite Ee, Er, Ef, Ea, Ex.
Qed.

(** Only the cell [cp] changes. *)
Definition others_same (cp : nat) (ct : callout_table) (v : view) (ct' : callout_table) (v' : view) : Prop :=
  ∀ q, q ≠ cp → option_Forall2 same_data (ct_mem ct !! q) (ct_mem ct' !! q) ∧ (q ∈ v_free v' ↔ q ∈ v_free v).

Lemma use_others now lbolt cp ct v ct' v' q id x :
  others_same cp ct v ct' v' → q ≠ cp →
  (∃ c, in_use ct' v' q c ∧ base_id c = id ∧ x = call_of now lbolt c) ↔
  (∃ c, in_use ct v q c ∧ base_id c = id ∧ x = call_of now lbolt c).
Proof.
  intros Ho Hq. destruct (Ho q Hq) as [Hd Hf]. unfold in_use. setoid_rewrite Hf. destruct Hd as [c c' Hs|]; [|naive_solver].
  destruct (same_data_call_of now lbolt c c' Hs) as [E1 E2].
  split; intros (c0 & [[= <-] ?] & ? & ?); eexists; (split; [done|]); split; congruence.
Qed.

Lemma shows_free now lbolt T s v m ct' v' cp c :
  inv T s v → shows now lbolt (s_ct s) v m → in_use (s_ct s) v cp c → others_same cp (s_ct s) v ct' v' → cp ∈ v_free v' →
  shows now lbolt ct' v' (delete (base_id c) m).
Proof.
  intros Hinv Hm Hcp Ho Hf id x. rewrite lookup_delete_Some, (Hm id x). split.
  - intros (Hne & p & c0 & Hp & E & Ex). assert (p ≠ cp) as Hpc.
    { intros ->. apply Hne. destruct Hp, Hcp. congruence. }
    destruct (proj2 (use_others now lbolt cp _ v ct' v' p id x Ho Hpc)) as (c' & H); [by exists c0|]. by exists p, c'.
  - intros (p & c' & Hp & E & Ex). assert (p ≠ cp) as Hpc by (intros ->; destruct Hp; done).
    destruct (proj1 (use_others now lbolt cp _ v ct' v' p id x Ho Hpc)) as (c0 & Hp0 & E0 & Ex0); [by exists c'|].
    split; [|by exists p, c0]. intros Eb. apply Hpc, (i_uniq _ _ _ Hinv p cp c0 c); [done|done|congruence].
Qed.

Lemma shows_add now lbolt ct v m ct' v' cp c' :
  shows now lbolt ct v m → (∀ c, ¬ in_use ct v cp c) → others_same cp ct v ct' v' → in_use ct' v' cp c' →
  m !! base_id c' = None → shows now lbolt ct' v' (<[base_id c' := call_of now lbolt c']> m).
Proof.
  intros Hm Hno Ho Hcp Hnew id x. rewrite lookup_insert_Some, (Hm id x). split.
  - intros [[E Ex]|(Hne & p & c & Hp & E & Ex)]; [by exists cp, c'|]. assert (p ≠ cp) as Hpc by (intros ->; by apply (Hno c)).
    destruct (proj2 (use_others now lbolt cp ct v ct' v' p id x Ho Hpc)) as (c0 & H); [by exists c|]. by exists p, c0.
  - intros (p & c & Hp & E & Ex). destruct (decide (p = cp)) as [->|Hpc].
    + left. destruct Hp, Hcp. assert (c = c') as -> by congruence. by split.
    + right. destruct (proj1 (use_others now lbolt cp ct v ct' v' p id x Ho Hpc)) as (c0 & Hp0 & E0 & Ex0); [by exists c|].
      split; [|by exists p, c0]. intros Eb. assert (m !! id = Some x) as Hx by (apply Hm; by exists p, c0). congruence.
Qed.

(** A cell that keeps its ID. *)
Lemma shows_change now lbolt T s v m ct' cp c c' :
  inv T s v → shows now lbolt (s_ct s) v m → in_use (s_ct s) v cp c → ct_mem ct' = <[cp := c']> (ct_mem (s_ct s)) →
  base_id c' = base_id c → shows now lbolt ct' v (<[base_id c := call_of now lbolt c']> m).
Proof.
  intros Hinv Hm Hcp Em Eb id x. rewrite lookup_insert_Some, (Hm id x). unfold in_use. rewrite Em. split.
  - intros [[E Ex]|(Hne & p & c0 & Hp & E & Ex)].
    + exists cp, c'. rewrite lookup_insert_eq. destruct Hcp. split_and!; try done. congruence.
    + assert (p ≠ cp) as Hpc by (intros ->; apply Hne; destruct Hp, Hcp; congruence).
      exists p, c0. by rewrite lookup_insert_ne.
  - intros (p & c0 & [Hp Hf] & E & Ex). destruct (decide (p = cp)) as [->|Hpc].
    + rewrite lookup_insert_eq in Hp. left. split; congruence.
    + rewrite lookup_insert_ne in Hp by done. right. split; [|by exists p, c0].
      intros Ei. apply Hpc, (i_uniq _ _ _ Hinv p cp c0 c); [done|done|congruence].
Qed.

(** Pending callouts are not before [ct_runtime]. *)
Lemma pending_time T s v p c :
  inv T s v → in_use (s_ct s) v p c → executing c = false →
  dist (s_lbolt s) (c_runtime c) <= dist (s_lbolt s) (ct_runtime (s_ct s)).
Proof.
  intros Hinv Hp He. destruct (i_use _ _ _ Hinv p c Hp) as (_ & _ & Hx). rewrite He in Hx. destruct Hx as [_ Hx].
  pose proof (i_cur _ _ _ Hinv). pose proof (dist_range (c_runtime c) (ct_runtime (s_ct s))).
  pose proof (dist_range (s_lbolt s) (ct_runtime (s_ct s))). pose proof M_pos. unfold in_clock in *.
  rewrite (dist_split (s_lbolt s) (ct_runtime (s_ct s)) (c_runtime c)); unfold in_clock; lia.
Qed.

(** What is due. *)
Lemma not_due_none now T s v m t :
  inv T s v → shows now (s_lbolt s) (s_ct s) v m → t < now - dist (s_lbolt s) (ct_runtime (s_ct s)) → ¬ some_due t m.
Proof.
  intros Hinv Hm Ht (id & x & Hx & Hby & Hle). apply Hm in Hx as (p & c & Hp & _ & ->). unfold call_of in *. cbn in *.
  destruct (executing c) eqn:He; [done|]. pose proof (pending_time T s v p c Hinv Hp He). lia.
Qed.

Lemma shows_lookup now lbolt ct v m p c : shows now lbolt ct v m → in_use ct v p c → m !! base_id c = Some (call_of now lbolt c).
Proof. intros Hm Hp. apply Hm. by exists p, c. Qed.

(** ** Simulation *)

Definition simulated (T : Z) (s : sys) (a : asys) (o : op) : Prop :=
  ∃ s' out a', do_op o s = Some (s', out) ∧ astep T a o out a' ∧ refines T s' a'.

Lemma sim_tick T s a : refines T s a → op_ok s Tick → simulated T s a Tick.
Proof.
  destruct s as [ct lbolt runs], a as [n k m]. intros (v & Hinv & Hl & Hk & Hm & Hfar) [Hd Hr]. cbn [s_lbolt s_ct s_run a_now a_cur a_calls] in *.
  assert (∀ x, -M <= dist lbolt x → dist lbolt x + 1 < M → dist (clock_t lp64 (lbolt + 1)) x = dist lbolt x + 1) as Hlater.
  { intros x ? ?. apply dist_later. pose proof M_pos. unfold in_clock. lia. }
  assert (∀ t p r, runs !! t = Some (p, r) → dist lbolt r + 1 < M) as Hr' by (intros t p r Ht; apply (Hr t (p, r) Ht)).
  assert (∀ p c, in_use ct v p c → call_of (n + 1) (clock_t lp64 (lbolt + 1)) c = call_of n lbolt c) as Hcall.
  { intros p c Hp. unfold call_of. f_equal. rewrite Hlater; [lia|pose proof (dist_range lbolt (c_runtime c)); unfold in_clock in *; lia|].
    destruct (executing c) eqn:He.
    - destruct (i_use _ _ _ Hinv p c Hp) as (_ & _ & Hx). rewrite He in Hx. by apply (Hr' _ _ _ Hx).
    - pose proof (pending_time T _ v p c Hinv Hp He). cbn in *. lia. }
  eexists _, _, (ASys (n + 1) k m). split; [done|]. split; [constructor|]. exists v. cbn [s_lbolt s_ct s_run a_now a_cur a_calls].
  pose proof (i_cur _ _ _ Hinv) as Hc. cbn in Hc. pose proof M_pos. split_and!.
  - by apply (tick_ok T (Sys ct lbolt runs)).
  - rewrite Hl. unfold clock_t. apply wraps_wraps_add. pose proof W_range. lia.
  - rewrite Hlater; lia.
  - intros id x. rewrite (Hm id x). split; intros (p & c & Hp & E & ->); exists p, c; by rewrite (Hcall p c Hp).
  - intros id x Hx. pose proof (Hfar id x Hx). cbn in *. lia.
Qed.

Lemma sim_timeout T s a func arg delta fresh dropped :
  refines T s a → op_ok s (Timeout func arg delta fresh dropped) → simulated T s a (Timeout func arg delta fresh dropped).
Proof.
  destruct s as [ct lbolt runs], a as [n k m]. intros (v & Hinv & Hl & Hk & Hm & Hfar) (Hfr & Hdm & Hd & Hnew).
  cbn [s_lbolt s_ct s_run a_now a_cur a_calls] in *.
  destruct (timeout_ok T _ v func arg delta fresh dropped Hinv Hfr Hdm Hd) as
    (ct' & id & v' & cp & c' & Ht & Hinv' & Hid & Eid & Ecur & Hno & Hcp & Ex & Ef & Ea & Er & Ho).
  { intros p c [Hp _]. exact (Hnew p c Hp). }
  cbn [s_lbolt s_ct s_run] in *.
  assert (executing c' = false) as He by (unfold executing; apply Z.leb_gt; destruct Hid as ([? _] & _); lia).
  assert (base_id c' = id) as Hb by (unfold base_id; by rewrite He).
  pose proof (i_cur _ _ _ Hinv) as Hc. cbn in Hc. pose proof M_pos. pose proof W_range.
  assert (call_of n lbolt c' = ACall (n + Z.max 1 delta) func arg None) as Hcall.
  { unfold call_of. rewrite Er, Ef, Ea, He. f_equal. rewrite dist_earlier; rewrite dist_same; [lia|unfold in_clock; lia]. }
  assert (m !! id = None) as Hmid.
  { destruct (m !! id) as [x|] eqn:E; [|done]. apply Hm in E as (p & c & [Hp _] & Eb & _). exfalso. apply (Hnew p c Hp).
    by rewrite Eb, Eid. }
  eexists _, _, (ASys n k _). split; [cbn; by rewrite Ht|]. split; [by apply A_timeout|].
  exists v'. cbn [s_lbolt s_ct s_run a_now a_cur a_calls]. split_and!; [done|done|by rewrite Ecur| |].
  - rewrite <- Hcall, <- Hb. apply (shows_add n lbolt ct v m ct' v' cp c'); try done. by rewrite Hb.
  - apply map_Forall_insert_2; [cbn; lia|done].
Qed.

Lemma sim_untimeout T s a id self : refines T s a → op_ok s (Untimeout id self) → simulated T s a (Untimeout id self).
Proof.
  destruct s as [ct lbolt runs], a as [n k m]. intros (v & Hinv & Hl & Hk & Hm & Hfar) Hid. cbn [s_lbolt s_ct s_run a_now a_cur a_calls op_ok] in *.
  destruct (untimeout_ok T _ v id self Hinv Hid) as ([ct' r] & Hu & Hpost). cbn [s_lbolt s_ct s_run] in *.
  unfold simulated. cbn [do_op]. rewrite Hu. unfold untimeout_post in Hpost. cbn [fst snd s_lbolt s_ct s_run] in Hpost.
  assert ((∀ p c, in_use ct v p c → ¬ has_id id c) → m !! id = None) as Hnone.
  { intros Hno. destruct (m !! id) as [x|] eqn:E; [|done]. apply Hm in E as (p & c & Hp & Eb & _). by apply Hno in Hp. }
  assert (∀ p c, in_use ct v p c → has_id id c → m !! id = Some (call_of n lbolt c)) as Hsome.
  { intros p c Hp <-. by eapply shows_lookup. }
  assert (refines T (Sys ct lbolt runs) (ASys n k m)) as Href by (by exists v).
  destruct r as [ticks| |cp xid| |].
  - destruct Hpost as (p & c & v' & Hp & Hi & He & -> & Hinv' & Hf' & Ecur & Hd).
    eexists _, _, (ASys n k _). split; [done|]. split.
    + apply A_untimeout. replace (dist (c_runtime c) lbolt) with (x_time (call_of n lbolt c) - n).
      * apply Untimed_removed; [by apply (Hsome p)|]. unfold call_of. by rewrite He.
      * pose proof (Hfar id _ (Hsome p c Hp Hi)) as Hlt. cbn in *. pose proof (dist_range lbolt (c_runtime c)).
        pose proof M_pos. unfold in_clock in *.
        rewrite (dist_via lbolt lbolt (c_runtime c)); rewrite dist_same; [lia|unfold in_clock; lia].
    + exists v'. cbn [s_lbolt s_ct s_run a_now a_cur a_calls]. split_and!; [done|done|by rewrite Ecur| |].
      * rewrite <- Hi. apply (shows_free n lbolt T (Sys ct lbolt runs) v m ct' v' p c); try done; [|rewrite Hf'; by left].
        intros q Hq. split; [apply Hd|]. rewrite Hf'. set_solver.
      * by apply map_Forall_delete.
  - destruct Hpost as (-> & p & c & Hp & Hi & He & Hx). eexists _, _, (ASys n k m). split; [done|]. split; [|done].
    apply A_untimeout. eapply Untimed_self; [by apply (Hsome p)|]. unfold call_of. by rewrite He, Hx.
  - destruct Hpost as (-> & c & Hp & Hi & He & Hx & _). eexists _, _, (ASys n k m). split; [done|]. split; [|done].
    apply A_untimeout. eapply Untimed_wait; [by apply (Hsome cp)| |exact Hx]. unfold call_of. by rewrite He.
  - destruct Hpost as (-> & Hno). eexists _, _, (ASys n k m). split; [done|]. split; [|done]. apply A_untimeout, Untimed_none, Hnone, Hno.
  - destruct Hpost as (-> & Hb & H0 & Hno). eexists _, _, (ASys n k m). split; [done|]. split; [|done].
    apply A_untimeout, Untimed_panic; [by apply Hnone|done|done].
Qed.

Lemma sim_schedule T s a : refines T s a → simulated T s a Schedule.
Proof.
  destruct s as [ct lbolt runs], a as [n k m]. intros (v & Hinv & Hl & Hk & Hm & Hfar). cbn [s_lbolt s_ct s_run a_now a_cur a_calls] in *.
  destruct (schedule_ok T _ v Hinv) as ([ct' b] & Hs & Hpost). cbn [s_lbolt s_ct s_run] in *.
  unfold schedule_post in Hpost. cbn [fst snd] in Hpost. destruct Hpost as (Em & Hinv' & Ec & Hb).
  assert (shows n lbolt ct' v m) as Hm'.
  { intros id x. unfold in_use. rewrite Em. apply (Hm id x). }
  eexists _, _, (ASys n n m). split; [cbn; by rewrite Hs|]. split.
  - apply A_schedule. destruct b; (split; intros H; try done).
    + destruct Hb as (p & c & Hp & He & Er & Hd). exists (base_id c), (call_of n lbolt c). split; [exact (shows_lookup _ _ _ _ _ _ _ Hm Hp)|].
      unfold call_of. rewrite He. cbn. split; [done|]. lia.
    + exfalso. apply (not_due_none n T (Sys ct' lbolt runs) v m n Hinv' Hm'); [|done]. cbn.
      destruct (dist_cur_run T _ v Hinv') as [Hd _]. cbn in Hd. rewrite Ec, dist_same in Hd. lia.
  - exists v. cbn [s_lbolt s_ct s_run a_now a_cur a_calls]. rewrite Ec, dist_same. split_and!; try done. lia.
Qed.

(** A thread goes on to its next call. *)
Lemma sim_pick T ct lbolt runs v self res n k m :
  inv T (Sys ct lbolt runs) v → lbolt = clock_t lp64 n → k = n - dist lbolt (ct_curtime ct) → shows n lbolt ct v m →
  map_Forall (λ _ x, x_time x < n + M) m → execute_post T ct lbolt runs v self res →
  ∃ s' out m', call_next self lbolt runs res = Some (s', out) ∧ pick k self m out m' ∧ refines T s' (ASys n k m').
Proof.
  intros Hinv Hl Hk Hm Hfar Hpost. destruct res as [ct' [[cp r]|]]; unfold execute_post in Hpost; cbn [fst snd] in Hpost.
  - destruct Hpost as (c & Hcp & He & Er & Hd & Em & Hinv' & Ec). pose proof (shows_lookup _ _ _ _ _ _ _ Hm Hcp) as Hx.
    set (c' := set_xid c _ self) in *.
    assert (in_use ct' v cp c') as Hcp' by (split; [rewrite Em; apply lookup_insert_eq|apply Hcp]).
    assert (executing c' = true ∧ base_id c' = base_id c) as [He' Hb'].
    { destruct (i_use _ _ _ Hinv cp c Hcp) as (_ & [Hb _] & _). unfold base_id, executing in *. rewrite He in *.
      unfold c'. cbn [c_xid set_xid]. rewrite lor_executing by done. destruct (Z.leb_spec M (c_xid c + M)); [split; [done|lia]|lia]. }
    eexists _, _, _. split; [cbn; rewrite (proj1 Hcp'); done|]. split.
    + apply (Pick_call k self m (base_id c) (call_of n lbolt c)); [done| |cbn; rewrite Er; lia]. unfold call_of. by rewrite He.
    + exists v. cbn [s_lbolt s_ct s_run a_now a_cur a_calls]. split_and!; [done|done|by rewrite Ec| |].
      * replace (ACall _ _ _ _) with (call_of n lbolt c') by (unfold call_of; by rewrite He').
        by apply (shows_change n lbolt T (Sys ct lbolt runs) v m ct' cp c c').
      * apply map_Forall_insert_2; [|done]. exact (Hfar _ _ Hx).
  - destruct Hpost as (Em & Hinv' & Ec & Hd). assert (shows n lbolt ct' v m) as Hm'.
    { intros id x. unfold in_use. rewrite Em. apply (Hm id x). }
    eexists _, _, m. split; [done|]. split.
    + apply Pick_none, (not_due_none n T (Sys ct' lbolt runs) v m k Hinv' Hm'). cbn.
      destruct (dist_cur_run T _ v Hinv') as [Hd' _]. cbn in Hd'. rewrite Ec in *. lia.
    + exists v. cbn [s_lbolt s_ct s_run a_now a_cur a_calls]. by rewrite Ec.
Qed.

Lemma sim_execute T s a self : refines T s a → op_ok s (Execute self) → simulated T s a (Execute self).
Proof.
  destruct s as [ct lbolt runs], a as [n k m]. intros (v & Hinv & Hl & Hk & Hm & Hfar) Hself.
  destruct (execute_ok T _ v self Hinv Hself) as (res & He & Hpost). cbn [s_lbolt s_ct s_run a_now a_cur a_calls] in *.
  destruct (sim_pick T ct lbolt runs v self res n k m Hinv Hl Hk Hm Hfar Hpost) as (s' & out & m' & Hn & Hp & Href).
  exists s', out, (ASys n k m'). split; [cbn; by rewrite He|]. split; [by constructor|done].
Qed.

Lemma sim_return T s a self : refines T s a → op_ok s (Return_from self) → simulated T s a (Return_from self).
Proof.
  destruct s as [ct lbolt runs], a as [n k m]. intros (v & Hinv & Hl & Hk & Hm & Hfar) [[cp r] Hself].
  cbn [s_lbolt s_ct s_run a_now a_cur a_calls] in *.
  destruct (i_run _ _ _ Hinv self cp r Hself) as (c & Hcp & He & Hx & _). cbn [s_ct] in Hcp.
  destruct (return_ok T _ v self cp r Hinv Hself) as (ct1 & v1 & c1 & res & Hret & Hf & Hc1 & Hx1 & Ho & Hinv1 & Ec & Hpost).
  cbn [s_lbolt s_ct s_run] in *.
  assert (shows n lbolt ct1 v1 (delete (base_id c) m)) as Hm1.
  { apply (shows_free n lbolt T (Sys ct lbolt runs) v m ct1 v1 cp c); try done; [|rewrite Hf; by left].
    intros q Hq. split; [by apply Ho|]. rewrite Hf. set_solver. }
  assert (k = n - dist lbolt (ct_curtime ct1)) as Hk1 by (by rewrite Ec).
  destruct (sim_pick T ct1 lbolt (delete self runs) v1 self res n k _ Hinv1 Hl Hk1 Hm1 (map_Forall_delete _ _ _ Hfar) Hpost)
    as (s' & out & m' & Hn & Hp & Href).
  exists s', out, (ASys n k m'). split; [cbn; by rewrite Hself, Hret|]. split; [|done].
  apply (A_return T n k m self (base_id c) (call_of n lbolt c)); [by eapply shows_lookup| |done].
  unfold call_of. by rewrite He, Hx.
Qed.

Lemma simulation T s a o : refines T s a → op_ok s o → simulated T s a o.
Proof.
  intros Href Hok. destruct o; eauto using sim_tick, sim_timeout, sim_untimeout, sim_schedule, sim_execute, sim_return.
Qed.

Lemma init_refines T now : 0 <= T < CALLOUT_TABLES → in_clock now →
  refines T (Sys (init_table lp64 T now) now ∅) (ASys now now ∅).
Proof.
  intros HT Hn. exists (View (λ _ _, []) []). cbn. split; [by apply init_ok|]. split; [symmetry; by apply clock_id|].
  split; [rewrite dist_same; lia|]. split; [|apply map_Forall_empty].
  intros id x. rewrite lookup_empty. split; [done|]. intros (p & c & [Hp _] & _). cbn in Hp. by rewrite lookup_empty in Hp.
Qed.

(** ** Traces *)

Inductive trace (s0 : sys) : list (op * output) → sys → Prop :=
  | trace_nil : trace s0 [] s0
  | trace_snoc tr s o out s' : trace s0 tr s → op_ok s o → do_op o s = Some (s', out) → trace s0 (tr ++ [(o, out)]) s'.

Inductive atrace (T : Z) (a0 : asys) : list (op * output) → asys → Prop :=
  | atrace_nil : atrace T a0 [] a0
  | atrace_snoc tr a o out a' : atrace T a0 tr a → astep T a o out a' → atrace T a0 (tr ++ [(o, out)]) a'.

Lemma trace_refines T s0 a0 tr s :
  refines T s0 a0 → trace s0 tr s → ∃ a, atrace T a0 tr a ∧ refines T s a.
Proof.
  intros H0. induction 1 as [|tr s o out s' _ (a & Ha & Href) Hok Hdo]; [exists a0; split; [constructor|done]|].
  destruct (simulation T s a o Href Hok) as (s1 & out1 & a1 & Hdo1 & Hst & Href1). assert (s1 = s' ∧ out1 = out) as [-> ->] by (split; congruence).
  exists a1. split; [by econstructor|done].
Qed.

(** Ticks of the clock in a trace. *)
Definition ticks (tr : list (op * output)) : Z := Z.of_nat (length (filter (λ e, e.1 = Tick) tr)).

Lemma ticks_snoc tr o out : ticks (tr ++ [(o, out)]) = ticks tr + if decide (o = Tick) then 1 else 0.
Proof.
  unfold ticks. rewrite filter_app, length_app, filter_cons, filter_nil. cbn [fst]. destruct (decide (o = Tick)); cbn; lia.
Qed.

(** Times on the abstract clock: a callout in the table was set by an earlier
    [timeout], with its delay before it. *)
Definition set_by (tr : list (op * output)) (a : asys) (x : acall) : Prop :=
  ∃ tr1 d fresh dropped id tr2, tr = tr1 ++ (Timeout (x_func x) (x_arg x) d fresh dropped, New_id id) :: tr2 ∧
    x_time x - a_now a = Z.max 1 d - ticks tr2.

Lemma set_by_snoc tr a x o out a' :
  set_by tr a x → a_now a' = a_now a + (if decide (o = Tick) then 1 else 0) → set_by (tr ++ [(o, out)]) a' x.
Proof.
  intros (tr1 & d & fresh & dr & id & tr2 & -> & E) Ea. exists tr1, d, fresh, dr, id, (tr2 ++ [(o, out)]).
  split; [by rewrite <- app_assoc|]. rewrite ticks_snoc, Ea. lia.
Qed.

(** An operation moves the clock only if it is a tick, and the callouts of the
    table are those there were, except for a new one. *)
Lemma astep_calls T a o out a' :
  astep T a o out a' → a_cur a <= a_now a →
  a_cur a' <= a_now a' ∧ a_now a' = a_now a + (if decide (o = Tick) then 1 else 0) ∧
  ∀ id x', a_calls a' !! id = Some x' →
    (∃ x, a_calls a !! id = Some x ∧ x_time x' = x_time x ∧ x_func x' = x_func x ∧ x_arg x' = x_arg x) ∨
    (∃ d fresh dropped, o = Timeout (x_func x') (x_arg x') d fresh dropped ∧ out = New_id id ∧ x_time x' = a_now a + Z.max 1 d).
Proof.
  assert (∀ cur self m out m', pick cur self m out m' → ∀ id x', m' !! id = Some x' →
    ∃ x, m !! id = Some x ∧ x_time x' = x_time x ∧ x_func x' = x_func x ∧ x_arg x' = x_arg x) as Hpick.
  { intros cur self m ot m' [id x Hx Hby Hle|Hno] i x'; [|naive_solver].
    rewrite lookup_insert_Some. intros [[<- <-]|[_ ?]]; [by exists x|by exists x']. }
  destruct 1 as [n k m|n k m func arg delta fresh dropped id Hm Hid|n k m id self r m' Hu|n k m b Hb|n k m self out m' Hp|n k m self id x out m' Hx Hby Hp];
    cbn [a_now a_cur a_calls]; intros Hle; (split; [lia|]); (split; [case_decide; (done || lia)|]); intros i x'.
  - left. by exists x'.
  - rewrite lookup_insert_Some. intros [[<- <-]|[_ ?]]; [right; by eexists _, _, _|left; by exists x'].
  - intros Hi. left. exists x'. split; [|done]. destruct Hu; try done. by apply lookup_delete_Some in Hi as [_ ?].
  - left. by exists x'.
  - left. by eapply Hpick.
  - intros (x0 & Hx0 & ?)%(Hpick _ _ _ _ _ Hp). left. exists x0. split; [|done]. by apply lookup_delete_Some in Hx0 as [_ ?].
Qed.

Lemma atrace_set_by T n tr a :
  atrace T (ASys n n ∅) tr a → a_cur a <= a_now a ∧ ∀ id x, a_calls a !! id = Some x → set_by tr a x.
Proof.
  induction 1 as [|tr a o out a' _ [Hle IH] Hst]; [cbn; split; [lia|]; intros id x; by rewrite lookup_empty|].
  destruct (astep_calls T a o out a' Hst Hle) as (Hle' & En & Hc). split; [done|]. intros id x' Hx'.
  destruct (Hc id x' Hx') as [(x & Hx & E1 & E2 & E3)|(d & fresh & dr & -> & -> & Et)].
  - destruct (set_by_snoc tr a x o out a' (IH id x Hx) En) as (tr1 & d & fresh & dr & i & tr2 & Etr & Et).
    exists tr1, d, fresh, dr, i, tr2. by rewrite E1, E2, E3.
  - exists tr, d, fresh, dr, id, []. split; [done|]. rewrite Et, En, decide_False by done. change (ticks []) with 0. lia.
Qed.

Lemma astep_called T a o f x a' :
  astep T a o (Calls (Some (f, x))) a' → ∃ id c, a_calls a !! id = Some c ∧ x_func c = f ∧ x_arg c = x ∧ x_time c <= a_cur a.
Proof.
  inversion 1 as [| | | |n k m self out m' Hp|n k m self id y out m' Hy Hby Hp]; subst; inversion Hp; subst; cbn; eexists _, _;
    (split; [|done]); [done|]. by eapply lookup_delete_Some.
Qed.

(** ** Counting *)

Definition count (P : op * output → bool) (tr : list (op * output)) : nat := length (List.filter P tr).

(** The calls of [f] with [x], and the [timeout]s that asked for them. *)
Definition is_call (f x : Z) (e : op * output) : bool :=
  match e.2 with Calls (Some (g, y)) => (g =? f) && (y =? x) | _ => false end.
Definition is_timeout (f x : Z) (e : op * output) : bool :=
  match e.1 with Timeout g y _ _ _ => (g =? f) && (y =? x) | _ => false end.

(** What the last [timeout] that returned an ID asked for. *)
Definition note (m : gmap Z (Z * Z)) (e : op * output) : gmap Z (Z * Z) :=
  match e with (Timeout f x _ _ _, New_id id) => <[id := (f, x)]> m | _ => m end.
Definition requests (tr : list (op * output)) : gmap Z (Z * Z) := foldl note ∅ tr.

(** An [untimeout] that found and removed what had been asked for: [m] says
    what the IDs stand for. *)
Definition is_removed (f x : Z) (m : gmap Z (Z * Z)) (e : op * output) : bool :=
  match e with (Untimeout id _, Untimed (Removed _)) => bool_decide (m !! id = Some (f, x)) | _ => false end.

(** The number of [timeout]s for [f] with [x] that were removed. *)
Definition removals (f x : Z) (tr : list (op * output)) : nat :=
  (foldl (λ st e, (note st.1 e, st.2 + Nat.b2n (is_removed f x st.1 e))%nat) (∅, 0%nat) tr).2.

Lemma count_snoc P tr e : count P (tr ++ [e]) = (count P tr + Nat.b2n (P e))%nat.
Proof. unfold count. rewrite List.filter_app, length_app. cbn. by destruct (P e). Qed.

Lemma requests_snoc tr e : requests (tr ++ [e]) = note (requests tr) e.
Proof. unfold requests. by rewrite foldl_app. Qed.

Lemma removals_snoc f x tr e : removals f x (tr ++ [e]) = (removals f x tr + Nat.b2n (is_removed f x (requests tr) e))%nat.
Proof.
  unfold removals. rewrite foldl_app. cbn. do 3 f_equal. induction tr as [|e' tr IH] using rev_ind; [done|].
  by rewrite requests_snoc, foldl_app, <- IH.
Qed.

(** Callouts in the table that nobody has called yet. *)
Definition wanted (f x : Z) (c : acall) : bool :=
  (x_func c =? f) && (x_arg c =? x) && (match x_by c with None => true | Some _ => false end).
Definition pending (f x : Z) (m : gmap Z acall) : nat := size (filter (λ ic, wanted f x ic.2 = true) m).

Lemma wanted_insert f x m id c :
  m !! id = None → pending f x (<[id := c]> m) = (pending f x m + Nat.b2n (wanted f x c))%nat.
Proof.
  intros Hm. unfold pending. destruct (wanted f x c) eqn:E.
  - rewrite map_filter_insert_True by done. rewrite map_size_insert_None; [cbn; lia|].
    apply map_lookup_filter_None. by left.
  - rewrite map_filter_insert_False, delete_id by (done || by cbn; rewrite E). cbn. lia.
Qed.

Lemma wanted_delete f x m id c :
  m !! id = Some c → pending f x m = (pending f x (delete id m) + Nat.b2n (wanted f x c))%nat.
Proof. intros Hm. rewrite <- (wanted_insert f x _ id) by apply lookup_delete_eq. by rewrite insert_delete_id. Qed.

Lemma wanted_change f x m id c c' :
  m !! id = Some c → (pending f x (<[id := c']> m) + Nat.b2n (wanted f x c))%nat = (pending f x m + Nat.b2n (wanted f x c'))%nat.
Proof.
  intros Hm. rewrite (wanted_delete f x m id c Hm), <- insert_delete_eq, wanted_insert by apply lookup_delete_eq. lia.
Qed.

(** Executed callouts are not pending. *)
Lemma wanted_by f x c t : x_by c = Some t → wanted f x c = false.
Proof. intros E. unfold wanted. rewrite E. apply andb_false_r. Qed.

Lemma wanted_free f x c : x_by c = None → wanted f x c = (x_func c =? f) && (x_arg c =? x).
Proof. intros E. unfold wanted. rewrite E. apply andb_true_r. Qed.

Lemma pick_pending cur self m out m' f x o :
  pick cur self m out m' → pending f x m = (pending f x m' + Nat.b2n (is_call f x (o, out)))%nat.
Proof.
  destruct 1 as [id c Hc Hby Hle|Hno]; [|cbn; lia].
  pose proof (wanted_change f x m id c (ACall (x_time c) (x_func c) (x_arg c) (Some self)) Hc) as H.
  rewrite (wanted_free f x c Hby), (wanted_by f x (ACall _ _ _ _) self eq_refl) in H. cbn in *. lia.
Qed.

(** The callouts of the table are what the IDs stand for. *)
Definition noted (m : gmap Z (Z * Z)) (calls : gmap Z acall) : Prop :=
  ∀ id c, calls !! id = Some c → m !! id = Some (x_func c, x_arg c).

Lemma pick_noted cur self calls out calls' m : pick cur self calls out calls' → noted m calls → noted m calls'.
Proof.
  intros [id c Hc _ _|_] Hn; [|done]. intros i c'. rewrite lookup_insert_Some. intros [[<- <-]|[_ ?]]; [by apply (Hn id c)|by apply Hn].
Qed.

Lemma noted_delete m calls id : noted m calls → noted m (delete id calls).
Proof. intros Hn i c [_ ?]%lookup_delete_Some. by apply Hn. Qed.

Lemma astep_noted T a o out a' m : astep T a o out a' → noted m (a_calls a) → noted (note m (o, out)) (a_calls a').
Proof.
  destruct 1 as [n k calls|n k calls func arg delta fresh dropped id Hm Hid|n k calls id self r calls' Hu|n k calls b Hb|n k calls self out calls' Hp|n k calls self id c out calls' Hc Hby Hp];
    cbn [a_calls note]; intros Hn; try done.
  - intros i c'. rewrite lookup_insert_Some. intros [[<- <-]|[Hne Hi]]; [by rewrite lookup_insert_eq|]. rewrite lookup_insert_ne by done. by apply Hn.
  - destruct Hu; try done. by apply noted_delete.
  - by eapply pick_noted.
  - eapply pick_noted; [done|]. by apply noted_delete.
Qed.

Lemma astep_pending T a o out a' f x m :
  astep T a o out a' → noted m (a_calls a) →
  (pending f x (a_calls a) + Nat.b2n (is_timeout f x (o, out)) =
   pending f x (a_calls a') + Nat.b2n (is_call f x (o, out)) + Nat.b2n (is_removed f x m (o, out)))%nat.
Proof.
  destruct 1 as [n k calls|n k calls func arg delta fresh dropped id Hm Hid|n k calls id self r calls' Hu|n k calls b Hb|n k calls self out calls' Hp|n k calls self id c out calls' Hc Hby Hp];
    cbn [a_now a_cur a_calls]; intros Hn.
  - cbn. lia.
  - rewrite wanted_insert, wanted_free by done. cbn. lia.
  - destruct Hu as [c Hc Hby|c Hc Hby|c t cp xid Hc Hby Ht|Hno|Hno Hb H0]; try (cbn; lia).
    rewrite (wanted_delete f x calls id c Hc), (wanted_free f x c Hby). cbn [is_removed is_timeout is_call fst snd]. rewrite (Hn id c Hc).
    destruct (bool_decide_reflect (Some (x_func c, x_arg c) = Some (f, x))) as [[= -> ->]|Hne]; [rewrite !Z.eqb_refl; cbn; lia|].
    destruct (Z.eqb_spec (x_func c) f) as [E1|]; [|cbn; lia]. destruct (Z.eqb_spec (x_arg c) x) as [E2|]; [congruence|cbn; lia].
  - cbn. lia.
  - rewrite (pick_pending _ _ _ _ _ f x (Execute self) Hp). cbn. lia.
  - rewrite (wanted_delete f x calls id c Hc), (wanted_by f x c self Hby).
    rewrite (pick_pending _ _ _ _ _ f x (Return_from self) Hp). cbn. lia.
Qed.

Lemma atrace_pending T n tr a f x :
  atrace T (ASys n n ∅) tr a → noted (requests tr) (a_calls a) ∧
  count (is_timeout f x) tr = (count (is_call f x) tr + pending f x (a_calls a) + removals f x tr)%nat.
Proof.
  induction 1 as [|tr a o out a' _ [Hn IH] Hst]; [done|]. rewrite requests_snoc. split; [by eapply astep_noted|].
  pose proof (astep_pending T a o out a' f x _ Hst Hn) as E. rewrite !count_snoc, removals_snoc. lia.
Qed.

(** ** One thread runs alone *)

(** [callout_execute] with nothing in between but the calls: what it calls. *)
Fixpoint drain (fuel : nat) (self : Z) (o : op) (s : sys) {struct fuel} : option (sys * list (Z * Z)) :=
  match fuel with
  | O => None
  | S fuel =>
      let! (s, out) := do_op o s in
      match out with
      | Calls (Some f) => let! (s, l) := drain fuel self (Return_from self) s in Some (s, f :: l)
      | _ => Some (s, [])
      end
  end.

(** Callouts that are due and that nobody has called. *)
Definition due (t : Z) (m : gmap Z acall) : gmap Z acall := filter (λ ic, x_by ic.2 = None ∧ x_time ic.2 <= t) m.

(** What they call. *)
Definition calls_of (m : gmap Z acall) : list (Z * Z) := (λ ic, (x_func ic.2, x_arg ic.2)) <$> map_to_list m.

Lemma due_take t m id c self :
  m !! id = Some c → x_by c = None → x_time c <= t →
  let m' := <[id := ACall (x_time c) (x_func c) (x_arg c) (Some self)]> m in
  calls_of (due t m) ≡ₚ (x_func c, x_arg c) :: calls_of (due t m') ∧ size (due t m) = S (size (due t m')).
Proof.
  intros Hc Hby Hle m'. assert (due t m' = delete id (due t m)) as ->.
  { unfold due, m'. rewrite map_filter_insert_False by naive_solver. apply map_filter_delete. }
  assert (due t m !! id = Some c) as Hd by (by apply map_lookup_filter_Some).
  split; [unfold calls_of; by rewrite <- (map_to_list_delete (due t m) id c Hd)|].
  rewrite <- (insert_delete_id _ _ _ Hd) at 1. apply map_size_insert_None, lookup_delete_eq.
Qed.

Lemma due_delete_by t m id c self : m !! id = Some c → x_by c = Some self → due t (delete id m) = due t m.
Proof. intros Hc Hby. unfold due. rewrite map_filter_delete. apply delete_id, map_lookup_filter_None. naive_solver. Qed.

Lemma not_some_due t m : due t m = ∅ ↔ ¬ some_due t m.
Proof.
  unfold due, some_due. split.
  - intros E (id & x & Hx & Hby & Hle). assert (filter (λ ic : Z * acall, x_by ic.2 = None ∧ x_time ic.2 ≤ t) m !! id = Some x) as Hl
      by (by apply map_lookup_filter_Some). rewrite E in Hl. by rewrite lookup_empty in Hl.
  - intros Hno. apply map_empty. intros id. apply map_lookup_filter_None. right. intros x Hx [Hby Hle]. apply Hno. by exists id, x.
Qed.

(** A thread that makes a call is in the table of threads. *)
Lemma call_next_run self lbolt runs res s' f : call_next self lbolt runs res = Some (s', Calls (Some f)) → is_Some (s_run s' !! self).
Proof.
  destruct res as [ct [[cp r]|]]; cbn; [|done]. destruct (ct_mem ct !! cp); [|done]. intros [= <- _]. cbn. rewrite lookup_insert_eq. by eexists.
Qed.

Lemma do_op_call self o s s' f :
  o = Execute self ∨ o = Return_from self → do_op o s = Some (s', Calls (Some f)) → op_ok s' (Return_from self).
Proof.
  destruct s as [ct lbolt runs]. cbn [op_ok]. intros [-> | ->]; cbn.
  - destruct (callout_execute lp64 self ct) as [res|]; [|done]. apply call_next_run.
  - destruct (runs !! self) as [[cp r]|]; [|done]. destruct (callout_return lp64 self ct cp r) as [res|]; [|done]. apply call_next_run.
Qed.

Lemma drain_ok T fuel : ∀ s a self o,
  refines T s a → op_ok s o → o = Execute self ∨ o = Return_from self →
  (size (due (a_cur a) (a_calls a)) < fuel)%nat →
  ∃ s' l a', drain fuel self o s = Some (s', l) ∧ refines T s' a' ∧ a_now a' = a_now a ∧ a_cur a' = a_cur a ∧
    ¬ some_due (a_cur a') (a_calls a') ∧ l ≡ₚ calls_of (due (a_cur a) (a_calls a)).
Proof.
  induction fuel as [|fuel IH]; intros s a self o Href Hok Ho Hf; [lia|].
  destruct (simulation T s a o Href Hok) as (s1 & out & a1 & Hdo & Hst & Href1). cbn [drain]. rewrite Hdo.
  assert (a_now a1 = a_now a ∧ a_cur a1 = a_cur a ∧ ∃ m0, due (a_cur a) m0 = due (a_cur a) (a_calls a) ∧ pick (a_cur a) self m0 out (a_calls a1))
    as (En & Ec & m0 & Ed & Hp).
  { destruct Ho as [-> | ->]; inversion Hst; subst; cbn; (split; [done|]); (split; [done|]); [by eexists|].
    eexists. split; [by eapply due_delete_by|done]. }
  rewrite <- Ed in *. remember (a_calls a1) as m1 eqn:Em. destruct Hp as [id c Hc Hby Hle|Hno].
  - destruct (due_take (a_cur a) m0 id c self Hc Hby Hle) as [HP Hs]. cbn zeta in HP, Hs. rewrite Em, <- Ec in HP, Hs.
    destruct (IH s1 a1 self (Return_from self) Href1) as (s' & l & a' & Hd & Href' & En' & Ec' & Hno & Hl).
    + by eapply do_op_call.
    + by right.
    + rewrite <- Ec in Hf. lia.
    + rewrite Hd. eexists s', _, a'. split; [done|]. split; [done|]. do 2 (split; [congruence|]). split; [done|].
      rewrite <- Ec, HP. by constructor.
  - exists s1, [], a1. split; [done|]. do 3 (split; [done|]). rewrite Ec, <- Em. split; [done|].
    by rewrite (proj2 (not_some_due _ _) Hno).
Qed.

(** ** Waiting *)

(** Thread [t] is calling the callout in the cell [cp], which has the ID
    [xid]. *)
Definition calls_at (s : sys) (cp : nat) (xid t : Z) : Prop :=
  ∃ c, ct_mem (s_ct s) !! cp = Some c ∧ c_xid c = xid ∧ s_run s !! t = Some (cp, c_runtime c).

Lemma calls_at_data s s' cp xid t c :
  calls_at s cp xid t → ct_mem (s_ct s) !! cp = Some c →
  option_Forall2 same_data (ct_mem (s_ct s) !! cp) (ct_mem (s_ct s') !! cp) → s_run s' !! t = s_run s !! t → calls_at s' cp xid t.
Proof.
  intros (c0 & Hc0 & Hx & Hr) Hc Hd Hrun. rewrite Hc0 in Hd. inversion Hd as [? c1 (E1 & E2 & _) Ea Eb|]; subst.
  exists c1. split; [done|]. rewrite E1, E2, Hrun. done.
Qed.

(** The next call of thread [u] leaves the callouts that are being called. *)
Lemma call_next_calls_at T ct lbolt runs v u res s' out cp xid t :
  execute_post T ct lbolt runs v u res → call_next u lbolt runs res = Some (s', out) → u ≠ t →
  calls_at (Sys ct lbolt runs) cp xid t → (∀ c, ct_mem ct !! cp = Some c → executing c = true) → calls_at s' cp xid t.
Proof.
  destruct res as [ct' [[p r]|]]; unfold execute_post; cbn [fst snd call_next].
  - intros (c & Hp & He & _ & _ & Em & _) Hn Hut (c0 & Hc0 & Hx & Hr) Hex. cbn in *.
    destruct (ct_mem ct' !! p) as [c'|]; [|done]. injection Hn as <- _. exists c0. cbn. rewrite Em.
    rewrite lookup_insert_ne, lookup_insert_ne; [done|done|]. intros ->. destruct Hp as [Hp _]. apply Hex in Hp. congruence.
  - intros (Em & _) [= <- _] _ (c0 & Hc0 & Hx & Hr) _. exists c0. cbn in *. by rewrite Em.
Qed.

(** After its own return a callout has another ID. *)
Lemma call_next_wait_over T ct lbolt runs v u res s' out cp c xid :
  execute_post T ct lbolt runs v u res → call_next u lbolt runs res = Some (s', out) →
  ct_mem ct !! cp = Some c → c_xid c = 0 → cp ∈ v_free v → xid ≠ 0 → wait_over (s_ct s') cp xid = Some true.
Proof.
  intros Hpost Hn Hc Hx Hf H0. assert (ct_mem (s_ct s') !! cp = Some c) as Hc'.
  { destruct res as [ct' [[p r]|]]; unfold execute_post in Hpost; cbn [fst snd call_next] in *.
    - destruct Hpost as (cx & [_ Hp] & _ & _ & _ & Em & _). destruct (ct_mem ct' !! p); [|done]. injection Hn as <- _. cbn.
      rewrite Em, lookup_insert_ne; [done|]. by intros ->.
    - destruct Hpost as (Em & _). injection Hn as <- _. cbn. by rewrite Em. }
  unfold wait_over. rewrite Hc', Hx. by rewrite (proj2 (Z.eqb_neq 0 xid)).
Qed.

Lemma wait_step T s a cp xid t o s' out :
  refines T s a → calls_at s cp xid t → op_ok s o → do_op o s = Some (s', out) →
  wait_over (s_ct s) cp xid = Some false ∧
  if decide (o = Return_from t) then wait_over (s_ct s') cp xid = Some true else calls_at s' cp xid t.
Proof.
  destruct s as [ct lbolt runs]. intros (v & Hinv & _) Hat Hok Hdo. pose proof Hat as (c & Hc & Hx & Hr). cbn [s_ct s_run] in *.
  split; [unfold wait_over; rewrite Hc, Hx; by rewrite Z.eqb_refl|].
  destruct (i_run _ _ _ Hinv t cp _ Hr) as (c0 & Hcp & He & Hxt & _). cbn [s_ct] in Hcp. assert (c0 = c) as -> by (destruct Hcp; congruence).
  assert (∀ c', ct_mem ct !! cp = Some c' → executing c' = true) as Hex by (intros; congruence).
  destruct o as [|func arg delta fresh dropped|id self| |u|u]; cbn [do_op] in Hdo.
  - rewrite decide_False by done. injection Hdo as <- _. by exists c.
  - rewrite decide_False by done. destruct Hok as (Hfr & Hdm & Hd & Hnew). cbn [s_ct s_lbolt] in *.
    destruct (timeout_ok T _ v func arg delta fresh dropped Hinv Hfr Hdm Hd) as
      (ct' & id & v' & p & c' & Ht & _ & _ & _ & _ & Hno & _ & _ & _ & _ & _ & Ho); [intros q cq [Hq _]; exact (Hnew q cq Hq)|].
    cbn [s_ct s_lbolt] in *. rewrite Ht in Hdo. injection Hdo as <- _.
    apply (calls_at_data (Sys ct lbolt runs) _ cp xid t c Hat Hc); [|done]. apply Ho. intros <-. by apply (Hno c).
  - rewrite decide_False by done. destruct (untimeout_ok T _ v id self Hinv Hok) as ([ct' r] & Hu & Hpost). cbn [s_ct s_lbolt] in *.
    rewrite Hu in Hdo. injection Hdo as <- _. unfold untimeout_post in Hpost. cbn [fst snd s_ct] in Hpost.
    destruct r; try (destruct Hpost as [-> _]; by exists c).
    destruct Hpost as (p & cx & v' & _ & _ & _ & _ & _ & _ & _ & Hd).
    apply (calls_at_data (Sys ct lbolt runs) _ cp xid t c Hat Hc); [apply Hd|done].
  - rewrite decide_False by done. destruct (schedule_ok T _ v Hinv) as ([ct' b] & Hs & Em & _). cbn [s_ct s_lbolt fst] in *.
    rewrite Hs in Hdo. injection Hdo as <- _. exists c. cbn. by rewrite Em.
  - rewrite decide_False by done. cbn [op_ok s_run] in Hok. destruct (execute_ok T _ v u Hinv Hok) as (res & Hres & Hpost). cbn [s_ct s_lbolt s_run] in *.
    rewrite Hres in Hdo. eapply (call_next_calls_at T ct lbolt runs v u res); try done. intros ->. congruence.
  - destruct Hok as [[p r] Hu]. cbn [s_run] in Hu. rewrite Hu in Hdo.
    destruct (return_ok T _ v u p r Hinv Hu) as (ct1 & v1 & c1 & res & Hret & Hf1 & Hc1 & Hx1 & Ho & Hinv1 & _ & Hpost). cbn [s_ct s_lbolt s_run] in *.
    rewrite Hret in Hdo. destruct (decide (Return_from u = Return_from t)) as [[= ->]|Hne].
    + assert (p = cp) as -> by congruence. eapply (call_next_wait_over T ct1); try done; [rewrite Hf1; by left|].
      rewrite <- Hx. unfold executing in He. apply Z.leb_le in He. pose proof M_pos. lia.
    + assert (u ≠ t) as Hut by congruence. assert (cp ≠ p) as Hcpp.
      { intros ->. destruct (i_run _ _ _ Hinv u p r Hu) as (c' & [Hc' _] & _ & Hx' & _). cbn in Hc'. congruence. }
      pose proof (Ho cp Hcpp) as Hd. rewrite Hc in Hd. inversion Hd as [? c' Hs Ea Eb|]; subst.
      eapply (call_next_calls_at T ct1 lbolt (delete u runs) v1 u res); try done.
      * exists c'. destruct Hs as (E1 & E2 & _). cbn. rewrite lookup_delete_ne by done. by rewrite E1, E2.
      * intros cx Hcx. assert (cx = c') as -> by congruence. destruct (same_data_executing _ _ Hs) as [-> _]. done.
Qed.

Lemma wait_found T s a id self s1 cp xid :
  refines T s a → op_ok s (Untimeout id self) → do_op (Untimeout id self) s = Some (s1, Untimed (Wait_for cp xid)) →
  s1 = s ∧ ∃ t, t ≠ self ∧ calls_at s cp xid t.
Proof.
  destruct s as [ct lbolt runs]. intros (v & Hinv & _) Hok Hdo. destruct (untimeout_ok T _ v id self Hinv Hok) as ([ct' r] & Hu & Hpost).
  cbn [do_op s_ct s_lbolt] in *. rewrite Hu in Hdo. injection Hdo as <- ->. unfold untimeout_post in Hpost. cbn [fst snd s_ct] in Hpost.
  destruct Hpost as (-> & c & Hcp & _ & He & Hx & ->). split; [done|]. exists (c_executor c). split; [done|].
  destruct (i_use _ _ _ Hinv cp c Hcp) as (_ & _ & Hr). rewrite He in Hr. exists c. destruct Hcp. by split_and!.
Qed.

Lemma calls_at_waits s cp xid t : calls_at s cp xid t → wait_over (s_ct s) cp xid = Some false.
Proof. intros (c & Hc & <- & _). unfold wait_over. rewrite Hc. by rewrite Z.eqb_refl. Qed.

(** As long as thread [t] does not return, it is calling. *)
Lemma calls_at_trace T s a cp xid t tr s' :
  refines T s a → calls_at s cp xid t → trace s tr s' → Forall (λ e, e.1 ≠ Return_from t) tr →
  (∃ a', refines T s' a') ∧ calls_at s' cp xid t.
Proof.
  intros Href Hat. induction 1 as [|tr s1 o out s' Htr IH Hok Hdo]; [by split; [exists a|]|].
  intros [Hall Hlast]%Forall_app. destruct (IH Hall) as [[a1 Href1] Hat1]. inversion_clear Hlast as [|? ? Hlast0 _]. cbn in Hlast0.
  destruct (simulation T s1 a1 o Href1 Hok) as (s2 & out2 & a2 & Hdo2 & _ & Href2). assert (s2 = s') as -> by congruence.
  split; [by exists a2|]. destruct (wait_step T s1 a1 cp xid t o s' out Href1 Hat1 Hok Hdo) as [_ H]. by rewrite decide_False in H.
Qed.

(** The system that starts with an empty table at the time [now]. *)
Definition start (T now : Z) : sys := Sys (init_table lp64 T now) now ∅.

(** A sequence of operations, as long as they may happen. *)
Fixpoint run_ops (ops : list op) (s : sys) : option (list (op * output) * sys) :=
  match ops with
  | [] => Some ([], s)
  | o :: ops =>
      if decide (op_ok s o) then
        let! (s, out) := do_op o s in
        let! (tr, s) := run_ops ops s in
        Some ((o, out) :: tr, s)
      else None
  end.

Lemma run_ops_trace ops : ∀ s0 tr0 s tr s',
  trace s0 tr0 s → run_ops ops s = Some (tr, s') → trace s0 (tr0 ++ tr) s'.
Proof.
  induction ops as [|o ops IH]; intros s0 tr0 s tr s' Ht; cbn; [intros [= <- <-]; by rewrite app_nil_r|].
  destruct (decide (op_ok s o)) as [Hok|]; [|done]. destruct (do_op o s) as [[s1 out]|] eqn:Hdo; [|done].
  destruct (run_ops ops s1) as [[tr2 s2]|] eqn:Hr; [|done]. intros [= <- <-].
  rewrite cons_middle, app_assoc. eapply IH; [|exact Hr]. by econstructor.
Qed.

(** C2: the callout tables refine their specification.  From the table that
    [callout_init] sets up, every sequence of operations (ticks of the clock,
    [timeout], [untimeout], [callout_schedule], threads that enter
    [callout_execute] and return from the functions they call) has the results
    of a map from IDs to callouts with times on a clock that does not wrap
    around, where a thread may take any callout that is due and stops only if
    none is; and no operation follows a bad pointer or loops for ever. *)
Theorem callout_refines T now tr s :
  0 <= T < CALLOUT_TABLES → in_clock now → trace (start T now) tr s →
  (∃ a, atrace T (ASys now now ∅) tr a ∧ refines T s a) ∧
  ∀ o, op_ok s o → ∃ s' out, do_op o s = Some (s', out).
Proof.
  intros HT Hn Htr. destruct (trace_refines T _ _ tr s (init_refines T now HT Hn) Htr) as (a & Ha & Href).
  split; [by exists a|]. intros o Hok. destruct (simulation T s a o Href Hok) as (s' & out & _ & Hdo & _). by exists s', out.
Qed.

(** C18: no function is called early.  When a thread calls a function, a
    [timeout] asked for it, and at least as many ticks as it asked for (at
    least one) have passed since. *)
Theorem callout_never_early T now tr s o s' f x :
  0 <= T < CALLOUT_TABLES → in_clock now → trace (start T now) tr s →
  op_ok s o → do_op o s = Some (s', Calls (Some (f, x))) →
  ∃ tr1 d fresh dropped id tr2, tr = tr1 ++ (Timeout f x d fresh dropped, New_id id) :: tr2 ∧ Z.max 1 d <= ticks tr2.
Proof.
  intros HT Hn Htr Hok Hdo. destruct (trace_refines T _ _ tr s (init_refines T now HT Hn) Htr) as (a & Ha & Href).
  destruct (simulation T s a o Href Hok) as (s1 & out & a1 & Hdo1 & Hst & _). rewrite Hdo in Hdo1. injection Hdo1 as <- <-.
  destruct (astep_called T a o f x a1 Hst) as (id & c & Hc & <- & <- & Hle). destruct (atrace_set_by T now tr a Ha) as [Hcur Hset].
  destruct (Hset id c Hc) as (tr1 & d & fresh & dr & i & tr2 & -> & E). exists tr1, d, fresh, dr, i, tr2. split; [done|]. lia.
Qed.

(** C19: each [timeout] makes one call.  The [timeout]s that asked for a
    function and an argument are, in number, the calls of that function with
    that argument, the callouts for it that wait in the table, and the
    [untimeout]s that removed one of those [timeout]s, by the ID it returned:
    none is called twice, and none is lost, not even to the [untimeout] of
    another. *)
Theorem callout_once T now tr s f x :
  0 <= T < CALLOUT_TABLES → in_clock now → trace (start T now) tr s →
  ∃ a, refines T s a ∧
    count (is_timeout f x) tr = (count (is_call f x) tr + pending f x (a_calls a) + removals f x tr)%nat.
Proof.
  intros HT Hn Htr. destruct (trace_refines T _ _ tr s (init_refines T now HT Hn) Htr) as (a & Ha & Href).
  exists a. split; [done|]. by destruct (atrace_pending T now tr a f x Ha).
Qed.

(** C25: callouts that are due are called.  In every state that can be reached,
    a thread that enters [callout_execute] and is left alone calls exactly the
    functions of the callouts that are due at the tick of the last
    [callout_schedule], and leaves [callout_execute] after that many calls,
    with none of them due. *)
Theorem callout_drain T now tr s self :
  0 <= T < CALLOUT_TABLES → in_clock now → trace (start T now) tr s → s_run s !! self = None →
  ∃ a s' l a', refines T s a ∧ drain (S (size (a_calls a))) self (Execute self) s = Some (s', l) ∧ refines T s' a' ∧
    l ≡ₚ calls_of (due (a_cur a) (a_calls a)) ∧
    a_now a' = a_now a ∧ a_cur a' = a_cur a ∧ ¬ some_due (a_cur a') (a_calls a').
Proof.
  intros HT Hn Htr Hself. destruct (trace_refines T _ _ tr s (init_refines T now HT Hn) Htr) as (a & Ha & Href).
  destruct (drain_ok T (S (size (a_calls a))) s a self (Execute self) Href Hself (or_introl eq_refl)) as
    (s' & l & a' & Hd & Href' & En & Ec & Hno & Hl).
  - apply Nat.lt_succ_r, map_subseteq_size, map_filter_subseteq.
  - exists a, s', l, a'. done.
Qed.

(** C33: [untimeout] waits for the right thing.  When it finds that the callout
    is being called, by another thread, the condition it waits on becomes true
    at that thread's return from the call and not before, whatever happens in
    between. *)
Theorem untimeout_waits T now tr s id self s1 cp xid :
  0 <= T < CALLOUT_TABLES → in_clock now → trace (start T now) tr s →
  op_ok s (Untimeout id self) → do_op (Untimeout id self) s = Some (s1, Untimed (Wait_for cp xid)) →
  ∃ t, t ≠ self ∧ ∀ tr2 s2, trace s1 tr2 s2 → Forall (λ e, e.1 ≠ Return_from t) tr2 →
    wait_over (s_ct s2) cp xid = Some false ∧ op_ok s2 (Return_from t) ∧
    ∃ s3 out, do_op (Return_from t) s2 = Some (s3, out) ∧ wait_over (s_ct s3) cp xid = Some true.
Proof.
  intros HT Hn Htr Hok Hdo. destruct (trace_refines T _ _ tr s (init_refines T now HT Hn) Htr) as (a & Ha & Href).
  destruct (wait_found T s a id self s1 cp xid Href Hok Hdo) as (-> & t & Hts & Hat). exists t. split; [done|].
  intros tr2 s2 Htr2 Hall. destruct (calls_at_trace T s a cp xid t tr2 s2 Href Hat Htr2 Hall) as [[a2 Href2] Hat2].
  assert (op_ok s2 (Return_from t)) as Hok2 by (destruct Hat2 as (c & _ & _ & Hr); cbn; rewrite Hr; by eexists).
  split; [by eapply calls_at_waits|]. split; [done|].
  destruct (simulation T s2 a2 _ Href2 Hok2) as (s3 & out & _ & Hdo3 & _). exists s3, out. split; [done|].
  destruct (wait_step T s2 a2 cp xid t _ s3 out Href2 Hat2 Hok2 Hdo3) as [_ H]. by rewrite decide_True in H.
Qed.
End sched.

(** ** An example *)

(** Two callouts, one of which is due after a tick, and a thread that calls
    it. *)
Definition ex_ops : list op := [Timeout 7 1 2 0 false; Timeout 8 2 1 1 true; Tick; Schedule].
Definition ex_run (lp64 : bool) (ops : list op) : list (op * output) * sys :=
  default ([], start lp64 3 0) (run_ops lp64 ops (start lp64 3 0)).

Lemma ex_run_trace lp64 ops :
  run_ops lp64 ops (start lp64 3 0) ≠ None → trace lp64 (start lp64 3 0) (ex_run lp64 ops).1 (ex_run lp64 ops).2.
Proof.
  unfold ex_run. destruct (run_ops lp64 ops (start lp64 3 0)) as [[tr s]|] eqn:E; [|done]. intros _.
  exact (run_ops_trace lp64 ops _ [] _ tr s (trace_nil lp64 _) E).
Qed.

Lemma ex_trace : trace true (start true 3 0) (ex_run true ex_ops).1 (ex_run true ex_ops).2.
Proof. apply ex_run_trace. intros H%(f_equal (λ o, match o with None => 0 | Some _ => 1 end)). vm_compute in H. discriminate H. Qed.

Lemma ex_trace_call : trace true (start true 3 0) (ex_run true (ex_ops ++ [Execute 100])).1 (ex_run true (ex_ops ++ [Execute 100])).2.
Proof. apply ex_run_trace. intros H%(f_equal (λ o, match o with None => 0 | Some _ => 1 end)). vm_compute in H. discriminate H. Qed.

Lemma clock_0 lp64 : in_clock lp64 0.
Proof. unfold in_clock, LONG_BIT. destruct lp64; lia. Qed.

Lemma callout_refines_witness :
  ∃ a, atrace true 3 (ASys 0 0 ∅) (ex_run true ex_ops).1 a ∧ refines true 3 (ex_run true ex_ops).2 a.
Proof. apply (callout_refines true 3 0); [done|apply clock_0|apply ex_trace]. Defined.

Lemma callout_never_early_witness :
  ∃ tr1 d fresh dropped id tr2, (ex_run true ex_ops).1 = tr1 ++ (Timeout 8 2 d fresh dropped, New_id id) :: tr2 ∧ Z.max 1 d <= ticks tr2.
Proof.
  apply (callout_never_early true 3 0 _ (ex_run true ex_ops).2 (Execute 100) (ex_run true (ex_ops ++ [Execute 100])).2);
    [done|apply clock_0|apply ex_trace|by vm_compute|].
  vm_compute. reflexivity.
Defined.

Lemma callout_once_witness :
  ∃ a, refines true 3 (ex_run true (ex_ops ++ [Execute 100])).2 a ∧ pending 8 2 (a_calls a) = 0%nat.
Proof.
  destruct (callout_once true 3 0 (ex_run true (ex_ops ++ [Execute 100])).1 (ex_run true (ex_ops ++ [Execute 100])).2 8 2)
    as (a & Href & E); [done|apply clock_0|apply ex_trace_call|].
  exists a. split; [exact Href|].
  assert (count (is_timeout 8 2) (ex_run true (ex_ops ++ [Execute 100])).1 = 1%nat) as E1 by (vm_compute; reflexivity).
  assert (count (is_call 8 2) (ex_run true (ex_ops ++ [Execute 100])).1 = 1%nat) as E2 by (vm_compute; reflexivity).
  rewrite E1, E2 in E. lia.
Defined.

Lemma callout_drain_witness :
  ∃ a s' l a', refines true 3 (ex_run true ex_ops).2 a ∧
    drain true (S (size (a_calls a))) 100 (Execute 100) (ex_run true ex_ops).2 = Some (s', l) ∧
    l ≡ₚ calls_of (due (a_cur a) (a_calls a)) ∧ ¬ some_due (a_cur a') (a_calls a').
Proof.
  destruct (callout_drain true 3 0 (ex_run true ex_ops).1 (ex_run true ex_ops).2 100)
    as (a & s' & l & a' & H1 & H2 & H3 & H4 & _ & _ & H5); [done|apply clock_0|apply ex_trace|by vm_compute|].
  exists a, s', l, a'. exact (conj H1 (conj H2 (conj H4 H5))).
Defined.

Lemma untimeout_waits_witness :
  ∃ t, t ≠ 200 ∧ ∃ s3 out, do_op true (Return_from t) (ex_run true (ex_ops ++ [Execute 100])).2 = Some (s3, out) ∧
    wait_over (s_ct s3) 1 (Z.lor 4611686018427387875 (CALLOUT_EXECUTING true)) = Some true.
Proof.
  destruct (untimeout_waits true 3 0 (ex_run true (ex_ops ++ [Execute 100])).1 (ex_run true (ex_ops ++ [Execute 100])).2
    4611686018427387875 200 (ex_run true (ex_ops ++ [Execute 100])).2 1 (Z.lor 4611686018427387875 (CALLOUT_EXECUTING true)))
    as (t & Ht & H); [done|apply clock_0|apply ex_trace_call|by vm_compute|vm_compute; reflexivity|].
  exists t. split; [exact Ht|]. destruct (H [] _ (trace_nil true _) (List.Forall_nil _)) as (_ & _ & H3). exact H3.
Defined.
