(* ===== verification/CalloutTables.v ===== *)
(** * The array of callout tables (uts/common/os/callout.c)

    [callout_init] sets up a table for each type of callout and, up to a
    limit, each processor; [timeout] picks a table by the processor it runs on,
    [untimeout] by the low bits of the ID, [callout_schedule] goes over all of
    them.  It is shown that the three agree on the tables. *)

From Stdlib Require Import ZArith Lia.
From stdpp Require Import base numbers option list gmap.
From S2P Require Import Prelude Callout CalloutSched.

#[local] Open Scope Z_scope.

(** ** Definitions *)

Definition CALLOUT_REALTIME : Z := 0.
Definition CALLOUT_NORMAL : Z := 1.

(** The pointers of the array [callout_table], each the number of a table or
    [NULL], the tables, and [callout_fanout]. *)
Record callouts := Callouts {
  co_table : list (option nat);
  co_tables : gmap nat callout_table;
  co_fanout : Z
}.

Section tables.
Context (lp64 : bool).

(** One iteration of [callout_init]: processors past the limit share a table. *)
Definition init_entry (lbolt : Z) (co : callouts) (tf : Z * Z) : option callouts :=
  let '(t, f) := tf in
  let table_id := CALLOUT_TABLE t f in
  if f >=? co_fanout co then
    let! p := rd (co_table co) (Z.to_nat (table_id - co_fanout co)) in
    let! table := wr (co_table co) (Z.to_nat table_id) p in
    Some (Callouts table (co_tables co) (co_fanout co))
  else
    let! table := wr (co_table co) (Z.to_nat table_id) (Some (Z.to_nat table_id)) in
    Some (Callouts table (<[Z.to_nat table_id := init_table lp64 table_id lbolt]> (co_tables co)) (co_fanout co)).

(** The indices of the two loops, with [f] below [n]. *)
Definition type_fanout (n : Z) : list (Z * Z) :=
  t ← seqZ 0 CALLOUT_NTYPES; f ← seqZ 0 n; [(t, f)].

Fixpoint init_entries (lbolt : Z) (l : list (Z * Z)) (co : callouts) : option callouts :=
  match l with
  | [] => Some co
  | tf :: l => let! co := init_entry lbolt co tf in init_entries lbolt l co
  end.

Definition callout_init (max_ncpus lbolt : Z) : option callouts :=
  init_entries lbolt (type_fanout CALLOUT_FANOUT)
    (Callouts (replicate (Z.to_nat CALLOUT_TABLES) None) ∅ (Z.min CALLOUT_FANOUT max_ncpus)).

(** An operation on the table an entry of the array points to. *)
Definition with_table {A} (co : callouts) (i : Z) (f : callout_table → option (callout_table * A)) : option (callouts * A) :=
  let! p := rd (co_table co) (Z.to_nat i) in
  let! T := p in
  let! ct := co_tables co !! T in
  let! (ct, x) := f ct in
  Some (Callouts (co_table co) (<[T := ct]> (co_tables co)) (co_fanout co), x).

Definition timeout (cpu_seqid lbolt func arg delta : Z) (fresh : nat) (dropped : bool) (co : callouts) : option (callouts * Z) :=
  with_table co (CALLOUT_TABLE CALLOUT_NORMAL cpu_seqid) (timeout_common lp64 lbolt func arg delta fresh dropped).

Definition realtime_timeout (cpu_seqid lbolt func arg delta : Z) (fresh : nat) (dropped : bool) (co : callouts) : option (callouts * Z) :=
  with_table co (CALLOUT_TABLE CALLOUT_REALTIME cpu_seqid) (timeout_common lp64 lbolt func arg delta fresh dropped).

(** [untimeout] finds its table first. *)
Definition untimeout_id (id self lbolt : Z) (co : callouts) : option (callouts * untimeout_result) :=
  with_table co (Z.land id CALLOUT_TABLE_MASK) (untimeout lp64 id self lbolt).

Fixpoint schedule_entries (lbolt : Z) (l : list (Z * Z)) (co : callouts) : option callouts :=
  match l with
  | [] => Some co
  | (t, f) :: l =>
      let! (co, _) := with_table co (CALLOUT_TABLE t f) (callout_schedule_1 lp64 lbolt) in
      schedule_entries lbolt l co
  end.

(** [callout_schedule], with [cpr_stop_callout]. *)
Definition callout_schedule (cpr_stop_callout : bool) (lbolt : Z) (co : callouts) : option callouts :=
  if cpr_stop_callout then Some co else schedule_entries lbolt (type_fanout (co_fanout co)) co.

(** ** The array *)

(** The table processor [f] uses with [n] tables of each type, the array, and
    the tables. *)
Definition table_of (n t f : Z) : nat := Z.to_nat (CALLOUT_TABLE t (Z.land f CALLOUT_FANOUT_MASK `mod` n)).
Definition table_array (n : Z) : list (option nat) := (λ tf, Some (table_of n tf.1 tf.2)) <$> type_fanout CALLOUT_FANOUT.
Definition real_tables (n : Z) : list nat := (λ tf, Z.to_nat (CALLOUT_TABLE tf.1 tf.2)) <$> type_fanout n.

Ltac each_fanout H := cbn in H; repeat (apply elem_of_cons in H as [->|H]; [|]); [..|by apply not_elem_of_nil in H].

Lemma init_result lbolt n :
  n ∈ seqZ 1 8 →
  init_entries lbolt (type_fanout CALLOUT_FANOUT) (Callouts (replicate (Z.to_nat CALLOUT_TABLES) None) ∅ n) =
  Some (Callouts (table_array n) (list_to_map (reverse ((λ T, (T, init_table lp64 (Z.of_nat T) lbolt)) <$> real_tables n))) n).
Proof. intros Hn. each_fanout Hn; lazy -[init_table]; reflexivity. Qed.

(** What holds of the array, checked for each number of tables. *)
Definition table_array_check (n : Z) : bool :=
  forallb (λ tf, bool_decide (table_of n tf.1 tf.2 ∈ real_tables n) &&
                 bool_decide (table_array n !! Z.to_nat (CALLOUT_TABLE tf.1 tf.2) = Some (Some (table_of n tf.1 tf.2))))%bool
    (type_fanout CALLOUT_FANOUT) &&
  forallb (λ T, bool_decide (table_array n !! T = Some (Some T)) && (T <? 16)%nat) (real_tables n) &&
  bool_decide (NoDup (real_tables n)).

Lemma table_array_check_ok n : n ∈ seqZ 1 8 → table_array_check n = true.
Proof. intros Hn. each_fanout Hn; vm_compute; reflexivity. Qed.

Lemma type_fanout_in n t f : (t, f) ∈ type_fanout n ↔ 0 <= t < CALLOUT_NTYPES ∧ 0 <= f < n.
Proof.
  unfold type_fanout. setoid_rewrite list_elem_of_bind. setoid_rewrite list_elem_of_bind. setoid_rewrite list_elem_of_singleton.
  setoid_rewrite elem_of_seqZ. split.
  - intros (t' & (f' & [= -> ->] & ?) & ?). lia.
  - intros [? ?]. exists t. split; [|lia]. exists f. split; [done|lia].
Qed.

Lemma callout_table_mask t f : CALLOUT_TABLE t (Z.land f CALLOUT_FANOUT_MASK) = CALLOUT_TABLE t f.
Proof. unfold CALLOUT_TABLE. by rewrite <- Z.land_assoc, Z.land_diag. Qed.

Lemma table_array_lookup n t f :
  n ∈ seqZ 1 8 → 0 <= t < CALLOUT_NTYPES →
  table_array n !! Z.to_nat (CALLOUT_TABLE t f) = Some (Some (table_of n t f)) ∧ table_of n t f ∈ real_tables n.
Proof.
  intros Hn Ht. pose proof (table_array_check_ok n Hn) as H. apply andb_prop in H as [[H _]%andb_prop _].
  rewrite forallb_forall in H. specialize (H (t, Z.land f CALLOUT_FANOUT_MASK)). cbn [fst snd] in H.
  assert (In (t, Z.land f CALLOUT_FANOUT_MASK) (type_fanout CALLOUT_FANOUT)) as Hin.
  { apply list_elem_of_In, type_fanout_in. split; [done|]. change CALLOUT_FANOUT_MASK with (Z.ones 3). change CALLOUT_FANOUT with (2 ^ 3).
    rewrite Z.land_ones by lia. apply Z.mod_pos_bound. lia. }
  specialize (H Hin). apply andb_prop in H as [H1%bool_decide_eq_true H2%bool_decide_eq_true].
  unfold table_of in *. rewrite <- Z.land_assoc, Z.land_diag in H1, H2. by rewrite callout_table_mask in H2.
Qed.

Lemma table_array_real n T : n ∈ seqZ 1 8 → T ∈ real_tables n → table_array n !! T = Some (Some T) ∧ (T < 16)%nat.
Proof.
  intros Hn HT. pose proof (table_array_check_ok n Hn) as H. apply andb_prop in H as [[_ H]%andb_prop _].
  rewrite forallb_forall in H. apply list_elem_of_In, H in HT. apply andb_prop in HT as [?%bool_decide_eq_true ?%Nat.ltb_lt]. done.
Qed.

(** The state of all tables: the array is as [callout_init] leaves it, and each
    table is in order. *)
Definition co_ok (lbolt : Z) (runs : nat → gmap Z (nat * Z)) (co : callouts) : Prop :=
  co_fanout co ∈ seqZ 1 8 ∧ co_table co = table_array (co_fanout co) ∧
  ∀ T, T ∈ real_tables (co_fanout co) →
    ∃ ct a, co_tables co !! T = Some ct ∧ refines lp64 (Z.of_nat T) (Sys ct lbolt (runs T)) a.

Lemma callout_init_ok max_ncpus lbolt :
  1 <= max_ncpus → in_clock lp64 lbolt → ∃ co, callout_init max_ncpus lbolt = Some co ∧ co_ok lbolt (λ _, ∅) co.
Proof.
  intros Hm Hl. unfold callout_init. assert (Z.min CALLOUT_FANOUT max_ncpus ∈ seqZ 1 8) as Hn.
  { apply elem_of_seqZ. change CALLOUT_FANOUT with 8. lia. }
  rewrite init_result by done. eexists. split; [done|]. split; [done|]. split; [done|]. cbn [co_fanout co_tables].
  set (n := Z.min _ _) in *. intros T HT. exists (init_table lp64 (Z.of_nat T) lbolt), (ASys lbolt lbolt ∅). split.
  - apply elem_of_list_to_map_1.
    + rewrite fmap_reverse, <- list_fmap_compose, list_fmap_id, reverse_Permutation.
      pose proof (table_array_check_ok n Hn) as H. apply andb_prop in H as [_ H]. by apply bool_decide_eq_true in H.
    + apply elem_of_reverse, list_elem_of_fmap. by exists T.
  - apply init_refines; [|done]. destruct (table_array_real n T Hn HT). change CALLOUT_TABLES with 16. lia.
Qed.

(** An operation on a table of the array. *)
Lemma with_table_ok {A} lbolt runs runs' co i T (f : callout_table → option (callout_table * A)) ct ct' a' x :
  co_ok lbolt runs co → rd (co_table co) (Z.to_nat i) = Some (Some T) → T ∈ real_tables (co_fanout co) →
  co_tables co !! T = Some ct → f ct = Some (ct', x) → refines lp64 (Z.of_nat T) (Sys ct' lbolt (runs' T)) a' →
  (∀ T', T' ≠ T → runs' T' = runs T') →
  ∃ co', with_table co i f = Some (co', x) ∧ co_ok lbolt runs' co' ∧ co_table co' = co_table co ∧ co_fanout co' = co_fanout co ∧
    co_tables co' = <[T := ct']> (co_tables co).
Proof.
  intros (Hn & Ha & Ht) Hi HT Hct Hf Href Hruns. unfold with_table. rewrite Hi, Hct, Hf. eexists. split; [done|].
  split; [|done]. split; [done|]. split; [done|]. cbn [co_fanout co_tables]. intros T' HT'. destruct (decide (T' = T)) as [->|Hne].
  - exists ct', a'. by rewrite lookup_insert_eq.
  - rewrite lookup_insert_ne, Hruns by done. by apply Ht.
Qed.

(** ** timeout() and untimeout() *)

(** C34: an ID leads back to its callout.  Whatever processor a [timeout] or a
    [realtime_timeout] runs on, it succeeds and returns an ID with which
    [untimeout] finds the same table and in it the callout: it removes it and
    returns the ticks that were asked for (at least one).  All tables stay in
    order. *)
Theorem timeout_untimeout lbolt runs co (realtime : bool) cpu_seqid func arg delta fresh dropped self T ct :
  co_ok lbolt runs co →
  rd (co_table co) (Z.to_nat (CALLOUT_TABLE (if realtime then CALLOUT_REALTIME else CALLOUT_NORMAL) cpu_seqid)) = Some (Some T) →
  co_tables co !! T = Some ct →
  op_ok lp64 (Sys ct lbolt (runs T)) (Timeout func arg delta fresh dropped) →
  ∃ co1 id co2,
    (if realtime then realtime_timeout else timeout) cpu_seqid lbolt func arg delta fresh dropped co = Some (co1, id) ∧
    co_ok lbolt runs co1 ∧ id_of lp64 (Z.of_nat T) (delta >? CALLOUT_LONGTERM_TICKS) id ∧
    untimeout_id id self lbolt co1 = Some (co2, Removed (Z.max 1 delta)) ∧ co_ok lbolt runs co2.
Proof.
  intros Hco Hi Hct Hok. pose proof Hco as (Hn & Ha & Ht). set (t := if realtime then _ else _) in *.
  assert (0 <= t < CALLOUT_NTYPES) as Htt by (unfold t; destruct realtime; split; vm_compute; congruence).
  destruct (table_array_lookup (co_fanout co) t cpu_seqid Hn Htt) as [Hl HT].
  assert (T = table_of (co_fanout co) t cpu_seqid) as ET by (rewrite Ha in Hi; unfold rd in Hi; congruence). rewrite <- ET in HT. clear ET Hl.
  destruct (Ht T HT) as (ct0 & a & Hct0 & Href). assert (ct0 = ct) as -> by congruence.
  destruct (simulation lp64 _ _ a _ Href Hok) as (s1 & out & a1 & Hdo1 & Hst1 & Href1). cbn [do_op] in Hdo1.
  destruct (timeout_common lp64 lbolt func arg delta fresh dropped ct) as [[ct1 id]|] eqn:Etm; [|done]. injection Hdo1 as <- <-.
  inversion Hst1 as [|n k m ? ? ? ? ? ? Hnew Hid| | | |]; subst. cbn [a_now a_calls a_cur] in *.
  destruct (with_table_ok lbolt runs runs co _ T _ ct ct1 _ id Hco Hi HT Hct Etm Href1 ltac:(done)) as (co1 & Hw1 & Hco1 & E1 & E2 & E3).
  assert (op_ok lp64 (Sys ct1 lbolt (runs T)) (Untimeout id self)) as Hok2 by (by destruct Hid as ([? _] & _)).
  destruct (simulation lp64 _ _ _ _ Href1 Hok2) as (s2 & out & a2 & Hdo2 & Hst2 & Href2). cbn [do_op] in Hdo2.
  destruct (untimeout lp64 id self lbolt ct1) as [[ct2 r]|] eqn:Eu; [|done]. injection Hdo2 as <- <-.
  assert (r = Removed (Z.max 1 delta)) as ->.
  { inversion Hst2 as [| |? ? ? ? ? ? ? Hu| | |]; subst. inversion Hu as [x Hx Hby|x Hx Hby|x ? ? ? Hx Hby|Hx|Hx]; subst;
      rewrite lookup_insert_eq in Hx; try done; injection Hx as <-; cbn in *; try done. f_equal. lia. }
  pose proof Hid as (_ & Hmask & _). destruct (table_array_real _ T Hn HT) as [Hreal _].
  assert (rd (co_table co1) (Z.to_nat (Z.land id CALLOUT_TABLE_MASK)) = Some (Some T)) as Hi2
    by (rewrite Hmask, E1, Ha, Nat2Z.id; exact Hreal).
  assert (T ∈ real_tables (co_fanout co1)) as HT2 by (by rewrite E2).
  assert (co_tables co1 !! T = Some ct1) as Hct1 by (by rewrite E3, lookup_insert_eq).
  destruct (with_table_ok lbolt runs runs co1 _ T _ ct1 ct2 _ _ Hco1 Hi2 HT2 Hct1 Eu Href2 ltac:(done)) as (co2 & Hw2 & Hco2 & _).
  exists co1, id, co2. split; [destruct realtime; exact Hw1|]. done.
Qed.

(** ** callout_schedule() *)

Lemma schedule_entries_ok lbolt runs n : ∀ l co,
  (∀ tf, tf ∈ l → tf ∈ type_fanout n) → co_ok lbolt runs co → co_fanout co = n →
  ∃ co', schedule_entries lbolt l co = Some co' ∧ co_ok lbolt runs co' ∧ co_fanout co' = n ∧
    ∀ T ct', co_tables co' !! T = Some ct' →
      ((∃ tf, tf ∈ l ∧ T = Z.to_nat (CALLOUT_TABLE tf.1 tf.2)) ∨ ∃ ct, co_tables co !! T = Some ct ∧ ct_curtime ct = lbolt) →
      ct_curtime ct' = lbolt.
Proof.
  induction l as [|[t f] l IH]; intros co Hl Hco En; cbn [schedule_entries].
  { exists co. split; [done|]. split; [done|]. split; [done|]. intros T ct' Hct' [(tf & []%not_elem_of_nil & _)|(ct & Hct & E)]. congruence. }
  pose proof Hco as (Hn & Ha & Ht). set (T := Z.to_nat (CALLOUT_TABLE t f)).
  assert (T ∈ real_tables (co_fanout co)) as HT.
  { rewrite En. apply list_elem_of_fmap. exists (t, f). split; [done|]. apply Hl. set_solver. }
  destruct (table_array_real _ T Hn HT) as [Hreal _]. rewrite <- Ha in Hreal. destruct (Ht T HT) as (ct & a & Hct & Href).
  pose proof Href as (v & Hinv & _). destruct (schedule_ok lp64 _ _ v Hinv) as ([ct1 b] & Hs & Hp). cbn [s_ct s_lbolt] in Hs.
  destruct Hp as (_ & _ & Ecur & _). cbn [s_lbolt fst] in Ecur.
  destruct (simulation lp64 _ _ a Schedule Href I) as (s1 & out & a1 & Hdo & _ & Href1). cbn [do_op] in Hdo. rewrite Hs in Hdo. injection Hdo as <- _.
  destruct (with_table_ok lbolt runs runs co (CALLOUT_TABLE t f) T _ ct ct1 a1 b Hco Hreal HT Hct Hs Href1 ltac:(done)) as (co1 & -> & Hco1 & _ & E2 & E3).
  destruct (IH co1) as (co' & Hrun & Hco' & En' & Hcur); [intros tf Htf; apply Hl; set_solver|done|congruence|].
  exists co'. split; [done|]. split; [done|]. split; [done|]. intros T' ct' Hct' H. apply (Hcur T' ct' Hct').
  destruct (decide (T' = T)) as [->|Hne]; [right; exists ct1; by rewrite E3, lookup_insert_eq|].
  destruct H as [([t' f'] & [[= -> ->]|Htf]%elem_of_cons & ->)|(ct0 & Hct0 & E)]; [done|left; by exists (t', f')|].
  right. exists ct0. by rewrite E3, lookup_insert_ne.
Qed.

(** The clock reaches every table.  [callout_schedule] goes through without
    a fault and leaves every table in order, with the current tick as its
    time; on a system that is being suspended it does nothing. *)
Theorem callout_schedule_all lbolt runs co :
  co_ok lbolt runs co →
  callout_schedule true lbolt co = Some co ∧
  ∃ co', callout_schedule false lbolt co = Some co' ∧ co_ok lbolt runs co' ∧ co_fanout co' = co_fanout co ∧
    ∀ T, T ∈ real_tables (co_fanout co) → ∃ ct, co_tables co' !! T = Some ct ∧ ct_curtime ct = lbolt.
Proof.
  intros Hco. split; [done|].
  destruct (schedule_entries_ok lbolt runs (co_fanout co) (type_fanout (co_fanout co)) co ltac:(done) Hco eq_refl)
    as (co' & Hs & Hco' & En & Hcur).
  exists co'. split; [done|]. split; [done|]. split; [done|]. intros T HT. pose proof Hco' as (_ & _ & Ht). rewrite En in Ht.
  destruct (Ht T HT) as (ct & _ & Hct & _). exists ct. split; [done|]. apply (Hcur T ct Hct). left.
  apply list_elem_of_fmap in HT as (tf & -> & Htf). by exists tf.
Qed.
End tables.

(** ** An example *)

Definition ex_co : callouts := default (Callouts [] ∅ 0) (callout_init true 3 5).

Lemma ex_co_ok : co_ok true 5 (λ _, ∅) ex_co.
Proof.
  unfold ex_co. destruct (callout_init_ok true 3 5) as (co & -> & Hco); [lia|unfold in_clock; cbn; lia|]. exact Hco.
Qed.

Lemma timeout_untimeout_witness :
  ∃ co1 id co2, timeout true 4 5 7 1 100 0 false ex_co = Some (co1, id) ∧
    untimeout_id true id 200 5 co1 = Some (co2, Removed 100).
Proof.
  destruct (timeout_untimeout true 5 (λ _, ∅) ex_co false 4 7 1 100 0 false 200 9%nat (init_table true 9 5))
    as (co1 & id & co2 & H1 & _ & _ & H2 & _); [apply ex_co_ok|vm_compute; reflexivity|vm_compute; reflexivity| |].
  - apply (bool_decide_unpack _). vm_compute. exact I.
  - exists co1, id, co2. exact (conj H1 H2).
Defined.

Lemma callout_schedule_all_witness :
  callout_schedule true true 5 ex_co = Some ex_co ∧ ∃ co', callout_schedule true false 5 ex_co = Some co'.
Proof.
  destruct (callout_schedule_all true 5 (λ _, ∅) ex_co ex_co_ok) as (H1 & co' & H2 & _). split; [exact H1|]. exists co'. exact H2.
Defined.
