(* ===== verification/MemList.v ===== *)
(** * Memory lists (uts/common/os/memlist_new.c)

    Sorted, doubly linked lists of spans of physical addresses, with the free
    list of their elements, at the level of the pointers.  It is shown that
    adding and deleting spans is the union and the difference of sets of
    addresses, with the error codes exactly where they are documented, that
    the two undo each other, and that elements are neither lost nor used
    twice. *)

From Stdlib Require Import ZArith Lia.
From stdpp Require Import base numbers option list gmap.
From S2P Require Import Prelude.

#[local] Open Scope Z_scope.

(** ** Data *)

(** A pointer to an element is a cell number, [None] is [NULL]. *)
Record memlist := Memlist {
  ml_address : Z;
  ml_size : Z;
  ml_next : option nat;
  ml_prev : option nat
}.

(** The elements, and the free list of the module. *)
Record mstate := MState {
  ms_mem : gmap nat memlist;
  memlist_freelist : option nat;
  memlist_freelist_count : Z
}.

Definition MEML_SPANOP_OK : Z := 0.
Definition MEML_SPANOP_ESPAN : Z := 1.
Definition MEML_SPANOP_EALLOC : Z := 2.

Definition set_next (n : option nat) (c : memlist) : memlist := Memlist (ml_address c) (ml_size c) n (ml_prev c).
Definition set_prev (p : option nat) (c : memlist) : memlist := Memlist (ml_address c) (ml_size c) (ml_next c) p.
Definition set_span (a n : Z) (c : memlist) : memlist := Memlist a n (ml_next c) (ml_prev c).
Definition set_size (n : Z) (c : memlist) : memlist := Memlist (ml_address c) n (ml_next c) (ml_prev c).

Definition set_mem (st : mstate) (mem : gmap nat memlist) : mstate :=
  MState mem (memlist_freelist st) (memlist_freelist_count st).

(** [p->...]: a checked update of an element. *)
Definition upd (p : nat) (f : memlist → memlist) (st : mstate) : option mstate :=
  let! c := ms_mem st !! p in
  Some (set_mem st (<[p := f c]> (ms_mem st))).

(** [if (p != NULL) p->... = ...]. *)
Definition upd_if (p : option nat) (f : memlist → memlist) (st : mstate) : option mstate :=
  match p with None => Some st | Some p => upd p f st end.

(** ** The free list *)

Definition memlist_get_one (st : mstate) : option (mstate * option nat) :=
  match memlist_freelist st with
  | None => Some (st, None)
  | Some p =>
      let! c := ms_mem st !! p in
      Some (MState (ms_mem st) (ml_next c) (u32 (memlist_freelist_count st - 1)), Some p)
  end.

Definition memlist_free_one (st : mstate) (p : nat) : option mstate :=
  let! st := upd p (set_next (memlist_freelist st)) st in
  Some (MState (ms_mem st) (Some p) (u32 (memlist_freelist_count st + 1))).

(** The last element of a list and the number of its elements. *)
Definition list_end_step (st : mstate) (s : nat * Z) : option (loop (nat * Z) (nat * Z)) :=
  let '(p, count) := s in
  let! c := ms_mem st !! p in
  Some (match ml_next c with None => Return (p, count) | Some q => Next (q, u32 (count + 1)) end).

(** The lists have no more elements than there are cells. *)
Definition list_fuel (st : mstate) : nat := S (S (size (ms_mem st))).

Definition memlist_free_list (st : mstate) (mlp : option nat) : option mstate :=
  match mlp with
  | None => Some st
  | Some p =>
      let! (mlendp, count) := run (list_end_step st) (list_fuel st) (p, 1) in
      let! st := upd mlendp (set_next (memlist_freelist st)) st in
      Some (MState (ms_mem st) (Some p) (u32 (memlist_freelist_count st + count)))
  end.

(** The links of a block: cells [p] to [p + n]. *)
Fixpoint link_block (p n : nat) (st : mstate) {struct n} : option mstate :=
  match n with
  | O => upd p (set_next None) st
  | S n => let! st := upd p (set_next (Some (S p))) st in link_block (S p) n st
  end.

(** [memlist_free_block], for a block at cell [base] of [bytes] bytes, with
    elements of [sizeof] bytes. *)
Definition memlist_free_block (sizeof : Z) (base : nat) (bytes : Z) (st : mstate) : option mstate :=
  let count := u32 (bytes `div` sizeof) in
  if count =? 0 then Some st
  else
    let n := Z.to_nat (count - 1) in
    let! st := link_block base n st in
    let! st := upd (base + n) (set_next (memlist_freelist st)) st in
    Some (MState (ms_mem st) (Some base) (u32 (memlist_freelist_count st + count))).

(** ** Lists *)

(** A list is the head pointer the caller keeps.  [memlist_insert] panics on
    overlapping spans. *)
Inductive insert_result :=
  | Inserted (st : mstate) (curmemlistp : option nat)
  | Munged.

Definition insert_step (new : nat) (start end_ : Z) (curmemlistp : option nat) (st : mstate)
    (s : option nat * option nat) : option (loop (option nat * option nat) insert_result) :=
  let '(cur, last) := s in
  match cur with
  | Some cur =>
      let! c := ms_mem st !! cur in
      if ml_address c >=? end_ then
        let! st := upd new (set_next (Some cur)) st in
        let! st := upd new (set_prev (ml_prev c)) st in
        let! st := upd cur (set_prev (Some new)) st in
        if decide (curmemlistp = Some cur) then Some (Return (Inserted st (Some new)))
        else
          let! cn := ms_mem st !! new in
          let! p := ml_prev cn in
          let! st := upd p (set_next (Some new)) st in
          Some (Return (Inserted st curmemlistp))
      else if u64 (ml_address c + ml_size c) >? start then Some (Return Munged)
      else Some (Next (ml_next c, Some cur))
  | None =>
      let! st := upd new (set_next None) st in
      let! st := upd new (set_prev last) st in
      let! st := upd_if last (set_next (Some new)) st in
      Some (Return (Inserted st curmemlistp))
  end.

Definition memlist_insert (new : nat) (curmemlistp : option nat) (st : mstate) : option insert_result :=
  let! cn := ms_mem st !! new in
  let start := ml_address cn in
  let end_ := u64 (start + ml_size cn) in
  run (insert_step new start end_ curmemlistp st) (list_fuel st) (curmemlistp, None).

Definition memlist_del (memlistp : nat) (curmemlistp : option nat) (st : mstate) : option (mstate * option nat) :=
  let! c := ms_mem st !! memlistp in
  let curmemlistp := if decide (curmemlistp = Some memlistp) then ml_next c else curmemlistp in
  let! st := upd_if (ml_prev c) (set_next (ml_next c)) st in
  let! c := ms_mem st !! memlistp in
  let! st := upd_if (ml_next c) (set_prev (ml_prev c)) st in
  Some (st, curmemlistp).

(** [address >= mlp->address && address < mlp->address + mlp->size] *)
Definition contains (c : memlist) (address : Z) : bool :=
  (address >=? ml_address c) && (address <? u64 (ml_address c + ml_size c)).

Definition ml_find_step (st : mstate) (address : Z) (mlp : option nat) : option (loop (option nat) (option nat)) :=
  match mlp with
  | None => Some (Return None)
  | Some p =>
      let! c := ms_mem st !! p in
      Some (if contains c address then Return (Some p) else Next (ml_next c))
  end.

Definition memlist_find (st : mstate) (mlp : option nat) (address : Z) : option (option nat) :=
  run (ml_find_step st address) (list_fuel st) mlp.

(** ** Adding a span *)

(** The end of the loop's body: the span goes to, before, or behind [next], or
    overlaps. *)
Definition add_here (address bytes : Z) (dst : nat) (curmemlistp : option nat) (prev : option nat) (next : nat) (st : mstate) :
    option (mstate * option nat * Z) :=
  let! cn := ms_mem st !! next in
  if u64 (address + bytes) =? ml_address cn then
    let! st := memlist_free_one st dst in
    let! st := upd next (λ c, set_span address (u64 (ml_size c + bytes)) c) st in
    Some (st, curmemlistp, MEML_SPANOP_OK)
  else if address =? u64 (ml_address cn + ml_size cn) then
    let! st := memlist_free_one st dst in
    match ml_next cn with
    | Some mlp =>
        let! cm := ms_mem st !! mlp in
        if u64 (address + bytes) >? ml_address cm then Some (st, curmemlistp, MEML_SPANOP_ESPAN)
        else if u64 (address + bytes) =? ml_address cm then
          let curmemlistp := if decide (curmemlistp = Some next) then ml_next cn else curmemlistp in
          let! st := upd mlp (set_span (ml_address cn) (u64 (u64 (ml_size cm + ml_size cn) + bytes))) st in
          let! st := upd_if (ml_prev cn) (set_next (Some mlp)) st in
          let! st := upd mlp (set_prev (ml_prev cn)) st in
          let! st := memlist_free_one st next in
          Some (st, curmemlistp, MEML_SPANOP_OK)
        else
          let! st := upd next (λ c, set_size (u64 (ml_size c + bytes)) c) st in
          Some (st, curmemlistp, MEML_SPANOP_OK)
    | None =>
        let! st := upd next (λ c, set_size (u64 (ml_size c + bytes)) c) st in
        Some (st, curmemlistp, MEML_SPANOP_OK)
    end
  else if u64 (address + bytes) >? ml_address cn then
    let! st := memlist_free_one st dst in
    Some (st, curmemlistp, MEML_SPANOP_ESPAN)
  else
    let! st := upd dst (set_prev prev) st in
    let! st := upd dst (set_next (Some next)) st in
    let! st := upd next (set_prev (Some dst)) st in
    match prev with
    | None => Some (st, Some dst, MEML_SPANOP_OK)
    | Some p =>
        let! st := upd p (set_next (Some dst)) st in
        Some (st, curmemlistp, MEML_SPANOP_OK)
    end.

(** One iteration: on past the elements that end before the span. *)
Definition add_step (address : Z) (st : mstate) (s : option nat * option nat) :
    option (loop (option nat * option nat) (option nat * option nat)) :=
  let '(prev, next) := s in
  match next with
  | None => Some (Return (prev, None))
  | Some n =>
      let! cn := ms_mem st !! n in
      Some (if address >? u64 (ml_address cn + ml_size cn) then Next (Some n, ml_next cn) else Return (prev, Some n))
  end.

Definition memlist_add_span (address bytes : Z) (curmemlistp : option nat) (st : mstate) : option (mstate * option nat * Z) :=
  let! (st, dst) := memlist_get_one st in
  match dst with
  | None => Some (st, curmemlistp, MEML_SPANOP_EALLOC)
  | Some dst =>
      let! st := upd dst (set_span address bytes) st in
      match curmemlistp with
      | None =>
          let! st := upd dst (set_prev None) st in
          let! st := upd dst (set_next None) st in
          Some (st, Some dst, MEML_SPANOP_OK)
      | Some _ =>
          let! (prev, next) := run (add_step address st) (list_fuel st) (None, curmemlistp) in
          match next with
          | Some next => add_here address bytes dst curmemlistp prev next st
          | None =>
              let! prev := prev in
              let! st := upd prev (set_next (Some dst)) st in
              let! st := upd dst (set_prev (Some prev)) st in
              let! st := upd dst (set_next None) st in
              Some (st, curmemlistp, MEML_SPANOP_OK)
          end
      end
  end.

(** ** Deleting a span *)

Definition memlist_delete_span (address bytes : Z) (curmemlistp : option nat) (st : mstate) : option (mstate * option nat * Z) :=
  let! next := memlist_find st curmemlistp address in
  match next with
  | None => Some (st, curmemlistp, MEML_SPANOP_ESPAN)
  | Some next =>
      let! c := ms_mem st !! next in
      if u64 (address + bytes) >? u64 (ml_address c + ml_size c) then Some (st, curmemlistp, MEML_SPANOP_ESPAN)
      else if address =? ml_address c then
        if bytes =? ml_size c then
          let curmemlistp := if decide (curmemlistp = Some next) then ml_next c else curmemlistp in
          let! st := upd_if (ml_prev c) (set_next (ml_next c)) st in
          let! st := upd_if (ml_next c) (set_prev (ml_prev c)) st in
          let! st := memlist_free_one st next in
          Some (st, curmemlistp, MEML_SPANOP_OK)
        else
          let! st := upd next (set_span (u64 (ml_address c + bytes)) (u64 (ml_size c - bytes))) st in
          Some (st, curmemlistp, MEML_SPANOP_OK)
      else if u64 (address + bytes) =? u64 (ml_address c + ml_size c) then
        let! st := upd next (set_size (u64 (ml_size c - bytes))) st in
        Some (st, curmemlistp, MEML_SPANOP_OK)
      else
        let! (st, dst) := memlist_get_one st in
        match dst with
        | None => Some (st, curmemlistp, MEML_SPANOP_EALLOC)
        | Some dst =>
            let! st := upd dst (set_span (u64 (address + bytes))
              (u64 (u64 (ml_address c + ml_size c) - u64 (address + bytes)))) st in
            let! st := upd next (set_size (u64 (address - ml_address c))) st in
            let! st := upd dst (set_next (ml_next c)) st in
            let! st := upd dst (set_prev (Some next)) st in
            let! st := upd_if (ml_next c) (set_prev (Some dst)) st in
            let! st := upd next (set_next (Some dst)) st in
            Some (st, curmemlistp, MEML_SPANOP_OK)
        end
  end.

(** ** Lists in memory *)

(** An element of a list: its cell and its span. *)
Abbreviation item := (nat * (Z * Z))%type.

Definition ohead (l : list item) : option nat := fst <$> head l.
Definition olast (l : list item) : option nat := fst <$> last l.

(** The elements of [l] in memory, linked from [prv] to [nxt]. *)
Fixpoint seg (mem : gmap nat memlist) (prv : option nat) (l : list item) (nxt : option nat) : Prop :=
  match l with
  | [] => True
  | (p, (a, n)) :: l =>
      mem !! p = Some (Memlist a n (match l with [] => nxt | x :: _ => Some x.1 end) prv) ∧ seg mem (Some p) l nxt
  end.

(** A whole list. *)
Abbreviation dl mem l := (seg mem None l None).

Definition alter_if (p : option nat) (f : memlist → memlist) (mem : gmap nat memlist) : gmap nat memlist :=
  match p with None => mem | Some p => alter f p mem end.

Lemma upd_ok st p f c : ms_mem st !! p = Some c → upd p f st = Some (set_mem st (alter f p (ms_mem st))).
Proof.
  intros Hc. unfold upd. rewrite Hc. do 2 f_equal. apply map_eq. intros q. destruct (decide (q = p)) as [->|].
  - by rewrite lookup_insert_eq, lookup_alter_eq, Hc.
  - by rewrite lookup_insert_ne, lookup_alter_ne.
Qed.

Lemma upd_if_ok st p f :
  (∀ q, p = Some q → is_Some (ms_mem st !! q)) → upd_if p f st = Some (set_mem st (alter_if p f (ms_mem st))).
Proof. intros H. destruct p as [p|]; [|by destruct st]. destruct (H p eq_refl) as [c Hc]. by apply (upd_ok _ _ _ c). Qed.

Lemma seg_frame mem mem' prv l nxt : (∀ p, p ∈ l.*1 → mem' !! p = mem !! p) → seg mem prv l nxt → seg mem' prv l nxt.
Proof.
  revert prv. induction l as [|[p [a n]] l IH]; intros prv Hf; [done|]. cbn. intros [Hp Hl].
  split; [rewrite Hf; [done|by left]|]. apply IH; [|done]. intros q Hq. apply Hf. by right.
Qed.

Lemma seg_alter mem prv l nxt p f : p ∉ l.*1 → seg mem prv l nxt → seg (alter f p mem) prv l nxt.
Proof. intros Hp. apply seg_frame. intros q Hq. apply lookup_alter_ne. by intros ->. Qed.

Lemma seg_alter_if mem prv l nxt p f : (∀ q, p = Some q → q ∉ l.*1) → seg mem prv l nxt → seg (alter_if p f mem) prv l nxt.
Proof. destruct p as [p|]; [|done]. intros Hp. by apply seg_alter, Hp. Qed.

Lemma seg_app mem prv l1 x l2 nxt :
  seg mem prv (l1 ++ x :: l2) nxt ↔
  seg mem prv l1 (Some x.1) ∧ seg mem (match olast l1 with None => prv | Some q => Some q end) (x :: l2) nxt.
Proof.
  revert prv. induction l1 as [|[p [a n]] l1 IH]; intros prv.
  - change (olast []) with (None (A := nat)). rewrite app_nil_l. cbn [seg]. tauto.
  - rewrite <- app_comm_cons. cbn [seg]. rewrite IH.
    assert (match olast ((p, (a, n)) :: l1) with None => prv | Some q => Some q end = match olast l1 with None => Some p | Some q => Some q end) as ->.
    { unfold olast. rewrite last_cons. by destruct (last l1). }
    destruct l1; cbn; tauto.
Qed.

Lemma dl_app mem l1 l2 : dl mem (l1 ++ l2) ↔ seg mem None l1 (ohead l2) ∧ seg mem (olast l1) l2 None.
Proof.
  destruct l2 as [|x l2]; [rewrite app_nil_r; cbn; tauto|]. rewrite seg_app. by destruct (olast l1).
Qed.

Lemma seg_cons mem prv p a n l nxt :
  seg mem prv ((p, (a, n)) :: l) nxt ↔
  mem !! p = Some (Memlist a n (match ohead l with None => nxt | Some q => Some q end) prv) ∧ seg mem (Some p) l nxt.
Proof. by destruct l. Qed.

Lemma ohead_in l p : ohead l = Some p → p ∈ l.*1.
Proof. destruct l as [|x l]; [done|]. intros [= <-]. by left. Qed.

Lemma olast_in l p : olast l = Some p → p ∈ l.*1.
Proof.
  unfold olast. destruct (last l) as [x|] eqn:E; [|done]. intros [= <-]. apply last_Some in E as [l' ->].
  rewrite fmap_app. set_solver.
Qed.

(** Changing the link out of a list, or into it. *)
Lemma seg_set_next mem prv l nxt nxt' :
  NoDup l.*1 → seg mem prv l nxt → seg (alter_if (olast l) (set_next nxt') mem) prv l nxt'.
Proof.
  revert prv. induction l as [|[p [a n]] l IH]; intros prv; [done|]. rewrite fmap_cons, NoDup_cons. intros [Hp Hnd] [Hc Hl].
  destruct l as [|x l].
  - cbn. by rewrite lookup_alter_eq, Hc.
  - change (olast ((p, (a, n)) :: x :: l)) with (olast (x :: l)). split; [|by apply IH].
    destruct (olast (x :: l)) as [q|] eqn:E; cbn [alter_if]; [|done]. rewrite lookup_alter_ne; [done|].
    intros ->. by apply Hp, olast_in.
Qed.

Lemma seg_set_prev mem prv l nxt prv' :
  NoDup l.*1 → seg mem prv l nxt → seg (alter_if (ohead l) (set_prev prv') mem) prv' l nxt.
Proof.
  destruct l as [|[p [a n]] l]; [done|]. rewrite fmap_cons, NoDup_cons. intros [Hp Hnd] [Hc Hl]. cbn [ohead fmap option_fmap option_map head alter_if fst].
  split; [by rewrite lookup_alter_eq, Hc|]. by apply seg_alter.
Qed.

Lemma NoDup_app_items (l1 l2 : list item) : NoDup (l1 ++ l2).*1 ↔ NoDup l1.*1 ∧ NoDup l2.*1 ∧ l1.*1 ## l2.*1.
Proof. rewrite fmap_app, NoDup_app. split; intros (? & H & ?); split_and!; try done; set_solver. Qed.

Lemma dl_insert mem l1 l2 d a n :
  NoDup (l1 ++ l2).*1 → d ∉ (l1 ++ l2).*1 → dl mem (l1 ++ l2) → mem !! d = Some (Memlist a n (ohead l2) (olast l1)) →
  dl (alter_if (olast l1) (set_next (Some d)) (alter_if (ohead l2) (set_prev (Some d)) mem)) (l1 ++ (d, (a, n)) :: l2).
Proof.
  rewrite NoDup_app_items, fmap_app, not_elem_of_app, dl_app, dl_app. intros (Hn1 & Hn2 & Hdis) [Hd1 Hd2] [H1 H2] Hd.
  assert (∀ q, olast l1 = Some q → q ∈ l1.*1) as Hl by (intros; by apply olast_in).
  assert (∀ q, ohead l2 = Some q → q ∈ l2.*1) as Hh by (intros; by apply ohead_in).
  split.
  - apply (seg_set_next _ _ _ (ohead l2)); [done|]. apply seg_alter_if; [|done]. set_solver.
  - rewrite seg_cons. split.
    + destruct (olast l1) as [q|] eqn:E1; cbn [alter_if]; [rewrite lookup_alter_ne by (intros ->; naive_solver)|];
        (destruct (ohead l2) as [r|] eqn:E2; cbn [alter_if]; [rewrite lookup_alter_ne by (intros ->; naive_solver)|]); done.
    + apply seg_alter_if; [set_solver|]. by apply seg_set_prev with (olast l1).
Qed.

Lemma dl_remove mem l1 p x l2 :
  NoDup (l1 ++ (p, x) :: l2).*1 → dl mem (l1 ++ (p, x) :: l2) →
  dl (alter_if (ohead l2) (set_prev (olast l1)) (alter_if (olast l1) (set_next (ohead l2)) mem)) (l1 ++ l2).
Proof.
  destruct x as [a n]. rewrite NoDup_app_items, dl_app, dl_app, seg_cons, fmap_cons, NoDup_cons. intros (Hn1 & [Hp Hn2] & Hdis) (H1 & _ & H2).
  assert (∀ q, olast l1 = Some q → q ∈ l1.*1) as Hl by (intros; by apply olast_in).
  assert (∀ q, ohead l2 = Some q → q ∈ l2.*1) as Hh by (intros; by apply ohead_in).
  split.
  - apply seg_alter_if; [set_solver|]. by apply seg_set_next with (Some p).
  - apply seg_set_prev with (Some p); [done|]. apply seg_alter_if; [set_solver|done].
Qed.

Lemma dl_cell mem l1 p a n l2 :
  dl mem (l1 ++ (p, (a, n)) :: l2) → mem !! p = Some (Memlist a n (ohead l2) (olast l1)).
Proof. rewrite dl_app, seg_cons. intros (_ & -> & _). by destruct (ohead l2). Qed.

(** A cell with another span. *)
Lemma dl_change mem l1 p a n l2 a' n' f :
  NoDup (l1 ++ (p, (a, n)) :: l2).*1 → dl mem (l1 ++ (p, (a, n)) :: l2) →
  (∀ nx pv, f (Memlist a n nx pv) = Memlist a' n' nx pv) → dl (alter f p mem) (l1 ++ (p, (a', n')) :: l2).
Proof.
  rewrite NoDup_app_items, !dl_app, !seg_cons, fmap_cons, NoDup_cons. intros (Hn1 & [Hp Hn2] & Hdis) (H1 & Hc & H2) Hf.
  split_and!; [apply seg_alter; [set_solver|done]|by rewrite lookup_alter_eq, Hc; cbn; rewrite Hf|by apply seg_alter].
Qed.

(** The free list. *)
Fixpoint fl (mem : gmap nat memlist) (l : list nat) : Prop :=
  match l with
  | [] => True
  | p :: l => (∃ c, mem !! p = Some c ∧ ml_next c = head l) ∧ fl mem l
  end.

Lemma fl_frame mem mem' l : (∀ p, p ∈ l → mem' !! p = mem !! p) → fl mem l → fl mem' l.
Proof.
  induction l as [|p l IH]; intros Hf; [done|]. intros [(c & Hc & Hn) Hl]. split; [exists c; rewrite Hf; [done|by left]|].
  apply IH; [|done]. intros q Hq. apply Hf. by right.
Qed.

Lemma fl_alter_if mem l p f : (∀ q, p = Some q → q ∉ l) → fl mem l → fl (alter_if p f mem) l.
Proof.
  destruct p as [p|]; [|done]. intros Hp. apply fl_frame. intros q Hq. apply lookup_alter_ne. intros ->. by apply (Hp q).
Qed.

(** ** Spans *)

(** Spans in order from [lo] on, without overlap and below 2^64. *)
Fixpoint spans_ok (lo : Z) (l : list (Z * Z)) : Prop :=
  match l with
  | [] => True
  | (a, n) :: l => lo <= a ∧ 0 < n ∧ a + n < 2 ^ 64 ∧ spans_ok (a + n) l
  end.

(** Where a list of spans ends. *)
Fixpoint spans_end (lo : Z) (l : list (Z * Z)) : Z :=
  match l with [] => lo | (a, n) :: l => spans_end (a + n) l end.

Lemma spans_ok_app lo l1 l2 : spans_ok lo (l1 ++ l2) ↔ spans_ok lo l1 ∧ spans_ok (spans_end lo l1) l2.
Proof. revert lo. induction l1 as [|[a n] l1 IH]; intros lo; cbn; [tauto|]. rewrite IH. tauto. Qed.

Lemma spans_ok_le lo lo' l : lo' <= lo → spans_ok lo l → spans_ok lo' l.
Proof. destruct l as [|[a n] l]; cbn; [done|]. intuition lia. Qed.

(** Everything a list of spans covers. *)
Definition covers (l : list (Z * Z)) (x : Z) : Prop := ∃ a n, (a, n) ∈ l ∧ a <= x < a + n.

Lemma covers_nil x : ¬ covers [] x.
Proof. intros (a & n & []%not_elem_of_nil & _). Qed.

Lemma covers_cons a n l x : covers ((a, n) :: l) x ↔ a <= x < a + n ∨ covers l x.
Proof.
  unfold covers. setoid_rewrite elem_of_cons. split.
  - intros (a' & n' & [[= -> ->]|?] & ?); [by left|right; by exists a', n'].
  - intros [?|(a' & n' & ? & ?)]; [exists a, n; auto|exists a', n'; auto].
Qed.

Lemma covers_app l1 l2 x : covers (l1 ++ l2) x ↔ covers l1 x ∨ covers l2 x.
Proof. unfold covers. setoid_rewrite elem_of_app. naive_solver. Qed.

Lemma covers_from lo l x : spans_ok lo l → covers l x → lo <= x.
Proof.
  revert lo. induction l as [|[a n] l IH]; intros lo; [by intros _ ?%covers_nil|]. cbn. intros (? & ? & ? & Hl).
  rewrite covers_cons. intros [?|Hc]; [lia|]. apply IH in Hl; [lia|done].
Qed.

Lemma spans_end_ge lo l : spans_ok lo l → lo <= spans_end lo l.
Proof.
  revert lo. induction l as [|[a n] l IH]; intros lo; cbn; [lia|]. intros (? & ? & ? & Hl%IH). lia.
Qed.

Lemma spans_end_app lo l1 l2 : spans_end lo (l1 ++ l2) = spans_end (spans_end lo l1) l2.
Proof. revert lo. induction l1 as [|[a n] l1 IH]; intros lo; cbn; [done|apply IH]. Qed.

Lemma covers_to lo l x : spans_ok lo l → covers l x → x < spans_end lo l.
Proof.
  revert lo. induction l as [|[a n] l IH]; intros lo; [by intros _ ?%covers_nil|]. cbn. intros (? & ? & ? & Hl).
  rewrite covers_cons. intros [?|Hc]; [|by apply IH]. pose proof (spans_end_ge _ _ Hl). lia.
Qed.

(** No two elements are adjacent. *)
Fixpoint gaps (lo : Z) (l : list (Z * Z)) : Prop :=
  match l with
  | [] => True
  | (a, n) :: l => lo < a ∧ gaps (a + n) l
  end.
Definition merged (l : list (Z * Z)) : Prop := gaps (-1) l.

Lemma gaps_app lo l1 l2 : gaps lo (l1 ++ l2) ↔ gaps lo l1 ∧ gaps (spans_end lo l1) l2.
Proof. revert lo. induction l1 as [|[a n] l1 IH]; intros lo; cbn; [tauto|]. rewrite IH. tauto. Qed.

Lemma gaps_le lo lo' l : lo' <= lo → gaps lo l → gaps lo' l.
Proof. destruct l as [|[a n] l]; cbn; [done|]. intuition lia. Qed.

Lemma gaps_from lo l x : spans_ok lo l → gaps lo l → covers l x → lo < x.
Proof.
  destruct l as [|[a n] l]; [by intros _ _ ?%covers_nil|]. cbn. intros (? & ? & ? & Hl) [? _].
  rewrite covers_cons. intros [?|Hc]; [lia|]. apply (covers_from _ _ _ Hl) in Hc. lia.
Qed.

Lemma spans_end_start lo lo' l b : lo < b → (l = [] ∨ spans_end lo' l < b) → spans_end lo l < b.
Proof. intros ? [->|?]; [done|]. by destruct l as [|[a n] l]. Qed.

(** ** The invariant *)

(** The list [l] with the head [head_] and the free list [free], as they are
    in memory. *)
Record mrep (st : mstate) (head_ : option nat) (l : list item) (free : list nat) : Prop := {
  mi_list : dl (ms_mem st) l;
  mi_head : head_ = ohead l;
  mi_free : fl (ms_mem st) free;
  mi_fhead : memlist_freelist st = head free;
  mi_nodup : NoDup (l.*1 ++ free);
  mi_count : memlist_freelist_count st = u32 (Z.of_nat (length free))
}.

Lemma mrep_nodup st h l free : mrep st h l free → NoDup l.*1.
Proof. intros H. apply mi_nodup in H. by apply NoDup_app in H as [? _]. Qed.

Lemma u32_succ n : u32 (u32 (Z.of_nat n) + 1) = u32 (Z.of_nat (S n)).
Proof. unfold wrapu. rewrite Zplus_mod_idemp_l. f_equal. lia. Qed.

Lemma u32_pred n : u32 (u32 (Z.of_nat (S n)) - 1) = u32 (Z.of_nat n).
Proof. unfold wrapu. rewrite Zminus_mod_idemp_l. f_equal. lia. Qed.

(** A list that lacks one cell, [d], which is in neither list. *)
Lemma get_one_ok st h l free :
  mrep st h l free →
  match free with
  | [] => memlist_get_one st = Some (st, None)
  | d :: free => ∃ st', memlist_get_one st = Some (st', Some d) ∧ ms_mem st' = ms_mem st ∧ mrep st' h l free ∧
      (d ∉ l.*1 ++ free) ∧ is_Some (ms_mem st !! d)
  end.
Proof.
  intros [I1 I2 I3 I4 I5 I6]. unfold memlist_get_one. rewrite I4. destruct free as [|d free]; [done|]. cbn [head].
  destruct I3 as [(c & Hc & Hn) Hfl]. rewrite Hc. eexists. split; [done|]. split; [done|].
  assert (NoDup (d :: l.*1 ++ free)) as [Hd Hnd]%NoDup_cons by (by rewrite Permutation_middle).
  split; [|split; [done|by exists c]]. split; try done. cbn [memlist_freelist_count]. rewrite I6. apply (u32_pred (length free)).
Qed.

Lemma free_one_ok st h l free d c :
  mrep st h l free → d ∉ l.*1 ++ free → ms_mem st !! d = Some c →
  ∃ st', memlist_free_one st d = Some st' ∧ mrep st' h l (d :: free) ∧ ∀ p, p ≠ d → ms_mem st' !! p = ms_mem st !! p.
Proof.
  intros [I1 I2 I3 I4 I5 I6] Hd Hc. unfold memlist_free_one. rewrite (upd_ok _ _ _ c) by done. eexists. split; [done|].
  apply not_elem_of_app in Hd as Hd'. destruct Hd' as [Hdl Hdf]. split.
  - split; cbn [ms_mem memlist_freelist memlist_freelist_count set_mem]; try done.
    + by apply seg_alter.
    + split; [exists (set_next (memlist_freelist st) c); by rewrite lookup_alter_eq, Hc|].
      apply (fl_alter_if _ _ (Some d)); [congruence|done].
    + rewrite <- Permutation_middle. by constructor.
    + rewrite I6. apply (u32_succ (length free)).
  - intros p Hp. cbn. by apply lookup_alter_ne.
Qed.

(** The cells that are in neither list do not matter. *)
Lemma mrep_alter st h l free d f :
  mrep st h l free → d ∉ l.*1 ++ free → mrep (set_mem st (alter f d (ms_mem st))) h l free.
Proof.
  intros [I1 I2 I3 I4 I5 I6] [Hdl Hdf]%not_elem_of_app. split; cbn; try done.
  - by apply seg_alter.
  - apply (fl_alter_if _ _ (Some d)); [congruence|done].
Qed.

Lemma list_length st h l free : mrep st h l free → (length l <= size (ms_mem st))%nat.
Proof.
  intros H. pose proof (mrep_nodup _ _ _ _ H) as Hnd. rewrite <- (length_fmap fst l), <- size_dom.
  rewrite <- (size_list_to_set (C := gset nat) (l.*1)) by done. apply subseteq_size. intros p Hp%elem_of_list_to_set.
  apply list_elem_of_fmap in Hp as ([q [a n]] & -> & Hp). apply list_elem_of_split in Hp as (l1 & l2 & ->).
  apply elem_of_dom. pose proof (dl_cell _ _ _ _ _ _ (mi_list _ _ _ _ H)) as E. cbn. rewrite E. by eexists.
Qed.

(** ** Searching *)

(** The address at which a span ends does not wrap around. *)
Lemma u64_end lo l1 a n l2 : 0 <= lo → spans_ok lo (l1 ++ (a, n) :: l2) → u64 (a + n) = a + n.
Proof.
  intros Hlo. rewrite spans_ok_app. cbn. intros (H1 & ? & ? & ? & _). pose proof (spans_end_ge _ _ H1).
  apply wrapu_id. lia.
Qed.

Lemma items_split (l1 : list item) p x l2 : (l1 ++ (p, x) :: l2).*2 = l1.*2 ++ x :: l2.*2.
Proof. by rewrite fmap_app. Qed.

Lemma ml_find_ok st h l free address :
  mrep st h l free → spans_ok 0 l.*2 →
  ∃ r, memlist_find st h address = Some r ∧
    match r with
    | None => ¬ covers l.*2 address
    | Some p => ∃ l1 a n l2, l = l1 ++ (p, (a, n)) :: l2 ∧ a <= address < a + n
    end.
Proof.
  intros Hinv Hs. unfold memlist_find. rewrite (mi_head _ _ _ _ Hinv).
  apply (run_total_idx _ (λ k p, ∃ l1 l2, l = l1 ++ l2 ∧ p = ohead l2 ∧ k = length l2 ∧ ¬ covers l1.*2 address) _) with (n := length l).
  2: { exists [], l. split_and!; try done. apply covers_nil. }
  2: { pose proof (list_length _ _ _ _ Hinv). unfold list_fuel. lia. }
  intros k q (l1 & l2 & -> & -> & -> & Hno). destruct l2 as [|[p [a n]] l2]; cbn [ohead head fmap option_fmap option_map fst ml_find_step].
  - eexists. split; [done|]. cbn. by rewrite app_nil_r.
  - rewrite (dl_cell _ _ _ _ _ _ (mi_list _ _ _ _ Hinv)). unfold contains. cbn [ml_address ml_size ml_next].
    rewrite items_split in Hs. rewrite (u64_end 0 _ _ _ _ ltac:(lia) Hs).
    eexists. split; [done|]. destruct (Z.geb_spec address a), (Z.ltb_spec address (a + n)); cbn.
    1: by exists l1, a, n, l2.
    all: exists (length l2); (split; [lia|]); exists (l1 ++ [(p, (a, n))]), l2; rewrite <- app_assoc; (split_and!; [done|done|done|]);
      rewrite fmap_app, covers_app; cbn; rewrite covers_cons; intros [?|[?|[]%covers_nil]]; (done || lia).
Qed.

(** Where [memlist_add_span] stops. *)
Lemma add_loop_ok st h l free address :
  mrep st h l free → spans_ok 0 l.*2 →
  ∃ l1 l2, l = l1 ++ l2 ∧ run (add_step address st) (list_fuel st) (None, h) = Some (olast l1, ohead l2) ∧
    (l1 = [] ∨ spans_end 0 l1.*2 < address) ∧ match l2 with [] => True | (_, (a, n)) :: _ => address <= a + n end.
Proof.
  intros Hinv Hs. rewrite (mi_head _ _ _ _ Hinv).
  destruct (run_total_idx (add_step address st) (λ k '(pv, nx), ∃ l1 l2, l = l1 ++ l2 ∧ pv = olast l1 ∧ nx = ohead l2 ∧ k = length l2 ∧
      (l1 = [] ∨ spans_end 0 l1.*2 < address))
    (λ '(pv, nx), ∃ l1 l2, l = l1 ++ l2 ∧ pv = olast l1 ∧ nx = ohead l2 ∧ (l1 = [] ∨ spans_end 0 l1.*2 < address) ∧
      match l2 with [] => True | (_, (a, n)) :: _ => address <= a + n end))
    with (fuel := list_fuel st) (n := length l) (s := (None (A := nat), ohead l)) as ([pv nx] & Hrun & l1 & l2 & El & -> & -> & H1 & H2).
  - intros k [pv nx] (l1 & l2 & El & -> & -> & -> & H1). destruct l2 as [|[p [a n]] l2]; cbn [ohead head fmap option_fmap option_map fst add_step].
    + eexists. split; [done|]. by exists l1, [].
    + pose proof (mi_list _ _ _ _ Hinv) as Hl. rewrite El in Hl, Hs. rewrite items_split in Hs.
      rewrite (dl_cell _ _ _ _ _ _ Hl). cbn [ml_address ml_size ml_next]. rewrite (u64_end 0 _ _ _ _ ltac:(lia) Hs).
      eexists. split; [done|]. destruct (Z.gtb_spec address (a + n)).
      * exists (length l2). split; [cbn; lia|]. exists (l1 ++ [(p, (a, n))]), l2. rewrite <- app_assoc.
        split_and!; [done|unfold olast; by rewrite last_snoc|done|done|]. right. rewrite fmap_app, spans_end_app. cbn. lia.
      * exists l1, ((p, (a, n)) :: l2). done.
  - exists [], l. split_and!; try done. by left.
  - pose proof (list_length _ _ _ _ Hinv). unfold list_fuel. lia.
  - exists l1, l2. done.
Qed.

(** ** Changing the lists *)

(** A cell of neither list. *)
Lemma upd_out st h l free d f c :
  mrep st h l free → d ∉ l.*1 ++ free → ms_mem st !! d = Some c →
  ∃ st', upd d f st = Some st' ∧ mrep st' h l free ∧ ms_mem st' !! d = Some (f c) ∧ ∀ p, p ≠ d → ms_mem st' !! p = ms_mem st !! p.
Proof.
  intros Hr Hd Hc. rewrite (upd_ok _ _ _ c Hc). eexists. split; [done|]. split; [by apply mrep_alter|]. cbn.
  split; [by rewrite lookup_alter_eq, Hc|]. intros p Hp. by apply lookup_alter_ne.
Qed.

(** A span that changes. *)
Lemma upd_span st h l1 p a n l2 free f a' n' :
  mrep st h (l1 ++ (p, (a, n)) :: l2) free → (∀ nx pv, f (Memlist a n nx pv) = Memlist a' n' nx pv) →
  ∃ st', upd p f st = Some st' ∧ mrep st' h (l1 ++ (p, (a', n')) :: l2) free ∧ ∀ q, q ≠ p → ms_mem st' !! q = ms_mem st !! q.
Proof.
  intros Hr Hf. pose proof (mrep_nodup _ _ _ _ Hr) as Hnd. pose proof Hr as [I1 I2 I3 I4 I5 I6].
  pose proof (dl_cell _ _ _ _ _ _ I1) as Hc. rewrite (upd_ok _ _ _ _ Hc). eexists. split; [done|].
  assert ((l1 ++ (p, (a', n')) :: l2).*1 = (l1 ++ (p, (a, n)) :: l2).*1) as E1 by (by rewrite !fmap_app).
  split; [|intros q Hq; cbn; by apply lookup_alter_ne]. split; cbn [set_mem ms_mem memlist_freelist memlist_freelist_count]; try done.
  - by apply (dl_change _ _ _ a n).
  - rewrite I2. by destruct l1.
  - apply (fl_alter_if _ _ (Some p)); [|done]. intros q [= <-] Hq. apply NoDup_app in I5 as (_ & H & _). apply (H p); [|done].
    rewrite fmap_app. set_solver.
  - by rewrite E1.
Qed.

Lemma ohead_lookup st h l1 l2 free q : mrep st h (l1 ++ l2) free → ohead l2 = Some q → is_Some (ms_mem st !! q).
Proof.
  intros Hr E. destruct l2 as [|[p [a n]] l2]; [done|]. injection E as <-. rewrite (dl_cell _ _ _ _ _ _ (mi_list _ _ _ _ Hr)). by eexists.
Qed.

Lemma olast_lookup st h l1 l2 free q : mrep st h (l1 ++ l2) free → olast l1 = Some q → is_Some (ms_mem st !! q).
Proof.
  intros Hr E. destruct l1 as [|[p [a n]] l1 _] using rev_ind; [done|]. unfold olast in E. rewrite last_snoc in E. injection E as <-.
  rewrite <- app_assoc in Hr. rewrite (dl_cell _ _ _ _ _ _ (mi_list _ _ _ _ Hr)). by eexists.
Qed.

(** The second of two updates still finds its cell. *)
Lemma alter_if_some p f (mem : gmap nat memlist) q : is_Some (mem !! q) → is_Some (alter_if p f mem !! q).
Proof. destruct p; [|done]. intros H. cbn. by apply lookup_alter_is_Some. Qed.

(** Linking a cell between the two parts of a list. *)
Lemma link_ok st h l1 l2 free d a n :
  mrep st h (l1 ++ l2) free → d ∉ (l1 ++ l2).*1 ++ free → ms_mem st !! d = Some (Memlist a n (ohead l2) (olast l1)) →
  ∃ st1 st2, upd_if (ohead l2) (set_prev (Some d)) st = Some st1 ∧ upd_if (olast l1) (set_next (Some d)) st1 = Some st2 ∧
    mrep st2 (ohead (l1 ++ (d, (a, n)) :: l2)) (l1 ++ (d, (a, n)) :: l2) free ∧
    (ms_mem st1 !! d = ms_mem st !! d).
Proof.
  intros Hr Hd Hc. pose proof (mrep_nodup _ _ _ _ Hr) as Hnd. pose proof Hr as [I1 I2 I3 I4 I5 I6].
  apply not_elem_of_app in Hd as [Hdl Hdf].
  rewrite upd_if_ok by (intros; by eapply ohead_lookup). eexists _, _. split; [done|].
  rewrite upd_if_ok by (intros; cbn; apply alter_if_some; by eapply olast_lookup). split; [done|].
  assert (∀ q, q ∈ (l1 ++ l2).*1 → q ∉ free) as Hdis by (apply NoDup_app in I5; naive_solver).
  split.
  - split; cbn [set_mem ms_mem memlist_freelist memlist_freelist_count]; try done.
    + by apply dl_insert.
    + apply fl_alter_if; [|apply fl_alter_if; [|done]]; intros q Hq; apply Hdis; rewrite fmap_app; apply elem_of_app;
        [left; by apply olast_in|right; by apply ohead_in].
    + rewrite fmap_app, fmap_cons in *. cbn. rewrite <- app_assoc. cbn. rewrite <- Permutation_middle. constructor; [|by rewrite app_assoc].
      rewrite app_assoc, not_elem_of_app. done.
  - cbn. destruct (ohead l2) as [q|] eqn:E; [|done]. cbn. rewrite lookup_alter_ne; [done|]. intros ->. apply Hdl.
    rewrite fmap_app. apply elem_of_app. right. by apply ohead_in.
Qed.

(** Unlinking one. *)
Lemma unlink_ok st h l1 p x l2 free :
  mrep st h (l1 ++ (p, x) :: l2) free →
  ∃ st1 st2, upd_if (olast l1) (set_next (ohead l2)) st = Some st1 ∧ ms_mem st1 !! p = ms_mem st !! p ∧
    upd_if (ohead l2) (set_prev (olast l1)) st1 = Some st2 ∧
    mrep st2 (ohead (l1 ++ l2)) (l1 ++ l2) free ∧ (p ∉ (l1 ++ l2).*1 ++ free) ∧ is_Some (ms_mem st2 !! p).
Proof.
  intros Hr. pose proof (mrep_nodup _ _ _ _ Hr) as Hnd. pose proof Hr as [I1 I2 I3 I4 I5 I6].
  assert (∀ q, olast l1 = Some q → is_Some (ms_mem st !! q)) as Hl by (intros; by eapply olast_lookup).
  assert (∀ q, ohead l2 = Some q → is_Some (ms_mem st !! q)) as Hh.
  { intros q Hq. rewrite cons_middle, app_assoc in Hr. by eapply ohead_lookup. }
  rewrite upd_if_ok by done. eexists _, _. split; [done|].
  assert ((p ∉ (l1 ++ l2).*1 ++ free) ∧ NoDup ((l1 ++ l2).*1 ++ free)) as [Hp Hnd'].
  { rewrite fmap_app, fmap_cons in *. cbn in *. rewrite <- app_assoc in I5. cbn in I5. rewrite <- Permutation_middle in I5.
    apply NoDup_cons in I5. by rewrite <- app_assoc. }
  pose proof Hp as [Hpl Hpf]%not_elem_of_app.
  split; [cbn; destruct (olast l1) as [q|] eqn:E; [|done]; cbn; rewrite lookup_alter_ne; [done|]|].
  { intros ->. apply Hpl. rewrite fmap_app. apply elem_of_app. left. by apply olast_in. }
  rewrite upd_if_ok by (intros q Hq; cbn; apply alter_if_some; by apply Hh). split; [done|].
  split; [|split; [done|]].
  - split; cbn [set_mem ms_mem memlist_freelist memlist_freelist_count]; try done.
    + by apply dl_remove with p x.
    + assert (∀ q, q ∈ (l1 ++ l2).*1 → q ∉ free) as Hdis by (apply NoDup_app in Hnd'; naive_solver).
      apply fl_alter_if; [|apply fl_alter_if; [|done]]; intros q Hq; apply Hdis; rewrite fmap_app; apply elem_of_app;
        [right; by apply ohead_in|left; by apply olast_in].
  - cbn. do 2 apply alter_if_some. destruct x. rewrite (dl_cell _ _ _ _ _ _ I1). by eexists.
Qed.

(** The head after an unlinking. *)
Lemma unlink_head st h l1 p x l2 free :
  mrep st h (l1 ++ (p, x) :: l2) free → (if decide (h = Some p) then ohead l2 else h) = ohead (l1 ++ l2).
Proof.
  intros Hr. rewrite (mi_head _ _ _ _ Hr). destruct l1 as [|[r y] l1']; cbn; [by rewrite decide_True|].
  rewrite decide_False; [done|]. intros [= ->]. pose proof (mrep_nodup _ _ _ _ Hr) as Hnd. rewrite fmap_app in Hnd.
  cbn in Hnd. apply NoDup_cons in Hnd. set_solver.
Qed.

(** ** Adding a span *)

Definition in_span (address bytes x : Z) : Prop := address <= x < address + bytes.

(** The span has an address in common with the list. *)
Definition overlaps (l : list (Z * Z)) (address bytes : Z) : Prop := ∃ x, covers l x ∧ in_span address bytes x.

(** The span has been added; it is in one element, and can be deleted again
    without a new element, or with one that is free. *)
Definition added (l : list (Z * Z)) (address bytes : Z) (l' : list (Z * Z)) (free' : list nat) : Prop :=
  (¬ overlaps l address bytes) ∧ (∀ x, covers l' x ↔ covers l x ∨ in_span address bytes x) ∧ (merged l → merged l') ∧
  ∃ a n, (a, n) ∈ l' ∧ a <= address ∧ address + bytes <= a + n ∧ (a = address ∨ address + bytes = a + n ∨ free' ≠ []).

Definition add_post (cells : list nat) (l : list item) (address bytes : Z) (res : option (mstate * option nat * Z)) : Prop :=
  ∃ st' h' code l' free', res = Some (st', h', code) ∧ mrep st' h' l' free' ∧ spans_ok 0 l'.*2 ∧ l'.*1 ++ free' ≡ₚ cells ∧
    (code = MEML_SPANOP_ESPAN ∧ l' = l ∧ overlaps l.*2 address bytes ∨
     code = MEML_SPANOP_OK ∧ added l.*2 address bytes l'.*2 free').

(** What is covered before and behind an element. *)
Lemma covers_split l1 a n l2 :
  spans_ok 0 (l1 ++ (a, n) :: l2) →
  0 <= spans_end 0 l1 <= a ∧ 0 < n ∧ a + n < 2 ^ 64 ∧ (∀ x, covers l1 x → 0 <= x < spans_end 0 l1) ∧ (∀ x, covers l2 x → a + n <= x) ∧
  spans_ok 0 l1 ∧ spans_ok (a + n) l2.
Proof.
  rewrite spans_ok_app. cbn. intros (H1 & ? & ? & ? & H2). pose proof (spans_end_ge _ _ H1). split_and!; try done; try lia.
  - intros x Hx. split; [by eapply covers_from|by apply (covers_to 0)].
  - intros x Hx. by eapply covers_from.
Qed.

Ltac spans := rewrite ?fmap_app, ?fmap_cons; cbn [fst snd]; rewrite ?covers_app, ?covers_cons; unfold in_span in *.

Section add_here.
Context (st : mstate) (h : option nat) (l1 : list item) (p : nat) (a n : Z) (l2 : list item) (free : list nat).
Context (d : nat) (address bytes : Z) (cd : memlist).
Context (Hr : mrep st h (l1 ++ (p, (a, n)) :: l2) free) (Hs : spans_ok 0 (l1.*2 ++ (a, n) :: l2.*2)).
Context (Hd : d ∉ (l1 ++ (p, (a, n)) :: l2).*1 ++ free) (Hcd : ms_mem st !! d = Some cd).
Context (Ecd : ml_address cd = address) (Ecs : ml_size cd = bytes).
Context (H1 : l1 = [] ∨ spans_end 0 l1.*2 < address) (H2 : address <= a + n).
Context (Ha : 0 <= address) (Hb : 0 < bytes) (Hab : address + bytes < 2 ^ 64).

#[local] Abbreviation l := (l1 ++ (p, (a, n)) :: l2).
#[local] Abbreviation cells := (d :: l.*1 ++ free).

Lemma l1_before x : covers l1.*2 x → x < address.
Proof.
  intros Hx. destruct H1 as [->|He]; [by apply covers_nil in Hx|].
  destruct (covers_split _ _ _ _ Hs) as (_ & _ & _ & Hc & _). specialize (Hc x Hx). lia.
Qed.

Lemma l1_end : spans_ok 0 l1.*2 ∧ spans_end 0 l1.*2 <= address.
Proof.
  destruct (covers_split _ _ _ _ Hs) as (He & _ & _ & _ & _ & Ho & _). split; [done|].
  destruct H1 as [->|?]; [done|lia].
Qed.

Lemma l1_gap : spans_end (-1) l1.*2 < address.
Proof. apply (spans_end_start _ 0); [lia|]. destruct H1 as [->|?]; [by left|by right]. Qed.

Lemma free_d : ∃ st', memlist_free_one st d = Some st' ∧ mrep st' h l (d :: free) ∧ ∀ q, q ≠ d → ms_mem st' !! q = ms_mem st !! q.
Proof. by apply (free_one_ok _ _ _ _ _ cd). Qed.

Lemma p_not_d : p ≠ d.
Proof. intros ->. apply Hd. rewrite fmap_app. set_solver. Qed.

Lemma add_before : address + bytes = a →
  add_post cells l address bytes (let! st := memlist_free_one st d in
    let! st := upd p (λ c, set_span address (u64 (ml_size c + bytes)) c) st in Some (st, h, MEML_SPANOP_OK)).
Proof.
  intros E. destruct free_d as (st1 & -> & Hr1 & _).
  destruct (covers_split _ _ _ _ Hs) as (He & Hn & Han & Hc1 & Hc2 & Ho1 & Ho2). destruct l1_end as [_ Hend].
  destruct (upd_span st1 h l1 p a n l2 (d :: free) (λ c, set_span address (u64 (ml_size c + bytes)) c) address (n + bytes) Hr1) as (st2 & -> & Hr2 & _).
  { intros nx pv. unfold set_span. cbn. f_equal. apply wrapu_id. lia. }
  eexists _, _, _, _, _. split; [done|]. split; [done|]. split; [|split].
  - rewrite items_split, spans_ok_app. cbn. replace (address + (n + bytes)) with (a + n) by lia. split_and!; try done; lia.
  - rewrite !fmap_app. cbn. by rewrite <- Permutation_middle.
  - right. split; [done|]. split; [|split; [|split]].
    + intros (x & Hx & Hin). revert Hx. spans. intros [?%l1_before|[?|?%Hc2]]; lia.
    + intros x. spans. pose proof (Hc1 x). pose proof (Hc2 x). intuition lia.
    + unfold merged. rewrite !items_split, !gaps_app. pose proof l1_gap. cbn. replace (address + (n + bytes)) with (a + n) by lia. intuition lia.
    + exists address, (n + bytes). spans. split; [set_solver|]. split_and!; lia.
Qed.

(** Behind the element, up to the next one. *)
Lemma add_behind : address = a + n → (∀ q x l2', l2 = (q, x) :: l2' → address + bytes < x.1) →
  add_post cells l address bytes (let! st := memlist_free_one st d in
    let! st := upd p (λ c, set_size (u64 (ml_size c + bytes)) c) st in Some (st, h, MEML_SPANOP_OK)).
Proof.
  intros E Hnext. destruct free_d as (st1 & -> & Hr1 & _).
  destruct (covers_split _ _ _ _ Hs) as (He & Hn & Han & Hc1 & Hc2 & Ho1 & Ho2). destruct l1_end as [_ Hend].
  destruct (upd_span st1 h l1 p a n l2 (d :: free) (λ c, set_size (u64 (ml_size c + bytes)) c) a (n + bytes) Hr1) as (st2 & -> & Hr2 & _).
  { intros nx pv. unfold set_size. cbn. f_equal. apply wrapu_id. lia. }
  assert (spans_ok (a + (n + bytes)) l2.*2) as Ho2'.
  { destruct l2 as [|[q [b k]] l2']; [done|]. specialize (Hnext q (b, k) l2' eq_refl). cbn in *. intuition lia. }
  eexists _, _, _, _, _. split; [done|]. split; [done|]. split; [|split].
  - rewrite items_split, spans_ok_app. cbn. split_and!; try done; lia.
  - rewrite !fmap_app. cbn. by rewrite <- Permutation_middle.
  - right. split; [done|]. split; [|split; [|split]].
    + intros (x & Hx & Hin). revert Hx. spans. intros [?%l1_before|[?|Hx]]; try lia. pose proof (covers_from _ _ _ Ho2' Hx). lia.
    + intros x. spans. pose proof (Hc1 x). intuition lia.
    + unfold merged. rewrite !items_split, !gaps_app. cbn. intros (G1 & G2 & G3). split_and!; try done.
      destruct l2 as [|[q [b k]] l2']; [done|]. specialize (Hnext q (b, k) l2' eq_refl). cbn in *. split; [lia|apply G3].
    + exists a, (n + bytes). spans. split; [set_solver|]. split_and!; try lia.
Qed.

(** Exactly between the element and the next one, which are joined. *)
Lemma add_between q b k l2' : address = a + n → l2 = (q, (b, k)) :: l2' → address + bytes = b →
  add_post cells l address bytes (let! st := memlist_free_one st d in
    let! st := upd q (set_span a (u64 (u64 (k + n) + bytes))) st in
    let! st := upd_if (olast l1) (set_next (Some q)) st in
    let! st := upd q (set_prev (olast l1)) st in
    let! st := memlist_free_one st p in
    Some (st, if decide (h = Some p) then Some q else h, MEML_SPANOP_OK)).
Proof.
  intros E El2 Eb. destruct free_d as (st1 & -> & Hr1 & _).
  destruct (covers_split _ _ _ _ Hs) as (He & Hn & Han & Hc1 & _ & Ho1 & Ho2). destruct l1_end as [_ Hend]. rewrite El2 in Ho2.
  cbn in Ho2. destruct Ho2 as (_ & Hk & Hbk & Ho2).
  assert (l = (l1 ++ [(p, (a, n))]) ++ (q, (b, k)) :: l2') as El by (by rewrite El2, <- app_assoc).
  rewrite El in Hr1.
  destruct (upd_span st1 h _ q b k l2' (d :: free) (set_span a (u64 (u64 (k + n) + bytes))) a (n + bytes + k) Hr1) as (st2 & -> & Hr2 & _).
  { intros nx pv. unfold set_span. cbn. f_equal. rewrite (wrapu_id _ (k + n)) by lia. rewrite wrapu_id; lia. }
  rewrite <- app_assoc in Hr2. cbn in Hr2.
  destruct (unlink_ok st2 h l1 p (a, n) ((q, (a, n + bytes + k)) :: l2') (d :: free) Hr2) as (st3 & st4 & Hu1 & _ & Hu2 & Hr4 & Hp & [cp Hcp]).
  cbn [ohead head fmap option_fmap option_map fst upd_if] in Hu1, Hu2. rewrite Hu1, Hu2.
  destruct (free_one_ok _ _ _ _ p cp Hr4 Hp Hcp) as (st5 & -> & Hr5 & _).
  assert ((if decide (h = Some p) then Some q else h) = ohead (l1 ++ (q, (a, n + bytes + k)) :: l2')) as Eh.
  { exact (unlink_head _ _ _ _ _ _ _ Hr2). }
  rewrite Eh. eexists _, _, _, _, _. split; [done|]. split; [done|]. split; [|split].
  - rewrite items_split, spans_ok_app. cbn. replace (a + (n + bytes + k)) with (b + k) by lia. split_and!; try done; lia.
  - rewrite El2, !fmap_app. cbn. rewrite <- !app_assoc. cbn. rewrite <- !Permutation_middle.
    by rewrite (perm_swap d p), (perm_swap d q), (perm_swap p q).
  - right. split; [done|]. rewrite El2. assert (∀ x, covers l2'.*2 x → b + k <= x) as Hc2 by (intros x Hx; by eapply covers_from).
    split; [|split; [|split]].
    + intros (x & Hx & Hin). revert Hx. spans. intros [?%l1_before|[?|[?|?%Hc2]]]; lia.
    + intros x. spans. pose proof (Hc1 x). pose proof (Hc2 x). intuition lia.
    + unfold merged. rewrite !items_split, !gaps_app. cbn. replace (a + (n + bytes + k)) with (b + k) by lia. tauto.
    + exists a, (n + bytes + k). spans. split; [set_solver|]. split_and!; try lia. by right; right.
Qed.

(** The span is not free. *)
Lemma add_overlap (st' : mstate) : overlaps l.*2 address bytes → mrep st' h l (d :: free) →
  add_post cells l address bytes (Some (st', h, MEML_SPANOP_ESPAN)).
Proof.
  intros Ho Hr'. eexists _, _, _, _, _. split; [done|]. split; [done|]. split; [by rewrite items_split|].
  split; [by rewrite <- Permutation_middle|]. by left.
Qed.

(** In front of the element, with a gap. *)
Lemma add_insert : address + bytes < a →
  add_post cells l address bytes (let! st := upd d (set_prev (olast l1)) st in
    let! st := upd d (set_next (Some p)) st in
    let! st := upd p (set_prev (Some d)) st in
    match olast l1 with
    | None => Some (st, Some d, MEML_SPANOP_OK)
    | Some q => let! st := upd q (set_next (Some d)) st in Some (st, h, MEML_SPANOP_OK)
    end).
Proof.
  intros E. destruct (covers_split _ _ _ _ Hs) as (He & Hn & Han & Hc1 & Hc2 & Ho1 & Ho2). destruct l1_end as [_ Hend].
  destruct (upd_out st h l free d (set_prev (olast l1)) cd Hr Hd Hcd) as (st1 & -> & Hr1 & Hc1' & _).
  destruct (upd_out st1 h l free d (set_next (Some p)) _ Hr1 Hd Hc1') as (st2 & -> & Hr2 & Hc2' & _).
  destruct (link_ok st2 h l1 ((p, (a, n)) :: l2) free d address bytes Hr2 Hd) as (st3 & st4 & Hu1 & Hu2 & Hr4 & _).
  { rewrite Hc2'. unfold set_next, set_prev. cbn. by rewrite Ecd, Ecs. }
  cbn [ohead head fmap option_fmap option_map fst upd_if] in Hu1. rewrite Hu1.
  assert (match olast l1 with
          | None => Some (st3, Some d, MEML_SPANOP_OK)
          | Some q => let! st := upd q (set_next (Some d)) st3 in Some (st, h, MEML_SPANOP_OK)
          end = Some (st4, ohead (l1 ++ (d, (address, bytes)) :: (p, (a, n)) :: l2), MEML_SPANOP_OK)) as ->.
  { rewrite (mi_head _ _ _ _ Hr). destruct l1 as [|x l1' _] using rev_ind; [by injection Hu2 as ->|].
    assert (olast (l1' ++ [x]) = Some x.1) as El by (unfold olast; by rewrite last_snoc). rewrite El in Hu2 |- *. cbn [upd_if] in Hu2.
    rewrite Hu2. rewrite <- !app_assoc. by destruct l1'. }
  eexists _, _, _, _, _. split; [done|]. split; [done|]. split; [|split].
  - rewrite items_split, spans_ok_app. cbn. split_and!; try done; lia.
  - rewrite !fmap_app. cbn. rewrite <- !app_assoc. cbn. by rewrite <- Permutation_middle.
  - right. split; [done|]. split; [|split; [|split]].
    + intros (x & Hx & Hin). revert Hx. spans. intros [?%l1_before|[?|?%Hc2]]; lia.
    + intros x. spans. intuition lia.
    + unfold merged. rewrite !items_split, !gaps_app. pose proof l1_gap. cbn. intuition lia.
    + exists address, bytes. spans. split; [set_solver|]. split_and!; lia.
Qed.

Lemma add_here_ok : add_post cells l address bytes (add_here address bytes d h (olast l1) p st).
Proof.
  destruct (covers_split _ _ _ _ Hs) as (He & Hn & Han & _ & _ & _ & Ho2). pose proof (mi_list _ _ _ _ Hr) as Hdl.
  unfold add_here. rewrite (dl_cell _ _ _ _ _ _ Hdl). cbn [ml_address ml_size ml_next ml_prev].
  rewrite (wrapu_id _ (address + bytes)), (wrapu_id _ (a + n)) by lia.
  destruct (Z.eqb_spec (address + bytes) a) as [Eb|Eb]; [by apply add_before|].
  destruct (Z.eqb_spec address (a + n)) as [Ea|Ea].
  - assert (l2 = [] ∨ ∃ q b k l2', l2 = (q, (b, k)) :: l2') as [El2|(q & b & k & l2' & El2)]
      by (destruct l2 as [|[q [b k]] l2']; [by left|right; by eexists _, _, _, _]).
    { replace (ohead l2) with (None (A := nat)) by (by rewrite El2). apply add_behind; [done|]. intros q x l2'. by rewrite El2. }
    replace (ohead l2) with (Some q) by (by rewrite El2).
    pose proof Hdl as Hdl2. rewrite El2, cons_middle, app_assoc in Hdl2. pose proof (dl_cell _ _ _ _ _ _ Hdl2) as Hcq.
    pose proof (add_between q b k l2' Ea El2) as Hbetween. pose proof (add_behind Ea) as Hbehind.
    destruct free_d as (st1 & E1 & Hr1 & Hsame). rewrite E1 in *.
    rewrite Hsame, Hcq by (intros ->; apply Hd; rewrite El2, fmap_app; set_solver). cbn [ml_address ml_size].
    pose proof Ho2 as Hbk. rewrite El2 in Hbk. cbn in Hbk.
    destruct (Z.gtb_spec (address + bytes) b) as [Hgt|Hle].
    + apply add_overlap; [|done]. exists b. rewrite El2. spans. split; [|lia]. right; right; left. lia.
    + destruct (Z.eqb_spec (address + bytes) b) as [Eq|Eq]; [exact (Hbetween Eq)|]. apply Hbehind. intros q' x l2''. rewrite El2.
      intros [= <- <- <-]. cbn. lia.
  - destruct (Z.gtb_spec (address + bytes) a) as [Hgt|Hle].
    + destruct free_d as (st1 & -> & Hr1 & _). apply add_overlap; [|done]. exists (Z.max address a). spans. split; [|lia]. right; left. lia.
    + apply add_insert. lia.
Qed.
End add_here.

(** Updates of different cells commute. *)
Lemma upd_swap {A} p d f g st (k : mstate → option A) :
  p ≠ d → (let! st := upd p f st in let! st := upd d g st in k st) = (let! st := upd d g st in let! st := upd p f st in k st).
Proof.
  intros Hne. unfold upd. destruct (ms_mem st !! p) as [cp|] eqn:Ep, (ms_mem st !! d) as [cd|] eqn:Ed; cbn;
    rewrite ?lookup_insert_ne, ?Ep, ?Ed by done; try done. unfold set_mem. cbn. by rewrite insert_insert_ne.
Qed.

(** Behind the last element. *)
Lemma add_last st h l1 free d address bytes cd :
  mrep st h l1 free → spans_ok 0 l1.*2 → d ∉ l1.*1 ++ free → ms_mem st !! d = Some cd → ml_address cd = address → ml_size cd = bytes →
  l1 ≠ [] → spans_end 0 l1.*2 < address → 0 < bytes → address + bytes < 2 ^ 64 →
  add_post (d :: l1.*1 ++ free) l1 address bytes
    (let! prev := olast l1 in
     let! st := upd prev (set_next (Some d)) st in
     let! st := upd d (set_prev (Some prev)) st in
     let! st := upd d (set_next None) st in
     Some (st, h, MEML_SPANOP_OK)).
Proof.
  intros Hr Hs Hd Hcd Ecd Ecs Hne Hend Hb Hab. destruct l1 as [|x l1' _] using rev_ind; [done|]. clear Hne. set (l1 := l1' ++ [x]) in *.
  assert (olast l1 = Some x.1) as El by (unfold olast, l1; by rewrite last_snoc). rewrite El.
  assert (x.1 ≠ d) as Hxd by (intros <-; apply Hd; unfold l1; rewrite fmap_app; set_solver).
  rewrite (upd_swap x.1 d (set_next (Some d)) (set_prev (Some x.1)) st) by done.
  destruct (upd_out st h l1 free d (set_prev (Some x.1)) cd Hr Hd Hcd) as (st1 & -> & Hr1 & Hc1 & _).
  rewrite (upd_swap x.1 d (set_next (Some d)) (set_next None) st1) by done.
  destruct (upd_out st1 h l1 free d (set_next None) _ Hr1 Hd Hc1) as (st2 & -> & Hr2 & Hc2 & _).
  assert (l1 ++ [] = l1) as Enil by apply app_nil_r. rewrite <- Enil in Hr2, Hd.
  destruct (link_ok st2 h l1 [] free d address bytes Hr2 Hd) as (st3 & st4 & Hu1 & Hu2 & Hr4 & _).
  { rewrite Hc2. unfold set_next, set_prev. cbn. by rewrite Ecd, Ecs, El. }
  injection Hu1 as <-. rewrite El in Hu2. cbn [upd_if] in Hu2. rewrite Hu2.
  assert (h = ohead (l1 ++ [(d, (address, bytes))])) as Eh by (rewrite (mi_head _ _ _ _ Hr); unfold l1; by destruct l1').
  rewrite <- Eh in Hr4. pose proof (spans_end_ge _ _ Hs).
  eexists _, _, _, _, _. split; [done|]. split; [done|]. split; [|split].
  - rewrite items_split, spans_ok_app. cbn. split_and!; try done; lia.
  - rewrite fmap_app. cbn. rewrite <- app_assoc. cbn. by rewrite <- Permutation_middle.
  - right. split; [done|]. assert (∀ y, covers l1.*2 y → y < address) as Hc by (intros y Hy; pose proof (covers_to _ _ _ Hs Hy); lia).
    split; [|split; [|split]].
    + intros (y & Hy%Hc & Hin). unfold in_span in Hin. lia.
    + intros y. spans. pose proof (covers_nil y). intuition.
    + unfold merged. rewrite !items_split, !gaps_app. cbn. intros ?. split_and!; try done. apply (spans_end_start _ 0); [lia|by right].
    + exists address, bytes. spans. split; [set_solver|]. split_and!; lia.
Qed.

Lemma add_span_ok st h l free address bytes :
  mrep st h l free → spans_ok 0 l.*2 → 0 <= address → 0 < bytes → address + bytes < 2 ^ 64 →
  match free with
  | [] => memlist_add_span address bytes h st = Some (st, h, MEML_SPANOP_EALLOC)
  | _ => add_post (l.*1 ++ free) l address bytes (memlist_add_span address bytes h st)
  end.
Proof.
  intros Hr Hs Ha Hb Hab. unfold memlist_add_span. pose proof (get_one_ok st h l free Hr) as Hget.
  destruct free as [|d free]; [by rewrite Hget|]. destruct Hget as (st1 & -> & Em & Hr1 & Hd & [c0 Hc0]). rewrite <- Em in Hc0.
  destruct (upd_out st1 h l free d (set_span address bytes) c0 Hr1 Hd Hc0) as (st2 & -> & Hr2 & Hc2 & _).
  assert (∀ res, add_post (d :: l.*1 ++ free) l address bytes res → add_post (l.*1 ++ d :: free) l address bytes res) as Hperm.
  { intros res (st' & h' & code & l' & free' & H). exists st', h', code, l', free'. by rewrite <- Permutation_middle. }
  apply Hperm. clear Hperm. destruct l as [|x l].
  - assert (h = None) as -> by (exact (mi_head _ _ _ _ Hr2)).
    destruct (upd_out st2 None [] free d (set_prev None) _ Hr2 Hd Hc2) as (st3 & -> & Hr3 & Hc3 & _).
    destruct (upd_out st3 None [] free d (set_next None) _ Hr3 Hd Hc3) as (st4 & -> & Hr4 & Hc4 & _).
    destruct (link_ok st4 None [] [] free d address bytes Hr4 Hd Hc4) as (st5 & st6 & [= <-] & [= <-] & Hr6 & _).
    eexists _, _, _, _, _. split; [done|]. split; [exact Hr6|]. split; [cbn; lia|]. split; [done|]. right. split; [done|]. split; [|split; [|split]].
    + intros (x & []%covers_nil & _).
    + intros x. cbn. rewrite covers_cons. unfold in_span. tauto.
    + cbn. lia.
    + exists address, bytes. split; [by left|]. lia.
  - assert (h = Some x.1) as Eh by (by rewrite (mi_head _ _ _ _ Hr2)). rewrite Eh. rewrite <- Eh at 1.
    destruct (add_loop_ok st2 h (x :: l) free address Hr2 Hs) as (l1 & l2 & El & Hrun & H1 & H2). rewrite Hrun, <- Eh.
    destruct l2 as [|[p [a n]] l2]; cbn [ohead head fmap option_fmap option_map fst].
    + rewrite app_nil_r in El. rewrite El in *. apply (add_last st2 h l1 free d address bytes _ Hr2 Hs Hd Hc2); try done; [by destruct l1|].
      destruct H1 as [->|?]; done.
    + rewrite El in *. rewrite items_split in Hs. by apply (add_here_ok st2 h l1 p a n l2 free d address bytes _ Hr2 Hs Hd Hc2).
Qed.

(** ** Deleting a span *)

(** The span is in one element, or in the middle of one. *)
Definition inside (l : list (Z * Z)) (address bytes : Z) : Prop :=
  ∃ a n, (a, n) ∈ l ∧ a <= address ∧ address + bytes <= a + n.
Definition middle (l : list (Z * Z)) (address bytes : Z) : Prop :=
  ∃ a n, (a, n) ∈ l ∧ a < address ∧ address + bytes < a + n.

Definition delete_post (l : list item) (free : list nat) (address bytes : Z) (res : option (mstate * option nat * Z)) : Prop :=
  ∃ st' h' code l' free', res = Some (st', h', code) ∧ mrep st' h' l' free' ∧ spans_ok 0 l'.*2 ∧ l'.*1 ++ free' ≡ₚ l.*1 ++ free ∧
    (code = MEML_SPANOP_ESPAN ∧ l' = l ∧ (¬ inside l.*2 address bytes) ∨
     code = MEML_SPANOP_EALLOC ∧ l' = l ∧ free = [] ∧ middle l.*2 address bytes ∨
     code = MEML_SPANOP_OK ∧ inside l.*2 address bytes ∧ (middle l.*2 address bytes → free ≠ []) ∧
       (merged l.*2 → merged l'.*2) ∧ ∀ x, covers l'.*2 x ↔ covers l.*2 x ∧ ¬ in_span address bytes x).

(** An address is in one element only. *)
Lemma element_unique l1 a n l2 a' n' x :
  spans_ok 0 (l1 ++ (a, n) :: l2) → a <= x < a + n → (a', n') ∈ l1 ++ (a, n) :: l2 → a' <= x < a' + n' → a' = a ∧ n' = n.
Proof.
  intros (He & _ & _ & Hc1 & Hc2 & _)%covers_split Hx Hin Hx'. apply elem_of_app in Hin as [Hin|[[= -> ->]|Hin]%elem_of_cons]; [|done|].
  - specialize (Hc1 x ltac:(by exists a', n')). lia.
  - specialize (Hc2 x ltac:(by exists a', n')). lia.
Qed.

Section delete_here.
Context (st : mstate) (h : option nat) (l1 : list item) (p : nat) (a n : Z) (l2 : list item) (free : list nat).
Context (address bytes : Z).
Context (Hr : mrep st h (l1 ++ (p, (a, n)) :: l2) free) (Hs : spans_ok 0 (l1.*2 ++ (a, n) :: l2.*2)).
Context (Ha : a <= address) (Hb : 0 < bytes) (He : address + bytes <= a + n).

#[local] Abbreviation l := (l1 ++ (p, (a, n)) :: l2).

Lemma here_inside : inside l.*2 address bytes.
Proof. exists a, n. rewrite items_split. split; [set_solver|lia]. Qed.

Lemma here_middle : middle l.*2 address bytes → a < address ∧ address + bytes < a + n.
Proof.
  intros (a' & n' & Hin & ? & ?). rewrite items_split in Hin.
  destruct (element_unique _ _ _ _ a' n' address Hs ltac:(lia) Hin ltac:(lia)) as [-> ->]. lia.
Qed.

(** The element becomes smaller. *)
Lemma delete_shrink f a' n' :
  (∀ nx pv, f (Memlist a n nx pv) = Memlist a' n' nx pv) → 0 < n' → a <= a' → a' + n' <= a + n →
  (∀ x, a' <= x < a' + n' ↔ a <= x < a + n ∧ ¬ in_span address bytes x) → (a = address ∨ address + bytes = a + n) →
  delete_post l free address bytes (let! st := upd p f st in Some (st, h, MEML_SPANOP_OK)).
Proof.
  intros Hf Hn' Ha' Hend Hx Hedge. destruct (covers_split _ _ _ _ Hs) as (Hlo & Hn & Han & Hc1 & Hc2 & Ho1 & Ho2).
  destruct (upd_span st h l1 p a n l2 free f a' n' Hr Hf) as (st2 & -> & Hr2 & _).
  eexists _, _, _, _, _. split; [done|]. split; [done|]. split; [|split; [by rewrite !fmap_app|]].
  - rewrite items_split, spans_ok_app. cbn. split_and!; try done; try lia. apply (spans_ok_le (a + n)); [lia|done].
  - right; right. split; [done|]. split; [apply here_inside|]. split; [intros ?%here_middle; lia|]. split.
    { unfold merged. rewrite !items_split, !gaps_app. cbn. intros (G1 & G2 & G3). split_and!; [done|lia|]. apply (gaps_le (a + n)); [lia|done]. }
    intros x. spans. rewrite (Hx x). unfold in_span. pose proof (Hc1 x). pose proof (Hc2 x). intuition lia.
Qed.

Lemma delete_whole :
  address = a → bytes = n →
  delete_post l free address bytes
    (let! st := upd_if (olast l1) (set_next (ohead l2)) st in
     let! st := upd_if (ohead l2) (set_prev (olast l1)) st in
     let! st := memlist_free_one st p in
     Some (st, if decide (h = Some p) then ohead l2 else h, MEML_SPANOP_OK)).
Proof.
  intros Eaddr Ebytes. destruct (covers_split _ _ _ _ Hs) as (Hlo & Hn & Han & Hc1 & Hc2 & Ho1 & Ho2).
  destruct (unlink_ok st h l1 p (a, n) l2 free Hr) as (st1 & st2 & -> & _ & -> & Hr2 & Hp & [cp Hcp]).
  destruct (free_one_ok _ _ _ _ p cp Hr2 Hp Hcp) as (st3 & -> & Hr3 & _). rewrite (unlink_head _ _ _ _ _ _ _ Hr).
  eexists _, _, _, _, _. split; [done|]. split; [done|]. split; [|split].
  - rewrite fmap_app, spans_ok_app. split; [done|]. apply (spans_ok_le (a + n)); [lia|done].
  - rewrite !fmap_app. cbn. rewrite <- !app_assoc. cbn. by rewrite <- !Permutation_middle.
  - right; right. split; [done|]. split; [apply here_inside|]. split; [intros ?%here_middle; lia|]. split.
    { unfold merged. rewrite items_split, fmap_app, !gaps_app. cbn. intros (G1 & G2 & G3). split; [done|]. apply (gaps_le (a + n)); [lia|done]. }
    intros x. spans. pose proof (Hc1 x). pose proof (Hc2 x). intuition lia.
Qed.

Lemma delete_middle :
  a < address → address + bytes < a + n →
  delete_post l free address bytes
    (let! (st, dst) := memlist_get_one st in
     match dst with
     | None => Some (st, h, MEML_SPANOP_EALLOC)
     | Some dst =>
         let! st := upd dst (set_span (address + bytes) (a + n - (address + bytes))) st in
         let! st := upd p (set_size (address - a)) st in
         let! st := upd dst (set_next (ohead l2)) st in
         let! st := upd dst (set_prev (Some p)) st in
         let! st := upd_if (ohead l2) (set_prev (Some dst)) st in
         let! st := upd p (set_next (Some dst)) st in
         Some (st, h, MEML_SPANOP_OK)
     end).
Proof.
  intros Hlt Hgt. pose proof here_inside as Hinside. destruct (covers_split _ _ _ _ Hs) as (Hlo & Hn & Han & Hc1 & Hc2 & Ho1 & Ho2).
  assert (middle l.*2 address bytes) as Hmid by (exists a, n; rewrite items_split; split; [set_solver|lia]).
  pose proof (get_one_ok st h l free Hr) as Hget. destruct free as [|d free'].
  { rewrite Hget. eexists _, _, _, _, _. split; [done|]. split; [done|]. split; [by rewrite items_split|]. split; [done|].
    right; left. done. }
  destruct Hget as (st1 & -> & Em & Hr1 & Hd & [c0 Hc0]). rewrite <- Em in Hc0.
  destruct (upd_out st1 h l free' d (set_span (address + bytes) (a + n - (address + bytes))) c0 Hr1 Hd Hc0) as (st2 & -> & Hr2 & Hcd & _).
  destruct (upd_span st2 h l1 p a n l2 free' (set_size (address - a)) a (address - a) Hr2) as (st3 & -> & Hr3 & Hsame); [done|].
  assert (p ≠ d) as Hpd by (intros ->; apply Hd; rewrite fmap_app; set_solver). rewrite <- Hsame in Hcd by done.
  assert (d ∉ (l1 ++ (p, (a, address - a)) :: l2).*1 ++ free') as Hd3 by (rewrite fmap_app in *; exact Hd).
  destruct (upd_out st3 h _ free' d (set_next (ohead l2)) _ Hr3 Hd3 Hcd) as (st4 & -> & Hr4 & Hcd4 & _).
  destruct (upd_out st4 h _ free' d (set_prev (Some p)) _ Hr4 Hd3 Hcd4) as (st5 & -> & Hr5 & Hcd5 & _).
  assert (l1 ++ (p, (a, address - a)) :: l2 = (l1 ++ [(p, (a, address - a))]) ++ l2) as El by (by rewrite <- app_assoc). rewrite El in Hr5, Hd3.
  assert (olast (l1 ++ [(p, (a, address - a))]) = Some p) as Elast by (unfold olast; by rewrite last_snoc).
  destruct (link_ok st5 h _ l2 free' d (address + bytes) (a + n - (address + bytes)) Hr5 Hd3) as (st6 & st7 & -> & Hu & Hr7 & _).
  { rewrite Hcd5, Elast. done. }
  rewrite Elast in Hu. cbn [upd_if] in Hu. rewrite Hu. rewrite <- app_assoc in Hr7. cbn [app] in Hr7.
  assert (h = ohead (l1 ++ (p, (a, address - a)) :: (d, (address + bytes, a + n - (address + bytes))) :: l2)) as Eh
    by (rewrite (mi_head _ _ _ _ Hr); by destruct l1).
  rewrite <- Eh in Hr7. eexists _, _, _, _, _. split; [done|]. split; [done|]. split; [|split].
  - rewrite items_split. cbn. rewrite spans_ok_app. cbn. replace (address + bytes + (a + n - (address + bytes))) with (a + n) by lia.
    split_and!; try done; lia.
  - rewrite !fmap_app. cbn. rewrite <- !app_assoc. cbn. rewrite <- !Permutation_middle. by rewrite perm_swap.
  - right; right. split; [done|]. split; [done|]. split; [done|]. split.
    { unfold merged. rewrite !items_split. cbn. rewrite !gaps_app. cbn. replace (address + bytes + (a + n - (address + bytes))) with (a + n) by lia.
      intros (G1 & G2 & G3). split_and!; try done. lia. }
    intros x. spans. pose proof (Hc1 x). pose proof (Hc2 x). intuition lia.
Qed.
End delete_here.

Lemma delete_span_ok st h l free address bytes :
  mrep st h l free → spans_ok 0 l.*2 → 0 < bytes → 0 <= address → address + bytes < 2 ^ 64 →
  delete_post l free address bytes (memlist_delete_span address bytes h st).
Proof.
  intros Hr Hs Hb Ha Hab. unfold memlist_delete_span. destruct (ml_find_ok st h l free address Hr Hs) as (r & -> & Hfind).
  assert (¬ inside l.*2 address bytes → delete_post l free address bytes (Some (st, h, MEML_SPANOP_ESPAN))) as Hno.
  { intros Hno. eexists _, _, _, _, _. split; [done|]. split; [done|]. split; [done|]. split; [done|]. by left. }
  destruct r as [p|].
  2: { apply Hno. intros (a & n & Hin & ? & ?). apply Hfind. exists a, n. split; [done|lia]. }
  destruct Hfind as (l1 & a & n & l2 & -> & Hx). rewrite items_split in Hs.
  destruct (covers_split _ _ _ _ Hs) as (Hlo & Hn & Han & _). rewrite (dl_cell _ _ _ _ _ _ (mi_list _ _ _ _ Hr)).
  cbn [ml_address ml_size ml_next ml_prev]. rewrite (wrapu_id _ (address + bytes)), (wrapu_id _ (a + n)) by lia.
  destruct (Z.gtb_spec (address + bytes) (a + n)) as [Hgt|Hle].
  { apply Hno. intros (a' & n' & Hin & ? & ?). rewrite items_split in Hin.
    destruct (element_unique _ _ _ _ a' n' address Hs Hx Hin ltac:(lia)). lia. }
  destruct (Z.eqb_spec address a) as [Ea|Ea].
  - destruct (Z.eqb_spec bytes n) as [Eb|Eb]; [apply delete_whole; (done || lia)|].
    rewrite (wrapu_id _ (a + bytes)), (wrapu_id _ (n - bytes)) by lia.
    apply (delete_shrink st h l1 p a n l2 free address bytes Hr Hs ltac:(lia) Hb Hle _ (a + bytes) (n - bytes)); try done; try lia.
    intros x. unfold in_span. lia.
  - destruct (Z.eqb_spec (address + bytes) (a + n)) as [Eb|Eb].
    + rewrite (wrapu_id _ (n - bytes)) by lia.
      apply (delete_shrink st h l1 p a n l2 free address bytes Hr Hs ltac:(lia) Hb Hle _ a (n - bytes)); try done; try lia.
      intros x. unfold in_span. lia.
    + rewrite (wrapu_id _ (a + n - (address + bytes))), (wrapu_id _ (address - a)) by lia. apply delete_middle; (done || lia).
Qed.

(** ** Inserting an element *)

(** Elements up to which [memlist_insert] goes on. *)
Lemma overlaps_split l1 a n l2 start size :
  spans_ok 0 (l1 ++ (a, n) :: l2) → 0 < size → (l1 = [] ∨ spans_end 0 l1 <= start) →
  (start + size <= a → ¬ overlaps (l1 ++ (a, n) :: l2) start size) ∧
  (a < start + size → start < a + n → overlaps (l1 ++ (a, n) :: l2) start size).
Proof.
  intros (He & Hn & _ & Hc1 & Hc2 & _)%covers_split Hz H1. unfold overlaps, in_span. split.
  - intros Hle (x & Hx & Hin). rewrite covers_app, covers_cons in Hx.
    destruct Hx as [Hx|[?|?%Hc2]]; [|lia|lia]. pose proof (Hc1 x Hx). destruct H1 as [->|?]; [by apply covers_nil in Hx|lia].
  - intros ? ?. exists (Z.max a start). rewrite covers_app, covers_cons. split; [|lia]. right; left. lia.
Qed.

Definition insert_post (l : list item) (free : list nat) (new : nat) (start size : Z) (res : insert_result) : Prop :=
  match res with
  | Munged => overlaps l.*2 start size
  | Inserted st' h' => (¬ overlaps l.*2 start size) ∧ ∃ l1 l2, l = l1 ++ l2 ∧
      mrep st' (ohead (l1 ++ (new, (start, size)) :: l2)) (l1 ++ (new, (start, size)) :: l2) free ∧
      spans_ok 0 (l1 ++ (new, (start, size)) :: l2).*2 ∧
      h' = match l with [] => None | _ => ohead (l1 ++ (new, (start, size)) :: l2) end
  end.

Lemma ml_insert_ok st h l free new cn :
  mrep st h l free → spans_ok 0 l.*2 → new ∉ l.*1 ++ free → ms_mem st !! new = Some cn →
  0 <= ml_address cn → 0 < ml_size cn → ml_address cn + ml_size cn < 2 ^ 64 →
  ∃ res, memlist_insert new h st = Some res ∧ insert_post l free new (ml_address cn) (ml_size cn) res.
Proof.
  intros Hr Hs Hnew Hcn Ha Hz Haz. unfold memlist_insert. rewrite Hcn, wrapu_id by lia.
  set (start := ml_address cn) in *. set (size := ml_size cn) in *.
  apply (run_total_idx _ (λ k '(cur, last), ∃ l1 l2, l = l1 ++ l2 ∧ cur = ohead l2 ∧ last = olast l1 ∧ k = length l2 ∧
    (l1 = [] ∨ spans_end 0 l1.*2 <= start))) with (n := length l).
  2: { exists [], l. rewrite (mi_head _ _ _ _ Hr). split_and!; try done. by left. }
  2: { pose proof (list_length _ _ _ _ Hr). unfold list_fuel. lia. }
  intros k [cur lst] (l1 & l2 & El & -> & -> & -> & H1). pose proof Hr as Hr0. rewrite El in Hr0, Hs, Hnew.
  assert (∀ nx, ∃ st1 st2, upd new (set_next nx) st = Some st1 ∧ upd new (set_prev (olast l1)) st1 = Some st2 ∧ mrep st2 h (l1 ++ l2) free ∧
    ms_mem st2 !! new = Some (Memlist start size nx (olast l1)) ∧ ∀ p, p ≠ new → ms_mem st2 !! p = ms_mem st !! p) as Hset.
  { intros nx. destruct (upd_out st h _ free new (set_next nx) cn Hr0 Hnew Hcn) as (st1 & Hu1 & Hr1 & Hc1 & Hs1).
    destruct (upd_out st1 h _ free new (set_prev (olast l1)) _ Hr1 Hnew Hc1) as (st2 & Hu2 & Hr2 & Hc2 & Hs2).
    exists st1, st2. split_and!; try done. intros p Hp. by rewrite Hs2, Hs1. }
  destruct l2 as [|[p [a n]] l2]; cbn [ohead head fmap option_fmap option_map fst insert_step].
  - (* at the end *)
    destruct (Hset None) as (st1 & st2 & -> & -> & Hr2 & Hc2 & _).
    destruct (link_ok st2 h l1 [] free new start size Hr2 Hnew Hc2) as (st3 & st4 & [= <-] & -> & Hr4 & _).
    eexists. split; [done|]. rewrite app_nil_r in El, Hs. cbn [insert_post]. rewrite El. pose proof (spans_end_ge _ _ Hs).
    assert (∀ x, covers l1.*2 x → x < start) as Hc.
    { intros x Hx. pose proof (covers_to _ _ _ Hs Hx). destruct H1 as [->|?]; [by apply covers_nil in Hx|lia]. }
    split; [intros (x & Hx%Hc & Hin); unfold in_span in Hin; lia|]. exists l1, []. split; [by rewrite app_nil_r|]. split; [done|]. split.
    + rewrite items_split, spans_ok_app. cbn. destruct H1 as [->|?]; cbn; split_and!; try done; lia.
    + rewrite (mi_head _ _ _ _ Hr), El. by destruct l1.
  - pose proof (dl_cell _ _ _ _ _ _ (mi_list _ _ _ _ Hr0)) as Hcp. rewrite Hcp. cbn [ml_address ml_size ml_next ml_prev].
    rewrite items_split in Hs. destruct (covers_split _ _ _ _ Hs) as (He & Hn & Han & _ & _ & Ho1 & Ho2). rewrite (wrapu_id _ (a + n)) by lia.
    destruct (overlaps_split l1.*2 a n l2.*2 start size Hs Hz) as [Hov1 Hov2].
    { destruct H1 as [->|?]; [by left|by right]. }
    destruct (Z.geb_spec a (start + size)) as [Hge|Hlt].
    + destruct (Hset (Some p)) as (st1 & st2 & -> & -> & Hr2 & Hc2 & Hsame).
      destruct (link_ok st2 h l1 ((p, (a, n)) :: l2) free new start size Hr2 Hnew Hc2) as (st3 & st4 & Hu1 & Hu2 & Hr4 & Hc3).
      cbn [ohead head fmap option_fmap option_map fst upd_if] in Hu1. rewrite Hu1.
      assert (spans_ok 0 (l1 ++ (new, (start, size)) :: (p, (a, n)) :: l2).*2) as Hs4.
      { rewrite items_split, spans_ok_app. cbn. destruct H1 as [->|?]; cbn; split_and!; try done; lia. }
      assert (insert_post l free new start size (Inserted st4 (ohead (l1 ++ (new, (start, size)) :: (p, (a, n)) :: l2)))) as Hpost.
      { cbn [insert_post]. rewrite El, items_split. split; [apply Hov1; lia|]. exists l1, ((p, (a, n)) :: l2). split_and!; try done. by destruct l1. }
      rewrite Hc3, Hc2. cbn [ml_prev]. destruct l1 as [|x l1' _] using rev_ind.
      * rewrite decide_True by (rewrite (mi_head _ _ _ _ Hr), El; done). injection Hu2 as ->. eexists. split; [done|]. exact Hpost.
      * assert (olast (l1' ++ [x]) = Some x.1) as Elast by (unfold olast; by rewrite last_snoc). rewrite Elast in Hu2 |- *. cbn [upd_if] in Hu2.
        rewrite Hu2. assert (h ≠ Some p) as Hhp.
        { intros E. pose proof (unlink_head _ _ _ _ _ _ _ Hr0) as Eh. rewrite decide_True in Eh by done.
          rewrite (mi_head _ _ _ _ Hr), El in E. pose proof (mrep_nodup _ _ _ _ Hr0) as Hnd. apply NoDup_app_items in Hnd as (_ & _ & Hdis).
          apply (Hdis p); [|set_solver]. destruct l1' as [|y l1']; injection E as <-; set_solver. }
        rewrite decide_False by done. eexists. split; [done|]. cbv beta iota. replace h with (ohead ((l1' ++ [x]) ++ (new, (start, size)) :: (p, (a, n)) :: l2)); [done|].
        rewrite (mi_head _ _ _ _ Hr), El. by destruct l1'.
    + destruct (Z.gtb_spec (a + n) start) as [Hgt|Hle].
      * eexists. split; [done|]. cbn. rewrite El, items_split. apply Hov2; lia.
      * eexists. split; [done|]. exists (length l2). split; [cbn; lia|]. exists (l1 ++ [(p, (a, n))]), l2. rewrite <- app_assoc.
        split_and!; [done|done|unfold olast; by rewrite last_snoc|done|]. right. rewrite fmap_app, spans_end_app. cbn. lia.
Qed.

(** ** Elements on the free list *)

Lemma del_ok st h l1 p x l2 free :
  mrep st h (l1 ++ (p, x) :: l2) free →
  ∃ st', memlist_del p h st = Some (st', ohead (l1 ++ l2)) ∧ mrep st' (ohead (l1 ++ l2)) (l1 ++ l2) free ∧ (p ∉ (l1 ++ l2).*1 ++ free).
Proof.
  intros Hr. destruct x as [a n]. destruct (unlink_ok st h l1 p (a, n) l2 free Hr) as (st1 & st2 & Hu1 & Hp1 & Hu2 & Hr2 & Hp & _).
  unfold memlist_del. rewrite (dl_cell _ _ _ _ _ _ (mi_list _ _ _ _ Hr)) in Hp1 |- *. cbn [ml_next ml_prev].
  rewrite Hu1, Hp1. cbn [ml_next ml_prev]. rewrite Hu2, (unlink_head _ _ _ _ _ _ _ Hr). by exists st2.
Qed.

(** A list that is linked to another as one of free elements. *)
Lemma fl_app mem prv l nxt free : seg mem prv l nxt → l ≠ [] → nxt = head free → fl mem free → fl mem (l.*1 ++ free).
Proof.
  revert prv. induction l as [|[p [a n]] l IH]; intros prv; [done|]. intros [Hp Hl] _ E Hf. cbn. destruct l as [|x l].
  - split; [by eexists|done].
  - split; [by eexists|]. by apply (IH (Some p)).
Qed.

Lemma list_end_ok st h x l free :
  mrep st h (x :: l) free →
  ∃ q, olast (x :: l) = Some q ∧ run (list_end_step st) (list_fuel st) (x.1, 1) = Some (q, u32 (Z.of_nat (length (x :: l)))).
Proof.
  intros Hr. destruct (run_total_idx (list_end_step st) (λ k '(p, c), ∃ l1 y l2, x :: l = l1 ++ y :: l2 ∧ p = y.1 ∧
    c = u32 (Z.of_nat (S (length l1))) ∧ k = length l2) (λ '(q, c), olast (x :: l) = Some q ∧ c = u32 (Z.of_nat (length (x :: l)))))
    with (fuel := list_fuel st) (n := length l) (s := (x.1, 1)) as ([q c] & Hrun & Hq & ->).
  - intros k [p c] (l1 & [p' [a n]] & l2 & El & -> & -> & ->). pose proof (mi_list _ _ _ _ Hr) as Hl. rewrite El in Hl.
    cbn [list_end_step fst]. rewrite (dl_cell _ _ _ _ _ _ Hl). cbn [ml_next]. eexists. split; [done|]. destruct l2 as [|[q y] l2]; cbn.
    + split; [rewrite El; unfold olast; by rewrite last_snoc|]. apply (f_equal length) in El. rewrite length_app in El. cbn in El. do 2 f_equal. lia.
    + exists (length l2). split; [lia|]. exists (l1 ++ [(p', (a, n))]), (q, y), l2. rewrite <- app_assoc. split_and!; try done.
      rewrite length_app, Nat.add_comm. apply (u32_succ (S (length l1))).
  - exists [], x, l. done.
  - pose proof (list_length _ _ _ _ Hr). unfold list_fuel. cbn in *. lia.
  - by exists q.
Qed.

Lemma free_list_ok st h l free :
  mrep st h l free → ∃ st', memlist_free_list st h = Some st' ∧ mrep st' None [] (l.*1 ++ free).
Proof.
  intros Hr. pose proof (mrep_nodup _ _ _ _ Hr) as Hnd. pose proof Hr as [I1 I2 I3 I4 I5 I6]. unfold memlist_free_list. rewrite I2.
  destruct l as [|x l]; cbn [ohead head fmap option_fmap option_map]; [exists st; split; [done|]; by split|].
  destruct (list_end_ok st h x l free Hr) as (q & Hq & ->). assert (is_Some (ms_mem st !! q)) as [cq Hcq].
  { apply (olast_lookup st h (x :: l) [] free q); [by rewrite app_nil_r|done]. }
  rewrite (upd_ok _ _ _ cq Hcq). eexists. split; [done|]. split; cbn [ms_mem memlist_freelist memlist_freelist_count set_mem]; try done.
  - pose proof (seg_set_next _ _ _ _ (memlist_freelist st) Hnd I1) as Hseg. rewrite Hq in Hseg. cbn [alter_if] in Hseg.
    apply (fl_app _ None _ (memlist_freelist st)); [done|done|done|]. apply (fl_alter_if _ _ (Some q)); [|done].
    intros q' [= <-] Hin. apply olast_in in Hq. apply NoDup_app in I5 as (_ & H & _). by apply (H q).
  - rewrite length_app, length_fmap, I6. unfold wrapu. rewrite <- Zplus_mod. f_equal. lia.
Qed.

(** A block of cells. *)
Lemma link_block_ok n : ∀ p st h l free,
  mrep st h l free → (∀ i, (p <= i <= p + n)%nat → (i ∉ l.*1 ++ free) ∧ is_Some (ms_mem st !! i)) →
  ∃ st', link_block p n st = Some st' ∧ mrep st' h l free ∧
    (∀ i, (p <= i < p + n)%nat → ∃ c, ms_mem st' !! i = Some c ∧ ml_next c = Some (S i)) ∧ is_Some (ms_mem st' !! (p + n)%nat) ∧
    ∀ i, ¬ (p <= i <= p + n)%nat → ms_mem st' !! i = ms_mem st !! i.
Proof.
  induction n as [|n IH]; intros p st h l free Hr Hi; cbn [link_block].
  - destruct (Hi p ltac:(lia)) as [Hp [c Hc]]. destruct (upd_out st h l free p (set_next None) c Hr Hp Hc) as (st1 & -> & Hr1 & Hc1 & Hs1).
    exists st1. split; [done|]. split; [done|]. split; [lia|]. rewrite Nat.add_0_r. split; [by eexists|]. intros i Hni. apply Hs1. lia.
  - destruct (Hi p ltac:(lia)) as [Hp [c Hc]]. destruct (upd_out st h l free p (set_next (Some (S p))) c Hr Hp Hc) as (st1 & -> & Hr1 & Hc1 & Hs1).
    destruct (IH (S p) st1 h l free Hr1) as (st2 & -> & Hr2 & Hnext & Hlast & Hs2).
    { intros i Hin. rewrite Hs1 by lia. apply Hi. lia. }
    exists st2. split; [done|]. split; [done|]. split; [|split].
    + intros i Hin. destruct (decide (i = p)) as [->|]; [|apply Hnext; lia]. rewrite Hs2 by lia. by eexists.
    + by rewrite Nat.add_succ_r.
    + intros i Hni. rewrite Hs2 by lia. apply Hs1. lia.
Qed.

Lemma fl_seq mem p n free :
  (∀ i, (p <= i < p + n)%nat → ∃ c, mem !! i = Some c ∧ ml_next c = Some (S i)) →
  (∃ c, mem !! (p + n)%nat = Some c ∧ ml_next c = head free) → fl mem free → fl mem (seq p (S n) ++ free).
Proof.
  revert p. induction n as [|n IH]; intros p Hi Hlast Hf; [rewrite Nat.add_0_r in Hlast; by split|].
  split; [apply Hi; lia|]. apply (IH (S p)); [intros i Hin; apply Hi; lia|by rewrite Nat.add_succ_r in Hlast|done].
Qed.

Lemma free_block_ok sizeof base bytes st h l free :
  mrep st h l free → 0 < sizeof → 0 <= bytes → bytes `div` sizeof < 2 ^ 32 →
  (∀ i, (base <= i < base + Z.to_nat (bytes `div` sizeof))%nat → (i ∉ l.*1 ++ free) ∧ is_Some (ms_mem st !! i)) →
  ∃ st', memlist_free_block sizeof base bytes st = Some st' ∧ mrep st' h l (seq base (Z.to_nat (bytes `div` sizeof)) ++ free).
Proof.
  intros Hr Hsz Hby Hlt Hi. unfold memlist_free_block. assert (0 <= bytes `div` sizeof) as H0 by (apply Z.div_pos; lia).
  rewrite wrapu_id by lia. set (count := bytes `div` sizeof) in *. destruct (Z.eqb_spec count 0) as [->|Hne]; [by exists st|].
  set (n := Z.to_nat (count - 1)). assert (Z.to_nat count = S n) as Ec by lia. rewrite Ec in *.
  destruct (link_block_ok n base st h l free Hr) as (st1 & -> & Hr1 & Hnext & [c Hc] & Hs1); [intros i Hin; apply Hi; lia|].
  destruct (Hi (base + n)%nat ltac:(lia)) as [Hlast _].
  destruct (upd_out st1 h l free (base + n) (set_next (memlist_freelist st1)) c Hr1 Hlast Hc) as (st2 & -> & Hr2 & Hc2 & Hs2).
  eexists. split; [done|]. pose proof Hr2 as [J1 J2 J3 J4 J5 J6]. split; cbn [ms_mem memlist_freelist memlist_freelist_count]; try done.
  - apply fl_seq; [|exists (set_next (memlist_freelist st1) c); split; [done|]; apply (mi_fhead _ _ _ _ Hr1)|done].
    intros i Hin. rewrite Hs2 by lia. by apply Hnext.
  - rewrite (Permutation_app_comm (seq base (S n)) free), app_assoc. apply NoDup_app. split; [done|]. split; [|apply NoDup_seq].
    intros i Hin Hseq. apply elem_of_seq in Hseq. by destruct (Hi i Hseq).
  - rewrite length_app, length_seq. rewrite J6. replace count with (Z.of_nat (S n)) by lia. unfold wrapu. rewrite Zplus_mod_idemp_l. f_equal. lia.
Qed.

(** ** Theorems *)

(** C27: [memlist_add_span] is set union.  On a sorted list of disjoint spans it
    terminates without a bad access and leaves such a list; the addresses
    covered are the old ones and the new span, elements that are no longer
    needed are freed, and no element is lost.  It fails exactly when there is
    no free element ([MEML_SPANOP_EALLOC]) or when part of the span is there
    already ([MEML_SPANOP_ESPAN]), and then the list stays as it is.  Elements
    that become adjacent are joined: a list without adjacent elements stays
    without. *)
Theorem memlist_add_span_correct st h l free address bytes :
  mrep st h l free → spans_ok 0 l.*2 → 0 <= address → 0 < bytes → address + bytes < 2 ^ 64 →
  ∃ st' h' code l' free', memlist_add_span address bytes h st = Some (st', h', code) ∧
    mrep st' h' l' free' ∧ spans_ok 0 l'.*2 ∧ l'.*1 ++ free' ≡ₚ l.*1 ++ free ∧
    (code = MEML_SPANOP_EALLOC ↔ free = []) ∧
    (code = MEML_SPANOP_ESPAN ↔ free ≠ [] ∧ overlaps l.*2 address bytes) ∧
    (code ≠ MEML_SPANOP_OK → l' = l) ∧
    (code = MEML_SPANOP_OK → ∀ x, covers l'.*2 x ↔ covers l.*2 x ∨ in_span address bytes x) ∧
    (merged l.*2 → merged l'.*2).
Proof.
  intros Hr Hs Ha Hb Hab. pose proof (add_span_ok st h l free address bytes Hr Hs Ha Hb Hab) as H. destruct free as [|d free].
  - exists st, h, MEML_SPANOP_EALLOC, l, []. rewrite H. split_and!; try done. naive_solver.
  - destruct H as (st' & h' & code & l' & free' & E & Hr' & Hs' & HP & Hcode). exists st', h', code, l', free'.
    do 4 (split; [done|]). destruct Hcode as [(-> & -> & Ho)|(-> & Hno & Hc & Hg & _)]; split_and!; try done; naive_solver.
Qed.

(** In a list without adjacent elements a span that exists is part of one
    element. *)
Lemma merged_inside lo lo' l address bytes :
  spans_ok lo l → gaps lo' l → 0 < bytes → inside l address bytes ↔ ∀ x, in_span address bytes x → covers l x.
Proof.
  intros Hs Hg Hb. split.
  { intros (a & n & Hin & ? & ?) x Hx. unfold in_span in Hx. exists a, n. split; [done|lia]. }
  revert lo lo' Hs Hg. induction l as [|[a n] l IH]; intros lo lo'; [intros _ _ H; by destruct (covers_nil address (H address ltac:(unfold in_span; lia)))|].
  cbn. intros (_ & Hn & _ & Hs) [_ Hg] Hall. destruct (proj1 (covers_cons _ _ _ _) (Hall address ltac:(unfold in_span; lia))) as [Hin|Hin].
  - exists a, n. split; [by left|]. split; [lia|]. destruct (decide (address + bytes <= a + n)) as [?|Hgt]; [done|exfalso].
    destruct (proj1 (covers_cons _ _ _ _) (Hall (a + n) ltac:(unfold in_span; lia))) as [?|Hc%(gaps_from _ _ _ Hs Hg)]; lia.
  - pose proof (covers_from _ _ _ Hs Hin). destruct (IH (a + n) (a + n) Hs Hg) as (a' & n' & Hin' & ?); [|exists a', n'; split; [by right|done]].
    intros x Hx. destruct (proj1 (covers_cons _ _ _ _) (Hall x Hx)) as [?|?]; [unfold in_span in Hx; lia|done].
Qed.

(** C28: [memlist_delete_span] is set difference.  It terminates without a bad
    access, leaves a sorted list of disjoint spans and covers what was covered
    outside the span.  It fails exactly when the span is not part of one
    element ([MEML_SPANOP_ESPAN]) or when an element has to be divided and none
    is free ([MEML_SPANOP_EALLOC]), and then the list stays as it is.  In a
    list without adjacent elements, which [memlist_add_span] and
    [memlist_delete_span] keep, [MEML_SPANOP_ESPAN] is returned exactly when
    part or all of the span does not exist. *)
Theorem memlist_delete_span_correct st h l free address bytes :
  mrep st h l free → spans_ok 0 l.*2 → 0 <= address → 0 < bytes → address + bytes < 2 ^ 64 →
  ∃ st' h' code l' free', memlist_delete_span address bytes h st = Some (st', h', code) ∧
    mrep st' h' l' free' ∧ spans_ok 0 l'.*2 ∧ l'.*1 ++ free' ≡ₚ l.*1 ++ free ∧
    (code = MEML_SPANOP_ESPAN ↔ ¬ inside l.*2 address bytes) ∧
    (code = MEML_SPANOP_EALLOC ↔ free = [] ∧ middle l.*2 address bytes) ∧
    (code ≠ MEML_SPANOP_OK → l' = l) ∧
    (code = MEML_SPANOP_OK → ∀ x, covers l'.*2 x ↔ covers l.*2 x ∧ ¬ in_span address bytes x) ∧
    (merged l.*2 → merged l'.*2 ∧ (code = MEML_SPANOP_ESPAN ↔ ¬ ∀ x, in_span address bytes x → covers l.*2 x)).
Proof.
  intros Hr Hs Ha Hb Hab. destruct (delete_span_ok st h l free address bytes Hr Hs Hb Ha Hab) as (st' & h' & code & l' & free' & E & Hr' & Hs' & HP & Hcode).
  exists st', h', code, l', free'. do 4 (split; [done|]).
  assert (middle l.*2 address bytes → inside l.*2 address bytes) as Hmi by (intros (a & n & ? & ? & ?); exists a, n; split_and!; [done|lia|lia]).
  assert (merged l.*2 → inside l.*2 address bytes ↔ ∀ x, in_span address bytes x → covers l.*2 x) as Hmg by (intros Hg; by apply (merged_inside 0 (-1))).
  destruct Hcode as [(-> & -> & Hno)|[(-> & -> & -> & Hmid)|(-> & Hin & Hfree & Hg & Hc)]];
    (split_and!; [naive_solver..|intros Hm; rewrite <- (Hmg Hm); naive_solver]).
Qed.

(** A span that is part of two adjacent elements exists, but is not deleted. *)
Theorem memlist_delete_adjacent st h l1 p a n q k l2 free address bytes :
  let l := l1 ++ (p, (a, n)) :: (q, (a + n, k)) :: l2 in
  mrep st h l free → spans_ok 0 l.*2 → a <= address < a + n → a + n < address + bytes <= a + n + k →
  (∀ x, in_span address bytes x → covers l.*2 x) ∧ memlist_delete_span address bytes h st = Some (st, h, MEML_SPANOP_ESPAN).
Proof.
  intros l Hr Hs Hx Hend. unfold l in *. clear l. rewrite items_split in *. cbn [fmap list_fmap snd] in *. split.
  { intros x. unfold in_span. rewrite covers_app, !covers_cons. intros ?. right. lia. }
  destruct (covers_split _ _ _ _ Hs) as (Hlo & Hn & Han & _ & _ & _ & Hs2). cbn in Hs2. destruct Hs2 as (_ & _ & Hak & _).
  unfold memlist_delete_span. destruct (ml_find_ok st h _ free address Hr ltac:(by rewrite items_split)) as (r & -> & Hfind).
  destruct r as [r|]; [|destruct Hfind; rewrite items_split; exists a, n; split; [apply elem_of_app; right; by left|lia]].
  destruct Hfind as (k1 & b & m & k2 & El & Hb). pose proof Hr as Hr2. rewrite El in Hr2. rewrite (dl_cell _ _ _ _ _ _ (mi_list _ _ _ _ Hr2)).
  assert (b = a ∧ m = n) as [-> ->].
  { apply (element_unique _ a n _ b m address Hs Hx); [|done]. change ((a + n, k) :: l2.*2) with (((q, (a + n, k)) :: l2).*2).
    rewrite <- (items_split l1 p (a, n)), El, items_split. apply elem_of_app. right. by left. }
  cbn [ml_address ml_size]. rewrite (wrapu_id _ (address + bytes)), (wrapu_id _ (a + n)) by lia.
  destruct (Z.gtb_spec (address + bytes) (a + n)); [done|lia].
Qed.

(** Deleting undoes adding.  A span that has been added can always be
    deleted again, without a free element being needed that is not there, and
    afterwards the list covers what it did before. *)
Theorem memlist_add_delete st h l free address bytes st1 h1 :
  mrep st h l free → spans_ok 0 l.*2 → 0 <= address → 0 < bytes → address + bytes < 2 ^ 64 →
  memlist_add_span address bytes h st = Some (st1, h1, MEML_SPANOP_OK) →
  ∃ st2 h2 l2 free2, memlist_delete_span address bytes h1 st1 = Some (st2, h2, MEML_SPANOP_OK) ∧
    mrep st2 h2 l2 free2 ∧ spans_ok 0 l2.*2 ∧ l2.*1 ++ free2 ≡ₚ l.*1 ++ free ∧ ∀ x, covers l2.*2 x ↔ covers l.*2 x.
Proof.
  intros Hr Hs Ha Hb Hab Hadd. pose proof (add_span_ok st h l free address bytes Hr Hs Ha Hb Hab) as H. destruct free as [|d free]; [by rewrite H in Hadd|].
  destruct H as (st' & h' & code & l' & free' & E & Hr' & Hs' & HP & Hcode). rewrite Hadd in E. injection E as <- <- <-.
  destruct Hcode as [(? & _)|(_ & Hno & Hc & _ & a & n & Hin & Hle & Hend & Hedge)]; [done|].
  destruct (delete_span_ok st1 h1 l' free' address bytes Hr' Hs' Hb Ha Hab) as (st2 & h2 & code & l2 & free2 & E & Hr2 & Hs2 & HP2 & Hcode).
  assert (inside l'.*2 address bytes) as Hins by (by exists a, n).
  assert (middle l'.*2 address bytes → free' ≠ []) as Hmid.
  { intros (a' & n' & Hin' & ? & ?). apply list_elem_of_split in Hin as (k1 & k2 & Ek). rewrite Ek in Hs', Hin'.
    destruct (element_unique k1 a n k2 a' n' address Hs' ltac:(lia) Hin' ltac:(lia)) as [-> ->]. destruct Hedge as [?|[?|?]]; [lia|lia|done]. }
  destruct Hcode as [(_ & _ & ?)|[(_ & _ & Hf & Hm)|(-> & _ & _ & _ & Hc2)]]; [done|by apply Hmid in Hm|].
  exists st2, h2, l2, free2. split; [done|]. split; [done|]. split; [done|]. split; [by rewrite HP2|].
  intros x. rewrite Hc2, Hc. split; [tauto|]. intros Hx. split; [by left|]. intros Hi. apply Hno. by exists x.
Qed.

(** [memlist_insert] keeps the list sorted.  An element whose span has
    nothing in common with the list is linked at its place in it; otherwise,
    and only then, the panic for a munged list is reached.  The caller's head
    pointer is right afterwards unless the list was empty: then it stays
    [NULL], and the element is lost. *)
Theorem memlist_insert_correct st h l free new cn :
  mrep st h l free → spans_ok 0 l.*2 → new ∉ l.*1 ++ free → ms_mem st !! new = Some cn →
  0 <= ml_address cn → 0 < ml_size cn → ml_address cn + ml_size cn < 2 ^ 64 →
  (overlaps l.*2 (ml_address cn) (ml_size cn) ∧ memlist_insert new h st = Some Munged) ∨
  ∃ st' h' l1 l2, let l' := l1 ++ (new, (ml_address cn, ml_size cn)) :: l2 in
    (¬ overlaps l.*2 (ml_address cn) (ml_size cn)) ∧ memlist_insert new h st = Some (Inserted st' h') ∧
    l = l1 ++ l2 ∧ mrep st' (ohead l') l' free ∧ spans_ok 0 l'.*2 ∧
    h' = match l with [] => None | _ => ohead l' end.
Proof.
  intros Hr Hs Hnew Hcn Ha Hz Haz. destruct (ml_insert_ok st h l free new cn Hr Hs Hnew Hcn Ha Hz Haz) as (res & -> & Hpost).
  destruct res as [st' h'|]; [|by left]. right. destruct Hpost as (Hno & l1 & l2 & El & Hr' & Hs' & Eh). by exists st', h', l1, l2.
Qed.

(** Elements are neither lost nor used twice.  [memlist_del] takes an
    element out of its list, [memlist_free_list] returns all elements of a list
    and [memlist_free_block] the elements of a block to the free list, in
    front of what is there, and its count stays right; [memlist_find] finds the
    element that covers an address if there is one. *)
Theorem memlist_elements st h l free :
  mrep st h l free → spans_ok 0 l.*2 →
  (∀ l1 p x l2, l = l1 ++ (p, x) :: l2 →
    ∃ st', memlist_del p h st = Some (st', ohead (l1 ++ l2)) ∧ mrep st' (ohead (l1 ++ l2)) (l1 ++ l2) free) ∧
  (∃ st', memlist_free_list st h = Some st' ∧ mrep st' None [] (l.*1 ++ free)) ∧
  (∀ sizeof base bytes, 0 < sizeof → 0 <= bytes → bytes `div` sizeof < 2 ^ 32 →
    (∀ i, (base <= i < base + Z.to_nat (bytes `div` sizeof))%nat → (i ∉ l.*1 ++ free) ∧ is_Some (ms_mem st !! i)) →
    ∃ st', memlist_free_block sizeof base bytes st = Some st' ∧ mrep st' h l (seq base (Z.to_nat (bytes `div` sizeof)) ++ free)) ∧
  ∀ address, ∃ r, memlist_find st h address = Some r ∧
    match r with
    | None => ¬ covers l.*2 address
    | Some p => ∃ a n, (p, (a, n)) ∈ l ∧ a <= address < a + n
    end.
Proof.
  intros Hr Hs. split; [|split; [by apply free_list_ok|split]].
  - intros l1 p x l2 ->. destruct (del_ok st h l1 p x l2 free Hr) as (st' & ? & ? & _). by exists st'.
  - intros sizeof base bytes ? ? ? ?. by apply free_block_ok.
  - intros address. destruct (ml_find_ok st h l free address Hr Hs) as (r & Hf & H). exists r. split; [done|]. destruct r as [p|]; [|done].
    destruct H as (l1 & a & n & l2 & -> & ?). exists a, n. split; [set_solver|done].
Qed.

(** ** An example *)

(** The spans [100, 150) and [200, 250) in the cells 1 and 2, with the cells 3
    and 4 free; the cell 5 is in no list. *)
Definition ex_mstate : mstate :=
  MState (list_to_map [(1%nat, Memlist 100 50 (Some 2%nat) None); (2%nat, Memlist 200 50 None (Some 1%nat));
    (3%nat, Memlist 0 0 (Some 4%nat) None); (4%nat, Memlist 0 0 None None); (5%nat, Memlist 150 10 None None)]) (Some 3%nat) 2.
Definition ex_items : list item := [(1%nat, (100, 50)); (2%nat, (200, 50))].

Lemma ex_mrep : mrep ex_mstate (Some 1%nat) ex_items [3; 4]%nat.
Proof.
  split; try reflexivity; [by cbn| |].
  - cbn. split_and!; try done; by eexists.
  - apply (bool_decide_unpack _). vm_compute. exact I.
Qed.

Lemma ex_spans : spans_ok 0 ex_items.*2.
Proof. cbn. lia. Qed.

Lemma memlist_add_span_correct_witness :
  ∃ st' h' code, memlist_add_span 150 50 (Some 1%nat) ex_mstate = Some (st', h', code).
Proof.
  destruct (memlist_add_span_correct ex_mstate (Some 1%nat) ex_items [3; 4]%nat 150 50 ex_mrep ex_spans) as (st' & h' & code & _ & _ & H & _); [lia..|].
  exists st', h', code. exact H.
Defined.

Lemma memlist_delete_span_correct_witness :
  ∃ st' h' code, memlist_delete_span 110 20 (Some 1%nat) ex_mstate = Some (st', h', code).
Proof.
  destruct (memlist_delete_span_correct ex_mstate (Some 1%nat) ex_items [3; 4]%nat 110 20 ex_mrep ex_spans) as (st' & h' & code & _ & _ & H & _); [lia..|].
  exists st', h', code. exact H.
Defined.

Lemma memlist_add_delete_witness :
  ∃ st1 h1 st2 h2, memlist_add_span 150 50 (Some 1%nat) ex_mstate = Some (st1, h1, MEML_SPANOP_OK) ∧
    memlist_delete_span 150 50 h1 st1 = Some (st2, h2, MEML_SPANOP_OK).
Proof.
  eassert (memlist_add_span 150 50 (Some 1%nat) ex_mstate = Some _) as E by (vm_compute; reflexivity).
  destruct (memlist_add_delete ex_mstate (Some 1%nat) ex_items [3; 4]%nat 150 50 _ _ ex_mrep ex_spans ltac:(lia) ltac:(lia) ltac:(lia) E)
    as (st2 & h2 & _ & _ & H & _).
  eexists _, _, st2, h2. split; [exact E|exact H].
Defined.

Lemma memlist_insert_correct_witness :
  ∃ res, memlist_insert 5 (Some 1%nat) ex_mstate = Some res.
Proof.
  destruct (memlist_insert_correct ex_mstate (Some 1%nat) ex_items [3; 4]%nat 5%nat (Memlist 150 10 None None) ex_mrep ex_spans)
    as [[_ H]|(st' & h' & _ & _ & _ & H & _)]; [apply (bool_decide_unpack _); vm_compute; exact I|reflexivity|cbn; lia..| |].
  - exists Munged. exact H.
  - exists (Inserted st' h'). exact H.
Defined.

Lemma memlist_elements_witness :
  ∃ st', memlist_free_list ex_mstate (Some 1%nat) = Some st' ∧ mrep st' None [] [1; 2; 3; 4]%nat.
Proof. exact (proj1 (proj2 (memlist_elements ex_mstate (Some 1%nat) ex_items [3; 4]%nat ex_mrep ex_spans))). Defined.
