(* ===== verification/DiskSort.v ===== *)
(** * Seek sort for disks (uts/common/os/bdev_dsort.c)

    The activity chain of a disk holds two queues of requests, each sorted by
    cylinder: those at or behind the request in front, and those that came in
    after their cylinder had been passed.  [disksort] is translated at the
    level of the pointers; it is shown to insert a request at the end of the
    requests for cylinders up to its own in the queue where it belongs, so
    that the chain stays a one way scan over the disk. *)

From Stdlib Require Import ZArith Lia.
From stdpp Require Import base numbers option list gmap.
From S2P Require Import Prelude.

#[local] Open Scope Z_scope.

(** ** Data *)

(** A request: its cylinder ([b_cylin], which is [b_resid]) and the next one. *)
Record buf := Buf {
  b_cylin : Z;
  av_forw : option nat
}.

(** The chain of a disk, with the requests in memory. *)
Record diskhd := Diskhd {
  dk_mem : gmap nat buf;
  b_actf : option nat;
  b_actl : option nat
}.

Definition set_forw (p : nat) (n : option nat) (dp : diskhd) : option diskhd :=
  let! b := dk_mem dp !! p in
  Some (Diskhd (<[p := Buf (b_cylin b) n]> (dk_mem dp)) (b_actf dp) (b_actl dp)).

(** ** disksort() *)

(** The label [insert]: [bp] goes behind [ap]. *)
Definition insert_after (bp ap : nat) (dp : diskhd) : option diskhd :=
  let! a := dk_mem dp !! ap in
  let! dp := set_forw bp (av_forw a) dp in
  let! dp := set_forw ap (Some bp) dp in
  Some (if decide (b_actl dp = Some ap) then Diskhd (dk_mem dp) (b_actf dp) (Some bp) else dp).

(** The three loops, each of which moves [ap] and ends with the request behind
    which [bp] goes: the search of the second queue, the search for the
    beginning of the second queue, and the search of the first one. *)
Definition second_step (cyl : Z) (dp : diskhd) (ap : nat) : option (loop nat nat) :=
  let! a := dk_mem dp !! ap in
  let! n := av_forw a in
  let! b := dk_mem dp !! n in
  if cyl <? b_cylin b then Some (Return ap)
  else
    let! b := dk_mem dp !! n in
    match av_forw b with Some _ => Some (Next n) | None => Some (Return n) end.

Definition inversion_step (cyl : Z) (dp : diskhd) (fuel : nat) (ap : nat) : option (loop nat nat) :=
  let! a := dk_mem dp !! ap in
  match av_forw a with
  | None => Some (Return ap)
  | Some n =>
      let! b := dk_mem dp !! n in
      if b_cylin b <? b_cylin a then
        let! ap := run (second_step cyl dp) fuel ap in
        Some (Return ap)
      else Some (Next n)
  end.

Definition first_step (cyl : Z) (dp : diskhd) (ap : nat) : option (loop nat nat) :=
  let! a := dk_mem dp !! ap in
  match av_forw a with
  | None => Some (Return ap)
  | Some n =>
      let! b := dk_mem dp !! n in
      if ((b_cylin b <? b_cylin a) || (cyl <? b_cylin b))%bool then Some (Return ap) else Some (Next n)
  end.

(** The chain is no longer than the memory. *)
Definition chain_fuel (dp : diskhd) : nat := S (S (size (dk_mem dp))).

Definition disksort (bp : nat) (dp : diskhd) : option diskhd :=
  match b_actf dp with
  | None => set_forw bp None (Diskhd (dk_mem dp) (Some bp) (Some bp))
  | Some ap =>
      let! b := dk_mem dp !! bp in
      let! a := dk_mem dp !! ap in
      let! ap :=
        if b_cylin b <? b_cylin a
        then run (inversion_step (b_cylin b) dp (chain_fuel dp)) (chain_fuel dp) ap
        else run (first_step (b_cylin b) dp) (chain_fuel dp) ap in
      insert_after bp ap dp
  end.

(** ** Chains *)

(** A request: its cell and its cylinder. *)
Abbreviation req := (nat * Z)%type.

Fixpoint chain (mem : gmap nat buf) (l : list req) (nxt : option nat) : Prop :=
  match l with
  | [] => True
  | (p, c) :: l => mem !! p = Some (Buf c (match l with [] => nxt | x :: _ => Some x.1 end)) ∧ chain mem l nxt
  end.

Record queue (dp : diskhd) (l : list req) : Prop := {
  q_chain : chain (dk_mem dp) l None;
  q_first : b_actf dp = fst <$> head l;
  q_last : b_actl dp = fst <$> last l ∨ l = [];
  q_nodup : NoDup l.*1
}.

Lemma chain_frame mem mem' l nxt : (∀ p, p ∈ l.*1 → mem' !! p = mem !! p) → chain mem l nxt → chain mem' l nxt.
Proof.
  induction l as [|[p c] l IH]; intros Hf; [done|]. intros [Hp Hl]. split; [rewrite Hf; [done|by left]|].
  apply IH; [|done]. intros q Hq. apply Hf. by right.
Qed.

Lemma chain_app mem l1 x l2 nxt : chain mem (l1 ++ x :: l2) nxt ↔ chain mem l1 (Some x.1) ∧ chain mem (x :: l2) nxt.
Proof.
  induction l1 as [|[p c] l1 IH]; [cbn; tauto|]. rewrite <- app_comm_cons. cbn [chain]. rewrite IH. destruct l1; cbn; tauto.
Qed.

(** The cell of a request and the next one. *)
Lemma request_cell mem l1 p c l2 : chain mem (l1 ++ (p, c) :: l2) None → mem !! p = Some (Buf c (fst <$> head l2)).
Proof. rewrite chain_app. intros [_ [-> _]]. by destruct l2. Qed.

Lemma queue_length dp l : queue dp l → (length l <= size (dk_mem dp))%nat.
Proof.
  intros Hq. rewrite <- (length_fmap fst l), <- size_dom. rewrite <- (size_list_to_set (C := gset nat) (l.*1)) by apply Hq.
  apply subseteq_size. intros p Hp%elem_of_list_to_set. apply list_elem_of_fmap in Hp as ([q c] & -> & Hp).
  apply list_elem_of_split in Hp as (l1 & l2 & ->). apply elem_of_dom. cbn. rewrite (request_cell _ _ _ _ _ (q_chain _ _ Hq)). by eexists.
Qed.

Lemma insert_after_ok dp l1 ap c l2 bp b :
  queue dp (l1 ++ (ap, c) :: l2) → bp ∉ (l1 ++ (ap, c) :: l2).*1 → dk_mem dp !! bp = Some b →
  ∃ dp', insert_after bp ap dp = Some dp' ∧ queue dp' (l1 ++ (ap, c) :: (bp, b_cylin b) :: l2).
Proof.
  intros [Q1 Q2 Q3 Q4] Hbp Hb. unfold insert_after, set_forw. pose proof (request_cell _ _ _ _ _ Q1) as Ha. rewrite Ha. cbn [av_forw]. rewrite Hb.
  assert (ap ≠ bp) as Hne by (intros ->; apply Hbp; rewrite fmap_app; set_solver). cbn [dk_mem b_actf b_actl].
  rewrite lookup_insert_ne, Ha by done. cbn [b_cylin]. set (mem' := <[ap := _]> (<[bp := _]> (dk_mem dp))).
  rewrite chain_app in Q1. destruct Q1 as [C1 [_ C2]]. rewrite fmap_app in Q4, Hbp. cbn in Q4, Hbp. apply NoDup_app in Q4 as (N1 & N2 & N3).
  apply NoDup_cons in N3 as [N3 N4].
  assert (∀ p, p ≠ ap → p ≠ bp → mem' !! p = dk_mem dp !! p) as Hmem by (intros p ? ?; unfold mem'; by rewrite !lookup_insert_ne).
  assert (chain mem' (l1 ++ (ap, c) :: (bp, b_cylin b) :: l2) None) as HC.
  { rewrite chain_app. split; [apply (chain_frame (dk_mem dp)); [|done]|].
    - intros p Hp. apply Hmem; intros ->; set_solver.
    - split; [unfold mem'; by rewrite lookup_insert_eq|]. split; [unfold mem'; rewrite lookup_insert_ne, lookup_insert_eq by done; by destruct l2|].
      apply (chain_frame (dk_mem dp)); [|done]. intros p Hp. apply Hmem; intros ->; set_solver. }
  assert (NoDup (l1 ++ (ap, c) :: (bp, b_cylin b) :: l2).*1) as HN.
  { rewrite fmap_app. cbn. apply NoDup_app. split; [done|]. split; [set_solver|]. constructor; [set_solver|]. constructor; [set_solver|done]. }
  eexists. split; [done|]. assert (b_actl dp = fst <$> last (l1 ++ (ap, c) :: l2)) as Hl by (destruct Q3 as [?|E]; [done|by destruct l1]).
  rewrite Q2. destruct l2 as [|x l2 _] using rev_ind.
  - rewrite last_snoc in Hl. cbn in Hl. rewrite decide_True by done. split; cbn; try done; [by destruct l1|].
    left. rewrite cons_middle, app_assoc, last_snoc. done.
  - rewrite app_comm_cons, app_assoc, last_snoc in Hl. rewrite decide_False by (rewrite Hl; intros [= E]; apply N3; rewrite <- E, fmap_app; set_solver).
    split; cbn [dk_mem b_actf b_actl]; try done; [by destruct l1|]. left. rewrite Hl. by rewrite !app_comm_cons, app_assoc, last_snoc.
Qed.

(** ** Where a request goes *)

(** Behind the requests for cylinders up to its own. *)
Fixpoint place (x : req) (l : list req) : list req :=
  match l with
  | [] => [x]
  | y :: l => if x.2 <? y.2 then x :: y :: l else y :: place x l
  end.

(** A queue in order of cylinders. *)
Fixpoint ascending (l : list req) : Prop :=
  match l with
  | [] => True
  | x :: l => (∀ y, y ∈ l → x.2 <= y.2) ∧ ascending l
  end.

(** A one way scan: two queues in order, the second one with cylinders that the
    request in front has passed. *)
Definition one_way (q1 q2 : list req) : Prop :=
  ascending q1 ∧ ascending q2 ∧ match q1 with [] => q2 = [] | x :: _ => ∀ y, y ∈ q2 → y.2 < x.2 end.

Definition scheduled (x : req) (q1 q2 : list req) : list req * list req :=
  match q1 with
  | [] => ([x], [])
  | y :: _ => if x.2 <? y.2 then (q1, place x q2) else (place x q1, q2)
  end.

Lemma place_split x l1 l2 :
  (∀ y, y ∈ l1 → y.2 <= x.2) → (∀ y l, l2 = y :: l → x.2 < y.2) → place x (l1 ++ l2) = l1 ++ x :: l2.
Proof.
  intros H1 H2. induction l1 as [|y l1 IH]; cbn.
  - destruct l2 as [|y l2]; [done|]. cbn. by rewrite (proj2 (Z.ltb_lt _ _) (H2 y l2 eq_refl)).
  - rewrite (proj2 (Z.ltb_ge x.2 y.2)) by (apply H1; by left). f_equal. apply IH. intros z Hz. apply H1. by right.
Qed.

Lemma place_perm x l : place x l ≡ₚ x :: l.
Proof.
  induction l as [|y l IH]; cbn; [done|]. destruct (x.2 <? y.2); [done|]. rewrite IH. apply perm_swap.
Qed.

Lemma place_ascending x l : ascending l → ascending (place x l).
Proof.
  induction l as [|y l IH]; cbn; [by split; [intros y ?%not_elem_of_nil|]|]. intros [Hy Hl]. destruct (Z.ltb_spec x.2 y.2); cbn.
  - split; [|done]. intros z [->|Hz]%elem_of_cons; [lia|]. specialize (Hy z Hz). lia.
  - split; [|by apply IH]. intros z Hz. rewrite place_perm in Hz. apply elem_of_cons in Hz as [->|Hz]; [done|by apply Hy].
Qed.

Lemma ascending_app l1 l2 : ascending (l1 ++ l2) → ascending l2.
Proof. induction l1 as [|x l1 IH]; [done|]. intros [_ ?]. by apply IH. Qed.

Lemma ascending_le l1 x l2 y : ascending (l1 ++ x :: l2) → y ∈ l2 → x.2 <= y.2.
Proof. intros [H _]%ascending_app Hy. by apply H. Qed.

Lemma scheduled_one_way x q1 q2 : one_way q1 q2 → one_way (scheduled x q1 q2).1 (scheduled x q1 q2).2.
Proof.
  intros (H1 & H2 & H3). destruct q1 as [|y q1]; cbn [scheduled fst snd].
  { split; [|split; [done|]]; [|by intros z ?%not_elem_of_nil]. split; [by intros z ?%not_elem_of_nil|done]. }
  destruct (Z.ltb_spec x.2 y.2); cbn [fst snd].
  - split; [done|]. split; [by apply place_ascending|]. intros z Hz. rewrite place_perm in Hz. apply elem_of_cons in Hz as [->|?]; [done|by apply H3].
  - split; [by apply (place_ascending x (y :: q1))|]. split; [done|]. cbn. by rewrite (proj2 (Z.ltb_ge x.2 y.2)).
Qed.

(** What a search of the chain [l] ends with: the request behind which [x] goes
    to make the chain [l']. *)
Definition found (x : req) (l l' : list req) (ap : nat) : Prop :=
  ∃ l1 c l2, l = l1 ++ (ap, c) :: l2 ∧ l' = l1 ++ (ap, c) :: x :: l2.

Lemma at_cell dp l l1 ap c l2 : queue dp l → l = l1 ++ (ap, c) :: l2 → dk_mem dp !! ap = Some (Buf c (fst <$> head l2)).
Proof. intros Hq ->. exact (request_cell _ _ _ _ _ (q_chain _ _ Hq)). Qed.

(** The end of the first queue is an inversion. *)
Lemma inversion_at y0 q1 k1 ap c y q2 :
  one_way (y0 :: q1) (y :: q2) → y0 :: q1 = k1 ++ [(ap, c)] → y.2 < c.
Proof.
  intros ([H1 _] & _ & H3) E. specialize (H3 y ltac:(by left)). destruct k1 as [|z k1]; injection E as -> E; [done|].
  specialize (H1 (ap, c)). rewrite E in H1. cbn in H1. assert (z.2 <= c); [|lia]. apply H1. set_solver.
Qed.

Lemma first_ok dp x y0 q1 q2 :
  queue dp ((y0 :: q1) ++ q2) → one_way (y0 :: q1) q2 → y0.2 <= x.2 →
  ∃ ap, run (first_step x.2 dp) (chain_fuel dp) y0.1 = Some ap ∧ found x ((y0 :: q1) ++ q2) (place x (y0 :: q1) ++ q2) ap.
Proof.
  intros Hq Hord Hx. pose proof Hord as (H1 & _ & _).
  apply (run_total_idx _ (λ n ap, ∃ k1 c k2, y0 :: q1 = k1 ++ (ap, c) :: k2 ∧ n = length k2 ∧ ∀ y, y ∈ k1 ++ [(ap, c)] → y.2 <= x.2) _)
    with (n := length q1).
  2: { exists [], y0.2, q1. destruct y0. split_and!; try done. intros y ->%list_elem_of_singleton. done. }
  2: { pose proof (queue_length _ _ Hq) as Hl. rewrite length_app in Hl. cbn in Hl. unfold chain_fuel. lia. }
  intros n ap (k1 & c & k2 & E & -> & Hle).
  assert ((y0 :: q1) ++ q2 = k1 ++ (ap, c) :: (k2 ++ q2)) as Ef by (by rewrite E, <- app_assoc).
  unfold first_step. rewrite (at_cell _ _ _ _ _ _ Hq Ef). cbn [av_forw b_cylin].
  assert ((∀ y l, k2 = y :: l → x.2 < y.2) → found x ((y0 :: q1) ++ q2) (place x (y0 :: q1) ++ q2) ap) as Hend.
  { intros Hk2. exists k1, c, (k2 ++ q2). split; [done|]. rewrite E, (cons_middle (ap, c)), app_assoc, place_split by done.
    by rewrite <- !app_assoc. }
  destruct k2 as [|[p cp] k2].
  - rewrite app_nil_l in *. destruct q2 as [|[p cp] q2']; cbn [head fmap option_fmap option_map fst]; [eexists; split; [done|]; by apply Hend|].
    rewrite (at_cell _ _ (k1 ++ [(ap, c)]) p cp q2' Hq) by (by rewrite Ef, <- app_assoc). cbn [b_cylin].
    rewrite (proj2 (Z.ltb_lt cp c)) by (exact (inversion_at _ _ _ _ _ _ _ Hord E)). cbn. eexists. split; [done|]. by apply Hend.
  - cbn [head app fmap option_fmap option_map fst].
    rewrite (at_cell _ _ (k1 ++ [(ap, c)]) p cp (k2 ++ q2) Hq) by (by rewrite Ef, <- app_assoc). cbn [b_cylin].
    rewrite E in H1. pose proof (ascending_le _ _ _ (p, cp) H1 ltac:(by left)) as Hcp. cbn in Hcp.
    rewrite (proj2 (Z.ltb_ge cp c)) by done. cbn [orb]. destruct (Z.ltb_spec x.2 cp) as [Hlt|Hge].
    + eexists. split; [done|]. apply Hend. by intros y l [= <- <-].
    + eexists. split; [done|]. exists (length k2). split; [cbn; lia|]. exists (k1 ++ [(ap, c)]), cp, k2. rewrite <- app_assoc.
      split_and!; try done. intros y [Hy| ->%list_elem_of_singleton]%elem_of_app; [by apply Hle|done].
Qed.

(** The search of the second queue, from the last request before it on. *)
Lemma second_ok dp x q1 q2 k1 ap c :
  queue dp (q1 ++ q2) → q1 = k1 ++ [(ap, c)] → q2 ≠ [] →
  ∃ r, run (second_step x.2 dp) (chain_fuel dp) ap = Some r ∧ found x (q1 ++ q2) (q1 ++ place x q2) r.
Proof.
  intros Hq E Hne.
  apply (run_total_idx _ (λ n ap, ∃ m1 m2 h1 c, q2 = m1 ++ m2 ∧ m2 ≠ [] ∧ q1 ++ m1 = h1 ++ [(ap, c)] ∧ n = length m2 ∧
    ∀ y, y ∈ m1 → y.2 <= x.2) _) with (n := length q2).
  2: { exists [], q2, k1, c. rewrite app_nil_r. split_and!; try done. by intros y ?%not_elem_of_nil. }
  2: { pose proof (queue_length _ _ Hq) as Hl. rewrite length_app in Hl. unfold chain_fuel. lia. }
  intros n p (m1 & m2 & h1 & cp & Em & Hm2 & Eh & -> & Hle). destruct m2 as [|[r cr] m2]; [done|].
  assert (q1 ++ q2 = h1 ++ (p, cp) :: (r, cr) :: m2) as Ef by (rewrite Em, app_assoc, Eh, <- app_assoc; done).
  assert (q1 ++ q2 = (h1 ++ [(p, cp)]) ++ (r, cr) :: m2) as Ef2 by (by rewrite Ef, <- app_assoc).
  unfold second_step. rewrite (at_cell _ _ _ _ _ _ Hq Ef). cbn [av_forw head fmap option_fmap option_map fst].
  rewrite (at_cell _ _ _ _ _ _ Hq Ef2). cbn [b_cylin av_forw]. destruct (Z.ltb_spec x.2 cr) as [Hlt|Hge].
  - eexists. split; [done|]. exists h1, cp, ((r, cr) :: m2). split; [done|].
    rewrite Em, place_split by (done || by intros y l [= <- <-]). by rewrite app_assoc, Eh, <- app_assoc.
  - assert (∀ y, y ∈ m1 ++ [(r, cr)] → y.2 <= x.2) as Hle' by (intros y [Hy| ->%list_elem_of_singleton]%elem_of_app; [by apply Hle|done]).
    destruct m2 as [|s m2]; cbn [head fmap option_fmap option_map].
    + eexists. split; [done|]. exists (h1 ++ [(p, cp)]), cr, []. split; [done|].
      rewrite Em. rewrite <- (app_nil_r (m1 ++ [(r, cr)])), place_split by done. by rewrite <- Eh, <- !app_assoc.
    + eexists. split; [done|]. exists (length (s :: m2)). split; [cbn; lia|]. exists (m1 ++ [(r, cr)]), (s :: m2), (h1 ++ [(p, cp)]), cr.
      split_and!; [by rewrite Em, <- app_assoc|done|by rewrite app_assoc, Eh|done|done].
Qed.

Lemma inversion_ok dp x y0 q1 q2 :
  queue dp ((y0 :: q1) ++ q2) → one_way (y0 :: q1) q2 →
  ∃ ap, run (inversion_step x.2 dp (chain_fuel dp)) (chain_fuel dp) y0.1 = Some ap ∧
    found x ((y0 :: q1) ++ q2) ((y0 :: q1) ++ place x q2) ap.
Proof.
  intros Hq Hord. pose proof Hord as (H1 & _ & _).
  apply (run_total_idx _ (λ n ap, ∃ k1 c k2, y0 :: q1 = k1 ++ (ap, c) :: k2 ∧ n = length k2) _) with (n := length q1).
  2: { exists [], y0.2, q1. by destruct y0. }
  2: { pose proof (queue_length _ _ Hq) as Hl. rewrite length_app in Hl. cbn in Hl. unfold chain_fuel. lia. }
  intros n ap (k1 & c & k2 & E & ->).
  assert ((y0 :: q1) ++ q2 = k1 ++ (ap, c) :: (k2 ++ q2)) as Ef by (by rewrite E, <- app_assoc).
  unfold inversion_step. rewrite (at_cell _ _ _ _ _ _ Hq Ef). cbn [av_forw b_cylin]. destruct k2 as [|[p cp] k2].
  - rewrite app_nil_l in *. destruct q2 as [|[p cp] q2']; cbn [head fmap option_fmap option_map fst].
    + eexists. split; [done|]. exists k1, c, []. split; [done|]. by rewrite E, <- app_assoc.
    + rewrite (at_cell _ _ (k1 ++ [(ap, c)]) p cp q2' Hq) by (by rewrite Ef, <- app_assoc). cbn [b_cylin].
      rewrite (proj2 (Z.ltb_lt cp c)) by (exact (inversion_at _ _ _ _ _ _ _ Hord E)).
      destruct (second_ok dp x (y0 :: q1) ((p, cp) :: q2') k1 ap c Hq E ltac:(done)) as (r & -> & Hr). eexists. split; [done|]. exact Hr.
  - cbn [head app fmap option_fmap option_map fst].
    rewrite (at_cell _ _ (k1 ++ [(ap, c)]) p cp (k2 ++ q2) Hq) by (by rewrite Ef, <- app_assoc). cbn [b_cylin].
    rewrite E in H1. pose proof (ascending_le _ _ _ (p, cp) H1 ltac:(by left)) as Hcp. cbn in Hcp.
    rewrite (proj2 (Z.ltb_ge cp c)) by done. eexists. split; [done|]. exists (length k2). split; [cbn; lia|].
    exists (k1 ++ [(ap, c)]), cp, k2. by rewrite <- app_assoc.
Qed.

(** ** Theorem *)

(** C37: [disksort] keeps the one way scan.  A request is linked into the chain
    without a bad access and in bounded time.  If its cylinder has been passed
    by the request in front it goes into the second queue, otherwise into the
    first, in both behind the requests for cylinders up to its own, so that
    both queues stay sorted, requests for one cylinder stay in order of
    arrival, and nothing is lost. *)
Theorem disksort_correct dp q1 q2 bp b :
  queue dp (q1 ++ q2) → one_way q1 q2 → bp ∉ (q1 ++ q2).*1 → dk_mem dp !! bp = Some b →
  ∃ dp', disksort bp dp = Some dp' ∧
    let '(q1', q2') := scheduled (bp, b_cylin b) q1 q2 in
    queue dp' (q1' ++ q2') ∧ one_way q1' q2' ∧ q1' ++ q2' ≡ₚ (bp, b_cylin b) :: q1 ++ q2.
Proof.
  intros Hq Hord Hbp Hb. set (x := (bp, b_cylin b)). pose proof (scheduled_one_way x q1 q2 Hord) as Hord'.
  unfold disksort. rewrite (q_first _ _ Hq). destruct q1 as [|y0 q1].
  - destruct Hord as (_ & _ & ->). cbn. unfold set_forw. cbn. rewrite Hb. eexists. split; [done|]. split; [|by split; [|done]].
    split; cbn; try done; [by rewrite lookup_insert_eq|by left|]. apply NoDup_singleton.
  - cbn [app head fmap option_fmap option_map]. rewrite Hb.
    rewrite (at_cell _ _ [] y0.1 y0.2 (q1 ++ q2) Hq) by (by destruct y0). cbn [b_cylin].
    assert (∃ ap, (if b_cylin b <? y0.2 then run (inversion_step (b_cylin b) dp (chain_fuel dp)) (chain_fuel dp) y0.1
        else run (first_step (b_cylin b) dp) (chain_fuel dp) y0.1) = Some ap ∧
      found x ((y0 :: q1) ++ q2) ((scheduled x (y0 :: q1) q2).1 ++ (scheduled x (y0 :: q1) q2).2) ap) as (ap & -> & l1 & c & l2 & E & E').
    { cbn [scheduled snd x]. destruct (Z.ltb_spec (b_cylin b) y0.2).
      - exact (inversion_ok dp x y0 q1 q2 Hq Hord).
      - exact (first_ok dp x y0 q1 q2 Hq Hord ltac:(done)). }
    rewrite E in Hq, Hbp. destruct (insert_after_ok dp l1 ap c l2 bp b Hq Hbp Hb) as (dp' & -> & Hq').
    exists dp'. split; [done|]. destruct (scheduled x (y0 :: q1) q2) as [q1' q2']. cbn [fst snd] in *. rewrite E'. split; [done|]. split; [done|].
    change (y0 :: q1 ++ q2) with ((y0 :: q1) ++ q2). rewrite E, <- !Permutation_middle. apply perm_swap.
Qed.

(** ** An example *)

Definition ex_disk : diskhd :=
  Diskhd (list_to_map [(1%nat, Buf 10 (Some 2%nat)); (2%nat, Buf 20 (Some 3%nat)); (3%nat, Buf 5 None); (4%nat, Buf 7 None)])
    (Some 1%nat) (Some 3%nat).

Lemma disksort_correct_witness :
  ∃ dp', disksort 4 ex_disk = Some dp' ∧ queue dp' [(1%nat, 10); (2%nat, 20); (3%nat, 5); (4%nat, 7)].
Proof.
  destruct (disksort_correct ex_disk [(1%nat, 10); (2%nat, 20)] [(3%nat, 5)] 4%nat (Buf 7 None)) as (dp' & H1 & H2 & _).
  - split; try reflexivity; [by cbn|by left|]. apply (bool_decide_unpack _). vm_compute. exact I.
  - unfold one_way. cbn [ascending].
    refine (conj (conj _ (conj _ I)) (conj (conj _ I) _)); intros y Hy;
      repeat (apply elem_of_cons in Hy as [->|Hy]; [cbn; lia|]); by apply not_elem_of_nil in Hy.
  - apply (bool_decide_unpack _). vm_compute. exact I.
  - reflexivity.
  - exists dp'. split; [exact H1|exact H2].
Defined.
