(* ===== verification/SleepQ.v ===== *)
(** * Sleep queues (uts/common/os/sleepq.c)

    A sleep queue is a list of threads in descending order of priority, first
    come first served among equals.  It is linked three ways: [t_link] runs
    through all of it, and [t_priforw] and [t_priback] close the threads of
    one priority to a ring, so that a search steps from the first thread of a
    priority to the first of the next ([t->t_priback->t_link]).  The file has
    the operations on the pointers and what they represent ([sq_rep], a list
    of rings; [sleepqs], all the queues), and proves that insertion, removal,
    the two wakeups and the change of a priority are those of a list. *)

From Stdlib Require Import ZArith Lia Sorted.
From stdpp Require Import base numbers option list gmap sorting.
From S2P Require Import Prelude.

#[local] Open Scope Z_scope.

(** ** Data *)

(** Where a queue is: [(0, i)] is bucket [i] of [sleepq_head], and [(ts, n)]
    is [ts->ts_sleepq[n]]. *)
Definition sqaddr : Type := Z * Z.

Inductive tstate := TS_FREE | TS_SLEEP | TS_RUN | TS_ONPROC | TS_ZOMB | TS_STOPPED.

Record kthread := Kthread {
  t_link : Z;
  t_priforw : Z;
  t_priback : Z;
  t_sleepq : option sqaddr;
  t_pri : Z;
  t_epri : Z;
  t_wchan : Z;
  t_wchan0 : Z;
  t_sobj_ops : Z;
  t_state : tstate;
  t_ts : Z
}.

Definition set_t_link (v : Z) (t : kthread) : kthread :=
  Kthread v (t_priforw t) (t_priback t) (t_sleepq t) (t_pri t) (t_epri t) (t_wchan t) (t_wchan0 t) (t_sobj_ops t) (t_state t) (t_ts t).
Definition set_t_priforw (v : Z) (t : kthread) : kthread :=
  Kthread (t_link t) v (t_priback t) (t_sleepq t) (t_pri t) (t_epri t) (t_wchan t) (t_wchan0 t) (t_sobj_ops t) (t_state t) (t_ts t).
Definition set_t_priback (v : Z) (t : kthread) : kthread :=
  Kthread (t_link t) (t_priforw t) v (t_sleepq t) (t_pri t) (t_epri t) (t_wchan t) (t_wchan0 t) (t_sobj_ops t) (t_state t) (t_ts t).
Definition set_t_sleepq (v : option sqaddr) (t : kthread) : kthread :=
  Kthread (t_link t) (t_priforw t) (t_priback t) v (t_pri t) (t_epri t) (t_wchan t) (t_wchan0 t) (t_sobj_ops t) (t_state t) (t_ts t).
Definition set_t_pri (v : Z) (t : kthread) : kthread :=
  Kthread (t_link t) (t_priforw t) (t_priback t) (t_sleepq t) v (t_epri t) (t_wchan t) (t_wchan0 t) (t_sobj_ops t) (t_state t) (t_ts t).
Definition set_t_epri (v : Z) (t : kthread) : kthread :=
  Kthread (t_link t) (t_priforw t) (t_priback t) (t_sleepq t) (t_pri t) v (t_wchan t) (t_wchan0 t) (t_sobj_ops t) (t_state t) (t_ts t).
(** The object a thread sleeps on: [t_wchan], [t_wchan0] and [t_sobj_ops]. *)
Definition set_t_chan (c c0 ops : Z) (t : kthread) : kthread :=
  Kthread (t_link t) (t_priforw t) (t_priback t) (t_sleepq t) (t_pri t) (t_epri t) c c0 ops (t_state t) (t_ts t).
Definition set_t_state (v : tstate) (t : kthread) : kthread :=
  Kthread (t_link t) (t_priforw t) (t_priback t) (t_sleepq t) (t_pri t) (t_epri t) (t_wchan t) (t_wchan0 t) (t_sobj_ops t) v (t_ts t).
Definition set_t_ts (v : Z) (t : kthread) : kthread :=
  Kthread (t_link t) (t_priforw t) (t_priback t) (t_sleepq t) (t_pri t) (t_epri t) (t_wchan t) (t_wchan0 t) (t_sobj_ops t) (t_state t) v.

Definition INHERITED (t : kthread) : bool := negb (t_epri t =? 0).
Definition DISP_PRIO (t : kthread) : Z := if INHERITED t then t_epri t else t_pri t.

(** The threads, and [sq_first] of every queue. *)
Record smem := Smem { threads : gmap Z kthread; sqs : gmap sqaddr Z }.

Definition ld (m : smem) (t : Z) : option kthread := threads m !! t.

Definition st (m : smem) (t : Z) (f : kthread → kthread) : option smem :=
  let! k := ld m t in Some (Smem (<[t := f k]> (threads m)) (sqs m)).

(** [kthread_t **]: the address of [sq_first] or of a thread's [t_link]. *)
Inductive tptr := Sfirst (q : sqaddr) | Tlink (t : Z).

Definition ldp (m : smem) (pp : tptr) : option Z :=
  match pp with
  | Sfirst q => sqs m !! q
  | Tlink t => t_link <$> ld m t
  end.

Definition stp (m : smem) (pp : tptr) (v : Z) : option smem :=
  match pp with
  | Sfirst q => let! _ := sqs m !! q in Some (Smem (threads m) (<[q := v]> (sqs m)))
  | Tlink t => st m t (set_t_link v)
  end.

(** No queue is longer than there are threads. *)
Definition sq_fuel (m : smem) : nat := S (S (size (threads m))).

(** ** Operations *)

Definition sleepq_unlink (m : smem) (tpp : tptr) (tp : Z) : option smem :=
  let! t := ld m tp in
  let! m := stp m tpp (t_link t) in
  let! m :=
    (if t_priforw t =? tp then Some m
     else
       let! m := st m (t_priback t) (set_t_priforw (t_priforw t)) in
       st m (t_priforw t) (set_t_priback (t_priback t))) in
  st m tp (λ t, set_t_priback 0 (set_t_priforw 0 (set_t_sleepq None (set_t_link 0 t)))).

(** The loop of [sleepq_insert]: its variables are [tpp], [last_tp] and
    [last_pri]; it leaves with [next_tp] as well. *)
Definition sq_insert_step (m : smem) (tpri : Z) (s : tptr * Z * Z) :
    option (loop (tptr * Z * Z) (tptr * Z * Z * Z)) :=
  let '(tpp, last_tp, last_pri) := s in
  let! next_tp := ldp m tpp in
  if next_tp =? 0 then Some (Return (tpp, next_tp, last_tp, last_pri))
  else
    let! n := ld m next_tp in
    if DISP_PRIO n <? tpri then Some (Return (tpp, next_tp, last_tp, last_pri))
    else Some (Next (Tlink (t_priback n), t_priback n, DISP_PRIO n)).

Definition sleepq_insert (m : smem) (spq : sqaddr) (t : Z) : option smem :=
  let! k := ld m t in
  let tpri := DISP_PRIO k in
  let! (tpp, next_tp, last_tp, last_pri) := run (sq_insert_step m tpri) (sq_fuel m) (Sfirst spq, 0, -1) in
  let! m := stp m tpp t in
  let! m := st m t (set_t_link next_tp) in
  let! m :=
    (if last_pri =? tpri then
       let! l := ld m last_tp in
       let! m := st m t (λ k, set_t_priforw (t_priforw l) (set_t_priback last_tp k)) in
       let! m := st m (t_priforw l) (set_t_priback t) in
       st m last_tp (set_t_priforw t)
     else st m t (λ k, set_t_priback t (set_t_priforw t k))) in
  st m t (set_t_sleepq (Some spq)).

(** The search of [sleepq_dequeue] for the pointer to the head of a ring. *)
Definition dequeue_step (m : smem) (t : Z) (ptl : tptr) : option (loop tptr tptr) :=
  let! nt := ldp m ptl in
  if nt =? t then Some (Return ptl)
  else let! n := ld m nt in Some (Next (Tlink (t_priback n))).

Definition sleepq_dequeue (m : smem) (t : Z) : option smem :=
  let! k := ld m t in
  let! p := ldp m (Tlink (t_priback k)) in
  if p =? t then sleepq_unlink m (Tlink (t_priback k)) t
  else
    let! q := t_sleepq k in
    let! ptl := run (dequeue_step m t) (sq_fuel m) (Sfirst q) in
    sleepq_unlink m ptl t.

(** The thread is left in transition: off the queue, not yet runnable. *)
Definition sleepq_unsleep (m : smem) (t : Z) : option smem :=
  let! m := sleepq_dequeue m t in
  st m t (set_t_chan 0 0 0).

(** [CL_WAKEUP] makes the thread runnable; it is on no sleep queue then. *)
Definition wake (m : smem) (tp : Z) : option smem :=
  st m tp (λ t, set_t_state TS_RUN (set_t_chan 0 (t_wchan0 t) 0 t)).

Definition wakeone_step (m : smem) (chan : Z) (tpp : tptr) : option (loop tptr (smem * Z)) :=
  let! tp := ldp m tpp in
  if tp =? 0 then Some (Return (m, 0))
  else
    let! t := ld m tp in
    if t_wchan t =? chan then
      let! m := sleepq_unlink m tpp tp in
      let! m := wake m tp in
      Some (Return (m, tp))
    else Some (Next (Tlink tp)).

Definition sleepq_wakeone_chan (m : smem) (spq : sqaddr) (chan : Z) : option (smem * Z) :=
  run (wakeone_step m chan) (sq_fuel m) (Sfirst spq).

(** [sleepq_wakeall_chan], with the threads it wakes, in order. *)
Definition wakeall_step (chan : Z) (s : smem * tptr * list Z) : option (loop (smem * tptr * list Z) (smem * list Z)) :=
  let '(m, tpp, woken) := s in
  let! tp := ldp m tpp in
  if tp =? 0 then Some (Return (m, woken))
  else
    let! t := ld m tp in
    if t_wchan t =? chan then
      let! m := sleepq_unlink m tpp tp in
      let! m := wake m tp in
      Some (Next (m, tpp, woken ++ [tp]))
    else Some (Next (m, Tlink tp, woken)).

Definition sleepq_wakeall_chan (m : smem) (spq : sqaddr) (chan : Z) : option (smem * list Z) :=
  run (wakeall_step chan) (sq_fuel m) (m, Sfirst spq, []).

(** [turnstile_change_pri] of os/turnstile.c; [inherited] says whether
    [t_prip] is the address of [t_epri] or of [t_pri]. *)
Definition turnstile_change_pri (m : smem) (t : Z) (pri : Z) (inherited : bool) : option smem :=
  let! k := ld m t in
  let! q := t_sleepq k in
  let! m := sleepq_dequeue m t in
  let! m := st m t (if inherited then set_t_epri pri else set_t_pri pri) in
  sleepq_insert m q t.

(** ** Fields of the memory *)

Definition fld {A} (f : kthread → A) (m : smem) (t : Z) : option A := f <$> ld m t.

(** What a thread is apart from its place on a queue. *)
Record attr := Attr {
  a_pri : Z; a_epri : Z; a_wchan : Z; a_wchan0 : Z; a_ops : Z; a_state : tstate; a_ts : Z
}.

Definition base (k : kthread) : attr :=
  Attr (t_pri k) (t_epri k) (t_wchan k) (t_wchan0 k) (t_sobj_ops k) (t_state k) (t_ts k).

Definition prio (m : smem) (t : Z) : Z := default 0 (fld DISP_PRIO m t).

(** A store that is known to succeed. *)
Definition upd (m : smem) (t : Z) (f : kthread → kthread) : smem := Smem (alter f t (threads m)) (sqs m).

Lemma st_upd m t f : is_Some (ld m t) → st m t f = Some (upd m t f).
Proof.
  intros [k Hk]. unfold st. rewrite Hk. f_equal. unfold upd. f_equal. apply map_eq. intros i.
  unfold ld in Hk. destruct (decide (i = t)) as [->|].
  - by rewrite lookup_insert_eq, lookup_alter_eq, Hk.
  - by rewrite lookup_insert_ne, lookup_alter_ne.
Qed.

Lemma ld_upd m t f y : ld (upd m t f) y = if decide (y = t) then f <$> ld m t else ld m y.
Proof.
  unfold ld, upd. cbn. case_decide as H; [subst; by rewrite lookup_alter_eq|by rewrite lookup_alter_ne].
Qed.

Lemma fld_upd {A} (h : kthread → A) m t f y :
  fld h (upd m t f) y = if decide (y = t) then (λ k, h (f k)) <$> ld m t else fld h m y.
Proof. unfold fld. rewrite ld_upd. case_decide; [|done]. by destruct (ld m t). Qed.

Lemma fld_frame {A} (h : kthread → A) m t f y : (∀ k, h (f k) = h k) → fld h (upd m t f) y = fld h m y.
Proof.
  intros H. rewrite fld_upd. case_decide as E; [subst|done]. unfold fld. destruct (ld m t); [|done]. cbn. by rewrite H.
Qed.

Lemma ld_is_Some m t f y : is_Some (ld (upd m t f) y) ↔ is_Some (ld m y).
Proof. rewrite ld_upd. case_decide; [subst|done]. by rewrite fmap_is_Some. Qed.

Lemma fld_ld {A} (h : kthread → A) m t a : fld h m t = Some a → is_Some (ld m t).
Proof. unfold fld. intros H. by destruct (ld m t). Qed.

Lemma size_upd m t f : sq_fuel (upd m t f) = sq_fuel m.
Proof.
  unfold sq_fuel, upd. cbn. do 2 f_equal. rewrite <- !size_dom. f_equal. apply set_eq. intros y.
  by rewrite !elem_of_dom, lookup_alter_is_Some.
Qed.

(** ** Segments and rings *)

Abbreviation lst g := (List.last g 0).

Fixpoint dseg (B F : Z → option Z) (p : Z) (g : list Z) (n : Z) : Prop :=
  match g with
  | [] => True
  | x :: g' => B x = Some p ∧ F x = Some (hd n g') ∧ dseg B F x g' n
  end.

Definition ring (B F : Z → option Z) (g : list Z) : Prop := dseg B F (lst g) g (hd 0 g).

Section segments.
Implicit Types (L B F : Z → option Z) (g h l : list Z).

Lemma last_app_ne l1 l2 d : l2 ≠ [] → List.last (l1 ++ l2) d = List.last l2 d.
Proof.
  intros H. induction l1 as [|x l1 IH]; [done|]. cbn. rewrite IH. by destruct l1, l2.
Qed.

Lemma last_default l d d' : l ≠ [] → List.last l d = List.last l d'.
Proof. induction l as [|x l IH]; [done|]. intros _. destruct l; [done|]. by apply IH. Qed.

Lemma last_elem l : l ≠ [] → lst l ∈ l.
Proof.
  intros H. destruct (exists_last H) as (l' & x & ->). rewrite List.last_last. set_solver.
Qed.

Lemma hd_elem l n : l ≠ [] → hd n l ∈ l.
Proof. destruct l; [done|]. set_solver. Qed.

Lemma hd_default l n n' : l ≠ [] → hd n l = hd n' l.
Proof. by destruct l. Qed.

Lemma lseg_end L L' l z n n' :
  (∀ x, x ∈ l → L' x = L x) → L' z = Some n' → lseg L (l ++ [z]) n → lseg L' (l ++ [z]) n'.
Proof.
  intros He Hz. rewrite !lseg_app. intros [H1 _]. split; [by apply (lseg_ext L)|]. by cbn.
Qed.

Lemma dseg_app B F p g1 g2 n :
  dseg B F p (g1 ++ g2) n ↔ dseg B F p g1 (hd n g2) ∧ dseg B F (List.last g1 p) g2 n.
Proof.
  revert p. induction g1 as [|x g1 IH]; intros p; [cbn; tauto|]. cbn [dseg app]. rewrite IH, hd_app.
  assert (List.last (x :: g1) p = List.last g1 x) as ->; [|tauto].
  destruct g1; [done|]. by apply (last_default (z :: g1)).
Qed.

Lemma dseg_ext B F B' F' p g n :
  (∀ x, x ∈ g → B' x = B x ∧ F' x = F x) → dseg B F p g n → dseg B' F' p g n.
Proof.
  revert p. induction g as [|x g IH]; intros p; cbn; [done|]. intros He (Hb & Hf & Hg).
  destruct (He x) as [-> ->]; [set_solver|]. split_and!; [done..|]. apply IH; [set_solver|done].
Qed.

(** A ring has no distinguished start. *)
Lemma ring_rot B F g1 g2 : ring B F (g1 ++ g2) → ring B F (g2 ++ g1).
Proof.
  destruct (decide (g1 = [])) as [->|H1]; [by rewrite app_nil_r|].
  destruct (decide (g2 = [])) as [->|H2]; [by rewrite app_nil_r|].
  unfold ring. rewrite !last_app_ne, !hd_app by done. rewrite !dseg_app.
  pose proof (hd_default g1 (hd 0 g2) 0 H1) as E1. pose proof (hd_default g2 (hd 0 g1) 0 H2) as E2.
  pose proof (last_default g1 (lst g2) 0 H1) as E3. pose proof (last_default g2 (lst g1) 0 H2) as E4.
  rewrite ?E1, ?E2, ?E1, ?E2, ?E3, ?E4. tauto.
Qed.

(** Taking the last thread out of a ring, and adding one. *)
Lemma ring_shrink B F B' F' h x :
  h ≠ [] → ring B F (h ++ [x]) →
  (∀ y, y ∈ h → B' y = if decide (y = hd 0 h) then Some (lst h) else B y) →
  (∀ y, y ∈ h → F' y = if decide (y = lst h) then Some (hd 0 h) else F y) →
  NoDup h → B x = Some (lst h) ∧ F x = Some (hd 0 h) ∧ ring B' F' h.
Proof.
  intros Hne Hr HB HF Hnd. unfold ring in Hr. rewrite dseg_app, hd_app, (hd_default h _ 0) in Hr by done.
  destruct Hr as [Hh Hx]. cbn in Hx. destruct Hx as (HBx & HFx & _).
  rewrite (last_default h _ 0) in HBx by done. split_and!; [done..|].
  unfold ring. set (p := lst h) in *. set (n := hd 0 h) in *.
  assert (dseg B' F (lst h) h x) as Hb.
  { destruct h as [|a h]; [done|]. cbn in Hh |- *. destruct Hh as (_ & Hf & Hd). split_and!.
    - rewrite HB by set_solver. by rewrite decide_True.
    - done.
    - revert Hd. apply dseg_ext. intros y Hy. split; [|done]. rewrite HB by set_solver.
      rewrite decide_False; [done|]. intros ->. apply NoDup_cons in Hnd as [Hnd _]. done. }
  clear Hh. destruct (exists_last Hne) as (h' & z & ->). subst p. rewrite List.last_last in *.
  rewrite dseg_app in *. cbn in Hb |- *. destruct Hb as (H1 & H2 & H3 & _).
  apply NoDup_app in Hnd as (_ & Hz & _). split_and!; [|done| |done].
  - revert H1. apply dseg_ext. intros y Hy. split; [done|]. rewrite HF by set_solver.
    rewrite decide_False; [done|]. intros ->. specialize (Hz z Hy). set_solver.
  - rewrite HF by set_solver. by rewrite decide_True.
Qed.

Lemma ring_grow B F B' F' h x :
  h ≠ [] → ring B F h → NoDup (h ++ [x]) →
  (∀ y, y ∈ h → B' y = if decide (y = hd 0 h) then Some x else B y) →
  (∀ y, y ∈ h → F' y = if decide (y = lst h) then Some x else F y) →
  B' x = Some (lst h) → F' x = Some (hd 0 h) → ring B' F' (h ++ [x]).
Proof.
  intros Hne Hr Hnd HB HF HBx HFx. apply NoDup_app in Hnd as (Hnd & Hx & _).
  unfold ring. rewrite List.last_last, hd_app, (hd_default h _ 0) by done. rewrite dseg_app. cbn.
  rewrite (last_default h x 0) by done. split; [|done]. unfold ring in Hr.
  assert (dseg B' F x h (hd 0 h)) as Hb.
  { destruct h as [|a h]; [done|]. cbn in Hr, HB |- *. destruct Hr as (_ & Hf & Hd). split_and!; [|done|].
    - rewrite HB by set_solver. by rewrite decide_True.
    - revert Hd. apply dseg_ext. intros y Hy. split; [|done]. rewrite HB by set_solver.
      rewrite decide_False; [done|]. intros ->. apply NoDup_cons in Hnd as [Hnd _]. done. }
  clear Hr. destruct (exists_last Hne) as (h' & z & ->). rewrite List.last_last in *.
  rewrite dseg_app in *. cbn in Hb |- *. destruct Hb as (H1 & H2 & H3 & _).
  apply NoDup_app in Hnd as (_ & Hz & _). split_and!; [|done| |done].
  - revert H1. apply dseg_ext. intros y Hy. split; [done|]. rewrite HF by set_solver.
    rewrite decide_False; [done|]. intros ->. specialize (Hz z Hy). set_solver.
  - rewrite HF by set_solver. by rewrite decide_True.
Qed.

Lemma ring_ext B F B' F' g : (∀ x, x ∈ g → B' x = B x ∧ F' x = F x) → ring B F g → ring B' F' g.
Proof. apply dseg_ext. Qed.

(** The threads of a ring point to threads of the ring. *)
Lemma ring_closed B F g x : ring B F g → x ∈ g → ∃ b f, B x = Some b ∧ F x = Some f ∧ b ∈ g ∧ f ∈ g.
Proof.
  intros Hr [g1 [g2 ->]]%list_elem_of_split. apply ring_rot in Hr. cbn in Hr. unfold ring in Hr. cbn [dseg] in Hr.
  destruct Hr as (Hb & Hf & _). do 2 eexists. split_and!; [exact Hb|exact Hf|..].
  - assert (lst (x :: g2 ++ g1) ∈ x :: g2 ++ g1) by (apply last_elem; done). set_solver.
  - cbn. destruct (g2 ++ g1) as [|y g] eqn:E; cbn; [set_solver|].
    assert (y ∈ g2 ++ g1) by (rewrite E; set_solver). set_solver.
Qed.
End segments.

(** ** What the pointers represent *)

(** Insertion and removal on lists. *)
Fixpoint sq_ins (pr : Z → Z) (t : Z) (l : list Z) : list Z :=
  match l with
  | [] => [t]
  | x :: l' => if pr x <? pr t then t :: l else x :: sq_ins pr t l'
  end.

Definition sq_del (t : Z) (l : list Z) : list Z := filter (λ x, x ≠ t) l.

(** Priorities do not increase along the list. *)
Abbreviation sq_sorted pr := (StronglySorted (λ x y, pr y <= pr x)).

(** ** Lists in order of priority *)

Lemma sq_ins_elem pri t l u : u ∈ sq_ins pri t l ↔ u = t ∨ u ∈ l.
Proof.
  induction l as [|x l IH]; cbn; [rewrite list_elem_of_singleton, elem_of_nil; tauto|].
  destruct (_ <? _); rewrite !elem_of_cons, ?IH, ?elem_of_cons; tauto.
Qed.

Lemma sq_ins_nodup pri t l : t ∉ l → NoDup l → NoDup (sq_ins pri t l).
Proof.
  intros Ht Hl. induction Hl as [|x l Hx Hl IH]; cbn; [apply NoDup_singleton|]. apply not_elem_of_cons in Ht as [Ht1 Ht2].
  destruct (_ <? _); constructor; [by apply not_elem_of_cons|by constructor| |by apply IH].
  rewrite sq_ins_elem. naive_solver.
Qed.

Lemma sq_ins_sorted (pri : Z → Z) t l : sq_sorted pri l → sq_sorted pri (sq_ins pri t l).
Proof.
  intros Hl. induction Hl as [|x l Hl IH Hall]; cbn; [repeat constructor|].
  destruct (Z.ltb_spec (pri x) (pri t)) as [Hlt|Hle].
  - constructor; [by constructor|]. constructor; [lia|]. rewrite Forall_forall in Hall |- *.
    intros y Hy. specialize (Hall y Hy). lia.
  - constructor; [done|]. apply Forall_forall. intros y [->|Hy]%sq_ins_elem; [done|]. rewrite Forall_forall in Hall. auto.
Qed.

Lemma sq_ins_ext (pri pri' : Z → Z) t l : (∀ u, pri' u = pri u) → sq_ins pri' t l = sq_ins pri t l.
Proof. intros He. induction l as [|x l IH]; cbn; [done|]. by rewrite !He, IH. Qed.

Lemma sq_ins_length pri t l : length (sq_ins pri t l) = S (length l).
Proof. induction l as [|x l IH]; cbn; [done|]. destruct (_ <? _); cbn; by rewrite ?IH. Qed.

Lemma sq_sorted_ext (pri pri' : Z → Z) l : (∀ u, u ∈ l → pri' u = pri u) → sq_sorted pri l → sq_sorted pri' l.
Proof.
  intros He Hl. induction Hl as [|x l Hl IH Hall]; constructor.
  - apply IH. intros u Hu. apply He. by constructor.
  - rewrite Forall_forall in Hall |- *. intros y Hy. rewrite !He by (constructor; done). by apply Hall.
Qed.

Lemma sq_sorted_del (pri : Z → Z) t l : sq_sorted pri l → sq_sorted pri (sq_del t l).
Proof.
  intros Hl. induction Hl as [|x l Hl IH Hall]; [constructor|]. unfold sq_del in *. rewrite filter_cons.
  case_decide; [|done]. constructor; [done|]. rewrite Forall_forall in Hall |- *. intros y [_ Hy]%list_elem_of_filter. by apply Hall.
Qed.

Lemma sq_del_elem t l u : u ∈ sq_del t l ↔ u ≠ t ∧ u ∈ l.
Proof. unfold sq_del. by rewrite list_elem_of_filter. Qed.

Lemma sq_del_id x l : x ∉ l → sq_del x l = l.
Proof.
  induction l as [|y l IH]; [done|]. intros [Hy Hl]%not_elem_of_cons. unfold sq_del in *.
  rewrite filter_cons_True by done. by rewrite IH.
Qed.

Lemma sq_del_at x l1 l2 : NoDup (l1 ++ x :: l2) → sq_del x (l1 ++ x :: l2) = l1 ++ l2.
Proof.
  intros Hnd. rewrite <- Permutation_middle in Hnd. apply NoDup_cons in Hnd as [Hx _].
  rewrite elem_of_app in Hx. unfold sq_del. rewrite filter_app, filter_cons_False by naive_solver.
  f_equal; apply sq_del_id; tauto.
Qed.

Lemma sq_del_length t l : NoDup l → t ∈ l → length (sq_del t l) = (length l - 1)%nat ∧ (0 < length l)%nat.
Proof. intros Hnd [l1 [l2 ->]]%list_elem_of_split. rewrite sq_del_at, !length_app by done. cbn. lia. Qed.

(** Rings of one priority each, in order of priority. *)
Record levels (m : smem) (gs : list (list Z)) : Prop := {
  lev_ne : Forall (λ g, g ≠ []) gs;
  lev_ring : Forall (ring (fld t_priback m) (fld t_priforw m)) gs;
  lev_same : Forall (λ g, ∀ x y, x ∈ g → y ∈ g → prio m x = prio m y) gs;
  lev_desc : StronglySorted (λ g g', ∀ x y, x ∈ g → y ∈ g' → prio m y < prio m x) gs
}.

Record sq_rep (m : smem) (q : sqaddr) (gs : list (list Z)) : Prop := {
  sr_first : sqs m !! q = Some (hd 0 (concat gs));
  sr_link : lseg (fld t_link m) (concat gs) 0;
  sr_levels : levels m gs;
  sr_nodup : NoDup (concat gs);
  sr_on : ∀ t, t ∈ concat gs ↔ fld t_sleepq m t = Some (Some q)
}.

(** All the queues and the threads on them. *)
Record sleepqs (m : smem) (Q : gmap sqaddr (list Z)) : Prop := {
  sq_reps q l : Q !! q = Some l → ∃ gs, l = concat gs ∧ sq_rep m q gs;
  sq_thread t k : ld m t = Some k → t ≠ 0 ∧ 0 <= t_pri k ∧ 0 <= t_epri k;
  sq_queue t q : fld t_sleepq m t = Some (Some q) → is_Some (Q !! q)
}.

Lemma DISP_PRIO_pos k : 0 <= t_pri k ∧ 0 <= t_epri k → 0 <= DISP_PRIO k.
Proof. unfold DISP_PRIO, INHERITED. destruct (t_epri k =? 0); cbn; lia. Qed.

Definition pp_at (q : sqaddr) (l : list Z) : tptr :=
  match l with [] => Sfirst q | _ => Tlink (lst l) end.

Lemma pp_at_snoc q l x : pp_at q (l ++ [x]) = Tlink x.
Proof. unfold pp_at. destruct (l ++ [x]) eqn:E; [by destruct l|]. rewrite <- E. by rewrite List.last_last. Qed.

Lemma ldp_at m q l1 l2 :
  sqs m !! q = Some (hd 0 (l1 ++ l2)) → lseg (fld t_link m) (l1 ++ l2) 0 →
  ldp m (pp_at q l1) = Some (hd 0 l2).
Proof.
  intros Hf Hl. destruct (decide (l1 = [])) as [->|Hne]; [done|].
  destruct (exists_last Hne) as (l & x & ->). rewrite pp_at_snoc. cbn.
  rewrite <- app_assoc, lseg_app in Hl. by destruct Hl as [_ [? _]].
Qed.

(** The store through such a pointer. *)
Definition updp (m : smem) (pp : tptr) (v : Z) : smem :=
  match pp with
  | Sfirst q => Smem (threads m) (<[q := v]> (sqs m))
  | Tlink t => upd m t (set_t_link v)
  end.

Lemma stp_at m q l1 l2 v :
  sqs m !! q = Some (hd 0 (l1 ++ l2)) → lseg (fld t_link m) (l1 ++ l2) 0 →
  stp m (pp_at q l1) v = Some (updp m (pp_at q l1) v).
Proof.
  intros Hf Hl. destruct (decide (l1 = [])) as [->|Hne]; [cbn; by rewrite Hf|].
  destruct (exists_last Hne) as (l & x & ->). rewrite pp_at_snoc. cbn. apply st_upd.
  rewrite <- app_assoc, lseg_app in Hl. destruct Hl as [_ [Hx _]]. by apply fld_ld in Hx.
Qed.

Lemma fld_updp {A} (h : kthread → A) m pp v y : (∀ k, h (set_t_link v k) = h k) → fld h (updp m pp v) y = fld h m y.
Proof. intros H. destruct pp; cbn; [done|by apply fld_frame]. Qed.

Lemma ld_updp_is_Some m pp v y : is_Some (ld (updp m pp v) y) ↔ is_Some (ld m y).
Proof. destruct pp; cbn; [done|apply ld_is_Some]. Qed.

(** The chain after a store through the pointer behind [l1]. *)
Lemma link_updp m q l1 v y :
  fld t_link (updp m (pp_at q l1) v) y =
  if decide (l1 ≠ [] ∧ y = lst l1) then (λ _, v) <$> ld m y else fld t_link m y.
Proof.
  destruct (decide (l1 = [])) as [->|Hne]; [case_decide; naive_solver|].
  destruct (exists_last Hne) as (l & x & ->). rewrite pp_at_snoc, List.last_last. cbn. rewrite fld_upd.
  destruct (decide (y = x)) as [->|]; [rewrite decide_True by done|rewrite decide_False by naive_solver]; done.
Qed.

Lemma sqs_updp m q l1 v q' :
  sqs (updp m (pp_at q l1) v) !! q' = if decide (l1 = [] ∧ q' = q) then Some v else sqs m !! q'.
Proof.
  destruct (decide (l1 = [])) as [->|Hne].
  - cbn. destruct (decide (q' = q)) as [->|]; [rewrite lookup_insert_eq, decide_True by done; done|].
    rewrite lookup_insert_ne by done. rewrite decide_False by naive_solver. done.
  - rewrite decide_False by naive_solver. destruct l1; done.
Qed.

(** The chain stays one when what follows [l1] is replaced. *)
Lemma chain_updp m m' q l1 l2 l2' v :
  sqs m !! q = Some (hd 0 (l1 ++ l2)) → lseg (fld t_link m) (l1 ++ l2) 0 → NoDup (l1 ++ l2') → v = hd 0 l2' →
  sqs m' !! q = sqs (updp m (pp_at q l1) v) !! q →
  (∀ y, y ∈ l1 → fld t_link m' y = fld t_link (updp m (pp_at q l1) v) y) →
  lseg (fld t_link m') l2' 0 →
  sqs m' !! q = Some (hd 0 (l1 ++ l2')) ∧ lseg (fld t_link m') (l1 ++ l2') 0.
Proof.
  intros Hf Hl Hnd -> Hs Hy H2. rewrite sqs_updp in Hs. split.
  - rewrite Hs. destruct (decide (l1 = [])) as [->|]; [by rewrite decide_True|].
    rewrite decide_False by naive_solver. rewrite Hf. by destruct l1.
  - apply lseg_app. split; [|done]. apply lseg_app in Hl as [Hl _].
    destruct (decide (l1 = [])) as [->|Hne]; [done|]. destruct (exists_last Hne) as (l & x & ->).
    apply NoDup_app in Hnd as (Hnd & _ & _). apply NoDup_app in Hnd as (_ & Hx & _).
    apply (lseg_end (fld t_link m) _ _ _ (hd 0 l2)); [| |done].
    + intros y Hyl. rewrite Hy by set_solver. rewrite link_updp, decide_False; [done|].
      rewrite List.last_last. intros [_ ->]. specialize (Hx x Hyl). set_solver.
    + rewrite Hy, link_updp, List.last_last, decide_True by (done || set_solver).
      assert (is_Some (ld m x)) as [k ->]; [|done]. apply lseg_app in Hl as [_ [Hl _]]. by apply fld_ld in Hl.
Qed.

(** ** Effects on one queue *)

(** From [m] to [m'] only queue [q] has changed, and [x] has been put on it
    ([v = Some q]) or taken off ([v = None]). *)
Record touch (m m' : smem) (q : sqaddr) (x : Z) (v : option sqaddr) : Prop := {
  tc_sqs q' : q' ≠ q → sqs m' !! q' = sqs m !! q';
  tc_base y : fld base m' y = fld base m y;
  tc_frame y : y ≠ x → fld t_sleepq m y ≠ Some (Some q) → ld m' y = ld m y;
  tc_x : fld t_sleepq m' x = Some v;
  tc_other y : y ≠ x → fld t_sleepq m' y = fld t_sleepq m y
}.

Lemma base_prio m m' y : fld base m' y = fld base m y → fld DISP_PRIO m' y = fld DISP_PRIO m y.
Proof.
  unfold fld. destruct (ld m' y) as [k'|], (ld m y) as [k|]; cbn; intros H; [|done..].
  destruct k, k'. by injection H as -> -> -> -> -> -> ->.
Qed.

Lemma sq_elem_concat (gs : list (list Z)) y : y ∈ concat gs ↔ ∃ g, g ∈ gs ∧ y ∈ g.
Proof. rewrite list_elem_of_In, in_concat. by setoid_rewrite list_elem_of_In. Qed.

Lemma levels_ext m m' gs :
  (∀ y, y ∈ concat gs → fld t_priback m' y = fld t_priback m y ∧ fld t_priforw m' y = fld t_priforw m y) →
  (∀ y, y ∈ concat gs → prio m' y = prio m y) → levels m gs → levels m' gs.
Proof.
  intros HBF HP [Hne Hr Hs Hd].
  assert (∀ g y, g ∈ gs → y ∈ g → y ∈ concat gs) as Hin by (intros; apply sq_elem_concat; eauto).
  split; [done|..].
  - rewrite Forall_forall in Hr |- *. intros g Hg. apply (ring_ext _ _ _ _ _) with (2 := Hr g Hg). eauto.
  - rewrite Forall_forall in Hs |- *. intros g Hg x y Hx Hy. rewrite !HP by eauto. by apply (Hs g).
  - assert (∀ g y, g ∈ gs → y ∈ g → prio m' y = prio m y) as HP' by eauto.
    clear Hr Hs Hne HBF HP Hin. induction Hd as [|g gs Hd IH Hall]; constructor.
    + apply IH. intros g' y Hg'. apply HP'. set_solver.
    + rewrite Forall_forall in Hall |- *. intros g' Hg' x y Hx Hy.
      rewrite (HP' g x), (HP' g' y) by set_solver. by apply (Hall g').
Qed.

Lemma levels_app m gs1 gs2 :
  levels m (gs1 ++ gs2) ↔
  levels m gs1 ∧ levels m gs2 ∧ ∀ x y, x ∈ concat gs1 → y ∈ concat gs2 → prio m y < prio m x.
Proof.
  setoid_rewrite sq_elem_concat. split.
  - intros [Hne Hr Hs Hd]. rewrite Forall_app in Hne, Hr, Hs. apply StronglySorted_app in Hd.
    split_and!; [constructor; naive_solver..|]. intros x y (g & ? & ?) (g' & ? & ?). by apply Hd with g g'.
  - intros ([] & [] & Hd). split; [by apply Forall_app..|]. apply StronglySorted_app.
    split_and!; [|done..]. intros g g' ?? x y ??. apply Hd; eauto.
Qed.

Lemma levels_one m g :
  levels m [g] ↔ g ≠ [] ∧ ring (fld t_priback m) (fld t_priforw m) g ∧ ∀ x y, x ∈ g → y ∈ g → prio m x = prio m y.
Proof.
  split; [intros [Hne Hr Hs _]; by rewrite !Forall_singleton in *|].
  intros (? & ? & ?). split; [by rewrite Forall_singleton..|]. repeat constructor.
Qed.

Lemma levels_nil m : levels m [].
Proof. split; constructor. Qed.

(** The other queues do not see a change of [q]. *)
Lemma sleepqs_touch m m' Q q x v gs :
  sleepqs m Q → touch m m' q x v → is_Some (Q !! q) → is_Some (ld m x) → (∀ q', v = Some q' → q' = q) →
  (∀ q', fld t_sleepq m x = Some (Some q') → q' = q) →
  sq_rep m' q gs → sleepqs m' (<[q := concat gs]> Q).
Proof.
  intros [Hrep Hth Hqu] [Hsq Hb Hfr Hx Ho] HQ Hldx Hv Hold Hnew. split.
  - intros q' l Hl. destruct (decide (q' = q)) as [->|Hne].
    { rewrite lookup_insert_eq in Hl. simplify_eq. eauto. }
    rewrite lookup_insert_ne in Hl by done. destruct (Hrep q' l Hl) as (gs' & -> & [Hf Hlk Hlv Hnd Hon]).
    exists gs'. split; [done|].
    assert (∀ y, y ∈ concat gs' → ld m' y = ld m y) as Hsame.
    { intros y Hy. apply Hon in Hy. apply Hfr; [|by intros E; rewrite E in Hy; simplify_eq].
      intros ->. by apply Hold in Hy. }
    split; [by rewrite Hsq| | |done|].
    + apply lseg_ext with (2 := Hlk). intros y Hy. unfold fld. by rewrite Hsame.
    + apply levels_ext with (3 := Hlv); intros y Hy; unfold prio, fld; by rewrite Hsame.
    + intros y. destruct (decide (y = x)) as [->|]; [|rewrite Ho by done; apply Hon].
      rewrite Hon. split; intros E; [by apply Hold in E|]. rewrite Hx in E. naive_solver.
  - intros t k Hk. specialize (Hb t). unfold fld in Hb. rewrite Hk in Hb.
    destruct (ld m t) as [k'|] eqn:E; [|done]. injection Hb as -> -> _ _ _ _ _. by apply (Hth t k').
  - intros t q' Ht. destruct (decide (q' = q)) as [->|]; [by rewrite lookup_insert_eq|].
    rewrite lookup_insert_ne by done. destruct (decide (t = x)) as [->|]; [naive_solver|].
    rewrite Ho in Ht by done. eauto.
Qed.

(** A queue without a thread of one of its rings. *)
Definition without (gs1 : list (list Z)) (g : list Z) (gs2 : list (list Z)) : list (list Z) :=
  match g with [] => gs1 ++ gs2 | _ => gs1 ++ g :: gs2 end.

Lemma concat_without gs1 g gs2 : concat (without gs1 g gs2) = concat gs1 ++ g ++ concat gs2.
Proof. unfold without. destruct g; by rewrite concat_app. Qed.

Definition cleared (t : kthread) : kthread :=
  set_t_priback 0 (set_t_priforw 0 (set_t_sleepq None (set_t_link 0 t))).

(** The memory after [sleepq_unlink] of [x] from behind [l1] and, when its
    ring has other threads, from between [b] and [f]. *)
Definition unlinked (m : smem) (q : sqaddr) (l1 : list Z) (n : Z) (bf : option (Z * Z)) (x : Z) : smem :=
  let m1 := updp m (pp_at q l1) n in
  upd (match bf with
       | None => m1
       | Some (b, f) => upd (upd m1 b (set_t_priforw f)) f (set_t_priback b)
       end) x cleared.

Lemma unlinked_touch m q l1 n bf x :
  is_Some (ld m x) → (l1 ≠ [] → fld t_sleepq m (lst l1) = Some (Some q)) →
  (∀ b f, bf = Some (b, f) → fld t_sleepq m b = Some (Some q) ∧ fld t_sleepq m f = Some (Some q)) →
  touch m (unlinked m q l1 n bf x) q x None.
Proof.
  intros Hx Hl Hbf. unfold unlinked. set (m1 := updp m (pp_at q l1) n).
  assert (∀ A (h : kthread → A) y, (∀ k v, h (set_t_link v k) = h k) → fld h m1 y = fld h m y) as Hm1.
  { intros. by apply fld_updp. }
  assert (∀ y, fld t_sleepq m y ≠ Some (Some q) → ld m1 y = ld m y) as Hld1.
  { intros y Hy. subst m1. destruct l1 as [|z l1]; [done|]. cbn [pp_at updp]. rewrite ld_upd.
    case_decide; [subst; naive_solver|done]. }
  split.
  - intros q' Hq. destruct bf as [[b f]|]; cbn; subst m1; rewrite sqs_updp, decide_False; naive_solver.
  - intros y. rewrite fld_frame by done. destruct bf as [[b f]|]; [rewrite !fld_frame by done|]; by apply Hm1.
  - intros y Hy Hq. rewrite ld_upd, decide_False by done. destruct bf as [[b f]|]; [|by apply Hld1].
    destruct (Hbf b f) as [Hb Hf]; [done|]. rewrite !ld_upd, !decide_False by congruence. by apply Hld1.
  - rewrite fld_upd, decide_True by done. assert (is_Some (ld m1 x)) as [k Hk] by (by apply ld_updp_is_Some).
    destruct bf as [[b f]|]; [|by rewrite Hk].
    assert (is_Some (ld (upd (upd m1 b (set_t_priforw f)) f (set_t_priback b)) x)) as [k' ->]; [|done].
    by rewrite !ld_is_Some, Hk.
  - intros y Hy. rewrite fld_upd, decide_False by done.
    destruct bf as [[b f]|]; [rewrite !fld_frame by done|]; by apply Hm1.
Qed.

Lemma concat_at (gs1 gs2 : list (list Z)) g1 x g2 :
  concat (gs1 ++ (g1 ++ x :: g2) :: gs2) = (concat gs1 ++ g1) ++ x :: g2 ++ concat gs2.
Proof. rewrite concat_app. cbn. by rewrite <- !app_assoc. Qed.

(** The neighbours of [x] in its ring, if it is not alone. *)
Definition neighbours (h : list Z) : option (Z * Z) :=
  match h with [] => None | _ => Some (lst h, hd 0 h) end.

Lemma unlink_run m q l1 l2 x k h :
  sqs m !! q = Some (hd 0 (l1 ++ l2)) → lseg (fld t_link m) (l1 ++ l2) 0 → ld m x = Some k → x ∉ h →
  ring (fld t_priback m) (fld t_priforw m) (h ++ [x]) →
  sleepq_unlink m (pp_at q l1) x = Some (unlinked m q l1 (t_link k) (neighbours h) x).
Proof.
  intros Hf Hl Hk Hx Hr. unfold sleepq_unlink, unlinked. rewrite Hk, (stp_at m q l1 l2) by done.
  destruct h as [|a h].
  - unfold ring in Hr. cbn in Hr. unfold fld in Hr. rewrite Hk in Hr. destruct Hr as (_ & E & _). cbn in E.
    injection E as ->. rewrite Z.eqb_refl. cbn [neighbours]. apply st_upd. by rewrite ld_updp_is_Some, Hk.
  - pose proof (ring_closed _ _ _ x Hr ltac:(set_solver)) as (b & f & Hb & Hff & _ & _).
    assert (b = lst (a :: h) ∧ f = a) as [-> ->].
    { unfold ring in Hr. rewrite dseg_app in Hr. destruct Hr as [_ (E1 & E2 & _)]. cbn in E2. rewrite Hb in E1.
      rewrite Hff in E2. simplify_eq. split; [|done]. by apply last_default. }
    assert (∀ y, y ∈ a :: h → is_Some (ld m y)) as Hin.
    { intros y Hy. destruct (ring_closed _ _ _ y Hr ltac:(set_solver)) as (? & ? & E & _). by apply fld_ld in E. }
    unfold fld in Hb, Hff. rewrite Hk in Hb, Hff. cbn -[List.last] in Hb, Hff. injection Hb as ->. injection Hff as ->.
    destruct (Z.eqb_spec a x) as [->|]; [set_solver|]. cbn [neighbours hd].
    rewrite (st_upd _ (lst (a :: h))) by (apply ld_updp_is_Some, Hin, last_elem; done).
    rewrite (st_upd _ a) by (rewrite ld_is_Some, ld_updp_is_Some; apply Hin; set_solver).
    apply st_upd. by rewrite !ld_is_Some, ld_updp_is_Some, Hk.
Qed.

(** Of the threads that stay only the neighbours of [x] change. *)
Lemma unlinked_fld {A} (h : kthread → A) m q l1 n bf x y :
  y ≠ x → (∀ k v, h (set_t_priforw v k) = h k) → (∀ k v, h (set_t_priback v k) = h k) →
  fld h (unlinked m q l1 n bf x) y = fld h (updp m (pp_at q l1) n) y.
Proof.
  intros Hy Hh1 Hh2. unfold unlinked. rewrite fld_upd, decide_False by done.
  destruct bf as [[b f]|]; [rewrite !fld_frame by done|]; done.
Qed.

Lemma unlinked_chain m q l1 x l2 bf k :
  sqs m !! q = Some (hd 0 (l1 ++ x :: l2)) → lseg (fld t_link m) (l1 ++ x :: l2) 0 → ld m x = Some k →
  NoDup (l1 ++ l2) → x ∉ l1 ++ l2 → let m' := unlinked m q l1 (t_link k) bf x in
  sqs m' !! q = Some (hd 0 (l1 ++ l2)) ∧ lseg (fld t_link m') (l1 ++ l2) 0.
Proof.
  intros Hf Hl Hk Hnd Hx m'. apply not_elem_of_app in Hx as [Hx1 Hx2].
  assert (t_link k = hd 0 l2) as Ek.
  { apply lseg_app in Hl as [_ [E _]]. unfold fld in E. rewrite Hk in E. by injection E. }
  apply (chain_updp m m' q l1 (x :: l2) l2 (t_link k)); [done..| | |].
  - unfold m', unlinked. by destruct bf as [[b f]|].
  - intros y Hy. apply unlinked_fld; [congruence|done..].
  - apply lseg_app in Hl as [_ [_ Hl]]. apply lseg_ext with (2 := Hl). intros y Hy.
    unfold m'. rewrite unlinked_fld by (done || congruence). rewrite link_updp, decide_False; [done|]. intros [Hne ->].
    apply NoDup_app in Hnd as (_ & Hd & _). by apply (Hd (lst l1)), Hy; apply last_elem.
Qed.

Lemma unlinked_out m q l1 n h x y :
  y ≠ x → y ∉ h → let m' := unlinked m q l1 n (neighbours h) x in
  fld t_priback m' y = fld t_priback m y ∧ fld t_priforw m' y = fld t_priforw m y.
Proof.
  intros Hy Hh m'. unfold m', unlinked. rewrite !fld_upd, !decide_False by done. unfold neighbours.
  destruct h as [|a h]; [by rewrite !fld_updp|]. apply not_elem_of_cons in Hh as Ha.
  assert (y ≠ lst (a :: h)) by (intros ->; by apply Hh, last_elem).
  cbn [hd]. rewrite !fld_upd, !(decide_False (P := y = _)) by naive_solver. by rewrite !fld_updp.
Qed.

Lemma unlinked_ring m q l1 n h x :
  h ≠ [] → NoDup h → x ∉ h → ring (fld t_priback m) (fld t_priforw m) (h ++ [x]) →
  (∀ y, y ∈ h → is_Some (ld m y)) →
  let m' := unlinked m q l1 n (neighbours h) x in ring (fld t_priback m') (fld t_priforw m') h.
Proof.
  intros Hne Hnd Hx Hr Hld m'.
  apply (ring_shrink (fld t_priback m) (fld t_priforw m) _ _ _ x Hne); [done| | |done];
    intros y Hy; unfold m', unlinked; rewrite fld_upd, decide_False by congruence;
    assert (neighbours h = Some (lst h, hd 0 h)) as -> by (by destruct h).
  - rewrite fld_upd. case_decide as E; [subst y|by rewrite fld_frame, fld_updp].
    destruct (Hld _ Hy) as [k Hk].
    assert (is_Some (ld (upd (updp m (pp_at q l1) n) (lst h) (set_t_priforw (hd 0 h))) (hd 0 h))) as [k' ->]; [|done].
    by rewrite ld_is_Some, ld_updp_is_Some, Hk.
  - rewrite fld_frame, fld_upd by done. case_decide as E; [subst y|by rewrite fld_updp].
    destruct (Hld _ Hy) as [k Hk]. assert (is_Some (ld (updp m (pp_at q l1) n) (lst h))) as [k' ->]; [|done].
    by rewrite ld_updp_is_Some, Hk.
Qed.

(** Levels with one ring replaced by part of it. *)
Lemma levels_without m m' gs1 g g' gs2 :
  levels m (gs1 ++ g :: gs2) → (∀ y, y ∈ g' → y ∈ g) → (∀ y, prio m' y = prio m y) →
  (∀ y, y ∈ concat gs1 ∨ y ∈ concat gs2 → fld t_priback m' y = fld t_priback m y ∧ fld t_priforw m' y = fld t_priforw m y) →
  (g' ≠ [] → ring (fld t_priback m') (fld t_priforw m') g') → levels m' (without gs1 g' gs2).
Proof.
  intros Hlv Hsub Hp Hout Hr. apply levels_app in Hlv as (Hv1 & Hlv & Hv12). apply (levels_app _ [g]) in Hlv as (Hvg & Hv2 & Hvg2). apply levels_one in Hvg as (_ & _ & Hsame).
  cbn in Hv12, Hvg2. rewrite app_nil_r in Hvg2.
  assert (levels m' gs1) as Hv1' by (apply levels_ext with (3 := Hv1); auto).
  assert (levels m' gs2) as Hv2' by (apply levels_ext with (3 := Hv2); auto).
  unfold without. destruct g' as [|a g'].
  { apply levels_app. split_and!; [done..|]. intros y z Hy Hz. rewrite !Hp. apply Hv12; [done|]. apply elem_of_app. auto. }
  apply levels_app. split_and!; [done| |].
  - apply (levels_app _ [a :: g']). split_and!; [|done|].
    + apply levels_one. split_and!; [done|by apply Hr|intros y z Hy Hz; rewrite !Hp; apply Hsame; auto].
    + cbn [concat app]. rewrite app_nil_r. intros y z Hy Hz. rewrite !Hp. apply Hvg2; auto.
  - intros y z Hy Hz. rewrite !Hp. apply Hv12; [done|]. cbn [concat app] in Hz.
    rewrite app_comm_cons, elem_of_app in Hz. apply elem_of_app. destruct Hz; auto.
Qed.

Lemma unlinked_rep m q gs1 g1 x g2 gs2 k :
  sq_rep m q (gs1 ++ (g1 ++ x :: g2) :: gs2) → ld m x = Some k →
  let m' := unlinked m q (concat gs1 ++ g1) (t_link k) (neighbours (g2 ++ g1)) x in
  touch m m' q x None → sq_rep m' q (without gs1 (g1 ++ g2) gs2).
Proof.
  intros [Hf Hl Hlv Hnd Hon] Hk m' Ht.
  assert (∀ y, y ∈ g1 ++ x :: g2 → is_Some (ld m y)) as Hld.
  { intros y Hy. assert (fld t_sleepq m y = Some (Some q)) as E; [|by apply fld_ld in E].
    apply Hon, sq_elem_concat. exists (g1 ++ x :: g2). split; [|done]. apply elem_of_app. right. constructor. }
  rewrite concat_at in *. set (l1 := concat gs1 ++ g1) in *. set (l2 := g2 ++ concat gs2) in *.
  assert ((x ∉ l1 ++ l2) ∧ NoDup (l1 ++ l2)) as [Hx Hnd'].
  { revert Hnd. rewrite <- Permutation_middle. apply NoDup_cons. }
  assert (concat (without gs1 (g1 ++ g2) gs2) = l1 ++ l2) as Econc.
  { rewrite concat_without. unfold l1, l2. by rewrite <- !app_assoc. }
  destruct (unlinked_chain m q l1 x l2 (neighbours (g2 ++ g1)) k Hf Hl Hk Hnd' Hx) as [Hf' Hl'].
  assert ((x ∉ g2 ++ g1) ∧ NoDup (g2 ++ g1) ∧ ∀ y, y ∈ concat gs1 ∨ y ∈ concat gs2 → y ∉ g2 ++ g1) as (Hxg & Hndg & Hdis).
  { unfold l1, l2 in *. rewrite !elem_of_app in Hx. rewrite (Permutation_app_comm g2 g1).
    rewrite <- app_assoc, (app_assoc g1) in Hnd'. apply NoDup_app in Hnd' as (_ & D1 & (N & D2 & _)%NoDup_app).
    split_and!; [rewrite elem_of_app; tauto|done|]. intros y Hy.
    assert (y ∈ g2 ++ g1 ↔ y ∈ g1 ++ g2) as -> by (rewrite !elem_of_app; tauto).
    intros Hy'. destruct Hy as [Hy|Hy]; [apply (D1 y Hy), elem_of_app; by left|by apply (D2 y)]. }
  split; rewrite ?Econc; [done..| |done|].
  - apply (levels_without m m' gs1 (g1 ++ x :: g2)); [done|..].
    + intros y. rewrite !elem_of_app, elem_of_cons. tauto.
    + intros y. unfold prio. by rewrite (base_prio m m') by apply Ht.
    + intros y Hy. apply unlinked_out; [|by apply Hdis]. intros ->. apply Hx. unfold l1, l2. rewrite !elem_of_app. tauto.
    + intros Hne. apply ring_rot. apply unlinked_ring; [|done..| |].
      * intros [-> ->]%app_eq_nil. done.
      * apply levels_app in Hlv as (_ & Hlv & _). apply (levels_app _ [_]), proj1, levels_one in Hlv as (_ & Hr & _).
        apply ring_rot in Hr. by apply (ring_rot _ _ [x]) in Hr.
      * intros y Hy. apply Hld. rewrite elem_of_app in Hy. rewrite elem_of_app, elem_of_cons. tauto.
  - intros y. destruct (decide (y = x)) as [->|Hy].
    + rewrite (tc_x _ _ _ _ _ Ht). split; [done|congruence].
    + rewrite (tc_other _ _ _ _ _ Ht) by done. rewrite <- Hon, !elem_of_app, elem_of_cons. tauto.
Qed.

Lemma sleepq_unlink_ok m q gs1 g1 x g2 gs2 :
  sq_rep m q (gs1 ++ (g1 ++ x :: g2) :: gs2) →
  ∃ m', sleepq_unlink m (pp_at q (concat gs1 ++ g1)) x = Some m' ∧ touch m m' q x None ∧
    sq_rep m' q (without gs1 (g1 ++ g2) gs2).
Proof.
  intros Hrep. pose proof Hrep as [Hf Hl Hlv Hnd Hon].
  assert (∀ y, y ∈ (concat gs1 ++ g1) ++ x :: g2 ++ concat gs2 → fld t_sleepq m y = Some (Some q)) as Hon'.
  { intros y Hy. apply Hon. by rewrite concat_at. }
  assert (is_Some (ld m x)) as [k Hk].
  { eapply fld_ld, Hon', elem_of_app. right. constructor. }
  rewrite concat_at in Hf, Hl, Hnd. apply levels_app in Hlv as (_ & Hlv & _).
  apply (levels_app _ [_]), proj1, levels_one in Hlv as (_ & Hr & _). apply ring_rot in Hr. apply (ring_rot _ _ [x] (g2 ++ g1)) in Hr.
  assert (x ∉ g2 ++ g1) as Hxg.
  { rewrite <- Permutation_middle in Hnd. apply NoDup_cons in Hnd as [Hnd _]. rewrite !elem_of_app in Hnd. rewrite elem_of_app. tauto. }
  eexists. split; [by apply (unlink_run _ _ _ _ _ k (g2 ++ g1) Hf Hl)|].
  assert (touch m (unlinked m q (concat gs1 ++ g1) (t_link k) (neighbours (g2 ++ g1)) x) q x None) as Ht.
  { apply unlinked_touch; [by rewrite Hk| |].
    - intros Hne. apply Hon', elem_of_app. left. by apply last_elem.
    - intros b f E. assert (b ∈ g2 ++ g1 ∧ f ∈ g2 ++ g1) as [Hb Hff].
      { destruct (g2 ++ g1) as [|a h]; [done|]. cbn in E. simplify_eq. split; [by apply (last_elem (f :: h))|constructor]. }
      split; apply Hon'; rewrite elem_of_app in Hb, Hff; rewrite !elem_of_app, elem_of_cons, elem_of_app; tauto. }
  split; [done|]. by apply unlinked_rep.
Qed.

(** ** Walking the heads of the rings *)

Section walk.
Context (m : smem) (q : sqaddr) (gs : list (list Z)) (Hrep : sq_rep m q gs).

Lemma walk_ld x : x ∈ concat gs → ∃ k, ld m x = Some k ∧ t_sleepq k = Some q.
Proof.
  intros E%(sr_on _ _ _ Hrep). unfold fld in E. destruct (ld m x) as [k|]; [|done]. injection E as E. eauto.
Qed.

Lemma walk_fuel : (length gs < sq_fuel m)%nat.
Proof.
  assert (length gs <= length (concat gs))%nat as H1.
  { pose proof (lev_ne _ _ (sr_levels _ _ _ Hrep)) as Hne. clear Hrep.
    induction Hne as [|g gs' Hg _ IH]; cbn; [lia|]. rewrite length_app. destruct g; [done|]. cbn. lia. }
  assert (length (concat gs) <= size (threads m))%nat as H2; [|unfold sq_fuel; lia].
  rewrite <- size_dom, <- (size_list_to_set (C := gset Z) (concat gs)) by apply Hrep.
  apply subseteq_size. intros x Hx%elem_of_list_to_set. apply elem_of_dom. by destruct (walk_ld x Hx) as (k & Hk & _).
Qed.

Lemma walk_ldp l1 l2 : concat gs = l1 ++ l2 → ldp m (pp_at q l1) = Some (hd 0 l2).
Proof. intros E. destruct Hrep as [Hf Hl _ _ _]. rewrite E in Hf, Hl. by apply ldp_at. Qed.

(** From the pointer to the head of a ring to the pointer behind the ring. *)
Lemma walk_head gs1 a g gs2 :
  gs = gs1 ++ (a :: g) :: gs2 →
  ldp m (pp_at q (concat gs1)) = Some a ∧
  ∃ k, ld m a = Some k ∧ t_priback k = lst (a :: g) ∧ Tlink (t_priback k) = pp_at q (concat (gs1 ++ [a :: g])).
Proof.
  intros E. split; [rewrite (walk_ldp (concat gs1) (concat ((a :: g) :: gs2))); [done|by rewrite E, concat_app]|].
  destruct (walk_ld a) as (k & Hk & _).
  { rewrite E, concat_app. apply elem_of_app. right. constructor. }
  exists k. split; [done|]. pose proof (sr_levels _ _ _ Hrep) as Hlv. rewrite E in Hlv.
  apply levels_app in Hlv as (_ & Hlv & _). apply (levels_app _ [_]), proj1, levels_one in Hlv as (_ & [Hb _] & _).
  unfold fld in Hb. rewrite Hk in Hb. apply (inj Some) in Hb. rewrite Hb. split; [done|].
  rewrite concat_app. cbn [concat]. rewrite app_nil_r. destruct (@exists_last _ (a :: g)) as (g' & z & ->); [done|].
  by rewrite List.last_last, app_assoc, pp_at_snoc.
Qed.

Lemma dequeue_search gs1 x g gs2 :
  gs = gs1 ++ (x :: g) :: gs2 → run (dequeue_step m x) (sq_fuel m) (Sfirst q) = Some (pp_at q (concat gs1)).
Proof.
  intros E. pose proof walk_fuel as Hfuel. pose proof (sr_nodup _ _ _ Hrep) as Hnd. rewrite E, concat_app in Hnd.
  destruct (run_total_idx (dequeue_step m x)
    (λ n s, ∃ ga gb, gs1 = ga ++ gb ∧ s = pp_at q (concat ga) ∧ n = length gb) (λ r, r = pp_at q (concat gs1)))
    with (fuel := sq_fuel m) (n := length gs1) (s := Sfirst q) as (r & Hr & ->).
  - intros n s (ga & gb & E1 & -> & ->). unfold dequeue_step. destruct gb as [|g1 gb].
    + rewrite app_nil_r in E1. subst ga. destruct (walk_head gs1 x g gs2 E) as [-> _]. rewrite Z.eqb_refl. by eexists.
    + assert (g1 ≠ []) as Hne.
      { pose proof (lev_ne _ _ (sr_levels _ _ _ Hrep)) as Hall. rewrite E, E1, !Forall_app, Forall_cons in Hall. tauto. }
      destruct g1 as [|a g1]; [done|]. destruct (walk_head ga a g1 (gb ++ (x :: g) :: gs2)) as [-> (k & -> & _ & Hk)].
      { by rewrite E, E1, <- app_assoc. }
      destruct (Z.eqb_spec a x) as [->|_].
      { exfalso. apply NoDup_app in Hnd as (_ & Hd & _). apply (Hd x); [|constructor].
        rewrite E1, concat_app. apply elem_of_app. right. constructor. }
      eexists. split; [done|]. exists (length gb). split; [cbn; lia|]. exists (ga ++ [a :: g1]), gb.
      rewrite <- app_assoc. done.
  - exists [], gs1. done.
  - rewrite E, length_app in Hfuel. cbn in Hfuel. lia.
  - exact Hr.
Qed.

(** The search of [sleepq_insert] passes the rings of the same or a higher
    priority: it is behind [gs1], with [gs2] to go. *)
Definition ins_last (gs1 : list (list Z)) : Z := if decide (gs1 = []) then -1 else prio m (lst (concat gs1)).

Definition ins_inv (tpri : Z) (n : nat) (s : tptr * Z * Z) : Prop :=
  ∃ gs1 gs2, gs = gs1 ++ gs2 ∧ n = length gs2 ∧ s = (pp_at q (concat gs1), lst (concat gs1), ins_last gs1) ∧
    ∀ x, x ∈ concat gs1 → tpri <= prio m x.

Definition ins_found (tpri : Z) (r : tptr * Z * Z * Z) : Prop :=
  ∃ gs1 gs2, gs = gs1 ++ gs2 ∧ r = (pp_at q (concat gs1), hd 0 (concat gs2), lst (concat gs1), ins_last gs1) ∧
    (∀ x, x ∈ concat gs1 → tpri <= prio m x) ∧ (∀ x, x ∈ concat gs2 → prio m x < tpri).

(** One ring further. *)
Lemma ins_advance tpri gs1 a g gs2 k :
  gs = gs1 ++ (a :: g) :: gs2 → ld m a = Some k → t_priback k = lst (a :: g) →
  (∀ x, x ∈ concat gs1 → tpri <= prio m x) → (∀ x y, x ∈ a :: g → y ∈ a :: g → prio m x = prio m y) → tpri <= prio m a →
  ins_inv tpri (length gs2) (pp_at q (concat (gs1 ++ [a :: g])), t_priback k, prio m a).
Proof.
  intros E Hk Hb Hge Hsame Hle. exists (gs1 ++ [a :: g]), gs2.
  assert (lst (concat (gs1 ++ [a :: g])) = lst (a :: g)) as El.
  { rewrite concat_app. cbn [concat]. rewrite app_nil_r. by apply last_app_ne. }
  assert (lst (a :: g) ∈ a :: g) as Hl by (by apply last_elem).
  split_and!; [by rewrite <- app_assoc|done| |].
  - unfold ins_last. rewrite decide_False by (by destruct gs1). rewrite El, Hb.
    by rewrite (Hsame a (lst (a :: g)) ltac:(constructor) Hl).
  - intros x. rewrite concat_app. cbn [concat]. rewrite app_nil_r. intros [Hx|Hx]%elem_of_app; [by apply Hge|].
    rewrite (Hsame x a) by (done || constructor). done.
Qed.

Lemma ins_step_ok tpri n s :
  (∀ x, x ∈ concat gs → x ≠ 0 ∧ 0 <= prio m x) → ins_inv tpri n s →
  ∃ l, sq_insert_step m tpri s = Some l ∧
    match l with Next s' => ∃ n', (n' < n)%nat ∧ ins_inv tpri n' s' | Return r => ins_found tpri r end.
Proof.
  intros Hpos (gs1 & gs2 & E & -> & -> & Hge). unfold sq_insert_step.
  rewrite (walk_ldp (concat gs1) (concat gs2)) by (by rewrite E, concat_app).
  pose proof (sr_levels _ _ _ Hrep) as Hlv. rewrite E in Hlv. apply levels_app in Hlv as (_ & Hlv & _).
  destruct gs2 as [|g gs2].
  { eexists. split; [done|]. exists gs1, []. split_and!; [done..|]. cbn. by intros x ?%elem_of_nil. }
  destruct g as [|a g]; [by destruct (Forall_cons_1 _ _ _ (lev_ne _ _ Hlv))|].
  destruct (walk_head gs1 a g gs2 E) as (_ & k & Hk & Hb & Hpp). cbn [concat app hd].
  assert (a ∈ concat gs) as Ha by (rewrite E, concat_app; apply elem_of_app; right; constructor).
  destruct (Z.eqb_spec a 0) as [->|_]; [by destruct (Hpos 0 Ha)|].
  rewrite Hk. assert (DISP_PRIO k = prio m a) as -> by (unfold prio, fld; by rewrite Hk).
  apply (levels_app _ [a :: g]) in Hlv as (Hg & _ & Hlow). apply levels_one in Hg as (_ & _ & Hsame).
  cbn [concat] in Hlow. rewrite app_nil_r in Hlow.
  destruct (Z.ltb_spec (prio m a) tpri) as [Hlt|Hle].
  - eexists. split; [done|]. exists gs1, ((a :: g) :: gs2). split_and!; [done..|]. cbn [concat].
    intros x [Hx|Hx]%elem_of_app; [by rewrite (Hsame x a) by (done || constructor)|].
    specialize (Hlow a x ltac:(constructor) Hx). lia.
  - eexists. split; [done|]. exists (length gs2). split; [cbn; lia|]. rewrite Hpp. by apply ins_advance.
Qed.

Lemma insert_search tpri :
  0 <= tpri → (∀ x, x ∈ concat gs → x ≠ 0 ∧ 0 <= prio m x) →
  ∃ gs1 gs2 last_pri, gs = gs1 ++ gs2 ∧
    run (sq_insert_step m tpri) (sq_fuel m) (Sfirst q, 0, -1) =
      Some (pp_at q (concat gs1), hd 0 (concat gs2), lst (concat gs1), last_pri) ∧
    (∀ x, x ∈ concat gs1 → tpri <= prio m x) ∧ (∀ x, x ∈ concat gs2 → prio m x < tpri) ∧
    last_pri = (if decide (gs1 = []) then -1 else prio m (lst (concat gs1))).
Proof.
  intros Htp Hpos.
  destruct (run_total_idx (sq_insert_step m tpri) (ins_inv tpri) (ins_found tpri))
    with (fuel := sq_fuel m) (n := length gs) (s := (Sfirst q, 0, -1)) as (r & Hr & gs1 & gs2 & E & -> & H1 & H2).
  - intros n s. by apply ins_step_ok.
  - exists [], gs. split_and!; [done..|]. cbn. by intros x ?%elem_of_nil.
  - apply walk_fuel.
  - by exists gs1, gs2, (ins_last gs1).
Qed.
End walk.

(** ** Removal *)

Lemma sleepq_dequeue_ok m q gs x :
  sq_rep m q gs → x ∈ concat gs → x ≠ 0 →
  ∃ m' gs', sleepq_dequeue m x = Some m' ∧ touch m m' q x None ∧ sq_rep m' q gs' ∧ concat gs' = sq_del x (concat gs).
Proof.
  intros Hrep Hx Hx0. pose proof (walk_ld _ _ _ Hrep x Hx) as (k & Hk & Hq).
  apply sq_elem_concat in Hx as (g & [gs1 [gs2 E]]%list_elem_of_split & [g1 [g2 ->]]%list_elem_of_split). subst gs.
  destruct (sleepq_unlink_ok m q gs1 g1 x g2 gs2 Hrep) as (m' & Hun & Ht & Hrep').
  exists m', (without gs1 (g1 ++ g2) gs2). split_and!; [|done..|].
  2:{ rewrite concat_without, concat_at, sq_del_at, <- !app_assoc; [done|]. rewrite <- concat_at. apply Hrep. }
  unfold sleepq_dequeue. rewrite Hk.
  pose proof (sr_levels _ _ _ Hrep) as Hlv. apply levels_app in Hlv as (_ & Hlv & _).
  apply (levels_app _ [_]), proj1, levels_one in Hlv as (_ & Hr & _).
  destruct (decide (g1 = [])) as [->|Hne].
  - cbn [app] in *. destruct (walk_head _ _ _ Hrep gs1 x g2 gs2 eq_refl) as (_ & k' & Hk' & Hb & Hpp).
    assert (k' = k) as -> by congruence. rewrite Hpp.
    rewrite (walk_ldp _ _ _ Hrep _ (concat gs2)) by (by rewrite !concat_app, <- app_assoc; cbn; rewrite app_nil_r).
    destruct (Z.eqb_spec (hd 0 (concat gs2)) x) as [E|_].
    { exfalso. destruct (decide (concat gs2 = [])) as [E'|E']; [by rewrite E' in E|].
      pose proof (hd_elem _ 0 E') as Hin. rewrite E in Hin. pose proof (sr_nodup _ _ _ Hrep) as Hnd.
      rewrite concat_app in Hnd. apply NoDup_app in Hnd as (_ & _ & Hnd). cbn in Hnd. apply NoDup_cons in Hnd as [Hnd _].
      apply Hnd, elem_of_app. by right. }
    rewrite Hq, (dequeue_search _ _ _ Hrep gs1 x g2 gs2 eq_refl). by rewrite app_nil_r in Hun.
  - unfold ring in Hr. rewrite dseg_app in Hr. destruct Hr as (_ & Hb & _). unfold fld in Hb. rewrite Hk in Hb.
    apply (inj Some) in Hb. rewrite (last_default g1 _ 0) in Hb by done. destruct (exists_last Hne) as (g1' & z & ->).
    rewrite List.last_last in Hb. rewrite Hb, app_assoc, pp_at_snoc in *.
    pose proof (walk_ldp _ _ _ Hrep (concat gs1 ++ g1' ++ [z]) (x :: g2 ++ concat gs2) (concat_at _ _ _ _ _)) as Hp.
    rewrite app_assoc, pp_at_snoc in Hp. rewrite Hp. cbn [hd]. by rewrite Z.eqb_refl.
Qed.

(** ** Insertion *)

Lemma sq_ins_at pr t l1 l2 :
  (∀ x, x ∈ l1 → pr t <= pr x) → (∀ x, x ∈ l2 → pr x < pr t) → sq_ins pr t (l1 ++ l2) = l1 ++ t :: l2.
Proof.
  intros H1 H2. induction l1 as [|x l1 IH]; cbn.
  - destruct l2 as [|y l2]; [done|]. cbn. destruct (Z.ltb_spec (pr y) (pr t)); [done|].
    specialize (H2 y ltac:(constructor)). lia.
  - destruct (Z.ltb_spec (pr x) (pr t)); [specialize (H1 x ltac:(constructor)); lia|]. f_equal. apply IH.
    intros y Hy. apply H1. by constructor.
Qed.

(** The memory after [sleepq_insert] of [t] behind [l1] and, when there are
    threads of its priority, between the last of them and the first. *)
Definition inserted (m : smem) (q : sqaddr) (l1 : list Z) (n : Z) (bf : option (Z * Z)) (t : Z) : smem :=
  let m2 := upd (updp m (pp_at q l1) t) t (set_t_link n) in
  upd (match bf with
       | None => upd m2 t (λ k, set_t_priback t (set_t_priforw t k))
       | Some (b, f) =>
           upd (upd (upd m2 t (λ k, set_t_priforw f (set_t_priback b k))) f (set_t_priback t)) b (set_t_priforw t)
       end) t (set_t_sleepq (Some q)).

Lemma inserted_is_Some m q l1 n bf t y : is_Some (ld (inserted m q l1 n bf t) y) ↔ is_Some (ld m y).
Proof.
  unfold inserted. rewrite ld_is_Some. destruct bf as [[b f]|]; by rewrite !ld_is_Some, ld_updp_is_Some.
Qed.

Lemma inserted_touch m q l1 n bf t :
  is_Some (ld m t) → (l1 ≠ [] → fld t_sleepq m (lst l1) = Some (Some q)) →
  (∀ b f, bf = Some (b, f) → fld t_sleepq m b = Some (Some q) ∧ fld t_sleepq m f = Some (Some q)) →
  touch m (inserted m q l1 n bf t) q t (Some q).
Proof.
  intros Ht Hl Hbf.
  assert (∀ A (h : kthread → A) y, (∀ k v, h (set_t_link v k) = h k) → fld h (updp m (pp_at q l1) t) y = fld h m y) as Hm1.
  { intros. by apply fld_updp. }
  assert (∀ y, fld t_sleepq m y ≠ Some (Some q) → ld (updp m (pp_at q l1) t) y = ld m y) as Hld1.
  { intros y Hy. destruct l1 as [|z l1]; [done|]. cbn [pp_at updp]. rewrite ld_upd.
    case_decide; [subst; naive_solver|done]. }
  split.
  - intros q' Hq. unfold inserted. destruct bf as [[b f]|]; cbn; rewrite sqs_updp, decide_False; naive_solver.
  - intros y. unfold inserted. rewrite fld_frame by done.
    destruct bf as [[b f]|]; rewrite !fld_frame by done; by apply Hm1.
  - intros y Hy Hq. unfold inserted. rewrite ld_upd, decide_False by done. destruct bf as [[b f]|].
    + destruct (Hbf b f) as [Hb Hf]; [done|]. rewrite !ld_upd, !decide_False by congruence. by apply Hld1.
    + rewrite !ld_upd, !decide_False by done. by apply Hld1.
  - unfold inserted. rewrite fld_upd, decide_True by done.
    assert (is_Some (ld (inserted m q l1 n bf t) t)) as Hk by (by apply inserted_is_Some).
    unfold inserted in Hk. rewrite ld_is_Some in Hk. by destruct Hk as [k ->].
  - intros y Hy. unfold inserted. rewrite fld_upd, decide_False by done.
    destruct bf as [[b f]|]; rewrite !fld_frame by done; by apply Hm1.
Qed.

Lemma inserted_link m q l1 n bf t y :
  fld t_link (inserted m q l1 n bf t) y =
  if decide (y = t) then (λ _, n) <$> ld m y else fld t_link (updp m (pp_at q l1) t) y.
Proof.
  assert (fld t_link (inserted m q l1 n bf t) y = fld t_link (upd (updp m (pp_at q l1) t) t (set_t_link n)) y) as ->.
  { unfold inserted. set (m2 := upd _ t (set_t_link n)). rewrite fld_frame by done.
    destruct bf as [[b f]|]; by rewrite !fld_frame. }
  rewrite fld_upd. case_decide as E; [subst|done]. cbn.
  pose proof (ld_updp_is_Some m (pp_at q l1) t t) as Hs. destruct (ld m t) as [k|].
  - by destruct (proj2 Hs ltac:(done)) as [k' ->].
  - destruct (ld (updp m (pp_at q l1) t) t) as [k'|]; [by destruct (proj1 Hs ltac:(done))|done].
Qed.

Lemma inserted_chain m q l1 l2 bf t :
  sqs m !! q = Some (hd 0 (l1 ++ l2)) → lseg (fld t_link m) (l1 ++ l2) 0 → is_Some (ld m t) →
  NoDup (l1 ++ t :: l2) → let m' := inserted m q l1 (hd 0 l2) bf t in
  sqs m' !! q = Some (hd 0 (l1 ++ t :: l2)) ∧ lseg (fld t_link m') (l1 ++ t :: l2) 0.
Proof.
  intros Hf Hl [k Hk] Hnd m'. pose proof Hnd as Hnd'. rewrite <- Permutation_middle in Hnd'.
  apply NoDup_cons in Hnd' as [Ht Hnd']. apply not_elem_of_app in Ht as [Ht1 Ht2].
  apply (chain_updp m m' q l1 l2 (t :: l2) t); [done..| | |].
  - unfold m', inserted. by destruct bf as [[b f]|].
  - intros y Hy. unfold m'. rewrite inserted_link, decide_False by congruence. done.
  - cbn. unfold m'. rewrite inserted_link, decide_True, Hk by done. split; [done|].
    apply lseg_app in Hl as [_ Hl]. apply lseg_ext with (2 := Hl). intros y Hy.
    rewrite inserted_link, decide_False by congruence. rewrite link_updp, decide_False; [done|]. intros [Hne ->].
    apply NoDup_app in Hnd' as (_ & Hd & _). by apply (Hd (lst l1)), Hy; apply last_elem.
Qed.

(** The rings that the thread does not join. *)
Lemma inserted_out m q l1 n bf t y :
  y ≠ t → (∀ b f, bf = Some (b, f) → y ≠ b ∧ y ≠ f) → let m' := inserted m q l1 n bf t in
  fld t_priback m' y = fld t_priback m y ∧ fld t_priforw m' y = fld t_priforw m y.
Proof.
  intros Hy Hbf m'. unfold m', inserted. rewrite !fld_upd, !decide_False by done. destruct bf as [[b f]|].
  - destruct (Hbf b f) as [??]; [done|]. rewrite !fld_upd, !(decide_False (P := y = _)) by done. by rewrite !fld_updp.
  - rewrite !fld_upd, !(decide_False (P := y = _)) by done. by rewrite !fld_updp.
Qed.

(** A ring of its own, or a larger one. *)
Lemma inserted_alone m q l1 n t :
  is_Some (ld m t) → let m' := inserted m q l1 n None t in ring (fld t_priback m') (fld t_priforw m') [t].
Proof.
  intros Ht m'. unfold m', inserted, ring. cbn. rewrite !(fld_frame _ _ _ (set_t_sleepq (Some q))) by done.
  rewrite !fld_upd, !decide_True by done.
  assert (is_Some (ld (upd (updp m (pp_at q l1) t) t (set_t_link n)) t)) as [k ->]; [|done].
  by rewrite ld_is_Some, ld_updp_is_Some.
Qed.

Lemma inserted_ring m q l1 n h t :
  h ≠ [] → NoDup (h ++ [t]) → ring (fld t_priback m) (fld t_priforw m) h → is_Some (ld m t) →
  let m' := inserted m q l1 n (Some (lst h, hd 0 h)) t in ring (fld t_priback m') (fld t_priforw m') (h ++ [t]).
Proof.
  intros Hne Hnd Hr Ht m'. pose proof (last_elem h Hne) as Hl. pose proof (hd_elem h 0 Hne) as Hh.
  apply NoDup_app in Hnd as Hnd'. destruct Hnd' as (_ & Hd & _).
  assert (∀ y, y ∈ h → y ≠ t) as Hyt by (intros y Hy ->; apply (Hd t Hy); constructor).
  assert (∀ y, y ∈ h → is_Some (ld m y)) as Hld.
  { intros y Hy. destruct (ring_closed _ _ _ y Hr Hy) as (? & ? & E & _). by apply fld_ld in E. }
  set (m2 := upd (updp m (pp_at q l1) t) t (set_t_link n)).
  assert (∀ f y, is_Some (ld m y) → is_Some (ld (upd m2 t f) y)) as Hs.
  { intros. unfold m2. by rewrite !ld_is_Some, ld_updp_is_Some. }
  apply (ring_grow (fld t_priback m) (fld t_priforw m)); [done..| | | |];
    [intros y Hy; specialize (Hyt y Hy)|intros y Hy; specialize (Hyt y Hy)|..]; unfold m', inserted; fold m2;
    rewrite fld_frame by done.
  - rewrite fld_frame, fld_upd by done. case_decide as E.
    + subst y. by destruct (Hs (λ k, set_t_priforw (hd 0 h) (set_t_priback (lst h) k)) _ (Hld _ Hy)) as [? ->].
    + rewrite fld_upd, decide_False by done. unfold m2. by rewrite fld_frame, fld_updp.
  - rewrite fld_upd. case_decide as E.
    + subst y. destruct (Hs (λ k, set_t_priforw (hd 0 h) (set_t_priback (lst h) k)) _ (Hld _ Hy)) as [k Hk].
      rewrite ld_upd. case_decide as E; [rewrite <- E in Hk |- *|]; by rewrite Hk.
    + rewrite fld_frame, fld_upd, decide_False by done. unfold m2. by rewrite fld_frame, fld_updp.
  - rewrite fld_frame, fld_upd, decide_False, fld_upd, decide_True by (done || by apply not_eq_sym, Hyt).
    destruct (ld_is_Some (updp m (pp_at q l1) t) t (set_t_link n) t) as [_ [k Hk]]; [by apply ld_updp_is_Some|].
    fold m2 in Hk. by rewrite Hk.
  - rewrite fld_upd, decide_False, fld_frame, fld_upd, decide_True by (done || by apply not_eq_sym, Hyt).
    destruct (ld_is_Some (updp m (pp_at q l1) t) t (set_t_link n) t) as [_ [k Hk]]; [by apply ld_updp_is_Some|].
    fold m2 in Hk. by rewrite Hk.
Qed.

Lemma inserted_rep m q gs1 gs2 bf t gs' :
  sq_rep m q (gs1 ++ gs2) → is_Some (ld m t) → t ∉ concat (gs1 ++ gs2) →
  let m' := inserted m q (concat gs1) (hd 0 (concat gs2)) bf t in
  touch m m' q t (Some q) → concat gs' = concat gs1 ++ t :: concat gs2 → levels m' gs' → sq_rep m' q gs'.
Proof.
  intros [Hf Hl _ Hnd Hon] Ht Hnt m' Htc E Hlv. rewrite concat_app in *.
  assert (NoDup (concat gs1 ++ t :: concat gs2)) as Hnd' by (rewrite <- Permutation_middle; by constructor).
  destruct (inserted_chain m q _ _ bf t Hf Hl Ht Hnd') as [Hf' Hl'].
  split; rewrite ?E; [done..|]. intros y. destruct (decide (y = t)) as [->|Hy].
  - rewrite (tc_x _ _ _ _ _ Htc). split; [done|]. intros _. apply elem_of_app. right. constructor.
  - rewrite (tc_other _ _ _ _ _ Htc) by done. rewrite <- Hon, !elem_of_app, elem_of_cons. tauto.
Qed.

(** Levels around a ring. *)
Lemma levels_mid m gs1 g gs2 :
  levels m gs1 → levels m gs2 → levels m [g] →
  (∀ x y, x ∈ concat gs1 → y ∈ concat gs2 → prio m y < prio m x) →
  (∀ x y, x ∈ concat gs1 → y ∈ g → prio m y < prio m x) →
  (∀ x y, x ∈ g → y ∈ concat gs2 → prio m y < prio m x) → levels m (gs1 ++ g :: gs2).
Proof.
  intros H1 H2 Hg H12 H1g Hg2. apply levels_app. split_and!; [done| |].
  - apply (levels_app _ [g]). split_and!; [done..|]. cbn. by rewrite app_nil_r.
  - cbn. intros x y Hx [Hy|Hy]%elem_of_app; eauto.
Qed.

(** A new ring between the levels, when none has the priority of [t]. *)
Lemma inserted_new m q gs1 gs2 t :
  sq_rep m q (gs1 ++ gs2) → is_Some (ld m t) → t ∉ concat (gs1 ++ gs2) →
  (∀ x, x ∈ concat gs1 → prio m t < prio m x) → (∀ x, x ∈ concat gs2 → prio m x < prio m t) →
  let m' := inserted m q (concat gs1) (hd 0 (concat gs2)) None t in
  (∀ y, prio m' y = prio m y) → levels m' (gs1 ++ [t] :: gs2).
Proof.
  intros Hrep Ht Hnt H1 H2 m' Hp. pose proof (sr_levels _ _ _ Hrep) as Hlv.
  apply levels_app in Hlv as (Hv1 & Hv2 & Hv12). rewrite concat_app, not_elem_of_app in Hnt. destruct Hnt as [Hn1 Hn2].
  apply levels_mid.
  - apply levels_ext with (3 := Hv1); [|done]. intros y Hy. apply inserted_out; [congruence|done].
  - apply levels_ext with (3 := Hv2); [|done]. intros y Hy. apply inserted_out; [congruence|done].
  - apply levels_one. split_and!; [done|by apply inserted_alone|]. by intros x y ->%list_elem_of_singleton ->%list_elem_of_singleton.
  - intros x y Hx Hy. rewrite !Hp. auto.
  - intros x y Hx ->%list_elem_of_singleton. rewrite !Hp. auto.
  - intros x y ->%list_elem_of_singleton Hy. rewrite !Hp. auto.
Qed.

(** The ring of the same priority, with [t] at its end. *)
Lemma inserted_join m q gs1 h gs2 t :
  sq_rep m q ((gs1 ++ [h]) ++ gs2) → is_Some (ld m t) → t ∉ concat ((gs1 ++ [h]) ++ gs2) → h ≠ [] →
  (∀ x, x ∈ h → prio m x = prio m t) →
  let m' := inserted m q (concat (gs1 ++ [h])) (hd 0 (concat gs2)) (Some (lst h, hd 0 h)) t in
  (∀ y, prio m' y = prio m y) → levels m' (gs1 ++ (h ++ [t]) :: gs2).
Proof.
  intros Hrep Ht Hnt Hne Hsame m' Hp. pose proof (sr_levels _ _ _ Hrep) as Hlv. rewrite <- app_assoc in Hlv.
  pose proof (sr_nodup _ _ _ Hrep) as Hnd. rewrite <- app_assoc in Hnt, Hnd. cbn [app] in Hnt, Hnd. rewrite concat_app in Hnd, Hnt.
  apply levels_app in Hlv as (Hv1 & Hlv & Hv12). apply (levels_app _ [h]) in Hlv as (Hvh & Hv2 & Hvh2).
  cbn in Hv12, Hvh2, Hnd, Hnt. rewrite app_nil_r in Hvh2. apply levels_one in Hvh as (_ & Hr & _).
  apply NoDup_app in Hnd as (_ & D1 & (Nh & D2 & _)%NoDup_app). rewrite !not_elem_of_app in Hnt. destruct Hnt as (Hn1 & Hnh & Hn2).
  pose proof (last_elem h Hne) as Hl. pose proof (hd_elem h 0 Hne) as Hh.
  assert (∀ y, y ∈ concat gs1 → y ∉ h) as D1' by (intros y Hy Hy'; apply (D1 y Hy), elem_of_app; by left).
  assert (∀ y, y ∈ h ++ [t] → prio m y = prio m t) as Hpt.
  { intros y [Hy| ->%list_elem_of_singleton]%elem_of_app; auto. }
  apply levels_mid.
  - apply levels_ext with (3 := Hv1); [|done]. intros y Hy. apply inserted_out; [congruence|].
    intros b f ?. simplify_eq. split; intros ->; by apply (D1' _ Hy).
  - apply levels_ext with (3 := Hv2); [|done]. intros y Hy. apply inserted_out; [congruence|].
    intros b f ?. simplify_eq. split; intros ->; [by apply (D2 _ Hl)|by apply (D2 _ Hh)].
  - apply levels_one. split_and!; [by destruct h|apply inserted_ring; [done| |done..]|].
    + apply NoDup_app. split_and!; [done| |apply NoDup_singleton]. intros y Hy ->%list_elem_of_singleton. done.
    + intros x y Hx Hy. rewrite !Hp. by rewrite (Hpt x), (Hpt y).
  - intros x y Hx Hy. rewrite !Hp. apply Hv12; [done|]. apply elem_of_app. by right.
  - intros x y Hx Hy. rewrite !Hp, (Hpt y), <- (Hsame (hd 0 h)) by done. apply Hv12; [done|]. apply elem_of_app. by left.
  - intros x y Hx Hy. rewrite !Hp, (Hpt x), <- (Hsame (hd 0 h)) by done. auto.
Qed.

(** The stores of [sleepq_insert] after the search. *)
Lemma insert_run m q l1 l2 t k last_pri bf :
  sqs m !! q = Some (hd 0 (l1 ++ l2)) → lseg (fld t_link m) (l1 ++ l2) 0 → ld m t = Some k → t ∉ l1 ++ l2 →
  run (sq_insert_step m (DISP_PRIO k)) (sq_fuel m) (Sfirst q, 0, -1) = Some (pp_at q l1, hd 0 l2, lst l1, last_pri) →
  (if last_pri =? DISP_PRIO k then
     ∃ f, bf = Some (lst l1, f) ∧ fld t_priforw m (lst l1) = Some f ∧ is_Some (ld m f) ∧ lst l1 ≠ t
   else bf = None) →
  sleepq_insert m q t = Some (inserted m q l1 (hd 0 l2) bf t).
Proof.
  intros Hf Hl Hk Ht Hrun Hbf. unfold sleepq_insert, inserted. rewrite Hk, Hrun, (stp_at m q l1 l2) by done.
  rewrite st_upd by (by rewrite ld_updp_is_Some, Hk). set (m2 := upd _ t (set_t_link _)).
  assert (∀ y, is_Some (ld m2 y) ↔ is_Some (ld m y)) as Hs by (intros; unfold m2; by rewrite ld_is_Some, ld_updp_is_Some).
  destruct (last_pri =? DISP_PRIO k).
  - destruct Hbf as (f & -> & Hfw & Hfs & Hne).
    assert (fld t_priforw m2 (lst l1) = Some f) as Hfw2 by (unfold m2; by rewrite fld_frame, fld_updp).
    unfold fld in Hfw2. destruct (ld m2 (lst l1)) as [kl|] eqn:Ekl; [|done]. apply (inj Some) in Hfw2. rewrite Hfw2.
    rewrite st_upd by (by rewrite Hs, Hk). rewrite st_upd by (by rewrite !ld_is_Some, Hs).
    rewrite st_upd by (rewrite !ld_is_Some, Hs; by apply fld_ld in Hfw). apply st_upd. by rewrite !ld_is_Some, Hs, Hk.
  - subst bf. rewrite st_upd by (by rewrite Hs, Hk). apply st_upd. by rewrite !ld_is_Some, Hs, Hk.
Qed.

Lemma levels_last m gs x : levels m gs → x ∈ concat gs → prio m (lst (concat gs)) <= prio m x.
Proof.
  intros Hlv Hx. destruct (decide (gs = [])) as [->|Hne]; [by apply elem_of_nil in Hx|].
  destruct (exists_last Hne) as (gs0 & h & ->). apply levels_app in Hlv as (_ & Hvh & Hlow).
  apply levels_one in Hvh as (Hh & _ & Hsame). cbn in Hlow. rewrite concat_app in *. cbn in *. rewrite app_nil_r in *.
  rewrite last_app_ne by done. pose proof (last_elem h Hh) as Hl.
  apply elem_of_app in Hx as [Hx|Hx]; [specialize (Hlow x _ Hx Hl); lia|by rewrite (Hsame x (lst h))].
Qed.

Section insertion.
Context (m : smem) (q : sqaddr) (gs1 gs2 : list (list Z)) (t : Z) (k : kthread) (last_pri : Z).
Context (Hrep : sq_rep m q (gs1 ++ gs2)) (Hk : ld m t = Some k) (Hnt : t ∉ concat (gs1 ++ gs2)).
Context (Hrun : run (sq_insert_step m (DISP_PRIO k)) (sq_fuel m) (Sfirst q, 0, -1) =
  Some (pp_at q (concat gs1), hd 0 (concat gs2), lst (concat gs1), last_pri)).
Context (H1 : ∀ x, x ∈ concat gs1 → DISP_PRIO k <= prio m x) (H2 : ∀ x, x ∈ concat gs2 → prio m x < DISP_PRIO k).

Definition sq_insert_post : Prop :=
  ∃ m' gs', sleepq_insert m q t = Some m' ∧ touch m m' q t (Some q) ∧ sq_rep m' q gs' ∧
    concat gs' = concat gs1 ++ t :: concat gs2.

Lemma ins_prio : DISP_PRIO k = prio m t.
Proof. unfold prio, fld. by rewrite Hk. Qed.

Lemma ins_on y : y ∈ concat gs1 ∨ y ∈ concat gs2 → fld t_sleepq m y = Some (Some q).
Proof. intros Hy. apply Hrep. by rewrite concat_app, elem_of_app. Qed.

(** The search stopped behind threads of the same priority. *)
Lemma insert_joins gs0 h : gs1 = gs0 ++ [h] → last_pri = prio m t → prio m (lst h) = prio m t → sq_insert_post.
Proof.
  intros E Hlp Heq. pose proof Hrep as [Hf Hl Hlv _ _]. rewrite concat_app in Hf, Hl. pose proof Hnt as Hnt'. rewrite concat_app in Hnt'.
  rewrite E in Hlv. apply levels_app in Hlv as (Hv1 & _). apply levels_app in Hv1 as (_ & Hvh & _).
  apply levels_one in Hvh as (Hh & Hr & Hsame). pose proof (last_elem h Hh) as Hlh. pose proof (hd_elem h 0 Hh) as Hhh.
  assert (concat gs1 = concat gs0 ++ h) as Ec by (rewrite E, concat_app; cbn; by rewrite app_nil_r).
  assert (lst (concat gs1) = lst h) as El by (rewrite Ec; by apply last_app_ne).
  assert (∀ y, y ∈ h → y ∈ concat gs1) as Hin by (intros y Hy; rewrite Ec; apply elem_of_app; by right).
  assert (touch m (inserted m q (concat gs1) (hd 0 (concat gs2)) (Some (lst h, hd 0 h)) t) q t (Some q)) as Ht.
  { apply inserted_touch; [by rewrite Hk|rewrite El; intros _; apply ins_on; auto|].
    intros b f [= <- <-]. split; apply ins_on; auto. }
  eexists _, (gs0 ++ (h ++ [t]) :: gs2). split_and!; [|done| |].
  - apply (insert_run m q _ _ t k last_pri _ Hf Hl Hk Hnt' Hrun). rewrite Hlp, ins_prio, Z.eqb_refl, El.
    exists (hd 0 h). split_and!; [done| |by eapply fld_ld, ins_on; auto|].
    + unfold ring in Hr. destruct (exists_last Hh) as (h' & z & ->). rewrite List.last_last.
      rewrite dseg_app in Hr. by destruct Hr as (_ & _ & Hz & _).
    + intros E'. apply Hnt'. rewrite <- E'. apply elem_of_app. auto.
  - apply (inserted_rep _ _ _ _ _ _ _ Hrep); [by rewrite Hk|done|done| |].
    + rewrite Ec, concat_app. cbn. by rewrite <- !app_assoc.
    + subst gs1. apply inserted_join; [done|by rewrite Hk|done|done| |].
      * intros x Hx. rewrite <- Heq. by apply Hsame.
      * intros y. unfold prio. by rewrite (base_prio m) by apply Ht.
  - rewrite Ec, concat_app. cbn. by rewrite <- !app_assoc.
Qed.

(** There was none. *)
Lemma insert_alone : last_pri ≠ prio m t → (∀ x, x ∈ concat gs1 → prio m x ≠ prio m t) → sq_insert_post.
Proof.
  intros Hlp Hne. pose proof Hrep as [Hf Hl _ _ _]. rewrite concat_app in Hf, Hl. pose proof Hnt as Hnt'. rewrite concat_app in Hnt'.
  assert (touch m (inserted m q (concat gs1) (hd 0 (concat gs2)) None t) q t (Some q)) as Ht.
  { apply inserted_touch; [by rewrite Hk| |done]. intros Hc. apply ins_on. left. by apply last_elem. }
  eexists _, (gs1 ++ [t] :: gs2). split_and!; [|done| |by rewrite concat_app].
  - apply (insert_run m q _ _ t k last_pri _ Hf Hl Hk Hnt' Hrun). rewrite ins_prio. by rewrite (proj2 (Z.eqb_neq _ _)).
  - apply (inserted_rep _ _ _ _ _ _ _ Hrep); [by rewrite Hk|done|done|by rewrite concat_app|].
    apply inserted_new; [done|by rewrite Hk|done| |by rewrite <- ins_prio|].
    + intros x Hx. pose proof (H1 x Hx). pose proof ins_prio. specialize (Hne x Hx). lia.
    + intros y. unfold prio. by rewrite (base_prio m) by apply Ht.
Qed.
End insertion.

Lemma sleepq_insert_ok m q gs t k :
  sq_rep m q gs → ld m t = Some k → t ∉ concat gs → 0 <= DISP_PRIO k →
  (∀ x, x ∈ concat gs → x ≠ 0 ∧ 0 <= prio m x) →
  ∃ m' gs', sleepq_insert m q t = Some m' ∧ touch m m' q t (Some q) ∧ sq_rep m' q gs' ∧
    concat gs' = sq_ins (prio m) t (concat gs).
Proof.
  intros Hrep Hk Hnt Htp Hpos.
  destruct (insert_search m q gs Hrep (DISP_PRIO k) Htp Hpos) as (gs1 & gs2 & lp & -> & Hrun & H1 & H2 & Hlp).
  pose proof (ins_prio m t k Hk) as Ep.
  rewrite concat_app, sq_ins_at by (rewrite <- Ep; done). change (sq_insert_post m q gs1 gs2 t).
  pose proof (sr_levels _ _ _ Hrep) as Hlv. apply levels_app in Hlv as (Hv1 & _).
  destruct (decide (gs1 = [])) as [->|Hne].
  - eapply insert_alone; [done..| |by intros x ?%elem_of_nil]. lia.
  - destruct (exists_last Hne) as (gs0 & h & E).
    assert (lst (concat gs1) = lst h ∧ lst h ∈ concat gs1) as [El Hin].
    { rewrite E in Hv1 |- *. apply levels_app in Hv1 as (_ & Hvh & _). apply levels_one in Hvh as (Hh & _).
      rewrite concat_app. cbn. rewrite app_nil_r, last_app_ne by done. split; [done|].
      apply elem_of_app. right. by apply last_elem. }
    destruct (decide (prio m (lst h) = prio m t)) as [Heq|Hneq].
    + eapply insert_joins; [done..|by rewrite Hlp, El|done].
    + eapply insert_alone; [done..|by rewrite Hlp, El|]. intros x Hx E'.
      pose proof (levels_last m gs1 x Hv1 Hx) as Hle. specialize (H1 (lst h) Hin). rewrite El in Hle. lia.
Qed.

(** ** All the queues *)

Lemma sleepqs_pos m Q q gs : sleepqs m Q → sq_rep m q gs → ∀ x, x ∈ concat gs → x ≠ 0 ∧ 0 <= prio m x.
Proof.
  intros HQ Hrep x Hx. destruct (walk_ld _ _ _ Hrep x Hx) as (k & Hk & _).
  destruct (sq_thread _ _ HQ x k Hk) as [? ?%DISP_PRIO_pos]. unfold prio, fld. by rewrite Hk.
Qed.

(** A thread is on the list of the queue it points to. *)
Lemma sleepqs_on m Q t k : sleepqs m Q → ld m t = Some k →
  match t_sleepq k with
  | Some q => ∃ l, Q !! q = Some l ∧ t ∈ l
  | None => ∀ q l, Q !! q = Some l → t ∉ l
  end.
Proof.
  intros HQ Hk. assert (fld t_sleepq m t = Some (t_sleepq k)) as E by (unfold fld; by rewrite Hk).
  destruct (t_sleepq k) as [q|].
  - destruct (sq_queue _ _ HQ t q E) as [l Hl]. exists l. split; [done|].
    destruct (sq_reps _ _ HQ q l Hl) as (gs & -> & Hrep). by apply Hrep.
  - intros q l Hl Hin. destruct (sq_reps _ _ HQ q l Hl) as (gs & -> & Hrep). apply Hrep in Hin. congruence.
Qed.

Lemma sleepqs_insert m Q q l t k :
  sleepqs m Q → Q !! q = Some l → ld m t = Some k → t_sleepq k = None →
  ∃ m', sleepq_insert m q t = Some m' ∧ touch m m' q t (Some q) ∧ sleepqs m' (<[q := sq_ins (prio m) t l]> Q).
Proof.
  intros HQ Hl Hk Hoff. destruct (sq_reps _ _ HQ q l Hl) as (gs & -> & Hrep).
  pose proof (sleepqs_on m Q t k HQ Hk) as Hnt. rewrite Hoff in Hnt.
  destruct (sleepq_insert_ok m q gs t k Hrep Hk) as (m' & gs' & Hins & Ht & Hrep' & <-).
  - by apply (Hnt q).
  - by apply DISP_PRIO_pos, (sq_thread _ _ HQ t).
  - by apply (sleepqs_pos m Q q).
  - exists m'. split_and!; [done..|]. apply (sleepqs_touch m m' Q q t (Some q)); [done..|by rewrite Hk| | |done].
    + by intros q' [= ->].
    + intros q'. unfold fld. rewrite Hk. cbn. congruence.
Qed.

Lemma sleepqs_off m Q q t m' gs' :
  sleepqs m Q → is_Some (Q !! q) → fld t_sleepq m t = Some (Some q) → touch m m' q t None → sq_rep m' q gs' →
  sleepqs m' (<[q := concat gs']> Q).
Proof.
  intros HQ Hl Hq Ht Hrep'. apply (sleepqs_touch m m' Q q t None); [done..|by apply fld_ld in Hq|done| |done].
  intros q' E. congruence.
Qed.

Lemma sleepqs_dequeue m Q q l t k :
  sleepqs m Q → Q !! q = Some l → ld m t = Some k → t_sleepq k = Some q →
  ∃ m', sleepq_dequeue m t = Some m' ∧ touch m m' q t None ∧ sleepqs m' (<[q := sq_del t l]> Q).
Proof.
  intros HQ Hl Hk Hon. destruct (sq_reps _ _ HQ q l Hl) as (gs & -> & Hrep).
  assert (fld t_sleepq m t = Some (Some q)) as E by (unfold fld; by rewrite Hk, <- Hon).
  destruct (sleepq_dequeue_ok m q gs t Hrep) as (m' & gs' & Hd & Ht & Hrep' & <-).
  - by apply Hrep.
  - by apply (sq_thread _ _ HQ t k).
  - exists m'. split_and!; [done..|]. by apply (sleepqs_off m Q q t).
Qed.

(** Stores to a thread that is on no queue. *)
Lemma sq_rep_idle m q gs t f :
  sq_rep m q gs → fld t_sleepq m t = Some None → (∀ k, t_sleepq (f k) = t_sleepq k) → sq_rep (upd m t f) q gs.
Proof.
  intros [Hf Hl Hlv Hnd Hon] Hoff Hsq.
  assert (∀ y, y ∈ concat gs → ld (upd m t f) y = ld m y) as Hsame.
  { intros y Hy. rewrite ld_upd, decide_False; [done|]. intros ->. apply Hon in Hy. congruence. }
  split; [done| | |done|].
  - apply lseg_ext with (2 := Hl). intros y Hy. unfold fld. by rewrite Hsame.
  - apply levels_ext with (3 := Hlv); intros y Hy; unfold prio, fld; by rewrite Hsame.
  - intros y. by rewrite fld_frame.
Qed.

Lemma sleepqs_idle m Q t f k :
  sleepqs m Q → ld m t = Some k → t_sleepq k = None → (∀ k, t_sleepq (f k) = t_sleepq k) →
  0 <= t_pri (f k) ∧ 0 <= t_epri (f k) → sleepqs (upd m t f) Q.
Proof.
  intros HQ Hk Hoff Hsq Hp. assert (fld t_sleepq m t = Some None) as E by (unfold fld; by rewrite Hk, <- Hoff).
  pose proof HQ as [Hrep Hth Hqu]. split.
  - intros q l Hl. destruct (Hrep q l Hl) as (gs & -> & Hr). exists gs. split; [done|]. by apply sq_rep_idle.
  - intros y ky. rewrite ld_upd. case_decide as Ey; [subst|by apply Hth]. rewrite Hk. intros [= <-].
    split; [by apply (Hth t k)|done].
  - intros y q. rewrite fld_frame by done. apply Hqu.
Qed.

(** The thread at a place of a list is at a place of a ring. *)
Lemma concat_split (gs : list (list Z)) l1 x l2 :
  concat gs = l1 ++ x :: l2 →
  ∃ gs1 g1 g2 gs2, gs = gs1 ++ (g1 ++ x :: g2) :: gs2 ∧ l1 = concat gs1 ++ g1 ∧ l2 = g2 ++ concat gs2.
Proof.
  revert l1. induction gs as [|g gs IH]; intros l1 E; [by destruct l1|]. cbn in E.
  apply app_eq_inv in E as [(k & Hg & E)|(k & -> & E)].
  - destruct k as [|y k]; cbn in E.
    + destruct (IH [] (eq_sym E)) as (gs1 & g1 & g2 & gs2 & -> & H & ->). exists (g :: gs1), g1, g2, gs2.
      split_and!; [done| |done]. cbn. rewrite <- app_assoc, <- H, Hg, !app_nil_r. done.
    + injection E as -> ->. exists [], l1, k, gs. by subst g.
  - destruct (IH k E) as (gs1 & g1 & g2 & gs2 & -> & -> & ->). exists (g :: gs1), g1, g2, gs2.
    cbn. by rewrite <- app_assoc.
Qed.

Lemma sleepqs_unlink m Q q l1 x l2 :
  sleepqs m Q → Q !! q = Some (l1 ++ x :: l2) →
  ∃ m', sleepq_unlink m (pp_at q l1) x = Some m' ∧ touch m m' q x None ∧ sleepqs m' (<[q := l1 ++ l2]> Q).
Proof.
  intros HQ Hl. destruct (sq_reps _ _ HQ q _ Hl) as (gs & E & Hrep). symmetry in E.
  destruct (concat_split gs l1 x l2 E) as (gs1 & g1 & g2 & gs2 & -> & -> & ->).
  destruct (sleepq_unlink_ok m q gs1 g1 x g2 gs2 Hrep) as (m' & Hun & Ht & Hrep').
  exists m'. split_and!; [done..|]. rewrite <- app_assoc, (app_assoc g1), <- concat_without.
  apply (sleepqs_off m Q q x); [done|done| |done..]. apply Hrep. rewrite E. apply elem_of_app. right. constructor.
Qed.

(** ** The specification

    Queues are lists and a thread has attributes; a thread is on at most one
    list, so that removing it from all of them removes it from its own. *)

Record aqueues := Aqueues { aq_q : gmap sqaddr (list Z); aq_t : gmap Z attr }.

Definition aprio (A : gmap Z attr) (t : Z) : Z :=
  match A !! t with Some a => if a_epri a =? 0 then a_pri a else a_epri a | None => 0 end.

Definition achan (A : gmap Z attr) (t : Z) : Z :=
  match A !! t with Some a => a_wchan a | None => 0 end.

Definition a_unsleep (a : attr) : attr := Attr (a_pri a) (a_epri a) 0 0 0 (a_state a) (a_ts a).
Definition a_wake (a : attr) : attr := Attr (a_pri a) (a_epri a) 0 (a_wchan0 a) 0 TS_RUN (a_ts a).
Definition a_setpri (pri : Z) (inherited : bool) (a : attr) : attr :=
  Attr (if inherited then a_pri a else pri) (if inherited then pri else a_epri a)
    (a_wchan a) (a_wchan0 a) (a_ops a) (a_state a) (a_ts a).

Inductive sq_op :=
  | Insert (q : sqaddr) (t : Z)
  | Dequeue (t : Z)
  | Unsleep (t : Z)
  | Wakeone (q : sqaddr) (chan : Z)
  | Wakeall (q : sqaddr) (chan : Z)
  | ChangePri (t pri : Z) (inherited : bool).

(** An operation on the memory, with the threads it wakes. *)
Definition sq_exec (m : smem) (o : sq_op) : option (smem * list Z) :=
  match o with
  | Insert q t => let! m := sleepq_insert m q t in Some (m, [])
  | Dequeue t => let! m := sleepq_dequeue m t in Some (m, [])
  | Unsleep t => let! m := sleepq_unsleep m t in Some (m, [])
  | Wakeone q c => let! (m, t) := sleepq_wakeone_chan m q c in Some (m, if t =? 0 then [] else [t])
  | Wakeall q c => sleepq_wakeall_chan m q c
  | ChangePri t pri inh => let! m := turnstile_change_pri m t pri inh in Some (m, [])
  end.

(** The threads of a list that wait for [c]. *)
Definition on_chan (A : gmap Z attr) (c : Z) (l : list Z) : list Z := filter (λ t, achan A t = c) l.

Definition wake_all (A : gmap Z attr) (ts : list Z) : gmap Z attr := foldl (λ A t, alter a_wake t A) A ts.

Definition sq_spec (s : aqueues) (o : sq_op) : aqueues * list Z :=
  let 'Aqueues Q A := s in
  match o with
  | Insert q t => (Aqueues (alter (sq_ins (aprio A) t) q Q) A, [])
  | Dequeue t => (Aqueues (sq_del t <$> Q) A, [])
  | Unsleep t => (Aqueues (sq_del t <$> Q) (alter a_unsleep t A), [])
  | Wakeone q c =>
      let ts := take 1 (on_chan A c (default [] (Q !! q))) in
      (Aqueues (alter (filter (λ t, t ∉ ts)) q Q) (wake_all A ts), ts)
  | Wakeall q c =>
      let ts := on_chan A c (default [] (Q !! q)) in
      (Aqueues (alter (filter (λ t, t ∉ ts)) q Q) (wake_all A ts), ts)
  | ChangePri t pri inh =>
      let A' := alter (a_setpri pri inh) t A in
      (Aqueues ((λ l, if decide (t ∈ l) then sq_ins (aprio A') t (sq_del t l) else l) <$> Q) A', [])
  end.

(** What the callers keep to: threads are put on one queue at a time, and
    taken off a queue they are on. *)
Definition op_ok (s : aqueues) (o : sq_op) : Prop :=
  let 'Aqueues Q A := s in
  match o with
  | Insert q t => is_Some (Q !! q) ∧ is_Some (A !! t) ∧ map_Forall (λ _ l, t ∉ l) Q
  | Dequeue t | Unsleep t => map_Exists (λ _ l, t ∈ l) Q
  | Wakeone q _ | Wakeall q _ => is_Some (Q !! q)
  | ChangePri t pri inh => map_Exists (λ _ l, t ∈ l) Q ∧ 0 <= pri
  end.

#[export] Instance op_ok_dec s o : Decision (op_ok s o).
Proof. destruct s, o; apply _. Defined.

Record represents (m : smem) (s : aqueues) : Prop := {
  rp_q : sleepqs m (aq_q s);
  rp_t : base <$> threads m = aq_t s
}.

Section represents.
Context (m : smem) (Q : gmap sqaddr (list Z)) (A : gmap Z attr) (Hr : represents m (Aqueues Q A)).

Lemma rp_lookup t : A !! t = base <$> ld m t.
Proof. destruct Hr as [_ Ht]. cbn in Ht. rewrite <- Ht. apply lookup_fmap. Qed.

Lemma rp_prio t : aprio A t = prio m t.
Proof.
  unfold aprio, prio, fld. rewrite rp_lookup. destruct (ld m t) as [k|]; [|done]. cbn. unfold DISP_PRIO, INHERITED.
  by destruct (t_epri k =? 0).
Qed.

Lemma rp_chan t k : ld m t = Some k → achan A t = t_wchan k.
Proof. intros Hk. unfold achan. by rewrite rp_lookup, Hk. Qed.

Lemma rp_on q l t : Q !! q = Some l → t ∈ l → ∃ k, ld m t = Some k ∧ t_sleepq k = Some q ∧ t ≠ 0.
Proof.
  intros Hl Ht. destruct Hr as [HQ _]. cbn in HQ. destruct (sq_reps _ _ HQ q l Hl) as (gs & -> & Hrep).
  destruct (walk_ld _ _ _ Hrep t Ht) as (k & Hk & Hq). exists k. split_and!; [done..|]. by apply (sq_thread _ _ HQ t k).
Qed.

Lemma rp_nodup q l : Q !! q = Some l → NoDup l.
Proof. intros Hl. destruct Hr as [HQ _]. destruct (sq_reps _ _ HQ q l Hl) as (gs & -> & Hrep). apply Hrep. Qed.

Lemma rp_sorted q l : Q !! q = Some l → sq_sorted (aprio A) l.
Proof.
  intros Hl. destruct Hr as [HQ _]. destruct (sq_reps _ _ HQ q l Hl) as (gs & -> & Hrep).
  pose proof (sr_levels _ _ _ Hrep) as Hlv. clear Hrep Hl. induction gs as [|g gs IH]; [constructor|].
  apply (levels_app _ [g]) in Hlv as (Hg & Hgs & Hlow). apply levels_one in Hg as (_ & _ & Hsame).
  cbn in Hlow. rewrite app_nil_r in Hlow. apply StronglySorted_app. split_and!; [| |by apply IH].
  - intros x y Hx Hy. rewrite !rp_prio. specialize (Hlow x y Hx Hy). lia.
  - clear Hlow IH Hgs. induction g as [|x g IH]; constructor.
    + apply IH. intros y z Hy Hz. apply Hsame; by constructor.
    + apply Forall_forall. intros y Hy. rewrite !rp_prio, (Hsame x y); [done|constructor|by constructor].
Qed.

Lemma rp_ldp q l1 l2 : Q !! q = Some (l1 ++ l2) → ldp m (pp_at q l1) = Some (hd 0 l2).
Proof.
  intros Hl. destruct Hr as [HQ _]. destruct (sq_reps _ _ HQ q _ Hl) as (gs & E & Hrep).
  by apply (walk_ldp _ _ _ Hrep).
Qed.

Lemma rp_fuel q l : Q !! q = Some l → (length l < sq_fuel m)%nat.
Proof.
  intros Hl. unfold sq_fuel. rewrite <- size_dom, <- (size_list_to_set (C := gset Z) l) by (by eapply rp_nodup).
  assert (size (list_to_set l : gset Z) <= size (dom (threads m)))%nat; [|lia]. apply subseteq_size.
  intros x Hx%elem_of_list_to_set. apply elem_of_dom. by destruct (rp_on q l x Hl Hx) as (k & Hk & _).
Qed.

(** A change of the queue of [t] only. *)
Lemma rp_fmap_one (f : list Z → list Z) q l t :
  Q !! q = Some l → t ∈ l → (∀ l', t ∉ l' → f l' = l') → f <$> Q = <[q := f l]> Q.
Proof.
  intros Hl Ht Hf. apply map_eq. intros q'. rewrite lookup_fmap.
  destruct (decide (q' = q)) as [->|Hne]; [by rewrite lookup_insert_eq, Hl|]. rewrite lookup_insert_ne by done.
  destruct (Q !! q') as [l'|] eqn:El'; [|done]. cbn. rewrite Hf; [done|]. intros Ht'.
  destruct (rp_on q l t Hl Ht) as (k & Hk & E & _). destruct (rp_on q' l' t El' Ht') as (k' & Hk' & E' & _). congruence.
Qed.

Lemma rp_touch m' q t v : touch m m' q t v → base <$> threads m' = A.
Proof.
  intros Ht. destruct Hr as [_ HA]. cbn in HA. rewrite <- HA. apply map_eq. intros y. rewrite !lookup_fmap.
  apply (tc_base _ _ _ _ _ Ht y).
Qed.
End represents.

Lemma alter_one {B} (f : B → B) (q : sqaddr) (Q : gmap sqaddr B) l : Q !! q = Some l → alter f q Q = <[q := f l]> Q.
Proof.
  intros Hl. apply map_eq. intros q'. destruct (decide (q' = q)) as [->|].
  - by rewrite lookup_alter_eq, lookup_insert_eq, Hl.
  - by rewrite lookup_alter_ne, lookup_insert_ne.
Qed.

(** A store to a thread that is on no queue. *)
Lemma rp_idle m Q A t f g k :
  represents m (Aqueues Q A) → ld m t = Some k → t_sleepq k = None → (∀ k, t_sleepq (f k) = t_sleepq k) →
  0 <= t_pri (f k) ∧ 0 <= t_epri (f k) → (∀ k, base (f k) = g (base k)) →
  st m t f = Some (upd m t f) ∧ represents (upd m t f) (Aqueues Q (alter g t A)).
Proof.
  intros [HQ Ht] Hk Hoff Hsq Hp Hg. split; [apply st_upd; by rewrite Hk|]. split; [by apply (sleepqs_idle m Q t f k)|].
  cbn in *. rewrite <- Ht. apply map_eq. intros y. rewrite lookup_fmap. unfold upd. cbn.
  destruct (decide (y = t)) as [->|].
  - rewrite !lookup_alter_eq, lookup_fmap. unfold ld in Hk. rewrite Hk. cbn. by rewrite Hg.
  - by rewrite !lookup_alter_ne, lookup_fmap.
Qed.

Lemma touch_off m m' q t : touch m m' q t None → ∃ k, ld m' t = Some k ∧ t_sleepq k = None.
Proof.
  intros Ht. pose proof (tc_x _ _ _ _ _ Ht) as E. unfold fld in E. destruct (ld m' t) as [k|]; [|done].
  injection E as E. eauto.
Qed.

Lemma rp_insert m Q A q l t :
  represents m (Aqueues Q A) → Q !! q = Some l → is_Some (A !! t) → (∀ q l, Q !! q = Some l → t ∉ l) →
  ∃ m', sleepq_insert m q t = Some m' ∧ represents m' (Aqueues (<[q := sq_ins (aprio A) t l]> Q) A).
Proof.
  intros Hr Hl Ht Hoff. rewrite (rp_lookup m Q A Hr) in Ht. destruct (ld m t) as [k|] eqn:Hk; [|by destruct Ht].
  assert (t_sleepq k = None) as Ek.
  { pose proof (sleepqs_on m Q t k (rp_q _ _ Hr) Hk) as Hon. destruct (t_sleepq k) as [q'|]; [|done].
    destruct Hon as (l' & Hl' & Hin). by destruct (Hoff q' l' Hl'). }
  destruct (sleepqs_insert m Q q l t k (rp_q _ _ Hr) Hl Hk Ek) as (m' & -> & Htc & HQ'). exists m'. split; [done|].
  split; [|by eapply rp_touch]. cbn. assert (sq_ins (aprio A) t l = sq_ins (prio m) t l) as ->; [|done].
  clear -Hr. induction l as [|x l IH]; [done|]. cbn. by rewrite !(rp_prio m Q A Hr), IH.
Qed.

Lemma rp_dequeue m Q A q l t :
  represents m (Aqueues Q A) → Q !! q = Some l → t ∈ l →
  ∃ m' k, sleepq_dequeue m t = Some m' ∧ represents m' (Aqueues (<[q := sq_del t l]> Q) A) ∧
    ld m' t = Some k ∧ t_sleepq k = None.
Proof.
  intros Hr Hl Ht. destruct (rp_on m Q A Hr q l t Hl Ht) as (k & Hk & Hq & _).
  destruct (sleepqs_dequeue m Q q l t k (rp_q _ _ Hr) Hl Hk Hq) as (m' & Hd & Htc & HQ').
  destruct (touch_off _ _ _ _ Htc) as (k' & Hk' & Hoff). exists m', k'. split_and!; [done| |done..].
  split; [done|by eapply rp_touch].
Qed.

(** ** Wakeups *)

Lemma rp_wake m Q A q l1 x l2 :
  represents m (Aqueues Q A) → Q !! q = Some (l1 ++ x :: l2) →
  ∃ m1 m2, sleepq_unlink m (pp_at q l1) x = Some m1 ∧ wake m1 x = Some m2 ∧
    represents m2 (Aqueues (<[q := l1 ++ l2]> Q) (alter a_wake x A)).
Proof.
  intros Hr Hl. destruct (sleepqs_unlink m Q q l1 x l2 (rp_q _ _ Hr) Hl) as (m1 & Hun & Ht & HQ1).
  destruct (touch_off _ _ _ _ Ht) as (k & Hk & Hoff). exists m1, (upd m1 x (λ t, set_t_state TS_RUN (set_t_chan 0 (t_wchan0 t) 0 t))).
  split; [done|].
  apply (rp_idle m1 _ _ x _ a_wake k); [|done..| |done].
  - split; [done|by eapply rp_touch].
  - by apply (sq_thread _ _ HQ1 x k).
Qed.

Lemma filter_not_in_one (l1 : list Z) (x : Z) (l2 : list Z) :
  NoDup (l1 ++ x :: l2) → filter (λ t, t ∉ [x]) (l1 ++ x :: l2) = l1 ++ l2.
Proof.
  intros Hnd. rewrite <- (sq_del_at x l1 l2 Hnd). unfold sq_del. apply list_filter_iff. intros y.
  by rewrite list_elem_of_singleton.
Qed.

Lemma filter_not_in_nil (l : list Z) : filter (λ t, t ∉ []) l = l.
Proof. induction l as [|x l IH]; [done|]. rewrite filter_cons_True, IH; [done|by intros ?%elem_of_nil]. Qed.

Lemma on_chan_app A c l1 l2 : on_chan A c (l1 ++ l2) = on_chan A c l1 ++ on_chan A c l2.
Proof. apply filter_app. Qed.

Lemma on_chan_cons A c x l : on_chan A c (x :: l) = if decide (achan A x = c) then x :: on_chan A c l else on_chan A c l.
Proof. unfold on_chan. by rewrite filter_cons. Qed.

Lemma wakeone_ok m Q A q l c :
  represents m (Aqueues Q A) → Q !! q = Some l → let ts := take 1 (on_chan A c l) in
  ∃ m' t, sleepq_wakeone_chan m q c = Some (m', t) ∧ (if t =? 0 then [] else [t]) = ts ∧
    represents m' (Aqueues (<[q := filter (λ t, t ∉ ts) l]> Q) (wake_all A ts)).
Proof.
  intros Hr Hl ts. unfold sleepq_wakeone_chan.
  destruct (run_total_idx (wakeone_step m c)
    (λ n s, ∃ l1 l2, l = l1 ++ l2 ∧ n = length l2 ∧ s = pp_at q l1 ∧ on_chan A c l1 = [])
    (λ '(m', t), (if t =? 0 then [] else [t]) = ts ∧
      represents m' (Aqueues (<[q := filter (λ t, t ∉ ts) l]> Q) (wake_all A ts))))
    with (fuel := sq_fuel m) (n := length l) (s := Sfirst q) as ([m' t] & Hrun & ? & ?); [| |by eapply rp_fuel|by eauto].
  2:{ by exists [], l. }
  intros n s (l1 & l2 & E & -> & -> & Hno). unfold wakeone_step. rewrite E in Hl.
  rewrite (rp_ldp m Q A Hr q l1 l2 Hl). destruct l2 as [|x l2]; cbn [hd].
  - rewrite app_nil_r in E. subst l1. eexists. split; [done|]. subst ts. rewrite Hno. cbn [take]. split; [done|].
    rewrite filter_not_in_nil, app_nil_r in *. by rewrite insert_id.
  - destruct (rp_on m Q A Hr q _ x Hl) as (k & Hk & _ & Hx0); [apply elem_of_app; right; constructor|].
    destruct (Z.eqb_spec x 0) as [|_]; [done|]. rewrite Hk. pose proof (rp_chan m Q A Hr x k Hk) as Hc.
    destruct (Z.eqb_spec (t_wchan k) c) as [Ec|Ec].
    + destruct (rp_wake m Q A q l1 x l2 Hr Hl) as (m1 & m2 & -> & -> & Hr2). eexists. split; [done|].
      assert (ts = [x]) as ->.
      { subst ts. rewrite E, on_chan_app, Hno, on_chan_cons, decide_True by congruence. done. }
      destruct (Z.eqb_spec x 0) as [|_]; [done|]. split; [done|].
      rewrite E, filter_not_in_one by exact (rp_nodup m Q A Hr q _ Hl). done.
    + eexists. split; [done|]. exists (length l2). split; [cbn; lia|]. exists (l1 ++ [x]), l2.
      split_and!; [by rewrite <- app_assoc|done|by rewrite pp_at_snoc|].
      rewrite on_chan_app, Hno, on_chan_cons, decide_False by congruence. done.
Qed.

Lemma wake_all_lookup A ts x : x ∉ ts → wake_all A ts !! x = A !! x.
Proof.
  revert A. induction ts as [|t ts IH]; intros A Hx; [done|]. apply not_elem_of_cons in Hx as [Hne Hx].
  unfold wake_all in *. cbn. rewrite IH by done. by rewrite lookup_alter_ne.
Qed.

Lemma wake_all_snoc A ts t : wake_all A (ts ++ [t]) = alter a_wake t (wake_all A ts).
Proof. unfold wake_all. by rewrite foldl_app. Qed.

(** The invariant of the loop of [sleepq_wakeall_chan]: behind [l1], which
    nobody on [c] is left in, with [l2] to go. *)
Definition wakeall_inv (Q : gmap sqaddr (list Z)) (A : gmap Z attr) (q : sqaddr) (c : Z) (l : list Z)
    (n : nat) (s : smem * tptr * list Z) : Prop :=
  let '(m, tpp, woken) := s in
  ∃ l0 l1 l2, l = l0 ++ l2 ∧ n = length l2 ∧ tpp = pp_at q l1 ∧ woken = on_chan A c l0 ∧
    l1 = filter (λ t, achan A t ≠ c) l0 ∧ represents m (Aqueues (<[q := l1 ++ l2]> Q) (wake_all A woken)).

Lemma wakeall_step_ok Q A q c l n s :
  NoDup l → wakeall_inv Q A q c l n s → ∃ r, wakeall_step c s = Some r ∧
    match r with
    | Next s' => ∃ n', (n' < n)%nat ∧ wakeall_inv Q A q c l n' s'
    | Return (m', ts) => ts = on_chan A c l ∧
        represents m' (Aqueues (<[q := filter (λ t, achan A t ≠ c) l]> Q) (wake_all A ts))
    end.
Proof.
  destruct s as [[m tpp] woken]. intros Hnd (l0 & l1 & l2 & E & -> & -> & Ew & E1 & Hr). unfold wakeall_step.
  pose proof (lookup_insert_eq Q q (l1 ++ l2)) as Hl. rewrite (rp_ldp _ _ _ Hr q l1 l2 Hl).
  destruct l2 as [|x l2]; cbn [hd].
  { eexists. split; [done|]. rewrite app_nil_r in E. cbn. subst. rewrite app_nil_r in Hr. done. }
  destruct (rp_on _ _ _ Hr q _ x Hl) as (k & Hk & _ & Hx0); [apply elem_of_app; right; constructor|].
  destruct (Z.eqb_spec x 0) as [|_]; [done|]. rewrite Hk.
  assert (x ∉ woken) as Hxw.
  { rewrite Ew. intros Hin%list_elem_of_filter. rewrite E in Hnd. apply NoDup_app in Hnd as (_ & Hd & _).
    apply (Hd x); [tauto|constructor]. }
  assert (achan A x = t_wchan k) as Hc.
  { pose proof (rp_chan _ _ _ Hr x k Hk) as Hc. unfold achan in Hc. by rewrite wake_all_lookup in Hc. }
  destruct (Z.eqb_spec (t_wchan k) c) as [Ec|Ec].
  - destruct (rp_wake _ _ _ q l1 x l2 Hr Hl) as (m1 & m2 & -> & -> & Hr2). eexists. split; [done|].
    exists (length l2). split; [cbn; lia|]. exists (l0 ++ [x]), l1, l2. rewrite insert_insert_eq in Hr2.
    split_and!; [by rewrite <- app_assoc|done|done| | |by rewrite wake_all_snoc].
    + rewrite on_chan_app, <- Ew, on_chan_cons, decide_True by congruence. done.
    + rewrite filter_app, filter_cons_False by (intros H; apply H; congruence). by rewrite filter_nil, app_nil_r.
  - eexists. split; [done|]. exists (length l2). split; [cbn; lia|]. exists (l0 ++ [x]), (l1 ++ [x]), l2.
    split_and!; [by rewrite <- app_assoc|done|by rewrite pp_at_snoc| | |by rewrite <- app_assoc].
    + rewrite on_chan_app, <- Ew, on_chan_cons, decide_False by congruence. by rewrite app_nil_r.
    + rewrite filter_app, filter_cons_True by congruence. by rewrite filter_nil, <- E1.
Qed.

Lemma filter_not_on_chan A c (l l' : list Z) :
  (∀ t, t ∈ l' → t ∈ l) → filter (λ t, t ∉ on_chan A c l) l' = filter (λ t, achan A t ≠ c) l'.
Proof.
  induction l' as [|x l' IH]; [done|]. intros Hin. rewrite !filter_cons, IH by (intros; apply Hin; by constructor).
  assert (x ∈ l) by (apply Hin; constructor). destruct (decide (achan A x = c)).
  - rewrite !decide_False; [done|tauto|]. intros Hx. apply Hx, list_elem_of_filter. done.
  - rewrite !decide_True; [done..|]. intros [? _]%list_elem_of_filter. done.
Qed.

Lemma wakeall_ok m Q A q l c :
  represents m (Aqueues Q A) → Q !! q = Some l → let ts := on_chan A c l in
  ∃ m', sleepq_wakeall_chan m q c = Some (m', ts) ∧
    represents m' (Aqueues (<[q := filter (λ t, t ∉ ts) l]> Q) (wake_all A ts)).
Proof.
  intros Hr Hl ts. pose proof (rp_nodup _ _ _ Hr q l Hl) as Hnd. unfold sleepq_wakeall_chan.
  unfold ts. rewrite filter_not_on_chan by done.
  destruct (run_total_idx (wakeall_step c) (wakeall_inv Q A q c l)
    (λ '(m', ts), ts = on_chan A c l ∧ represents m' (Aqueues (<[q := filter (λ t, achan A t ≠ c) l]> Q) (wake_all A ts))))
    with (fuel := sq_fuel m) (n := length l) (s := (m, Sfirst q, @nil Z)) as ([m' ts'] & Hrun & -> & Hr').
  - intros n s Hinv. by apply wakeall_step_ok.
  - exists [], [], l. split_and!; [done..|]. cbn. by rewrite insert_id.
  - by eapply rp_fuel.
  - by exists m'.
Qed.

(** ** The operations are those of the specification *)

Lemma rp_unsleep m Q A q l t :
  represents m (Aqueues Q A) → Q !! q = Some l → t ∈ l →
  ∃ m', sleepq_unsleep m t = Some m' ∧ represents m' (Aqueues (<[q := sq_del t l]> Q) (alter a_unsleep t A)).
Proof.
  intros Hr Hl Ht. destruct (rp_dequeue m Q A q l t Hr Hl Ht) as (m1 & k & Hd & Hr1 & Hk & Hoff).
  unfold sleepq_unsleep. rewrite Hd.
  destruct (rp_idle m1 _ A t (set_t_chan 0 0 0) a_unsleep k Hr1 Hk Hoff) as [Hst Hr2]; [done| |done|by eauto].
  by apply (sq_thread _ _ (rp_q _ _ Hr1) t k).
Qed.

Lemma rp_change_pri m Q A q l t pri inh :
  represents m (Aqueues Q A) → Q !! q = Some l → t ∈ l → 0 <= pri →
  let A' := alter (a_setpri pri inh) t A in
  ∃ m', turnstile_change_pri m t pri inh = Some m' ∧
    represents m' (Aqueues (<[q := sq_ins (aprio A') t (sq_del t l)]> Q) A').
Proof.
  intros Hr Hl Ht Hpri A'. destruct (rp_on m Q A Hr q l t Hl Ht) as (k0 & Hk0 & Hq0 & _).
  unfold turnstile_change_pri. rewrite Hk0, Hq0.
  destruct (rp_dequeue m Q A q l t Hr Hl Ht) as (m1 & k & -> & Hr1 & Hk & Hoff).
  destruct (rp_idle m1 _ A t (if inh then set_t_epri pri else set_t_pri pri) (a_setpri pri inh) k Hr1 Hk Hoff) as [-> Hr2];
    [by destruct inh| |by destruct inh|].
  { pose proof (sq_thread _ _ (rp_q _ _ Hr1) t k Hk). destruct inh; cbn; lia. }
  destruct (rp_insert _ _ _ q (sq_del t l) t Hr2) as (m' & Hins & Hr').
  - by rewrite lookup_insert_eq.
  - apply lookup_alter_is_Some. by rewrite (rp_lookup _ _ _ Hr1), Hk.
  - intros q' l' Hl'. destruct (decide (q' = q)) as [->|Hne].
    + rewrite lookup_insert_eq in Hl'. simplify_eq. unfold sq_del. rewrite list_elem_of_filter. tauto.
    + rewrite lookup_insert_ne in Hl' by done. intros Hin.
      destruct (rp_on m Q A Hr q' l' t Hl' Hin) as (k1 & Hk1 & Hq1 & _). congruence.
  - exists m'. by rewrite insert_insert_eq in Hr'.
Qed.

Lemma sq_exec_ok m s o :
  represents m s → op_ok s o →
  ∃ m', sq_exec m o = Some (m', snd (sq_spec s o)) ∧ represents m' (fst (sq_spec s o)).
Proof.
  destruct s as [Q A]. intros Hr Hok. destruct o as [q t|t|t|q c|q c|t pri inh]; cbn [op_ok sq_exec sq_spec fst snd] in Hok |- *.
  - destruct Hok as ([l Hl] & Ht & Hoff). rewrite (alter_one _ _ _ l Hl).
    destruct (rp_insert m Q A q l t Hr Hl Ht Hoff) as (m' & -> & ?). eauto.
  - destruct Hok as (q & l & Hl & Ht). rewrite (rp_fmap_one _ _ _ Hr _ q l t Hl Ht) by apply sq_del_id.
    destruct (rp_dequeue m Q A q l t Hr Hl Ht) as (m' & k & -> & ? & _). eauto.
  - destruct Hok as (q & l & Hl & Ht). rewrite (rp_fmap_one _ _ _ Hr _ q l t Hl Ht) by apply sq_del_id.
    destruct (rp_unsleep m Q A q l t Hr Hl Ht) as (m' & -> & ?). eauto.
  - destruct Hok as [l Hl]. rewrite Hl, (alter_one _ _ _ l Hl). change (default [] (Some l)) with l.
    destruct (wakeone_ok m Q A q l c Hr Hl) as (m' & t & -> & -> & ?). eauto.
  - destruct Hok as [l Hl]. rewrite Hl, (alter_one _ _ _ l Hl). change (default [] (Some l)) with l.
    destruct (wakeall_ok m Q A q l c Hr Hl) as (m' & -> & ?). eauto.
  - destruct Hok as ((q & l & Hl & Ht) & Hpri).
    rewrite (rp_fmap_one _ _ _ Hr _ q l t Hl Ht) by (intros l' Hl'; by rewrite decide_False).
    rewrite decide_True by done. destruct (rp_change_pri m Q A q l t pri inh Hr Hl Ht Hpri) as (m' & -> & ?). eauto.
Qed.

(** Sequences of operations. *)
Fixpoint sq_execs (m : smem) (os : list sq_op) : option (smem * list (list Z)) :=
  match os with
  | [] => Some (m, [])
  | o :: os =>
      let! (m, ts) := sq_exec m o in
      let! (m, r) := sq_execs m os in
      Some (m, ts :: r)
  end.

Fixpoint sq_specs (s : aqueues) (os : list sq_op) : aqueues * list (list Z) :=
  match os with
  | [] => (s, [])
  | o :: os => let r := sq_specs (fst (sq_spec s o)) os in (fst r, snd (sq_spec s o) :: snd r)
  end.

Fixpoint ops_ok (s : aqueues) (os : list sq_op) : Prop :=
  match os with
  | [] => True
  | o :: os => op_ok s o ∧ ops_ok (fst (sq_spec s o)) os
  end.

#[export] Instance ops_ok_dec os s : Decision (ops_ok s os).
Proof. revert s. induction os as [|o os IH]; intros s; cbn; apply _. Defined.

(** C6: any sequence of insertions, removals, wakeups and changes of priority
    by callers that put a thread on one queue at a time follows no bad
    pointer and ends, and it wakes the threads, in the order, that the
    specification on lists says; the pointers represent the lists of the
    specification afterwards, and every list is in descending order of
    priority. *)
Theorem sleepq_refines m s os :
  represents m s → ops_ok s os →
  ∃ m', sq_execs m os = Some (m', snd (sq_specs s os)) ∧ represents m' (fst (sq_specs s os)) ∧
    ∀ q l, aq_q (fst (sq_specs s os)) !! q = Some l → sq_sorted (aprio (aq_t (fst (sq_specs s os)))) l.
Proof.
  revert m s. induction os as [|o os IH]; intros m s Hr Hok.
  - exists m. split_and!; [done..|]. intros q l. cbn. destruct s as [Q A]. by apply (rp_sorted m Q A).
  - destruct Hok as [Ho Hos]. destruct (sq_exec_ok m s o Hr Ho) as (m1 & E & Hr1). cbn [sq_execs sq_specs fst snd].
    rewrite E. destruct (IH m1 _ Hr1 Hos) as (m2 & -> & ?). eauto.
Qed.

(** ** A queue with three threads *)

Definition ex_thread (pri chan : Z) : kthread := Kthread 0 0 0 None pri 0 chan 0 1 TS_SLEEP 0.

Definition ex_mem : smem :=
  Smem {[ 16 := ex_thread 60 7; 32 := ex_thread 60 8; 48 := ex_thread 30 7; 64 := ex_thread 50 8 ]} {[ (0, 5) := 0 ]}.

Definition ex_abs : aqueues := Aqueues {[ (0, 5) := [] ]} (base <$> threads ex_mem).

Definition ex_ops : list sq_op :=
  [Insert (0, 5) 48; Insert (0, 5) 16; Insert (0, 5) 32; Insert (0, 5) 64; ChangePri 64 60 true; Wakeone (0, 5) 7;
   Dequeue 32; Wakeall (0, 5) 7].

Lemma ex_represents : represents ex_mem ex_abs.
Proof.
  split; [|done]. split.
  - intros q l. cbn. rewrite lookup_singleton_Some. intros [<- <-]. exists []. split; [done|].
    split; [done|done|apply levels_nil|constructor|]. intros t. split; [by intros ?%elem_of_nil|].
    unfold fld, ld, ex_mem. cbn [threads]. rewrite fmap_Some. intros (k & Hk & E).
    repeat (apply lookup_insert_Some in Hk as [[_ <-]|[_ Hk]]; [done|]). apply lookup_singleton_Some in Hk as [_ <-]. done.
  - intros t k Hk. unfold ld, ex_mem in Hk. cbn [threads] in Hk.
    repeat (apply lookup_insert_Some in Hk as [[<- <-]|[_ Hk]]; [by vm_compute|]).
    apply lookup_singleton_Some in Hk as [<- <-]. by vm_compute.
  - intros t q. unfold fld, ld, ex_mem. cbn [threads]. rewrite fmap_Some. intros (k & Hk & E).
    repeat (apply lookup_insert_Some in Hk as [[_ <-]|[_ Hk]]; [done|]). apply lookup_singleton_Some in Hk as [_ <-]. done.
Qed.

Lemma sleepq_refines_witness :
  ∃ m', sq_execs ex_mem ex_ops = Some (m', [[]; []; []; []; []; [16]; []; [48]]) ∧
    represents m' (fst (sq_specs ex_abs ex_ops)).
Proof.
  destruct (sleepq_refines ex_mem ex_abs ex_ops) as (m' & E & Hr & _).
  - apply ex_represents.
  - apply (bool_decide_unpack _). by vm_compute.
  - exists m'. split; [|done]. rewrite E. by vm_compute.
Defined.
