(* ===== verification/RwLock.v ===== *)
(** * Readers/writer locks (uts/common/os/rwlock.c)

    One lock and any number of threads.  The lock is a word that threads read
    and change with atomic instructions, a hashed turnstile lock, and the two
    sleep queues of its turnstile (SleepQ).  A thread is in the middle of
    [rw_enter_sleep], [rw_exit_wakeup], [rw_tryenter], [rw_downgrade] or
    [rw_tryupgrade] ([pc]), or outside of them; each access to the word, and
    each section under the turnstile lock, is a step, and the steps of the
    threads interleave ([rstep]).

    The word is [uintptr_t] of either width.  A thread is the address of its
    [kthread_t], which is aligned to 32 bytes ([PTR24_ALIGN]); what is needed
    is alignment to 16. *)

From Stdlib Require Import ZArith Lia Sorted String.
From stdpp Require Import base numbers option functions gmap sorting list.
From S2P Require Import Prelude SleepQ.

#[local] Open Scope Z_scope.

(** ** The word *)

Definition RW_HAS_WAITERS : Z := 1.
Definition RW_WRITE_WANTED : Z := 2.
Definition RW_WRITE_LOCKED : Z := 4.
Definition RW_READ_LOCK : Z := 8.
Definition RW_WRITE_LOCK (thread : Z) : Z := Z.lor thread RW_WRITE_LOCKED.
Definition RW_HOLD_COUNT : Z := - RW_READ_LOCK.
Definition RW_OWNER : Z := RW_HOLD_COUNT.
Definition RW_LOCKED : Z := RW_HOLD_COUNT.
Definition RW_WRITE_CLAIMED : Z := Z.lor RW_WRITE_LOCKED RW_WRITE_WANTED.
Definition RW_DOUBLE_LOCK : Z := Z.lor (RW_WRITE_LOCK 0) RW_READ_LOCK.

Inductive krw := RW_READER | RW_WRITER.

#[global] Instance krw_eq_dec : EqDecision krw.
Proof. solve_decision. Defined.

(** ** Where a thread is *)

(** What follows a wakeup: the end of [rw_exit_wakeup] of a reader or
    writer, or of [rw_downgrade]. *)
Inductive wake_ret := AfterExit (rw : krw) | AfterDowngrade.

Inductive pc :=
  | Outside (h : option krw)        (* in no call, with what the calls gave *)
  | EnterLoad (rw : krw)            (* rw_enter_sleep: first read *)
  | EnterCas (rw : krw) (old : Z)
  | EnterLookup (rw : krw)          (* waiting for the turnstile lock *)
  | EnterReload (rw : krw)
  | EnterWait (rw : krw) (old : Z)  (* setting the waiters bits *)
  | EnterDrop (rw : krw)
  | EnterBlock (rw : krw)
  | Blocked (rw : krw)
  | ExitCheck (rw : krw)            (* rw_exit_wakeup of a thread that was given [rw] *)
  | ExitLoad (rw : krw)
  | ExitCas (rw : krw) (old new : Z)
  | ExitLookup (rw : krw) (old : Z)
  | ExitGrant (rw : krw) (old : Z)
  | Wake (k : wake_ret) (q : krw) (n : nat) (owner : Z)  (* turnstile_wakeup *)
  | TryLoad                         (* rw_tryenter *)
  | TryCas (old : Z)
  | TryWrite
  | DownCheck                       (* rw_downgrade *)
  | DownAdd
  | DownLookup
  | DownGrant
  | UpLoad                          (* rw_tryupgrade *)
  | UpCas (old new : Z).

(** The state: the word, the holder of the turnstile lock, the queues, the
    priorities, the requests for kernel priority ([t_kpri_req]) and the
    program counters.  [g_readers] and [g_writer] are not in the code: they
    say to whom the changes of the word have given the lock. *)
Record rwstate := Rw {
  rw_wwwh : Z;
  tc_lock : option Z;
  wq : list Z;
  rq : list Z;
  rt_pri : Z → Z;
  rt_kpri : Z → Z;
  rt_pc : Z → pc;
  g_readers : gset Z;
  g_writer : option Z
}.

Definition set_word (v : Z) (s : rwstate) : rwstate :=
  Rw v (tc_lock s) (wq s) (rq s) (rt_pri s) (rt_kpri s) (rt_pc s) (g_readers s) (g_writer s).
Definition set_tc (v : option Z) (s : rwstate) : rwstate :=
  Rw (rw_wwwh s) v (wq s) (rq s) (rt_pri s) (rt_kpri s) (rt_pc s) (g_readers s) (g_writer s).
Definition set_q (q : krw) (v : list Z) (s : rwstate) : rwstate :=
  Rw (rw_wwwh s) (tc_lock s) (if q is RW_WRITER then v else wq s) (if q is RW_READER then v else rq s)
    (rt_pri s) (rt_kpri s) (rt_pc s) (g_readers s) (g_writer s).
Definition set_pri (v : Z → Z) (s : rwstate) : rwstate :=
  Rw (rw_wwwh s) (tc_lock s) (wq s) (rq s) v (rt_kpri s) (rt_pc s) (g_readers s) (g_writer s).
Definition set_kpri (v : Z → Z) (s : rwstate) : rwstate :=
  Rw (rw_wwwh s) (tc_lock s) (wq s) (rq s) (rt_pri s) v (rt_pc s) (g_readers s) (g_writer s).
Definition set_pc (t : Z) (v : pc) (s : rwstate) : rwstate :=
  Rw (rw_wwwh s) (tc_lock s) (wq s) (rq s) (rt_pri s) (rt_kpri s) (<[t := v]> (rt_pc s)) (g_readers s) (g_writer s).
Definition set_hold (r : gset Z) (w : option Z) (s : rwstate) : rwstate :=
  Rw (rw_wwwh s) (tc_lock s) (wq s) (rq s) (rt_pri s) (rt_kpri s) (rt_pc s) r w.

Definition ts_queue (q : krw) (s : rwstate) : list Z := if q is RW_READER then rq s else wq s.

(** [THREAD_KPRI_REQUEST] and [THREAD_KPRI_RELEASE], and the request on
    behalf of the readers that are woken. *)
Definition kpri_add (t d : Z) (s : rwstate) : rwstate := set_kpri (<[t := rt_kpri s t + d]> (rt_kpri s)) s.
Definition kpri_grant (ts : list Z) (s : rwstate) : rwstate :=
  set_kpri (λ t, if decide (t ∈ ts) then rt_kpri s t + 1 else rt_kpri s t) s.

Definition kpri_release (rw : krw) (t : Z) (s : rwstate) : rwstate :=
  if rw is RW_READER then kpri_add t (-1) s else s.

(** Who holds the lock, for a thread that gets or drops it. *)
Definition gain (rw : krw) (t : Z) (s : rwstate) : rwstate :=
  if rw is RW_READER then set_hold ({[t]} ∪ g_readers s) (g_writer s) s else set_hold (g_readers s) (Some t) s.
Definition lose (rw : krw) (t : Z) (s : rwstate) : rwstate :=
  if rw is RW_READER then set_hold (g_readers s ∖ {[t]}) (g_writer s) s else set_hold (g_readers s) None s.

(** What a step of a thread does. *)
Inductive rwres := Go (s : rwstate) | Panic (msg : string) | Fault.

Section rwlock.
Context (lp64 : bool).

Definition uintptr_bit : Z := if lp64 then 64 else 32.

Definition uintptr (x : Z) : Z := wrapu uintptr_bit x.

Definition lock_value (rw : krw) (t : Z) : Z := if rw is RW_READER then RW_READ_LOCK else RW_WRITE_LOCK t.
Definition lock_busy (rw : krw) : Z := if rw is RW_READER then RW_WRITE_CLAIMED else RW_LOCKED.
Definition lock_wait (rw : krw) : Z := if rw is RW_READER then RW_HAS_WAITERS else Z.lor RW_HAS_WAITERS RW_WRITE_WANTED.

(** ** rw_enter_sleep *)

Definition enter_load (s : rwstate) (t : Z) (rw : krw) : rwres :=
  let old := rw_wwwh s in
  if Z.land old (lock_busy rw) =? 0 then Go (set_pc t (EnterCas rw old) s)
  else if Z.land old RW_DOUBLE_LOCK =? RW_DOUBLE_LOCK then Panic "rw_enter: bad rwlock"
  else if Z.land old RW_OWNER =? t then Panic "recursive rw_enter"
  else Go (set_pc t (EnterLookup rw) s).

Definition enter_cas (s : rwstate) (t : Z) (rw : krw) (old : Z) : rwstate :=
  if rw_wwwh s =? old then set_pc t (Outside (Some rw)) (gain rw t (set_word (uintptr (old + lock_value rw t)) s))
  else set_pc t (EnterLoad rw) s.

Definition enter_reload (s : rwstate) (t : Z) (rw : krw) : rwstate :=
  let old := rw_wwwh s in
  if Z.land old (lock_busy rw) =? 0 then set_pc t (EnterDrop rw) s
  else if old =? Z.lor old (lock_wait rw) then set_pc t (EnterBlock rw) s
  else set_pc t (EnterWait rw old) s.

Definition enter_wait (s : rwstate) (t : Z) (rw : krw) (old : Z) : rwstate :=
  if rw_wwwh s =? old then set_pc t (EnterBlock rw) (set_word (Z.lor old (lock_wait rw)) s)
  else set_pc t (EnterReload rw) s.

(** [turnstile_block] puts the thread on the queue and gives up the
    turnstile lock. *)
Definition enter_block (s : rwstate) (t : Z) (rw : krw) : rwstate :=
  let s := kpri_release rw t s in
  set_pc t (Blocked rw) (set_tc None (set_q rw (sq_ins (rt_pri s) t (ts_queue rw s)) s)).

(** ** rw_exit_wakeup *)

(** The readers that are woken with a writer: those before the first of a
    lower priority than the first writer. *)
Fixpoint readers_before (pri : Z → Z) (wpri : Z) (rs : list Z) : list Z :=
  match rs with
  | [] => []
  | r :: rs => if pri r <? wpri then [] else r :: readers_before pri wpri rs
  end.

Definition rw_readers_to_wake (s : rwstate) : list Z :=
  let wpri := match wq s with w :: _ => rt_pri s w | [] => -1 end in
  readers_before (rt_pri s) wpri (rq s).

Definition ts_waiters (s : rwstate) : nat := length (wq s) + length (rq s).

Definition exit_check (s : rwstate) (t : Z) : rwres :=
  let old := rw_wwwh s in
  if negb (Z.land old RW_WRITE_LOCKED =? 0) then
    if negb (Z.land old RW_OWNER =? t) then Panic "rw_exit: not owner"
    else Go (set_pc t (ExitLoad RW_WRITER) s)
  else if Z.land old RW_LOCKED =? 0 then Panic "rw_exit: lock not held"
  else Go (set_pc t (ExitLoad RW_READER) s).

Definition exit_load (s : rwstate) (t : Z) (rw : krw) : rwstate :=
  let old := rw_wwwh s in
  let new := uintptr (old - lock_value rw t) in
  if negb (Z.land new (Z.lor RW_LOCKED RW_HAS_WAITERS) =? RW_HAS_WAITERS) then set_pc t (ExitCas rw old new) s
  else set_pc t (ExitLookup rw old) s.

Definition exit_cas (s : rwstate) (t : Z) (rw : krw) (old new : Z) : rwstate :=
  if rw_wwwh s =? old then set_pc t (Outside None) (kpri_release rw t (lose rw t (set_word new s)))
  else set_pc t (ExitLoad rw) s.

(** Under the turnstile lock; without a turnstile [ts] is [NULL]. *)
Definition exit_grant (s : rwstate) (t : Z) (rw : krw) (old : Z) : rwres :=
  if decide (ts_waiters s = O) then Fault
  else
    let rs := if negb (Z.land old RW_WRITE_LOCKED =? 0) then rw_readers_to_wake s else [] in
    match rs with
    | _ :: _ =>
        let nreaders := length rs in
        let new := uintptr (s32 (Z.of_nat nreaders * RW_READ_LOCK)) in
        let new := if decide (nreaders < ts_waiters s)%nat then Z.lor new RW_HAS_WAITERS else new in
        let new := if wq s is _ :: _ then Z.lor new RW_WRITE_WANTED else new in
        let s := kpri_grant rs (lose rw t (set_word new s)) in
        Go (set_pc t (Wake (AfterExit rw) RW_READER nreaders 0) (set_hold (list_to_set rs ∪ g_readers s) (g_writer s) s))
    | [] =>
        match wq s with
        | [] => Fault
        | next_writer :: ws =>
            let new := RW_WRITE_LOCK next_writer in
            let new := if decide (1 < ts_waiters s)%nat then Z.lor new RW_HAS_WAITERS else new in
            let new := if ws is _ :: _ then Z.lor new RW_WRITE_WANTED else new in
            let s := lose rw t (set_word new s) in
            Go (set_pc t (Wake (AfterExit rw) RW_WRITER 1 next_writer) (set_hold (g_readers s) (Some next_writer) s))
        end
    end.

(** ** turnstile_wakeup *)

Definition wake_done (s : rwstate) (t : Z) (k : wake_ret) : rwstate :=
  match k with
  | AfterExit rw => set_pc t (Outside None) (kpri_release rw t s)
  | AfterDowngrade => set_pc t (Outside (Some RW_READER)) s
  end.

(** One round of the loop, or its end. *)
Definition wake_step (s : rwstate) (t : Z) (k : wake_ret) (q : krw) (n : nat) (owner : Z) : rwres :=
  match n with
  | O => if negb (owner =? 0) then Panic "turnstile_wakeup: owner not woken" else Go (wake_done (set_tc None s) t k)
  | S n =>
      match ts_queue q s with
      | [] => Fault
      | t' :: ts =>
          let owner := if t' =? owner then 0 else owner in
          Go (set_pc t' (Outside (Some q)) (set_pc t (Wake k q n owner) (set_q q ts s)))
      end
  end.

(** ** rw_tryenter, rw_downgrade, rw_tryupgrade *)

Definition try_load (s : rwstate) (t : Z) : rwstate :=
  let old := rw_wwwh s in
  if negb (Z.land old RW_WRITE_CLAIMED =? 0) then set_pc t (Outside None) (kpri_add t (-1) s)
  else set_pc t (TryCas old) s.

Definition try_cas (s : rwstate) (t : Z) (old : Z) : rwstate :=
  if rw_wwwh s =? old then
    set_pc t (Outside (Some RW_READER)) (gain RW_READER t (set_word (uintptr (old + RW_READ_LOCK)) s))
  else set_pc t TryLoad s.

Definition try_write (s : rwstate) (t : Z) : rwstate :=
  if rw_wwwh s =? 0 then set_pc t (Outside (Some RW_WRITER)) (gain RW_WRITER t (set_word (RW_WRITE_LOCK t) s))
  else set_pc t (Outside None) s.

Definition down_check (s : rwstate) (t : Z) : rwres :=
  if negb (Z.land (rw_wwwh s) RW_OWNER =? t) then Panic "rw_downgrade: not owner"
  else Go (set_pc t DownAdd s).

Definition down_add (s : rwstate) (t : Z) : rwstate :=
  let new := uintptr (rw_wwwh s + uintptr (RW_READ_LOCK - RW_WRITE_LOCK t)) in
  let s := gain RW_READER t (lose RW_WRITER t (set_word new s)) in
  if negb (Z.land new RW_HAS_WAITERS =? 0) then set_pc t DownLookup s else set_pc t (Outside (Some RW_READER)) s.

Definition down_grant (s : rwstate) (t : Z) : rwres :=
  if decide (ts_waiters s = O) then Fault
  else
    let rs := rw_readers_to_wake s in
    let nreaders := length rs in
    let s :=
      match rs with
      | [] => s
      | _ :: _ =>
          let delta := uintptr (s32 (Z.of_nat nreaders * RW_READ_LOCK)) in
          let delta := if decide (ts_waiters s = nreaders) then uintptr (delta - RW_HAS_WAITERS) else delta in
          let s := kpri_grant rs (set_word (uintptr (rw_wwwh s + delta)) s) in
          set_hold (list_to_set rs ∪ g_readers s) (g_writer s) s
      end in
    Go (set_pc t (Wake AfterDowngrade RW_READER nreaders 0) s).

Definition up_load (s : rwstate) (t : Z) : rwstate :=
  let old := rw_wwwh s in
  if negb (Z.land old (Z.lnot RW_HAS_WAITERS) =? RW_READ_LOCK) then set_pc t (Outside (Some RW_READER)) s
  else set_pc t (UpCas old (uintptr (old + RW_WRITE_LOCK t - RW_READ_LOCK))) s.

Definition up_cas (s : rwstate) (t : Z) (old new : Z) : rwstate :=
  if rw_wwwh s =? old then
    set_pc t (Outside (Some RW_WRITER)) (kpri_add t (-1) (gain RW_WRITER t (lose RW_READER t (set_word new s))))
  else set_pc t UpLoad s.

(** ** Steps *)

(** [turnstile_lookup]: the turnstile lock is a spin lock. *)
Definition lookup_step (s : rwstate) (t : Z) (p : pc) : option rwres :=
  match tc_lock s with None => Some (Go (set_pc t p (set_tc (Some t) s))) | Some _ => None end.

(** The next step of a thread, if it can make one. *)
Definition rw_step (s : rwstate) (t : Z) : option rwres :=
  match rt_pc s t with
  | Outside _ | Blocked _ => None
  | EnterLoad rw => Some (enter_load s t rw)
  | EnterCas rw old => Some (Go (enter_cas s t rw old))
  | EnterLookup rw => lookup_step s t (EnterReload rw)
  | EnterReload rw => Some (Go (enter_reload s t rw))
  | EnterWait rw old => Some (Go (enter_wait s t rw old))
  | EnterDrop rw => Some (Go (set_pc t (EnterLoad rw) (set_tc None s)))
  | EnterBlock rw => Some (Go (enter_block s t rw))
  | ExitCheck _ => Some (exit_check s t)
  | ExitLoad rw => Some (Go (exit_load s t rw))
  | ExitCas rw old new => Some (Go (exit_cas s t rw old new))
  | ExitLookup rw old => lookup_step s t (ExitGrant rw old)
  | ExitGrant rw old => Some (exit_grant s t rw old)
  | Wake k q n owner => Some (wake_step s t k q n owner)
  | TryLoad => Some (Go (try_load s t))
  | TryCas old => Some (Go (try_cas s t old))
  | TryWrite => Some (Go (try_write s t))
  | DownCheck => Some (down_check s t)
  | DownAdd => Some (Go (down_add s t))
  | DownLookup => lookup_step s t DownGrant
  | DownGrant => Some (down_grant s t)
  | UpLoad => Some (Go (up_load s t))
  | UpCas old new => Some (Go (up_cas s t old new))
  end.

(** The calls, by threads that keep to the protocol: a thread that holds the
    lock does not enter it again, and only a holder exits, downgrades or
    upgrades. *)
Inductive rwcall := CEnter (rw : krw) | CTryenter (rw : krw) | CExit | CDowngrade | CTryupgrade.

Definition rw_call (s : rwstate) (t : Z) (c : rwcall) : option rwstate :=
  match c, rt_pc s t with
  | CEnter RW_READER, Outside None => Some (set_pc t (EnterLoad RW_READER) (kpri_add t 1 s))
  | CEnter RW_WRITER, Outside None => Some (set_pc t (EnterLoad RW_WRITER) s)
  | CTryenter RW_READER, Outside None => Some (set_pc t TryLoad (kpri_add t 1 s))
  | CTryenter RW_WRITER, Outside None => Some (set_pc t TryWrite s)
  | CExit, Outside (Some rw) => Some (set_pc t (ExitCheck rw) s)
  | CDowngrade, Outside (Some RW_WRITER) => Some (set_pc t DownCheck (kpri_add t 1 s))
  | CTryupgrade, Outside (Some RW_READER) => Some (set_pc t UpLoad s)
  | _, _ => None
  end.

(** The dispatcher and the priority inheritance of turnstiles change the
    priority of a thread; of a sleeping one under the turnstile lock, with
    [turnstile_change_pri]. *)
Definition change_pri (s : rwstate) (t p : Z) : option rwstate :=
  let pri := <[t := p]> (rt_pri s) in
  if decide (t ∈ wq s) then
    if decide (tc_lock s = None) then Some (set_q RW_WRITER (sq_ins pri t (sq_del t (wq s))) (set_pri pri s)) else None
  else if decide (t ∈ rq s) then
    if decide (tc_lock s = None) then Some (set_q RW_READER (sq_ins pri t (sq_del t (rq s))) (set_pri pri s)) else None
  else Some (set_pri pri s).

(** The threads of the system.  The owner and the hold count share a field
    of the word, and [rw_enter_sleep] compares it with the address of the
    thread without looking at [RW_WRITE_LOCKED]: kernel addresses are larger
    than any hold count times 8. *)
Record threads_ok (T : gset Z) : Prop := {
  th_addr t : t ∈ T → 8 * Z.of_nat (size T) < t < 2 ^ uintptr_bit ∧ t `mod` 16 = 0;
  th_few : Z.of_nat (size T) < 2 ^ 28
}.

Context (T : gset Z).

Inductive rstep : rwstate → rwstate → Prop :=
  | rstep_thread s t s' : t ∈ T → rw_step s t = Some (Go s') → rstep s s'
  | rstep_call s t c s' : t ∈ T → rw_call s t c = Some s' → rstep s s'
  | rstep_pri s t p s' : 0 <= p → change_pri s t p = Some s' → rstep s s'.

(** [rw_init], with the threads outside. *)
Definition rw_init (pri : Z → Z) : rwstate :=
  Rw 0 None [] [] pri (λ _, 0) (λ _, Outside None) ∅ None.

Definition reachable (s : rwstate) : Prop := ∃ pri, (∀ t, 0 <= pri t) ∧ rtc rstep (rw_init pri) s.

(** ** Observers *)

Definition rw_locked (s : rwstate) (t : Z) (rw : krw) : bool :=
  let old := rw_wwwh s in
  if rw is RW_READER then negb (Z.land old RW_LOCKED =? 0) && (Z.land old RW_WRITE_LOCKED =? 0)
  else Z.land old RW_OWNER =? t.
Definition rw_read_held (s : rwstate) : bool :=
  negb (Z.land (rw_wwwh s) RW_LOCKED =? 0) && (Z.land (rw_wwwh s) RW_WRITE_LOCKED =? 0).
Definition rw_write_held (s : rwstate) : bool := negb (Z.land (rw_wwwh s) RW_WRITE_LOCKED =? 0).
Definition rw_lock_held (s : rwstate) : bool := negb (Z.land (rw_wwwh s) RW_LOCKED =? 0).
Definition rw_iswriter (s : rwstate) : bool := negb (Z.land (rw_wwwh s) RW_WRITE_CLAIMED =? 0).
Definition rw_owner (s : rwstate) : Z :=
  let old := rw_wwwh s in if negb (Z.land old RW_WRITE_LOCKED =? 0) then Z.land old RW_OWNER else 0.

(** [rw_destroy] leaves a word that no lock has. *)
Definition rw_destroy (s : rwstate) : rwres :=
  if negb (rw_wwwh s =? 0) then Panic "rw_destroy: lock still active" else Go (set_word RW_DOUBLE_LOCK s).

(** ** Arithmetic of the word *)

Lemma land_split a b : Z.land a b = 8 * Z.land (a `div` 8) (b `div` 8) + Z.land (a `mod` 8) (b `mod` 8).
Proof.
  change 8 with (2 ^ 3). rewrite <- !Z.shiftr_div_pow2, <- Z.shiftr_land, Z.shiftr_div_pow2 by lia.
  rewrite <- !Z.land_ones by lia.
  assert (Z.land (Z.land a (Z.ones 3)) (Z.land b (Z.ones 3)) = Z.land a b `mod` 2 ^ 3) as ->.
  { rewrite <- Z.land_ones by lia. apply Z.bits_inj'. intros i Hi. rewrite !Z.land_spec. by destruct (Z.testbit a i), (Z.testbit b i), (Z.testbit (Z.ones 3) i). }
  apply Z.div_mod. lia.
Qed.

Lemma lor_split a b : Z.lor a b = 8 * Z.lor (a `div` 8) (b `div` 8) + Z.lor (a `mod` 8) (b `mod` 8).
Proof.
  change 8 with (2 ^ 3). rewrite <- !Z.shiftr_div_pow2, <- Z.shiftr_lor, Z.shiftr_div_pow2 by lia.
  rewrite <- !Z.land_ones, <- Z.land_lor_distr_l, Z.land_ones by lia. apply Z.div_mod. lia.
Qed.

(** The parts of a word: owner or count, write-locked, write-wanted,
    waiters. *)
Definition wd (x : Z) (l b a : bool) : Z := 8 * x + (4 * Z.b2z l + 2 * Z.b2z b + Z.b2z a).

Lemma wd_div x l b a : wd x l b a `div` 8 = x ∧ wd x l b a `mod` 8 = 4 * Z.b2z l + 2 * Z.b2z b + Z.b2z a.
Proof.
  unfold wd. assert (0 <= 4 * Z.b2z l + 2 * Z.b2z b + Z.b2z a < 8) as H by (destruct l, b, a; cbn; lia).
  split; symmetry; [apply (Z.div_unique_pos _ _ _ _ H)|apply (Z.mod_unique_pos _ _ x _ H)]; lia.
Qed.

Lemma land_wd x l b a mh ml :
  0 <= ml < 8 → Z.land (wd x l b a) (8 * mh + ml) = 8 * Z.land x mh + Z.land (4 * Z.b2z l + 2 * Z.b2z b + Z.b2z a) ml.
Proof.
  intros Hm. rewrite land_split. destruct (wd_div x l b a) as [-> ->]. f_equal.
  - do 2 f_equal. symmetry. apply (Z.div_unique_pos _ _ _ _ Hm). lia.
  - f_equal. symmetry. apply (Z.mod_unique_pos _ _ mh _ Hm). lia.
Qed.

Lemma land_waiters x l b a : Z.land (wd x l b a) RW_HAS_WAITERS = Z.b2z a.
Proof. change RW_HAS_WAITERS with (8 * 0 + 1). rewrite land_wd, Z.land_0_r by lia. by destruct l, b, a. Qed.
Lemma land_wlocked x l b a : Z.land (wd x l b a) RW_WRITE_LOCKED = 4 * Z.b2z l.
Proof. change RW_WRITE_LOCKED with (8 * 0 + 4). rewrite land_wd, Z.land_0_r by lia. by destruct l, b, a. Qed.
Lemma land_claimed x l b a : Z.land (wd x l b a) RW_WRITE_CLAIMED = 4 * Z.b2z l + 2 * Z.b2z b.
Proof. change RW_WRITE_CLAIMED with (8 * 0 + 6). rewrite land_wd, Z.land_0_r by lia. by destruct l, b, a. Qed.
Lemma land_locked x l b a : Z.land (wd x l b a) RW_LOCKED = 8 * x.
Proof. change RW_LOCKED with (8 * -1 + 0). rewrite land_wd, Z.land_m1_r, Z.land_0_r by lia. lia. Qed.
Lemma land_final x l b a : Z.land (wd x l b a) (Z.lor RW_LOCKED RW_HAS_WAITERS) = 8 * x + Z.b2z a.
Proof.
  change (Z.lor RW_LOCKED RW_HAS_WAITERS) with (8 * -1 + 1). rewrite land_wd, Z.land_m1_r by lia. by destruct l, b, a.
Qed.
Lemma land_not_waiters x l b a : Z.land (wd x l b a) (Z.lnot RW_HAS_WAITERS) = wd x l b false.
Proof.
  change (Z.lnot RW_HAS_WAITERS) with (8 * -1 + 6). rewrite land_wd, Z.land_m1_r by lia. unfold wd.
  by destruct l, b, a.
Qed.
Lemma land_double x l b a : Z.land (wd x l b a) RW_DOUBLE_LOCK = RW_DOUBLE_LOCK → x `mod` 2 = 1 ∧ l = true.
Proof.
  change RW_DOUBLE_LOCK with (8 * 1 + 4). rewrite land_wd by lia.
  pose proof (Z.land_ones x 1 ltac:(lia)) as E. change (Z.ones 1) with 1 in E. change (2 ^ 1) with 2 in E. rewrite E.
  pose proof (Z.mod_pos_bound x 2 ltac:(lia)). assert (Z.land (4 * Z.b2z l + 2 * Z.b2z b + Z.b2z a) 4 = 4 * Z.b2z l) as -> by (by destruct l, b, a).
  destruct l; cbn [Z.b2z]; intros H1; split; (lia || done).
Qed.
Lemma lor_wd x l b a m :
  0 <= m < 8 → Z.lor (wd x l b a) m = 8 * x + Z.lor (4 * Z.b2z l + 2 * Z.b2z b + Z.b2z a) m.
Proof.
  intros Hm. rewrite lor_split. destruct (wd_div x l b a) as [-> ->].
  by rewrite (Z.div_small m), (Z.mod_small m), Z.lor_0_r by lia.
Qed.
Lemma lor_wait x l b a rw :
  Z.lor (wd x l b a) (lock_wait rw) = wd x l (if rw is RW_WRITER then true else b) true.
Proof. destruct rw; [change (lock_wait _) with 1|change (lock_wait _) with 3]; rewrite lor_wd by lia; unfold wd; by destruct l, b, a. Qed.
Lemma lor_waiters x l b a : Z.lor (wd x l b a) RW_HAS_WAITERS = wd x l b true.
Proof. change RW_HAS_WAITERS with 1. rewrite lor_wd by lia. unfold wd. by destruct l, b, a. Qed.
Lemma lor_wanted x l b a : Z.lor (wd x l b a) RW_WRITE_WANTED = wd x l true a.
Proof. change RW_WRITE_WANTED with 2. rewrite lor_wd by lia. unfold wd. by destruct l, b, a. Qed.

Lemma wd_inj x l b a x' l' b' a' : wd x l b a = wd x' l' b' a' → x = x' ∧ l = l' ∧ b = b' ∧ a = a'.
Proof.
  intros E. destruct (wd_div x l b a) as [E1 E2]. destruct (wd_div x' l' b' a') as [E3 E4]. rewrite E in E1, E2.
  rewrite E1 in E3. rewrite E2 in E4. destruct l, b, a, l', b', a'; cbn in E4; (done || lia).
Qed.
End rwlock.
