(* ===== verification/RwInv.v ===== *)
(** * The invariant of a readers/writer lock

    What holds between the steps of the threads of RwLock: the word says who
    holds the lock and, exactly, whether anybody waits; waiting readers are
    behind a writer or about to be woken by a downgrade; threads that have
    been given the lock are the first on their queue until they are woken. *)

From Stdlib Require Import ZArith Lia Sorted String.
From stdpp Require Import base numbers option functions gmap sorting list.
From S2P Require Import Prelude SleepQ RwLock.

#[local] Open Scope Z_scope.

(** ** What a program counter says *)

(** The lock the thread has; a blocked thread has it when it is among the
    first [n] that are being woken. *)
Definition pc_hold (p : pc) : option krw :=
  match p with
  | Outside h => h
  | ExitCheck rw | ExitLoad rw | ExitCas rw _ _ | ExitLookup rw _ | ExitGrant rw _ => Some rw
  | Wake AfterDowngrade _ _ _ | DownLookup | DownGrant | UpLoad | UpCas _ _ => Some RW_READER
  | DownCheck | DownAdd => Some RW_WRITER
  | _ => None
  end.

(** The turnstile lock. *)
Definition pc_locks (p : pc) : bool :=
  match p with
  | EnterReload _ | EnterWait _ _ | EnterDrop _ | EnterBlock _ | ExitGrant _ _ | Wake _ _ _ _ | DownGrant => true
  | _ => false
  end.

(** A downgrade that has not yet looked at the waiting readers. *)
Definition pc_window (p : pc) : bool := match p with DownLookup | DownGrant => true | _ => false end.

(** Requests for kernel priority. *)
Definition reader_kpri (rw : krw) : Z := if rw is RW_READER then 1 else 0.
Definition pc_kpri (p : pc) : Z :=
  match p with
  | Outside (Some rw) | EnterLoad rw | EnterCas rw _ | EnterLookup rw | EnterReload rw | EnterWait rw _
  | EnterDrop rw | EnterBlock rw | ExitCheck rw | ExitLoad rw | ExitCas rw _ _ | ExitLookup rw _ | ExitGrant rw _
  | Wake (AfterExit rw) _ _ _ => reader_kpri rw
  | Wake AfterDowngrade _ _ _ | TryLoad | TryCas _ | DownCheck | DownAdd | DownLookup | DownGrant | UpLoad | UpCas _ _ => 1
  | Outside None | Blocked _ | TryWrite => 0
  end.

(** ** The section under the turnstile lock *)

(** The program counter of the thread that has the turnstile lock. *)
Definition crit (s : rwstate) : option pc := rt_pc s <$> tc_lock s.

(** The threads of queue [q] that have been given the lock, and those that
    still wait for it. *)
Definition given (c : option pc) (q : krw) (l : list Z) : list Z :=
  match c with Some (Wake _ q' n _) => if decide (q' = q) then take n l else [] | _ => [] end.
Definition left_ (c : option pc) (q : krw) (l : list Z) : list Z :=
  match c with Some (Wake _ q' n _) => if decide (q' = q) then drop n l else l | _ => l end.

(** Whether somebody waits, or is about to. *)
Definition wants (c : option pc) (q : krw) (l : list Z) : bool :=
  match left_ c q l with
  | _ :: _ => true
  | [] => match c with Some (EnterBlock q') => bool_decide (q' = q) | _ => false end
  end.

Definition bit_w (s : rwstate) : bool := wants (crit s) RW_WRITER (wq s).
Definition bit_r (s : rwstate) : bool := wants (crit s) RW_READER (rq s).
Definition granted (s : rwstate) (q : krw) : list Z := given (crit s) q (ts_queue q s).

(** ** The invariant *)

Definition holds (R : gset Z) (W : option Z) (t : Z) (h : option krw) : Prop :=
  (t ∈ R ↔ h = Some RW_READER) ∧ (W = Some t ↔ h = Some RW_WRITER).

(** The word for a lock held by [R] or [W]. *)
Definition encode (R : gset Z) (W : option Z) (b a : bool) : Z :=
  match W with Some t => wd (t `div` 8) true b a | None => wd (Z.of_nat (size R)) false b a end.

Section inv.
Context (lp64 : bool) (T : gset Z).

(** What a program counter remembers. *)
Definition pc_ok (R : gset Z) (b a : bool) (t : Z) (p : pc) : Prop :=
  match p with
  | EnterCas rw old => Z.land old (lock_busy rw) = 0
  | TryCas old => Z.land old RW_WRITE_CLAIMED = 0
  | EnterWait rw old => Z.land old (lock_busy rw) ≠ 0
  | ExitCas rw old new =>
      new = uintptr lp64 (old - lock_value rw t) ∧ Z.land new (Z.lor RW_LOCKED RW_HAS_WAITERS) ≠ RW_HAS_WAITERS
  | ExitLookup RW_READER old | ExitGrant RW_READER old => Z.land old RW_WRITE_LOCKED = 0 ∧ b = true ∧ R = {[t]}
  | ExitLookup RW_WRITER old | ExitGrant RW_WRITER old => Z.land old RW_WRITE_LOCKED ≠ 0 ∧ a = true
  | DownLookup | DownGrant => a = true
  | UpCas old new =>
      Z.land old (Z.lnot RW_HAS_WAITERS) = RW_READ_LOCK ∧ new = uintptr lp64 (old + RW_WRITE_LOCK t - RW_READ_LOCK)
  | _ => True
  end.

(** The lock and the kernel priority of a thread, given the threads that are
    being woken. *)
Definition has (G : krw → list Z) (t : Z) (p : pc) : option krw :=
  if p is Blocked q then (if decide (t ∈ G q) then Some q else None) else pc_hold p.
Definition kpri_of (G : krw → list Z) (t : Z) (p : pc) : Z :=
  if p is Blocked q then (if decide (t ∈ G q) then reader_kpri q else 0) else pc_kpri p.

Record rinv (s : rwstate) : Prop := {
  i_word : rw_wwwh s = encode (g_readers s) (g_writer s) (bit_w s) (bit_w s || bit_r s);
  i_excl : is_Some (g_writer s) → g_readers s = ∅;
  i_free : g_writer s = None → g_readers s = ∅ → bit_w s || bit_r s = false;
  i_behind : bit_r s = true → g_writer s = None → bit_w s = false → ∃ t, pc_window (rt_pc s t) = true;
  i_window t u : pc_window (rt_pc s t) = true → pc_window (rt_pc s u) = true → t = u;
  i_lock t : tc_lock s = Some t ↔ pc_locks (rt_pc s t) = true;
  i_queue q t : t ∈ ts_queue q s ↔ rt_pc s t = Blocked q;
  i_nodup q : NoDup (ts_queue q s);
  i_sorted q : sq_sorted (rt_pri s) (ts_queue q s);
  i_pri t : 0 <= rt_pri s t;
  i_wake t k q n owner : rt_pc s t = Wake k q n owner →
    (n <= length (ts_queue q s))%nat ∧ (q = RW_WRITER → n <= 1)%nat ∧
    owner = match q, n with RW_WRITER, S _ => hd 0 (wq s) | _, _ => 0 end;
  i_thread t : t ∈ T ∨ rt_pc s t = Outside None;
  i_holds t : holds (g_readers s) (g_writer s) t (has (granted s) t (rt_pc s t));
  i_kpri t : rt_kpri s t = kpri_of (granted s) t (rt_pc s t);
  i_pc t : pc_ok (g_readers s) (bit_w s) (bit_w s || bit_r s) t (rt_pc s t)
}.

Lemma rinv_init pri : (∀ t, 0 <= pri t) → rinv (rw_init pri).
Proof.
  intros Hp. split; cbn; try done.
  - intros q t. destruct q; split; (done || by intros ?%elem_of_nil).
  - intros []; constructor.
  - intros []; constructor.
  - by right.
Qed.
(** ** Steps of a thread without the turnstile lock *)

Lemma insert_pc s t p u : (<[t := p]> (rt_pc s)) u = if decide (u = t) then p else rt_pc s u.
Proof. case_decide as E; [subst; apply fn_lookup_insert|by apply fn_lookup_insert_ne]. Qed.

Definition unblocked (p : pc) : Prop := ∀ q, p ≠ Blocked q.

Lemma has_unblocked G t p : unblocked p → has G t p = pc_hold p.
Proof. intros H. destruct p; try done. by destruct (H rw). Qed.

Lemma kpri_unblocked G t p : unblocked p → kpri_of G t p = pc_kpri p.
Proof. intros H. destruct p; try done. by destruct (H rw). Qed.

Lemma crit_other s t : rinv s → pc_locks (rt_pc s t) = false → ∀ p, (<[t := p]> (rt_pc s)) <$> tc_lock s = crit s.
Proof.
  intros Hi Ht p. unfold crit. destruct (tc_lock s) as [w|] eqn:E; [|done]. cbn. f_equal.
  rewrite insert_pc, decide_False; [done|]. intros ->. apply (i_lock _ Hi) in E. congruence.
Qed.

(** What other threads remember does not depend on more than this. *)
Lemma pc_ok_readers R R' b a u p :
  (b = true → R = {[u]} → R' = {[u]}) → pc_ok R b a u p → pc_ok R' b a u p.
Proof. intros H. destruct p; cbn; try done; destruct rw; naive_solver. Qed.

Section plain.
Context (s : rwstate) (t : Z) (p : pc) (w' : Z) (R' : gset Z) (W' : option Z) (kp' : Z → Z).
Context (Hi : rinv s) (Ht : t ∈ T).
Context (Hl0 : pc_locks (rt_pc s t) = false) (Hb0 : unblocked (rt_pc s t)).
Context (Hl : pc_locks p = false) (Hb : unblocked p).

Definition plain_next : rwstate := Rw w' (tc_lock s) (wq s) (rq s) (rt_pri s) kp' (<[t := p]> (rt_pc s)) R' W'.

Lemma plain_bits : bit_w plain_next = bit_w s ∧ bit_r plain_next = bit_r s ∧ ∀ q, granted plain_next q = granted s q.
Proof.
  unfold bit_w, bit_r, granted. assert (crit plain_next = crit s) as -> by exact (crit_other s t Hi Hl0 p).
  split_and!; [done..|]. by intros [].
Qed.

Lemma inv_plain :
  w' = encode R' W' (bit_w s) (bit_w s || bit_r s) → (is_Some W' → R' = ∅) →
  (W' = None → R' = ∅ → bit_w s || bit_r s = false) →
  (bit_r s = true → W' = None → bit_w s = false →
     pc_window p = true ∨ ∃ u, u ≠ t ∧ pc_window (rt_pc s u) = true) →
  (pc_window p = true → ∀ u, u ≠ t → pc_window (rt_pc s u) = false) →
  (∀ u, u ≠ t → kp' u = rt_kpri s u) → kp' t = pc_kpri p →
  (∀ u, u ≠ t → (u ∈ R' ↔ u ∈ g_readers s) ∧ (W' = Some u ↔ g_writer s = Some u)) →
  holds R' W' t (pc_hold p) → pc_ok R' (bit_w s) (bit_w s || bit_r s) t p →
  (∀ u, u ≠ t → bit_w s = true → g_readers s = {[u]} → R' = {[u]}) → rinv plain_next.
Proof.
  intros Hw Hex Hfr Hbe Hwin Hku Hkt Hhu Hht Hpt Hpu. destruct plain_bits as (Eb & Er & Eg).
  split; rewrite ?Eb, ?Er; cbn; try done.
  - intros H1 H2 H3. destruct (Hbe H1 H2 H3) as [Hp|(u & Hne & Hu)].
    + exists t. by rewrite insert_pc, decide_True.
    + exists u. by rewrite insert_pc, decide_False.
  - intros x y. rewrite !insert_pc. case_decide as Ex; case_decide as Ey; [congruence| | |by apply Hi].
    + intros Hp Hy. by rewrite (Hwin Hp y Ey) in Hy.
    + intros Hx Hp. by rewrite (Hwin Hp x Ex) in Hx.
  - intros u. rewrite insert_pc. case_decide as E; [subst|by apply Hi]. rewrite (i_lock _ Hi), Hl0, Hl. done.
  - intros q u. rewrite insert_pc. pose proof (i_queue _ Hi q u) as Hq. case_decide as E; [subst|by destruct q].
    assert (ts_queue q plain_next = ts_queue q s) as -> by (by destruct q). rewrite Hq. split; intros E; exfalso; [by apply (Hb0 q)|by apply (Hb q)].
  - intros q. pose proof (i_nodup _ Hi q). by destruct q.
  - intros q. pose proof (i_sorted _ Hi q). by destruct q.
  - apply Hi.
  - intros u k q n owner. rewrite insert_pc. case_decide as E.
    + intros ->. done.
    + intros Hu. pose proof (i_wake _ Hi u k q n owner Hu) as Hk. by destruct q.
  - intros u. rewrite insert_pc. case_decide; [subst; by left|apply Hi].
  - intros u. rewrite insert_pc. unfold has. case_decide as E.
    + subst. pose proof (has_unblocked (granted plain_next) t p Hb) as Eh. unfold has in Eh. by rewrite Eh.
    + pose proof (i_holds _ Hi u) as [H1 H2]. unfold has in H1, H2. destruct (Hhu u E) as [H3 H4]. unfold holds.
      rewrite H3, H4. destruct (rt_pc s u); try done. by rewrite Eg.
  - intros u. rewrite insert_pc. unfold kpri_of. case_decide as E.
    + subst. pose proof (kpri_unblocked (granted plain_next) t p Hb) as Eh. unfold kpri_of in Eh. by rewrite Eh.
    + rewrite Hku, (i_kpri _ Hi u) by done. unfold kpri_of. destruct (rt_pc s u); try done. by rewrite Eg.
  - intros u. rewrite insert_pc. case_decide as E; [by subst|]. apply (pc_ok_readers (g_readers s)); [by apply Hpu|apply Hi].
Qed.
End plain.

(** Steps that only move the thread. *)
Lemma inv_move_kpri s t p kp' :
  rinv s → t ∈ T → pc_locks (rt_pc s t) = false → unblocked (rt_pc s t) → pc_locks p = false → unblocked p →
  pc_hold p = pc_hold (rt_pc s t) → pc_window p = pc_window (rt_pc s t) →
  (∀ u, u ≠ t → kp' u = rt_kpri s u) → kp' t = pc_kpri p →
  pc_ok (g_readers s) (bit_w s) (bit_w s || bit_r s) t p → rinv (set_pc t p (set_kpri kp' s)).
Proof.
  intros Hi Ht Hl0 Hb0 Hl Hb Eh Ew Hku Hkt Hp.
  apply (inv_plain s t p (rw_wwwh s) (g_readers s) (g_writer s) kp'); try done;
    [apply (i_word _ Hi)|apply (i_excl _ Hi)|apply (i_free _ Hi)|..].
  - intros H1 H2 H3. destruct (i_behind _ Hi H1 H2 H3) as [u Hu]. destruct (decide (u = t)) as [->|]; [|by eauto].
    left. by rewrite Ew.
  - intros Hw u Hne. destruct (pc_window (rt_pc s u)) eqn:Eu; [|done]. destruct Hne. apply (i_window _ Hi); [done|by rewrite <- Ew].
  - rewrite Eh, <- (has_unblocked (granted s) t) by done. apply (i_holds _ Hi).
Qed.

Lemma rw_inv_move s t p :
  rinv s → t ∈ T → pc_locks (rt_pc s t) = false → unblocked (rt_pc s t) → pc_locks p = false → unblocked p →
  pc_hold p = pc_hold (rt_pc s t) → pc_window p = pc_window (rt_pc s t) → pc_kpri p = pc_kpri (rt_pc s t) →
  pc_ok (g_readers s) (bit_w s) (bit_w s || bit_r s) t p → rinv (set_pc t p s).
Proof.
  intros Hi Ht Hl0 Hb0 Hl Hb Eh Ew Ek Hp. apply (inv_move_kpri s t p (rt_kpri s)); try done.
  by rewrite (i_kpri _ Hi), kpri_unblocked, Ek by done.
Qed.

Lemma kpri_add_other s t d u : u ≠ t → <[t := rt_kpri s t + d]> (rt_kpri s) u = rt_kpri s u.
Proof. intros Hu. by rewrite fn_lookup_insert_ne. Qed.

Lemma kpri_add_self s t d p : rinv s → unblocked (rt_pc s t) → pc_kpri p = pc_kpri (rt_pc s t) + d →
  <[t := rt_kpri s t + d]> (rt_kpri s) t = pc_kpri p.
Proof. intros Hi Hb E. by rewrite fn_lookup_insert, (i_kpri _ Hi), kpri_unblocked, E by done. Qed.

(** ** The word of a state *)

Context (HT : threads_ok lp64 T).

Lemma bit_range : 32 <= uintptr_bit lp64 <= 64.
Proof. unfold uintptr_bit. destruct lp64; lia. Qed.

Lemma uintptr_id x : 0 <= x < 2 ^ uintptr_bit lp64 → uintptr lp64 x = x.
Proof. apply wrapu_id. Qed.

Lemma bit_pow : 2 ^ 32 <= 2 ^ uintptr_bit lp64.
Proof. apply Z.pow_le_mono_r; pose proof bit_range; lia. Qed.

Lemma th_word t b a : t ∈ T → wd (t `div` 8) true b a = t + 4 + 2 * Z.b2z b + Z.b2z a ∧
  0 <= wd (t `div` 8) true b a < 2 ^ uintptr_bit lp64 ∧ 0 < t `div` 8 ∧ (t `div` 8) `mod` 2 = 0 ∧ 8 * (t `div` 8) = t.
Proof.
  intros Ht. destruct (th_addr _ _ HT t Ht) as [Hr Hm]. pose proof bit_range. assert (0 < t) by lia.
  assert (2 ^ uintptr_bit lp64 = 16 * 2 ^ (uintptr_bit lp64 - 4)) as Hp.
  { change 16 with (2 ^ 4). rewrite <- Z.pow_add_r by lia. f_equal. lia. }
  assert (t = 16 * (t `div` 16)) as E by (pose proof (Z.div_mod t 16); lia). set (y := t `div` 16) in *.
  assert (t `div` 8 = 2 * y) as Ed by (rewrite E; replace (16 * y) with (2 * y * 8) by lia; apply Z.div_mul; lia).
  assert (0 <= Z.b2z b <= 1 ∧ 0 <= Z.b2z a <= 1) by (destruct b, a; cbn; lia).
  assert (y < 2 ^ (uintptr_bit lp64 - 4)) by lia.
  rewrite Ed. unfold wd. cbn [Z.b2z]. split_and!; try lia. rewrite Z.mul_comm. apply Z.mod_mul. lia.
Qed.

Lemma write_lock_wd t : t ∈ T → RW_WRITE_LOCK t = wd (t `div` 8) true false false.
Proof.
  intros Ht. destruct (th_word t false false Ht) as (_ & _ & _ & _ & E).
  assert (t = wd (t `div` 8) false false false) as Et by (unfold wd; cbn [Z.b2z]; lia).
  unfold RW_WRITE_LOCK. rewrite Et at 1. change RW_WRITE_LOCKED with 4. by rewrite lor_wd by lia.
Qed.

Lemma wd_count n b a : (n <= size T)%nat → 0 <= wd (Z.of_nat n) false b a < 2 ^ uintptr_bit lp64.
Proof.
  intros Hn. pose proof (th_few _ _ HT). pose proof bit_pow. unfold wd.
  assert (0 <= Z.b2z b <= 1 ∧ 0 <= Z.b2z a <= 1) by (destruct b, a; cbn; lia). cbn [Z.b2z]. lia.
Qed.

Lemma readers_in s t : rinv s → t ∈ g_readers s → t ∈ T.
Proof.
  intros Hi Hr. destruct (i_thread _ Hi t) as [|E]; [done|]. pose proof (i_holds _ Hi t) as [H _]. rewrite E in H.
  by apply H in Hr.
Qed.

Lemma writer_in s t : rinv s → g_writer s = Some t → t ∈ T.
Proof.
  intros Hi Hr. destruct (i_thread _ Hi t) as [|E]; [done|]. pose proof (i_holds _ Hi t) as [_ H]. rewrite E in H.
  by apply H in Hr.
Qed.

Lemma readers_size s : rinv s → (size (g_readers s) <= size T)%nat.
Proof. intros Hi. apply subseteq_size. intros t. by apply readers_in. Qed.

(** What a program counter says about the holders. *)
Lemma hold_reader s t : rinv s → unblocked (rt_pc s t) → pc_hold (rt_pc s t) = Some RW_READER →
  t ∈ g_readers s ∧ g_writer s = None.
Proof.
  intros Hi Hb Hh. pose proof (i_holds _ Hi t) as [H _]. rewrite has_unblocked in H by done. apply H in Hh. split; [done|].
  destruct (g_writer s) eqn:E; [|done]. pose proof (i_excl _ Hi) as He. rewrite He in Hh by done. by apply elem_of_empty in Hh.
Qed.

Lemma hold_writer s t : rinv s → unblocked (rt_pc s t) → pc_hold (rt_pc s t) = Some RW_WRITER →
  g_writer s = Some t ∧ g_readers s = ∅.
Proof.
  intros Hi Hb Hh. pose proof (i_holds _ Hi t) as [_ H]. rewrite has_unblocked in H by done. apply H in Hh.
  split; [done|]. by apply (i_excl _ Hi).
Qed.

Lemma hold_none s t : rinv s → unblocked (rt_pc s t) → pc_hold (rt_pc s t) = None →
  (t ∉ g_readers s) ∧ g_writer s ≠ Some t.
Proof.
  intros Hi Hb Hh. pose proof (i_holds _ Hi t) as [H1 H2]. rewrite has_unblocked, Hh in H1, H2 by done. naive_solver.
Qed.

(** The parts of the word. *)
Lemma word_free s : rinv s → g_writer s = None → g_readers s = ∅ → rw_wwwh s = 0.
Proof.
  intros Hi Hw Hr. rewrite (i_word _ Hi), Hw, Hr. cbn. pose proof (i_free _ Hi Hw Hr) as E. rewrite E.
  apply orb_false_elim in E as [-> _]. by rewrite size_empty.
Qed.

Lemma word_reader s : rinv s → g_writer s = None →
  rw_wwwh s = wd (Z.of_nat (size (g_readers s))) false (bit_w s) (bit_w s || bit_r s).
Proof. intros Hi Hw. by rewrite (i_word _ Hi), Hw. Qed.

Lemma word_writer s t : rinv s → g_writer s = Some t →
  rw_wwwh s = wd (t `div` 8) true (bit_w s) (bit_w s || bit_r s).
Proof. intros Hi Hw. by rewrite (i_word _ Hi), Hw. Qed.

(** The tests of the code. *)
Lemma busy_reader s : rinv s → Z.land (rw_wwwh s) (lock_busy RW_READER) = 0 ↔ g_writer s = None ∧ bit_w s = false.
Proof.
  intros Hi. cbn [lock_busy]. destruct (g_writer s) as [t|] eqn:Hw.
  - rewrite (word_writer s t), land_claimed by done. cbn [Z.b2z]. split; [|by intros [? _]]. destruct (bit_w s); cbn; lia.
  - rewrite word_reader, land_claimed by done. cbn [Z.b2z]. destruct (bit_w s); cbn; naive_solver lia.
Qed.

Lemma busy_writer s : rinv s → Z.land (rw_wwwh s) (lock_busy RW_WRITER) = 0 ↔ g_writer s = None ∧ g_readers s = ∅.
Proof.
  intros Hi. cbn [lock_busy]. destruct (g_writer s) as [t|] eqn:Hw.
  - rewrite (word_writer s t), land_locked by done. split; [|by intros [? _]].
    pose proof (th_word t false false (writer_in s t Hi Hw)). lia.
  - rewrite word_reader, land_locked by done. split; [|intros [_ ->]; by rewrite size_empty].
    intros E. split; [done|]. apply leibniz_equiv, size_empty_inv. lia.
Qed.

(** ** Steps that change the word *)

(** A thread becomes a reader. *)
Lemma inv_gain_reader s t p :
  rinv s → t ∈ T → pc_locks (rt_pc s t) = false → unblocked (rt_pc s t) → pc_hold (rt_pc s t) = None →
  pc_kpri (rt_pc s t) = 1 → Z.land (rw_wwwh s) (lock_busy RW_READER) = 0 → p = Outside (Some RW_READER) →
  rinv (set_pc t p (gain RW_READER t (set_word (uintptr lp64 (rw_wwwh s + RW_READ_LOCK)) s))).
Proof.
  intros Hi Ht Hl Hb Hh Hk [Hw Hbw]%busy_reader ->; [|done]. destruct (hold_none s t Hi Hb Hh) as [Hnr _].
  assert (uintptr lp64 (rw_wwwh s + RW_READ_LOCK) =
    encode ({[t]} ∪ g_readers s) None (bit_w s) (bit_w s || bit_r s)) as Ew.
  { rewrite word_reader by done. unfold encode. rewrite size_union, size_singleton by set_solver.
    assert (∀ n b a, wd (Z.of_nat n) false b a + RW_READ_LOCK = wd (Z.of_nat (1 + n)) false b a) as ->.
    { intros. unfold wd, RW_READ_LOCK. lia. }
    apply uintptr_id, wd_count. rewrite <- (size_singleton (C := gset Z) t), <- size_union by set_solver.
      apply subseteq_size. intros u [->%elem_of_singleton|Hu]%elem_of_union; [done|by apply (readers_in s)]. }
  apply (inv_plain s t (Outside (Some RW_READER)) _ ({[t]} ∪ g_readers s) (g_writer s) (rt_kpri s)); try done; rewrite ?Hw.
  - done.
  - by intros [].
  - set_solver.
  - intros H1 _ H3. destruct (i_behind _ Hi H1 Hw H3) as [u Hu]. right. exists u. split; [|done]. intros ->.
    by destruct (rt_pc s t).
  - by rewrite (i_kpri _ Hi), kpri_unblocked, Hk by done.
  - set_solver.
  - split; [set_solver|done].
  - intros u _ E. congruence.
Qed.

(** A thread becomes the writer of a free lock. *)
Lemma inv_gain_writer s t p :
  rinv s → t ∈ T → pc_locks (rt_pc s t) = false → unblocked (rt_pc s t) → pc_kpri (rt_pc s t) = 0 →
  g_writer s = None → g_readers s = ∅ → p = Outside (Some RW_WRITER) →
  rinv (set_pc t p (gain RW_WRITER t (set_word (RW_WRITE_LOCK t) s))).
Proof.
  intros Hi Ht Hl Hb Hk Hw Hr ->. pose proof (i_free _ Hi Hw Hr) as Ea. pose proof Ea as [Ebw Ebr]%orb_false_elim.
  apply (inv_plain s t (Outside (Some RW_WRITER)) _ (g_readers s) (Some t) (rt_kpri s)); try done; rewrite ?Hw.
  - rewrite Ebw, Ebr. cbn. by apply write_lock_wd.
  - by rewrite (i_kpri _ Hi), kpri_unblocked, Hk by done.
  - intros u Hu. split; [done|]. split; congruence.
  - rewrite Hr. split; [set_solver|done].
Qed.

(** [new] of [rw_exit_wakeup]. *)
Lemma exit_new_reader s t : rinv s → t ∈ g_readers s → g_writer s = None →
  uintptr lp64 (rw_wwwh s - lock_value RW_READER t) =
  wd (Z.of_nat (size (g_readers s ∖ {[t]}))) false (bit_w s) (bit_w s || bit_r s).
Proof.
  intros Hi Hr Hw. rewrite word_reader by done. cbn [lock_value].
  assert (size (g_readers s) = 1 + size (g_readers s ∖ {[t]}))%nat as ->.
  { rewrite <- (size_singleton (C := gset Z) t), <- size_union by set_solver. f_equal.
    apply leibniz_equiv. intros u. destruct (decide (u = t)); set_solver. }
  assert (∀ n b a, wd (Z.of_nat (1 + n)) false b a - RW_READ_LOCK = wd (Z.of_nat n) false b a) as ->.
  { intros. unfold wd, RW_READ_LOCK. lia. }
  apply uintptr_id, wd_count. etransitivity; [|by apply readers_size]. apply subseteq_size. set_solver.
Qed.

Lemma exit_new_writer s t : rinv s → g_writer s = Some t →
  uintptr lp64 (rw_wwwh s - lock_value RW_WRITER t) = wd 0 false (bit_w s) (bit_w s || bit_r s).
Proof.
  intros Hi Hw. rewrite (word_writer s t) by done. cbn [lock_value]. rewrite write_lock_wd by (by eapply writer_in).
  assert (∀ b a, wd (t `div` 8) true b a - wd (t `div` 8) true false false = wd (Z.of_nat 0) false b a) as ->.
  { intros b a. unfold wd. destruct b, a; cbn [Z.b2z]; lia. }
  apply uintptr_id, (wd_count 0). lia.
Qed.

Lemma inv_exit_cas s t rw old new :
  rinv s → t ∈ T → rt_pc s t = ExitCas rw old new → rw_wwwh s = old →
  rinv (set_pc t (Outside None) (kpri_release rw t (lose rw t (set_word new s)))).
Proof.
  intros Hi Ht Hp Eo. pose proof (i_pc _ Hi t) as Hpc. rewrite Hp in Hpc. destruct Hpc as [En Hf]. rewrite <- Eo in En.
  assert (unblocked (rt_pc s t)) as Hb by (by rewrite Hp). assert (pc_locks (rt_pc s t) = false) as Hl by (by rewrite Hp).
  pose proof (i_kpri _ Hi t) as Hk. rewrite kpri_unblocked, Hp in Hk by done. destruct rw; cbn in Hk.
  - destruct (hold_reader s t Hi Hb) as [Hr Hw]; [by rewrite Hp|].
    rewrite exit_new_reader in En by done. rewrite En, land_final in Hf.
    apply (inv_plain s t (Outside None) _ (g_readers s ∖ {[t]}) (g_writer s) (<[t := rt_kpri s t + -1]> (rt_kpri s)));
      try done; rewrite ?Hw.
    + done.
    + by intros [].
    + intros _ E. rewrite E, size_empty in Hf. destruct (bit_w s || bit_r s); [done|done].
    + intros H1 _ H3. destruct (i_behind _ Hi H1 Hw H3) as [u Hu]. right. exists u. split; [|done]. intros ->. by rewrite Hp in Hu.
    + intros u Hu. by rewrite fn_lookup_insert_ne.
    + rewrite fn_lookup_insert. cbn. lia.
    + set_solver.
    + split; [set_solver|done].
    + intros u Hu _ E. rewrite E in Hr. set_solver.
  - destruct (hold_writer s t Hi Hb) as [Hw Hr]; [by rewrite Hp|].
    rewrite exit_new_writer in En by done. rewrite En, land_final in Hf.
    assert (bit_w s || bit_r s = false) as Ea by (by destruct (bit_w s || bit_r s)). pose proof Ea as [Ebw Ebr]%orb_false_elim.
    apply (inv_plain s t (Outside None) _ (g_readers s) None (rt_kpri s)); try done.
    + cbn. rewrite En, Hr. unfold encode. by rewrite size_empty.
    + by rewrite Ebr.
    + intros u Hu. split; [done|]. rewrite Hw. split; congruence.
    + rewrite Hr. split; [set_solver|done].
Qed.

(** A writer becomes a reader. *)
Lemma inv_down_add s t : rinv s → t ∈ T → rt_pc s t = DownAdd → rinv (down_add lp64 s t).
Proof.
  intros Hi Ht Hp. assert (unblocked (rt_pc s t)) as Hb by (by rewrite Hp).
  assert (pc_locks (rt_pc s t) = false) as Hl by (by rewrite Hp).
  destruct (hold_writer s t Hi Hb) as [Hw Hr]; [by rewrite Hp|].
  pose proof (i_kpri _ Hi t) as Hk. rewrite kpri_unblocked, Hp in Hk by done. cbn in Hk.
  assert (uintptr lp64 (rw_wwwh s + uintptr lp64 (RW_READ_LOCK - RW_WRITE_LOCK t)) =
    wd 1 false (bit_w s) (bit_w s || bit_r s)) as Ew.
  { unfold uintptr, wrapu. rewrite Zplus_mod_idemp_r. rewrite (word_writer s t), write_lock_wd by done.
    replace (_ + (_ - _)) with (wd (Z.of_nat 1) false (bit_w s) (bit_w s || bit_r s)).
    - apply uintptr_id, (wd_count 1). pose proof (subseteq_size {[t]} T ltac:(set_solver)) as H. by rewrite size_singleton in H.
    - unfold wd, RW_READ_LOCK. destruct (bit_w s), (bit_r s); cbn [Z.b2z orb]; lia. }
  unfold down_add. rewrite Ew, land_waiters.
  assert (∀ p, pc_locks p = false → unblocked p → pc_hold p = Some RW_READER → pc_kpri p = 1 →
    pc_window p = bit_w s || bit_r s → pc_ok {[t]} (bit_w s) (bit_w s || bit_r s) t p →
    rinv (set_pc t p (gain RW_READER t (lose RW_WRITER t (set_word (wd 1 false (bit_w s) (bit_w s || bit_r s)) s))))) as Hgo.
  { intros p Hl' Hb' Hh Hk' Hwin Hok.
    apply (inv_plain s t p _ ({[t]} ∪ g_readers s) None (rt_kpri s)); try done; rewrite ?Hr, ?(union_empty_r_L {[t]}).
    - cbn. by rewrite size_singleton.
    - intros _ E. by apply non_empty_singleton_L in E.
    - intros Er _ Eb. left. by rewrite Hwin, Er, orb_true_r.
    - intros _ u Hu. destruct (pc_window (rt_pc s u)) eqn:Eu; [|done].
      destruct (hold_reader s u Hi) as [Hur _]; [by destruct (rt_pc s u)..|]. rewrite Hr in Hur. set_solver.
    - congruence.
    - intros u Hu. rewrite Hw. split; [set_solver|]. split; congruence.
    - rewrite Hh. split; [set_solver|done].
    - done.
    - intros u _ _ E. symmetry in E. by apply non_empty_singleton_L in E. }
  destruct (bit_w s || bit_r s) eqn:Ea; cbn [Z.b2z]; by apply Hgo.
Qed.

(** The only reader becomes the writer. *)
Lemma inv_up_cas s t old new : rinv s → t ∈ T → rt_pc s t = UpCas old new → rw_wwwh s = old → rinv (up_cas s t old new).
Proof.
  intros Hi Ht Hp Eo. assert (unblocked (rt_pc s t)) as Hb by (by rewrite Hp).
  assert (pc_locks (rt_pc s t) = false) as Hl by (by rewrite Hp).
  destruct (hold_reader s t Hi Hb) as [Hr Hw]; [by rewrite Hp|].
  pose proof (i_kpri _ Hi t) as Hk. rewrite kpri_unblocked, Hp in Hk by done. cbn in Hk.
  pose proof (i_pc _ Hi t) as Hpc. rewrite Hp in Hpc. destruct Hpc as [Hm En]. rewrite <- Eo in Hm, En.
  rewrite word_reader, land_not_waiters in Hm by done. change RW_READ_LOCK with (wd 1 false false false) in Hm.
  apply wd_inj in Hm as (Hsz & _ & Hbw & _).
  assert (g_readers s = {[t]}) as HR.
  { apply leibniz_equiv. symmetry. apply set_subseteq_size_equiv; [set_solver|]. rewrite size_singleton. lia. }
  assert (new = wd (t `div` 8) true (bit_w s) (bit_w s || bit_r s)) as Ew.
  { rewrite En, word_reader, HR, size_singleton by done. rewrite write_lock_wd by done.
    destruct (th_word t (bit_w s) (bit_w s || bit_r s) Ht) as (_ & Hrg & _). rewrite <- (uintptr_id _ Hrg). f_equal.
    unfold wd, RW_READ_LOCK. cbn [Z.b2z]. lia. }
  unfold up_cas. rewrite Eo, Z.eqb_refl.
  apply (inv_plain s t (Outside (Some RW_WRITER)) _ (g_readers s ∖ {[t]}) (Some t) (<[t := rt_kpri s t + -1]> (rt_kpri s)));
    try done.
  - rewrite HR. set_solver.
  - intros u Hu. by rewrite fn_lookup_insert_ne.
  - rewrite fn_lookup_insert. cbn. lia.
  - intros u Hu. rewrite Hw, HR. split; [set_solver|]. split; congruence.
  - rewrite HR. split; [set_solver|done].
  - congruence.
Qed.

(** ** Steps under the turnstile lock *)

(** No thread is being woken, and none is about to sleep. *)
Definition neutral (c : option pc) : bool :=
  match c with Some (Wake _ _ _ _) | Some (EnterBlock _) => false | _ => true end.

Definition nonempty {A} (l : list A) : bool := match l with [] => false | _ => true end.

Lemma neutral_given c q l : neutral c = true → given c q l = [] ∧ wants c q l = nonempty l.
Proof. destruct c as [[]|]; try done; intros _; unfold wants; cbn; by destruct l. Qed.

Lemma neutral_bits s : neutral (crit s) = true →
  bit_w s = nonempty (wq s) ∧ bit_r s = nonempty (rq s) ∧ ∀ q, granted s q = [].
Proof. intros H. split_and!; [by apply neutral_given..|]. intros q. by apply neutral_given. Qed.

Lemma others_unlocked s t u : rinv s → tc_lock s = Some t ∨ tc_lock s = None → u ≠ t → pc_locks (rt_pc s u) = false.
Proof.
  intros Hi Hc Hu. destruct (pc_locks (rt_pc s u)) eqn:E; [|done]. apply (i_lock _ Hi) in E. destruct Hc; congruence.
Qed.

Lemma crit_mine s t : tc_lock s = Some t → crit s = Some (rt_pc s t).
Proof. unfold crit. by intros ->. Qed.

Lemma wake_mine s t u k q n owner : rinv s → tc_lock s = Some t ∨ tc_lock s = None → u ≠ t → rt_pc s u ≠ Wake k q n owner.
Proof. intros Hi Hc Hu E. pose proof (others_unlocked s t u Hi Hc Hu) as H. by rewrite E in H. Qed.

(** A step of thread [t] to [p] with the turnstile lock, or that takes or
    drops it. *)
Section build.
Context (s s' : rwstate) (t : Z) (p : pc).
Context (Hi : rinv s) (Ht : t ∈ T) (Hc : tc_lock s = Some t ∨ tc_lock s = None).
Context (Epc : rt_pc s' = <[t := p]> (rt_pc s)) (Epri : rt_pri s' = rt_pri s).
Context (Etc : tc_lock s' = if pc_locks p then Some t else None).

Lemma build_crit : crit s' = if pc_locks p then Some p else None.
Proof. unfold crit. rewrite Etc, Epc. destruct (pc_locks p); [|done]. cbn. by rewrite insert_pc, decide_True. Qed.

Lemma inv_build :
  rw_wwwh s' = encode (g_readers s') (g_writer s') (bit_w s') (bit_w s' || bit_r s') →
  (is_Some (g_writer s') → g_readers s' = ∅) →
  (g_writer s' = None → g_readers s' = ∅ → bit_w s' || bit_r s' = false) →
  (bit_r s' = true → g_writer s' = None → bit_w s' = false → ∃ u, pc_window (<[t := p]> (rt_pc s) u) = true) →
  (pc_window p = true → pc_window (rt_pc s t) = true) →
  (∀ q u, u ∈ ts_queue q s' ↔ <[t := p]> (rt_pc s) u = Blocked q) →
  (∀ q, NoDup (ts_queue q s') ∧ sq_sorted (rt_pri s) (ts_queue q s')) →
  (∀ k q n owner, p = Wake k q n owner → (n <= length (ts_queue q s'))%nat ∧ (q = RW_WRITER → n <= 1)%nat ∧
     owner = match q, n with RW_WRITER, S _ => hd 0 (wq s') | _, _ => 0 end) →
  (∀ u, holds (g_readers s') (g_writer s') u (has (granted s') u (<[t := p]> (rt_pc s) u))) →
  (∀ u, rt_kpri s' u = kpri_of (granted s') u (<[t := p]> (rt_pc s) u)) →
  pc_ok (g_readers s') (bit_w s') (bit_w s' || bit_r s') t p →
  (∀ u, u ≠ t → pc_locks (rt_pc s u) = false →
     pc_ok (g_readers s) (bit_w s) (bit_w s || bit_r s) u (rt_pc s u) →
     pc_ok (g_readers s') (bit_w s') (bit_w s' || bit_r s') u (rt_pc s u)) → rinv s'.
Proof.
  intros Hw Hex Hfr Hbe Hwin Hq Hns Hwk Hho Hkp Hpt Hpu. split; rewrite ?Epc, ?Epri; try done.
  - assert (∀ u, pc_window (<[t := p]> (rt_pc s) u) = true → pc_window (rt_pc s u) = true) as Hm.
    { intros u. rewrite insert_pc. case_decide; [subst; apply Hwin|done]. }
    intros x y Hx%Hm Hy%Hm. by apply (i_window _ Hi).
  - intros u. rewrite insert_pc, Etc. case_decide as E; [subst; by destruct (pc_locks p)|].
    rewrite (others_unlocked s t u Hi Hc E). split; [|done]. destruct (pc_locks p); congruence.
  - intros q. apply Hns.
  - intros q. apply Hns.
  - apply (i_pri _ Hi).
  - intros u k q n owner. rewrite insert_pc. case_decide as E; [apply Hwk|].
    intros Hu. by destruct (wake_mine s t u k q n owner Hi Hc E).
  - intros u. rewrite insert_pc. case_decide; [subst; by left|apply (i_thread _ Hi)].
  - intros u. rewrite insert_pc. case_decide as E; [by subst|].
    apply Hpu; [done|by apply (others_unlocked s t)|apply (i_pc _ Hi)].
Qed.
End build.

(** The queues when [t] is on none before and after. *)
Lemma same_queue s s' t p :
  rinv s → unblocked (rt_pc s t) → unblocked p → (∀ q, ts_queue q s' = ts_queue q s) →
  (∀ q u, u ∈ ts_queue q s' ↔ <[t := p]> (rt_pc s) u = Blocked q) ∧
  (∀ q, NoDup (ts_queue q s') ∧ sq_sorted (rt_pri s) (ts_queue q s')).
Proof.
  intros Hi Hb0 Hb Eq. split.
  - intros q u. rewrite Eq, insert_pc, (i_queue _ Hi). case_decide as E; [subst|done].
    split; intros E; exfalso; [by apply (Hb0 q)|by apply (Hb q)].
  - intros q. rewrite Eq. split; [apply (i_nodup _ Hi)|apply (i_sorted _ Hi)].
Qed.

(** The other threads when nobody is being woken before and after. *)
Lemma same_holds s s' t p :
  rinv s → unblocked p → (∀ q, granted s q = []) → (∀ q, granted s' q = []) →
  g_readers s' = g_readers s → g_writer s' = g_writer s → pc_hold p = pc_hold (rt_pc s t) → unblocked (rt_pc s t) →
  ∀ u, holds (g_readers s') (g_writer s') u (has (granted s') u (<[t := p]> (rt_pc s) u)).
Proof.
  intros Hi Hb Eg Eg' -> -> Eh Hb0 u. pose proof (i_holds _ Hi u) as Hu. rewrite insert_pc. case_decide as E.
  - subst. rewrite has_unblocked in Hu |- * by done. by rewrite Eh.
  - unfold has in *. destruct (rt_pc s u); try done. by rewrite Eg', Eg in *.
Qed.

Lemma same_kpri s s' t p :
  rinv s → unblocked p → (∀ q, granted s q = []) → (∀ q, granted s' q = []) →
  rt_kpri s' = rt_kpri s → pc_kpri p = pc_kpri (rt_pc s t) → unblocked (rt_pc s t) →
  ∀ u, rt_kpri s' u = kpri_of (granted s') u (<[t := p]> (rt_pc s) u).
Proof.
  intros Hi Hb Eg Eg' -> Ek Hb0 u. pose proof (i_kpri _ Hi u) as Hu. rewrite insert_pc. case_decide as E.
  - subst. rewrite kpri_unblocked in Hu |- * by done. by rewrite Ek.
  - unfold kpri_of in *. destruct (rt_pc s u); try done. by rewrite Eg', Eg in *.
Qed.

(** Taking and dropping the turnstile lock, and moving on with it. *)
Lemma inv_neutral s t tc' p :
  rinv s → t ∈ T → tc_lock s = Some t ∨ tc_lock s = None → tc' = (if pc_locks p then Some t else None) →
  neutral (crit s) = true → neutral (Some p) = true → unblocked (rt_pc s t) → unblocked p →
  pc_hold p = pc_hold (rt_pc s t) → pc_window p = pc_window (rt_pc s t) → pc_kpri p = pc_kpri (rt_pc s t) →
  pc_ok (g_readers s) (bit_w s) (bit_w s || bit_r s) t p → rinv (set_pc t p (set_tc tc' s)).
Proof.
  intros Hi Ht Hc Etc Hn0 Hn Hb0 Hb Eh Ew Ek Hp. set (s' := set_pc t p (set_tc tc' s)).
  assert (neutral (crit s') = true) as Hn' by (rewrite (build_crit s s' t p) by done; by destruct (pc_locks p)).
  destruct (neutral_bits s Hn0) as (Eb & Er & Eg). destruct (neutral_bits s' Hn') as (Eb' & Er' & Eg').
  change (wq s') with (wq s) in Eb'. change (rq s') with (rq s) in Er'. rewrite <- Eb in Eb'. rewrite <- Er in Er'.
  destruct (same_queue s s' t p Hi Hb0 Hb) as [Hq Hns]; [by intros []|].
  apply (inv_build s s' t p); rewrite ?Eb', ?Er'; try done.
  - apply (i_word _ Hi).
  - apply (i_excl _ Hi).
  - apply (i_free _ Hi).
  - intros H1 H2 H3. destruct (i_behind _ Hi H1 H2 H3) as [u Hu]. exists u. rewrite insert_pc.
    case_decide; [subst; by rewrite Ew|done].
  - by rewrite Ew.
  - by intros k q n owner ->.
  - by apply same_holds.
  - by apply same_kpri.
Qed.

Lemma pc_ok_mono R b a b' a' u p : (b = true → b' = true) → (a = true → a' = true) → pc_ok R b a u p → pc_ok R b' a' u p.
Proof. intros Hb Ha. destruct p; cbn; try done; try destruct rw; naive_solver. Qed.

Lemma block_wants rw q l : wants (Some (EnterBlock rw)) q l = nonempty l || bool_decide (rw = q).
Proof. unfold wants. cbn. by destruct l. Qed.

(** The decision to sleep: the bits are set while the lock is busy. *)
Lemma inv_to_block s t rw :
  rinv s → t ∈ T → tc_lock s = Some t → neutral (crit s) = true → unblocked (rt_pc s t) →
  pc_hold (rt_pc s t) = None → pc_kpri (rt_pc s t) = reader_kpri rw → Z.land (rw_wwwh s) (lock_busy rw) ≠ 0 →
  rinv (set_pc t (EnterBlock rw) (set_word (Z.lor (rw_wwwh s) (lock_wait rw)) s)).
Proof.
  intros Hi Ht Hc Hn Hb Hh Hk Hbusy. destruct (neutral_bits s Hn) as (Eb & Er & Eg).
  set (s' := set_pc t (EnterBlock rw) (set_word (Z.lor (rw_wwwh s) (lock_wait rw)) s)).
  assert (crit s' = Some (EnterBlock rw)) as Ec by (by apply (build_crit s s' t (EnterBlock rw))).
  assert (bit_w s' = bit_w s || bool_decide (rw = RW_WRITER)) as Eb' by (unfold bit_w at 1; by rewrite Ec, Eb, block_wants).
  assert (bit_r s' = bit_r s || bool_decide (rw = RW_READER)) as Er' by (unfold bit_r at 1; by rewrite Ec, Er, block_wants).
  assert (∀ q, granted s' q = []) as Eg' by (intros q; unfold granted; by rewrite Ec).
  assert (bit_w s' || bit_r s' = true) as Ea by (rewrite Eb', Er'; destruct rw, (bit_w s), (bit_r s); done).
  destruct (same_queue s s' t (EnterBlock rw) Hi Hb) as [Hq Hns]; [done|by intros []|].
  apply (inv_build s s' t (EnterBlock rw) Hi Ht (or_introl Hc)); try done; rewrite ?Ea.
  - change (rw_wwwh s') with (Z.lor (rw_wwwh s) (lock_wait rw)). rewrite (i_word _ Hi), Eb'.
    change (g_writer s') with (g_writer s). unfold encode. destruct (g_writer s); rewrite lor_wait; f_equal; destruct rw; cbn;
      by rewrite ?orb_true_r, ?orb_false_r.
  - apply (i_excl _ Hi).
  - intros Hw Hr. exfalso. apply Hbusy. pose proof (word_free s Hi Hw Hr) as E. by rewrite E.
  - intros _ Hw Hbw. exfalso. rewrite Eb' in Hbw. apply orb_false_elim in Hbw as [Hbw Hrw].
    destruct rw; [|done]. rewrite busy_reader in Hbusy by done. tauto.
  - by apply same_holds.
  - by apply same_kpri.
  - intros u Hu _. apply pc_ok_mono; [|done]. rewrite Eb'. by intros ->.
Qed.

(** Falling asleep. *)
Lemma nonempty_ins pri t l : nonempty (sq_ins pri t l) = true.
Proof. destruct l as [|x l]; cbn; [done|]. by destruct (_ <? _). Qed.

Lemma enter_block_queue s t rw q :
  ts_queue q (enter_block s t rw) = if decide (q = rw) then sq_ins (rt_pri s) t (ts_queue q s) else ts_queue q s.
Proof. unfold enter_block, kpri_release. by destruct rw, q. Qed.

Lemma enter_block_kpri s t rw u : rinv s → rt_pc s t = EnterBlock rw →
  rt_kpri (enter_block s t rw) u = if decide (u = t) then 0 else rt_kpri s u.
Proof.
  intros Hi Hp. pose proof (i_kpri _ Hi t) as Hk. rewrite Hp in Hk. unfold enter_block, kpri_release, kpri_add.
  destruct rw; cbn in Hk |- *; case_decide as E; try done; try by subst.
  - subst. rewrite fn_lookup_insert. lia.
  - by rewrite fn_lookup_insert_ne.
Qed.

Lemma inv_enter_block s t rw : rinv s → t ∈ T → rt_pc s t = EnterBlock rw → rinv (enter_block s t rw).
Proof.
  intros Hi Ht Hp. assert (tc_lock s = Some t) as Hc by (by apply (i_lock _ Hi); rewrite Hp).
  assert (crit s = Some (EnterBlock rw)) as Ec by (by rewrite (crit_mine s t), Hp).
  set (s' := enter_block s t rw).
  assert (tc_lock s' = None ∧ rt_pc s' = <[t := Blocked rw]> (rt_pc s) ∧ rt_pri s' = rt_pri s ∧
    g_readers s' = g_readers s ∧ g_writer s' = g_writer s ∧ rw_wwwh s' = rw_wwwh s) as (Etc & Epc & Epri & Egr & Egw & Ew).
  { unfold s', enter_block, kpri_release. by destruct rw. }
  assert (∀ q, granted s q = []) as Eg by (intros q; unfold granted; by rewrite Ec).
  assert (neutral (crit s') = true) as Hn' by (unfold crit; by rewrite Etc).
  destruct (neutral_bits s' Hn') as (Eb' & Er' & Eg').
  assert (bit_w s' = bit_w s ∧ bit_r s' = bit_r s) as [Ebw Ebr].
  { rewrite Eb', Er'. change (wq s') with (ts_queue RW_WRITER s'). change (rq s') with (ts_queue RW_READER s').
    unfold s', bit_w, bit_r. rewrite !enter_block_queue, Ec, !block_wants.
    destruct rw; split; repeat case_decide; repeat case_bool_decide; try done;
      by rewrite ?nonempty_ins, ?orb_true_r, ?orb_false_r. }
  assert (∀ q, t ∉ ts_queue q s) as Hnq by (intros q Hq%(i_queue _ Hi); congruence).
  apply (inv_build s s' t (Blocked rw) Hi Ht (or_introl Hc) Epc Epri); rewrite ?Ebw, ?Ebr, ?Egr, ?Egw, ?Ew; try done.
  - apply (i_word _ Hi).
  - apply (i_excl _ Hi).
  - apply (i_free _ Hi).
  - intros H1 H2 H3. destruct (i_behind _ Hi H1 H2 H3) as [u Hu]. exists u. rewrite insert_pc.
    case_decide; [subst; by rewrite Hp in Hu|done].
  - intros q u. unfold s'. rewrite enter_block_queue, insert_pc. pose proof (i_queue _ Hi q u) as Hu.
    case_decide; [subst q; rewrite sq_ins_elem|]; case_decide; [subst u|..]; try rewrite Hu; naive_solver.
  - intros q. unfold s'. rewrite enter_block_queue. pose proof (i_nodup _ Hi q). pose proof (i_sorted _ Hi q).
    case_decide; [|done]. split; [by apply sq_ins_nodup|by apply sq_ins_sorted].
  - intros u. rewrite insert_pc. pose proof (i_holds _ Hi u) as Hu. case_decide as E.
    + subst. rewrite Hp in Hu. unfold has. rewrite Eg', decide_False by (by intros ?%elem_of_nil). done.
    + unfold has in *. destruct (rt_pc s u); try done. by rewrite Eg', Eg in *.
  - intros u. unfold s'. rewrite enter_block_kpri, insert_pc by done. fold s'. case_decide.
    + unfold kpri_of. by rewrite Eg', decide_False by (by intros ?%elem_of_nil).
    + rewrite (i_kpri _ Hi u). unfold kpri_of. destruct (rt_pc s u); try done. by rewrite Eg', Eg.
Qed.

(** ** Waking *)

Lemma wake_given k q n owner q' l : given (Some (Wake k q n owner)) q' l = if decide (q = q') then take n l else [].
Proof. done. Qed.

Lemma wake_wants k q n owner q' l :
  wants (Some (Wake k q n owner)) q' l = nonempty (if decide (q = q') then drop n l else l).
Proof. unfold wants. cbn. case_decide; [by destruct (drop n l)|by destruct l]. Qed.

(** The end of [turnstile_wakeup] and of the call. *)
Lemma inv_wake_end s t k q owner :
  rinv s → t ∈ T → rt_pc s t = Wake k q 0 owner → wake_step s t k q 0 owner = Go (wake_done (set_tc None s) t k) ∧
  rinv (wake_done (set_tc None s) t k).
Proof.
  intros Hi Ht Hp. assert (tc_lock s = Some t) as Hc by (by apply (i_lock _ Hi); rewrite Hp).
  destruct (i_wake _ Hi t k q 0 owner Hp) as (_ & _ & Eo). assert (owner = 0) as -> by (by destruct q). split; [done|].
  assert (crit s = Some (Wake k q 0 0)) as Ec by (by rewrite (crit_mine s t), Hp).
  set (p := match k with AfterExit _ => Outside None | AfterDowngrade => Outside (Some RW_READER) end).
  set (s' := wake_done (set_tc None s) t k).
  assert (tc_lock s' = None ∧ rt_pc s' = <[t := p]> (rt_pc s) ∧ rt_pri s' = rt_pri s ∧ wq s' = wq s ∧ rq s' = rq s ∧
    g_readers s' = g_readers s ∧ g_writer s' = g_writer s ∧ rw_wwwh s' = rw_wwwh s)
    as (Etc & Epc & Epri & Ewq & Erq & Egr & Egw & Ew) by (by destruct k as [[]|]).
  assert (∀ q', granted s q' = []) as Eg by (intros q'; unfold granted; rewrite Ec, wake_given; by case_decide).
  assert (neutral (crit s') = true) as Hn' by (unfold crit; by rewrite Etc).
  destruct (neutral_bits s' Hn') as (Eb' & Er' & Eg').
  assert (bit_w s' = bit_w s ∧ bit_r s' = bit_r s) as [Ebw Ebr].
  { rewrite Eb', Er', Ewq, Erq. unfold bit_w, bit_r. rewrite Ec, !wake_wants. by repeat case_decide. }
  assert (unblocked (rt_pc s t)) as Hb by (by rewrite Hp). assert (unblocked p) as Hb' by (by destruct k).
  destruct (same_queue s s' t p Hi Hb Hb') as [Hq Hns]; [by intros []; cbn; rewrite ?Ewq, ?Erq|].
  apply (inv_build s s' t p Hi Ht (or_introl Hc) Epc Epri); rewrite ?Ebw, ?Ebr, ?Egr, ?Egw, ?Ew; try done.
  - by destruct k.
  - apply (i_word _ Hi).
  - apply (i_excl _ Hi).
  - apply (i_free _ Hi).
  - intros H1 H2 H3. destruct (i_behind _ Hi H1 H2 H3) as [u Hu]. exists u. rewrite insert_pc.
    case_decide; [subst; by rewrite Hp in Hu|done].
  - by destruct k.
  - by destruct k.
  - rewrite <- Egr, <- Egw. apply same_holds; try done. rewrite Hp. by destruct k.
  - intros u. pose proof (i_kpri _ Hi u) as Hu. rewrite insert_pc. case_decide as E.
    + subst. rewrite kpri_unblocked in Hu |- * by done. rewrite Hp in Hu. unfold s', wake_done, kpri_release.
      destruct k as [[]|]; cbn in Hu |- *; rewrite ?fn_lookup_insert; lia.
    + assert (rt_kpri s' u = rt_kpri s u) as ->.
      { unfold s', wake_done, kpri_release. destruct k as [[]|]; cbn; by rewrite ?fn_lookup_insert_ne. }
      rewrite Hu. unfold kpri_of. destruct (rt_pc s u); try done. by rewrite Eg', Eg.
  - by destruct k.
Qed.

Lemma queue_set_q q q' l s : ts_queue q (set_q q' l s) = if decide (q' = q) then l else ts_queue q s.
Proof. destruct q, q'; by case_decide. Qed.

(** The first thread of the queue is woken: it has the lock. *)
Section pop.
Context (s : rwstate) (t : Z) (k : wake_ret) (q : krw) (n : nat) (owner t' : Z) (ts : list Z).
Context (Hi : rinv s) (Hp : rt_pc s t = Wake k q (S n) owner) (Hq : ts_queue q s = t' :: ts).

Definition pop_next : rwstate :=
  set_pc t' (Outside (Some q)) (set_pc t (Wake k q n (if t' =? owner then 0 else owner)) (set_q q ts s)).

Lemma pop_pc : rt_pc s t' = Blocked q.
Proof. apply (i_queue _ Hi). rewrite Hq. constructor. Qed.

Lemma pop_ne : t' ≠ t.
Proof. intros E. pose proof pop_pc. congruence. Qed.

Lemma pop_tc : tc_lock s = Some t.
Proof. apply (i_lock _ Hi). by rewrite Hp. Qed.

Lemma pop_pcs u : rt_pc pop_next u =
  if decide (u = t') then Outside (Some q)
  else if decide (u = t) then Wake k q n (if t' =? owner then 0 else owner) else rt_pc s u.
Proof.
  cbn. destruct (decide (u = t')) as [->|]; [by rewrite fn_lookup_insert|]. rewrite fn_lookup_insert_ne by done.
  destruct (decide (u = t)) as [->|]; [by rewrite fn_lookup_insert|by rewrite fn_lookup_insert_ne].
Qed.

Lemma pop_queue q' : ts_queue q' pop_next = if decide (q = q') then ts else ts_queue q' s.
Proof. exact (queue_set_q q' q ts s). Qed.

Lemma pop_crit : crit s = Some (Wake k q (S n) owner) ∧ ∃ o, crit pop_next = Some (Wake k q n o).
Proof.
  split; [rewrite (crit_mine s t) by apply pop_tc; by rewrite Hp|]. eexists. rewrite (crit_mine pop_next t).
  - rewrite pop_pcs, decide_False, decide_True by (done || apply not_eq_sym, pop_ne). done.
  - apply pop_tc.
Qed.

Lemma pop_bits : bit_w pop_next = bit_w s ∧ bit_r pop_next = bit_r s.
Proof.
  destruct pop_crit as [Ec [o Ec']]. unfold bit_w, bit_r. rewrite Ec, Ec', !wake_wants.
  change (wq pop_next) with (ts_queue RW_WRITER pop_next). change (rq pop_next) with (ts_queue RW_READER pop_next).
  change (wq s) with (ts_queue RW_WRITER s). change (rq s) with (ts_queue RW_READER s).
  rewrite !pop_queue. destruct q; split; repeat case_decide; try done; by rewrite Hq.
Qed.

Lemma pop_granted q' u : u ∈ granted s q' ↔ (q' = q ∧ u = t') ∨ u ∈ granted pop_next q'.
Proof.
  destruct pop_crit as [Ec [o Ec']]. unfold granted. rewrite Ec, Ec', !wake_given, pop_queue. case_decide as E.
  - subst q'. rewrite Hq. cbn. rewrite elem_of_cons. naive_solver.
  - rewrite elem_of_nil. naive_solver.
Qed.

Lemma pop_owner :
  (n <= length ts)%nat ∧ (q = RW_WRITER → n = 0%nat) ∧ (if t' =? owner then 0 else owner) = 0 ∧
  ∀ x, match q, n with RW_WRITER, S _ => x | _, _ => 0 end = 0.
Proof.
  destruct (i_wake _ Hi t k q (S n) owner Hp) as (Hlen & Hone & Ho). rewrite Hq in Hlen. cbn in Hlen. split; [lia|].
  clear Hp. destruct q; cbn in Hq.
  - rewrite Ho. by destruct (t' =? 0).
  - specialize (Hone eq_refl). assert (n = 0%nat) as -> by lia. by rewrite Ho, Hq, Z.eqb_refl.
Qed.

Lemma pop_notin : (t' ∉ ts) ∧ NoDup ts.
Proof. pose proof (i_nodup _ Hi q) as Hn. rewrite Hq in Hn. by apply NoDup_cons in Hn. Qed.

Lemma pop_blocked q' u : rt_pc pop_next u = Blocked q' ↔ u ≠ t' ∧ rt_pc s u = Blocked q'.
Proof.
  rewrite pop_pcs. case_decide; [naive_solver|]. case_decide; [|naive_solver]. subst. rewrite Hp. naive_solver.
Qed.

Lemma inv_pop : rinv pop_next.
Proof.
  destruct pop_bits as [Eb Er]. pose proof pop_pc as Hp'. pose proof pop_ne as Hne. destruct pop_notin as [Hnt Hnd].
  destruct pop_owner as (Hlen & Hone & Ho & Hm).
  assert (∀ u, pc_window (rt_pc pop_next u) = pc_window (rt_pc s u)) as Hwin.
  { intros u. rewrite pop_pcs. case_decide; [subst; by rewrite Hp'|]. case_decide; [subst; by rewrite Hp|done]. }
  split; rewrite ?Eb, ?Er.
  - apply (i_word _ Hi).
  - apply (i_excl _ Hi).
  - apply (i_free _ Hi).
  - setoid_rewrite Hwin. apply (i_behind _ Hi).
  - intros x y. rewrite !Hwin. apply (i_window _ Hi).
  - intros u. rewrite pop_pcs. change (tc_lock pop_next) with (tc_lock s). rewrite (i_lock _ Hi).
    case_decide; [subst; by rewrite Hp'|]. case_decide; [subst; by rewrite Hp|done].
  - intros q' u. rewrite pop_queue, pop_blocked, <- (i_queue _ Hi). case_decide; [subst q'|].
    + rewrite Hq, elem_of_cons. naive_solver.
    + split; [|tauto]. intros Hu. split; [|done]. intros ->. apply (i_queue _ Hi) in Hu. congruence.
  - intros q'. rewrite pop_queue. case_decide; [done|apply (i_nodup _ Hi)].
  - intros q'. rewrite pop_queue. pose proof (i_sorted _ Hi q') as Hs. case_decide; [subst q'|done].
    rewrite Hq in Hs. by apply StronglySorted_cons in Hs as [_ ?].
  - apply (i_pri _ Hi).
  - intros u k' q' n' o'. rewrite pop_pcs. case_decide; [done|]. case_decide as E.
    + intros [= <- <- <- <-]. rewrite pop_queue, decide_True, Ho, Hm by done.
      split_and!; [done|intros E'; rewrite (Hone E'); lia|done].
    + intros Hu. by destruct (wake_mine s t u k' q' n' o' Hi (or_introl pop_tc) E).
  - intros u. rewrite pop_pcs. destruct (i_thread _ Hi u) as [|E]; [by left|]. repeat case_decide; subst; (congruence || by right).
  - intros u. pose proof (i_holds _ Hi u) as Hu. rewrite pop_pcs. change (g_readers pop_next) with (g_readers s).
    change (g_writer pop_next) with (g_writer s). case_decide as E1; [|case_decide as E2].
    + subst. rewrite Hp' in Hu. unfold has in Hu. rewrite decide_True in Hu by (apply pop_granted; tauto). done.
    + subst. by rewrite Hp in Hu.
    + unfold has in *. destruct (rt_pc s u); try done. pose proof (pop_granted rw u).
      destruct (decide (u ∈ granted s rw)), (decide (u ∈ granted pop_next rw)); naive_solver.
  - intros u. pose proof (i_kpri _ Hi u) as Hu. rewrite pop_pcs. change (rt_kpri pop_next) with (rt_kpri s). rewrite Hu.
    case_decide as E1; [|case_decide as E2].
    + subst. rewrite Hp'. unfold kpri_of at 1. rewrite decide_True by (apply pop_granted; tauto). done.
    + subst. by rewrite Hp.
    + unfold kpri_of in *. destruct (rt_pc s u); try done. pose proof (pop_granted rw u).
      destruct (decide (u ∈ granted s rw)), (decide (u ∈ granted pop_next rw)); naive_solver.
  - intros u. pose proof (i_pc _ Hi u) as Hu. rewrite pop_pcs. case_decide; [done|]. case_decide; [done|done].
Qed.
End pop.

Lemma inv_wake s t k q n owner :
  rinv s → t ∈ T → rt_pc s t = Wake k q n owner → ∃ s', wake_step s t k q n owner = Go s' ∧ rinv s'.
Proof.
  intros Hi Ht Hp. destruct n as [|n]; [destruct (inv_wake_end s t k q owner Hi Ht Hp); eauto|].
  destruct (i_wake _ Hi t k q (S n) owner Hp) as (Hlen & _). unfold wake_step.
  destruct (ts_queue q s) as [|t' ts] eqn:Eq; [cbn in Hlen; lia|]. eexists. split; [done|]. by apply (inv_pop s t k q n owner t' ts).
Qed.

(** ** Granting *)

Lemma readers_before_take pri wpri rs : readers_before pri wpri rs = take (length (readers_before pri wpri rs)) rs.
Proof. induction rs as [|r rs IH]; [done|]. cbn. destruct (_ <? _); [done|]. cbn. by f_equal. Qed.

Lemma readers_before_all pri rs : (∀ t, 0 <= pri t) → readers_before pri (-1) rs = rs.
Proof.
  intros Hp. induction rs as [|r rs IH]; [done|]. cbn. destruct (Z.ltb_spec (pri r) (-1)); [specialize (Hp r); lia|].
  by f_equal.
Qed.

Section grant.
Context (s : rwstate) (t : Z) (Hi : rinv s) (Htc : tc_lock s = Some t) (Hneu : neutral (Some (rt_pc s t)) = true).

Lemma grant_bits : bit_w s = nonempty (wq s) ∧ bit_r s = nonempty (rq s) ∧ ∀ q, granted s q = [].
Proof. apply neutral_bits. by rewrite (crit_mine s t). Qed.

(** The readers to wake are a prefix of the queue, all of it when no writer
    waits. *)
Lemma grant_prefix : let rs := rw_readers_to_wake s in
  rs = take (length rs) (rq s) ∧ (length rs <= length (rq s))%nat ∧ (wq s = [] → rs = rq s) ∧ NoDup rs ∧
  ∀ u, u ∈ rs → rt_pc s u = Blocked RW_READER ∧ u ∈ T.
Proof.
  intros rs. assert (rs = take (length rs) (rq s)) as E by apply readers_before_take.
  assert (length rs <= length (rq s))%nat by (rewrite E, length_take; lia).
  assert (∀ u, u ∈ rs → rt_pc s u = Blocked RW_READER) as Hbl.
  { intros u Hu. apply (i_queue _ Hi RW_READER). rewrite E in Hu. by eapply elem_of_take in Hu as (? & ?%list_elem_of_lookup_2 & _). }
  split_and!; [done..| | |].
  - intros Ew. unfold rs, rw_readers_to_wake. rewrite Ew. apply readers_before_all, (i_pri _ Hi).
  - rewrite E. eapply sublist_NoDup; [apply (i_nodup _ Hi RW_READER)|apply sublist_take].
  - intros u Hu. split; [by apply Hbl|]. destruct (i_thread _ Hi u) as [|E']; [done|]. rewrite (Hbl u Hu) in E'. done.
Qed.

Lemma grant_count : let rs := rw_readers_to_wake s in (length rs <= size T)%nat.
Proof.
  intros rs. destruct grant_prefix as (_ & _ & _ & Hnd & Hin). fold rs in Hnd, Hin.
  rewrite <- (size_list_to_set (C := gset Z) rs) by done. apply subseteq_size. intros u Hu%elem_of_list_to_set. by apply Hin.
Qed.

Lemma count_word n : (n <= size T)%nat → uintptr lp64 (s32 (Z.of_nat n * RW_READ_LOCK)) = wd (Z.of_nat n) false false false.
Proof.
  intros Hn. pose proof (th_few _ _ HT) as Hf. unfold RW_READ_LOCK. rewrite wraps_id; [|lia|].
  - rewrite uintptr_id; [unfold wd; cbn; lia|]. pose proof bit_pow. lia.
  - change (32 - 1) with 31. lia.
Qed.

(** A waiting reader that is not woken is behind a writer. *)
Lemma grant_behind : nonempty (drop (length (rw_readers_to_wake s)) (rq s)) = true → nonempty (wq s) = true.
Proof.
  destruct (wq s) eqn:E; [|done]. destruct grant_prefix as (_ & _ & Hall & _). rewrite (Hall E), drop_all. done.
Qed.

Lemma grant_left : nonempty (drop (length (rw_readers_to_wake s)) (rq s)) =
  bool_decide (length (rw_readers_to_wake s) < length (rq s))%nat.
Proof.
  destruct grant_prefix as (_ & Hle & _). pose proof (length_drop (rq s) (length (rw_readers_to_wake s))) as Hl.
  destruct (drop _ _) as [|x l]; cbn in Hl |- *; case_bool_decide; try done; lia.
Qed.
End grant.

Lemma pc_ok_none R b a R' b' a' u p : pc_hold p = None → pc_ok R b a u p → pc_ok R' b' a' u p.
Proof. by destruct p. Qed.

(** When [t] is the only holder, the others have nothing. *)
Definition sole (s : rwstate) (t : Z) : Prop :=
  (g_writer s = Some t ∧ g_readers s = ∅) ∨ (g_writer s = None ∧ g_readers s = {[t]}).

Lemma sole_others s t u : rinv s → sole s t → u ≠ t → has (granted s) u (rt_pc s u) = None.
Proof.
  intros Hi Hs Hu. pose proof (i_holds _ Hi u) as [H1 H2]. destruct (has _ _ _) as [[]|]; [| |done].
  - destruct H1 as [_ H1]. specialize (H1 eq_refl). destruct Hs as [[_ E]|[_ E]]; rewrite E in H1; [by apply elem_of_empty in H1|by apply elem_of_singleton in H1].
  - destruct H2 as [_ H2]. specialize (H2 eq_refl). destruct Hs as [[E _]|[E _]]; congruence.
Qed.

Lemma sole_pc s t u : rinv s → sole s t → u ≠ t → pc_hold (rt_pc s u) = None.
Proof.
  intros Hi Hs Hu. pose proof (sole_others s t u Hi Hs Hu) as H. unfold has in H. by destruct (rt_pc s u).
Qed.

(** The state after readers were given the lock, by the exit of the writer
    ([R0] is empty) or a downgrade ([R0] are the readers). *)
Section grant_readers.
Context (s s' : rwstate) (t : Z) (k : wake_ret) (Hi : rinv s) (Ht : t ∈ T) (Htc : tc_lock s = Some t).
Context (Hneu : neutral (Some (rt_pc s t)) = true) (Hb : unblocked (rt_pc s t)).
Let rs := rw_readers_to_wake s.
Let p := Wake k RW_READER (length rs) 0.
Context (Epc : rt_pc s' = <[t := p]> (rt_pc s)) (Epri : rt_pri s' = rt_pri s) (Etc : tc_lock s' = Some t).
Context (Ewq : wq s' = wq s) (Erq : rq s' = rq s).

Lemma gr_crit : crit s' = Some p.
Proof. apply (build_crit s s' t p Epc). done. Qed.

Lemma gr_bits : bit_w s' = nonempty (wq s) ∧ bit_r s' = nonempty (drop (length rs) (rq s)) ∧
  granted s' RW_READER = rs ∧ granted s' RW_WRITER = [].
Proof.
  unfold bit_w, bit_r, granted. rewrite gr_crit. unfold p. rewrite !wake_wants, !wake_given. cbn [ts_queue]. rewrite Ewq, Erq.
  rewrite !(decide_False (P := RW_READER = RW_WRITER)), !(decide_True (P := RW_READER = RW_READER)) by done.
  split_and!; try done. symmetry. by apply grant_prefix.
Qed.

Lemma gr_notin : t ∉ rs.
Proof. intros Hin. destruct (grant_prefix s Hi) as (_ & _ & _ & _ & Hbl). destruct (Hbl t Hin) as [E _]. by apply (Hb RW_READER). Qed.

(** What the threads have then. *)
Lemma gr_has u : u ≠ t →
  has (granted s') u (rt_pc s u) = if decide (u ∈ rs) then Some RW_READER else has (granted s) u (rt_pc s u).
Proof.
  intros Hu. destruct gr_bits as (_ & _ & Eg1 & Eg2). destruct (grant_bits s t Htc Hneu) as (_ & _ & Eg).
  destruct (grant_prefix s Hi) as (_ & _ & _ & _ & Hbl). unfold has. case_decide as E.
  - destruct (Hbl u E) as [-> _]. by rewrite Eg1, decide_True.
  - destruct (rt_pc s u) as [| | | | | | | |[]| | | | | | | | | | | | | | |]; try done.
    + by rewrite Eg1, Eg, !decide_False by (done || by intros ?%elem_of_nil).
    + by rewrite Eg2, Eg, !decide_False by (by intros ?%elem_of_nil).
Qed.

Lemma gr_kpri u : u ≠ t →
  kpri_of (granted s') u (rt_pc s u) = kpri_of (granted s) u (rt_pc s u) + (if decide (u ∈ rs) then 1 else 0).
Proof.
  intros Hu. destruct gr_bits as (_ & _ & Eg1 & Eg2). destruct (grant_bits s t Htc Hneu) as (_ & _ & Eg).
  destruct (grant_prefix s Hi) as (_ & _ & _ & _ & Hbl). unfold kpri_of. case_decide as E.
  - destruct (Hbl u E) as [-> _]. by rewrite Eg1, Eg, decide_True, decide_False by (done || by intros ?%elem_of_nil).
  - destruct (rt_pc s u) as [| | | | | | | |[]| | | | | | | | | | | | | | |]; try lia.
    + by rewrite Eg1, Eg, !decide_False by (done || by intros ?%elem_of_nil).
    + by rewrite Eg2, Eg, !decide_False by (by intros ?%elem_of_nil).
Qed.

Lemma inv_grant_readers :
  rw_wwwh s' = encode (g_readers s') None (nonempty (wq s)) (nonempty (wq s) || nonempty (drop (length rs) (rq s))) →
  g_writer s' = None → g_readers s' ≠ ∅ →
  (∀ u, u ≠ t → (u ∈ g_readers s' ↔ u ∈ rs ∨ u ∈ g_readers s)) → (t ∈ g_readers s' ↔ k = AfterDowngrade) →
  (∀ u, u ≠ t → g_writer s ≠ Some u) →
  (∀ u, rt_kpri s' u = rt_kpri s u + if decide (u ∈ rs) then 1 else 0) → pc_kpri p = pc_kpri (rt_pc s t) →
  (∀ u, u ≠ t → pc_window (rt_pc s u) = false) →
  (∀ u, u ≠ t → pc_ok (g_readers s) (bit_w s) (bit_w s || bit_r s) u (rt_pc s u) →
     pc_ok (g_readers s') (bit_w s') (bit_w s' || bit_r s') u (rt_pc s u)) → rinv s'.
Proof.
  intros Ew Egw Hne Hr Hrt Hw Hk Hkt Hwin Hpc. destruct gr_bits as (Eb & Er & Eg1 & Eg2). pose proof gr_notin as Hnt.
  destruct (same_queue s s' t p Hi Hb) as [Hq Hns]; [done|by intros []; cbn; rewrite ?Ewq, ?Erq|].
  apply (inv_build s s' t p Hi Ht (or_introl Htc) Epc Epri Etc); try done.
  - by rewrite Ew, Egw, Eb, Er.
  - rewrite Egw. by intros [].
  - rewrite Eb, Er. intros H1%grant_behind _ H2; [congruence|done].
  - intros k' q n owner [= <- <- <- <-]. cbn [ts_queue]. rewrite Erq. split_and!; [by apply grant_prefix|done..].
  - intros u. rewrite insert_pc, Egw. case_decide as E.
    + subst u. rewrite has_unblocked by done. unfold holds. rewrite Hrt. by destruct k.
    + rewrite gr_has by done. pose proof (i_holds _ Hi u) as [H1 H2]. unfold holds. rewrite Hr by done.
      specialize (Hw u E). case_decide; naive_solver.
  - intros u. rewrite insert_pc, Hk, (i_kpri _ Hi u). destruct (decide (u = t)) as [->|E].
    + rewrite (decide_False (P := t ∈ rs)), !kpri_unblocked, Hkt by done. lia.
    + by rewrite gr_kpri.
  - intros u Hu _. by apply Hpc.
Qed.
End grant_readers.

Lemma list_to_set_size (rs : list Z) (R : gset Z) :
  NoDup rs → (∀ u, u ∈ rs → u ∉ R) → size (list_to_set rs ∪ R) = (length rs + size R)%nat.
Proof.
  intros Hnd Hd. rewrite size_union; [by rewrite size_list_to_set|]. intros u Hu%elem_of_list_to_set. by apply Hd.
Qed.

(** The word after a downgrade has counted the readers to wake. *)
Lemma down_word s t : rinv s → t ∈ T → rt_pc s t = DownGrant → let rs := rw_readers_to_wake s in
  let delta := uintptr lp64 (s32 (Z.of_nat (length rs) * RW_READ_LOCK)) in
  rs ≠ [] → (length rs + size (g_readers s) <= size T)%nat →
  uintptr lp64 (rw_wwwh s + (if decide (ts_waiters s = length rs) then uintptr lp64 (delta - RW_HAS_WAITERS) else delta)) =
  wd (Z.of_nat (length rs + size (g_readers s))) false (nonempty (wq s))
    (nonempty (wq s) || nonempty (drop (length rs) (rq s))).
Proof.
  intros Hi Ht Hp rs delta Hne Hsz. assert (tc_lock s = Some t) as Htc by (by apply (i_lock _ Hi); rewrite Hp).
  assert (neutral (Some (rt_pc s t)) = true) as Hn by (by rewrite Hp).
  destruct (hold_reader s t Hi) as [_ Hw]; [by rewrite Hp..|]. pose proof (i_pc _ Hi t) as Ha. rewrite Hp in Ha. cbn in Ha.
  destruct (grant_bits s t Htc Hn) as (Eb & Er & _). destruct (grant_prefix s Hi) as (_ & Hle & _). fold rs in Hle.
  assert (length rs ≠ 0%nat) as Hn0 by (by destruct rs). assert (length rs <= size T)%nat as Hn1 by lia.
  rewrite word_reader, Ha, Eb by done. unfold delta. rewrite count_word by done.
  pose proof (wd_count (length rs) false false Hn1) as Hd. unfold rs. rewrite grant_left by done. fold rs. unfold ts_waiters.
  case_decide as Ew.
  - assert (wq s = [] ∧ length rs = length (rq s)) as [-> El] by (destruct (wq s); cbn in Ew; [done|lia]).
    rewrite bool_decide_eq_false_2 by lia. cbn [nonempty orb]. rewrite (uintptr_id (wd _ _ _ _ - _)) by (unfold wd, RW_HAS_WAITERS in *; cbn [Z.b2z] in *; lia).
    assert (∀ a b, wd (Z.of_nat a) false false true + (wd (Z.of_nat b) false false false - RW_HAS_WAITERS) =
      wd (Z.of_nat (b + a)) false false false) as -> by (intros; unfold wd, RW_HAS_WAITERS; cbn [Z.b2z]; lia).
    by apply uintptr_id, wd_count.
  - assert (nonempty (wq s) || bool_decide (length rs < length (rq s))%nat = true) as ->.
    { destruct (wq s); [|done]. cbn in Ew |- *. apply bool_decide_eq_true_2. lia. }
    assert (∀ a b c, wd (Z.of_nat a) false c true + wd (Z.of_nat b) false false false =
      wd (Z.of_nat (b + a)) false c true) as -> by (intros; unfold wd; cbn [Z.b2z]; lia).
    by apply uintptr_id, wd_count.
Qed.

(** What the other threads remember during a downgrade. *)
Lemma down_pc_ok s t u R' b' a' : rinv s → rt_pc s t = DownGrant → u ≠ t →
  pc_ok (g_readers s) (bit_w s) (bit_w s || bit_r s) u (rt_pc s u) → pc_ok R' b' a' u (rt_pc s u).
Proof.
  intros Hi Hp Hu. destruct (hold_reader s t Hi) as [Htr Hw]; [by rewrite Hp..|].
  assert (∀ rw, pc_hold (rt_pc s u) = Some rw → unblocked (rt_pc s u) → rw = RW_READER) as Hhold.
  { intros [] Hh Hb; [done|]. destruct (hold_writer s u Hi Hb Hh). congruence. }
  assert (pc_window (rt_pc s u) = false) as Hwin.
  { destruct (pc_window (rt_pc s u)) eqn:E; [|done]. destruct Hu. apply (i_window _ Hi); [done|by rewrite Hp]. }
  assert (g_readers s ≠ {[u]}) as Hne by set_solver.
  destruct (rt_pc s u) as [| | | | | | | | | | | |rw old|rw old| | | | | | | | | |]; try done;
    specialize (Hhold rw eq_refl ltac:(done)); subst rw; cbn; tauto.
Qed.

(** A downgrade gives the lock to the readers that are next. *)
Lemma inv_down_grant s t : rinv s → t ∈ T → rt_pc s t = DownGrant → ∃ s', down_grant lp64 s t = Go s' ∧ rinv s'.
Proof.
  intros Hi Ht Hp. assert (tc_lock s = Some t) as Htc by (by apply (i_lock _ Hi); rewrite Hp).
  assert (unblocked (rt_pc s t)) as Hb by (by rewrite Hp). assert (neutral (Some (rt_pc s t)) = true) as Hn by (by rewrite Hp).
  destruct (hold_reader s t Hi Hb) as [Htr Hw]; [by rewrite Hp|].
  pose proof (i_pc _ Hi t) as Ha. rewrite Hp in Ha. cbn in Ha.
  destruct (grant_bits s t Htc Hn) as (Eb & Er & Eg). rewrite Eb, Er in Ha.
  destruct (grant_prefix s Hi) as (Epre & Hle & Hall & Hnd & Hbl). pose proof (down_word s t Hi Ht Hp) as Hword.
  set (rs := rw_readers_to_wake s) in *. cbv zeta in Hword.
  assert (∀ u, u ∈ rs → u ∉ g_readers s) as Hdis.
  { intros u Hu Hur. destruct (Hbl u Hu) as [E _]. apply (i_holds _ Hi u) in Hur. rewrite E in Hur. unfold has in Hur.
    rewrite Eg, decide_False in Hur by (by intros ?%elem_of_nil). done. }
  assert (length rs + size (g_readers s) <= size T)%nat as Hsz.
  { rewrite <- list_to_set_size by done. apply subseteq_size.
    intros u [Hu%elem_of_list_to_set|Hu]%elem_of_union; [by apply Hbl|by apply (readers_in s)]. }
  unfold down_grant. rewrite decide_False.
  2:{ unfold ts_waiters. destruct (wq s), (rq s); cbn in *; (done || lia). }
  fold rs. eexists. split; [done|]. set (s' := set_pc _ _ _).
  assert (rt_pc s' = <[t := Wake AfterDowngrade RW_READER (length rs) 0]> (rt_pc s) ∧ rt_pri s' = rt_pri s ∧ tc_lock s' = Some t ∧
    wq s' = wq s ∧ rq s' = rq s ∧ g_readers s' = list_to_set rs ∪ g_readers s ∧ g_writer s' = None)
    as (Epc & Epri & Etc & Ewq & Erq & Egr & Egw).
  { unfold s'. destruct rs; cbn; split_and!; try done. by rewrite (union_empty_l_L (g_readers s)). }
  assert (t ∈ g_readers s') as Htr' by (rewrite Egr; apply elem_of_union; by right).
  apply (inv_grant_readers s s' t AfterDowngrade Hi Ht Htc Hn Hb Epc Epri Etc Ewq Erq); fold rs; try done.
  - rewrite Egr. unfold encode. rewrite list_to_set_size by done. unfold s'.
    destruct rs as [|r rs0] eqn:Ers; [|rewrite <- Ers in *; rewrite <- Hword; [done|by rewrite Ers|done]].
    cbn. by rewrite word_reader, Eb, Er.
  - intros E. by rewrite E in Htr'.
  - intros u _. rewrite Egr, elem_of_union, elem_of_list_to_set. done.
  - by rewrite Hw.
  - intros u. unfold s'. destruct rs as [|r rs0]; cbn [rt_kpri set_pc set_hold kpri_grant set_kpri set_word];
      [rewrite decide_False by (by intros ?%elem_of_nil); lia|]. destruct (decide (u ∈ r :: rs0)); lia.
  - by rewrite Hp.
  - intros u Hu. destruct (pc_window (rt_pc s u)) eqn:E; [|done]. destruct Hu. apply (i_window _ Hi); [done|by rewrite Hp].
  - intros u Hu. by apply (down_pc_ok s t).
Qed.

(** ** The final exit *)

Lemma exit_sole s t rw old : rinv s → rt_pc s t = ExitGrant rw old →
  sole s t ∧ nonempty (wq s) || nonempty (rq s) = true ∧ (rw = RW_READER → nonempty (wq s) = true) ∧
  negb (Z.land old RW_WRITE_LOCKED =? 0) = (if rw is RW_WRITER then true else false).
Proof.
  intros Hi Hp. assert (tc_lock s = Some t) as Htc by (by apply (i_lock _ Hi); rewrite Hp).
  destruct (grant_bits s t Htc) as (Eb & Er & _); [by rewrite Hp|].
  pose proof (i_pc _ Hi t) as Hok. rewrite Hp, Eb, Er in Hok. destruct rw; cbn in Hok.
  - destruct Hok as (E & Ew & HR). destruct (hold_reader s t Hi) as [_ Hw]; [by rewrite Hp..|].
    split_and!; [by right|by rewrite Ew|done|by rewrite E].
  - destruct Hok as (E & Ea). destruct (hold_writer s t Hi) as [Hw HR]; [by rewrite Hp..|].
    split_and!; [by left|done|done|]. by apply negb_true_iff, Z.eqb_neq.
Qed.

(** The writer grants the lock to readers. *)
Lemma inv_exit_readers s t old : rinv s → t ∈ T → rt_pc s t = ExitGrant RW_WRITER old → rw_readers_to_wake s ≠ [] →
  ∃ s', exit_grant lp64 s t RW_WRITER old = Go s' ∧ rinv s'.
Proof.
  intros Hi Ht Hp Hne. assert (tc_lock s = Some t) as Htc by (by apply (i_lock _ Hi); rewrite Hp).
  assert (unblocked (rt_pc s t)) as Hb by (by rewrite Hp). assert (neutral (Some (rt_pc s t)) = true) as Hn by (by rewrite Hp).
  destruct (exit_sole s t _ _ Hi Hp) as (Hsole & Ha & _ & El). destruct (hold_writer s t Hi Hb) as [Hw HR]; [by rewrite Hp|].
  destruct (grant_prefix s Hi) as (_ & Hle & _ & Hnd & Hbl). pose proof (grant_count s Hi) as Hcnt.
  pose proof (grant_left s Hi) as Hleft. unfold exit_grant. rewrite El, decide_False.
  2:{ unfold ts_waiters. destruct (wq s), (rq s); cbn in *; (done || lia). }
  set (rs := rw_readers_to_wake s) in *. destruct rs as [|r rs0] eqn:Ers; [done|]. rewrite <- Ers in *.
  eexists. split; [done|]. rewrite count_word by done. set (s' := set_pc _ _ _).
  assert (g_readers s' = list_to_set rs) as Egr.
  { change (g_readers s') with (list_to_set rs ∪ g_readers s). rewrite HR. by rewrite (union_empty_r_L (list_to_set rs)). }
  assert (r ∈ g_readers s') as Hr by (rewrite Egr, Ers; apply elem_of_list_to_set; constructor).
  apply (inv_grant_readers s s' t (AfterExit RW_WRITER) Hi Ht Htc Hn Hb); try done; fold rs.
  - rewrite Egr. unfold encode. rewrite size_list_to_set by done. fold rs in Hleft. rewrite Hleft.
    change (rw_wwwh s') with (let new := if decide (length rs < ts_waiters s)%nat
      then Z.lor (wd (Z.of_nat (length rs)) false false false) RW_HAS_WAITERS else wd (Z.of_nat (length rs)) false false false in
      if wq s is _ :: _ then Z.lor new RW_WRITE_WANTED else new). unfold ts_waiters. rewrite lor_waiters.
    destruct (wq s) as [|w ws]; cbn [nonempty orb length Nat.add].
    + by case_decide; case_bool_decide.
    + rewrite decide_True by lia. by rewrite lor_wanted.
  - intros E. by rewrite E in Hr.
  - intros u Hu. rewrite Egr, elem_of_list_to_set, HR. set_solver.
  - rewrite Egr. split; [|done]. intros Hin%elem_of_list_to_set. destruct (Hbl t Hin) as [E _]. by apply (Hb RW_READER) in E.
  - intros u Hu. rewrite Hw. congruence.
  - intros u. change (rt_kpri s' u) with (if decide (u ∈ rs) then rt_kpri s u + 1 else rt_kpri s u).
    destruct (decide (u ∈ rs)); lia.
  - by rewrite Hp.
  - intros u Hu. pose proof (sole_pc s t u Hi Hsole Hu). by destruct (rt_pc s u).
  - intros u Hu. apply pc_ok_none. by apply (sole_pc s t).
Qed.

(** The exiting thread grants the lock to the first writer. *)
Lemma inv_exit_writer s t rw old w ws : rinv s → t ∈ T → rt_pc s t = ExitGrant rw old → wq s = w :: ws →
  let new := RW_WRITE_LOCK w in
  let new := if decide (1 < ts_waiters s)%nat then Z.lor new RW_HAS_WAITERS else new in
  let new := if ws is _ :: _ then Z.lor new RW_WRITE_WANTED else new in
  let s1 := lose rw t (set_word new s) in
  rinv (set_pc t (Wake (AfterExit rw) RW_WRITER 1 w) (set_hold (g_readers s1) (Some w) s1)).
Proof.
  intros Hi Ht Hp Ewq new0 new1 new s1. set (p := Wake (AfterExit rw) RW_WRITER 1 w).
  assert (tc_lock s = Some t) as Htc by (by apply (i_lock _ Hi); rewrite Hp).
  assert (unblocked (rt_pc s t)) as Hb by (by rewrite Hp). assert (neutral (Some (rt_pc s t)) = true) as Hn by (by rewrite Hp).
  destruct (exit_sole s t _ _ Hi Hp) as (Hsole & _). destruct (grant_bits s t Htc Hn) as (_ & _ & Eg).
  assert (rt_pc s w = Blocked RW_WRITER) as Hpw by (apply (i_queue _ Hi RW_WRITER); cbn; rewrite Ewq; constructor).
  assert (w ≠ t) as Hwt by (intros ->; congruence).
  assert (w ∈ T) as HwT by (destruct (i_thread _ Hi w); [done|congruence]).
  assert (g_readers s1 = ∅) as HR.
  { unfold s1. pose proof (i_holds _ Hi t) as [H1 _]. rewrite Hp in H1. destruct Hsole as [[_ E]|[_ E]], rw; cbn; rewrite E in *.
    - apply leibniz_equiv. set_solver.
    - done.
    - apply leibniz_equiv. set_solver.
    - destruct H1 as [H1 _]. specialize (H1 ltac:(set_solver)). done. }
  set (s' := set_pc t p (set_hold (g_readers s1) (Some w) s1)).
  assert (rt_pc s' = <[t := p]> (rt_pc s) ∧ rt_pri s' = rt_pri s ∧ tc_lock s' = Some t ∧ wq s' = wq s ∧ rq s' = rq s ∧
    rt_kpri s' = rt_kpri s ∧ rw_wwwh s' = new) as (Epc & Epri & Etc & Ewq' & Erq' & Ek & Ew) by (by destruct rw).
  assert (crit s' = Some p) as Ec by (by apply (build_crit s s' t p)).
  assert (bit_w s' = nonempty ws ∧ bit_r s' = nonempty (rq s)) as [Eb Er].
  { unfold bit_w, bit_r. rewrite Ec. unfold p. rewrite !wake_wants, Ewq', Erq', Ewq.
    rewrite decide_True, decide_False by done. done. }
  assert (∀ u q, u ∈ granted s' q ↔ q = RW_WRITER ∧ u = w) as Eg'.
  { intros u q. unfold granted. rewrite Ec. unfold p. rewrite wake_given. case_decide as E; [subst q|].
    - change (ts_queue RW_WRITER s') with (wq s'). rewrite Ewq', Ewq. cbn [take]. rewrite list_elem_of_singleton. naive_solver.
    - rewrite elem_of_nil. naive_solver. }
  destruct (same_queue s s' t p Hi Hb) as [Hq Hns]; [done|by intros []; cbn; rewrite ?Ewq', ?Erq'|].
  assert (g_readers s' = ∅) as HR' by done. assert (g_writer s' = Some w) as HW' by done.
  apply (inv_build s s' t p Hi Ht (or_introl Htc) Epc Epri Etc); try done; rewrite ?HR', ?HW', ?Eb, ?Er.
  - rewrite Ew. unfold new, new1, new0, encode, ts_waiters. rewrite write_lock_wd, lor_waiters, Ewq by done. cbn [length Nat.add].
    destruct ws as [|w' ws]; cbn [nonempty orb length Nat.add].
    + destruct (rq s); cbn; repeat case_decide; (done || lia).
    + rewrite decide_True by lia. by rewrite lor_wanted.
  - intros k q n owner [= <- <- <- <-]. change (ts_queue RW_WRITER s') with (wq s'). rewrite Ewq', Ewq.
    cbn [length hd]. split_and!; (done || lia).
  - intros u. rewrite insert_pc. case_decide as E.
    + subst. split; [split; [by intros ?%elem_of_empty|done]|]. split; [congruence|done].
    + pose proof (sole_others s t u Hi Hsole E) as Hnone. destruct (decide (u = w)) as [->|Huw].
      * rewrite Hpw. unfold has. rewrite decide_True by (by apply Eg'). split; [split; [by intros ?%elem_of_empty|done]|done].
      * assert (has (granted s') u (rt_pc s u) = None) as ->.
        { unfold has in *. destruct (rt_pc s u); try done. rewrite decide_False; [done|]. rewrite Eg'. tauto. }
        split; [split; [by intros ?%elem_of_empty|done]|]. split; [congruence|done].
  - intros u. rewrite insert_pc, Ek, (i_kpri _ Hi u). case_decide as E; [subst; by rewrite Hp|].
    unfold kpri_of. destruct (rt_pc s u) as [| | | | | | | |q| | | | | | | | | | | | | | |]; try done. rewrite Eg, (decide_False (P := u ∈ [])) by (by intros ?%elem_of_nil).
    case_decide as E'; [|done]. apply Eg' in E' as [-> _]. done.
  - intros u Hu _. apply pc_ok_none. by apply (sole_pc s t).
Qed.

Lemma inv_exit_grant s t rw old : rinv s → t ∈ T → rt_pc s t = ExitGrant rw old →
  ∃ s', exit_grant lp64 s t rw old = Go s' ∧ rinv s'.
Proof.
  intros Hi Ht Hp. destruct (exit_sole s t _ _ Hi Hp) as (_ & Ha & Hrw & El).
  destruct (decide (rw = RW_WRITER ∧ rw_readers_to_wake s ≠ [])) as [[-> Hne]|Hcase]; [by apply inv_exit_readers|].
  assert (∃ w ws, wq s = w :: ws) as (w & ws & Ewq).
  { destruct (wq s) as [|w ws] eqn:E; [|by eauto]. exfalso. destruct rw; [by discriminate (Hrw eq_refl)|].
    apply Hcase. split; [done|]. destruct (grant_prefix s Hi) as (_ & _ & Hall & _). rewrite (Hall E). by destruct (rq s). }
  eexists. split; [|by apply (inv_exit_writer s t rw old w ws)]. unfold exit_grant. rewrite El, decide_False.
  2:{ unfold ts_waiters. rewrite Ewq. cbn. lia. }
  assert ((if if rw is RW_WRITER then true else false then rw_readers_to_wake s else []) = []) as ->.
  { destruct rw; [done|]. destruct (rw_readers_to_wake s) eqn:E; [done|]. destruct Hcase. by split. }
  by rewrite Ewq.
Qed.

(** ** Every step *)

Lemma set_word_id s : set_word (rw_wwwh s) s = s.
Proof. by destruct s. Qed.

(** A thread without the turnstile lock that only moves. *)
Ltac plain_move Hp := apply rw_inv_move; rewrite ?Hp; try done.

Lemma inv_enter_load s t rw : rinv s → t ∈ T → rt_pc s t = EnterLoad rw → ∃ s', enter_load s t rw = Go s' ∧ rinv s'.
Proof.
  intros Hi Ht Hp. unfold enter_load. destruct (hold_none s t Hi) as [_ Hnw]; [by rewrite Hp..|].
  destruct (Z.eqb_spec (Z.land (rw_wwwh s) (lock_busy rw)) 0) as [E|E]; [eexists; split; [done|]; by plain_move Hp|].
  destruct (Z.eqb_spec (Z.land (rw_wwwh s) RW_DOUBLE_LOCK) RW_DOUBLE_LOCK) as [Ed|_].
  { exfalso. rewrite (i_word _ Hi) in Ed. unfold encode in Ed. destruct (g_writer s) as [w|] eqn:Hw; apply land_double in Ed as [Ed1 Ed2];
      [|done]. pose proof (th_word w false false (writer_in s w Hi Hw)). lia. }
  destruct (Z.eqb_spec (Z.land (rw_wwwh s) RW_OWNER) t) as [Eo|_]; [|eexists; split; [done|]; by plain_move Hp].
  exfalso. rewrite (i_word _ Hi) in Eo. unfold encode in Eo. destruct (g_writer s) as [w|] eqn:Hw; rewrite land_locked in Eo.
  - pose proof (th_word w false false (writer_in s w Hi Hw)) as (_ & _ & _ & _ & E8). congruence.
  - destruct (th_addr _ _ HT t Ht) as [[Hlo _] _]. pose proof (readers_size s Hi). lia.
Qed.

Lemma inv_enter_cas s t rw old : rinv s → t ∈ T → rt_pc s t = EnterCas rw old → rinv (enter_cas lp64 s t rw old).
Proof.
  intros Hi Ht Hp. pose proof (i_pc _ Hi t) as Hok. rewrite Hp in Hok. cbn in Hok. unfold enter_cas.
  destruct (Z.eqb_spec (rw_wwwh s) old) as [<-|_]; [|by plain_move Hp]. destruct rw.
  - apply inv_gain_reader; rewrite ?Hp; done.
  - apply busy_writer in Hok as [Hw Hr]; [|done]. rewrite (word_free s Hi Hw Hr), Z.add_0_l. cbn [lock_value].
    rewrite uintptr_id by (rewrite write_lock_wd by done; by apply th_word). apply inv_gain_writer; rewrite ?Hp; done.
Qed.

Lemma inv_enter_reload s t rw : rinv s → t ∈ T → rt_pc s t = EnterReload rw → rinv (enter_reload s t rw).
Proof.
  intros Hi Ht Hp. assert (tc_lock s = Some t) as Hc by (by apply (i_lock _ Hi); rewrite Hp).
  assert (neutral (crit s) = true) as Hn by (by rewrite (crit_mine s t), Hp).
  assert (∀ p, rinv (set_pc t p (set_tc (Some t) s)) → rinv (set_pc t p s)) as Es by (intros p; destruct s; cbn in Hc; by subst).
  unfold enter_reload. destruct (Z.eqb_spec (Z.land (rw_wwwh s) (lock_busy rw)) 0) as [E|E].
  - apply Es. apply inv_neutral; rewrite ?Hp; try done. by left.
  - destruct (Z.eqb_spec (rw_wwwh s) (Z.lor (rw_wwwh s) (lock_wait rw))) as [El|_].
    + pose proof (inv_to_block s t rw Hi Ht Hc Hn) as H. rewrite <- El, set_word_id, Hp in H. by apply H.
    + apply Es. apply inv_neutral; rewrite ?Hp; try done. by left.
Qed.

Lemma inv_enter_wait s t rw old : rinv s → t ∈ T → rt_pc s t = EnterWait rw old → rinv (enter_wait s t rw old).
Proof.
  intros Hi Ht Hp. assert (tc_lock s = Some t) as Hc by (by apply (i_lock _ Hi); rewrite Hp).
  assert (neutral (crit s) = true) as Hn by (by rewrite (crit_mine s t), Hp).
  assert (∀ p, rinv (set_pc t p (set_tc (Some t) s)) → rinv (set_pc t p s)) as Es by (intros p; destruct s; cbn in Hc; by subst).
  pose proof (i_pc _ Hi t) as Hok. rewrite Hp in Hok. cbn in Hok. unfold enter_wait.
  destruct (Z.eqb_spec (rw_wwwh s) old) as [<-|_].
  - apply inv_to_block; rewrite ?Hp; done.
  - apply Es. apply inv_neutral; rewrite ?Hp; try done. by left.
Qed.

Lemma inv_lookup s t p r : rinv s → t ∈ T → unblocked (rt_pc s t) → lookup_step s t p = Some r →
  pc_locks p = true → neutral (Some p) = true → unblocked p →
  pc_hold p = pc_hold (rt_pc s t) → pc_window p = pc_window (rt_pc s t) → pc_kpri p = pc_kpri (rt_pc s t) →
  pc_ok (g_readers s) (bit_w s) (bit_w s || bit_r s) t p → ∃ s', r = Go s' ∧ rinv s'.
Proof.
  intros Hi Ht Hb0 Hs Hl Hn Hb Eh Ew Ek Hok. unfold lookup_step in Hs. destruct (tc_lock s) eqn:Hc; [done|]. injection Hs as <-.
  eexists. split; [done|]. apply inv_neutral; try done; [by right|by rewrite Hl|]. unfold crit. by rewrite Hc.
Qed.

Lemma inv_exit_check s t rw : rinv s → t ∈ T → rt_pc s t = ExitCheck rw → ∃ s', exit_check s t = Go s' ∧ rinv s'.
Proof.
  intros Hi Ht Hp. unfold exit_check. destruct rw.
  - destruct (hold_reader s t Hi) as [Hr Hw]; [by rewrite Hp..|]. rewrite word_reader, land_wlocked, !land_locked by done.
    change (4 * Z.b2z false) with 0. cbn [negb Z.eqb]. destruct (Z.eqb_spec (8 * Z.of_nat (size (g_readers s))) 0) as [E|_].
    + exfalso. assert (g_readers s ≡ ∅) as E' by (apply size_empty_inv; lia). set_solver.
    + eexists. split; [done|]. by plain_move Hp.
  - destruct (hold_writer s t Hi) as [Hw Hr]; [by rewrite Hp..|]. rewrite (word_writer s t), land_wlocked, land_locked by done.
    pose proof (th_word t false false Ht) as (_ & _ & _ & _ & ->). rewrite Z.eqb_refl. eexists. split; [done|]. by plain_move Hp.
Qed.

Lemma inv_exit_load s t rw : rinv s → t ∈ T → rt_pc s t = ExitLoad rw → rinv (exit_load lp64 s t rw).
Proof.
  intros Hi Ht Hp. unfold exit_load. set (new := uintptr lp64 (rw_wwwh s - lock_value rw t)).
  destruct (Z.eqb_spec (Z.land new (Z.lor RW_LOCKED RW_HAS_WAITERS)) RW_HAS_WAITERS) as [E|E]; cbn [negb]; plain_move Hp.
  unfold new in E. destruct rw; cbn [pc_ok].
  - destruct (hold_reader s t Hi) as [Hr Hw]; [by rewrite Hp..|]. rewrite exit_new_reader, land_final in E by done.
    assert (size (g_readers s ∖ {[t]}) = 0%nat ∧ bit_w s || bit_r s = true) as [Hsz Ha].
    { destruct (bit_w s || bit_r s); unfold RW_HAS_WAITERS in E; cbn in E; split; (done || lia). }
    assert (g_readers s = {[t]}) as HR.
    { apply size_empty_inv in Hsz. apply leibniz_equiv. intros u. destruct (decide (u = t)) as [->|]; set_solver. }
    split_and!; [by rewrite word_reader, land_wlocked by done| |done]. destruct (bit_w s) eqn:Eb; [done|]. exfalso.
    destruct (i_behind _ Hi Ha Hw Eb) as [u Hu]. destruct (hold_reader s u Hi) as [Hur _]; [by destruct (rt_pc s u)..|].
    rewrite HR in Hur. apply elem_of_singleton in Hur as ->. by rewrite Hp in Hu.
  - destruct (hold_writer s t Hi) as [Hw Hr]; [by rewrite Hp..|]. rewrite exit_new_writer, land_final in E by done.
    split; [by rewrite (word_writer s t), land_wlocked by done|].
    by destruct (bit_w s || bit_r s).
Qed.

Lemma inv_try_load s t : rinv s → t ∈ T → rt_pc s t = TryLoad → rinv (try_load s t).
Proof.
  intros Hi Ht Hp. unfold try_load. destruct (Z.eqb_spec (Z.land (rw_wwwh s) RW_WRITE_CLAIMED) 0) as [E|E]; cbn [negb].
  - by plain_move Hp.
  - apply inv_move_kpri; rewrite ?Hp; try done; [apply kpri_add_other|]. apply kpri_add_self; by rewrite ?Hp.
Qed.

Lemma inv_try_cas s t old : rinv s → t ∈ T → rt_pc s t = TryCas old → rinv (try_cas lp64 s t old).
Proof.
  intros Hi Ht Hp. pose proof (i_pc _ Hi t) as Hok. rewrite Hp in Hok. cbn in Hok. unfold try_cas.
  destruct (Z.eqb_spec (rw_wwwh s) old) as [<-|_]; [|by plain_move Hp]. apply inv_gain_reader; rewrite ?Hp; done.
Qed.

Lemma word_zero s : rinv s → rw_wwwh s = 0 → g_writer s = None ∧ g_readers s = ∅.
Proof. intros Hi E. apply busy_writer; [done|]. by rewrite E. Qed.

Lemma inv_try_write s t : rinv s → t ∈ T → rt_pc s t = TryWrite → rinv (try_write s t).
Proof.
  intros Hi Ht Hp. unfold try_write. destruct (Z.eqb_spec (rw_wwwh s) 0) as [E|_]; [|by plain_move Hp].
  destruct (word_zero s Hi E). apply inv_gain_writer; rewrite ?Hp; done.
Qed.

Lemma inv_down_check s t : rinv s → t ∈ T → rt_pc s t = DownCheck → ∃ s', down_check s t = Go s' ∧ rinv s'.
Proof.
  intros Hi Ht Hp. unfold down_check. destruct (hold_writer s t Hi) as [Hw Hr]; [by rewrite Hp..|].
  rewrite (word_writer s t), land_locked by done. pose proof (th_word t false false Ht) as (_ & _ & _ & _ & ->).
  rewrite Z.eqb_refl. eexists. split; [done|]. by plain_move Hp.
Qed.

Lemma inv_up_load s t : rinv s → t ∈ T → rt_pc s t = UpLoad → rinv (up_load lp64 s t).
Proof.
  intros Hi Ht Hp. unfold up_load.
  destruct (Z.eqb_spec (Z.land (rw_wwwh s) (Z.lnot RW_HAS_WAITERS)) RW_READ_LOCK) as [E|_]; by plain_move Hp.
Qed.

Lemma inv_up s t old new : rinv s → t ∈ T → rt_pc s t = UpCas old new → rinv (up_cas s t old new).
Proof.
  intros Hi Ht Hp. destruct (decide (rw_wwwh s = old)) as [E|E]; [by apply inv_up_cas|].
  unfold up_cas. rewrite (proj2 (Z.eqb_neq _ _) E). by plain_move Hp.
Qed.

Lemma inv_exit s t rw old new : rinv s → t ∈ T → rt_pc s t = ExitCas rw old new → rinv (exit_cas s t rw old new).
Proof.
  intros Hi Ht Hp. unfold exit_cas. destruct (Z.eqb_spec (rw_wwwh s) old) as [E|_]; [by eapply inv_exit_cas|by plain_move Hp].
Qed.

Lemma inv_drop s t rw : rinv s → t ∈ T → rt_pc s t = EnterDrop rw → rinv (set_pc t (EnterLoad rw) (set_tc None s)).
Proof.
  intros Hi Ht Hp. assert (tc_lock s = Some t) as Hc by (by apply (i_lock _ Hi); rewrite Hp).
  apply inv_neutral; rewrite ?Hp; try done; [by left|]. by rewrite (crit_mine s t), Hp.
Qed.

(** A step of a thread never panics and never follows a null pointer. *)
Theorem step_ok s t r : rinv s → t ∈ T → rw_step lp64 s t = Some r → ∃ s', r = Go s' ∧ rinv s'.
Proof.
  intros Hi Ht Hs. pose proof (i_pc _ Hi t) as Hok. unfold rw_step in Hs.
  destruct (rt_pc s t) eqn:Hp; try discriminate Hs;
    try (apply (inv_lookup s t _ r Hi Ht) in Hs; [by eauto|by rewrite Hp|try by rewrite ?Hp..]; done); injection Hs as <-.
  - by apply inv_enter_load.
  - eexists. split; [done|]. by apply inv_enter_cas.
  - eexists. split; [done|]. by apply inv_enter_reload.
  - eexists. split; [done|]. by apply inv_enter_wait.
  - eexists. split; [done|]. by apply inv_drop.
  - eexists. split; [done|]. by apply inv_enter_block.
  - by eapply inv_exit_check.
  - eexists. split; [done|]. by apply inv_exit_load.
  - eexists. split; [done|]. by apply inv_exit.
  - by apply inv_exit_grant.
  - by apply inv_wake.
  - eexists. split; [done|]. by apply inv_try_load.
  - eexists. split; [done|]. by apply inv_try_cas.
  - eexists. split; [done|]. by apply inv_try_write.
  - by apply inv_down_check.
  - eexists. split; [done|]. by apply inv_down_add.
  - by apply inv_down_grant.
  - eexists. split; [done|]. by apply inv_up_load.
  - eexists. split; [done|]. by apply inv_up.
Qed.

(** ** Calls and changes of priority *)

Lemma call_ok s t c s' : rinv s → t ∈ T → rw_call s t c = Some s' → rinv s'.
Proof.
  intros Hi Ht Hs. unfold rw_call in Hs.
  destruct c as [[]|[]| | |], (rt_pc s t) as [[[]|]| | | | | | | | | | | | | | | | | | | | | | |] eqn:Hp; try done;
    injection Hs as <-; first [by plain_move Hp
      |apply inv_move_kpri; rewrite ?Hp; try done; [apply kpri_add_other|]; apply kpri_add_self; by rewrite ?Hp].
Qed.

(** The queues in a new order, with new priorities. *)
Lemma inv_reorder s wq' rq' pri' :
  let s' := Rw (rw_wwwh s) (tc_lock s) wq' rq' pri' (rt_kpri s) (rt_pc s) (g_readers s) (g_writer s) in
  rinv s → (∀ t, 0 <= pri' t) →
  (∀ q, (∀ u, u ∈ ts_queue q s' ↔ u ∈ ts_queue q s) ∧ NoDup (ts_queue q s') ∧ sq_sorted pri' (ts_queue q s')) →
  (wq' = wq s ∧ rq' = rq s) ∨ tc_lock s = None → rinv s'.
Proof.
  intros s' Hi Hp Hq Hc.
  assert (∀ q, wants (crit s) q (ts_queue q s') = wants (crit s) q (ts_queue q s) ∧ granted s' q = granted s q ∧
    length (ts_queue q s') = length (ts_queue q s)) as Hb.
  { intros q. destruct (Hq q) as (He & Hn & _). unfold granted. change (crit s') with (crit s).
    assert (ts_queue q s' ≡ₚ ts_queue q s) as HP by (apply NoDup_Permutation; [done|apply (i_nodup _ Hi)|done]).
    destruct Hc as [[-> ->]|Hc]; [by destruct q|]. unfold crit. rewrite Hc. split_and!; [|done|by rewrite HP].
    cbn. unfold wants. cbn. destruct (ts_queue q s') eqn:E1, (ts_queue q s) eqn:E2; try done.
    - by apply Permutation_nil in HP.
    - symmetry in HP. by apply Permutation_nil in HP. }
  assert (bit_w s' = bit_w s) as Eb by apply (Hb RW_WRITER). assert (bit_r s' = bit_r s) as Er by apply (Hb RW_READER).
  destruct Hi as [I1 I2 I3 I4 I5 I6 I7 I8 I9 I10 I11 I12 I13 I14 I15].
  split; rewrite ?Eb, ?Er; try done.
  - intros q u. rewrite (proj1 (Hq q)). apply I7.
  - intros q. apply (Hq q).
  - intros q. apply (Hq q).
  - intros t k q n owner Ht. change (rt_pc s' t) with (rt_pc s t) in Ht. destruct (I11 t k q n owner Ht) as (H1 & H2 & H3). destruct (Hb q) as (_ & _ & ->).
    split_and!; [done..|]. destruct Hc as [[-> _]|Hc]; [done|]. exfalso.
    assert (tc_lock s = Some t) as E by (apply I6; by rewrite Ht). congruence.
  - intros t. specialize (I13 t). change (rt_pc s' t) with (rt_pc s t). unfold has in *. destruct (rt_pc s t); try done.
    by destruct (Hb rw) as (_ & -> & _).
  - intros t. specialize (I14 t). change (rt_pc s' t) with (rt_pc s t). unfold kpri_of in *. destruct (rt_pc s t); try done.
    by destruct (Hb rw) as (_ & -> & _).
Qed.

Lemma change_pri_ok s t p s' : rinv s → 0 <= p → change_pri s t p = Some s' → rinv s'.
Proof.
  intros Hi Hp Hs. unfold change_pri in Hs. set (pri' := <[t := p]> (rt_pri s)) in *.
  assert (∀ u, u ≠ t → pri' u = rt_pri s u) as Hpu by (intros u Hu; unfold pri'; by rewrite fn_lookup_insert_ne).
  assert (∀ u, 0 <= pri' u) as Hpp.
  { intros u. destruct (decide (u = t)) as [->|]; [unfold pri'; by rewrite fn_lookup_insert|].
    rewrite Hpu by done. apply (i_pri _ Hi). }
  assert (∀ q, t ∉ ts_queue q s → sq_sorted pri' (ts_queue q s)) as Hsame.
  { intros q Hq. apply (sq_sorted_ext (rt_pri s)); [|apply (i_sorted _ Hi)]. intros u Hu. apply Hpu. congruence. }
  assert (∀ q, t ∈ ts_queue q s → let l := sq_ins pri' t (sq_del t (ts_queue q s)) in
    (∀ u, u ∈ l ↔ u ∈ ts_queue q s) ∧ NoDup l ∧ sq_sorted pri' l) as Hmove.
  { intros q Hq l. split_and!.
    - intros u. unfold l. rewrite sq_ins_elem, sq_del_elem. destruct (decide (u = t)); naive_solver.
    - apply sq_ins_nodup; [rewrite sq_del_elem; tauto|]. apply NoDup_filter, (i_nodup _ Hi).
    - apply sq_ins_sorted. apply (sq_sorted_ext (rt_pri s)); [|apply sq_sorted_del, (i_sorted _ Hi)].
      intros u [Hu _]%sq_del_elem. by apply Hpu. }
  assert (∀ q q', t ∈ ts_queue q s → q' ≠ q → t ∉ ts_queue q' s) as Hone.
  { intros q q' H1%(i_queue _ Hi) Hne H2%(i_queue _ Hi). congruence. }
  destruct (decide (t ∈ wq s)) as [Hw|Hw]; [|destruct (decide (t ∈ rq s)) as [Hr|Hr]].
  - destruct (decide (tc_lock s = None)) as [Hc|]; [|done]. injection Hs as <-.
    apply (inv_reorder s (sq_ins pri' t (sq_del t (wq s))) (rq s) pri' Hi Hpp); [|by right].
    intros []; [|by apply (Hmove RW_WRITER)]. split_and!; [done|apply (i_nodup _ Hi RW_READER)|].
    apply (Hsame RW_READER). by apply (Hone RW_WRITER).
  - destruct (decide (tc_lock s = None)) as [Hc|]; [|done]. injection Hs as <-.
    apply (inv_reorder s (wq s) (sq_ins pri' t (sq_del t (rq s))) pri' Hi Hpp); [|by right].
    intros []; [by apply (Hmove RW_READER)|]. split_and!; [done|apply (i_nodup _ Hi RW_WRITER)|by apply (Hsame RW_WRITER)].
  - injection Hs as <-. apply (inv_reorder s (wq s) (rq s) pri' Hi Hpp); [|by left].
    intros []; split_and!; try done; [apply (i_nodup _ Hi RW_READER)|by apply (Hsame RW_READER)
      |apply (i_nodup _ Hi RW_WRITER)|by apply (Hsame RW_WRITER)].
Qed.

Theorem rstep_inv s s' : rinv s → rstep lp64 T s s' → rinv s'.
Proof.
  intros Hi Hs. destruct Hs as [s t s' Ht Hs|s t c s' Ht Hs|s t p s' Hp Hs].
  - destruct (step_ok s t _ Hi Ht Hs) as (s1 & [= ->] & ?). done.
  - by eapply call_ok.
  - by eapply change_pri_ok.
Qed.

Theorem rw_reachable_inv s : reachable lp64 T s → rinv s.
Proof.
  intros (pri & Hp & Hs). pose proof (rinv_init pri Hp) as Hi. induction Hs as [|s1 s2 s3 H12 _ IH]; [done|].
  by apply IH, (rstep_inv s1).
Qed.

End inv.
