(* ===== verification/RwProps.v ===== *)
(** * Properties of readers/writer locks

    What RwInv gives for the callers of rwlock.c: exclusion, no panic and no
    null pointer for callers that keep to the protocol, the policy of the
    final exit and of a downgrade, no lost wakeup, calls that end, and what
    the observers report. *)

From Stdlib Require Import ZArith Lia Sorted String.
From stdpp Require Import base numbers option functions gmap sorting list.
From S2P Require Import Prelude SleepQ RwLock RwInv.

#[local] Open Scope Z_scope.

Section props.
Context (lp64 : bool) (T : gset Z) (HT : threads_ok lp64 T).

(** What a call has given a thread that is outside. *)
Definition possesses (s : rwstate) (t : Z) (rw : krw) : Prop := rt_pc s t = Outside (Some rw).

Lemma possesses_reader s t : rinv lp64 T s → possesses s t RW_READER → t ∈ g_readers s ∧ g_writer s = None.
Proof. intros Hi Hp. apply (hold_reader lp64 T s t Hi); by rewrite Hp. Qed.

Lemma possesses_writer s t : rinv lp64 T s → possesses s t RW_WRITER → g_writer s = Some t ∧ g_readers s = ∅.
Proof. intros Hi Hp. apply (hold_writer lp64 T s t Hi); by rewrite Hp. Qed.

(** C4: whatever the interleaving, a thread that has returned from
    [rw_enter], [rw_tryenter], [rw_tryupgrade] or a wakeup with the write
    lock is the only thread with the lock; the word names it, and with
    readers it counts all that have entered and not left; a step of a thread
    never panics, follows a null pointer or overflows the hold count. *)
Theorem rw_exclusion s :
  reachable lp64 T s →
  (∀ t u rw, possesses s t RW_WRITER → possesses s u rw → t = u) ∧
  (∀ t, possesses s t RW_WRITER → rw_owner s = t) ∧
  (∀ ts, NoDup ts → Forall (λ t, possesses s t RW_READER) ts →
     8 * Z.of_nat (length ts) <= Z.land (rw_wwwh s) RW_HOLD_COUNT < 2 ^ 31 ∨ ts = []) ∧
  (∀ t r, t ∈ T → rw_step lp64 s t = Some r → ∃ s', r = Go s' ∧ reachable lp64 T s').
Proof.
  intros Hr. pose proof (rw_reachable_inv lp64 T HT s Hr) as Hi. split_and!.
  - intros t u rw Ht%possesses_writer Hu; [|done]. destruct Ht as [Hw HR], rw.
    + apply possesses_reader in Hu as [Hu _]; [|done]. rewrite HR in Hu. by apply elem_of_empty in Hu.
    + apply possesses_writer in Hu as [Hu _]; [|done]. congruence.
  - intros t [Hw HR]%possesses_writer; [|done]. unfold rw_owner. rewrite (word_writer lp64 T s t Hi Hw), land_wlocked, land_locked.
    cbn [Z.b2z Z.mul]. by destruct (th_word lp64 T HT t false false (writer_in lp64 T s t Hi Hw)) as (_ & _ & _ & _ & ->).
  - intros ts Hnd Hall. destruct ts as [|t ts]; [by right|]. left. set (l := t :: ts) in *.
    rewrite Forall_forall in Hall.
    assert (g_writer s = None) as Hw by (apply (possesses_reader s t Hi), Hall; constructor).
    rewrite (word_reader lp64 T s Hi Hw), land_locked. pose proof (readers_size lp64 T s Hi). pose proof (th_few _ _ HT).
    assert (length l <= size (g_readers s))%nat; [|lia]. rewrite <- (size_list_to_set (C := gset Z) l) by done.
    apply subseteq_size. intros u Hu%elem_of_list_to_set. by apply (possesses_reader s u Hi), Hall.
  - intros t r Ht Hs. destruct (step_ok lp64 T HT s t r Hi Ht Hs) as (s' & -> & _). exists s'. split; [done|].
    destruct Hr as (pri & Hp & Hr). exists pri. split; [done|]. eapply rtc_r; [done|]. by apply (rstep_thread lp64 T s t).
Qed.
(** ** The policy of wakeups *)

(** The steps of one thread. *)
Fixpoint solo (n : nat) (s : rwstate) (t : Z) : option rwstate :=
  match n with
  | O => Some s
  | S n => match rw_step lp64 s t with Some (Go s') => solo n s' t | _ => None end
  end.

(** The waiting readers that are at least as urgent as every waiting
    writer. *)
Definition urgent (s : rwstate) : list Z := filter (λ r, Forall (λ w, rt_pri s w <= rt_pri s r) (wq s)) (rq s).

(** To whom the lock goes. *)
Definition successors (s : rwstate) (p : pc) : krw * list Z :=
  match p with
  | ExitGrant RW_WRITER _ => match urgent s with [] => (RW_WRITER, take 1 (wq s)) | _ => (RW_READER, urgent s) end
  | DownGrant => (RW_READER, urgent s)
  | _ => (RW_WRITER, take 1 (wq s))
  end.

Lemma readers_before_filter pri wpri rs :
  sq_sorted pri rs → readers_before pri wpri rs = filter (λ r, wpri <= pri r) rs.
Proof.
  intros Hs. induction Hs as [|r rs Hs IH Hall]; [done|]. cbn [readers_before]. rewrite filter_cons.
  destruct (Z.ltb_spec (pri r) wpri); [rewrite decide_False by lia|by rewrite decide_True, IH by lia].
  rewrite Forall_forall in Hall. clear IH Hs. induction rs as [|x rs IH]; [done|].
  pose proof (Hall x ltac:(constructor)). rewrite filter_cons_False by lia. apply IH. intros y Hy. apply Hall. by constructor.
Qed.

Lemma to_wake_urgent s : rinv lp64 T s → rw_readers_to_wake s = urgent s.
Proof.
  intros Hi. unfold rw_readers_to_wake, urgent. rewrite readers_before_filter by apply (i_sorted _ _ _ Hi RW_READER).
  apply list_filter_iff. intros r. pose proof (i_sorted _ _ _ Hi RW_WRITER) as Hs. cbn in Hs. pose proof (i_pri _ _ _ Hi r).
  destruct (wq s) as [|w ws]; [split; [constructor|lia]|]. apply StronglySorted_cons in Hs as [Hall _].
  rewrite Forall_cons. split; [|tauto]. intros Hr. split; [done|]. rewrite Forall_forall in Hall |- *.
  intros x Hx. specialize (Hall x Hx). lia.
Qed.

(** [turnstile_wakeup] wakes the first [n] of the queue. *)
Definition wake_pc (k : wake_ret) : pc := match k with AfterExit _ => Outside None | AfterDowngrade => Outside (Some RW_READER) end.

Lemma wake_run n s t k q owner :
  rinv lp64 T s → t ∈ T → rt_pc s t = Wake k q n owner → let ts := take n (ts_queue q s) in
  ∃ s', solo (S n) s t = Some s' ∧ rinv lp64 T s' ∧ tc_lock s' = None ∧ rw_wwwh s' = rw_wwwh s ∧
    (∀ q', ts_queue q' s' = if decide (q = q') then drop n (ts_queue q s) else ts_queue q' s) ∧
    (∀ u, rt_pc s' u = if decide (u = t) then wake_pc k else if decide (u ∈ ts) then Outside (Some q) else rt_pc s u).
Proof.
  revert s owner. induction n as [|n IH]; intros s owner Hi Ht Hp ts.
  - destruct (inv_wake_end lp64 T s t k q owner Hi Ht Hp) as [E Hi']. eexists. split.
    { cbn. unfold rw_step. rewrite Hp. cbn in E |- *. by rewrite E. }
    split_and!; [done|by destruct k as [[]|]..| |].
    + intros q'. rewrite drop_0. case_decide; [subst q'|]; by destruct k as [[]|], q.
    + intros u. change ts with (@nil Z). rewrite (decide_False (P := u ∈ [])) by (by intros ?%elem_of_nil).
      destruct k as [[]|]; cbn; apply insert_pc.
  - destruct (i_wake _ _ _ Hi t k q (S n) owner Hp) as (Hlen & _).
    destruct (ts_queue q s) as [|t' ts'] eqn:Eq; [cbn in Hlen; lia|].
    pose proof (inv_pop lp64 T s t k q n owner t' ts' Hi Hp Eq) as Hi1. set (s1 := pop_next s t k q n owner t' ts') in *.
    pose proof (pop_ne lp64 T s t k q n owner t' ts' Hi Hp Eq) as Hne.
    assert (rt_pc s1 t = Wake k q n (if t' =? owner then 0 else owner)) as Hp1.
    { unfold s1. rewrite (pop_pcs s t k q n owner t' ts'), decide_False, decide_True by done. done. }
    destruct (IH s1 _ Hi1 Ht Hp1) as (s2 & Hs2 & Hi2 & Htc & Hw & Hq & Hpc). exists s2. split_and!; [|done..|exact Hw| |].
    + change (solo (S (S n)) s t) with (match rw_step lp64 s t with Some (Go s') => solo (S n) s' t | _ => None end).
      unfold rw_step. rewrite Hp. unfold wake_step. by rewrite Eq.
    + intros q'. rewrite Hq. unfold s1. rewrite !pop_queue, (decide_True (P := q = q)) by done. by repeat case_decide.
    + intros u. rewrite Hpc. unfold s1. rewrite pop_queue, (decide_True (P := q = q)), pop_pcs by done. unfold ts. cbn [take].
      destruct (decide (u = t)) as [->|]; [done|].
      destruct (decide (u = t')) as [->|Hu].
      * rewrite (decide_True (P := t' ∈ t' :: _)) by constructor. by case_decide.
      * destruct (decide (u ∈ take n ts')); [rewrite decide_True by (by constructor)|
          rewrite decide_False by (rewrite elem_of_cons; tauto)]; done.
Qed.

Definition grants (p : pc) : Prop := match p with ExitGrant _ _ | DownGrant => True | _ => False end.
Definition grant_ret (p : pc) : pc := if p is DownGrant then Outside (Some RW_READER) else Outside None.

(** The first step: the word is written, and the threads to wake are a
    prefix of their queue. *)
Lemma grant_step s t q ts :
  rinv lp64 T s → t ∈ T → grants (rt_pc s t) → successors s (rt_pc s t) = (q, ts) →
  ∃ s1 k owner, rw_step lp64 s t = Some (Go s1) ∧ rinv lp64 T s1 ∧
    rt_pc s1 = <[t := Wake k q (length ts) owner]> (rt_pc s) ∧ (∀ q', ts_queue q' s1 = ts_queue q' s) ∧
    ts = take (length ts) (ts_queue q s) ∧ wake_pc k = grant_ret (rt_pc s t).
Proof.
  intros Hi Ht Hg Hsuc. pose proof (to_wake_urgent s Hi) as Eu.
  destruct (grant_prefix lp64 T s Hi) as (Epre & _). cbv zeta in Epre. rewrite Eu in Epre.
  destruct (rt_pc s t) as [| | | | | | | | | | | | |rw old| | | | | | | | | |] eqn:Hp; try done; cbn in Hsuc.
  - destruct (inv_exit_grant lp64 T HT s t rw old Hi Ht Hp) as (s1 & Hs & Hi1).
    destruct (exit_sole lp64 T s t rw old Hi Hp) as (_ & _ & _ & El).
    unfold rw_step. rewrite Hp, Hs. unfold exit_grant in Hs. rewrite El, Eu in Hs. case_decide; [done|].
    destruct rw; [|destruct (urgent s) as [|r rs] eqn:Eur]; cbn in Hs.
    1,2: injection Hsuc as <- <-; destruct (wq s) as [|w ws] eqn:Ewq; [done|]; injection Hs as <-; do 3 eexists; split_and!; try done;
      try (by intros []; cbn; rewrite ?Ewq); try (by cbn; rewrite Ewq).
    injection Hsuc as <- <-. injection Hs as <-. do 3 eexists. split_and!; try done.
  - injection Hsuc as <- <-. destruct (inv_down_grant lp64 T HT s t Hi Ht Hp) as (s1 & Hs & Hi1).
    unfold rw_step. rewrite Hp, Hs. unfold down_grant in Hs. rewrite Eu in Hs. case_decide; [done|]. injection Hs as <-.
    do 3 eexists. split_and!; try done.
    + by destruct (urgent s).
    + intros q'. by destruct (urgent s), q'.
    + done.
Qed.

(** C14: direct handoff.  A thread that gives up the lock with threads waiting
    ends its call after waking exactly its successors, which leave their
    queue with the lock: after the exit of a writer all readers that are at
    least as urgent as every waiting writer, if there are any, and otherwise
    the first of the waiting writers, which has the highest priority; after
    the exit of the last reader that writer; after a downgrade those readers.
    There is always a successor of an exit. *)
Theorem rw_handoff s t q ts :
  reachable lp64 T s → t ∈ T → grants (rt_pc s t) → successors s (rt_pc s t) = (q, ts) →
  (∃ s', solo (2 + length ts) s t = Some s' ∧ tc_lock s' = None ∧ rt_pc s' t = grant_ret (rt_pc s t) ∧
     (∀ u, u ≠ t → rt_pc s' u = if decide (u ∈ ts) then Outside (Some q) else rt_pc s u) ∧
     ∀ q', ts_queue q' s' = if decide (q = q') then drop (length ts) (ts_queue q s) else ts_queue q' s) ∧
  (rt_pc s t ≠ DownGrant → ts ≠ []) ∧ Forall (λ u, rt_pc s u = Blocked q) ts ∧
  (∀ w ws, wq s = w :: ws → Forall (λ w', rt_pri s w' <= rt_pri s w) ws).
Proof.
  intros Hr Ht Hg Hsuc. pose proof (rw_reachable_inv lp64 T HT s Hr) as Hi.
  destruct (grant_step s t q ts Hi Ht Hg Hsuc) as (s1 & k & owner & Hs1 & Hi1 & Epc & Eq & Ets & Ek).
  assert (rt_pc s1 t = Wake k q (length ts) owner) as Hp1 by (by rewrite Epc, insert_pc, decide_True).
  destruct (wake_run _ s1 t k q owner Hi1 Ht Hp1) as (s2 & Hs2 & _ & Htc & _ & Hq & Hpc). rewrite Eq in Hq, Hpc.
  rewrite <- Ets in Hpc. split_and!.
  - exists s2. split_and!; [|done| | |].
    + change (solo (2 + length ts) s t) with
        (match rw_step lp64 s t with Some (Go s') => solo (S (length ts)) s' t | _ => None end). by rewrite Hs1.
    + by rewrite Hpc, decide_True.
    + intros u Hu. rewrite Hpc, (decide_False (P := u = t)), Epc, insert_pc, (decide_False (P := u = t)) by done. done.
    + intros q'. by rewrite Hq, Eq.
  - intros Hnd ->. destruct (rt_pc s t) as [| | | | | | | | | | | | |rw old| | | | | | | | | |] eqn:Hp; try done.
    destruct (exit_sole lp64 T s t rw old Hi Hp) as (_ & Ha & Hrw & _). cbn in Hsuc.
    assert (wq s = []) as Ewq.
    { destruct rw; [|destruct (urgent s); [|done]]; injection Hsuc as _ Hsuc; by destruct (wq s). }
    destruct rw; [by rewrite Ewq in Hrw; discriminate (Hrw eq_refl)|].
    destruct (grant_prefix lp64 T s Hi) as (_ & _ & Hall & _). rewrite to_wake_urgent in Hall by done.
    rewrite (Hall Ewq) in Hsuc. rewrite Ewq in Ha. by destruct (rq s).
  - rewrite Ets. apply Forall_forall. intros u Hu. apply (i_queue _ _ _ Hi).
    by eapply elem_of_take in Hu as (? & ?%list_elem_of_lookup_2 & _).
  - intros w ws E. pose proof (i_sorted _ _ _ Hi RW_WRITER) as Hs. cbn in Hs. rewrite E in Hs.
    by apply StronglySorted_cons in Hs as [? _].
Qed.

(** ** Calls end *)

(** How the call a thread is in can end. *)
Definition outcomes (p : pc) : list pc :=
  match p with
  | Outside h => [Outside h]
  | EnterLoad rw | EnterCas rw _ | EnterLookup rw | EnterReload rw | EnterWait rw _ | EnterDrop rw | EnterBlock rw =>
      [Outside (Some rw); Blocked rw]
  | Blocked rw => [Blocked rw]
  | ExitCheck _ | ExitLoad _ | ExitCas _ _ _ | ExitLookup _ _ | ExitGrant _ _ => [Outside None]
  | Wake k _ _ _ => [wake_pc k]
  | TryLoad | TryCas _ => [Outside None; Outside (Some RW_READER)]
  | TryWrite => [Outside None; Outside (Some RW_WRITER)]
  | DownCheck | DownAdd | DownLookup | DownGrant => [Outside (Some RW_READER)]
  | UpLoad | UpCas _ _ => [Outside (Some RW_READER); Outside (Some RW_WRITER)]
  end.

Definition settled (p : pc) : bool := match p with Outside _ | Blocked _ => true | _ => false end.

(** Nobody else has the turnstile lock. *)
Definition undisturbed (s : rwstate) (t : Z) : Prop := tc_lock s = None ∨ tc_lock s = Some t.

(** The thread, run alone, ends its call within [k] steps. *)
Definition ends (k : nat) (s : rwstate) (t : Z) : Prop :=
  ∃ n s', (n <= k)%nat ∧ solo n s t = Some s' ∧ settled (rt_pc s' t) = true ∧ rt_pc s' t ∈ outcomes (rt_pc s t).

Lemma ends_now k s t : settled (rt_pc s t) = true → ends k s t.
Proof. intros Hp. exists O, s. split_and!; [lia|done|done|]. destruct (rt_pc s t); (discriminate || constructor). Qed.

Lemma ends_weaken k k' s t : (k <= k')%nat → ends k s t → ends k' s t.
Proof. intros Hk (n & s' & Hn & H). exists n, s'. split; [lia|done]. Qed.

Lemma ends_step k s s1 t :
  rw_step lp64 s t = Some (Go s1) → outcomes (rt_pc s1 t) ⊆ outcomes (rt_pc s t) → ends k s1 t → ends (S k) s t.
Proof.
  intros Hs Ho (n & s' & Hn & Hs' & Hset & Hin). exists (S n), s'. split_and!; [lia| |done|by apply Ho].
  cbn [solo]. by rewrite Hs.
Qed.

Lemma undisturbed_step s s1 t : rw_step lp64 s t = Some (Go s1) → undisturbed s t → undisturbed s1 t.
Proof.
  unfold rw_step, lookup_step, enter_load, enter_cas, enter_reload, enter_wait, enter_block, exit_check, exit_load,
    exit_cas, exit_grant, wake_step, wake_done, try_load, try_cas, try_write, down_check, down_add, down_grant,
    up_load, up_cas, kpri_release, gain, lose, undisturbed.
  intros Hs Hu. destruct (rt_pc s t); repeat case_match; simplify_eq; cbn; auto.
Qed.

(** A thread that can run. *)
Definition ready (s : rwstate) (t : Z) (p : pc) : Prop := rinv lp64 T s ∧ t ∈ T ∧ undisturbed s t ∧ rt_pc s t = p.

Lemma ready_ends k s s1 t p p1 :
  ready s t p → rw_step lp64 s t = Some (Go s1) → rt_pc s1 t = p1 → outcomes p1 ⊆ outcomes p →
  (ready s1 t p1 → ends k s1 t) → ends (S k) s t.
Proof.
  intros (Hi & Ht & Hu & Hp) Hs Hp1 Ho He. apply (ends_step k s s1 t Hs); [by rewrite Hp, Hp1|]. apply He.
  destruct (step_ok lp64 T HT s t _ Hi Ht Hs) as (s' & [= <-] & Hi'). split_and!; try done. by eapply undisturbed_step.
Qed.

Lemma ready_settled k s t p : ready s t p → settled p = true → ends k s t.
Proof. intros (_ & _ & _ & <-). apply ends_now. Qed.

Lemma ready_lookup s t p q : ready s t p → pc_locks p = false → lookup_step s t q = Some (Go (set_pc t q (set_tc (Some t) s))).
Proof.
  intros (Hi & _ & [Hu|Hu] & Hp) Hl; unfold lookup_step; rewrite Hu; [done|].
  apply (i_lock _ _ _ Hi) in Hu. by rewrite Hp, Hl in Hu.
Qed.

Lemma self_pc (f : Z → pc) t p : (<[t := p]> f) t = p.
Proof. apply fn_lookup_insert. Qed.

(** Take a step of the thread that [H] says is ready, where [tac] decides
    the tests of the code. *)
Ltac run_step H tac :=
  eapply ready_ends; [exact H|unfold rw_step; rewrite (proj2 (proj2 (proj2 H)));
    unfold enter_load, enter_cas, enter_reload, enter_wait, exit_load, exit_cas, try_load, try_cas, try_write, up_load, up_cas;
    tac; reflexivity|cbn; rewrite ?self_pc; reflexivity|clear; cbn; set_solver|].
(** Use a bound [lem] that is smaller. *)
Ltac within lem := eapply ends_weaken, lem; [|done..]; lia.
Ltac finish := let H := fresh in intros H; by eapply ready_settled.

Lemma ends_block s t rw : ready s t (EnterBlock rw) → ends 1 s t.
Proof. intros H. destruct rw; run_step H idtac; finish. Qed.

Lemma ends_wait s t rw old : ready s t (EnterWait rw old) → rw_wwwh s = old → ends 2 s t.
Proof. intros H E%Z.eqb_eq. run_step H ltac:(rewrite E). apply ends_block. Qed.

Lemma ends_reload_busy s t rw : ready s t (EnterReload rw) → Z.land (rw_wwwh s) (lock_busy rw) ≠ 0 → ends 3 s t.
Proof.
  intros H Hb%Z.eqb_neq. destruct (rw_wwwh s =? Z.lor (rw_wwwh s) (lock_wait rw)) eqn:E; run_step H ltac:(cbv zeta; rewrite Hb, E).
  - intros H'. within ends_block.
  - intros H'. by eapply ends_wait.
Qed.

Lemma ends_load_free s t rw : ready s t (EnterLoad rw) → Z.land (rw_wwwh s) (lock_busy rw) = 0 → ends 2 s t.
Proof.
  intros H Hb%Z.eqb_eq. run_step H ltac:(cbv zeta; rewrite Hb). intros H'.
  destruct rw; run_step H' ltac:(cbn; rewrite Z.eqb_refl); finish.
Qed.

Lemma ends_load s t rw : ready s t (EnterLoad rw) → ends 5 s t.
Proof.
  intros H. destruct (decide (Z.land (rw_wwwh s) (lock_busy rw) = 0)) as [Hb|Hb].
  { within ends_load_free. }
  destruct H as (Hi & Ht & Hu & Hp) eqn:EH. clear EH.
  destruct (inv_enter_load lp64 T HT s t rw Hi Ht Hp) as (s1 & Hs & _). pose proof Hb as Hb'. apply Z.eqb_neq in Hb'.
  eapply (ready_ends _ _ s1 _ _ (EnterLookup rw)); [exact H|unfold rw_step; by rewrite Hp, Hs|..].
  all: unfold enter_load in Hs; rewrite Hb' in Hs; repeat case_match; try done; injection Hs as <-.
  - apply self_pc.
  - intros Hr. run_step Hr ltac:(rewrite (ready_lookup _ t _ (EnterReload rw) Hr eq_refl)).
    intros Hr'. by apply (ends_reload_busy _ t rw).
Qed.

Lemma ends_drop s t rw : ready s t (EnterDrop rw) → ends 6 s t.
Proof. intros H. run_step H idtac. apply ends_load. Qed.

Lemma ends_reload s t rw : ready s t (EnterReload rw) → ends 7 s t.
Proof.
  intros H. destruct (decide (Z.land (rw_wwwh s) (lock_busy rw) = 0)) as [Hb|Hb].
  - apply Z.eqb_eq in Hb. run_step H ltac:(cbv zeta; rewrite Hb). apply ends_drop.
  - within ends_reload_busy.
Qed.

Lemma ends_lookup_enter s t rw : ready s t (EnterLookup rw) → ends 8 s t.
Proof. intros H. run_step H ltac:(rewrite (ready_lookup s t _ (EnterReload rw) H eq_refl)). apply ends_reload. Qed.

Lemma ends_enter_cas s t rw old : ready s t (EnterCas rw old) → ends 6 s t.
Proof.
  intros H. destruct (rw_wwwh s =? old) eqn:E; destruct rw; run_step H ltac:(rewrite E); (finish || apply ends_load).
Qed.

Lemma ends_enter_wait s t rw old : ready s t (EnterWait rw old) → ends 8 s t.
Proof.
  intros H. destruct (decide (rw_wwwh s = old)) as [E|E].
  - within ends_wait.
  - apply Z.eqb_neq in E. run_step H ltac:(rewrite E). apply ends_reload.
Qed.

(** [rw_exit_wakeup] and [rw_downgrade]. *)
Lemma queue_size s q : rinv lp64 T s → (length (ts_queue q s) <= size T)%nat.
Proof.
  intros Hi. rewrite <- (size_list_to_set (C := gset Z)) by apply (i_nodup _ _ _ Hi q). apply subseteq_size.
  intros u Hu%elem_of_list_to_set%(i_queue _ _ _ Hi). by destruct (i_thread _ _ _ Hi u) as [|E]; [|congruence].
Qed.

Lemma ends_wake s t k q n owner : ready s t (Wake k q n owner) → ends (S n) s t.
Proof.
  intros (Hi & Ht & _ & Hp). destruct (wake_run n s t k q owner Hi Ht Hp) as (s' & Hs & _ & _ & _ & _ & Hpc).
  exists (S n), s'. specialize (Hpc t). rewrite decide_True in Hpc by done. rewrite Hpc, Hp.
  split_and!; [lia|done|by destruct k|constructor].
Qed.

Lemma ends_grant s t p : ready s t p → grants p → ends (2 + size T) s t.
Proof.
  intros H Hg. pose proof H as (Hi & Ht & _ & Hp). destruct (successors s (rt_pc s t)) as [q ts] eqn:E. rewrite <- Hp in Hg.
  destruct (grant_step s t q ts Hi Ht Hg E) as (s1 & k & owner & Hs & _ & Hpc & Hq & Ets & Ek).
  apply (ends_weaken (2 + length ts)).
  { apply (f_equal length) in Ets. rewrite length_take in Ets. pose proof (queue_size s q Hi). lia. }
  eapply (ready_ends _ s s1 t p (Wake k q (length ts) owner)); [done..|by rewrite Hpc, self_pc| |apply ends_wake].
  cbn. rewrite Ek, Hp. rewrite Hp in Hg. by destruct p.
Qed.

Lemma ends_exit_lookup s t rw old : ready s t (ExitLookup rw old) → ends (3 + size T) s t.
Proof.
  intros H. run_step H ltac:(rewrite (ready_lookup s t _ (ExitGrant rw old) H eq_refl)). intros H'. by eapply ends_grant.
Qed.

Lemma ends_exit_load s t rw : ready s t (ExitLoad rw) → ends (4 + size T) s t.
Proof.
  intros H.
  destruct (Z.land (uintptr lp64 (rw_wwwh s - lock_value rw t)) (Z.lor RW_LOCKED RW_HAS_WAITERS) =? RW_HAS_WAITERS) eqn:E;
    run_step H ltac:(cbv zeta; rewrite E).
  - apply ends_exit_lookup.
  - intros H'. destruct rw; run_step H' ltac:(cbn; rewrite Z.eqb_refl); finish.
Qed.

Lemma ends_exit_cas s t rw old new : ready s t (ExitCas rw old new) → ends (5 + size T) s t.
Proof.
  intros H. destruct (rw_wwwh s =? old) eqn:E; destruct rw; run_step H ltac:(rewrite E); (finish || apply ends_exit_load).
Qed.

Lemma ends_exit_check s t rw : ready s t (ExitCheck rw) → ends (5 + size T) s t.
Proof.
  intros H. pose proof H as (Hi & Ht & _ & Hp). destruct (inv_exit_check lp64 T HT s t rw Hi Ht Hp) as (s1 & Hs & _).
  assert (∃ rw', rt_pc s1 t = ExitLoad rw') as [rw' Hp1].
  { unfold exit_check in Hs. repeat case_match; simplify_eq; eexists; apply self_pc. }
  eapply ready_ends; [done|unfold rw_step; by rewrite Hp, Hs|done|done|apply ends_exit_load].
Qed.

Lemma ends_down_lookup s t : ready s t DownLookup → ends (3 + size T) s t.
Proof. intros H. run_step H ltac:(rewrite (ready_lookup s t _ DownGrant H eq_refl)). intros H'. by eapply ends_grant. Qed.

Lemma ends_down_add s t : ready s t DownAdd → ends (4 + size T) s t.
Proof.
  intros H. pose proof H as (Hi & Ht & _ & Hp).
  assert (rt_pc (down_add lp64 s t) t = DownLookup ∨ rt_pc (down_add lp64 s t) t = Outside (Some RW_READER)) as [E|E].
  { unfold down_add. cbv zeta. case_match; [left|right]; apply self_pc. }
  all: eapply ready_ends; [done|unfold rw_step; by rewrite Hp|done|done|]; (apply ends_down_lookup || finish).
Qed.

Lemma ends_down_check s t : ready s t DownCheck → ends (5 + size T) s t.
Proof.
  intros H. pose proof H as (Hi & Ht & _ & Hp). destruct (inv_down_check lp64 T HT s t Hi Ht Hp) as (s1 & Hs & _).
  eapply (ready_ends _ _ s1 _ _ DownAdd); [done|unfold rw_step; by rewrite Hp, Hs| |done|apply ends_down_add].
  unfold down_check in Hs. case_match; simplify_eq. apply self_pc.
Qed.

Lemma ends_try_load s t : ready s t TryLoad → ends 2 s t.
Proof.
  intros H. destruct (Z.land (rw_wwwh s) RW_WRITE_CLAIMED =? 0) eqn:E; run_step H ltac:(cbv zeta; rewrite E); [|finish].
  intros H'. run_step H' ltac:(cbn; rewrite Z.eqb_refl). finish.
Qed.

Lemma ends_up_load s t : ready s t UpLoad → ends 2 s t.
Proof.
  intros H. destruct (Z.land (rw_wwwh s) (Z.lnot RW_HAS_WAITERS) =? RW_READ_LOCK) eqn:E;
    run_step H ltac:(cbv zeta; rewrite E); [|finish].
  intros H'. run_step H' ltac:(cbn; rewrite Z.eqb_refl). finish.
Qed.

Lemma ready_runs s t p : ready s t p → ends (8 + size T) s t.
Proof.
  intros H. destruct p as [| |rw old| | |rw old| | | | | |rw old new|rw old|rw old|k q n owner| |old| | | | | | |old new].
  - by eapply ready_settled.
  - within ends_load.
  - within ends_enter_cas.
  - within ends_lookup_enter.
  - within ends_reload.
  - within ends_enter_wait.
  - within ends_drop.
  - within ends_block.
  - by eapply ready_settled.
  - within ends_exit_check.
  - within ends_exit_load.
  - within ends_exit_cas.
  - within ends_exit_lookup.
  - within ends_grant.
  - eapply ends_weaken, ends_wake; [|done]. destruct H as (Hi & _ & _ & Hp). destruct (i_wake _ _ _ Hi _ _ _ _ _ Hp) as (? & _).
    pose proof (queue_size s q Hi). lia.
  - within ends_try_load.
  - destruct (rw_wwwh s =? old) eqn:E; run_step H ltac:(rewrite E); [finish|].
    intros H'. within ends_try_load.
  - destruct (rw_wwwh s =? 0) eqn:E; run_step H ltac:(rewrite E); finish.
  - within ends_down_check.
  - within ends_down_add.
  - within ends_down_lookup.
  - within ends_grant.
  - within ends_up_load.
  - destruct (rw_wwwh s =? old) eqn:E; run_step H ltac:(rewrite E); [finish|].
    intros H'. within ends_up_load.
Qed.

(** A step changes the program counters of other threads only by waking
    them. *)
Definition woken (p p' : pc) : Prop := p' = p ∨ ∃ q, p = Blocked q ∧ p' = Outside (Some q).

Lemma woken_trans p p' p'' : woken p p' → woken p' p'' → woken p p''.
Proof. intros [->|(q & -> & ->)] [->|(q' & E & ->)]; unfold woken; [eauto..|naive_solver|discriminate]. Qed.

Lemma step_others s s1 t u : rinv lp64 T s → rw_step lp64 s t = Some (Go s1) → u ≠ t → woken (rt_pc s u) (rt_pc s1 u).
Proof.
  intros Hi Hs Hu.
  assert (∀ q ts, ts_queue q s = u :: ts → rt_pc s u = Blocked q) as Hq.
  { intros q ts E. apply (i_queue _ _ _ Hi). rewrite E. constructor. }
  revert Hs. unfold rw_step, lookup_step, enter_load, enter_cas, enter_reload, enter_wait, enter_block, exit_check, exit_load,
    exit_cas, exit_grant, wake_step, wake_done, try_load, try_cas, try_write, down_check, down_add, down_grant,
    up_load, up_cas, kpri_release, gain, lose.
  intros Hs. destruct (rt_pc s t) as [| | | | | | | | | | | | | |k q n owner| | | | | | | | |] eqn:Hp.
  15: {
    destruct n; [repeat case_match; simplify_eq; left; by apply fn_lookup_insert_ne|].
    destruct (ts_queue q s) as [|t' ts] eqn:Eq; [done|]. injection Hs as <-. cbn. destruct (decide (u = t')) as [->|Hne].
    - right. exists q. split; [by eapply Hq|apply self_pc].
    - left. by rewrite !fn_lookup_insert_ne. }
  all: left; repeat case_match; simplify_eq; by apply fn_lookup_insert_ne.
Qed.

Lemma solo_others n s s' t : rinv lp64 T s → t ∈ T → solo n s t = Some s' →
  rinv lp64 T s' ∧ (undisturbed s t → undisturbed s' t) ∧ ∀ u, u ≠ t → woken (rt_pc s u) (rt_pc s' u).
Proof.
  revert s. induction n as [|n IH]; intros s Hi Ht Hs.
  { injection Hs as <-. split_and!; [done..|]. by left. }
  cbn in Hs. destruct (rw_step lp64 s t) as [[s1| |]|] eqn:E; try done.
  destruct (step_ok lp64 T HT s t _ Hi Ht E) as (? & [= <-] & Hi1).
  destruct (IH s1 Hi1 Ht Hs) as (Hi2 & Hu2 & Ho). split_and!; [done| |].
  - intros Hu. by eapply Hu2, undisturbed_step.
  - intros u Hu. eapply woken_trans; [by eapply step_others|by apply Ho].
Qed.

(** C26: every call ends.  A thread that is run while nobody else has the
    turnstile lock has ended its call after at most 8 steps and one for each
    thread that it can wake, without a panic; the call ends in one of the
    ways it may end (a thread that enters has the lock or sleeps, one that
    exits has nothing, a downgrade leaves the read lock); and the turnstile
    lock is free again.  That somebody holds the turnstile lock is such a
    state for that thread. *)
Theorem rw_calls_end s t :
  reachable lp64 T s → t ∈ T → (∀ u, tc_lock s = Some u → u = t) →
  ∃ n s', (n <= 8 + size T)%nat ∧ solo n s t = Some s' ∧ settled (rt_pc s' t) = true ∧
    rt_pc s' t ∈ outcomes (rt_pc s t) ∧ tc_lock s' = None.
Proof.
  intros Hr Ht Hu. pose proof (rw_reachable_inv lp64 T HT s Hr) as Hi.
  assert (undisturbed s t) as Hun by (unfold undisturbed; destruct (tc_lock s) as [u|]; [right; f_equal; by apply Hu|by left]).
  destruct (ready_runs s t (rt_pc s t)) as (n & s' & Hn & Hs & Hset & Hout); [by split_and!|].
  destruct (solo_others n s s' t Hi Ht Hs) as (Hi' & Hu' & _). exists n, s'. split_and!; try done.
  destruct (Hu' Hun) as [|E]; [done|]. apply (i_lock _ _ _ Hi') in E. by destruct (rt_pc s' t).
Qed.

(** ** No lost wakeup *)

(** Threads other than [t] go on with the calls they are in, and exit. *)
Inductive drain (t : Z) : rwstate → rwstate → Prop :=
  | drain_step s u s' : u ∈ T → u ≠ t → rw_step lp64 s u = Some (Go s') → drain t s s'
  | drain_exit s u s' : u ∈ T → u ≠ t → rw_call s u CExit = Some s' → drain t s s'.

Definition weight (p : pc) : nat :=
  match p with Outside None => 0 | Outside (Some _) => 1 | Blocked _ => 2 | _ => 3 end.
Definition busyness (s : rwstate) : nat := sum_list_with (λ t, weight (rt_pc s t)) (elements T).

Lemma woken_weight p p' : woken p p' → (weight p' <= weight p)%nat.
Proof. intros [->|(q & -> & ->)]; cbn; lia. Qed.

Lemma busyness_less s s' u : u ∈ T → (weight (rt_pc s' u) < weight (rt_pc s u))%nat →
  (∀ v, v ≠ u → woken (rt_pc s v) (rt_pc s' v)) → (busyness s' < busyness s)%nat.
Proof.
  intros Hu Hlt Ho. eapply sum_list_with_lt; [by apply elem_of_elements|done|].
  intros v. destruct (decide (v = u)) as [->|Hv]; [lia|]. by apply woken_weight, Ho.
Qed.

Lemma pc_in s u : rinv lp64 T s → rt_pc s u ≠ Outside None → u ∈ T.
Proof. intros Hi Hu. by destruct (i_thread _ _ _ Hi u). Qed.

(** While a thread sleeps, one that can run holds the lock or the turnstile
    lock. *)
Lemma somebody s t q : rinv lp64 T s → rt_pc s t = Blocked q →
  ∃ u, u ∈ T ∧ u ≠ t ∧ undisturbed s u ∧ (settled (rt_pc s u) = false ∨ ∃ rw, rt_pc s u = Outside (Some rw)).
Proof.
  intros Hi Hp. destruct (tc_lock s) as [u|] eqn:Etc.
  { pose proof (proj1 (i_lock _ _ _ Hi u) Etc) as Hl. exists u. split_and!; [|congruence || (intros ->; by rewrite Hp in Hl)|by right|].
    - apply (pc_in s u Hi). intros E. by rewrite E in Hl.
    - left. by destruct (rt_pc s u). }
  destruct (neutral_bits s) as (Ew & Er & Eg); [unfold crit; by rewrite Etc|].
  assert (bit_w s || bit_r s = true) as Hb.
  { apply (i_queue _ _ _ Hi) in Hp. rewrite Ew, Er. destruct q; cbn in Hp.
    - destruct (rq s); [by apply elem_of_nil in Hp|]. apply orb_true_r.
    - by destruct (wq s); [apply elem_of_nil in Hp|]. }
  assert (∃ u rw, has (granted s) u (rt_pc s u) = Some rw) as (u & rw & Hh).
  { destruct (g_writer s) as [u|] eqn:Eg'.
    - exists u, RW_WRITER. by apply (i_holds _ _ _ Hi u).
    - destruct (set_choose_or_empty (g_readers s)) as [[u Hu]|HR].
      + exists u, RW_READER. by apply (i_holds _ _ _ Hi u).
      + apply leibniz_equiv in HR. rewrite (i_free _ _ _ Hi Eg' HR) in Hb. done. }
  unfold has in Hh. destruct (rt_pc s u) as [h| | | | | | | |q'| | | | | | | | | | | | | | |] eqn:Hpu.
  9: { rewrite decide_False in Hh; [done|]. rewrite Eg. apply not_elem_of_nil. }
  all: cbn in Hh; exists u; split_and!; [apply (pc_in s u Hi); congruence|congruence|by left|].
  1: cbn in Hh; right; exists rw; congruence.
  all: by left; rewrite Hpu.
Qed.

Lemma solo_drain n s s' t u : u ∈ T → u ≠ t → solo n s u = Some s' → rtc (drain t) s s'.
Proof.
  intros Hu Hne. revert s. induction n as [|n IH]; intros s Hs; [injection Hs as <-; constructor|].
  cbn in Hs. destruct (rw_step lp64 s u) as [[s1| |]|] eqn:E; try done.
  eapply rtc_l; [by eapply drain_step|by apply IH].
Qed.

(** Run a thread to the end of its call. *)
Lemma drain_run s t u p : ready s u p → u ≠ t →
  ∃ s', rtc (drain t) s s' ∧ rinv lp64 T s' ∧ (settled (rt_pc s' u) = true) ∧ rt_pc s' u ∈ outcomes p ∧
    ∀ v, v ≠ u → woken (rt_pc s v) (rt_pc s' v).
Proof.
  intros H Hne. pose proof H as (Hi & Hu & _ & Hp). destruct (ready_runs s u p H) as (n & s' & _ & Hs & Hset & Ho).
  destruct (solo_others n s s' u Hi Hu Hs) as (Hi' & _ & Hw). rewrite Hp in Ho. exists s'. split_and!; try done.
  by eapply solo_drain.
Qed.

Lemma drain_round s t q : rinv lp64 T s → rt_pc s t = Blocked q →
  ∃ s', rtc (drain t) s s' ∧ rinv lp64 T s' ∧ woken (rt_pc s t) (rt_pc s' t) ∧ (busyness s' < busyness s)%nat.
Proof.
  intros Hi Hp. destruct (somebody s t q Hi Hp) as (u & Hu & Hne & Hun & [Hset|[rw Hrw]]).
  - destruct (drain_run s t u (rt_pc s u)) as (s' & Hd & Hi' & Hset' & _ & Hw); [by split_and!|done|].
    exists s'. split_and!; [done..|by apply Hw|]. eapply busyness_less; [done| |done].
    destruct (rt_pc s u), (rt_pc s' u) as [[]| | | | | | | | | | | | | | | | | | | | | | |]; try done; cbn; lia.
  - assert (rw_call s u CExit = Some (set_pc u (ExitCheck rw) s)) as Hc by (unfold rw_call; by rewrite Hrw).
    set (s1 := set_pc u (ExitCheck rw) s) in *.
    assert (∀ v, v ≠ u → rt_pc s1 v = rt_pc s v) as Hsame by (intros v Hv; by apply fn_lookup_insert_ne).
    destruct (drain_run s1 t u (ExitCheck rw)) as (s' & Hd & Hi' & _ & Ho & Hw); [|done|].
    { split_and!; [by apply (call_ok lp64 T s u CExit)|done|done|apply self_pc]. }
    assert (∀ v, v ≠ u → woken (rt_pc s v) (rt_pc s' v)) as Hw' by (intros v Hv; rewrite <- Hsame by done; by apply Hw).
    exists s'. split_and!; [eapply rtc_l; [by eapply drain_exit|done]|done|by apply Hw'|].
    eapply busyness_less; [done| |done]. apply list_elem_of_singleton in Ho. rewrite Ho, Hrw. cbn. lia.
Qed.

(** C8: no wakeup is lost.  Whenever a thread sleeps on the lock, the other
    threads need only end the calls they are in and exit a lock they hold for
    it to be woken with the lock it asked for: the bits of the word never
    hide a sleeping thread from the thread that must wake it, and no state is
    a deadlock. *)
Theorem rw_no_lost_wakeup s t q :
  reachable lp64 T s → rt_pc s t = Blocked q →
  ∃ s', rtc (drain t) s s' ∧ reachable lp64 T s' ∧ possesses s' t q.
Proof.
  intros Hr Hp. pose proof (rw_reachable_inv lp64 T HT s Hr) as Hi.
  enough (∃ s', rtc (drain t) s s' ∧ rt_pc s' t = Outside (Some q)) as (s' & Hd & Hp').
  { exists s'. split_and!; try done. destruct Hr as (pri & H0 & Hr). exists pri. split; [done|]. clear Hp' Hp Hi.
    induction Hd as [|x y z Hxy _ IH]; [done|]. apply IH. eapply rtc_r; [done|].
    destruct Hxy as [x u y|x u y]; [by eapply rstep_thread|by eapply rstep_call]. }
  clear Hr. revert Hi Hp. induction s as [s IH] using (well_founded_induction (well_founded_ltof _ busyness)). intros Hi Hp.
  destruct (drain_round s t q Hi Hp) as (s1 & Hd & Hi1 & Hw & Hl). rewrite Hp in Hw.
  destruct Hw as [E|(q' & [= <-] & E)]; [|by exists s1].
  destruct (IH s1 Hl Hi1 E) as (s2 & Hd2 & E2). exists s2. split; [by etrans|done].
Qed.

(** ** Observers *)

(** Between calls. *)
Definition quiet (s : rwstate) : Prop := ∀ t, settled (rt_pc s t) = true.

Lemma quiet_lock s : rinv lp64 T s → quiet s → tc_lock s = None.
Proof.
  intros Hi Hq. destruct (tc_lock s) as [t|] eqn:E; [|done]. apply (i_lock _ _ _ Hi) in E. specialize (Hq t). by destruct (rt_pc s t).
Qed.

Lemma quiet_holds s t : rinv lp64 T s → quiet s →
  (t ∈ g_readers s ↔ possesses s t RW_READER) ∧ (g_writer s = Some t ↔ possesses s t RW_WRITER).
Proof.
  intros Hi Hq. unfold possesses. destruct (i_holds _ _ _ Hi t) as [-> ->].
  destruct (neutral_bits s) as (_ & _ & Eg); [unfold crit; by rewrite quiet_lock|]. specialize (Hq t). unfold has.
  destruct (rt_pc s t) as [h| | | | | | | |q| | | | | | | | | | | | | | |]; try done.
  - cbn. split; split; congruence.
  - rewrite decide_False by (rewrite Eg; apply not_elem_of_nil). done.
Qed.

Lemma quiet_writer s : rinv lp64 T s → quiet s → is_Some (g_writer s) ↔ ∃ t, possesses s t RW_WRITER.
Proof. intros Hi Hq. split; intros [t Ht]; exists t; by apply (quiet_holds s t Hi Hq). Qed.

Lemma quiet_readers s : rinv lp64 T s → quiet s → g_readers s ≠ ∅ ↔ ∃ t, possesses s t RW_READER.
Proof.
  intros Hi Hq. split.
  - intros [t Ht]%set_choose_L. exists t. by apply (quiet_holds s t Hi Hq).
  - intros [t Ht%(quiet_holds s t Hi Hq)] E. rewrite E in Ht. by apply elem_of_empty in Ht.
Qed.

Lemma wlocked_spec s : rinv lp64 T s → rw_write_held s = true ↔ is_Some (g_writer s).
Proof.
  intros Hi. unfold rw_write_held. destruct (g_writer s) as [w|] eqn:Ew.
  - rewrite (word_writer lp64 T s w Hi Ew), land_wlocked. done.
  - rewrite (word_reader lp64 T s Hi Ew), land_wlocked. split; [done|by intros []].
Qed.

Lemma locked_spec s : rinv lp64 T s → rw_lock_held s = true ↔ is_Some (g_writer s) ∨ g_readers s ≠ ∅.
Proof.
  intros Hi. unfold rw_lock_held. rewrite negb_true_iff, Z.eqb_neq. change RW_LOCKED with (lock_busy RW_WRITER).
  rewrite (busy_writer lp64 T HT s Hi). destruct (g_writer s); [naive_solver|]. rewrite <- not_eq_None_Some. tauto.
Qed.

Lemma owner_spec s t : rinv lp64 T s → t ∈ T → rw_locked s t RW_WRITER = true ↔ g_writer s = Some t.
Proof.
  intros Hi Ht. unfold rw_locked. rewrite Z.eqb_eq. change RW_OWNER with RW_LOCKED. destruct (g_writer s) as [w|] eqn:Ew.
  - rewrite (word_writer lp64 T s w Hi Ew), land_locked.
    destruct (th_word lp64 T HT w false false (writer_in lp64 T s w Hi Ew)) as (_ & _ & _ & _ & ->). split; congruence.
  - rewrite (word_reader lp64 T s Hi Ew), land_locked. pose proof (readers_size lp64 T s Hi). pose proof (th_addr _ _ HT t Ht).
    split; [lia|done].
Qed.

(** Between calls the observers say who has the lock: [rw_owner] is the
    writer, [RW_READ_HELD], [RW_WRITE_HELD] and [RW_LOCK_HELD] whether there
    is a reader, a writer or either, [rw_locked] whether the caller is the
    writer, [RW_ISWRITER] whether there is a writer or one sleeps; and
    [rw_destroy] panics exactly when somebody has the lock, and otherwise
    makes every later [rw_enter] panic. *)
Theorem rw_observers s :
  reachable lp64 T s → quiet s →
  (∀ t, t ∈ T → rw_owner s = t ↔ possesses s t RW_WRITER) ∧
  (∀ t, t ∈ T → rw_locked s t RW_WRITER = true ↔ possesses s t RW_WRITER) ∧
  (rw_write_held s = true ↔ ∃ t, possesses s t RW_WRITER) ∧
  (rw_read_held s = true ↔ ∃ t, possesses s t RW_READER) ∧
  (rw_lock_held s = true ↔ ∃ t rw, possesses s t rw) ∧
  (rw_iswriter s = true ↔ ∃ t, possesses s t RW_WRITER ∨ rt_pc s t = Blocked RW_WRITER) ∧
  ((∃ t rw, possesses s t rw) → rw_destroy s = Panic "rw_destroy: lock still active") ∧
  ((¬ ∃ t rw, possesses s t rw) →
     ∃ s', rw_destroy s = Go s' ∧ ∀ t rw, enter_load s' t rw = Panic "rw_enter: bad rwlock").
Proof.
  intros Hr Hq. pose proof (rw_reachable_inv lp64 T HT s Hr) as Hi.
  pose proof (quiet_writer s Hi Hq) as Hw. pose proof (quiet_readers s Hi Hq) as HR.
  assert ((∃ t rw, possesses s t rw) ↔ is_Some (g_writer s) ∨ g_readers s ≠ ∅) as Hany.
  { rewrite Hw, HR. split; [intros (t & [] & Ht); eauto|intros [[t Ht]|[t Ht]]; eauto]. }
  split_and!.
  - intros t Ht. rewrite <- (proj2 (quiet_holds s t Hi Hq)), <- (owner_spec s t Hi Ht). unfold rw_owner, rw_locked.
    fold (rw_write_held s). destruct (rw_write_held s) eqn:E; [by rewrite Z.eqb_eq|].
    pose proof (th_addr _ _ HT t Ht). fold (rw_locked s t RW_WRITER). rewrite (owner_spec s t Hi Ht). split; [lia|].
    intros Et. rewrite (proj2 (wlocked_spec s Hi)) in E by (by exists t). done.
  - intros t Ht. by rewrite <- (proj2 (quiet_holds s t Hi Hq)), <- (owner_spec s t Hi Ht).
  - by rewrite <- Hw, wlocked_spec.
  - unfold rw_read_held. fold (rw_lock_held s). rewrite andb_true_iff, locked_spec, <- HR by done.
    pose proof (wlocked_spec s Hi) as Hl. unfold rw_write_held in Hl. destruct (_ =? 0) eqn:E; cbn in Hl.
    + assert (¬ is_Some (g_writer s)) by (rewrite <- Hl; done). tauto.
    + assert (is_Some (g_writer s)) as Hs by (by apply Hl). split; [by intros [_ ?]|]. by rewrite (i_excl _ _ _ Hi Hs).
  - by rewrite Hany, locked_spec.
  - unfold rw_iswriter. rewrite negb_true_iff, Z.eqb_neq. change RW_WRITE_CLAIMED with (lock_busy RW_READER).
    rewrite (busy_reader lp64 T s Hi). destruct (neutral_bits s) as (-> & _ & _); [unfold crit; by rewrite quiet_lock|].
    split.
    + intros Hb. destruct (g_writer s) as [w|] eqn:Ew; [exists w; left; by apply (quiet_holds s w Hi Hq)|].
      destruct (wq s) as [|w ws] eqn:Eq; [by destruct Hb|]. exists w. right. apply (i_queue _ _ _ Hi RW_WRITER). cbn. rewrite Eq. constructor.
    + intros [t [Ht%(quiet_holds s t Hi Hq)|Ht]] [E1 E2]; [congruence|]. apply (i_queue _ _ _ Hi RW_WRITER) in Ht. cbn in Ht.
      destruct (wq s); [by apply elem_of_nil in Ht|done].
  - rewrite Hany. intros Hh. unfold rw_destroy. destruct (rw_wwwh s =? 0) eqn:E; [|done].
    apply Z.eqb_eq, (word_zero lp64 T HT s Hi) in E as [E1 E2]. destruct Hh as [Hs|]; [|done]. rewrite E1 in Hs. by destruct Hs.
  - rewrite Hany. intros Hh. unfold rw_destroy. rewrite (word_free lp64 T s Hi); [by eexists; split; [done|]; intros t []| |].
    + destruct (g_writer s); [|done]. destruct Hh. by left.
    + apply dec_stable. tauto.
Qed.

End props.

(** ** Executions *)

(** An execution given by its steps, calls and changes of priority. *)
Inductive rw_event := EvStep (t : Z) | EvCall (t : Z) (c : rwcall) | EvPri (t p : Z).

Section exec_events.
Context (lp64 : bool) (T : gset Z).

Definition do_event (s : rwstate) (e : rw_event) : option rwstate :=
  match e with
  | EvStep t => if decide (t ∈ T) then match rw_step lp64 s t with Some (Go s') => Some s' | _ => None end else None
  | EvCall t c => if decide (t ∈ T) then rw_call s t c else None
  | EvPri t p => if decide (0 <= p) then change_pri s t p else None
  end.

Fixpoint exec_events (s : rwstate) (es : list rw_event) : rwstate :=
  match es with
  | [] => s
  | e :: es => match do_event s e with Some s' => exec_events s' es | None => s end
  end.

Lemma events_rtc s es : rtc (rstep lp64 T) s (exec_events s es).
Proof.
  revert s. induction es as [|e es IH]; intros s; [constructor|]. cbn. destruct (do_event s e) as [s'|] eqn:E; [|constructor].
  eapply rtc_l; [|apply IH]. destruct e; cbn in E; case_decide; try done.
  - repeat case_match; simplify_eq. by eapply rstep_thread.
  - by eapply rstep_call.
  - by eapply rstep_pri.
Qed.

Lemma events_reachable pri es : (∀ t, 0 <= pri t) → reachable lp64 T (exec_events (rw_init pri) es).
Proof. intros Hp. exists pri. split; [done|apply events_rtc]. Qed.
End exec_events.

(** Three threads: a writer, behind which two readers sleep. *)
Definition three : gset Z := {[4096; 8192; 12288]}.
Definition steps (t : Z) (n : nat) : list rw_event := replicate n (EvStep t).
Definition w_enters : list rw_event := EvCall 4096 (CEnter RW_WRITER) :: steps 4096 2.
Definition r_sleep : list rw_event :=
  EvCall 8192 (CEnter RW_READER) :: steps 8192 5 ++ EvCall 12288 (CEnter RW_READER) :: steps 12288 4.
Definition w_exits : list rw_event := EvCall 4096 CExit :: steps 4096 3.
Definition demo (es : list rw_event) : rwstate := exec_events true three (rw_init (λ _, 60)) es.

Lemma three_cases t : t ∈ three → t = 4096 ∨ t = 8192 ∨ t = 12288.
Proof. unfold three. set_solver. Qed.

Lemma three_ok : threads_ok true three.
Proof.
  assert (size three = 3%nat) as E by (by vm_compute). split; rewrite E; [|done].
  intros t [->|[->| ->]]%three_cases; by vm_compute.
Qed.

Lemma demo_reachable es : reachable true three (demo es).
Proof. by apply events_reachable. Qed.

Lemma rw_exclusion_witness :
  possesses (demo w_enters) 4096 RW_WRITER ∧ rw_owner (demo w_enters) = 4096.
Proof.
  assert (possesses (demo w_enters) 4096 RW_WRITER) as Hp by (by vm_compute). split; [exact Hp|].
  exact (proj1 (proj2 (rw_exclusion true three three_ok (demo w_enters) (demo_reachable _))) 4096 Hp).
Defined.

Lemma rw_handoff_witness :
  let s := demo (w_enters ++ r_sleep ++ w_exits) in
  rq s = [8192; 12288] ∧ ∃ s', solo true 4 s 4096 = Some s' ∧ rt_pc s' 4096 = Outside None.
Proof.
  intros s. split; [by vm_compute|].
  destruct (rw_handoff true three three_ok s 4096 RW_READER [8192; 12288]) as ((s' & Hs & _ & Hp & _) & _).
  - apply demo_reachable.
  - by vm_compute.
  - by vm_compute.
  - by vm_compute.
  - exists s'. split; [exact Hs|]. rewrite Hp. by vm_compute.
Defined.

Lemma rw_calls_end_witness :
  let s := demo (w_enters ++ [EvCall 8192 (CEnter RW_READER)]) in
  ∃ n s', (n <= 11)%nat ∧ solo true n s 8192 = Some s' ∧ settled (rt_pc s' 8192) = true.
Proof.
  intros s. destruct (rw_calls_end true three three_ok s 8192) as (n & s' & Hn & Hs & Hset & _).
  - apply demo_reachable.
  - by vm_compute.
  - by intros u.
  - exists n, s'. split; [exact Hn|]. by split.
Defined.

Lemma rw_no_lost_wakeup_witness :
  let s := demo (w_enters ++ r_sleep) in
  rt_pc s 12288 = Blocked RW_READER ∧ ∃ s', rtc (drain true three 12288) s s' ∧ possesses s' 12288 RW_READER.
Proof.
  intros s. assert (rt_pc s 12288 = Blocked RW_READER) as Hp by (by vm_compute). split; [exact Hp|].
  destruct (rw_no_lost_wakeup true three three_ok s 12288 RW_READER (demo_reachable _) Hp) as (s' & Hd & _ & Hs).
  exists s'. by split.
Defined.

Lemma demo_quiet es : forallb (λ t, settled (rt_pc (demo es) t)) [4096; 8192; 12288] = true → quiet (demo es).
Proof.
  rewrite forallb_forall. intros Hall t. pose proof (rw_reachable_inv true three three_ok _ (demo_reachable es)) as Hi.
  destruct (i_thread _ _ _ Hi t) as [Ht%three_cases|E]; [|by rewrite E]. apply Hall. cbn. naive_solver.
Qed.

Lemma rw_observers_witness :
  let s := demo (w_enters ++ r_sleep) in
  quiet s ∧ rw_destroy s = Panic "rw_destroy: lock still active".
Proof.
  intros s. assert (quiet s) as Hq by (by apply demo_quiet). split; [exact Hq|].
  destruct (rw_observers true three three_ok s (demo_reachable _) Hq) as (_ & _ & _ & _ & _ & _ & Hd & _).
  apply Hd. exists 4096, RW_WRITER. by vm_compute.
Defined.
