(* ===== verification/Semaphore.v ===== *)
(** * Semaphores (uts/common/os/semaphore.c)

    A semaphore is a count and a queue of threads, linked by [t_link] in
    order of priority.  [sema_v] adds to the count and makes the first thread
    runnable, which then tries again; between the two, others may take what
    was added.  The operations here are on the pointers of the threads
    (SleepQ has the memory); what a thread does under the lock of the
    semaphore is one step, and the steps interleave ([s_exec]). *)

From Stdlib Require Import ZArith Lia Sorted.
From stdpp Require Import base numbers option functions gmap sorting list.
From S2P Require Import Prelude SleepQ.

#[local] Open Scope Z_scope.

(** [s->s_slpq] *)
Definition slpq (s : Z) : sqaddr := (s, 0).

(** ** The queue *)

(** The loop of [SEMA_BLOCK] and of [sema_queue]. *)
Definition sema_queue_step (m : smem) (cpri : Z) (tpp : tptr) : option (loop tptr (tptr * Z)) :=
  let! tp := ldp m tpp in
  if tp =? 0 then Some (Return (tpp, tp))
  else
    let! k := ld m tp in
    if DISP_PRIO k <? cpri then Some (Return (tpp, tp)) else Some (Next (Tlink tp)).

Definition sema_queue (m : smem) (s t : Z) : option smem :=
  let! k := ld m t in
  let! (tpp, tp) := run (sema_queue_step m (DISP_PRIO k)) (sq_fuel m) (Sfirst (slpq s)) in
  let! m := stp m tpp t in
  st m t (set_t_link tp).

(** The search of [sema_dequeue] and [sema_unsleep]; [None] is the end of the
    queue. *)
Definition sema_find_step (m : smem) (t : Z) (tpp : tptr) : option (loop tptr (option tptr)) :=
  let! tp := ldp m tpp in
  if tp =? 0 then Some (Return None) else if tp =? t then Some (Return (Some tpp)) else Some (Next (Tlink tp)).

Definition sema_dequeue (m : smem) (s t : Z) : option smem :=
  let! r := run (sema_find_step m t) (sq_fuel m) (Sfirst (slpq s)) in
  match r with
  | None => Some m
  | Some tpp =>
      let! k := ld m t in
      let! m := stp m tpp (t_link k) in
      st m t (set_t_link 0)
  end.

(** [CL_SETRUN] makes the thread runnable. *)
Definition sema_unsleep (m : smem) (t : Z) : option smem :=
  let! k := ld m t in
  let! r := run (sema_find_step m t) (sq_fuel m) (Sfirst (slpq (t_wchan k))) in
  match r with
  | None => Some m
  | Some tpp =>
      let! m := stp m tpp (t_link k) in
      st m t (λ k, set_t_state TS_RUN (set_t_chan 0 0 0 (set_t_link 0 k)))
  end.

Inductive sres := SGo (m : smem) | SPanic.

Definition sema_change_pri (m : smem) (t pri : Z) (inherited : bool) : option sres :=
  let! k := ld m t in
  if t_wchan k =? 0 then Some SPanic
  else
    let! m := sema_dequeue m (t_wchan k) t in
    let! m := st m t (if inherited then set_t_epri pri else set_t_pri pri) in
    let! m := sema_queue m (t_wchan k) t in
    Some (SGo m).

(** [SEMA_BLOCK]: [pri] is the priority the scheduling class gives the
    sleeping thread ([CL_SLEEP]), [ops] is [&sema_sobj_ops]. *)
Definition SEMA_BLOCK (m : smem) (s t pri ops : Z) : option smem :=
  let! m := st m t (λ k, set_t_chan s (t_wchan0 k) ops (set_t_state TS_SLEEP (set_t_pri pri k))) in
  sema_queue m s t.

(** What [sema_v] and an interrupted [sema_p_sig] do with the first thread of
    the queue; its address is returned, or 0. *)
Definition sema_wake (m : smem) (s : Z) : option (smem * Z) :=
  let! tp := ldp m (Sfirst (slpq s)) in
  if tp =? 0 then Some (m, 0)
  else
    let! k := ld m tp in
    let sq := t_link k in
    let! m := st m tp (λ k, set_t_state TS_RUN (set_t_chan 0 (t_wchan0 k) 0 (set_t_link 0 k))) in
    let! m := stp m (Sfirst (slpq s)) sq in
    Some (m, tp).

(** ** The semaphore and the threads *)

(** [SEnter sig] is about to take the lock in [sema_p] or, if [sig], in
    [sema_p_sig]; [SAwake] has come back from [swtch] in [sema_p_sig], and
    [SIntr] has found a signal there. *)
Inductive spc := SOut | SEnter (sig : bool) | SAsleep (sig : bool) | SAwake | SIntr.

(** [s_given] and [s_taken] count what was put into the semaphore and taken
    out; the code does not have them. *)
Record sstate := Sst {
  s_mem : smem;
  s_count : Z;
  s_pc : Z → spc;
  s_given : Z;
  s_taken : Z
}.

Definition s_set_pc (t : Z) (p : spc) (x : sstate) : sstate :=
  Sst (s_mem x) (s_count x) (<[t := p]> (s_pc x)) (s_given x) (s_taken x).
Definition s_set_mem (m : smem) (x : sstate) : sstate := Sst m (s_count x) (s_pc x) (s_given x) (s_taken x).
Definition s_take (x : sstate) : sstate :=
  Sst (s_mem x) (s32 (s_count x - 1)) (s_pc x) (s_given x) (s_taken x + 1).
Definition s_give (x : sstate) : sstate :=
  Sst (s_mem x) (s32 (s_count x + 1)) (s_pc x) (s_given x + 1) (s_taken x).

(** Where a thread goes on when it is woken. *)
Definition woken_pc (p : spc) : spc := match p with SAsleep false => SEnter false | _ => SAwake end.

Section sema.
Context (s ops : Z).

(** The loops of [sema_p] and [sema_p_sig], from taking the lock to [swtch]
    or the return. *)
Definition sema_p (x : sstate) (t pri : Z) (sig : bool) : option sstate :=
  if s_count x =? 0 then
    let! m := SEMA_BLOCK (s_mem x) s t pri ops in
    Some (s_set_pc t (SAsleep sig) (s_set_mem m x))
  else Some (s_set_pc t SOut (s_take x)).

Definition wake_first (x : sstate) : option sstate :=
  let! (m, tp) := sema_wake (s_mem x) s in
  Some (if tp =? 0 then s_set_mem m x else s_set_pc tp (woken_pc (s_pc x tp)) (s_set_mem m x)).

(** The rest of an interrupted [sema_p_sig]. *)
Definition sema_p_intr (x : sstate) (t : Z) : option sstate :=
  let x := s_set_pc t SOut x in
  if 0 <? s_count x then wake_first x else Some x.

Definition sema_v (x : sstate) : option sstate := wake_first (s_give x).

Definition sema_tryp (x : sstate) : sstate * bool :=
  if 0 <? s_count x then (s_take x, true) else (x, false).

Definition sema_held (x : sstate) : bool := s_count x <=? 0.

(** What can happen: a call of [sema_p] or [sema_p_sig], its section under
    the lock, its return from [swtch] with or without a signal, and the end
    of an interrupted call; [sema_v] and [sema_tryp]; a signal that wakes a
    thread, and a change of its priority. *)
Inductive sevent :=
  | ECall (t : Z) (sig : bool) | EP (t pri : Z) | ESwtch (t : Z) (intr : bool) | EIntr (t : Z)
  | EV | ETryp | EUnsleep (t : Z) | EPri (t pri : Z) (inherited : bool).

Definition s_exec (x : sstate) (e : sevent) : option sstate :=
  match e with
  | ECall t sig => Some (s_set_pc t (SEnter sig) x)
  | EP t pri => if s_pc x t is SEnter sig then sema_p x t pri sig else Some x
  | ESwtch t intr => Some (s_set_pc t (if intr then SIntr else SEnter true) x)
  | EIntr t => sema_p_intr x t
  | EV => sema_v x
  | ETryp => Some (fst (sema_tryp x))
  | EUnsleep t => let! m := sema_unsleep (s_mem x) t in Some (s_set_pc t SAwake (s_set_mem m x))
  | EPri t pri inh =>
      if s_pc x t is SAsleep _ then
        let! r := sema_change_pri (s_mem x) t pri inh in
        if r is SGo m then Some (s_set_mem m x) else None
      else
        let! m := st (s_mem x) t (if inh then set_t_epri pri else set_t_pri pri) in
        Some (s_set_mem m x)
  end.

(** [sema_init], with the threads of [m] outside. *)
Definition sema_init (m : smem) (count : Z) : sstate :=
  Sst (Smem (threads m) (<[slpq s := 0]> (sqs m))) count (λ _, SOut) count 0.

Context (T : gset Z).

Definition enabled (x : sstate) (e : sevent) : Prop :=
  match e with
  | ECall t _ => t ∈ T ∧ s_pc x t = SOut
  | EP t pri => t ∈ T ∧ s_pc x t ∈ [SEnter true; SEnter false]
  | ESwtch t _ => t ∈ T ∧ s_pc x t = SAwake
  | EIntr t => t ∈ T ∧ s_pc x t = SIntr
  | EV => s_count x < 2 ^ 31 - 1
  | ETryp => True
  | EUnsleep t => t ∈ T ∧ s_pc x t = SAsleep true
  | EPri t _ _ => t ∈ T
  end.

Inductive sema_reachable (m : smem) (count : Z) : sstate → Prop :=
  | sreach_init : sema_reachable m count (sema_init m count)
  | sreach_step x e x' : sema_reachable m count x → enabled x e → s_exec x e = Some x' → sema_reachable m count x'.
End sema.

(** ** What the pointers represent *)

Record srep (m : smem) (s : Z) (l : list Z) : Prop := {
  sp_first : sqs m !! slpq s = Some (hd 0 l);
  sp_link : lseg (fld t_link m) l 0;
  sp_nodup : NoDup l;
  sp_nonzero : 0 ∉ l;
  sp_sorted : sq_sorted (prio m) l
}.

(** A change of links only. *)
Definition same_base (m m' : smem) : Prop := ∀ y, fld base m' y = fld base m y.

Lemma lseg_ld (m : smem) l n x : lseg (fld t_link m) l n → x ∈ l → is_Some (ld m x).
Proof.
  induction l as [|y l IH]; [by intros _ ?%elem_of_nil|]. intros [Hy Hl] [->|Hx]%elem_of_cons; [by apply fld_ld in Hy|by apply IH].
Qed.

Lemma base_ld (m m' : smem) y : fld base m' y = fld base m y → is_Some (ld m' y) ↔ is_Some (ld m y).
Proof. unfold fld. intros H. destruct (ld m' y), (ld m y); cbn in H; split; intros [? ?]; (done || by eexists). Qed.

Lemma same_base_prio m m' y : fld base m' y = fld base m y → prio m' y = prio m y.
Proof. intros H. unfold prio. by rewrite (base_prio m m' y H). Qed.

Lemma base_wchan (m m' : smem) y : fld base m' y = fld base m y → fld t_wchan m' y = fld t_wchan m y.
Proof.
  unfold fld. destruct (ld m' y) as [k'|], (ld m y) as [k|]; cbn; intros H; [|done..].
  destruct k, k'. by injection H as -> -> -> -> -> -> ->.
Qed.

Section lists.
Context (m : smem) (s : Z) (l : list Z) (Hr : srep m s l).

Lemma sp_ldp l1 l2 : l = l1 ++ l2 → ldp m (pp_at (slpq s) l1) = Some (hd 0 l2).
Proof. intros ->. apply ldp_at; apply Hr. Qed.

Lemma sp_ld t : t ∈ l → is_Some (ld m t).
Proof. apply lseg_ld with (n := 0), Hr. Qed.

Lemma sp_fuel : (length l < sq_fuel m)%nat.
Proof.
  assert (length l <= size (threads m))%nat; [|unfold sq_fuel; lia].
  rewrite <- size_dom, <- (size_list_to_set (C := gset Z) l) by apply Hr.
  apply subseteq_size. intros x Hx%elem_of_list_to_set. apply elem_of_dom. by apply sp_ld.
Qed.

Lemma hd_zero l1 l2 : l = l1 ++ l2 → hd 0 l2 = 0 → l2 = [].
Proof.
  intros -> E. destruct l2 as [|x l2]; [done|]. cbn in E. subst x. destruct (sp_nonzero _ _ _ Hr). set_solver.
Qed.

Lemma sema_queue_search cpri :
  ∃ l1 l2, l = l1 ++ l2 ∧ (∀ x, x ∈ l1 → cpri <= prio m x) ∧ (∀ x, x ∈ l2 → prio m x < cpri) ∧
    run (sema_queue_step m cpri) (sq_fuel m) (Sfirst (slpq s)) = Some (pp_at (slpq s) l1, hd 0 l2).
Proof.
  destruct (run_total_idx (sema_queue_step m cpri)
    (λ n tpp, ∃ l1 l2, l = l1 ++ l2 ∧ tpp = pp_at (slpq s) l1 ∧ n = length l2 ∧ ∀ x, x ∈ l1 → cpri <= prio m x)
    (λ r, ∃ l1 l2, l = l1 ++ l2 ∧ (∀ x, x ∈ l1 → cpri <= prio m x) ∧ (∀ x, x ∈ l2 → prio m x < cpri) ∧
       r = (pp_at (slpq s) l1, hd 0 l2))) with (fuel := sq_fuel m) (n := length l) (s := Sfirst (slpq s))
    as (r & Hrun & l1 & l2 & El & H1 & H2 & ->).
  - intros n tpp (l1 & l2 & El & -> & -> & H1). unfold sema_queue_step. rewrite (sp_ldp l1 l2 El).
    destruct l2 as [|x l2]; cbn [hd]; [eexists; split; [done|]; exists l1, []; split_and!; [done..|by intros ? ?%elem_of_nil|done]|].
    destruct (Z.eqb_spec x 0) as [->|Hx]; [by discriminate (hd_zero l1 (0 :: l2) El eq_refl)|].
    destruct (sp_ld x ltac:(set_solver)) as [k Hk]. rewrite Hk.
    assert (DISP_PRIO k = prio m x) as -> by (unfold prio, fld; by rewrite Hk).
    destruct (Z.ltb_spec (prio m x) cpri); eexists; (split; [done|]).
    + exists l1, (x :: l2). split_and!; [done..| |done]. pose proof (sp_sorted _ _ _ Hr) as Hs. rewrite El in Hs.
      apply StronglySorted_app in Hs as (_ & _ & Hs). apply StronglySorted_cons in Hs as [Hs _]. rewrite Forall_forall in Hs.
      intros y [->|Hy]%elem_of_cons; [done|]. specialize (Hs y Hy). lia.
    + exists (length l2). split; [cbn; lia|]. exists (l1 ++ [x]), l2. rewrite <- app_assoc. split_and!; [done| |done|].
      * by rewrite pp_at_snoc.
      * intros y [Hy| ->%list_elem_of_singleton]%elem_of_app; [by apply H1|done].
  - exists [], l. split_and!; [done..|]. by intros ? ?%elem_of_nil.
  - apply sp_fuel.
  - by exists l1, l2.
Qed.

Lemma sema_find_search t : t ∈ l →
  ∃ l1 l2, l = l1 ++ t :: l2 ∧ run (sema_find_step m t) (sq_fuel m) (Sfirst (slpq s)) = Some (Some (pp_at (slpq s) l1)).
Proof.
  intros Ht. destruct (run_total_idx (sema_find_step m t)
    (λ n tpp, ∃ l1 l2, l = l1 ++ l2 ∧ tpp = pp_at (slpq s) l1 ∧ n = length l2 ∧ t ∈ l2)
    (λ r, ∃ l1 l2, l = l1 ++ t :: l2 ∧ r = Some (pp_at (slpq s) l1)))
    with (fuel := sq_fuel m) (n := length l) (s := Sfirst (slpq s)) as (r & Hrun & l1 & l2 & El & ->).
  - intros n tpp (l1 & l2 & El & -> & -> & H). unfold sema_find_step. rewrite (sp_ldp l1 l2 El). cbn.
    destruct l2 as [|x l2]; [by apply elem_of_nil in H|]. cbn.
    destruct (Z.eqb_spec x 0) as [->|Hx]; [by discriminate (hd_zero l1 (0 :: l2) El eq_refl)|].
    destruct (Z.eqb_spec x t) as [->|Hxt]; eexists; (split; [done|]); [by exists l1, l2|].
    exists (length l2). split; [cbn; lia|]. exists (l1 ++ [x]), l2. rewrite <- app_assoc, pp_at_snoc.
    apply elem_of_cons in H as [->|H]; done.
  - by exists [], l.
  - apply sp_fuel.
  - by exists l1, l2.
Qed.
End lists.

(** ** The operations on lists *)

Lemma same_base_trans m1 m2 m3 : same_base m1 m2 → same_base m2 m3 → same_base m1 m3.
Proof. intros H1 H2 y. by rewrite H2. Qed.
Lemma same_base_updp m pp v : same_base m (updp m pp v).
Proof. intros y. by apply fld_updp. Qed.
Lemma same_base_upd m t f : (∀ k, base (f k) = base k) → same_base m (upd m t f).
Proof. intros H y. by apply fld_frame. Qed.

(** What follows [l1] is replaced: the place behind [l1] points to [l2'] in
    [m1], and the rest of [m'] is that of [m1] but for the thread [x]. *)
Lemma srep_splice m m' s l1 l2 l2' x :
  srep m s (l1 ++ l2) → NoDup (l1 ++ l2') → 0 ∉ l2' → x ∉ l1 →
  sqs m' = sqs (updp m (pp_at (slpq s) l1) (hd 0 l2')) →
  (∀ y, y ≠ x → ld m' y = ld (updp m (pp_at (slpq s) l1) (hd 0 l2')) y) →
  (∀ y, y ∈ l2' → y ≠ x → y ∈ l2) → lseg (fld t_link m') l2' 0 → sq_sorted (prio m') (l1 ++ l2') →
  srep m' s (l1 ++ l2').
Proof.
  intros Hr Hnd H0 Hx Hs Hl Hin Hseg Hso.
  destruct (chain_updp m m' (slpq s) l1 l2 l2' (hd 0 l2')) as [Hf Hln]; try done.
  - apply Hr.
  - apply Hr.
  - by rewrite Hs.
  - intros y Hy. unfold fld. rewrite Hl; [done|]. by intros ->.
  - split; try done. pose proof (sp_nonzero _ _ _ Hr) as Hz. rewrite elem_of_app in Hz |- *. tauto.
Qed.

(** Links outside of [l1] are untouched by the store behind it. *)
Lemma link_behind m s l1 v y : y ∉ l1 → ld (updp m (pp_at (slpq s) l1) v) y = ld m y.
Proof.
  intros Hy. destruct (decide (l1 = [])) as [->|Hne]; [done|]. destruct (exists_last Hne) as (l & x & ->).
  rewrite pp_at_snoc. cbn. rewrite ld_upd, decide_False; [done|]. intros ->. apply Hy. set_solver.
Qed.

Lemma sema_queue_ok m s l t : srep m s l → is_Some (ld m t) → t ≠ 0 → t ∉ l →
  ∃ m', sema_queue m s t = Some m' ∧ srep m' s (sq_ins (prio m) t l) ∧ same_base m m'.
Proof.
  intros Hr [k Hk] Ht0 Ht. unfold sema_queue. rewrite Hk.
  assert (DISP_PRIO k = prio m t) as -> by (unfold prio, fld; by rewrite Hk).
  destruct (sema_queue_search m s l Hr (prio m t)) as (l1 & l2 & -> & H1 & H2 & ->).
  rewrite (stp_at m _ l1 l2) by apply Hr. set (m1 := updp m (pp_at (slpq s) l1) t).
  rewrite st_upd by (apply ld_updp_is_Some; by eexists). eexists. split; [done|].
  set (m' := upd m1 t (set_t_link (hd 0 l2))).
  assert (same_base m m') as Hre.
  { eapply same_base_trans; [apply same_base_updp|by apply same_base_upd]. }
  split; [|done]. rewrite sq_ins_at by done. pose proof (sp_nodup _ _ _ Hr) as Hnd.
  assert (NoDup (l1 ++ t :: l2)) as Hnd' by (rewrite <- Permutation_middle; by constructor).
  apply (srep_splice m m' s l1 l2 (t :: l2) t); try done.
  - rewrite elem_of_cons. pose proof (sp_nonzero _ _ _ Hr). set_solver.
  - set_solver.
  - intros y Hy. unfold m'. by rewrite ld_upd, decide_False.
  - intros y [->|?]%elem_of_cons; done.
  - unfold m'. cbn [lseg]. split.
    { rewrite fld_upd, decide_True by done. unfold m1. rewrite link_behind, Hk by set_solver. done. }
    pose proof (sp_link _ _ _ Hr) as Hl. apply lseg_app in Hl as [_ Hl]. revert Hl. apply lseg_ext. intros y Hy.
    rewrite fld_upd, decide_False by set_solver. unfold fld, m1. rewrite link_behind; [done|].
    apply NoDup_app in Hnd as (_ & Hnd & _). intros Hy1. by apply (Hnd y).
  - apply (sq_sorted_ext (prio m)); [intros u _; apply same_base_prio, Hre|].
    rewrite <- (sq_ins_at (prio m)) by done. apply sq_ins_sorted, Hr.
Qed.

(** Taking out the thread behind [l1], and what else is stored into it. *)
Lemma sema_unlink_ok m s l1 t l2 f : srep m s (l1 ++ t :: l2) → (∀ k, t_link (f k) = 0) →
  ∃ k, ld m t = Some k ∧ t_link k = hd 0 l2 ∧ stp m (pp_at (slpq s) l1) (hd 0 l2) = Some (updp m (pp_at (slpq s) l1) (hd 0 l2)) ∧
  srep (upd (updp m (pp_at (slpq s) l1) (hd 0 l2)) t f) s (l1 ++ l2).
Proof.
  intros Hr Hf. pose proof (sp_link _ _ _ Hr) as Hl. apply lseg_app in Hl as [_ [Ht Hl]].
  unfold fld in Ht. destruct (ld m t) as [k|] eqn:Hk; [|done]. apply (inj Some) in Ht. exists k. split_and!; [done..| |].
  { apply (stp_at m _ l1 (t :: l2)); apply Hr. }
  pose proof (sp_nodup _ _ _ Hr) as Hnd. rewrite <- Permutation_middle in Hnd. apply NoDup_cons in Hnd as [Htn Hnd].
  assert (∀ u, u ∈ l1 ++ l2 → u ≠ t) as Hne by (intros u Hu ->; done).
  eapply (srep_splice m _ s l1 (t :: l2) l2 t); try done.
  - intros ?. destruct (sp_nonzero _ _ _ Hr). set_solver.
  - set_solver.
  - intros y Hy. by rewrite ld_upd, decide_False.
  - intros y Hy _. by constructor.
  - revert Hl. apply lseg_ext. intros y Hy. rewrite fld_upd, decide_False by (apply Hne; set_solver).
    unfold fld. rewrite link_behind; [done|]. apply NoDup_app in Hnd as (_ & Hnd & _). intros Hy1. by apply (Hnd y).
  - apply (sq_sorted_ext (prio m)).
    + intros u Hu. unfold prio. rewrite fld_upd, decide_False by (by apply Hne). by rewrite fld_updp.
    + rewrite <- (sq_del_at t) by apply Hr. apply sq_sorted_del, Hr.
Qed.

Lemma sema_dequeue_ok m s l t : srep m s l → t ∈ l →
  ∃ m', sema_dequeue m s t = Some m' ∧ srep m' s (sq_del t l) ∧ same_base m m'.
Proof.
  intros Hr Ht. unfold sema_dequeue. destruct (sema_find_search m s l Hr t Ht) as (l1 & l2 & -> & ->).
  destruct (sema_unlink_ok m s l1 t l2 (set_t_link 0) Hr) as (k & Hk & El & Hst & Hr'); [done|]. rewrite Hk, El, Hst.
  rewrite st_upd by (apply ld_updp_is_Some; by eexists). eexists. split_and!; [done|by rewrite sq_del_at by apply Hr|].
  eapply same_base_trans; [apply same_base_updp|by apply same_base_upd].
Qed.

(** What a thread is once it is woken, and the others unchanged. *)
Definition roused (m m' : smem) (t : Z) : Prop :=
  (∀ y, is_Some (ld m' y) ↔ is_Some (ld m y)) ∧ (∀ y, y ≠ t → fld base m' y = fld base m y) ∧
  fld t_state m' t = Some TS_RUN ∧ fld t_wchan m' t = Some 0.

Lemma roused_upd m pp v t f : is_Some (ld m t) → (∀ k, t_state (f k) = TS_RUN ∧ t_wchan (f k) = 0) → roused m (upd (updp m pp v) t f) t.
Proof.
  intros Ht Hf. apply (ld_updp_is_Some m pp v) in Ht as [k Hk]. split_and!.
  - intros y. by rewrite ld_is_Some, ld_updp_is_Some.
  - intros y Hy. rewrite fld_upd, decide_False by done. apply same_base_updp.
  - rewrite fld_upd, decide_True, Hk by done. cbn. by destruct (Hf k) as [-> _].
  - rewrite fld_upd, decide_True, Hk by done. cbn. by destruct (Hf k) as [_ ->].
Qed.

Lemma sema_unsleep_ok m s l t : srep m s l → t ∈ l → fld t_wchan m t = Some s →
  ∃ m', sema_unsleep m t = Some m' ∧ srep m' s (sq_del t l) ∧ roused m m' t.
Proof.
  intros Hr Ht Hc. unfold sema_unsleep. unfold fld in Hc. destruct (ld m t) as [k|] eqn:Hk; [|done]. apply (inj Some) in Hc. rewrite Hc.
  destruct (sema_find_search m s l Hr t Ht) as (l1 & l2 & -> & ->).
  destruct (sema_unlink_ok m s l1 t l2 (λ k, set_t_state TS_RUN (set_t_chan 0 0 0 (set_t_link 0 k))) Hr)
    as (k' & Hk' & El & Hst & Hr'); [done|]. assert (k' = k) as -> by congruence. rewrite El, Hst.
  rewrite st_upd by (apply ld_updp_is_Some; by eexists). eexists. split_and!; [done|by rewrite sq_del_at by apply Hr|].
  apply roused_upd; [by eexists|done].
Qed.

Lemma sema_wake_ok m s l : srep m s l →
  match l with
  | [] => sema_wake m s = Some (m, 0)
  | t :: l => ∃ m', sema_wake m s = Some (m', t) ∧ t ≠ 0 ∧ srep m' s l ∧ roused m m' t
  end.
Proof.
  intros Hr. unfold sema_wake. pose proof (sp_first _ _ _ Hr) as Hf. cbn [ldp]. rewrite Hf. destruct l as [|t l]; [done|].
  assert (t ≠ 0) as Ht by (intros ->; destruct (sp_nonzero _ _ _ Hr); constructor). cbn [hd]. apply Z.eqb_neq in Ht as Ht'. rewrite Ht'.
  set (f := λ k, set_t_state TS_RUN (set_t_chan 0 (t_wchan0 k) 0 (set_t_link 0 k))).
  destruct (sema_unlink_ok m s [] t l f Hr) as (k & Hk & El & _ & Hr'); [done|]. rewrite Hk, El, st_upd by (by eexists).
  cbn [stp sqs upd]. rewrite Hf. eexists. split_and!; [done..|].
  apply (roused_upd m (Sfirst (slpq s)) (hd 0 l)); [by eexists|done].
Qed.

Lemma SEMA_BLOCK_ok m s l t pri ops : srep m s l → is_Some (ld m t) → t ≠ 0 → t ∉ l →
  ∃ m', SEMA_BLOCK m s t pri ops = Some m' ∧ srep m' s (sq_ins (prio m') t l) ∧
    (∀ y, is_Some (ld m' y) ↔ is_Some (ld m y)) ∧ (∀ y, y ≠ t → fld base m' y = fld base m y) ∧ fld t_wchan m' t = Some s.
Proof.
  intros Hr Ht Ht0 Htn. unfold SEMA_BLOCK. rewrite st_upd by done.
  set (f := λ k, set_t_chan s (t_wchan0 k) ops (set_t_state TS_SLEEP (set_t_pri pri k))). set (m1 := upd m t f).
  assert (srep m1 s l) as Hr1.
  { destruct Hr as [Hf Hl Hnd Hz Hs]. split; try done.
    - revert Hl. apply lseg_ext. intros y Hy. unfold m1. by rewrite fld_frame.
    - revert Hs. apply sq_sorted_ext. intros y Hy. unfold prio, m1. rewrite fld_upd, decide_False; [done|]. by intros ->. }
  destruct (sema_queue_ok m1 s l t Hr1) as (m' & Hq & Hr' & Hre); [by apply ld_is_Some|done..|].
  exists m'. split_and!; [done| | | |].
  - erewrite sq_ins_ext; [exact Hr'|]. intros y. apply same_base_prio, Hre.
  - intros y. rewrite (base_ld m1 m') by apply Hre. apply ld_is_Some.
  - intros y Hy. rewrite Hre. unfold m1. by rewrite fld_upd, decide_False.
  - rewrite (base_wchan m1 m') by apply Hre. destruct Ht as [k Hk]. unfold m1. by rewrite fld_upd, decide_True, Hk.
Qed.

Lemma sema_change_pri_ok m s l t pri inh : srep m s l → t ∈ l → s ≠ 0 → t ≠ 0 → fld t_wchan m t = Some s →
  ∃ m', sema_change_pri m t pri inh = Some (SGo m') ∧ srep m' s (sq_ins (prio m') t (sq_del t l)) ∧
    (∀ y, is_Some (ld m' y) ↔ is_Some (ld m y)) ∧ (∀ y, fld t_wchan m' y = fld t_wchan m y).
Proof.
  intros Hr Ht Hs Ht0 Hc. unfold sema_change_pri. pose proof (sp_ld m s l Hr t Ht) as [k Hk]. rewrite Hk.
  unfold fld in Hc. rewrite Hk in Hc. apply (inj Some) in Hc. rewrite Hc. apply Z.eqb_neq in Hs as ->.
  destruct (sema_dequeue_ok m s l t Hr Ht) as (m1 & -> & Hr1 & Hre1).
  assert (is_Some (ld m1 t)) as Ht1 by (rewrite (base_ld m m1) by apply Hre1; by eexists). rewrite st_upd by done.
  set (f := if inh then set_t_epri pri else set_t_pri pri). set (m2 := upd m1 t f).
  assert (t ∉ sq_del t l) as Hn by (rewrite sq_del_elem; tauto).
  assert (srep m2 s (sq_del t l)) as Hr2.
  { destruct Hr1 as [Hf Hl Hnd Hz Hso]. split; try done.
    - revert Hl. apply lseg_ext. intros y Hy. unfold m2. rewrite fld_frame; [done|]. unfold f. by destruct inh.
    - revert Hso. apply sq_sorted_ext. intros y Hy. unfold prio, m2. rewrite fld_upd, decide_False; [done|]. by intros ->. }
  destruct (sema_queue_ok m2 s (sq_del t l) t Hr2) as (m3 & -> & Hr3 & Hre3); [by apply ld_is_Some|done..|].
  exists m3. split_and!; [done| | |].
  - erewrite sq_ins_ext; [exact Hr3|]. intros y. apply same_base_prio, Hre3.
  - intros y. rewrite (base_ld m2 m3), <- (base_ld m m1) by (apply Hre3 || apply Hre1). apply ld_is_Some.
  - intros y. rewrite (base_wchan m2 m3), <- (base_wchan m m1) by (apply Hre3 || apply Hre1).
    unfold m2. rewrite fld_frame; [done|]. unfold f. by destruct inh.
Qed.

(** ** The invariant *)

Definition asleep (p : spc) : bool := match p with SAsleep _ => true | _ => false end.
(** A thread that will look at the count. *)
Definition moving (p : spc) : nat := match p with SEnter _ | SAwake | SIntr => 1 | _ => 0 end.

Lemma sum_upd (f : spc → nat) (g : Z → spc) t p l : NoDup l → t ∈ l →
  (sum_list_with (λ u, f (<[t := p]> g u)) l + f (g t) = sum_list_with (λ u, f (g u)) l + f p)%nat.
Proof.
  intros Hnd Ht. induction Hnd as [|x l Hx Hnd IH]; [by apply elem_of_nil in Ht|]. cbn.
  apply elem_of_cons in Ht as [->|Ht].
  - rewrite fn_lookup_insert. enough (sum_list_with (λ u, f (<[x := p]> g u)) l = sum_list_with (λ u, f (g u)) l) by lia.
    clear IH Hnd. induction l as [|y l IH]; [done|]. apply not_elem_of_cons in Hx as [Hy Hx]. cbn.
    rewrite fn_lookup_insert_ne by done. by rewrite IH.
  - rewrite (fn_lookup_insert_ne _ t x) by (by intros ->). specialize (IH Ht). lia.
Qed.

Section inv.
Context (s ops : Z) (T : gset Z).

Definition transit (x : sstate) : Z := Z.of_nat (sum_list_with (λ t, moving (s_pc x t)) (elements T)).

Record sinv (x : sstate) (l : list Z) : Prop := {
  v_rep : srep (s_mem x) s l;
  v_on t : t ∈ l ↔ asleep (s_pc x t) = true;
  v_chan t : t ∈ l → fld t_wchan (s_mem x) t = Some s;
  v_thread t : t ∈ T → t ≠ 0 ∧ is_Some (ld (s_mem x) t);
  v_in t : s_pc x t ≠ SOut → t ∈ T;
  v_count : 0 <= s_count x < 2 ^ 31;
  v_units : s_count x + s_taken x = s_given x;
  v_transit : l = [] ∨ s_count x <= transit x
}.

Lemma transit_upd x x' t p : t ∈ T → s_pc x' = <[t := p]> (s_pc x) →
  transit x' + Z.of_nat (moving (s_pc x t)) = transit x + Z.of_nat (moving p).
Proof.
  intros Ht E. unfold transit. rewrite E.
  pose proof (sum_upd moving (s_pc x) t p (elements T) (NoDup_elements T) (proj2 (elem_of_elements T t) Ht)). lia.
Qed.

(** Thread [t] goes to [p]; the queue becomes [l']. *)
Lemma sinv_go x l x' l' t p :
  sinv x l → t ∈ T → s_pc x' = <[t := p]> (s_pc x) → srep (s_mem x') s l' →
  (∀ u, u ≠ t → u ∈ l' ↔ u ∈ l) → (t ∈ l' ↔ asleep p = true) →
  (∀ u, u ≠ t → fld t_wchan (s_mem x') u = fld t_wchan (s_mem x) u) →
  (asleep p = true → fld t_wchan (s_mem x') t = Some s) →
  (∀ u, is_Some (ld (s_mem x') u) ↔ is_Some (ld (s_mem x) u)) →
  0 <= s_count x' < 2 ^ 31 → s_count x' + s_taken x' = s_given x' →
  (l' = [] ∨ s_count x' + Z.of_nat (moving (s_pc x t)) <= transit x + Z.of_nat (moving p)) → sinv x' l'.
Proof.
  intros [Hr Hon Hc Hth Hin Hcnt Hun Htr] Ht E Hr' Hl' Ht' Hch Hcht Hld Hcnt' Hun' Htr'.
  pose proof (transit_upd x x' t p Ht E) as Etr. split; try done; rewrite ?E.
  - intros u. destruct (decide (u = t)) as [->|Hu]; [by rewrite fn_lookup_insert|].
    rewrite fn_lookup_insert_ne by done. by rewrite Hl', Hon.
  - intros u Hu. destruct (decide (u = t)) as [->|Hne]; [by apply Hcht, Ht'|]. rewrite Hch by done. apply Hc. by apply Hl'.
  - intros u Hu. rewrite Hld. by apply Hth.
  - intros u. destruct (decide (u = t)) as [->|Hu]; [done|]. rewrite fn_lookup_insert_ne by done. apply Hin.
  - destruct Htr' as [->|?]; [by left|right; lia].
Qed.

(** Moves that leave the queue alone. *)
Lemma sinv_move x l t p :
  sinv x l → t ∈ T → asleep (s_pc x t) = false → asleep p = false → (moving (s_pc x t) <= moving p)%nat → sinv (s_set_pc t p x) l.
Proof.
  intros Hi Ht Ha Hp Hm. eapply (sinv_go x l _ l t p); try done; try (by apply Hi).
  - rewrite (v_on _ _ Hi), Ha, Hp. done.
  - by rewrite Hp.
  - destruct (v_transit _ _ Hi); [by left|right; cbn; lia].
Qed.

(** The first thread is woken; [x] may have more in the semaphore than
    threads on the way, by one. *)
Lemma sinv_wake x l :
  srep (s_mem x) s l → (∀ t, t ∈ l ↔ asleep (s_pc x t) = true) → (∀ t, t ∈ l → fld t_wchan (s_mem x) t = Some s) →
  (∀ t, t ∈ T → t ≠ 0 ∧ is_Some (ld (s_mem x) t)) → (∀ t, s_pc x t ≠ SOut → t ∈ T) →
  0 <= s_count x < 2 ^ 31 → s_count x + s_taken x = s_given x → (l = [] ∨ s_count x <= transit x + 1) →
  ∃ x', wake_first s x = Some x' ∧ sinv x' (tail l) ∧ s_count x' = s_count x ∧
    s_given x' = s_given x ∧ s_taken x' = s_taken x ∧
    s_pc x' = match l with [] => s_pc x | t :: _ => <[t := woken_pc (s_pc x t)]> (s_pc x) end.
Proof.
  intros Hr Hon Hc Hth Hin Hcnt Hun Htr. unfold wake_first. pose proof (sema_wake_ok (s_mem x) s l Hr) as Hw.
  destruct l as [|t l]; [rewrite Hw; cbn|destruct Hw as (m' & -> & Ht0 & Hr' & Hld & Hb & _)].
  { exists (s_set_mem (s_mem x) x). split_and!; try done. split; try done. by left. }
  apply Z.eqb_neq in Ht0 as ->. eexists. split_and!; try done. cbn [tail].
  pose proof (proj1 (Hon t) ltac:(constructor)) as Ha.
  assert (t ∈ T) as Ht by (apply Hin; by intros E; rewrite E in Ha).
  assert (asleep (woken_pc (s_pc x t)) = false) as Hw by (destruct (s_pc x t) as [| |[]| |]; done).
  set (x' := s_set_pc t _ _). pose proof (transit_upd x x' t _ Ht eq_refl) as Etr.
  assert (moving (s_pc x t) = 0%nat ∧ moving (woken_pc (s_pc x t)) = 1%nat) as [E0 E1]
    by (destruct (s_pc x t) as [| |[]| |]; done). rewrite E0, E1 in Etr.
  pose proof (sp_nodup _ _ _ Hr) as [Htl Hnd]%NoDup_cons. split; try done; cbn.
  - intros u. destruct (decide (u = t)) as [->|Hu]; [rewrite fn_lookup_insert, Hw; naive_solver|].
    rewrite fn_lookup_insert_ne, <- Hon, elem_of_cons by done. naive_solver.
  - intros u Hu. rewrite (base_wchan (s_mem x) m'); [apply Hc; by constructor|]. apply Hb. by intros ->.
  - intros u Hu. rewrite Hld. by apply Hth.
  - intros u. destruct (decide (u = t)) as [->|Hu]; [done|]. rewrite fn_lookup_insert_ne by done. apply Hin.
  - destruct Htr as [?|Htr]; [done|]. right. lia.
Qed.

Lemma s32_id z : 0 <= z < 2 ^ 31 → s32 z = z.
Proof. intros Hz. apply wraps_id; lia. Qed.

Lemma sinv_init m count :
  (∀ t, t ∈ T → t ≠ 0 ∧ is_Some (ld m t)) → 0 <= count < 2 ^ 31 → sinv (sema_init s m count) [].
Proof.
  intros Hm Hc. split; cbn; try done.
  - split; cbn; try done; [by rewrite lookup_insert_eq|constructor|apply not_elem_of_nil|constructor].
  - intros t. rewrite elem_of_nil. done.
  - intros t ?%elem_of_nil. done.
  - lia.
  - by left.
Qed.

(** [sema_p] on a thread that is about to take the lock. *)
Lemma sema_p_ok x l t pri sig : sinv x l → t ∈ T → s_pc x t = SEnter sig →
  ∃ x', sema_p s ops x t pri sig = Some x' ∧
    if decide (s_count x = 0)
    then sinv x' (sq_ins (prio (s_mem x')) t l) ∧ s_pc x' = <[t := SAsleep sig]> (s_pc x) ∧ s_count x' = 0
    else sinv x' l ∧ s_pc x' = <[t := SOut]> (s_pc x) ∧ s_count x' = s_count x - 1.
Proof.
  intros Hi Ht Hp. unfold sema_p. pose proof (v_count _ _ Hi) as Hc. pose proof (v_thread _ _ Hi t Ht) as [Ht0 Hld].
  assert (t ∉ l) as Hn by (rewrite (v_on _ _ Hi), Hp; done).
  destruct (decide (s_count x = 0)) as [E|E]; [apply Z.eqb_eq in E as E'|apply Z.eqb_neq in E as E']; rewrite E'.
  - destruct (SEMA_BLOCK_ok (s_mem x) s l t pri ops (v_rep _ _ Hi) Hld Ht0 Hn) as (m' & -> & Hr' & Hld' & Hb & Hch).
    eexists. split_and!; [done| |done..]. eapply (sinv_go x l _ _ t (SAsleep sig)); try done; cbn.
    + intros u Hu. rewrite sq_ins_elem. naive_solver.
    + rewrite sq_ins_elem. naive_solver.
    + intros u Hu. by apply base_wchan, Hb.
    + apply (v_units _ _ Hi).
    + right. rewrite E, Hp. cbn. pose proof (proj2 (elem_of_elements T t) Ht) as He.
      pose proof (sum_upd moving (s_pc x) t SOut _ (NoDup_elements T) He) as Hs. rewrite Hp in Hs. cbn in Hs. unfold transit. lia.
  - eexists. split_and!; [done| |done|cbn; apply s32_id; lia].
    eapply (sinv_go x l _ l t SOut); try done; try (by apply Hi); cbn.
    + rewrite s32_id; lia.
    + rewrite s32_id by lia. pose proof (v_units _ _ Hi). lia.
    + rewrite s32_id, Hp by lia. cbn. destruct (v_transit _ _ Hi); [by left|right; lia].
Qed.

Lemma sema_intr_ok x l t : sinv x l → t ∈ T → s_pc x t = SIntr →
  ∃ x', sema_p_intr s x t = Some x' ∧ s_count x' = s_count x ∧
    if decide (s_count x = 0) then sinv x' l ∧ s_pc x' = <[t := SOut]> (s_pc x)
    else sinv x' (tail l) ∧
      s_pc x' = match l with [] => <[t := SOut]> (s_pc x) | u :: _ => <[u := woken_pc (s_pc x u)]> (<[t := SOut]> (s_pc x)) end.
Proof.
  intros Hi Ht Hp. unfold sema_p_intr. cbn [s_count s_set_pc]. set (x1 := s_set_pc t SOut x).
  pose proof (v_count _ _ Hi) as Hc. pose proof (transit_upd x x1 t SOut Ht eq_refl) as Etr. rewrite Hp in Etr. cbn in Etr.
  assert (∀ u, u ∈ l ↔ asleep (s_pc x1 u) = true) as Hon.
  { intros u. rewrite (v_on _ _ Hi). cbn. destruct (decide (u = t)) as [->|Hu]; [by rewrite Hp, fn_lookup_insert|].
    by rewrite fn_lookup_insert_ne. }
  assert (∀ u, s_pc x1 u ≠ SOut → u ∈ T) as Hin.
  { intros u. cbn. destruct (decide (u = t)) as [->|Hu]; [done|]. rewrite fn_lookup_insert_ne by done. apply (v_in _ _ Hi). }
  destruct (decide (s_count x = 0)) as [Hz|Hz]; (destruct (Z.ltb_spec 0 (s_count x)) as [Hpos|Hpos]; [try lia|try lia]).
  { eexists. split_and!; try done. split; try done; try (by apply Hi). right. cbn. unfold transit. lia. }
  destruct (sinv_wake x1 l) as (x' & -> & Hi' & Ec & _ & _ & Epc); try done; try (by apply Hi).
  - destruct (v_transit _ _ Hi); [by left|right; cbn; lia].
  - exists x'. split_and!; try done. destruct l as [|u l]; [done|]. cbn in Epc. rewrite Epc.
    rewrite fn_lookup_insert_ne; [done|]. intros ->. pose proof (proj1 (v_on _ _ Hi u) ltac:(constructor)) as H. by rewrite Hp in H.
Qed.

Lemma sema_v_ok x l : sinv x l → s_count x < 2 ^ 31 - 1 →
  ∃ x', sema_v s x = Some x' ∧ sinv x' (tail l) ∧ s_count x' = s_count x + 1 ∧
    s_pc x' = match l with [] => s_pc x | t :: _ => <[t := woken_pc (s_pc x t)]> (s_pc x) end.
Proof.
  intros Hi Hmax. pose proof (v_count _ _ Hi). unfold sema_v.
  destruct (sinv_wake (s_give x) l) as (x' & -> & Hi' & Ec & _ & _ & Epc); try (by apply Hi).
  - cbn. rewrite s32_id; lia.
  - cbn. rewrite s32_id by lia. pose proof (v_units _ _ Hi). lia.
  - cbn. rewrite s32_id by lia. destruct (v_transit _ _ Hi); [by left|right]. unfold transit in *. cbn. lia.
  - exists x'. split_and!; try done. rewrite Ec. cbn. apply s32_id. lia.
Qed.

Lemma sema_tryp_ok x l : sinv x l → sinv (fst (sema_tryp x)) l ∧ snd (sema_tryp x) = bool_decide (s_count x ≠ 0) ∧
  s_count (fst (sema_tryp x)) = (if decide (s_count x = 0) then 0 else s_count x - 1).
Proof.
  intros Hi. pose proof (v_count _ _ Hi). unfold sema_tryp. destruct (Z.ltb_spec 0 (s_count x)).
  - rewrite bool_decide_true, decide_False by lia. cbn. split_and!; [|done|apply s32_id; lia].
    destruct Hi as [Hr Hon Hc Hth Hin Hcnt Hun Htr]. split; try done; cbn; rewrite ?s32_id by lia; try lia.
    destruct Htr; [by left|right]. unfold transit in *. cbn. lia.
  - rewrite bool_decide_false, decide_True by lia. cbn. split_and!; [done..|lia].
Qed.

Lemma sema_sig_ok x l t : sinv x l → t ∈ T → s_pc x t = SAsleep true →
  ∃ x', s_exec s ops x (EUnsleep t) = Some x' ∧ sinv x' (sq_del t l).
Proof.
  intros Hi Ht Hp. assert (t ∈ l) as Hl by (rewrite (v_on _ _ Hi), Hp; done). cbn.
  destruct (sema_unsleep_ok (s_mem x) s l t (v_rep _ _ Hi) Hl (v_chan _ _ Hi t Hl)) as (m' & -> & Hr' & Hld & Hb & _).
  eexists. split; [done|]. eapply (sinv_go x l _ _ t SAwake); try done; try (by apply Hi); cbn.
  - intros u Hu. rewrite sq_del_elem. tauto.
  - rewrite sq_del_elem. naive_solver.
  - intros u Hu. by apply base_wchan, Hb.
  - rewrite Hp. cbn. destruct (v_transit _ _ Hi) as [->|]; [by left|right; lia].
Qed.

Lemma sema_pri_ok x l t pri inh : s ≠ 0 → sinv x l → t ∈ T →
  ∃ x' l', s_exec s ops x (EPri t pri inh) = Some x' ∧ sinv x' l' ∧ s_pc x' = s_pc x ∧ s_count x' = s_count x.
Proof.
  intros Hs Hi Ht. pose proof (v_thread _ _ Hi t Ht) as [Ht0 Hld]. cbn. destruct (asleep (s_pc x t)) eqn:Ea.
  - assert (t ∈ l) as Hl by (by apply (v_on _ _ Hi)).
    destruct (sema_change_pri_ok (s_mem x) s l t pri inh (v_rep _ _ Hi) Hl Hs Ht0 (v_chan _ _ Hi t Hl))
      as (m' & -> & Hr' & Hld' & Hc). destruct (s_pc x t) eqn:Hp; try done.
    do 2 eexists. split_and!; [done| |done..]. destruct Hi as [Hr Hon Hch Hth Hin Hcnt Hun Htr]. split; try done; cbn.
    + intros u. rewrite sq_ins_elem, sq_del_elem, <- Hon. destruct (decide (u = t)); naive_solver.
    + intros u Hu. rewrite Hc. apply Hch. rewrite sq_ins_elem, sq_del_elem in Hu. naive_solver.
    + intros u Hu. rewrite Hld'. by apply Hth.
    + right. destruct Htr as [->|]; [by apply elem_of_nil in Hl|done].
  - assert (t ∉ l) as Hl by (rewrite (v_on _ _ Hi), Ea; done). rewrite st_upd by done.
    set (m' := upd (s_mem x) t _). exists (s_set_mem m' x), l. split; [destruct (s_pc x t); done|].
    destruct Hi as [[Hf Hlk Hnd Hz Hso] Hon Hch Hth Hin Hcnt Hun Htr]. split_and!; try done.
    assert (∀ y, y ∈ l → ld m' y = ld (s_mem x) y) as Hsame.
    { intros y Hy. unfold m'. rewrite ld_upd, decide_False; [done|]. by intros ->. }
    split; try done; cbn.
    + split; try done.
      * revert Hlk. apply lseg_ext. intros y Hy. unfold fld. by rewrite Hsame.
      * revert Hso. apply sq_sorted_ext. intros y Hy. unfold prio, fld. by rewrite Hsame.
    + intros u Hu. unfold fld. rewrite Hsame by done. by apply Hch.
    + intros u Hu. unfold m'. rewrite ld_is_Some. by apply Hth.
Qed.

Lemma s_exec_ok x l e : s ≠ 0 → sinv x l → enabled T x e → ∃ x' l', s_exec s ops x e = Some x' ∧ sinv x' l'.
Proof.
  intros Hs Hi He. destruct e as [t sig|t pri|t intr|t| | |t|t pri inh]; cbn [enabled] in He.
  - destruct He as [Ht Hp]. exists (s_set_pc t (SEnter sig) x), l. split; [done|]. apply sinv_move; rewrite ?Hp; done || (cbn; lia).
  - destruct He as [Ht Hp]. assert (∃ sig, s_pc x t = SEnter sig) as [sig Hp'] by set_solver.
    destruct (sema_p_ok x l t pri sig Hi Ht Hp') as (x' & E & Hx). cbn. rewrite Hp', E. exists x'.
    case_decide; eexists; (split; [done|apply Hx]).
  - destruct He as [Ht Hp]. eexists _, l. split; [done|]. apply sinv_move; rewrite ?Hp; try done; by destruct intr.
  - destruct He as [Ht Hp]. destruct (sema_intr_ok x l t Hi Ht Hp) as (x' & E & _ & Hx). cbn. rewrite E. exists x'.
    case_decide; eexists; (split; [done|apply Hx]).
  - destruct (sema_v_ok x l Hi He) as (x' & E & Hi' & _). cbn. rewrite E. by exists x', (tail l).
  - eexists _, l. split; [done|]. by apply sema_tryp_ok.
  - destruct He as [Ht Hp]. destruct (sema_sig_ok x l t Hi Ht Hp) as (x' & E & Hi'). rewrite E. eauto.
  - destruct (sema_pri_ok x l t pri inh Hs Hi He) as (x' & l' & E & Hi' & _). rewrite E. eauto.
Qed.

Lemma sema_reach_inv m count x :
  s ≠ 0 → (∀ t, t ∈ T → t ≠ 0 ∧ is_Some (ld m t)) → 0 <= count < 2 ^ 31 → sema_reachable s ops T m count x → ∃ l, sinv x l.
Proof.
  intros Hs Hm Hc Hr. induction Hr as [|x e x' Hr [l Hi] He E]; [exists []; by apply sinv_init|].
  destruct (s_exec_ok x l e Hs Hi He) as (x1 & l1 & E1 & Hi1). exists l1. congruence.
Qed.
End inv.

(** ** Properties *)

Section props.
Context (s ops : Z) (T : gset Z) (m : smem) (count : Z).
Context (Hs : s ≠ 0) (HT : ∀ t, t ∈ T → t ≠ 0 ∧ is_Some (ld m t)) (Hcount : 0 <= count < 2 ^ 31).

(** C24: in every interleaving of calls, signals and changes of priority the
    count is not negative and is what was put in less what was taken out; the
    queue that the pointers form has exactly the sleeping threads, in order
    of priority; nothing that can happen follows a bad pointer or panics; and
    [sema_v] adds one and wakes the first thread, if there is one, and no
    other. *)
Theorem sema_safe x :
  sema_reachable s ops T m count x →
  0 <= s_count x ∧ s_count x = s_given x - s_taken x ∧
  ∃ l, srep (s_mem x) s l ∧ (∀ t, t ∈ l ↔ asleep (s_pc x t) = true) ∧
    (∀ e, enabled T x e → is_Some (s_exec s ops x e)) ∧
    (s_count x < 2 ^ 31 - 1 → ∃ x', sema_v s x = Some x' ∧ s_count x' = s_count x + 1 ∧
       ∀ t, s_pc x' t = if decide (head l = Some t) then woken_pc (s_pc x t) else s_pc x t).
Proof.
  intros Hr. destruct (sema_reach_inv s ops T m count x Hs HT Hcount Hr) as [l Hi].
  pose proof (v_count _ _ _ _ Hi). pose proof (v_units _ _ _ _ Hi). split_and!; [lia..|]. exists l. split_and!; try by apply Hi.
  - intros e He. destruct (s_exec_ok s ops T x l e Hs Hi He) as (x' & _ & -> & _). by eexists.
  - intros Hmax. destruct (sema_v_ok s T x l Hi Hmax) as (x' & E & _ & Ec & Epc). exists x'. split_and!; try done.
    intros t. rewrite Epc. destruct l as [|u l]; [by rewrite decide_False|]. cbn.
    destruct (decide (u = t)) as [->|Hne]; [rewrite fn_lookup_insert, decide_True; done|].
    rewrite fn_lookup_insert_ne, decide_False by congruence. done.
Qed.

(** The threads that are on the way to the count go on: nobody calls, nothing
    is put in or taken out by others. *)
Inductive settle : sstate → sstate → Prop :=
  | settle_step x e x' :
      enabled T x e → match e with EP _ _ | ESwtch _ _ | EIntr _ => True | _ => False end →
      s_exec s ops x e = Some x' → settle x x'.

Definition sweight (p : spc) : nat := match p with SOut => 0 | SAsleep _ => 3 | SEnter _ => 4 | SIntr => 3 | SAwake => 5 end.
Definition sload (g : Z → spc) : nat := sum_list_with (λ t, sweight (g t)) (elements T).

Lemma sload_upd g t p : t ∈ T → (sload (<[t := p]> g) + sweight (g t) = sload g + sweight p)%nat.
Proof. intros Ht. apply sum_upd; [apply NoDup_elements|by apply elem_of_elements]. Qed.

Lemma settle_load x l x' : sinv s T x l → settle x x' → (∃ l', sinv s T x' l') ∧ (sload (s_pc x') < sload (s_pc x))%nat.
Proof.
  intros Hi Hst. destruct Hst as [x e x' He Hev E]. split.
  { destruct (s_exec_ok s ops T x l e Hs Hi He) as (x1 & l1 & E1 & Hi1). exists l1. congruence. }
  destruct e as [|t pri|t intr|t| | | |]; try done; destruct He as [Ht Hp]; cbn in E.
  - assert (∃ sig, s_pc x t = SEnter sig) as [sig Hp'] by set_solver. rewrite Hp' in E.
    destruct (sema_p_ok s ops T x l t pri sig Hi Ht Hp') as (x1 & E1 & Hx). assert (x1 = x') as -> by congruence.
    case_decide; destruct Hx as (_ & -> & _); [pose proof (sload_upd (s_pc x) t (SAsleep sig) Ht) as H1|
      pose proof (sload_upd (s_pc x) t SOut Ht) as H1]; rewrite Hp' in H1; cbn in H1; lia.
  - injection E as <-. cbn. pose proof (sload_upd (s_pc x) t (if intr then SIntr else SEnter true) Ht) as H1.
    rewrite Hp in H1. destruct intr; cbn in *; lia.
  - destruct (sema_intr_ok s T x l t Hi Ht Hp) as (x1 & E1 & _ & Hx). assert (x1 = x') as -> by congruence.
    pose proof (sload_upd (s_pc x) t SOut Ht) as H1. rewrite Hp in H1. cbn in H1.
    assert (s_pc x' = <[t := SOut]> (s_pc x) → sload (s_pc x') < sload (s_pc x))%nat as Hone by (intros ->; lia).
    case_decide; destruct Hx as (_ & Epc); [by apply Hone|]. destruct l as [|u l]; [by apply Hone|].
    pose proof (proj1 (v_on _ _ _ _ Hi u) ltac:(constructor)) as Hu. assert (u ≠ t) by (intros ->; by rewrite Hp in Hu).
    assert (u ∈ T) as HuT by (apply (v_in _ _ _ _ Hi); intros Eu; by rewrite Eu in Hu). rewrite Epc.
    pose proof (sload_upd (<[t := SOut]> (s_pc x)) u (woken_pc (s_pc x u)) HuT) as H2. rewrite fn_lookup_insert_ne in H2 by done.
    destruct (s_pc x u) as [| |[]| |]; try done; cbn in *; lia.
Qed.

Lemma settle_end x l : sinv s T x l → (∀ x', ¬ settle x x') → s_count x = 0 ∨ l = [].
Proof.
  intros Hi Hno. destruct (v_transit _ _ _ _ Hi) as [|Htr]; [by right|left]. pose proof (v_count _ _ _ _ Hi).
  enough (transit T x = 0) by lia. unfold transit.
  assert (∀ ts, (∀ t, t ∈ ts → t ∈ T) → sum_list_with (λ t, moving (s_pc x t)) ts = 0%nat) as Hz; [|by rewrite Hz by set_solver].
  assert (∀ t e, t ∈ T → enabled T x e → match e with EP _ _ | ESwtch _ _ | EIntr _ => True | _ => False end → False) as Hev.
  { intros t e Ht He Hm. destruct (s_exec_ok s ops T x l e Hs Hi He) as (x' & _ & E & _). by apply (Hno x'), (settle_step x e). }
  induction ts as [|t ts IH]; intros Hts; [done|]. cbn. rewrite IH by (intros; apply Hts; by constructor).
  pose proof (Hts t ltac:(constructor)) as Ht. destruct (s_pc x t) as [|sig| | |] eqn:Hp; [done| |done|..]; exfalso.
  - apply (Hev t (EP t 0) Ht); [|done]. split; [done|]. rewrite Hp. destruct sig; set_solver.
  - by apply (Hev t (ESwtch t true) Ht).
  - by apply (Hev t (EIntr t) Ht).
Qed.

(** C9: no wakeup is lost, also when a signal and [sema_v] come at the same
    time.  When the threads that were woken or have just called go on, they
    come to rest after finitely many steps, whatever they do; and at rest
    there is nothing left in the semaphore or nobody sleeps. *)
Theorem sema_no_lost_wakeup x :
  sema_reachable s ops T m count x →
  Acc (λ y z, settle z y) x ∧
  ∀ x', rtc settle x x' → (∀ x'', ¬ settle x' x'') → s_count x' = 0 ∨ ∀ t, asleep (s_pc x' t) = false.
Proof.
  intros Hr. destruct (sema_reach_inv s ops T m count x Hs HT Hcount Hr) as [l Hi]. clear Hr. split.
  - revert l Hi. induction x as [x IH] using (well_founded_induction (well_founded_ltof _ (λ x, sload (s_pc x)))).
    intros l Hi. constructor. intros y Hy. destruct (settle_load x l y Hi Hy) as [[l' Hi'] Hlt]. by apply (IH y Hlt l').
  - intros x' Hrtc. revert l Hi. induction Hrtc as [x|x y z Hxy _ IH]; intros l Hi Hend.
    + destruct (settle_end x l Hi Hend) as [| ->]; [by left|right]. intros t.
      destruct (asleep (s_pc x t)) eqn:E; [|done]. apply (v_on _ _ _ _ Hi), elem_of_nil in E. done.
    + destruct (settle_load x l y Hi Hxy) as [[l' Hi'] _]. by apply (IH l').
Qed.
End props.

(** ** Two threads *)

#[export] Instance spc_eq_dec : EqDecision spc.
Proof. solve_decision. Defined.

#[export] Instance enabled_dec T x e : Decision (enabled T x e).
Proof. destruct e; cbn; apply _. Defined.

Fixpoint s_run (s ops : Z) (T : gset Z) (x : sstate) (es : list sevent) : sstate :=
  match es with
  | [] => x
  | e :: es =>
      if decide (enabled T x e) then match s_exec s ops x e with Some x' => s_run s ops T x' es | None => x end else x
  end.

Lemma s_run_reachable s ops T m count x es :
  sema_reachable s ops T m count x → sema_reachable s ops T m count (s_run s ops T x es).
Proof.
  revert x. induction es as [|e es IH]; intros x Hx; [done|]. cbn. case_decide; [|done].
  destruct (s_exec s ops x e) as [x'|] eqn:E; [|done]. apply IH. by eapply sreach_step.
Qed.

Definition two : gset Z := {[8; 16]}.
Definition two_mem : smem :=
  let idle := Kthread 0 0 0 None 60 0 0 0 0 TS_ONPROC 0 in Smem (<[8 := idle]> {[16 := idle]}) ∅.

(** Thread 8 takes what there is; thread 16 sleeps, and is woken by [sema_v]
    and by a signal at the same time. *)
Definition two_start : sstate := sema_init 4096 two_mem 1.
Definition two_sleep : sstate :=
  s_run 4096 1 two two_start [ECall 8 false; EP 8 60; ECall 16 true; EP 16 60].
Definition two_woken : sstate := s_run 4096 1 two two_sleep [EV].

Lemma two_threads t : t ∈ two → t ≠ 0 ∧ is_Some (ld two_mem t).
Proof. unfold two. intros [->%elem_of_singleton| ->%elem_of_singleton]%elem_of_union; split; (done || by eexists). Qed.

Lemma sema_safe_witness :
  asleep (s_pc two_sleep 16) = true ∧ ∃ x', sema_v 4096 two_sleep = Some x' ∧ s_count x' = 1.
Proof.
  assert (sema_reachable 4096 1 two two_mem 1 two_sleep) as Hr by (apply s_run_reachable; constructor).
  destruct (sema_safe 4096 1 two two_mem 1 ltac:(done) two_threads ltac:(lia) two_sleep Hr) as (_ & _ & l & _ & _ & _ & Hv).
  split; [by vm_compute|]. destruct Hv as (x' & E & Ec & _); [by vm_compute|]. exists x'. split; [exact E|]. rewrite Ec. by vm_compute.
Defined.

Lemma sema_no_lost_wakeup_witness :
  s_count two_woken = 1 ∧ s_pc two_woken 16 = SAwake ∧ Acc (λ y z, settle 4096 1 two z y) two_woken.
Proof.
  assert (sema_reachable 4096 1 two two_mem 1 two_woken) as Hr by (apply s_run_reachable, s_run_reachable; constructor).
  split; [by vm_compute|]. split; [by vm_compute|].
  exact (proj1 (sema_no_lost_wakeup 4096 1 two two_mem 1 ltac:(done) two_threads ltac:(lia) two_woken Hr)).
Defined.
