(* ===== verification/Condvar.v ===== *)
(** * Condition variables (uts/common/os/condvar.c)

    A condition variable is only a count of its waiters; the waiters are on
    the hashed sleep queues of SleepQ, which condition variables share.  The
    count is kept up to [CV_MAX_WAITERS] and then stays there until nobody is
    found.  The file has the operations on the pointers and counts, and
    proves that they are those of one list of waiters for each condition
    variable. *)

From Stdlib Require Import ZArith Lia Sorted.
From stdpp Require Import base numbers option functions gmap sorting list.
From S2P Require Import Prelude SleepQ.

#[local] Open Scope Z_scope.

Definition CV_MAX_WAITERS : Z := 1024.
Definition CV_WAITERS_MASK : Z := CV_MAX_WAITERS - 1.

(** [sleepq_head] has [NSLEEPQ] queues. *)
Definition NSLEEPQ : Z := 512.
Definition SQHASHINDEX (x : Z) : Z :=
  Z.land (wrapu 32 (Z.shiftr (wrapu 32 x) 2 + Z.shiftr (wrapu 32 x) 9)) (NSLEEPQ - 1).
Definition SQHASH (x : Z) : sqaddr := (0, SQHASHINDEX x).

(** The threads and queues, and [cv_waiters] of the condition variables. *)
Record cvstate := Cvs { cv_mem : smem; cv_waiters : gmap Z Z }.

Definition ushort (x : Z) : Z := wrapu 16 x.

Definition set_waiters (x : cvstate) (cvp w : Z) : cvstate := Cvs (cv_mem x) (<[cvp := ushort w]> (cv_waiters x)).
Definition set_cvmem (x : cvstate) (m : smem) : cvstate := Cvs m (cv_waiters x).

(** ** Operations *)

Definition cv_init (x : cvstate) (cvp : Z) : cvstate := set_waiters x cvp 0.

(** [pri] is the priority the scheduling class gives the sleeping thread
    ([CL_SLEEP]), [ops] is [&cv_sobj_ops]. *)
Definition cv_block (x : cvstate) (cvp t pri ops : Z) : option cvstate :=
  let! m := st (cv_mem x) t (λ k, set_t_chan cvp (t_wchan0 k) ops (set_t_pri pri k)) in
  let! w := cv_waiters x !! cvp in
  let x := if w <? CV_MAX_WAITERS then set_waiters x cvp (w + 1) else x in
  let! m := st m t (set_t_state TS_SLEEP) in
  let! m := sleepq_insert m (SQHASH cvp) t in
  Some (set_cvmem x m).

Inductive cvres := CvGo (x : cvstate) | CvPanic.

(** Called for a signal or a timeout ([setrun]). *)
Definition cv_unsleep (x : cvstate) (t : Z) : option cvres :=
  let! k := ld (cv_mem x) t in
  let cvp := t_wchan k in
  if cvp =? 0 then Some CvPanic
  else
    let! m := sleepq_unsleep (cv_mem x) t in
    let! w := cv_waiters x !! cvp in
    let x := if negb (w =? CV_MAX_WAITERS) then set_waiters x cvp (w - 1) else x in
    let! m := st m t (set_t_state TS_RUN) in
    Some (CvGo (set_cvmem x m)).

Definition cv_change_pri (x : cvstate) (t pri : Z) (inherited : bool) : option cvres :=
  let! k := ld (cv_mem x) t in
  if t_wchan k =? 0 then Some CvPanic
  else
    let! sqp := t_sleepq k in
    let! m := sleepq_dequeue (cv_mem x) t in
    let! m := st m t (if inherited then set_t_epri pri else set_t_pri pri) in
    let! m := sleepq_insert m sqp t in
    Some (CvGo (set_cvmem x m)).

(** The part of [cv_signal] under the lock of the queue, with the thread it
    wakes. *)
Definition signal_locked (x : cvstate) (cp : Z) : option (cvstate * list Z) :=
  let! w := cv_waiters x !! cp in
  let! (m, tp) := sleepq_wakeone_chan (cv_mem x) (SQHASH cp) cp in
  let ts := if tp =? 0 then [] else [tp] in
  if negb (Z.land w CV_WAITERS_MASK =? 0) then Some (set_cvmem (set_waiters x cp (w - 1)) m, ts)
  else if tp =? 0 then Some (set_cvmem (set_waiters x cp 0) m, ts)
  else Some (set_cvmem x m, ts).

Definition cv_signal (x : cvstate) (cvp : Z) : option (cvstate * list Z) :=
  let! w := cv_waiters x !! cvp in
  if 0 <? w then signal_locked x cvp else Some (x, []).

Definition broadcast_locked (x : cvstate) (cp : Z) : option (cvstate * list Z) :=
  let! (m, ts) := sleepq_wakeall_chan (cv_mem x) (SQHASH cp) cp in
  let! _ := cv_waiters x !! cp in
  Some (set_cvmem (set_waiters x cp 0) m, ts).

Definition cv_broadcast (x : cvstate) (cvp : Z) : option (cvstate * list Z) :=
  let! w := cv_waiters x !! cvp in
  if 0 <? w then broadcast_locked x cvp else Some (x, []).

(** ** One list for each condition variable *)

Record acv := Acv { cvq : gmap Z (list Z); cva : gmap Z attr }.

Definition a_block (cvp pri ops : Z) (a : attr) : attr :=
  Attr pri (a_epri a) cvp (a_wchan0 a) ops TS_SLEEP (a_ts a).
Definition a_setrun (a : attr) : attr := Attr (a_pri a) (a_epri a) 0 0 0 TS_RUN (a_ts a).

(** [CvSignalLocked] and [CvBroadcastLocked] are the rest of a call that has
    seen waiters earlier. *)
Inductive cv_op :=
  | CvInit (c : Z) | CvBlock (c t pri ops : Z) | CvSignal (c : Z) | CvSignalLocked (c : Z)
  | CvBroadcast (c : Z) | CvBroadcastLocked (c : Z) | CvUnsleep (t : Z) | CvChangePri (t pri : Z) (inherited : bool).

Definition cv_exec (x : cvstate) (o : cv_op) : option (cvstate * list Z) :=
  match o with
  | CvInit c => Some (cv_init x c, [])
  | CvBlock c t pri ops => let! x := cv_block x c t pri ops in Some (x, [])
  | CvSignal c => cv_signal x c
  | CvSignalLocked c => signal_locked x c
  | CvBroadcast c => cv_broadcast x c
  | CvBroadcastLocked c => broadcast_locked x c
  | CvUnsleep t => let! r := cv_unsleep x t in if r is CvGo x then Some (x, [t]) else None
  | CvChangePri t pri inh => let! r := cv_change_pri x t pri inh in if r is CvGo x then Some (x, []) else None
  end.

Definition waiting (a : acv) (c : Z) : list Z := default [] (cvq a !! c).

(** A waiter is put behind those of at least its priority, a signal wakes
    the first and a broadcast all of them. *)
Definition cv_spec (a : acv) (o : cv_op) : acv * list Z :=
  let 'Acv W A := a in
  match o with
  | CvInit c => (Acv (<[c := []]> W) A, [])
  | CvBlock c t pri ops =>
      let A' := alter (a_block c pri ops) t A in
      (Acv (<[c := sq_ins (aprio A') t (waiting a c)]> W) A', [])
  | CvSignal c | CvSignalLocked c =>
      let ts := take 1 (waiting a c) in (Acv (<[c := drop 1 (waiting a c)]> W) (wake_all A ts), ts)
  | CvBroadcast c | CvBroadcastLocked c => let ts := waiting a c in (Acv (<[c := []]> W) (wake_all A ts), ts)
  | CvUnsleep t =>
      let c := achan A t in (Acv (<[c := sq_del t (waiting a c)]> W) (alter a_setrun t A), [t])
  | CvChangePri t pri inh =>
      let c := achan A t in let A' := alter (a_setpri pri inh) t A in
      (Acv (<[c := sq_ins (aprio A') t (sq_del t (waiting a c))]> W) A', [])
  end.

(** What the callers keep to. *)
Definition cv_ok (a : acv) (o : cv_op) : Prop :=
  match o with
  | CvInit c => c ≠ 0 ∧ waiting a c = []
  | CvBlock c t pri _ => is_Some (cvq a !! c) ∧ is_Some (cva a !! t) ∧ map_Forall (λ _ l, t ∉ l) (cvq a) ∧ 0 <= pri
  | CvSignal c | CvSignalLocked c | CvBroadcast c | CvBroadcastLocked c => is_Some (cvq a !! c)
  | CvUnsleep t => t ∈ waiting a (achan (cva a) t)
  | CvChangePri t pri _ => t ∈ waiting a (achan (cva a) t) ∧ 0 <= pri
  end.

(** [Q] has the shared queues.  A count below the maximum is exact. *)
Record cvrep (x : cvstate) (a : acv) (Q : gmap sqaddr (list Z)) : Prop := {
  cr_rep : represents (cv_mem x) (Aqueues Q (cva a));
  cr_hash c : is_Some (Q !! SQHASH c);
  cr_list c : cvq a !! c = (λ _, on_chan (cva a) c (default [] (Q !! SQHASH c))) <$> cv_waiters x !! c;
  cr_count c w : cv_waiters x !! c = Some w →
    c ≠ 0 ∧ 0 <= w <= CV_MAX_WAITERS ∧ (w < CV_MAX_WAITERS → w = Z.of_nat (length (waiting a c)));
  cr_on q l t : Q !! q = Some l → t ∈ l → q = SQHASH (achan (cva a) t) ∧ is_Some (cv_waiters x !! achan (cva a) t)
}.

(** ** Lists of one channel *)

Lemma on_chan_ext A A' c l : (∀ u, u ∈ l → achan A' u = achan A u) → on_chan A' c l = on_chan A c l.
Proof.
  intros He. unfold on_chan. induction l as [|x l IH]; [done|]. rewrite !filter_cons, He by constructor.
  rewrite IH by (intros u Hu; apply He; by constructor). done.
Qed.

Lemma on_chan_ins (pr : Z → Z) A c t l : sq_sorted pr l →
  on_chan A c (sq_ins pr t l) = if decide (achan A t = c) then sq_ins pr t (on_chan A c l) else on_chan A c l.
Proof.
  intros Hs. induction Hs as [|x l Hs IH Hall].
  { cbn [sq_ins]. rewrite on_chan_cons. by case_decide. }
  cbn [sq_ins]. destruct (Z.ltb_spec (pr x) (pr t)) as [Hlt|Hle].
  - rewrite on_chan_cons. case_decide as Et; [|done].
    assert (∀ u, u ∈ on_chan A c (x :: l) → pr u < pr t) as Hlow.
    { intros u [_ Hu]%list_elem_of_filter. apply elem_of_cons in Hu as [->|Hu]; [done|].
      rewrite Forall_forall in Hall. specialize (Hall u Hu). lia. }
    symmetry. apply (sq_ins_at pr t [] (on_chan A c (x :: l))); [by intros ? ?%elem_of_nil|done].
  - rewrite !on_chan_cons, IH. destruct (decide (achan A t = c)), (decide (achan A x = c)); try done.
    cbn [sq_ins]. by destruct (Z.ltb_spec (pr x) (pr t)); [lia|].
Qed.

Lemma on_chan_del A c t l : on_chan A c (sq_del t l) = sq_del t (on_chan A c l).
Proof. unfold on_chan, sq_del. rewrite !list_filter_filter. apply list_filter_iff. tauto. Qed.

Lemma on_chan_del_other A c t l : achan A t ≠ c → on_chan A c (sq_del t l) = on_chan A c l.
Proof. intros Ht. rewrite on_chan_del. apply sq_del_id. unfold on_chan. rewrite list_elem_of_filter. tauto. Qed.

Lemma achan_alter f t A u : u ≠ t → achan (alter f t A) u = achan A u.
Proof. intros Hu. unfold achan. by rewrite lookup_alter_ne. Qed.

Lemma aprio_alter f t A u : u ≠ t → aprio (alter f t A) u = aprio A u.
Proof. intros Hu. unfold aprio. by rewrite lookup_alter_ne. Qed.

Lemma achan_wake A ts u : u ∉ ts → achan (wake_all A ts) u = achan A u.
Proof. intros Hu. unfold achan. by rewrite wake_all_lookup. Qed.

Lemma alter_alter (f g : attr → attr) t (A : gmap Z attr) : alter f t (alter g t A) = alter (λ a, f (g a)) t A.
Proof.
  apply map_eq. intros u. destruct (decide (u = t)) as [->|]; [|by rewrite !lookup_alter_ne].
  rewrite !lookup_alter_eq. by destruct (A !! t).
Qed.

(** Taking out threads of channel [c]. *)
Lemma on_chan_woken A c c' ts l : (∀ u, u ∈ ts → achan A u = c) →
  on_chan (wake_all A ts) c' (filter (λ t, t ∉ ts) l) =
  if decide (c' = c) then filter (λ t, t ∉ ts) (on_chan A c l) else on_chan A c' l.
Proof.
  intros Hts. rewrite (on_chan_ext A).
  2:{ intros u [Hu _]%list_elem_of_filter. by apply achan_wake. }
  unfold on_chan. rewrite list_filter_filter. case_decide as E; [subst; rewrite list_filter_filter; apply list_filter_iff; tauto|].
  apply list_filter_iff. intros u. split; [tauto|]. intros Hu. split; [done|]. intros Hin. apply E. by rewrite <- Hu, Hts.
Qed.

Lemma filter_head (l : list Z) : NoDup l → filter (λ t, t ∉ take 1 l) l = drop 1 l.
Proof.
  intros Hnd. destruct l as [|x l]; [done|]. apply NoDup_cons in Hnd as [Hx Hnd]. cbn [take drop].
  rewrite filter_cons_False by (intros H; apply H; constructor). rewrite take_0, drop_0.
  clear Hnd. induction l as [|y l IH]; [done|]. apply not_elem_of_cons in Hx as [Hy Hx].
  rewrite filter_cons_True by (rewrite list_elem_of_singleton; done). by rewrite IH.
Qed.

(** ** Each operation *)

Section ops.
Context (x : cvstate) (a : acv) (Q : gmap sqaddr (list Z)) (Hr : cvrep x a Q).

Lemma cr_waiting c w l : cv_waiters x !! c = Some w → Q !! SQHASH c = Some l → waiting a c = on_chan (cva a) c l.
Proof. intros Hw Hl. unfold waiting. by rewrite (cr_list _ _ _ Hr), Hw, Hl. Qed.

Lemma cr_some c : is_Some (cvq a !! c) → ∃ w l, cv_waiters x !! c = Some w ∧ Q !! SQHASH c = Some l ∧
  cvq a !! c = Some (on_chan (cva a) c l) ∧ waiting a c = on_chan (cva a) c l ∧
  c ≠ 0 ∧ 0 <= w <= CV_MAX_WAITERS ∧ (w < CV_MAX_WAITERS → w = Z.of_nat (length (on_chan (cva a) c l))).
Proof.
  intros Hc. rewrite (cr_list _ _ _ Hr) in Hc. apply fmap_is_Some in Hc as [w Hw].
  destruct (cr_hash _ _ _ Hr c) as [l Hl]. exists w, l. pose proof (cr_waiting c w l Hw Hl) as E.
  destruct (cr_count _ _ _ Hr c w Hw) as (H0 & Hb & Hx). rewrite E in Hx.
  split_and!; try done; try lia. by rewrite (cr_list _ _ _ Hr), Hw, Hl.
Qed.

(** The queue of [c] becomes [l'] and its count [w']; other condition
    variables are not affected. *)
Lemma cv_update x' A' c l l' w' :
  Q !! SQHASH c = Some l → is_Some (cv_waiters x !! c) → c ≠ 0 →
  represents (cv_mem x') (Aqueues (<[SQHASH c := l']> Q) A') →
  cv_waiters x' = <[c := w']> (cv_waiters x) →
  (∀ q l0 u, q ≠ SQHASH c → Q !! q = Some l0 → u ∈ l0 → achan A' u = achan (cva a) u) →
  (∀ c', c' ≠ c → on_chan A' c' l' = on_chan (cva a) c' l) →
  (∀ u, u ∈ l' → SQHASH (achan A' u) = SQHASH c ∧ is_Some (cv_waiters x !! achan A' u)) →
  0 <= w' <= CV_MAX_WAITERS → (w' < CV_MAX_WAITERS → w' = Z.of_nat (length (on_chan A' c l'))) →
  cvrep x' (Acv (<[c := on_chan A' c l']> (cvq a)) A') (<[SQHASH c := l']> Q).
Proof.
  intros Hl Hc Hc0 Hrep Ew Hsame Hother Hon Hw Hx.
  assert (∀ c', c' ≠ c → cvq a !! c' = (λ _, on_chan A' c' (default [] (<[SQHASH c := l']> Q !! SQHASH c'))) <$> cv_waiters x !! c') as Hls.
  { intros c' Hne. rewrite (cr_list _ _ _ Hr). destruct (cv_waiters x !! c'); [|done]. cbn. f_equal.
    destruct (decide (SQHASH c' = SQHASH c)) as [E|E].
    - rewrite E, Hl, lookup_insert_eq. symmetry. by apply Hother.
    - rewrite lookup_insert_ne by done. destruct (cr_hash _ _ _ Hr c') as [l0 Hl0]. rewrite Hl0. symmetry.
      apply on_chan_ext. intros u Hu. by eapply Hsame. }
  split; cbn; [done| | | |].
  - intros c'. destruct (decide (SQHASH c' = SQHASH c)) as [E|E]; [rewrite E, lookup_insert_eq; by eexists|].
    rewrite lookup_insert_ne by done. apply (cr_hash _ _ _ Hr).
  - intros c'. rewrite Ew. destruct (decide (c' = c)) as [->|Hne]; [by rewrite !lookup_insert_eq|].
    rewrite (lookup_insert_ne (cvq a)), (lookup_insert_ne (cv_waiters x)) by done. by apply Hls.
  - intros c' w''. rewrite Ew. unfold waiting. cbn. destruct (decide (c' = c)) as [->|Hne].
    + rewrite !lookup_insert_eq. intros [= <-]. done.
    + rewrite !lookup_insert_ne by done. apply (cr_count _ _ _ Hr).
  - intros q l0 u. rewrite Ew. assert (∀ c', is_Some (cv_waiters x !! c') → is_Some (<[c := w']> (cv_waiters x) !! c')) as Hi.
    { intros c'. destruct (decide (c' = c)) as [->|Hne]; [rewrite lookup_insert_eq; by eexists|by rewrite lookup_insert_ne]. }
    destruct (decide (q = SQHASH c)) as [->|Hne].
    + rewrite lookup_insert_eq. intros [= <-] Hu. destruct (Hon u Hu) as [-> ?]. auto.
    + rewrite lookup_insert_ne by done. intros Hl0 Hu. rewrite (Hsame q l0 u Hne Hl0 Hu).
      destruct (cr_on _ _ _ Hr q l0 u Hl0 Hu) as [-> ?]. auto.
Qed.

(** A thread on no queue. *)
Lemma off_queue m Q' A' t : represents m (Aqueues Q' A') → is_Some (A' !! t) → (∀ q l, Q' !! q = Some l → t ∉ l) →
  ∃ k, ld m t = Some k ∧ t_sleepq k = None ∧ 0 <= t_pri k ∧ 0 <= t_epri k.
Proof.
  intros Hm Ht Hoff. rewrite (rp_lookup m Q' A' Hm) in Ht. destruct (ld m t) as [k|] eqn:Hk; [|by destruct Ht].
  pose proof (sleepqs_on m Q' t k (rp_q _ _ Hm) Hk) as Hon. pose proof (sq_thread _ _ (rp_q _ _ Hm) t k Hk).
  exists k. split_and!; try done; try tauto. destruct (t_sleepq k) as [q|]; [|done]. destruct Hon as (l & Hl & Hin). by destruct (Hoff q l Hl).
Qed.

(** The threads of a queue are waiting for their channel. *)
Lemma on_waiting q l t : Q !! q = Some l → t ∈ l → t ∈ waiting a (achan (cva a) t).
Proof.
  intros Hl Ht. destruct (cr_on _ _ _ Hr q l t Hl Ht) as [-> [w Hw]]. rewrite (cr_waiting _ w l Hw Hl).
  by apply list_elem_of_filter.
Qed.

Lemma waiting_on c t : t ∈ waiting a c → ∃ l w, Q !! SQHASH c = Some l ∧ cv_waiters x !! c = Some w ∧ t ∈ l ∧ achan (cva a) t = c.
Proof.
  intros Ht. unfold waiting in Ht. rewrite (cr_list _ _ _ Hr) in Ht. destruct (cv_waiters x !! c) as [w|] eqn:Hw; [|by apply elem_of_nil in Ht].
  destruct (cr_hash _ _ _ Hr c) as [l Hl]. rewrite Hl in Ht. apply list_elem_of_filter in Ht as [Hc Ht]. eauto 10.
Qed.

(** Threads elsewhere keep their channel when [t] of queue [q] changes. *)
Lemma elsewhere f q l t : Q !! q = Some l → t ∈ l →
  ∀ q' l0 u, q' ≠ q → Q !! q' = Some l0 → u ∈ l0 → achan (alter f t (cva a)) u = achan (cva a) u.
Proof.
  intros Hl Ht q' l0 u Hq Hl0 Hu. apply achan_alter. intros ->.
  destruct (rp_on _ _ _ (cr_rep _ _ _ Hr) q l t Hl Ht) as (k & Hk & Hk1 & _).
  destruct (rp_on _ _ _ (cr_rep _ _ _ Hr) q' l0 t Hl0 Hu) as (k' & Hk' & Hk1' & _). congruence.
Qed.

Lemma cv_init_ok c : c ≠ 0 → waiting a c = [] → cvrep (cv_init x c) (Acv (<[c := []]> (cvq a)) (cva a)) Q.
Proof.
  intros Hc0 Hc. destruct (cr_hash _ _ _ Hr c) as [l Hl].
  assert (on_chan (cva a) c l = []) as E.
  { destruct (cv_waiters x !! c) as [w|] eqn:Hw; [by rewrite <- (cr_waiting c w l Hw Hl)|].
    destruct (on_chan (cva a) c l) as [|u l'] eqn:Eu; [done|]. assert (u ∈ on_chan (cva a) c l) as Hu by (rewrite Eu; constructor).
    apply list_elem_of_filter in Hu as [Hu Hin]. destruct (cr_on _ _ _ Hr _ l u Hl Hin) as [_ [w Hw']]. congruence. }
  split; cbn; [apply Hr|apply Hr| | |].
  - intros c'. destruct (decide (c' = c)) as [->|Hne]; [rewrite !lookup_insert_eq, Hl; cbn; by f_equal|].
    rewrite !lookup_insert_ne by done. apply (cr_list _ _ _ Hr).
  - intros c' w. unfold waiting. cbn. destruct (decide (c' = c)) as [->|Hne].
    + rewrite !lookup_insert_eq. intros [= <-]. done.
    + rewrite !lookup_insert_ne by done. apply (cr_count _ _ _ Hr).
  - intros q l0 u Hl0 Hu. destruct (cr_on _ _ _ Hr q l0 u Hl0 Hu) as [-> Hw]. split; [done|].
    destruct (decide (achan (cva a) u = c)) as [->|Hne]; [rewrite lookup_insert_eq; by eexists|by rewrite lookup_insert_ne].
Qed.

Lemma mask_zero w : 0 <= w <= CV_MAX_WAITERS → Z.land w CV_WAITERS_MASK = 0 ↔ w = 0 ∨ w = CV_MAX_WAITERS.
Proof.
  intros Hw. change CV_WAITERS_MASK with (Z.ones 10). rewrite Z.land_ones by lia. unfold CV_MAX_WAITERS in *.
  destruct (decide (w = 1024)) as [->|]; [split; [by right|done]|]. rewrite Z.mod_small by lia. lia.
Qed.

Lemma ushort_id w : 0 <= w <= CV_MAX_WAITERS → ushort w = w.
Proof. unfold CV_MAX_WAITERS. intros Hw. apply wrapu_id. lia. Qed.

(** Threads [ts] of [c] have been woken and taken off the queue. *)
Lemma woken_ok x' c l w w' ts : cv_waiters x !! c = Some w → Q !! SQHASH c = Some l → c ≠ 0 →
  (∀ u, u ∈ ts → u ∈ on_chan (cva a) c l) →
  represents (cv_mem x') (Aqueues (<[SQHASH c := filter (λ t, t ∉ ts) l]> Q) (wake_all (cva a) ts)) →
  cv_waiters x' = <[c := w']> (cv_waiters x) → 0 <= w' <= CV_MAX_WAITERS →
  (w' < CV_MAX_WAITERS → w' = Z.of_nat (length (filter (λ t, t ∉ ts) (on_chan (cva a) c l)))) →
  cvrep x' (Acv (<[c := filter (λ t, t ∉ ts) (on_chan (cva a) c l)]> (cvq a)) (wake_all (cva a) ts))
    (<[SQHASH c := filter (λ t, t ∉ ts) l]> Q).
Proof.
  intros Hw Hl Hc0 Hts Hrep Ew Hb Hx.
  assert (∀ u, u ∈ ts → achan (cva a) u = c) as Hch by (intros u Hu; by apply Hts, list_elem_of_filter in Hu as [? _]).
  pose proof (on_chan_woken (cva a) c c ts l Hch) as Ec. rewrite decide_True in Ec by done. rewrite <- Ec in Hx |- *.
  apply (cv_update x' _ c l _ w'); try done.
  - intros q l0 u Hq Hl0 Hu. apply achan_wake. intros Hin%Hts%list_elem_of_filter. destruct Hin as [Hin _].
    destruct (cr_on _ _ _ Hr q l0 u Hl0 Hu) as [-> _]. by rewrite Hin in Hq.
  - intros c' Hne. by rewrite (on_chan_woken _ c), decide_False by done.
  - intros u [Hnu Hu]%list_elem_of_filter. rewrite achan_wake by done. by destruct (cr_on _ _ _ Hr _ l u Hl Hu) as [<- ?].
Qed.

Lemma signal_locked_ok c : is_Some (cvq a !! c) →
  ∃ x' Q', signal_locked x c = Some (x', take 1 (waiting a c)) ∧
    cvrep x' (Acv (<[c := drop 1 (waiting a c)]> (cvq a)) (wake_all (cva a) (take 1 (waiting a c)))) Q'.
Proof.
  intros Hc. destruct (cr_some c Hc) as (w & l & Hw & Hl & _ & -> & Hc0 & Hb & Hx). unfold signal_locked. rewrite Hw.
  destruct (wakeone_ok _ Q (cva a) (SQHASH c) l c (cr_rep _ _ _ Hr) Hl) as (m' & t & -> & Ets & Hrep). cbv zeta in Ets, Hrep.
  set (W := on_chan (cva a) c l) in *. rewrite Ets.
  assert (NoDup W) as HW by (apply NoDup_filter, (rp_nodup _ _ _ (cr_rep _ _ _ Hr) _ l Hl)).
  rewrite <- (filter_head W HW).
  assert (∀ u, u ∈ take 1 W → u ∈ W) as Hsub by (intros u (i & Hu & _)%elem_of_take; by eapply list_elem_of_lookup_2).
  assert (length (filter (λ t, t ∉ take 1 W) W) = (length W - 1)%nat) as Elen by (by rewrite filter_head, length_drop).
  assert (t = 0 ↔ W = []) as Ht0. { clear -Ets. destruct (Z.eqb_spec t 0), W; naive_solver. }
  destruct (Z.eqb_spec (Z.land w CV_WAITERS_MASK) 0) as [Em|Em]; cbn [negb].
  - apply mask_zero in Em; [|done]. destruct (Z.eqb_spec t 0) as [Et|Et].
    + do 2 eexists. split; [done|]. eapply woken_ok; try done.
      intros _. fold W. rewrite Elen, (proj1 Ht0 Et). done.
    + assert (w = CV_MAX_WAITERS) as ->.
      { destruct Em as [->|]; [|done]. exfalso. apply Et, Ht0. destruct W; [done|]. specialize (Hx ltac:(done)). cbn in Hx. lia. }
      do 2 eexists. split; [done|]. eapply woken_ok; try done. cbn. by rewrite insert_id.
  - rewrite mask_zero in Em by done.
    do 2 eexists. split; [done|]. eapply woken_ok; try done; rewrite ushort_id by lia; [lia|].
    intros _. fold W. rewrite Elen. lia.
Qed.

Lemma broadcast_locked_ok c : is_Some (cvq a !! c) →
  ∃ x' Q', broadcast_locked x c = Some (x', waiting a c) ∧
    cvrep x' (Acv (<[c := []]> (cvq a)) (wake_all (cva a) (waiting a c))) Q'.
Proof.
  intros Hc. destruct (cr_some c Hc) as (w & l & Hw & Hl & _ & -> & Hc0 & Hb & Hx). unfold broadcast_locked.
  destruct (wakeall_ok _ Q (cva a) (SQHASH c) l c (cr_rep _ _ _ Hr) Hl) as (m' & -> & Hrep). rewrite Hw.
  set (W := on_chan (cva a) c l) in *.
  assert (filter (λ t, t ∉ W) W = []) as E.
  { destruct (filter _ W) as [|u l'] eqn:Eu; [done|]. assert (u ∈ filter (λ t, t ∉ W) W) as Hu by (rewrite Eu; constructor).
    apply list_elem_of_filter in Hu. tauto. }
  do 2 eexists. split; [done|]. rewrite <- E at 1. eapply woken_ok; try done.
  intros _. fold W. by rewrite E.
Qed.

(** Without waiters there is nothing to do. *)
Lemma no_waiters c : cv_waiters x !! c = Some 0 →
  waiting a c = [] ∧ Acv (<[c := []]> (cvq a)) (cva a) = a.
Proof.
  intros Hw. destruct (cr_count _ _ _ Hr c 0 Hw) as (_ & _ & E). specialize (E ltac:(done)).
  destruct (waiting a c) eqn:Ewt; [|cbn in E; lia]. split; [done|]. destruct a as [W A]. unfold waiting in Ewt. cbn in *. f_equal.
  apply insert_id. pose proof (cr_list _ _ _ Hr c) as Hl. cbn in Hl. rewrite Hw in Hl. rewrite Hl in Ewt |- *. cbn in *. by rewrite Ewt.
Qed.

Lemma block_ok c t pri ops :
  is_Some (cvq a !! c) → is_Some (cva a !! t) → map_Forall (λ _ l, t ∉ l) (cvq a) → 0 <= pri →
  let A' := alter (a_block c pri ops) t (cva a) in
  ∃ x' Q', cv_block x c t pri ops = Some x' ∧ cvrep x' (Acv (<[c := sq_ins (aprio A') t (waiting a c)]> (cvq a)) A') Q'.
Proof.
  intros Hc Ht Hoff Hpri A'. destruct (cr_some c Hc) as (w & l & Hw & Hl & _ & -> & Hc0 & Hb & Hx).
  assert (∀ q l, Q !! q = Some l → t ∉ l) as Hnot.
  { intros q l0 Hl0 Hin. pose proof (on_waiting q l0 t Hl0 Hin) as Hwt. unfold waiting in Hwt.
    destruct (cvq a !! achan (cva a) t) as [l1|] eqn:E; [by apply (Hoff _ _ E)|by apply elem_of_nil in Hwt]. }
  pose proof (cr_rep _ _ _ Hr) as Hm. destruct (off_queue _ _ _ t Hm Ht Hnot) as (k & Hk & Hkq & Hkp & Hke).
  unfold cv_block. set (f := λ k, set_t_chan c (t_wchan0 k) ops (set_t_pri pri k)).
  set (g := λ a, Attr pri (a_epri a) c (a_wchan0 a) ops (a_state a) (a_ts a)).
  destruct (rp_idle _ _ _ t f g k Hm Hk Hkq) as [-> Hm1]; [done|by cbn|done|]. rewrite Hw.
  assert (ld (upd (cv_mem x) t f) t = Some (f k)) as Hk1 by (rewrite ld_upd, decide_True, Hk by done; done).
  set (g2 := λ a, Attr (a_pri a) (a_epri a) (a_wchan a) (a_wchan0 a) (a_ops a) TS_SLEEP (a_ts a)).
  destruct (rp_idle _ _ _ t (set_t_state TS_SLEEP) g2 (f k) Hm1 Hk1) as [-> Hm2]; [by cbn..|].
  assert (alter g2 t (alter g t (cva a)) = A') as EA by (unfold A'; rewrite alter_alter; by apply alter_ext).
  rewrite EA in Hm2. assert (is_Some (A' !! t)) as HtA by (unfold A'; by apply lookup_alter_is_Some).
  destruct (rp_insert _ Q A' (SQHASH c) l t Hm2 Hl HtA Hnot) as (m' & -> & Hrep).
  assert (achan A' t = c) as Hct by (unfold achan, A'; destruct Ht as [b Hbt]; by rewrite lookup_alter_eq, Hbt).
  assert (∀ u, u ≠ t → achan A' u = achan (cva a) u) as Hch by (intros; by apply achan_alter).
  assert (∀ q l0 u, Q !! q = Some l0 → u ∈ l0 → u ≠ t) as Hne by (intros q l0 u Hl0 Hu ->; by apply (Hnot q l0)).
  assert (∀ c', on_chan A' c' l = on_chan (cva a) c' l) as Hol by (intros c'; apply on_chan_ext; intros u Hu; by eapply Hch, Hne).
  pose proof (rp_sorted _ _ _ Hm2 _ l Hl) as Hso.
  pose proof (on_chan_ins (aprio A') A' c t l Hso) as Ec. rewrite decide_True, Hol in Ec by done. rewrite <- Ec.
  do 2 eexists. split; [done|]. apply (cv_update _ _ c l _ (if w <? CV_MAX_WAITERS then w + 1 else w)); try done.
  - destruct (Z.ltb_spec w CV_MAX_WAITERS); cbn; [by rewrite ushort_id by lia|by rewrite insert_id].
  - intros q l0 u _ Hl0 Hu. by eapply Hch, Hne.
  - intros c' Hne'. rewrite (on_chan_ins _ _ _ _ _ Hso), decide_False by congruence. apply Hol.
  - intros u [->|Hu]%sq_ins_elem; [rewrite Hct; split; [done|by eexists]|]. rewrite Hch by (by eapply Hne).
    by destruct (cr_on _ _ _ Hr _ l u Hl Hu) as [<- ?].
  - destruct (Z.ltb_spec w CV_MAX_WAITERS); lia.
  - rewrite Ec, sq_ins_length. destruct (Z.ltb_spec w CV_MAX_WAITERS); lia.
Qed.

Lemma unsleep_ok t : let c := achan (cva a) t in t ∈ waiting a c →
  ∃ x' Q', cv_unsleep x t = Some (CvGo x') ∧ cvrep x' (Acv (<[c := sq_del t (waiting a c)]> (cvq a)) (alter a_setrun t (cva a))) Q'.
Proof.
  intros c Ht. destruct (waiting_on c t Ht) as (l & w & Hl & Hw & Hin & _). pose proof (cr_rep _ _ _ Hr) as Hm.
  destruct (rp_on _ _ _ Hm _ l t Hl Hin) as (k & Hk & Hkq & _). unfold cv_unsleep. rewrite Hk.
  assert (t_wchan k = c) as -> by (unfold c; by rewrite (rp_chan _ _ _ Hm t k Hk)).
  destruct (cr_count _ _ _ Hr c w Hw) as (Hc0 & Hb & Hx). apply Z.eqb_neq in Hc0 as Hc0'. rewrite Hc0'.
  destruct (rp_unsleep _ _ _ _ l t Hm Hl Hin) as (m1 & -> & Hm1). rewrite Hw.
  set (A' := alter a_setrun t (cva a)). rewrite (cr_waiting c w l Hw Hl) in Hx |- *.
  assert (∀ q l0, <[SQHASH c := sq_del t l]> Q !! q = Some l0 → t ∉ l0) as Hnot.
  { intros q l0. destruct (decide (q = SQHASH c)) as [->|Hq].
    - rewrite lookup_insert_eq. intros [= <-]. rewrite sq_del_elem. tauto.
    - rewrite lookup_insert_ne by done. intros Hl0 Hu. destruct (rp_on _ _ _ Hm q l0 t Hl0 Hu) as (k' & Hk' & Hq' & _). congruence. }
  destruct (off_queue m1 _ _ t Hm1) as (k1 & Hk1 & Hkq1 & Hp1); [by apply lookup_alter_is_Some; rewrite (rp_lookup _ _ _ Hm), Hk; eexists|done|].
  set (g2 := λ a, Attr (a_pri a) (a_epri a) (a_wchan a) (a_wchan0 a) (a_ops a) TS_RUN (a_ts a)).
  destruct (rp_idle m1 _ _ t (set_t_state TS_RUN) g2 k1 Hm1 Hk1 Hkq1) as [-> Hm2]; [done|done|done|].
  assert (alter g2 t (alter a_unsleep t (cva a)) = A') as EA by (unfold A'; rewrite alter_alter; by apply alter_ext).
  rewrite EA in Hm2.
  assert (∀ u, u ≠ t → achan A' u = achan (cva a) u) as Hch by (intros; by apply achan_alter).
  assert (∀ c', on_chan A' c' (sq_del t l) = sq_del t (on_chan (cva a) c' l)) as Hol.
  { intros c'. rewrite (on_chan_ext (cva a)); [apply on_chan_del|]. intros u [Hu _]%sq_del_elem. by apply Hch. }
  rewrite <- Hol. do 2 eexists. split; [done|].
  assert (length (sq_del t (on_chan (cva a) c l)) = (length (on_chan (cva a) c l) - 1)%nat ∧ (0 < length (on_chan (cva a) c l))%nat) as [Elen Epos].
  { apply sq_del_length; [apply NoDup_filter, (rp_nodup _ _ _ Hm _ l Hl)|by apply list_elem_of_filter]. }
  apply (cv_update _ _ c l _ (if w =? CV_MAX_WAITERS then w else w - 1)); try done.
  - destruct (Z.eqb_spec w CV_MAX_WAITERS); cbn; [by rewrite insert_id|]. rewrite ushort_id; [done|]. lia.
  - intros q l0 u Hq Hl0 Hu. by eapply (elsewhere _ _ l t).
  - intros c' Hne'. rewrite Hol. apply sq_del_id. unfold on_chan. rewrite list_elem_of_filter. intros [E _]. by apply Hne'.
  - intros u [Hu Hul]%sq_del_elem. rewrite Hch by done. by destruct (cr_on _ _ _ Hr _ l u Hl Hul) as [<- ?].
  - destruct (Z.eqb_spec w CV_MAX_WAITERS); lia.
  - rewrite Hol, Elen. destruct (Z.eqb_spec w CV_MAX_WAITERS); lia.
Qed.

Lemma cv_change_pri_ok t pri inh : let c := achan (cva a) t in t ∈ waiting a c → 0 <= pri →
  let A' := alter (a_setpri pri inh) t (cva a) in
  ∃ x' Q', cv_change_pri x t pri inh = Some (CvGo x') ∧
    cvrep x' (Acv (<[c := sq_ins (aprio A') t (sq_del t (waiting a c))]> (cvq a)) A') Q'.
Proof.
  intros c Ht Hpri A'. destruct (waiting_on c t Ht) as (l & w & Hl & Hw & Hin & _). pose proof (cr_rep _ _ _ Hr) as Hm.
  destruct (rp_on _ _ _ Hm _ l t Hl Hin) as (k & Hk & Hkq & _). unfold cv_change_pri. rewrite Hk.
  assert (t_wchan k = c) as -> by (unfold c; by rewrite (rp_chan _ _ _ Hm t k Hk)).
  destruct (cr_count _ _ _ Hr c w Hw) as (Hc0 & Hb & Hx). apply Z.eqb_neq in Hc0 as Hc0'. rewrite Hc0', Hkq.
  destruct (rp_change_pri _ _ _ _ l t pri inh Hm Hl Hin Hpri) as (m' & Hcp & Hrep). fold A' in Hrep.
  unfold turnstile_change_pri in Hcp. rewrite Hk, Hkq in Hcp. rewrite (cr_waiting c w l Hw Hl) in Hx |- *.
  assert (∀ u, u ≠ t → achan A' u = achan (cva a) u) as Hch by (intros; by apply achan_alter).
  assert (achan A' t = c) as Hct.
  { unfold achan, A', c. rewrite lookup_alter_eq. unfold achan. by destruct (cva a !! t). }
  assert (∀ u, achan A' u = achan (cva a) u) as Hch'. { intros u. destruct (decide (u = t)) as [->|]; [by rewrite Hct|by apply Hch]. }
  assert (sq_sorted (aprio A') (sq_del t l)) as Hso.
  { apply (sq_sorted_ext (aprio (cva a))); [|apply sq_sorted_del, (rp_sorted _ _ _ Hm _ l Hl)].
    intros u [Hu _]%sq_del_elem. by apply aprio_alter. }
  assert (on_chan A' c (sq_ins (aprio A') t (sq_del t l)) = sq_ins (aprio A') t (sq_del t (on_chan (cva a) c l))) as Ec.
  { rewrite on_chan_ins, decide_True by done. f_equal. rewrite (on_chan_ext (cva a)) by (intros; apply Hch'). apply on_chan_del. }
  rewrite <- Ec.
  assert (length (sq_del t (on_chan (cva a) c l)) = (length (on_chan (cva a) c l) - 1)%nat ∧ (0 < length (on_chan (cva a) c l))%nat) as [Elen Epos].
  { apply sq_del_length; [apply NoDup_filter, (rp_nodup _ _ _ Hm _ l Hl)|by apply list_elem_of_filter]. }
  destruct (sleepq_dequeue (cv_mem x) t) as [m1|]; [|done]. destruct (st m1 t _) as [m2|]; [|done]. rewrite Hcp.
  do 2 eexists. split; [done|]. apply (cv_update _ _ c l _ w); try done.
  - cbn. by rewrite insert_id.
  - intros c' Hne'. rewrite on_chan_ins, decide_False by congruence. rewrite (on_chan_ext (cva a)) by (intros; apply Hch').
    apply on_chan_del_other. intros E. by apply Hne'.
  - intros u Hu. rewrite Hch'. assert (u ∈ l) as Hul.
    { apply sq_ins_elem in Hu as [->|[_ Hu]%sq_del_elem]; done. }
    by destruct (cr_on _ _ _ Hr _ l u Hl Hul) as [<- ?].
  - rewrite Ec, sq_ins_length, Elen. lia.
Qed.
End ops.

Lemma cv_exec_ok x a Q o : cvrep x a Q → cv_ok a o →
  ∃ x' Q', cv_exec x o = Some (x', snd (cv_spec a o)) ∧ cvrep x' (fst (cv_spec a o)) Q'.
Proof.
  intros Hr Hok.
  assert (∀ c, is_Some (cvq a !! c) → (cv_waiters x !! c = Some 0 ∧ waiting a c = [] ∧ cvrep x (Acv (<[c := []]> (cvq a)) (cva a)) Q) ∨
    ∃ w, cv_waiters x !! c = Some w ∧ (0 <? w) = true) as Hcase.
  { intros c Hc. destruct (cr_some _ _ _ Hr c Hc) as (w & l & Hw & _ & _ & _ & _ & Hb & _).
    destruct (decide (w = 0)) as [->|]; [left|right; exists w; split; [done|by apply Z.ltb_lt; lia]].
    destruct (no_waiters _ _ _ Hr c Hw) as [-> ->]. done. }
  destruct a as [W A]. destruct o as [c|c t pri ops|c|c|c|c|t|t pri inh]; cbn [cv_ok cv_exec cv_spec fst snd] in Hok |- *.
  - exists (cv_init x c), Q. split; [done|]. destruct Hok as [Hc0 Hc]. exact (cv_init_ok _ _ _ Hr c Hc0 Hc).
  - destruct Hok as (Hc & Ht & Hoff & Hp). destruct (block_ok _ _ _ Hr c t pri ops Hc Ht Hoff Hp) as (x' & Q' & -> & H).
    by exists x', Q'.
  - unfold cv_signal. destruct (Hcase c Hok) as [(Hw & E & H)|(w & Hw & Hpos)]; rewrite Hw.
    + exists x, Q. by rewrite E.
    + rewrite Hpos. destruct (signal_locked_ok _ _ _ Hr c Hok) as (x' & Q' & -> & H). by exists x', Q'.
  - destruct (signal_locked_ok _ _ _ Hr c Hok) as (x' & Q' & -> & H). by exists x', Q'.
  - unfold cv_broadcast. destruct (Hcase c Hok) as [(Hw & E & H)|(w & Hw & Hpos)]; rewrite Hw.
    + exists x, Q. by rewrite E.
    + rewrite Hpos. destruct (broadcast_locked_ok _ _ _ Hr c Hok) as (x' & Q' & -> & H). by exists x', Q'.
  - destruct (broadcast_locked_ok _ _ _ Hr c Hok) as (x' & Q' & -> & H). by exists x', Q'.
  - destruct (unsleep_ok _ _ _ Hr t Hok) as (x' & Q' & -> & H). by exists x', Q'.
  - destruct Hok as [Ht Hp]. destruct (cv_change_pri_ok _ _ _ Hr t pri inh Ht Hp) as (x' & Q' & -> & H). by exists x', Q'.
Qed.

(** ** Sequences of operations from boot *)

Definition heads : list sqaddr := (λ i, (0, i)) <$> seqZ 0 NSLEEPQ.

(** The zeroed [sleepq_head]. *)
Definition cv_boot (th : gmap Z kthread) : cvstate := Cvs (Smem th (list_to_map ((λ q, (q, 0)) <$> heads))) ∅.

Fixpoint cv_execs (x : cvstate) (os : list cv_op) : option (cvstate * list (list Z)) :=
  match os with
  | [] => Some (x, [])
  | o :: os =>
      let! (x, ts) := cv_exec x o in
      let! (x, tss) := cv_execs x os in
      Some (x, ts :: tss)
  end.

Fixpoint cv_specs (a : acv) (os : list cv_op) : acv * list (list Z) :=
  match os with
  | [] => (a, [])
  | o :: os => let '(a, ts) := cv_spec a o in let '(a, tss) := cv_specs a os in (a, ts :: tss)
  end.

Fixpoint cvs_ok (a : acv) (os : list cv_op) : Prop :=
  match os with
  | [] => True
  | o :: os => cv_ok a o ∧ cvs_ok (fst (cv_spec a o)) os
  end.

#[export] Instance cv_ok_dec a o : Decision (cv_ok a o).
Proof. destruct o; cbn; apply _. Defined.
#[export] Instance cvs_ok_dec a os : Decision (cvs_ok a os).
Proof. revert a. induction os as [|o os IH]; intros a; cbn; apply _. Defined.

Lemma heads_lookup {B} (v : B) q :
  (list_to_map ((λ q, (q, v)) <$> heads) : gmap sqaddr B) !! q = if decide (q ∈ heads) then Some v else None.
Proof.
  induction heads as [|q' l IH]; [by rewrite decide_False by apply not_elem_of_nil|]. cbn.
  destruct (decide (q = q')) as [->|Hq]; [rewrite lookup_insert_eq, decide_True; [done|constructor]|].
  rewrite lookup_insert_ne, IH by done. destruct (decide (q ∈ l)); [rewrite decide_True by (by constructor)|
    rewrite decide_False by (rewrite elem_of_cons; tauto)]; done.
Qed.

Lemma SQHASH_head c : SQHASH c ∈ heads.
Proof.
  unfold SQHASH, heads. apply list_elem_of_fmap. eexists. split; [done|]. apply elem_of_seqZ. unfold SQHASHINDEX, NSLEEPQ.
  change (512 - 1) with (Z.ones 9). rewrite Z.land_ones by lia. change (2 ^ 9) with 512. apply Z.mod_pos_bound. lia.
Qed.

Lemma cv_boot_rep th :
  (∀ t k, th !! t = Some k → t ≠ 0 ∧ t_sleepq k = None ∧ 0 <= t_pri k ∧ 0 <= t_epri k) →
  cvrep (cv_boot th) (Acv ∅ (base <$> th)) (list_to_map ((λ q, (q, [])) <$> heads)).
Proof.
  intros Hth. unfold cv_boot. pose proof (@heads_lookup Z 0) as Hz. pose proof (@heads_lookup (list Z) []) as Hn.
  pose proof SQHASH_head as Hh. revert Hz Hn Hh. generalize heads. intros hs.
  generalize (list_to_map ((λ q, (q, 0)) <$> hs) : gmap sqaddr Z) (list_to_map ((λ q, (q, [])) <$> hs) : gmap sqaddr (list Z)).
  intros Z0 Q Hz Hn Hh.
  assert (∀ t q, fld t_sleepq (Smem th Z0) t ≠ Some (Some q)) as Hoff.
  { intros t q. unfold fld, ld. cbn. destruct (th !! t) as [k|] eqn:E; [|done]. cbn. destruct (Hth t k E) as (_ & -> & _). done. }
  split; cbn; try done.
  - split; [|done]. split.
    + intros q l. cbn. rewrite Hn. case_decide as Hq; [|done]. intros [= <-]. exists []. split; [done|].
      split; cbn; [by rewrite Hz, decide_True|done|apply levels_nil|constructor|].
      intros t. split; [by intros ?%elem_of_nil|]. intros H. by destruct (Hoff t q).
    + intros t k Hk. destruct (Hth t k Hk) as (? & _ & ?). done.
    + intros t q H. by destruct (Hoff t q).
  - intros c. rewrite Hn, decide_True by apply Hh. by eexists.
  - intros q l t. rewrite Hn. case_decide; [|done]. intros [= <-] ?%elem_of_nil. done.
Qed.

(** C7: condition variables that share hashed queues and count their waiters
    only up to a limit behave like one list of waiters each.  For any
    sequence of waits, signals, broadcasts, wakeups by signal or timeout and
    changes of priority, each operation ends without a bad pointer and wakes
    exactly the threads of the specification: a signal the first of the
    waiters of that condition variable, in order of priority, whenever it has
    one, however many there are and whatever else is on the queue. *)
Theorem cv_refines th os :
  (∀ t k, th !! t = Some k → t ≠ 0 ∧ t_sleepq k = None ∧ 0 <= t_pri k ∧ 0 <= t_epri k) →
  cvs_ok (Acv ∅ (base <$> th)) os →
  ∃ x' Q, cv_execs (cv_boot th) os = Some (x', snd (cv_specs (Acv ∅ (base <$> th)) os)) ∧
    cvrep x' (fst (cv_specs (Acv ∅ (base <$> th)) os)) Q.
Proof.
  intros Hth. generalize (cv_boot_rep th Hth). generalize (cv_boot th) (Acv ∅ (base <$> th)).
  generalize (list_to_map ((λ q, (q, [])) <$> heads) : gmap sqaddr (list Z)). clear Hth.
  induction os as [|o os IH]; intros Q x a Hr Hok; [by exists x, Q|]. destruct Hok as [Ho Hos].
  destruct (cv_exec_ok x a Q o Hr Ho) as (x1 & Q1 & E & Hr1). cbn [cv_execs cv_specs]. rewrite E.
  destruct (cv_spec a o) as [a1 ts]. destruct (IH Q1 x1 a1 Hr1 Hos) as (x2 & Q2 & -> & Hr2). cbn [fst snd] in *.
  destruct (cv_specs a1 os) as [a2 tss]. by exists x2, Q2.
Qed.

(** Two condition variables on one queue. *)
Definition cv_threads : gmap Z kthread :=
  let idle pri := Kthread 0 0 0 None pri 0 0 0 0 TS_ONPROC 0 in <[64 := idle 60]> (<[128 := idle 60]> {[192 := idle 60]}).
Definition cv_events : list cv_op :=
  [CvInit 8192; CvInit 10228; CvBlock 8192 64 60 1; CvBlock 8192 128 70 1; CvBlock 10228 192 99 1;
   CvSignal 8192; CvUnsleep 192; CvBroadcast 8192].

Lemma cv_refines_witness :
  ∃ x', cv_execs (cv_boot cv_threads) cv_events = Some (x', [[]; []; []; []; []; [128]; [192]; [64]]).
Proof.
  destruct (cv_refines cv_threads cv_events) as (x' & Q & E & _).
  - intros t k Hk. unfold cv_threads in Hk.
    repeat (apply lookup_insert_Some in Hk as [[<- <-]|[_ Hk]]; [by vm_compute|]).
    apply lookup_singleton_Some in Hk as [<- <-]. by vm_compute.
  - by apply (bool_decide_unpack _); vm_compute.
  - exists x'. rewrite E. f_equal.
Defined.
