(* ===== verification/CvWait.v ===== *)
(** * Waiting on a condition variable (uts/common/os/condvar.c)

    [cv_wait], [cv_timedwait], [cv_wait_sig], [cv_wait_sig_swap] and
    [cv_timedwait_sig] of any number of threads on one condition variable and
    its mutex, with a clock, timeouts and signals.  The waiters are the list
    that Condvar proves them to be; the statements of the calls between
    which other threads can act are steps.  [realtime_timeout] and
    [untimeout] are a pending time for each thread, as CalloutSched proves
    them to be: a timeout is called once, not before its time. *)

From Stdlib Require Import ZArith Lia.
From stdpp Require Import base numbers option functions gmap list.
From S2P Require Import Prelude SleepQ.

#[local] Open Scope Z_scope.

(** ** The calls *)

(** The arguments of a call: the time given to [cv_timedwait], and whether
    signals end the wait. *)
Record wargs := Wargs { w_tim : option Z; w_sig : bool }.

(** Before which statement a thread is; [WOut] is outside, with the result
    of the last call. *)
Inductive wpc :=
  | WOut (r : option Z)
  | WTimeout (timeleft : Z)   (* realtime_timeout *)
  | WBlock                    (* cv_block *)
  | WExit                     (* mutex_exit *)
  | WCheck                    (* setrun, if there is nothing to wait for *)
  | WSwtch                    (* swtch *)
  | WUntime                   (* untimeout *)
  | WEnter (r : Z)            (* mutex_enter *)
  | WSig (r : Z)              (* ISSIG_PENDING *)
  | WIssig (r : Z)            (* issig, without the mutex *)
  | WReenter (r : Z)          (* mutex_enter *)
  | WFinal (r : Z).           (* lwp_sysabort or MUSTRETURN *)

(** [now] is [lbolt] without its wrap-around; [w_tmo] has the time of a
    pending timeout. *)
Record wstate := Wst {
  now : Z;
  mtx : option Z;
  wqueue : list Z;
  w_pc : Z → wpc;
  w_arg : Z → wargs;
  w_tmo : Z → option Z;
  w_pending : Z → bool
}.

Definition w_go (t : Z) (p : wpc) (x : wstate) : wstate :=
  Wst (now x) (mtx x) (wqueue x) (<[t := p]> (w_pc x)) (w_arg x) (w_tmo x) (w_pending x).
Definition set_mtx (v : option Z) (x : wstate) : wstate :=
  Wst (now x) v (wqueue x) (w_pc x) (w_arg x) (w_tmo x) (w_pending x).
Definition set_wqueue (v : list Z) (x : wstate) : wstate :=
  Wst (now x) (mtx x) v (w_pc x) (w_arg x) (w_tmo x) (w_pending x).
Definition set_arg (t : Z) (v : wargs) (x : wstate) : wstate :=
  Wst (now x) (mtx x) (wqueue x) (w_pc x) (<[t := v]> (w_arg x)) (w_tmo x) (w_pending x).
Definition set_tmo (t : Z) (v : option Z) (x : wstate) : wstate :=
  Wst (now x) (mtx x) (wqueue x) (w_pc x) (w_arg x) (<[t := v]> (w_tmo x)) (w_pending x).
Definition set_pending (t : Z) (v : bool) (x : wstate) : wstate :=
  Wst (now x) (mtx x) (wqueue x) (w_pc x) (w_arg x) (w_tmo x) (<[t := v]> (w_pending x)).
Definition set_now (v : Z) (x : wstate) : wstate :=
  Wst v (mtx x) (wqueue x) (w_pc x) (w_arg x) (w_tmo x) (w_pending x).

(** [setrun] of a thread that sleeps takes it off the queue; others are
    running already. *)
Definition setrun (t : Z) (x : wstate) : wstate := set_wqueue (sq_del t (wqueue x)) x.

Section wait.
Context (bits : Z) (pri : Z → Z).

(** [clock_t] arithmetic; [tim - lbolt] of the code. *)
Definition clock (z : Z) : Z := wraps bits z.
Definition left_of (tim : Z) (x : wstate) : Z := clock (clock tim - clock (now x)).

(** A call: without a time left there is no wait. *)
Definition w_call (t : Z) (a : wargs) (x : wstate) : wstate :=
  let x := set_arg t a x in
  match w_tim a with
  | None => w_go t WBlock x
  | Some tim =>
      let timeleft := left_of tim x in
      if timeleft <=? 0 then if w_sig a then w_go t (WSig (-1)) x else w_go t (WOut (Some (-1))) x
      else w_go t (WTimeout timeleft) x
  end.

(** After [swtch] or a block that was refused ([schedctl_block]); without
    signals [untimeout] comes before [mutex_enter], with signals after it. *)
Definition after_swtch (a : wargs) : wpc :=
  if w_sig a then WEnter 1 else match w_tim a with Some _ => WUntime | None => WEnter 1 end.

(** What [untimeout] says: the time left, or -1 after the timeout. *)
Definition w_untimeout (t : Z) (x : wstate) : Z :=
  let r := match w_tmo x t with Some e => clock (e - now x) | None => -1 end in
  if r <=? 0 then -1 else r.

(** The end of a call: only those with signals look for one ([issig]). *)
Definition after_enter (a : wargs) (r : Z) : wpc :=
  if w_sig a then match w_tim a with Some _ => WUntime | None => WSig r end else WOut (Some r).

(** A step of thread [t]; [b] says what the signal code finds, which needs a
    signal or another reason to return ([w_pending]), or whether a block is
    refused.  The early returns of a system that panics ([panicstr]) are left
    out, and so is what [schedctl_block] does for a thread whose process uses
    preemption control. *)
Definition w_step (t : Z) (b : bool) (x : wstate) : option wstate :=
  let a := w_arg x t in
  match w_pc x t with
  | WOut _ => None
  | WTimeout timeleft => Some (w_go t WBlock (set_tmo t (Some (now x + timeleft)) x))
  | WBlock =>
      if w_sig a && b then
        match w_tim a with Some _ => Some (w_go t WUntime x) | None => Some (w_go t (WSig 1) x) end
      else Some (w_go t WExit (set_wqueue (sq_ins pri t (wqueue x)) x))
  | WExit =>
      let p := match w_tim a, w_sig a with None, false => WSwtch | _, _ => WCheck end in
      Some (w_go t p (set_mtx None x))
  | WCheck =>
      let due := match w_tim a with Some tim => left_of tim x <=? 0 | None => false end in
      Some (w_go t WSwtch (if due || (w_sig a && w_pending x t) then setrun t x else x))
  | WSwtch => if decide (t ∈ wqueue x) then None else Some (w_go t (after_swtch a) x)
  | WUntime =>
      let r := w_untimeout t x in
      let x := set_tmo t None x in
      Some (w_go t (if w_sig a then WSig r else WEnter r) x)
  | WEnter r =>
      match mtx x with None => Some (w_go t (after_enter a r) (set_mtx (Some t) x)) | Some _ => None end
  | WSig r => Some (if b && w_pending x t then w_go t (WIssig r) (set_mtx None x) else w_go t (WFinal r) x)
  | WIssig r => Some (w_go t (WReenter (if b && w_pending x t then 0 else r)) x)
  | WReenter r => match mtx x with None => Some (w_go t (WFinal r) (set_mtx (Some t) x)) | Some _ => None end
  | WFinal r => Some (w_go t (WOut (Some (if b && w_pending x t then 0 else r))) x)
  end.

(** What the rest of the system does. *)
Inductive wevent :=
  | WCall (t : Z) (a : wargs) | WStep (t : Z) (b : bool)
  | WLock (t : Z) | WUnlock (t : Z)               (* mutex_enter and mutex_exit outside of waits *)
  | WSignal | WBroadcast                          (* cv_signal and cv_broadcast *)
  | WTick | WFire (t : Z)                         (* the clock; a timeout calls setrun *)
  | WKill (t : Z) | WTaken (t : Z).               (* a signal is sent; it is gone *)

Definition w_exec (x : wstate) (e : wevent) : option wstate :=
  match e with
  | WCall t a =>
      match w_pc x t with WOut _ => if decide (mtx x = Some t) then Some (w_call t a x) else None | _ => None end
  | WStep t b => w_step t b x
  | WLock t =>
      match w_pc x t with WOut _ => if decide (mtx x = None) then Some (set_mtx (Some t) x) else None | _ => None end
  | WUnlock t =>
      match w_pc x t with WOut _ => if decide (mtx x = Some t) then Some (set_mtx None x) else None | _ => None end
  | WSignal => Some (set_wqueue (drop 1 (wqueue x)) x)
  | WBroadcast => Some (set_wqueue [] x)
  | WTick => Some (set_now (now x + 1) x)
  | WFire t =>
      match w_tmo x t with Some e => if decide (e <= now x) then Some (setrun t (set_tmo t None x)) else None | None => None end
  | WKill t => Some (if w_sig (w_arg x t) then setrun t (set_pending t true x) else set_pending t true x)
  | WTaken t => Some (set_pending t false x)
  end.

(** Times are within half the range of the clock, as its users must see to. *)
Definition near (x : wstate) (z : Z) : Prop := - 2 ^ (bits - 1) <= z - now x < 2 ^ (bits - 1).

Definition in_range (x : wstate) : Prop :=
  ∀ t, (∀ tim, w_tim (w_arg x t) = Some tim → match w_pc x t with WOut _ => True | _ => near x tim end) ∧
    (∀ e, w_tmo x t = Some e → near x e).

Definition call_in_range (x : wstate) (e : wevent) : Prop :=
  match e with WCall _ (Wargs (Some tim) _) => near x tim | _ => True end.

Definition wait_start (at_ : Z) : wstate :=
  Wst at_ None [] (λ _, WOut None) (λ _, Wargs None false) (λ _, None) (λ _, false).

Inductive wait_reachable : wstate → Prop :=
  | wreach_start at_ : wait_reachable (wait_start at_)
  | wreach_step x e x' :
      wait_reachable x → call_in_range x e → w_exec x e = Some x' → in_range x' → wait_reachable x'.
End wait.

(** ** The invariant *)

Definition sleeps (p : wpc) : bool := match p with WExit | WCheck | WSwtch => true | _ => false end.

(** Inside a call, with the mutex. *)
Definition holds_mtx (a : wargs) (p : wpc) : bool :=
  match p with WTimeout _ | WBlock | WExit | WSig _ | WFinal _ => true | WUntime => w_sig a | _ => false end.

(** A result: -1 is a timeout that has come, a positive number reaches to the
    given time, 0 is a signal. *)
Definition result_ok (n : Z) (a : wargs) (r : Z) : Prop :=
  (r = 0 ∧ w_sig a = true) ∨
  match w_tim a with
  | Some tim => (r = -1 ∧ tim <= n) ∨ (0 < r ∧ tim <= n + r)
  | None => r = 1
  end.

(** The timeout is pending until its time has come. *)
Definition armed (n : Z) (a : wargs) (tm : option Z) : Prop :=
  match w_tim a with
  | Some tim => match tm with Some e => tim <= e | None => tim <= n end
  | None => tm = None
  end.

Definition timer_ok (n : Z) (a : wargs) (p : wpc) (tm : option Z) (inq : Prop) : Prop :=
  match p with
  | WOut _ => tm = None
  | WTimeout l => tm = None ∧ 0 < l ∧ match w_tim a with Some tim => tim <= n + l | None => False end
  | WBlock | WExit | WCheck => armed n a tm
  | WUntime => armed n a tm ∧ is_Some (w_tim a)
  | WSwtch => armed n a tm ∧ (inq → is_Some (w_tim a) → is_Some tm)
  | WEnter r => if w_sig a then armed n a tm ∧ r = 1 else tm = None ∧ result_ok n a r
  | WSig r | WIssig r | WReenter r | WFinal r => tm = None ∧ w_sig a = true ∧ result_ok n a r
  end.

Record tinv (x : wstate) (t : Z) : Prop := {
  ti_queue : t ∈ wqueue x → sleeps (w_pc x t) = true;
  ti_mtx : holds_mtx (w_arg x t) (w_pc x t) = true → mtx x = Some t;
  ti_timer : timer_ok (now x) (w_arg x t) (w_pc x t) (w_tmo x t) (t ∈ wqueue x);
  ti_sig : w_pc x t = WSwtch → w_sig (w_arg x t) = true → t ∈ wqueue x → w_pending x t = false
}.

Lemma result_mono n n' a r : n <= n' → result_ok n a r → result_ok n' a r.
Proof. unfold result_ok. destruct (w_tim a); intros Hn [?|H]; try (by left); right; lia. Qed.

Lemma armed_mono n n' a tm : n <= n' → armed n a tm → armed n' a tm.
Proof. unfold armed. destruct (w_tim a), tm; intros; (done || lia). Qed.

Lemma timer_mono n n' a p tm (q q' : Prop) : n <= n' → (q' → q) → timer_ok n a p tm q → timer_ok n' a p tm q'.
Proof.
  intros Hn Hq. pose proof (armed_mono n n' a tm Hn) as Ha. pose proof (result_mono n n' a) as Hr.
  destruct p; cbn; try done; try (by intros (? & ? & ?); auto).
  - intros (? & ? & H). destruct (w_tim a); [|done]. split_and!; (done || lia).
  - intros [? H]. split; [auto|]. auto.
  - destruct (w_sig a); intros [? ?]; auto.
Qed.

(** A thread that does not move itself. *)
Lemma tinv_frame x x' t :
  tinv x t → w_pc x' t = w_pc x t → w_arg x' t = w_arg x t → w_tmo x' t = w_tmo x t → now x <= now x' →
  (t ∈ wqueue x' → t ∈ wqueue x) → (holds_mtx (w_arg x t) (w_pc x t) = true → mtx x = Some t → mtx x' = Some t) →
  (t ∈ wqueue x' → w_sig (w_arg x t) = true → w_pending x' t = true → w_pending x t = true) → tinv x' t.
Proof.
  intros [Hq Hm Ht Hs] Ep Ea Et Hn Hq' Hm' Hs'. split; rewrite ?Ep, ?Ea, ?Et.
  - auto.
  - auto.
  - by apply (timer_mono (now x) _ _ _ _ (t ∈ wqueue x)).
  - intros E1 E2 Hin. destruct (w_pending x' t) eqn:E; [|done]. rewrite <- (Hs E1 E2 (Hq' Hin)). symmetry. by apply Hs'.
Qed.

Section steps.
Context (bits : Z) (pri : Z → Z) (Hbits : 0 < bits).

Lemma left_of_eq tim x : near bits x tim → left_of bits tim x = tim - now x.
Proof.
  intros Hr. unfold left_of, clock. rewrite wraps_wraps_sub_l, wraps_wraps_sub_r by lia. apply wraps_id; [lia|]. exact Hr.
Qed.

Lemma w_self t p x : w_pc (w_go t p x) t = p.
Proof. apply fn_lookup_insert. Qed.

(** The parts of the invariant that a step leaves obvious. *)
Ltac parts Hq := split; cbn; rewrite ?fn_lookup_insert; cbn; try done; try (by intros ?%Hq); auto.

(** The check of [cv_timedwait] and [cv_timedwait_sig] before [swtch]. *)
Lemma check_self x t (due : bool) :
  in_range bits x → tinv x t → w_pc x t = WCheck →
  due = (match w_tim (w_arg x t) with Some tim => left_of bits tim x <=? 0 | None => false end || (w_sig (w_arg x t) && w_pending x t)) →
  tinv (w_go t WSwtch (if due then setrun t x else x)) t.
Proof.
  intros Hrg [Hq Hm Ht Hs] Hp Hdue. rewrite Hp in Ht. cbn in Ht. destruct due.
  - parts Hq. split; [done|]. rewrite sq_del_elem. tauto. rewrite sq_del_elem. tauto.
  - symmetry in Hdue. apply orb_false_iff in Hdue as [Hd Hg]. parts Hq.
    + split; [done|]. intros Hi [tim Etim]. rewrite Etim in Hd. destruct (Hrg t) as [Hr1 _]. specialize (Hr1 tim Etim). rewrite Hp in Hr1.
      apply Z.leb_gt in Hd. rewrite left_of_eq in Hd by done. unfold armed in Ht. rewrite Etim in Ht.
      destruct (w_tmo x t); [by eexists|lia].
    + intros _ Esig _. by rewrite Esig in Hg.
Qed.

Lemma untimeout_result x t : in_range bits x → armed (now x) (w_arg x t) (w_tmo x t) → is_Some (w_tim (w_arg x t)) →
  result_ok (now x) (w_arg x t) (w_untimeout bits t x).
Proof.
  intros Hrg Ha [tim Etim]. destruct (Hrg t) as [_ Hr2]. unfold result_ok, w_untimeout, armed in *. rewrite Etim in *. right.
  destruct (w_tmo x t) as [e|] eqn:Etm; [|by left]. specialize (Hr2 e eq_refl). unfold clock. rewrite wraps_id by (done || lia).
  destruct (Z.leb_spec (e - now x) 0); [left|right]; lia.
Qed.

(** The moving thread. *)
Lemma step_self x x' t b : in_range bits x → tinv x t → w_step bits pri t b x = Some x' → tinv x' t.
Proof.
  intros Hrg Hi E. pose proof Hi as [Hq Hm Ht Hs]. unfold w_step in E.
  destruct (w_pc x t) as [r|l| | | | | |r|r|r|r|r] eqn:Hp; cbn in Hq, Hm, Ht; try discriminate E.
  - injection E as <-. destruct Ht as (Htm & Hl & Ha). parts Hq. unfold armed. destruct (w_tim (w_arg x t)); [lia|done].
  - destruct (w_sig (w_arg x t) && b) eqn:Eb.
    + apply andb_true_iff in Eb as [Esig _]. destruct (w_tim (w_arg x t)) as [tim|] eqn:Etim; injection E as <-; parts Hq.
      unfold armed in Ht. rewrite Etim in Ht. split_and!; [done|done|]. unfold result_ok. rewrite Etim. by right.
    + injection E as <-. parts Hq.
  - injection E as <-. destruct (w_tim (w_arg x t)) as [tim|] eqn:Etim, (w_sig (w_arg x t)) eqn:Esig; parts Hq; rewrite ?Etim, ?Esig; try done.
  - injection E as <-. by apply check_self.
  - case_decide as Hn; [done|]. injection E as <-. destruct Ht as [Ha Hw]. unfold after_swtch. pose proof Ha as Ha'. unfold armed in Ha'.
    destruct (w_sig (w_arg x t)) eqn:Esig; [|destruct (w_tim (w_arg x t)) as [tim|] eqn:Etim]; parts Hn; rewrite ?Esig, ?Etim; try done.
    split; [done|]. unfold result_ok. rewrite Etim. by right.
  - injection E as <-. destruct Ht as [Ha Hsome]. pose proof (untimeout_result x t Hrg Ha Hsome) as Hres.
    destruct (w_sig (w_arg x t)) eqn:Esig; parts Hq. by rewrite Esig.
  - destruct (mtx x) eqn:Emtx; [done|]. injection E as <-. unfold after_enter. destruct (w_sig (w_arg x t)) eqn:Esig.
    + destruct Ht as [Ha ->]. pose proof Ha as Ha'. unfold armed in Ha'. destruct (w_tim (w_arg x t)) as [tim|] eqn:Etim; parts Hq; rewrite ?Etim; try done.
      split_and!; [done..|]. unfold result_ok. rewrite Etim. by right.
    + destruct Ht as [Htm Hres]. parts Hq.
  - injection E as <-. destruct (b && w_pending x t); parts Hq.
  - injection E as <-. destruct Ht as (Htm & Hsg & Hres). parts Hq. split_and!; try done. destruct (b && _); [left; by split|done].
  - destruct (mtx x) eqn:Emtx; [done|]. injection E as <-. parts Hq.
  - injection E as <-. destruct Ht as (Htm & Hsg & Hres). parts Hq.
Qed.

(** The others. *)
Lemma step_other x x' t b u : u ≠ t → tinv x t → tinv x u → w_step bits pri t b x = Some x' → tinv x' u.
Proof.
  intros Hu Hi Hiu E. pose proof (ti_mtx _ _ Hi) as Hm. unfold w_step in E.
  assert (∀ y, tinv y u → tinv (setrun t y) u) as Hset.
  { intros y Hy. apply (tinv_frame y); try done. by intros [_ ?]%sq_del_elem. }
  assert (∀ y p, tinv y u → tinv (w_go t p y) u) as Hgo.
  { intros y p Hy. apply (tinv_frame y); try done. cbn. by rewrite fn_lookup_insert_ne. }
  assert (∀ y v, tinv y u → tinv (set_tmo t v y) u) as Htmo.
  { intros y v Hy. apply (tinv_frame y); try done. cbn. by rewrite fn_lookup_insert_ne. }
  assert (∀ v, mtx x = None ∨ mtx x = Some t → tinv (set_mtx v x) u) as Hmtx.
  { intros v Hv. apply (tinv_frame x); try done. intros _ Hx. destruct Hv; congruence. }
  destruct (w_pc x t) as [r|l| | | | | |r|r|r|r|r] eqn:Hp; cbn in Hm; try discriminate E.
  - injection E as <-. by apply Hgo, Htmo.
  - destruct (_ && b); [destruct (w_tim _); injection E as <-; by apply Hgo|]. injection E as <-. apply Hgo.
    apply (tinv_frame x); try done. cbn. rewrite sq_ins_elem. naive_solver.
  - injection E as <-. apply Hgo, Hmtx. right. by apply Hm.
  - injection E as <-. apply Hgo. destruct (_ || _); [by apply Hset|done].
  - case_decide; [done|]. injection E as <-. by apply Hgo.
  - injection E as <-. by apply Hgo, Htmo.
  - destruct (mtx x) eqn:Emtx; [done|]. injection E as <-. apply Hgo, Hmtx. by left.
  - injection E as <-. destruct (b && _); apply Hgo; [|done]. apply Hmtx. right. by apply Hm.
  - injection E as <-. by apply Hgo.
  - destruct (mtx x) eqn:Emtx; [done|]. injection E as <-. apply Hgo, Hmtx. by left.
  - injection E as <-. by apply Hgo.
Qed.

Lemma call_self x t a : call_in_range bits x (WCall t a) → tinv x t → (∃ r, w_pc x t = WOut r) → mtx x = Some t →
  tinv (w_call bits t a x) t.
Proof.
  intros Hr [Hq Hm Ht Hs] [r Hp] Hmt. rewrite Hp in Hq, Ht. cbn in Hq, Ht. unfold w_call. destruct a as [[tim|] sg]; cbn in Hr |- *.
  - unfold left_of. change (now (set_arg t _ x)) with (now x). change (clock bits (clock bits tim - clock bits (now x))) with (left_of bits tim x).
    rewrite left_of_eq by done. destruct (Z.leb_spec (tim - now x) 0); [destruct sg|]; parts Hq; try (split_and!; try done; lia).
    split_and!; try done. right. cbn. left. lia.
  - parts Hq.
Qed.

Lemma exec_inv x e x' : (∀ t, tinv x t) → in_range bits x → call_in_range bits x e → w_exec bits pri x e = Some x' → ∀ t, tinv x' t.
Proof.
  intros Hi Hrg Hcr E u. destruct e as [t a|t b|t|t| | | |t|t|t]; cbn [w_exec] in E.
  - destruct (w_pc x t) as [r| | | | | | | | | | |] eqn:Hp; try done. case_decide as Hm; [|done]. injection E as <-.
    destruct (decide (u = t)) as [->|Hu]; [apply call_self; eauto|].
    apply (tinv_frame x); try done; unfold w_call; destruct (w_tim a); repeat case_match; cbn; rewrite ?fn_lookup_insert_ne; done.
  - destruct (decide (u = t)) as [->|Hu]; [by eapply step_self|by eapply step_other].
  - destruct (w_pc x t) as [r| | | | | | | | | | |] eqn:Hp; try done. case_decide as Hm; [|done]. injection E as <-.
    apply (tinv_frame x); try done. intros _ Hx. congruence.
  - destruct (w_pc x t) as [r| | | | | | | | | | |] eqn:Hp; try done. case_decide as Hm; [|done]. injection E as <-.
    apply (tinv_frame x); try done. intros Hh Hx. assert (u = t) as -> by congruence. by rewrite Hp in Hh.
  - injection E as <-. apply (tinv_frame x); try done. cbn. destruct (wqueue x); [done|]. by constructor.
  - injection E as <-. apply (tinv_frame x); try done. cbn. by intros ?%elem_of_nil.
  - injection E as <-. apply (tinv_frame x); try done. cbn. lia.
  - destruct (w_tmo x t) as [e|] eqn:Etm; [|done]. case_decide as He; [|done]. injection E as <-.
    destruct (decide (u = t)) as [->|Hu].
    + pose proof (Hi t) as [Hq Hm Ht Hs]. rewrite Etm in Ht.
      assert (armed (now x) (w_arg x t) (Some e) → armed (now x) (w_arg x t) None) as Ha by (unfold armed; destruct (w_tim _); [lia|done]).
      assert (t ∉ sq_del t (wqueue x)) as Hn by (rewrite sq_del_elem; tauto).
      split; cbn; rewrite ?fn_lookup_insert; try done.
      destruct (w_pc x t); cbn in Ht |- *; try (by destruct Ht); try (by auto).
      * destruct Ht. split; [by apply Ha|]. by intros ?%Hn.
      * destruct Ht. split; [by apply Ha|done].
      * destruct (w_sig _); destruct Ht; [split; [by apply Ha|done]|done].
    + apply (tinv_frame x); try done; cbn; [by rewrite fn_lookup_insert_ne|]. by intros [_ ?]%sq_del_elem.
  - injection E as <-. destruct (w_sig (w_arg x t)) eqn:Esig; apply (tinv_frame x); try done; cbn.
    + by intros [_ ?]%sq_del_elem.
    + intros [Hne _]%sq_del_elem. by rewrite fn_lookup_insert_ne.
    + intros Hin Hsg. destruct (decide (u = t)) as [->|]; [congruence|]. by rewrite fn_lookup_insert_ne.
  - injection E as <-. apply (tinv_frame x); try done; cbn. intros _ _.
    destruct (decide (u = t)) as [->|]; [by rewrite fn_lookup_insert|by rewrite fn_lookup_insert_ne].
Qed.

Lemma wait_inv x : wait_reachable bits pri x → (∀ t, tinv x t) ∧ in_range bits x.
Proof.
  intros Hr. induction Hr as [at_|x e x' _ [Hi Hrg] Hcr E Hrg'].
  - split; [|done]. intros t. split; cbn; try done. by intros ?%elem_of_nil.
  - split; [by eapply exec_inv|done].
Qed.
End steps.

(** ** Properties *)

Section props.
Context (bits : Z) (pri : Z → Z) (Hbits : 0 < bits).

(** C23: how a wait ends.  Whatever other threads, the clock and signals do
    meanwhile, a call returns with the mutex, off the queue and without a
    pending timeout.  It reports a timeout (-1) only when the given time has
    come, otherwise what it reports reaches to that time, and it reports a
    signal (0) only if signals were to end the wait. *)
Theorem cv_wait_result x e x' t r :
  wait_reachable bits pri x → call_in_range bits x e → w_exec bits pri x e = Some x' →
  (∃ a, e = WCall t a) ∨ (∃ b, e = WStep t b) → w_pc x' t = WOut (Some r) →
  mtx x' = Some t ∧ (t ∉ wqueue x') ∧ w_tmo x' t = None ∧ result_ok (now x') (w_arg x' t) r.
Proof.
  intros Hr Hcr E He Hp'. destruct (wait_inv bits pri Hbits x Hr) as [Hi Hrg].
  pose proof (exec_inv bits pri Hbits x e x' Hi Hrg Hcr E t) as [Hq' _ Ht' _]. rewrite Hp' in Hq', Ht'.
  enough (mtx x' = Some t ∧ result_ok (now x') (w_arg x' t) r) as [? ?].
  { split_and!; try done. by intros ?%Hq'. }
  pose proof (Hi t) as [Hq Hm Ht Hs]. destruct He as [[a ->]|[b ->]]; cbn [w_exec] in E.
  - destruct (w_pc x t) as [r0| | | | | | | | | | |] eqn:Hp; try done. case_decide as Hmt; [|done]. injection E as <-.
    unfold w_call in *. destruct a as [[tim|] sg]; cbn in *; [|by rewrite fn_lookup_insert in Hp'].
    unfold left_of in *. change (now (set_arg t _ x)) with (now x) in *.
    change (clock bits (clock bits tim - clock bits (now x))) with (left_of bits tim x) in *. rewrite left_of_eq in * by done.
    destruct (Z.leb_spec (tim - now x) 0); [destruct sg|]; cbn in *; rewrite fn_lookup_insert in Hp'; simplify_eq.
    split; [done|]. rewrite fn_lookup_insert. right. cbn. left. lia.
  - unfold w_step in E. destruct (w_pc x t) as [r0|l| | | | | |r0|r0|r0|r0|r0] eqn:Hp; try done; cbn in Hm, Ht.
    + injection E as <-. cbn in Hp'. by rewrite fn_lookup_insert in Hp'.
    + destruct (_ && b); [destruct (w_tim _)|]; injection E as <-; cbn in Hp'; by rewrite fn_lookup_insert in Hp'.
    + injection E as <-. cbn in Hp'. rewrite fn_lookup_insert in Hp'. by destruct (w_tim _), (w_sig _).
    + injection E as <-. cbn in Hp'. by rewrite fn_lookup_insert in Hp'.
    + case_decide; [done|]. injection E as <-. cbn in Hp'. rewrite fn_lookup_insert in Hp'. unfold after_swtch in Hp'.
      by destruct (w_sig _), (w_tim _).
    + injection E as <-. cbn in Hp'. rewrite fn_lookup_insert in Hp'. by destruct (w_sig _).
    + destruct (mtx x); [done|]. injection E as <-. cbn in Hp' |- *. rewrite fn_lookup_insert in Hp'. unfold after_enter in Hp'.
      destruct (w_sig _); [by destruct (w_tim _)|]. destruct Ht as [_ Hres]. by injection Hp' as <-.
    + injection E as <-. cbn in Hp'. destruct (b && _); cbn in Hp'; by rewrite fn_lookup_insert in Hp'.
    + injection E as <-. cbn in Hp'. by rewrite fn_lookup_insert in Hp'.
    + destruct (mtx x); [done|]. injection E as <-. cbn in Hp'. by rewrite fn_lookup_insert in Hp'.
    + injection E as <-. cbn in Hp' |- *. rewrite fn_lookup_insert in Hp'. injection Hp' as <-. split; [by apply Hm|].
      destruct Ht as (_ & Hsg & Hres). destruct (b && _); [by left|done].
Qed.

(** C22: nobody oversleeps.  A thread that sleeps in a timed wait has its
    timeout still to come, even if the clock passed the given time or the
    timeout was called before the thread was on the queue; when its time has
    come it can be called and takes the thread off the queue.  A thread that
    sleeps in a wait that signals end has no signal pending. *)
Theorem cv_never_oversleeps x t :
  wait_reachable bits pri x → w_pc x t = WSwtch → t ∈ wqueue x →
  (∀ tim, w_tim (w_arg x t) = Some tim →
     ∃ e, w_tmo x t = Some e ∧ tim <= e ∧
       (e <= now x → ∃ x', w_exec bits pri x (WFire t) = Some x' ∧ (t ∉ wqueue x') ∧ is_Some (w_step bits pri t false x'))) ∧
  (w_sig (w_arg x t) = true → w_pending x t = false).
Proof.
  intros Hr Hp Hq. destruct (wait_inv bits pri Hbits x Hr) as [Hi _]. pose proof (Hi t) as [_ _ Ht Hs]. rewrite Hp in Ht. cbn in Ht.
  destruct Ht as [Ha Hsome]. split; [|by intros; apply Hs]. intros tim Etim.
  destruct (Hsome Hq) as [e Ee]; [by eexists|]. exists e. unfold armed in Ha. rewrite Etim, Ee in Ha. split_and!; try done.
  intros He. cbn [w_exec]. rewrite Ee, decide_True by done. assert (t ∉ sq_del t (wqueue x)) as Hn by (rewrite sq_del_elem; tauto).
  eexists. split_and!; [done|exact Hn|]. unfold w_step. cbn [w_pc setrun set_wqueue set_tmo wqueue].
  rewrite Hp, decide_False by exact Hn. by eexists.
Qed.
End props.

(** ** A wait whose timeout is called before it sleeps *)

Section run.
Context (bits : Z) (pri : Z → Z).

(** Only thread [t] acts, and is in range. *)
Definition only (t : Z) (e : wevent) : bool :=
  match e with
  | WCall u _ | WStep u _ | WLock u | WUnlock u | WFire u | WKill u | WTaken u => u =? t
  | WSignal | WBroadcast | WTick => true
  end.

Definition quiet_other (t : Z) (x : wstate) : Prop := ∀ u, u ≠ t → w_pc x u = WOut None ∧ w_tmo x u = None.

Lemma only_quiet t x e x' : quiet_other t x → only t e = true → w_exec bits pri x e = Some x' → quiet_other t x'.
Proof.
  intros Hx Ho E u Hu. destruct (Hx u Hu) as [H1 H2].
  destruct e as [t' a|t' b|t'|t'| | | |t'|t'|t']; cbn [w_exec only] in E, Ho; try (apply Z.eqb_eq in Ho; subst t').
  2: unfold w_step in E.
  all: repeat case_match; simplify_eq; try done; unfold w_call in *; repeat case_match; simplify_eq; cbn in *; rewrite ?fn_lookup_insert_ne by done; done.
Qed.

Definition in_range1 (t : Z) (x : wstate) : Prop :=
  default True (near bits x <$> w_tim (w_arg x t)) ∧ default True (near bits x <$> w_tmo x t).

#[export] Instance near_dec x z : Decision (near bits x z).
Proof. unfold near. apply _. Defined.
#[export] Instance in_range1_dec t x : Decision (in_range1 t x).
Proof. unfold in_range1. destruct (w_tim _), (w_tmo _ _); apply _. Defined.
#[export] Instance call_in_range_dec x e : Decision (call_in_range bits x e).
Proof. destruct e as [? [[] ?]| | | | | | | | |]; cbn; apply _. Defined.

Fixpoint w_run (t : Z) (x : wstate) (es : list wevent) : wstate :=
  match es with
  | [] => x
  | e :: es =>
      match w_exec bits pri x e with
      | Some x' => if decide (only t e = true ∧ call_in_range bits x e ∧ in_range1 t x') then w_run t x' es else x
      | None => x
      end
  end.

Lemma w_run_reachable t x es : quiet_other t x → wait_reachable bits pri x → wait_reachable bits pri (w_run t x es).
Proof.
  revert x. induction es as [|e es IH]; intros x Hq Hx; [done|]. cbn. destruct (w_exec bits pri x e) as [x'|] eqn:E; [|done].
  case_decide as Hd; [|done]. destruct Hd as (Ho & Hc & Hr1 & Hr2). pose proof (only_quiet t x e x' Hq Ho E) as Hq'.
  apply IH; [done|]. eapply wreach_step; try done. intros u. destruct (decide (u = t)) as [->|Hu].
  - split; intros z Ez; [rewrite Ez in Hr1|rewrite Ez in Hr2; done]. by destruct (w_pc x' t).
  - destruct (Hq' u Hu) as [-> ->]. by split.
Qed.
End run.

(** Thread 8 waits at tick 100 for tick 105; the clock reaches 105 and the
    timeout is called before the thread is on the queue. *)
Definition late : list wevent :=
  [WLock 8; WCall 8 (Wargs (Some 105) false); WStep 8 false; WTick; WTick; WTick; WTick; WTick; WFire 8;
   WStep 8 false; WStep 8 false; WStep 8 false; WStep 8 false; WStep 8 false].
Definition late_state : wstate := w_run 32 (λ _, 60) 8 (wait_start 100) late.
(** The same, but the clock stands at tick 103, when the thread sleeps. *)
Definition asleep_state : wstate :=
  w_run 32 (λ _, 60) 8 (wait_start 100)
    [WLock 8; WCall 8 (Wargs (Some 105) false); WStep 8 false; WTick; WTick; WTick; WStep 8 false; WStep 8 false; WStep 8 false].

Lemma start_quiet : quiet_other 8 (wait_start 100).
Proof. done. Qed.

Lemma cv_wait_result_witness :
  ∃ x', w_exec 32 (λ _, 60) late_state (WStep 8 false) = Some x' ∧ w_pc x' 8 = WOut (Some (-1)) ∧ mtx x' = Some 8.
Proof.
  assert (wait_reachable 32 (λ _, 60) late_state) as Hr by (apply w_run_reachable; [exact start_quiet|constructor]).
  destruct (w_exec 32 (λ _, 60) late_state (WStep 8 false)) as [x'|] eqn:E; [|by vm_compute in E].
  exists x'. assert (w_pc x' 8 = WOut (Some (-1))) as Hp by (vm_compute in E; injection E as <-; by vm_compute).
  split; [done|]. split; [exact Hp|].
  exact (proj1 (cv_wait_result 32 (λ _, 60) ltac:(lia) late_state (WStep 8 false) x' 8 (-1) Hr I E (or_intror (ex_intro _ false eq_refl)) Hp)).
Defined.

Lemma cv_never_oversleeps_witness :
  now asleep_state = 103 ∧ (8 ∈ wqueue asleep_state) ∧ ∃ e, w_tmo asleep_state 8 = Some e ∧ 105 <= e.
Proof.
  assert (wait_reachable 32 (λ _, 60) asleep_state) as Hr by (apply w_run_reachable; [exact start_quiet|constructor]).
  assert (8 ∈ wqueue asleep_state) as Hq by (assert (wqueue asleep_state = [8]) as -> by (by vm_compute); constructor).
  split; [by vm_compute|]. split; [exact Hq|].
  destruct (cv_never_oversleeps 32 (λ _, 60) ltac:(lia) asleep_state 8 Hr ltac:(by vm_compute) Hq) as [Ht _].
  destruct (Ht 105) as (e & Ee & He & _); [by vm_compute|]. by exists e.
Defined.
