(* ===== verification/Pid.v ===== *)
(** * Process IDs (uts/common/os/pid.c)

    A process ID is in use as long as a [struct pid] has it: the process, a
    process group or session with that ID, and drivers hold references.  The
    structures are found through a hash table, and a process has a slot of
    the directory [procdir] (the order of /proc), whose unused entries are
    linked to a free list through the same words that hold the processes
    otherwise.  Every operation runs under [pidlinklock] or [pidlock]. *)

From Stdlib Require Import ZArith Lia.
From stdpp Require Import base numbers option gmap list.
From S2P Require Import Prelude Bitmap.

#[local] Open Scope Z_scope.

(** ** Data *)

Record pid := Pid {
  pid_prinactive : bool;
  pid_prslot : Z;
  pid_id : Z;
  pid_link : Z;
  pid_ref : Z
}.

Definition set_inactive (p : pid) : pid := Pid true (pid_prslot p) (pid_id p) (pid_link p) (pid_ref p).
Definition set_pid_link (v : Z) (p : pid) : pid := Pid (pid_prinactive p) (pid_prslot p) (pid_id p) v (pid_ref p).
Definition set_pid_ref (v : Z) (p : pid) : pid := Pid (pid_prinactive p) (pid_prslot p) (pid_id p) (pid_link p) (wrapu 32 v).

(** [procdir] has the words of the directory: the address of a process, or of
    the next free entry. *)
Record ptab := Ptab {
  pids : gmap Z pid;
  pidhash : list Z;
  procdir : list Z;
  procentfree : Z;
  mpid : Z;
  minpid : Z
}.

Definition set_pids (v : gmap Z pid) (x : ptab) : ptab := Ptab v (pidhash x) (procdir x) (procentfree x) (mpid x) (minpid x).
Definition set_pidhash (v : list Z) (x : ptab) : ptab := Ptab (pids x) v (procdir x) (procentfree x) (mpid x) (minpid x).
Definition set_procdir (v : list Z) (x : ptab) : ptab := Ptab (pids x) (pidhash x) v (procentfree x) (mpid x) (minpid x).
Definition set_procentfree (v : Z) (x : ptab) : ptab := Ptab (pids x) (pidhash x) (procdir x) v (mpid x) (minpid x).
Definition set_lastpid (v : Z) (x : ptab) : ptab := Ptab (pids x) (pidhash x) (procdir x) (procentfree x) v (minpid x).

(** Accesses to an array. *)
Definition word_at (l : list Z) (i : Z) : option Z := if i <? 0 then None else l !! Z.to_nat i.
Definition put_word (l : list Z) (i v : Z) : option (list Z) :=
  let! _ := word_at l i in Some (<[Z.to_nat i := v]> l).

Section pid.
(** Whether pointers have 64 bits, the address of [procdir], the size of an
    entry, and [maxpid]. *)
Context (lp64 : bool) (base psz maxpid : Z).

Definition hashpid (hash : list Z) (id : Z) : Z := Z.land id (Z.of_nat (length hash) - 1).

(** [&procdir[i]], and back. *)
Definition procent_addr (i : Z) : Z := base + i * psz.
Definition procent_index (pep : Z) : Z := (pep - base) / psz.

(** ** Operations *)

Definition pid_lookup_step (x : ptab) (id : Z) (pidp : Z) : option (loop Z Z) :=
  if pidp =? 0 then Some (Return 0)
  else
    let! p := pids x !! pidp in
    if pid_id p =? id then Some (Return pidp) else Some (Next (pid_link p)).

Definition pid_lookup (x : ptab) (id : Z) : option Z :=
  let! pidp := word_at (pidhash x) (hashpid (pidhash x) id) in
  run (pid_lookup_step x id) (2 + size (pids x)) pidp.

Definition pid_setmin (jump_pid : Z) (x : ptab) : ptab :=
  if negb (jump_pid =? 0) && (mpid x <? jump_pid)
  then Ptab (pids x) (pidhash x) (procdir x) (procentfree x) jump_pid jump_pid
  else Ptab (pids x) (pidhash x) (procdir x) (procentfree x) (mpid x) (mpid x + 1).

(** One round of the search for an ID that is not in use. *)
Definition newpid_step (startpid : Z) (x : ptab) : option (loop ptab ptab) :=
  let x := set_lastpid (if mpid x + 1 =? maxpid then minpid x else mpid x + 1) x in
  let! found := pid_lookup x (mpid x) in
  if negb (found =? 0) && negb (mpid x =? startpid) then Some (Next x) else Some (Return x).

(** [pidp] is the new structure, [prp] the process. *)
Definition pid_assign (x : ptab) (pidp prp : Z) : option (ptab * Z) :=
  let pep := procentfree x in
  if pep =? 0 then Some (x, -1)
  else
    let startpid := mpid x in
    let! x := run (newpid_step startpid) (Z.to_nat (maxpid - minpid x) + 2) x in
    let newpid := mpid x in
    let! found := pid_lookup x newpid in
    if (newpid =? startpid) && negb (found =? 0) then Some (x, -1)
    else
      let slot := procent_index pep in
      let! next := word_at (procdir x) slot in
      let x := set_procentfree next x in
      let! dir := put_word (procdir x) slot prp in
      let x := set_procdir dir x in
      let! first := word_at (pidhash x) (hashpid (pidhash x) newpid) in
      let! hash := put_word (pidhash x) (hashpid (pidhash x) newpid) pidp in
      Some (set_pids (<[pidp := Pid false (wrapu 24 slot) newpid first 1]> (pids x)) (set_pidhash hash x), newpid).

(** A place that points into a hash chain. *)
Inductive pptr := Bucket (i : Z) | Plink (pidp : Z).

Definition load_pp (x : ptab) (pp : pptr) : option Z :=
  match pp with Bucket i => word_at (pidhash x) i | Plink p => pid_link <$> pids x !! p end.
Definition store_pp (x : ptab) (pp : pptr) (v : Z) : option ptab :=
  match pp with
  | Bucket i => let! h := put_word (pidhash x) i v in Some (set_pidhash h x)
  | Plink p => let! c := pids x !! p in Some (set_pids (<[p := set_pid_link v c]> (pids x)) x)
  end.

Definition rele_step (x : ptab) (pidp : Z) (pp : pptr) : option (loop pptr pptr) :=
  let! p := load_pp x pp in
  if p =? pidp then Some (Return pp) else Some (Next (Plink p)).

(** [kmem_free] of the structure takes it out of the memory. *)
Definition pid_rele (x : ptab) (pidp : Z) : option ptab :=
  let! c := pids x !! pidp in
  let! pp := run (rele_step x pidp) (2 + size (pids x)) (Bucket (hashpid (pidhash x) (pid_id c))) in
  let! x := store_pp x pp (pid_link c) in
  Some (set_pids (delete pidp (pids x)) x).

Definition PID_HOLD (x : ptab) (pidp : Z) : option ptab :=
  let! c := pids x !! pidp in
  Some (set_pids (<[pidp := set_pid_ref (pid_ref c + 1) c]> (pids x)) x).

Definition PID_RELE (x : ptab) (pidp : Z) : option ptab :=
  let! c := pids x !! pidp in
  if 1 <? pid_ref c then Some (set_pids (<[pidp := set_pid_ref (pid_ref c - 1) c]> (pids x)) x) else pid_rele x pidp.

Definition proc_entry_free (x : ptab) (pidp : Z) : option ptab :=
  let! c := pids x !! pidp in
  let x := set_pids (<[pidp := set_inactive c]> (pids x)) x in
  let! dir := put_word (procdir x) (pid_prslot c) (procentfree x) in
  Some (set_procentfree (procent_addr (pid_prslot c)) (set_procdir dir x)).

(** [pid_exit] as far as it changes the table.  The statements around these
    two leave the process group and the session, take the process out of the
    list [practive] and free it; none of that is state of the table. *)
Definition pid_exit_id (x : ptab) (pidp : Z) : option ptab :=
  let! x := proc_entry_free x pidp in PID_RELE x pidp.

Definition prfind (x : ptab) (id : Z) : option Z :=
  let! pidp := pid_lookup x id in
  if pidp =? 0 then Some 0
  else
    let! c := pids x !! pidp in
    if pid_prinactive c then Some 0 else word_at (procdir x) (pid_prslot c).

(** Whom [prsignal] and [proc_signal] reach, or 0. *)
Definition prsignal_to (x : ptab) (pidp : Z) : option Z :=
  let! c := pids x !! pidp in
  if pid_prinactive c then Some 0 else word_at (procdir x) (pid_prslot c).

(** The process in a slot that is not being created; [idl] says which are. *)
Definition pid_entry (x : ptab) (idl : Z → bool) (slot : Z) : option Z :=
  let! pep := word_at (procdir x) slot in
  if (base <=? pep) && (pep <? procent_addr (Z.of_nat (length (procdir x)))) then Some 0
  else if negb (pep =? 0) && idl pep then Some 0 else Some pep.

(** The loop of [pid_init]: entries [i] and on, [k] of them, are linked. *)
Fixpoint link_entries (i : Z) (k : nat) : list Z :=
  match k with
  | O => []
  | S O => [0]
  | S k => procent_addr (i + 1) :: link_entries (i + 1) k
  end.

Definition pid_hashlen : Z := 4.
Definition pid_hashsz (v_proc : nat) : Z := Z.shiftl 1 (highbit lp64 (Z.of_nat v_proc / pid_hashlen)).

(** [pid_init] for [v_proc] slots; [sched] is process 0 and [pid0] its
    structure. *)
Definition pid_init (v_proc : nat) (pid0 sched : Z) : ptab :=
  Ptab {[pid0 := Pid false 0 0 0 3]} (<[0%nat := pid0]> (replicate (Z.to_nat (pid_hashsz v_proc)) 0))
    (sched :: link_entries 1 (v_proc - 1)) (procent_addr 1) 0 0.
End pid.


(** ** The specification *)

(** A process ID that is in use: how often it is referred to, and the slot
    and process, until the process has exited. *)
Record apid := Apid { a_id : Z; a_refs : Z; a_where : option (Z * Z) }.

(** [afree] has the free slots, the next one first. *)
Record aptab := Aptab { apids : gmap Z apid; afree : list Z; ampid : Z; aminpid : Z }.

Definition id_in_use (a : aptab) (id : Z) : Prop := map_Exists (λ _ c, a_id c = id) (apids a).

Inductive pid_op :=
  | PAssign (pidp prp : Z)
  | PHold (p : Z)
  | PRele (p : Z)
  | PExit (p : Z)
  | PFind (id : Z)
  | PSignal (p : Z)
  | PEntry (slot : Z)
  | PSetmin (jump : Z).

Section spec.
Context (maxpid : Z) (idl : Z → bool).

(** The IDs in the order in which they are tried: those after the last one
    that was given out, then from the smallest. *)
Definition pid_candidate (last min k : Z) : Z :=
  if k <? maxpid - 1 - last then last + 1 + k else min + (k - (maxpid - 1 - last)).
Definition pid_candidates (a : aptab) : list Z := pid_candidate (ampid a) (aminpid a) <$> seqZ 0 (maxpid - aminpid a).
Definition first_unused (a : aptab) : option Z := head (filter (λ id, ¬ id_in_use a id) (pid_candidates a)).

(** The ID is in use until nobody refers to it. *)
Definition a_release (p : Z) (a : aptab) : aptab :=
  match apids a !! p with
  | Some c =>
      let m := if decide (1 < a_refs c) then <[p := Apid (a_id c) (a_refs c - 1) (a_where c)]> (apids a) else delete p (apids a) in
      Aptab m (afree a) (ampid a) (aminpid a)
  | None => a
  end.

(** The process is gone and its slot is free. *)
Definition a_leave (p : Z) (a : aptab) : aptab :=
  match apids a !! p with
  | Some c =>
      let F := match a_where c with Some (slot, _) => slot :: afree a | None => afree a end in
      Aptab (<[p := Apid (a_id c) (a_refs c) None]> (apids a)) F (ampid a) (aminpid a)
  | None => a
  end.

(** The process of what satisfies [P], or 0. *)
Definition proc_with (P : apid → Prop) `{!∀ c, Decision (P c)} (a : aptab) : Z :=
  match filter P (snd <$> map_to_list (apids a)) with
  | c :: _ => default 0 (snd <$> a_where c)
  | [] => 0
  end.

Definition pid_spec (a : aptab) (o : pid_op) : aptab * Z :=
  match o with
  | PAssign pidp prp =>
      match afree a, first_unused a with
      | slot :: F, Some id => (Aptab (<[pidp := Apid id 1 (Some (slot, prp))]> (apids a)) F id (aminpid a), id)
      | _, _ => (a, -1)
      end
  | PHold p => (Aptab (alter (λ c, Apid (a_id c) (a_refs c + 1) (a_where c)) p (apids a)) (afree a) (ampid a) (aminpid a), 0)
  | PRele p => (a_release p a, 0)
  | PExit p => (a_release p (a_leave p a), 0)
  | PFind id => (a, proc_with (λ c, a_id c = id) a)
  | PSignal p => (a, default 0 (snd <$> (apids a !! p ≫= a_where)))
  | PEntry slot =>
      let prp := proc_with (λ c, fst <$> a_where c = Some slot) a in
      (a, if idl prp then 0 else prp)
  | PSetmin jump =>
      (if decide (jump ≠ 0 ∧ ampid a < jump) then Aptab (apids a) (afree a) jump jump
       else Aptab (apids a) (afree a) (ampid a) (ampid a + 1), 0)
  end.
End spec.

(** ** The operations as one function, and what their callers keep to *)

Section exec.
Context (base psz maxpid : Z) (idl : Z → bool) (v_proc : nat) (pid0 : Z).

Definition pid_exec (x : ptab) (o : pid_op) : option (ptab * Z) :=
  match o with
  | PAssign pidp prp => pid_assign base psz maxpid x pidp prp
  | PHold p => let! x := PID_HOLD x p in Some (x, 0)
  | PRele p => let! x := PID_RELE x p in Some (x, 0)
  | PExit p => let! x := pid_exit_id base psz x p in Some (x, 0)
  | PFind id => let! r := prfind x id in Some (x, r)
  | PSignal p => let! r := prsignal_to x p in Some (x, r)
  | PEntry slot => let! r := pid_entry base psz x idl slot in Some (x, r)
  | PSetmin jump => Some (pid_setmin jump x, 0)
  end.

(** The address of a process is not one in the directory. *)
Definition outside (prp : Z) : Prop := prp ≠ 0 ∧ ¬ (base <= prp < procent_addr base psz (Z.of_nat v_proc)).

(** New structures come from the allocator.  Whoever refers to an ID holds a
    reference to it, the process itself until it exits; process 0 stays.
    [pid_setmin] leaves an ID to give out.  Before an ID has been given out
    after [pid_setmin], not all may be in use. *)
Definition pid_ok (a : aptab) (o : pid_op) : Prop :=
  match o with
  | PAssign pidp prp =>
      pidp ≠ 0 ∧ apids a !! pidp = None ∧ outside prp ∧ (aminpid a <= ampid a ∨ first_unused maxpid a ≠ None)
  | PHold p => ∃ c, apids a !! p = Some c ∧ a_refs c < 2 ^ 32 - 1
  | PRele p => ∃ c, apids a !! p = Some c ∧ (1 < a_refs c ∨ a_where c = None ∧ p ≠ pid0)
  | PExit p => p ≠ pid0 ∧ ∃ c, apids a !! p = Some c ∧ a_where c ≠ None
  | PFind id => True
  | PSignal p => is_Some (apids a !! p)
  | PEntry slot => 0 <= slot < Z.of_nat v_proc
  | PSetmin jump => jump < maxpid ∧ ampid a < maxpid - 1
  end.

(** The operations one after the other, with their results. *)
Fixpoint pid_run (x : ptab) (os : list pid_op) : option (ptab * list Z) :=
  match os with
  | [] => Some (x, [])
  | o :: os => let! xr := pid_exec x o in let! yr := pid_run (fst xr) os in Some (fst yr, snd xr :: snd yr)
  end.

Fixpoint pid_spec_run (a : aptab) (os : list pid_op) : aptab * list Z :=
  match os with
  | [] => (a, [])
  | o :: os =>
      let r := pid_spec maxpid idl a o in
      let s := pid_spec_run (fst r) os in (fst s, snd r :: snd s)
  end.

Fixpoint pid_oks (a : aptab) (os : list pid_op) : Prop :=
  match os with
  | [] => True
  | o :: os => pid_ok a o ∧ pid_oks (fst (pid_spec maxpid idl a o)) os
  end.
End exec.

(** ** The hash table *)

Definition link_of (P : gmap Z pid) (p : Z) : option Z := pid_link <$> P !! p.

(** [H] has the hash chains. *)
Record phash (P : gmap Z pid) (hash : list Z) (H : list (list Z)) : Prop := {
  h_size : ∃ k, 0 <= k ∧ Z.of_nat (length hash) = 2 ^ k;
  h_heads : hash = hd 0 <$> H;
  h_links b l : H !! b = Some l → lseg (link_of P) l 0 ∧ NoDup l;
  h_chain b l p : H !! b = Some l → p ∈ l ↔ ∃ c, P !! p = Some c ∧ hashpid hash (pid_id c) = Z.of_nat b;
  h_nonzero : P !! 0 = None;
  h_unique p p' c c' : P !! p = Some c → P !! p' = Some c' → pid_id c = pid_id c' → p = p'
}.

Lemma hashpid_range hash id :
  (∃ k, 0 <= k ∧ Z.of_nat (length hash) = 2 ^ k) → 0 <= hashpid hash id < Z.of_nat (length hash).
Proof.
  intros (k & Hk & E). unfold hashpid. rewrite E, Z.sub_1_r, <- Z.ones_equiv, Z.land_ones by done.
  apply Z.mod_pos_bound. lia.
Qed.

Lemma word_at_eq l i : 0 <= i → word_at l i = l !! Z.to_nat i.
Proof. intros Hi. unfold word_at. by destruct (Z.ltb_spec i 0); [lia|]. Qed.

Lemma put_word_eq l i v : 0 <= i < Z.of_nat (length l) → put_word l i v = Some (<[Z.to_nat i := v]> l).
Proof.
  intros Hi. unfold put_word. rewrite word_at_eq by lia.
  destruct (lookup_lt_is_Some_2 l (Z.to_nat i)) as [w ->]; [lia|done].
Qed.

Lemma word_at_insert dir s s' v : 0 <= s < Z.of_nat (length dir) → 0 <= s' →
  word_at (<[Z.to_nat s := v]> dir) s' = if decide (s' = s) then Some v else word_at dir s'.
Proof.
  intros Hs Hs'. rewrite !word_at_eq by done. case_decide as E.
  - rewrite E. apply list_lookup_insert_eq. lia.
  - apply list_lookup_insert_ne. lia.
Qed.

(** The chain an ID is on. *)
Lemma phash_bucket P hash H id : phash P hash H →
  ∃ b l, Z.of_nat b = hashpid hash id ∧ H !! b = Some l ∧ (b < length hash)%nat ∧ word_at hash (hashpid hash id) = Some (hd 0 l).
Proof.
  intros Hh. destruct (hashpid_range hash id (h_size _ _ _ Hh)) as [H0 H1].
  assert (length hash = length H) as El by (rewrite (h_heads _ _ _ Hh); apply length_fmap).
  destruct (lookup_lt_is_Some_2 H (Z.to_nat (hashpid hash id))) as [l Hl]; [lia|].
  exists (Z.to_nat (hashpid hash id)), l. split; [lia|]. split; [done|]. split; [lia|].
  assert (∀ i, hash !! i = hd 0 <$> H !! i) as Ei by (intros i; rewrite (h_heads _ _ _ Hh); apply list_lookup_fmap).
  rewrite word_at_eq by done. by rewrite Ei, Hl.
Qed.

Lemma pid_chain_length P hash H b l : phash P hash H → H !! b = Some l → (length l <= size P)%nat.
Proof.
  intros Hh Hl. destruct (h_links _ _ _ Hh b l Hl) as [_ Hn]. rewrite <- size_dom, <- (size_list_to_set (C := gset Z) l) by done.
  apply subseteq_size. intros p Hp%elem_of_list_to_set. apply elem_of_dom.
  apply (h_chain _ _ _ Hh b l p Hl) in Hp as (c & -> & _). done.
Qed.

Lemma chain_nonzero P hash H b l : phash P hash H → H !! b = Some l → 0 ∉ l.
Proof. intros Hh Hl (c & E & _)%(h_chain _ _ _ Hh b l 0 Hl). by rewrite (h_nonzero _ _ _ Hh) in E. Qed.

Lemma pid_lookup_ok x H id : phash (pids x) (pidhash x) H →
  ∃ r, pid_lookup x id = Some r ∧
    ((r = 0 ∧ ∀ p c, pids x !! p = Some c → pid_id c ≠ id) ∨ (r ≠ 0 ∧ ∃ c, pids x !! r = Some c ∧ pid_id c = id)).
Proof.
  intros Hh. destruct (phash_bucket _ _ _ id Hh) as (b & l & Hb & Hl & _ & E).
  unfold pid_lookup. rewrite E. pose proof (pid_chain_length _ _ _ _ _ Hh Hl) as Hlen.
  apply (run_total_idx _ (λ n s, ∃ l1 l2, l = l1 ++ l2 ∧ s = hd 0 l2 ∧ n = length l2 ∧
    ∀ p c, p ∈ l1 → pids x !! p = Some c → pid_id c ≠ id) _) with (n := length l).
  - intros n s (l1 & l2 & -> & -> & -> & Hno). unfold pid_lookup_step. destruct l2 as [|p l2]; cbn [hd].
    + eexists; split; [done|]. left. split; [done|]. intros p c Hp Hid. rewrite app_nil_r in *.
      apply (Hno p c); [|done|done]. apply (h_chain _ _ _ Hh b _ p Hl). exists c. by rewrite Hid.
    + assert (p ∈ l1 ++ p :: l2) as Hin by set_solver.
      pose proof (proj1 (h_chain _ _ _ Hh b _ p Hl) Hin) as (c & Hp & _).
      destruct (Z.eqb_spec p 0) as [->|Hp0]; [by destruct (chain_nonzero _ _ _ _ _ Hh Hl)|]. rewrite Hp.
      destruct (Z.eqb_spec (pid_id c) id) as [Hid|Hid]; (eexists; split; [done|]).
      { right. split; [done|]. by exists c. }
      destruct (h_links _ _ _ Hh b _ Hl) as [Hseg _]. apply lseg_app in Hseg as [_ [Hlk _]]. unfold link_of in Hlk.
      rewrite Hp in Hlk. injection Hlk as Hlk. exists (length l2). split; [cbn; lia|]. exists (l1 ++ [p]), l2.
      rewrite <- app_assoc. do 3 (split; [done|]). intros q d [Hq|Hq]%elem_of_app; [by apply Hno|].
      apply list_elem_of_singleton in Hq as ->. rewrite Hp. by intros [= <-].
  - exists [], l. do 3 (split; [done|]). intros ?? []%not_elem_of_nil.
  - lia.
Qed.

(** A change that keeps links and IDs. *)
Lemma phash_update P hash H p c c' : phash P hash H → P !! p = Some c →
  pid_id c' = pid_id c → pid_link c' = pid_link c → phash (<[p := c']> P) hash H.
Proof.
  intros Hh Hp Eid Elk.
  assert (∀ q d, <[p := c']> P !! q = Some d → ∃ d0, P !! q = Some d0 ∧ pid_id d = pid_id d0) as Hback.
  { intros q d [[<- <-]|[_ Hq]]%lookup_insert_Some; eauto. }
  assert (∀ q, link_of (<[p := c']> P) q = link_of P q) as Hlk.
  { intros q. unfold link_of. destruct (decide (q = p)) as [-> |]; simplify_map_eq; [by rewrite Elk|done]. }
  split; try apply Hh.
  - intros b l Hl. destruct (h_links _ _ _ Hh b l Hl) as [Hs Hn]. split; [|done]. by apply (lseg_ext (link_of P)).
  - intros b l q Hl. rewrite (h_chain _ _ _ Hh b l q Hl). split.
    + intros (d & Hq & E). destruct (decide (q = p)) as [-> |]; [|exists d; by simplify_map_eq].
      exists c'. simplify_map_eq. by rewrite Eid.
    + intros (d & (d0 & Hq & E0)%Hback & E). exists d0. by rewrite <- E0.
  - rewrite lookup_insert_None. split; [apply Hh|]. intros ->. by rewrite (h_nonzero _ _ _ Hh) in Hp.
  - intros q q' d d' (d0 & Hq & E)%Hback (d0' & Hq' & E')%Hback Ed. apply (h_unique _ _ _ Hh q q' d0 d0' Hq Hq'). congruence.
Qed.

Lemma phash_other_chain P hash H b b' l l' p : phash P hash H → H !! b = Some l → H !! b' = Some l' → b ≠ b' → p ∈ l → p ∉ l'.
Proof.
  intros Hh Hl Hl' Hne (c & Hp & E)%(h_chain _ _ _ Hh b l p Hl) (c' & Hp' & E')%(h_chain _ _ _ Hh b' l' p Hl').
  simplify_eq. lia.
Qed.

Lemma phash_insert P hash H p c b l : phash P hash H → p ≠ 0 → P !! p = None →
  (∀ q d, P !! q = Some d → pid_id d ≠ pid_id c) → Z.of_nat b = hashpid hash (pid_id c) → H !! b = Some l → pid_link c = hd 0 l →
  phash (<[p := c]> P) (<[b := p]> hash) (<[b := p :: l]> H).
Proof.
  intros Hh Hp0 Hp Hnew Hb Hl Elk. pose proof (lookup_lt_Some _ _ _ Hl) as Hlt.
  assert (∀ id, hashpid (<[b := p]> hash) id = hashpid hash id) as Eh by (intros; unfold hashpid; by rewrite length_insert).
  assert (∀ b' l', H !! b' = Some l' → lseg (link_of (<[p := c]> P)) l' 0 ∧ p ∉ l') as Hold.
  { intros b' l' Hl'. assert (p ∉ l') as Hnp by (intros (d & Hd & _)%(h_chain _ _ _ Hh b' l' p Hl'); congruence).
    split; [|done]. eapply lseg_ext, (h_links _ _ _ Hh b' l' Hl'). intros q Hq. unfold link_of. by rewrite lookup_insert_ne by set_solver. }
  split.
  - rewrite length_insert. apply Hh.
  - rewrite list_fmap_insert. cbn. by rewrite <- (h_heads _ _ _ Hh).
  - intros b' l' [(<- & <- & _)|[_ Hl']]%list_lookup_insert_Some.
    + destruct (Hold b l Hl) as [Hs Hnp]. split; [|constructor; [done|by apply (h_links _ _ _ Hh b)]].
      cbn. split; [|done]. unfold link_of. rewrite lookup_insert_eq. cbn. by rewrite Elk.
    + split; [by apply (Hold b')|]. by apply (h_links _ _ _ Hh b').
  - intros b' l' q Hl'. setoid_rewrite Eh. destruct (decide (q = p)) as [-> | Hq].
    + setoid_rewrite lookup_insert_eq. split.
      * intros Hin. exists c. split; [done|]. apply list_lookup_insert_Some in Hl' as [(<- & <- & _)|[_ Hl']]; [by rewrite Hb|].
        by destruct (Hold b' l' Hl').
      * intros (d & [= <-] & E). assert (b' = b) as -> by lia. rewrite list_lookup_insert_eq in Hl' by done. simplify_eq. constructor.
    + setoid_rewrite lookup_insert_ne; [|done]. apply list_lookup_insert_Some in Hl' as [(<- & <- & _)|[_ Hl']].
      * rewrite elem_of_cons, <- (h_chain _ _ _ Hh b l q Hl). naive_solver.
      * by apply (h_chain _ _ _ Hh b' l').
  - by rewrite lookup_insert_ne by done; apply Hh.
  - intros q q' d d' [[<- <-]|[? Hq]]%lookup_insert_Some [[<- <-]|[? Hq']]%lookup_insert_Some E; [done|..].
    + by destruct (Hnew q' d').
    + by destruct (Hnew q d).
    + by eapply (h_unique _ _ _ Hh).
Qed.

(** All of a structure but its link. *)
Definition pid_unlinked (P : gmap Z pid) (p : Z) : option pid := set_pid_link 0 <$> P !! p.

Lemma pid_unlinked_some P P' p c : pid_unlinked P' p = pid_unlinked P p → P !! p = Some c →
  ∃ c', P' !! p = Some c' ∧ set_pid_link 0 c' = set_pid_link 0 c.
Proof. unfold pid_unlinked. intros E Hp. rewrite Hp in E. destruct (P' !! p) as [c'|]; [|done]. exists c'. split; [done|]. by apply (inj Some). Qed.

Lemma phash_delete P hash H p b l1 l2 P' hash' : phash P hash H → H !! b = Some (l1 ++ p :: l2) →
  hash' = hd 0 <$> <[b := l1 ++ l2]> H → P' !! p = None → (∀ q, q ≠ p → pid_unlinked P' q = pid_unlinked P q) →
  lseg (link_of P') (l1 ++ l2) 0 → (∀ q, q ∉ l1 ++ p :: l2 → link_of P' q = link_of P q) →
  phash P' hash' (<[b := l1 ++ l2]> H).
Proof.
  intros Hh Hl -> Hp Hsame Hseg Hlk. pose proof (lookup_lt_Some _ _ _ Hl) as Hlt.
  destruct (h_links _ _ _ Hh b _ Hl) as [_ Hn]. apply NoDup_app in Hn as (Hn1 & Hd & [Hnp Hn2]%NoDup_cons).
  assert (length (hd 0 <$> <[b := l1 ++ l2]> H) = length hash) as El.
  { rewrite length_fmap, length_insert, (h_heads _ _ _ Hh). by rewrite length_fmap. }
  assert (∀ id, hashpid (hd 0 <$> <[b := l1 ++ l2]> H) id = hashpid hash id) as Eh by (intros; unfold hashpid; by rewrite El).
  assert (∀ q d', P' !! q = Some d' → q ≠ p ∧ ∃ d, P !! q = Some d ∧ pid_id d' = pid_id d) as Hback.
  { intros q d' Hq. assert (q ≠ p) as Hne by congruence. split; [done|].
    destruct (pid_unlinked_some P' P q d' (eq_sym (Hsame q Hne)) Hq) as (d & Hd' & E). exists d. split; [done|]. by apply (f_equal pid_id) in E. }
  assert (∀ q k, (∃ d, P' !! q = Some d ∧ hashpid hash (pid_id d) = k) ↔ q ≠ p ∧ ∃ d, P !! q = Some d ∧ hashpid hash (pid_id d) = k) as Hcell.
  { intros q k. split.
    - intros (d' & (Hne & d & Hq & E)%Hback & Ek). split; [done|]. exists d. by rewrite <- E.
    - intros (Hne & d & Hq & Ek). destruct (pid_unlinked_some P P' q d (Hsame q Hne) Hq) as (d' & Hq' & E). apply (f_equal pid_id) in E. cbn in E.
      exists d'. split; [done|]. congruence. }
  split.
  - rewrite El. apply Hh.
  - done.
  - intros b' l' [(<- & <- & _)|[Hne Hl']]%list_lookup_insert_Some.
    + split; [done|]. apply NoDup_app. split; [done|]. split; [|done]. set_solver.
    + destruct (h_links _ _ _ Hh b' l' Hl') as [Hs Hn]. split; [|done]. apply (lseg_ext (link_of P)); [|done].
      intros q Hq. apply Hlk. by apply (phash_other_chain _ _ _ b' b l' _ q Hh Hl' Hl).
  - intros b' l' q Hl'. setoid_rewrite Eh. rewrite Hcell. apply list_lookup_insert_Some in Hl' as [(<- & <- & _)|[Hne Hl']].
    + rewrite <- (h_chain _ _ _ Hh b _ q Hl). set_solver.
    + rewrite <- (h_chain _ _ _ Hh b' l' q Hl'). split; [|tauto]. intros Hq. split; [|done]. intros ->.
      apply (phash_other_chain _ _ _ b' b l' _ p Hh Hl' Hl) in Hq; set_solver.
  - destruct (P' !! 0) as [d|] eqn:E; [|done]. apply Hback in E as (_ & d0 & E & _). by rewrite (h_nonzero _ _ _ Hh) in E.
  - intros q q' d d' (_ & d0 & Hq & E)%Hback (_ & d0' & Hq' & E')%Hback Ed. apply (h_unique _ _ _ Hh q q' d0 d0' Hq Hq'). congruence.
Qed.

(** The place that points to the structure after [l1] on a chain. *)
Definition pp_place (b : Z) (l1 : list Z) : pptr := match last l1 with Some y => Plink y | None => Bucket b end.

Lemma load_pp_place x H b l1 l2 : phash (pids x) (pidhash x) H → H !! b = Some (l1 ++ l2) →
  load_pp x (pp_place (Z.of_nat b) l1) = Some (hd 0 l2).
Proof.
  intros Hh Hl. unfold pp_place. destruct l1 as [|y l0 _] using rev_ind; cbn.
  - rewrite word_at_eq by lia. by rewrite Nat2Z.id, (h_heads _ _ _ Hh), list_lookup_fmap, Hl.
  - rewrite last_snoc. cbn. destruct (h_links _ _ _ Hh b _ Hl) as [Hs _]. rewrite <- app_assoc in Hs.
    apply lseg_app in Hs as [_ [E _]]. exact E.
Qed.

Lemma rele_scan x H b l1 p l2 : phash (pids x) (pidhash x) H → H !! b = Some (l1 ++ p :: l2) →
  run (rele_step x p) (2 + size (pids x)) (Bucket (Z.of_nat b)) = Some (pp_place (Z.of_nat b) l1).
Proof.
  intros Hh Hl. pose proof (pid_chain_length _ _ _ _ _ Hh Hl) as Hlen. rewrite length_app in Hlen.
  destruct (run_total_idx (rele_step x p) (λ n s, ∃ k1 k2, l1 = k1 ++ k2 ∧ s = pp_place (Z.of_nat b) k1 ∧ n = length k2)
    (λ r, r = pp_place (Z.of_nat b) l1)) with (n := length l1) (fuel := (2 + size (pids x))%nat) (s := Bucket (Z.of_nat b))
    as (r & E & ->); [| |lia|exact E].
  - intros n s (k1 & k2 & -> & -> & ->). rewrite <- app_assoc in Hl. unfold rele_step. rewrite (load_pp_place x H b k1 _ Hh Hl).
    destruct k2 as [|q k2]; cbn [hd app].
    + rewrite Z.eqb_refl. eexists; split; [done|]. by rewrite app_nil_r.
    + destruct (h_links _ _ _ Hh b _ Hl) as [_ (_ & _ & [Hq _]%NoDup_cons)%NoDup_app].
      destruct (Z.eqb_spec q p) as [-> |_]; [set_solver|]. eexists; split; [done|]. exists (length k2). split; [cbn; lia|].
      exists (k1 ++ [q]), k2. rewrite <- app_assoc. split; [done|]. split; [|done]. unfold pp_place. by rewrite last_snoc.
  - exists [], l1. done.
Qed.

Lemma pid_rele_ok x H p c : phash (pids x) (pidhash x) H → pids x !! p = Some c →
  ∃ P' hash' H', pid_rele x p = Some (Ptab P' hash' (procdir x) (procentfree x) (mpid x) (minpid x)) ∧
    phash P' hash' H' ∧ P' !! p = None ∧ ∀ q, q ≠ p → pid_unlinked P' q = pid_unlinked (pids x) q.
Proof.
  intros Hh Hp. destruct (phash_bucket _ _ _ (pid_id c) Hh) as (b & l & Hb & Hl & Hlt & _).
  assert (p ∈ l) as (l1 & l2 & ->)%list_elem_of_split by (apply (h_chain _ _ _ Hh b l p Hl); by exists c).
  unfold pid_rele. rewrite Hp, <- Hb, (rele_scan x H b l1 p l2 Hh Hl).
  destruct (h_links _ _ _ Hh b _ Hl) as [Hs Hn]. apply lseg_app in Hs as [Hs1 [Elk Hs2]]. unfold link_of in Elk.
  rewrite Hp in Elk. injection Elk as Elk. apply NoDup_app in Hn as (Hn1 & Hd & [Hnp Hn2]%NoDup_cons).
  assert (∀ l', p ∉ l' → lseg (link_of (pids x)) l' 0 → lseg (link_of (delete p (pids x))) l' 0) as Hdel.
  { intros l' Hl'. apply lseg_ext. intros q Hq. unfold link_of. by rewrite lookup_delete_ne by set_solver. }
  unfold pp_place. destruct l1 as [|y l0 _] using rev_ind; cbn [last]; [|rewrite last_snoc]; cbn [store_pp].
  - rewrite put_word_eq by lia. do 3 eexists. split; [reflexivity|]. cbn [pids set_pidhash set_pids pidhash].
    split; [eapply (phash_delete _ _ _ p b [] l2)|]; try done.
    + rewrite Nat2Z.id, list_fmap_insert, Elk. by rewrite (h_heads _ _ _ Hh).
    + by rewrite lookup_delete_eq.
    + intros q Hq. unfold pid_unlinked. by rewrite lookup_delete_ne.
    + by apply Hdel.
    + intros q Hq. unfold link_of. by rewrite lookup_delete_ne by set_solver.
    + split; [by rewrite lookup_delete_eq|]. intros q Hq. unfold pid_unlinked. by rewrite lookup_delete_ne.
  - rewrite <- app_assoc in Hl. cbn in Hl.
    assert (y ∈ l0 ++ y :: p :: l2) as Hy by set_solver. apply (h_chain _ _ _ Hh b _ y Hl) in Hy as (d & Hy & _).
    assert (y ≠ p ∧ (y ∉ l2) ∧ p ∉ l0) as (Hyp & Hyl & Hpl) by set_solver. rewrite Hy.
    assert (∀ q, q ≠ p → pid_unlinked (delete p (<[y:=set_pid_link (pid_link c) d]> (pids x))) q = pid_unlinked (pids x) q) as Hun.
    { intros q Hq. unfold pid_unlinked. rewrite lookup_delete_ne by done.
      by destruct (decide (q = y)) as [-> |]; simplify_map_eq. }
    assert (∀ q, q ≠ p → q ≠ y → link_of (delete p (<[y:=set_pid_link (pid_link c) d]> (pids x))) q = link_of (pids x) q) as Hlk.
    { intros q Hq Hq'. unfold link_of. by rewrite lookup_delete_ne, lookup_insert_ne by done. }
    do 3 eexists. split; [reflexivity|]. cbn [pids set_pids pidhash]. split; [|by rewrite lookup_delete_eq].
    eapply (phash_delete _ _ _ p b (l0 ++ [y]) l2); try done.
    + by rewrite <- app_assoc.
    + rewrite list_fmap_insert. rewrite (h_heads _ _ _ Hh). symmetry. apply list_insert_id. rewrite list_lookup_fmap, Hl. by destruct l0.
    + by rewrite lookup_delete_eq.
    + apply NoDup_app in Hn1 as (_ & Hd0 & _). rewrite <- app_assoc. apply lseg_app in Hs1 as [Hs1 _]. apply lseg_app. split; [|split].
      * apply (lseg_ext (link_of (pids x))); [|done]. intros q Hq. apply Hlk; set_solver.
      * unfold link_of. rewrite lookup_delete_ne, lookup_insert_eq by done. cbn. by rewrite Elk.
      * apply (lseg_ext (link_of (pids x))); [|done]. intros q Hq. apply Hlk; set_solver.
    + intros q Hq. apply Hlk; set_solver.
Qed.

(** ** The directory *)

(** The slot of a process that has not exited. *)
Definition aslot (P : gmap Z pid) (p s : Z) : Prop := ∃ c, P !! p = Some c ∧ pid_prinactive c = false ∧ pid_prslot c = s.

Section dir.
Context (base psz : Z) (v_proc : nat) (Hbase : 0 < base) (Hpsz : 0 < psz).

Fixpoint free_chain (dir : list Z) (F : list Z) : Prop :=
  match F with
  | [] => True
  | s :: F' => 0 <= s < Z.of_nat v_proc ∧ word_at dir s = Some (hd 0 (procent_addr base psz <$> F')) ∧ free_chain dir F'
  end.

(** [F] has the free slots; each slot is free or has a process. *)
Record pdir (P : gmap Z pid) (dir : list Z) (fre : Z) (F : list Z) : Prop := {
  d_length : length dir = v_proc;
  d_first : fre = hd 0 (procent_addr base psz <$> F);
  d_chain : free_chain dir F;
  d_nodup : NoDup F;
  d_active p s : aslot P p s →
    0 <= s < Z.of_nat v_proc ∧ (s ∉ F) ∧ ∃ prp, word_at dir s = Some prp ∧ outside base psz v_proc prp;
  d_slots p p' s : aslot P p s → aslot P p' s → p = p';
  d_cover s : 0 <= s < Z.of_nat v_proc → s ∈ F ∨ ∃ p, aslot P p s
}.

Lemma free_chain_ext dir dir' F : (∀ s, s ∈ F → word_at dir' s = word_at dir s) → free_chain dir F → free_chain dir' F.
Proof.
  induction F as [|s F IH]; cbn; [done|]. intros E (Hs & Hw & Hf). split; [done|]. rewrite E by constructor. split; [done|].
  apply IH; [|done]. intros s' Hs'. apply E. by constructor.
Qed.

Lemma free_chain_at dir F s : free_chain dir F → s ∈ F →
  0 <= s < Z.of_nat v_proc ∧ ∃ w, word_at dir s = Some w ∧ (w = 0 ∨ base <= w < procent_addr base psz (Z.of_nat v_proc)).
Proof using Hbase Hpsz.
  induction F as [|s0 F IH]; cbn; [by intros _ ?%elem_of_nil|]. intros (Hs & Hw & Hf) [-> |Hin]%elem_of_cons; [|by apply IH].
  split; [done|]. eexists; split; [done|]. destruct F as [|s1 F]; [by left|]. right. cbn in Hf |- *. destruct Hf as (H1 & _).
  unfold procent_addr. nia.
Qed.

Lemma procent_index_addr s : procent_index base psz (procent_addr base psz s) = s.
Proof using Hpsz. unfold procent_index, procent_addr. rewrite Z.add_simpl_l. apply Z.div_mul. lia. Qed.

Lemma pdir_ext P P' dir fre F : (∀ p s, aslot P' p s ↔ aslot P p s) → pdir P dir fre F → pdir P' dir fre F.
Proof.
  intros E Hd. split; try apply Hd.
  - intros p s. rewrite E. apply Hd.
  - intros p p' s. rewrite !E. apply Hd.
  - intros s Hs. setoid_rewrite E. by apply Hd.
Qed.

(** A process takes the first free slot. *)
Lemma pdir_take P dir fre s F p c prp : pdir P dir fre (s :: F) → P !! p = None → pid_prinactive c = false → pid_prslot c = s →
  outside base psz v_proc prp →
  pdir (<[p := c]> P) (<[Z.to_nat s := prp]> dir) (hd 0 (procent_addr base psz <$> F)) F.
Proof.
  intros Hd Hp Hact Hslot Hout. pose proof (d_length _ _ _ _ Hd) as El. destruct (d_chain _ _ _ _ Hd) as (Hs & Hw & Hf).
  pose proof (d_nodup _ _ _ _ Hd) as [Hn1 Hn2]%NoDup_cons.
  assert (∀ q t, aslot (<[p := c]> P) q t ↔ q = p ∧ t = s ∨ q ≠ p ∧ aslot P q t) as Ha.
  { intros q t. unfold aslot. destruct (decide (q = p)) as [-> | Hq].
    - rewrite lookup_insert_eq. split; [intros (d & [= <-] & _ & <-); by left|]. intros [[_ ->]|[? _]]; [by exists c|done].
    - rewrite lookup_insert_ne by done. naive_solver. }
  split.
  - by rewrite length_insert.
  - done.
  - apply (free_chain_ext dir); [|done]. intros t Ht. destruct (free_chain_at dir F t Hf Ht) as [Ht0 _].
    rewrite word_at_insert by lia. by rewrite decide_False by set_solver.
  - done.
  - intros q t [[-> ->]|[Hq Ht]]%Ha.
    + split; [done|]. split; [done|]. exists prp. rewrite word_at_insert by lia. by rewrite decide_True.
    + destruct (d_active _ _ _ _ Hd q t Ht) as (Ht0 & Hnt & Hw'). split; [done|]. split; [set_solver|].
      rewrite word_at_insert by lia. by rewrite decide_False by set_solver.
  - intros q q' t [[-> ->]|[Hq Ht]]%Ha [[-> E]|[Hq' Ht']]%Ha; [done|..].
    + destruct (d_active _ _ _ _ Hd q' s Ht') as (_ & Hnt & _). set_solver.
    + subst t. destruct (d_active _ _ _ _ Hd q s Ht) as (_ & Hnt & _). set_solver.
    + by apply (d_slots _ _ _ _ Hd q q' t).
  - intros t Ht. setoid_rewrite Ha. destruct (d_cover _ _ _ _ Hd t Ht) as [[-> |?]%elem_of_cons|[q Hq]].
    + right. exists p. by left.
    + by left.
    + right. exists q. right. split; [|done]. intros ->. destruct Hq as (d & Hd' & _). congruence.
Qed.

(** A process gives its slot back. *)
Lemma pdir_give P dir fre F p c s : pdir P dir fre F → P !! p = Some c → pid_prinactive c = false → pid_prslot c = s →
  pdir (<[p := set_inactive c]> P) (<[Z.to_nat s := fre]> dir) (procent_addr base psz s) (s :: F).
Proof.
  intros Hd Hp Hact Hslot. pose proof (d_length _ _ _ _ Hd) as El. assert (aslot P p s) as Hps by by exists c.
  destruct (d_active _ _ _ _ Hd p s Hps) as (Hs & Hns & _).
  assert (∀ q t, aslot (<[p := set_inactive c]> P) q t ↔ q ≠ p ∧ aslot P q t) as Ha.
  { intros q t. unfold aslot. destruct (decide (q = p)) as [-> | Hq].
    - rewrite lookup_insert_eq. split; [by intros (d & [= <-] & E & _)|]. by intros [? _].
    - rewrite lookup_insert_ne by done. naive_solver. }
  assert (∀ q t, q ≠ p → aslot P q t → t ≠ s) as Hts.
  { intros q t Hq Ht ->. by apply Hq, (d_slots _ _ _ _ Hd q p s). }
  split.
  - by rewrite length_insert.
  - done.
  - cbn. split; [done|]. rewrite word_at_insert by lia. rewrite decide_True by done. rewrite <- (d_first _ _ _ _ Hd). split; [done|].
    apply (free_chain_ext dir); [|apply Hd]. intros t Ht. destruct (free_chain_at dir F t (d_chain _ _ _ _ Hd) Ht) as [Ht0 _].
    rewrite word_at_insert by lia. by rewrite decide_False by set_solver.
  - constructor; [done|apply Hd].
  - intros q t [Hq Ht]%Ha. pose proof (Hts q t Hq Ht) as Hne. destruct (d_active _ _ _ _ Hd q t Ht) as (Ht0 & Hnt & Hw').
    split; [done|]. split; [set_solver|]. rewrite word_at_insert by lia. by rewrite decide_False.
  - intros q q' t [_ Ht]%Ha [_ Ht']%Ha. by apply (d_slots _ _ _ _ Hd q q' t).
  - intros t Ht. setoid_rewrite Ha. destruct (d_cover _ _ _ _ Hd t Ht) as [?|[q Hq]]; [left; by constructor|].
    destruct (decide (q = p)) as [-> | Hne]; [|right; by exists q]. left. destruct Hq as (d & Hd' & _ & <-).
    rewrite Hp in Hd'. injection Hd' as <-. rewrite Hslot. constructor.
Qed.
End dir.

(** ** The search for an ID *)

Section search.
Context (maxpid : Z).

Abbreviation cand := (pid_candidate maxpid).

Lemma first_unused_none a : (∀ j, 0 <= j < maxpid - aminpid a → id_in_use a (cand (ampid a) (aminpid a) j)) →
  first_unused maxpid a = None.
Proof.
  intros Hu. unfold first_unused. destruct (filter _ _) as [|id l] eqn:E; [done|]. exfalso.
  assert (id ∈ filter (λ id, ¬ id_in_use a id) (pid_candidates maxpid a)) as [Hn Hin]%list_elem_of_filter by (rewrite E; constructor).
  apply list_elem_of_fmap in Hin as (j & -> & Hj%elem_of_seqZ). apply Hn, Hu. lia.
Qed.

Lemma first_unused_some a k : 0 <= k < maxpid - aminpid a →
  (∀ j, 0 <= j < k → id_in_use a (cand (ampid a) (aminpid a) j)) →
  ¬ id_in_use a (cand (ampid a) (aminpid a) k) → first_unused maxpid a = Some (cand (ampid a) (aminpid a) k).
Proof.
  intros Hk Hu Hn. unfold first_unused, pid_candidates.
  replace (maxpid - aminpid a) with (k + (maxpid - aminpid a - k)) by lia. rewrite seqZ_app by lia.
  rewrite fmap_app, filter_app.
  destruct (filter _ (cand _ _ <$> seqZ 0 k)) as [|id l] eqn:E.
  - rewrite Z.add_0_l, seqZ_cons by lia. by rewrite fmap_cons, filter_cons_True.
  - exfalso. assert (id ∈ filter (λ id, ¬ id_in_use a id) (cand (ampid a) (aminpid a) <$> seqZ 0 k)) as [Hn' Hin]%list_elem_of_filter
      by (rewrite E; constructor).
    apply list_elem_of_fmap in Hin as (j & -> & Hj%elem_of_seqZ). apply Hn', Hu. lia.
Qed.

(** The ID before candidate [k]. *)
Definition tried (last min k : Z) : Z := if k =? 0 then last else cand last min (k - 1).

Lemma tried_next last min k : min < maxpid → min - 1 <= last < maxpid → 0 <= k < maxpid - min →
  (if tried last min k + 1 =? maxpid then min else tried last min k + 1) = cand last min k.
Proof.
  intros Hm Hl Hk. unfold tried, pid_candidate.
  destruct (Z.eqb_spec k 0) as [->|]; repeat case_match; zbool; lia.
Qed.

Lemma pid_candidate_range last min k : min < maxpid → min - 1 <= last < maxpid → 0 <= k < maxpid - min →
  min <= cand last min k < maxpid ∧ (cand last min k = last ↔ min <= last ∧ k = maxpid - min - 1).
Proof. intros Hm Hl Hk. unfold pid_candidate. case_match; zbool; lia. Qed.

Lemma newpid_ok x H a : phash (pids x) (pidhash x) H → mpid x = ampid a → minpid x = aminpid a →
  minpid x < maxpid → minpid x - 1 <= mpid x < maxpid →
  (∀ id, id_in_use a id ↔ ∃ p c, pids x !! p = Some c ∧ pid_id c = id) →
  minpid x <= mpid x ∨ first_unused maxpid a ≠ None →
  ∃ id, run (newpid_step maxpid (mpid x)) (Z.to_nat (maxpid - minpid x) + 2) x = Some (set_lastpid id x) ∧
    minpid x <= id < maxpid ∧
    (first_unused maxpid a = Some id ∧ ¬ id_in_use a id ∨ first_unused maxpid a = None ∧ id = mpid x ∧ id_in_use a id).
Proof.
  intros Hh E1 E2 Hmin Hlast Huse Hor. rewrite E1, E2 in *. set (last := ampid a) in *. set (min := aminpid a) in *.
  destruct (run_total_idx (newpid_step maxpid last) (λ n s, ∃ k, 0 <= k < maxpid - min ∧ n = Z.to_nat (maxpid - min - k) ∧
      s = set_lastpid (tried last min k) x ∧ ∀ j, 0 <= j < k → id_in_use a (cand last min j))
    (λ r, ∃ id, r = set_lastpid id x ∧ min <= id < maxpid ∧
      (first_unused maxpid a = Some id ∧ ¬ id_in_use a id ∨ first_unused maxpid a = None ∧ id = last ∧ id_in_use a id)))
    with (n := Z.to_nat (maxpid - min)) (fuel := (Z.to_nat (maxpid - min) + 2)%nat) (s := x)
    as (r & E & id & -> & Hid & Hr); [| |lia|by exists id].
  - intros n s (k & Hk & -> & -> & Hu). destruct (pid_candidate_range last min k Hmin Hlast Hk) as [Hrg Heq].
    unfold newpid_step. cbn [mpid minpid set_lastpid]. rewrite E2, (tried_next last min k Hmin Hlast Hk).
    set (id := cand last min k) in *.
    destruct (pid_lookup_ok (set_lastpid id (set_lastpid (tried last min k) x)) H id) as (r & -> & Hr); [done|].
    change (pids (set_lastpid _ _)) with (pids x) in Hr.
    destruct Hr as [[-> Hno]|[Hr0 (c & Hr & Hc)]].
    + eexists; split; [done|]. exists id. split; [done|]. split; [done|].
      assert (¬ id_in_use a id) as Hn by (rewrite Huse; intros (p & c & Hp & Hc); by apply (Hno p c)).
      left. split; [|done]. by apply first_unused_some.
    + assert (id_in_use a id) as Hin by (apply Huse; eauto). apply Z.eqb_neq in Hr0 as ->.
      assert (∀ j, 0 <= j < k + 1 → id_in_use a (cand last min j)) as Hu'.
      { intros j Hj. destruct (decide (j = k)) as [-> |]; [done|]. apply Hu. lia. }
      destruct (Z.eqb_spec id last) as [Hil|Hil]; cbn [negb andb]; (eexists; split; [done|]).
      * exists id. split; [done|]. split; [done|]. right. split; [|done]. apply first_unused_none. intros j Hj. apply Hu'.
        apply Heq in Hil as [_ ->]. subst min. lia.
      * destruct (decide (k = maxpid - min - 1)) as [Ek|Ek].
        { exfalso. destruct Hor as [Hge|Hne]; [by apply Hil, Heq|]. apply Hne, first_unused_none. intros j Hj. apply Hu'.
          subst min. lia. }
        exists (Z.to_nat (maxpid - min - (k + 1))). split; [lia|]. exists (k + 1). split; [lia|]. split; [done|]. split; [|done].
        unfold tried. destruct (Z.eqb_spec (k + 1) 0); [lia|]. by rewrite Z.add_simpl_r.
  - exists 0. split; [lia|]. split; [f_equal; lia|]. split; [|lia]. unfold tried. cbn. rewrite <- E1. by destruct x.
Qed.
End search.

(** ** What the table represents *)

Section rep.
Context (base psz maxpid : Z) (idl : Z → bool) (v_proc : nat) (pid0 : Z).
Context (Hbase : 0 < base) (Hpsz : 0 < psz) (Hproc : Z.of_nat v_proc <= 2 ^ 24).

Definition abs_pid (dir : list Z) (c : pid) : apid :=
  Apid (pid_id c) (pid_ref c) (if pid_prinactive c then None else Some (pid_prslot c, default 0 (word_at dir (pid_prslot c)))).

Record prep (x : ptab) (a : aptab) (H : list (list Z)) : Prop := {
  p_hash : phash (pids x) (pidhash x) H;
  p_dir : pdir base psz v_proc (pids x) (procdir x) (procentfree x) (afree a);
  p_abs p : apids a !! p = abs_pid (procdir x) <$> pids x !! p;
  p_ref p c : pids x !! p = Some c → 1 <= pid_ref c < 2 ^ 32;
  p_mpid : mpid x = ampid a ∧ minpid x = aminpid a ∧ minpid x < maxpid ∧ minpid x - 1 <= mpid x < maxpid
}.

Lemma prep_in_use x a H : prep x a H → ∀ id, id_in_use a id ↔ ∃ p c, pids x !! p = Some c ∧ pid_id c = id.
Proof.
  intros Hr id. unfold id_in_use, map_Exists. split.
  - intros (p & d & Hp & E). rewrite (p_abs _ _ _ Hr) in Hp. destruct (pids x !! p) as [c|] eqn:Hc; [|done].
    injection Hp as <-. exists p, c. done.
  - intros (p & c & Hp & E). exists p, (abs_pid (procdir x) c). by rewrite (p_abs _ _ _ Hr), Hp.
Qed.

Lemma prep_cell x a H p d : prep x a H → apids a !! p = Some d → ∃ c, pids x !! p = Some c ∧ d = abs_pid (procdir x) c.
Proof. intros Hr Hp. rewrite (p_abs _ _ _ Hr) in Hp. destruct (pids x !! p) as [c|]; [|done]. injection Hp as <-. by exists c. Qed.

Lemma prep_slot x a H p c : prep x a H → pids x !! p = Some c → pid_prinactive c = false →
  0 <= pid_prslot c < Z.of_nat v_proc ∧ (pid_prslot c ∉ afree a) ∧
  ∃ prp, word_at (procdir x) (pid_prslot c) = Some prp ∧ outside base psz v_proc prp.
Proof. intros Hr Hp Ha. apply (d_active _ _ _ _ _ _ _ (p_dir _ _ _ Hr) p). by exists c. Qed.

(** Only what is found about the reference counts of a structure changes. *)
Lemma prep_refs x a H p c n : prep x a H → pids x !! p = Some c → 1 <= n < 2 ^ 32 →
  prep (set_pids (<[p := set_pid_ref n c]> (pids x)) x)
    (Aptab (<[p := Apid (pid_id c) n (a_where (abs_pid (procdir x) c))]> (apids a)) (afree a) (ampid a) (aminpid a)) H.
Proof.
  intros Hr Hp Hn. assert (wrapu 32 n = n) as En by (apply wrapu_id; lia). split; cbn [pids set_pids pidhash procdir procentfree mpid minpid apids afree ampid aminpid].
  - by apply (phash_update _ _ _ p c); try apply Hr.
  - apply (pdir_ext _ _ _ (pids x)); [|apply Hr]. intros q s. unfold aslot. destruct (decide (q = p)) as [-> |].
    + rewrite lookup_insert_eq, Hp. split; intros (d & [= <-] & ? & ?); eauto.
    + by rewrite lookup_insert_ne.
  - intros q. destruct (decide (q = p)) as [-> |].
    + rewrite !lookup_insert_eq. cbn. unfold abs_pid. cbn. by rewrite En.
    + rewrite !lookup_insert_ne by done. apply Hr.
  - intros q d [[<- <-]|[_ Hq]]%lookup_insert_Some; [cbn; by rewrite En|]. by apply (p_ref _ _ _ Hr q).
  - apply Hr.
Qed.

(** The structure of a process that has exited is released. *)
Lemma prep_delete x a H p c : prep x a H → pids x !! p = Some c → pid_prinactive c = true →
  ∃ x' H', pid_rele x p = Some x' ∧ prep x' (Aptab (delete p (apids a)) (afree a) (ampid a) (aminpid a)) H'.
Proof.
  intros Hr Hp Hin. destruct (pid_rele_ok x H p c (p_hash _ _ _ Hr) Hp) as (P' & hash' & H' & -> & Hh' & Hp' & Hsame).
  assert (∀ q d, P' !! q = Some d → ∃ d0, pids x !! q = Some d0 ∧ set_pid_link 0 d0 = set_pid_link 0 d) as Hback.
  { intros q d Hq. apply (pid_unlinked_some P'); [|done]. symmetry. apply Hsame. congruence. }
  do 2 eexists. split; [reflexivity|].
  split; cbn [pids pidhash procdir procentfree mpid minpid apids afree ampid aminpid]; [exact Hh'|..|apply Hr].
  - apply (pdir_ext _ _ _ (pids x)); [|apply Hr]. intros q s. unfold aslot. destruct (decide (q = p)) as [-> | Hq].
    + rewrite Hp', Hp. split; [by intros (? & ? & _)|]. intros (d & [= <-] & ? & _). congruence.
    + split; [intros (d & (d0 & Hq0 & E)%Hback & Ha & Hs)|intros (d0 & Hq0 & Ha & Hs)].
      * exists d0. split; [done|]. injection E. intros. split; congruence.
      * destruct (pid_unlinked_some (pids x) P' q d0 (Hsame q Hq) Hq0) as (d & Hd & E). exists d. split; [done|]. injection E. intros. split; congruence.
  - intros q. destruct (decide (q = p)) as [-> | Hq]; [by rewrite lookup_delete_eq, Hp'|]. rewrite lookup_delete_ne by done.
    rewrite (p_abs _ _ _ Hr). destruct (pids x !! q) as [d0|] eqn:Hd0.
    + destruct (pid_unlinked_some (pids x) P' q d0 (Hsame q Hq) Hd0) as (d & -> & E). cbn. f_equal.
      change (abs_pid (procdir x) d0) with (abs_pid (procdir x) (set_pid_link 0 d0)). by rewrite <- E.
    + pose proof (Hsame q Hq) as E. unfold pid_unlinked in E. rewrite Hd0 in E. by destruct (P' !! q).
  - intros q d (d0 & Hq & E)%Hback. apply (p_ref _ _ _ Hr) in Hq. injection E. intros. congruence.
Qed.

Lemma PID_RELE_ok x a H p c : prep x a H → pids x !! p = Some c → 1 < pid_ref c ∨ pid_prinactive c = true →
  ∃ x' H', PID_RELE x p = Some x' ∧ prep x' (a_release p a) H'.
Proof.
  intros Hr Hp Hor. pose proof (p_ref _ _ _ Hr p c Hp) as Hrg. unfold PID_RELE, a_release. rewrite Hp, (p_abs _ _ _ Hr), Hp. cbn [fmap option_fmap option_map abs_pid a_refs a_id].
  destruct (Z.ltb_spec 1 (pid_ref c)) as [Hlt|Hge].
  - rewrite decide_True by done. eexists _, H. split; [reflexivity|]. apply prep_refs; [done|done|lia].
  - rewrite decide_False by lia. apply (prep_delete x a H p c Hr Hp). destruct Hor; [lia|done].
Qed.

Lemma proc_entry_free_ok x a H p c : prep x a H → pids x !! p = Some c → pid_prinactive c = false →
  ∃ x', proc_entry_free base psz x p = Some x' ∧ prep x' (a_leave p a) H ∧ pids x' !! p = Some (set_inactive c).
Proof.
  intros Hr Hp Hact. destruct (prep_slot x a H p c Hr Hp Hact) as (Hs & Hns & prp & Hw & _).
  pose proof (d_length _ _ _ _ _ _ _ (p_dir _ _ _ Hr)) as El.
  unfold proc_entry_free, a_leave. rewrite Hp, (p_abs _ _ _ Hr), Hp. cbn [procdir procentfree set_pids fmap option_fmap option_map abs_pid a_where a_id a_refs]. rewrite put_word_eq by lia.
  rewrite Hact. eexists. split; [reflexivity|]. split; [|cbn; by rewrite lookup_insert_eq].
  split; cbn [pids pidhash procdir procentfree mpid minpid apids afree ampid aminpid set_pids set_procdir set_procentfree]; [..|apply Hr].
  - by apply (phash_update _ _ _ p c); try apply Hr.
  - by apply pdir_give; try apply Hr.
  - intros q. destruct (decide (q = p)) as [-> | Hq]; [by rewrite !lookup_insert_eq|]. rewrite !lookup_insert_ne by done.
    rewrite (p_abs _ _ _ Hr). destruct (pids x !! q) as [d|] eqn:Hd; [|done]. cbn. f_equal. unfold abs_pid. destruct (pid_prinactive d) eqn:Hi; [done|].
    destruct (prep_slot x a H q d Hr Hd Hi) as (Hs' & _). rewrite word_at_insert by lia. rewrite decide_False; [done|].
    intros E. apply Hq. apply (d_slots _ _ _ _ _ _ _ (p_dir _ _ _ Hr) q p (pid_prslot c)); [by exists d|by exists c].
  - intros q d [[<- <-]|[_ Hq]]%lookup_insert_Some; [exact (p_ref _ _ _ Hr p c Hp)|exact (p_ref _ _ _ Hr q d Hq)].
Qed.
(** The search of the specification for the process with some property. *)
Lemma proc_with_some x a H (Q : apid → Prop) `{!∀ c, Decision (Q c)} p c : prep x a H → pids x !! p = Some c → Q (abs_pid (procdir x) c) →
  (∀ q d, pids x !! q = Some d → Q (abs_pid (procdir x) d) → q = p) →
  proc_with Q a = default 0 (snd <$> a_where (abs_pid (procdir x) c)).
Proof.
  intros Hr Hp HQ Huniq. unfold proc_with.
  assert (∀ d, d ∈ filter Q (snd <$> map_to_list (apids a)) → d = abs_pid (procdir x) c) as Hall.
  { intros d [Hd ([q d'] & -> & Hin%elem_of_map_to_list)%list_elem_of_fmap]%list_elem_of_filter.
    destruct (prep_cell x a H q d' Hr Hin) as (cq & Hq & ->). rewrite (Huniq q cq Hq Hd) in Hq. cbn. congruence. }
  destruct (filter _ _) as [|d l] eqn:E.
  - exfalso. apply (filter_nil_not_elem_of Q _ (abs_pid (procdir x) c) E HQ). apply list_elem_of_fmap.
    exists (p, abs_pid (procdir x) c). split; [done|]. apply elem_of_map_to_list. by rewrite (p_abs _ _ _ Hr), Hp.
  - by rewrite (Hall d) by constructor.
Qed.

Lemma proc_with_none x a H (Q : apid → Prop) `{!∀ c, Decision (Q c)} : prep x a H →
  (∀ p c, pids x !! p = Some c → ¬ Q (abs_pid (procdir x) c)) → proc_with Q a = 0.
Proof.
  intros Hr Hno. unfold proc_with. destruct (filter _ _) as [|d l] eqn:E; [done|]. exfalso.
  assert (d ∈ filter Q (snd <$> map_to_list (apids a))) as Hin by (rewrite E; constructor).
  apply list_elem_of_filter in Hin as [Hd ([q d'] & -> & Hin%elem_of_map_to_list)%list_elem_of_fmap].
  destruct (prep_cell x a H q d' Hr Hin) as (cq & Hq & ->). by apply (Hno q cq).
Qed.

Lemma prfind_ok x a H id : prep x a H → prfind x id = Some (proc_with (λ c, a_id c = id) a).
Proof.
  intros Hr. unfold prfind. destruct (pid_lookup_ok x H id (p_hash _ _ _ Hr)) as (r & -> & [[-> Hno]|[Hr0 (c & Hp & Hc)]]).
  - cbn. by rewrite (proc_with_none x a H).
  - apply Z.eqb_neq in Hr0 as ->. rewrite Hp. rewrite (proc_with_some x a H _ r c); [|done..|].
    + cbn. destruct (pid_prinactive c) eqn:Ha; [done|]. by destruct (prep_slot x a H r c Hr Hp Ha) as (_ & _ & prp & -> & _).
    + intros q d Hq E. apply (h_unique _ _ _ (p_hash _ _ _ Hr) q r d c Hq Hp). cbn in E. congruence.
Qed.

Lemma prsignal_ok x a H p : prep x a H → is_Some (apids a !! p) →
  prsignal_to x p = Some (default 0 (snd <$> (apids a !! p ≫= a_where))).
Proof.
  intros Hr [d Hd]. destruct (prep_cell x a H p d Hr Hd) as (c & Hp & ->). unfold prsignal_to. rewrite Hd, Hp. cbn.
  destruct (pid_prinactive c) eqn:Ha; [done|]. by destruct (prep_slot x a H p c Hr Hp Ha) as (_ & _ & prp & -> & _).
Qed.

Lemma pid_entry_ok x a H slot : prep x a H → 0 <= slot < Z.of_nat v_proc →
  pid_entry base psz x idl slot =
    Some (let prp := proc_with (λ c, fst <$> a_where c = Some slot) a in if idl prp then 0 else prp).
Proof.
  intros Hr Hs. unfold pid_entry. pose proof (p_dir _ _ _ Hr) as Hd. rewrite (d_length _ _ _ _ _ _ _ Hd).
  destruct (d_cover _ _ _ _ _ _ _ Hd slot Hs) as [Hf|[p (c & Hp & Ha & <-)]].
  - destruct (free_chain_at base psz v_proc Hbase Hpsz _ _ _ (d_chain _ _ _ _ _ _ _ Hd) Hf) as (_ & w & -> & Hw).
    rewrite (proc_with_none x a H); [|done|].
    + cbn. replace (if idl 0 then 0 else 0) with 0 by (by destruct (idl 0)). destruct Hw as [-> |[Hw1 Hw2]].
      * destruct (Z.leb_spec base 0); [lia|done].
      * apply Z.leb_le in Hw1 as ->. by apply Z.ltb_lt in Hw2 as ->.
    + intros p c Hp. cbn. destruct (pid_prinactive c) eqn:Ha; [done|]. cbn. intros [= <-].
      by destruct (prep_slot x a H p c Hr Hp Ha) as (_ & Hn & _).
  - destruct (prep_slot x a H p c Hr Hp Ha) as (_ & _ & prp & Hw & [Hne Hout]). rewrite Hw.
    rewrite (proc_with_some x a H _ p c Hr Hp); [|by cbn; rewrite Ha|].
    + cbn. rewrite Ha, Hw. cbn. destruct (Z.leb_spec base prp); cbn; [destruct (Z.ltb_spec prp (procent_addr base psz (Z.of_nat v_proc))); [tauto|]|];
        apply Z.eqb_neq in Hne as ->; cbn; by destruct (idl prp).
    + intros q d Hq E. cbn in E. destruct (pid_prinactive d) eqn:Hda; [done|]. injection E as E.
      apply (d_slots _ _ _ _ _ _ _ Hd q p (pid_prslot c)); [by exists d|by exists c].
Qed.
Lemma pid_assign_ok x a H pidp prp : prep x a H → pid_ok base psz maxpid v_proc pid0 a (PAssign pidp prp) →
  ∃ x' H', pid_assign base psz maxpid x pidp prp = Some (x', snd (pid_spec maxpid idl a (PAssign pidp prp))) ∧
    prep x' (fst (pid_spec maxpid idl a (PAssign pidp prp))) H'.
Proof.
  intros Hr (Hp0 & Hfresh & Hout & Hor). pose proof (p_dir _ _ _ Hr) as Hd. pose proof (d_length _ _ _ _ _ _ _ Hd) as El.
  unfold pid_assign. cbn [pid_spec]. rewrite (d_first _ _ _ _ _ _ _ Hd).
  destruct (afree a) as [|slot F] eqn:EF; [by exists x, H|]. destruct (d_chain _ _ _ _ _ _ _ Hd) as (Hs & Hw & _). cbn [fmap list_fmap hd].
  destruct (Z.eqb_spec (procent_addr base psz slot) 0) as [E0|_]; [unfold procent_addr in E0; nia|].
  destruct (p_mpid _ _ _ Hr) as (Em & En & Hmin & Hlast). rewrite <- Em, <- En in Hor.
  destruct (newpid_ok maxpid x H a (p_hash _ _ _ Hr) Em En Hmin Hlast (prep_in_use x a H Hr) Hor) as (id & -> & Hid & Hcase).
  cbn [mpid set_lastpid].
  destruct (pid_lookup_ok (set_lastpid id x) H id (p_hash _ _ _ Hr)) as (r & -> & Hlk). cbn [pids set_lastpid] in Hlk.
  destruct Hcase as [[Efu Hno]|(Efu & -> & Hin)]; rewrite Efu.
  2:{ apply (prep_in_use x a H Hr) in Hin as (p & c & Hp & Hc). destruct Hlk as [[-> Hlk]|[Hr0 _]]; [by destruct (Hlk p c)|].
      rewrite Z.eqb_refl. apply Z.eqb_neq in Hr0 as ->. exists x, H. split; [by destruct x|done]. }
  destruct Hlk as [[-> Hlk]|[_ (c & Hc & Hi)]]; [|by destruct Hno; apply (prep_in_use x a H Hr); eauto].
  rewrite andb_false_r, procent_index_addr by done. cbn [procdir pidhash set_lastpid set_procentfree set_procdir pids]. rewrite Hw, put_word_eq by lia.
  destruct (phash_bucket _ _ _ id (p_hash _ _ _ Hr)) as (b & l & Hb & Hl & Hlt & Ew).
  rewrite Ew, put_word_eq by lia. eexists _, (<[b := pidp :: l]> H). split; [reflexivity|]. cbn [fst].
  rewrite <- Hb, Nat2Z.id. rewrite (wrapu_id 24 slot) by lia.
  assert (pids x !! pidp = None) as Hfr by (rewrite (p_abs _ _ _ Hr) in Hfresh; by apply fmap_None in Hfresh).
  split; cbn [pids pidhash procdir procentfree mpid minpid apids afree ampid aminpid set_pids set_procdir set_procentfree set_pidhash set_lastpid].
  - apply (phash_insert _ _ _ _ _ b l); [apply Hr|done|done|exact Hlk|done|done|done].
  - by apply (pdir_take base psz v_proc Hbase Hpsz _ _ (procentfree x)).
  - intros q. destruct (decide (q = pidp)) as [-> | Hq].
    + rewrite !lookup_insert_eq. cbn. unfold abs_pid. cbn. rewrite word_at_insert by lia. by rewrite decide_True.
    + rewrite !lookup_insert_ne by done. rewrite (p_abs _ _ _ Hr). destruct (pids x !! q) as [d|] eqn:Hd'; [|done]. cbn. f_equal. unfold abs_pid.
      destruct (pid_prinactive d) eqn:Hi; [done|]. destruct (prep_slot x a H q d Hr Hd' Hi) as (Hs' & Hn & _). rewrite word_at_insert by lia.
      rewrite decide_False; [done|]. intros E. rewrite EF, E in Hn. set_solver.
  - intros q d [[<- <-]|[_ Hq]]%lookup_insert_Some; [cbn; lia|]. by apply (p_ref _ _ _ Hr q).
  - lia.
Qed.

(** Every operation is the one of the specification. *)
Lemma pid_exec_ok x a H o : prep x a H → pid_ok base psz maxpid v_proc pid0 a o →
  ∃ x' H', pid_exec base psz maxpid idl x o = Some (x', snd (pid_spec maxpid idl a o)) ∧ prep x' (fst (pid_spec maxpid idl a o)) H'.
Proof.
  intros Hr Hok. destruct o as [pidp prp|p|p|p|id|p|slot|jump]; [exact (pid_assign_ok x a H pidp prp Hr Hok)|..]; cbn [pid_exec pid_ok] in *.
  - destruct Hok as (d & Hd & Hlt). destruct (prep_cell x a H p d Hr Hd) as (c & Hp & ->). cbn in Hlt.
    unfold PID_HOLD. rewrite Hp. eexists _, H. split; [reflexivity|]. cbn.
    pose proof (p_ref _ _ _ Hr p c Hp). pose proof (prep_refs x a H p c (pid_ref c + 1) Hr Hp ltac:(lia)) as Hr'.
    replace (alter _ p (apids a)) with (<[p := Apid (pid_id c) (pid_ref c + 1) (a_where (abs_pid (procdir x) c))]> (apids a)); [exact Hr'|].
    apply map_eq. intros q. destruct (decide (q = p)) as [-> |]; [rewrite lookup_insert_eq, lookup_alter_eq, Hd|rewrite lookup_insert_ne, lookup_alter_ne by done]; done.
  - destruct Hok as (d & Hd & Hor). destruct (prep_cell x a H p d Hr Hd) as (c & Hp & ->).
    destruct (PID_RELE_ok x a H p c Hr Hp) as (x' & H' & -> & Hr'); [|by exists x', H'].
    destruct Hor as [?|[Hw _]]; [by left|]. right. cbn in Hw. by destruct (pid_prinactive c).
  - destruct Hok as (_ & d & Hd & Hw). destruct (prep_cell x a H p d Hr Hd) as (c & Hp & ->). cbn in Hw.
    assert (pid_prinactive c = false) as Ha by by destruct (pid_prinactive c).
    destruct (proc_entry_free_ok x a H p c Hr Hp Ha) as (x1 & E1 & Hr1 & Hp1). unfold pid_exit_id. rewrite E1.
    destruct (PID_RELE_ok x1 _ H p _ Hr1 Hp1) as (x' & H' & -> & Hr'); [by right|]. by exists x', H'.
  - rewrite (prfind_ok x a H id Hr). by exists x, H.
  - rewrite (prsignal_ok x a H p Hr Hok). by exists x, H.
  - rewrite (pid_entry_ok x a H slot Hr Hok). by exists x, H.
  - exists (pid_setmin jump x), H. split; [done|]. destruct (p_mpid _ _ _ Hr) as (Em & En & Hmin & Hlast). destruct Hok as [Hj Hm].
    unfold pid_setmin. cbn. rewrite Em. destruct (Z.eqb_spec jump 0) as [->|Hj0]; cbn.
    + rewrite decide_False by tauto. split; try apply Hr; cbn; lia.
    + destruct (Z.ltb_spec (ampid a) jump) as [Hlt|Hge].
      * rewrite decide_True by done. split; try apply Hr; cbn; lia.
      * rewrite decide_False by lia. split; try apply Hr; cbn; lia.
Qed.

Lemma pid_run_ok os : ∀ x a H, prep x a H → pid_oks base psz maxpid idl v_proc pid0 a os →
  ∃ x' H', pid_run base psz maxpid idl x os = Some (x', snd (pid_spec_run maxpid idl a os)) ∧
    prep x' (fst (pid_spec_run maxpid idl a os)) H'.
Proof.
  induction os as [|o os IH]; cbn; intros x a H Hr Hoks; [by exists x, H|]. destruct Hoks as [Hok Hoks].
  destruct (pid_exec_ok x a H o Hr Hok) as (x1 & H1 & -> & Hr1). cbn.
  destruct (IH x1 _ H1 Hr1 Hoks) as (x2 & H2 & -> & Hr2). cbn. by exists x2, H2.
Qed.
End rep.

(** ** The table at boot *)

Section init.
Context (lp64 : bool) (base psz maxpid : Z) (v_proc : nat) (pid0 sched : Z).
Context (Hbase : 0 < base) (Hpsz : 0 < psz) (Hproc : 2 <= Z.of_nat v_proc <= 2 ^ 24) (Hmax : 0 < maxpid).
Context (Hpid0 : pid0 ≠ 0) (Hsched : outside base psz v_proc sched).

Definition pid_start : aptab := Aptab {[pid0 := Apid 0 3 (Some (0, sched))]} (seqZ 1 (Z.of_nat v_proc - 1)) 0 0.

Lemma link_entries_length i k : length (link_entries base psz i k) = k.
Proof. revert i. induction k as [|[|k] IH]; intros i; [done|done|]. cbn in *. by rewrite IH. Qed.

Lemma link_entries_chain dir k : ∀ i, 0 <= i → i + Z.of_nat k <= Z.of_nat v_proc → drop (Z.to_nat i) dir = link_entries base psz i k →
  free_chain base psz v_proc dir (seqZ i (Z.of_nat k)).
Proof.
  induction k as [|k IH]; intros i Hi Hk E; [done|]. rewrite seqZ_cons by lia. rewrite Nat2Z.inj_succ, Z.pred_succ. cbn [free_chain].
  split; [lia|]. rewrite word_at_eq by done.
  assert (dir !! Z.to_nat i = link_entries base psz i (S k) !! 0%nat) as -> by (rewrite <- E, lookup_drop; f_equal; lia).
  destruct k as [|k]; [done|]. split.
  - rewrite seqZ_cons by lia. done.
  - apply IH; [lia|lia|]. replace (Z.to_nat (Z.succ i)) with (Z.to_nat i + 1)%nat by lia.
    rewrite <- drop_drop, E. cbn. rewrite drop_0. f_equal.
Qed.

Lemma pid_hashsz_pow2 : ∃ k, 0 <= k ∧ pid_hashsz lp64 v_proc = 2 ^ k.
Proof using Hproc.
  unfold pid_hashsz, pid_hashlen. exists (highbit lp64 (Z.of_nat v_proc / 4)).
  assert (0 <= highbit lp64 (Z.of_nat v_proc / 4)) as Hh.
  { destruct (decide (Z.of_nat v_proc / 4 = 0)) as [-> | Hne]; [done|].
    assert (0 <= Z.of_nat v_proc / 4 <= 2 ^ 24) as Hq by (split; [apply Z.div_pos; lia|]; apply Z.div_le_upper_bound; lia).
    rewrite highbit_log2; [pose proof (Z.log2_nonneg (Z.of_nat v_proc / 4)); lia|]. unfold nbipul. destruct lp64; lia. }
  split; [done|]. by rewrite Z.shiftl_1_l.
Qed.

Lemma pid_init_ok : ∃ H, prep base psz maxpid v_proc (pid_init lp64 base psz v_proc pid0 sched) pid_start H.
Proof using Hbase Hpsz Hproc Hmax Hpid0 Hsched.
  destruct pid_hashsz_pow2 as (k & Hk & Esz). pose proof (Z.pow_pos_nonneg 2 k ltac:(lia) Hk) as Hpos.
  exists (<[0%nat := [pid0]]> (replicate (Z.to_nat (pid_hashsz lp64 v_proc)) [])).
  assert (∀ p s, aslot {[pid0 := Pid false 0 0 0 3]} p s ↔ p = pid0 ∧ s = 0) as Ha.
  { intros p s. unfold aslot. split; [by intros (c & [<- <-]%lookup_singleton_Some & _ & <-)|].
    intros [-> ->]. eexists. by rewrite lookup_singleton_eq. }
  split; cbn [pids pidhash procdir procentfree mpid minpid apids afree ampid aminpid pid_init pid_start].
  - split.
    + exists k. rewrite length_insert, length_replicate, Esz. split; [done|]. lia.
    + by rewrite list_fmap_insert, fmap_replicate.
    + intros b l [(<- & <- & _)|[_ [-> _]%lookup_replicate]]%list_lookup_insert_Some; [|split; [done|constructor]].
      split; [|apply NoDup_singleton]. cbn. split; [|done]. unfold link_of. by rewrite lookup_singleton_eq.
    + intros b l p Hl.
      assert (hashpid (<[0%nat:=pid0]> (replicate (Z.to_nat (pid_hashsz lp64 v_proc)) 0)) 0 = 0) as Eh by done.
      split; [intros Hin|intros (c & [<- <-]%lookup_singleton_Some & E)].
      * apply list_lookup_insert_Some in Hl as [(<- & <- & _)|[_ [-> _]%lookup_replicate]]; [|by apply elem_of_nil in Hin].
        apply list_elem_of_singleton in Hin as ->. eexists. rewrite lookup_singleton_eq. split; [done|]. exact Eh.
      * cbn in E. rewrite Eh in E. replace b with 0%nat in Hl by lia.
        rewrite list_lookup_insert_eq in Hl by (rewrite length_replicate; lia). simplify_eq. constructor.
    + by rewrite lookup_singleton_ne.
    + by intros p p' c c' [<- <-]%lookup_singleton_Some [<- <-]%lookup_singleton_Some.
  - replace (Z.of_nat v_proc - 1) with (Z.of_nat (v_proc - 1)) by lia. split.
    + cbn. rewrite link_entries_length. lia.
    + rewrite seqZ_cons by lia. done.
    + apply link_entries_chain; [lia|lia|done].
    + apply NoDup_seqZ.
    + intros p s [-> ->]%Ha. split; [lia|]. split; [rewrite elem_of_seqZ; lia|]. exists sched. done.
    + intros p p' s [-> _]%Ha [-> _]%Ha. done.
    + intros s Hs. setoid_rewrite Ha. rewrite elem_of_seqZ. destruct (decide (s = 0)) as [-> |]; [right; by exists pid0|left; lia].
  - intros p. destruct (decide (p = pid0)) as [-> |]; [by rewrite !lookup_singleton_eq|by rewrite !lookup_singleton_ne].
  - intros p c [<- <-]%lookup_singleton_Some. done.
  - lia.
Qed.
End init.

(** ** Properties *)

Section props.
Context (lp64 : bool) (base psz maxpid : Z) (idl : Z → bool) (v_proc : nat) (pid0 sched : Z).
Context (Hbase : 0 < base) (Hpsz : 0 < psz) (Hproc : 2 <= Z.of_nat v_proc <= 2 ^ 24) (Hmax : 0 < maxpid).
Context (Hpid0 : pid0 ≠ 0) (Hsched : outside base psz v_proc sched).

(** C10: the table of process IDs does what its specification says, from boot
    on and for any sequence of forks, exits, references and lookups: each
    operation ends without a bad pointer and has the specified result.  A
    fork gets the slot that was freed last and the next ID after the
    one given out last that nobody refers to, wrapping around at [maxpid],
    and fails only without a slot or without an ID; an ID with references is
    not given out again after its process has exited; a process that has
    exited is found neither by its ID nor by its slot nor through a
    reference.  No two structures have the same ID, and each slot is free or
    has exactly one process. *)
Theorem pid_refines os :
  pid_oks base psz maxpid idl v_proc pid0 (pid_start v_proc pid0 sched) os →
  ∃ x, let '(a, rs) := pid_spec_run maxpid idl (pid_start v_proc pid0 sched) os in
    pid_run base psz maxpid idl (pid_init lp64 base psz v_proc pid0 sched) os = Some (x, rs) ∧
    (∀ p, apids a !! p = abs_pid (procdir x) <$> pids x !! p) ∧
    (∀ p p' c c', pids x !! p = Some c → pids x !! p' = Some c' → pid_id c = pid_id c' → p = p') ∧
    (∀ s, 0 <= s < Z.of_nat v_proc →
       s ∈ afree a ∧ (∀ p, ¬ aslot (pids x) p s) ∨ (s ∉ afree a) ∧ ∃ p, ∀ p', aslot (pids x) p' s ↔ p' = p).
Proof using Hbase Hpsz Hproc Hmax Hpid0 Hsched.
  intros Hoks. destruct (pid_init_ok lp64 base psz maxpid v_proc pid0 sched Hbase Hpsz Hproc Hmax Hpid0 Hsched) as [H Hr].
  destruct (pid_run_ok base psz maxpid idl v_proc pid0 Hbase Hpsz ltac:(lia) os _ _ H Hr Hoks) as (x & H' & E & Hr').
  exists x. destruct (pid_spec_run _ _ _ os) as [a rs]. cbn [fst snd] in *. split; [done|].
  split; [apply Hr'|]. split; [apply (p_hash _ _ _ _ _ _ _ Hr')|]. intros s Hs.
  pose proof (p_dir _ _ _ _ _ _ _ Hr') as Hd. destruct (d_cover _ _ _ _ _ _ _ Hd s Hs) as [Hf|[p Hp]]; [left|right].
  - split; [done|]. intros p Hp. by destruct (d_active _ _ _ _ _ _ _ Hd p s Hp) as (_ & ? & _).
  - split; [by destruct (d_active _ _ _ _ _ _ _ Hd p s Hp) as (_ & ? & _)|]. exists p. intros p'. split; [|by intros ->].
    intros Hp'. by apply (d_slots _ _ _ _ _ _ _ Hd p' p s).
Qed.
End props.

(** ** A concrete table *)

(** Three slots; a process is forked and forks another, which is referred to
    when it exits, so that its ID is skipped when the IDs come around. *)
Definition pid_demo : list pid_op :=
  [PAssign 101 901; PSetmin 0; PAssign 102 902; PFind 2; PHold 102; PExit 102; PFind 2; PSignal 102; PEntry 2;
   PAssign 103 903; PEntry 2; PExit 103; PAssign 104 904; PExit 104; PAssign 105 905; PAssign 106 906; PRele 102; PExit 105; PAssign 107 907].

(** Each condition is evaluated. *)
Ltac pid_demo_ok :=
  repeat lazymatch goal with
  | |- pid_oks _ _ _ _ _ _ _ [] => exact I
  | |- pid_oks _ _ _ _ _ _ _ (_ :: _) => split; [cbn [pid_ok]|]
  | |- outside _ _ _ _ => split; [discriminate|unfold procent_addr; lia]
  | |- ∃ c, _ !! _ = Some c ∧ _ => eexists; split; [vm_compute; reflexivity|cbn [a_refs a_where]]
  | |- _ < _ ∨ _ = None ∧ _ => first [left; reflexivity | right; split; [reflexivity|discriminate]]
  | |- _ <= _ ∨ _ ≠ None => first [left; vm_compute; discriminate | right; vm_compute; discriminate]
  | |- _ ∧ _ => split
  | |- _ ≠ _ => discriminate
  | |- _ = None => vm_compute; reflexivity
  | |- is_Some _ => vm_compute; eexists; reflexivity
  | |- _ <= _ => vm_compute; discriminate
  | |- _ < _ => vm_compute; reflexivity
  | |- True => exact I
  end.

Lemma pid_refines_witness :
  ∃ x, pid_run 1000 8 5 (λ _, false) (pid_init true 1000 8 3 7 900) pid_demo =
    Some (x, [1; 0; 2; 902; 0; 0; 0; 0; 0; 3; 903; 0; 4; 0; 3; -1; 0; 0; 4]).
Proof.
  destruct (pid_refines true 1000 8 5 (λ _, false) 3 7 900 ltac:(done) ltac:(done) ltac:(lia) ltac:(done) ltac:(done)
    ltac:(split; [done|unfold procent_addr; lia]) pid_demo) as (x & H).
  - unfold pid_demo. pid_demo_ok.
  - assert (snd (pid_spec_run 5 (λ _, false) (pid_start 3 7 900) pid_demo) =
      [1; 0; 2; 902; 0; 0; 0; 0; 0; 3; 903; 0; 4; 0; 3; -1; 0; 0; 4]) as E by (vm_compute; reflexivity).
    exists x. destruct (pid_spec_run 5 (λ _, false) (pid_start 3 7 900) pid_demo) as [a rs]. cbn in E. subst rs. exact (proj1 H).
Defined.
