(* ===== verification/Vmem.v ===== *)
(** * Vmem: the virtual memory allocator (uts/common/os/vmem.c)

    The data and the operations of one arena, at the level of the pointers:
    segments on the arena list and on the lists of their kin (spans, free
    lists, hash chains), boundary tags with end addresses that wrap, the
    bitmap of free lists and the statistics at their width.  [VmemRep] proves
    what the pointers represent, [VmemArena] what the operations do,
    [VmemSys] the allocations that drop the lock. *)

From Stdlib Require Import ZArith Lia.
From stdpp Require Import base numbers option list gmap.
From S2P Require Import Prelude Bitmap.

#[local] Open Scope Z_scope.

(** ** Results: a fault, a panic of the code, or a value *)

Inductive panic :=
  | Bad_free | Wrong_size | Misaligned | Bad_arguments
  | Size_zero | Not_quantum_aligned | Overconstrained | Bad_add | Mandatory.

Inductive res (A : Type) :=
  | Fault
  | Panic (why : panic)
  | Ok (a : A).
Arguments Fault {A}.
Arguments Panic {A} why.
Arguments Ok {A} a.

Notation "'let?' x := e 'in' k" :=
  (match e with Ok x => k | Panic why => Panic why | Fault => Fault end)
  (at level 10, x pattern, e at level 100, k at level 200,
   format "'[v' 'let?'  x  :=  e  'in' '//' k ']'") : kernel_scope.

(** A checked access. *)
Definition chk {A} (o : option A) : res A := match o with Some a => Ok a | None => Fault end.

(** ** Data *)

(** A pointer to a segment: the anchor of the arena, the head of a free list,
    or a segment structure. *)
Inductive sptr := Seg0 | Flist (n : nat) | Seg (n : nat).

#[global] Instance sptr_eq_dec : EqDecision sptr.
Proof. solve_decision. Defined.

#[global] Instance sptr_countable : Countable sptr.
Proof.
  refine (inj_countable'
    (λ p, match p with Seg0 => inl () | Flist n => inr (inl n) | Seg n => inr (inr n) end)
    (λ x, match x with inl _ => Seg0 | inr (inl n) => Flist n | inr (inr n) => Seg n end) _).
  by intros [].
Defined.

Definition VMEM_ALLOC : Z := 0x01.
Definition VMEM_FREE : Z := 0x02.
Definition VMEM_SPAN : Z := 0x10.

Definition VM_NOSLEEP : Z := 0x1.
Definition VM_PANIC : Z := 0x2.
Definition VM_BESTFIT : Z := 0x100.

(** [vmem_seg_t] without the audit fields; a [vmem_freelist_t] has the first
    four fields. *)
Record vmem_seg := VmemSeg {
  vs_start : Z;
  vs_end : Z;
  vs_knext : option sptr;
  vs_kprev : option sptr;
  vs_anext : option sptr;
  vs_aprev : option sptr;
  vs_type : Z;
  vs_import : Z
}.

Inductive vk :=
  | vk_mem_inuse | vk_mem_import | vk_mem_total | vk_alloc | vk_free | vk_wait | vk_fail
  | vk_lookup | vk_search | vk_populate_wait | vk_populate_fail | vk_contains | vk_contains_search.

#[global] Instance vk_eq_dec : EqDecision vk.
Proof. solve_decision. Defined.

(** [vm_source] is the quantum of the source arena, [vm_hash_is0] says
    whether the hash table is the one inside the arena. *)
Record vmem := Vmem {
  vm_mem : gmap sptr vmem_seg;
  vm_qshift : Z;
  vm_quantum : Z;
  vm_qcache_max : Z;
  vm_source_alloc : bool;
  vm_source_free : bool;
  vm_source_quantum : Z;
  vm_nsegfree : Z;
  vm_segfree : option sptr;
  vm_hash_table : list (option sptr);
  vm_hash_is0 : bool;
  vm_hash_mask : Z;
  vm_hash_shift : Z;
  vm_freemap : Z;
  vm_kstat : vk → Z
}.

Definition with_mem (v : vmem) (m : gmap sptr vmem_seg) : vmem :=
  Vmem m (vm_qshift v) (vm_quantum v) (vm_qcache_max v) (vm_source_alloc v) (vm_source_free v) (vm_source_quantum v)
    (vm_nsegfree v) (vm_segfree v) (vm_hash_table v) (vm_hash_is0 v) (vm_hash_mask v) (vm_hash_shift v) (vm_freemap v) (vm_kstat v).
Definition with_segfree (v : vmem) (n : Z) (p : option sptr) : vmem :=
  Vmem (vm_mem v) (vm_qshift v) (vm_quantum v) (vm_qcache_max v) (vm_source_alloc v) (vm_source_free v) (vm_source_quantum v)
    n p (vm_hash_table v) (vm_hash_is0 v) (vm_hash_mask v) (vm_hash_shift v) (vm_freemap v) (vm_kstat v).
Definition with_table (v : vmem) (t : list (option sptr)) : vmem :=
  Vmem (vm_mem v) (vm_qshift v) (vm_quantum v) (vm_qcache_max v) (vm_source_alloc v) (vm_source_free v) (vm_source_quantum v)
    (vm_nsegfree v) (vm_segfree v) t (vm_hash_is0 v) (vm_hash_mask v) (vm_hash_shift v) (vm_freemap v) (vm_kstat v).
Definition with_new_table (v : vmem) (t : list (option sptr)) (mask shift : Z) : vmem :=
  Vmem (vm_mem v) (vm_qshift v) (vm_quantum v) (vm_qcache_max v) (vm_source_alloc v) (vm_source_free v) (vm_source_quantum v)
    (vm_nsegfree v) (vm_segfree v) t false mask shift (vm_freemap v) (vm_kstat v).
Definition with_freemap (v : vmem) (m : Z) : vmem :=
  Vmem (vm_mem v) (vm_qshift v) (vm_quantum v) (vm_qcache_max v) (vm_source_alloc v) (vm_source_free v) (vm_source_quantum v)
    (vm_nsegfree v) (vm_segfree v) (vm_hash_table v) (vm_hash_is0 v) (vm_hash_mask v) (vm_hash_shift v) m (vm_kstat v).

(** [vmp->vm_kstat.k.value.ui64 += n]. *)
Definition kadd (k : vk) (n : Z) (v : vmem) : vmem :=
  Vmem (vm_mem v) (vm_qshift v) (vm_quantum v) (vm_qcache_max v) (vm_source_alloc v) (vm_source_free v) (vm_source_quantum v)
    (vm_nsegfree v) (vm_segfree v) (vm_hash_table v) (vm_hash_is0 v) (vm_hash_mask v) (vm_hash_shift v) (vm_freemap v)
    (λ k', if decide (k' = k) then u64 (vm_kstat v k + n) else vm_kstat v k').

Definition set_start (x : Z) (c : vmem_seg) : vmem_seg :=
  VmemSeg x (vs_end c) (vs_knext c) (vs_kprev c) (vs_anext c) (vs_aprev c) (vs_type c) (vs_import c).
Definition set_end (x : Z) (c : vmem_seg) : vmem_seg :=
  VmemSeg (vs_start c) x (vs_knext c) (vs_kprev c) (vs_anext c) (vs_aprev c) (vs_type c) (vs_import c).
Definition set_type (x : Z) (c : vmem_seg) : vmem_seg :=
  VmemSeg (vs_start c) (vs_end c) (vs_knext c) (vs_kprev c) (vs_anext c) (vs_aprev c) x (vs_import c).
Definition set_import (x : Z) (c : vmem_seg) : vmem_seg :=
  VmemSeg (vs_start c) (vs_end c) (vs_knext c) (vs_kprev c) (vs_anext c) (vs_aprev c) (vs_type c) x.

(** The two kinds of links, [a] and [k] of the macros. *)
Inductive link := La | Lk.

Definition vnext (w : link) (c : vmem_seg) : option sptr := match w with La => vs_anext c | Lk => vs_knext c end.
Definition vprev (w : link) (c : vmem_seg) : option sptr := match w with La => vs_aprev c | Lk => vs_kprev c end.

Definition set_vnext (w : link) (p : option sptr) (c : vmem_seg) : vmem_seg :=
  match w with
  | La => VmemSeg (vs_start c) (vs_end c) (vs_knext c) (vs_kprev c) p (vs_aprev c) (vs_type c) (vs_import c)
  | Lk => VmemSeg (vs_start c) (vs_end c) p (vs_kprev c) (vs_anext c) (vs_aprev c) (vs_type c) (vs_import c)
  end.
Definition set_vprev (w : link) (p : option sptr) (c : vmem_seg) : vmem_seg :=
  match w with
  | La => VmemSeg (vs_start c) (vs_end c) (vs_knext c) (vs_kprev c) (vs_anext c) p (vs_type c) (vs_import c)
  | Lk => VmemSeg (vs_start c) (vs_end c) (vs_knext c) p (vs_anext c) (vs_aprev c) (vs_type c) (vs_import c)
  end.

(** [p->... = ...]: a checked update of a segment. *)
Definition upd (p : sptr) (f : vmem_seg → vmem_seg) (m : gmap sptr vmem_seg) : option (gmap sptr vmem_seg) :=
  let! c := m !! p in Some (<[p := f c]> m).

(** ** Segment lists *)

(** [VMEM_INSERT(vprev, vsp, type)] *)
Definition VMEM_INSERT (w : link) (prev vsp : sptr) (m : gmap sptr vmem_seg) : option (gmap sptr vmem_seg) :=
  let! cp := m !! prev in
  let! next := vnext w cp in
  let! m := upd vsp (set_vnext w (Some next)) m in
  let! m := upd vsp (set_vprev w (Some prev)) m in
  let! m := upd prev (set_vnext w (Some vsp)) m in
  upd next (set_vprev w (Some vsp)) m.

(** [VMEM_DELETE(vsp, type)] *)
Definition VMEM_DELETE (w : link) (vsp : sptr) (m : gmap sptr vmem_seg) : option (gmap sptr vmem_seg) :=
  let! c := m !! vsp in
  let! prev := vprev w c in
  let! next := vnext w c in
  let! m := upd prev (set_vnext w (Some next)) m in
  upd next (set_vprev w (Some prev)) m.

(** [vmem_getseg] *)
Definition vmem_getseg (v : vmem) : option (vmem * sptr) :=
  let! newseg := vm_segfree v in
  let! c := vm_mem v !! newseg in
  Some (with_segfree v (vm_nsegfree v - 1) (vs_knext c), newseg).

(** [vmem_putseg] *)
Definition vmem_putseg (v : vmem) (vsp : sptr) : option vmem :=
  let! m := upd vsp (set_vnext Lk (vm_segfree v)) (vm_mem v) in
  Some (with_segfree (with_mem v m) (vm_nsegfree v + 1) (Some vsp)).

(** ** Machine words and the macros of sysmacros.h *)

Section vmem.
Context (lp64 : bool).

Definition uw (x : Z) : Z := wrapu (BT_NBIPUL lp64) x.

Definition VMEM_FREELISTS : Z := BT_NBIPUL lp64.

Definition P2PHASE (x align : Z) : Z := Z.land x (uw (align - 1)).
Definition P2NPHASE (x align : Z) : Z := Z.land (uw (- x)) (uw (align - 1)).
Definition P2ROUNDUP (x align : Z) : Z := uw (- Z.land (uw (- x)) (uw (- align))).
Definition P2PHASEUP (x align phase : Z) : Z := uw (phase - Z.land (uw (phase - x)) (uw (- align))).
Definition P2CROSS (x y align : Z) : bool := Z.lxor x y >? uw (align - 1).

Definition VS_SIZE (c : vmem_seg) : Z := uw (vs_end c - vs_start c).

(** [VMEM_HASH_INDEX(a, s, q, m)] *)
Definition VMEM_HASH_INDEX (a s q m : Z) : Z :=
  Z.land (Z.shiftr (uw (a + Z.shiftr a s + Z.shiftr a (Z.shiftl s 1))) q) m.

(** The index of the bucket [VMEM_HASH(vmp, addr)]. *)
Definition VMEM_HASH (v : vmem) (addr : Z) : nat :=
  Z.to_nat (VMEM_HASH_INDEX addr (vm_hash_shift v) (vm_qshift v) (vm_hash_mask v)).

(** ** Free lists *)

(** [vmem_freelist_insert]; [&vm_freelist[n]] with [n] out of range is a
    fault of the access. *)
Definition vmem_freelist_insert (v : vmem) (vsp : sptr) : option vmem :=
  let! c := vm_mem v !! vsp in
  let i := highbit lp64 (VS_SIZE c) - 1 in
  if i <? 0 then None
  else
    let prev := Flist (Z.to_nat i) in
    let! m := upd vsp (set_type VMEM_FREE) (vm_mem v) in
    let! ch := m !! prev in
    let v := with_freemap v (Z.lor (vm_freemap v) (VS_SIZE ch)) in
    let! m := VMEM_INSERT Lk prev vsp m in
    Some (with_mem v m).

(** [vmem_freelist_delete] *)
Definition vmem_freelist_delete (v : vmem) (vsp : sptr) : option vmem :=
  let! c := vm_mem v !! vsp in
  let! next := vs_knext c in
  let! cn := vm_mem v !! next in
  let! v :=
    (if vs_start cn =? 0 then
       let! prev := vs_kprev c in
       let! cp := vm_mem v !! prev in
       if vs_start cp =? 0 then Some (with_freemap v (Z.lxor (vm_freemap v) (VS_SIZE cp))) else Some v
     else Some v) in
  let! m := VMEM_DELETE Lk vsp (vm_mem v) in
  Some (with_mem v m).

(** ** The hash table of allocated segments *)

(** [vmem_hash_insert] *)
Definition vmem_hash_insert (v : vmem) (vsp : sptr) : option vmem :=
  let! m := upd vsp (set_type VMEM_ALLOC) (vm_mem v) in
  let! c := m !! vsp in
  let b := VMEM_HASH v (vs_start c) in
  let! head := vm_hash_table v !! b in
  let! m := upd vsp (set_vnext Lk head) m in
  let! t := wr (vm_hash_table v) b (Some vsp) in
  Some (kadd vk_mem_inuse (VS_SIZE c) (kadd vk_alloc 1 (with_table (with_mem v m) t))).

(** The place [prev_vspp] points to: a bucket or the link of a segment. *)
Inductive place := Bucket (b : nat) | Link (p : sptr).

Definition load_place (v : vmem) (pl : place) : option (option sptr) :=
  match pl with
  | Bucket b => vm_hash_table v !! b
  | Link p => let! c := vm_mem v !! p in Some (vs_knext c)
  end.

Definition store_place (v : vmem) (pl : place) (q : option sptr) : option vmem :=
  match pl with
  | Bucket b => let! t := wr (vm_hash_table v) b q in Some (with_table v t)
  | Link p => let! m := upd p (set_vnext Lk q) (vm_mem v) in Some (with_mem v m)
  end.

(** An iteration of the search through the chain. *)
Definition hash_delete_step (addr : Z) (s : vmem * place) : option (loop (vmem * place) (vmem * option sptr)) :=
  let '(v, pl) := s in
  let! o := load_place v pl in
  match o with
  | None => Some (Return (v, None))
  | Some vsp =>
      let! c := vm_mem v !! vsp in
      if vs_start c =? addr then
        let! v := store_place v pl (vs_knext c) in Some (Return (v, Some vsp))
      else Some (Next (kadd vk_lookup 1 v, Link vsp))
  end.

(** A chain has no more segments than there are. *)
Definition seg_fuel (v : vmem) : nat := S (S (size (vm_mem v))).

(** [vmem_hash_delete] *)
Definition vmem_hash_delete (v : vmem) (addr sz : Z) : res (vmem * sptr) :=
  let? (v, o) := chk (run (hash_delete_step addr) (seg_fuel v) (v, Bucket (VMEM_HASH v addr))) in
  match o with
  | None => Panic Bad_free
  | Some vsp =>
      let? c := chk (vm_mem v !! vsp) in
      if VS_SIZE c =? sz then Ok (kadd vk_mem_inuse (- sz) (kadd vk_free 1 v), vsp)
      else Panic Wrong_size
  end.

(** ** Segments and spans *)

(** [vmem_seg_create] *)
Definition vmem_seg_create (v : vmem) (prev : sptr) (start end_ segtype : Z) : option (vmem * sptr) :=
  let! (v, newseg) := vmem_getseg v in
  let! m := upd newseg (λ c, set_import 0 (set_type segtype (set_end end_ (set_start start c)))) (vm_mem v) in
  let! m := VMEM_INSERT La prev newseg m in
  Some (with_mem v m, newseg).

(** [vmem_seg_destroy] *)
Definition vmem_seg_destroy (v : vmem) (vsp : sptr) : option vmem :=
  let! m := VMEM_DELETE La vsp (vm_mem v) in
  vmem_putseg (with_mem v m) vsp.

(** [vmem_span_create] *)
Definition vmem_span_create (v : vmem) (vaddr sz import : Z) : res (vmem * sptr) :=
  let start := vaddr in
  let end_ := uw (start + sz) in
  if negb (Z.land (Z.lor start end_) (uw (vm_quantum v - 1)) =? 0) then Panic Misaligned
  else
    let? c0 := chk (vm_mem v !! Seg0) in
    let? aprev := chk (vs_aprev c0) in
    let? (v, span) := chk (vmem_seg_create v aprev start end_ VMEM_SPAN) in
    let? (v, newseg) := chk (vmem_seg_create v span start end_ VMEM_FREE) in
    let? c0 := chk (vm_mem v !! Seg0) in
    let? kprev := chk (vs_kprev c0) in
    let? m := chk (VMEM_INSERT Lk kprev span (vm_mem v)) in
    let? v := chk (vmem_freelist_insert (with_mem v m) newseg) in
    let? m := chk (upd newseg (set_import import) (vm_mem v)) in
    let v := with_mem v m in
    let v := if import =? 0 then v else kadd vk_mem_import sz v in
    Ok (kadd vk_mem_total sz v, newseg).

(** [vmem_span_destroy] *)
Definition vmem_span_destroy (v : vmem) (vsp : sptr) : option vmem :=
  let! c := vm_mem v !! vsp in
  let! span := vs_aprev c in
  let sz := VS_SIZE c in
  let v := if vs_import c =? 0 then v else kadd vk_mem_import (- sz) v in
  let v := kadd vk_mem_total (- sz) v in
  let! m := VMEM_DELETE Lk span (vm_mem v) in
  let! v := vmem_seg_destroy (with_mem v m) vsp in
  vmem_seg_destroy v span.

(** [vmem_seg_alloc] *)
Definition vmem_seg_alloc (v : vmem) (vsp : sptr) (start end_ : Z) : res vmem :=
  let? c := chk (vm_mem v !! vsp) in
  let start0 := vs_start c in
  let end0 := vs_end c in
  let p2end := P2ROUNDUP end_ (vm_quantum v) in
  if (start <? start0) || (uw (end_ - 1) >? uw (end0 - 1)) || (uw (start - 1) >=? uw (end_ - 1)) ||
     negb (vs_type c =? VMEM_FREE)
  then Panic Bad_arguments
  else
    let? v := chk
      (if end0 =? p2end then Some v
       else
         let! m := upd vsp (set_end p2end) (vm_mem v) in
         let! (v, newseg) := vmem_seg_create (with_mem v m) vsp p2end end0 VMEM_FREE in
         vmem_freelist_insert v newseg) in
    let? (v, vsp) := chk
      (if start0 =? start then Some (v, vsp)
       else
         let! m := upd vsp (set_end start) (vm_mem v) in
         let! (v, newseg) := vmem_seg_create (with_mem v m) vsp start end_ VMEM_ALLOC in
         let! v := vmem_freelist_insert v vsp in
         Some (v, newseg)) in
    let? m := chk (upd vsp (set_end end_) (vm_mem v)) in
    chk (vmem_hash_insert (with_mem v m) vsp).

(** ** Allocation *)

(** The arguments of an allocation. *)
Record xargs := XArgs {
  x_size : Z;
  x_align : Z;
  x_phase : Z;
  x_nocross : Z;
  x_minaddr : Z;
  x_maxaddr : Z;
  x_vmflag : Z
}.

Definition flag (f bit : Z) : bool := negb (Z.land f bit =? 0).

(** The checks at the start of [vmem_xalloc]. *)
Definition xalloc_check (v : vmem) (x : xargs) : option panic :=
  if x_size x =? 0 then Some Size_zero
  else if negb (Z.land (Z.lor (Z.lor (x_align x) (x_phase x)) (x_nocross x)) (uw (vm_quantum v - 1)) =? 0)
  then Some Not_quantum_aligned
  else if negb (x_nocross x =? 0) &&
          ((x_align x >? x_nocross x) || (P2ROUNDUP (uw (x_phase x + x_size x)) (x_align x) >? x_nocross x))
  then Some Overconstrained
  else None.

(** The free list where the search begins. *)
Definition first_flist (v : vmem) (x : xargs) : Z :=
  let flist := highbit lp64 (x_size x) in
  if (Z.land (x_size x) (uw (x_size x - 1)) =? 0) || (Z.shiftr (vm_freemap v) flist =? 0) ||
     (flist =? VMEM_FREELISTS) || flag (x_vmflag x) VM_BESTFIT
  then flist - 1 else flist.

(** The address a segment would satisfy the request with. *)
Definition candidate (x : xargs) (c : vmem_seg) : option Z :=
  if uw (vs_end c - 1) <? x_minaddr x then None
  else if vs_start c >? uw (x_maxaddr x - 1) then None
  else
    let start := Z.max (vs_start c) (x_minaddr x) in
    let end_ := uw (Z.min (uw (vs_end c - 1)) (uw (x_maxaddr x - 1)) + 1) in
    let taddr := P2PHASEUP start (x_align x) (x_phase x) in
    let taddr :=
      if P2CROSS taddr (uw (taddr + x_size x - 1)) (x_nocross x)
      then uw (taddr + P2ROUNDUP (P2NPHASE taddr (x_nocross x)) (x_align x)) else taddr in
    if uw (uw (taddr - start) + x_size x) >? uw (end_ - start) then None else Some taddr.

(** The state of the search: [vsp], [vbest] with its address, and the arena
    (whose search count changes). *)
Definition search_st : Type := vmem * option sptr * option (sptr * Z).

Definition search_step (x : xargs) (s : search_st) : option (loop search_st (vmem * option (sptr * Z))) :=
  let '(v, vsp, vbest) := s in
  match vsp with
  | None => Some (Return (v, vbest))
  | Some p =>
      let! c := vm_mem v !! p in
      let v := kadd vk_search 1 v in
      if vs_start c =? 0 then
        match vbest with
        | Some _ => Some (Return (v, vbest))
        | None =>
            let flist := lowbit lp64 (Z.land (vm_freemap v) (uw (- VS_SIZE c))) in
            if flist =? 0 then Some (Return (v, None))
            else
              let! ch := vm_mem v !! Flist (Z.to_nat (flist - 1)) in
              Some (Next (v, vs_knext ch, None))
        end
      else
        match candidate x c with
        | None => Some (Next (v, vs_knext c, vbest))
        | Some taddr =>
            let! worse :=
              match vbest with
              | None => Some false
              | Some (b, _) => let! cb := vm_mem v !! b in Some (VS_SIZE c >=? VS_SIZE cb)
              end in
            if worse then Some (Next (v, vs_knext c, vbest))
            else if negb (flag (x_vmflag x) VM_BESTFIT) || (VS_SIZE c =? x_size x)
            then Some (Return (v, Some (p, taddr)))
            else Some (Next (v, vs_knext c, Some (p, taddr)))
        end
  end.

(** The search of [vmem_xalloc] through the free lists. *)
Definition xalloc_search (v : vmem) (x : xargs) : option (vmem * option (sptr * Z)) :=
  let! ch := vm_mem v !! Flist (Z.to_nat (first_flist v x)) in
  run (search_step x) (seg_fuel v) (v, vs_knext ch, None).

(** What [vmem_xalloc] does with the segment it has found. *)
Definition xalloc_take (v : vmem) (x : xargs) (vbest : sptr) (addr : Z) : res vmem :=
  let? v := chk (vmem_freelist_delete v vbest) in
  vmem_seg_alloc v vbest addr (uw (addr + x_size x)).

(** *** vmem_xalloc as the steps of a thread

    The lock is dropped in [vmem_populate], for the import, for [kmem_reap]
    and in [cv_wait]; a step is what happens between two such places. *)

Inductive xpc :=
  | X_top                     (* at the head of the loop, in vmem_populate() *)
  | X_import (asize : Z)      (* in vm_source_alloc() *)
  | X_reap                    (* in kmem_reap() *)
  | X_wait                    (* in cv_wait() *)
  | X_done (addr : option Z).

Record xthread := XThread {
  t_args : xargs;
  t_pc : xpc;
  t_reaped : bool
}.

(** What a thread gets while it does not hold the lock: a segment structure
    (with what is in it), no memory for one, the address of an import
    ([NULL] is 0), or nothing. *)
Inductive xinput := I_none | I_seg (n : nat) (c : vmem_seg) | I_nomem | I_addr (a : Z).

(** [vmp->vm_kstat.vk_fail++ ...] *)
Definition xalloc_fail (v : vmem) (x : xargs) : res (vmem * xpc) :=
  if flag (x_vmflag x) VM_PANIC then Panic Mandatory else Ok (kadd vk_fail 1 v, X_done None).

(** [if (vmflag & VM_NOSLEEP) break; ... cv_wait()] *)
Definition xalloc_wait (v : vmem) (x : xargs) : res (vmem * xpc) :=
  if flag (x_vmflag x) VM_NOSLEEP then xalloc_fail v x else Ok (kadd vk_wait 1 v, X_wait).

(** [if (reaped++ == 0) ...] *)
Definition xalloc_retry (v : vmem) (x : xargs) (reaped : bool) : res (vmem * xpc) :=
  if reaped then xalloc_wait v x else Ok (v, X_reap).

Definition import_size (v : vmem) (x : xargs) : Z :=
  P2ROUNDUP (uw (x_size x + x_phase x)) (Z.max (x_align x) (vm_source_quantum v)).

(** One iteration, once the segments are there. *)
Definition xalloc_try (v : vmem) (x : xargs) (reaped : bool) : res (vmem * xpc) :=
  let? (v, vbest) := chk (xalloc_search v x) in
  match vbest with
  | Some (vsp, addr) => let? v := xalloc_take v x vsp addr in Ok (v, X_done (Some addr))
  | None =>
      if vm_source_alloc v && (x_nocross x =? 0) && (x_minaddr x =? 0) && (x_maxaddr x =? 0)
      then Ok (with_segfree v (vm_nsegfree v - 4) (vm_segfree v), X_import (import_size v x))
      else xalloc_retry v x reaped
  end.

(** [vm_source_alloc] has returned [vaddr]. *)
Definition xalloc_imported (v : vmem) (x : xargs) (reaped : bool) (asize vaddr : Z) : res (vmem * xpc) :=
  let v := with_segfree v (vm_nsegfree v + 4) (vm_segfree v) in
  if vaddr =? 0 then xalloc_retry v x reaped
  else
    let? (v, vbest) := vmem_span_create v vaddr asize 1 in
    let? c := chk (vm_mem v !! vbest) in
    let addr := P2PHASEUP (vs_start c) (x_align x) (x_phase x) in
    let? v := xalloc_take v x vbest addr in
    Ok (v, X_done (Some addr)).

(** [vmem_populate]: a segment from elsewhere goes to the spare list. *)
Definition populate_seg (v : vmem) (n : nat) (c : vmem_seg) : option vmem :=
  vmem_putseg (with_mem v (<[Seg n := c]> (vm_mem v))) (Seg n).

(** A step of [vmem_xalloc]; [None] is a step that does not come. *)
Definition xalloc_step (v : vmem) (t : xthread) (i : xinput) : option (res (vmem * xpc)) :=
  let x := t_args t in
  match t_pc t, i with
  | X_top, I_none => if vm_nsegfree v <? 4 then None else Some (xalloc_try v x (t_reaped t))
  | X_top, I_seg n c => Some (let? v := chk (populate_seg v n c) in Ok (v, X_top))
  | X_top, I_nomem =>
      if vm_nsegfree v <? 4 then Some (xalloc_fail (kadd vk_populate_fail 1 v) x) else Some (xalloc_try v x (t_reaped t))
  | X_import asize, I_addr a => Some (xalloc_imported v x (t_reaped t) asize a)
  | X_reap, I_none => Some (xalloc_wait v x)
  | X_wait, I_none => Some (Ok (v, X_top))
  | _, _ => None
  end.

(** [reaped] after the step. *)
Definition step_thread (t : xthread) (pc : xpc) : xthread :=
  XThread (t_args t) pc (match t_pc t with X_reap => true | _ => t_reaped t end).

(** The part of [vmem_xfree] that merges the freed segment with its free
    neighbours; the result is the segment it has become part of. *)
Definition xfree_coalesce (v : vmem) (vsp : sptr) : res (vmem * sptr) :=
  let? m := chk (upd vsp (λ c, set_end (P2ROUNDUP (vs_end c) (vm_quantum v)) c) (vm_mem v)) in
  let v := with_mem v m in
  let? c := chk (m !! vsp) in
  let? next := chk (vs_anext c) in
  let? cn := chk (m !! next) in
  let? v := chk
    (if vs_type cn =? VMEM_FREE then
       let! v := vmem_freelist_delete v next in
       let! cn := vm_mem v !! next in
       let! m := upd vsp (set_end (vs_end cn)) (vm_mem v) in
       vmem_seg_destroy (with_mem v m) next
     else Some v) in
  let? c := chk (vm_mem v !! vsp) in
  let? prev := chk (vs_aprev c) in
  let? cp := chk (vm_mem v !! prev) in
  chk
    (if vs_type cp =? VMEM_FREE then
       let! v := vmem_freelist_delete v prev in
       let! c := vm_mem v !! vsp in
       let! m := upd prev (set_end (vs_end c)) (vm_mem v) in
       let! v := vmem_seg_destroy (with_mem v m) vsp in
       Some (v, prev)
     else Some (v, vsp)).

(** [vmem_xfree]; the second component is the span to return to the source. *)
Definition vmem_xfree (v : vmem) (vaddr sz : Z) : res (vmem * option (Z * Z)) :=
  let? (v, vsp) := vmem_hash_delete v vaddr sz in
  let? (v, vsp) := xfree_coalesce v vsp in
  let? c := chk (vm_mem v !! vsp) in
  let? whole :=
    (if negb (vs_import c =? 0) && vm_source_free v then
       let? ap := chk (vs_aprev c) in
       let? cp := chk (vm_mem v !! ap) in
       let? an := chk (vs_anext c) in
       let? cn := chk (vm_mem v !! an) in
       Ok ((vs_type cp =? VMEM_SPAN) && (vs_type cn =? VMEM_SPAN))
     else Ok false) in
  if whole then
    let? v := chk (vmem_span_destroy v vsp) in
    Ok (v, Some (vs_start c, VS_SIZE c))
  else
    let? v := chk (vmem_freelist_insert v vsp) in
    Ok (v, None).

(** ** vmem_alloc and vmem_free: small sizes come from the quantum caches *)

Inductive route := Xalloc (x : xargs) | Qcache (i : Z).

Definition vmem_alloc (v : vmem) (sz vmflag : Z) : route :=
  if uw (sz - 1) >=? vm_qcache_max v then Xalloc (XArgs sz (vm_quantum v) 0 0 0 0 vmflag)
  else Qcache (Z.shiftr (uw (sz - 1)) (vm_qshift v)).

(** [None] is [vmem_xfree]. *)
Definition vmem_free (v : vmem) (sz : Z) : option Z :=
  if uw (sz - 1) >=? vm_qcache_max v then None else Some (Z.shiftr (uw (sz - 1)) (vm_qshift v)).

(** ** Spans *)

Definition contains_step (start end_ : Z) (s : vmem * option sptr) : option (loop (vmem * option sptr) (vmem * bool)) :=
  let '(v, vsp) := s in
  let! p := vsp in
  if decide (p = Seg0) then Some (Return (v, false))
  else
    let v := kadd vk_contains_search 1 v in
    let! c := vm_mem v !! p in
    if (start >=? vs_start c) && (uw (end_ - 1) <=? uw (vs_end c - 1)) then Some (Return (v, true))
    else Some (Next (v, vs_knext c)).

(** [vmem_contains] *)
Definition vmem_contains (v : vmem) (vaddr sz : Z) : option (vmem * bool) :=
  let start := vaddr in
  let end_ := uw (start + sz) in
  let! c0 := vm_mem v !! Seg0 in
  run (contains_step start end_) (seg_fuel v) (kadd vk_contains 1 v, vs_knext c0).

(** [vmem_add], after [vmem_populate] has returned [populated]; the result
    is the address or [NULL]. *)
Definition vmem_add (populated : bool) (v : vmem) (vaddr sz : Z) : res (vmem * option Z) :=
  if (vaddr =? 0) || (sz =? 0) then Panic Bad_add
  else if populated then
    let? (v, _) := vmem_span_create v vaddr sz 0 in
    Ok (v, Some vaddr)
  else Ok (v, None).

(** [vmem_walk]: the calls of [func], as addresses and sizes. *)
Definition walk_step (v : vmem) (typemask : Z) (s : option sptr * list (Z * Z)) :
    option (loop (option sptr * list (Z * Z)) (list (Z * Z))) :=
  let '(vsp, calls) := s in
  let! p := vsp in
  if decide (p = Seg0) then Some (Return (rev calls))
  else
    let! c := vm_mem v !! p in
    Some (Next (vs_anext c, if flag (vs_type c) typemask then (vs_start c, VS_SIZE c) :: calls else calls)).

Definition vmem_walk (v : vmem) (typemask : Z) : option (list (Z * Z)) :=
  let! c0 := vm_mem v !! Seg0 in
  run (walk_step v typemask) (seg_fuel v) (vs_anext c0, []).

(** [vmem_size] *)
Definition vmem_size (v : vmem) (typemask : Z) : Z :=
  let sz := 0 in
  let sz := if flag typemask VMEM_ALLOC then u64 (sz + vm_kstat v vk_mem_inuse) else sz in
  let sz := if flag typemask VMEM_FREE then u64 (sz + u64 (vm_kstat v vk_mem_total - vm_kstat v vk_mem_inuse)) else sz in
  uw sz.

(** ** Creation *)

Definition VMEM_HASH_INITIAL : nat := 64.
Definition VMEM_NQCACHE_MAX : Z := 16.

Definition zero_seg : vmem_seg := VmemSeg 0 0 None None None None 0 0.

(** The head of free list [i]; [top] is the value of [1UL << VMEM_FREELISTS],
    which the language leaves open. *)
Definition flist_head (top : Z) (i : nat) : vmem_seg :=
  let n := Z.to_nat VMEM_FREELISTS in
  VmemSeg 0 (if (i =? n)%nat then top else Z.shiftl 1 (Z.of_nat i))
    (if (i =? n)%nat then None else Some (Flist (S i)))
    (match i with O => None | S i => Some (Flist i) end) None None 0 0.

Definition flist_heads (top : Z) : gmap sptr vmem_seg :=
  list_to_map ((λ i, (Flist i, flist_head top i)) <$> seq 0 (S (Z.to_nat VMEM_FREELISTS))).

(** [vmem_create] up to the addition of the initial span. *)
Definition vmem_create (top quantum : Z) (afunc ffunc : bool) (source_quantum qcache_max : Z) : vmem :=
  let qshift := highbit lp64 quantum - 1 in
  let nqcache := Z.min (Z.shiftr qcache_max qshift) VMEM_NQCACHE_MAX in
  let mask := Z.of_nat VMEM_HASH_INITIAL - 1 in
  Vmem (<[Seg0 := VmemSeg 0 0 (Some Seg0) (Some Seg0) (Some Seg0) (Some Seg0) VMEM_SPAN 0]> (flist_heads top))
    qshift quantum (if nqcache =? 0 then 0 else uw (Z.shiftl nqcache qshift))
    afunc ffunc source_quantum 0 None (replicate VMEM_HASH_INITIAL None) true mask (highbit lp64 mask) 0 (λ _, 0).

(** ** vmem_hash_rescale() *)

Definition new_hash_size (v : vmem) : Z :=
  let nseg := uw (u64 (vm_kstat v vk_alloc - vm_kstat v vk_free)) in
  Z.max (Z.of_nat VMEM_HASH_INITIAL) (s32 (Z.shiftl 1 (highbit lp64 (uw (3 * nseg + 4)) - 2))).

(** [while (vsp != NULL) ...] for one old bucket. *)
Definition rehash_step (s : vmem * option sptr) : option (loop (vmem * option sptr) vmem) :=
  let '(v, vsp) := s in
  match vsp with
  | None => Some (Return v)
  | Some p =>
      let! c := vm_mem v !! p in
      let next_vsp := vs_knext c in
      let b := VMEM_HASH v (vs_start c) in
      let! head := vm_hash_table v !! b in
      let! m := upd p (set_vnext Lk head) (vm_mem v) in
      let! t := wr (vm_hash_table v) b (Some p) in
      Some (Next (with_table (with_mem v m) t, next_vsp))
  end.

Fixpoint rehash (old_table : list (option sptr)) (v : vmem) : option vmem :=
  match old_table with
  | [] => Some v
  | vsp :: old_table =>
      let! v := run rehash_step (seg_fuel v) (v, vsp) in
      rehash old_table v
  end.

(** [vmem_hash_rescale]; [nomem] says that there is no memory for the new
    table. *)
Definition vmem_hash_rescale (nomem : bool) (v : vmem) : option vmem :=
  let new_size := new_hash_size v in
  let old_size := vm_hash_mask v + 1 in
  if (Z.shiftr old_size 1 <=? new_size) && (new_size <=? uw (Z.shiftl old_size 1)) then Some v
  else if nomem then Some v
  else
    rehash (vm_hash_table v)
      (with_new_table v (replicate (Z.to_nat new_size) None) (new_size - 1) (highbit lp64 (new_size - 1))).

End vmem.
