(* ===== verification/VmemRep.v ===== *)
(** * VmemRep: what the segment pointers of an arena represent

    The cells of an arena are observed through their data ([dat]) and their
    links ([nxt], [prv]).  [rep] says that they form the arena list, the list
    of spans, the chain of free lists, the hash chains and the list of spare
    segments; each operation of [Vmem] on segments is the corresponding
    operation on these lists. *)

From Stdlib Require Import ZArith Lia.
From stdpp Require Import base numbers option list gmap.
From S2P Require Import Prelude Bitmap Vmem.

#[local] Open Scope Z_scope.

(** ** Observations *)

Abbreviation mem := (gmap sptr vmem_seg).

Definition nxt (w : link) (m : mem) (p : sptr) : option sptr := m !! p ≫= vnext w.
Definition prv (w : link) (m : mem) (p : sptr) : option sptr := m !! p ≫= vprev w.
Definition seg_dat (c : vmem_seg) : Z * Z * Z * Z := (vs_start c, vs_end c, vs_type c, vs_import c).
Definition dat (m : mem) (p : sptr) : option (Z * Z * Z * Z) := seg_dat <$> m !! p.

Definition other (w : link) : link := match w with La => Lk | Lk => La end.

(** Only the links of kind [w] may differ. *)
Definition links_only (w : link) (m m' : mem) : Prop :=
  ∀ p, dat m' p = dat m p ∧ nxt (other w) m' p = nxt (other w) m p ∧ prv (other w) m' p = prv (other w) m p.

Lemma dat_Some m p d : dat m p = Some d → ∃ c, m !! p = Some c ∧ seg_dat c = d.
Proof. unfold dat. intros (c & Hc & ->)%fmap_Some. eauto. Qed.

Lemma dat_is_Some m p : is_Some (dat m p) ↔ is_Some (m !! p).
Proof. unfold dat. by rewrite fmap_is_Some. Qed.

Lemma nxt_Some w m p q : nxt w m p = Some q → ∃ c, m !! p = Some c ∧ vnext w c = Some q.
Proof. unfold nxt. intros (c & -> & E)%bind_Some. eauto. Qed.

Lemma prv_Some w m p q : prv w m p = Some q → ∃ c, m !! p = Some c ∧ vprev w c = Some q.
Proof. unfold prv. intros (c & -> & E)%bind_Some. eauto. Qed.

Lemma seg_upd_eq p f m c : m !! p = Some c → upd p f m = Some (<[p := f c]> m).
Proof. unfold upd. by intros ->. Qed.

(** The links after a store. *)
Lemma nxt_insert w m p c q : nxt w (<[p := c]> m) q = if decide (q = p) then vnext w c else nxt w m q.
Proof. unfold nxt. destruct (decide (q = p)) as [->|]; [by rewrite lookup_insert_eq|by rewrite lookup_insert_ne]. Qed.

Lemma prv_insert w m p c q : prv w (<[p := c]> m) q = if decide (q = p) then vprev w c else prv w m q.
Proof. unfold prv. destruct (decide (q = p)) as [->|]; [by rewrite lookup_insert_eq|by rewrite lookup_insert_ne]. Qed.

Lemma dat_insert m p c q : dat (<[p := c]> m) q = if decide (q = p) then Some (seg_dat c) else dat m q.
Proof. unfold dat. destruct (decide (q = p)) as [->|]; [by rewrite lookup_insert_eq|by rewrite lookup_insert_ne]. Qed.

Lemma nxt_at w m p c : m !! p = Some c → nxt w m p = vnext w c.
Proof. unfold nxt. by intros ->. Qed.
Lemma prv_at w m p c : m !! p = Some c → prv w m p = vprev w c.
Proof. unfold prv. by intros ->. Qed.
Lemma dat_at m p c : m !! p = Some c → dat m p = Some (seg_dat c).
Proof. unfold dat. by intros ->. Qed.

(** ** Doubly linked lists *)

Fixpoint dll (w : link) (m : mem) (l : list sptr) : Prop :=
  match l with
  | p :: ((q :: _) as l) => nxt w m p = Some q ∧ prv w m q = Some p ∧ dll w m l
  | _ => True
  end.

Lemma dll_cons w m p q l : dll w m (p :: q :: l) ↔ nxt w m p = Some q ∧ prv w m q = Some p ∧ dll w m (q :: l).
Proof. done. Qed.

Lemma dll_app w m l1 p l2 : dll w m (l1 ++ p :: l2) ↔ dll w m (l1 ++ [p]) ∧ dll w m (p :: l2).
Proof.
  induction l1 as [|x l1 IH]; [cbn; tauto|]. destruct l1 as [|y l1]; cbn [app] in *.
  - rewrite !dll_cons. cbn. tauto.
  - rewrite !dll_cons, IH. tauto.
Qed.

Lemma dll_frame w m m' l :
  (∀ p, p ∈ removelast l → nxt w m' p = nxt w m p) → (∀ p, p ∈ tail l → prv w m' p = prv w m p) →
  dll w m l → dll w m' l.
Proof.
  induction l as [|p [|q l] IH]; [done|done|]. intros Hn Hp (H1 & H2 & H3).
  cbn [tail] in Hp. change (removelast (p :: q :: l)) with (p :: removelast (q :: l)) in Hn.
  apply dll_cons. rewrite Hn, Hp by (by left). split_and!; [done|done|]. apply IH; [| |done].
  - intros x Hx. apply Hn. by right.
  - intros x Hx. apply Hp. by right.
Qed.

Lemma dll_ext w m m' l :
  (∀ p, p ∈ l → nxt w m' p = nxt w m p ∧ prv w m' p = prv w m p) → dll w m l → dll w m' l.
Proof.
  intros H. apply dll_frame; intros p Hp; apply H.
  - rewrite (app_removelast_last p) by (by intros ->; apply elem_of_nil in Hp). apply elem_of_app. by left.
  - destruct l; [by apply elem_of_nil in Hp|by right].
Qed.

(** A list whose first element may also be its last. *)
Definition ring_ok (l : list sptr) : Prop := NoDup (removelast l) ∧ NoDup (tail l).

Lemma removelast_split {A} (l1 : list A) p q l2 : removelast (l1 ++ p :: q :: l2) = l1 ++ p :: removelast (q :: l2).
Proof. rewrite removelast_app by done. done. Qed.

Lemma tail_split {A} (l1 : list A) p l2 : tail (l1 ++ p :: l2) = tail (l1 ++ [p]) ++ l2.
Proof. destruct l1; [done|]. cbn. by rewrite <- app_assoc. Qed.

Lemma elem_removelast {A} (x : A) l : x ∈ removelast l → x ∈ l.
Proof.
  intros Hx. rewrite (app_removelast_last x (l := l)) by (by intros ->; apply elem_of_nil in Hx).
  apply elem_of_app. by left.
Qed.

Lemma elem_tail {A} (x : A) l : x ∈ tail l → x ∈ l.
Proof. destruct l; [done|by right]. Qed.

(** What [VMEM_INSERT] does to the links. *)
Lemma vmem_insert_obs w m prev vsp next :
  nxt w m prev = Some next → is_Some (m !! vsp) → is_Some (m !! next) → vsp ≠ prev → vsp ≠ next →
  ∃ m', VMEM_INSERT w prev vsp m = Some m' ∧ links_only w m m' ∧
    (∀ q, nxt w m' q = if decide (q = prev) then Some vsp else if decide (q = vsp) then Some next else nxt w m q) ∧
    (∀ q, prv w m' q = if decide (q = next) then Some vsp else if decide (q = vsp) then Some prev else prv w m q).
Proof.
  intros Hn [cv Hv] [cn Hcn] Hvp Hvn. destruct (nxt_Some _ _ _ _ Hn) as (cp & Hp & Hcp).
  unfold VMEM_INSERT. rewrite Hp, Hcp. rewrite (seg_upd_eq _ _ _ _ Hv).
  rewrite (seg_upd_eq vsp _ _ (set_vnext w (Some next) cv)) by apply lookup_insert_eq. rewrite insert_insert_eq.
  set (m2 := <[vsp := _]> m). rewrite (seg_upd_eq prev _ m2 cp) by (unfold m2; by rewrite lookup_insert_ne).
  set (m3 := <[prev := _]> m2).
  assert (is_Some (m3 !! next)) as [c3 H3].
  { unfold m3, m2. destruct (decide (next = prev)) as [->|]; [rewrite lookup_insert_eq; eauto|].
    rewrite !lookup_insert_ne by done. eauto. }
  rewrite (seg_upd_eq next _ m3 c3 H3). eexists. split; [done|].
  assert (∀ q, dat m3 q = dat m q) as Hd3.
  { intros q. unfold m3, m2. rewrite !dat_insert. destruct (decide (q = prev)) as [->|]; [rewrite (dat_at _ _ _ Hp); by destruct w|].
    destruct (decide (q = vsp)) as [->|]; [rewrite (dat_at _ _ _ Hv); by destruct w|done]. }
  assert (∀ q, nxt (other w) m3 q = nxt (other w) m q ∧ prv (other w) m3 q = prv (other w) m q) as Ho3.
  { intros q. unfold m3, m2. rewrite !nxt_insert, !prv_insert.
    destruct (decide (q = prev)) as [->|]; [rewrite (nxt_at _ _ _ _ Hp), (prv_at _ _ _ _ Hp); by destruct w|].
    destruct (decide (q = vsp)) as [->|]; [rewrite (nxt_at _ _ _ _ Hv), (prv_at _ _ _ _ Hv); by destruct w|done]. }
  split_and!.
  - intros q. rewrite dat_insert, nxt_insert, prv_insert. destruct (decide (q = next)) as [->|]; [|split; [done|apply Ho3]].
    rewrite <- Hd3, <- (proj1 (Ho3 next)), <- (proj2 (Ho3 next)), (dat_at _ _ _ H3), (nxt_at _ _ _ _ H3), (prv_at _ _ _ _ H3).
    by destruct w.
  - intros q. rewrite nxt_insert. destruct (decide (q = next)) as [->|].
    + transitivity (nxt w m3 next); [rewrite (nxt_at _ _ _ _ H3); by destruct w|]. unfold m3, m2. rewrite !nxt_insert.
      destruct (decide (next = prev)); [by destruct w|]. by rewrite !decide_False by done.
    + unfold m3, m2. rewrite !nxt_insert. destruct (decide (q = prev)); [by destruct w|].
      destruct (decide (q = vsp)); [by destruct w|done].
  - intros q. rewrite prv_insert. destruct (decide (q = next)) as [->|]; [by destruct w|].
    unfold m3, m2. rewrite !prv_insert. destruct (decide (q = prev)) as [->|].
    + rewrite decide_False by done. rewrite (prv_at _ _ _ _ Hp). by destruct w.
    + destruct (decide (q = vsp)); [by destruct w|done].
Qed.

Lemma vmem_delete_obs w m prev vsp next :
  nxt w m vsp = Some next → prv w m vsp = Some prev → is_Some (m !! prev) → is_Some (m !! next) →
  ∃ m', VMEM_DELETE w vsp m = Some m' ∧ links_only w m m' ∧
    (∀ q, nxt w m' q = if decide (q = prev) then Some next else nxt w m q) ∧
    (∀ q, prv w m' q = if decide (q = next) then Some prev else prv w m q).
Proof.
  intros Hn Hpr [cp Hp] [cn Hcn]. destruct (nxt_Some _ _ _ _ Hn) as (c & Hc & Hcn').
  rewrite (prv_at _ _ _ _ Hc) in Hpr. unfold VMEM_DELETE. rewrite Hc, Hpr, Hcn', (seg_upd_eq _ _ _ _ Hp).
  set (m1 := <[prev := _]> m). assert (is_Some (m1 !! next)) as [c1 H1].
  { unfold m1. destruct (decide (next = prev)) as [->|]; [rewrite lookup_insert_eq; eauto|].
    rewrite lookup_insert_ne by done. eauto. }
  rewrite (seg_upd_eq _ _ _ _ H1). eexists. split; [done|].
  assert (∀ q, dat m1 q = dat m q ∧ nxt (other w) m1 q = nxt (other w) m q ∧ prv (other w) m1 q = prv (other w) m q) as Ho.
  { intros q. unfold m1. rewrite dat_insert, nxt_insert, prv_insert. destruct (decide (q = prev)) as [->|]; [|done].
    rewrite (dat_at _ _ _ Hp), (nxt_at _ _ _ _ Hp), (prv_at _ _ _ _ Hp). by destruct w. }
  split_and!.
  - intros q. destruct (Ho q) as (O1 & O2 & O3). rewrite dat_insert, nxt_insert, prv_insert.
    destruct (decide (q = next)) as [->|]; [|done]. rewrite <- O1, <- O2, <- O3, (dat_at _ _ _ H1), (nxt_at _ _ _ _ H1), (prv_at _ _ _ _ H1).
    by destruct w.
  - intros q. rewrite nxt_insert. destruct (decide (q = next)) as [->|].
    + transitivity (nxt w m1 next); [rewrite (nxt_at _ _ _ _ H1); by destruct w|].
      unfold m1. rewrite nxt_insert. destruct (decide (next = prev)); [by destruct w|done].
    + unfold m1. rewrite nxt_insert. destruct (decide (q = prev)); [by destruct w|done].
  - intros q. rewrite prv_insert. destruct (decide (q = next)); [by destruct w|].
    unfold m1. rewrite prv_insert. destruct (decide (q = prev)) as [->|]; [|done].
    rewrite (prv_at _ _ _ _ Hp). by destruct w.
Qed.

(** Insertion into and deletion from a linked list. *)
Lemma dll_insert w m m' l1 prev vsp next l2 :
  (∀ q, nxt w m' q = if decide (q = prev) then Some vsp else if decide (q = vsp) then Some next else nxt w m q) →
  (∀ q, prv w m' q = if decide (q = next) then Some vsp else if decide (q = vsp) then Some prev else prv w m q) →
  ring_ok (l1 ++ prev :: next :: l2) → vsp ∉ l1 ++ prev :: next :: l2 →
  dll w m (l1 ++ prev :: next :: l2) → dll w m' (l1 ++ prev :: vsp :: next :: l2).
Proof.
  intros Hn Hp [R1 R2] Hv Hl. rewrite removelast_split in R1. rewrite tail_split in R2.
  apply NoDup_app in R1 as (_ & R1 & R1'). apply NoDup_cons in R1' as [R1' _].
  apply NoDup_app in R2 as (_ & R2 & R2'). apply NoDup_cons in R2' as [R2' _].
  apply dll_app in Hl as [Hl1 Hl2]. apply dll_cons in Hl2 as (_ & _ & Hl2).
  apply dll_app. split; [|apply dll_cons; split_and!; [| |apply dll_cons; split_and!]].
  - apply (dll_frame w m); [..|done].
    + intros q Hq. rewrite removelast_app, app_nil_r in Hq by done. rewrite Hn.
      rewrite !decide_False; [done|set_solver|]. intros ->. apply (R1 prev Hq). by left.
    + intros q Hq. rewrite Hp. rewrite !decide_False; [done| |].
      * intros ->. apply Hv. apply elem_tail in Hq. set_solver.
      * intros ->. apply (R2 next Hq). by left.
  - rewrite Hn. by rewrite decide_True.
  - rewrite Hp, decide_False by set_solver. by rewrite decide_True.
  - rewrite Hn, decide_False by set_solver. by rewrite decide_True.
  - rewrite Hp. by rewrite decide_True.
  - apply (dll_frame w m); [..|done].
    + intros q Hq. rewrite Hn. rewrite !decide_False; [done| |by intros ->].
      intros ->. apply Hv. apply elem_removelast in Hq. set_solver.
    + intros q Hq. cbn in Hq. rewrite Hp. rewrite !decide_False; [done|set_solver|by intros ->].
Qed.

Lemma dll_delete w m m' l1 prev vsp next l2 :
  (∀ q, nxt w m' q = if decide (q = prev) then Some next else nxt w m q) →
  (∀ q, prv w m' q = if decide (q = next) then Some prev else prv w m q) →
  ring_ok (l1 ++ prev :: vsp :: next :: l2) →
  dll w m (l1 ++ prev :: vsp :: next :: l2) → dll w m' (l1 ++ prev :: next :: l2).
Proof.
  intros Hn Hp [R1 R2] Hl. rewrite removelast_split in R1. rewrite tail_split in R2.
  apply NoDup_app in R1 as (_ & R1 & R1'). apply NoDup_cons in R1' as [R1' _].
  apply NoDup_app in R2 as (_ & R2 & R2'). apply NoDup_cons in R2' as [_ R2']. apply NoDup_cons in R2' as [R2' _].
  apply dll_app in Hl as [Hl1 Hl2]. apply dll_cons in Hl2 as (_ & _ & Hl2). apply dll_cons in Hl2 as (_ & _ & Hl2).
  apply dll_app. split; [|apply dll_cons; split_and!].
  - apply (dll_frame w m); [..|done].
    + intros q Hq. rewrite removelast_app, app_nil_r in Hq by done. rewrite Hn, decide_False; [done|].
      intros ->. apply (R1 prev Hq). by left.
    + intros q Hq. rewrite Hp, decide_False; [done|]. intros ->. apply (R2 next Hq). by right; left.
  - rewrite Hn. by rewrite decide_True.
  - rewrite Hp. by rewrite decide_True.
  - apply (dll_frame w m); [..|done].
    + intros q Hq. rewrite Hn, decide_False; [done|]. intros ->. apply R1'.
      change (removelast (vsp :: next :: l2)) with (vsp :: removelast (next :: l2)). by right.
    + intros q Hq. cbn in Hq. rewrite Hp, decide_False; [done|by intros ->].
Qed.

(** The neighbours of an element. *)
Lemma dll_neighbours w m l1 prev p next l2 :
  dll w m (l1 ++ prev :: p :: next :: l2) → nxt w m p = Some next ∧ prv w m p = Some prev.
Proof.
  intros Hl. apply dll_app in Hl as [_ Hl]. apply dll_cons in Hl as (_ & Hp & Hl).
  by apply dll_cons in Hl as (Hn & _).
Qed.

Lemma dll_next w m l1 p q l2 : dll w m (l1 ++ p :: q :: l2) → nxt w m p = Some q ∧ prv w m q = Some p.
Proof. intros Hl. apply dll_app in Hl as [_ Hl]. by apply dll_cons in Hl as (? & ? & _). Qed.

(** ** Singly linked lists, through [vs_knext] *)

Fixpoint sll (m : mem) (o : option sptr) (l : list sptr) : Prop :=
  match l with
  | [] => o = None
  | p :: l => o = Some p ∧ is_Some (m !! p) ∧ sll m (nxt Lk m p) l
  end.

Lemma sll_ext m m' o l :
  (∀ p, p ∈ l → is_Some (m' !! p) ∧ nxt Lk m' p = nxt Lk m p) → sll m o l → sll m' o l.
Proof.
  revert o. induction l as [|p l IH]; intros o H; [done|]. intros (-> & Hp & Hl). cbn.
  destruct (H p) as [H1 H2]; [by left|]. rewrite H2. split_and!; [done|done|]. apply IH; [|done].
  intros q Hq. apply H. by right.
Qed.

Lemma links_only_is_Some w m m' p : links_only w m m' → is_Some (m' !! p) ↔ is_Some (m !! p).
Proof. intros H. rewrite <- !dat_is_Some. by rewrite (proj1 (H p)). Qed.

Lemma NoDup_app_l {A} (l k : list A) : NoDup (l ++ k) → NoDup l.
Proof. by intros (? & _ & _)%NoDup_app. Qed.
Lemma NoDup_app_r {A} (l k : list A) : NoDup (l ++ k) → NoDup k.
Proof. by intros (_ & _ & ?)%NoDup_app. Qed.

(** ** The lists of an arena *)

(** A segment of the arena list, with an end address that does not wrap. *)
Record gseg := GSeg {
  g_ptr : sptr;
  g_lo : Z;
  g_hi : Z;
  g_type : Z;
  g_import : Z
}.

Definition ptrs (A : list gseg) : list sptr := g_ptr <$> A.

Lemma ptrs_app A B : ptrs (A ++ B) = ptrs A ++ ptrs B.
Proof. apply fmap_app. Qed.

Lemma ptrs_cons g A : ptrs (g :: A) = g_ptr g :: ptrs A.
Proof. done. Qed.

Lemma elem_ptrs g A : g ∈ A → g_ptr g ∈ ptrs A.
Proof. apply list_elem_of_fmap_2. Qed.

Lemma ptrs_elem p A : p ∈ ptrs A → ∃ g, g ∈ A ∧ g_ptr g = p.
Proof. intros (g & -> & Hg)%list_elem_of_fmap. eauto. Qed.

(** The chain of free lists with their heads. *)
Fixpoint fchain (i : nat) (F : list (list sptr)) : list sptr :=
  match F with
  | [] => [Flist i]
  | l :: F => Flist i :: l ++ fchain (S i) F
  end.

Lemma fchain_head i F : ∃ l, fchain i F = Flist i :: l.
Proof. destruct F; cbn; eauto. Qed.

Lemma fchain_split i F j l :
  F !! j = Some l → ∃ c1 c2, fchain i F = c1 ++ Flist (i + j) :: l ++ Flist (S (i + j)) :: c2 ∧
    ∀ l', fchain i (<[j := l']> F) = c1 ++ Flist (i + j) :: l' ++ Flist (S (i + j)) :: c2.
Proof.
  revert i j. induction F as [|x F IH]; intros i [|j]; cbn [lookup list_lookup]; [done|done| |].
  - intros [= ->]. exists []. destruct (fchain_head (S i) F) as [c2 Hc]. exists c2.
    rewrite Nat.add_0_r. cbn. rewrite Hc. done.
  - intros Hj. destruct (IH (S i) j Hj) as (c1 & c2 & E & E'). exists (Flist i :: x ++ c1), c2.
    replace (i + S j)%nat with (S i + j)%nat by lia. split; [|intros l'; cbn].
    + cbn. rewrite E. by rewrite <- app_assoc.
    + rewrite E'. by rewrite <- app_assoc.
Qed.

Lemma elem_fchain i F p :
  p ∈ fchain i F ↔ p ∈ concat F ∨ ∃ j, p = Flist j ∧ (i <= j <= i + length F)%nat.
Proof.
  revert i. induction F as [|l F IH]; intros i; cbn [fchain concat length].
  - rewrite list_elem_of_singleton. split; [intros ->; right; exists i; split; [done|lia]|].
    intros [[]%elem_of_nil|(j & -> & Hj)]. f_equal. lia.
  - rewrite elem_of_cons, !elem_of_app, IH. split.
    + intros [->|[?|[?|(j & -> & Hj)]]]; [right; exists i; split; [done|lia]|by left; left|by left; right|].
      right. exists j. split; [done|lia].
    + intros [[?|?]|(j & -> & Hj)]; [by right; left|by right; right; left|].
      destruct (decide (j = i)) as [->|]; [by left|]. right; right; right. exists j. split; [done|lia].
Qed.

Definition is_seg (p : sptr) : Prop := match p with Seg _ => True | _ => False end.

Lemma not_seg0 : ¬ is_seg Seg0.
Proof. by intros []. Qed.
Lemma not_flist i : ¬ is_seg (Flist i).
Proof. by intros []. Qed.

Lemma fchain_NoDup i F : NoDup (concat F) → Forall is_seg (concat F) → NoDup (fchain i F).
Proof.
  revert i. induction F as [|l F IH]; intros i; cbn [fchain concat]; [intros _ _; apply NoDup_singleton|].
  rewrite Forall_app. intros (H1 & H2 & H3)%NoDup_app [S1 S2].
  apply NoDup_cons. split.
  - rewrite elem_of_app, elem_fchain. intros [Hp|[Hp|(j & [= ->] & Hj)]]; [| |lia].
    + by apply (proj1 (Forall_forall _ _) S1) in Hp.
    + by apply (proj1 (Forall_forall _ _) S2) in Hp.
  - apply NoDup_app. split_and!; [done| |by apply IH].
    intros p Hp. rewrite elem_fchain. intros [?|(j & -> & _)]; [by apply (H2 p)|].
    by apply (proj1 (Forall_forall _ _) S1) in Hp.
Qed.

Lemma concat_insert {A} (F : list (list A)) i l l' :
  F !! i = Some l → ∃ c1 c2, concat F = c1 ++ l ++ c2 ∧ concat (<[i := l']> F) = c1 ++ l' ++ c2.
Proof.
  intros Hi. exists (concat (take i F)), (concat (drop (S i) F)).
  rewrite <- (take_drop_middle F i l Hi) at 1. rewrite insert_take_drop by (by eapply lookup_lt_Some).
  by rewrite !concat_app.
Qed.

Lemma elem_concat {A} (F : list (list A)) x : x ∈ concat F ↔ ∃ i l, F !! i = Some l ∧ x ∈ l.
Proof.
  rewrite list_elem_of_In, in_concat. split.
  - intros (l & Hl%list_elem_of_In & Hx%list_elem_of_In). apply list_elem_of_lookup in Hl as [i Hi]. eauto.
  - intros (i & l & Hi & Hx). exists l. rewrite <- !list_elem_of_In. eauto using list_elem_of_lookup_2.
Qed.

Lemma concat_disjoint {A} (F : list (list A)) i j l l' x :
  NoDup (concat F) → F !! i = Some l → F !! j = Some l' → x ∈ l → x ∈ l' → i = j.
Proof.
  revert i j. induction F as [|y F IH]; intros [|i] [|j] Hnd Hi Hj Hl Hl'; cbn in *; try done.
  - injection Hi as ->. apply NoDup_app in Hnd as (_ & Hnd & _). destruct (Hnd x Hl). apply elem_concat. eauto.
  - injection Hj as ->. apply NoDup_app in Hnd as (_ & Hnd & _). destruct (Hnd x Hl'). apply elem_concat. eauto.
  - f_equal. apply NoDup_app_r in Hnd. by apply IH.
Qed.

Lemma NoDup_concat_lookup {A} (F : list (list A)) i l : NoDup (concat F) → F !! i = Some l → NoDup l.
Proof.
  intros Hnd Hi. destruct (concat_insert F i l [] Hi) as (k1 & k2 & Ek & _). rewrite Ek in Hnd.
  by apply NoDup_app_r, NoDup_app_l in Hnd.
Qed.

Section rep.
Context (lp64 : bool).

Abbreviation W := (Z.to_nat (VMEM_FREELISTS lp64)).

Definition cell_of (g : gseg) : Z * Z * Z * Z := (g_lo g, uw lp64 (g_hi g), g_type g, g_import g).

Definition flist_end (top : Z) (i : nat) : Z := if (i =? W)%nat then top else 2 ^ Z.of_nat i.

(** The memory of an arena: [A] the arena list, [K] the spans, [F] the free
    lists, [H] the hash chains, [SF] the spare segments. *)
Record reps (top : Z) (m : mem) (tbl : list (option sptr)) (sf : option sptr)
    (A : list gseg) (K : list sptr) (F H : list (list sptr)) (SF : list sptr) : Prop := {
  r_seg0 : dat m Seg0 = Some (0, 0, VMEM_SPAN, 0);
  r_flist : ∀ i, (i <= W)%nat → dat m (Flist i) = Some (0, flist_end top i, 0, 0);
  r_dat : ∀ g, g ∈ A → dat m (g_ptr g) = Some (cell_of g);
  r_own : NoDup (ptrs A ++ SF);
  r_seg : Forall is_seg (ptrs A ++ SF);
  r_kin : NoDup (K ++ concat F ++ concat H ++ SF);
  r_sub : ∀ p, p ∈ K ++ concat F ++ concat H → p ∈ ptrs A;
  r_a : dll La m (Seg0 :: ptrs A ++ [Seg0]);
  r_k : dll Lk m (Seg0 :: K ++ [Seg0]);
  r_f : dll Lk m (fchain 0 F);
  r_flen : length F = W;
  r_fend : nxt Lk m (Flist W) = None;
  r_h : Forall2 (sll m) tbl H;
  r_s : sll m sf SF
}.

Section facts.
Context {top : Z} {m : mem} {tbl : list (option sptr)} {sf : option sptr} {A : list gseg} {K : list sptr}.
Context {F H : list (list sptr)} {SF : list sptr}.
Context (R : reps top m tbl sf A K F H SF).

Lemma reps_seg p : p ∈ ptrs A ∨ p ∈ SF → is_seg p.
Proof. intros Hp. apply (proj1 (Forall_forall _ _) (r_seg _ _ _ _ _ _ _ _ _ R)). by apply elem_of_app. Qed.

Lemma reps_kseg p : p ∈ K ++ concat F ++ concat H → is_seg p.
Proof. intros Hp. apply reps_seg. left. by apply (r_sub _ _ _ _ _ _ _ _ _ R). Qed.

Lemma reps_is_Some p : p ∈ ptrs A → is_Some (m !! p).
Proof. intros (g & Hg & <-)%ptrs_elem. rewrite <- dat_is_Some, (r_dat _ _ _ _ _ _ _ _ _ R g Hg). eauto. Qed.

Lemma reps_seg0_Some : is_Some (m !! Seg0).
Proof. rewrite <- dat_is_Some, (r_seg0 _ _ _ _ _ _ _ _ _ R). eauto. Qed.

Lemma reps_flist_Some i : (i <= W)%nat → is_Some (m !! Flist i).
Proof. intros Hi. rewrite <- dat_is_Some, (r_flist _ _ _ _ _ _ _ _ _ R i Hi). eauto. Qed.

Lemma reps_sf_Some p : p ∈ SF → is_Some (m !! p).
Proof.
  pose proof (r_s _ _ _ _ _ _ _ _ _ R) as Hs. revert Hs. generalize sf. generalize SF.
  induction SF0 as [|q l IH]; intros o Hs Hp; [by apply elem_of_nil in Hp|]. destruct Hs as (-> & Hq & Hs).
  apply elem_of_cons in Hp as [->|Hp]; [done|by eapply IH].
Qed.

Lemma reps_ring_a : ring_ok (Seg0 :: ptrs A ++ [Seg0]).
Proof.
  assert (NoDup (ptrs A) ∧ Seg0 ∉ ptrs A) as [H1 H2].
  { split; [eapply NoDup_app_l, (r_own _ _ _ _ _ _ _ _ _ R)|]. intros Hp. by apply (reps_seg Seg0); left. }
  split.
  - change (Seg0 :: ptrs A ++ [Seg0]) with ((Seg0 :: ptrs A) ++ [Seg0]). rewrite removelast_app, app_nil_r by done.
    by apply NoDup_cons.
  - cbn. apply NoDup_app. split_and!; [done| |apply NoDup_singleton]. intros p Hp ->%list_elem_of_singleton. done.
Qed.

Lemma reps_ring_k : ring_ok (Seg0 :: K ++ [Seg0]).
Proof.
  assert (NoDup K ∧ Seg0 ∉ K) as [H1 H2].
  { split; [eapply NoDup_app_l, (r_kin _ _ _ _ _ _ _ _ _ R)|]. intros Hp. apply (reps_kseg Seg0). set_solver. }
  split.
  - change (Seg0 :: K ++ [Seg0]) with ((Seg0 :: K) ++ [Seg0]). rewrite removelast_app, app_nil_r by done.
    by apply NoDup_cons.
  - cbn. apply NoDup_app. split_and!; [done| |apply NoDup_singleton]. intros p Hp ->%list_elem_of_singleton. done.
Qed.

Lemma reps_ring_f : ring_ok (fchain 0 F).
Proof.
  assert (NoDup (fchain 0 F)) as Hnd.
  { apply fchain_NoDup.
    - eapply NoDup_app_l, NoDup_app_r, (r_kin _ _ _ _ _ _ _ _ _ R).
    - apply Forall_forall. intros p Hp. apply reps_kseg. set_solver. }
  split; [|by destruct (fchain 0 F); [|apply NoDup_cons in Hnd as [_ ?]]].
  destruct (fchain 0 F) as [|p l] using rev_ind; [done|]. rewrite removelast_app, app_nil_r by done.
  by apply NoDup_app in Hnd as [? _].
Qed.

Lemma reps_kin_disj :
  (∀ p, p ∈ K → (p ∉ concat F) ∧ (p ∉ concat H) ∧ (p ∉ SF)) ∧
  (∀ p, p ∈ concat F → (p ∉ concat H) ∧ (p ∉ SF)) ∧ (∀ p, p ∈ concat H → p ∉ SF).
Proof.
  pose proof (r_kin _ _ _ _ _ _ _ _ _ R) as Hk. apply NoDup_app in Hk as (_ & H1 & Hk).
  apply NoDup_app in Hk as (_ & H2 & Hk). apply NoDup_app in Hk as (_ & H3 & _). set_solver.
Qed.

(** The ring of spans and the chain of free lists share no cell with the
    other lists of kin. *)
Lemma reps_ring_disj q r :
  q ∈ Seg0 :: K ++ [Seg0] → (∃ i, r = Flist i) ∨ r ∈ concat F ∨ r ∈ concat H ∨ r ∈ SF → r ≠ q.
Proof.
  destruct reps_kin_disj as (D1 & D2 & D3). intros Hq Hr ->.
  assert (q = Seg0 ∨ q ∈ K) as [->|HK] by set_solver.
  - destruct Hr as [[i ?]|[Hr|[Hr|Hr]]]; [done|apply (reps_kseg Seg0); set_solver..|]. apply (reps_seg Seg0). by right.
  - destruct (D1 q HK) as (N1 & N2 & N3). destruct Hr as [[i ->]|[?|[?|?]]]; [|done..].
    apply (reps_kseg (Flist i)). set_solver.
Qed.

Lemma reps_chain_disj q r :
  q ∈ fchain 0 F → r = Seg0 ∨ r ∈ K ∨ r ∈ concat H ∨ r ∈ SF → r ≠ q.
Proof.
  destruct reps_kin_disj as (D1 & D2 & D3). intros [HF|(j & -> & _)]%elem_fchain Hr ->.
  - destruct (D2 q HF) as [N1 N2]. destruct Hr as [->|[Hr|[?|?]]]; [|by apply D1 in Hr as [? _]|done..].
    apply (reps_kseg Seg0). set_solver.
  - destruct Hr as [?|[Hr|[Hr|Hr]]]; [done|apply (reps_kseg (Flist j)); set_solver..|]. apply (reps_seg (Flist j)). by right.
Qed.

(** The hash chains only depend on their own links. *)
Lemma reps_h_ext m' : (∀ p, is_Some (m !! p) → is_Some (m' !! p)) →
  (∀ p, p ∈ concat H → nxt Lk m' p = nxt Lk m p) → Forall2 (sll m') tbl H.
Proof.
  intros HS Hn. pose proof (r_h _ _ _ _ _ _ _ _ _ R) as Hh. apply Forall2_same_length_lookup in Hh as [Hlen Hh].
  apply Forall2_same_length_lookup. split; [done|]. intros i o l Ho Hl. apply (sll_ext m); [|by eapply Hh].
  intros p Hp. assert (p ∈ concat H) as HpH by (apply elem_concat; eauto).
  split; [|by apply Hn]. apply HS, reps_is_Some, (r_sub _ _ _ _ _ _ _ _ _ R). set_solver.
Qed.

Lemma reps_s_ext m' : (∀ p, is_Some (m !! p) → is_Some (m' !! p)) →
  (∀ p, p ∈ SF → nxt Lk m' p = nxt Lk m p) → sll m' sf SF.
Proof.
  intros HS Hn. apply (sll_ext m); [|apply (r_s _ _ _ _ _ _ _ _ _ R)].
  intros p Hp. split; [|by apply Hn]. by apply HS, reps_sf_Some.
Qed.
End facts.
End rep.

(** ** The operations on the lists *)

(** The element after which a list is extended. *)
Definition lastp (l : list sptr) : sptr := default Seg0 (last l).

Lemma lastp_split l : ∃ l1, Seg0 :: l = l1 ++ [lastp l].
Proof.
  unfold lastp. destruct l as [|p l] using rev_ind; [by exists []|].
  exists (Seg0 :: l). rewrite last_snoc. done.
Qed.

Lemma first_split (l : list sptr) : ∃ q l2, l ++ [Seg0] = q :: l2.
Proof. destruct l; cbn; eauto. Qed.

Section ops.
Context (lp64 : bool) (top : Z).

Abbreviation W := (Z.to_nat (VMEM_FREELISTS lp64)).
Abbreviation reps := (reps lp64 top).
Abbreviation cell_of := (cell_of lp64).

(** Storing data in a segment of the arena. *)
Lemma reps_set m m' tbl sf A1 g g' A2 K F H SF :
  reps m tbl sf (A1 ++ g :: A2) K F H SF → g_ptr g' = g_ptr g →
  (∀ q, dat m' q = if decide (q = g_ptr g) then Some (cell_of g') else dat m q) →
  (∀ w q, nxt w m' q = nxt w m q ∧ prv w m' q = prv w m q) →
  reps m' tbl sf (A1 ++ g' :: A2) K F H SF.
Proof.
  intros R Hg Hd Hl. assert (ptrs (A1 ++ g' :: A2) = ptrs (A1 ++ g :: A2)) as Hp.
  { rewrite !ptrs_app. cbn. by rewrite Hg. }
  pose proof (λ p, reps_seg lp64 R p) as Hseg.
  assert (∀ q, ¬ is_seg q → dat m' q = dat m q) as Hns.
  { intros q Hq. rewrite Hd, decide_False; [done|]. intros ->. apply Hq, Hseg. left. apply elem_ptrs. set_solver. }
  assert (∀ q, is_Some (m !! q) → is_Some (m' !! q)) as HS.
  { intros q. rewrite <- !dat_is_Some, Hd. destruct (decide _); [eauto|done]. }
  pose proof R as [R1 R2 R3 R4 R5 R6 R7 R8 R9 R10 R11 R12 R13 R14]. constructor; rewrite ?Hp; try done.
  - rewrite Hns; [done|apply not_seg0].
  - intros i Hi. rewrite Hns; [by apply R2|apply not_flist].
  - intros h Hh. rewrite Hd. destruct (decide (g_ptr h = g_ptr g)) as [E|E].
    + apply elem_of_app in Hh as [Hh|[->|Hh]%elem_of_cons]; [| done|]; exfalso.
      * rewrite ptrs_app in R4. cbn in R4. apply NoDup_app_l, NoDup_app in R4 as (_ & R4 & _).
        apply (R4 (g_ptr h)); [by apply elem_ptrs|]. rewrite E. by left.
      * rewrite ptrs_app in R4. cbn in R4. apply NoDup_app_l, NoDup_app_r, NoDup_cons in R4 as [R4 _].
        apply R4. rewrite <- E. by apply elem_ptrs.
    + apply R3. apply elem_of_app in Hh as [Hh|[->|Hh]%elem_of_cons]; [set_solver|by rewrite Hg in E|set_solver].
  - apply (dll_ext _ m); [|done]. intros; apply Hl.
  - apply (dll_ext _ m); [|done]. intros; apply Hl.
  - apply (dll_ext _ m); [|done]. intros; apply Hl.
  - by rewrite (proj1 (Hl _ _)).
  - apply (reps_h_ext lp64 R); [done|]. intros; apply Hl.
  - apply (reps_s_ext lp64 R); [done|]. intros; apply Hl.
Qed.

(** Stores to a structure that belongs to no list. *)
Lemma reps_unowned m m' tbl sf A K F H SF p :
  reps m tbl sf A K F H SF → is_seg p → p ∉ ptrs A → p ∉ SF → (∀ q, q ≠ p → m' !! q = m !! q) →
  reps m' tbl sf A K F H SF.
Proof.
  intros R Hp HpA HpS Hm. pose proof R as [R1 R2 R3 R4 R5 R6 R7 R8 R9 R10 R11 R12 R13 R14].
  assert (∀ q, q ≠ p → dat m' q = dat m q) as Hd by (intros q Hq; unfold dat; by rewrite Hm).
  assert (∀ w q, q ≠ p → nxt w m' q = nxt w m q ∧ prv w m' q = prv w m q) as Hl
    by (intros w q Hq; unfold nxt, prv; by rewrite Hm).
  assert (∀ q, q ∈ K ++ concat F ++ concat H → q ≠ p) as Hk by (intros q Hq ->; apply HpA, R7, Hq).
  assert (∀ q, ¬ is_seg q → q ≠ p) as Hns by (by intros q Hq ->).
  constructor; try done.
  - rewrite Hd; [done|apply Hns, not_seg0].
  - intros i Hi. rewrite Hd; [by apply R2|apply Hns, not_flist].
  - intros g Hg. rewrite Hd; [by apply R3|]. intros <-. apply HpA. by apply elem_ptrs.
  - apply (dll_ext _ m); [|done]. intros q Hq. apply Hl. intros ->. apply elem_of_cons in Hq as [->|Hq]; [done|].
    apply elem_of_app in Hq as [Hq| ->%list_elem_of_singleton]; done.
  - apply (dll_ext _ m); [|done]. intros q Hq. apply Hl. intros ->. apply elem_of_cons in Hq as [->|Hq]; [done|].
    apply elem_of_app in Hq as [Hq| ->%list_elem_of_singleton]; [|done]. apply (Hk p); [set_solver|done].
  - apply (dll_ext _ m); [|done]. intros q [Hq|(j & -> & _)]%elem_fchain; apply Hl; [apply Hk; set_solver|apply Hns, not_flist].
  - rewrite (proj1 (Hl Lk (Flist W) (Hns _ (not_flist _)))). done.
  - apply Forall2_same_length_lookup in R13 as [Hlen R13]. apply Forall2_same_length_lookup. split; [done|].
    intros i o l Ho Hl'. apply (sll_ext m); [|by eapply R13]. intros q Hq.
    assert (q ≠ p) as Hqp by (apply Hk; rewrite !elem_of_app, !elem_concat; eauto 10).
    split; [|by apply Hl]. rewrite Hm by done. apply (reps_is_Some lp64 R), R7. rewrite !elem_of_app, !elem_concat; eauto 10.
  - apply (sll_ext m); [|done]. intros q Hq. assert (q ≠ p) as Hqp by set_solver.
    split; [|by apply Hl]. rewrite Hm by done. by apply (reps_sf_Some lp64 R).
Qed.

(** A change of the kin links only. *)
Lemma reps_rekin m m' tbl tbl' sf A K K' F F' H H' SF :
  reps m tbl sf A K F H SF → links_only Lk m m' →
  NoDup (K' ++ concat F' ++ concat H' ++ SF) → (∀ p, p ∈ K' ++ concat F' ++ concat H' → p ∈ ptrs A) →
  dll Lk m' (Seg0 :: K' ++ [Seg0]) → dll Lk m' (fchain 0 F') → length F' = W → nxt Lk m' (Flist W) = None →
  Forall2 (sll m') tbl' H' → sll m' sf SF → reps m' tbl' sf A K' F' H' SF.
Proof.
  intros [R1 R2 R3 R4 R5 R6 R7 R8 R9 R10 R11 R12 R13 R14] Hl ????????. constructor; try done.
  - by rewrite (proj1 (Hl _)).
  - intros i Hi. by rewrite (proj1 (Hl _)), R2.
  - intros g Hg. by rewrite (proj1 (Hl _)), R3.
  - apply (dll_ext La m); [|done]. intros q _. apply (Hl q).
Qed.

(** [VMEM_INSERT] on the arena list. *)
Lemma reps_a_insert m tbl sf A1 g A2 K F H SF :
  reps m tbl sf (A1 ++ A2) K F H SF → is_seg (g_ptr g) → g_ptr g ∉ ptrs (A1 ++ A2) → g_ptr g ∉ SF →
  dat m (g_ptr g) = Some (cell_of g) →
  ∃ m', VMEM_INSERT La (lastp (ptrs A1)) (g_ptr g) m = Some m' ∧ links_only La m m' ∧
    reps m' tbl sf (A1 ++ g :: A2) K F H SF.
Proof.
  intros R Hs HA HSF Hd. pose proof R as [R1 R2 R3 R4 R5 R6 R7 R8 R9 R10 R11 R12 R13 R14].
  destruct (lastp_split (ptrs A1)) as [l1 E1]. destruct (first_split (ptrs A2)) as (next & l2 & E2).
  assert (Seg0 :: ptrs (A1 ++ A2) ++ [Seg0] = l1 ++ lastp (ptrs A1) :: next :: l2) as E.
  { rewrite ptrs_app, <- app_assoc. rewrite E2. change (Seg0 :: ptrs A1 ++ ?x) with ((Seg0 :: ptrs A1) ++ x).
    by rewrite E1, <- app_assoc. }
  pose proof (reps_ring_a lp64 R) as Hring. rewrite E in R8, Hring.
  assert (∀ q, q ∈ Seg0 :: ptrs (A1 ++ A2) ++ [Seg0] → is_Some (m !! q) ∧ g_ptr g ≠ q) as Hall.
  { intros q Hq. split.
    - apply elem_of_cons in Hq as [->|[Hq| ->%list_elem_of_singleton]%elem_of_app];
        [apply (reps_seg0_Some lp64 R)|by apply (reps_is_Some lp64 R)|apply (reps_seg0_Some lp64 R)].
    - intros <-. apply elem_of_cons in Hq as [E'|[Hq|E'%list_elem_of_singleton]%elem_of_app]; [by rewrite E' in Hs|done|by rewrite E' in Hs]. }
  rewrite E in Hall.
  destruct (vmem_insert_obs La m (lastp (ptrs A1)) (g_ptr g) next) as (m' & Hi & Hlo & Hn & Hp).
  { by apply (dll_next _ _ l1 _ _ l2). }
  { rewrite <- dat_is_Some, Hd. eauto. }
  { apply Hall. set_solver. }
  { apply Hall. set_solver. }
  { apply Hall. set_solver. }
  exists m'. split; [done|]. split; [done|].
  assert (∀ q, is_Some (m !! q) → is_Some (m' !! q)) as HS by (intros q; apply (proj2 (links_only_is_Some La m m' q Hlo))).
  constructor; try done.
  - by rewrite (proj1 (Hlo _)).
  - intros i Hi'. by rewrite (proj1 (Hlo _)), R2.
  - intros h Hh. rewrite (proj1 (Hlo _)). apply elem_of_app in Hh as [Hh|[->|Hh]%elem_of_cons]; [apply R3; set_solver|done|apply R3; set_solver].
  - rewrite ptrs_app in *. cbn. rewrite <- app_assoc. cbn. rewrite <- Permutation_middle, app_assoc. apply NoDup_cons. split; [set_solver|done].
  - rewrite ptrs_app in *. cbn. rewrite <- app_assoc in *. cbn. rewrite Forall_app in *. rewrite Forall_cons. tauto.
  - intros p Hp'. apply R7 in Hp'. rewrite ptrs_app in *. cbn. set_solver.
  - rewrite ptrs_app, ptrs_cons, <- app_assoc, <- app_comm_cons, E2. change (Seg0 :: ptrs A1 ++ ?x) with ((Seg0 :: ptrs A1) ++ x).
    rewrite E1, <- app_assoc. change ([?x] ++ ?y) with (x :: y). apply (dll_insert La m); try done. intros Hq. by apply Hall in Hq as [_ ?].
  - apply (dll_ext Lk m); [|done]. intros q _. apply (Hlo q).
  - apply (dll_ext Lk m); [|done]. intros q _. apply (Hlo q).
  - by rewrite (proj1 (proj2 (Hlo _))).
  - apply (reps_h_ext lp64 R); [done|]. intros; apply Hlo.
  - apply (reps_s_ext lp64 R); [done|]. intros; apply Hlo.
Qed.

(** [VMEM_DELETE] on the arena list. *)
Lemma reps_a_delete m tbl sf A1 g A2 K F H SF :
  reps m tbl sf (A1 ++ g :: A2) K F H SF → g_ptr g ∉ K ++ concat F ++ concat H →
  ∃ m', VMEM_DELETE La (g_ptr g) m = Some m' ∧ links_only La m m' ∧ reps m' tbl sf (A1 ++ A2) K F H SF.
Proof.
  intros R Hk. pose proof R as [R1 R2 R3 R4 R5 R6 R7 R8 R9 R10 R11 R12 R13 R14].
  destruct (lastp_split (ptrs A1)) as [l1 E1]. destruct (first_split (ptrs A2)) as (next & l2 & E2).
  assert (Seg0 :: ptrs (A1 ++ g :: A2) ++ [Seg0] = l1 ++ lastp (ptrs A1) :: g_ptr g :: next :: l2) as E.
  { rewrite ptrs_app, ptrs_cons, <- app_assoc, <- app_comm_cons, E2. change (Seg0 :: ptrs A1 ++ ?x) with ((Seg0 :: ptrs A1) ++ x).
    by rewrite E1, <- app_assoc. }
  pose proof (reps_ring_a lp64 R) as Hring. rewrite E in R8, Hring.
  assert (∀ q, q ∈ Seg0 :: ptrs (A1 ++ g :: A2) ++ [Seg0] → is_Some (m !! q)) as Hall.
  { intros q Hq. apply elem_of_cons in Hq as [->|[Hq| ->%list_elem_of_singleton]%elem_of_app];
        [apply (reps_seg0_Some lp64 R)|by apply (reps_is_Some lp64 R)|apply (reps_seg0_Some lp64 R)]. }
  rewrite E in Hall. destruct (dll_neighbours _ _ _ _ _ _ _ R8) as [Hn0 Hp0].
  destruct (vmem_delete_obs La m (lastp (ptrs A1)) (g_ptr g) next Hn0 Hp0) as (m' & Hi & Hlo & Hn & Hp);
    [apply Hall; set_solver..|].
  exists m'. split; [done|]. split; [done|].
  assert (∀ q, is_Some (m !! q) → is_Some (m' !! q)) as HS by (intros q; apply (proj2 (links_only_is_Some La m m' q Hlo))).
  constructor; try done.
  - by rewrite (proj1 (Hlo _)).
  - intros i Hi'. by rewrite (proj1 (Hlo _)), R2.
  - intros h Hh. rewrite (proj1 (Hlo _)). apply R3. set_solver.
  - rewrite ptrs_app, ptrs_cons, <- app_assoc, <- app_comm_cons, <- Permutation_middle, app_assoc, <- ptrs_app in R4. by apply NoDup_cons in R4 as [_ ?].
  - rewrite ptrs_app in *. cbn in R5. rewrite <- app_assoc in *. cbn in R5. rewrite Forall_app in *. rewrite Forall_cons in R5. tauto.
  - intros p Hp'. assert (p ≠ g_ptr g) by (by intros ->). apply R7 in Hp'. rewrite ptrs_app in *. cbn in Hp'. set_solver.
  - rewrite ptrs_app. rewrite <- app_assoc, E2. change (Seg0 :: ptrs A1 ++ ?x) with ((Seg0 :: ptrs A1) ++ x).
    rewrite E1, <- app_assoc. change ([?x] ++ ?y) with (x :: y). by apply (dll_delete La m _ _ _ (g_ptr g)).
  - apply (dll_ext Lk m); [|done]. intros q _. apply (Hlo q).
  - apply (dll_ext Lk m); [|done]. intros q _. apply (Hlo q).
  - by rewrite (proj1 (proj2 (Hlo _))).
  - apply (reps_h_ext lp64 R); [done|]. intros; apply Hlo.
  - apply (reps_s_ext lp64 R); [done|]. intros; apply Hlo.
Qed.

(** Kin links of other segments. *)
Lemma reps_ring_k_ext m m' tbl sf A K F H SF :
  reps m tbl sf A K F H SF → (∀ q, q = Seg0 ∨ q ∈ K → nxt Lk m' q = nxt Lk m q ∧ prv Lk m' q = prv Lk m q) →
  dll Lk m' (Seg0 :: K ++ [Seg0]).
Proof. intros R Hq. apply (dll_ext Lk m); [|apply R]. intros q Hq'. apply Hq. set_solver. Qed.

Lemma reps_chain_ext m m' tbl sf A K F H SF :
  reps m tbl sf A K F H SF → (∀ q, (∃ i, q = Flist i) ∨ q ∈ concat F → nxt Lk m' q = nxt Lk m q ∧ prv Lk m' q = prv Lk m q) →
  dll Lk m' (fchain 0 F) ∧ nxt Lk m' (Flist W) = None.
Proof.
  intros R Hq. split; [apply (dll_ext Lk m); [|apply R]|].
  - intros q [?|(j & -> & _)]%elem_fchain; apply Hq; eauto.
  - rewrite (proj1 (Hq (Flist W) ltac:(eauto))). apply R.
Qed.

(** A new span at the end of the list of spans. *)
Lemma reps_span_insert m tbl sf A K F H SF p :
  reps m tbl sf A K F H SF → p ∈ ptrs A → p ∉ K ++ concat F ++ concat H →
  ∃ m', VMEM_INSERT Lk (lastp K) p m = Some m' ∧ links_only Lk m m' ∧ reps m' tbl sf A (K ++ [p]) F H SF.
Proof.
  intros R HpA Hpk. pose proof R as [R1 R2 R3 R4 R5 R6 R7 R8 R9 R10 R11 R12 R13 R14].
  assert (is_seg p) as Hs by (by apply (reps_seg lp64 R); left).
  assert (p ∉ SF) as HpS by (apply NoDup_app in R4 as (_ & R4 & _); by apply R4).
  destruct (lastp_split K) as [l1 E1]. assert (Seg0 :: K ++ [Seg0] = l1 ++ lastp K :: Seg0 :: []) as E.
  { change (Seg0 :: K ++ ?x) with ((Seg0 :: K) ++ x). by rewrite E1, <- app_assoc. }
  assert (∀ q, q ∈ Seg0 :: K → q ≠ p ∧ (q = Seg0 ∨ q ∈ K)) as Hall.
  { intros q [->|Hq]%elem_of_cons; [split; [by intros <-|by left]|split; [|by right]]. intros ->. apply Hpk. set_solver. }
  assert (lastp K ∈ Seg0 :: K) as Hlast by (rewrite E1; set_solver).
  destruct (vmem_insert_obs Lk m (lastp K) p Seg0) as (m' & Hi & Hlo & Hn & Hp).
  { by rewrite E in R9; apply (dll_next _ _ l1 _ _ []). }
  { by apply (reps_is_Some lp64 R). }
  { apply (reps_seg0_Some lp64 R). }
  { intros ->. by apply Hall in Hlast as [? _]. }
  { by intros ->. }
  assert (∀ q, (∃ i, q = Flist i) ∨ q ∈ concat F ∨ q ∈ concat H ∨ q ∈ SF → nxt Lk m' q = nxt Lk m q ∧ prv Lk m' q = prv Lk m q) as Hfr.
  { intros q Hq. assert (q ≠ p) as H1 by (intros ->; destruct Hq as [[i ->]|Hq]; [done|set_solver]).
    assert (q ≠ Seg0) as H2 by (apply (reps_ring_disj lp64 R); [by left|done]).
    assert (q ≠ lastp K) as H3 by (apply (reps_ring_disj lp64 R); [set_solver|done]).
    rewrite Hn, Hp. by rewrite !decide_False. }
  exists m'. split; [done|]. split; [done|]. eapply (reps_rekin m); try done.
  - rewrite <- app_assoc. cbn. rewrite <- Permutation_middle. apply NoDup_cons. set_solver.
  - intros q Hq. rewrite <- app_assoc in Hq. cbn in Hq. apply elem_of_app in Hq as [Hq|[->|Hq]%elem_of_cons]; [apply R7; set_solver|done|apply R7; set_solver].
  - rewrite <- app_assoc. change (Seg0 :: K ++ ?x) with ((Seg0 :: K) ++ x). rewrite E1, <- app_assoc. cbn [app].
    apply (dll_insert Lk m); try done.
    + rewrite <- E. apply (reps_ring_k lp64 R).
    + rewrite <- E. rewrite elem_of_cons, elem_of_app, list_elem_of_singleton. intros [->|[?| ->]]; [done|set_solver|done].
    + by rewrite <- E.
  - apply (reps_chain_ext m _ _ _ _ _ _ _ _ R). intros q [?|?]; apply Hfr; eauto.
  - apply (reps_chain_ext m _ _ _ _ _ _ _ _ R). intros q [?|?]; apply Hfr; eauto.
  - apply (reps_h_ext lp64 R); [|intros; apply Hfr; eauto]. intros q. apply (proj2 (links_only_is_Some Lk m m' q Hlo)).
  - apply (reps_s_ext lp64 R); [|intros; apply Hfr; eauto]. intros q. apply (proj2 (links_only_is_Some Lk m m' q Hlo)).
Qed.

Lemma reps_span_delete m tbl sf A K1 p K2 F H SF :
  reps m tbl sf A (K1 ++ p :: K2) F H SF →
  ∃ m', VMEM_DELETE Lk p m = Some m' ∧ links_only Lk m m' ∧ reps m' tbl sf A (K1 ++ K2) F H SF.
Proof.
  intros R. pose proof R as [R1 R2 R3 R4 R5 R6 R7 R8 R9 R10 R11 R12 R13 R14].
  destruct (lastp_split K1) as [l1 E1]. destruct (first_split K2) as (next & l2 & E2).
  assert (Seg0 :: (K1 ++ p :: K2) ++ [Seg0] = l1 ++ lastp K1 :: p :: next :: l2) as E.
  { rewrite <- app_assoc, <- app_comm_cons, E2. change (Seg0 :: K1 ++ ?x) with ((Seg0 :: K1) ++ x).
    by rewrite E1, <- app_assoc. }
  pose proof (reps_ring_k lp64 R) as Hring. pose proof R9 as R9'. rewrite E in R9', Hring.
  assert (∀ q, q ∈ Seg0 :: (K1 ++ p :: K2) ++ [Seg0] → is_Some (m !! q)) as Hall.
  { intros q Hq. assert (q = Seg0 ∨ q ∈ K1 ++ p :: K2) as [->|?] by set_solver; [apply (reps_seg0_Some lp64 R)|].
    apply (reps_is_Some lp64 R), R7. set_solver. }
  destruct (dll_neighbours _ _ _ _ _ _ _ R9') as [Hn0 Hp0].
  destruct (vmem_delete_obs Lk m (lastp K1) p next Hn0 Hp0) as (m' & Hi & Hlo & Hn & Hp); [apply Hall; rewrite E; set_solver..|].
  assert (∀ q, (∃ i, q = Flist i) ∨ q ∈ concat F ∨ q ∈ concat H ∨ q ∈ SF → nxt Lk m' q = nxt Lk m q ∧ prv Lk m' q = prv Lk m q) as Hfr.
  { intros q Hq. rewrite Hn, Hp.
    rewrite !decide_False; [done|apply (reps_ring_disj lp64 R); [rewrite E; set_solver|done]..]. }
  exists m'. split; [done|]. split; [done|]. eapply (reps_rekin m); try done.
  - rewrite <- app_assoc, <- app_comm_cons, <- Permutation_middle in R6. apply NoDup_cons in R6 as [_ R6]. by rewrite <- app_assoc.
  - intros q Hq. apply R7. set_solver.
  - rewrite <- app_assoc, E2. change (Seg0 :: K1 ++ ?x) with ((Seg0 :: K1) ++ x).
    rewrite E1, <- app_assoc. change ([?x] ++ ?y) with (x :: y). by apply (dll_delete Lk m _ _ _ p).
  - apply (reps_chain_ext m _ _ _ _ _ _ _ _ R). intros q [?|?]; apply Hfr; eauto.
  - apply (reps_chain_ext m _ _ _ _ _ _ _ _ R). intros q [?|?]; apply Hfr; eauto.
  - apply (reps_h_ext lp64 R); [|intros; apply Hfr; eauto]. intros q. apply (proj2 (links_only_is_Some Lk m m' q Hlo)).
  - apply (reps_s_ext lp64 R); [|intros; apply Hfr; eauto]. intros q. apply (proj2 (links_only_is_Some Lk m m' q Hlo)).
Qed.

Lemma reps_chain_Some m tbl sf A K F H SF q : reps m tbl sf A K F H SF → q ∈ fchain 0 F → is_Some (m !! q).
Proof.
  intros R [Hq|(j & -> & Hj)]%elem_fchain; [apply (reps_is_Some lp64 R), R; set_solver|].
  apply (reps_flist_Some lp64 R). rewrite (r_flen _ _ _ _ _ _ _ _ _ _ R) in Hj. lia.
Qed.

(** A segment becomes the first of a free list. *)
Lemma reps_free_insert m tbl sf A K F H SF i l p :
  reps m tbl sf A K F H SF → p ∈ ptrs A → p ∉ K ++ concat F ++ concat H → F !! i = Some l →
  ∃ m', VMEM_INSERT Lk (Flist i) p m = Some m' ∧ links_only Lk m m' ∧ reps m' tbl sf A K (<[i := p :: l]> F) H SF.
Proof.
  intros R HpA Hpk Hi. pose proof R as [R1 R2 R3 R4 R5 R6 R7 R8 R9 R10 R11 R12 R13 R14].
  assert (is_seg p) as Hs by (by apply (reps_seg lp64 R); left).
  assert (p ∉ SF) as HpS by (apply NoDup_app in R4 as (_ & R4 & _); by apply R4).
  destruct (fchain_split 0 F i l Hi) as (c1 & c2 & E & E'). cbn [Nat.add] in E, E'.
  destruct (l ++ Flist (S i) :: c2) as [|next l2] eqn:E2; [by destruct l|].
  assert (p ∉ fchain 0 F) as Hpc.
  { intros [?|(j & -> & _)]%elem_fchain; [set_solver|by apply not_flist in Hs]. }
  assert (Flist i ∈ fchain 0 F ∧ next ∈ fchain 0 F) as [Hin1 Hin2] by (rewrite E; set_solver).
  pose proof (reps_ring_f lp64 R) as Hring. pose proof R10 as R10'. rewrite E in R10', Hring.
  destruct (vmem_insert_obs Lk m (Flist i) p next) as (m' & Hi' & Hlo & Hn & Hp).
  { by apply (dll_next _ _ c1 _ _ l2). }
  { by apply (reps_is_Some lp64 R). }
  { by apply (reps_chain_Some _ _ _ _ _ _ _ _ _ R). }
  { intros ->. done. }
  { intros ->. done. }
  assert (∀ q, q = Seg0 ∨ q ∈ K ∨ q ∈ concat H ∨ q ∈ SF → nxt Lk m' q = nxt Lk m q ∧ prv Lk m' q = prv Lk m q) as Hfr.
  { intros q Hq. assert (q ≠ p) as H1 by (intros ->; destruct Hq as [->|Hq]; [by apply not_seg0 in Hs|set_solver]).
    rewrite Hn, Hp. rewrite !decide_False; [done|done|apply (reps_chain_disj lp64 R); done|done|apply (reps_chain_disj lp64 R); done]. }
  destruct (concat_insert F i l (p :: l) Hi) as (k1 & k2 & Ek & Ek').
  exists m'. split; [done|]. split; [done|]. eapply (reps_rekin m); try done.
  - rewrite Ek'. rewrite Ek in R6. rewrite Ek in Hpk.
    rewrite <- !app_assoc in *. rewrite <- !app_comm_cons, <- !Permutation_middle. apply NoDup_cons. split; [set_solver|done].
  - intros q. rewrite Ek'. intros Hq. destruct (decide (q = p)) as [->|]; [done|]. apply R7. rewrite Ek. set_solver.
  - apply (reps_ring_k_ext m _ _ _ _ _ _ _ _ R). intros q [?|?]; apply Hfr; eauto.
  - rewrite E'. change ((p :: l) ++ ?x) with (p :: l ++ x). rewrite E2.
    apply (dll_insert Lk m); try done. by rewrite <- E.
  - by rewrite length_insert.
  - rewrite Hn. rewrite !decide_False; [done|intros E0; rewrite <- E0 in Hs; by apply not_flist in Hs|]. intros [= Ei]. apply lookup_lt_Some in Hi. lia.
  - apply (reps_h_ext lp64 R); [|intros; apply Hfr; eauto]. intros q. apply (proj2 (links_only_is_Some Lk m m' q Hlo)).
  - apply (reps_s_ext lp64 R); [|intros; apply Hfr; eauto]. intros q. apply (proj2 (links_only_is_Some Lk m m' q Hlo)).
Qed.

(** A segment leaves its free list; its neighbours are the ones in the list,
    or heads of lists. *)
Lemma reps_free_delete m tbl sf A K F H SF i l1 p l2 :
  reps m tbl sf A K F H SF → F !! i = Some (l1 ++ p :: l2) →
  nxt Lk m p = Some (default (Flist (S i)) (head l2)) ∧ prv Lk m p = Some (default (Flist i) (last l1)) ∧
  ∃ m', VMEM_DELETE Lk p m = Some m' ∧ links_only Lk m m' ∧ reps m' tbl sf A K (<[i := l1 ++ l2]> F) H SF.
Proof.
  intros R Hi. pose proof R as [R1 R2 R3 R4 R5 R6 R7 R8 R9 R10 R11 R12 R13 R14].
  destruct (fchain_split 0 F i _ Hi) as (c1 & c2 & E & E'). cbn [Nat.add] in E, E'.
  assert (∃ x1, Flist i :: l1 = x1 ++ [default (Flist i) (last l1)]) as [x1 Ex1].
  { destruct l1 as [|y l1 _] using rev_ind; [by exists []|]. rewrite last_snoc. by exists (Flist i :: l1). }
  assert (∃ x2, l2 ++ Flist (S i) :: c2 = default (Flist (S i)) (head l2) :: x2) as [x2 Ex2] by (destruct l2; cbn; eauto).
  set (pp := default (Flist i) (last l1)) in *. set (nn := default (Flist (S i)) (head l2)) in *.
  assert (fchain 0 F = (c1 ++ x1) ++ pp :: p :: nn :: x2) as E2.
  { rewrite E, <- !app_assoc, <- app_comm_cons, Ex2. change (Flist i :: l1 ++ ?x) with ((Flist i :: l1) ++ x).
    by rewrite Ex1, <- !app_assoc. }
  pose proof (reps_ring_f lp64 R) as Hring. pose proof R10 as R10'. rewrite E2 in R10', Hring.
  destruct (dll_neighbours _ _ _ _ _ _ _ R10') as [Hn0 Hp0]. split_and!; [done|done|].
  assert (pp ∈ fchain 0 F ∧ nn ∈ fchain 0 F) as [Hin1 Hin2] by (rewrite E2; set_solver).
  destruct (vmem_delete_obs Lk m pp p nn Hn0 Hp0) as (m' & Hi' & Hlo & Hn & Hp);
    [by apply (reps_chain_Some _ _ _ _ _ _ _ _ _ R)..|].
  assert (∀ q, q = Seg0 ∨ q ∈ K ∨ q ∈ concat H ∨ q ∈ SF → nxt Lk m' q = nxt Lk m q ∧ prv Lk m' q = prv Lk m q) as Hfr.
  { intros q Hq. rewrite Hn, Hp. rewrite !decide_False; [done|apply (reps_chain_disj lp64 R); done..]. }
  destruct (concat_insert F i _ (l1 ++ l2) Hi) as (k1 & k2 & Ek & Ek').
  exists m'. split; [done|]. split; [done|]. eapply (reps_rekin m); try done.
  - rewrite Ek'. rewrite Ek in R6. rewrite <- !app_assoc in *. cbn in R6.
    rewrite <- !Permutation_middle in R6. by apply NoDup_cons in R6 as [_ R6].
  - intros q. rewrite Ek'. intros Hq. apply R7. rewrite Ek. set_solver.
  - apply (reps_ring_k_ext m _ _ _ _ _ _ _ _ R). intros q [?|?]; apply Hfr; eauto.
  - rewrite E', <- app_assoc, Ex2. change (Flist i :: l1 ++ ?x) with ((Flist i :: l1) ++ x).
    rewrite Ex1, <- !app_assoc, app_assoc. change ([?x] ++ ?y) with (x :: y). by apply (dll_delete Lk m _ _ _ p).
  - by rewrite length_insert.
  - rewrite Hn, decide_False; [done|]. intros Epp. apply lookup_lt_Some in Hi.
    unfold pp in Epp. destruct (last l1) as [y|] eqn:El; cbn in Epp; [|injection Epp as Ei; lia].
    apply last_Some_elem_of in El. subst y. apply (not_flist W). apply (reps_kseg lp64 R).
    rewrite Ek. set_solver.
  - apply (reps_h_ext lp64 R); [|intros; apply Hfr; eauto]. intros q. apply (proj2 (links_only_is_Some Lk m m' q Hlo)).
  - apply (reps_s_ext lp64 R); [|intros; apply Hfr; eauto]. intros q. apply (proj2 (links_only_is_Some Lk m m' q Hlo)).
Qed.
End ops.

(** ** The operations on an arena *)

Section arena.
Context (lp64 : bool) (top : Z).

Abbreviation W := (Z.to_nat (VMEM_FREELISTS lp64)).
Abbreviation cell_of := (cell_of lp64).

(** The bitmap of the free lists that are not empty. *)
Definition freemap_ok (fm : Z) (F : list (list sptr)) : Prop :=
  0 <= fm ∧ (∀ i, Z.testbit fm (Z.of_nat i) = match F !! i with Some (_ :: _) => true | _ => false end).

(** [r] segments of the spare list are reserved. *)
Record rep (r : Z) (v : vmem) (A : list gseg) (K : list sptr) (F H : list (list sptr)) (SF : list sptr) : Prop := {
  rp_mem : reps lp64 top (vm_mem v) (vm_hash_table v) (vm_segfree v) A K F H SF;
  rp_nseg : vm_nsegfree v = Z.of_nat (length SF) - r;
  rp_map : freemap_ok (vm_freemap v) F
}.

(** What the operations on segments leave alone. *)
Definition conf (v : vmem) :=
  (vm_qshift v, vm_quantum v, vm_qcache_max v, vm_source_alloc v, vm_source_free v, vm_source_quantum v,
   (vm_hash_is0 v, vm_hash_mask v, vm_hash_shift v)).

Definition frame (v v' : vmem) : Prop := conf v' = conf v ∧ vm_kstat v' = vm_kstat v.

Lemma frame_trans v1 v2 v3 : frame v1 v2 → frame v2 v3 → frame v1 v3.
Proof. intros [H1 H2] [H3 H4]. split; congruence. Qed.

Lemma conf_hash v v' a : conf v' = conf v → VMEM_HASH lp64 v' a = VMEM_HASH lp64 v a.
Proof. unfold conf. intros [= ]. unfold VMEM_HASH. congruence. Qed.

Lemma conf_quantum v v' : conf v' = conf v → vm_quantum v' = vm_quantum v.
Proof. unfold conf. intros [= ]. done. Qed.

(** A store to the data of a segment. *)
Lemma rep_upd r v A1 g g' A2 K F H SF f :
  rep r v (A1 ++ g :: A2) K F H SF → g_ptr g' = g_ptr g →
  (∀ c w, vnext w (f c) = vnext w c ∧ vprev w (f c) = vprev w c) →
  (∀ c, seg_dat c = cell_of g → seg_dat (f c) = cell_of g') →
  ∃ m', upd (g_ptr g) f (vm_mem v) = Some m' ∧ rep r (with_mem v m') (A1 ++ g' :: A2) K F H SF.
Proof.
  intros [R Rn Rm] Hg Hl Hd. assert (g ∈ A1 ++ g :: A2) as Hin by set_solver.
  destruct (dat_Some _ _ _ (r_dat _ _ _ _ _ _ _ _ _ _ R g Hin)) as (c & Hc & Ec).
  rewrite (seg_upd_eq _ _ _ _ Hc). eexists. split; [done|]. constructor; cbn; [|done|done].
  apply (reps_set lp64 top (vm_mem v) _ _ _ A1 g); [done|done| |].
  - intros q. rewrite dat_insert. destruct (decide _) as [->|]; [by rewrite (Hd c Ec)|done].
  - intros w q. rewrite nxt_insert, prv_insert. destruct (decide _) as [->|]; [|done].
    rewrite (nxt_at _ _ _ _ Hc), (prv_at _ _ _ _ Hc). apply Hl.
Qed.

Lemma rep_cell r v A K F H SF g :
  rep r v A K F H SF → g ∈ A → ∃ c, vm_mem v !! g_ptr g = Some c ∧ seg_dat c = cell_of g.
Proof. intros [R _ _] Hg. apply (dat_Some _ _ _ (r_dat _ _ _ _ _ _ _ _ _ _ R g Hg)). Qed.

(** The spare segments. *)
Lemma vmem_getseg_ok r v A K F H p SF :
  rep r v A K F H (p :: SF) →
  ∃ v', vmem_getseg v = Some (v', p) ∧ rep r v' A K F H SF ∧ frame v v' ∧ vm_mem v' = vm_mem v ∧
    is_seg p ∧ (p ∉ ptrs A) ∧ (p ∉ SF) ∧ is_Some (vm_mem v !! p).
Proof.
  intros [R Rn Rm]. pose proof (r_s _ _ _ _ _ _ _ _ _ _ R) as (Hsf & [c Hc] & Hs).
  unfold vmem_getseg. rewrite Hsf, Hc. eexists. split; [done|].
  assert ((p ∉ ptrs A) ∧ (p ∉ SF)) as [H1 H2].
  { pose proof (r_own _ _ _ _ _ _ _ _ _ _ R) as Ho. apply NoDup_app in Ho as (_ & Ho & Ho').
    apply NoDup_cons in Ho' as [Ho' _]. set_solver. }
  split_and!; try done; [|apply (reps_seg lp64 R); right; by left].
  constructor; [|cbn; rewrite Rn; cbn [length]; lia|done].
  destruct R as [R1 R2 R3 R4 R5 R6 R7 R8 R9 R10 R11 R12 R13 R14]. constructor; try done; cbn.
  - rewrite <- Permutation_middle in R4. by apply NoDup_cons in R4 as [_ R4].
  - rewrite Forall_app, Forall_cons in R5. rewrite Forall_app. tauto.
  - rewrite <- !Permutation_middle in R6. by apply NoDup_cons in R6 as [_ R6].
  - by rewrite (nxt_at _ _ _ _ Hc) in Hs.
Qed.

Lemma vmem_putseg_ok r v A K F H SF p :
  rep r v A K F H SF → is_seg p → p ∉ ptrs A → p ∉ SF → is_Some (vm_mem v !! p) →
  ∃ v', vmem_putseg v p = Some v' ∧ rep r v' A K F H (p :: SF) ∧ frame v v'.
Proof.
  intros [R Rn Rm] Hs HA HS [c Hc]. unfold vmem_putseg. rewrite (seg_upd_eq _ _ _ _ Hc).
  eexists. split; [done|]. split; [|done]. constructor; [|cbn; rewrite Rn; cbn [length]; lia|done]. cbn.
  set (m' := <[p := _]> (vm_mem v)).
  assert (reps lp64 top m' (vm_hash_table v) (vm_segfree v) A K F H SF) as R'.
  { apply (reps_unowned lp64 top (vm_mem v) _ _ _ _ _ _ _ _ p); try done. intros q Hq. unfold m'. by rewrite lookup_insert_ne. }
  destruct R' as [R1 R2 R3 R4 R5 R6 R7 R8 R9 R10 R11 R12 R13 R14]. constructor; try done.
  - rewrite <- Permutation_middle. apply NoDup_cons. split; [set_solver|done].
  - rewrite Forall_app in *. rewrite Forall_cons. tauto.
  - rewrite <- !Permutation_middle. apply NoDup_cons. split; [|done]. intros Hp. apply HA, R7. set_solver.
  - cbn. split_and!; [done|unfold m'; rewrite lookup_insert_eq; eauto|].
    unfold m' at 2. rewrite nxt_insert, decide_True by done. done.
Qed.

(** [vmem_seg_create] puts a spare segment after the given one. *)
Lemma vmem_seg_create_ok r v A1 A2 K F H p SF start end_ hi ty :
  rep r v (A1 ++ A2) K F H (p :: SF) → end_ = uw lp64 hi →
  ∃ v', vmem_seg_create v (lastp (ptrs A1)) start end_ ty = Some (v', p) ∧
    rep r v' (A1 ++ GSeg p start hi ty 0 :: A2) K F H SF ∧ frame v v' ∧
    is_seg p ∧ (p ∉ ptrs (A1 ++ A2)) ∧ (p ∉ SF).
Proof.
  intros R ->. destruct (vmem_getseg_ok _ _ _ _ _ _ _ _ R) as (v1 & Hg & R' & Hf & Hm & Hs & HA & HS & [c Hc]).
  unfold vmem_seg_create. rewrite Hg. rewrite <- Hm in Hc. rewrite (seg_upd_eq _ _ _ _ Hc).
  set (f := set_import 0 _). set (m1 := <[p := f]> (vm_mem v1)). destruct R' as [R1 Rn Rm].
  set (g := GSeg p start hi ty 0).
  destruct (reps_a_insert lp64 top m1 (vm_hash_table v1) (vm_segfree v1) A1 g A2 K F H SF) as (m2 & Hi & _ & R2); try done.
  - apply (reps_unowned lp64 top (vm_mem v1) _ _ _ _ _ _ _ _ p); try done. intros q Hq. unfold m1. by rewrite lookup_insert_ne.
  - unfold m1. by rewrite dat_insert, decide_True.
  - cbn [g_ptr g] in Hi. rewrite Hi. eexists. split; [done|]. split; [|done]. constructor; [exact R2|done|done].
Qed.

(** [vmem_seg_destroy] *)
Lemma vmem_seg_destroy_ok r v A1 g A2 K F H SF :
  rep r v (A1 ++ g :: A2) K F H SF → g_ptr g ∉ K ++ concat F ++ concat H →
  ∃ v', vmem_seg_destroy v (g_ptr g) = Some v' ∧ rep r v' (A1 ++ A2) K F H (g_ptr g :: SF) ∧ frame v v'.
Proof.
  intros R Hk. pose proof R as [Rm Rn Rf]. unfold vmem_seg_destroy.
  destruct (reps_a_delete lp64 top _ _ _ _ _ _ _ _ _ _ Rm Hk) as (m' & -> & Hlo & R').
  pose proof (r_own _ _ _ _ _ _ _ _ _ _ Rm) as Ho. pose proof (reps_seg lp64 Rm (g_ptr g)) as Hs.
  rewrite ptrs_app, ptrs_cons in *.
  destruct (vmem_putseg_ok r (with_mem v m') (A1 ++ A2) K F H SF (g_ptr g)) as (v' & Hp & Rv & Hf); [by constructor|..].
  - apply Hs. left. set_solver.
  - rewrite ptrs_app. rewrite <- app_assoc, <- app_comm_cons, <- Permutation_middle in Ho. apply NoDup_cons in Ho as [Ho _]. set_solver.
  - rewrite <- app_assoc, <- app_comm_cons, <- Permutation_middle in Ho. apply NoDup_cons in Ho as [Ho _]. set_solver.
  - cbn. apply (proj2 (links_only_is_Some _ _ _ _ Hlo)). apply (reps_is_Some lp64 Rm). rewrite ptrs_app, ptrs_cons. set_solver.
  - eauto.
Qed.

(** *** Words *)

Lemma uw_range x : 0 <= uw lp64 x < 2 ^ VMEM_FREELISTS lp64.
Proof. unfold uw, VMEM_FREELISTS. apply wrapu_range. destruct lp64; done. Qed.

Lemma uw_id x : 0 <= x < 2 ^ VMEM_FREELISTS lp64 → uw lp64 x = x.
Proof. apply wrapu_id. Qed.

Lemma uw_sub_l x y : uw lp64 (uw lp64 x - y) = uw lp64 (x - y).
Proof. unfold uw, wrapu. by rewrite Zminus_mod_idemp_l. Qed.

Lemma uw_sub_r x y : uw lp64 (x - uw lp64 y) = uw lp64 (x - y).
Proof. unfold uw, wrapu. by rewrite Zminus_mod_idemp_r. Qed.

Lemma uw_add_l x y : uw lp64 (uw lp64 x + y) = uw lp64 (x + y).
Proof. unfold uw, wrapu. by rewrite Zplus_mod_idemp_l. Qed.

Lemma uw_add_r x y : uw lp64 (x + uw lp64 y) = uw lp64 (x + y).
Proof. unfold uw, wrapu. by rewrite Zplus_mod_idemp_r. Qed.

Lemma uw_opp x : uw lp64 (- uw lp64 x) = uw lp64 (- x).
Proof. rewrite <- !(Z.sub_0_l). apply uw_sub_r. Qed.

Lemma uw_uw x : uw lp64 (uw lp64 x) = uw lp64 x.
Proof. apply uw_id, uw_range. Qed.

Lemma VMEM_FREELISTS_cases : VMEM_FREELISTS lp64 = 32 ∨ VMEM_FREELISTS lp64 = 64.
Proof. destruct lp64; [by right|by left]. Qed.

(** The size of a segment. *)
Definition g_size (g : gseg) : Z := g_hi g - g_lo g.

Lemma vs_size_cell c g :
  seg_dat c = cell_of g → 0 <= g_size g < 2 ^ VMEM_FREELISTS lp64 → VS_SIZE lp64 c = g_size g.
Proof.
  unfold seg_dat, cell_of, g_size. intros [= H1 H2 _ _] Hs. unfold VS_SIZE. rewrite H1, H2, uw_sub_l. by apply uw_id.
Qed.

(** The free list a segment of some size is on. *)
Definition flist_of (sz : Z) : nat := Z.to_nat (Z.log2 sz).

Lemma flist_of_highbit sz : 0 < sz < 2 ^ VMEM_FREELISTS lp64 → highbit lp64 sz - 1 = Z.of_nat (flist_of sz).
Proof.
  intros Hs. rewrite highbit_log2; [|destruct lp64; exact Hs]. unfold flist_of. pose proof (Z.log2_nonneg sz). lia.
Qed.

Lemma flist_of_lt sz : 0 < sz < 2 ^ VMEM_FREELISTS lp64 → (flist_of sz < W)%nat.
Proof.
  intros Hs. unfold flist_of. assert (Z.log2 sz < VMEM_FREELISTS lp64) by (apply Z.log2_lt_pow2; lia).
  pose proof (Z.log2_nonneg sz). lia.
Qed.

(** *** Free lists *)

Lemma freemap_set fm F i p l :
  freemap_ok fm F → F !! i = Some l → freemap_ok (Z.lor fm (2 ^ Z.of_nat i)) (<[i := p :: l]> F).
Proof.
  intros [H0 Hb] Hi. split; [apply Z.lor_nonneg; lia|]. intros j. rewrite Z.lor_spec, Z.pow2_bits_eqb, Hb by lia.
  destruct (Z.eqb_spec (Z.of_nat i) (Z.of_nat j)) as [E|E].
  - assert (j = i) as -> by lia. rewrite list_lookup_insert_eq by (by eapply lookup_lt_Some). by rewrite orb_true_r.
  - rewrite list_lookup_insert_ne by lia. by rewrite orb_false_r.
Qed.

Lemma freemap_same fm F i l l' :
  freemap_ok fm F → F !! i = Some l → (l = [] ↔ l' = []) → freemap_ok fm (<[i := l']> F).
Proof.
  intros [H0 Hb] Hi Hl. split; [done|]. intros j. rewrite Hb. destruct (decide (j = i)) as [->|].
  - rewrite list_lookup_insert_eq, Hi by (by eapply lookup_lt_Some). destruct l, l'; naive_solver.
  - by rewrite list_lookup_insert_ne.
Qed.

Lemma freemap_clear fm F i p :
  freemap_ok fm F → F !! i = Some [p] → freemap_ok (Z.lxor fm (2 ^ Z.of_nat i)) (<[i := []]> F).
Proof.
  intros [H0 Hb] Hi. split; [apply Z.lxor_nonneg; lia|]. intros j. rewrite Z.lxor_spec, Z.pow2_bits_eqb, Hb by lia.
  destruct (Z.eqb_spec (Z.of_nat i) (Z.of_nat j)) as [E|E].
  - assert (j = i) as -> by lia. by rewrite list_lookup_insert_eq, Hi by (by eapply lookup_lt_Some).
  - rewrite list_lookup_insert_ne by lia. by rewrite xorb_false_r.
Qed.

Lemma rep_flist_size r v A K F H SF i :
  rep r v A K F H SF → (i < W)%nat → ∃ c, vm_mem v !! Flist i = Some c ∧ vs_start c = 0 ∧ VS_SIZE lp64 c = 2 ^ Z.of_nat i.
Proof.
  intros [R _ _] Hi. destruct (dat_Some _ _ _ (r_flist _ _ _ _ _ _ _ _ _ _ R i ltac:(lia))) as (c & Hc & Ec).
  injection Ec as E1 E2 _ _. exists c. split; [done|]. split; [done|]. unfold VS_SIZE. rewrite E1, E2. unfold flist_end.
  destruct (Nat.eqb_spec i W); [lia|]. rewrite Z.sub_0_r. apply uw_id. split; [lia|]. apply Z.pow_lt_mono_r; lia.
Qed.

Definition with_type (g : gseg) (ty : Z) : gseg := GSeg (g_ptr g) (g_lo g) (g_hi g) ty (g_import g).

Lemma vmem_freelist_insert_ok r v A1 g A2 K F H SF l :
  rep r v (A1 ++ g :: A2) K F H SF → g_ptr g ∉ K ++ concat F ++ concat H →
  0 < g_size g < 2 ^ VMEM_FREELISTS lp64 → F !! flist_of (g_size g) = Some l →
  ∃ v', vmem_freelist_insert lp64 v (g_ptr g) = Some v' ∧ frame v v' ∧
    rep r v' (A1 ++ with_type g VMEM_FREE :: A2) K (<[flist_of (g_size g) := g_ptr g :: l]> F) H SF.
Proof.
  intros R Hk Hs Hl. destruct (rep_cell _ _ _ _ _ _ _ g R) as (c & Hc & Ec); [set_solver|].
  unfold vmem_freelist_insert. rewrite Hc, (vs_size_cell c g Ec), flist_of_highbit by lia.
  destruct (Z.ltb_spec (Z.of_nat (flist_of (g_size g))) 0); [lia|]. rewrite Nat2Z.id.
  destruct (rep_upd r v A1 g (with_type g VMEM_FREE) A2 K F H SF (set_type VMEM_FREE) R) as (m1 & -> & R1); [done|by intros ? []|..].
  { intros c' [= E1 E2 E3 E4]. unfold seg_dat, cell_of. cbn. by rewrite E1, E2, E4. }
  pose proof (flist_of_lt _ Hs) as Hi.
  destruct (rep_flist_size _ _ _ _ _ _ _ _ R1 Hi) as (ch & Hch & _ & Hsz). cbn in Hch. rewrite Hch, Hsz.
  pose proof R1 as [Rm Rn Rf].
  destruct (reps_free_insert lp64 top m1 (vm_hash_table v) (vm_segfree v) _ K F H SF (flist_of (g_size g)) l (g_ptr g) Rm) as (m2 & -> & _ & R2); [|done|done|].
  { change (g_ptr g) with (g_ptr (with_type g VMEM_FREE)). apply elem_ptrs. set_solver. }
  eexists. split; [done|]. split; [done|]. constructor; [exact R2|exact Rn|]. by apply freemap_set.
Qed.

(** The data of the cells on free lists. *)
Definition starts_ok (A : list gseg) : Prop := ∀ g, g ∈ A → g_lo g ≠ 0.

Lemma rep_start r v A K F H SF p :
  rep r v A K F H SF → starts_ok A → p ∈ ptrs A → ∃ c, vm_mem v !! p = Some c ∧ vs_start c ≠ 0.
Proof.
  intros R Hst (g & Hg & <-)%ptrs_elem. destruct (rep_cell _ _ _ _ _ _ _ g R Hg) as (c & Hc & Ec).
  exists c. split; [done|]. injection Ec as -> _ _ _. by apply Hst.
Qed.

Lemma vmem_freelist_delete_ok r v A K F H SF i l1 p l2 :
  rep r v A K F H SF → starts_ok A → F !! i = Some (l1 ++ p :: l2) →
  ∃ v', vmem_freelist_delete lp64 v p = Some v' ∧ frame v v' ∧ rep r v' A K (<[i := l1 ++ l2]> F) H SF.
Proof.
  intros R Hst Hi. pose proof R as [Rm Rn Rf].
  assert (i < W)%nat as Hiw by (rewrite <- (r_flen _ _ _ _ _ _ _ _ _ _ Rm); by eapply lookup_lt_Some).
  destruct (reps_free_delete lp64 top _ _ _ _ _ _ _ _ _ _ _ _ Rm Hi) as (Hn & Hp & m' & Hdel & _ & R').
  assert (∀ q, q ∈ l1 ++ p :: l2 → q ∈ ptrs A) as HqA.
  { intros q Hq. apply (r_sub _ _ _ _ _ _ _ _ _ _ Rm). rewrite !elem_of_app, !elem_concat. eauto 10. }
  destruct (nxt_Some _ _ _ _ Hn) as (c & Hc & Hcn). rewrite (prv_at _ _ _ _ Hc) in Hp.
  unfold vmem_freelist_delete. rewrite Hc. cbn [vnext] in Hcn. cbn [vprev] in Hp. rewrite Hcn.
  destruct l2 as [|n l2]; cbn [head from_option id] in *.
  - destruct (dat_Some _ _ _ (r_flist _ _ _ _ _ _ _ _ _ _ Rm (S i) ltac:(lia))) as (cn & Hcn' & En). rewrite Hcn'.
    injection En as -> _ _ _. cbn [Z.eqb]. rewrite Hp. destruct l1 as [|x l1 _] using rev_ind.
    + cbn [last from_option]. destruct (rep_flist_size _ _ _ _ _ _ _ _ R Hiw) as (ch & -> & -> & ->). cbn [Z.eqb].
      cbn [vm_mem with_freemap]. rewrite Hdel. eexists. split; [done|]. split; [done|].
      constructor; [exact R'|done|]. by eapply freemap_clear.
    + rewrite last_snoc in *. cbn [from_option id] in *. destruct (rep_start _ _ _ _ _ _ _ x R Hst) as (cx & -> & Hcx); [apply HqA; set_solver|].
      destruct (Z.eqb_spec (vs_start cx) 0); [done|]. rewrite Hdel. eexists. split; [done|]. split; [done|].
      constructor; [exact R'|done|]. apply (freemap_same _ _ _ _ _ Rf Hi). split; intros Ee; [by destruct l1|]. by destruct l1.
  - destruct (rep_start _ _ _ _ _ _ _ n R Hst) as (cn & -> & Hcn'); [apply HqA; set_solver|].
    destruct (Z.eqb_spec (vs_start cn) 0); [done|]. rewrite Hdel. eexists. split; [done|]. split; [done|].
    constructor; [exact R'|done|]. apply (freemap_same _ _ _ _ _ Rf Hi). split; intros Ee; by destruct l1.
Qed.

(** *** The hash table *)

Definition with_kstat (v : vmem) (ks : vk → Z) : vmem :=
  Vmem (vm_mem v) (vm_qshift v) (vm_quantum v) (vm_qcache_max v) (vm_source_alloc v) (vm_source_free v) (vm_source_quantum v)
    (vm_nsegfree v) (vm_segfree v) (vm_hash_table v) (vm_hash_is0 v) (vm_hash_mask v) (vm_hash_shift v) (vm_freemap v) ks.

Lemma rep_kstat r v ks A K F H SF : rep r v A K F H SF → rep r (with_kstat v ks) A K F H SF.
Proof. intros [R1 R2 R3]. by constructor. Qed.

Lemma rep_kadd r v k n A K F H SF : rep r v A K F H SF → rep r (kadd k n v) A K F H SF.
Proof. intros [R1 R2 R3]. by constructor. Qed.

(** A store to the kin link of a segment that is on no list of kin. *)
Lemma reps_set_knext m tbl sf A K F H SF p c q tbl' H' :
  reps lp64 top m tbl sf A K F H SF → m !! p = Some c → p ∈ ptrs A → p ∉ K → p ∉ concat F →
  NoDup (K ++ concat F ++ concat H' ++ SF) → (∀ x, x ∈ concat H' → x ∈ ptrs A) →
  Forall2 (sll (<[p := set_vnext Lk q c]> m)) tbl' H' →
  reps lp64 top (<[p := set_vnext Lk q c]> m) tbl' sf A K F H' SF.
Proof.
  intros R Hc HA HpK HpF Hnd Hsub Hh. pose proof R as [R1 R2 R3 R4 R5 R6 R7 R8 R9 R10 R11 R12 R13 R14].
  assert (p ∉ SF) as HpS by (apply NoDup_app in R4 as (_ & R4 & _); by apply R4).
  assert (is_seg p) as Hs by (by apply (reps_seg lp64 R); left).
  set (m' := <[p := _]> m).
  assert (∀ x, x ≠ p → nxt Lk m' x = nxt Lk m x ∧ prv Lk m' x = prv Lk m x) as Hfr.
  { intros x Hx. unfold m'. by rewrite nxt_insert, prv_insert, !decide_False. }
  assert (links_only Lk m m') as Hlo.
  { intros x. unfold m'. rewrite dat_insert, nxt_insert, prv_insert. destruct (decide _) as [->|]; [|done].
    by rewrite (dat_at _ _ _ Hc), (nxt_at _ _ _ _ Hc), (prv_at _ _ _ _ Hc). }
  assert (∀ x, (∃ i, x = Flist i) ∨ x ∈ concat F → nxt Lk m' x = nxt Lk m x ∧ prv Lk m' x = prv Lk m x) as HfrF.
  { intros x Hx. apply Hfr. intros ->. destruct Hx as [[i ->]|?]; [by apply not_flist in Hs|done]. }
  eapply (reps_rekin lp64 top m); try done.
  - intros x Hx. apply elem_of_app in Hx as [Hx|[Hx|Hx]%elem_of_app]; [apply R7; set_solver..|by apply Hsub].
  - apply (reps_ring_k_ext lp64 top m _ _ _ _ _ _ _ _ R). intros x Hx. apply Hfr. intros ->. destruct Hx as [->|?]; [by apply not_seg0 in Hs|done].
  - by apply (reps_chain_ext lp64 top m _ _ _ _ _ _ _ _ R).
  - by apply (reps_chain_ext lp64 top m _ _ _ _ _ _ _ _ R).
  - apply (reps_s_ext lp64 R); [intros x; apply (proj2 (links_only_is_Some Lk m m' x Hlo))|].
    intros x Hx. apply Hfr. by intros ->.
Qed.

Lemma vmem_hash_insert_ok r v A1 g A2 K F H SF l :
  rep r v (A1 ++ g :: A2) K F H SF → g_ptr g ∉ K ++ concat F ++ concat H →
  0 <= g_size g < 2 ^ VMEM_FREELISTS lp64 → H !! VMEM_HASH lp64 v (g_lo g) = Some l →
  ∃ v', vmem_hash_insert lp64 v (g_ptr g) = Some v' ∧ conf v' = conf v ∧
    vm_kstat v' = vm_kstat (kadd vk_mem_inuse (g_size g) (kadd vk_alloc 1 v)) ∧
    rep r v' (A1 ++ with_type g VMEM_ALLOC :: A2) K F (<[VMEM_HASH lp64 v (g_lo g) := g_ptr g :: l]> H) SF.
Proof.
  intros R Hk Hs Hl. unfold vmem_hash_insert. set (g1 := with_type g VMEM_ALLOC).
  destruct (rep_upd r v A1 g g1 A2 K F H SF (set_type VMEM_ALLOC) R) as (m1 & -> & R1); [done|by intros ? []|..].
  { intros c' [= E1 E2 E3 E4]. unfold seg_dat, cell_of. cbn. by rewrite E1, E2, E4. }
  destruct (rep_cell _ _ _ _ _ _ _ g1 R1) as (c & Hc & Ec); [set_solver|]. cbn in Hc. rewrite Hc.
  assert (vs_start c = g_lo g) as -> by (by injection Ec). rewrite (vs_size_cell c g1 Ec) by done.
  set (b := VMEM_HASH lp64 v (g_lo g)) in *. pose proof R1 as [Rm Rn Rf]. cbn in Rm.
  pose proof (r_h _ _ _ _ _ _ _ _ _ _ Rm) as Hh. pose proof (Forall2_length _ _ _ Hh) as Hlen.
  destruct (Forall2_lookup_r _ _ _ _ _ Hh Hl) as (o & Ho & Hsll). rewrite Ho, (seg_upd_eq _ _ _ _ Hc).
  rewrite wr_lt by (by eapply lookup_lt_Some). eexists. split; [done|]. split; [done|]. split; [done|].
  constructor; [|done|done]. cbn. change (g_ptr g) with (g_ptr g1).
  assert (g_ptr g1 ∈ ptrs (A1 ++ g1 :: A2)) as HA by (apply elem_ptrs; set_solver).
  destruct (concat_insert H b l (g_ptr g1 :: l) Hl) as (k1 & k2 & Ek & Ek').
  pose proof (r_kin _ _ _ _ _ _ _ _ _ _ Rm) as R6. pose proof (r_sub _ _ _ _ _ _ _ _ _ _ Rm) as R7.
  pose proof (r_own _ _ _ _ _ _ _ _ _ _ Rm) as R4. change (g_ptr g) with (g_ptr g1) in Hk.
  assert (g_ptr g1 ∉ SF) as HpS by (apply NoDup_app in R4 as (_ & R4 & _); by apply R4).
  apply (reps_set_knext m1 _ _ _ _ _ _ _ _ _ _ _ _ Rm Hc HA); [set_solver|set_solver|..].
  - rewrite Ek'. rewrite Ek in R6, Hk. rewrite <- !app_assoc in *. cbn. rewrite <- !Permutation_middle. apply NoDup_cons. split; [set_solver|done].
  - intros x Hx. destruct (decide (x = g_ptr g1)) as [->|]; [done|]. apply R7. rewrite Ek. rewrite Ek' in Hx. set_solver.
  - assert (∀ x, x ∈ concat H → x ≠ g_ptr g1) as Hne by (intros x Hx ->; set_solver).
    match goal with |- Forall2 (sll ?m) _ _ => set (m2 := m) end. apply Forall2_insert.
    + apply (reps_h_ext lp64 Rm).
      * intros x [cx Hx]. unfold m2. destruct (decide (x = g_ptr g1)) as [->|]; [rewrite lookup_insert_eq; eauto|rewrite lookup_insert_ne by done; eauto].
      * intros x Hx. unfold m2. by rewrite nxt_insert, decide_False by (by apply Hne).
    + cbn [sll]. unfold m2 at 1. rewrite lookup_insert_eq. split; [done|]. split; [eauto|].
      unfold m2 at 2. rewrite nxt_insert, decide_True by done. cbn [vnext set_vnext vs_knext].
      apply (sll_ext m1); [|done]. intros x Hx. assert (x ∈ concat H) as HxH by (apply elem_concat; eauto).
      assert (x ≠ g_ptr g) as Hxg by (by apply Hne).
      unfold m2. rewrite nxt_insert, lookup_insert_ne, decide_False by done. split; [|done]. apply (reps_is_Some lp64 Rm), R7. set_solver.
Qed.

Definition seg_start (m : mem) (p : sptr) : option Z := vs_start <$> m !! p.

(** The search through a hash chain. *)
Lemma hash_delete_run addr l : ∀ v pl o fuel,
  (length l < fuel)%nat → load_place v pl = Some o → sll (vm_mem v) o l →
  ∃ ks, (∀ k, k ≠ vk_lookup → ks k = vm_kstat v k) ∧
  (((∀ q, q ∈ l → seg_start (vm_mem v) q ≠ Some addr) ∧
    run (hash_delete_step addr) fuel (v, pl) = Some (with_kstat v ks, None)) ∨
   ∃ l1 p l2, l = l1 ++ p :: l2 ∧ (∀ q, q ∈ l1 → seg_start (vm_mem v) q ≠ Some addr) ∧ seg_start (vm_mem v) p = Some addr ∧
     run (hash_delete_step addr) fuel (v, pl) =
       (let! v' := store_place (with_kstat v ks) (match last l1 with None => pl | Some q => Link q end) (nxt Lk (vm_mem v) p) in
        Some (v', Some p))).
Proof.
  induction l as [|p l IH]; intros v pl o fuel Hf Ho Hs; (destruct fuel as [|fuel]; [cbn in Hf; lia|]).
  - cbn in Hs. subst o. exists (vm_kstat v). split; [done|]. left. split; [by intros q ?%elem_of_nil|].
    cbn [run]. unfold hash_delete_step. rewrite Ho. by destruct v.
  - destruct Hs as (-> & [c Hc] & Hs). cbn [run].
    assert (hash_delete_step addr (v, pl) = if vs_start c =? addr then
        (let! v := store_place v pl (vs_knext c) in Some (Return (v, Some p))) else Some (Next (kadd vk_lookup 1 v, Link p))) as ->
      by (unfold hash_delete_step; by rewrite Ho, Hc).
    destruct (Z.eqb_spec (vs_start c) addr) as [E|E].
    + exists (vm_kstat v). split; [done|]. right. exists [], p, l. split; [done|]. split; [by intros q ?%elem_of_nil|].
      split; [unfold seg_start; rewrite Hc; cbn; by rewrite E|]. cbn [last]. rewrite (nxt_at _ _ _ _ Hc). cbn [vnext].
      replace (with_kstat v (vm_kstat v)) with v by (by destruct v).
      destruct (store_place v pl (vs_knext c)); done.
    + destruct (IH (kadd vk_lookup 1 v) (Link p) (vs_knext c) fuel) as (ks & Hks & H1).
      { cbn in Hf. lia. }
      { cbn. by rewrite Hc. }
      { by rewrite (nxt_at _ _ _ _ Hc) in Hs. }
      exists ks. split; [intros k Hk; rewrite Hks by done; cbn; by rewrite decide_False|].
      change (with_kstat (kadd vk_lookup 1 v) ks) with (with_kstat v ks) in H1.
      change (vm_mem (kadd vk_lookup 1 v)) with (vm_mem v) in H1.
      assert (seg_start (vm_mem v) p ≠ Some addr) as Hp by (unfold seg_start; rewrite Hc; cbn; congruence).
      destruct H1 as [[H1 H2]|(l1 & p' & l2 & -> & H1 & H2 & H3)].
      * left. split; [|exact H2]. intros q [->|Hq]%elem_of_cons; [done|by apply H1].
      * right. exists (p :: l1), p', l2. split; [done|]. split; [intros q [->|Hq]%elem_of_cons; [done|by apply H1]|].
        split; [done|]. rewrite H3. destruct l1 as [|x l1]; [done|].
        change (last (p :: x :: l1)) with (last (x :: l1)). destruct (last (x :: l1)) eqn:El; [done|]. by apply last_None in El.
Qed.

Lemma sll_split m o l1 p l2 : sll m o (l1 ++ p :: l2) → sll m (nxt Lk m p) l2.
Proof. revert o. induction l1 as [|x l1 IH]; intros o; cbn; [by intros (_ & _ & ?)|]. intros (_ & _ & ?). by eapply IH. Qed.

(** A chain without one of its segments, after the store to the link before
    it. *)
Lemma sll_unlink m q c l1 p l2 o :
  sll m o (l1 ++ q :: p :: l2) → NoDup (l1 ++ q :: p :: l2) → m !! q = Some c →
  sll (<[q := set_vnext Lk (nxt Lk m p) c]> m) o (l1 ++ q :: l2).
Proof.
  set (m' := <[q := _]> m). intros Hs Hnd Hc.
  assert (∀ x, is_Some (m !! x) → is_Some (m' !! x)) as HS.
  { intros x Hx. unfold m'. destruct (decide (x = q)) as [->|]; [rewrite lookup_insert_eq; eauto|by rewrite lookup_insert_ne]. }
  revert o Hs. induction l1 as [|x l1 IH]; intros o; cbn [app sll].
  - intros (-> & Hq & _ & Hp & Hl). split; [done|]. split; [by apply HS|].
    unfold m' at 2. rewrite nxt_insert, decide_True by done. cbn [vnext set_vnext vs_knext].
    cbn in Hnd. apply NoDup_cons in Hnd as [Hnd _]. apply (sll_ext m); [|done]. intros x Hx.
    assert (x ≠ q) as Hxq by set_solver. unfold m'. rewrite nxt_insert, decide_False by done.
    split; [|done]. apply HS. clear -Hl Hx. revert Hl. generalize (nxt Lk m p). induction l2 as [|y l2 IH]; [by apply elem_of_nil in Hx|].
    intros o (_ & Hy & Hl). apply elem_of_cons in Hx as [->|Hx]; [done|by eapply IH].
  - intros (-> & Hx & Hl). cbn in Hnd. apply NoDup_cons in Hnd as [Hnd Hnd']. split; [done|]. split; [by apply HS|].
    assert (x ≠ q) as Hxq by set_solver. unfold m' at 2. rewrite nxt_insert, decide_False by done. by apply IH.
Qed.

(** The store that takes a segment out of its chain. *)
Lemma rep_unlink r v A K F H SF b l1 p l2 :
  rep r v A K F H SF → H !! b = Some (l1 ++ p :: l2) →
  ∃ v', store_place v (match last l1 with None => Bucket b | Some q => Link q end) (nxt Lk (vm_mem v) p) = Some v' ∧
    frame v v' ∧ rep r v' A K F (<[b := l1 ++ l2]> H) SF.
Proof.
  intros R Hb. pose proof R as [Rm Rn Rf]. pose proof (r_kin _ _ _ _ _ _ _ _ _ _ Rm) as R6. pose proof (r_sub _ _ _ _ _ _ _ _ _ _ Rm) as R7.
  assert (NoDup (concat H)) as HndH by (by apply NoDup_app_r, NoDup_app_r, NoDup_app_l in R6).
  pose proof (NoDup_concat_lookup _ _ _ HndH Hb) as Hnd.
  pose proof (r_h _ _ _ _ _ _ _ _ _ _ Rm) as Hh. destruct (Forall2_lookup_r _ _ _ _ _ Hh Hb) as (o & Ho & Hsll).
  destruct (concat_insert H b _ (l1 ++ l2) Hb) as (k1 & k2 & Ek & Ek').
  assert (NoDup (K ++ concat F ++ concat (<[b := l1 ++ l2]> H) ++ SF)) as Hnd'.
  { rewrite Ek'. rewrite Ek in R6. rewrite <- !app_assoc in *. cbn in R6. rewrite <- !Permutation_middle in R6. by apply NoDup_cons in R6 as [_ R6]. }
  assert (∀ x, x ∈ concat (<[b := l1 ++ l2]> H) → x ∈ concat H) as Hsub by (intros x; rewrite Ek, Ek'; set_solver).
  destruct l1 as [|q l1 _] using rev_ind; cbn [last app] in *.
  - cbn. rewrite wr_lt by (by eapply lookup_lt_Some). eexists. split; [done|]. split; [done|].
    constructor; [|done|done]. destruct Rm as [S1 S2 S3 S4 S5 S6 S7 S8 S9 S10 S11 S12 S13 S14]. constructor; try done; cbn.
    + intros x Hx. apply S7. set_solver.
    + apply Forall2_insert; [done|]. by destruct Hsll as (_ & _ & ?).
  - rewrite last_snoc. cbn. assert (q ∈ concat H) as HqH by (apply elem_concat; eexists _, _; split; [done|set_solver]).
    destruct (reps_is_Some lp64 Rm q) as [cq Hcq]; [apply R7; set_solver|]. rewrite (seg_upd_eq _ _ _ _ Hcq).
    eexists. split; [done|]. split; [done|]. constructor; [|done|done]. cbn.
    destruct (reps_kin_disj lp64 Rm) as (D1 & D2 & D3).
    apply (reps_set_knext (vm_mem v) (vm_hash_table v) _ _ _ _ H); try done;
      [apply R7; set_solver|by intros (_ & ? & _)%D1|by intros [? _]%D2|intros x Hx; apply R7; set_solver|].
    rewrite <- (list_insert_id (vm_hash_table v) b o Ho). apply Forall2_same_length_lookup. apply Forall2_same_length_lookup in Hh as [Hlen Hh].
    split; [by rewrite !length_insert|]. intros j oj lj. destruct (decide (j = b)) as [->|].
    + rewrite !list_lookup_insert_eq by (rewrite ?Hlen; by eapply lookup_lt_Some). intros [= <-] [= <-].
      rewrite <- !app_assoc in *. by apply sll_unlink.
    + rewrite !list_lookup_insert_ne by done. intros Hj1 Hj2. apply (sll_ext (vm_mem v)); [|by eapply Hh].
      intros x Hx. assert (x ≠ q) as Hxq.
      { intros ->. assert (j = b); [|done]. eapply (concat_disjoint H); [done..|set_solver]. }
      rewrite nxt_insert, decide_False, lookup_insert_ne by done. split; [|done].
      apply (reps_is_Some lp64 Rm), R7. rewrite !elem_of_app, !elem_concat. eauto 10.
Qed.

(** No chain is longer than the number of cells. *)
Lemma rep_chain_fuel r v A K F H SF l :
  rep r v A K F H SF → NoDup l → (∀ p, p ∈ l → is_Some (vm_mem v !! p)) → (length l < seg_fuel v)%nat.
Proof.
  intros R Hnd Hl. unfold seg_fuel. assert (length l <= size (vm_mem v))%nat; [|lia].
  rewrite <- size_dom, <- (size_list_to_set (C := gset sptr) _ Hnd). apply subseteq_size. intros x Hx%elem_of_list_to_set.
  by apply elem_of_dom, Hl.
Qed.

Lemma vmem_hash_delete_found r v A K F H SF addr l1 p l2 g :
  rep r v A K F H SF → H !! VMEM_HASH lp64 v addr = Some (l1 ++ p :: l2) →
  g ∈ A → g_ptr g = p → g_lo g = addr → 0 <= g_size g < 2 ^ VMEM_FREELISTS lp64 →
  (∀ q, q ∈ l1 → seg_start (vm_mem v) q ≠ Some addr) →
  ∃ v', vmem_hash_delete lp64 v addr (g_size g) = Ok (v', p) ∧ conf v' = conf v ∧
    (∀ k, k ≠ vk_lookup → vm_kstat v' k = vm_kstat (kadd vk_mem_inuse (- g_size g) (kadd vk_free 1 v)) k) ∧
    rep r v' A K F (<[VMEM_HASH lp64 v addr := l1 ++ l2]> H) SF ∧
    (∀ sz, sz ≠ g_size g → vmem_hash_delete lp64 v addr sz = Panic Wrong_size).
Proof.
  intros R Hb Hg Hp Ha Hs Hl1. pose proof R as [Rm Rn Rf]. set (b := VMEM_HASH lp64 v addr) in *.
  pose proof (r_h _ _ _ _ _ _ _ _ _ _ Rm) as Hh. destruct (Forall2_lookup_r _ _ _ _ _ Hh Hb) as (o & Ho & Hsll).
  pose proof (r_kin _ _ _ _ _ _ _ _ _ _ Rm) as R6. pose proof (r_sub _ _ _ _ _ _ _ _ _ _ Rm) as R7.
  assert (NoDup (l1 ++ p :: l2)) as Hnd by (eapply (NoDup_concat_lookup H); [by apply NoDup_app_r, NoDup_app_r, NoDup_app_l in R6|done]).
  destruct (hash_delete_run addr (l1 ++ p :: l2) v (Bucket b) o (seg_fuel v)) as (ks & Hks & Hrun); [|done|done|].
  { apply (rep_chain_fuel _ _ _ _ _ _ _ _ R Hnd). intros x Hx. apply (reps_is_Some lp64 Rm), R7. rewrite !elem_of_app, !elem_concat. eauto 10. }
  destruct (rep_cell _ _ _ _ _ _ _ g R Hg) as (c & Hc & Ec). rewrite Hp in Hc.
  assert (seg_start (vm_mem v) p = Some addr) as Hst by (unfold seg_start; rewrite Hc; injection Ec as E1 _ _ _; cbn; congruence).
  destruct Hrun as [[Hno _]|(l1' & p' & l2' & El & Hl1' & Hst' & Hrun)]; [by destruct (Hno p); [set_solver|]|].
  assert (l1' = l1 ∧ p' = p ∧ l2' = l2) as (-> & -> & ->).
  { clear -El Hl1 Hl1' Hst Hst'. revert l1' El Hl1'. induction l1 as [|x l1 IH]; intros [|x' l1'] El H1; cbn in El; injection El as E0 El.
    - done.
    - destruct (H1 x'); [by left|congruence].
    - destruct (Hl1 x); [by left|congruence].
    - destruct (IH ltac:(intros; apply Hl1; by right) l1' El) as (-> & -> & ->); [intros; apply H1; by right|by rewrite E0]. }
  destruct (rep_unlink r (with_kstat v ks) A K F H SF b l1 p l2) as (v1 & Est & [Hconf Hk1] & R1); [by apply rep_kstat|done|].
  change (vm_mem (with_kstat v ks)) with (vm_mem v) in Est. rewrite Est in Hrun.
  unfold vmem_hash_delete. fold b. rewrite Hrun. cbn [chk].
  destruct (rep_cell _ _ _ _ _ _ _ g R1 Hg) as (c1 & Hc1 & Ec1). rewrite Hp in Hc1. rewrite Hc1. cbn [chk].
  rewrite (vs_size_cell c1 g Ec1) by done.
  rewrite Z.eqb_refl. eexists. split; [done|]. split; [done|]. split; [|split; [by apply rep_kadd, rep_kadd|]].
  - intros k Hk. cbn. rewrite Hk1. cbn. destruct (decide (k = vk_mem_inuse)), (decide (k = vk_free)); subst; cbn; rewrite ?Hks by done; try done.
  - intros sz Hsz. by destruct (Z.eqb_spec (g_size g) sz).
Qed.

(** An address that is not in the table. *)
Lemma vmem_hash_delete_none r v A K F H SF addr l sz :
  rep r v A K F H SF → H !! VMEM_HASH lp64 v addr = Some l →
  (∀ q, q ∈ l → seg_start (vm_mem v) q ≠ Some addr) → vmem_hash_delete lp64 v addr sz = Panic Bad_free.
Proof.
  intros R Hb Hl. pose proof R as [Rm Rn Rf].
  pose proof (r_h _ _ _ _ _ _ _ _ _ _ Rm) as Hh. destruct (Forall2_lookup_r _ _ _ _ _ Hh Hb) as (o & Ho & Hsll).
  pose proof (r_kin _ _ _ _ _ _ _ _ _ _ Rm) as R6. pose proof (r_sub _ _ _ _ _ _ _ _ _ _ Rm) as R7.
  assert (NoDup l) as Hnd by (eapply (NoDup_concat_lookup H); [by apply NoDup_app_r, NoDup_app_r, NoDup_app_l in R6|done]).
  destruct (hash_delete_run addr l v (Bucket (VMEM_HASH lp64 v addr)) o (seg_fuel v)) as (ks & Hks & Hrun); [|done|done|].
  { apply (rep_chain_fuel _ _ _ _ _ _ _ _ R Hnd). intros x Hx. apply (reps_is_Some lp64 Rm), R7. rewrite !elem_of_app, !elem_concat. eauto 10. }
  unfold vmem_hash_delete. destruct Hrun as [[_ ->]|(l1 & p & l2 & -> & _ & Hst & _)]; [done|]. by destruct (Hl p); [set_solver|].
Qed.
End arena.
