(* ===== verification/VmemArena.v ===== *)
(** * VmemArena: the operations of an arena are operations on its spans

    [arep] says which segments are on which list of kin; [X] holds the
    segments an operation has taken off them.  [arena] is the invariant
    between operations: every span is tiled by segments, adjacent free
    segments are coalesced, and the statistics agree. *)

From Stdlib Require Import ZArith Lia.
From stdpp Require Import base numbers option list gmap.
From S2P Require Import Prelude Bitmap Vmem VmemRep.

#[local] Open Scope Z_scope.

Section arep.
Context (lp64 : bool) (top : Z).

Abbreviation w := (VMEM_FREELISTS lp64).
Abbreviation rep := (rep lp64 top).

(** Which segments are on a list of kin. *)
Definition on (A : list gseg) (X : gset sptr) (P : gseg → Prop) (p : sptr) : Prop :=
  ∃ g, g ∈ A ∧ g_ptr g = p ∧ (p ∉ X) ∧ P g.

Record covers (hash : Z → nat) (A : list gseg) (K : list sptr) (F H : list (list sptr)) (X : gset sptr) : Prop := {
  cv_k : ∀ p, p ∈ K ↔ on A X (λ g, g_type g = VMEM_SPAN) p;
  cv_f : ∀ i l p, F !! i = Some l → p ∈ l ↔ on A X (λ g, g_type g = VMEM_FREE ∧ flist_of (g_size g) = i) p;
  cv_h : ∀ b l p, H !! b = Some l → p ∈ l ↔ on A X (λ g, g_type g = VMEM_ALLOC ∧ hash (g_lo g) = b) p
}.

(** Sizes, start addresses and types. *)
Definition seg_ok (g : gseg) : Prop :=
  g_lo g ≠ 0 ∧ 0 <= g_lo g < 2 ^ w ∧ 0 < g_size g < 2 ^ w.

Record arep (r : Z) (v : vmem) (A : list gseg) (K SF : list sptr) (X : gset sptr) : Prop := {
  ar_lists : ∃ F H, rep r v A K F H SF ∧ covers (VMEM_HASH lp64 v) A K F H X ∧
    Z.of_nat (length H) = vm_hash_mask v + 1;
  ar_ok : Forall seg_ok A;
  ar_X : ∀ p, p ∈ X → p ∈ ptrs A
}.

Lemma g_ptr_inj A g h SF : NoDup (ptrs A ++ SF) → g ∈ A → h ∈ A → g_ptr g = g_ptr h → g = h.
Proof.
  intros Hnd%NoDup_app_l Hg Hh Hp. apply list_elem_of_lookup in Hg as [i Hi]. apply list_elem_of_lookup in Hh as [j Hj].
  assert (i = j) as ->; [|congruence].
  eapply NoDup_lookup; [exact Hnd| |]; unfold ptrs; rewrite list_lookup_fmap; [by rewrite Hi|by rewrite Hj; cbn; rewrite Hp].
Qed.

Lemma ptr_middle A1 g A2 SF h :
  NoDup (ptrs (A1 ++ g :: A2) ++ SF) → h ∈ A1 ++ A2 → g_ptr h ≠ g_ptr g.
Proof.
  rewrite ptrs_app, ptrs_cons, <- app_assoc, <- app_comm_cons, <- Permutation_middle.
  intros [Hn _]%NoDup_cons Hh E. apply Hn. rewrite <- E, app_assoc, <- ptrs_app. apply elem_of_app. left. by apply elem_ptrs.
Qed.

(** A segment in [X] can change. *)
Lemma on_set A1 g g' A2 SF X P p :
  NoDup (ptrs (A1 ++ g :: A2) ++ SF) → g_ptr g' = g_ptr g → g_ptr g ∈ X ∨ (P g ↔ P g') →
  on (A1 ++ g :: A2) X P p ↔ on (A1 ++ g' :: A2) X P p.
Proof.
  intros Hnd Hp HX. unfold on. split; intros (h & Hh & <- & Hx & HP).
  - apply elem_of_app in Hh as [Hh|[->|Hh]%elem_of_cons]; [exists h; set_solver| |exists h; set_solver].
    exists g'. rewrite Hp. destruct HX as [?|HX]; [done|]. split_and!; [set_solver|done|done|by apply HX].
  - apply elem_of_app in Hh as [Hh|[->|Hh]%elem_of_cons]; [exists h; set_solver| |exists h; set_solver].
    exists g. rewrite Hp in *. destruct HX as [?|HX]; [done|]. split_and!; [set_solver|done|done|by apply HX].
Qed.

Lemma covers_set hash A1 g g' A2 SF K F H X :
  NoDup (ptrs (A1 ++ g :: A2) ++ SF) → g_ptr g' = g_ptr g →
  g_ptr g ∈ X ∨ (g_type g = g_type g' ∧ g_lo g = g_lo g' ∧ g_hi g = g_hi g') →
  covers hash (A1 ++ g :: A2) K F H X → covers hash (A1 ++ g' :: A2) K F H X.
Proof.
  intros Hnd Hp HX [C1 C2 C3].
  assert (∀ P : gseg → Prop, (g_type g = g_type g' ∧ g_lo g = g_lo g' ∧ g_hi g = g_hi g' → (P g ↔ P g')) →
    ∀ p, on (A1 ++ g :: A2) X P p ↔ on (A1 ++ g' :: A2) X P p) as Hon.
  { intros P HP p. apply (on_set _ _ _ _ SF); [done|done|]. destruct HX as [?|HX]; [by left|right; by apply HP]. }
  constructor.
  - intros p. rewrite C1. apply Hon. by intros (-> & _).
  - intros i l p Hi. rewrite (C2 i l p Hi). apply Hon. unfold g_size. by intros (-> & -> & ->).
  - intros b l p Hb. rewrite (C3 b l p Hb). apply Hon. by intros (-> & -> & _).
Qed.

(** A segment in [X] is on no list. *)
Lemma covers_limbo hash A K F H X p : covers hash A K F H X → p ∈ X → p ∉ K ++ concat F ++ concat H.
Proof.
  intros [C1 C2 C3] HX Hp. apply elem_of_app in Hp as [Hp|[Hp|Hp]%elem_of_app].
  - apply C1 in Hp as (g & _ & _ & ? & _). done.
  - apply elem_concat in Hp as (i & l & Hi & Hp). apply (C2 i l p Hi) in Hp as (g & _ & _ & ? & _). done.
  - apply elem_concat in Hp as (i & l & Hi & Hp). apply (C3 i l p Hi) in Hp as (g & _ & _ & ? & _). done.
Qed.

Lemma on_new A1 g A2 X P p :
  (∀ h, h ∈ A1 ++ A2 → g_ptr h ≠ g_ptr g) → on (A1 ++ A2) X P p ↔ on (A1 ++ g :: A2) (X ∪ {[g_ptr g]}) P p.
Proof.
  intros Hne. unfold on. split; intros (h & Hh & <- & Hx & HP).
  - exists h. pose proof (Hne h Hh). set_solver.
  - apply elem_of_app in Hh as [Hh|[->|Hh]%elem_of_cons]; [exists h; set_solver|set_solver|exists h; set_solver].
Qed.

Lemma covers_new hash A1 g A2 K F H X :
  (∀ h, h ∈ A1 ++ A2 → g_ptr h ≠ g_ptr g) → covers hash (A1 ++ A2) K F H X → covers hash (A1 ++ g :: A2) K F H (X ∪ {[g_ptr g]}).
Proof.
  intros Hne [C1 C2 C3]. constructor.
  - intros p. by rewrite C1, (on_new A1 g A2).
  - intros i l p Hi. by rewrite (C2 i l p Hi), (on_new A1 g A2).
  - intros b l p Hb. by rewrite (C3 b l p Hb), (on_new A1 g A2).
Qed.

Lemma on_del A1 g A2 X P p :
  (∀ h, h ∈ A1 ++ A2 → g_ptr h ≠ g_ptr g) → g_ptr g ∈ X →
  on (A1 ++ g :: A2) X P p ↔ on (A1 ++ A2) (X ∖ {[g_ptr g]}) P p.
Proof.
  intros Hne HX. unfold on. split; intros (h & Hh & <- & Hx & HP).
  - apply elem_of_app in Hh as [Hh|[->|Hh]%elem_of_cons]; [exists h; set_solver|done|exists h; set_solver].
  - exists h. pose proof (Hne h Hh). set_solver.
Qed.

Lemma covers_del hash A1 g A2 K F H X :
  (∀ h, h ∈ A1 ++ A2 → g_ptr h ≠ g_ptr g) → g_ptr g ∈ X →
  covers hash (A1 ++ g :: A2) K F H X → covers hash (A1 ++ A2) K F H (X ∖ {[g_ptr g]}).
Proof.
  intros Hne HX [C1 C2 C3]. constructor.
  - intros p. by rewrite C1, (on_del A1 g A2).
  - intros i l p Hi. by rewrite (C2 i l p Hi), (on_del A1 g A2).
  - intros b l p Hb. by rewrite (C3 b l p Hb), (on_del A1 g A2).
Qed.

(** Taking a segment off its list, or putting it on one. *)
Lemma on_hide A X P p q : on A (X ∪ {[q]}) P p ↔ on A X P p ∧ p ≠ q.
Proof. unfold on. set_solver. Qed.

Lemma on_show A SF X P g p :
  NoDup (ptrs A ++ SF) → g ∈ A → g_ptr g ∈ X →
  on A (X ∖ {[g_ptr g]}) P p ↔ on A X P p ∨ (p = g_ptr g ∧ P g).
Proof.
  intros Hnd Hg HX. unfold on. split.
  - intros (h & Hh & <- & Hx & HP). destruct (decide (g_ptr h = g_ptr g)) as [E|E].
    + right. split; [done|]. by rewrite <- (g_ptr_inj A h g SF Hnd Hh Hg E).
    + left. exists h. set_solver.
  - intros [(h & Hh & <- & Hx & HP)|[-> HP]]; [exists h; set_solver|exists g; set_solver].
Qed.

(** ** The operations on segments *)

Lemma arep_frame_hash v v' : frame v v' → VMEM_HASH lp64 v' = VMEM_HASH lp64 v ∧ vm_hash_mask v' = vm_hash_mask v.
Proof.
  intros [Hc _]. unfold conf in Hc. injection Hc as E1 E2 E3 E4 E5 E6 E7 E8 E9. split; [|done].
  unfold VMEM_HASH. by rewrite E1, E8, E9.
Qed.

Lemma arep_nodup r v A K SF X : arep r v A K SF X → NoDup (ptrs A ++ SF).
Proof. intros [(F & H & R & _) _ _]. apply (rp_mem _ _ _ _ _ _ _ _ _ R). Qed.

Lemma arep_cell r v A K SF X g :
  arep r v A K SF X → g ∈ A → ∃ c, vm_mem v !! g_ptr g = Some c ∧ seg_dat c = cell_of lp64 g.
Proof. intros [(F & H & R & _) _ _]. by apply (rep_cell _ _ _ _ _ _ _ _ _ _ R). Qed.

(** The neighbours of a segment on the arena list. *)
Lemma arep_neighbours r v A1 g A2 K SF X :
  arep r v (A1 ++ g :: A2) K SF X →
  ∃ c, vm_mem v !! g_ptr g = Some c ∧ seg_dat c = cell_of lp64 g ∧
    vs_aprev c = Some (lastp (ptrs A1)) ∧ vs_anext c = Some (default Seg0 (head (ptrs A2))).
Proof.
  intros Ha. destruct (arep_cell _ _ _ _ _ _ g Ha) as (c & Hc & Ec); [set_solver|]. exists c. split; [done|]. split; [done|].
  destruct Ha as [(F & H & [R _ _] & _) _ _]. pose proof (r_a _ _ _ _ _ _ _ _ _ _ R) as Hd.
  destruct (lastp_split (ptrs A1)) as [l1 E1]. rewrite ptrs_app, ptrs_cons, <- app_assoc, <- app_comm_cons in Hd.
  change (Seg0 :: ptrs A1 ++ ?x) with ((Seg0 :: ptrs A1) ++ x) in Hd. rewrite E1, <- app_assoc in Hd.
  assert (∃ l2, ptrs A2 ++ [Seg0] = default Seg0 (head (ptrs A2)) :: l2) as [l2 E2] by (destruct (ptrs A2); cbn; eauto).
  rewrite E2 in Hd. change ([?x] ++ ?y) with (x :: y) in Hd. destruct (dll_neighbours _ _ _ _ _ _ _ Hd) as [Hn Hp].
  rewrite (nxt_at _ _ _ _ Hc) in Hn. by rewrite (prv_at _ _ _ _ Hc) in Hp.
Qed.

(** The anchor. *)
Lemma arep_seg0 r v A K SF X :
  arep r v A K SF X → ∃ c, vm_mem v !! Seg0 = Some c ∧ vs_type c = VMEM_SPAN ∧
    vs_aprev c = Some (lastp (ptrs A)) ∧ vs_kprev c = Some (lastp K).
Proof.
  intros [(F & H & [R _ _] & _) _ _]. destruct (dat_Some _ _ _ (r_seg0 _ _ _ _ _ _ _ _ _ _ R)) as (c & Hc & Ec).
  exists c. split; [done|]. split; [by injection Ec|]. split.
  - destruct (lastp_split (ptrs A)) as [l1 E1]. pose proof (r_a _ _ _ _ _ _ _ _ _ _ R) as Hd.
    change (Seg0 :: ptrs A ++ ?x) with ((Seg0 :: ptrs A) ++ x) in Hd. rewrite E1, <- app_assoc in Hd.
    destruct (dll_next _ _ _ _ _ _ Hd) as [_ Hp]. by rewrite (prv_at _ _ _ _ Hc) in Hp.
  - destruct (lastp_split K) as [l1 E1]. pose proof (r_k _ _ _ _ _ _ _ _ _ _ R) as Hd.
    change (Seg0 :: K ++ ?x) with ((Seg0 :: K) ++ x) in Hd. rewrite E1, <- app_assoc in Hd.
    destruct (dll_next _ _ _ _ _ _ Hd) as [_ Hp]. by rewrite (prv_at _ _ _ _ Hc) in Hp.
Qed.

(** Storing data. *)
Lemma arep_upd r v A1 g g' A2 K SF X f :
  arep r v (A1 ++ g :: A2) K SF X → g_ptr g' = g_ptr g → seg_ok g' →
  g_ptr g ∈ X ∨ (g_type g = g_type g' ∧ g_lo g = g_lo g' ∧ g_hi g = g_hi g') →
  (∀ c w, vnext w (f c) = vnext w c ∧ vprev w (f c) = vprev w c) →
  (∀ c, seg_dat c = cell_of lp64 g → seg_dat (f c) = cell_of lp64 g') →
  ∃ m', upd (g_ptr g) f (vm_mem v) = Some m' ∧ arep r (with_mem v m') (A1 ++ g' :: A2) K SF X.
Proof.
  intros Ha Hp Hok HX Hl Hd. pose proof (arep_nodup _ _ _ _ _ _ Ha) as Hnd. destruct Ha as [(F & H & R & C & Hlen) Hok' HXA].
  destruct (rep_upd lp64 top _ _ _ _ _ _ _ _ _ _ f R Hp Hl Hd) as (m' & Hu & R').
  exists m'. split; [done|]. constructor; [|rewrite Forall_app, Forall_cons in *; tauto|].
  2: { intros p HpX. apply HXA in HpX. rewrite ptrs_app, ptrs_cons in *. by rewrite Hp. }
  exists F, H. split; [done|]. split; [|done]. change (VMEM_HASH lp64 (with_mem v m')) with (VMEM_HASH lp64 v).
  by apply (covers_set _ _ g _ _ SF).
Qed.

Lemma covers_frame v v' A K F H X : frame v v' → covers (VMEM_HASH lp64 v) A K F H X → covers (VMEM_HASH lp64 v') A K F H X.
Proof. intros Hf C. by destruct (arep_frame_hash v v' Hf) as [-> _]. Qed.

Lemma arep_create r v A1 A2 K p SF X start end_ hi ty :
  arep r v (A1 ++ A2) K (p :: SF) X → end_ = uw lp64 hi → seg_ok (GSeg p start hi ty 0) →
  ∃ v', vmem_seg_create v (lastp (ptrs A1)) start end_ ty = Some (v', p) ∧ frame v v' ∧
    arep r v' (A1 ++ GSeg p start hi ty 0 :: A2) K SF (X ∪ {[p]}) ∧ p ∉ X.
Proof.
  intros [(F & H & R & C & Hlen) Hok HXA] He Hg.
  destruct (vmem_seg_create_ok lp64 top _ _ _ _ _ _ _ _ _ start end_ hi ty R He) as (v' & Hc & R' & Hf & Hs & HA & HS).
  exists v'. split; [done|]. split; [done|]. split; [|by intros ?%HXA].
  constructor; [|rewrite Forall_app, Forall_cons in *; tauto|intros x; rewrite ptrs_app, ptrs_cons in *; set_solver].
  exists F, H. split; [done|]. split; [|by rewrite (proj2 (arep_frame_hash v v' Hf))]. apply (covers_frame v v' _ _ _ _ _ Hf).
  change {[p]} with ({[g_ptr (GSeg p start hi ty 0)]} : gset sptr). apply covers_new; [|done].
  intros h Hh E. apply HA. cbn in E. rewrite <- E. by apply elem_ptrs.
Qed.

Lemma arep_destroy r v A1 g A2 K SF X :
  arep r v (A1 ++ g :: A2) K SF X → g_ptr g ∈ X →
  ∃ v', vmem_seg_destroy v (g_ptr g) = Some v' ∧ frame v v' ∧ arep r v' (A1 ++ A2) K (g_ptr g :: SF) (X ∖ {[g_ptr g]}).
Proof.
  intros Ha HX. pose proof (arep_nodup _ _ _ _ _ _ Ha) as Hnd. destruct Ha as [(F & H & R & C & Hlen) Hok HXA].
  destruct (vmem_seg_destroy_ok lp64 top _ _ _ _ _ _ _ _ _ R) as (v' & Hc & R' & Hf); [by eapply covers_limbo|].
  exists v'. split; [done|]. split; [done|].
  constructor; [|rewrite Forall_app, Forall_cons in *; tauto|intros x; rewrite ptrs_app, ptrs_cons in *; set_solver].
  exists F, H. split; [done|]. split; [|by rewrite (proj2 (arep_frame_hash v v' Hf))]. apply (covers_frame v v' _ _ _ _ _ Hf).
  apply covers_del; [|done|done]. intros h. by apply ptr_middle with SF.
Qed.

Lemma reps_flist_lookup r v A K F H SF sz : rep r v A K F H SF → 0 < sz < 2 ^ w → is_Some (F !! flist_of sz).
Proof.
  intros R Hs. apply lookup_lt_is_Some. rewrite (r_flen _ _ _ _ _ _ _ _ _ _ (rp_mem _ _ _ _ _ _ _ _ _ R)).
  by apply flist_of_lt.
Qed.

Lemma arep_free_insert r v A1 g A2 K SF X :
  arep r v (A1 ++ g :: A2) K SF X → g_ptr g ∈ X →
  ∃ v', vmem_freelist_insert lp64 v (g_ptr g) = Some v' ∧ frame v v' ∧
    arep r v' (A1 ++ with_type g VMEM_FREE :: A2) K SF (X ∖ {[g_ptr g]}).
Proof.
  intros Ha HX. pose proof (arep_nodup _ _ _ _ _ _ Ha) as Hnd. destruct Ha as [(F & H & R & C & Hlen) Hok HXA].
  assert (seg_ok g) as (G1 & G2 & G3) by (rewrite Forall_app, Forall_cons in Hok; tauto).
  destruct (reps_flist_lookup _ _ _ _ _ _ _ _ R G3) as [l Hl].
  destruct (vmem_freelist_insert_ok lp64 top _ _ _ _ _ _ _ _ _ l R) as (v' & Hi & Hf & R'); [by eapply covers_limbo|done|done|].
  exists v'. split; [done|]. split; [done|]. set (g1 := with_type g VMEM_FREE) in *.
  constructor; [|rewrite Forall_app, Forall_cons in *; by destruct Hok as (? & _ & ?)|].
  2: { intros x Hx. assert (x ∈ X) as HxX by set_solver. apply HXA in HxX. by rewrite ptrs_app, ptrs_cons in *. }
  eexists _, H. split; [exact R'|]. split; [|by rewrite (proj2 (arep_frame_hash v v' Hf))]. apply (covers_frame v v' _ _ _ _ _ Hf).
  assert (covers (VMEM_HASH lp64 v) (A1 ++ g1 :: A2) K F H X) as [C1 C2 C3].
  { apply (covers_set _ _ g _ _ SF); [done|done|by left|done]. }
  assert (NoDup (ptrs (A1 ++ g1 :: A2) ++ SF)) as Hnd1 by (rewrite ptrs_app, ptrs_cons in *; done).
  assert (g1 ∈ A1 ++ g1 :: A2) as Hg1 by set_solver. change (g_ptr g) with (g_ptr g1) in *.
  assert (∀ P p, on (A1 ++ g1 :: A2) (X ∖ {[g_ptr g1]}) P p ↔ on (A1 ++ g1 :: A2) X P p ∨ (p = g_ptr g1 ∧ P g1)) as Hon
    by (intros P p; by apply (on_show _ SF)).
  constructor.
  - intros p. rewrite C1, Hon. split; [by left|]. intros [?|[_ ?]]; done.
  - intros i l' p Hi'. rewrite Hon. destruct (decide (i = flist_of (g_size g))) as [->|Hne].
    + rewrite list_lookup_insert_eq in Hi' by (by eapply lookup_lt_Some). injection Hi' as <-. rewrite elem_of_cons, (C2 _ l p Hl).
      split; [intros [->|?]; [right; by split|by left]|]. intros [?|[-> _]]; [by right|by left].
    + rewrite list_lookup_insert_ne in Hi' by done. rewrite (C2 _ l' p Hi'). split; [by left|]. intros [?|[_ [_ ?]]]; [done|].
      destruct Hne. done.
  - intros b l' p Hb. rewrite Hon, (C3 _ l' p Hb). split; [by left|]. intros [?|[_ [? _]]]; done.
Qed.

Lemma arep_free_delete r v A g K SF X :
  arep r v A K SF X → g ∈ A → g_type g = VMEM_FREE → g_ptr g ∉ X →
  ∃ v', vmem_freelist_delete lp64 v (g_ptr g) = Some v' ∧ frame v v' ∧ arep r v' A K SF (X ∪ {[g_ptr g]}).
Proof.
  intros Ha Hg Ht HX. destruct Ha as [(F & H & R & C & Hlen) Hok HXA].
  assert (seg_ok g) as (G1 & G2 & G3) by (by apply (proj1 (Forall_forall _ _) Hok)).
  destruct (reps_flist_lookup _ _ _ _ _ _ _ _ R G3) as [l Hl]. pose proof C as [C1 C2 C3].
  assert (g_ptr g ∈ l) as Hgl by (apply (C2 _ l _ Hl); by exists g).
  apply list_elem_of_split in Hgl as (l1 & l2 & ->).
  destruct (vmem_freelist_delete_ok lp64 top _ _ _ _ _ _ _ (flist_of (g_size g)) l1 (g_ptr g) l2 R) as (v' & Hi & Hf & R'); [|exact Hl|].
  { intros h Hh. by apply (proj1 (Forall_forall _ _) Hok h Hh). }
  exists v'. split; [done|]. split; [done|]. constructor; [|done|].
  2: { intros x Hx. apply elem_of_union in Hx as [?| ->%elem_of_singleton]; [by apply HXA|by apply elem_ptrs]. }
  eexists _, H. split; [exact R'|]. split; [|by rewrite (proj2 (arep_frame_hash v v' Hf))]. apply (covers_frame v v' _ _ _ _ _ Hf).
  assert (NoDup (concat F)) as HndF.
  { pose proof (r_kin _ _ _ _ _ _ _ _ _ _ (rp_mem _ _ _ _ _ _ _ _ _ R)) as Hk. by apply NoDup_app_r, NoDup_app_l in Hk. }
  constructor.
  - intros p. rewrite on_hide, <- C1. split; [|by intros [? _]]. intros Hp. split; [done|]. intros ->.
    apply C1 in Hp as (h & Hh & Hph & _ & Hth).
    rewrite (g_ptr_inj _ h g SF (r_own _ _ _ _ _ _ _ _ _ _ (rp_mem _ _ _ _ _ _ _ _ _ R)) Hh Hg Hph) in Hth. by rewrite Ht in Hth.
  - intros i l' p Hi'. rewrite on_hide. destruct (decide (i = flist_of (g_size g))) as [->|Hne].
    + rewrite list_lookup_insert_eq in Hi' by (by eapply lookup_lt_Some). injection Hi' as <-. rewrite <- (C2 _ _ p Hl).
      pose proof (NoDup_concat_lookup _ _ _ HndF Hl) as Hndl. rewrite <- Permutation_middle in Hndl. apply NoDup_cons in Hndl as [Hndl _].
      set_solver.
    + rewrite list_lookup_insert_ne in Hi' by done. rewrite <- (C2 _ l' p Hi'). split; [|by intros [? _]]. intros Hp. split; [done|].
      intros ->. apply Hne. eapply (concat_disjoint F); [done|exact Hi'|exact Hl|done|set_solver].
  - intros b l' p Hb. rewrite on_hide, <- (C3 _ l' p Hb). split; [|by intros [? _]]. intros Hp. split; [done|]. intros ->.
    apply (C3 _ l' _ Hb) in Hp as (h & Hh & Hph & _ & Hth & _).
    rewrite (g_ptr_inj _ h g SF (r_own _ _ _ _ _ _ _ _ _ _ (rp_mem _ _ _ _ _ _ _ _ _ R)) Hh Hg Hph) in Hth. by rewrite Ht in Hth.
Qed.

Lemma covers_conf v v' A K F H X : conf v' = conf v → covers (VMEM_HASH lp64 v) A K F H X → covers (VMEM_HASH lp64 v') A K F H X.
Proof.
  intros Hc [C1 C2 C3]. constructor; [done|done|]. intros b l p Hb. rewrite (C3 b l p Hb). unfold on.
  split; intros (g & Hg & Hp & Hx & Ht & Hh); exists g; split_and!; try done; [by rewrite (conf_hash lp64 v v')|by rewrite (conf_hash lp64 v v') in Hh].
Qed.

Lemma conf_mask v v' : conf v' = conf v → vm_hash_mask v' = vm_hash_mask v.
Proof. unfold conf. intros [= ]. done. Qed.

Lemma VMEM_HASH_lt v a n : Z.of_nat n = vm_hash_mask v + 1 → 0 <= vm_hash_mask v → (VMEM_HASH lp64 v a < n)%nat.
Proof.
  intros Hn Hm. unfold VMEM_HASH, VMEM_HASH_INDEX. set (x := Z.shiftr _ _).
  assert (0 <= x) by (apply Z.shiftr_nonneg, uw_range).
  pose proof (Z.land_nonneg x (vm_hash_mask v)). pose proof (land_le_r x (vm_hash_mask v) Hm). lia.
Qed.

Lemma arep_hash_insert r v A1 g A2 K SF X :
  arep r v (A1 ++ g :: A2) K SF X → g_ptr g ∈ X → 0 <= vm_hash_mask v →
  ∃ v', vmem_hash_insert lp64 v (g_ptr g) = Some v' ∧ conf v' = conf v ∧
    vm_kstat v' = vm_kstat (kadd vk_mem_inuse (g_size g) (kadd vk_alloc 1 v)) ∧
    arep r v' (A1 ++ with_type g VMEM_ALLOC :: A2) K SF (X ∖ {[g_ptr g]}).
Proof.
  intros Ha HX Hm. pose proof (arep_nodup _ _ _ _ _ _ Ha) as Hnd. destruct Ha as [(F & H & R & C & Hlen) Hok HXA].
  assert (seg_ok g) as (G1 & G2 & G3) by (rewrite Forall_app, Forall_cons in Hok; tauto).
  destruct (lookup_lt_is_Some_2 H (VMEM_HASH lp64 v (g_lo g))) as [l Hl]; [by apply VMEM_HASH_lt|].
  destruct (vmem_hash_insert_ok lp64 top _ _ _ _ _ _ _ _ _ l R) as (v' & Hi & Hc & Hks & R'); [by eapply covers_limbo|lia|done|].
  exists v'. split; [done|]. split; [done|]. split; [done|]. set (g1 := with_type g VMEM_ALLOC) in *.
  constructor; [|rewrite Forall_app, Forall_cons in *; by destruct Hok as (? & _ & ?)|].
  2: { intros x Hx. assert (x ∈ X) as HxX by set_solver. apply HXA in HxX. by rewrite ptrs_app, ptrs_cons in *. }
  eexists F, _. split; [exact R'|]. split; [|by rewrite length_insert, (conf_mask v v' Hc)]. apply (covers_conf v v' _ _ _ _ _ Hc).
  assert (covers (VMEM_HASH lp64 v) (A1 ++ g1 :: A2) K F H X) as [C1 C2 C3].
  { apply (covers_set _ _ g _ _ SF); [done|done|by left|done]. }
  assert (NoDup (ptrs (A1 ++ g1 :: A2) ++ SF)) as Hnd1 by (rewrite ptrs_app, ptrs_cons in *; done).
  assert (g1 ∈ A1 ++ g1 :: A2) as Hg1 by set_solver. change (g_ptr g) with (g_ptr g1) in *.
  assert (∀ P p, on (A1 ++ g1 :: A2) (X ∖ {[g_ptr g1]}) P p ↔ on (A1 ++ g1 :: A2) X P p ∨ (p = g_ptr g1 ∧ P g1)) as Hon
    by (intros P p; by apply (on_show _ SF)).
  constructor.
  - intros p. rewrite C1, Hon. split; [by left|]. intros [?|[_ ?]]; done.
  - intros i l' p Hi'. rewrite Hon, (C2 _ l' p Hi'). split; [by left|]. intros [?|[_ [? _]]]; done.
  - intros b l' p Hb. rewrite Hon. destruct (decide (b = VMEM_HASH lp64 v (g_lo g))) as [->|Hne].
    + rewrite list_lookup_insert_eq in Hb by (by eapply lookup_lt_Some). injection Hb as <-. rewrite elem_of_cons, (C3 _ l p Hl).
      split; [intros [->|?]; [right; by split|by left]|]. intros [?|[-> _]]; [by right|by left].
    + rewrite list_lookup_insert_ne in Hb by done. rewrite (C3 _ l' p Hb). split; [by left|]. intros [?|[_ [_ ?]]]; [done|].
      destruct Hne. done.
Qed.

(** Freeing an allocated address: the other allocated segments start
    elsewhere. *)
Lemma arep_hash_delete r v A g K SF X :
  arep r v A K SF X → g ∈ A → g_type g = VMEM_ALLOC → g_ptr g ∉ X → 0 <= vm_hash_mask v →
  (∀ h, h ∈ A → g_type h = VMEM_ALLOC → g_lo h = g_lo g → h = g) →
  ∃ v', vmem_hash_delete lp64 v (g_lo g) (g_size g) = Ok (v', g_ptr g) ∧ conf v' = conf v ∧
    (∀ k, k ≠ vk_lookup → vm_kstat v' k = vm_kstat (kadd vk_mem_inuse (- g_size g) (kadd vk_free 1 v)) k) ∧
    arep r v' A K SF (X ∪ {[g_ptr g]}) ∧
    (∀ sz, sz ≠ g_size g → vmem_hash_delete lp64 v (g_lo g) sz = Panic Wrong_size).
Proof.
  intros Ha Hg Ht HX Hm Huniq. pose proof (arep_nodup _ _ _ _ _ _ Ha) as Hnd. destruct Ha as [(F & H & R & C & Hlen) Hok HXA].
  assert (seg_ok g) as (G1 & G2 & G3) by (by apply (proj1 (Forall_forall _ _) Hok)).
  destruct (lookup_lt_is_Some_2 H (VMEM_HASH lp64 v (g_lo g))) as [l Hl]; [by apply VMEM_HASH_lt|]. pose proof C as [C1 C2 C3].
  assert (g_ptr g ∈ l) as Hgl by (apply (C3 _ l _ Hl); by exists g).
  assert (NoDup (concat H)) as HndH.
  { pose proof (r_kin _ _ _ _ _ _ _ _ _ _ (rp_mem _ _ _ _ _ _ _ _ _ R)) as Hk. by apply NoDup_app_r, NoDup_app_r, NoDup_app_l in Hk. }
  pose proof (NoDup_concat_lookup _ _ _ HndH Hl) as Hndl.
  apply list_elem_of_split in Hgl as (l1 & l2 & ->).
  rewrite <- Permutation_middle in Hndl. apply NoDup_cons in Hndl as [Hndl _].
  destruct (vmem_hash_delete_found lp64 top r v A K F H SF (g_lo g) l1 (g_ptr g) l2 g R) as (v' & Hd & Hc & Hks & R' & Hw);
    [done|done|done|done|lia| |].
  { intros q Hq Hst. assert (q ∈ l1 ++ g_ptr g :: l2) as Hq' by set_solver.
    apply (C3 _ _ _ Hl) in Hq' as (h & Hh & <- & _ & Hth & _).
    destruct (rep_cell _ _ _ _ _ _ _ _ _ h R Hh) as (c & Hcc & Ec). unfold seg_start in Hst. rewrite Hcc in Hst. cbn in Hst.
    injection Ec as E1 _ _ _. rewrite (Huniq h Hh Hth) in Hq; [set_solver|congruence]. }
  exists v'. split; [done|]. split; [done|]. split; [done|]. split; [|done]. constructor; [|done|].
  2: { intros x Hx. apply elem_of_union in Hx as [?| ->%elem_of_singleton]; [by apply HXA|by apply elem_ptrs]. }
  eexists F, _. split; [exact R'|]. split; [|by rewrite length_insert, (conf_mask v v' Hc)]. apply (covers_conf v v' _ _ _ _ _ Hc).
  constructor.
  - intros p. rewrite on_hide, <- C1. split; [|by intros [? _]]. intros Hp. split; [done|]. intros ->.
    apply C1 in Hp as (h & Hh & Hph & _ & Hth). rewrite (g_ptr_inj _ h g SF Hnd Hh Hg Hph) in Hth. by rewrite Ht in Hth.
  - intros i l' p Hi'. rewrite on_hide, <- (C2 _ l' p Hi'). split; [|by intros [? _]]. intros Hp. split; [done|]. intros ->.
    apply (C2 _ l' _ Hi') in Hp as (h & Hh & Hph & _ & Hth & _). rewrite (g_ptr_inj _ h g SF Hnd Hh Hg Hph) in Hth. by rewrite Ht in Hth.
  - intros b l' p Hb. rewrite on_hide. destruct (decide (b = VMEM_HASH lp64 v (g_lo g))) as [->|Hne].
    + rewrite list_lookup_insert_eq in Hb by (by eapply lookup_lt_Some). injection Hb as <-. rewrite <- (C3 _ _ p Hl). set_solver.
    + rewrite list_lookup_insert_ne in Hb by done. rewrite <- (C3 _ l' p Hb). split; [|by intros [? _]]. intros Hp. split; [done|].
      intros ->. apply Hne. eapply (concat_disjoint H); [done|exact Hb|exact Hl|done|set_solver].
Qed.

(** An address that is not allocated. *)
Lemma arep_hash_delete_none r v A K SF X addr sz :
  arep r v A K SF X → 0 <= vm_hash_mask v → (∀ h, h ∈ A → g_type h = VMEM_ALLOC → g_lo h ≠ addr) →
  vmem_hash_delete lp64 v addr sz = Panic Bad_free.
Proof.
  intros [(F & H & R & C & Hlen) Hok HXA] Hm Hno.
  destruct (lookup_lt_is_Some_2 H (VMEM_HASH lp64 v addr)) as [l Hl]; [by apply VMEM_HASH_lt|]. pose proof C as [C1 C2 C3].
  eapply (vmem_hash_delete_none lp64 top _ _ _ _ _ _ _ _ l); [done|done|]. intros q Hq Hst.
  apply (C3 _ _ _ Hl) in Hq as (h & Hh & <- & _ & Hth & _).
  destruct (rep_cell _ _ _ _ _ _ _ _ _ h R Hh) as (c & Hcc & Ec). unfold seg_start in Hst. rewrite Hcc in Hst. cbn in Hst.
  injection Ec as E1 _ _ _. apply (Hno h Hh Hth). congruence.
Qed.

(** Span markers. *)
Lemma arep_span_insert r v A K SF X g :
  arep r v A K SF X → g ∈ A → g_ptr g ∈ X → g_type g = VMEM_SPAN →
  ∃ m', VMEM_INSERT Lk (lastp K) (g_ptr g) (vm_mem v) = Some m' ∧ arep r (with_mem v m') A (K ++ [g_ptr g]) SF (X ∖ {[g_ptr g]}).
Proof.
  intros Ha Hg HX Ht. pose proof (arep_nodup _ _ _ _ _ _ Ha) as Hnd. destruct Ha as [(F & H & [Rm Rn Rf] & C & Hlen) Hok HXA].
  destruct (reps_span_insert lp64 top _ _ _ _ _ _ _ _ (g_ptr g) Rm) as (m' & Hi & _ & R'); [by apply elem_ptrs|by eapply covers_limbo|].
  exists m'. split; [done|]. constructor; [|done|].
  2: { intros x Hx. assert (x ∈ X ∨ x = g_ptr g) as [?| ->] by set_solver; [by apply HXA|by apply elem_ptrs]. }
  exists F, H. split; [by constructor|]. split; [|done].
  change (VMEM_HASH lp64 (with_mem v m')) with (VMEM_HASH lp64 v). destruct C as [C1 C2 C3].
  assert (∀ P p, on A (X ∖ {[g_ptr g]}) P p ↔ on A X P p ∨ (p = g_ptr g ∧ P g)) as Hon by (intros P p; by apply (on_show _ SF)).
  constructor.
  - intros p. rewrite Hon, <- C1. set_solver.
  - intros i l p Hi'. rewrite Hon, <- (C2 i l p Hi'). split; [by left|]. intros [?|[_ [Hc _]]]; [done|by rewrite Ht in Hc].
  - intros b l p Hb. rewrite Hon, <- (C3 b l p Hb). split; [by left|]. intros [?|[_ [Hc _]]]; [done|by rewrite Ht in Hc].
Qed.

Lemma arep_span_delete r v A K1 K2 SF X g :
  arep r v A (K1 ++ g_ptr g :: K2) SF X → g ∈ A → g_type g = VMEM_SPAN →
  ∃ m', VMEM_DELETE Lk (g_ptr g) (vm_mem v) = Some m' ∧ arep r (with_mem v m') A (K1 ++ K2) SF (X ∪ {[g_ptr g]}).
Proof.
  intros Ha Hg Ht. pose proof (arep_nodup _ _ _ _ _ _ Ha) as Hnd. destruct Ha as [(F & H & [Rm Rn Rf] & C & Hlen) Hok HXA].
  destruct (reps_span_delete lp64 top _ _ _ _ _ _ _ _ _ _ Rm) as (m' & Hi & _ & R').
  exists m'. split; [done|]. constructor; [|done|].
  2: { intros x Hx. assert (x ∈ X ∨ x = g_ptr g) as [?| ->] by set_solver; [by apply HXA|by apply elem_ptrs]. }
  exists F, H. split; [by constructor|]. split; [|done].
  change (VMEM_HASH lp64 (with_mem v m')) with (VMEM_HASH lp64 v). destruct C as [C1 C2 C3].
  pose proof (r_kin _ _ _ _ _ _ _ _ _ _ Rm) as Hk. apply NoDup_app_l in Hk. rewrite <- Permutation_middle in Hk. apply NoDup_cons in Hk as [Hk _].
  constructor.
  - intros p. rewrite on_hide, <- C1. set_solver.
  - intros i l p Hi'. rewrite on_hide, <- (C2 i l p Hi'). split; [|by intros [? _]]. intros Hp. split; [done|]. intros ->.
    apply (C2 _ l _ Hi') in Hp as (h & Hh & Hph & _ & Hth & _). rewrite (g_ptr_inj _ h g SF Hnd Hh Hg Hph) in Hth. by rewrite Ht in Hth.
  - intros b l p Hb. rewrite on_hide, <- (C3 b l p Hb). split; [|by intros [? _]]. intros Hp. split; [done|]. intros ->.
    apply (C3 _ l _ Hb) in Hp as (h & Hh & Hph & _ & Hth & _). rewrite (g_ptr_inj _ h g SF Hnd Hh Hg Hph) in Hth. by rewrite Ht in Hth.
Qed.

Lemma arep_kadd r v A K SF X k n : arep r v A K SF X → arep r (kadd k n v) A K SF X.
Proof.
  intros [(F & H & R & C & Hlen) Hok HXA]. constructor; [|done|done]. exists F, H. split; [by apply rep_kadd|]. done.
Qed.
End arep.

(** ** The macros on words *)

(** The next multiple of [q]. *)
Definition rup (q x : Z) : Z := x + (- x) `mod` q.

Lemma rup_spec q x : 0 < q → (q | rup q x) ∧ x <= rup q x < x + q.
Proof.
  intros Hq. unfold rup. pose proof (Z.mod_pos_bound (- x) q Hq). split; [|lia].
  exists (- ((- x) / q)). pose proof (Z.div_mod (- x) q ltac:(lia)). lia.
Qed.

Lemma rup_id q x : 0 < q → (q | x) → rup q x = x.
Proof. intros Hq [k ->]. unfold rup. rewrite <- Z.mul_opp_l, Z.mod_mul by lia. lia. Qed.

(** No multiple of [q] between a number and its rounding. *)
Lemma rup_least q x y : 0 < q → (q | y) → x <= y → rup q x <= y.
Proof.
  intros Hq [k ->] Hx. destruct (rup_spec q x Hq) as [[j ->] H]. destruct (decide (j <= k)); [nia|].
  assert ((k + 1) * q <= j * q) by nia. lia.
Qed.

Lemma land_pow2_high y a n : 0 <= a <= n → 0 <= y < 2 ^ n → Z.land y (2 ^ n - 2 ^ a) = y - y `mod` 2 ^ a.
Proof.
  intros Ha Hy. assert (2 ^ n - 2 ^ a = Z.shiftl (Z.ones (n - a)) a) as ->.
  { rewrite Z.shiftl_mul_pow2, Z.ones_equiv by lia. rewrite Z.mul_pred_l, <- Z.pow_add_r by lia. f_equal. f_equal. lia. }
  assert (Z.land y (Z.shiftl (Z.ones (n - a)) a) = Z.shiftl (Z.land (Z.shiftr y a) (Z.ones (n - a))) a) as ->.
  { apply Z.bits_inj'. intros i Hi. rewrite Z.land_spec, !Z.shiftl_spec, Z.land_spec by lia.
    destruct (decide (a <= i)).
    - rewrite Z.shiftr_spec by lia. by replace (i - a + a) with i by lia.
    - rewrite (Z.testbit_neg_r (Z.ones _)), (Z.testbit_neg_r (Z.shiftr y a)) by lia. by rewrite andb_false_r. }
  rewrite Z.land_ones, Z.shiftr_div_pow2, Z.shiftl_mul_pow2 by lia.
  rewrite (Z.mod_small (y / 2 ^ a)); [pose proof (Z.div_mod y (2 ^ a)); lia|]. split; [apply Z.div_pos; lia|].
  apply Z.div_lt_upper_bound; [lia|]. rewrite <- Z.pow_add_r by lia. replace (a + (n - a)) with n by lia. lia.
Qed.

Section words.
Context (lp64 : bool).
Abbreviation w := (VMEM_FREELISTS lp64).

Lemma w_pos : 0 < w.
Proof. destruct (VMEM_FREELISTS_cases lp64) as [-> | ->]; lia. Qed.

Lemma pow2_w a : 0 <= a < w → 0 < 2 ^ a < 2 ^ w.
Proof. intros Ha. split; [lia|]. apply Z.pow_lt_mono_r; lia. Qed.

Lemma uw_opp_pow2 a : 0 <= a < w → uw lp64 (- 2 ^ a) = 2 ^ w - 2 ^ a.
Proof.
  intros Ha. pose proof (pow2_w a Ha). unfold uw, wrapu. symmetry. apply Z.mod_unique with (-1); [left|]; unfold VMEM_FREELISTS in *; lia.
Qed.

Lemma uw_mod a x : 0 <= a < w → (uw lp64 x) `mod` 2 ^ a = x `mod` 2 ^ a.
Proof.
  intros Ha. unfold uw, wrapu. apply Z.mod_mod_divide. exists (2 ^ (w - a)). unfold VMEM_FREELISTS in *.
  rewrite <- Z.pow_add_r by lia. f_equal. lia.
Qed.

Lemma P2ROUNDUP_eq a x : 0 <= a < w → P2ROUNDUP lp64 x (2 ^ a) = uw lp64 (rup (2 ^ a) x).
Proof.
  intros Ha. unfold P2ROUNDUP. rewrite uw_opp_pow2 by done. rewrite land_pow2_high by (lia || apply uw_range).
  rewrite uw_mod by done. unfold rup. rewrite <- Z.sub_0_l, <- uw_sub_r, uw_sub_l, uw_sub_r. f_equal. lia.
Qed.

Lemma P2PHASEUP_eq a x phase : 0 <= a < w → P2PHASEUP lp64 x (2 ^ a) phase = uw lp64 (x + (phase - x) `mod` 2 ^ a).
Proof.
  intros Ha. unfold P2PHASEUP. rewrite uw_opp_pow2 by done. rewrite land_pow2_high by (lia || apply uw_range).
  rewrite uw_mod by done. rewrite <- uw_sub_r, uw_sub_l, uw_sub_r. f_equal. lia.
Qed.

Lemma P2NPHASE_eq n x : 0 <= n < w → P2NPHASE lp64 x (2 ^ n) = (- x) `mod` 2 ^ n.
Proof.
  intros Hn. unfold P2NPHASE. pose proof (pow2_w n Hn). rewrite (uw_id lp64 (2 ^ n - 1)) by lia.
  replace (2 ^ n - 1) with (Z.ones n) by (rewrite Z.ones_equiv; lia). rewrite Z.land_ones by lia. by apply uw_mod.
Qed.

(** Two addresses on different sides of a boundary. *)
Lemma lxor_div x y n : 0 <= n → 0 <= x → 0 <= y → (Z.lxor x y >? 2 ^ n - 1) = negb (x / 2 ^ n =? y / 2 ^ n).
Proof.
  intros Hn Hx Hy. assert (0 <= Z.lxor x y) as H0 by (by apply Z.lxor_nonneg).
  assert (Z.lxor x y / 2 ^ n = Z.lxor (x / 2 ^ n) (y / 2 ^ n)) as E by (rewrite <- !Z.shiftr_div_pow2 by done; apply Z.shiftr_lxor).
  destruct (Z.eqb_spec (x / 2 ^ n) (y / 2 ^ n)) as [E1|E1]; cbn.
  - rewrite E1, Z.lxor_nilpotent in E. apply Z.div_small_iff in E; [|lia]. rewrite Z.gtb_ltb. apply Z.ltb_ge. lia.
  - rewrite Z.gtb_ltb. apply Z.ltb_lt. destruct (decide (Z.lxor x y < 2 ^ n)) as [Hlt|]; [|lia]. exfalso. apply E1.
    rewrite Z.div_small in E by lia. symmetry in E. by apply Z.lxor_eq in E.
Qed.

Lemma P2CROSS_eq n x y : 0 <= n < w → 0 <= x → 0 <= y → P2CROSS lp64 x y (2 ^ n) = negb (x / 2 ^ n =? y / 2 ^ n).
Proof.
  intros Hn Hx Hy. unfold P2CROSS. pose proof (pow2_w n Hn). rewrite (uw_id lp64 (2 ^ n - 1)) by lia. apply lxor_div; lia.
Qed.

Lemma P2CROSS_0 x y : 0 <= x < 2 ^ w → 0 <= y < 2 ^ w → P2CROSS lp64 x y 0 = false.
Proof.
  intros Hx Hy. unfold P2CROSS. pose proof w_pos. assert (uw lp64 (0 - 1) = 2 ^ w - 1) as ->.
  { unfold uw, wrapu. symmetry. apply Z.mod_unique with (-1); [left|]; unfold VMEM_FREELISTS in *; lia. }
  rewrite lxor_div by lia. rewrite !Z.div_small by lia. done.
Qed.
End words.

(** ** Splitting a free segment *)

Section alloc.
Context (lp64 : bool) (top : Z).
Abbreviation w := (VMEM_FREELISTS lp64).
Abbreviation arep := (arep lp64 top).
Abbreviation seg_ok := (seg_ok lp64).

(** [mid] is what an allocation of [lo, hi) leaves of the free segment [g]. *)
Definition splits (q : Z) (g : gseg) (lo hi : Z) (mid : list gseg) : Prop :=
  ∃ left a right, mid = left ++ a :: right ∧
    g_lo a = lo ∧ g_hi a = hi ∧ g_type a = VMEM_ALLOC ∧
    ((left = [] ∧ lo = g_lo g ∧ g_import a = g_import g) ∨
     (∃ l, left = [l] ∧ g_lo g < lo ∧ g_lo l = g_lo g ∧ g_hi l = lo ∧ g_type l = VMEM_FREE ∧
           g_import l = g_import g ∧ g_import a = 0)) ∧
    ((right = [] ∧ rup q hi = g_hi g) ∨
     (∃ x, right = [x] ∧ rup q hi < g_hi g ∧ g_lo x = rup q hi ∧ g_hi x = g_hi g ∧ g_type x = VMEM_FREE ∧ g_import x = 0)).

Lemma lastp_snoc A g : lastp (ptrs (A ++ [g])) = g_ptr g.
Proof. unfold lastp. rewrite ptrs_app. change (ptrs [g]) with [g_ptr g]. by rewrite last_snoc. Qed.

Lemma seg_ok_intro p lo hi ty i : 0 < lo < hi → hi <= 2 ^ w → seg_ok (GSeg p lo hi ty i).
Proof. intros Hlo Hhi. unfold VmemArena.seg_ok, g_size. cbn. lia. Qed.

(** [p->vs_end = ...] *)
Lemma arep_set_end r v A1 g A2 K SF X hi :
  arep r v (A1 ++ g :: A2) K SF X → g_ptr g ∈ X → g_lo g < hi <= 2 ^ w →
  let g' := GSeg (g_ptr g) (g_lo g) hi (g_type g) (g_import g) in
  ∃ m', upd (g_ptr g) (set_end (uw lp64 hi)) (vm_mem v) = Some m' ∧ arep r (with_mem v m') (A1 ++ g' :: A2) K SF X.
Proof.
  intros Ha HX Hhi g'. assert (seg_ok g) as (G1 & G2 & G3).
  { destruct Ha as [_ Hok _]. rewrite Forall_app, Forall_cons in Hok. tauto. }
  apply (arep_upd lp64 top _ _ _ g g'); try done; [|by left|].
  - apply seg_ok_intro; lia.
  - intros c [= E1 E2 E3 E4]. unfold seg_dat, cell_of. cbn. by rewrite E1, E3, E4.
Qed.

(** The part of a free segment after an allocation, on its free list. *)
Lemma seg_alloc_right r v A1 g A2 K p SF X hi :
  arep r v (A1 ++ g :: A2) K (p :: SF) X → g_ptr g ∈ X → g_lo g < hi < g_hi g → g_hi g <= 2 ^ w →
  let g' := GSeg (g_ptr g) (g_lo g) hi (g_type g) (g_import g) in
  let x := GSeg p hi (g_hi g) VMEM_FREE 0 in
  ∃ v', (let! m := upd (g_ptr g) (set_end (uw lp64 hi)) (vm_mem v) in
         let! (v, newseg) := vmem_seg_create (with_mem v m) (g_ptr g) (uw lp64 hi) (uw lp64 (g_hi g)) VMEM_FREE in
         vmem_freelist_insert lp64 v newseg) = Some v' ∧
    frame v v' ∧ arep r v' (A1 ++ g' :: x :: A2) K SF X.
Proof.
  intros Ha HX Hhi Hw g' x. assert (seg_ok g) as (G1 & G2 & G3).
  { destruct Ha as [_ Hok _]. rewrite Forall_app, Forall_cons in Hok. tauto. }
  destruct (arep_set_end _ _ _ _ _ _ _ _ hi Ha HX) as (m & -> & Ha1); [lia|]. fold g' in Ha1.
  change (A1 ++ g' :: A2) with (A1 ++ [g'] ++ A2) in Ha1. rewrite app_assoc in Ha1.
  destruct (arep_create lp64 top _ _ _ _ _ _ _ _ (uw lp64 hi) (uw lp64 (g_hi g)) (g_hi g) VMEM_FREE Ha1) as (v1 & Hc & Hf & Ha2 & HpX); [done| |].
  { rewrite (uw_id lp64 hi) by lia. apply seg_ok_intro; lia. }
  rewrite lastp_snoc in Hc. cbn [g_ptr g'] in Hc. rewrite Hc. rewrite (uw_id lp64 hi) in Ha2 by lia. fold x in Ha2.
  destruct (arep_free_insert lp64 top _ _ _ _ _ _ _ _ Ha2) as (v2 & Hi & Hf2 & Ha3); [set_solver|]. cbn [g_ptr x] in Hi.
  exists v2. split; [done|]. split; [by eapply frame_trans|]. change (with_type x VMEM_FREE) with x in Ha3.
  rewrite <- app_assoc in Ha3. cbn [app] in Ha3.
  assert ((X ∪ {[p]}) ∖ {[g_ptr x]} = X) as HX'; [|by rewrite HX' in Ha3].
  apply set_eq. intros y. cbn. set_solver.
Qed.

(** The part before it, with a new segment for the allocation. *)
Lemma seg_alloc_left r v A1 g A2 K p SF X lo hi :
  arep r v (A1 ++ g :: A2) K (p :: SF) X → g_ptr g ∈ X → g_lo g < lo < hi → hi <= 2 ^ w →
  let g' := GSeg (g_ptr g) (g_lo g) lo VMEM_FREE (g_import g) in
  let a := GSeg p lo hi VMEM_ALLOC 0 in
  ∃ v', (let! m := upd (g_ptr g) (set_end lo) (vm_mem v) in
         let! (v, newseg) := vmem_seg_create (with_mem v m) (g_ptr g) lo (uw lp64 hi) VMEM_ALLOC in
         let! v := vmem_freelist_insert lp64 v (g_ptr g) in
         Some (v, newseg)) = Some (v', p) ∧
    frame v v' ∧ arep r v' (A1 ++ g' :: a :: A2) K SF ((X ∖ {[g_ptr g]}) ∪ {[p]}) ∧ p ∉ X.
Proof.
  intros Ha HX Hlo Hw g' a. assert (seg_ok g) as (G1 & G2 & G3).
  { destruct Ha as [_ Hok _]. rewrite Forall_app, Forall_cons in Hok. tauto. }
  destruct (arep_set_end _ _ _ _ _ _ _ _ lo Ha HX) as (m & Hu & Ha1); [lia|].
  rewrite (uw_id lp64 lo) in Hu by lia. rewrite Hu. set (g1 := GSeg _ _ lo _ _) in Ha1.
  change (A1 ++ g1 :: A2) with (A1 ++ [g1] ++ A2) in Ha1. rewrite app_assoc in Ha1.
  destruct (arep_create lp64 top _ _ _ _ _ _ _ _ lo (uw lp64 hi) hi VMEM_ALLOC Ha1) as (v1 & Hc & Hf & Ha2 & HpX); [done|apply seg_ok_intro; lia|].
  rewrite lastp_snoc in Hc. cbn [g_ptr g1] in Hc. rewrite Hc. fold a in Ha2. rewrite <- app_assoc in Ha2. cbn [app] in Ha2.
  destruct (arep_free_insert lp64 top _ _ _ _ _ _ _ _ Ha2) as (v2 & Hi & Hf2 & Ha3); [set_solver|]. cbn [g_ptr g1] in Hi, Ha3.
  rewrite Hi. exists v2. split; [done|]. split; [by eapply frame_trans|]. split; [|done].
  change (with_type g1 VMEM_FREE) with g' in Ha3.
  assert ((X ∪ {[p]}) ∖ {[g_ptr g]} = (X ∖ {[g_ptr g]}) ∪ {[p]}) as HX'; [|by rewrite HX' in Ha3].
  apply set_eq. intros y. set_solver.
Qed.

(** The segment for the allocation gets its end and goes into the hash
    table. *)
Lemma seg_alloc_commit r v A1 g A2 K SF X hi :
  arep r v (A1 ++ g :: A2) K SF X → g_ptr g ∈ X → g_lo g < hi <= 2 ^ w → 0 <= vm_hash_mask v →
  let a := GSeg (g_ptr g) (g_lo g) hi VMEM_ALLOC (g_import g) in
  ∃ v', (let? m := chk (upd (g_ptr g) (set_end (uw lp64 hi)) (vm_mem v)) in
         chk (vmem_hash_insert lp64 (with_mem v m) (g_ptr g))) = Ok v' ∧
    conf v' = conf v ∧ vm_kstat v' = vm_kstat (kadd vk_mem_inuse (hi - g_lo g) (kadd vk_alloc 1 v)) ∧
    arep r v' (A1 ++ a :: A2) K SF (X ∖ {[g_ptr g]}).
Proof.
  intros Ha HX Hhi Hm a. destruct (arep_set_end _ _ _ _ _ _ _ _ hi Ha HX Hhi) as (m & -> & Ha1). cbn [chk].
  destruct (arep_hash_insert lp64 top _ _ _ _ _ _ _ _ Ha1) as (v' & Hi & Hc & Hk & Ha2); [done|done|].
  cbn [g_ptr] in Hi. rewrite Hi. exists v'. done.
Qed.

(** What is left of the segment after the allocation, if anything. *)
Lemma seg_alloc_rest r v A1 g A2 K SF X p2 :
  arep r v (A1 ++ g :: A2) K SF X → g_ptr g ∈ X → g_lo g < p2 <= g_hi g → g_hi g <= 2 ^ w → (2 <= length SF)%nat →
  ∃ v1 right SF1 g1, (if uw lp64 (g_hi g) =? uw lp64 p2 then Some v else
       (let! m := upd (g_ptr g) (set_end (uw lp64 p2)) (vm_mem v) in
        let! (v0, newseg) := vmem_seg_create (with_mem v m) (g_ptr g) (uw lp64 p2) (uw lp64 (g_hi g)) VMEM_FREE in
        vmem_freelist_insert lp64 v0 newseg)) = Some v1 ∧ frame v v1 ∧ arep r v1 (A1 ++ g1 :: right ++ A2) K SF1 X ∧
     g_ptr g1 = g_ptr g ∧ g_lo g1 = g_lo g ∧ g_import g1 = g_import g ∧ (length SF <= S (length SF1))%nat ∧
     ((right = [] ∧ p2 = g_hi g) ∨
      (∃ x, right = [x] ∧ p2 < g_hi g ∧ g_lo x = p2 ∧ g_hi x = g_hi g ∧ g_type x = VMEM_FREE ∧ g_import x = 0)).
Proof.
  intros Ha HX Hp Hw HSF. assert (seg_ok g) as (G1 & G2 & G3).
  { destruct Ha as [_ Hok _]. rewrite Forall_app, Forall_cons in Hok. tauto. }
  destruct (Z.eqb_spec (uw lp64 (g_hi g)) (uw lp64 p2)) as [E|E].
  - exists v, [], SF, g. split_and!; try done; [lia|]. left. split; [done|].
    apply (mod_eq_close (2 ^ w)); [lia|by symmetry|lia].
  - assert (p2 ≠ g_hi g) by congruence. destruct SF as [|p SF]; [cbn in HSF; lia|].
    destruct (seg_alloc_right _ _ _ _ _ _ _ _ _ p2 Ha HX) as (v1 & -> & Hf & Ha1); [lia|lia|].
    eexists v1, [_], SF, _. split; [done|]. split; [done|]. split; [exact Ha1|]. split_and!; try done.
    right. eexists. split; [done|]. split; [lia|done].
Qed.

Lemma vmem_seg_alloc_ok r v A1 g A2 K SF X lo hi qs :
  arep r v (A1 ++ g :: A2) K SF X → g_ptr g ∈ X → g_type g = VMEM_FREE →
  vm_quantum v = 2 ^ qs → 0 <= qs < w → (2 ^ qs | g_hi g) → g_hi g <= 2 ^ w →
  g_lo g <= lo < hi → hi <= g_hi g → (2 <= length SF)%nat → 0 <= vm_hash_mask v →
  ∃ v' mid SF', vmem_seg_alloc lp64 v (g_ptr g) lo (uw lp64 hi) = Ok v' ∧ conf v' = conf v ∧
    vm_kstat v' = vm_kstat (kadd vk_mem_inuse (hi - lo) (kadd vk_alloc 1 v)) ∧
    arep r v' (A1 ++ mid ++ A2) K SF' (X ∖ {[g_ptr g]}) ∧ splits (2 ^ qs) g lo hi mid ∧ (length SF <= 2 + length SF')%nat.
Proof.
  intros Ha HX Ht Hq Hqs Hdiv Hw Hlo Hhi HSF Hm. assert (seg_ok g) as (G1 & G2 & G3).
  { destruct Ha as [_ Hok _]. rewrite Forall_app, Forall_cons in Hok. tauto. }
  destruct (arep_cell lp64 top _ _ _ _ _ _ g Ha) as (c & Hc & Ec); [set_solver|]. injection Ec as E1 E2 E3 E4.
  unfold vmem_seg_alloc. rewrite Hc. cbn [chk]. rewrite E1, E2, E3, Ht, Hq.
  rewrite P2ROUNDUP_eq by done. destruct (rup_spec (2 ^ qs) hi ltac:(lia)) as [Hrd Hrr].
  pose proof (rup_least (2 ^ qs) hi (g_hi g) ltac:(lia) Hdiv Hhi) as Hrl.
  assert (uw lp64 (rup (2 ^ qs) (uw lp64 hi)) = uw lp64 (rup (2 ^ qs) hi)) as ->.
  { unfold rup. rewrite <- (uw_mod lp64 qs (- uw lp64 hi)), uw_opp, (uw_mod lp64 qs) by done. by rewrite uw_add_l. }
  rewrite !uw_sub_l. rewrite (uw_id lp64 (hi - 1)), (uw_id lp64 (g_hi g - 1)), (uw_id lp64 (lo - 1)) by lia.
  destruct (Z.ltb_spec lo (g_lo g)); [lia|]. rewrite Z.gtb_ltb. destruct (Z.ltb_spec (g_hi g - 1) (hi - 1)); [lia|].
  rewrite Z.geb_leb. destruct (Z.leb_spec (hi - 1) (lo - 1)); [lia|]. cbn [orb negb Z.eqb VMEM_FREE Pos.eqb].
  set (p2 := rup (2 ^ qs) hi) in *.
  destruct (seg_alloc_rest _ _ _ _ _ _ _ _ p2 Ha HX) as (v1 & right & SF1 & g1 & -> & Hf1 & Ha1 & P1 & P2 & P3 & HSF1 & Hright); [lia|done|done|].
  cbn [chk]. destruct (Z.eqb_spec (g_lo g) lo) as [El|El].
  - (* the allocation begins where the segment begins *)
    cbn [chk]. rewrite <- P1. destruct (seg_alloc_commit _ _ _ _ _ _ _ _ hi Ha1) as (v' & -> & Hc' & Hk & Ha2); [by rewrite P1|rewrite P2; lia|by rewrite (conf_mask v v1 (proj1 Hf1))|].
    exists v', (GSeg (g_ptr g1) (g_lo g1) hi VMEM_ALLOC (g_import g1) :: right), SF1. split; [done|]. split; [destruct Hf1; congruence|].
    split; [|split; [done|split; [|lia]]].
    + rewrite Hk, P2, El. cbn. by rewrite (proj2 Hf1).
    + exists [], (GSeg (g_ptr g1) (g_lo g1) hi VMEM_ALLOC (g_import g1)), right. cbn. rewrite P2, P3. split_and!; try done; by left.
  - destruct SF1 as [|p SF2]; [cbn in HSF1; lia|]. cbn [length] in HSF1. rewrite <- P1 in HX |- *.
    destruct (seg_alloc_left _ _ _ _ _ _ _ _ _ lo hi Ha1 HX) as (v2 & -> & Hf2 & Ha2 & HpX); [rewrite P2; lia|lia|]. cbn [chk].
    pose proof (frame_trans _ _ _ Hf1 Hf2) as Hf.
    set (l := GSeg _ _ lo VMEM_FREE _) in Ha2. change (A1 ++ l :: ?x) with (A1 ++ [l] ++ x) in Ha2. rewrite app_assoc in Ha2.
    destruct (seg_alloc_commit _ _ _ _ _ _ _ _ hi Ha2) as (v' & Hcm & Hc' & Hk & Ha3); [cbn; set_solver|cbn; lia|by rewrite (conf_mask v v2 (proj1 Hf))|].
    cbn [g_ptr g_lo] in Hcm, Hk. rewrite Hcm. eexists v', (l :: _ :: right), SF2. split; [done|]. split; [destruct Hf; congruence|].
    split; [rewrite Hk; cbn; by rewrite (proj2 Hf)|]. split; [|split; [|lia]].
    + rewrite <- app_assoc in Ha3. cbn [app] in Ha3 |- *. cbn [g_ptr] in Ha3.
      assert (((X ∖ {[g_ptr g1]}) ∪ {[p]}) ∖ {[p]} = X ∖ {[g_ptr g1]}) as HX'; [apply set_eq; intros y; set_solver|].
      by rewrite HX' in Ha3.
    + eexists [l], _, right. split; [done|]. split; [done|]. split; [done|]. split; [done|]. split; [|done].
      right. exists l. cbn. rewrite P2, P3. split_and!; try done. lia.
Qed.
End alloc.
