(* ===== verification/VmemInv.v ===== *)
(** * VmemInv: the invariant of an arena, allocation and freeing

    An arena is a list of spans, each tiled by its segments.  The search
    finds a segment exactly when there is one, an allocation takes a range
    out of a free segment, and freeing merges it with its free neighbours. *)

From Stdlib Require Import ZArith Lia.
From stdpp Require Import base numbers option list gmap.
From S2P Require Import Prelude Bitmap Vmem VmemRep VmemArena.

#[local] Open Scope Z_scope.

(** ** Spans *)

Record gspan := GSpan {
  s_ptr : sptr;
  s_lo : Z;
  s_hi : Z;
  s_import : Z;
  s_segs : list gseg
}.

Definition marker (s : gspan) : gseg := GSeg (s_ptr s) (s_lo s) (s_hi s) VMEM_SPAN 0.

Fixpoint flat (L : list gspan) : list gseg :=
  match L with
  | [] => []
  | s :: L => marker s :: s_segs s ++ flat L
  end.

Lemma flat_app L1 L2 : flat (L1 ++ L2) = flat L1 ++ flat L2.
Proof. induction L1 as [|s L1 IH]; cbn; [done|]. by rewrite IH, <- app_assoc. Qed.

Lemma elem_flat g L : g ∈ flat L ↔ ∃ s, s ∈ L ∧ (g = marker s ∨ g ∈ s_segs s).
Proof.
  induction L as [|s L IH]; cbn.
  - split; [by intros ?%elem_of_nil|]. by intros (s & ?%elem_of_nil & _).
  - rewrite elem_of_cons, elem_of_app, IH. split.
    + intros [->|[?|(t & Ht & ?)]]; [exists s; split; [by left|by left]|exists s; split; [by left|by right]|exists t; split; [by right|done]].
    + intros (t & [->|Ht]%elem_of_cons & [->|?]); [by left|by right; left|right; right..]; eauto.
Qed.

(** The segments of a span tile it; a free segment ends at a multiple of the
    quantum. *)
Fixpoint tiles (q lo hi : Z) (G : list gseg) : Prop :=
  match G with
  | [] => lo = hi
  | g :: G => g_lo g = lo ∧ lo < g_hi g ∧
      ((g_type g = VMEM_FREE ∧ (q | g_hi g)) ∨ g_type g = VMEM_ALLOC) ∧ tiles q (rup q (g_hi g)) hi G
  end.

(** No two adjacent segments are free. *)
Fixpoint coalesced (G : list gseg) : Prop :=
  match G with
  | g :: ((h :: _) as G) => ¬ (g_type g = VMEM_FREE ∧ g_type h = VMEM_FREE) ∧ coalesced G
  | _ => True
  end.

(** The first segment carries the import flag of the span. *)
Definition imports (i : Z) (G : list gseg) : Prop :=
  match G with
  | [] => True
  | g :: G => g_import g = i ∧ Forall (λ g, g_import g = 0) G
  end.

Lemma tiles_app q lo hi G1 G2 : tiles q lo hi (G1 ++ G2) ↔ ∃ m, tiles q lo m G1 ∧ tiles q m hi G2.
Proof.
  revert lo. induction G1 as [|g G1 IH]; intros lo; cbn.
  - split; [intros; by exists lo|by intros (m & -> & ?)].
  - rewrite IH. split.
    + intros (? & ? & ? & m & ? & ?). exists m. tauto.
    + intros (m & (? & ? & ? & ?) & ?). split_and!; try done. by exists m.
Qed.

Lemma tiles_le q lo hi G : 0 < q → tiles q lo hi G → lo <= hi.
Proof.
  intros Hq. revert lo. induction G as [|g G IH]; intros lo; cbn; [lia|]. intros (<- & H1 & _ & H2).
  apply IH in H2. pose proof (rup_spec q (g_hi g) Hq). lia.
Qed.

Lemma tiles_aligned q lo hi G : 0 < q → (q | lo) → tiles q lo hi G → (q | hi).
Proof.
  intros Hq. revert lo. induction G as [|g G IH]; intros lo Hlo; cbn; [by intros ->|]. intros (_ & _ & _ & H2).
  eapply IH; [|done]. by apply rup_spec.
Qed.

Lemma tiles_elem q lo hi G g :
  0 < q → tiles q lo hi G → g ∈ G →
  lo <= g_lo g < g_hi g ∧ rup q (g_hi g) <= hi ∧ ((g_type g = VMEM_FREE ∧ (q | g_hi g)) ∨ g_type g = VMEM_ALLOC).
Proof.
  intros Hq Ht Hg. apply list_elem_of_split in Hg as (G1 & G2 & ->).
  apply tiles_app in Ht as (m & H1 & (<- & H2 & H3 & H4)). apply tiles_le in H1, H4; try done.
Qed.

Lemma tiles_lo_aligned q lo hi G g : 0 < q → (q | lo) → tiles q lo hi G → g ∈ G → (q | g_lo g).
Proof.
  intros Hq Hlo Ht Hg. apply list_elem_of_split in Hg as (G1 & G2 & ->).
  apply tiles_app in Ht as (m & H1 & (<- & _)). by eapply tiles_aligned.
Qed.

(** Different segments of a span do not meet. *)
Lemma tiles_sep q lo hi G1 g G2 h :
  0 < q → tiles q lo hi (G1 ++ g :: G2) → h ∈ G1 ++ G2 → rup q (g_hi h) <= g_lo g ∨ rup q (g_hi g) <= g_lo h.
Proof.
  intros Hq Ht Hh. apply tiles_app in Ht as (m & H1 & (<- & H2 & H3 & H4)). apply elem_of_app in Hh as [Hh|Hh].
  - left. by destruct (tiles_elem _ _ _ _ _ Hq H1 Hh) as (_ & ? & _).
  - right. destruct (tiles_elem _ _ _ _ _ Hq H4 Hh). lia.
Qed.

Lemma coalesced_app G1 g G2 :
  coalesced (G1 ++ g :: G2) ↔ coalesced (G1 ++ [g]) ∧ coalesced (g :: G2).
Proof.
  induction G1 as [|h G1 IH]; [cbn; tauto|]. destruct G1 as [|h' G1]; cbn [app] in *.
  - cbn. tauto.
  - change (coalesced (h :: h' :: ?x)) with (¬ (g_type h = VMEM_FREE ∧ g_type h' = VMEM_FREE) ∧ coalesced (h' :: x)).
    rewrite IH. tauto.
Qed.

(** Replacing a segment by one of the same kind, or between allocated ones. *)
Lemma coalesced_last G1 g h : coalesced (G1 ++ [g]) → (g_type h = VMEM_FREE → g_type g = VMEM_FREE) → coalesced (G1 ++ [h]).
Proof.
  intros Hc Hh. destruct G1 as [|x G1 _] using rev_ind; [done|]. rewrite <- app_assoc in *. cbn [app] in *.
  apply coalesced_app in Hc as [H1 H2]. apply coalesced_app. split; [done|]. cbn in *. tauto.
Qed.

Lemma coalesced_head g h G2 : coalesced (g :: G2) → (g_type h = VMEM_FREE → g_type g = VMEM_FREE) → coalesced (h :: G2).
Proof. intros Hc Hh. destruct G2 as [|x G2]; [done|]. cbn in *. tauto. Qed.

Lemma coalesced_alloc G1 a G2 : g_type a = VMEM_ALLOC → coalesced G1 → coalesced G2 → coalesced (G1 ++ a :: G2).
Proof.
  intros Ha H1 H2. apply coalesced_app. split.
  - destruct G1 as [|x G1 _] using rev_ind; [done|]. rewrite <- app_assoc. cbn [app]. apply coalesced_app. split; [done|].
    cbn. rewrite Ha. split; [|done]. by intros [_ ?].
  - destruct G2 as [|x G2]; [done|]. split; [|done]. rewrite Ha. by intros [? _].
Qed.

Lemma coalesced_sub_l G1 G2 : coalesced (G1 ++ G2) → coalesced G1.
Proof.
  destruct G2 as [|g G2]; [by rewrite app_nil_r|]. intros [H _]%coalesced_app.
  destruct G1 as [|x G1 _] using rev_ind; [done|]. rewrite <- app_assoc in H. cbn [app] in H. by apply coalesced_app in H as [? _].
Qed.

Lemma coalesced_sub_r G1 G2 : coalesced (G1 ++ G2) → coalesced G2.
Proof.
  induction G1 as [|g G1 IH]; [done|]. cbn [app]. intros H. apply IH. destruct (G1 ++ G2); [done|]. by destruct H.
Qed.

(** An allocation from a free segment. *)
Lemma splits_tiles q g lo hi mid :
  0 < q → splits q g lo hi mid → (q | lo) → (q | g_hi g) → lo < hi → tiles q (g_lo g) (g_hi g) mid.
Proof.
  intros Hq (left & a & right & -> & A1 & A2 & A3 & HL & HR) Hlo Hgh Hlt. apply tiles_app. exists lo. split.
  - destruct HL as [(-> & -> & _)|(l & -> & H1 & H2 & H3 & H4 & _)]; [done|]. cbn.
    rewrite H2, H3. split_and!; try done; [by left|]. by apply rup_id.
  - cbn. rewrite A1, A2. split_and!; try done; [by right|].
    destruct HR as [(-> & H1)|(x & -> & H1 & H2 & H3 & H4 & _)]; [done|]. cbn. rewrite H2, H3. split_and!; try done.
    + by left.
    + by apply rup_id.
Qed.

Lemma splits_coalesced q g lo hi mid G1 G2 :
  splits q g lo hi mid → g_type g = VMEM_FREE → coalesced (G1 ++ g :: G2) → coalesced (G1 ++ mid ++ G2).
Proof.
  intros (left & a & right & -> & A1 & A2 & A3 & HL & HR) Hg Hc. apply coalesced_app in Hc as [H1 H2].
  rewrite <- !app_assoc, <- app_comm_cons, app_assoc. apply coalesced_alloc; [done|..].
  - destruct HL as [(-> & _)|(l & -> & _)]; [rewrite app_nil_r; by apply coalesced_sub_l in H1|]. by apply (coalesced_last _ g).
  - destruct HR as [(-> & _)|(x & -> & _)]; [by apply (coalesced_sub_r [g])|]. by apply (coalesced_head g).
Qed.

Lemma imports_app_mid i G1 g G2 mid :
  imports i (G1 ++ g :: G2) → imports (g_import g) mid → mid ≠ [] → imports i (G1 ++ mid ++ G2).
Proof.
  destruct G1 as [|x G1]; cbn.
  - destruct mid as [|y mid]; [done|]. cbn. intros [<- H1] [H2 H3] _. split; [done|]. rewrite Forall_app. done.
  - rewrite Forall_app, Forall_cons. intros (<- & H1 & H2 & H3) Hm _. split; [done|].
    rewrite !Forall_app. split; [done|]. split; [|done]. destruct mid as [|y mid]; [done|]. destruct Hm as [Hm Hm']. apply Forall_cons. by rewrite Hm.
Qed.

Lemma splits_imports q g lo hi mid : splits q g lo hi mid → imports (g_import g) mid ∧ mid ≠ [].
Proof.
  intros (left & a & right & -> & A1 & A2 & A3 & HL & HR). split; [|by destruct left].
  assert (Forall (λ g, g_import g = 0) right) as Hr.
  { destruct HR as [(-> & _)|(x & -> & _ & _ & _ & _ & ?)]; [constructor|by constructor]. }
  destruct HL as [(-> & _ & ?)|(l & -> & _ & _ & _ & _ & ? & ?)]; cbn; [done|]. split; [done|]. by constructor.
Qed.

(** ** Sums over the segments *)

Definition zsum (l : list Z) : Z := foldr Z.add 0 l.

Lemma zsum_app l1 l2 : zsum (l1 ++ l2) = zsum l1 + zsum l2.
Proof. unfold zsum. rewrite foldr_app. induction l1; cbn; lia. Qed.

Lemma zsum_cons x l : zsum (x :: l) = x + zsum l.
Proof. done. Qed.

Definition alloc_size (g : gseg) : Z := if g_type g =? VMEM_ALLOC then g_size g else 0.
Definition alloc_one (g : gseg) : Z := if g_type g =? VMEM_ALLOC then 1 else 0.

Definition inuse (A : list gseg) : Z := zsum (alloc_size <$> A).
Definition nalloc (A : list gseg) : Z := zsum (alloc_one <$> A).

Lemma inuse_app A B : inuse (A ++ B) = inuse A + inuse B.
Proof. unfold inuse. by rewrite fmap_app, zsum_app. Qed.
Lemma nalloc_app A B : nalloc (A ++ B) = nalloc A + nalloc B.
Proof. unfold nalloc. by rewrite fmap_app, zsum_app. Qed.
Lemma inuse_cons g A : inuse (g :: A) = alloc_size g + inuse A.
Proof. done. Qed.
Lemma nalloc_cons g A : nalloc (g :: A) = alloc_one g + nalloc A.
Proof. done. Qed.

(** The allocated ranges. *)
Definition ranges (A : list gseg) : list (Z * Z) :=
  (λ g, (g_lo g, g_size g)) <$> filter (λ g, g_type g = VMEM_ALLOC) A.

Lemma ranges_app A B : ranges (A ++ B) = ranges A ++ ranges B.
Proof. unfold ranges. by rewrite filter_app, fmap_app. Qed.

Lemma ranges_cons g A : ranges (g :: A) = (if decide (g_type g = VMEM_ALLOC) then [(g_lo g, g_size g)] else []) ++ ranges A.
Proof. unfold ranges. rewrite filter_cons. by destruct (decide _). Qed.

Lemma splits_sums q g lo hi mid :
  splits q g lo hi mid → inuse mid = hi - lo ∧ nalloc mid = 1 ∧ ranges mid = [(lo, hi - lo)].
Proof.
  intros (left & a & right & -> & A1 & A2 & A3 & HL & HR).
  rewrite inuse_app, nalloc_app, ranges_app, inuse_cons, nalloc_cons, ranges_cons.
  assert (alloc_size a = hi - lo ∧ alloc_one a = 1 ∧ g_size a = hi - lo) as (-> & -> & ->) by (unfold alloc_size, alloc_one, g_size; by rewrite A3, A1, A2).
  rewrite decide_True by done. rewrite A1.
  assert (inuse left = 0 ∧ nalloc left = 0 ∧ ranges left = []) as (-> & -> & ->).
  { destruct HL as [(-> & _)|(l & -> & _ & _ & _ & H4 & _)]; [done|]. rewrite ranges_cons, inuse_cons, nalloc_cons. unfold alloc_size, alloc_one. by rewrite H4. }
  assert (inuse right = 0 ∧ nalloc right = 0 ∧ ranges right = []) as (-> & -> & ->).
  { destruct HR as [(-> & _)|(x & -> & _ & _ & _ & H4 & _)]; [done|]. rewrite ranges_cons, inuse_cons, nalloc_cons. unfold alloc_size, alloc_one. by rewrite H4. }
  split_and!; try done; lia.
Qed.

(** ** The invariant *)

Section inv.
Context (lp64 : bool) (top : Z).
Abbreviation w := (VMEM_FREELISTS lp64).
Abbreviation arep := (arep lp64 top).

Record span_ok (q : Z) (s : gspan) : Prop := {
  so_range : 0 < s_lo s < s_hi s ∧ s_hi s <= 2 ^ w;
  so_align : (q | s_lo s) ∧ (q | s_hi s);
  so_tiles : tiles q (s_lo s) (s_hi s) (s_segs s);
  so_coal : coalesced (s_segs s);
  so_imp : imports (s_import s) (s_segs s)
}.

Definition apart (s t : gspan) : Prop := s_hi s <= s_lo t ∨ s_hi t <= s_lo s.

Fixpoint separate (L : list gspan) : Prop :=
  match L with
  | [] => True
  | s :: L => Forall (apart s) L ∧ separate L
  end.

Lemma apart_sym s t : apart s t → apart t s.
Proof. unfold apart. tauto. Qed.

Lemma separate_app L1 s L2 : separate (L1 ++ s :: L2) ↔ separate (L1 ++ L2) ∧ Forall (apart s) (L1 ++ L2).
Proof.
  induction L1 as [|t L1 IH]; cbn; [tauto|]. rewrite IH, !Forall_app, !Forall_cons, Forall_app.
  pose proof (apart_sym s t). pose proof (apart_sym t s). tauto.
Qed.

Definition span_total (L : list gspan) : Z := zsum ((λ s, s_hi s - s_lo s) <$> L).
Definition span_import (L : list gspan) : Z := zsum ((λ s, if s_import s =? 0 then 0 else s_hi s - s_lo s) <$> L).

(** The statistics of the arena. *)
Record stats_ok (ks : vk → Z) (L : list gspan) : Prop := {
  st_inuse : ks vk_mem_inuse = u64 (inuse (flat L));
  st_total : ks vk_mem_total = u64 (span_total L);
  st_import : ks vk_mem_import = u64 (span_import L);
  st_alloc : u64 (ks vk_alloc - ks vk_free) = u64 (nalloc (flat L))
}.

Record arena (r : Z) (v : vmem) (L : list gspan) (SF : list sptr) : Prop := {
  an_rep : arep r v (flat L) (s_ptr <$> L) SF ∅;
  an_quantum : vm_quantum v = 2 ^ vm_qshift v;
  an_qshift : 0 <= vm_qshift v < w;
  an_mask : 0 <= vm_hash_mask v;
  an_spans : Forall (span_ok (vm_quantum v)) L;
  an_sep : separate L;
  an_stats : stats_ok (vm_kstat v) L
}.

Definition set_segs (s : gspan) (G : list gseg) : gspan := GSpan (s_ptr s) (s_lo s) (s_hi s) (s_import s) G.

Lemma flat_mid L1 s L2 : flat (L1 ++ s :: L2) = (flat L1 ++ marker s :: s_segs s) ++ flat L2.
Proof. rewrite flat_app. cbn. by rewrite <- app_assoc. Qed.

Lemma flat_split L1 s L2 G1 g G2 :
  s_segs s = G1 ++ g :: G2 → flat (L1 ++ s :: L2) = (flat L1 ++ marker s :: G1) ++ g :: (G2 ++ flat L2).
Proof. intros E. rewrite flat_mid, E. by rewrite <- !app_assoc, <- !app_comm_cons, <- app_assoc. Qed.

Lemma separate_set_segs L1 s L2 G : separate (L1 ++ s :: L2) → separate (L1 ++ set_segs s G :: L2).
Proof. rewrite !separate_app. done. Qed.

Lemma spans_set_segs L1 s L2 G :
  s_ptr <$> L1 ++ set_segs s G :: L2 = s_ptr <$> L1 ++ s :: L2 ∧
  span_total (L1 ++ set_segs s G :: L2) = span_total (L1 ++ s :: L2) ∧
  span_import (L1 ++ set_segs s G :: L2) = span_import (L1 ++ s :: L2).
Proof. unfold span_total, span_import. by rewrite !fmap_app. Qed.

Lemma arena_q r v L SF : arena r v L SF → 0 < vm_quantum v.
Proof. intros H. rewrite (an_quantum _ _ _ _ H). pose proof (an_qshift _ _ _ _ H). lia. Qed.

(** Segments that start at the same address are the same. *)
Lemma arena_start_inj q L g h :
  0 < q → Forall (span_ok q) L → separate L → g ∈ flat L → h ∈ flat L →
  g_type g = VMEM_ALLOC → g_type h = VMEM_ALLOC → g_lo g = g_lo h → g = h.
Proof.
  intros Hq Hok Hsep (s & Hs & Hg)%elem_flat (t & Ht & Hh)%elem_flat Tg Th Hlo.
  destruct Hg as [->|Hg]; [done|]. destruct Hh as [->|Hh]; [done|].
  pose proof (proj1 (Forall_forall _ _) Hok s Hs) as Os. pose proof (proj1 (Forall_forall _ _) Hok t Ht) as Ot.
  apply list_elem_of_split in Hs as (L1 & L2 & ->). assert (t = s ∨ t ∈ L1 ++ L2) as [->|Ht'] by set_solver.
  - apply list_elem_of_split in Hg as (G1 & G2 & EG). pose proof (so_tiles _ _ Os) as Hti. rewrite EG in *.
    assert (h = g ∨ h ∈ G1 ++ G2) as [->|Hh'] by set_solver; [done|exfalso].
    pose proof (tiles_sep _ _ _ _ _ _ _ Hq Hti Hh'). destruct (tiles_elem _ _ _ _ _ Hq Hti Hh) as (? & _).
    destruct (tiles_elem _ _ _ _ g Hq Hti) as (? & _); [set_solver|].
    pose proof (rup_spec q (g_hi g) Hq). pose proof (rup_spec q (g_hi h) Hq). lia.
  - exfalso. apply separate_app in Hsep as [_ Hsep]. pose proof (proj1 (Forall_forall _ _) Hsep t Ht') as Ha.
    destruct (tiles_elem _ _ _ _ _ Hq (so_tiles _ _ Os) Hg) as (H1 & H2 & _). destruct (tiles_elem _ _ _ _ _ Hq (so_tiles _ _ Ot) Hh) as (H3 & H4 & _).
    pose proof (rup_spec q (g_hi g) Hq). pose proof (rup_spec q (g_hi h) Hq). unfold apart in Ha. lia.
Qed.

Lemma kadd_eq k n v : vm_kstat (kadd k n v) k = u64 (vm_kstat v k + n).
Proof. cbn. by rewrite decide_True. Qed.

Lemma kadd_ne k k' n v : k' ≠ k → vm_kstat (kadd k n v) k' = vm_kstat v k'.
Proof. intros H. cbn. by rewrite decide_False. Qed.

(** ** Taking a range out of a free segment *)

Lemma u64_add x y : u64 (u64 x + y) = u64 (x + y).
Proof. unfold wrapu. by rewrite Zplus_mod_idemp_l. Qed.

Lemma stats_take ks ks' L1 s L2 G1 g G2 mid sz q lo hi :
  stats_ok ks (L1 ++ s :: L2) → s_segs s = G1 ++ g :: G2 → g_type g = VMEM_FREE → splits q g lo hi mid → sz = hi - lo →
  ks' vk_mem_inuse = u64 (ks vk_mem_inuse + sz) → ks' vk_alloc = u64 (ks vk_alloc + 1) →
  (∀ k, k ≠ vk_mem_inuse → k ≠ vk_alloc → ks' k = ks k) →
  stats_ok ks' (L1 ++ set_segs s (G1 ++ mid ++ G2) :: L2).
Proof.
  intros [H1 H2 H3 H4] Es Hg Hsp -> K1 K2 K3. destruct (spans_set_segs L1 s L2 (G1 ++ mid ++ G2)) as (_ & E2 & E3).
  destruct (splits_sums _ _ _ _ _ Hsp) as (S1 & S2 & _).
  assert (alloc_size g = 0 ∧ alloc_one g = 0) as [A1 A2] by (unfold alloc_size, alloc_one; by rewrite Hg).
  assert (inuse (flat (L1 ++ set_segs s (G1 ++ mid ++ G2) :: L2)) = inuse (flat (L1 ++ s :: L2)) + (hi - lo)) as Eu.
  { rewrite !flat_mid, Es. cbn [set_segs s_segs]. rewrite !inuse_app, !inuse_cons, !inuse_app, inuse_cons, S1, A1. unfold marker. cbn. lia. }
  assert (nalloc (flat (L1 ++ set_segs s (G1 ++ mid ++ G2) :: L2)) = nalloc (flat (L1 ++ s :: L2)) + 1) as En.
  { rewrite !flat_mid, Es. cbn [set_segs s_segs]. rewrite !nalloc_app, !nalloc_cons, !nalloc_app, nalloc_cons, S2, A2. unfold marker. cbn. lia. }
  constructor.
  - rewrite K1, H1, Eu. apply u64_add.
  - by rewrite K3, H2, E2.
  - by rewrite K3, H3, E3.
  - rewrite K2, (K3 vk_free) by done. rewrite En. unfold wrapu in *. rewrite Zminus_mod_idemp_l.
    replace (ks vk_alloc + 1 - ks vk_free) with ((ks vk_alloc - ks vk_free) + 1) by lia.
    rewrite <- Zplus_mod_idemp_l, H4. by rewrite Zplus_mod_idemp_l.
Qed.

Lemma xalloc_take_ok r v L1 s L2 SF G1 g G2 x addr :
  arena r v (L1 ++ s :: L2) SF → s_segs s = G1 ++ g :: G2 → g_type g = VMEM_FREE →
  g_lo g <= addr → 0 < x_size x → addr + x_size x <= g_hi g → (vm_quantum v | addr) → (2 <= length SF)%nat →
  ∃ v' mid SF', xalloc_take lp64 v x (g_ptr g) addr = Ok v' ∧ conf v' = conf v ∧
    arena r v' (L1 ++ set_segs s (G1 ++ mid ++ G2) :: L2) SF' ∧ splits (vm_quantum v) g addr (addr + x_size x) mid ∧ (length SF <= 2 + length SF')%nat.
Proof.
  intros Ha Es Hg Hlo Hsz Hhi Hal HSF. pose proof (arena_q _ _ _ _ Ha) as Hq. pose proof Ha as [R Eq Qs Hm Hsp Hsep Hst].
  assert (span_ok (vm_quantum v) s) as Os by (rewrite Forall_app, Forall_cons in Hsp; tauto).
  pose proof (so_tiles _ _ Os) as Hti. rewrite Es in Hti.
  destruct (tiles_elem _ _ _ _ g Hq Hti) as (T1 & T2 & T3); [set_solver|]. destruct T3 as [[_ T3]|T3]; [|by rewrite Hg in T3].
  pose proof (so_range _ _ Os) as Hr. rewrite rup_id in T2 by done.
  pose proof (flat_split L1 s L2 G1 g G2 Es) as Ef. rewrite Ef in R.
  destruct (arep_free_delete lp64 top r v _ g _ _ _ R) as (v1 & Hd & [Hc1 Hk1] & R1); [set_solver|done|set_solver|].
  unfold xalloc_take. rewrite Hd. cbn [chk].
  destruct (vmem_seg_alloc_ok lp64 top _ _ _ _ _ _ _ _ addr (addr + x_size x) (vm_qshift v) R1) as (v' & mid & SF' & Hsa & Hc2 & Hk2 & R2 & Hspl & HSF').
  { set_solver. }
  { done. }
  { by rewrite (conf_quantum v v1). }
  { done. }
  { by rewrite <- Eq. }
  { lia. }
  { lia. }
  { done. }
  { done. }
  { by rewrite (conf_mask v v1). }
  rewrite <- Eq in Hspl. exists v', mid, SF'. split; [done|]. assert (conf v' = conf v) as Hc by congruence. split; [done|]. split; [|done].
  assert ((∅ ∪ {[g_ptr g]}) ∖ {[g_ptr g]} = (∅ : gset sptr)) as EX by set_solver. rewrite EX in R2.
  assert (vm_qshift v' = vm_qshift v) as Eqs by (unfold conf in Hc; by injection Hc).
  constructor.
  - rewrite (proj1 (spans_set_segs L1 s L2 _)), flat_mid. cbn [set_segs s_segs]. unfold marker in *. cbn [set_segs s_ptr s_lo s_hi].
    rewrite <- !app_assoc, <- app_comm_cons, <- !app_assoc in *. done.
  - by rewrite (conf_quantum v v' Hc), Eqs.
  - by rewrite Eqs.
  - by rewrite (conf_mask v v' Hc).
  - rewrite (conf_quantum v v' Hc). rewrite Forall_app, Forall_cons in *. destruct Hsp as (S1 & _ & S2). split; [done|]. split; [|done].
    destruct Os as [O1 O2 O3 O4 O5]. rewrite Es in *. constructor; try done; cbn.
    + apply tiles_app in O3 as (m & M1 & (M2 & M3 & M4 & M5)). apply tiles_app. exists m. split; [done|]. apply tiles_app. exists (g_hi g).
      rewrite rup_id in M5 by done. split; [|done]. rewrite <- M2. apply (splits_tiles _ _ addr (addr + x_size x)); try done. lia.
    + by eapply splits_coalesced.
    + destruct (splits_imports _ _ _ _ _ Hspl). by eapply imports_app_mid.
  - by apply separate_set_segs.
  - eapply (stats_take (vm_kstat v)); try done; rewrite Hk2.
    + by rewrite kadd_eq, kadd_ne, Hk1.
    + by rewrite kadd_ne, kadd_eq, Hk1.
    + intros k H1 H2. by rewrite !kadd_ne, Hk1.
Qed.

(** ** Freeing: coalescing with the neighbours *)

(** The type of the segment before or after a place on the arena list. *)
Definition type_of (o : option gseg) : Z := match o with Some h => g_type h | None => VMEM_SPAN end.

Lemma arep_types r v A1 g A2 K SF X :
  arep r v (A1 ++ g :: A2) K SF X →
  ∃ c cn cp, vm_mem v !! g_ptr g = Some c ∧ seg_dat c = cell_of lp64 g ∧
    vs_anext c = Some (default Seg0 (head (ptrs A2))) ∧ vm_mem v !! default Seg0 (head (ptrs A2)) = Some cn ∧ vs_type cn = type_of (head A2) ∧
    vs_aprev c = Some (lastp (ptrs A1)) ∧ vm_mem v !! lastp (ptrs A1) = Some cp ∧ vs_type cp = type_of (last A1).
Proof.
  intros Ha. destruct (arep_neighbours lp64 top _ _ _ _ _ _ _ _ Ha) as (c & Hc & Ec & Hp & Hn). exists c.
  destruct (arep_seg0 lp64 top _ _ _ _ _ _ Ha) as (c0 & Hc0 & Ht0 & _ & _).
  assert (∃ cn, vm_mem v !! default Seg0 (head (ptrs A2)) = Some cn ∧ vs_type cn = type_of (head A2)) as (cn & Hcn & Htn).
  { destruct A2 as [|h A2]; cbn; [by exists c0|]. destruct (arep_cell lp64 top _ _ _ _ _ _ h Ha) as (ch & Hch & Ech); [set_solver|].
    exists ch. split; [done|]. by injection Ech. }
  assert (∃ cp, vm_mem v !! lastp (ptrs A1) = Some cp ∧ vs_type cp = type_of (last A1)) as (cp & Hcp & Htp).
  { destruct A1 as [|h A1 _] using rev_ind; [by exists c0|]. rewrite lastp_snoc, last_snoc.
    destruct (arep_cell lp64 top _ _ _ _ _ _ h Ha) as (ch & Hch & Ech); [set_solver|]. exists ch. split; [done|]. by injection Ech. }
  exists cn, cp. done.
Qed.

Definition set_hi (g : gseg) (hi : Z) : gseg := GSeg (g_ptr g) (g_lo g) hi (g_type g) (g_import g).

(** "Attempt to coalesce with the next segment." *)
Lemma xfree_next r v A1 g A2 K SF cn :
  arep r v (A1 ++ g :: A2) K SF {[g_ptr g]} → (∀ n, head A2 = Some n → g_type n = VMEM_FREE → g_lo g < g_hi n <= 2 ^ w) →
  vs_type cn = type_of (head A2) →
  ∃ v' A2' SF' hi, (if vs_type cn =? VMEM_FREE then
       let next := default Seg0 (head (ptrs A2)) in
       let! v := vmem_freelist_delete lp64 v next in
       let! cn := vm_mem v !! next in
       let! m := upd (g_ptr g) (set_end (vs_end cn)) (vm_mem v) in
       vmem_seg_destroy (with_mem v m) next
     else Some v) = Some v' ∧ frame v v' ∧ arep r v' (A1 ++ set_hi g hi :: A2') K SF' {[g_ptr g]} ∧ (length SF <= length SF')%nat ∧
    ((A2' = A2 ∧ hi = g_hi g ∧ type_of (head A2) ≠ VMEM_FREE) ∨
     (∃ n, A2 = n :: A2' ∧ g_type n = VMEM_FREE ∧ hi = g_hi n)).
Proof.
  intros Ha Hb Hcn. rewrite Hcn. destruct (Z.eqb_spec (type_of (head A2)) VMEM_FREE) as [E|E].
  2: { exists v, A2, SF, (g_hi g). split; [done|]. split; [done|]. split; [by destruct g|]. split; [done|by left]. }
  destruct A2 as [|n A2]; [done|]. cbn in E. change (default Seg0 (head (ptrs (n :: A2)))) with (g_ptr n). cbv zeta.
  assert (g_ptr n ≠ g_ptr g) as Hne.
  { eapply (ptr_middle A1 g (n :: A2) SF); [by apply (arep_nodup lp64 top _ _ _ _ _ _ Ha)|set_solver]. }
  destruct (arep_free_delete lp64 top r v _ n _ _ _ Ha) as (v1 & -> & Hf1 & Ha1); [set_solver|done|set_solver|].
  destruct (arep_cell lp64 top _ _ _ _ _ _ n Ha1) as (c & -> & Ec); [set_solver|].
  assert (vs_end c = uw lp64 (g_hi n)) as -> by (by injection Ec).
  destruct (arep_set_end lp64 top _ _ _ _ _ _ _ _ (g_hi n) Ha1) as (m & -> & Ha2); [set_solver|by apply Hb|].
  fold (set_hi g (g_hi n)) in Ha2. change (A1 ++ set_hi g (g_hi n) :: ?x) with (A1 ++ [set_hi g (g_hi n)] ++ x) in Ha2. rewrite app_assoc in Ha2.
  destruct (arep_destroy lp64 top _ _ _ _ _ _ _ _ Ha2) as (v2 & Hd & Hf2 & Ha3); [set_solver|].
  exists v2, A2, (g_ptr n :: SF), (g_hi n). split; [done|]. split; [by apply (frame_trans v v1)|].
  rewrite <- app_assoc in Ha3. assert (({[g_ptr g]} ∪ {[g_ptr n]}) ∖ {[g_ptr n]} = ({[g_ptr g]} : gset sptr)) as EX by (apply set_eq; set_solver).
  rewrite EX in Ha3. split; [done|]. split; [cbn; lia|]. right. by exists n.
Qed.

(** "Attempt to coalesce with the previous segment." *)
Lemma xfree_prev r v A1 g A2 K SF cp :
  arep r v (A1 ++ g :: A2) K SF {[g_ptr g]} → g_hi g <= 2 ^ w → (∀ p, last A1 = Some p → g_type p = VMEM_FREE → g_lo p < g_hi g) →
  vs_type cp = type_of (last A1) →
  ∃ v' A1' u SF', (if vs_type cp =? VMEM_FREE then
       let prev := lastp (ptrs A1) in
       let! v := vmem_freelist_delete lp64 v prev in
       let! c := vm_mem v !! g_ptr g in
       let! m := upd prev (set_end (vs_end c)) (vm_mem v) in
       let! v := vmem_seg_destroy (with_mem v m) (g_ptr g) in
       Some (v, prev)
     else Some (v, g_ptr g)) = Some (v', g_ptr u) ∧ frame v v' ∧ arep r v' (A1' ++ u :: A2) K SF' {[g_ptr u]} ∧ (length SF <= length SF')%nat ∧
    ((A1' = A1 ∧ u = g ∧ type_of (last A1) ≠ VMEM_FREE) ∨
     (∃ p, A1 = A1' ++ [p] ∧ g_type p = VMEM_FREE ∧ u = set_hi p (g_hi g))).
Proof.
  intros Ha Hw Hb Hcp. rewrite Hcp. destruct (Z.eqb_spec (type_of (last A1)) VMEM_FREE) as [E|E].
  2: { exists v, A1, g, SF. split; [done|]. split; [done|]. split; [done|]. split; [done|by left]. }
  destruct A1 as [|p A1 _] using rev_ind; [done|]. rewrite last_snoc in E. cbn in E. rewrite lastp_snoc. cbv zeta.
  assert (g_ptr p ≠ g_ptr g) as Hne.
  { eapply (ptr_middle (A1 ++ [p]) g A2 SF); [by apply (arep_nodup lp64 top _ _ _ _ _ _ Ha)|set_solver]. }
  destruct (arep_free_delete lp64 top r v _ p _ _ _ Ha) as (v1 & -> & Hf1 & Ha1); [set_solver|done|set_solver|].
  destruct (arep_cell lp64 top _ _ _ _ _ _ g Ha1) as (c & -> & Ec); [set_solver|].
  assert (vs_end c = uw lp64 (g_hi g)) as -> by (by injection Ec). rewrite <- app_assoc in Ha1. cbn [app] in Ha1.
  destruct (arep_set_end lp64 top _ _ _ _ _ _ _ _ (g_hi g) Ha1) as (m & -> & Ha2); [set_solver|by split; [apply Hb; [by rewrite last_snoc|]|]|].
  fold (set_hi p (g_hi g)) in Ha2. change (A1 ++ set_hi p (g_hi g) :: ?x) with (A1 ++ [set_hi p (g_hi g)] ++ x) in Ha2. rewrite app_assoc in Ha2.
  destruct (arep_destroy lp64 top _ _ _ _ _ _ _ _ Ha2) as (v2 & -> & Hf2 & Ha3); [set_solver|].
  exists v2, A1, (set_hi p (g_hi g)), (g_ptr g :: SF). split; [done|]. split; [by apply (frame_trans v v1)|].
  rewrite <- app_assoc in Ha3. cbn [app] in Ha3.
  assert (({[g_ptr g]} ∪ {[g_ptr p]}) ∖ {[g_ptr g]} = ({[g_ptr p]} : gset sptr)) as EX by (apply set_eq; set_solver).
  rewrite EX in Ha3. split; [done|]. split; [cbn; lia|]. right. by exists p.
Qed.

(** What freeing [g] makes of the segments of its span: [u] is the free
    segment it becomes part of. *)
Definition merges (q : Z) (G1 : list gseg) (g : gseg) (G2 G1' : list gseg) (u : gseg) (G2' : list gseg) : Prop :=
  g_type u = VMEM_FREE ∧
  ((G1' = G1 ∧ type_of (last G1) ≠ VMEM_FREE ∧ g_lo u = g_lo g ∧ g_import u = g_import g) ∨
   (∃ p, G1 = G1' ++ [p] ∧ g_type p = VMEM_FREE ∧ g_lo u = g_lo p ∧ g_import u = g_import p)) ∧
  ((G2' = G2 ∧ type_of (head G2) ≠ VMEM_FREE ∧ g_hi u = rup q (g_hi g)) ∨
   (∃ n, G2 = n :: G2' ∧ g_type n = VMEM_FREE ∧ g_hi u = g_hi n)).

Lemma merges_span q s G1 g G2 G1' u G2' :
  0 < q → span_ok q s → s_segs s = G1 ++ g :: G2 → g_type g = VMEM_ALLOC → merges q G1 g G2 G1' u G2' →
  span_ok q (set_segs s (G1' ++ u :: G2')).
Proof.
  intros Hq [O1 [O2a O2b] O3 O4 O5] Es Hg (Hu & HL & HR). rewrite Es in *. constructor; try done; cbn.
  - apply tiles_app in O3 as (m & M1 & (M2 & M3 & _ & M5)).
    assert (∃ m', tiles q (s_lo s) m' G1' ∧ g_lo u = m' ∧ m' <= g_lo g) as (m' & Hm' & Eu & Hle).
    { destruct HL as [(-> & _ & -> & _)|(p & -> & Hp & -> & _)]; [exists m; split_and!; [done|done|lia]|].
      apply tiles_app in M1 as (m' & M1 & (P2 & P3 & P4 & P5)). exists m'. split_and!; [done|done|]. cbn in P5.
      pose proof (rup_spec q (g_hi p) Hq). lia. }
    apply tiles_app. exists m'. split; [done|]. split; [done|]. destruct (rup_spec q (g_hi g) Hq) as [Rd Rr].
    destruct HR as [(-> & _ & Eh)|(n & -> & Hn & Eh)].
    + rewrite Eh. split; [lia|]. split; [left; done|]. by rewrite (rup_id q (rup q (g_hi g))).
    + destruct M5 as (N1 & N2 & [[_ N3]|N3] & N4); [|by rewrite Hn in N3].
      rewrite <- Eh in N2, N3, N4. split; [lia|]. split; [left; done|done].
  - apply coalesced_app. apply coalesced_app in O4 as [C1 C2]. split.
    + destruct HL as [(-> & Hl & _)|(p & -> & Hp & _)].
      * apply coalesced_sub_l in C1. destruct G1 as [|x G1 _] using rev_ind; [done|]. rewrite last_snoc in Hl.
        rewrite <- app_assoc. cbn [app]. apply coalesced_app. split; [done|]. cbn. split; [|done]. by intros [? _].
      * apply coalesced_sub_l in C1. by apply (coalesced_last _ p).
    + destruct HR as [(-> & Hh & _)|(n & -> & Hn & _)].
      * apply (coalesced_sub_r [g]) in C2. destruct G2 as [|x G2]; [done|]. cbn in *. split; [|done]. by intros [_ ?].
      * apply (coalesced_sub_r [g]) in C2. by apply (coalesced_head n).
  - assert (Forall (λ g, g_import g = 0) G2 → Forall (λ g, g_import g = 0) G2') as H2.
    { destruct HR as [(-> & _)|(n & -> & _)]; [done|]. rewrite Forall_cons. tauto. }
    destruct HL as [(-> & _ & _ & Ei)|(p & -> & _ & _ & Ei)].
    + destruct G1; cbn in *; rewrite ?Forall_app, ?Forall_cons, ?Ei in *; tauto.
    + destruct G1'; cbn in *; rewrite ?Forall_app, ?Forall_cons, ?Ei in *; cbn in *; tauto.
Qed.

Lemma merges_sums q G1 g G2 G1' u G2' :
  merges q G1 g G2 G1' u G2' → g_type g = VMEM_ALLOC →
  inuse (G1 ++ g :: G2) = inuse (G1' ++ u :: G2') + g_size g ∧ nalloc (G1 ++ g :: G2) = nalloc (G1' ++ u :: G2') + 1 ∧
  ranges (G1 ++ g :: G2) ≡ₚ (g_lo g, g_size g) :: ranges (G1' ++ u :: G2').
Proof.
  intros (Hu & HL & HR) Hg. assert (∀ f, g_type f = VMEM_FREE → alloc_size f = 0 ∧ alloc_one f = 0) as Hz.
  { intros f Hf. unfold alloc_size, alloc_one. by rewrite Hf. }
  assert (inuse G1 = inuse G1' ∧ nalloc G1 = nalloc G1' ∧ ranges G1 = ranges G1') as (E1 & E2 & E3).
  { destruct HL as [(-> & _)|(p & -> & Hp & _)]; [done|]. rewrite inuse_app, nalloc_app, ranges_app, inuse_cons, nalloc_cons, ranges_cons.
    destruct (Hz p Hp) as [-> ->]. rewrite decide_False by (by rewrite Hp). cbn. split; [lia|]. split; [lia|]. by rewrite app_nil_r. }
  assert (inuse G2 = inuse G2' ∧ nalloc G2 = nalloc G2' ∧ ranges G2 = ranges G2') as (F1 & F2 & F3).
  { destruct HR as [(-> & _)|(n & -> & Hn & _)]; [done|]. rewrite inuse_cons, nalloc_cons, ranges_cons.
    destruct (Hz n Hn) as [-> ->]. rewrite decide_False by (by rewrite Hn). cbn. split; [lia|]. split; [lia|done]. }
  rewrite !inuse_app, !nalloc_app, !ranges_app, !inuse_cons, !nalloc_cons, !ranges_cons, E1, E2, E3, F1, F2, F3.
  destruct (Hz u Hu) as [-> ->]. assert (alloc_size g = g_size g ∧ alloc_one g = 1) as [-> ->] by (unfold alloc_size, alloc_one; by rewrite Hg).
  split; [lia|]. split; [lia|]. rewrite decide_True by done. rewrite decide_False by (by rewrite Hu). cbn. by rewrite <- Permutation_middle.
Qed.

(** [vmem_span_destroy] for a span that is one segment. *)
Lemma vmem_span_destroy_ok r v A1 s u A2 K1 K2 SF :
  arep r v (A1 ++ marker s :: u :: A2) (K1 ++ s_ptr s :: K2) SF {[g_ptr u]} →
  ∃ v', vmem_span_destroy lp64 v (g_ptr u) = Some v' ∧ conf v' = conf v ∧
    vm_kstat v' = vm_kstat (kadd vk_mem_total (- g_size u) (if g_import u =? 0 then v else kadd vk_mem_import (- g_size u) v)) ∧
    arep r v' (A1 ++ A2) (K1 ++ K2) (s_ptr s :: g_ptr u :: SF) ∅.
Proof.
  intros Ha. change (A1 ++ marker s :: ?x) with (A1 ++ [marker s] ++ x) in Ha. rewrite app_assoc in Ha.
  assert (seg_ok lp64 u) as (U1 & U2 & U3).
  { destruct Ha as [_ Hok _]. rewrite Forall_app, Forall_cons in Hok. tauto. }
  destruct (arep_types _ _ _ _ _ _ _ _ Ha) as (c & cn & cp & Hc & Ec & _ & _ & _ & Hp & _ & _).
  rewrite lastp_snoc in Hp. cbn [marker g_ptr] in Hp. unfold vmem_span_destroy. rewrite Hc, Hp.
  rewrite (vs_size_cell lp64 c u Ec) by lia. assert (vs_import c = g_import u) as -> by (by injection Ec).
  set (v1 := if g_import u =? 0 then v else _). set (v2 := kadd vk_mem_total (- g_size u) v1).
  assert (arep r v2 ((A1 ++ [marker s]) ++ u :: A2) (K1 ++ s_ptr s :: K2) SF {[g_ptr u]}) as Ha2.
  { apply arep_kadd. unfold v1. destruct (_ =? _); [done|by apply arep_kadd]. }
  assert (vm_mem v1 = vm_mem v ∧ conf v2 = conf v) as [Em Ec2] by (unfold v2, v1; by destruct (_ =? _)).
  assert (g_ptr u ≠ s_ptr s) as Hne.
  { intros E. eapply (ptr_middle (A1 ++ [marker s]) u A2 SF (marker s)); [apply (arep_nodup lp64 top _ _ _ _ _ _ Ha2)|set_solver|done]. }
  destruct (arep_span_delete lp64 top r v2 _ K1 K2 SF _ (marker s) Ha2) as (m & Hm & Ha3); [set_solver|done|].
  cbn [g_ptr marker] in Hm, Ha3. change (vm_mem (kadd vk_mem_total (- g_size u) v1)) with (vm_mem v2). rewrite Hm.
  destruct (arep_destroy lp64 top _ _ _ _ _ _ _ _ Ha3) as (v3 & -> & Hf3 & Ha4); [set_solver|].
  rewrite <- app_assoc in Ha4. cbn [app] in Ha4.
  destruct (arep_destroy lp64 top _ _ _ _ _ _ _ _ Ha4) as (v4 & Hd & Hf4 & Ha5); [cbn; set_solver|].
  cbn [g_ptr marker] in Hd, Ha5. exists v4. split; [done|].
  destruct (frame_trans _ _ _ Hf3 Hf4) as [F1 F2]. split; [rewrite F1; exact Ec2|]. split; [rewrite F2; done|].
  assert ((({[g_ptr u]} ∪ {[s_ptr s]}) ∖ {[g_ptr u]}) ∖ {[s_ptr s]} = (∅ : gset sptr)) as EX by set_solver.
  by rewrite EX in Ha5.
Qed.
End inv.
