(* ===== verification/VmemFree.v ===== *)
(** * VmemFree: freeing a range (vmem_xfree)

    Freeing an allocated range gives back exactly that range: the segment
    joins its free neighbours, and an imported span that has become one free
    segment leaves the arena.  A range that is not allocated, or one of a
    different size, is a panic. *)

From Stdlib Require Import ZArith Lia.
From stdpp Require Import base numbers option list gmap.
From S2P Require Import Prelude Bitmap Vmem VmemRep VmemArena VmemInv.

#[local] Open Scope Z_scope.

Section free.
Context (lp64 : bool) (top : Z).
Abbreviation w := (VMEM_FREELISTS lp64).
Abbreviation arep := (arep lp64 top).
Abbreviation arena := (arena lp64 top).

Lemma P2ROUNDUP_uw a x : 0 <= a < w → P2ROUNDUP lp64 (uw lp64 x) (2 ^ a) = uw lp64 (rup (2 ^ a) x).
Proof.
  intros Ha. rewrite <- (P2ROUNDUP_eq lp64 a x Ha). unfold P2ROUNDUP. do 3 f_equal.
  rewrite <- !(Z.sub_0_l). by rewrite uw_sub_r.
Qed.

(** "Round up": the end of the segment becomes a multiple of the quantum. *)
Lemma xfree_round r v A1 g A2 K SF qs :
  arep r v (A1 ++ g :: A2) K SF {[g_ptr g]} → vm_quantum v = 2 ^ qs → 0 <= qs < w → rup (2 ^ qs) (g_hi g) <= 2 ^ w →
  ∃ m, upd (g_ptr g) (λ c, set_end (P2ROUNDUP lp64 (vs_end c) (vm_quantum v)) c) (vm_mem v) = Some m ∧
    arep r (with_mem v m) (A1 ++ set_hi g (rup (2 ^ qs) (g_hi g)) :: A2) K SF {[g_ptr g]}.
Proof.
  intros Ha Eq Hqs Hhi. assert (seg_ok lp64 g) as (U1 & U2 & U3).
  { destruct Ha as [_ Hok _]. rewrite Forall_app, Forall_cons in Hok. tauto. }
  destruct (rup_spec (2 ^ qs) (g_hi g) ltac:(lia)) as [_ Hr]. unfold g_size in U3.
  eapply arep_upd; [exact Ha|done| |left; set_solver|by intros c []|].
  - unfold seg_ok, g_size. cbn. lia.
  - intros c Ec. injection Ec as E1 E2 E3 E4. unfold seg_dat, cell_of. cbn. by rewrite E1, E2, E3, E4, Eq, P2ROUNDUP_uw.
Qed.

Lemma head_flat G L : type_of (head (G ++ flat L)) = type_of (head G).
Proof. by destruct G, L. Qed.

Lemma last_marker B s G : type_of (last (B ++ marker s :: G)) = type_of (last G).
Proof.
  destruct G as [|x G _] using rev_ind; [by rewrite last_snoc|].
  by rewrite app_comm_cons, app_assoc, !last_snoc.
Qed.

(** The neighbours of a freed segment, within its span. *)
Lemma next_free G2 L2 n A2' :
  G2 ++ flat L2 = n :: A2' → g_type n = VMEM_FREE → ∃ G2', G2 = n :: G2' ∧ A2' = G2' ++ flat L2.
Proof.
  destruct G2 as [|x G2]; [|intros [= <- <-] _; eauto]. destruct L2 as [|s L2]; [done|]. by intros [= <- _].
Qed.

Lemma prev_free B s G1 p A1' :
  B ++ marker s :: G1 = A1' ++ [p] → g_type p = VMEM_FREE → ∃ G1', G1 = G1' ++ [p] ∧ A1' = B ++ marker s :: G1'.
Proof.
  destruct G1 as [|x G1 _] using rev_ind.
  - intros [_ E]%app_inj_tail Hp. by subst p.
  - rewrite app_comm_cons, app_assoc. intros [<- <-]%app_inj_tail _. eauto.
Qed.

Lemma xfree_coalesce_ok r v L1 s L2 G1 g G2 K SF qs :
  arep r v ((flat L1 ++ marker s :: G1) ++ g :: (G2 ++ flat L2)) K SF {[g_ptr g]} →
  vm_quantum v = 2 ^ qs → 0 <= qs < w → span_ok lp64 (2 ^ qs) s → s_segs s = G1 ++ g :: G2 →
  ∃ v' G1' u G2' SF', xfree_coalesce lp64 v (g_ptr g) = Ok (v', g_ptr u) ∧ frame v v' ∧
    arep r v' ((flat L1 ++ marker s :: G1') ++ u :: (G2' ++ flat L2)) K SF' {[g_ptr u]} ∧ (length SF <= length SF')%nat ∧
    merges (2 ^ qs) G1 g G2 G1' (with_type u VMEM_FREE) G2'.
Proof.
  intros Ha Eq Hqs [[O0 O1] _ O3 _ _] Es. assert (0 < 2 ^ qs) as Hq by lia. rewrite Es in O3.
  pose proof O3 as O3'. apply tiles_app in O3' as (m0 & M1 & (M2 & M3 & _ & M5)).
  destruct (rup_spec (2 ^ qs) (g_hi g) Hq) as [_ Hr]. pose proof (tiles_le _ _ _ _ Hq M1). pose proof (tiles_le _ _ _ _ Hq M5).
  destruct (xfree_round _ _ _ _ _ _ _ _ Ha Eq Hqs) as (m & Hm & Ha1); [lia|].
  set (g1 := set_hi g (rup (2 ^ qs) (g_hi g))) in *.
  destruct (arep_types lp64 top _ _ _ _ _ _ _ _ Ha1) as (c & cn & _ & Hc & _ & Hn & Hcn & Htn & _). cbn [vm_mem with_mem] in Hc, Hcn.
  unfold xfree_coalesce. rewrite Hm. cbn [chk]. change (g_ptr g) with (g_ptr g1) at 1. rewrite Hc. cbn [chk]. rewrite Hn. cbn [chk]. rewrite Hcn. cbn [chk].
  assert (∀ n, head (G2 ++ flat L2) = Some n → g_type n = VMEM_FREE → g_lo g1 < g_hi n <= 2 ^ w) as Hb.
  { intros n Hd Hf. destruct (G2 ++ flat L2) as [|x A2] eqn:E; [done|]. injection Hd as ->. apply next_free in E as (G2' & -> & _); [|done].
    destruct M5 as (N1 & N2 & N3 & N4). apply tiles_le in N4; [|done]. pose proof (rup_spec (2 ^ qs) (g_hi n) Hq). cbn. lia. }
  destruct (xfree_next lp64 top _ _ _ _ _ _ _ _ Ha1 Hb Htn) as (v2 & A2' & SF2 & hi & Hx & Hf2 & Ha2 & HSF2 & H2). change (g_ptr g1) with (g_ptr g) in Hx. cbv zeta in Hx. rewrite Hx. cbn [chk].
  set (g2 := set_hi g1 hi) in *.
  assert (∃ G2', A2' = G2' ++ flat L2 ∧ rup (2 ^ qs) (g_hi g) <= hi <= 2 ^ w ∧
    ((G2' = G2 ∧ type_of (head G2) ≠ VMEM_FREE ∧ hi = rup (2 ^ qs) (g_hi g)) ∨ (∃ n, G2 = n :: G2' ∧ g_type n = VMEM_FREE ∧ hi = g_hi n))) as (G2' & -> & Hhi & HR).
  { destruct H2 as [(-> & -> & Hne)|(n & E & Hf & ->)].
    - exists G2. rewrite head_flat in Hne. split; [done|]. split; [cbn; lia|]. by left.
    - apply next_free in E as (G2' & -> & ->); [|done]. exists G2'. split; [done|]. destruct M5 as (N1 & N2 & N3 & N4). apply tiles_le in N4; [|done].
      pose proof (rup_spec (2 ^ qs) (g_hi n) Hq). split; [lia|]. right. by exists n. }
  destruct (arep_types lp64 top _ _ _ _ _ _ _ _ Ha2) as (c2 & _ & cp & Hc2 & _ & _ & _ & _ & Hp & Hcp & Htp).
  change (g_ptr g) with (g_ptr g2) at 1. rewrite Hc2. cbn [chk]. rewrite Hp. cbn [chk]. rewrite Hcp. cbn [chk].
  destruct (xfree_prev lp64 top _ _ _ _ _ _ _ cp Ha2) as (v3 & A1' & u & SF3 & Hy & Hf3 & Ha3 & HSF3 & H3); [cbn; lia| |done|].
  { intros p Hl Hf. apply last_Some in Hl as [A1' E]. apply prev_free in E as (G1' & -> & _); [|done].
    apply tiles_app in M1 as (m1 & P1 & (P2 & P3 & P4 & P5)). cbn in P5. pose proof (rup_spec (2 ^ qs) (g_hi p) Hq). cbn. lia. }
  change (g_ptr g2) with (g_ptr g) in Hy. cbv zeta in Hy. rewrite Hy. cbn [chk]. exists v3.
  assert (∃ G1', A1' = flat L1 ++ marker s :: G1' ∧
    ((G1' = G1 ∧ type_of (last G1) ≠ VMEM_FREE ∧ u = g2) ∨ (∃ p, G1 = G1' ++ [p] ∧ g_type p = VMEM_FREE ∧ u = set_hi p (g_hi g2)))) as (G1' & -> & HL).
  { destruct H3 as [(-> & -> & Hne)|(p & E & Hf & ->)].
    - exists G1. rewrite last_marker in Hne. split; [done|]. by left.
    - apply prev_free in E as (G1' & -> & ->); [|done]. exists G1'. split; [done|]. right. by exists p. }
  exists G1', u, G2', SF3. split; [done|]. split; [by eapply frame_trans; [|eapply frame_trans]|]. split; [done|]. split; [lia|].
  assert (g_hi u = hi) as Ehi by (destruct HL as [(_ & _ & ->)|(p & _ & _ & ->)]; done).
  split; [done|]. split.
  - destruct HL as [(-> & ? & ->)|(p & -> & ? & ->)]; [by left|]. right. by exists p.
  - cbn. rewrite Ehi. done.
Qed.
(** An arena from its parts, when one span has changed or has gone. *)
Lemma arena_set_segs r v v' L1 s L2 SF SF' G :
  arena r v (L1 ++ s :: L2) SF → conf v' = conf v →
  arep r v' (flat (L1 ++ set_segs s G :: L2)) (s_ptr <$> L1 ++ s :: L2) SF' ∅ →
  span_ok lp64 (vm_quantum v) (set_segs s G) → stats_ok (vm_kstat v') (L1 ++ set_segs s G :: L2) →
  arena r v' (L1 ++ set_segs s G :: L2) SF'.
Proof.
  intros [R Eq Qs Hm Hsp Hsep Hst] Hc Ha Hs Hk. assert (vm_qshift v' = vm_qshift v) as Eqs by (unfold conf in Hc; by injection Hc).
  constructor; rewrite ?(conf_quantum v v' Hc), ?Eqs, ?(conf_mask v v' Hc); try done.
  - by rewrite (proj1 (spans_set_segs L1 s L2 _)).
  - rewrite Forall_app, Forall_cons in *. tauto.
  - by apply separate_set_segs.
Qed.

Lemma arena_drop r v v' L1 s L2 SF SF' :
  arena r v (L1 ++ s :: L2) SF → conf v' = conf v →
  arep r v' (flat (L1 ++ L2)) (s_ptr <$> L1 ++ L2) SF' ∅ → stats_ok (vm_kstat v') (L1 ++ L2) → arena r v' (L1 ++ L2) SF'.
Proof.
  intros [R Eq Qs Hm Hsp Hsep Hst] Hc Ha Hk. assert (vm_qshift v' = vm_qshift v) as Eqs by (unfold conf in Hc; by injection Hc).
  constructor; rewrite ?(conf_quantum v v' Hc), ?Eqs, ?(conf_mask v v' Hc); try done.
  - rewrite Forall_app, Forall_cons in *. tauto.
  - by apply separate_app in Hsep as [? _].
Qed.

(** The statistics after a free. *)
Lemma stats_free ks ks' L1 s L2 G1 g G2 q G1' u G2' :
  stats_ok ks (L1 ++ s :: L2) → s_segs s = G1 ++ g :: G2 → g_type g = VMEM_ALLOC → merges q G1 g G2 G1' u G2' →
  ks' vk_mem_inuse = u64 (ks vk_mem_inuse - g_size g) → ks' vk_free = u64 (ks vk_free + 1) →
  (∀ k, k = vk_mem_total ∨ k = vk_mem_import ∨ k = vk_alloc → ks' k = ks k) →
  stats_ok ks' (L1 ++ set_segs s (G1' ++ u :: G2') :: L2).
Proof.
  intros [H1 H2 H3 H4] Es Hg Hmg K1 K2 K3. destruct (spans_set_segs L1 s L2 (G1' ++ u :: G2')) as (_ & E2 & E3).
  destruct (merges_sums _ _ _ _ _ _ _ Hmg Hg) as (S1 & S2 & _).
  assert (inuse (flat (L1 ++ set_segs s (G1' ++ u :: G2') :: L2)) = inuse (flat (L1 ++ s :: L2)) - g_size g) as Eu.
  { rewrite !flat_mid, Es. cbn [set_segs s_segs]. rewrite !inuse_app, !(inuse_cons (marker _)), S1. unfold marker. cbn. lia. }
  assert (nalloc (flat (L1 ++ set_segs s (G1' ++ u :: G2') :: L2)) = nalloc (flat (L1 ++ s :: L2)) - 1) as En.
  { rewrite !flat_mid, Es. cbn [set_segs s_segs]. rewrite !nalloc_app, !(nalloc_cons (marker _)), S2. unfold marker. cbn. lia. }
  constructor.
  - rewrite K1, H1, Eu, <- !Z.add_opp_r. apply u64_add.
  - rewrite K3, H2, E2 by tauto. done.
  - rewrite K3, H3, E3 by tauto. done.
  - rewrite K2, (K3 vk_alloc) by tauto. rewrite En. unfold wrapu in *. rewrite Zminus_mod_idemp_r.
    replace (ks vk_alloc - (ks vk_free + 1)) with ((ks vk_alloc - ks vk_free) - 1) by lia.
    rewrite <- Zminus_mod_idemp_l, H4. by rewrite Zminus_mod_idemp_l.
Qed.

Lemma stats_drop ks ks' L1 s L2 :
  stats_ok ks (L1 ++ s :: L2) → inuse (s_segs s) = 0 → nalloc (s_segs s) = 0 →
  ks' vk_mem_total = u64 (ks vk_mem_total - (s_hi s - s_lo s)) →
  ks' vk_mem_import = u64 (ks vk_mem_import - (if s_import s =? 0 then 0 else s_hi s - s_lo s)) →
  (∀ k, k = vk_mem_inuse ∨ k = vk_free ∨ k = vk_alloc → ks' k = ks k) → stats_ok ks' (L1 ++ L2).
Proof.
  intros [H1 H2 H3 H4] Hi Hn K1 K2 K3. rewrite flat_mid in H1, H4. unfold span_total, span_import in *.
  rewrite !fmap_app, !fmap_cons, !zsum_app, !zsum_cons in *. rewrite !inuse_app, inuse_cons, Hi in H1. rewrite !nalloc_app, nalloc_cons, Hn in H4.
  constructor; unfold span_total, span_import; rewrite ?flat_app, ?inuse_app, ?nalloc_app, ?fmap_app, ?zsum_app.
  - rewrite K3, H1 by tauto. f_equal. unfold alloc_size, marker. cbn. lia.
  - rewrite K1, H2, <- Z.add_opp_r, u64_add. f_equal. lia.
  - rewrite K2, H3, <- Z.add_opp_r, u64_add. f_equal. lia.
  - rewrite !K3, H4 by tauto. f_equal. unfold alloc_one, marker. cbn. lia.
Qed.
(** The span goes back to the source when it is imported, the source takes
    spans back, and one free segment is left of it. *)
Definition whole (v : vmem) (s : gspan) (G1 G2 : list gseg) : bool :=
  negb (s_import s =? 0) && vm_source_free v && match G1, G2 with [], [] => true | _, _ => false end.

Definition in_span (G : list gseg) : Prop := Forall (λ h, g_type h ≠ VMEM_SPAN) G.

Lemma tiles_in_span q lo hi G : 0 < q → tiles q lo hi G → in_span G.
Proof.
  intros Hq Ht. apply Forall_forall. intros h Hh. destruct (tiles_elem _ _ _ _ _ Hq Ht Hh) as (_ & _ & [[-> _]| ->]); done.
Qed.

Lemma head_span G : in_span G → (type_of (head G) =? VMEM_SPAN) = match G with [] => true | _ => false end.
Proof. destruct G; [done|]. intros [? _]%Forall_cons. by apply Z.eqb_neq. Qed.

Lemma last_span G : in_span G → (type_of (last G) =? VMEM_SPAN) = match G with [] => true | _ => false end.
Proof.
  destruct G as [|x G _] using rev_ind; [done|]. intros [_ [? _]%Forall_cons]%Forall_app. rewrite last_snoc. cbn. destruct (G ++ [x]) eqn:E; [by destruct G|]. by apply Z.eqb_neq.
Qed.

(** The test of [vmem_xfree] for an entirely free span. *)
Lemma xfree_whole r v L1 s L2 G1 u G2 K SF X :
  arep r v ((flat L1 ++ marker s :: G1) ++ u :: (G2 ++ flat L2)) K SF X → in_span G1 → in_span G2 → imports (s_import s) (G1 ++ u :: G2) →
  ∃ c, vm_mem v !! g_ptr u = Some c ∧ seg_dat c = cell_of lp64 u ∧
    (if negb (vs_import c =? 0) && vm_source_free v then
       let? ap := chk (vs_aprev c) in
       let? cp := chk (vm_mem v !! ap) in
       let? an := chk (vs_anext c) in
       let? cn := chk (vm_mem v !! an) in
       Ok ((vs_type cp =? VMEM_SPAN) && (vs_type cn =? VMEM_SPAN))
     else Ok false) = Ok (whole v s G1 G2).
Proof.
  intros Ha H1 H2 Hi. destruct (arep_types lp64 top _ _ _ _ _ _ _ _ Ha) as (c & cn & cp & Hc & Ec & Hn & Hcn & Htn & Hp & Hcp & Htp).
  exists c. split; [done|]. split; [done|]. assert (vs_import c = g_import u) as -> by (by injection Ec). unfold whole.
  rewrite Hp, Hn. cbn [chk]. rewrite Hcp, Hcn. cbn [chk]. rewrite Htn, Htp, head_flat, last_marker, (head_span G2 H2), (last_span G1 H1).
  destruct G1 as [|x G1]; cbn in Hi.
  - destruct Hi as [-> _]. destruct (_ && _); [|done]. by destruct G2.
  - destruct Hi as [_ Hi]. rewrite Forall_app, Forall_cons in Hi. destruct Hi as (_ & -> & _). cbn. by rewrite andb_false_r.
Qed.

(** Segments of the span around the merged one. *)
Lemma merges_in_span q G1 g G2 G1' u G2' : merges q G1 g G2 G1' u G2' → in_span (G1 ++ g :: G2) → in_span G1' ∧ in_span G2'.
Proof.
  intros (_ & HL & HR). unfold in_span. rewrite Forall_app, Forall_cons. intros (H1 & _ & H2). split.
  - destruct HL as [(-> & _)|(p & -> & _)]; [done|]. by apply Forall_app in H1 as [? _].
  - destruct HR as [(-> & _)|(n & -> & _)]; [done|]. by apply Forall_cons in H2 as [_ ?].
Qed.

(** Only the spans of a [set_segs] that is one free segment are destroyed. *)
Lemma one_segment q s u : 0 < q → span_ok lp64 q (set_segs s [u]) → g_type u = VMEM_FREE → g_lo u = s_lo s ∧ g_hi u = s_hi s ∧ g_import u = s_import s.
Proof.
  intros Hq [_ _ (T1 & T2 & T3 & T4) _ [T5 _]] Hu. cbn in *. destruct T3 as [[_ T3]|T3]; [|by rewrite Hu in T3].
  rewrite rup_id in T4 by done. done.
Qed.
Lemma imports_with_type i G1 u t G2 : imports i (G1 ++ with_type u t :: G2) ↔ imports i (G1 ++ u :: G2).
Proof. destruct G1; cbn; [done|]. by rewrite !Forall_app, !Forall_cons. Qed.

(** The two ends of [vmem_xfree]. *)
Definition freed (r : Z) (v : vmem) (SF : list sptr) (L1 : list gspan) (s : gspan) (L2 : list gspan) (G1 : list gseg) (u : gseg) (G2 : list gseg)
    (v' : vmem) (o : option (Z * Z)) : Prop :=
  conf v' = conf v ∧
  if whole v s G1 G2 then o = Some (s_lo s, s_hi s - s_lo s) ∧ ∃ SF', arena r v' (L1 ++ L2) SF' ∧ (length SF <= length SF')%nat
  else o = None ∧ ∃ SF', arena r v' (L1 ++ set_segs s (G1 ++ u :: G2) :: L2) SF' ∧ (length SF <= length SF')%nat.

Lemma vmem_xfree_ok r v L1 s L2 SF G1 g G2 :
  arena r v (L1 ++ s :: L2) SF → s_segs s = G1 ++ g :: G2 → g_type g = VMEM_ALLOC →
  ∃ v' o G1' u G2', vmem_xfree lp64 v (g_lo g) (g_size g) = Ok (v', o) ∧
    merges (vm_quantum v) G1 g G2 G1' u G2' ∧ freed r v SF L1 s L2 G1' u G2' v' o.
Proof.
  intros Ha Es Hg. pose proof (arena_q _ _ _ _ _ _ Ha) as Hq. pose proof Ha as [R Eq Qs Hm Hsp Hsep Hst].
  assert (span_ok lp64 (vm_quantum v) s) as Os by (rewrite Forall_app, Forall_cons in Hsp; tauto).
  pose proof (flat_split L1 s L2 G1 g G2 Es) as Ef. assert (g ∈ flat (L1 ++ s :: L2)) as Hin by (rewrite Ef; set_solver).
  destruct (arep_hash_delete lp64 top r v _ g _ _ _ R Hin Hg) as (v1 & Hd & Hc1 & Hk1 & R1 & _); [set_solver|done| |].
  { intros h Hh Th E. symmetry. by eapply (arena_start_inj lp64 (vm_quantum v)). }
  unfold vmem_xfree. rewrite Hd. rewrite Ef, (union_empty_l_L {[g_ptr g]}) in R1.
  destruct (xfree_coalesce_ok _ _ _ _ _ _ _ _ _ _ (vm_qshift v) R1) as (v2 & G1' & u & G2' & SF2 & Hco & [Hc2 Hk2] & R2 & HSF2 & Hmg);
    [by rewrite (conf_quantum v v1)|done|by rewrite <- Eq|done|].
  rewrite Hco. rewrite <- Eq in Hmg. pose proof (merges_span _ _ _ _ _ _ _ _ _ Hq Os Es Hg Hmg) as Os2.
  assert (imports (s_import s) (G1' ++ u :: G2')) as Hi by (by apply (imports_with_type _ _ _ VMEM_FREE), (so_imp _ _ _ Os2)).
  destruct (merges_in_span _ _ _ _ _ _ _ Hmg) as [I1 I2]; [rewrite <- Es; by eapply tiles_in_span, so_tiles|].
  destruct (xfree_whole _ _ _ _ _ _ _ _ _ _ _ R2 I1 I2 Hi) as (c & Hc & Ec & Hw). rewrite Hc. cbn [chk]. rewrite Hw.
  assert (conf v2 = conf v) as Hc' by congruence.
  assert (whole v2 s G1' G2' = whole v s G1' G2') as -> by (unfold whole; unfold conf in Hc'; injection Hc' as _ _ _ _ -> _ _ _; done).
  assert (∀ k, k ≠ vk_lookup → vm_kstat v2 k = vm_kstat (kadd vk_mem_inuse (- g_size g) (kadd vk_free 1 v)) k) as Hk by (intros k Hne; rewrite Hk2; by apply Hk1).
  assert (∀ ks, (∀ k, k = vk_mem_inuse ∨ k = vk_free ∨ k = vk_alloc ∨ k = vk_mem_total ∨ k = vk_mem_import → ks k = vm_kstat v2 k) →
    stats_ok ks (L1 ++ set_segs s (G1' ++ with_type u VMEM_FREE :: G2') :: L2)) as Hst2.
  { intros ks Hks. eapply (stats_free (vm_kstat v)); [done..| | |].
    - rewrite Hks by tauto. by rewrite Hk, kadd_eq, kadd_ne.
    - rewrite Hks by tauto. by rewrite Hk, kadd_ne, kadd_eq.
    - intros k Hkk. rewrite Hks by tauto. rewrite Hk by (by destruct Hkk as [->|[-> | ->]]). by destruct Hkk as [->|[-> | ->]]; rewrite !kadd_ne. }
  destruct (whole v s G1' G2') eqn:Ew.
  - assert (G1' = [] ∧ G2' = [] ∧ (s_import s =? 0) = false) as (-> & -> & Ei).
    { unfold whole in Ew. destruct (s_import s =? 0), (vm_source_free v), G1', G2'; done. }
    rewrite <- app_assoc, fmap_app, fmap_cons in R2. cbn [app] in R2.
    destruct (vmem_span_destroy_ok lp64 top _ _ _ _ _ _ _ _ _ R2) as (v3 & Hsd & Hc3 & Hk3 & R3). rewrite Hsd. cbn [chk].
    destruct (one_segment _ _ _ Hq Os2 eq_refl) as (Elo & Ehi & Eim). cbn in Elo, Ehi, Eim.
    assert (g_size u = s_hi s - s_lo s) as Esz by (unfold g_size; by rewrite Elo, Ehi). rewrite Esz, Eim, Ei in Hk3.
    rewrite (vs_size_cell lp64 c u Ec) by (pose proof (so_range _ _ _ Os); lia).
    assert (vs_start c = s_lo s) as -> by (rewrite <- Elo; by injection Ec). rewrite Esz.
    do 5 eexists. split; [done|]. split; [done|]. split; [congruence|]. rewrite Ew. split; [done|]. exists (s_ptr s :: g_ptr u :: SF2). split; [|cbn; lia].
    eapply arena_drop; [exact Ha|congruence|by rewrite flat_app, fmap_app|].
    eapply (stats_drop (vm_kstat v2)); [by apply Hst2|done..| | |]; cbn [s_hi s_lo s_import set_segs]; rewrite Hk3.
    + by rewrite kadd_eq, kadd_ne.
    + by rewrite kadd_ne, kadd_eq, Ei.
    + intros k Hkk. rewrite !kadd_ne; [done|..]; by destruct Hkk as [->|[-> | ->]].
  - destruct (arep_free_insert lp64 top _ _ _ _ _ _ _ _ R2) as (v3 & Hfi & [Hc3 Hk3] & R3); [set_solver|]. rewrite Hfi. cbn [chk].
    do 5 eexists. split; [done|]. split; [done|]. split; [congruence|]. rewrite Ew. split; [done|]. exists SF2. split; [|done].
    eapply arena_set_segs; [exact Ha|congruence| |done|apply Hst2; intros k _; by rewrite Hk3].
    rewrite difference_diag_L in R3. rewrite flat_mid. cbn [set_segs s_segs]. rewrite <- !app_assoc in *. cbn [app] in *. by rewrite <- !app_assoc in *.
Qed.
End free.
