(* ===== verification/VmemSpan.v ===== *)
(** * VmemSpan: adding spans, and the observations of an arena

    [vmem_span_create] and [vmem_add] extend an arena by a free span,
    [vmem_create] makes an empty one; [vmem_contains], [vmem_walk] and
    [vmem_size] report what is there. *)

From Stdlib Require Import ZArith Lia.
From stdpp Require Import base numbers option list gmap.
From S2P Require Import Prelude Bitmap Vmem VmemRep VmemArena VmemInv VmemFree.

#[local] Open Scope Z_scope.

Section span.
Context (lp64 : bool) (top : Z).
Abbreviation w := (VMEM_FREELISTS lp64).
Abbreviation arep := (arep lp64 top).
Abbreviation arena := (arena lp64 top).

(** The test for alignment with the quantum. *)
Lemma aligned_test qs x y : 0 <= qs < w →
  (Z.land (Z.lor x (uw lp64 y)) (uw lp64 (2 ^ qs - 1)) =? 0) = true ↔ (2 ^ qs | x) ∧ (2 ^ qs | y).
Proof.
  intros Hq. pose proof (pow2_w lp64 qs Hq) as Hp. rewrite (uw_id lp64 (2 ^ qs - 1)) by lia.
  replace (2 ^ qs - 1) with (Z.ones qs) by (rewrite Z.ones_equiv; lia).
  rewrite Z.land_lor_distr_l, !Z.land_ones, uw_mod by lia.
  rewrite Z.eqb_eq, Z.lor_eq_0_iff. rewrite <- !Z.mod_divide by lia. done.
Qed.

Definition new_span (p1 p2 : sptr) (vaddr sz import : Z) : gspan :=
  GSpan p1 vaddr (vaddr + sz) import [GSeg p2 vaddr (vaddr + sz) VMEM_FREE import].

(** A span that the arena can take. *)
Record span_fits (q : Z) (L : list gspan) (vaddr sz : Z) : Prop := {
  sf_range : 0 < vaddr ∧ 0 < sz ∧ vaddr + sz <= 2 ^ w;
  sf_align : (q | vaddr) ∧ (q | vaddr + sz);
  sf_apart : Forall (λ t, vaddr + sz <= s_lo t ∨ s_hi t <= vaddr) L
}.

Lemma new_span_ok q L p1 p2 vaddr sz import :
  0 < q → span_fits q L vaddr sz → Forall (span_ok lp64 q) L → separate L →
  Forall (span_ok lp64 q) (L ++ [new_span p1 p2 vaddr sz import]) ∧ separate (L ++ [new_span p1 p2 vaddr sz import]).
Proof.
  intros Hq [[F1 [F2 F3]] [F4 F5] F6] Hok Hsep. split.
  - apply Forall_app. split; [done|]. apply Forall_singleton. constructor; cbn; try done; [lia|]. split_and!; [done|lia|by left|].
    by rewrite rup_id.
  - apply separate_app. rewrite app_nil_r. split; [done|]. apply F6.
Qed.

Lemma stats_add ks ks' L p1 p2 vaddr sz import :
  stats_ok ks L → ks' vk_mem_total = u64 (ks vk_mem_total + sz) →
  ks' vk_mem_import = u64 (ks vk_mem_import + (if import =? 0 then 0 else sz)) →
  (∀ k, k = vk_mem_inuse ∨ k = vk_free ∨ k = vk_alloc → ks' k = ks k) →
  stats_ok ks' (L ++ [new_span p1 p2 vaddr sz import]).
Proof.
  intros [H1 H2 H3 H4] K1 K2 K3. constructor; unfold span_total, span_import; rewrite ?flat_app, ?inuse_app, ?nalloc_app, ?fmap_app, ?zsum_app.
  - rewrite K3, H1 by tauto. f_equal. cbn. lia.
  - rewrite K1, H2, u64_add. f_equal. cbn. unfold span_total. lia.
  - rewrite K2, H3, u64_add. f_equal. cbn. unfold span_import. destruct (import =? 0); lia.
  - rewrite !K3, H4 by tauto. f_equal. cbn. lia.
Qed.
(** The two segments of a new span, before they are on a list of their kin. *)
Lemma span_create_segs r v A K p1 p2 SF vaddr sz :
  arep r v A K (p1 :: p2 :: SF) ∅ → 0 < vaddr → 0 < sz → vaddr + sz <= 2 ^ w →
  ∃ v1 v2, vmem_seg_create v (lastp (ptrs A)) vaddr (uw lp64 (vaddr + sz)) VMEM_SPAN = Some (v1, p1) ∧
    vmem_seg_create v1 p1 vaddr (uw lp64 (vaddr + sz)) VMEM_FREE = Some (v2, p2) ∧ frame v v2 ∧ p1 ≠ p2 ∧
    arep r v2 (A ++ [GSeg p1 vaddr (vaddr + sz) VMEM_SPAN 0; GSeg p2 vaddr (vaddr + sz) VMEM_FREE 0]) K SF ({[p1]} ∪ {[p2]}).
Proof.
  intros Ha H1 H2 H3. rewrite <- (app_nil_r A) in Ha.
  destruct (arep_create lp64 top _ _ _ _ _ _ _ _ vaddr _ (vaddr + sz) VMEM_SPAN Ha eq_refl) as (v1 & E1 & F1 & R1 & _); [by apply seg_ok_intro; lia|].
  set (m := GSeg p1 _ _ _ _) in R1. change (A ++ [m]) with (A ++ [m] ++ []) in R1. rewrite app_assoc in R1.
  destruct (arep_create lp64 top _ _ _ _ _ _ _ _ vaddr _ (vaddr + sz) VMEM_FREE R1 eq_refl) as (v2 & E2 & F2 & R2 & Hp); [by apply seg_ok_intro; lia|].
  rewrite lastp_snoc in E2. exists v1, v2. split; [done|]. split; [done|]. split; [by eapply frame_trans|]. split; [set_solver|].
  rewrite <- app_assoc, (union_empty_l_L {[p1]}) in R2. done.
Qed.

Lemma vmem_span_create_ok r v L p1 p2 SF vaddr sz import :
  arena r v L (p1 :: p2 :: SF) → span_fits (vm_quantum v) L vaddr sz →
  ∃ v', vmem_span_create lp64 v vaddr sz import = Ok (v', p2) ∧ conf v' = conf v ∧
    arena r v' (L ++ [new_span p1 p2 vaddr sz import]) SF.
Proof.
  intros Ha Hf. pose proof (arena_q _ _ _ _ _ _ Ha) as Hq. pose proof Ha as [R Eq Qs Hm Hsp Hsep Hst].
  pose proof Hf as [[F1 [F2 F3]] F4 F5]. unfold vmem_span_create.
  pose proof (proj2 (aligned_test (vm_qshift v) vaddr (vaddr + sz) Qs)) as Ht. rewrite <- Eq in Ht. rewrite (Ht F4). cbn [negb].
  destruct (arep_seg0 lp64 top _ _ _ _ _ _ R) as (c0 & Hc0 & _ & Hap & _). rewrite Hc0. cbn [chk]. rewrite Hap. cbn [chk].
  destruct (span_create_segs _ _ _ _ _ _ _ _ _ R F1 F2 F3) as (v1 & v2 & E1 & E2 & Hf2 & Hne & R2). rewrite E1. cbn [chk]. rewrite E2. cbn [chk].
  destruct (arep_seg0 lp64 top _ _ _ _ _ _ R2) as (c2 & Hc2 & _ & _ & Hkp). rewrite Hc2. cbn [chk]. rewrite Hkp. cbn [chk].
  set (m1 := GSeg p1 _ _ _ _) in R2. set (m2 := GSeg p2 _ _ _ _) in R2.
  destruct (arep_span_insert lp64 top _ _ _ _ _ _ m1 R2) as (m & Hi & R3); [set_solver|cbn; set_solver|done|]. cbn [g_ptr m1] in Hi, R3. rewrite Hi. cbn [chk].
  assert (({[p1]} ∪ {[p2]}) ∖ {[p1]} = ({[p2]} : gset sptr)) as EX by (apply set_eq; set_solver). rewrite EX in R3.
  change (flat L ++ [m1; m2]) with (flat L ++ [m1] ++ m2 :: []) in R3. rewrite app_assoc in R3.
  destruct (arep_free_insert lp64 top _ _ _ _ _ _ _ _ R3) as (v4 & Hfi & Hf4 & R4); [cbn; set_solver|]. cbn [g_ptr m2] in Hfi. rewrite Hfi. cbn [chk].
  cbn [g_ptr m2] in R4. rewrite difference_diag_L in R4.
  destruct (arep_upd lp64 top _ _ _ _ (GSeg p2 vaddr (vaddr + sz) VMEM_FREE import) _ _ _ _ (set_import import) R4 eq_refl) as (m5 & Hu & R5);
    [by apply seg_ok_intro; lia|by right|by intros c []|intros c [= E E3 E4 _]; unfold seg_dat, cell_of; cbn; by rewrite E, E3, E4|].
  cbn [g_ptr with_type m2] in Hu. rewrite Hu. cbn [chk]. eexists. split; [done|].
  assert (conf v4 = conf v ∧ vm_kstat v4 = vm_kstat v) as [Hc4 Hk4] by (exact (frame_trans v v2 v4 Hf2 Hf4)).
  destruct (new_span_ok _ _ p1 p2 _ _ import Hq Hf Hsp Hsep) as [Hs1 Hs2].
  set (v' := kadd _ _ _). assert (conf v' = conf v) as Hc by (unfold v'; destruct (import =? 0); exact Hc4). split; [done|].
  assert (vm_qshift v' = vm_qshift v) as Eqs by (unfold conf in Hc; by injection Hc).
  constructor; rewrite ?(conf_quantum v v' Hc), ?Eqs, ?(conf_mask v v' Hc); try done.
  - rewrite flat_app, fmap_app. rewrite <- app_assoc in R5. cbn [app] in R5. unfold v'. apply arep_kadd. destruct (import =? 0); [exact R5|apply arep_kadd; exact R5].
  - apply (stats_add (vm_kstat v)); [done|..]; unfold v'.
    + rewrite kadd_eq. destruct (import =? 0); cbn; by rewrite Hk4.
    + rewrite kadd_ne by done. destruct (import =? 0) eqn:E; cbn; rewrite ?Hk4; [|done]. rewrite (st_import _ _ Hst), u64_add. f_equal. lia.
    + intros k Hk. destruct (import =? 0); rewrite !kadd_ne by (by destruct Hk as [->|[-> | ->]]); cbn; by rewrite Hk4.
Qed.

(** "misaligned": a span that is not a multiple of the quantum. *)
Lemma vmem_span_create_misaligned r v L SF vaddr sz import :
  arena r v L SF → ¬ ((vm_quantum v | vaddr) ∧ (vm_quantum v | vaddr + sz)) →
  vmem_span_create lp64 v vaddr sz import = Panic Misaligned.
Proof.
  intros [_ Eq Qs _ _ _ _] Hn. unfold vmem_span_create. pose proof (aligned_test (vm_qshift v) vaddr (vaddr + sz) Qs) as Ht.
  rewrite <- Eq in Ht. destruct (_ =? 0); [|done]. exfalso. by apply Hn, Ht.
Qed.
(** ** A new arena *)

Abbreviation W := (Z.to_nat w).

Lemma flist_heads_lookup i : (i <= W)%nat → flist_heads lp64 top !! Flist i = Some (flist_head lp64 top i).
Proof.
  intros Hi. unfold flist_heads. apply elem_of_list_to_map_1.
  - rewrite <- list_fmap_compose. apply (NoDup_fmap_2_strong Flist); [by intros ?? _ _ [= ->]|apply NoDup_seq].
  - apply list_elem_of_fmap. exists i. split; [done|]. apply elem_of_seq. lia.
Qed.

Lemma dll_heads m i n :
  (∀ j, (i <= j < i + n)%nat → nxt Lk m (Flist j) = Some (Flist (S j)) ∧ prv Lk m (Flist (S j)) = Some (Flist j)) →
  dll Lk m (fchain i (replicate n [])).
Proof.
  revert i. induction n as [|n IH]; intros i Hl; [done|]. cbn [replicate fchain app].
  destruct (fchain_head (S i) (replicate n [])) as [l E]. rewrite E. apply dll_cons. destruct (Hl i) as [H1 H2]; [lia|].
  split; [done|]. split; [done|]. rewrite <- E. apply IH. intros j Hj. apply Hl. lia.
Qed.

Lemma concat_nils {A} n : concat (replicate n ([] : list A)) = [].
Proof. induction n; [done|]. cbn. done. Qed.

(** [vmem_create] makes an empty arena. *)
Lemma vmem_create_ok quantum qs afunc ffunc sq qcache_max :
  quantum = 2 ^ qs → 0 <= qs < w → arena 0 (vmem_create lp64 top quantum afunc ffunc sq qcache_max) [] [].
Proof.
  intros Eq Hqs. pose proof (pow2_w lp64 qs Hqs) as Hp. set (v := vmem_create _ _ _ _ _ _ _).
  assert (vm_qshift v = qs) as Eqs.
  { cbn. rewrite Eq, highbit_log2 by (destruct lp64; exact Hp). rewrite Z.log2_pow2 by lia. lia. }
  assert (∀ i, (i <= W)%nat → vm_mem v !! Flist i = Some (flist_head lp64 top i)) as Hfl.
  { intros i Hi. cbn. rewrite lookup_insert_ne by done. by apply flist_heads_lookup. }
  assert (vm_mem v !! Seg0 = Some (VmemSeg 0 0 (Some Seg0) (Some Seg0) (Some Seg0) (Some Seg0) VMEM_SPAN 0)) as H0 by (cbn; by rewrite lookup_insert_eq).
  constructor; rewrite ?Eqs; try done.
  - constructor; [|constructor|by intros ? ?%elem_of_empty]. exists (replicate W []), (replicate 64 []). split; [|split].
    + constructor; [|done|].
      * constructor; rewrite ?concat_nils; try done.
        -- unfold dat. by rewrite H0.
        -- intros i Hi. unfold dat. rewrite Hfl by done. unfold flist_head, flist_end. cbn. by rewrite Z.shiftl_1_l.
        -- by intros g ?%elem_of_nil.
        -- apply NoDup_nil_2.
        -- apply NoDup_nil_2.
        -- split; [unfold nxt; by rewrite H0|]. split; [unfold prv; by rewrite H0|done].
        -- split; [unfold nxt; by rewrite H0|]. split; [unfold prv; by rewrite H0|done].
        -- apply dll_heads. intros j Hj. unfold nxt, prv. rewrite !Hfl by lia. unfold flist_head. cbn. split; [|done].
           rewrite (proj2 (Nat.eqb_neq j W)) by lia. done.
        -- by rewrite length_replicate.
        -- unfold nxt. rewrite Hfl by lia. unfold flist_head. cbn. by rewrite Nat.eqb_refl.
        -- cbn. repeat constructor.
      * split; [done|]. intros i. cbn [vm_freemap v vmem_create]. rewrite Z.bits_0. destruct (replicate W [] !! i) as [l|] eqn:E; [|done].
        apply lookup_replicate in E as [-> _]. done.
    + constructor.
      * intros p. split; [by intros ?%elem_of_nil|]. by intros (g & ?%elem_of_nil & _).
      * intros i l p [-> _]%lookup_replicate. split; [by intros ?%elem_of_nil|]. by intros (g & ?%elem_of_nil & _).
      * intros i l p [-> _]%lookup_replicate. split; [by intros ?%elem_of_nil|]. by intros (g & ?%elem_of_nil & _).
    + by rewrite length_replicate.
Qed.
End span.
