(* ===== verification/VmemSearch.v ===== *)
(** * VmemSearch: the search of vmem_xalloc

    What the search through the free lists finds: a segment yields the least
    address in it that meets the request, first fit takes the first segment
    that yields one, best fit a smallest, and a search that finds nothing has
    looked at every segment of the lists from the first one on. *)

From Stdlib Require Import ZArith Lia.
From stdpp Require Import base numbers option list gmap.
From S2P Require Import Prelude Bitmap Vmem VmemRep VmemArena VmemInv VmemFree.

#[local] Open Scope Z_scope.

(** ** A place for the request in a range *)

Section place.
Context (lp64 : bool).
Abbreviation w := (VMEM_FREELISTS lp64).

(** The upper limit; [NULL] is none. *)
Definition x_limit (x : xargs) : Z := if x_maxaddr x =? 0 then 2 ^ w else x_maxaddr x.

(** [addr] meets the request within [[lo, hi)]. *)
Record meets (x : xargs) (lo hi addr : Z) : Prop := {
  mt_lo : lo <= addr ∧ x_minaddr x <= addr;
  mt_hi : addr + x_size x <= hi ∧ addr + x_size x <= x_limit x;
  mt_phase : addr `mod` x_align x = x_phase x;
  mt_cross : x_nocross x = 0 ∨ addr / x_nocross x = (addr + x_size x - 1) / x_nocross x
}.

(** Requests as the comment at the head of vmem.c describes them, with size,
    alignment and boundary together not beyond the address space: the code
    computes with their sums ([rq_width]), and does not check them. *)
Record request (q : Z) (x : xargs) : Prop := {
  rq_size : 0 < x_size x;
  rq_align : ∃ a, 0 <= a < w ∧ x_align x = 2 ^ a;
  rq_phase : 0 <= x_phase x < x_align x;
  rq_nocross : x_nocross x = 0 ∨ (∃ n, 0 <= n < w ∧ x_nocross x = 2 ^ n ∧ x_align x <= x_nocross x ∧ x_phase x + x_size x <= x_nocross x);
  rq_quantum : (q | x_align x) ∧ (q | x_phase x);
  rq_limits : 0 <= x_minaddr x < x_limit x ∧ x_limit x <= 2 ^ w;
  rq_width : x_align x + x_nocross x + x_size x <= 2 ^ w
}.

(** The first address from [start] on with the phase. *)
Definition phase_up (start a ph : Z) : Z := start + (ph - start) `mod` a.

Lemma phase_up_spec start a ph :
  0 <= ph < a → start <= phase_up start a ph < start + a ∧ (phase_up start a ph) `mod` a = ph ∧
  ∀ y, start <= y → y `mod` a = ph → phase_up start a ph <= y.
Proof.
  intros Hp. unfold phase_up. pose proof (Z.mod_pos_bound (ph - start) a ltac:(lia)) as Hb. split; [lia|]. split.
  - rewrite Zplus_mod_idemp_r. replace (start + (ph - start)) with ph by lia. by apply Z.mod_small.
  - intros y Hy Hm. assert ((ph - start) `mod` a = (y - start) `mod` a) as -> by (rewrite <- Hm, Zminus_mod_idemp_l; done).
    pose proof (Z.mod_le (y - start) a ltac:(lia) ltac:(lia)). lia.
Qed.

(** [taddr] moved past the next boundary. *)
Lemma cross_up t a n ph :
  0 < a → (a | n) → 0 < n → 0 <= ph < a → t `mod` a = ph → t + rup a ((- t) `mod` n) = rup n t + ph.
Proof.
  intros Ha Han Hn Hp Hm. unfold rup. rewrite Z.add_assoc. f_equal.
  assert ((- ((- t) `mod` n)) `mod` a = t `mod` a) as E; [|by rewrite E].
  destruct Han as [k ->]. rewrite <- (Z.sub_0_l ((- t) `mod` _)), Zminus_mod.
  rewrite (Z.mod_mod_divide (- t) (k * a) a) by (by exists k). rewrite <- Zminus_mod. f_equal. lia.
Qed.

Lemma cross_bound t a n ph : 0 < a → (a | n) → 0 < n → t `mod` a = ph → rup n t + ph <= t + n.
Proof.
  intros Ha [j Hj] Hn Hm. destruct (rup_spec n t Hn) as [[k Hk] Hr]. rewrite Hk in *.
  assert ((k - 1) * j <= t / a) by (apply Z.div_le_lower_bound; nia). pose proof (Z.div_mod t a ltac:(lia)). nia.
Qed.

(** Two addresses in different blocks of [n]. *)
Lemma crosses t sz n : 0 < n → 0 < sz → t / n ≠ (t + sz - 1) / n → rup n t < t + sz ∧ (t < rup n t ∨ n < sz).
Proof.
  intros Hn Hs Hne. destruct (rup_spec n t Hn) as [[k Hk] Hr]. rewrite Hk in *.
  assert (k * n <= t + sz - 1) as H1.
  { destruct (decide (k * n <= t + sz - 1)); [done|]. exfalso. apply Hne.
    rewrite <- (Z.div_unique t n (k - 1) (t - (k - 1) * n)) by lia. apply (Z.div_unique (t + sz - 1) n (k - 1) (t + sz - 1 - (k - 1) * n)); lia. }
  split; [lia|]. destruct (decide (t < k * n)); [by left|right]. assert (t = k * n) as -> by lia.
  destruct (decide (n < sz)); [done|]. exfalso. apply Hne. rewrite Z.div_mul by lia.
  apply (Z.div_unique _ n k (sz - 1)); lia.
Qed.
(** The address the search tries, from [start] on. *)
Definition try_addr (x : xargs) (start : Z) : Z :=
  let t := phase_up start (x_align x) (x_phase x) in
  if (x_nocross x =? 0) || (t / x_nocross x =? (t + x_size x - 1) / x_nocross x) then t
  else rup (x_nocross x) t + x_phase x.

Lemma pow2_divides a n : 0 <= a → 0 <= n → 2 ^ a <= 2 ^ n → (2 ^ a | 2 ^ n).
Proof. intros Ha Hn Hle. apply Z.pow_le_mono_r_iff in Hle; [|lia|lia]. exists (2 ^ (n - a)). rewrite <- Z.pow_add_r by lia. f_equal. lia. Qed.

(** It is the least address that meets the request, whatever comes after. *)
Lemma try_addr_least q x start :
  request q x → let t := try_addr x start in
  start <= t < start + x_align x + x_nocross x ∧ t `mod` x_align x = x_phase x ∧
  (x_nocross x = 0 ∨ t / x_nocross x = (t + x_size x - 1) / x_nocross x) ∧
  ∀ y, start <= y → y `mod` x_align x = x_phase x → (x_nocross x = 0 ∨ y / x_nocross x = (y + x_size x - 1) / x_nocross x) → t <= y.
Proof.
  intros [Rs (a & Ha & Ea) Rp Rn _ _ _] t. destruct (phase_up_spec start _ _ Rp) as (P1 & P2 & P3). unfold t, try_addr. set (t0 := phase_up _ _ _) in *.
  destruct (Z.eqb_spec (x_nocross x) 0) as [E0|N0]; cbn [orb].
  { rewrite E0. split_and!; [lia|lia|done|by left|]. intros y Hy Hm _. by apply P3. }
  destruct Rn as [?|(n & Hn & En & Hle & Hps)]; [done|]. assert (0 < x_nocross x) as Hnp by (rewrite En; lia).
  destruct (Z.eqb_spec (t0 / x_nocross x) ((t0 + x_size x - 1) / x_nocross x)) as [Ec|Nc].
  { split_and!; [lia|lia|done|by right|]. intros y Hy Hm _. by apply P3. }
  destruct (crosses _ _ _ Hnp Rs Nc) as [C1 [C2|C2]]; [|lia]. destruct (rup_spec _ t0 Hnp) as [Rd Rr].
  assert ((x_align x | x_nocross x)) as Hd by (rewrite Ea, En in *; apply pow2_divides; lia).
  assert ((rup (x_nocross x) t0 + x_phase x) `mod` x_align x = x_phase x) as Hm.
  { rewrite Zplus_mod, (proj2 (Z.mod_divide (rup (x_nocross x) t0) (x_align x) ltac:(lia))) by (by eapply Z.divide_trans).
    rewrite Z.add_0_l, Z.mod_mod by lia. by apply Z.mod_small. }
  destruct Rd as [k Hk]. rewrite Hk in *. split_and!; [lia| |done| |].
  - pose proof (cross_bound t0 (x_align x) _ _ ltac:(lia) Hd Hnp P2) as Hcb. rewrite Hk in Hcb. lia.
  - right. rewrite Z.div_add_l by lia. rewrite (Z.div_small (x_phase x)) by lia.
    replace (k * x_nocross x + x_phase x + x_size x - 1) with (k * x_nocross x + (x_phase x + x_size x - 1)) by lia.
    rewrite Z.div_add_l by lia. rewrite Z.div_small by lia. done.
  - intros y Hy Hym [?|Hyc]; [done|]. pose proof (P3 y Hy Hym) as Hty.
    assert (k * x_nocross x <= y) as Hky.
    { destruct (decide (k * x_nocross x <= y)); [done|]. exfalso.
      assert (y / x_nocross x < k) by (apply Z.div_lt_upper_bound; lia).
      assert (k <= (y + x_size x - 1) / x_nocross x) by (apply Z.div_le_lower_bound; lia). lia. }
    destruct (phase_up_spec (k * x_nocross x) _ _ Rp) as (_ & _ & Q3). pose proof (Q3 y Hky Hym) as Hq. unfold phase_up in Hq.
    assert ((x_phase x - k * x_nocross x) `mod` x_align x = x_phase x) as Eq; [|lia].
    rewrite Zminus_mod, (proj2 (Z.mod_divide (k * x_nocross x) (x_align x) ltac:(lia))) by (eapply Z.divide_trans; [exact Hd|by exists k]).
    rewrite Z.sub_0_r, Z.mod_mod, Z.mod_small by lia. done.
Qed.
Lemma uw_pred x : 0 <= x <= 2 ^ w → uw lp64 (uw lp64 x - 1) = if x =? 0 then 2 ^ w - 1 else x - 1.
Proof.
  intros Hx. rewrite uw_sub_l. destruct (Z.eqb_spec x 0) as [->|]; [|by apply uw_id; lia].
  pose proof (w_pos lp64). unfold uw, wrapu. symmetry. apply Z.mod_unique with (-1); [left|]; unfold VMEM_FREELISTS in *; lia.
Qed.

(** The address computed with words, as far as it stays below the limit. *)
Lemma try_addr_words q x start (e : Z) :
  request q x → 0 < start < e → e <= 2 ^ w →
  let taddr := P2PHASEUP lp64 start (x_align x) (x_phase x) in
  let taddr := if P2CROSS lp64 taddr (uw lp64 (taddr + x_size x - 1)) (x_nocross x)
               then uw lp64 (taddr + P2ROUNDUP lp64 (P2NPHASE lp64 taddr (x_nocross x)) (x_align x)) else taddr in
  (if uw lp64 (uw lp64 (taddr - start) + x_size x) >? e - start then None else Some taddr) =
  (if try_addr x start + x_size x <=? e then Some (try_addr x start) else None).
Proof.
  intros Hrq Hs He t0' t'. pose proof Hrq as [Rs (a & Ha & Ea) Rp Rn _ _ Rw]. destruct (phase_up_spec start _ _ Rp) as (P1 & P2 & P3).
  destruct (try_addr_least q x start Hrq) as (T1 & _). set (t0 := phase_up start _ _) in *.
  assert (t0' = uw lp64 t0) as E0 by (unfold t0', t0, phase_up; rewrite Ea; by apply P2PHASEUP_eq).
  assert (∃ τ, t' = uw lp64 τ ∧ t0 <= τ < start + x_align x + x_nocross x ∧ (t0 + x_size x <= 2 ^ w → τ = try_addr x start)) as (τ & Et & Hτ & Hno).
  { unfold t', try_addr. fold t0. rewrite E0. replace (uw lp64 t0 + x_size x - 1) with (uw lp64 t0 + (x_size x - 1)) by lia. rewrite uw_add_l.
    destruct Rn as [Rn|(n & Hn & En & Hle & Hps)].
    - rewrite Rn, P2CROSS_0 by apply uw_range. exists t0. split; [done|]. split; [lia|done].
    - assert (0 < x_nocross x) as Hnp by (rewrite En; lia). assert ((x_align x | x_nocross x)) as Hd by (rewrite Ea, En in *; apply pow2_divides; lia).
      pose proof (cross_bound t0 (x_align x) _ _ ltac:(lia) Hd Hnp P2). destruct (rup_spec _ t0 Hnp) as [_ Rr]. rewrite (proj2 (Z.eqb_neq (x_nocross x) 0)) by lia.
      pose proof (P2CROSS_eq lp64 n (uw lp64 t0) (uw lp64 (t0 + (x_size x - 1))) Hn ltac:(apply uw_range) ltac:(apply uw_range)) as Hx. rewrite <- En in Hx. rewrite Hx. cbn [orb].
      assert (uw lp64 (uw lp64 t0 + P2ROUNDUP lp64 (P2NPHASE lp64 (uw lp64 t0) (x_nocross x)) (x_align x)) = uw lp64 (rup (x_nocross x) t0 + x_phase x)) as ->.
      { rewrite <- (cross_up t0 (x_align x)) by (done || lia). rewrite Ea, En, P2ROUNDUP_eq, P2NPHASE_eq by done.
        rewrite uw_add_l, uw_add_r. do 3 f_equal. by rewrite <- (uw_mod lp64 n), uw_opp, uw_mod by done. }
      destruct (decide (t0 + x_size x <= 2 ^ w)) as [Hin|Hout].
      + rewrite (uw_id lp64 t0), (uw_id lp64 (t0 + (x_size x - 1))) by lia. replace (t0 + (x_size x - 1)) with (t0 + x_size x - 1) by lia.
        destruct (t0 / x_nocross x =? (t0 + x_size x - 1) / x_nocross x); cbn.
        * exists t0. rewrite (uw_id lp64 t0) by lia. split; [done|]. split; [lia|done].
        * exists (rup (x_nocross x) t0 + x_phase x). split; [done|]. split; [lia|done].
      + destruct (negb _); [exists (rup (x_nocross x) t0 + x_phase x)|exists t0]; (split; [done|]; split; [lia|lia]). }
  rewrite Et, uw_sub_l, (uw_id lp64 (τ - start)), (uw_id lp64 (τ - start + x_size x)), Z.gtb_ltb by lia.
  assert (t0 <= try_addr x start) as Hge.
  { unfold try_addr. fold t0. destruct (_ || _) eqn:E; [done|]. apply orb_false_iff in E as [E%Z.eqb_neq _].
    destruct Rn as [?|(n & Hn & En & _)]; [done|]. destruct (rup_spec (x_nocross x) t0) as [_ ?]; [rewrite En; lia|lia]. }
  destruct (decide (t0 + x_size x <= 2 ^ w)) as [Hin|Hout].
  - rewrite (Hno Hin) in *. destruct (Z.leb_spec (try_addr x start + x_size x) e) as [H1|H1].
    + rewrite (proj2 (Z.ltb_ge _ _)) by lia. by rewrite uw_id by lia.
    + by rewrite (proj2 (Z.ltb_lt _ _)) by lia.
  - rewrite (proj2 (Z.ltb_lt _ _)), (proj2 (Z.leb_gt _ _)) by lia. done.
Qed.

(** What a free segment yields. *)
Lemma candidate_eq q x c lo hi :
  request q x → vs_start c = lo → vs_end c = uw lp64 hi → 0 < lo < hi → hi <= 2 ^ w →
  candidate lp64 x c =
    let t := try_addr x (Z.max lo (x_minaddr x)) in
    if t + x_size x <=? Z.min hi (x_limit x) then Some t else None.
Proof.
  intros Hrq Hlo Hhi Hl Hw. pose proof (rq_limits _ _ Hrq) as [Rl1 Rl2]. destruct (try_addr_least q x (Z.max lo (x_minaddr x)) Hrq) as (T1 & _).
  pose proof (rq_size _ _ Hrq). unfold candidate. rewrite Hlo, Hhi, (uw_pred hi) by lia. rewrite (proj2 (Z.eqb_neq hi 0)) by lia.
  assert (uw lp64 (x_maxaddr x - 1) = x_limit x - 1) as ->.
  { unfold x_limit in *. destruct (Z.eqb_spec (x_maxaddr x) 0) as [->|]; [|apply uw_id; lia].
    pose proof (uw_pred 0 ltac:(lia)) as E. rewrite (uw_id lp64 0) in E by lia. done. }
  cbv zeta. destruct (Z.ltb_spec (hi - 1) (x_minaddr x)); [by rewrite (proj2 (Z.leb_gt _ _)) by lia|]. rewrite Z.gtb_ltb.
  destruct (Z.ltb_spec (x_limit x - 1) lo); [by rewrite (proj2 (Z.leb_gt _ _)) by lia|].
  assert (uw lp64 (uw lp64 (Z.min (hi - 1) (x_limit x - 1) + 1) - Z.max lo (x_minaddr x)) = Z.min hi (x_limit x) - Z.max lo (x_minaddr x)) as ->.
  { rewrite uw_sub_l. replace (Z.min (hi - 1) (x_limit x - 1) + 1) with (Z.min hi (x_limit x)) by lia. apply uw_id. lia. }
  rewrite <- (try_addr_words q x (Z.max lo (x_minaddr x)) (Z.min hi (x_limit x)) Hrq); [done|lia|lia].
Qed.

(** It is the least address of the segment that meets the request, and there
    is one when there is such an address. *)
Lemma candidate_least q x c lo hi :
  request q x → vs_start c = lo → vs_end c = uw lp64 hi → 0 < lo < hi → hi <= 2 ^ w →
  match candidate lp64 x c with
  | Some a => meets x lo hi a ∧ ∀ b, meets x lo hi b → a <= b
  | None => ∀ b, ¬ meets x lo hi b
  end.
Proof.
  intros Hrq Hlo Hhi Hl Hw. rewrite (candidate_eq q x c lo hi) by done. cbv zeta.
  destruct (try_addr_least q x (Z.max lo (x_minaddr x)) Hrq) as (T1 & T2 & T3 & T4). set (t := try_addr _ _) in *.
  destruct (Z.leb_spec (t + x_size x) (Z.min hi (x_limit x))).
  - split; [by constructor; [lia|lia|done|done]|]. intros b [B1 B2 B3 B4]. apply T4; [lia|done|done].
  - intros b [B1 B2 B3 B4]. pose proof (T4 b ltac:(lia) B3 B4). lia.
Qed.
End place.

(** ** The search through the free lists *)

Section search.
Context (lp64 : bool) (top : Z).
Abbreviation w := (VMEM_FREELISTS lp64).
Abbreviation W := (Z.to_nat w).

(** What a segment in memory yields, and its size. *)
Definition cand (m : mem) (x : xargs) (p : sptr) : option Z := m !! p ≫= candidate lp64 x.
Definition psize (m : mem) (p : sptr) : Z := default 0 (VS_SIZE lp64 <$> m !! p).

(** What the search may return, on lists [F] from list [f] on. *)
Definition search_post (m : mem) (x : xargs) (F : list (list sptr)) (f : nat) (o : option (sptr * Z)) : Prop :=
  match o with
  | Some (p, a) =>
      ∃ i l, (f <= i)%nat ∧ F !! i = Some l ∧ p ∈ l ∧ cand m x p = Some a ∧
        (flag (x_vmflag x) VM_BESTFIT = true →
           (∀ j l' q, (f <= j < i)%nat → F !! j = Some l' → q ∈ l' → cand m x q = None) ∧
           (∀ q, q ∈ l → is_Some (cand m x q) → psize m p <= psize m q ∨ psize m p = x_size x))
  | None => ∀ i l q, (f <= i)%nat → F !! i = Some l → q ∈ l → cand m x q = None
  end.

Context {r : Z} {v : vmem} {A : list gseg} {K : list sptr} {F H : list (list sptr)} {SF : list sptr}.
Context (R : rep lp64 top r v A K F H SF).
Context (Hst : ∀ i l p, F !! i = Some l → p ∈ l → ∃ c, vm_mem v !! p = Some c ∧ vs_start c ≠ 0).
Abbreviation m := (vm_mem v).

Lemma fchain_next i l1 l2 :
  F !! i = Some (l1 ++ l2) → nxt Lk m (List.last l1 (Flist i)) = Some (hd (Flist (S i)) l2).
Proof.
  intros Hi. destruct (fchain_split 0 F i _ Hi) as (c1 & c2 & E & _). cbn in E.
  pose proof (r_f _ _ _ _ _ _ _ _ _ _ (rp_mem _ _ _ _ _ _ _ _ _ R)) as Hd. rewrite E in Hd.
  assert (∃ l0, Flist i :: l1 = l0 ++ [List.last l1 (Flist i)]) as [l0 E0].
  { destruct l1 as [|x l1 _] using rev_ind; [by exists []|]. exists (Flist i :: l1). by rewrite List.last_last. }
  assert (∃ l3, l2 ++ Flist (S i) :: c2 = hd (Flist (S i)) l2 :: l3) as [l3 E3] by (destruct l2; eauto).
  rewrite <- app_assoc, E3, app_comm_cons, E0, <- app_assoc in Hd. cbn [app] in Hd. rewrite app_assoc in Hd.
  by apply dll_next in Hd as [? _].
Qed.

Lemma flist_cell i : (i <= W)%nat → ∃ c, m !! Flist i = Some c ∧ vs_start c = 0 ∧ vs_end c = flist_end lp64 top i.
Proof.
  intros Hi. destruct (dat_Some _ _ _ (r_flist _ _ _ _ _ _ _ _ _ _ (rp_mem _ _ _ _ _ _ _ _ _ R) i Hi)) as (c & Hc & Ec).
  exists c. injection Ec as E1 E2 _ _. done.
Qed.

Lemma fchain_length_le i : (length (fchain (S i) (drop (S i) F)) <= length (fchain i (drop i F)))%nat.
Proof.
  destruct (F !! i) as [l|] eqn:E.
  - rewrite (drop_S _ _ _ E). cbn. rewrite length_app. lia.
  - apply lookup_ge_None in E. rewrite !drop_ge by lia. done.
Qed.

Lemma fchain_length_mono i j : (i <= j)%nat → (length (fchain j (drop j F)) <= length (fchain i (drop i F)))%nat.
Proof. induction 1 as [|j _ IH]; [done|]. pose proof (fchain_length_le j). lia. Qed.

Lemma fchain_size : (length (fchain 0 F) <= size m)%nat.
Proof.
  pose proof (rp_mem _ _ _ _ _ _ _ _ _ R) as Rm.
  assert (NoDup (fchain 0 F)) as Hnd.
  { apply fchain_NoDup.
    - pose proof (r_kin _ _ _ _ _ _ _ _ _ _ Rm) as Hk. apply NoDup_app in Hk as (_ & _ & Hk). by apply NoDup_app in Hk as (? & _ & _).
    - apply Forall_forall. intros p Hp. apply (reps_kseg _ Rm). rewrite !elem_of_app. tauto. }
  rewrite <- (size_list_to_set (C := gset sptr) _ Hnd), <- (size_dom (D := gset sptr)). apply subseteq_size.
  intros p Hp%elem_of_list_to_set. apply elem_of_dom. apply elem_fchain in Hp as [Hp|(j & -> & Hj)].
  - apply elem_concat in Hp as (i & l & Hi & Hp). destruct (Hst i l p Hi Hp) as (c & -> & _). eauto.
  - destruct (flist_cell j) as (c & -> & _); [|eauto]. rewrite (r_flen _ _ _ _ _ _ _ _ _ _ Rm) in Hj. lia.
Qed.
Lemma mask_testbit a k : 0 <= a < w → 0 <= k → Z.testbit (uw lp64 (- 2 ^ a)) k = (a <=? k) && (k <? w).
Proof.
  intros Ha Hk. rewrite uw_opp_pow2 by done. assert (2 ^ w - 2 ^ a = Z.shiftl (Z.ones (w - a)) a) as ->.
  { rewrite Z.shiftl_mul_pow2, Z.ones_equiv by lia. rewrite Z.mul_pred_l, <- Z.pow_add_r by lia. f_equal. f_equal. lia. }
  rewrite Z.shiftl_spec by lia. destruct (Z.leb_spec a k).
  - rewrite Z.testbit_ones by lia. destruct (Z.ltb_spec k w); [|rewrite (proj2 (Z.ltb_ge _ _)) by lia; lia]. rewrite (proj2 (Z.ltb_lt _ _)) by lia. lia.
  - by rewrite Z.testbit_neg_r by lia.
Qed.

(** "Find the next non-empty freelist." *)
Lemma next_flist i :
  (i < W)%nat → let b := lowbit lp64 (Z.land (vm_freemap v) (uw lp64 (- 2 ^ Z.of_nat i))) in
  (b = 0 ∧ ∀ j l, (i <= j)%nat → F !! j = Some l → l = []) ∨
  (∃ j p l, b - 1 = Z.of_nat j ∧ (i <= j)%nat ∧ F !! j = Some (p :: l) ∧ ∀ k l', (i <= k < j)%nat → F !! k = Some l' → l' = []).
Proof.
  intros Hi b. destruct (rp_map _ _ _ _ _ _ _ _ _ R) as [F0 Fb]. pose proof (rp_mem _ _ _ _ _ _ _ _ _ R) as Rm. pose proof (r_flen _ _ _ _ _ _ _ _ _ _ Rm) as Hlen.
  set (fm := Z.land _ _) in *. pose proof (uw_range lp64 (- 2 ^ Z.of_nat i)) as Hr. pose proof (land_le_r (vm_freemap v) _ (proj1 Hr)) as Hle. fold fm in Hle.
  assert (0 <= fm) as H0 by (apply Z.land_nonneg; lia).
  assert (∀ k, Z.testbit fm (Z.of_nat k) = bool_decide (i <= k)%nat && match F !! k with Some (_ :: _) => true | _ => false end) as Hbit.
  { intros k. unfold fm. rewrite Z.land_spec, mask_testbit, Fb by lia. rewrite andb_comm. destruct (F !! k) as [[|]|] eqn:E; rewrite ?andb_false_r; [done| |done].
    apply lookup_lt_Some in E. rewrite !andb_true_r. rewrite (proj2 (Z.ltb_lt (Z.of_nat k) w)), andb_true_r by lia.
    destruct (Z.leb_spec (Z.of_nat i) (Z.of_nat k)); [by rewrite bool_decide_true by lia|by rewrite bool_decide_false by lia]. }
  destruct (decide (fm = 0)) as [E|E].
  - left. unfold b. rewrite E. split; [done|]. intros j l Hj Hl. specialize (Hbit j). rewrite E, Z.bits_0, bool_decide_true, Hl in Hbit by done. by destruct l.
  - right. destruct (lowbit_spec lp64 fm) as [Hb [Hone Hlow]]; [replace (nbipul lp64) with w by (by destruct lp64); lia|]. fold b in Hb, Hone, Hlow.
    assert (b - 1 = Z.of_nat (Z.to_nat (b - 1))) as Eb by lia. rewrite Eb in Hone, Hlow. set (j := Z.to_nat (b - 1)) in *. rewrite Hbit in Hone.
    apply andb_true_iff in Hone as [Hij%bool_decide_eq_true Hj]. destruct (F !! j) as [[|p l]|] eqn:E'; [done| |done].
    exists j, p, l. split; [done|]. split; [done|]. split; [done|]. intros k l' Hk Hl'. specialize (Hlow (Z.of_nat k) ltac:(lia)).
    rewrite Hbit, bool_decide_true, Hl' in Hlow by lia. by destruct l'.
Qed.
(** The search does not come to the head after the last list, or it stops there. *)
Context (x : xargs) (f : nat).
Context (Hlast : top = 0 ∨ ((S f < W)%nat ∧ F !! (W - 1)%nat = Some [])).

Definition best_ok (l : list sptr) (o : option (sptr * Z)) : Prop :=
  match o with
  | None => ∀ q, q ∈ l → cand m x q = None
  | Some (p, a) => flag (x_vmflag x) VM_BESTFIT = true ∧ p ∈ l ∧ cand m x p = Some a ∧
      ∀ q, q ∈ l → is_Some (cand m x q) → psize m p <= psize m q
  end.

(** In list [i], after [l1] and before [l2]. *)
Record search_at (i : nat) (l1 l2 : list sptr) (best : option (sptr * Z)) : Prop := {
  sa_list : F !! i = Some (l1 ++ l2);
  sa_from : (f <= i)%nat;
  sa_last : top = 0 ∨ (S i < W)%nat;
  sa_before : ∀ j l q, (f <= j < i)%nat → F !! j = Some l → q ∈ l → cand m x q = None;
  sa_best : best_ok l1 best
}.

Definition search_inv (n : nat) (s : search_st) : Prop :=
  ∃ ks i l1 l2 best, s = (with_kstat v ks, Some (hd (Flist (S i)) l2), best) ∧ (∀ k, k ≠ vk_search → ks k = vm_kstat v k) ∧
    search_at i l1 l2 best ∧ n = length (l2 ++ fchain (S i) (drop (S i) F)).

Definition search_done (res : vmem * option (sptr * Z)) : Prop :=
  ∃ ks, res.1 = with_kstat v ks ∧ (∀ k, k ≠ vk_search → ks k = vm_kstat v k) ∧ search_post m x F f res.2.

Definition bump (ks : vk → Z) (k : vk) : Z := if decide (k = vk_search) then u64 (ks vk_search + 1) else ks k.

Lemma bump_other ks : (∀ k, k ≠ vk_search → ks k = vm_kstat v k) → ∀ k, k ≠ vk_search → bump ks k = vm_kstat v k.
Proof. intros Hk k Hn. unfold bump. rewrite decide_False by done. by apply Hk. Qed.

(** At the head of the next list. *)
Lemma search_head ks i l1 best :
  (∀ k, k ≠ vk_search → ks k = vm_kstat v k) → search_at i l1 [] best →
  ∃ l, search_step lp64 x (with_kstat v ks, Some (Flist (S i)), best) = Some l ∧
    match l with Next s' => ∃ n', (n' < length (fchain (S i) (drop (S i) F)))%nat ∧ search_inv n' s' | Return r => search_done r end.
Proof.
  intros Hk [Hl Hf Hla Hb Hbest]. rewrite app_nil_r in Hl. pose proof (lookup_lt_Some _ _ _ Hl) as Hi. pose proof (rp_mem _ _ _ _ _ _ _ _ _ R) as Rm.
  rewrite (r_flen _ _ _ _ _ _ _ _ _ _ Rm) in Hi. destruct (flist_cell (S i)) as (c & Hc & Hs & He); [lia|].
  cbn [search_step vm_mem with_kstat]. rewrite Hc, Hs. cbn [Z.eqb]. change (kadd vk_search 1 (with_kstat v ks)) with (with_kstat v (bump ks)). cbn [vm_freemap vm_mem with_kstat].
  destruct best as [[p a]|].
  { destruct Hbest as (B1 & B2 & B3 & B4). eexists. split; [done|]. exists (bump ks). split; [done|]. split; [by apply bump_other|].
    exists i, l1. split_and!; [done|done|done|done|]. intros _. split; [done|]. intros q Hq Hc'. left. by apply B4. }
  assert (∀ j l q, (f <= j <= i)%nat → F !! j = Some l → q ∈ l → cand m x q = None) as Hall.
  { intros j l q Hj Hjl Hq. destruct (decide (j = i)) as [->|]; [|apply (Hb j l q); [lia|done|done]]. rewrite Hl in Hjl. injection Hjl as <-. by apply Hbest. }
  unfold VS_SIZE. rewrite Hs, He, Z.sub_0_r, uw_opp. unfold flist_end. destruct (S i =? W)%nat eqn:Ei.
  { apply Nat.eqb_eq in Ei. destruct Hla as [->|]; [|lia]. rewrite (uw_id lp64 (- 0)) by (pose proof (w_pos lp64); lia). rewrite Z.land_0_r. cbn.
    eexists. split; [done|]. exists (bump ks). split; [done|]. split; [by apply bump_other|]. intros j l q Hj Hjl Hq. apply (Hall j l q); [|done|done].
    apply lookup_lt_Some in Hjl. rewrite (r_flen _ _ _ _ _ _ _ _ _ _ Rm) in Hjl. lia. }
  apply Nat.eqb_neq in Ei. destruct (next_flist (S i) ltac:(lia)) as [[E Hnone]|(j & p & l & E & Hj & Hjl & Hbetween)].
  - rewrite E. cbn. eexists. split; [done|]. exists (bump ks). split; [done|]. split; [by apply bump_other|]. intros k l q Hfk Hkl Hq.
    destruct (decide (k <= i)%nat); [apply (Hall k l q); [lia|done|done]|]. rewrite (Hnone k l ltac:(lia) Hkl) in Hq. by apply elem_of_nil in Hq.
  - rewrite (proj2 (Z.eqb_neq _ 0)) by lia. rewrite E, Nat2Z.id. pose proof (fchain_next j [] (p :: l) Hjl) as Hn. cbn in Hn.
    destruct (nxt_Some _ _ _ _ Hn) as (cj & -> & Hcj). cbn in Hcj. rewrite Hcj. eexists. split; [done|].
    exists (length ((p :: l) ++ fchain (S j) (drop (S j) F))). split.
    { pose proof (fchain_length_mono (S i) j Hj) as Hm. rewrite (drop_S _ _ _ Hjl) in Hm. cbn in *. lia. }
    exists (bump ks), j, [], (p :: l), None. split; [done|]. split; [by apply bump_other|]. split; [|done]. constructor; [done|lia| | |by intros q ?%elem_of_nil].
    + destruct Hlast as [?|[_ Hz]]; [by left|right]. pose proof (lookup_lt_Some _ _ _ Hjl) as Hjw. rewrite (r_flen _ _ _ _ _ _ _ _ _ _ Rm) in Hjw.
      destruct (decide (j = W - 1)%nat) as [->|]; [by rewrite Hz in Hjl|lia].
    + intros k l' q Hfk Hkl Hq. destruct (decide (k <= i)%nat); [apply (Hall k l' q); [lia|done|done]|].
      rewrite (Hbetween k l' ltac:(lia) Hkl) in Hq. by apply elem_of_nil in Hq.
Qed.
Lemma search_at_next i l1 p l2 best : search_at i l1 (p :: l2) best → ∀ best', best_ok (l1 ++ [p]) best' → search_at i (l1 ++ [p]) l2 best'.
Proof. intros [Hl Hf Hla Hb _] best' H'. constructor; try done. by rewrite <- app_assoc. Qed.

Lemma elem_snoc (P : sptr → Prop) l p : (∀ q, q ∈ l → P q) → P p → ∀ q, q ∈ l ++ [p] → P q.
Proof. intros Hl Hp q Hq. apply elem_of_app in Hq as [Hq| ->%list_elem_of_singleton]; [by apply Hl|done]. Qed.

(** A segment that ends the search. *)
Lemma search_found ks i l p a :
  (∀ k, k ≠ vk_search → ks k = vm_kstat v k) → F !! i = Some l → (f <= i)%nat → p ∈ l → cand m x p = Some a →
  (∀ j l q, (f <= j < i)%nat → F !! j = Some l → q ∈ l → cand m x q = None) →
  (flag (x_vmflag x) VM_BESTFIT = true → psize m p = x_size x) → search_done (with_kstat v (bump ks), Some (p, a)).
Proof.
  intros Hk Hl Hf Hp Ha Hb He. exists (bump ks). split; [done|]. split; [by apply bump_other|]. exists i, l.
  split_and!; [done|done|done|done|]. intros Hbf. split; [done|]. intros q _ _. right. by apply He.
Qed.

(** At a segment. *)
Lemma search_member ks i l1 p l2 best :
  (∀ k, k ≠ vk_search → ks k = vm_kstat v k) → search_at i l1 (p :: l2) best →
  ∃ l, search_step lp64 x (with_kstat v ks, Some p, best) = Some l ∧
    match l with
    | Next s' => ∃ n', (n' < length ((p :: l2) ++ fchain (S i) (drop (S i) F)))%nat ∧ search_inv n' s'
    | Return r => search_done r
    end.
Proof.
  intros Hk Hat. pose proof Hat as [Hl Hf Hla Hb Hbest]. destruct (Hst i _ p Hl) as (c & Hc & Hs); [set_solver|].
  pose proof (fchain_next i (l1 ++ [p]) l2) as Hn. rewrite List.last_last, <- app_assoc in Hn. specialize (Hn Hl).
  assert (vs_knext c = Some (hd (Flist (S i)) l2)) as Hkn by (unfold nxt in Hn; by rewrite Hc in Hn).
  assert (∀ best', best_ok (l1 ++ [p]) best' → search_inv (length (l2 ++ fchain (S i) (drop (S i) F))) (with_kstat v (bump ks), vs_knext c, best')) as Hgo.
  { intros best' Hb'. exists (bump ks), i, (l1 ++ [p]), l2, best'. rewrite Hkn. split; [done|]. split; [by apply bump_other|]. split; [by eapply search_at_next|done]. }
  assert (cand m x p = candidate lp64 x c) as Ecand by (unfold cand; by rewrite Hc).
  assert (psize m p = VS_SIZE lp64 c) as Esz by (unfold psize; by rewrite Hc).
  cbn [search_step vm_mem with_kstat]. rewrite Hc, (proj2 (Z.eqb_neq _ 0)) by done.
  change (kadd vk_search 1 (with_kstat v ks)) with (with_kstat v (bump ks)). cbn [vm_mem with_kstat].
  destruct (candidate lp64 x c) as [t|] eqn:Et.
  - assert ((flag (x_vmflag x) VM_BESTFIT = true → psize m p = x_size x) → search_done (with_kstat v (bump ks), Some (p, t))) as Hret.
    { intros He. eapply search_found; [done|exact Hl|done|set_solver|done|done|done]. }
    destruct best as [[b a]|].
    + destruct Hbest as (B1 & B2 & B3 & B4). destruct (Hst i _ b Hl) as (cb & Hcb & _); [set_solver|]. rewrite Hcb. cbn.
      assert (psize m b = VS_SIZE lp64 cb) as Esb by (unfold psize; by rewrite Hcb). rewrite <- Esz, <- Esb, Z.geb_leb.
      destruct (Z.leb_spec (psize m b) (psize m p)) as [Hle|Hgt].
      { eexists. split; [done|]. eexists. split; [|apply Hgo]; [cbn; lia|]. split_and!; [done|set_solver|done|]. by apply (elem_snoc (λ q, is_Some (cand m x q) → psize m b <= psize m q)). }
      rewrite B1. cbn. destruct (Z.eqb_spec (psize m p) (x_size x)) as [Ee|Ne]; (eexists; split; [done|]); [by apply Hret|].
      eexists. split; [|apply Hgo]; [cbn; lia|]. split_and!; [done|set_solver|done|]. apply (elem_snoc (λ q, is_Some (cand m x q) → psize m p <= psize m q)); [|done].
      intros q Hq Hcq. pose proof (B4 q Hq Hcq). lia.
    + rewrite <- Esz. cbn. destruct (flag (x_vmflag x) VM_BESTFIT) eqn:Ef; cbn; [|by eexists; split; [done|apply Hret]].
      destruct (Z.eqb_spec (psize m p) (x_size x)) as [Ee|Ne]; (eexists; split; [done|]); [by apply Hret|].
      eexists. split; [|apply Hgo]; [cbn; lia|]. split_and!; [done|set_solver|done|]. apply (elem_snoc (λ q, is_Some (cand m x q) → psize m p <= psize m q)); [|done].
      intros q Hq Hcq. rewrite (Hbest q Hq) in Hcq. by destruct Hcq.
  - eexists. split; [done|]. eexists. split; [|apply Hgo]; [cbn; lia|]. destruct best as [[b a]|].
    + destruct Hbest as (B1 & B2 & B3 & B4). split_and!; [done|set_solver|done|]. apply (elem_snoc (λ q, is_Some (cand m x q) → psize m b <= psize m q)); [done|]. rewrite Ecand. by intros [].
    + exact (elem_snoc (λ q, cand m x q = None) l1 p Hbest Ecand).
Qed.

Lemma xalloc_search_post :
  first_flist lp64 v x = Z.of_nat f → (f < W)%nat →
  ∃ ks o, xalloc_search lp64 v x = Some (with_kstat v ks, o) ∧ (∀ k, k ≠ vk_search → ks k = vm_kstat v k) ∧ search_post m x F f o.
Proof.
  intros Ef Hf. unfold xalloc_search. rewrite Ef, Nat2Z.id. pose proof (rp_mem _ _ _ _ _ _ _ _ _ R) as Rm.
  destruct (lookup_lt_is_Some_2 F f) as [l Hl]; [by rewrite (r_flen _ _ _ _ _ _ _ _ _ _ Rm)|].
  pose proof (fchain_next f [] l Hl) as Hn. destruct (nxt_Some _ _ _ _ Hn) as (ch & Hch & Hk). cbn in Hch, Hk. rewrite Hch, Hk.
  assert (search_inv (length (l ++ fchain (S f) (drop (S f) F))) (v, Some (hd (Flist (S f)) l), None)) as Hinv.
  { exists (vm_kstat v), f, [], l, None. split; [by destruct v|]. split; [done|]. split; [|done].
    constructor; [done|done|destruct Hlast as [?|[? _]]; [by left|by right]|lia|by intros q ?%elem_of_nil]. }
  destruct (run_total_idx (search_step lp64 x) search_inv search_done) with (fuel := seg_fuel v) (2 := Hinv) as ([v' o] & Hr & ks & E & Hks & Hp).
  - intros n s (ks & i & l1 & l2 & best & -> & Hks & Hat & ->). destruct l2 as [|p l2]; [by apply (search_head ks i l1)|by apply (search_member ks i l1 p l2)].
  - pose proof fchain_size. pose proof (fchain_length_mono 0 f ltac:(lia)) as Hm. rewrite (drop_S _ _ _ Hl), drop_0 in Hm. unfold seg_fuel. cbn in Hm. lia.
  - cbn in E, Hp. subst v'. by exists ks, o.
Qed.
End search.

(** *** A search that does not end

    When the shift for the last list head gives 1, its size masks no list
    away: after a segment of half of the address space or more the search
    begins again with the first list. *)

(** The loop's variables after [n] iterations that each ask for another one. *)
Fixpoint iterate {St R} (step : St → option (loop St R)) (n : nat) (s : St) : option St :=
  match n with
  | O => Some s
  | S n => match step s with Some (Next s') => iterate step n s' | _ => None end
  end.

(** A loop that goes on: however often it has gone round, no iteration has
    faulted or left it. *)
Definition never_returns {St R} (step : St → option (loop St R)) (s : St) : Prop := ∀ n, is_Some (iterate step n s).

Lemma never_returns_run {St R} (step : St → option (loop St R)) s : never_returns step s → ∀ fuel, run step fuel s = None.
Proof.
  intros Hn fuel. specialize (Hn fuel). revert s Hn. induction fuel as [|fuel IH]; intros s Hn; [done|]. cbn [run iterate] in *.
  destruct (step s) as [[s'|r]|]; [by apply IH|by destruct Hn|done].
Qed.

Section forever.
Context (lp64 : bool) (top : Z).
Abbreviation w := (VMEM_FREELISTS lp64).
Abbreviation W := (Z.to_nat w).
Context {r : Z} {v : vmem} {A : list gseg} {K : list sptr} {F H : list (list sptr)} {SF : list sptr}.
Context (R : rep lp64 top r v A K F H SF).
Context (Hst : ∀ i l p, F !! i = Some l → p ∈ l → ∃ c, vm_mem v !! p = Some c ∧ vs_start c ≠ 0).
Context (x : xargs) (Htop : top = 1) (Hbig : ∃ p l, F !! (W - 1)%nat = Some (p :: l)).
Context (Hnone : ∀ i l q, F !! i = Some l → q ∈ l → cand lp64 (vm_mem v) x q = None).

Lemma restart i : (i <= W)%nat →
  ∃ j p l, lowbit lp64 (Z.land (vm_freemap v) (uw lp64 (- flist_end lp64 top i))) - 1 = Z.of_nat j ∧ F !! j = Some (p :: l).
Proof.
  intros Hi. pose proof (w_pos lp64). destruct Hbig as (p0 & l0 & Hb).
  assert (∃ k, (k < W)%nat ∧ flist_end lp64 top i = 2 ^ Z.of_nat k) as (k & Hk & ->).
  { unfold flist_end. destruct (Nat.eqb_spec i W); [exists 0%nat; split; [lia|by rewrite Htop]|exists i; split; [lia|done]]. }
  destruct (next_flist lp64 top R k Hk) as [[_ Hn]|(j & p & l & E & _ & Hj & _)]; [|by exists j, p, l].
  pose proof (Hn (W - 1)%nat (p0 :: l0) ltac:(lia) Hb). done.
Qed.

Lemma search_forever fuel : ∀ ks i l1 l2,
  F !! i = Some (l1 ++ l2) → is_Some (iterate (search_step lp64 x) fuel (with_kstat v ks, Some (hd (Flist (S i)) l2), None)).
Proof.
  induction fuel as [|fuel IH]; intros ks i l1 l2 Hl; [done|]. cbn [iterate]. destruct l2 as [|p l2]; cbn [hd].
  - pose proof (lookup_lt_Some _ _ _ Hl) as Hi. pose proof (rp_mem _ _ _ _ _ _ _ _ _ R) as Rm. rewrite (r_flen _ _ _ _ _ _ _ _ _ _ Rm) in Hi.
    destruct (flist_cell lp64 top R (S i)) as (c & Hc & Hs & He); [lia|]. destruct (restart (S i) ltac:(lia)) as (j & p & l & E & Hj).
    cbn [search_step vm_mem with_kstat]. rewrite Hc, Hs. cbn [Z.eqb]. unfold VS_SIZE. rewrite Hs, He, Z.sub_0_r, uw_opp.
    change (kadd vk_search 1 (with_kstat v ks)) with (with_kstat v (bump ks)). cbn [vm_freemap vm_mem with_kstat].
    rewrite (proj2 (Z.eqb_neq _ 0)) by lia. rewrite E, Nat2Z.id. pose proof (fchain_next lp64 top R j [] (p :: l) Hj) as Hn. cbn [List.last] in Hn.
    destruct (nxt_Some _ _ _ _ Hn) as (cj & -> & Hcj). cbn [vnext] in Hcj. cbn [mbind option_bind]. rewrite Hcj. by apply (IH (bump ks) j []).
  - destruct (Hst i _ p Hl) as (c & Hc & Hs); [set_solver|]. pose proof (fchain_next lp64 top R i (l1 ++ [p]) l2) as Hn. rewrite List.last_last, <- app_assoc in Hn. specialize (Hn Hl).
    assert (vs_knext c = Some (hd (Flist (S i)) l2)) as Hkn by (unfold nxt in Hn; by rewrite Hc in Hn).
    pose proof (Hnone i _ p Hl ltac:(set_solver)) as Hcd. unfold cand in Hcd. rewrite Hc in Hcd. cbn in Hcd.
    cbn [search_step vm_mem with_kstat]. rewrite Hc, (proj2 (Z.eqb_neq _ 0)) by done. rewrite Hcd, Hkn. cbn [mbind option_bind].
    change (kadd vk_search 1 (with_kstat v ks)) with (with_kstat v (bump ks)). apply (IH (bump ks) i (l1 ++ [p])). by rewrite <- app_assoc.
Qed.
End forever.
