(* ===== verification/VmemAlloc.v ===== *)
(** * VmemAlloc: the search on an arena, allocation and import

    The search finds a segment when the arena has one for the request (best
    fit, and requests of [vmem_alloc]); the allocation that follows takes the
    least address of that segment that meets the request. *)

From Stdlib Require Import ZArith Lia.
From stdpp Require Import base numbers option list gmap.
From S2P Require Import Prelude Bitmap Vmem VmemRep VmemArena VmemInv VmemFree VmemSpan VmemSearch.

#[local] Open Scope Z_scope.

Section alloc.
Context (lp64 : bool) (top : Z).
Abbreviation w := (VMEM_FREELISTS lp64).
Abbreviation W := (Z.to_nat w).
Abbreviation arena := (arena lp64 top).

(** The statistics of the search are not part of the invariant. *)
Lemma arena_kstat r v L SF ks :
  arena r v L SF → (∀ k, k ≠ vk_search → k ≠ vk_wait → k ≠ vk_fail → ks k = vm_kstat v k) → arena r (with_kstat v ks) L SF.
Proof.
  intros [[(F & H & R & C & Hlen) Hok HX] Eq Qs Hm Hsp Hsep [S1 S2 S3 S4]] Hk. constructor; try done.
  - constructor; [|done|done]. exists F, H. split; [by apply rep_kstat|]. done.
  - constructor; cbn; rewrite ?Hk by done; done.
Qed.

(** ** The first list *)

Lemma first_flist_cases v x :
  0 < x_size x < 2 ^ w →
  let fl := flist_of (x_size x) in
  (first_flist lp64 v x = Z.of_nat fl ∧ (fl < W)%nat) ∨
  (first_flist lp64 v x = Z.of_nat (S fl) ∧ (S fl < W)%nat ∧ Z.shiftr (vm_freemap v) (Z.of_nat (S fl)) ≠ 0 ∧
   flag (x_vmflag x) VM_BESTFIT = false).
Proof.
  intros Hs fl. pose proof (flist_of_highbit lp64 _ Hs) as Hh. fold fl in Hh. pose proof (flist_of_lt lp64 _ Hs) as Hlt. fold fl in Hlt. unfold first_flist.
  destruct (_ || _ || _ || _) eqn:E.
  - left. split; [done|done].
  - right. apply orb_false_iff in E as [E Ef]. apply orb_false_iff in E as [E E3%Z.eqb_neq]. apply orb_false_iff in E as [_ E2%Z.eqb_neq].
    replace (highbit lp64 (x_size x)) with (Z.of_nat (S fl)) in * by lia. split; [done|]. split; [lia|]. done.
Qed.

(** A set bit at or above [f] is a free segment of at least that size. *)
Lemma freemap_big r v L SF f :
  arena r v L SF → Z.shiftr (vm_freemap v) (Z.of_nat f) ≠ 0 → ∃ h, h ∈ flat L ∧ g_type h = VMEM_FREE ∧ 2 ^ Z.of_nat f <= g_size h.
Proof.
  intros [[(F & H & R & [_ C _] & _) Hok _] _ _ _ _ _ _] Hne. destruct (rp_map _ _ _ _ _ _ _ _ _ R) as [F0 Fb].
  set (y := Z.shiftr _ _) in *. assert (0 < y) as Hy by (pose proof (proj2 (Z.shiftr_nonneg (vm_freemap v) (Z.of_nat f)) F0); lia).
  pose proof (Z.bit_log2 y Hy) as Hb. unfold y in Hb at 1. pose proof (Z.log2_nonneg y). rewrite Z.shiftr_spec in Hb by lia.
  replace (Z.log2 y + Z.of_nat f) with (Z.of_nat (Z.to_nat (Z.log2 y) + f)) in Hb by lia. set (j := (Z.to_nat (Z.log2 y) + f)%nat) in *. rewrite Fb in Hb.
  destruct (F !! j) as [[|p l]|] eqn:Ej; [done| |done]. destruct (proj1 (C j _ p Ej)) as (h & Hh & _ & _ & Ht & Hf); [by left|]. exists h. split; [done|]. split; [done|].
  assert (seg_ok lp64 h) as (_ & _ & Hs) by (by apply (proj1 (Forall_forall _ _) Hok)). unfold flist_of in Hf.
  pose proof (Z.log2_spec (g_size h) ltac:(lia)) as [Hl _]. pose proof (Z.log2_nonneg (g_size h)). etrans; [|exact Hl]. apply Z.pow_le_mono_r; lia.
Qed.

(** ** The search on an arena *)

(** The condition under which the search ends: the shift that gives the size
    of the last list head is 0, or neither the request nor a free segment
    takes half of the address space. *)
Definition search_ends (x : xargs) (L : list gspan) : Prop :=
  top = 0 ∨ (x_size x < 2 ^ (w - 1) ∧ ∀ g, g ∈ flat L → g_type g = VMEM_FREE → g_size g < 2 ^ (w - 1)).

Definition has_place (x : xargs) (g : gseg) : Prop := ∃ b, meets lp64 x (g_lo g) (g_hi g) b.

(** The free segments the search looks at. *)
Definition eligible (v : vmem) (x : xargs) (g : gseg) : Prop :=
  g_type g = VMEM_FREE ∧ first_flist lp64 v x <= Z.of_nat (flist_of (g_size g)).

Definition found (v : vmem) (x : xargs) (L : list gspan) (o : option (sptr * Z)) : Prop :=
  match o with
  | Some (p, a) => ∃ g, g ∈ flat L ∧ g_type g = VMEM_FREE ∧ g_ptr g = p ∧
      meets lp64 x (g_lo g) (g_hi g) a ∧ (∀ b, meets lp64 x (g_lo g) (g_hi g) b → a <= b) ∧
      (flag (x_vmflag x) VM_BESTFIT = true → ∀ h, h ∈ flat L → g_type h = VMEM_FREE → has_place x h → g_size g <= g_size h)
  | None => ∀ h, h ∈ flat L → eligible v x h → ¬ has_place x h
  end.
(** A segment of an arena: where it lies. *)
Lemma arena_seg r v L SF g :
  arena r v L SF → g ∈ flat L → g_type g ≠ VMEM_SPAN →
  0 < g_lo g < g_hi g ∧ g_hi g <= 2 ^ w ∧ (vm_quantum v | g_lo g) ∧ (g_type g = VMEM_FREE → (vm_quantum v | g_hi g)).
Proof.
  intros Ha (s & Hs & Hg)%elem_flat Ht. pose proof (arena_q _ _ _ _ _ _ Ha) as Hq. destruct Hg as [->|Hg]; [done|].
  pose proof (proj1 (Forall_forall _ _) (an_spans _ _ _ _ _ _ Ha) s Hs) as [O1 [O2 _] O3 _ _].
  destruct (tiles_elem _ _ _ _ _ Hq O3 Hg) as (T1 & T2 & T3). pose proof (rup_spec (vm_quantum v) (g_hi g) Hq).
  split; [lia|]. split; [lia|]. split; [by eapply tiles_lo_aligned|]. intros Hf. by destruct T3 as [[_ ?]|E]; [|rewrite Hf in E].
Qed.

(** The free lists against the free segments. *)
Lemma free_cell r v L SF q x :
  arena r v L SF → request lp64 q x →
  ∃ F H K, rep lp64 top r v (flat L) K F H SF ∧
    (∀ i l p, F !! i = Some l → p ∈ l → ∃ g c, g ∈ flat L ∧ g_type g = VMEM_FREE ∧ g_ptr g = p ∧ flist_of (g_size g) = i ∧
       vm_mem v !! p = Some c ∧ vs_start c = g_lo g ∧ vs_start c ≠ 0 ∧ psize lp64 (vm_mem v) p = g_size g ∧
       match cand lp64 (vm_mem v) x p with
       | Some a => meets lp64 x (g_lo g) (g_hi g) a ∧ ∀ b, meets lp64 x (g_lo g) (g_hi g) b → a <= b
       | None => ¬ has_place x g
       end) ∧
    (∀ g, g ∈ flat L → g_type g = VMEM_FREE → ∃ l, F !! flist_of (g_size g) = Some l ∧ g_ptr g ∈ l).
Proof.
  intros Ha Hrq. pose proof Ha as [[(F & H & R & C & Hlen) Hok _] _ _ _ _ _ _]. exists F, H, (s_ptr <$> L). split; [done|]. split.
  - intros i l p Hi Hp. destruct (proj1 (cv_f _ _ _ _ _ _ C i l p Hi) Hp) as (g & Hg & <- & _ & Ht & Hf).
    destruct (arena_seg _ _ _ _ _ Ha Hg) as (G1 & G2 & _); [by rewrite Ht|]. destruct (rep_cell _ _ _ _ _ _ _ _ _ _ R Hg) as (c & Hc & Ec).
    exists g, c. injection Ec as E1 E2 E3 E4. assert (vs_start c ≠ 0) as Hne by lia.
    split_and!; try done.
    + unfold psize. rewrite Hc. cbn. apply (vs_size_cell lp64 c g); [unfold seg_dat, cell_of; congruence|unfold g_size; lia].
    + unfold cand. rewrite Hc. cbn. pose proof (candidate_least lp64 q x c _ _ Hrq E1 E2 G1 G2) as Hc'.
      destruct (candidate lp64 x c); [done|]. intros [b Hb]. by apply (Hc' b).
  - intros g Hg Ht. assert (seg_ok lp64 g) as (_ & _ & Hs) by (by apply (proj1 (Forall_forall _ _) Hok)).
    destruct (reps_flist_lookup _ _ _ _ _ _ _ _ _ _ R Hs) as [l Hl]. exists l. split; [done|].
    apply (cv_f _ _ _ _ _ _ C _ _ _ Hl). exists g. done.
Qed.

Lemma size_fits x g : has_place x g → x_size x <= g_size g.
Proof. intros [b [B1 B2 _ _]]. unfold g_size. lia. Qed.

Lemma flist_mono x y : 0 < x <= y → (flist_of x <= flist_of y)%nat.
Proof. intros H. unfold flist_of. pose proof (Z.log2_le_mono x y ltac:(lia)). lia. Qed.

Lemma flist_strict x y : 0 < x → 0 < y → (flist_of x < flist_of y)%nat → x < y.
Proof. intros Hx Hy H. destruct (decide (x < y)); [done|]. pose proof (flist_mono y x ltac:(lia)). lia. Qed.
Lemma flist_of_bound x n : 0 < x < 2 ^ n → Z.of_nat (flist_of x) < n.
Proof. intros Hx. unfold flist_of. pose proof (Z.log2_nonneg x). rewrite Z2Nat.id by done. apply Z.log2_lt_pow2; lia. Qed.

(** The list the search begins with, and that it does not run past the last
    list. *)
Lemma first_list_ok r v L SF K F H x :
  arena r v L SF → rep lp64 top r v (flat L) K F H SF → 0 < x_size x < 2 ^ w → search_ends x L →
  (∀ i l p, F !! i = Some l → p ∈ l → ∃ g, g ∈ flat L ∧ g_type g = VMEM_FREE ∧ flist_of (g_size g) = i) →
  ∃ f, first_flist lp64 v x = Z.of_nat f ∧ (f < W)%nat ∧ (flag (x_vmflag x) VM_BESTFIT = true → f = flist_of (x_size x)) ∧
    (top = 0 ∨ ((S f < W)%nat ∧ F !! (W - 1)%nat = Some [])).
Proof.
  intros Ha R Hs Hend Hcell. pose proof (w_pos lp64) as Hw.
  assert (∀ f, Z.of_nat f < w - 1 → top ≠ 0 → (S f < W)%nat ∧ F !! (W - 1)%nat = Some []) as Hz.
    { intros f Hf Ht. destruct Hend as [?|[_ Hend]]; [done|]. split; [lia|].
      destruct (lookup_lt_is_Some_2 F (W - 1)) as [l Hl]; [rewrite (r_flen _ _ _ _ _ _ _ _ _ _ (rp_mem _ _ _ _ _ _ _ _ _ R)); lia|].
      rewrite Hl. destruct l as [|p l]; [done|exfalso]. destruct (Hcell _ _ p Hl) as (g & Hg & Hgt & Hgf); [by left|].
      pose proof (Hend g Hg Hgt). pose proof (arena_seg r v L SF g Ha Hg ltac:(by rewrite Hgt)) as [Hr _].
      pose proof (flist_of_bound (g_size g) (w - 1)) as Hb. unfold g_size in *. lia. }
    destruct (first_flist_cases v x Hs) as [[E Hl]|(E & Hl & Hne & Hnb)].
    - exists (flist_of (x_size x)). split_and!; [done|done|done|]. destruct (decide (top = 0)); [by left|right]. apply Hz; [|done].
      destruct Hend as [?|[Hx _]]; [done|]. apply flist_of_bound. lia.
    - exists (S (flist_of (x_size x))). split_and!; [done|done|by rewrite Hnb|]. destruct (decide (top = 0)); [by left|right]. apply Hz; [|done].
      destruct Hend as [?|[_ Hend]]; [done|]. destruct (freemap_big _ _ _ _ _ Ha Hne) as (h & Hh & Ht & Hb).
      pose proof (Hend h Hh Ht) as Hlt. apply (Z.pow_lt_mono_r_iff 2); lia.
Qed.

Lemma arena_search r v L SF q x :
  arena r v L SF → request lp64 q x → search_ends x L →
  ∃ ks o, xalloc_search lp64 v x = Some (with_kstat v ks, o) ∧ (∀ k, k ≠ vk_search → ks k = vm_kstat v k) ∧ found v x L o.
Proof.
  intros Ha Hrq Hend. destruct (free_cell _ _ _ _ _ _ Ha Hrq) as (F & H & K & R & Hcell & Hfree).
  pose proof (w_pos lp64) as Hw. assert (0 < x_size x < 2 ^ w) as Hs.
  { pose proof (rq_width _ _ _ Hrq). pose proof (rq_size _ _ _ Hrq). pose proof (rq_phase _ _ _ Hrq). destruct (rq_nocross _ _ _ Hrq) as [?|(n & _ & ? & _)]; lia. }
  destruct (first_list_ok r v L SF K F H x Ha R Hs Hend) as (f & Ef & Hf & Hbf & Hlast).
  { intros i l p Hi Hp. destruct (Hcell i l p Hi Hp) as (g & _ & ? & ? & _ & ? & _). by exists g. }
  assert (∀ i l p, F !! i = Some l → p ∈ l → ∃ c, vm_mem v !! p = Some c ∧ vs_start c ≠ 0) as Hst.
  { intros i l p Hi Hp. destruct (Hcell i l p Hi Hp) as (g & c & _ & _ & _ & _ & ? & _ & ? & _). by exists c. }
  destruct (xalloc_search_post lp64 top R Hst x f Hlast Ef Hf) as (ks & o & Hr & Hk & Hpost). exists ks, o. split; [done|]. split; [done|].
  destruct o as [[p a]|].
  - destruct Hpost as (i & l & Hi & Hl & Hp & Hc & Hbest). destruct (Hcell i l p Hl Hp) as (g & c & Hg & Ht & Hgp & Hgi & _ & _ & _ & Hsz & Hcd).
    rewrite Hc in Hcd. exists g. split_and!; [done|done|done|apply Hcd|apply Hcd|]. intros Hb h Hh Hht Hpl. destruct (Hbest Hb) as [B1 B2].
    destruct (Hfree h Hh Hht) as (lh & Hlh & Hph). destruct (Hcell _ _ _ Hlh Hph) as (h' & _ & Hh' & _ & Ehp & _ & _ & _ & _ & Hsh & Hch).
    assert (h' = h) as -> by (eapply g_ptr_inj; [apply (r_own _ _ _ _ _ _ _ _ _ _ (rp_mem _ _ _ _ _ _ _ _ _ R))|done|done|done]).
    pose proof (size_fits x h Hpl) as Hxs. pose proof (flist_mono (x_size x) (g_size h) ltac:(lia)) as Hmo. rewrite <- (Hbf Hb) in Hmo.
    assert (is_Some (cand lp64 (vm_mem v) x (g_ptr h))) as Hsm by (clear -Hch Hpl; destruct (cand lp64 (vm_mem v) x (g_ptr h)); [eauto|by destruct (Hch Hpl)]).
    destruct (decide (flist_of (g_size h) < i)%nat) as [Hlt|Hge].
    { destruct Hsm as [? E]. rewrite (B1 _ _ _ (conj Hmo Hlt) Hlh Hph) in E. done. }
    destruct (decide (flist_of (g_size h) = i)) as [E|Hne].
    { rewrite E, Hl in Hlh. injection Hlh as <-. destruct (B2 _ Hph Hsm) as [?|?]; lia. }
    apply Z.lt_le_incl, flist_strict; [|lia|lia]. pose proof (arena_seg r v L SF g Ha Hg ltac:(by rewrite Ht)). unfold g_size. lia.
  - intros h Hh [Hht Hel] Hpl. destruct (Hfree h Hh Hht) as (lh & Hlh & Hph). destruct (Hcell _ _ _ Hlh Hph) as (h' & _ & Hh' & _ & Ehp & _ & _ & _ & _ & _ & Hch).
    assert (h' = h) as -> by (eapply g_ptr_inj; [apply (r_own _ _ _ _ _ _ _ _ _ _ (rp_mem _ _ _ _ _ _ _ _ _ R))|done|done|done]).
    rewrite (Hpost (flist_of (g_size h)) lh (g_ptr h) ltac:(lia) Hlh Hph) in Hch. done.
Qed.
End alloc.
