(* ===== verification/VmemSys.v ===== *)
(** * VmemSys: allocations that drop the lock

    Any number of threads in [vmem_xalloc], with frees and additions between
    their steps.  A thread in [vm_source_alloc] has four segments reserved;
    the theorem is that no interleaving finds the spare list too short, and
    that what the threads get are ranges that do not overlap. *)

From Stdlib Require Import ZArith Lia.
From stdpp Require Import base numbers option list gmap.
From S2P Require Import Prelude Bitmap Vmem VmemRep VmemArena VmemInv VmemFree VmemSpan VmemSearch VmemAlloc.

#[local] Open Scope Z_scope.

Section sys.
Context (lp64 : bool) (top : Z).
Abbreviation w := (VMEM_FREELISTS lp64).
Abbreviation arena := (arena lp64 top).
Abbreviation arep := (arep lp64 top).

(** ** Reservations and new segments *)

Lemma arena_same r r' v v' L SF SF' :
  arena r v L SF → conf v' = conf v → arep r' v' (flat L) (s_ptr <$> L) SF' ∅ →
  (∀ k, k = vk_mem_inuse ∨ k = vk_free ∨ k = vk_alloc ∨ k = vk_mem_total ∨ k = vk_mem_import → vm_kstat v' k = vm_kstat v k) →
  arena r' v' L SF'.
Proof.
  intros [R Eq Qs Hm Hsp Hsep [S1 S2 S3 S4]] Hc Ha Hk. assert (vm_qshift v' = vm_qshift v) as Eqs by (unfold conf in Hc; by injection Hc).
  constructor; rewrite ?(conf_quantum v v' Hc), ?Eqs, ?(conf_mask v v' Hc); try done. constructor; rewrite !Hk by tauto; done.
Qed.

Lemma arena_reserve r v L SF n : arena r v L SF → arena (r + n) (with_segfree v (vm_nsegfree v - n) (vm_segfree v)) L SF.
Proof.
  intros Ha. eapply arena_same; [exact Ha|done| |done]. destruct Ha as [[(F & H & [R1 R2 R3] & C & Hlen) Hok HX] _ _ _ _ _ _].
  constructor; [|done|done]. exists F, H. split; [|done]. constructor; [done| |done]. cbn. lia.
Qed.

Lemma arena_nseg r v L SF : arena r v L SF → vm_nsegfree v = Z.of_nat (length SF) - r.
Proof. intros [[(F & H & R & _) _ _] _ _ _ _ _ _]. apply (rp_nseg _ _ _ _ _ _ _ _ _ R). Qed.

Lemma arena_populate r v L SF n c :
  arena r v L SF → vm_mem v !! Seg n = None →
  ∃ v', populate_seg v n c = Some v' ∧ conf v' = conf v ∧ vm_nsegfree v' = vm_nsegfree v + 1 ∧ arena r v' L (Seg n :: SF).
Proof.
  intros Ha Hn. pose proof Ha as [[(F & H & [R1 R2 R3] & C & Hlen) Hok HX] _ _ _ _ _ _].
  assert (Seg n ∉ ptrs (flat L)) as N1 by (intros Hp; apply (reps_is_Some _ R1) in Hp as [? E]; congruence).
  assert (Seg n ∉ SF) as N2 by (intros Hp; apply (reps_sf_Some _ R1) in Hp as [? E]; congruence).
  set (v1 := with_mem v (<[Seg n := c]> (vm_mem v))).
  assert (rep lp64 top r v1 (flat L) (s_ptr <$> L) F H SF) as R'.
  { constructor; [|done|done]. apply (reps_unowned lp64 top (vm_mem v) _ _ _ _ _ _ _ _ (Seg n)); try done. intros q Hq. cbn. by rewrite lookup_insert_ne. }
  destruct (vmem_putseg_ok lp64 top _ _ _ _ _ _ _ (Seg n) R') as (v' & Hp & R'' & Hf); [done|done|done|cbn; rewrite lookup_insert_eq; eauto|].
  exists v'. split; [done|]. split; [exact (proj1 Hf)|].
  assert (arena r v' L (Seg n :: SF)) as Ha'.
  { eapply arena_same; [exact Ha|exact (proj1 Hf)| |intros k _; by rewrite (proj2 Hf)]. constructor; [|done|done]. exists F, H. split; [done|].
    split; [by apply (covers_conf lp64 v v'); [exact (proj1 Hf)|]|]. by rewrite (conf_mask v v') by exact (proj1 Hf). }
  split; [|done]. rewrite (arena_nseg _ _ _ _ Ha'), (arena_nseg _ _ _ _ Ha). cbn [length]. lia.
Qed.
(** ** The specification: spans and allocated ranges *)

Record astate := AState {
  a_spans : list (Z * Z * Z);
  a_alloc : list (Z * Z)
}.

Definition abs (L : list gspan) : astate := AState ((λ s, (s_lo s, s_hi s, s_import s)) <$> L) (ranges (flat L)).

(** [addr] meets the request in a span and no allocated range is there. *)
Definition place_in (a : astate) (x : xargs) (addr : Z) : Prop :=
  (∃ lo hi i, (lo, hi, i) ∈ a_spans a ∧ meets lp64 x lo hi addr) ∧
  ∀ b n, (b, n) ∈ a_alloc a → addr + x_size x <= b ∨ b + n <= addr.

Inductive out :=
  | O_none
  | O_alloc (x : xargs) (addr : Z)
  | O_free (addr sz : Z) (back : option (Z * Z))
  | O_add (addr sz : Z).

Inductive astep : astate → out → astate → Prop :=
  | A_none a : astep a O_none a
  | A_alloc a x addr rs :
      place_in a x addr → rs ≡ₚ (addr, x_size x) :: a_alloc a → astep a (O_alloc x addr) (AState (a_spans a) rs)
  | A_import a x addr rs vaddr sz :
      let a' := AState (a_spans a ++ [(vaddr, vaddr + sz, 1)]) (a_alloc a) in
      place_in a' x addr → rs ≡ₚ (addr, x_size x) :: a_alloc a → astep a (O_alloc x addr) (AState (a_spans a') rs)
  | A_free a addr sz rs :
      a_alloc a ≡ₚ (addr, sz) :: rs → astep a (O_free addr sz None) (AState (a_spans a) rs)
  | A_back a addr sz rs l1 lo hi i l2 :
      a_alloc a ≡ₚ (addr, sz) :: rs → a_spans a = l1 ++ (lo, hi, i) :: l2 → i ≠ 0 → lo <= addr → addr + sz <= hi →
      (∀ b n, (b, n) ∈ rs → hi <= b ∨ b + n <= lo) →
      astep a (O_free addr sz (Some (lo, hi - lo))) (AState (l1 ++ l2) rs)
  | A_add a addr sz : astep a (O_add addr sz) (AState (a_spans a ++ [(addr, addr + sz, 0)]) (a_alloc a)).

(** The allocated ranges lie in their spans, apart from each other. *)
Lemma elem_ranges b n A : (b, n) ∈ ranges A ↔ ∃ h, h ∈ A ∧ g_type h = VMEM_ALLOC ∧ b = g_lo h ∧ n = g_size h.
Proof.
  unfold ranges. rewrite list_elem_of_fmap. split.
  - intros (h & [= -> ->] & [Ht Hh]%list_elem_of_filter). by exists h.
  - intros (h & Hh & Ht & -> & ->). exists h. split; [done|]. by apply list_elem_of_filter.
Qed.

(** A free segment is apart from the allocated ranges. *)
Lemma free_apart r v L SF g b n :
  arena r v L SF → g ∈ flat L → g_type g = VMEM_FREE → (b, n) ∈ ranges (flat L) → g_hi g <= b ∨ b + n <= g_lo g.
Proof.
  intros Ha Hg Ht (h & Hh & Hht & -> & ->)%elem_ranges. pose proof (arena_q _ _ _ _ _ _ Ha) as Hq. pose proof Ha as [_ _ _ _ Hsp Hsep _].
  apply elem_flat in Hg as (s & Hs & [->|Hg]); [done|]. apply elem_flat in Hh as (t & Hst & [->|Hh]); [done|].
  pose proof (proj1 (Forall_forall _ _) Hsp s Hs) as Os. pose proof (proj1 (Forall_forall _ _) Hsp t Hst) as Ot.
  pose proof (rup_spec _ (g_hi g) Hq). pose proof (rup_spec _ (g_hi h) Hq). unfold g_size.
  apply list_elem_of_split in Hs as (L1 & L2 & ->). assert (t = s ∨ t ∈ L1 ++ L2) as [->|Ht'] by set_solver.
  - pose proof (so_tiles _ _ _ Os) as Hti. apply list_elem_of_split in Hg as (G1 & G2 & EG). rewrite EG in Hti, Hh.
    assert (h = g ∨ h ∈ G1 ++ G2) as [->|Hh'] by set_solver; [by rewrite Ht in Hht|].
    pose proof (tiles_sep _ _ _ _ _ _ _ Hq Hti Hh'). lia.
  - apply separate_app in Hsep as [_ Hsep]. pose proof (proj1 (Forall_forall _ _) Hsep t Ht') as Hap.
    destruct (tiles_elem _ _ _ _ _ Hq (so_tiles _ _ _ Os) Hg) as (? & ? & _). destruct (tiles_elem _ _ _ _ _ Hq (so_tiles _ _ _ Ot) Hh) as (? & ? & _).
    unfold apart in Hap. lia.
Qed.

Lemma ranges_marker s A : ranges (marker s :: A) = ranges A.
Proof. by rewrite ranges_cons, decide_False. Qed.

Lemma ranges_set_segs L1 s L2 G1 g G2 G :
  s_segs s = G1 ++ g :: G2 →
  ranges (flat (L1 ++ set_segs s G :: L2)) = ranges (flat L1) ++ ranges G ++ ranges (flat L2) ∧
  ranges (flat (L1 ++ s :: L2)) = ranges (flat L1) ++ ranges (G1 ++ g :: G2) ++ ranges (flat L2).
Proof. intros Es. rewrite !flat_mid, !(ranges_app _ (flat L2)), !(ranges_app (flat L1)), !ranges_marker, Es, <- !app_assoc. done. Qed.

(** Taking a range out of a free segment, on the specification. *)
Lemma take_abs r v L1 s L2 SF G1 g G2 q x addr mid :
  arena r v (L1 ++ s :: L2) SF → s_segs s = G1 ++ g :: G2 → g_type g = VMEM_FREE →
  meets lp64 x (g_lo g) (g_hi g) addr → splits q g addr (addr + x_size x) mid →
  let L' := L1 ++ set_segs s (G1 ++ mid ++ G2) :: L2 in
  place_in (abs (L1 ++ s :: L2)) x addr ∧ a_spans (abs L') = a_spans (abs (L1 ++ s :: L2)) ∧
  a_alloc (abs L') ≡ₚ (addr, x_size x) :: a_alloc (abs (L1 ++ s :: L2)).
Proof.
  intros Ha Es Hg Hmt Hspl L'. pose proof (arena_q _ _ _ _ _ _ Ha) as Hq.
  assert (g ∈ flat (L1 ++ s :: L2)) as Hin by (rewrite (flat_split _ _ _ _ _ _ Es); set_solver). split_and!.
  - split.
    + exists (s_lo s), (s_hi s), (s_import s). split; [unfold abs, a_spans; rewrite fmap_app, fmap_cons; set_solver|].
      assert (span_ok lp64 (vm_quantum v) s) as Os by (apply (proj1 (Forall_forall _ _) (an_spans _ _ _ _ _ _ Ha)); set_solver).
      pose proof (so_tiles _ _ _ Os) as Hti. rewrite Es in Hti. destruct (tiles_elem _ _ _ _ g Hq Hti) as (T1 & T2 & _); [set_solver|].
      pose proof (rup_spec _ (g_hi g) Hq). destruct Hmt as [M1 M2 M3 M4]. constructor; [lia|lia|done|done].
    + intros b n Hb. destruct (free_apart _ _ _ _ _ _ _ Ha Hin Hg Hb); destruct Hmt as [M1 M2 _ _]; lia.
  - unfold L', abs, a_spans. by rewrite !fmap_app.
  - unfold L', abs, a_alloc. destruct (ranges_set_segs L1 s L2 G1 g G2 (G1 ++ mid ++ G2) Es) as [-> ->].
    destruct (splits_sums _ _ _ _ _ Hspl) as (_ & _ & Er). rewrite !ranges_app, ranges_cons, Er. rewrite decide_False by (by rewrite Hg).
    replace (addr + x_size x - addr) with (x_size x) by lia. cbn [app]. rewrite <- !app_assoc. cbn [app]. by rewrite <- !Permutation_middle.
Qed.
(** ** The system *)

Record sys := Sys {
  y_vm : vmem;
  y_thr : list xthread
}.

Inductive event :=
  | E_call (x : xargs)
  | E_step (i : nat) (inp : xinput)
  | E_free (addr sz : Z)
  | E_add (addr sz : Z).

Definition sys_step (s : sys) (e : event) : option (res (sys * out)) :=
  let v := y_vm s in
  match e with
  | E_call x =>
      Some (match xalloc_check lp64 v x with
            | Some why => Panic why
            | None => Ok (Sys v (y_thr s ++ [XThread x X_top false]), O_none)
            end)
  | E_step i inp =>
      let! t := y_thr s !! i in
      let! step := xalloc_step lp64 v t inp in
      Some (let? (v', pc) := step in
            Ok (Sys v' (<[i := step_thread t pc]> (y_thr s)),
                match pc with X_done (Some addr) => O_alloc (t_args t) addr | _ => O_none end))
  | E_free addr sz =>
      Some (let? (v', back) := vmem_xfree lp64 v addr sz in Ok (Sys v' (y_thr s), O_free addr sz back))
  | E_add addr sz =>
      if vm_nsegfree v <? 2 then None
      else Some (let? (v', _) := vmem_add lp64 true v addr sz in Ok (Sys v' (y_thr s), O_add addr sz))
  end.

Definition importing (t : xthread) : Z := match t_pc t with X_import _ => 1 | _ => 0 end.
Definition reserved (thr : list xthread) : Z := 4 * zsum (importing <$> thr).

(** Sizes for which the search ends. *)
Definition fits_top (sz : Z) : Prop := top = 0 ∨ sz < 2 ^ (w - 1).

Definition unconstrained (x : xargs) : Prop := x_nocross x = 0 ∧ x_minaddr x = 0 ∧ x_maxaddr x = 0.

(** The address an allocation takes in an imported span. *)
Definition import_addr (x : xargs) (vaddr : Z) : Z := phase_up vaddr (x_align x) (x_phase x).

(** The source aligns to its own quantum; it has room for a request that asks
    for no more. *)
Definition import_ok (v : vmem) (x : xargs) (vaddr : Z) : Prop :=
  ∃ sq, 0 <= sq < w ∧ vm_source_quantum v = 2 ^ sq ∧ (2 ^ sq | vaddr) ∧ x_align x <= 2 ^ sq ∧ x_size x + x_phase x + 2 ^ sq <= 2 ^ w.

Record thread_ok (v : vmem) (t : xthread) : Prop := {
  to_request : request lp64 (vm_quantum v) (t_args t);
  to_size : fits_top (x_size (t_args t));
  to_pc : ∀ asize, t_pc t = X_import asize → vm_source_alloc v = true ∧ unconstrained (t_args t) ∧ asize = import_size lp64 v (t_args t)
}.

Definition small (L : list gspan) : Prop := Forall (λ s, fits_top (s_hi s - s_lo s)) L.

Record sys_inv (s : sys) (L : list gspan) : Prop := {
  si_arena : ∃ SF, arena (reserved (y_thr s)) (y_vm s) L SF;
  si_nseg : 0 <= vm_nsegfree (y_vm s);
  si_thr : Forall (thread_ok (y_vm s)) (y_thr s);
  si_small : small L
}.

Definition sim (s : sys) (a : astate) : Prop := ∃ L, sys_inv s L ∧ a = abs L.

(** A span the specification can take. *)
Record afits (q : Z) (a : astate) (vaddr sz : Z) : Prop := {
  af_range : 0 < vaddr ∧ 0 < sz ∧ vaddr + sz <= 2 ^ w;
  af_align : (q | vaddr) ∧ (q | vaddr + sz);
  af_apart : ∀ lo hi i, (lo, hi, i) ∈ a_spans a → vaddr + sz <= lo ∨ hi <= vaddr;
  af_top : fits_top sz
}.

(** What the callers and the source arena keep to: requests as the interface
    describes them, spans that are not there yet, sizes for which the search
    ends, frees of what is allocated.  An imported span need not have the
    alignment of the request. *)
Definition legal (s : sys) (a : astate) (e : event) : Prop :=
  let v := y_vm s in
  match e with
  | E_call x => thread_ok v (XThread x X_top false)
  | E_step i inp =>
      match inp with
      | I_seg n _ => vm_mem v !! Seg n = None
      | I_addr vaddr => ∀ t asize, y_thr s !! i = Some t → t_pc t = X_import asize →
          vaddr = 0 ∨ afits (vm_quantum v) a vaddr asize
      | _ => True
      end
  | E_free addr sz => (addr, sz) ∈ a_alloc a
  | E_add addr sz => afits (vm_quantum v) a addr sz
  end.
(** ** What a step of a thread does *)

Definition out_of (x : xargs) (pc : xpc) : out := match pc with X_done (Some addr) => O_alloc x addr | _ => O_none end.
Definition imp_pc (pc : xpc) : Z := match pc with X_import _ => 1 | _ => 0 end.

(** [R] segments are reserved for other threads. *)
Definition step_ok (R : Z) (v : vmem) (L : list gspan) (x : xargs) (step : res (vmem * xpc)) : Prop :=
  (step = Panic Mandatory ∧ flag (x_vmflag x) VM_PANIC = true) ∨
  ∃ v' pc L' SF', step = Ok (v', pc) ∧ conf v' = conf v ∧ arena (R + 4 * imp_pc pc) v' L' SF' ∧ 0 <= vm_nsegfree v' ∧ small L' ∧
    astep (abs L) (out_of x pc) (abs L') ∧
    (∀ asize, pc = X_import asize → vm_source_alloc v = true ∧ unconstrained x ∧ asize = import_size lp64 v x).

Lemma arena_kadd r v L SF k n : k = vk_wait ∨ k = vk_fail ∨ k = vk_populate_fail → arena r v L SF → arena r (kadd k n v) L SF.
Proof.
  intros Hk Ha. eapply arena_same; [exact Ha|done|apply arep_kadd, Ha|]. intros k' Hk'. apply kadd_ne. intros ->.
  destruct Hk as [->|[-> | ->]]; naive_solver.
Qed.

Lemma conf_source v v' : conf v' = conf v → vm_source_alloc v' = vm_source_alloc v ∧ vm_source_quantum v' = vm_source_quantum v ∧ vm_source_free v' = vm_source_free v.
Proof. unfold conf. intros [= ]. done. Qed.

Lemma conf_import_size v v' x : conf v' = conf v → import_size lp64 v' x = import_size lp64 v x.
Proof. intros Hc. unfold import_size. by destruct (conf_source v v' Hc) as (_ & -> & _). Qed.

(** Nothing allocated, nothing changed. *)
Lemma step_same R v v' L SF x pc :
  arena R v' L SF → conf v' = conf v → 0 <= vm_nsegfree v' → small L → imp_pc pc = 0 → (∀ addr, pc ≠ X_done (Some addr)) →
  step_ok R v L x (Ok (v', pc)).
Proof.
  intros Ha Hc Hn Hs Hi Hd. right. exists v', pc, L, SF. rewrite Hi, Z.mul_0_r, Z.add_0_r. split_and!; try done.
  - destruct pc as [| | | |[a|]]; [..|by destruct (Hd a)|]; apply A_none.
  - intros asize ->. done.
Qed.

Lemma xalloc_fail_ok R v v' L SF x :
  arena R v' L SF → conf v' = conf v → 0 <= vm_nsegfree v' → small L → step_ok R v L x (xalloc_fail v' x).
Proof.
  intros Ha Hc Hn Hs. unfold xalloc_fail. destruct (flag (x_vmflag x) VM_PANIC) eqn:E; [by left|].
  eapply step_same; [apply arena_kadd; [tauto|exact Ha]|done..].
Qed.

Lemma xalloc_wait_ok R v v' L SF x :
  arena R v' L SF → conf v' = conf v → 0 <= vm_nsegfree v' → small L → step_ok R v L x (xalloc_wait v' x).
Proof.
  intros Ha Hc Hn Hs. unfold xalloc_wait. destruct (flag _ _); [by eapply xalloc_fail_ok|].
  eapply step_same; [apply arena_kadd; [tauto|exact Ha]|done..].
Qed.

Lemma xalloc_retry_ok R v v' L SF x reaped :
  arena R v' L SF → conf v' = conf v → 0 <= vm_nsegfree v' → small L → step_ok R v L x (xalloc_retry v' x reaped).
Proof. intros Ha Hc Hn Hs. unfold xalloc_retry. destruct reaped; [by eapply xalloc_wait_ok|]. by eapply step_same. Qed.

Lemma small_ends r v L SF x : arena r v L SF → small L → fits_top (x_size x) → search_ends lp64 top x L.
Proof.
  intros Ha Hs Hx. unfold search_ends, fits_top in *. destruct (decide (top = 0)); [by left|right]. split; [by destruct Hx|].
  intros g (s & Hin & [->|Hg])%elem_flat Ht; [done|]. pose proof (proj1 (Forall_forall _ _) Hs s Hin) as [?|Hlt]; [done|].
  pose proof (arena_q _ _ _ _ _ _ Ha) as Hq. pose proof (proj1 (Forall_forall _ _) (an_spans _ _ _ _ _ _ Ha) s Hin) as [O1 _ O3 _ _].
  destruct (tiles_elem _ _ _ _ _ Hq O3 Hg) as (T1 & T2 & _). pose proof (rup_spec _ (g_hi g) Hq). unfold g_size. lia.
Qed.

Lemma meets_quantum q x lo hi a : request lp64 q x → meets lp64 x lo hi a → (q | a).
Proof.
  intros Hrq [_ _ Hm _]. destruct (rq_quantum _ _ _ Hrq) as [[k Hk] Hp]. pose proof (rq_phase _ _ _ Hrq).
  pose proof (Z.div_mod a (x_align x) ltac:(lia)) as E. rewrite E, Hm, Hk. apply Z.divide_add_r; [|done]. exists (k * (a / (k * q))). lia.
Qed.

(** A range taken out of a free segment that is there. *)
Lemma take_step R v v0 L SF g x addr n :
  arena R v L SF → conf v = conf v0 → g ∈ flat L → g_type g = VMEM_FREE → request lp64 (vm_quantum v) x → meets lp64 x (g_lo g) (g_hi g) addr →
  (2 <= length SF)%nat → vm_nsegfree v = n → small L →
  ∃ v' L' SF', xalloc_take lp64 v x (g_ptr g) addr = Ok v' ∧ conf v' = conf v0 ∧ arena R v' L' SF' ∧ n - 2 <= vm_nsegfree v' ∧ small L' ∧
    place_in (abs L) x addr ∧ a_spans (abs L') = a_spans (abs L) ∧ a_alloc (abs L') ≡ₚ (addr, x_size x) :: a_alloc (abs L).
Proof.
  intros Ha Hc (s & Hs & [->|Hg])%elem_flat Ht Hrq Hmt HSF Hn Hsm; [done|].
  apply list_elem_of_split in Hs as (L1 & L2 & ->). apply list_elem_of_split in Hg as (G1 & G2 & Es). pose proof Hmt as [M1 M2 _ _].
  destruct (xalloc_take_ok lp64 top _ _ _ _ _ _ _ _ _ x addr Ha Es Ht) as (v' & mid & SF' & Htk & Hc' & Ha' & Hspl & Hlen);
    [lia|by apply (rq_size _ _ _ Hrq)|lia|by eapply meets_quantum|done|].
  destruct (take_abs _ _ _ _ _ _ _ _ _ _ _ _ _ Ha Es Ht Hmt Hspl) as (P1 & P2 & P3).
  exists v', (L1 ++ set_segs s (G1 ++ mid ++ G2) :: L2), SF'. split; [done|]. split; [congruence|]. split; [done|].
  rewrite (arena_nseg _ _ _ _ Ha), (arena_nseg _ _ _ _ Ha') in *. split; [lia|]. split; [|done].
  unfold small in *. rewrite Forall_app, Forall_cons in *. done.
Qed.
Lemma xalloc_try_ok R v L SF t :
  arena R v L SF → 0 <= R → 4 <= vm_nsegfree v → small L → thread_ok v t → step_ok R v L (t_args t) (xalloc_try lp64 v (t_args t) (t_reaped t)).
Proof.
  intros Ha HR Hn Hsm [Hrq Hsz _]. set (x := t_args t) in *.
  destruct (arena_search lp64 top _ _ _ _ _ _ Ha Hrq (small_ends _ _ _ _ _ Ha Hsm Hsz)) as (ks & o & Hse & Hk & Hfd).
  assert (arena R (with_kstat v ks) L SF) as Ha1 by (apply arena_kstat; [done|]; intros k Hk1 _ _; by apply Hk).
  unfold xalloc_try. rewrite Hse. cbn [chk]. destruct o as [[p addr]|].
  - destruct Hfd as (g & Hg & Ht & <- & Hmt & _). pose proof (arena_nseg _ _ _ _ Ha) as Hl.
    destruct (take_step R (with_kstat v ks) v L SF g x addr (vm_nsegfree v) Ha1 eq_refl Hg Ht Hrq Hmt ltac:(lia) eq_refl Hsm)
      as (v' & L' & SF' & Htk & Hc & Ha' & Hn' & Hsm' & P1 & P2 & P3).
    rewrite Htk. right. exists v', (X_done (Some addr)), L', SF'. split_and!; try done; [cbn; by rewrite Z.add_0_r|lia|].
    cbn [out_of]. destruct (abs L') as [sp rs]. cbn in P2, P3. subst sp. by constructor.
  - cbn [vm_source_alloc with_kstat]. destruct (vm_source_alloc v && (x_nocross x =? 0) && (x_minaddr x =? 0) && (x_maxaddr x =? 0)) eqn:E.
    + right. apply andb_true_iff in E as [E E4%Z.eqb_eq]. apply andb_true_iff in E as [E E3%Z.eqb_eq]. apply andb_true_iff in E as [E1 E2%Z.eqb_eq].
      do 2 eexists. exists L, SF. split; [done|]. split; [done|]. split; [apply (arena_reserve _ _ _ _ 4 Ha1)|]. split; [cbn; lia|]. split; [done|].
      split; [constructor|]. intros asize [= <-]. split_and!; try done.
    + eapply xalloc_retry_ok; [exact Ha1|done|cbn; lia|done].
Qed.

(** The span the source returns. *)
Lemma import_size_eq v x sq :
  0 <= sq < w → vm_source_quantum v = 2 ^ sq → x_align x <= 2 ^ sq → 0 < x_size x → 0 <= x_phase x → x_size x + x_phase x + 2 ^ sq <= 2 ^ w →
  import_size lp64 v x = rup (2 ^ sq) (x_size x + x_phase x).
Proof.
  intros Hsq Eq Ha Hs Hp Hw. unfold import_size. rewrite Eq, Z.max_r by done. rewrite P2ROUNDUP_uw by done. apply uw_id.
  pose proof (rup_spec (2 ^ sq) (x_size x + x_phase x) ltac:(lia)) as [_ ?]. lia.
Qed.

(** Such a span has room. *)
Lemma import_room v x vaddr q : request lp64 q x → import_ok v x vaddr → import_addr x vaddr + x_size x <= vaddr + import_size lp64 v x.
Proof.
  intros Hrq (sq & Hsq & Eq & Hd & Hal & Hov). pose proof (rq_phase _ _ _ Hrq) as Rp. pose proof (rq_size _ _ _ Hrq) as Rs.
  destruct (rq_align _ _ _ Hrq) as (a & Ha & Ea). rewrite (import_size_eq v x sq) by (done || lia).
  destruct (rup_spec (2 ^ sq) (x_size x + x_phase x) ltac:(lia)) as [_ Hru].
  assert ((x_align x | vaddr)) as Hav by (eapply Z.divide_trans; [|exact Hd]; rewrite Ea in *; apply pow2_divides; lia).
  assert (import_addr x vaddr <= vaddr + x_phase x) as Hle; [|lia].
  apply (phase_up_spec vaddr (x_align x) (x_phase x) Rp); [lia|].
  rewrite Zplus_mod, (proj2 (Z.mod_divide vaddr (x_align x) ltac:(lia)) Hav), Z.add_0_l, Z.mod_mod by lia. by apply Z.mod_small.
Qed.

(** A range that is not inside the segment it is to come from, also if its
    address wraps around. *)
Lemma take_beyond r v L SF g x addr :
  arena r v L SF → g ∈ flat L → g_type g = VMEM_FREE → 0 < g_lo g → g_lo g <= addr → 0 < x_size x → x_size x + (addr - g_lo g) <= 2 ^ w →
  g_hi g < addr + x_size x → xalloc_take lp64 v x (g_ptr g) (uw lp64 addr) = Panic Bad_arguments.
Proof.
  intros Ha Hg Ht H0 H1 Hs Hwd Hhi. destruct (arena_seg _ _ _ _ _ _ _ Ha Hg) as (G1 & G2 & _); [by rewrite Ht|].
  unfold xalloc_take. destruct (arep_free_delete lp64 top _ _ _ g _ _ _ (an_rep _ _ _ _ _ _ Ha) Hg Ht) as (v1 & -> & _ & R1); [set_solver|]. cbn [chk].
  destruct (arep_cell lp64 top _ _ _ _ _ _ g R1 Hg) as (c & Hc & Ec). injection Ec as E1 E2 E3 E4.
  unfold vmem_seg_alloc. rewrite Hc. cbn [chk]. rewrite E1, E2. pose proof (w_pos lp64) as Hw.
  rewrite uw_add_l, !uw_sub_l. rewrite (uw_id lp64 (g_hi g - 1)) by lia.
  assert (∀ y, 2 ^ w <= y < 2 * 2 ^ w → uw lp64 y = y - 2 ^ w) as Hwr.
  { intros y Hy. unfold uw, wrapu. symmetry. unfold VMEM_FREELISTS in *. apply (Z.mod_unique_pos _ _ 1); lia. }
  match goal with |- (if ?b then _ else _) = _ => assert (b = true) as ->; [|done] end.
  destruct (Z.lt_ge_cases addr (2 ^ w)) as [Ha1|Ha1].
  - rewrite (uw_id lp64 (addr - 1)) by lia. destruct (Z.le_gt_cases (addr + x_size x) (2 ^ w)) as [He|He].
    + rewrite (uw_id lp64 (addr + x_size x - 1)) by lia. rewrite (Z.gtb_ltb (addr + x_size x - 1)), (proj2 (Z.ltb_lt (g_hi g - 1) (addr + x_size x - 1))) by lia.
      by rewrite orb_true_r.
    + rewrite (Hwr (addr + x_size x - 1)) by lia. rewrite (Z.geb_leb (addr - 1)), (proj2 (Z.leb_le _ (addr - 1))) by lia. by rewrite orb_true_r.
  - rewrite (Hwr addr) by lia. rewrite (proj2 (Z.ltb_lt (addr - 2 ^ w) (g_lo g))) by lia. done.
Qed.

(** The step after [vm_source_alloc]: the allocation, or a panic when the
    span has no room at the aligned address. *)
Lemma xalloc_imported_ok R v L SF t asize vaddr :
  arena (R + 4) v L SF → 0 <= R → 0 <= vm_nsegfree v → small L → thread_ok v t → t_pc t = X_import asize →
  vaddr = 0 ∨ afits (vm_quantum v) (abs L) vaddr asize →
  let step := xalloc_imported lp64 v (t_args t) (t_reaped t) asize vaddr in
  if decide (vaddr ≠ 0 ∧ vaddr + asize < import_addr (t_args t) vaddr + x_size (t_args t)) then step = Panic Bad_arguments
  else step_ok R v L (t_args t) step.
Proof.
  intros Ha HR Hn Hsm [Hrq Hsz Hpc] Hp Hv. set (x := t_args t) in *. unfold xalloc_imported.
  set (v1 := with_segfree v (vm_nsegfree v + 4) (vm_segfree v)). cbv zeta.
  assert (arena R v1 L SF) as Ha1.
  { pose proof (arena_reserve _ _ _ _ (-4) Ha) as H1. replace (R + 4 + -4) with R in H1 by lia. replace (vm_nsegfree v - -4) with (vm_nsegfree v + 4) in H1 by lia. done. }
  destruct (Z.eqb_spec vaddr 0) as [E0|N0].
  { rewrite decide_False by tauto. eapply xalloc_retry_ok; [exact Ha1|done|cbn; lia|done]. }
  destruct Hv as [?|[Fr Fa Fp Ft]]; [done|]. destruct (Hpc asize Hp) as (Hsrc & Hun & Eas).
  pose proof (arena_nseg _ _ _ _ Ha1) as Hl. cbn [vm_nsegfree with_segfree v1] in Hl. destruct SF as [|p1 [|p2 SF]]; cbn [length] in Hl; [lia|lia|].
  destruct (vmem_span_create_ok lp64 top _ _ _ _ _ _ vaddr asize 1 Ha1) as (v2 & Hsc & Hc2 & Ha2).
  { constructor; [done|done|]. apply Forall_forall. intros s Hs. apply (Fp (s_lo s) (s_hi s) (s_import s)). cbn. apply list_elem_of_fmap. by exists s. }
  rewrite Hsc. set (g := GSeg p2 vaddr (vaddr + asize) VMEM_FREE 1). set (L2 := L ++ [new_span p1 p2 vaddr asize 1]) in *.
  assert (g ∈ flat L2) as Hg by (unfold L2; rewrite flat_app; cbn; set_solver).
  destruct (arep_cell lp64 top _ _ _ _ _ _ g (an_rep _ _ _ _ _ _ Ha2) Hg) as (c & Hc & Ec). cbn [g_ptr g] in Hc. rewrite Hc. cbn [chk].
  assert (vs_start c = vaddr) as -> by (by injection Ec).
  pose proof (rq_phase _ _ _ Hrq) as Rp. pose proof (rq_size _ _ _ Hrq) as Rs. destruct (rq_align _ _ _ Hrq) as (a & Ha' & Ea).
  destruct (phase_up_spec vaddr (x_align x) (x_phase x) Rp) as (Hpu & Hpm & _). fold (import_addr x vaddr) in Hpu, Hpm.
  assert (P2PHASEUP lp64 vaddr (x_align x) (x_phase x) = uw lp64 (import_addr x vaddr)) as ->.
  { unfold import_addr, phase_up. rewrite Ea. by apply P2PHASEUP_eq. }
  destruct (decide _) as [[_ Hout]|Hin].
  { pose proof (rq_width _ _ _ Hrq). destruct Hun as (U1 & _). rewrite U1 in *.
    pose proof (take_beyond R v2 L2 SF g x (import_addr x vaddr) Ha2 Hg eq_refl) as Hb. cbn [g g_ptr g_lo g_hi] in Hb.
    rewrite Hb; [done|lia..]. }
  assert (import_addr x vaddr + x_size x <= vaddr + asize) as Hroom by lia. rewrite (uw_id lp64 (import_addr x vaddr)) by lia.
  destruct Hun as (U1 & U2 & U3).
  assert (meets lp64 x (g_lo g) (g_hi g) (import_addr x vaddr)) as Hmt.
  { constructor; cbn; [lia|unfold x_limit; rewrite U3; cbn; lia|done|by left]. }
  assert (small L2) as Hsm2 by (apply Forall_app; split; [done|]; apply Forall_singleton; cbn; by replace (vaddr + asize - vaddr) with asize by lia).
  pose proof (arena_nseg _ _ _ _ Ha2) as Hl2.
  destruct (take_step R v2 v L2 SF g x (import_addr x vaddr) (vm_nsegfree v2) Ha2 Hc2 Hg eq_refl) as (v' & L' & SF' & Htk & Hc' & Ha3 & Hn' & Hsm' & P1 & P2 & P3);
    [by rewrite (conf_quantum v1 v2 Hc2)|done|lia|done|done|].
  cbn [g_ptr g] in Htk. rewrite Htk. right. exists v', (X_done (Some (import_addr x vaddr))), L', SF'. split_and!; try done; [cbn; by rewrite Z.add_0_r|lia|].
  cbn [out_of]. assert (abs L2 = AState (a_spans (abs L) ++ [(vaddr, vaddr + asize, 1)]) (a_alloc (abs L))) as E2.
  { unfold abs, L2. rewrite fmap_app, flat_app, ranges_app. cbn. by rewrite app_nil_r. }
  rewrite E2 in *. destruct (abs L') as [sp rs]. cbn in P2, P3. subst sp. by apply (A_import (abs L) x (import_addr x vaddr) rs vaddr asize).
Qed.
(** ** Frees and additions *)

Lemma small_sub L1 s L2 : small (L1 ++ s :: L2) → small (L1 ++ L2).
Proof. unfold small. rewrite !Forall_app, Forall_cons. tauto. Qed.

Lemma free_step R v L SF addr sz :
  arena R v L SF → 0 <= vm_nsegfree v → small L → (addr, sz) ∈ a_alloc (abs L) →
  ∃ v' back L' SF', vmem_xfree lp64 v addr sz = Ok (v', back) ∧ conf v' = conf v ∧ arena R v' L' SF' ∧ 0 <= vm_nsegfree v' ∧ small L' ∧
    astep (abs L) (O_free addr sz back) (abs L').
Proof.
  intros Ha Hn Hsm (g & Hg & Ht & -> & ->)%elem_ranges. pose proof (arena_q _ _ _ _ _ _ Ha) as Hq. pose proof Hg as (s & Hs & [->|Hgs])%elem_flat; [done|].
  pose proof (proj1 (Forall_forall _ _) (an_spans _ _ _ _ _ _ Ha) s Hs) as Os.
  apply list_elem_of_split in Hs as (L1 & L2 & ->). apply list_elem_of_split in Hgs as (G1 & G2 & Es).
  destruct (vmem_xfree_ok lp64 top _ _ _ _ _ _ _ _ _ Ha Es Ht) as (v' & o & G1' & u & G2' & Hx & Hmg & Hc & Hfr).
  destruct (merges_sums _ _ _ _ _ _ _ Hmg Ht) as (_ & _ & Hr). rewrite Hx. exists v', o.
  assert (∀ L' SF', arena R v' L' SF' → (length SF <= length SF')%nat → 0 <= vm_nsegfree v') as Hns.
  { intros L' SF' Ha' Hle. rewrite (arena_nseg _ _ _ _ Ha'). rewrite (arena_nseg _ _ _ _ Ha) in Hn. lia. }
  destruct (ranges_set_segs L1 s L2 G1 g G2 (G1' ++ u :: G2') Es) as [E1 E2].
  destruct (whole v s G1' G2') eqn:Ew; destruct Hfr as (-> & SF' & Ha' & Hle).
  - assert (G1' = [] ∧ G2' = [] ∧ (s_import s =? 0) = false) as (-> & -> & Ei).
    { unfold whole in Ew. destruct (s_import s =? 0), (vm_source_free v), G1', G2'; done. }
    exists (L1 ++ L2), SF'. split_and!; try done; [by eapply Hns|by eapply small_sub|].
    assert (ranges (flat (L1 ++ s :: L2)) ≡ₚ (g_lo g, g_size g) :: ranges (flat (L1 ++ L2))) as Hp.
    { destruct Hmg as (Hu & _). assert (ranges [u] = []) as Eu by (rewrite ranges_cons, decide_False by (by rewrite Hu); done).
      cbn [app] in Hr. rewrite E2, Hr, Eu, flat_app, ranges_app. symmetry. apply Permutation_middle. }
    pose proof (so_tiles _ _ _ Os) as Hti. rewrite Es in Hti. destruct (tiles_elem _ _ _ _ g Hq Hti) as (T1 & T2 & _); [set_solver|].
    pose proof (rup_spec _ (g_hi g) Hq). unfold abs at 2. rewrite fmap_app.
    apply (A_back _ _ _ _ _ (s_lo s) (s_hi s) (s_import s)); [done|unfold abs, a_spans; by rewrite fmap_app|by apply Z.eqb_neq|lia|unfold g_size; lia|].
    intros b n (h & Hh & Hht & -> & ->)%elem_ranges. apply elem_flat in Hh as (t & Hst & [->|Hh]); [done|].
    assert (t ∈ L1 ++ s :: L2) as Htin by set_solver. pose proof (proj1 (Forall_forall _ _) (an_spans _ _ _ _ _ _ Ha) t Htin) as Ot.
    destruct (tiles_elem _ _ _ _ _ Hq (so_tiles _ _ _ Ot) Hh) as (? & ? & _). pose proof (rup_spec _ (g_hi h) Hq).
    pose proof (an_sep _ _ _ _ _ _ Ha) as [_ Hsep]%separate_app. pose proof (proj1 (Forall_forall _ _) Hsep t Hst) as Hap. unfold apart, g_size in *. lia.
  - exists (L1 ++ set_segs s (G1' ++ u :: G2') :: L2), SF'. split_and!; try done; [by eapply Hns| |].
    + unfold small in *. rewrite Forall_app, Forall_cons in *. done.
    + assert (abs (L1 ++ set_segs s (G1' ++ u :: G2') :: L2) = AState (a_spans (abs (L1 ++ s :: L2))) (ranges (flat (L1 ++ set_segs s (G1' ++ u :: G2') :: L2)))) as ->.
      { unfold abs, a_spans. by rewrite !fmap_app. }
      constructor. unfold abs, a_alloc. rewrite E1, E2, Hr. symmetry. apply Permutation_middle.
Qed.

Lemma add_step R v L SF addr sz :
  arena R v L SF → 0 <= R → 2 <= vm_nsegfree v → small L → afits (vm_quantum v) (abs L) addr sz →
  ∃ v' L' SF', vmem_add lp64 true v addr sz = Ok (v', Some addr) ∧ conf v' = conf v ∧ arena R v' L' SF' ∧ 0 <= vm_nsegfree v' ∧ small L' ∧
    astep (abs L) (O_add addr sz) (abs L').
Proof.
  intros Ha HR Hn Hsm [Fr Fa Fp Ft]. pose proof (arena_nseg _ _ _ _ Ha) as Hl. destruct SF as [|p1 [|p2 SF]]; cbn [length] in Hl; [lia|lia|].
  destruct (vmem_span_create_ok lp64 top _ _ _ _ _ _ addr sz 0 Ha) as (v' & Hsc & Hc & Ha').
  { constructor; [done|done|]. apply Forall_forall. intros s Hs. apply (Fp (s_lo s) (s_hi s) (s_import s)). cbn. apply list_elem_of_fmap. by exists s. }
  exists v', (L ++ [new_span p1 p2 addr sz 0]), SF. unfold vmem_add. rewrite (proj2 (Z.eqb_neq addr 0)), (proj2 (Z.eqb_neq sz 0)) by lia. cbn [orb]. rewrite Hsc.
  split_and!; try done; [rewrite (arena_nseg _ _ _ _ Ha'); lia| |].
  - apply Forall_app. split; [done|]. apply Forall_singleton. cbn. by replace (addr + sz - addr) with sz by lia.
  - assert (abs (L ++ [new_span p1 p2 addr sz 0]) = AState (a_spans (abs L) ++ [(addr, addr + sz, 0)]) (a_alloc (abs L))) as ->; [|constructor].
    unfold abs. rewrite fmap_app, flat_app, ranges_app. cbn. by rewrite app_nil_r.
Qed.
(** ** The simulation *)

Lemma importing_nonneg l : 0 <= zsum (importing <$> l).
Proof. induction l as [|u l IH]; [done|]. rewrite fmap_cons, zsum_cons. unfold importing at 1. destruct (t_pc u); lia. Qed.

Lemma reserved_split thr i t :
  thr !! i = Some t → ∃ R, 0 <= R ∧ reserved thr = R + 4 * importing t ∧ ∀ t', reserved (<[i := t']> thr) = R + 4 * importing t'.
Proof.
  intros Hi. pose proof (lookup_lt_Some _ _ _ Hi) as Hlt. exists (4 * (zsum (importing <$> take i thr) + zsum (importing <$> drop (S i) thr))).
  split; [pose proof (importing_nonneg (take i thr)); pose proof (importing_nonneg (drop (S i) thr)); lia|]. unfold reserved. split.
  - rewrite <- (take_drop_middle thr i t Hi) at 1. rewrite fmap_app, zsum_app, fmap_cons, zsum_cons. lia.
  - intros t'. rewrite insert_take_drop, fmap_app, zsum_app, fmap_cons, zsum_cons by done. lia.
Qed.

Lemma thread_ok_conf v v' t : conf v' = conf v → thread_ok v t → thread_ok v' t.
Proof.
  intros Hc [T1 T2 T4]. destruct (conf_source v v' Hc) as (E1 & E2 & _). pose proof (conf_quantum v v' Hc) as Eq. constructor.
  - by rewrite Eq.
  - done.
  - intros asize Hp. rewrite E1, (conf_import_size v v') by done. by apply T4.
Qed.

(** The requests pass the checks of [vmem_xalloc]. *)
Lemma request_check r v L SF x : arena r v L SF → request lp64 (vm_quantum v) x → xalloc_check lp64 v x = None.
Proof.
  intros Ha Hrq. pose proof (an_quantum _ _ _ _ _ _ Ha) as Eq. pose proof (an_qshift _ _ _ _ _ _ Ha) as Qs.
  pose proof Hrq as [Rs (a & Ha' & Ea) Rp Rn [Q1 Q2] _ Rw]. pose proof (pow2_w lp64 _ Qs). unfold xalloc_check. rewrite (proj2 (Z.eqb_neq _ 0)) by lia.
  assert ((vm_quantum v | x_nocross x)) as Q3.
  { destruct Rn as [->|(n & Hn & En & Hle & _)]; [apply Z.divide_0_r|]. eapply Z.divide_trans; [exact Q1|]. rewrite Ea, En in *. apply pow2_divides; lia. }
  rewrite (uw_id lp64 (vm_quantum v - 1)) by lia. replace (vm_quantum v - 1) with (Z.ones (vm_qshift v)) by (rewrite Z.ones_equiv; lia).
  rewrite !Z.land_lor_distr_l, !Z.land_ones by lia. rewrite <- Eq.
  rewrite !(proj2 (Z.mod_divide _ (vm_quantum v) ltac:(lia))) by done. cbn [Z.lor Z.eqb negb].
  destruct Rn as [->|(n & Hn & En & Hle & Hps)]; [done|]. rewrite (proj2 (Z.eqb_neq (x_nocross x) 0)), Z.gtb_ltb, (proj2 (Z.ltb_ge _ _)) by lia. cbn [negb andb orb].
  rewrite Ea, P2ROUNDUP_uw by done. pose proof (pow2_w lp64 n Hn).
  pose proof (rup_least (2 ^ a) (x_phase x + x_size x) (x_nocross x) ltac:(lia) ltac:(rewrite Ea, En in *; apply pow2_divides; lia) Hps) as Hr.
  destruct (rup_spec (2 ^ a) (x_phase x + x_size x) ltac:(lia)) as [_ ?]. rewrite uw_id by lia. rewrite Z.gtb_ltb, (proj2 (Z.ltb_ge _ _)) by lia. done.
Qed.

(** The span that comes back has no room at the aligned address, which only
    happens if the alignment exceeds what the source keeps to. *)
Definition short_import (s : sys) (e : event) : Prop :=
  ∃ i vaddr t asize, e = E_step i (I_addr vaddr) ∧ y_thr s !! i = Some t ∧ t_pc t = X_import asize ∧
    vaddr + asize < import_addr (t_args t) vaddr + x_size (t_args t) ∧ ¬ import_ok (y_vm s) (t_args t) vaddr.

Lemma thread_step s L i t inp step :
  sys_inv s L → y_thr s !! i = Some t → legal s (abs L) (E_step i inp) → xalloc_step lp64 (y_vm s) t inp = Some step →
  ∃ R, reserved (y_thr s) = R + 4 * importing t ∧ (∀ t', reserved (<[i := t']> (y_thr s)) = R + 4 * importing t') ∧
    (step_ok R (y_vm s) L (t_args t) step ∨ step = Panic Bad_arguments ∧ short_import s (E_step i inp)).
Proof.
  intros [[SF Ha] Hn Hth Hsm] Hi Hleg Hst. destruct (reserved_split _ _ _ Hi) as (R & HR & E1 & E2). exists R. split; [done|]. split; [done|].
  pose proof (Forall_lookup_1 _ _ _ _ Hth Hi) as Hok. rewrite E1 in Ha. unfold importing in Ha. unfold xalloc_step in Hst.
  destruct (t_pc t) as [|asize| | |o] eqn:Ep, inp as [|n c| |vaddr]; try discriminate Hst; try (rewrite Z.mul_0_r, Z.add_0_r in Ha); rewrite ?Z.mul_1_r in Ha.
  - destruct (Z.ltb_spec (vm_nsegfree (y_vm s)) 4); [done|]. injection Hst as <-. left. by eapply xalloc_try_ok.
  - injection Hst as <-. left. destruct (arena_populate _ _ _ _ n c Ha Hleg) as (v' & -> & Hc & Hn' & Ha'). cbn [chk]. eapply step_same; [exact Ha'|done|lia|done|done|done].
  - destruct (Z.ltb_spec (vm_nsegfree (y_vm s)) 4); injection Hst as <-; left; [|by eapply xalloc_try_ok].
    eapply xalloc_fail_ok; [apply arena_kadd; [tauto|exact Ha]|done|done|done].
  - injection Hst as <-. pose proof (xalloc_imported_ok R _ _ _ _ _ vaddr Ha HR Hn Hsm Hok Ep (Hleg t asize Hi Ep)) as Hs. cbv zeta in Hs.
    destruct (decide _) as [[_ Hout]|_]; [right|by left]. split; [done|]. exists i, vaddr, t, asize. do 4 (split; [done|]). intros Him.
    destruct (to_pc _ _ Hok asize Ep) as (_ & _ & Eas). pose proof (import_room _ _ _ _ (to_request _ _ Hok) Him). lia.
  - injection Hst as <-. left. by eapply xalloc_wait_ok.
  - injection Hst as <-. left. by eapply step_same.
Qed.

Lemma sys_step_ok s a e step :
  sim s a → legal s a e → sys_step s e = Some step →
  (∃ s' o a', step = Ok (s', o) ∧ sim s' a' ∧ astep a o a') ∨
  (step = Panic Mandatory ∧ ∃ i inp t, e = E_step i inp ∧ y_thr s !! i = Some t ∧ flag (x_vmflag (t_args t)) VM_PANIC = true) ∨
  (step = Panic Bad_arguments ∧ short_import s e).
Proof.
  intros (L & Hinv & ->) Hleg Hst. pose proof Hinv as [[SF Ha] Hn Hth Hsm]. destruct e as [x|i inp|addr sz|addr sz]; cbn in Hst.
  - left. injection Hst as <-. rewrite (request_check _ _ _ _ _ Ha) by apply Hleg. do 3 eexists. split; [done|]. split; [|constructor].
    exists L. split; [|done]. constructor; cbn; [|done|apply Forall_app; split; [done|by apply Forall_singleton]|done].
    exists SF. unfold reserved. rewrite fmap_app, zsum_app. cbn. by rewrite Z.add_0_r.
  - destruct (y_thr s !! i) as [t|] eqn:Hi; [|done]. cbn in Hst. destruct (xalloc_step lp64 (y_vm s) t inp) as [r|] eqn:Hr; [|done]. cbn in Hst. injection Hst as <-.
    destruct (thread_step _ _ _ _ _ _ Hinv Hi Hleg Hr) as (R & E1 & E2 & [[[-> Hp]|(v' & pc & L' & SF' & -> & Hc & Ha' & Hn' & Hsm' & Has & Hpc)]|[-> Hsh]]).
    { right; left. split; [done|]. by exists i, inp, t. }
    2: { by right; right. }
    left. do 3 eexists. split; [done|]. split; [|exact Has]. exists L'. split; [|done]. constructor; cbn; [|done| |done].
    + exists SF'. rewrite E2. exact Ha'.
    + apply Forall_insert; [eapply Forall_impl; [exact Hth|]; intros u; by apply thread_ok_conf|].
      apply (thread_ok_conf (y_vm s)); [done|]. destruct (Forall_lookup_1 _ _ _ _ Hth Hi) as [T1 T2 T4]. constructor; try done.
  - left. injection Hst as <-. destruct (free_step _ _ _ _ _ _ Ha Hn Hsm Hleg) as (v' & back & L' & SF' & -> & Hc & Ha' & Hn' & Hsm' & Has).
    do 3 eexists. split; [done|]. split; [|exact Has]. exists L'. split; [|done]. constructor; cbn; [by exists SF'|done| |done].
    eapply Forall_impl; [exact Hth|]. intros u. by apply thread_ok_conf.
  - left. destruct (Z.ltb_spec (vm_nsegfree (y_vm s)) 2); [done|]. injection Hst as <-.
    assert (0 <= reserved (y_thr s)) as HR by (unfold reserved; pose proof (importing_nonneg (y_thr s)); lia).
    destruct (add_step _ _ _ _ _ _ Ha HR ltac:(lia) Hsm Hleg) as (v' & L' & SF' & -> & Hc & Ha' & Hn' & Hsm' & Has).
    do 3 eexists. split; [done|]. split; [|exact Has]. exists L'. split; [|done]. constructor; cbn; [by exists SF'|done| |done].
    eapply Forall_impl; [exact Hth|]. intros u. by apply thread_ok_conf.
Qed.
End sys.
