(* ===== verification/VmemView.v ===== *)
(** * VmemView: rescaling the hash table, and what can be seen of an arena

    [vmem_hash_rescale] moves every allocated segment to its bucket in the
    new table; [vmem_walk], [vmem_contains] and [vmem_size] report the
    segments, the spans and their sizes. *)

From Stdlib Require Import ZArith Lia.
From stdpp Require Import base numbers option list gmap.
From S2P Require Import Prelude Bitmap Vmem VmemRep VmemArena VmemInv VmemFree VmemSpan VmemSearch VmemAlloc.

#[local] Open Scope Z_scope.

Section view.
Context (lp64 : bool) (top : Z).
Abbreviation w := (VMEM_FREELISTS lp64).
Abbreviation arep := (arep lp64 top).
Abbreviation arena := (arena lp64 top).

(** ** vmem_hash_rescale() *)

(** An iteration of the loop is [vmem_hash_insert] for a segment that has the
    type already, without its accounting. *)
Lemma rehash_step_ok r v A g K SF X :
  arep r v A K SF X → g ∈ A → g_type g = VMEM_ALLOC → g_ptr g ∈ X → 0 <= vm_hash_mask v →
  ∃ v' c q, vm_mem v !! g_ptr g = Some c ∧ rehash_step lp64 (v, Some (g_ptr g)) = Some (Next (v', vs_knext c)) ∧
    frame v v' ∧ vm_mem v' = <[g_ptr g := set_vnext Lk q c]> (vm_mem v) ∧ arep r v' A K SF (X ∖ {[g_ptr g]}).
Proof.
  intros Ha Hg Ht HX Hm. apply list_elem_of_split in Hg as (A1 & A2 & ->).
  destruct (arep_cell lp64 top _ _ _ _ _ _ g Ha) as (c & Hc & Ec); [set_solver|].
  destruct (arep_hash_insert lp64 top _ _ _ _ _ _ _ _ Ha HX Hm) as (v2 & Hi & Hc2 & Hk2 & Ha2).
  assert (set_type VMEM_ALLOC c = c) as Esame by (injection Ec as _ _ E3 _; rewrite Ht in E3; destruct c; cbn in *; by subst).
  unfold vmem_hash_insert, upd in Hi. rewrite Hc, Esame in Hi. cbn in Hi. rewrite insert_id, Hc in Hi by done. cbn in Hi.
  unfold rehash_step. rewrite Hc. destruct (vm_hash_table v !! VMEM_HASH lp64 v (vs_start c)) as [h|]; [|done]. cbn in Hi |- *. unfold upd. rewrite Hc.
  destruct (wr (vm_hash_table v) _ _) as [t|]; [|done]. injection Hi as <-. cbn. eexists _, c, h. split; [done|]. split; [done|].
  split; [done|]. split; [done|]. assert (with_type g VMEM_ALLOC = g) as E by (unfold with_type; rewrite <- Ht; by destruct g). rewrite E in Ha2.
  destruct Ha2 as [(F & H & R & C & Hlen) Hok HX2]. constructor; [|done|done]. exists F, H. split; [|done]. apply (rep_kstat lp64 top _ _ (vm_kstat v)) in R. exact R.
Qed.

Lemma sll_elem m o l p : sll m o l → p ∈ l → is_Some (m !! p).
Proof.
  revert o. induction l as [|q l IH]; intros o Hl Hp; [by apply elem_of_nil in Hp|]. destruct Hl as (_ & Hq & Hl).
  apply elem_of_cons in Hp as [->|Hp]; [done|by eapply IH].
Qed.

Lemma sll_other m p c q o l : p ∉ l → sll m o l → sll (<[p := set_vnext Lk q c]> m) o l.
Proof.
  intros Hp Hl. eapply sll_ext; [|exact Hl]. intros x Hx. assert (x ≠ p) by (by intros ->). rewrite nxt_insert, lookup_insert_ne, decide_False by done.
  split; [by eapply sll_elem|done].
Qed.

(** The segments of a chain that are still to be moved. *)
Definition pending (A : list gseg) (l : list sptr) : Prop := ∀ p, p ∈ l → ∃ g, g ∈ A ∧ g_ptr g = p ∧ g_type g = VMEM_ALLOC.

(** One old bucket. *)
Lemma rehash_chain r A K SF l : ∀ v o X fuel,
  arep r v A K SF X → 0 <= vm_hash_mask v → sll (vm_mem v) o l → NoDup l → pending A l → (∀ p, p ∈ l → p ∈ X) → (length l < fuel)%nat →
  ∃ v', run (rehash_step lp64) fuel (v, o) = Some v' ∧ frame v v' ∧ arep r v' A K SF (X ∖ list_to_set l) ∧
    (∀ o' l', sll (vm_mem v) o' l' → (∀ p, p ∈ l' → p ∉ l) → sll (vm_mem v') o' l') ∧ dom (vm_mem v') = dom (vm_mem v).
Proof.
  induction l as [|p l IH]; intros v o X fuel Ha Hm Hl Hnd Hp HX Hf; destruct fuel as [|fuel]; [cbn in Hf; lia| |cbn in Hf; lia|].
  - cbn in Hl. subst o. exists v. cbn. rewrite difference_empty_L. by split_and!.
  - destruct Hl as (-> & Hs & Hl). apply NoDup_cons in Hnd as [Hn1 Hn2]. destruct (Hp p) as (g & Hg & <- & Ht); [by left|].
    destruct (rehash_step_ok _ _ _ _ _ _ _ Ha Hg Ht) as (v1 & c & q & Hc & Hst & Hf1 & Em & Ha1); [apply HX; by left|done|].
    cbn [run]. rewrite Hst. cbn. rewrite (nxt_at _ _ _ _ Hc) in Hl. cbn in Hl.
    destruct (IH v1 (vs_knext c) (X ∖ {[g_ptr g]}) fuel Ha1) as (v' & Hr & Hf' & Ha' & Hkeep & Hdom).
    { by rewrite (conf_mask v v1 (proj1 Hf1)). }
    { rewrite Em. by apply sll_other. }
    { done. }
    { intros x Hx. apply Hp. by right. }
    { intros x Hx. apply elem_of_difference. split; [apply HX; by right|]. intros ->%elem_of_singleton. done. }
    { cbn in Hf. lia. }
    exists v'. split; [done|]. split; [by eapply frame_trans|]. split_and!.
    + by rewrite <- difference_difference_l_L.
    + intros o' l' Hl' Hd. apply Hkeep; [|set_solver]. rewrite Em. apply sll_other; [set_solver|done].
    + rewrite Hdom, Em, dom_insert_L. apply subseteq_union_1_L, singleton_subseteq_l, elem_of_dom. eauto.
Qed.

(** The whole old table. *)
Lemma rehash_ok r A K SF old : ∀ v H X,
  arep r v A K SF X → 0 <= vm_hash_mask v → Forall2 (sll (vm_mem v)) old H → NoDup (concat H) → pending A (concat H) → X = list_to_set (concat H) →
  ∃ v', rehash lp64 old v = Some v' ∧ frame v v' ∧ arep r v' A K SF ∅.
Proof.
  induction old as [|o old IH]; intros v H X Ha Hm HF Hnd Hp HX.
  - apply Forall2_nil_inv_l in HF as ->. cbn in HX. subst X. by exists v.
  - apply Forall2_cons_inv_l in HF as (l & H' & Hl & HF & ->). cbn in Hnd, Hp, HX. apply NoDup_app in Hnd as (N1 & N2 & N3).
    destruct (rehash_chain r A K SF l v o X (seg_fuel v) Ha Hm Hl N1) as (v1 & Hr & Hf & Ha1 & Hkeep & _).
    { intros p Hpl. apply Hp. set_solver. }
    { intros p Hpl. subst X. set_solver. }
    { unfold seg_fuel. assert (length l <= size (vm_mem v))%nat; [|lia].
      rewrite <- (size_list_to_set (C := gset sptr) l N1), <- (size_dom (D := gset sptr)). apply subseteq_size. intros p Hpl%elem_of_list_to_set.
      apply elem_of_dom. by eapply sll_elem. }
    destruct (IH v1 H' (X ∖ list_to_set l) Ha1) as (v' & Hr' & Hf' & Ha').
    { by rewrite (conf_mask v v1 (proj1 Hf)). }
    { apply Forall2_same_length_lookup in HF as [Hlen HF]. apply Forall2_same_length_lookup. split; [done|]. intros i o' l' Ho' Hl'. apply Hkeep; [by eapply HF|].
      intros p Hpl Hpl2. apply (N2 p Hpl2). apply elem_concat. eauto. }
    { done. }
    { intros p Hpl. apply Hp. set_solver. }
    { subst X. apply set_eq. set_solver. }
    exists v'. cbn [rehash]. rewrite Hr. split; [done|]. split; [by eapply frame_trans|done].
Qed.
(** The new table, before any segment is moved to it. *)
Lemma new_table_arep r v A K SF n shift :
  arep r v A K SF ∅ → 0 <= vm_hash_mask v → (0 < n)%nat →
  ∃ H, arep r (with_new_table v (replicate n None) (Z.of_nat n - 1) shift) A K SF (list_to_set (concat H)) ∧
    Forall2 (sll (vm_mem v)) (vm_hash_table v) H ∧ NoDup (concat H) ∧ pending A (concat H).
Proof.
  intros [(F & H & [Rm Rn Rf] & [C1 C2 C3] & Hlen) Hok _] Hm Hn. exists H.
  assert (∀ p, p ∈ concat H → ∃ g, g ∈ A ∧ g_ptr g = p ∧ g_type g = VMEM_ALLOC) as Hpend.
  { intros p (b & l & Hb & Hp)%elem_concat. destruct (proj1 (C3 b l p Hb) Hp) as (g & ? & ? & _ & ? & _). by exists g. }
  assert (NoDup (concat H)) as Hnd by (eapply NoDup_app_l, NoDup_app_r, NoDup_app_r, (r_kin _ _ _ _ _ _ _ _ _ _ Rm)).
  assert (∀ g, g ∈ A → g_type g ≠ VMEM_ALLOC → g_ptr g ∉ (list_to_set (concat H) : gset sptr)) as Hty.
  { intros g Hg Hgt (h & Hh & Ehp & Hht)%elem_of_list_to_set%Hpend. destruct Hgt.
    by rewrite <- (g_ptr_inj A h g SF (r_own _ _ _ _ _ _ _ _ _ _ Rm) Hh Hg Ehp). }
  split_and!; [|apply (r_h _ _ _ _ _ _ _ _ _ _ Rm)|done|done].
  constructor; [|done|intros p Hp%elem_of_list_to_set; apply (r_sub _ _ _ _ _ _ _ _ _ _ Rm); set_solver].
  exists F, (replicate n []). split; [|split; [|rewrite length_replicate; cbn; lia]].
  - constructor; [|done|done]. destruct Rm as [R1 R2 R3 R4 R5 R6 R7 R8 R9 R10 R11 R12 R13 R14]. constructor; try done; rewrite ?concat_nils.
    + cbn [app]. apply NoDup_app in R6 as (M1 & M2 & R6). apply NoDup_app in R6 as (M3 & M4 & R6). apply NoDup_app in R6 as (M5 & M6 & M7).
      apply NoDup_app. split; [done|]. split; [set_solver|]. apply NoDup_app. split; [done|]. split; [set_solver|done].
    + intros p Hp. apply R7. set_solver.
    + apply Forall2_replicate. done.
  - constructor.
    + intros p. rewrite C1. unfold on. split; intros (g & G1 & <- & G3 & G4); exists g; split_and!; try done. apply Hty; [done|by rewrite G4].
    + intros i l p Hi. rewrite (C2 i l p Hi). unfold on. split; intros (g & G1 & <- & G3 & G4 & G5); exists g; split_and!; try done. apply Hty; [done|by rewrite G4].
    + intros b l p [-> _]%lookup_replicate. split; [by intros ?%elem_of_nil|]. intros (g & G1 & G2 & G3 & G4 & _). destruct G3. apply elem_of_list_to_set.
      destruct (lookup_lt_is_Some_2 H (VMEM_HASH lp64 v (g_lo g))) as [l Hl]; [|apply elem_concat; exists (VMEM_HASH lp64 v (g_lo g)), l; split; [done|]; apply (C3 _ _ _ Hl); by exists g].
      by apply VMEM_HASH_lt.
Qed.

Lemma new_hash_size_pos v : 64 <= new_hash_size lp64 v.
Proof. unfold new_hash_size. apply (Z.le_max_l 64). Qed.

Lemma vmem_hash_rescale_ok r v L SF nomem :
  arena r v L SF → ∃ v', vmem_hash_rescale lp64 nomem v = Some v' ∧ vm_kstat v' = vm_kstat v ∧ arena r v' L SF ∧
    (vm_quantum v', vm_source_alloc v', vm_source_free v', vm_source_quantum v') = (vm_quantum v, vm_source_alloc v, vm_source_free v, vm_source_quantum v).
Proof.
  intros Ha. unfold vmem_hash_rescale. destruct (_ && _); [by exists v|]. destruct nomem; [by exists v|]. pose proof Ha as [R Eq Qs Hm Hsp Hsep Hst].
  pose proof (new_hash_size_pos v) as Hp. set (n := Z.to_nat (new_hash_size lp64 v)). set (sh := highbit _ _).
  destruct (new_table_arep r v _ _ _ n sh R Hm) as (H & R1 & HF & Hnd & Hpe); [lia|]. replace (new_hash_size lp64 v - 1) with (Z.of_nat n - 1) in * by lia.
  destruct (rehash_ok r _ _ _ (vm_hash_table v) _ H _ R1) as (v' & Hr & [Hc Hk] & R'); [cbn; lia|done|done|done|done|].
  exists v'. split; [exact Hr|]. split; [exact Hk|]. unfold conf in Hc. cbn in Hc. injection Hc as E1 E2 E3 E4 E5 E6 E7 E8 E9. split; [|congruence].
  constructor; rewrite ?E1, ?E2, ?E8, ?Hk; try done. lia.
Qed.
(** ** Rings *)

Lemma ring_next lk m l1 p l2 : dll lk m (Seg0 :: (l1 ++ p :: l2) ++ [Seg0]) → nxt lk m p = Some (default Seg0 (head l2)).
Proof.
  rewrite <- app_assoc. cbn [app]. change (Seg0 :: l1 ++ ?x) with ((Seg0 :: l1) ++ x).
  destruct l2 as [|q l2]; intros Hd; by apply (dll_next lk m (Seg0 :: l1)) in Hd as [? _].
Qed.

Lemma ring_first lk m l : dll lk m (Seg0 :: l ++ [Seg0]) → nxt lk m Seg0 = Some (default Seg0 (head l)).
Proof. destruct l as [|q l]; intros Hd; by apply (dll_next _ _ []) in Hd as [? _]. Qed.

(** ** vmem_walk() *)

Definition seen (typemask : Z) (A : list gseg) : list (Z * Z) :=
  (λ g, (g_lo g, g_size g)) <$> filter (λ g, flag (g_type g) typemask = true) A.

Lemma seen_cons mask g A : seen mask (g :: A) = (if flag (g_type g) mask then [(g_lo g, g_size g)] else []) ++ seen mask A.
Proof.
  unfold seen. rewrite filter_cons. destruct (decide _) as [E|E]; [by rewrite E|].
  by apply not_true_is_false in E as ->.
Qed.

Lemma walk_run r v A K SF X mask A2 : ∀ A1 calls fuel,
  arep r v A K SF X → A = A1 ++ A2 → (length A2 < fuel)%nat →
  run (walk_step lp64 v mask) fuel (Some (default Seg0 (head (ptrs A2))), calls) = Some (rev calls ++ seen mask A2).
Proof.
  induction A2 as [|g A2 IH]; intros A1 calls fuel Ha E Hf; destruct fuel as [|fuel]; [cbn in Hf; lia| |cbn in Hf; lia|].
  - cbn. by rewrite app_nil_r.
  - rewrite E in Ha. destruct (arep_neighbours lp64 top _ _ _ _ _ _ _ _ Ha) as (c & Hc & Ec & _ & Hn).
    assert (g_ptr g ≠ Seg0) as Hne.
    { intros E0. destruct (ar_lists _ _ _ _ _ _ _ _ Ha) as (F & H & [Rm _ _] & _). apply not_seg0. rewrite <- E0. apply (reps_seg _ Rm). left. apply elem_ptrs. set_solver. }
    assert (seg_ok lp64 g) as (U1 & U2 & U3) by (pose proof (ar_ok _ _ _ _ _ _ _ _ Ha) as Hok; rewrite Forall_app, Forall_cons in Hok; tauto).
    cbn [run walk_step head ptrs fmap list_fmap default from_option id]. change (id (g_ptr g)) with (g_ptr g). rewrite decide_False, Hc by done. cbn [mbind option_bind].
    rewrite Hn, (vs_size_cell lp64 c g Ec) by lia. injection Ec as E1 _ E3 _. rewrite E1, E3.
    rewrite (IH (A1 ++ [g])); [|by rewrite E in *|by rewrite <- app_assoc|cbn in Hf; lia].
    rewrite seen_cons. destruct (flag (g_type g) mask); cbn; [by rewrite <- app_assoc|done].
Qed.
Lemma arep_fuel r v A K SF X : arep r v A K SF X → (length A < seg_fuel v)%nat.
Proof.
  intros Ha. unfold seg_fuel. assert (length A <= size (vm_mem v))%nat; [|lia]. pose proof (arep_nodup _ _ _ _ _ _ _ _ Ha) as Hnd%NoDup_app_l.
  replace (length A) with (length (ptrs A)) by (unfold ptrs; by rewrite length_fmap).
  rewrite <- (size_list_to_set (C := gset sptr) _ Hnd), <- (size_dom (D := gset sptr)). apply subseteq_size. intros p (g & Hg & <-)%elem_of_list_to_set%ptrs_elem.
  apply elem_of_dom. destruct (arep_cell lp64 top _ _ _ _ _ _ g Ha Hg) as (c & -> & _). eauto.
Qed.

(** [vmem_walk] calls the function for the segments of the types of the mask,
    in the order of the arena list. *)
Lemma vmem_walk_ok r v L SF mask : arena r v L SF → vmem_walk lp64 v mask = Some (seen mask (flat L)).
Proof.
  intros [R _ _ _ _ _ _]. unfold vmem_walk. pose proof (arep_fuel _ _ _ _ _ _ R) as Hf. destruct (ar_lists _ _ _ _ _ _ _ _ R) as (F & H & [Rm _ _] & _).
  pose proof (ring_first _ _ _ (r_a _ _ _ _ _ _ _ _ _ _ Rm)) as Hn. destruct (nxt_Some _ _ _ _ Hn) as (c0 & -> & Hc0). cbn in Hc0. cbn [mbind option_bind]. rewrite Hc0.
  rewrite (walk_run r v (flat L) _ SF ∅ mask (flat L) [] [] (seg_fuel v) R eq_refl Hf). done.
Qed.

(** ** vmem_contains() *)

Definition in_one_span (L : list gspan) (lo hi : Z) : bool := existsb (λ s, (lo >=? s_lo s) && (hi <=? s_hi s)) L.

Lemma contains_run r v L SF start sz L2 : ∀ L1 ks fuel,
  arena r v L SF → L = L1 ++ L2 → 0 <= start → 0 < sz → start + sz <= 2 ^ w → (length L2 < fuel)%nat →
  ∃ ks', run (contains_step lp64 start (uw lp64 (start + sz))) fuel (with_kstat v ks, Some (default Seg0 (head (s_ptr <$> L2)))) =
      Some (with_kstat v ks', in_one_span L2 start (start + sz)) ∧ ∀ k, k ≠ vk_contains_search → ks' k = ks k.
Proof.
  induction L2 as [|s L2 IH]; intros L1 ks fuel Ha E H0 Hs He Hf; destruct fuel as [|fuel]; [cbn in Hf; lia| |cbn in Hf; lia|].
  - exists ks. by split.
  - destruct (ar_lists _ _ _ _ _ _ _ _ (an_rep _ _ _ _ _ _ Ha)) as (F & H & [Rm Rn Rf] & C & _).
    assert (marker s ∈ flat L) as Hin by (apply elem_flat; exists s; split; [set_solver|by left]).
    destruct (rep_cell _ _ _ _ _ _ _ _ _ _ (Build_rep _ _ _ _ _ _ _ _ _ Rm Rn Rf) Hin) as (c & Hc & Ec). cbn [marker g_ptr] in Hc.
    assert (s_ptr s ≠ Seg0) as Hne by (intros E0; apply not_seg0; rewrite <- E0; apply (reps_seg _ Rm); left; by apply (elem_ptrs (marker s))).
    pose proof (r_k _ _ _ _ _ _ _ _ _ _ Rm) as Hk. rewrite E, fmap_app, fmap_cons in Hk. pose proof (ring_next _ _ _ _ _ Hk) as Hn.
    rewrite (nxt_at _ _ _ _ Hc) in Hn. cbn in Hn.
    assert (span_ok lp64 (vm_quantum v) s) as [O1 _ _ _ _] by (apply (proj1 (Forall_forall _ _) (an_spans _ _ _ _ _ _ Ha)); set_solver).
    set (ks1 := vm_kstat (kadd vk_contains_search 1 (with_kstat v ks))).
    destruct (IH (L1 ++ [s]) ks1 fuel Ha) as (ks' & Hr & Hks); [by rewrite <- app_assoc|done|done|done|cbn in Hf; lia|].
    cbn [run contains_step head fmap list_fmap]. change (default Seg0 (Some (s_ptr s))) with (s_ptr s). cbn [mbind option_bind]. rewrite decide_False by done.
    cbn [vm_mem with_kstat kadd]. rewrite Hc. cbn [mbind option_bind]. injection Ec as E1 E2 _ _. rewrite E1, E2. cbn [marker g_lo g_hi].
    rewrite !uw_sub_l, !(uw_id lp64 (_ - 1)) by lia. cbn [in_one_span existsb].
    assert ((start + sz - 1 <=? s_hi s - 1) = (start + sz <=? s_hi s)) as -> by (destruct (Z.leb_spec (start + sz) (s_hi s)); [apply Z.leb_le; lia|apply Z.leb_gt; lia]).
    destruct ((start >=? s_lo s) && (start + sz <=? s_hi s)).
    + exists ks1. split; [done|]. intros k Hkk. unfold ks1. by rewrite kadd_ne.
    + rewrite Hn. exists ks'. split; [exact Hr|]. intros k Hkk. rewrite Hks by done. unfold ks1. by rewrite kadd_ne.
Qed.

(** [vmem_contains] says whether the range lies in one span. *)
Lemma vmem_contains_ok r v L SF start sz :
  arena r v L SF → 0 <= start → 0 < sz → start + sz <= 2 ^ w →
  ∃ ks, vmem_contains lp64 v start sz = Some (with_kstat v ks, in_one_span L start (start + sz)) ∧
    ∀ k, k ≠ vk_contains → k ≠ vk_contains_search → ks k = vm_kstat v k.
Proof.
  intros Ha H0 Hs He. unfold vmem_contains. destruct (ar_lists _ _ _ _ _ _ _ _ (an_rep _ _ _ _ _ _ Ha)) as (F & H & [Rm _ _] & _).
  pose proof (ring_first _ _ _ (r_k _ _ _ _ _ _ _ _ _ _ Rm)) as Hn. destruct (nxt_Some _ _ _ _ Hn) as (c0 & -> & Hc0). cbn in Hc0. cbn [mbind option_bind]. rewrite Hc0.
  assert (length L < seg_fuel v)%nat as Hf.
  { pose proof (arep_fuel _ _ _ _ _ _ (an_rep _ _ _ _ _ _ Ha)). assert (length L <= length (flat L))%nat; [|lia].
    clear. induction L as [|s L IH]; cbn; [done|]. rewrite length_app. lia. }
  destruct (contains_run r v L SF start sz L [] (vm_kstat (kadd vk_contains 1 v)) (seg_fuel v) Ha eq_refl H0 Hs He Hf) as (ks & Hr & Hk).
  exists ks. split; [exact Hr|]. intros k Hk1 Hk2. rewrite Hk by done. by apply kadd_ne.
Qed.

(** ** vmem_size() *)

Lemma uw_u64 x : uw lp64 (u64 x) = uw lp64 x.
Proof. unfold uw, wrapu. apply Z.mod_mod_divide. destruct lp64; [by exists 1|by exists (2 ^ 32)]. Qed.

(** The sizes are those of the spans and of the allocated segments. *)
Lemma vmem_size_ok r v L SF :
  arena r v L SF →
  vmem_size lp64 v VMEM_ALLOC = uw lp64 (inuse (flat L)) ∧
  vmem_size lp64 v VMEM_FREE = uw lp64 (span_total L - inuse (flat L)) ∧
  vmem_size lp64 v (VMEM_ALLOC + VMEM_FREE) = uw lp64 (span_total L).
Proof.
  intros [_ _ _ _ _ _ [S1 S2 _ _]]. unfold vmem_size.
  change (flag VMEM_ALLOC VMEM_ALLOC) with true. change (flag VMEM_ALLOC VMEM_FREE) with false. change (flag VMEM_FREE VMEM_ALLOC) with false.
  change (flag VMEM_FREE VMEM_FREE) with true. change (flag (VMEM_ALLOC + VMEM_FREE) VMEM_ALLOC) with true. change (flag (VMEM_ALLOC + VMEM_FREE) VMEM_FREE) with true.
  rewrite S1, S2, !uw_u64. unfold wrapu. rewrite <- !Zminus_mod, !Z.add_0_l, !Zmod_mod. split_and!; [apply uw_u64|apply uw_u64|].
  rewrite <- (uw_u64 (_ + _)). unfold wrapu. rewrite <- Zplus_mod. fold (wrapu 64 (inuse (flat L) + (span_total L - inuse (flat L)))). rewrite uw_u64. f_equal. lia.
Qed.
(** Vmem_walk() visits exactly the segments whose type is in the mask,
    vmem_contains() answers whether a range lies within one span, and
    vmem_size() gives the sizes of the allocated segments, of the rest of the
    spans, and of the spans. *)
Theorem vmem_views r v L SF :
  arena r v L SF →
  (∀ mask, vmem_walk lp64 v mask = Some (seen mask (flat L))) ∧
  (∀ start sz, 0 <= start → 0 < sz → start + sz <= 2 ^ w →
     ∃ ks, vmem_contains lp64 v start sz = Some (with_kstat v ks, in_one_span L start (start + sz)) ∧
       ∀ k, k ≠ vk_contains → k ≠ vk_contains_search → ks k = vm_kstat v k) ∧
  vmem_size lp64 v VMEM_ALLOC = uw lp64 (inuse (flat L)) ∧
  vmem_size lp64 v VMEM_FREE = uw lp64 (span_total L - inuse (flat L)) ∧
  vmem_size lp64 v (VMEM_ALLOC + VMEM_FREE) = uw lp64 (span_total L).
Proof.
  intros Ha. split; [intros mask; by apply (vmem_walk_ok _ _ _ _ _ Ha)|]. split; [|by apply (vmem_size_ok _ _ _ _ Ha)].
  intros start sz. by apply (vmem_contains_ok _ _ _ _ _ _ Ha).
Qed.
End view.
