(* ===== verification/VmemProps.v ===== *)
(** * VmemProps: what the vmem allocator promises

    The arenas that the operations can make are well formed; the search is
    right, freeing undoes an allocation, the threads of [VmemSys] implement
    the specification; and two requests that the code does not survive. *)

From Stdlib Require Import ZArith Lia.
From stdpp Require Import base numbers option list gmap.
From S2P Require Import Prelude Bitmap Vmem VmemRep VmemArena VmemInv VmemFree VmemSpan VmemSearch VmemAlloc VmemSys VmemView.

#[local] Open Scope Z_scope.

(** ** Errors of vmem_xfree() *)

Section errors.
Context (lp64 : bool) (top : Z).
Abbreviation arena := (arena lp64 top).

Lemma xfree_bad r v L SF addr sz :
  arena r v L SF → (∀ n, (addr, n) ∉ ranges (flat L)) → vmem_xfree lp64 v addr sz = Panic Bad_free.
Proof.
  intros Ha Hno. unfold vmem_xfree. rewrite (arep_hash_delete_none lp64 top _ _ _ _ _ _ addr sz (an_rep _ _ _ _ _ _ Ha) (an_mask _ _ _ _ _ _ Ha)); [done|].
  intros h Hh Ht <-. apply (Hno (g_size h)). apply elem_ranges. by exists h.
Qed.

Lemma xfree_wrong r v L SF addr n sz :
  arena r v L SF → (addr, n) ∈ ranges (flat L) → sz ≠ n → vmem_xfree lp64 v addr sz = Panic Wrong_size.
Proof.
  intros Ha (g & Hg & Ht & -> & ->)%elem_ranges Hne. unfold vmem_xfree.
  destruct (arep_hash_delete lp64 top _ _ _ g _ _ _ (an_rep _ _ _ _ _ _ Ha) Hg Ht) as (v1 & _ & _ & _ & _ & Hw); [set_solver|by apply (an_mask _ _ _ _ _ _ Ha)| |by rewrite Hw].
  intros h Hh Th E. symmetry. eapply (arena_start_inj lp64 (vm_quantum v)); [by eapply arena_q|by apply (an_spans _ _ _ _ _ _ Ha)|by apply (an_sep _ _ _ _ _ _ Ha)|done..].
Qed.

(** A free that returns was of an allocated range. *)
Lemma xfree_returns r v L SF addr sz v' o :
  arena r v L SF → vmem_xfree lp64 v addr sz = Ok (v', o) → (addr, sz) ∈ ranges (flat L).
Proof.
  intros Ha Hx. destruct (decide ((addr, sz) ∈ ranges (flat L))) as [|Hn]; [done|exfalso].
  destruct (decide (Exists (λ y, y.1 = addr) (ranges (flat L)))) as [He|He].
  - apply Exists_exists in He as ([b n] & Hin & Eb). cbn in Eb. subst b.
    rewrite (xfree_wrong _ _ _ _ _ _ _ Ha Hin) in Hx; [done|]. by intros ->.
  - rewrite (xfree_bad _ _ _ _ _ _ Ha) in Hx; [done|]. intros n Hin. apply He. apply Exists_exists. by exists (addr, n).
Qed.
End errors.

(** ** The arenas that the operations make *)

Section reach.
Context (lp64 : bool) (top : Z).
Abbreviation arena := (arena lp64 top).

(** [v] is made by [vmem_create] and the operations under the lock, with
    requests the interface allows and spans that are not there yet. *)
Inductive reachable : vmem → Prop :=
  | R_create quantum qs afunc ffunc sq qcache_max :
      quantum = 2 ^ qs → 0 <= qs < VMEM_FREELISTS lp64 → reachable (vmem_create lp64 top quantum afunc ffunc sq qcache_max)
  | R_populate v n c v' : reachable v → vm_mem v !! Seg n = None → populate_seg v n c = Some v' → reachable v'
  | R_span v vaddr sz import v' p spans :
      reachable v → 2 <= vm_nsegfree v → vmem_walk lp64 v VMEM_SPAN = Some spans → 0 < vaddr → 0 < sz → vaddr + sz <= 2 ^ VMEM_FREELISTS lp64 →
      (∀ b n, (b, n) ∈ spans → vaddr + sz <= b ∨ b + n <= vaddr) → vmem_span_create lp64 v vaddr sz import = Ok (v', p) → reachable v'
  | R_alloc v x v1 p addr v' :
      reachable v → 2 <= vm_nsegfree v → request lp64 (vm_quantum v) x → 
      (top = 0 ∨ (x_size x < 2 ^ (VMEM_FREELISTS lp64 - 1) ∧ ∀ frees b n, vmem_walk lp64 v VMEM_FREE = Some frees → (b, n) ∈ frees → n < 2 ^ (VMEM_FREELISTS lp64 - 1))) →
      xalloc_search lp64 v x = Some (v1, Some (p, addr)) → xalloc_take lp64 v1 x p addr = Ok v' → reachable v'
  | R_free v addr sz v' o : reachable v → vmem_xfree lp64 v addr sz = Ok (v', o) → reachable v'
  | R_rescale v nomem v' : reachable v → vmem_hash_rescale lp64 nomem v = Some v' → reachable v'.
Lemma elem_seen mask A b n : (b, n) ∈ seen mask A ↔ ∃ g, g ∈ A ∧ flag (g_type g) mask = true ∧ b = g_lo g ∧ n = g_size g.
Proof.
  unfold seen. rewrite list_elem_of_fmap. split.
  - intros (g & [= -> ->] & [Hf Hg]%list_elem_of_filter). by exists g.
  - intros (g & Hg & Hf & -> & ->). exists g. split; [done|]. by apply list_elem_of_filter.
Qed.

Lemma walk_spans r v L SF spans vaddr sz :
  arena r v L SF → vmem_walk lp64 v VMEM_SPAN = Some spans → (∀ b n, (b, n) ∈ spans → vaddr + sz <= b ∨ b + n <= vaddr) →
  Forall (λ t, vaddr + sz <= s_lo t ∨ s_hi t <= vaddr) L.
Proof.
  intros Ha Hw Hap. rewrite (vmem_walk_ok _ _ _ _ _ _ _ Ha) in Hw. injection Hw as <-. apply Forall_forall. intros s Hs.
  destruct (Hap (s_lo s) (s_hi s - s_lo s)); [|by left|right; lia]. apply elem_seen. exists (marker s). split; [|done]. apply elem_flat. exists s. split; [done|by left].
Qed.

(** The search of a reachable arena ends. *)
Lemma walk_ends r v L SF x :
  arena r v L SF →
  (top = 0 ∨ (x_size x < 2 ^ (VMEM_FREELISTS lp64 - 1) ∧ ∀ frees b n, vmem_walk lp64 v VMEM_FREE = Some frees → (b, n) ∈ frees → n < 2 ^ (VMEM_FREELISTS lp64 - 1))) →
  search_ends lp64 top x L.
Proof.
  intros Ha [?|[Hx Hw]]; [by left|right]. split; [done|]. intros g Hg Ht. eapply (Hw _ (g_lo g)); [by apply (vmem_walk_ok _ _ _ _ _ _ _ Ha)|].
  apply elem_seen. exists g. by rewrite Ht.
Qed.

Lemma reachable_arena v : reachable v → ∃ L SF, arena 0 v L SF.
Proof.
  induction 1 as [quantum qs afunc ffunc sq qc Eq Hqs|v n c v' _ (L & SF & Ha) Hn Hp|v vaddr sz import v' p spans _ (L & SF & Ha) Hseg Hw H1 H2 H3 Hap Hsc
    |v x v1 p addr v' _ (L & SF & Ha) Hseg Hrq Hend Hse Htk|v addr sz v' o _ (L & SF & Ha) Hx|v nomem v' _ (L & SF & Ha) Hr].
  - exists [], []. by eapply vmem_create_ok.
  - destruct (arena_populate lp64 top _ _ _ _ n c Ha Hn) as (v2 & Hp' & _ & _ & Ha'). rewrite Hp in Hp'. injection Hp' as <-. eauto.
  - pose proof (arena_nseg _ _ _ _ _ _ Ha) as Hl. destruct SF as [|p1 [|p2 SF]]; cbn [length] in Hl; [lia|lia|].
    pose proof (an_quantum _ _ _ _ _ _ Ha) as Eq. pose proof (an_qshift _ _ _ _ _ _ Ha) as Qs.
    assert ((vm_quantum v | vaddr) ∧ (vm_quantum v | vaddr + sz)) as Hal.
    { rewrite Eq. apply (aligned_test lp64 _ _ _ Qs). rewrite <- Eq. unfold vmem_span_create in Hsc. by destruct (_ =? 0). }
    destruct (vmem_span_create_ok lp64 top _ _ _ _ _ _ vaddr sz import Ha) as (v2 & Hs' & _ & Ha'); [constructor; [done|done|by eapply walk_spans]|].
    rewrite Hsc in Hs'. injection Hs' as <- _. eauto.
  - destruct (arena_search lp64 top _ _ _ _ _ _ Ha Hrq (walk_ends _ _ _ _ _ Ha Hend)) as (ks & o & Hse' & Hk & Hfd). rewrite Hse in Hse'. injection Hse' as -> <-.
    destruct Hfd as (g & Hg & Ht & <- & Hmt & _). pose proof (arena_nseg _ _ _ _ _ _ Ha) as Hl.
    apply elem_flat in Hg as (s & Hs & [->|Hg]); [done|]. apply list_elem_of_split in Hs as (L1 & L2 & ->). apply list_elem_of_split in Hg as (G1 & G2 & Es). pose proof Hmt as [M1 M2 _ _].
    destruct (xalloc_take_ok lp64 top 0 (with_kstat v ks) L1 s L2 SF G1 g G2 x addr) as (v2 & mid & SF' & Htk' & _ & Ha' & _);
      [apply arena_kstat; [done|by intros k Hk1 _ _; apply Hk]|done|done|lia|by apply (rq_size _ _ _ Hrq)|lia|by eapply meets_quantum|lia|].
    rewrite Htk in Htk'. injection Htk' as <-. eauto.
  - pose proof (xfree_returns lp64 top _ _ _ _ _ _ _ _ Ha Hx) as (g & Hg & Ht & -> & ->)%elem_ranges. apply elem_flat in Hg as (s & Hs & [->|Hg]); [done|].
    apply list_elem_of_split in Hs as (L1 & L2 & ->). apply list_elem_of_split in Hg as (G1 & G2 & Es).
    destruct (vmem_xfree_ok lp64 top _ _ _ _ _ _ _ _ _ Ha Es Ht) as (v2 & o' & G1' & u & G2' & Hx' & _ & _ & Hfr). rewrite Hx in Hx'. injection Hx' as <- <-.
    destruct (whole v s G1' G2'); destruct Hfr as (_ & SF' & Ha' & _); eauto.
  - destruct (vmem_hash_rescale_ok lp64 top _ _ _ _ nomem Ha) as (v2 & Hr' & _ & Ha' & _). rewrite Hr in Hr'. injection Hr' as <-. eauto.
Qed.
End reach.

(** ** Allocated ranges do not overlap *)

Definition clear_of (y z : Z * Z) : Prop := y.1 + y.2 <= z.1 ∨ z.1 + z.2 <= y.1.

Fixpoint exclusive (l : list (Z * Z)) : Prop :=
  match l with
  | [] => True
  | y :: l => Forall (clear_of y) l ∧ exclusive l
  end.

Lemma exclusive_app l1 l2 :
  exclusive l1 → exclusive l2 → (∀ y z, y ∈ l1 → z ∈ l2 → clear_of y z) → exclusive (l1 ++ l2).
Proof.
  induction l1 as [|y l1 IH]; [done|]. intros [H1 H2] H3 H4. cbn. split.
  - apply Forall_app. split; [done|]. apply Forall_forall. intros z Hz. apply H4; [by left|done].
  - apply IH; [done|done|]. intros y' z Hy Hz. apply H4; [by right|done].
Qed.

Section exclusive.
Context (lp64 : bool) (top : Z).
Abbreviation arena := (arena lp64 top).

Lemma tiles_exclusive q lo hi G : 0 < q → tiles q lo hi G → exclusive (ranges G).
Proof.
  intros Hq. revert lo. induction G as [|g G IH]; intros lo; [done|]. intros (E & H1 & _ & H2). rewrite ranges_cons. destruct (decide _) as [Ht|]; [|by apply (IH (rup q (g_hi g)))].
  cbn. split; [|by apply (IH (rup q (g_hi g)))]. apply Forall_forall. intros [b n] (h & Hh & _ & -> & ->)%elem_ranges. left. cbn. unfold g_size.
  destruct (tiles_elem _ _ _ _ _ Hq H2 Hh) as (? & _). pose proof (rup_spec q (g_hi g) Hq). lia.
Qed.

Lemma ranges_inside q s b n :
  0 < q → span_ok lp64 q s → (b, n) ∈ ranges (s_segs s) → s_lo s <= b ∧ 0 < n ∧ b + n <= s_hi s.
Proof.
  intros Hq Os (h & Hh & _ & -> & ->)%elem_ranges. destruct (tiles_elem _ _ _ _ _ Hq (so_tiles _ _ _ Os) Hh) as (? & ? & _).
  pose proof (rup_spec q (g_hi h) Hq). unfold g_size. lia.
Qed.

Lemma elem_ranges_flat L b n : (b, n) ∈ ranges (flat L) ↔ ∃ s, s ∈ L ∧ (b, n) ∈ ranges (s_segs s).
Proof.
  rewrite elem_ranges. split.
  - intros (h & (s & Hs & [->|Hh])%elem_flat & Ht & -> & ->); [done|]. exists s. split; [done|]. apply elem_ranges. by exists h.
  - intros (s & Hs & (h & Hh & Ht & -> & ->)%elem_ranges). exists h. split_and!; try done. apply elem_flat. exists s. split; [done|by right].
Qed.

Lemma arena_exclusive q L : 0 < q → Forall (span_ok lp64 q) L → separate L → exclusive (ranges (flat L)).
Proof.
  intros Hq. induction L as [|s L IH]; [done|]. intros [Os Hok]%Forall_cons [Hs Hsep]. cbn [flat]. rewrite ranges_marker, ranges_app.
  apply exclusive_app; [by eapply tiles_exclusive, (so_tiles _ _ _ Os)|by apply IH|]. intros [b n] [b' n'] Hb (t & Ht & Hb')%elem_ranges_flat.
  pose proof (proj1 (Forall_forall _ _) Hok t Ht) as Ot. pose proof (proj1 (Forall_forall _ _) Hs t Ht) as Hap.
  pose proof (ranges_inside q s b n Hq Os Hb). pose proof (ranges_inside q t b' n' Hq Ot Hb'). unfold clear_of, apart in *. cbn. lia.
Qed.
End exclusive.

(** ** What the threads have got *)

Lemma filter_all {A} (P : A → Prop) `{!∀ y, Decision (P y)} (l : list A) : Forall P l → filter P l = l.
Proof. induction 1 as [|y l Hy _ IH]; [done|]. by rewrite filter_cons_True, IH. Qed.

Lemma filter_same {A} (P Q : A → Prop) `{!∀ y, Decision (P y), !∀ y, Decision (Q y)} (l : list A) : (∀ y, y ∈ l → P y ↔ Q y) → filter P l = filter Q l.
Proof.
  induction l as [|y l IH]; intros Hl; [done|]. rewrite !filter_cons, IH by (intros; apply Hl; by right).
  pose proof (Hl y ltac:(by left)). destruct (decide (P y)), (decide (Q y)); tauto.
Qed.

Lemma clear_of_sym y z : clear_of y z → clear_of z y.
Proof. unfold clear_of. tauto. Qed.

#[export] Instance exclusive_perm : Proper (Permutation ==> impl) exclusive.
Proof.
  intros l l' Hp. induction Hp as [|y l l' Hp IH|y z l|l1 l2 l3 _ IH1 _ IH2]; cbn.
  - done.
  - intros [H1 H2]. split; [by rewrite <- Hp|by apply IH].
  - intros [[H1 H2]%Forall_cons [H3 H4]]. split; [|done]. constructor; [by apply clear_of_sym|done].
  - intros H. by apply IH2, IH1.
Qed.

(** The ranges that were returned and not freed, by what a run has put out,
    the last output first. *)
Fixpoint live (outs : list out) : list (Z * Z) :=
  match outs with
  | [] => []
  | O_alloc x addr :: outs => (addr, x_size x) :: live outs
  | O_free addr sz _ :: outs => filter (λ y, y ≠ (addr, sz)) (live outs)
  | _ :: outs => live outs
  end.

Section served.
Context (lp64 : bool) (top : Z).
Abbreviation arena := (arena lp64 top).

(** A span that is not there yet. *)
Definition new_range (v : vmem) (vaddr sz : Z) : Prop :=
  0 < vaddr ∧ 0 < sz ∧ vaddr + sz <= 2 ^ VMEM_FREELISTS lp64 ∧ (vm_quantum v | vaddr) ∧ (vm_quantum v | vaddr + sz) ∧ fits_top lp64 top sz ∧
  ∀ spans b n, vmem_walk lp64 v VMEM_SPAN = Some spans → (b, n) ∈ spans → vaddr + sz <= b ∨ b + n <= vaddr.

(** What may come next: [legal], by what can be seen from outside. *)
Definition callable (s : sys) (outs : list out) (e : event) : Prop :=
  match e with
  | E_call x => request lp64 (vm_quantum (y_vm s)) x ∧ fits_top lp64 top (x_size x)
  | E_step i (I_seg n _) => vm_mem (y_vm s) !! Seg n = None
  | E_step i (I_addr vaddr) => ∀ t asize, y_thr s !! i = Some t → t_pc t = X_import asize → vaddr = 0 ∨ new_range (y_vm s) vaddr asize
  | E_step i _ => True
  | E_free addr sz => (addr, sz) ∈ live outs
  | E_add addr sz => new_range (y_vm s) addr sz
  end.

(** Runs from a new arena. *)
Inductive served : sys → list out → Prop :=
  | served_create quantum qs afunc ffunc sq qcache_max :
      quantum = 2 ^ qs → 0 <= qs < VMEM_FREELISTS lp64 → served (Sys (vmem_create lp64 top quantum afunc ffunc sq qcache_max) []) []
  | served_step s outs e s' o :
      served s outs → callable s outs e → sys_step lp64 s e = Some (Ok (s', o)) → served s' (o :: outs).

Lemma sim_exclusive s a l : sim lp64 top s a → a_alloc a ≡ₚ l → exclusive l.
Proof.
  intros (L & [[SF Ha] _ _ _] & ->) Hp. rewrite <- Hp. pose proof (arena_q _ _ _ _ _ _ Ha) as Hq. pose proof Ha as [_ _ _ _ Hsp Hsep _].
  by eapply arena_exclusive.
Qed.

Lemma new_range_fits r v L SF vaddr sz : arena r v L SF → new_range v vaddr sz → afits lp64 top (vm_quantum v) (abs L) vaddr sz.
Proof.
  intros Ha (N1 & N2 & N3 & N4 & N5 & N6 & N7). constructor; [done|done| |done]. intros lo hi i (s & [= -> -> ->] & Hs)%list_elem_of_fmap.
  destruct (N7 _ (s_lo s) (s_hi s - s_lo s) (vmem_walk_ok _ _ _ _ _ _ _ Ha)); [|by left|right; lia].
  apply elem_seen. exists (marker s). split; [|done]. apply elem_flat. exists s. split; [done|by left].
Qed.

Lemma callable_legal s a outs e : sim lp64 top s a → a_alloc a ≡ₚ live outs → callable s outs e → legal lp64 top s a e.
Proof.
  intros (L & [[SF Ha] _ _ _] & ->) Hp. destruct e as [x|i [|n c| |vaddr]|addr sz|addr sz]; cbn [callable legal]; try done.
  - intros [H1 H2]. by constructor.
  - intros H t asize Ht Hpc. destruct (H t asize Ht Hpc); [by left|right]. by eapply new_range_fits.
  - by rewrite Hp.
  - by eapply new_range_fits.
Qed.

Lemma exclusive_once l addr sz rs : exclusive l → l ≡ₚ (addr, sz) :: rs → 0 < sz → filter (λ y, y ≠ (addr, sz)) l ≡ₚ rs.
Proof.
  intros He Hp Hs. rewrite Hp in He |- *. destruct He as [Hf _]. rewrite filter_cons_False by tauto.
  assert (filter (λ y, y ≠ (addr, sz)) rs = rs) as ->; [|done]. apply filter_all. eapply Forall_impl; [exact Hf|].
  intros [b n] Hc [= -> ->]. unfold clear_of in Hc. cbn in Hc. lia.
Qed.

Lemma served_sim s outs : served s outs → ∃ a, sim lp64 top s a ∧ a_alloc a ≡ₚ live outs.
Proof.
  induction 1 as [quantum qs afunc ffunc sq qc Eq Hqs|s outs e s' o _ (a & Hsim & Hp) Hcall Hst].
  - exists (AState [] []). split; [|done]. exists []. split; [|done]. constructor; cbn; [|done|constructor|constructor].
    exists []. by eapply vmem_create_ok.
  - destruct (sys_step_ok lp64 top s a e _ Hsim (callable_legal s a outs e Hsim Hp Hcall) Hst) as [(s2 & o2 & a' & [= <- <-] & Hsim' & Has)|[[E _]|[E _]]]; [|done|done].
    exists a'. split; [done|]. pose proof (sim_exclusive s a _ Hsim Hp) as Hex.
    assert (∀ addr sz rs, a_alloc a ≡ₚ (addr, sz) :: rs → rs ≡ₚ filter (λ y, y ≠ (addr, sz)) (live outs)) as Hfr.
    { intros addr sz rs Hrs. symmetry. apply exclusive_once; [done|by rewrite <- Hp|].
      destruct Hsim as (L & [[SF Ha] _ _ _] & ->). assert ((addr, sz) ∈ ranges (flat L)) as (t & Ht & Hb)%elem_ranges_flat by (cbn in Hrs; rewrite Hrs; by left).
      pose proof (proj1 (Forall_forall _ _) (an_spans _ _ _ _ _ _ Ha) t Ht) as Os. by apply (ranges_inside lp64 _ t addr sz (arena_q _ _ _ _ _ _ Ha) Os Hb). }
    destruct Has; cbn [live a_alloc] in *; try done.
    + by rewrite <- Hp.
    + by rewrite <- Hp.
    + by apply Hfr.
    + by apply Hfr.
Qed.

(** The allocated segments of a walk. *)
Lemma seen_alloc r v L SF : arena r v L SF → seen VMEM_ALLOC (flat L) = ranges (flat L).
Proof.
  intros Ha. unfold seen, ranges. f_equal. pose proof (an_spans _ _ _ _ _ _ Ha) as Hsp. pose proof (arena_q _ _ _ _ _ _ Ha) as Hq.
  apply filter_same. intros g (s & Hs & [->|Hg])%elem_flat; [done|]. pose proof (proj1 (Forall_forall _ _) Hsp s Hs) as Os.
  destruct (tiles_elem _ _ _ _ _ Hq (so_tiles _ _ _ Os) Hg) as (_ & _ & [[-> _]| ->]); by split.
Qed.
End served.

(** ** Freeing undoes an allocation *)

Definition shape (g : gseg) : Z * Z * Z * Z := (g_lo g, g_hi g, g_type g, g_import g).

Section undo.
Context (lp64 : bool) (top : Z).
Abbreviation arena := (arena lp64 top).

Lemma splits_merges q g lo hi G1 G2 left a right G1' u G2' :
  g_type g = VMEM_FREE → coalesced (G1 ++ g :: G2) →
  ((left = [] ∧ lo = g_lo g ∧ g_import a = g_import g) ∨
   (∃ l, left = [l] ∧ g_lo g < lo ∧ g_lo l = g_lo g ∧ g_hi l = lo ∧ g_type l = VMEM_FREE ∧ g_import l = g_import g ∧ g_import a = 0)) →
  ((right = [] ∧ rup q hi = g_hi g) ∨
   (∃ x, right = [x] ∧ rup q hi < g_hi g ∧ g_lo x = rup q hi ∧ g_hi x = g_hi g ∧ g_type x = VMEM_FREE ∧ g_import x = 0)) →
  g_lo a = lo → g_hi a = hi → merges q (G1 ++ left) a (right ++ G2) G1' u G2' → G1' = G1 ∧ G2' = G2 ∧ shape u = shape g.
Proof.
  intros Hg Hco HL HR Alo Ahi (Hu & ML & MR). apply coalesced_app in Hco as [C1 C2].
  assert (type_of (last G1) ≠ VMEM_FREE) as N1.
  { destruct G1 as [|y G1 _] using rev_ind; [done|]. rewrite <- app_assoc in C1. apply coalesced_sub_r in C1 as [C1 _]. rewrite last_snoc. intros Hy. by destruct C1. }
  assert (type_of (head G2) ≠ VMEM_FREE) as N2.
  { destruct G2 as [|y G2]; [done|]. destruct C2 as [C2 _]. intros Hy. by destruct C2. }
  assert (G1' = G1 ∧ g_lo u = g_lo g ∧ g_import u = g_import g) as (-> & E1 & E2).
  { destruct HL as [(-> & -> & Hi)|(l & -> & _ & Hl1 & _ & Hl3 & Hl4 & _)].
    - rewrite app_nil_r in ML. destruct ML as [(-> & _ & H1 & H2)|(p & -> & Hp & _)]; [split_and!; congruence|]. rewrite last_snoc in N1. done.
    - destruct ML as [(_ & Hn & _)|(p & E & _ & H1 & H2)]; [rewrite last_snoc in Hn; done|]. apply app_inj_tail in E as [<- <-]. split_and!; congruence. }
  assert (G2' = G2 ∧ g_hi u = g_hi g) as (-> & E3).
  { destruct HR as [(-> & Hh)|(x & -> & _ & _ & Hx1 & Hx2 & _)].
    - cbn [app] in MR. destruct MR as [(-> & _ & H1)|(n & -> & Hn & _)]; [split; congruence|]. done.
    - destruct MR as [(_ & Hn & _)|(n & [= <- <-] & _ & H1)]; [done|]. split; congruence. }
  unfold shape. by rewrite E1, E2, E3, Hu, Hg.
Qed.

Lemma shape_seen mask A B : shape <$> A = shape <$> B → seen mask A = seen mask B.
Proof.
  revert B. induction A as [|g A IH]; intros [|h B] E; [done|done|done|]. rewrite !fmap_cons in E. injection E as E1 E2 E3 E4 E. rewrite !seen_cons, (IH B E).
  unfold g_size. by rewrite E1, E2, E3.
Qed.

Lemma shape_set_segs L1 s L2 G : shape <$> G = shape <$> s_segs s → shape <$> flat (L1 ++ set_segs s G :: L2) = shape <$> flat (L1 ++ s :: L2).
Proof. intros E. rewrite !flat_mid, !fmap_app, !fmap_cons. cbn [set_segs s_segs]. by rewrite E. Qed.

(** Allocating from a segment and freeing what was allocated. *)
Lemma take_free r v L SF q x g addr :
  arena r v L SF → request lp64 q x → q = vm_quantum v → g ∈ flat L → g_type g = VMEM_FREE → meets lp64 x (g_lo g) (g_hi g) addr → (2 <= length SF)%nat →
  (∀ s, s ∈ L → s_import s ≠ 0 → ranges (s_segs s) ≠ []) →
  ∃ v1 v2 L' SF', xalloc_take lp64 v x (g_ptr g) addr = Ok v1 ∧ vmem_xfree lp64 v1 addr (x_size x) = Ok (v2, None) ∧
    arena r v2 L' SF' ∧ shape <$> flat L' = shape <$> flat L.
Proof.
  intros Ha Hrq -> Hg Ht Hmt HSF Himp. apply elem_flat in Hg as (s & Hs & [->|Hg]); [done|]. pose proof (Himp s Hs) as Hims.
  pose proof (proj1 (Forall_forall _ _) (an_spans _ _ _ _ _ _ Ha) s Hs) as Os.
  apply list_elem_of_split in Hs as (L1 & L2 & ->). apply list_elem_of_split in Hg as (G1 & G2 & Es). pose proof Hmt as [M1 M2 _ _].
  destruct (xalloc_take_ok lp64 top _ _ _ _ _ _ _ _ _ x addr Ha Es Ht) as (v1 & mid & SF1 & Htk & Hc1 & Ha1 & Hspl & _);
    [lia|by apply (rq_size _ _ _ Hrq)|lia|by eapply meets_quantum|done|].
  exists v1. pose proof Hspl as (left & a & right & -> & A1 & A2 & A3 & HL & HR).
  pose proof (so_coal _ _ _ Os) as Hco. rewrite Es in Hco.
  set (s1 := set_segs s (G1 ++ (left ++ a :: right) ++ G2)) in *.
  assert (s_segs s1 = (G1 ++ left) ++ a :: (right ++ G2)) as Es1 by (cbn; by rewrite <- !app_assoc, <- app_comm_cons).
  destruct (vmem_xfree_ok lp64 top _ _ _ _ _ _ _ _ _ Ha1 Es1 A3) as (v2 & o & G1' & u & G2' & Hx & Hmg & _ & Hfr).
  rewrite A1 in Hx. assert (g_size a = x_size x) as Esz by (unfold g_size; lia). rewrite Esz in Hx. rewrite (conf_quantum v v1 Hc1) in Hmg.
  destruct (splits_merges _ _ _ _ _ _ _ _ _ _ _ _ Ht Hco HL HR A1 A2 Hmg) as (-> & -> & Hsh).
  assert (whole v1 s1 G1 G2 = false) as Ew.
  { unfold whole. cbn [s1 s_import set_segs]. destruct (Z.eqb_spec (s_import s) 0) as [|Hne]; [done|]. destruct (vm_source_free v1); [|done].
    destruct G1 as [|y G1]; [|done]. destruct G2 as [|y G2]; [|done]. exfalso. apply (Hims Hne). rewrite Es. cbn [app]. rewrite ranges_cons, decide_False by (by rewrite Ht). done. }
  rewrite Ew in Hfr. destruct Hfr as (-> & SF2 & Ha2 & _). exists v2. eexists _, SF2. split; [done|]. split; [exact Hx|]. split; [exact Ha2|].
  change (set_segs s1 (G1 ++ u :: G2)) with (set_segs s (G1 ++ u :: G2)). apply shape_set_segs. rewrite Es, !fmap_app, !fmap_cons, Hsh. done.
Qed.
End undo.

(** ** The properties *)

(** What a free merges is determined by the segments. *)
Lemma merges_same q G1 g G2 G1' u G2' G1'' u' G2'' :
  merges q G1 g G2 G1' u G2' → merges q G1 g G2 G1'' u' G2'' → G1'' = G1' ∧ G2'' = G2'.
Proof.
  intros (_ & HL & HR) (_ & HL' & HR'). split.
  - destruct HL as [(-> & N1 & _)|(p & -> & P1 & _)], HL' as [(-> & N1' & _)|(p' & E & P1' & _)]; try done.
    + rewrite E, last_snoc in N1. done.
    + rewrite last_snoc in N1'. done.
    + by apply app_inj_tail in E as [-> _].
  - destruct HR as [(-> & N1 & _)|(n & -> & P1 & _)], HR' as [(-> & N1' & _)|(n' & E & P1' & _)]; try done.
    + by rewrite E in N1.
    + by injection E as _ ->.
Qed.

(** A step of a thread that has asked for [VM_PANIC]. *)
Definition mandatory (s : sys) (e : event) : Prop :=
  ∃ i inp t, e = E_step i inp ∧ y_thr s !! i = Some t ∧ flag (x_vmflag (t_args t)) VM_PANIC = true.

(** The range at [addr] is allocated. *)
Definition allocated (L : list gspan) (addr n : Z) : Prop := (addr, n) ∈ ranges (flat L).

(** Two arenas in which [vmem_walk] reports the same. *)
Definition same_view (lp64 : bool) (v v' : vmem) : Prop :=
  ∀ mask, vmem_walk lp64 v' mask = vmem_walk lp64 v mask ∧ is_Some (vmem_walk lp64 v mask).

Section props.
Context (lp64 : bool) (top : Z).
Abbreviation w := (VMEM_FREELISTS lp64).
Abbreviation W := (Z.to_nat w).
Abbreviation arena := (arena lp64 top).

(** C3: In any interleaving of threads in vmem_xalloc() with frees and
    additions, a step of the code is a step of the specification: what a
    thread is given meets its request in one span and overlaps no allocated
    range, a free removes exactly its range (and returns an imported span
    only when nothing in it is allocated), and no step faults.  There are two
    panics: that of a VM_PANIC request that cannot be satisfied, and that of
    an import whose span has no room at the aligned address, which happens
    only if the request asks for more alignment than the quantum of the
    source, the source does not align to its quantum, or the request takes
    almost all of the address space ([short_import], [import_ok]).  In
    particular the four reserved segments are always there when an import
    returns.  The callers keep to
    [legal]: requests whose size, alignment and boundary fit into the address
    space together, and, where the shift [1UL << VMEM_FREELISTS] does not
    give 0, sizes and spans below half of the address space. *)
Theorem vmem_simulation s a e step :
  sim lp64 top s a → legal lp64 top s a e → sys_step lp64 s e = Some step →
  (∃ s' o a', step = Ok (s', o) ∧ sim lp64 top s' a' ∧ astep lp64 a o a') ∨
  (step = Panic Mandatory ∧ mandatory s e) ∨
  (step = Panic Bad_arguments ∧ short_import lp64 s e).
Proof. apply sys_step_ok. Qed.

(** C21: What the threads have got and not given back never overlaps, after
    any run of calls, frees and additions from a new arena; each range lies
    within one span, and the allocated segments that vmem_walk() reports are
    exactly these ranges. *)
Theorem vmem_exclusive s outs :
  served lp64 top s outs →
  exclusive (live outs) ∧
  ∃ allocs spans, vmem_walk lp64 (y_vm s) VMEM_ALLOC = Some allocs ∧ allocs ≡ₚ live outs ∧ vmem_walk lp64 (y_vm s) VMEM_SPAN = Some spans ∧
    ∀ b n, (b, n) ∈ live outs → ∃ lo len, (lo, len) ∈ spans ∧ lo <= b ∧ 0 < n ∧ b + n <= lo + len.
Proof.
  intros Hs. destruct (served_sim lp64 top s outs Hs) as (a & Hsim & Hp). split; [by eapply sim_exclusive|].
  destruct Hsim as (L & [[SF Ha] _ _ _] & ->). do 2 eexists. split; [by apply (vmem_walk_ok _ _ _ _ _ _ _ Ha)|].
  split; [by rewrite <- Hp, (seen_alloc lp64 top _ _ _ _ Ha)|]. split; [by apply (vmem_walk_ok _ _ _ _ _ _ _ Ha)|].
  intros b n Hin. rewrite <- Hp in Hin. apply elem_ranges_flat in Hin as (s' & Hs' & Hb).
  pose proof (proj1 (Forall_forall _ _) (an_spans _ _ _ _ _ _ Ha) s' Hs') as Os.
  destruct (ranges_inside lp64 _ s' b n (arena_q _ _ _ _ _ _ Ha) Os Hb) as (? & ? & ?).
  exists (s_lo s'), (s_hi s' - s_lo s'). split; [|lia]. apply elem_seen. exists (marker s'). split; [|done].
  apply elem_flat. exists s'. split; [done|by left].
Qed.

(** C20: Every arena made by vmem_create() and the operations on it is well
    formed: the lists are doubly linked rings of the right segments, the
    segments tile their spans with no two free neighbours, every allocated
    segment is on its hash chain and every free one on the list of its size,
    the bitmap says which lists are empty, and the statistics are the sums
    over the segments. *)
Theorem vmem_wellformed v : reachable lp64 top v → ∃ L SF, arena 0 v L SF.
Proof. apply reachable_arena. Qed.

(** What vmem_alloc() asks vmem_xalloc() for. *)
Definition plain (v : vmem) (x : xargs) : Prop :=
  x_align x = vm_quantum v ∧ x_phase x = 0 ∧ x_nocross x = 0 ∧ x_minaddr x = 0 ∧ x_maxaddr x = 0.

Lemma plain_place r v L SF x h :
  arena r v L SF → plain v x → h ∈ flat L → g_type h = VMEM_FREE → x_size x <= g_size h → has_place lp64 x h.
Proof.
  intros Ha (P1 & P2 & P3 & P4 & P5) Hh Ht Hs. destruct (arena_seg _ _ _ _ _ _ _ Ha Hh) as (G1 & G2 & G3 & _); [by rewrite Ht|].
  exists (g_lo h). unfold g_size in Hs. constructor; rewrite ?P1, ?P2, ?P3, ?P4; [lia|unfold x_limit; rewrite P5; cbn; lia| |by left].
  apply Z.mod_divide; [|done]. pose proof (arena_q _ _ _ _ _ _ Ha). lia.
Qed.

(** C13: If the shift [1UL << VMEM_FREELISTS] gives 0, or neither the request nor
    a free segment takes half of the address space ([search_ends]), the
    search of vmem_xalloc() ends, and finds the least address of a free
    segment that meets the request; with VM_BESTFIT a smallest such segment.
    When it finds nothing, no segment of the lists it looks at has room, and
    for VM_BESTFIT requests and those of vmem_alloc() no free segment has. *)
Theorem vmem_search_correct r v L SF x :
  arena r v L SF → request lp64 (vm_quantum v) x → search_ends lp64 top x L →
  ∃ ks o, xalloc_search lp64 v x = Some (with_kstat v ks, o) ∧ (∀ k, k ≠ vk_search → ks k = vm_kstat v k) ∧ found lp64 v x L o ∧
    (o = None → flag (x_vmflag x) VM_BESTFIT = true ∨ plain v x → ∀ h, h ∈ flat L → g_type h = VMEM_FREE → ¬ has_place lp64 x h).
Proof.
  intros Ha Hrq Hend. destruct (arena_search lp64 top _ _ _ _ _ _ Ha Hrq Hend) as (ks & o & Hse & Hk & Hfd). exists ks, o. split; [done|]. split; [done|]. split; [done|].
  intros -> Hc h Hh Ht Hpl. pose proof (size_fits _ _ _ Hpl) as Hs. pose proof (rq_size _ _ _ Hrq) as Rs. destruct (arena_seg _ _ _ _ _ _ _ Ha Hh) as (G1 & G2 & _); [by rewrite Ht|].
  pose proof (flist_mono (x_size x) (g_size h) ltac:(lia)) as Hm.
  assert (first_flist lp64 v x = Z.of_nat (flist_of (x_size x)) ∨ (flag (x_vmflag x) VM_BESTFIT = false ∧
    Z.shiftr (vm_freemap v) (Z.of_nat (S (flist_of (x_size x)))) ≠ 0 ∧ first_flist lp64 v x = Z.of_nat (S (flist_of (x_size x))))) as [E|(Hnb & Hne & E)].
  { destruct (first_flist_cases lp64 v x) as [[E _]|(E & _ & Hne & Hnb)]; [unfold g_size in Hs; lia|by left|by right]. }
  - apply (Hfd h Hh); [|done]. split; [done|]. lia.
  - destruct Hc as [?|Hp]; [congruence|]. destruct (freemap_big _ _ _ _ _ _ _ Ha Hne) as (k & Hkin & Hkt & Hkb).
    destruct (arena_seg _ _ _ _ _ _ _ Ha Hkin) as (K1 & K2 & _); [by rewrite Hkt|].
    assert (x_size x < 2 ^ Z.of_nat (S (flist_of (x_size x)))) as Hlt.
    { unfold flist_of. pose proof (Z.log2_nonneg (x_size x)). rewrite Nat2Z.inj_succ, Z2Nat.id by done. by apply Z.log2_spec. }
    apply (Hfd k Hkin); [|by eapply plain_place; [..|lia]]. split; [done|]. rewrite E. unfold flist_of at 2.
    pose proof (Z.log2_le_mono _ _ Hkb) as Hl. rewrite Z.log2_pow2 in Hl by lia. lia.
Qed.
(** C15: vmem_xfree() of an allocated range merges it with its free neighbours
    and with nothing else: the new free segment reaches from the start of a
    free segment before it (or its own) to the end of one after it (or its
    own, rounded up to the quantum); an imported span that is now one free
    segment leaves the arena and is returned.  An address that is not
    allocated, or one with a different size, is a panic. *)
Theorem vmem_xfree_correct r v L1 s L2 SF addr sz :
  arena r v (L1 ++ s :: L2) SF →
  ((∀ n, ¬ allocated (L1 ++ s :: L2) addr n) → vmem_xfree lp64 v addr sz = Panic Bad_free) ∧
  (∀ n, allocated (L1 ++ s :: L2) addr n → sz ≠ n → vmem_xfree lp64 v addr sz = Panic Wrong_size) ∧
  (∀ G1 g G2, s_segs s = G1 ++ g :: G2 → g_type g = VMEM_ALLOC → addr = g_lo g → sz = g_size g →
     ∃ v' o G1' u G2', vmem_xfree lp64 v addr sz = Ok (v', o) ∧ merges (vm_quantum v) G1 g G2 G1' u G2' ∧ freed lp64 top r v SF L1 s L2 G1' u G2' v' o).
Proof.
  intros Ha. split_and!.
  - intros Hno. by eapply xfree_bad.
  - intros n Hin Hne. by eapply xfree_wrong.
  - intros G1 g G2 Es Ht -> ->. by eapply vmem_xfree_ok.
Qed.

(** C32: Allocating and then freeing leaves the arena as it was: vmem_walk()
    reports the same spans, free segments and allocations, for any mask. *)
Theorem vmem_alloc_free r v L SF x v1 p addr :
  arena r v L SF → request lp64 (vm_quantum v) x → search_ends lp64 top x L → (2 <= length SF)%nat →
  (∀ s, s ∈ L → s_import s ≠ 0 → ranges (s_segs s) ≠ []) →
  xalloc_search lp64 v x = Some (v1, Some (p, addr)) →
  ∃ v2 v3, xalloc_take lp64 v1 x p addr = Ok v2 ∧ vmem_xfree lp64 v2 addr (x_size x) = Ok (v3, None) ∧ same_view lp64 v v3.
Proof.
  intros Ha Hrq Hend HSF Himp Hse. destruct (arena_search lp64 top _ _ _ _ _ _ Ha Hrq Hend) as (ks & o & Hse' & Hk & Hfd). rewrite Hse in Hse'. injection Hse' as -> <-.
  destruct Hfd as (g & Hg & Ht & <- & Hmt & _).
  assert (arena r (with_kstat v ks) L SF) as Ha1 by (apply arena_kstat; [done|]; intros k Hk1 _ _; by apply Hk).
  destruct (take_free lp64 top r (with_kstat v ks) L SF _ x g addr Ha1 Hrq eq_refl Hg Ht Hmt HSF Himp) as (v2 & v3 & L' & SF' & H1 & H2 & Ha' & Hsh).
  exists v2, v3. split; [done|]. split; [done|]. intros mask. rewrite (vmem_walk_ok _ _ _ _ _ _ mask Ha), (vmem_walk_ok _ _ _ _ _ _ mask Ha').
  split; [f_equal; by apply shape_seen|eauto].
Qed.

(** What an import asks for when its size is a multiple of an alignment that
    the source does not have. *)
Lemma import_size_aligned v x q sq :
  request lp64 q x → vm_source_quantum v = 2 ^ sq → 2 ^ sq < x_align x → x_phase x = 0 → (x_align x | x_size x) → import_size lp64 v x = x_size x.
Proof.
  intros Hrq Eq Hlt Hph Hd. pose proof (rq_width _ _ _ Hrq) as Hw. pose proof (rq_size _ _ _ Hrq) as Hs. destruct (rq_align _ _ _ Hrq) as (a & Ha & Ea).
  pose proof (rq_nocross _ _ _ Hrq) as Hn. assert (0 <= x_nocross x) as Hn0 by (destruct Hn as [->|(n & ? & -> & _)]; lia).
  unfold import_size. rewrite Eq, Z.max_l, Hph, Z.add_0_r, Ea by lia. rewrite P2ROUNDUP_uw by done. rewrite <- Ea, rup_id by (done || lia). apply uw_id. lia.
Qed.

(** C39: The source aligns an import to its own quantum only.  When a request
    asks for more, without a phase and for a multiple of its alignment, the
    import is just as large as the request: vmem_seg_alloc() panics exactly
    if the span that comes back is not aligned to what was asked for. *)
Theorem vmem_import_panics s a i t asize vaddr sq :
  sim lp64 top s a → y_thr s !! i = Some t → t_pc t = X_import asize → vm_source_quantum (y_vm s) = 2 ^ sq → 2 ^ sq < x_align (t_args t) →
  x_phase (t_args t) = 0 → (x_align (t_args t) | x_size (t_args t)) → vaddr ≠ 0 → legal lp64 top s a (E_step i (I_addr vaddr)) →
  sys_step lp64 s (E_step i (I_addr vaddr)) = Some (Panic Bad_arguments) ↔ ¬ (x_align (t_args t) | vaddr).
Proof.
  intros (L & [[SF Ha] Hn Hth Hsm] & ->) Hi Hpc Eq Hlt Hph Hd Hv Hleg. destruct (reserved_split _ _ _ Hi) as (R & HR & E1 & _).
  pose proof (Forall_lookup_1 _ _ _ _ Hth Hi) as Hok. pose proof (to_request _ _ _ _ Hok) as Hrq. rewrite E1 in Ha. unfold importing in Ha. rewrite Hpc, Z.mul_1_r in Ha.
  destruct (to_pc _ _ _ _ Hok asize Hpc) as (_ & _ & Eas). rewrite (import_size_aligned _ _ _ sq Hrq Eq Hlt Hph Hd) in Eas. subst asize.
  pose proof (xalloc_imported_ok lp64 top R _ _ _ t _ vaddr Ha HR Hn Hsm Hok Hpc (Hleg t _ Hi Hpc)) as Hs. cbv zeta in Hs.
  cbn [sys_step]. rewrite Hi. unfold xalloc_step. rewrite Hpc. pose proof (rq_phase _ _ _ Hrq) as Rp. rewrite <- Z.mod_divide by lia.
  assert (import_addr (t_args t) vaddr = vaddr + (- vaddr) `mod` x_align (t_args t)) as Eia by (unfold import_addr, phase_up; by rewrite Hph, Z.sub_0_l).
  rewrite Eia in Hs. destruct (decide (vaddr `mod` x_align (t_args t) = 0)) as [Em|Em].
  - rewrite Z.mod_opp_l_z in Hs by (done || lia). rewrite decide_False in Hs by lia. split; [|done].
    destruct Hs as [[-> _]|(v' & pc & L' & SF' & -> & _)]; done.
  - pose proof (Z.mod_pos_bound vaddr (x_align (t_args t)) ltac:(lia)). rewrite Z.mod_opp_l_nz in Hs by (done || lia). rewrite decide_True in Hs by lia.
    rewrite Hs. by split.
Qed.

(** C40: Where the shift [1UL << VMEM_FREELISTS] gives 1 (SPARC and IA-32 take the
    shift count modulo the width), a request that no free segment satisfies
    does not fail when a free segment takes half of the address space or
    more: the search goes round the free lists for ever, one iteration after
    the other without a fault. *)
Theorem vmem_search_loops r v L SF x g :
  top = 1 → arena r v L SF → request lp64 (vm_quantum v) x → g ∈ flat L → g_type g = VMEM_FREE → 2 ^ (w - 1) <= g_size g →
  (∀ h, h ∈ flat L → g_type h = VMEM_FREE → ¬ has_place lp64 x h) →
  ∃ ch, vm_mem v !! Flist (Z.to_nat (first_flist lp64 v x)) = Some ch ∧
    never_returns (search_step lp64 x) (v, vs_knext ch, None).
Proof.
  intros Htop Ha Hrq Hg Ht Hb Hno. destruct (free_cell _ _ _ _ _ _ _ _ Ha Hrq) as (F & H & K & R & Hcell & Hfree). pose proof (w_pos lp64) as Hw.
  destruct (arena_seg _ _ _ _ _ _ _ Ha Hg) as (G1 & G2 & _); [by rewrite Ht|].
  assert (flist_of (g_size g) = (W - 1)%nat) as Efl.
  { pose proof (flist_of_lt lp64 (g_size g) ltac:(unfold g_size in *; lia)). pose proof (Z.log2_le_mono _ _ Hb) as Hl. rewrite Z.log2_pow2 in Hl by lia. unfold flist_of in *. lia. }
  assert (∀ i l p, F !! i = Some l → p ∈ l → ∃ c, vm_mem v !! p = Some c ∧ vs_start c ≠ 0) as Hst.
  { intros i l p Hi Hp. destruct (Hcell i l p Hi Hp) as (h & c & _ & _ & _ & _ & ? & _ & ? & _). by exists c. }
  assert (∃ p l, F !! (W - 1)%nat = Some (p :: l)) as Hbig.
  { destruct (Hfree g Hg Ht) as (l & Hl & Hp). rewrite Efl in Hl. destruct l as [|p l]; [by apply elem_of_nil in Hp|]. by exists p, l. }
  assert (∀ i l q, F !! i = Some l → q ∈ l → cand lp64 (vm_mem v) x q = None) as Hnone.
  { intros i l q Hi Hq. destruct (Hcell i l q Hi Hq) as (h & c & Hh & Hht & _ & _ & _ & _ & _ & _ & Hcd). destruct (cand lp64 (vm_mem v) x q); [|done].
    exfalso. apply (Hno h Hh Hht). eexists. apply Hcd. }
  assert (∃ f, first_flist lp64 v x = Z.of_nat f ∧ (f < W)%nat) as (f & Ef & Hf).
  { destruct (first_flist_cases lp64 v x) as [[E ?]|(E & ? & _)]; [|by eexists; split; [exact E|]..].
    pose proof (rq_width _ _ _ Hrq). pose proof (rq_size _ _ _ Hrq). pose proof (rq_phase _ _ _ Hrq). destruct (rq_nocross _ _ _ Hrq) as [?|(n & _ & ? & _)]; lia. }
  rewrite Ef, Nat2Z.id. destruct (lookup_lt_is_Some_2 F f) as [l Hl]; [by rewrite (r_flen _ _ _ _ _ _ _ _ _ _ (rp_mem _ _ _ _ _ _ _ _ _ R))|].
  pose proof (fchain_next lp64 top R f [] l Hl) as Hn. destruct (nxt_Some _ _ _ _ Hn) as (ch & Hch & Hkn). cbn in Hch, Hkn. exists ch. split; [done|]. intros fuel.
  rewrite Hkn. replace (v, Some (hd (Flist (S f)) l), None) with (with_kstat v (vm_kstat v), Some (hd (Flist (S f)) l), None : option (sptr * Z)) by (by destruct v).
  by apply (search_forever lp64 top R Hst x Htop Hbig Hnone fuel (vm_kstat v) f []).
Qed.

(** C35: vmem_hash_rescale() changes no segment and no statistic, and every
    allocated segment is in its bucket of the new table, so that what can be
    freed before can be freed after. *)
Theorem vmem_rescale_correct r v L SF nomem :
  arena r v L SF →
  ∃ v', vmem_hash_rescale lp64 nomem v = Some v' ∧ arena r v' L SF ∧ vm_kstat v' = vm_kstat v ∧ same_view lp64 v v' ∧
    ∀ g, g ∈ flat L → g_type g = VMEM_ALLOC → ∃ v1 v2 o, vmem_xfree lp64 v' (g_lo g) (g_size g) = Ok (v2, o) ∧ vmem_xfree lp64 v (g_lo g) (g_size g) = Ok (v1, o).
Proof.
  intros Ha. destruct (vmem_hash_rescale_ok lp64 top _ _ _ _ nomem Ha) as (v' & Hr & Hk & Ha' & Ec). injection Ec as Eq Es Ef Esq.
  exists v'. split; [done|]. split; [done|]. split; [done|]. split.
  - intros mask. rewrite (vmem_walk_ok _ _ _ _ _ _ _ Ha), (vmem_walk_ok _ _ _ _ _ _ _ Ha'). eauto.
  - intros g Hg Ht. apply elem_flat in Hg as (s & Hs & [->|Hg]); [done|]. apply list_elem_of_split in Hs as (L1 & L2 & ->). apply list_elem_of_split in Hg as (G1 & G2 & Esg).
    destruct (vmem_xfree_ok lp64 top _ _ _ _ _ _ _ _ _ Ha Esg Ht) as (v1 & o1 & G1' & u & G2' & H1 & M1 & _ & F1).
    destruct (vmem_xfree_ok lp64 top _ _ _ _ _ _ _ _ _ Ha' Esg Ht) as (v2 & o2 & G1'' & u' & G2'' & H2 & M2 & _ & F2).
    exists v1, v2, o1. split; [|done]. rewrite H2. do 2 f_equal. rewrite Eq in M2.
    assert (G1'' = G1' ∧ G2'' = G2') as [-> ->] by (by eapply merges_same). unfold whole in F1, F2. rewrite Ef in F2.
    destruct (_ && _ && _); destruct F1 as [-> _], F2 as [-> _]; done.
Qed.
End props.

(** ** Witnesses: an arena with a quantum of 4096 on a 32-bit system *)

Fixpoint populate_all (v : vmem) (n : nat) : option vmem :=
  match n with
  | O => Some v
  | S n => let! v := populate_seg v n zero_seg in populate_all v n
  end.

Lemma populate_mem v n c v' q : populate_seg v n c = Some v' → q ≠ Seg n → vm_mem v' !! q = vm_mem v !! q.
Proof.
  unfold populate_seg, vmem_putseg, upd. cbn [vm_mem with_mem]. rewrite lookup_insert_eq. cbn. intros [= <-] Hq. cbn. by rewrite !lookup_insert_ne by done.
Qed.

Lemma populate_all_ok lp64 top r L n : ∀ v SF,
  arena lp64 top r v L SF → (∀ k, (k < n)%nat → vm_mem v !! Seg k = None) →
  ∃ v' SF', populate_all v n = Some v' ∧ conf v' = conf v ∧ arena lp64 top r v' L SF' ∧ length SF' = (n + length SF)%nat.
Proof.
  induction n as [|n IH]; intros v SF Ha Hn; [by exists v, SF|].
  destruct (arena_populate lp64 top _ _ _ _ n zero_seg Ha) as (v1 & Hp & Hc & _ & Ha1); [apply Hn; lia|].
  destruct (IH v1 (Seg n :: SF) Ha1) as (v' & SF' & Hp' & Hc' & Ha' & Hl).
  { intros k Hk. rewrite (populate_mem _ _ _ _ _ Hp) by (intros [= ->]; lia). apply Hn. lia. }
  exists v', SF'. cbn [populate_all]. rewrite Hp. split; [done|]. split; [congruence|]. split; [done|]. cbn in Hl. lia.
Qed.

Definition demo (top : Z) : vmem := vmem_create false top 4096 true true 4096 0.

Lemma demo_empty top k : vm_mem (demo top) !! Seg k = None.
Proof.
  unfold demo, vmem_create. cbn [vm_mem]. rewrite lookup_insert_ne by done. unfold flist_heads.
  apply not_elem_of_list_to_map_1. rewrite <- list_fmap_compose. intros (i & E & _)%list_elem_of_fmap. done.
Qed.

(** Six spare segments, no span. *)
Lemma demo_arena top : ∃ v SF, populate_all (demo top) 6 = Some v ∧ conf v = conf (demo top) ∧ arena false top 0 v [] SF ∧ length SF = 6%nat.
Proof.
  destruct (populate_all_ok false top 0 [] 6 (demo top) []) as (v & SF & H1 & H2 & H3 & H4); [|intros k _; apply demo_empty|by exists v, SF].
  apply (vmem_create_ok false top 4096 12); [done|by vm_compute].
Qed.

(** With a span of [n] bytes at 4096. *)
Lemma demo_span top n :
  (4096 | n) → 0 < n → 4096 + n <= 2 ^ 32 →
  ∃ v p1 p2 SF, (let? v := chk (populate_all (demo top) 6) in vmem_span_create false v 4096 n 0) = Ok (v, p2) ∧ conf v = conf (demo top) ∧
    arena false top 0 v [new_span p1 p2 4096 n 0] SF ∧ length SF = 4%nat.
Proof.
  intros Hd H0 Hn. destruct (demo_arena top) as (v & SF & -> & Hc & Ha & Hl). cbn [chk]. destruct SF as [|p1 [|p2 SF]]; [done|done|].
  destruct (vmem_span_create_ok false top _ _ _ _ _ _ 4096 n 0 Ha) as (v' & Hs & Hc' & Ha').
  { rewrite (conf_quantum _ _ Hc). constructor; [change (VMEM_FREELISTS false) with 32; lia| |constructor]. split; [by exists 1|]. apply Z.divide_add_r; [by exists 1|done]. }
  exists v', p1, p2, SF. split; [done|]. split; [congruence|]. split; [done|]. by injection Hl.
Qed.

Lemma demo_request sz flags : 0 < sz → sz <= 2 ^ 31 → request false 4096 (XArgs sz 4096 0 0 0 0 flags).
Proof.
  intros H0 H1. assert (VMEM_FREELISTS false = 32) as E by done. constructor; unfold x_limit; cbn [x_size x_align x_phase x_nocross x_minaddr x_maxaddr]; rewrite ?E; try lia.
  - exists 12. split; [by vm_compute|done].
  - split; [by exists 1|by exists 0].
  - change (0 =? 0) with true. cbn [negb]. lia.
Qed.

Lemma demo_sim : sim false 0 (Sys (demo 0) []) (AState [] []).
Proof.
  exists []. split; [|done]. constructor; cbn; [|done|constructor|constructor].
  exists []. apply (vmem_create_ok false 0 4096 12); [done|by vm_compute].
Qed.

(** A thread that is waiting for 64 Kbytes, aligned to [al], from a source
    that aligns to 4096. *)
Lemma demo_import al :
  al = 4096 ∨ al = 65536 →
  ∃ v, conf v = conf (demo 0) ∧ sim false 0 (Sys v [XThread (XArgs 65536 al 0 0 0 0 0) (X_import 65536) false]) (AState [] []).
Proof.
  intros Hal. destruct (demo_arena 0) as (v & SF & _ & Hc & Ha & Hl). apply (arena_reserve _ _ _ _ _ _ 4) in Ha.
  pose proof (arena_nseg _ _ _ _ _ _ Ha) as Hn. rewrite Hl in Hn.
  set (v1 := with_segfree v (vm_nsegfree v - 4) (vm_segfree v)) in *. assert (conf v1 = conf (demo 0)) as Hc1 by exact Hc.
  exists v1. split; [done|]. exists []. split; [|done]. constructor; cbn [y_thr y_vm]; [by exists SF|lia| |constructor].
  apply Forall_singleton. constructor; cbn [t_args x_size t_pc].
  - rewrite (conf_quantum _ _ Hc1). assert (VMEM_FREELISTS false = 32) as E by done.
    constructor; unfold x_limit; cbn [x_size x_align x_phase x_nocross x_minaddr x_maxaddr]; rewrite ?E; try lia.
    + destruct Hal as [->| ->]; [exists 12|exists 16]; done.
    + split; [|by exists 0]. destruct Hal as [->| ->]; [by exists 1|by exists 16].
    + change (0 =? 0) with true. lia.
  - by left.
  - intros asize [= <-]. destruct (conf_source _ _ Hc1) as (-> & _). split_and!; [done|done|].
    rewrite (conf_import_size false _ _ _ Hc1). destruct Hal as [->| ->]; by vm_compute.
Qed.

Lemma demo_legal v al vaddr :
  conf v = conf (demo 0) → 0 < vaddr → vaddr + 65536 <= 2 ^ 32 → (4096 | vaddr) →
  legal false 0 (Sys v [XThread (XArgs 65536 al 0 0 0 0 0) (X_import 65536) false]) (AState [] []) (E_step 0 (I_addr vaddr)).
Proof.
  intros Hc H0 H1 Hd t asize [= <-] [= <-]. right. cbn [y_vm]. rewrite (conf_quantum _ _ Hc). constructor; [|split; [done|]| |by left].
  - change (VMEM_FREELISTS false) with 32. lia.
  - apply Z.divide_add_r; [done|by exists 16].
  - by intros lo hi i ?%elem_of_nil.
Qed.

(** The source returns 0x11000: the allocation is made there. *)
Lemma vmem_simulation_witness :
  ∃ v s' o a', let s := Sys v [XThread (XArgs 65536 4096 0 0 0 0 0) (X_import 65536) false] in
    sys_step false s (E_step 0 (I_addr 0x11000)) = Some (Ok (s', o)) ∧ sim false 0 s' a' ∧ astep false (AState [] []) o a'.
Proof.
  destruct (demo_import 4096 ltac:(by left)) as (v & Hc & Hsim). exists v. set (s := Sys v _) in *.
  assert (legal false 0 s (AState [] []) (E_step 0 (I_addr 0x11000))) as Hleg by (apply demo_legal; [done|done|done|by exists 17]).
  destruct (sys_step false s (E_step 0 (I_addr 0x11000))) as [step|] eqn:Hst; [|discriminate Hst].
  destruct (vmem_simulation false 0 s (AState [] []) (E_step 0 (I_addr 0x11000)) step Hsim Hleg Hst)
    as [(s' & o & a' & -> & H1 & H2)|[[_ (i & inp & t & [= <- <-] & [= <-] & Hf)]|[_ (i & vaddr & t & asize & [= <- <-] & [= <-] & [= <-] & Hlt & _)]]].
  - exists s', o, a'. exact (conj Hst (conj H1 H2)).
  - vm_compute in Hf. discriminate Hf.
  - exfalso. vm_compute in Hlt. discriminate Hlt.
Defined.

(** 100 bytes are allocated at 4096. *)
Lemma demo_alloc : ∃ v L SF, arena false 0 0 v L SF ∧ 0 <= vm_nsegfree v ∧ abs L = AState [(4096, 69632, 0)] [(4096, 100)].
Proof.
  destruct (demo_span 0 65536) as (v & p1 & p2 & SF & _ & Hc & Ha & Hl); [by exists 16|done|done|]. pose proof (arena_nseg _ _ _ _ _ _ Ha) as Hn. rewrite Hl in Hn.
  set (x := XArgs 100 4096 0 0 0 0 0). set (g := GSeg p2 4096 (4096 + 65536) VMEM_FREE 0). assert (vm_quantum v = 4096) as Eq by (by rewrite (conf_quantum _ _ Hc)).
  destruct (take_step false 0 0 v v _ SF g x 4096 (vm_nsegfree v) Ha eq_refl) as (v' & L' & SF' & _ & _ & Ha' & Hn' & _ & _ & P2 & P3);
    [cbn; set_solver|done|rewrite Eq; by apply demo_request|by constructor; [vm_compute; intuition congruence..|done|left]|lia|done|by repeat constructor; left|].
  exists v', L', SF'. split; [done|]. split; [lia|]. destruct (abs L') as [sp rs]. cbn in P2, P3. subst sp. f_equal. by apply Permutation_singleton_r.
Qed.

(** A run: a thread asks for 64 Kbytes, four segments come, it finds nothing
    and asks the source, which returns 0x11000. *)
Definition demo_step (s : sys) (e : event) : sys := match sys_step false s e with Some (Ok (s', _)) => s' | _ => s end.
Definition demo_events : list event :=
  [E_call (XArgs 65536 4096 0 0 0 0 0); E_step 0 (I_seg 0 zero_seg); E_step 0 (I_seg 1 zero_seg); E_step 0 (I_seg 2 zero_seg);
   E_step 0 (I_seg 3 zero_seg); E_step 0 I_none; E_step 0 (I_addr 0x11000)].

Lemma vmem_exclusive_witness :
  let s := foldl demo_step (Sys (demo 0) []) demo_events in
  ∃ allocs, vmem_walk false (y_vm s) VMEM_ALLOC = Some allocs ∧ allocs ≡ₚ [(0x11000, 65536)].
Proof.
  intros s. assert (served false 0 s (O_alloc (XArgs 65536 4096 0 0 0 0 0) 0x11000 :: replicate 6 O_none)) as Hs.
  { unfold s, demo_events. cbn [foldl replicate].
    repeat match goal with |- served _ _ (demo_step ?s ?e) (?o :: ?outs) =>
      apply (served_step false 0 s outs e (demo_step s e) o); [| |vm_compute; reflexivity] end.
    1: by apply (served_create false 0 4096 12).
    all: lazymatch goal with
    | |- callable _ _ _ _ (E_call _) => split; [|by left]; by apply demo_request
    | |- callable _ _ _ _ (E_step _ (I_seg _ _)) => vm_compute; reflexivity
    | |- callable _ _ _ _ (E_step _ I_none) => exact I
    | |- _ => idtac
    end.
    intros t asize Ht Hpc. right. vm_compute in Ht. injection Ht as <-. injection Hpc as <-.
    unfold new_range. replace (vm_quantum _) with 4096 by (vm_compute; reflexivity).
    split; [done|]. split; [done|]. split; [done|]. split; [by exists 17|]. split; [by exists 33|]. split; [by left|].
    intros spans b n Hw. vm_compute in Hw. injection Hw as <-. by intros ?%elem_of_nil. }
  destruct (vmem_exclusive false 0 s _ Hs) as (_ & allocs & spans & Hw & Hp & _). exists allocs. exact (conj Hw Hp).
Defined.

Lemma vmem_wellformed_witness : ∃ L SF, arena false 0 0 (demo 0) L SF.
Proof. apply (vmem_wellformed false 0). apply (R_create false 0 4096 12); [done|by vm_compute]. Defined.

Lemma vmem_search_correct_witness :
  ∃ v ks o, xalloc_search false v (XArgs 100 4096 0 0 0 0 0) = Some (with_kstat v ks, o).
Proof.
  destruct (demo_span 0 65536) as (v & p1 & p2 & SF & _ & Hc & Ha & _); [by exists 16|done|done|]. exists v.
  destruct (vmem_search_correct false 0 0 v _ SF (XArgs 100 4096 0 0 0 0 0) Ha) as (ks & o & Hs & _); [|by left|by exists ks, o].
  rewrite (conf_quantum _ _ Hc). by apply demo_request.
Defined.

Lemma vmem_xfree_correct_witness : ∃ v, vmem_xfree false v 8192 4096 = Panic Bad_free.
Proof.
  destruct (demo_span 0 65536) as (v & p1 & p2 & SF & _ & Hc & Ha & _); [by exists 16|done|done|]. exists v.
  destruct (vmem_xfree_correct false 0 0 v [] _ [] SF 8192 4096 Ha) as (Hb & _). apply Hb. intros n Hin. cbn in Hin. by apply elem_of_nil in Hin.
Defined.

(** The search finds a place for 100 bytes in the span. *)
Lemma demo_search v p1 p2 SF :
  arena false 0 0 v [new_span p1 p2 4096 65536 0] SF → conf v = conf (demo 0) →
  ∃ v1 p addr, xalloc_search false v (XArgs 100 4096 0 0 0 0 0) = Some (v1, Some (p, addr)).
Proof.
  intros Ha Hc. set (x := XArgs 100 4096 0 0 0 0 0). assert (vm_quantum v = 4096) as Eq by (by rewrite (conf_quantum _ _ Hc)).
  destruct (arena_search false 0 _ _ _ _ 4096 x Ha) as (ks & o & Hs & _ & Hfd); [by apply demo_request|by left|]. destruct o as [[p addr]|]; [by eexists _, p, addr|exfalso].
  apply (Hfd (GSeg p2 4096 (4096 + 65536) VMEM_FREE 0)); [cbn; set_solver| |].
  - split; [done|]. change (flist_of _) with 16%nat. destruct (first_flist_cases false v x) as [[-> _]|[-> _]]; [done|vm_compute; congruence..].
  - eapply (plain_place false 0); [exact Ha|unfold plain; by rewrite Eq|cbn; set_solver|done|vm_compute; congruence].
Qed.

Lemma vmem_alloc_free_witness :
  ∃ v v1 v2 v3 p addr, xalloc_search false v (XArgs 100 4096 0 0 0 0 0) = Some (v1, Some (p, addr)) ∧
    xalloc_take false v1 (XArgs 100 4096 0 0 0 0 0) p addr = Ok v2 ∧ vmem_xfree false v2 addr 100 = Ok (v3, None) ∧ same_view false v v3.
Proof.
  destruct (demo_span 0 65536) as (v & p1 & p2 & SF & _ & Hc & Ha & Hl); [by exists 16|done|done|]. destruct (demo_search v p1 p2 SF Ha Hc) as (v1 & p & addr & Hs).
  destruct (vmem_alloc_free false 0 0 v _ SF (XArgs 100 4096 0 0 0 0 0) v1 p addr Ha) as (v2 & v3 & H1 & H2 & H3); [|by left|lia| |done|by exists v, v1, v2, v3, p, addr].
  - rewrite (conf_quantum _ _ Hc). by apply demo_request.
  - intros s ->%list_elem_of_singleton. done.
Defined.

(** 64 Kbytes aligned to 64 Kbytes, of a source that aligns to 4096. *)
Lemma vmem_import_panics_witness :
  ∃ v, sys_step false (Sys v [XThread (XArgs 65536 65536 0 0 0 0 0) (X_import 65536) false]) (E_step 0 (I_addr 0x11000)) = Some (Panic Bad_arguments).
Proof.
  destruct (demo_import 65536 ltac:(by right)) as (v & Hc & Hsim). exists v.
  apply (vmem_import_panics false 0 _ (AState [] []) 0 (XThread (XArgs 65536 65536 0 0 0 0 0) (X_import 65536) false) 65536 0x11000 12 Hsim); try done.
  - cbn [y_vm]. by destruct (conf_source _ _ Hc) as (_ & -> & _).
  - apply demo_legal; [done|done|done|by exists 17].
  - intros [k Hk]. cbn in Hk. lia.
Defined.

(** 2 Gbytes are free; the request is for an address below the span. *)
Lemma vmem_search_loops_witness :
  let x := XArgs 100 4096 0 0 0 4096 0 in
  ∃ v ch, vm_mem v !! Flist (Z.to_nat (first_flist false v x)) = Some ch ∧ never_returns (search_step false x) (v, vs_knext ch, None).
Proof.
  intros x. destruct (demo_span 1 (2 ^ 31)) as (v & p1 & p2 & SF & _ & Hc & Ha & _); [by exists (2 ^ 19)|done|by vm_compute|]. exists v.
  apply (vmem_search_loops false 1 0 v _ SF x (GSeg p2 4096 (4096 + 2 ^ 31) VMEM_FREE 0) eq_refl Ha).
  - rewrite (conf_quantum _ _ Hc). constructor; try by vm_compute.
    + by exists 12.
    + by left.
    + split; [by exists 1|by exists 0].
  - cbn. set_solver.
  - done.
  - by vm_compute.
  - intros h Hh Ht [b [[B1 _] [_ B2] _ _]]. cbn in Hh. apply elem_of_cons in Hh as [->|Hh]; [done|]. apply list_elem_of_singleton in Hh as ->. cbn in *. lia.
Defined.

Lemma vmem_views_witness :
  ∃ v, vmem_walk false v VMEM_FREE = Some [(4096, 65536)] ∧ vmem_size false v VMEM_FREE = 65536 ∧
    ∃ ks, vmem_contains false v 8192 4096 = Some (with_kstat v ks, true).
Proof.
  destruct (demo_span 0 65536) as (v & p1 & p2 & SF & _ & Hc & Ha & _); [by exists 16|done|done|]. exists v.
  destruct (vmem_views false 0 0 v _ SF Ha) as (Hw & Hco & _ & Hs & _). split; [by rewrite Hw|]. split; [by rewrite Hs|].
  destruct (Hco 8192 4096) as (ks & Hk & _); [done|done|done|]. by exists ks.
Defined.

Lemma vmem_rescale_correct_witness :
  ∃ v v', vmem_hash_rescale false false v = Some v' ∧ vm_kstat v' = vm_kstat v.
Proof.
  destruct demo_alloc as (v & L & SF & Ha & _ & _). exists v. destruct (vmem_rescale_correct false 0 0 v L SF false Ha) as (v' & Hr & _ & Hk & _). by exists v'.
Defined.
